(* ===== verification/_CoqProject ===== *)
-Q . S2P
Prelude.v
Ref.v
RollSum.v
Strutil.v
SortedKV.v
Buffer.v
Lru.v
Gc.v
Sha1.v
Storage.v
Enumerate.v
Receive.v
Memory.v
Shard.v
Namespace.v
Replica.v
PackFmt.v
Diskpacked.v
Times.v
Json.v
Runes.v
Schema.v
FileReader.v
FileWriter.v
FileSize.v
IndexKeys.v
Corpus.v
CorpusRows.v
CorpusSpec.v
CorpusLife.v
Armor.v
Jsonsign.v
Claims.v
Dirs.v
Media.v
Index.v
IndexReceive.v
IndexLaws.v
Constraint.v
Predicate.v
SearchExpr.v
Describe.v
Search.v
ExprLaws.v
SearchLaws.v
SearchPages.v
Zip.v
BlobPacked.v
PackLaws.v
PackOps.v
PackWhole.v
PackEnds.v
Serve.v
Share.v
