(* ===== verification/Prelude.v ===== *)
(** * Camlistore: the blob layer, verified

    A personal storage system is built here on content-addressed blobs.  This
    library models the Go packages under src/pkg that carry that idea, from
    the reference of a blob up to the storages that are composed of others
    and the files cut into blobs, and proves what makes each of them correct.

    ** Files, and what they model

    - [Prelude] (this file): Go strings as lists of bytes, fixed-width
      integers as [Z] with their wrap-around written out, results
      ([Ok], [Err], [Panic], [Blocked]), byte order, sorted maps.
    - [Ref]: pkg/blob/ref.go.  [Ref] is the digest of a blob; [Parse],
      [String] ([RefString]), JSON and binary forms, [Less], [Sum32].
    - [Sha1]: the hash itself (crypto/sha1 of Go's standard library) and
      [SHA1FromString], [RefFromString].
    - [RollSum]: pkg/rollsum, the rolling checksum that cuts files.
    - [Strutil]: pkg/strutil and pkg/index/reversetime.go.
    - [SortedKV]: pkg/sorted, the interface ([KV], [KVLaws]) and the in-memory
      store; [Buffer]: pkg/sorted/buffer, a write buffer over any two stores.
    - [Lru]: pkg/lru.  [Gc]: pkg/gc, mark and sweep over goroutines.
    - [Storage]: pkg/blobserver/interface.go.  [Storage] is the class of blob
      storages and [StorageLaws] what the interface comments promise, over a
      finite map of blobs ([st_view]); [map_Storage] is the reference instance.
    - [Enumerate]: pkg/blob/chanpeek.go and pkg/blobserver/mergedenum.go,
      enumerate.go and sync.go.
    - [Receive]: pkg/blobserver/receive.go and blobhub.go.
    - [Memory]: pkg/blobserver/memory, an instance of the laws, and its cache
      mode over [Lru].
    - [Shard], [Namespace], [Replica]: the storages of that name under
      pkg/blobserver, each over any lawful storages.
    - [PackFmt] and [Diskpacked]: pkg/blobserver/diskpacked.  [PackFmt] is the
      record format with its readers (the walkers of reindex.go,
      StreamBlobs) and deletion in place (dele.go); [Diskpacked] the storage,
      its writer, its index and Reindex.
    - [Json]: encoding/json as the schema code uses it: [render] is
      MarshalIndent, [decodeValue] the decoder's syntax, on bytes.
    - [Schema]: pkg/schema/schema.go and blob.go, builders and supersets.
    - [FileReader]: pkg/schema/filereader.go over any storage, with pkg/blob's
      FromFetcher.  [FileWriter]: pkg/schema/filewriter.go over any storage;
      [FileSize] has how large the schema texts of a written file get.
    - [Times]: pkg/types, RFC 3339 times on Go's calendar.
    - [IndexKeys]: pkg/index/keys.go and the functions of index.go that read
      rows back: every key type, its escaping and its prefixes.
    - [Corpus]: pkg/index/corpus.go, the index in memory and its queries;
      [CorpusRows] the functions that fill it from rows; [CorpusSpec] the map
      that the rows stand for; [CorpusLife] the steps of a running corpus.
    - [Armor]: the ASCII armor of OpenPGP (src/third_party), encoder and
      decoder.  [Jsonsign]: pkg/jsonsign, signing and verifying; packets and
      keys of OpenPGP are the class [PGP].  [Claims]: claims and shares of pkg/schema, built, signed and read.
      [Dirs]: directories and their entries.  [Media]: pkg/magic and pkg/media.
    - [Index]: pkg/index/index.go, the state of the index, its opening and its
      queries.  [IndexReceive]: pkg/index/receive.go and sniff.go, what is
      written for each kind of blob, waiting for missing blobs, the
      out-of-order loop and Reindex; EXIF, image and MP3 decoders are
      parameters.  [IndexLaws] relates them.
    - [Runes]: what search needs of Go's strings: UTF-8, folding over Unicode
      tables that are a class, quoted strings, floating point numbers.
    - [Constraint], [Predicate], [SearchExpr]: pkg/search, the types of
      query.go, the predicates and the lexer and parser of search
      expressions.  [Describe]: describe.go.  [Search]: matching and running
      queries, and the requests of handler.go. [ExprLaws],
      [SearchLaws] and [SearchPages] hold what is proved of them: the parser
      ends, queries do not panic, pages are complete.
    - [Zip]: the zip writer of src/third_party/go/pkg/archive/zip; compression
      is the class [Flate].  [BlobPacked]: pkg/blobserver/blobpacked, blobs
      packed into zips: its rows, the packer and the operations of the
      storage.  [PackLaws] has the invariant and what packing keeps,
      [PackOps] the operations against the blobs held, [PackWhole] what is
      written of a whole file, [PackEnds] that the loops end.
    - [Serve]: pkg/blobserver/gethandler and pkg/server/download.go, blobs and
      files over HTTP.  [Share]: pkg/server/share.go, what is shared and the
      handler that serves it.

    ** How the parts interact

    A client of a storage is proved against [StorageLaws], never against an
    implementation; [Memory] and the reference map are instances.  [Receive]
    is a storage, a hash and a hub; [FileWriter] stats and uploads through it,
    and [FileReader] fetches; both are proved for every lawful storage, so for
    [Memory], [Diskpacked] or [Shard] alike.  [Enumerate] merges the enumerations of a
    list of storages, and [Shard] and [Replica] enumerate with it.
    [Namespace] combines a [KV] and a [Storage]; [BlobPacked] two storages and a [KV], and reads
    the files it packs with [FileReader] through itself.  [Buffer] combines two [KV]s.
    The corpus reads any [KV]; [IndexKeys] is what it shares with the index.
    [Search] asks the corpus and the index, and describes what it found with
    [Describe].

    ** How code is translated

    A method is a function from the receiver's record to its new value and a
    [res].  A mutex held for a whole method makes it one step.  A channel that
    a goroutine fills and another drains is the list of what is sent; where
    the number of buffered items decides whether a sender blocks, the model
    counts them ([Gc], [Enumerate]).  The order in which goroutines finish is
    a parameter ([arrive], [interleave], [lastErr], [firstErr], [sched]) of
    which only what every schedule satisfies is assumed: a permutation, a
    member.  A context is the number of sends after which it is done.  Go's
    maps are [gmap]s, visited in key order where the code's result does not
    depend on the order, and in a given order where it does.

    ** Groups of theorems

    - Round trips and order of references: [Ref.Parse_String],
      [Ref.Parse_sound], [Ref.JSON_roundtrip], [Ref.Binary_roundtrip],
      [Ref.Less_String].
    - Storages refine maps of blobs: [Memory.memPlain_spec],
      [Namespace.nsEnumerate_spec],
      [Replica.replica_receive_quorum], and the invariants they keep.
    - Uploads are checked and announced: [Receive.Receive_spec].
    - Enumerations are sorted, complete, cut at the limit, and terminate:
      [Enumerate.MergedEnumerate_spec], [Enumerate.EnumerateAll_spec],
      [Enumerate.ListMissing_spec].
    - Key/value stores refine maps: [Buffer.buffer_refines], [Lru.lru_refines].
    - Nothing reachable is collected, everything else is:
      [Gc.Collect_safe].
    - Pack files: a failing upload harms nothing ([Diskpacked.dpReceive_safe]),
      a lost index can be rebuilt ([Diskpacked.Reindex_restores]), reading is
      reading a map ([Diskpacked.dp_reads]), streaming resumes from its tokens
      ([PackFmt.dpStream_resumes]), deletion touches one record
      ([PackFmt.deleteRecord_confined]).
    - Files: the JSON of a file's blob reads back as built
      ([Schema.file_blob_roundtrip]); a stream is cut into chunks within
      bounds ([FileWriter.writeFileChunks_cuts]); a written file stands for
      the stream's bytes ([FileWriter.WriteFileFromReader_file]) in the sense
      that its readers use ([FileReader.ReadAt_file]), so that what is written
      is read back ([FileWriter.written_file_reads]), as long as its schema
      blobs stay below 1 MB ([FileSize.small_file_fits]).
    - Signatures: what verifies was signed by the key it names
      ([Jsonsign.Verify_sound]), and what is signed verifies
      ([Jsonsign.Sign_verifies]), the armor included
      ([Jsonsign.reArmor_decodes]).  A claim that is built and signed is read as
      it was meant ([Claims.claim_signed_roundtrip]).  A directory lists its
      entries in order ([Dirs.Readdir_lists]).
    - Rows: times and claims are read back from the text that was written
      ([Times.Time3339_roundtrip], [IndexKeys.claim_rows_roundtrip]).
    - The corpus: loading a store gives the corpus of its rows
      ([CorpusSpec.NewCorpusFromStorage_holds]), and receiving blob by blob
      the same as loading ([CorpusSpec.addBlob_refines_scan]); attributes are
      the fold of the claims that count ([Corpus.PermanodeAttrValues_spec],
      [Corpus.PermanodeHasAttrValue_spec]); chains of deletions end
      ([Corpus.IsDeleted_terminates]); enumerations stay in order whatever
      happened before ([CorpusLife.EnumeratePermanodesLastModified_order]).
    - The index: the cache of deletions answers as the rows do
      ([IndexLaws.IsDeleted_cached]), but a new index forgets it
      ([IndexLaws.New_forgets_deletions]); a blob that came too early is
      indexed again once what it needs has come ([IndexLaws.late_blobs_wake]).
    - Search: every expression is parsed or refused, and what is parsed is a
      constraint that matching can run ([ExprLaws.parseExpression_total]); a
      valid constraint, but for one on directories, never makes a query panic
      ([SearchLaws.Query_never_panics]); the pages that a client asks for with
      continue tokens hold every match once, in order
      ([SearchPages.pages_complete]).
    - Packing: however it ends it keeps every blob ([PackOps.packFile_keeps]);
      when it succeeds the index says where in the zips the file is
      ([PackWhole.packFile_whole]); it ends when the chunks fit
      ([PackEnds.packFile_ends]).  The storage refines the map of its packed
      and small blobs ([PackOps.blobpacked_refines]).
    - Sharing: nothing is served that is not shared
      ([Share.share_serves_only_shared]), everything shared can be had
      ([Share.share_serves_all_shared]), and refusals do not tell what is
      there ([Share.share_refuses_alike]).

    ** Fuel

    Loops that are not structural take fuel, and the theorems give an amount
    that suffices: [Memory.evict] runs once more than the cache has entries,
    [Enumerate.enumerateFrom] once more than there are blobs left,
    [Enumerate.listMissing] once more than both inputs have items,
    [Gc.Collect] a number of items bounded by the finite graph.
    [Json.decodeValue] has twice the length of its text, which any greater
    amount agrees with ([Json.decodeValue_fuel]); [FileReader.ReadAt] takes
    the depth of nesting, at most 31 for written files, and one more;
    [FileWriter.chunkLoop] one more than the bytes of the source;
    [Corpus.IsDeleted] a depth that exceeds every chain of deletions
    ([Corpus.deleteFuel]); [SearchExpr.parseExpression] sixteen steps for each
    byte and sixteen more ([ExprLaws.parseExpression_total]); matching recurses
    on the constraint, and only the chain of check-ins and venues has fuel
    ([Search.venueFuel]); a description takes its depth; [BlobPacked.makeZips] takes a square of
    the number of chunks, enough when each fits in a zip
    ([PackEnds.packFile_ends]; where one does not, the code itself goes on
    forever, [PackEnds.tight_store_spins]).  Running out is a [Panic], which
    the theorems exclude.

    ** Not modelled

    Time, logging and closing of readers; readers are the bytes they deliver
    and how they end.  In the corpus: the
    interning of strings; in the index: its construction from a configuration; the order of a Go map is the parameter [arrange] and
    sort.Sort, which is not stable, the parameter [sortBy].  Of OpenPGP, everything but the armor.
    In search: the JSON of requests and replies, the hub of WebSocket
    clients, the tables of Unicode (a class) and the geocoder (a parameter),
    and the reuse of one describe request by several.
    In blobpacked: reading zips back, and so the deletion of zips and the
    streaming of blobs; [Zip] has no reader.
    Start-up code that only looks up configured parts.  Parts that are I/O towards third-party services, databases, FUSE and
    HTTP.  PROJECT.json lists every component with its status. *)

From Stdlib Require Export ZArith Lia Ascii String.
From stdpp Require Export base list gmap strings sorting.

#[global] Set Default Goal Selector "!".
#[global] Open Scope Z_scope.
#[global] Open Scope list_scope.

Create HintDb camli.

#[global] Arguments Nat.div : simpl never.
#[global] Arguments Nat.modulo : simpl never.
#[global] Arguments Z.mul : simpl never.
#[global] Arguments Z.add : simpl never.
#[global] Arguments Z.sub : simpl never.
#[global] Arguments Z.of_nat : simpl never.

Declare Scope go_scope.
Delimit Scope go_scope with go.
#[global] Open Scope go_scope.

(** * Go strings and byte slices

    A Go [string] and a Go [[]byte] are both finite sequences of bytes; both
    are lists of 8-bit characters here.  [gs] turns a literal into one. *)

Abbreviation gostr := (list ascii).

Definition gs (s : string) : gostr := list_ascii_of_string s.

#[global] Instance ascii_eq_dec : EqDecision ascii := Ascii.eq_dec.
#[global] Instance ascii_countable : Countable ascii := Ascii.countable.

(** The numeric value of a byte and the byte of a number (taken modulo 256,
    as a conversion to Go's [byte] does). *)
Definition bz (c : ascii) : Z := Z.of_N (N_of_ascii c).
Definition zb (z : Z) : ascii := ascii_of_N (Z.to_N (z mod 256)).

Lemma bz_range c : 0 <= bz c < 256.
Proof. unfold bz. pose proof (N_ascii_bounded c). lia. Qed.

Lemma zb_bz c : zb (bz c) = c.
Proof.
  unfold zb. rewrite Z.mod_small by apply bz_range.
  unfold bz. rewrite N2Z.id. apply ascii_N_embedding.
Qed.

Lemma bz_zb z : bz (zb z) = z mod 256.
Proof.
  unfold bz, zb. pose proof (Z.mod_pos_bound z 256).
  rewrite N_ascii_embedding; lia.
Qed.

Lemma bz_zb_small z : 0 <= z < 256 -> bz (zb z) = z.
Proof. intros. rewrite bz_zb. by apply Z.mod_small. Qed.

Lemma bz_inj c d : bz c = bz d -> c = d.
Proof. intros H. by rewrite <- (zb_bz c), H, zb_bz. Qed.

#[global] Instance bz_Inj : Inj (=) (=) bz := bz_inj.

(** Go's [len]. *)
Definition glen {A} (l : list A) : Z := Z.of_nat (length l).

(** [strings.Index(s, sep)] for a one-byte separator and [bytes.IndexByte]:
    [None] is Go's [-1]. *)
Fixpoint index_byte (c : ascii) (s : gostr) : option nat :=
  match s with
  | [] => None
  | x :: s' => if decide (x = c) then Some O else S <$> index_byte c s'
  end.

Lemma index_byte_app c s t :
  c ∉ s -> index_byte c (s ++ c :: t) = Some (length s).
Proof.
  induction s as [|x s IH]; intros Hn; simpl.
  - by rewrite decide_True.
  - apply not_elem_of_cons in Hn as [Hx Hs].
    rewrite decide_False by congruence. by rewrite IH.
Qed.

Lemma index_byte_Some c s i :
  index_byte c s = Some i ->
  s = take i s ++ c :: drop (S i) s /\ c ∉ take i s /\ length (take i s) = i.
Proof.
  revert i. induction s as [|x s IH]; intros i H; simpl in H; [done|].
  destruct (decide (x = c)) as [->|Hne].
  - injection H as <-. simpl. split_and!; [by rewrite drop_0|set_solver|done].
  - destruct (index_byte c s) as [j|] eqn:E; simplify_eq/=.
    destruct (IH j eq_refl) as (Hs & Hn & Hl).
    split_and!; [by f_equal|set_solver|by rewrite Hl].
Qed.

Lemma index_byte_None c s : (index_byte c s = None) <-> (c ∉ s).
Proof.
  induction s as [|x s IH]; simpl; [set_solver|].
  rewrite not_elem_of_cons. destruct (decide (x = c)) as [->|Hne]; [naive_solver|].
  rewrite fmap_None. naive_solver.
Qed.

(** * Fixed-width integers *)

Definition u8 (z : Z) : Z := z mod 2 ^ 8.
Definition u32 (z : Z) : Z := z mod 2 ^ 32.
Definition u64 (z : Z) : Z := z mod 2 ^ 64.
(** Two's complement [int64] (and [int] on 64-bit targets). *)
Definition i64 (z : Z) : Z := (z + 2 ^ 63) mod 2 ^ 64 - 2 ^ 63.

Lemma u32_small z : 0 <= z < 2 ^ 32 -> u32 z = z.
Proof. apply Z.mod_small. Qed.
Lemma u64_small z : 0 <= z < 2 ^ 64 -> u64 z = z.
Proof. apply Z.mod_small. Qed.
Lemma u32_range z : 0 <= u32 z < 2 ^ 32.
Proof. apply Z.mod_pos_bound. lia. Qed.
Lemma u64_range z : 0 <= u64 z < 2 ^ 64.
Proof. apply Z.mod_pos_bound. lia. Qed.
Lemma i64_small z : - 2 ^ 63 <= z < 2 ^ 63 -> i64 z = z.
Proof. intros. unfold i64. rewrite Z.mod_small; lia. Qed.

Lemma lor_mul_pow2 v b n :
  0 <= n -> 0 <= b < 2 ^ n -> Z.lor (v * 2 ^ n) b = v * 2 ^ n + b.
Proof.
  intros Hn Hb. symmetry. apply Z.add_nocarry_lor. apply Z.bits_inj'. intros i Hi.
  rewrite Z.bits_0, Z.land_spec, <- Z.shiftl_mul_pow2, Z.shiftl_spec by lia.
  destruct (Z.ltb_spec i n); [by rewrite Z.testbit_neg_r by lia|].
  rewrite (proj1 (Z.bounded_iff_bits_nonneg n b ltac:(lia) ltac:(lia)) ltac:(lia) i) by lia.
  apply andb_false_r.
Qed.

(** Lengths as integers. *)
Lemma glen_drop {A} (o : Z) (l : list A) : 0 <= o -> glen (drop (Z.to_nat o) l) = Z.max 0 (glen l - o).
Proof. intros Ho. unfold glen in *. rewrite length_drop. lia. Qed.

Lemma glen_app {A} (l k : list A) : glen (l ++ k) = glen l + glen k.
Proof. unfold glen. rewrite length_app. lia. Qed.

Lemma glen_nonneg {A} (l : list A) : 0 <= glen l.
Proof. unfold glen. lia. Qed.

Lemma glen_0 {A} (l : list A) : glen l = 0 -> l = [].
Proof. unfold glen. destruct l; [done|simpl; lia]. Qed.

(** * Results

    A Go call returns a value, returns an error, panics, or blocks forever
    on a channel. *)

Inductive error :=
| ErrNotExist                (* os.ErrNotExist *)
| ErrNotFound                (* sorted.ErrNotFound *)
| ErrCorruptBlob             (* blobserver.ErrCorruptBlob *)
| ErrNotImplemented          (* blobserver.ErrNotImplemented *)
| ErrCanceled                (* context.ErrCanceled *)
| ErrEOF                     (* io.EOF *)
| ErrUnexpectedEOF           (* io.ErrUnexpectedEOF *)
| ErrSyntax                  (* strconv.ErrSyntax *)
| ErrRange                   (* strconv.ErrRange *)
| ErrMsg (msg : string).     (* errors.New / fmt.Errorf, by format string *)

#[global] Instance error_eq_dec : EqDecision error.
Proof. solve_decision. Defined.

Inductive res (A : Type) :=
| Ok (a : A)
| Err (e : error)
| Panic (msg : string)
| Blocked.
Arguments Ok {A} a.
Arguments Err {A} e.
Arguments Panic {A} msg.
Arguments Blocked {A}.

#[global] Instance res_eq_dec {A} `{EqDecision A} : EqDecision (res A).
Proof. solve_decision. Defined.

Definition rbind {A B} (m : res A) (f : A -> res B) : res B :=
  match m with
  | Ok a => f a
  | Err e => Err e
  | Panic s => Panic s
  | Blocked => Blocked
  end.

Notation "'let?' x ':=' m 'in' k" := (rbind m (fun x => k))
  (at level 10, x pattern, m at level 100, k at level 200) : go_scope.

(** A call that threads a state: its result, or how it ended. *)
Definition sbind {St A B} (m : St * res A) (k : St -> A -> St * res B) : St * res B :=
  match m with
  | (s, Ok a) => k s a
  | (s, Err e) => (s, Err e)
  | (s, Panic p) => (s, Panic p)
  | (s, Blocked) => (s, Blocked)
  end.
Notation "'let!' ( s , x ) ':=' m 'in' k" := (sbind m (fun s x => k))
  (at level 10, s name, x pattern, m at level 100, k at level 200) : go_scope.

Definition is_ok {A} (r : res A) : bool :=
  match r with Ok _ => true | _ => false end.

Lemma Ok_eq {A} (x y : A) : Ok x = Ok y -> x = y.
Proof. by intros [= ->]. Qed.

Lemma rbind_Ok {A B} (m : res A) (f : A -> res B) b :
  rbind m f = Ok b <-> exists a, m = Ok a /\ f a = Ok b.
Proof. destruct m; simpl; naive_solver. Qed.

(** A loop that stops at the first failure. *)
Definition rfold {A B} (f : A -> B -> res A) (l : list B) (a : A) : res A :=
  foldl (fun acc b => let? a := acc in f a b) (Ok a) l.

Lemma rfold_cons {A B} (f : A -> B -> res A) b l a : rfold f (b :: l) a = let? a' := f a b in rfold f l a'.
Proof.
  unfold rfold. cbn [foldl rbind]. destruct (f a b) as [a'|e|p|]; [done|induction l; done..].
Qed.

Lemma rfold_app {A B} (f : A -> B -> res A) l k a : rfold f (l ++ k) a = let? a' := rfold f l a in rfold f k a'.
Proof. revert a. induction l as [|b l IH]; intros a; [done|]. cbn [app]. rewrite !rfold_cons. destruct (f a b); [apply IH|done..]. Qed.

(** Go's nil-or-error results. *)
Abbreviation gerr := (option error).

(** * Byte-wise lexicographic order: Go's [<] on strings, [bytes.Compare] *)

Fixpoint str_compare (s t : gostr) : comparison :=
  match s, t with
  | [], [] => Eq
  | [], _ :: _ => Lt
  | _ :: _, [] => Gt
  | x :: s', y :: t' =>
      match Z.compare (bz x) (bz y) with
      | Eq => str_compare s' t'
      | c => c
      end
  end.

Definition str_ltb (s t : gostr) : bool :=
  match str_compare s t with Lt => true | _ => false end.
Definition str_leb (s t : gostr) : bool :=
  match str_compare s t with Gt => false | _ => true end.

Definition str_lt (s t : gostr) : Prop := str_ltb s t = true.
Definition str_le (s t : gostr) : Prop := str_leb s t = true.

#[global] Instance str_lt_dec : RelDecision str_lt.
Proof. intros s t. unfold str_lt. apply _. Defined.
#[global] Instance str_le_dec : RelDecision str_le.
Proof. intros s t. unfold str_le. apply _. Defined.

Lemma str_compare_refl s : str_compare s s = Eq.
Proof. induction s as [|x s IH]; simpl; [done|]. by rewrite Z.compare_refl. Qed.

Lemma str_compare_eq s t : str_compare s t = Eq <-> s = t.
Proof.
  split; [|intros ->; apply str_compare_refl].
  revert t. induction s as [|x s IH]; intros [|y t]; simpl; try done.
  destruct (Z.compare_spec (bz x) (bz y)) as [E|E|E]; try done.
  intros H. apply bz_inj in E. f_equal; auto.
Qed.

Lemma str_compare_antisym s t : str_compare t s = CompOpp (str_compare s t).
Proof.
  revert t. induction s as [|x s IH]; intros [|y t]; simpl; try done.
  rewrite (Z.compare_antisym (bz x) (bz y)).
  destruct (Z.compare (bz x) (bz y)); simpl; auto.
Qed.

Lemma str_compare_lt_trans s t u :
  str_compare s t = Lt -> str_compare t u = Lt -> str_compare s u = Lt.
Proof.
  revert t u. induction s as [|x s IH]; intros [|y t] [|z u]; simpl; try done.
  destruct (Z.compare_spec (bz x) (bz y)) as [E1|E1|E1];
    destruct (Z.compare_spec (bz y) (bz z)) as [E2|E2|E2];
    destruct (Z.compare_spec (bz x) (bz z)) as [E3|E3|E3];
    try done; try lia; eauto.
Qed.

Lemma str_lt_compare s t : str_lt s t <-> str_compare s t = Lt.
Proof. unfold str_lt, str_ltb. destruct (str_compare s t); naive_solver. Qed.

Lemma str_le_lt_eq s t : str_le s t <-> str_lt s t \/ s = t.
Proof.
  rewrite str_lt_compare, <- str_compare_eq.
  unfold str_le, str_leb. destruct (str_compare s t); naive_solver.
Qed.

Lemma str_lt_irrefl s : ~ str_lt s s.
Proof. rewrite str_lt_compare, str_compare_refl. done. Qed.

#[global] Instance str_lt_trans : Transitive str_lt.
Proof. intros s t u. rewrite !str_lt_compare. apply str_compare_lt_trans. Qed.

#[global] Instance str_lt_irreflexive : Irreflexive str_lt := str_lt_irrefl.

Lemma str_le_refl s : str_le s s.
Proof. apply str_le_lt_eq. by right. Qed.

#[global] Instance str_le_reflexive : Reflexive str_le := str_le_refl.

#[global] Instance str_le_trans : Transitive str_le.
Proof.
  intros s t u. rewrite !str_le_lt_eq. intros [H1| ->] [H2| ->]; auto.
  left. by transitivity t.
Qed.

Lemma str_not_le s t : ~ str_le s t <-> str_lt t s.
Proof.
  rewrite str_lt_compare, (str_compare_antisym s t).
  unfold str_le, str_leb. destruct (str_compare s t); naive_solver.
Qed.

Lemma str_not_lt s t : ~ str_lt s t <-> str_le t s.
Proof. rewrite <- str_not_le. destruct (decide (str_le t s)); tauto. Qed.

#[global] Instance str_le_total : Total str_le.
Proof.
  intros s t. destruct (decide (str_le s t)); [by left|right].
  apply str_not_le in n. apply str_le_lt_eq. by left.
Qed.

#[global] Instance str_le_antisym : AntiSymm (=) str_le.
Proof.
  intros s t [H1| ->]%str_le_lt_eq; [|done].
  intros [H2| ->]%str_le_lt_eq; [|done].
  destruct (str_lt_irrefl s). by transitivity t.
Qed.

Lemma str_lt_le s t : str_lt s t -> str_le s t.
Proof. rewrite str_le_lt_eq. auto. Qed.

Lemma str_lt_le_trans s t u : str_lt s t -> str_le t u -> str_lt s u.
Proof. rewrite str_le_lt_eq. intros H [H'| ->]; [by transitivity t|done]. Qed.

Lemma str_le_lt_trans s t u : str_le s t -> str_lt t u -> str_lt s u.
Proof. rewrite str_le_lt_eq. intros [H'| ->] H; [by transitivity t|done]. Qed.

Lemma str_nil_le s : str_le [] s.
Proof. by destruct s. Qed.

Lemma str_lt_app_l p s t : str_lt (p ++ s) (p ++ t) <-> str_lt s t.
Proof.
  rewrite !str_lt_compare. induction p as [|x p IH]; simpl; [done|].
  by rewrite Z.compare_refl.
Qed.

(** Comparing strings by their first characters. *)
Lemma str_lt_nil s : ~ str_lt s [].
Proof. unfold str_lt, str_ltb. by destruct s. Qed.
Lemma str_lt_cons x s y t : str_lt (x :: s) (y :: t) <-> bz x < bz y \/ (x = y /\ str_lt s t).
Proof.
  unfold str_lt, str_ltb. cbn. destruct (Z.compare_spec (bz x) (bz y)) as [E|E|E].
  - apply bz_inj in E as ->. split; [auto|]. intros [?|[_ ?]]; [lia|done].
  - split; [auto|done].
  - split; [done|]. intros [?|[-> _]]; lia.
Qed.
Lemma str_le_cons x s y t : str_le (x :: s) (y :: t) <-> bz x < bz y \/ (x = y /\ str_le s t).
Proof.
  unfold str_le, str_leb. cbn. destruct (Z.compare_spec (bz x) (bz y)) as [E|E|E].
  - apply bz_inj in E as ->. split; [auto|]. intros [?|[_ ?]]; [lia|done].
  - split; [auto|done].
  - split; [done|]. intros [?|[-> _]]; lia.
Qed.

#[export] Hint Resolve str_le_refl str_lt_le str_nil_le : camli.

(** * Strictly sorted lists *)

Section strictly_sorted.
Context {A : Type} (R : relation A) `{!Transitive R, !Irreflexive R}.

Lemma ssorted_NoDup l : StronglySorted R l -> NoDup l.
Proof using Type*.
  induction 1 as [|x l Hs IH Hf]; constructor; [|done].
  intros Hx. eapply Forall_forall in Hf; [|done]. by eapply irreflexivity in Hf.
Qed.

(** A strictly sorted list is determined by its elements. *)
Lemma ssorted_ext l1 l2 :
  StronglySorted R l1 -> StronglySorted R l2 -> (forall x, x ∈ l1 <-> x ∈ l2) -> l1 = l2.
Proof using Type*.
  intros H1 H2 He. apply (StronglySorted_unique_strong R); [|done|done|].
  - intros x y _ _ Hx Hy. exfalso. apply (irreflexivity R x). by transitivity y.
  - apply NoDup_Permutation; [by apply ssorted_NoDup..|done].
Qed.

Lemma ssorted_filter (P : A -> Prop) `{!forall x, Decision (P x)} l :
  StronglySorted R l -> StronglySorted R (filter P l).
Proof.
  induction 1 as [|x l Hs IH Hf]; [constructor|]. rewrite filter_cons.
  destruct (decide (P x)); [|done]. constructor; [done|].
  rewrite Forall_forall in Hf |- *. intros y [_ Hy]%list_elem_of_filter. auto.
Qed.
End strictly_sorted.

(** * Key order of a string map *)

Section sorted_pairs.
Context {V : Type}.
Implicit Types m : gmap gostr V.

Definition key_lt : relation (gostr * V) := fun p q => str_lt p.1 q.1.
Definition key_le : relation (gostr * V) := fun p q => str_le p.1 q.1.

#[global] Instance key_le_dec : RelDecision key_le.
Proof. intros p q. unfold key_le. apply _. Defined.
#[global] Instance key_le_trans : Transitive key_le.
Proof. intros p q r. unfold key_le. apply str_le_trans. Qed.
#[global] Instance key_le_total : Total key_le.
Proof. intros p q. unfold key_le. apply str_le_total. Qed.
#[global] Instance key_lt_trans : Transitive key_lt.
Proof. intros p q r. unfold key_lt. apply str_lt_trans. Qed.
#[global] Instance key_lt_irrefl : Irreflexive key_lt.
Proof. intros p. unfold complement, key_lt. apply str_lt_irrefl. Qed.

(** The key/value pairs of a map in key order. *)
Definition sortedPairs m : list (gostr * V) := merge_sort key_le (map_to_list m).

Lemma elem_of_sortedPairs m k v : (k, v) ∈ sortedPairs m <-> m !! k = Some v.
Proof. unfold sortedPairs. by rewrite merge_sort_Permutation, elem_of_map_to_list. Qed.

Lemma ssorted_strict (l : list (gostr * V)) :
  StronglySorted key_le l -> NoDup l.*1 -> StronglySorted key_lt l.
Proof.
  induction 1 as [|p l Hs IH Hf]; intros Hn; [constructor|].
  apply NoDup_cons in Hn as [Hp Hn]. constructor; [auto|].
  rewrite Forall_forall in Hf |- *. intros q Hq.
  unfold key_lt. destruct (proj1 (str_le_lt_eq _ _) (Hf q Hq)) as [|He]; [done|].
  destruct Hp. rewrite He. by apply list_elem_of_fmap_2.
Qed.

Lemma sortedPairs_sorted m : StronglySorted key_lt (sortedPairs m).
Proof.
  apply ssorted_strict; [apply StronglySorted_merge_sort; apply _|].
  unfold sortedPairs. rewrite merge_sort_Permutation. apply NoDup_fst_map_to_list.
Qed.

(** A strictly sorted list of pairs with the bindings of [m] is [sortedPairs m]. *)
Lemma sortedPairs_unique m l :
  StronglySorted key_lt l -> (forall k v, (k, v) ∈ l <-> m !! k = Some v) -> l = sortedPairs m.
Proof.
  intros Hs He. apply (ssorted_ext key_lt); [done|apply sortedPairs_sorted|].
  intros [k v]. by rewrite He, elem_of_sortedPairs.
Qed.
End sorted_pairs.

(** * Filters *)

Lemma filter_none {A} (P : A -> Prop) `{!forall x, Decision (P x)} (l : list A) :
  Forall (fun x => ~ P x) l -> filter P l = [].
Proof.
  induction 1 as [|x l Hx _ IH]; [done|]. by rewrite filter_cons_False.
Qed.

Lemma filter_all {A} (P : A -> Prop) `{!forall x, Decision (P x)} (l : list A) :
  Forall P l -> filter P l = l.
Proof.
  induction 1 as [|x l Hx _ IH]; [done|]. rewrite filter_cons_True by done. by f_equal.
Qed.

Lemma filter_ext {A} (P Q : A -> Prop) `{!forall x, Decision (P x)} `{!forall x, Decision (Q x)} (l : list A) :
  (forall x, x ∈ l -> P x <-> Q x) -> filter P l = filter Q l.
Proof.
  induction l as [|x l IH]; intros Hpq; [done|]. rewrite !filter_cons.
  rewrite IH by set_solver. destruct (Hpq x) as [H1 H2]; [set_solver|].
  destruct (decide (P x)), (decide (Q x)); naive_solver.
Qed.

Lemma filter_fmap {A B} (f : A -> B) (P : B -> Prop) `{!forall x, Decision (P x)} (l : list A) :
  filter P (f <$> l) = f <$> filter (fun x => P (f x)) l.
Proof.
  induction l as [|x l IH]; [done|]. rewrite fmap_cons, !filter_cons, IH. by destruct (decide _).
Qed.
