(* ===== verification/Ref.v ===== *)
(** Blob references: pkg/blob/ref.go.

    The digest types, the textual, JSON and binary codecs of a [Ref], its
    ordering and its hash-derived numbers.  SHA-1 itself (crypto/sha1) is
    computed by [Sha1.v]; nothing here depends on its values. *)

From S2P Require Import Prelude.

(** * Digests *)

Definition maxOtherDigestLen : nat := 128.
Definition sha1Size : nat := 20.

(** [digestType]: a concrete [N]byte array type behind an interface.  A
    [sha1Digest] is its 20 bytes; an [otherDigest] carries a name, a 128-byte
    array of which the first [sumLen] bytes are valid, and whether its text
    had an odd number of hex digits. *)
Record otherDigest := OtherDigest {
  od_name : gostr;
  od_sum : list ascii;
  od_sumLen : nat;
  od_odd : bool }.

Inductive digestType :=
| DSha1 (d : list ascii)
| DOther (o : otherDigest).

(** [Ref] holds a nilable [digestType]; the zero [Ref] is the invalid one. *)
Record Ref := MkRef { digest : option digestType }.

Definition zeroRef : Ref := MkRef None.

Record SizedRef := MkSizedRef { sr_ref : Ref; sr_size : Z }.

#[global] Instance otherDigest_eq_dec : EqDecision otherDigest.
Proof. solve_decision. Defined.
#[global] Instance digestType_eq_dec : EqDecision digestType.
Proof. solve_decision. Defined.
#[global] Instance Ref_eq_dec : EqDecision Ref.
Proof. solve_decision. Defined.
#[global] Instance SizedRef_eq_dec : EqDecision SizedRef.
Proof. solve_decision. Defined.

#[global] Instance otherDigest_countable : Countable otherDigest.
Proof.
  refine (inj_countable'
    (fun o => (od_name o, od_sum o, od_sumLen o, od_odd o))
    (fun '(n, s, l, b) => OtherDigest n s l b) _).
  by intros [].
Defined.

#[global] Instance digestType_countable : Countable digestType.
Proof.
  refine (inj_countable'
    (fun d => match d with DSha1 s => inl s | DOther o => inr o end)
    (fun x => match x with inl s => DSha1 s | inr o => DOther o end) _).
  by intros [].
Defined.

#[global] Instance Ref_countable : Countable Ref.
Proof. refine (inj_countable' digest MkRef _). by intros []. Defined.

Definition digestName (d : digestType) : gostr :=
  match d with DSha1 _ => gs "sha1" | DOther o => od_name o end.

Definition digestBytes (d : digestType) : list ascii :=
  match d with DSha1 s => s | DOther o => take (od_sumLen o) (od_sum o) end.

(** The type assertion [d.(otherDigest)] with its [odd] flag. *)
Definition isOdd (d : digestType) : bool :=
  match d with DSha1 _ => false | DOther o => od_odd o end.

Definition Valid (r : Ref) : bool := bool_decide (is_Some (digest r)).

(** * Text *)

Definition hexDigits : gostr := gs "0123456789abcdef".

(** [hexDigit[n]] for a nibble [n]. *)
Definition hexDigit (n : Z) : ascii := nth (Z.to_nat n) hexDigits "0"%char.

Definition hexByte (b : ascii) : gostr :=
  [hexDigit (Z.shiftr (bz b) 4); hexDigit (Z.land (bz b) 15)].

Definition hexBytes (bs : list ascii) : gostr := concat (map hexByte bs).

(** [buf[:len(buf)-1]]; on an empty slice Go panics, which [appendString]
    never meets because it has just written a dash. *)
Definition dropLast {A} (l : list A) : list A := take (length l - 1) l.

Definition appendString (d : digestType) (buf : gostr) : gostr :=
  let buf := buf ++ digestName d in
  let buf := buf ++ ["-"%char] in
  let buf := buf ++ hexBytes (digestBytes d) in
  if isOdd d then dropLast buf else buf.

Definition invalidRefString : gostr := gs "<invalid-blob.Ref>".

Definition RefString (r : Ref) : gostr :=
  match digest r with
  | None => invalidRefString
  | Some d => appendString d []
  end.

(** [buf[len(buf)-1]--] on the last byte of the text. *)
Definition decLast (s : gostr) : gostr :=
  match last s with
  | None => s
  | Some c => dropLast s ++ [zb (bz c - 1)]
  end.

Definition StringMinusOne (r : Ref) : gostr :=
  match digest r with
  | None => invalidRefString
  | Some d => decLast (appendString d [])
  end.

Definition HashName (r : Ref) : res gostr :=
  match digest r with
  | None => Panic "HashName called on invalid Ref"
  | Some d => Ok (digestName d)
  end.

Definition Digest (r : Ref) : res gostr :=
  match digest r with
  | None => Panic "Digest called on invalid Ref"
  | Some d =>
      let buf := hexBytes (digestBytes d) in
      if isOdd d then
        match buf with
        | [] => Panic "slice bounds out of range"
        | _ => Ok (dropLast buf)
        end
      else Ok buf
  end.

Definition DigestPrefix (r : Ref) (digits : nat) : res gostr :=
  let? v := Digest r in
  if decide (length v < digits)%nat then Ok v else Ok (take digits v).

Definition DomID (r : Ref) : gostr :=
  if Valid r then gs "camli-" ++ RefString r else [].

(** The loops of [Sum32] and [Sum64] over [bytes()[:n]]: shift in each byte
    at the given width. *)
Definition sumBytes (wrap : Z -> Z) (bs : list ascii) : Z :=
  foldl (fun v b => Z.lor (wrap (Z.shiftl v 8)) (bz b)) 0 bs.

(** [bytes()] of an [otherDigest] is a slice of a 128-byte array, so [[:n]]
    may extend past [sumLen] up to the array's capacity. *)
Definition digestArray (d : digestType) : list ascii :=
  match d with DSha1 s => s | DOther o => od_sum o end.

Definition Sum32 (r : Ref) : res Z :=
  match digest r with
  | None => Panic "nil pointer dereference"
  | Some d =>
      if decide (length (digestArray d) < 4)%nat then Panic "slice bounds out of range"
      else Ok (sumBytes u32 (take 4 (digestArray d)))
  end.

Definition Sum64 (r : Ref) : res Z :=
  match digest r with
  | None => Panic "nil pointer dereference"
  | Some d =>
      if decide (length (digestArray d) < 8)%nat then Panic "slice bounds out of range"
      else Ok (sumBytes u64 (take 8 (digestArray d)))
  end.

(** [HashMatches h], of the sum [h.Sum(nil)] of the hash. *)
Definition HashMatches (r : Ref) (sum : list ascii) : bool :=
  match digest r with
  | None => false
  | Some d => bool_decide (sum = digestBytes d)
  end.

(** [metaFromString] and [metas] hold the one entry "sha1". *)
Definition metaKnown (name : gostr) : bool := bool_decide (name = gs "sha1").

Definition IsSupported (r : Ref) : bool :=
  match digest r with
  | None => false
  | Some d => metaKnown (digestName d)
  end.

(** * Parsing *)

(** [hexVal b &bad]: the nibble and the new value of [bad]. *)
Definition hexVal (b : ascii) (bad : bool) : Z * bool :=
  if (bz "0" <=? bz b) && (bz b <=? bz "9") then (u8 (bz b - bz "0"), bad)
  else if (bz "a" <=? bz b) && (bz b <=? bz "f") then (u8 (bz b - bz "a" + 10), bad)
  else (0, true).

(** The loops over [hex], two digits per byte, of [parseUnknown],
    [sha1FromHexString] and [sha1FromHexBytes]: the bytes written in order and
    the final [bad].  [None] is the index panic on an odd number of digits. *)
Fixpoint hexPairs (hex : gostr) (bad : bool) : option (list ascii * bool) :=
  match hex with
  | [] => Some ([], bad)
  | [_] => None
  | a :: b :: hex' =>
      let '(h, bad) := hexVal a bad in
      let '(l, bad) := hexVal b bad in
      match hexPairs hex' bad with
      | None => None
      | Some (bs, bad) => Some (zb (Z.lor (u8 (Z.shiftl h 4)) l) :: bs, bad)
      end
  end.

Definition validDigestChar (c : ascii) : bool :=
  ((bz "a" <=? bz c) && (bz c <=? bz "z")) || ((bz "0" <=? bz c) && (bz c <=? bz "9")).

(** The loop ranges over runes; every rune of a byte outside ASCII is
    rejected, as the byte is here. *)
Definition validDigestName (name : gostr) : bool :=
  match name with
  | [] => false
  | _ => forallb validDigestChar name
  end.

(** Zero-fill an array of [n] bytes. *)
Definition padTo (n : nat) (bs : list ascii) : list ascii :=
  bs ++ replicate (n - length bs) "000"%char.

(** [None] is [ok == false], the only failure of [parseUnknown]: the index
    panic of the loop is excluded because [hex] has been made even. *)
Definition parseUnknown (dig hex : gostr) : option Ref :=
  if negb (validDigestName dig) then None else
  let odd := negb (Nat.even (length hex)) in
  let hex := if odd then hex ++ ["0"%char] else hex in
  if bool_decide (length hex < 2)%nat || negb (Nat.even (length hex))
     || bool_decide (maxOtherDigestLen * 2 < length hex)%nat then None
  else match hexPairs hex false with
       | Some (bs, false) =>
           Some (MkRef (Some (DOther (OtherDigest dig (padTo maxOtherDigestLen bs)
                                        (length hex / 2)%nat odd))))
       | _ => None
       end.

(** [sha1FromHexString] and its copy [sha1FromHexBytes]; [d[i/2]] panics past
    the 20th byte. *)
Definition sha1FromHexString (hex : gostr) : res (option digestType) :=
  if decide (sha1Size * 2 < length hex)%nat then Panic "index out of range" else
  match hexPairs hex false with
  | None => Panic "index out of range"
  | Some (_, true) => Ok None
  | Some (bs, false) => Ok (Some (DSha1 (padTo sha1Size bs)))
  end.

Definition sha1FromBinary (b : list ascii) : res digestType :=
  if decide (length b = sha1Size) then Ok (DSha1 b) else Panic "bogus sha-1 length".

Definition testRefType (name : gostr) : bool :=
  bool_decide (name ∈ [gs "fakeref"; gs "testref"; gs "perma"]).

(** [parse s allowAll]; [Ok None] is [ok == false]. *)
Definition parse (s : gostr) (allowAll : bool) : res (option Ref) :=
  match index_byte "-" s with
  | None => Ok None
  | Some i =>
      let name := take i s in
      let hex := drop (S i) s in
      if metaKnown name then
        if decide (length hex ≠ sha1Size * 2)%nat then Ok None
        else match sha1FromHexString hex with
             | Ok (Some d) => Ok (Some (MkRef (Some d)))
             | Ok None => Ok None
             | Err e => Err e | Panic m => Panic m | Blocked => Blocked
             end
      else if allowAll || testRefType name then Ok (parseUnknown name hex)
      else Ok None
  end.

Definition Parse (s : gostr) : res (option Ref) := parse s true.
Definition ParseKnown (s : gostr) : res (option Ref) := parse s false.

(** [ParseBytes] looks the name up in [metas] instead of the map and always
    allows unknown types. *)
Definition ParseBytes (s : gostr) : res (option Ref) :=
  match index_byte "-" s with
  | None => Ok None
  | Some i =>
      let name := take i s in
      let hex := drop (S i) s in
      if metaKnown name then
        if decide (length hex ≠ sha1Size * 2)%nat then Ok None
        else match sha1FromHexString hex with
             | Ok (Some d) => Ok (Some (MkRef (Some d)))
             | Ok None => Ok None
             | Err e => Err e | Panic m => Panic m | Blocked => Blocked
             end
      else Ok (parseUnknown name hex)
  end.

Definition ParseOrZero (s : gostr) : res Ref :=
  let? o := Parse s in Ok (default zeroRef o).

Definition MustParse (s : gostr) : res Ref :=
  let? o := Parse s in
  match o with Some r => Ok r | None => Panic "Invalid blobref " end.

Definition ValidRefString (s : gostr) : res bool :=
  let? r := ParseOrZero s in Ok (Valid r).

(** [RefFromHash h] of a SHA-1 hash, given its sum; other hash types panic. *)
Definition RefFromHash (sum : list ascii) : res Ref :=
  let? d := sha1FromBinary sum in Ok (MkRef (Some d)).

(** * JSON and binary codecs *)

Definition jsonNull : gostr := gs "null".
Definition dquote : ascii := "034"%char.

Definition UnmarshalJSON (r : Ref) (d : gostr) : res Ref :=
  if Valid r then Err (ErrMsg "Can't UnmarshalJSON into a non-zero Ref") else
  if decide (d = [] \/ d = jsonNull) then Ok r else
  if decide (length d < 2)%nat then
    Err (ErrMsg "blob: expecting a JSON string to unmarshal, got %q") else
  if decide (head d ≠ Some dquote \/ last d ≠ Some dquote) then
    Err (ErrMsg "blob: expecting a JSON string to unmarshal, got %q") else
  let? p := ParseBytes (take (length d - 2) (drop 1 d)) in
  match p with
  | None => Err (ErrMsg "blobref: invalid blobref %q (%d)")
  | Some p => Ok p
  end.

Definition MarshalJSON (r : Ref) : gostr :=
  match digest r with
  | None => jsonNull
  | Some d => appendString d [dquote] ++ [dquote]
  end.

Definition MarshalBinary (r : Ref) : res gostr :=
  match digest r with
  | None => Panic "nil pointer dereference"
  | Some d => Ok (digestName d ++ ["-"%char] ++ digestBytes d)
  end.

Definition UnmarshalBinary (r : Ref) (data : gostr) : res Ref :=
  if Valid r then Err (ErrMsg "Can't UnmarshalBinary into a non-zero Ref") else
  match index_byte "-" data with
  | None | Some O => Err (ErrMsg "no digest name")
  | Some i =>
      let digName := take i data in
      let buf := drop (S i) data in
      if metaKnown digName then
        if decide (length buf ≠ sha1Size) then Err (ErrMsg "wrong size of data for digest ")
        else let? d := sha1FromBinary buf in Ok (MkRef (Some d))
      else match parseUnknown digName (hexBytes buf) with
           | None => Err (ErrMsg "invalid blobref binary data")
           | Some r2 => Ok r2
           end
  end.

(** * Ordering *)

Definition Less (r o : Ref) : bool :=
  match digest r, digest o with
  | None, None => false
  | None, Some _ => true
  | Some _, None => false
  | Some d, Some e =>
      if decide (digestName d ≠ digestName e) then str_ltb (digestName d) (digestName e)
      else str_ltb (digestBytes d) (digestBytes e)
  end.

Definition SizedLess (a b : SizedRef) : bool := Less (sr_ref a) (sr_ref b).

Definition TypeAlphabet (typ : gostr) : gostr :=
  if decide (typ = gs "sha1") then hexDigits else [].

(** * Well-formed references: the ones parsing produces *)

Definition otherWf (o : otherDigest) : bool :=
  validDigestName (od_name o) && negb (metaKnown (od_name o))
  && bool_decide (1 <= od_sumLen o <= maxOtherDigestLen)%nat
  && bool_decide (od_sum o = padTo maxOtherDigestLen (take (od_sumLen o) (od_sum o)))
  && bool_decide (od_sumLen o <= length (od_sum o))%nat
  && (negb (od_odd o)
      || bool_decide (last (hexBytes (take (od_sumLen o) (od_sum o))) = Some "0"%char)).

Definition digestWf (d : digestType) : bool :=
  match d with
  | DSha1 s => bool_decide (length s = sha1Size)
  | DOther o => otherWf o
  end.

(** A valid reference some [Parse] can return. *)
Definition refWf (r : Ref) : bool :=
  match digest r with None => false | Some d => digestWf d end.

Definition refOdd (r : Ref) : bool :=
  match digest r with None => false | Some d => isOdd d end.

(** * Hexadecimal lemmas *)

Ltac byte_cases c :=
  let a := fresh in
  destruct c as [[] [] [] [] [] [] [] []].

Lemma hexByte_hexVal c bad :
  hexVal (hexDigit (Z.shiftr (bz c) 4)) bad = (Z.shiftr (bz c) 4, bad) /\
  hexVal (hexDigit (Z.land (bz c) 15)) bad = (Z.land (bz c) 15, bad) /\
  zb (Z.lor (u8 (Z.shiftl (Z.shiftr (bz c) 4) 4)) (Z.land (bz c) 15)) = c.
Proof. byte_cases c; split_and!; reflexivity. Qed.

Lemma hexVal_Ok c bad n :
  hexVal c bad = (n, false) -> bad = false /\ hexDigit n = c /\ 0 <= n < 16.
Proof. byte_cases c; vm_compute; intros; simplify_eq; split_and!; done. Qed.

Lemma hexVal_not_dash c n : hexVal c false = (n, false) -> c ≠ "-"%char.
Proof. byte_cases c; vm_compute; intros; simplify_eq. Qed.

Definition nibbles : list Z := Z.of_nat <$> seq 0 16.

Lemma nibbles_spec n : 0 <= n < 16 -> n ∈ nibbles.
Proof.
  intros H. unfold nibbles. apply list_elem_of_fmap.
  exists (Z.to_nat n). split; [lia|]. apply elem_of_seq. lia.
Qed.

Lemma hexByte_nibbles h l :
  0 <= h < 16 -> 0 <= l < 16 ->
  hexByte (zb (Z.lor (u8 (Z.shiftl h 4)) l)) = [hexDigit h; hexDigit l].
Proof.
  intros Hh%nibbles_spec Hl%nibbles_spec.
  assert (Forall (fun h => Forall (fun l =>
    hexByte (zb (Z.lor (u8 (Z.shiftl h 4)) l)) = [hexDigit h; hexDigit l])
    nibbles) nibbles) as HA by (apply (bool_decide_unpack _); vm_compute; exact I).
  rewrite Forall_forall in HA. specialize (HA h Hh). simpl in HA.
  rewrite Forall_forall in HA. exact (HA l Hl).
Qed.

Lemma hexBytes_length bs : length (hexBytes bs) = (2 * length bs)%nat.
Proof. unfold hexBytes. induction bs as [|b bs IH]; simpl in *; [done|]. rewrite IH. lia. Qed.

Lemma hexBytes_app a b : hexBytes (a ++ b) = hexBytes a ++ hexBytes b.
Proof. unfold hexBytes. by rewrite map_app, concat_app. Qed.

Lemma hexPairs_hexBytes bs : hexPairs (hexBytes bs) false = Some (bs, false).
Proof.
  induction bs as [|c bs IH]; [done|].
  change (hexBytes (c :: bs)) with
    (hexDigit (Z.shiftr (bz c) 4) :: hexDigit (Z.land (bz c) 15) :: hexBytes bs).
  destruct (hexByte_hexVal c false) as (H1 & H2 & H3).
  cbn [hexPairs]. rewrite H1, H2, IH. by rewrite H3.
Qed.

Lemma hexPairs_inv hex bad bs :
  hexPairs hex bad = Some (bs, false) -> bad = false /\ hexBytes bs = hex.
Proof.
  revert bad bs. induction hex as [hex IH] using (induction_ltof1 _ length).
  unfold ltof in IH. destruct hex as [|a [|b hex]]; intros bad bs H; simpl in H.
  - by simplify_eq.
  - done.
  - destruct (hexVal a bad) as [h bad1] eqn:Ea, (hexVal b bad1) as [l bad2] eqn:Eb.
    destruct (hexPairs hex bad2) as [[bs' bad3]|] eqn:E; [|done]. simplify_eq.
    apply IH in E as [-> E]; [|simpl; lia].
    apply hexVal_Ok in Eb as (-> & Hl & Rl). apply hexVal_Ok in Ea as (-> & Hh & Rh).
    split; [done|]. change (hexBytes (?x :: ?y)) with (hexByte x ++ hexBytes y).
    rewrite hexByte_nibbles by done. simpl. congruence.
Qed.

Lemma hexPairs_Some hex bad : Nat.even (length hex) = true -> is_Some (hexPairs hex bad).
Proof.
  revert bad. induction hex as [hex IH] using (induction_ltof1 _ length).
  unfold ltof in IH. destruct hex as [|a [|b hex]]; intros bad H; simpl in *; [done..|].
  destruct (hexVal a bad) as [h bad1], (hexVal b bad1) as [l bad2].
  destruct (IH hex ltac:(lia) bad2 H) as [[bs bad3] ->]. done.
Qed.

Lemma dropLast_snoc {A} (l : list A) x : dropLast (l ++ [x]) = l.
Proof.
  unfold dropLast. rewrite length_app, Nat.add_sub. apply take_app_length.
Qed.

Lemma last_snoc_inv {A} (l : list A) x : last l = Some x -> l = dropLast l ++ [x].
Proof.
  destruct l as [|y l _] using rev_ind; [done|].
  rewrite last_snoc, dropLast_snoc. by intros [= ->].
Qed.

Lemma appendString_buf d buf : appendString d buf = buf ++ appendString d [].
Proof.
  unfold appendString. destruct (isOdd d); rewrite <- !(assoc_L (++)); [|done].
  unfold dropLast. rewrite take_app_ge; [f_equal; f_equal|];
    rewrite !length_app; simpl; lia.
Qed.

(** The digest part of the text. *)
Definition hexText (d : digestType) : gostr :=
  let h := hexBytes (digestBytes d) in if isOdd d then dropLast h else h.

Lemma otherWf_spec o :
  otherWf o = true <->
  validDigestName (od_name o) = true /\ metaKnown (od_name o) = false /\
  (1 <= od_sumLen o <= maxOtherDigestLen)%nat /\
  od_sum o = padTo maxOtherDigestLen (take (od_sumLen o) (od_sum o)) /\
  (od_sumLen o <= length (od_sum o))%nat /\
  (od_odd o = true -> last (hexBytes (take (od_sumLen o) (od_sum o))) = Some "0"%char).
Proof.
  unfold otherWf. rewrite !andb_true_iff, orb_true_iff, !negb_true_iff, !bool_decide_eq_true.
  destruct (od_odd o); naive_solver.
Qed.

Lemma appendString_hexText d :
  digestWf d = true -> appendString d [] = digestName d ++ "-"%char :: hexText d.
Proof.
  intros Hwf. unfold appendString, hexText. simpl. rewrite <- (assoc_L (++)). simpl.
  destruct d as [|o]; [done|]. simpl in *.
  apply otherWf_spec in Hwf as (_ & _ & _ & _ & _ & Hl).
  destruct (od_odd o); [|done]. specialize (Hl eq_refl). apply last_snoc_inv in Hl.
  rewrite Hl at 1 2. rewrite dropLast_snoc, app_comm_cons, app_assoc.
  by rewrite dropLast_snoc.
Qed.

Lemma even_double n : Nat.even (2 * n) = true.
Proof. rewrite Nat.even_mul. done. Qed.

Lemma half_double n : (2 * n / 2)%nat = n.
Proof. rewrite Nat.mul_comm. by apply Nat.div_mul. Qed.

(** [parseUnknown] once the digits have been made even. *)
Lemma parseUnknown_even dig hex odd bs :
  validDigestName dig = true ->
  (1 <= length bs <= maxOtherDigestLen)%nat ->
  hexBytes bs = (if odd : bool then hex ++ ["0"%char] else hex) ->
  parseUnknown dig hex =
    Some (MkRef (Some (DOther (OtherDigest dig (padTo maxOtherDigestLen bs) (length bs) odd)))).
Proof.
  intros Hn Hl Hh. unfold parseUnknown. rewrite Hn. simpl.
  pose proof (hexBytes_length bs) as Hlen. rewrite Hh in Hlen.
  assert (negb (Nat.even (length hex)) = odd) as ->.
  { destruct odd; [rewrite length_app in Hlen; simpl in Hlen|].
    - replace (length hex) with (2 * length bs - 1)%nat by lia.
      rewrite Nat.even_sub, even_double by lia. done.
    - by rewrite Hlen, even_double. }
  rewrite <- Hh, hexBytes_length, even_double, hexPairs_hexBytes. rewrite half_double.
  unfold maxOtherDigestLen in *. rewrite !bool_decide_eq_false_2 by lia. done.
Qed.

Lemma parseUnknown_inv dig hex r :
  parseUnknown dig hex = Some r ->
  exists bs odd,
    validDigestName dig = true /\ (1 <= length bs <= maxOtherDigestLen)%nat /\
    hexBytes bs = (if odd : bool then hex ++ ["0"%char] else hex) /\
    r = MkRef (Some (DOther (OtherDigest dig (padTo maxOtherDigestLen bs) (length bs) odd))).
Proof.
  unfold parseUnknown. destruct (validDigestName dig) eqn:Hn; [|done]. simpl.
  set (odd := negb (Nat.even (length hex))). set (h := if odd then hex ++ _ else hex).
  destruct (bool_decide _ || _ || _) eqn:Hg; [done|].
  rewrite !orb_false_iff, !bool_decide_eq_false in Hg. destruct Hg as [[H1 H2] H3].
  destruct (hexPairs h false) as [[bs []]|] eqn:Hp; try done.
  apply hexPairs_inv in Hp as [_ Hp]. pose proof (hexBytes_length bs) as Hlen.
  rewrite Hp in Hlen. rewrite Hlen, half_double.
  intros [= <-]. exists bs, odd. unfold maxOtherDigestLen in *. split_and!; [done|lia|lia|done|done].
Qed.

Lemma padTo_take n bs : take (length bs) (padTo n bs) = bs.
Proof. unfold padTo. apply take_app_length. Qed.

Lemma padTo_full n bs : length bs = n -> padTo n bs = bs.
Proof. intros <-. unfold padTo. rewrite Nat.sub_diag. apply app_nil_r. Qed.

Lemma parsed_otherWf dig bs (odd : bool) hex :
  validDigestName dig = true -> metaKnown dig = false ->
  (1 <= length bs <= maxOtherDigestLen)%nat ->
  hexBytes bs = (if odd : bool then hex ++ ["0"%char] else hex) ->
  otherWf (OtherDigest dig (padTo maxOtherDigestLen bs) (length bs) odd) = true.
Proof.
  intros Hn Hk Hl Hh. apply otherWf_spec. simpl. rewrite padTo_take.
  split_and!; try done; try lia.
  - unfold padTo. rewrite length_app. lia.
  - intros ->. rewrite Hh. apply last_snoc.
Qed.

Lemma validDigestName_no_dash n : validDigestName n = true -> "-"%char ∉ n.
Proof.
  intros H Hin. assert (forallb validDigestChar n = true) as HA by (by destruct n).
  rewrite forallb_forall in HA. apply list_elem_of_In in Hin.
  by specialize (HA _ Hin).
Qed.

Lemma metaKnown_spec n : metaKnown n = true <-> n = gs "sha1".
Proof. apply bool_decide_eq_true. Qed.

Lemma digestName_no_dash d : digestWf d = true -> "-"%char ∉ digestName d.
Proof.
  destruct d as [|o]; simpl; [intros _; vm_compute; set_solver|].
  intros (Hn & _)%otherWf_spec. by apply validDigestName_no_dash.
Qed.

Lemma index_dash_text n h :
  "-"%char ∉ n -> index_byte "-" (n ++ "-"%char :: h) = Some (length n) /\
  take (length n) (n ++ "-"%char :: h) = n /\ drop (S (length n)) (n ++ "-"%char :: h) = h.
Proof.
  intros Hn. split_and!; [by apply index_byte_app|apply take_app_length|].
  rewrite drop_app_ge by lia. replace (S (length n) - length n)%nat with 1%nat by lia. done.
Qed.

Lemma sha1_digits s :
  length s = sha1Size ->
  length (hexBytes s) = (sha1Size * 2)%nat /\
  sha1FromHexString (hexBytes s) = Ok (Some (DSha1 s)).
Proof.
  intros Hs. rewrite hexBytes_length, Hs. split; [done|].
  unfold sha1FromHexString. rewrite hexBytes_length, Hs, decide_False by (unfold sha1Size; lia).
  by rewrite hexPairs_hexBytes, padTo_full.
Qed.

Lemma parseUnknown_hexText o :
  otherWf o = true ->
  parseUnknown (od_name o) (hexText (DOther o)) = Some (MkRef (Some (DOther o))).
Proof.
  intros (Hn & Hk & Hl & Hs & Hle & Ho)%otherWf_spec.
  rewrite (parseUnknown_even _ _ (od_odd o) (take (od_sumLen o) (od_sum o))); try done.
  - rewrite <- Hs, length_take_le by lia. by destruct o.
  - rewrite length_take_le; lia.
  - unfold hexText. simpl. destruct (od_odd o); [|done].
    by apply last_snoc_inv, Ho.
Qed.

Lemma Parse_RefString (r : Ref) : refWf r = true -> Parse (RefString r) = Ok (Some r).
Proof.
  destruct r as [[d|]]; unfold refWf; simpl; [intros Hwf|done].
  unfold Parse, parse, RefString. simpl.
  rewrite appendString_hexText by done.
  destruct (index_dash_text (digestName d) (hexText d)) as (-> & -> & ->);
    [by apply digestName_no_dash|].
  destruct d as [s|o]; simpl in *.
  - apply bool_decide_eq_true in Hwf. destruct (sha1_digits s Hwf) as [Hl Hp].
    unfold hexText; simpl. change (metaKnown (gs "sha1")) with true. cbn iota.
    rewrite Hl, decide_False by (intros []; done). by rewrite Hp.
  - pose proof Hwf as (_ & -> & _)%otherWf_spec. by rewrite parseUnknown_hexText.
Qed.

Lemma ParseBytes_Parse s : ParseBytes s = Parse s.
Proof. done. Qed.

Lemma MustParse_RefString (r : Ref) : refWf r = true -> MustParse (RefString r) = Ok r.
Proof. intros Hwf. unfold MustParse. by rewrite Parse_RefString. Qed.

(** C1. Printing a well-formed reference and parsing the text gives the
    reference back: [Parse(r.String()) == r], for SHA-1 and for unknown digest
    types, odd digit counts included; [MustParse] does not panic on it. *)
Theorem Parse_String (r : Ref) :
  refWf r = true ->
  Parse (RefString r) = Ok (Some r) /\ ParseBytes (RefString r) = Ok (Some r) /\
  MustParse (RefString r) = Ok r.
Proof.
  intros Hwf. split_and!; [by apply Parse_RefString..|by apply MustParse_RefString].
Qed.

Lemma Parse_String_witness :
  Parse (RefString (MkRef (Some (DOther (OtherDigest (gs "foo")
    (padTo 128 [zb 171; zb 192]) 2 true))))) =
  Ok (Some (MkRef (Some (DOther (OtherDigest (gs "foo") (padTo 128 [zb 171; zb 192]) 2 true))))).
Proof. apply Parse_String. vm_compute. reflexivity. Defined.

Lemma parse_total s allowAll : exists o, parse s allowAll = Ok o.
Proof.
  unfold parse. destruct (index_byte "-" s) as [i|]; [|by eexists].
  destruct (metaKnown (take i s)); [|destruct (allowAll || testRefType (take i s)); by eexists].
  destruct (decide _) as [|Hl%dec_stable]; [by eexists|]. unfold sha1FromHexString.
  rewrite decide_False by lia.
  destruct (hexPairs_Some (drop (S i) s) false) as [[bs []] ->]; [by rewrite Hl|by eexists..].
Qed.

(** What [Parse] accepts. *)
Lemma Parse_inv (s : gostr) (r : Ref) : Parse s = Ok (Some r) -> refWf r = true /\ RefString r = s.
Proof.
  intros Ho. unfold Parse, parse in Ho.
  destruct (index_byte "-" s) as [i|] eqn:Hi; [|done].
  apply index_byte_Some in Hi as (Hs & Hnd & Hlen).
  destruct (metaKnown (take i s)) eqn:Hk; simpl in Ho.
  - apply metaKnown_spec in Hk.
    destruct (decide _) as [|Hl%dec_stable]; [done|].
    unfold sha1FromHexString in Ho. unfold sha1Size in *.
    rewrite decide_False in Ho by lia.
    destruct (hexPairs _ _) as [[bs []]|] eqn:Hp; try done. simplify_eq.
    apply hexPairs_inv in Hp as [_ Hp]. pose proof (hexBytes_length bs) as Hb.
    rewrite Hp in Hb. assert (length bs = 20%nat) as Hbs by lia.
    rewrite padTo_full by done. assert (refWf (MkRef (Some (DSha1 bs))) = true) as Hwf
      by (by apply bool_decide_eq_true). split; [done|].
    unfold RefString; simpl. rewrite appendString_hexText by done.
    unfold hexText; simpl. rewrite Hs at 1. by rewrite Hk, Hp.
  - simplify_eq. match goal with H : parseUnknown _ _ = _ |- _ => rename H into Ho end.
    apply parseUnknown_inv in Ho as (bs & odd & Hn & Hl & Hh & ->).
    assert (otherWf (OtherDigest (take i s) (padTo maxOtherDigestLen bs) (length bs) odd) = true)
      as Hwf by (by eapply parsed_otherWf).
    split; [done|]. unfold RefString; simpl. rewrite appendString_hexText by done.
    unfold hexText; simpl. rewrite padTo_take, Hh.
    rewrite Hs at 3. destruct odd; [by rewrite dropLast_snoc|done].
Qed.

(** C2. [Parse] never panics, and whatever it accepts is a well-formed
    reference whose [String] is exactly the parsed text: each reference has
    one spelling, so two different strings never name the same blob. *)
Theorem Parse_sound (s : gostr) :
  exists o, Parse s = Ok o /\ ParseBytes s = Ok o /\
    forall r, o = Some r -> refWf r = true /\ RefString r = s.
Proof.
  destruct (parse_total s true) as [o Ho]. exists o. split_and!; [done|done|]. intros r ->. by apply Parse_inv.
Qed.

(** * Ordering lemmas *)

Lemma hexDigit_compare m n :
  0 <= m < 16 -> 0 <= n < 16 ->
  Z.compare (bz (hexDigit m)) (bz (hexDigit n)) = Z.compare m n.
Proof.
  intros Hh%nibbles_spec Hl%nibbles_spec.
  assert (Forall (fun h => Forall (fun l =>
    Z.compare (bz (hexDigit h)) (bz (hexDigit l)) = Z.compare h l)
    nibbles) nibbles) as HA by (apply (bool_decide_unpack _); vm_compute; exact I).
  rewrite Forall_forall in HA. specialize (HA m Hh). simpl in HA.
  rewrite Forall_forall in HA. exact (HA n Hl).
Qed.

Lemma nibble_split c :
  let h := Z.shiftr (bz c) 4 in let l := Z.land (bz c) 15 in
  0 <= h < 16 /\ 0 <= l < 16 /\ bz c = 16 * h + l.
Proof. byte_cases c; vm_compute; intuition congruence. Qed.

Lemma hexByte_compare a b x y :
  str_compare (hexByte a ++ x) (hexByte b ++ y) =
  match Z.compare (bz a) (bz b) with Eq => str_compare x y | c => c end.
Proof.
  destruct (nibble_split a) as (Ha & Hla & Ea), (nibble_split b) as (Hb & Hlb & Eb).
  unfold hexByte. cbn [app str_compare].
  rewrite !hexDigit_compare by done.
  destruct (Z.compare_spec (bz a) (bz b)), (Z.compare_spec (Z.shiftr (bz a) 4) (Z.shiftr (bz b) 4)),
    (Z.compare_spec (Z.land (bz a) 15) (Z.land (bz b) 15)); try done; lia.
Qed.

Lemma hexBytes_compare a b : str_compare (hexBytes a) (hexBytes b) = str_compare a b.
Proof.
  revert b. induction a as [|x a IH]; intros [|y b]; [done..|].
  change (hexBytes (?x :: ?l)) with (hexByte x ++ hexBytes l).
  rewrite hexByte_compare. cbn [str_compare]. by rewrite IH.
Qed.

Lemma validDigestChar_gt_dash c : validDigestChar c = true -> bz "-" < bz c.
Proof. byte_cases c; vm_compute; congruence. Qed.

(** Comparing names followed by a separator below all name characters. *)
Lemma name_compare n1 n2 x y :
  forallb validDigestChar n1 = true -> forallb validDigestChar n2 = true ->
  str_compare (n1 ++ "-"%char :: x) (n2 ++ "-"%char :: y) =
  match str_compare n1 n2 with Eq => str_compare x y | c => c end.
Proof.
  revert n2. induction n1 as [|a n1 IH]; intros [|b n2] H1 H2; cbn [app str_compare];
    simpl in H1, H2; rewrite ?andb_true_iff in *.
  - by rewrite Z.compare_refl.
  - destruct H2 as [Hb _]. apply validDigestChar_gt_dash in Hb.
    by rewrite (proj2 (Z.compare_lt_iff _ _) Hb).
  - destruct H1 as [Ha _]. apply validDigestChar_gt_dash in Ha.
    by rewrite (proj2 (Z.compare_gt_iff _ _) Ha).
  - destruct H1 as [_ H1], H2 as [_ H2].
    destruct (Z.compare (bz a) (bz b)); auto.
Qed.

Lemma digestName_chars d : digestWf d = true -> forallb validDigestChar (digestName d) = true.
Proof.
  destruct d as [|o]; simpl; [done|]. intros (Hn & _)%otherWf_spec.
  by destruct (od_name o).
Qed.

Lemma Less_RefString (r o : Ref) :
  refWf r = true -> refWf o = true -> refOdd r = false -> refOdd o = false ->
  Less r o = str_ltb (RefString r) (RefString o).
Proof.
  destruct r as [[d|]], o as [[e|]]; unfold refWf, refOdd; simpl; try done.
  intros Hd He Hod Hoe. unfold Less, RefString; simpl.
  rewrite !appendString_hexText by done. unfold hexText. rewrite Hod, Hoe.
  unfold str_ltb. rewrite name_compare, hexBytes_compare by (by apply digestName_chars).
  destruct (decide (digestName d = digestName e)) as [->|Hne]; simpl.
  - rewrite str_compare_refl. by destruct (decide _).
  - rewrite decide_True by done. rewrite <- str_compare_eq in Hne.
    by destruct (str_compare (digestName d) (digestName e)).
Qed.

(** C39. On well-formed references with an even number of digits the two orders
    the storage protocol mixes agree: [Less] (used to sort and to merge
    enumerations) holds exactly when the [String]s compare with [<] (used for
    the [after] argument and by the sorted indexes). *)
Theorem Less_String (r o : Ref) :
  refWf r = true -> refWf o = true -> refOdd r = false -> refOdd o = false ->
  Less r o = str_ltb (RefString r) (RefString o).
Proof. apply Less_RefString. Qed.

Lemma Less_String_witness :
  Less (MkRef (Some (DSha1 (replicate 20 (zb 10))))) (MkRef (Some (DSha1 (replicate 20 (zb 11))))) =
  true.
Proof.
  rewrite Less_String; [vm_compute; reflexivity|vm_compute; reflexivity..].
Defined.

(** With odd digit counts they do not: neither of [foo-ab0] and [foo-ab00] is
    [Less] than the other, yet they are different references. *)
Lemma Less_odd_incomparable :
  exists a b, Parse (gs "foo-ab0") = Ok (Some a) /\ Parse (gs "foo-ab00") = Ok (Some b) /\
    Valid a = true /\ Valid b = true /\ a ≠ b /\ Less a b = false /\ Less b a = false /\
    str_ltb (RefString a) (RefString b) = true.
Proof. eexists _, _. split_and!; try (vm_compute; reflexivity). done. Qed.

(** * Codecs *)

Lemma MarshalJSON_text r :
  Valid r = true -> MarshalJSON r = dquote :: RefString r ++ [dquote].
Proof.
  destruct r as [[d|]]; [intros _|done]. unfold MarshalJSON, RefString; simpl.
  by rewrite (appendString_buf d [dquote]).
Qed.

Lemma refWf_Valid r : refWf r = true -> Valid r = true.
Proof. destruct r as [[d|]]; [by intros _|done]. Qed.

Lemma UnmarshalJSON_text r :
  refWf r = true -> UnmarshalJSON zeroRef (dquote :: RefString r ++ [dquote]) = Ok r.
Proof.
  intros Hwf. unfold UnmarshalJSON. change (Valid zeroRef) with false. cbn iota.
  rewrite decide_False by (intros [H|H]; done).
  rewrite decide_False by (simpl; rewrite length_app; simpl; lia).
  rewrite decide_False.
  - assert (length (dquote :: RefString r ++ [dquote]) - 2 = length (RefString r))%nat as ->
      by (simpl; rewrite length_app; simpl; lia).
    cbn [drop]. rewrite drop_0, take_app_length.
    change (ParseBytes ?s) with (Parse s). by rewrite Parse_RefString.
  - intros [H|H]; [done|]. by rewrite app_comm_cons, last_snoc in H.
Qed.

(** The JSON codec is a round trip for every well-formed reference and for
    the zero reference, which is written as [null]. *)
Theorem JSON_roundtrip (r : Ref) :
  refWf r = true \/ r = zeroRef -> UnmarshalJSON zeroRef (MarshalJSON r) = Ok r.
Proof.
  intros [Hwf| ->]; [|done].
  rewrite MarshalJSON_text by by apply refWf_Valid. by apply UnmarshalJSON_text.
Qed.

Lemma JSON_roundtrip_witness :
  UnmarshalJSON zeroRef (MarshalJSON (MkRef (Some (DSha1 (replicate 20 (zb 10)))))) =
  Ok (MkRef (Some (DSha1 (replicate 20 (zb 10))))).
Proof. apply JSON_roundtrip. left. vm_compute. reflexivity. Defined.

(** The reference with its odd flag cleared: one more zero digit of text. *)
Definition clearOdd (r : Ref) : Ref :=
  match digest r with
  | Some (DOther o) => MkRef (Some (DOther (OtherDigest (od_name o) (od_sum o) (od_sumLen o) false)))
  | _ => r
  end.

Lemma digestName_nonempty d : digestWf d = true -> (1 <= length (digestName d))%nat.
Proof.
  destruct d as [|o]; simpl; [lia|]. intros (Hn & _)%otherWf_spec.
  destruct (od_name o); simpl; [done|lia].
Qed.

(** The binary codec gives back the reference with its odd flag cleared:
    it is a round trip exactly on references with an even number of digits,
    and turns [foo-abc] into the different reference [foo-abc0]. *)
Theorem Binary_roundtrip (r : Ref) :
  refWf r = true ->
  exists data, MarshalBinary r = Ok data /\
    UnmarshalBinary zeroRef data = Ok (clearOdd r) /\
    (UnmarshalBinary zeroRef data = Ok r <-> refOdd r = false).
Proof.
  intros Hwf. destruct r as [[d|]]; [|done]. unfold refWf in Hwf; simpl in Hwf.
  eexists. split; [done|].
  assert (UnmarshalBinary zeroRef (digestName d ++ ["-"%char] ++ digestBytes d) =
    Ok (clearOdd (MkRef (Some d)))) as HU.
  { unfold UnmarshalBinary. change (Valid zeroRef) with false. cbn iota. simpl app.
    destruct (index_dash_text (digestName d) (digestBytes d)) as (-> & Ht & Hdr);
      [by apply digestName_no_dash|].
    pose proof (digestName_nonempty d Hwf) as Hne.
    destruct (length (digestName d)) as [|k] eqn:Hk; [lia|]. rewrite Ht, Hdr.
    destruct d as [s|o]; simpl in *.
    - apply bool_decide_eq_true in Hwf. change (metaKnown (gs "sha1")) with true. cbn iota.
      rewrite decide_False by auto. unfold sha1FromBinary. by rewrite decide_True.
    - apply otherWf_spec in Hwf as (Hn & -> & Hl & Hs & Hle & _).
      rewrite (parseUnknown_even _ _ false (take (od_sumLen o) (od_sum o))); try done;
        rewrite length_take_le by lia; [|lia]. by rewrite <- Hs. }
  split; [done|]. rewrite HU. destruct d as [s|o]; [done|]. unfold refOdd; simpl.
  destruct o as [n s l []]; simpl; split; intros H; try done; by simplify_eq.
Qed.

Lemma Binary_roundtrip_witness :
  exists data, MarshalBinary (MkRef (Some (DOther (OtherDigest (gs "foo")
    (padTo 128 [zb 171; zb 192]) 2 true)))) = Ok data /\
    UnmarshalBinary zeroRef data = Ok (clearOdd (MkRef (Some (DOther (OtherDigest (gs "foo")
    (padTo 128 [zb 171; zb 192]) 2 true))))) /\
    (UnmarshalBinary zeroRef data = Ok (MkRef (Some (DOther (OtherDigest (gs "foo")
    (padTo 128 [zb 171; zb 192]) 2 true)))) <-> refOdd (MkRef (Some (DOther (OtherDigest (gs "foo")
    (padTo 128 [zb 171; zb 192]) 2 true)))) = false).
Proof. apply Binary_roundtrip. vm_compute. reflexivity. Defined.

(** * Numbers of a digest *)

Lemma sumBytes_wrap n bs :
  (length bs <= n)%nat ->
  sumBytes (fun z => z mod 2 ^ (8 * Z.of_nat n)) bs =
  foldl (fun v b => 256 * v + bz b) 0 bs /\
  0 <= foldl (fun v b => 256 * v + bz b) 0 bs < 2 ^ (8 * Z.of_nat (length bs)).
Proof.
  revert n. induction bs as [|b bs IH] using rev_ind; intros n Hn; [done|].
  rewrite length_app in Hn. simpl in Hn. destruct (IH n ltac:(lia)) as [H1 H2].
  unfold sumBytes in *. rewrite !foldl_app. cbn [foldl]. rewrite H1. clear H1.
  set (v := foldl _ 0 bs) in *. pose proof (bz_range b) as Hb.
  assert (0 <= 256 * v + bz b < 2 ^ (8 * Z.of_nat (length (bs ++ [b])))) as Hr.
  { rewrite length_app. simpl. replace (8 * Z.of_nat (length bs + 1)) with
      (8 + 8 * Z.of_nat (length bs)) by lia. rewrite Z.pow_add_r by lia.
    change (2 ^ 8) with 256. nia. }
  split; [|done]. rewrite Z.shiftl_mul_pow2 by lia. rewrite Z.mod_small.
  - rewrite lor_mul_pow2 by (change (2 ^ 8) with 256; lia). change (2 ^ 8) with 256. lia.
  - assert (2 ^ (8 * Z.of_nat (length bs)) * 2 ^ 8 <= 2 ^ (8 * Z.of_nat n)).
    { rewrite <- Z.pow_add_r by lia. apply Z.pow_le_mono_r; lia. }
    change (2 ^ 8) with 256 in *. nia.
Qed.

Lemma Sum32_ok (r : Ref) :
  refWf r = true ->
  exists d v, digest r = Some d /\ Sum32 r = Ok v /\ 0 <= v < 2 ^ 32 /\
    v = foldl (fun v b => 256 * v + bz b) 0 (take 4 (digestArray d)).
Proof.
  destruct r as [[d|]]; [|done]. unfold refWf; simpl. intros Hwf.
  assert (20 <= length (digestArray d))%nat as Hl.
  { destruct d as [s|o]; simpl in *.
    - apply bool_decide_eq_true in Hwf. unfold sha1Size in Hwf. lia.
    - apply otherWf_spec in Hwf as (_ & _ & Hl & -> & Hle & _).
      unfold padTo, maxOtherDigestLen in *. rewrite length_app, length_replicate. lia. }
  exists d, (sumBytes u32 (take 4 (digestArray d))).
  unfold Sum32; simpl. rewrite decide_False by lia.
  destruct (sumBytes_wrap 4 (take 4 (digestArray d))) as [H1 H2]; [rewrite length_take; lia|].
  rewrite length_take_le in H2 by lia. change (fun z => z mod 2 ^ (8 * Z.of_nat 4)) with u32 in H1.
  rewrite H1. split_and!; [done|done|lia|change (2 ^ 32) with (2 ^ (8 * Z.of_nat 4)); lia|done].
Qed.

(** [Sum32] is the first four digest bytes read as a big-endian [uint32];
    it never overflows, and it does not panic on a parsed reference however
    short its digest, because the slice may extend into the array's zeros. *)
Theorem Sum32_spec (r : Ref) :
  refWf r = true ->
  exists d v, digest r = Some d /\ Sum32 r = Ok v /\ 0 <= v < 2 ^ 32 /\
    v = foldl (fun v b => 256 * v + bz b) 0 (take 4 (digestArray d)).
Proof. apply Sum32_ok. Qed.

Lemma Sum32_spec_witness :
  exists d v, digest (MkRef (Some (DSha1 (replicate 20 (zb 10))))) = Some d /\
    Sum32 (MkRef (Some (DSha1 (replicate 20 (zb 10))))) = Ok v /\ 0 <= v < 2 ^ 32 /\
    v = foldl (fun v b => 256 * v + bz b) 0 (take 4 (digestArray d)).
Proof. apply Sum32_spec. vm_compute. reflexivity. Defined.

(** * [StringMinusOne] *)

Lemma str_compare_snoc p q a b :
  length p = length q ->
  str_compare (p ++ [a]) (q ++ [b]) =
  match str_compare p q with Eq => Z.compare (bz a) (bz b) | c => c end.
Proof.
  revert q. induction p as [|x p IH]; intros [|y q] H; simplify_eq/=.
  - by destruct (Z.compare (bz a) (bz b)).
  - rewrite IH by done. by destruct (Z.compare (bz x) (bz y)).
Qed.

(** Decrementing the last byte gives the strict predecessor among the strings
    of the same length. *)
Lemma decLast_spec s t :
  length s = length t -> Forall (fun c => 1 <= bz c) s -> s ≠ [] ->
  str_lt (decLast s) t <-> str_le s t.
Proof.
  intros Hl Hc Hs. destruct s as [|c s _] using rev_ind; [done|].
  destruct t as [|d t _] using rev_ind; [rewrite !length_app in Hl; simpl in Hl; lia|].
  rewrite !length_app in Hl; simpl in Hl.
  apply Forall_app in Hc as [_ Hc]. apply Forall_inv in Hc.
  unfold decLast. rewrite last_snoc, dropLast_snoc.
  unfold str_lt, str_ltb, str_le, str_leb. rewrite !str_compare_snoc by lia.
  pose proof (bz_range c). rewrite bz_zb_small by lia.
  destruct (str_compare s t); [|done|done].
  destruct (Z.compare_spec (bz c) (bz d)), (Z.compare_spec (bz c - 1) (bz d));
    split; intros; try done; lia.
Qed.

(** The text of a reference is lower-case letters, digits and a dash. *)
Definition refChar (c : ascii) : Prop := validDigestChar c = true \/ c = "-"%char.

Lemma hexBytes_chars bs : Forall refChar (hexBytes bs).
Proof.
  induction bs as [|b bs IH]; [by constructor|].
  change (hexBytes (b :: bs)) with (hexByte b ++ hexBytes bs). apply Forall_app_2; [|done].
  clear IH. byte_cases b; repeat constructor.
Qed.

Lemma RefString_chars r : refWf r = true -> Forall refChar (RefString r).
Proof.
  destruct r as [[d|]]; [|done]. unfold refWf, RefString; simpl. intros Hwf.
  rewrite appendString_hexText by done. apply Forall_app_2; [|constructor].
  - apply digestName_chars in Hwf. rewrite forallb_forall in Hwf.
    apply Forall_forall. intros c Hc%list_elem_of_In%Hwf. by left.
  - by right.
  - unfold hexText, dropLast. destruct (isOdd d); [apply Forall_take|]; apply hexBytes_chars.
Qed.

Lemma refChar_range c : refChar c -> 45 <= bz c <= 122 /\ c ≠ "<"%char /\ c ≠ ">"%char /\ bz c ≠ 92.
Proof.
  intros [H| ->]; [|done]. byte_cases c; vm_compute in H; try done; (split; [by vm_compute|]); done.
Qed.

Lemma RefString_pos r : refWf r = true -> Forall (fun c => 1 <= bz c) (RefString r).
Proof.
  intros Hwf%RefString_chars. eapply Forall_impl; [exact Hwf|]. intros c Hc%refChar_range. lia.
Qed.

(** [StringMinusOne] is the greatest lower bound needed to make the
    exclusive [after] of an enumeration inclusive: among the references whose
    text has the same length, those after [r.StringMinusOne()] are exactly
    those at or after [r]. *)
Theorem StringMinusOne_spec (r o : Ref) :
  refWf r = true -> length (RefString r) = length (RefString o) ->
  str_lt (StringMinusOne r) (RefString o) <-> str_le (RefString r) (RefString o).
Proof.
  intros Hwf Hl. pose proof (RefString_pos r Hwf) as Hp.
  destruct r as [[d|]]; [|done]. unfold RefString at 1 in Hl. unfold RefString in Hp. simpl in *.
  apply (decLast_spec _ _ Hl Hp). unfold refWf in Hwf; simpl in Hwf.
  rewrite appendString_hexText by done. by destruct (digestName d).
Qed.

Lemma StringMinusOne_spec_witness :
  str_lt (StringMinusOne (MkRef (Some (DSha1 (replicate 20 (zb 10))))))
    (RefString (MkRef (Some (DSha1 (replicate 20 (zb 10)))))) <->
  str_le (RefString (MkRef (Some (DSha1 (replicate 20 (zb 10))))))
    (RefString (MkRef (Some (DSha1 (replicate 20 (zb 10)))))).
Proof. apply StringMinusOne_spec; vm_compute; reflexivity. Defined.

(** * [Less] is a strict weak order *)

Definition refCompare (r o : Ref) : comparison :=
  match digest r, digest o with
  | None, None => Eq
  | None, Some _ => Lt
  | Some _, None => Gt
  | Some d, Some e =>
      match str_compare (digestName d) (digestName e) with
      | Eq => str_compare (digestBytes d) (digestBytes e)
      | c => c
      end
  end.

Lemma Less_refCompare r o : Less r o = match refCompare r o with Lt => true | _ => false end.
Proof.
  destruct r as [[d|]], o as [[e|]]; try done. unfold Less, refCompare, str_ltb; simpl.
  destruct (decide (digestName d = digestName e)) as [->|Hne]; simpl.
  - rewrite str_compare_refl. by destruct (decide _).
  - rewrite decide_True by done. rewrite <- str_compare_eq in Hne.
    by destruct (str_compare (digestName d) (digestName e)).
Qed.

Lemma refCompare_antisym r o : refCompare o r = CompOpp (refCompare r o).
Proof.
  destruct r as [[d|]], o as [[e|]]; try done. unfold refCompare; simpl.
  rewrite (str_compare_antisym (digestName d)), (str_compare_antisym (digestBytes d)).
  by destruct (str_compare (digestName d) (digestName e)).
Qed.

Lemma str_compare_trans s t u c : str_compare s t = c -> str_compare t u = c -> str_compare s u = c.
Proof.
  destruct c; intros H1 H2.
  - apply str_compare_eq in H1 as ->. done.
  - by eapply str_compare_lt_trans.
  - rewrite str_compare_antisym in H1, H2 |- *. apply CompOpp_iff in H1, H2. simpl in *.
    by rewrite (str_compare_lt_trans u t s).
Qed.

Lemma refCompare_lt_trans a b c : refCompare a b = Lt -> refCompare b c = Lt -> refCompare a c = Lt.
Proof.
  destruct a as [[d|]], b as [[e|]], c as [[f|]]; try done. unfold refCompare; simpl.
  destruct (str_compare (digestName d) (digestName e)) eqn:E1; [| |done];
    (destruct (str_compare (digestName e) (digestName f)) eqn:E2; [| |done]); intros H1 H2.
  - rewrite (str_compare_trans _ _ _ _ E1 E2). by eapply str_compare_lt_trans.
  - apply str_compare_eq in E1. by rewrite E1, E2.
  - apply str_compare_eq in E2. by rewrite <- E2, E1.
  - by rewrite (str_compare_trans _ _ _ _ E1 E2).
Qed.

Lemma refCompare_eq_l a b c : refCompare a b = Eq -> refCompare a c = refCompare b c.
Proof.
  destruct a as [[d|]], b as [[e|]]; try done. unfold refCompare; simpl.
  destruct (str_compare (digestName d) (digestName e)) eqn:E1; [|done..].
  intros H. apply str_compare_eq in E1, H. by rewrite E1, H.
Qed.

(** "Not greater": the order [sort.Sort(ByRef)] leaves a list in. *)
Definition refLe (a b : Ref) : Prop := Less b a = false.
#[global] Instance refLe_dec : RelDecision refLe.
Proof. intros a b. unfold refLe. apply _. Defined.

#[global] Instance refLe_total : Total refLe.
Proof.
  intros a b. unfold refLe. rewrite !Less_refCompare, (refCompare_antisym a b).
  destruct (refCompare a b); auto.
Qed.

#[global] Instance refLe_trans : Transitive refLe.
Proof.
  intros a b c. unfold refLe. rewrite !Less_refCompare.
  destruct (refCompare b a) eqn:E1, (refCompare c b) eqn:E2; try done; intros _ _.
  - by rewrite (refCompare_eq_l c b a E2), E1.
  - rewrite (refCompare_antisym a c), <- (refCompare_eq_l b a c E1), (refCompare_antisym c b), E2. done.
  - by rewrite (refCompare_eq_l c b a E2), E1.
  - rewrite refCompare_antisym in E1, E2. apply CompOpp_iff in E1, E2. simpl in *.
    by rewrite (refCompare_antisym a c), (refCompare_lt_trans a b c).
Qed.
