(* ===== verification/RollSum.v ===== *)
(** The rolling checksum that chooses where files are split: pkg/rollsum.

    The state keeps Go's [uint32] sums and its ring buffer; the theorems relate
    them to the sequence of bytes rolled in. *)

From S2P Require Import Prelude.

Definition windowSize : nat := 64.
Definition charOffset : Z := 31.
Definition blobBits : Z := 13.
Definition blobSize : Z := Z.shiftl 1 blobBits.

(** [RollSum]: two [uint32] sums, the window of [uint8]s and the write
    position. *)
Record RollSum := MkRollSum { s1 : Z; s2 : Z; window : list Z; wofs : nat }.

Definition New : RollSum :=
  MkRollSum (Z.of_nat windowSize * charOffset)
    (Z.of_nat windowSize * (Z.of_nat windowSize - 1) * charOffset)
    (replicate windowSize 0) 0.

(** [add drop add]: [uint32] arithmetic, except that [drop+charOffset] is
    computed in [uint8] before its conversion. *)
Definition rsAdd (rs : RollSum) (drop add : Z) : RollSum :=
  let s1' := u32 (s1 rs + u32 (add - drop)) in
  let s2' := u32 (s2 rs + u32 (s1' - u32 (Z.of_nat windowSize * u8 (drop + charOffset)))) in
  MkRollSum s1' s2' (window rs) (wofs rs).

Definition Roll (rs : RollSum) (ch : Z) : RollSum :=
  let rs' := rsAdd rs (nth (wofs rs) (window rs) 0) ch in
  MkRollSum (s1 rs') (s2 rs') (<[wofs rs := ch]> (window rs)) ((wofs rs + 1) mod windowSize)%nat.

Definition OnSplit (rs : RollSum) : bool :=
  Z.land (s2 rs) (blobSize - 1) =? Z.land (Z.lnot 0) (blobSize - 1).

(** The shift of a [uint32] by 32 or more gives 0 in Go, and so does [u32]. *)
Definition OnSplitWithBits (rs : RollSum) (n : Z) : bool :=
  let mask := u32 (u32 (Z.shiftl 1 n) - 1) in
  Z.land (s2 rs) mask =? Z.land (u32 (Z.lnot 0)) mask.

Definition Digest (rs : RollSum) : Z :=
  Z.lor (u32 (Z.shiftl (s1 rs) 16)) (Z.land (s2 rs) 65535).

(** The loop of [Bits]; [rsum] has at most 19 bits, so 19 rounds suffice
    ([Bits_spec]). *)
Fixpoint bitsLoop (fuel : nat) (rsum bits : Z) : option Z :=
  match fuel with
  | O => None
  | S fuel =>
      if Z.land (Z.shiftr rsum 1) 1 =? 0 then Some bits
      else bitsLoop fuel (Z.shiftr rsum 1) (bits + 1)
  end.

Definition Bits (rs : RollSum) : option Z :=
  bitsLoop 19 (Z.shiftr (Digest rs) blobBits) blobBits.

(** Rolling in a sequence of bytes from a fresh state. *)
Definition rollAll (bs : list Z) : RollSum := foldl Roll New bs.

(** * Invariant: the window holds the last 64 bytes *)

(** The window in the order the bytes were rolled, oldest first. *)
Definition recent (rs : RollSum) : list Z := drop (wofs rs) (window rs) ++ take (wofs rs) (window rs).

Definition isByte (b : Z) : Prop := 0 <= b < 256.

(** Sum, weighted sum (the oldest byte weighs most) and the number of bytes of
    [l] whose offset does not fit a [uint8]. *)
Definition sum (l : list Z) : Z := foldr Z.add 0 l.
Fixpoint wsum (l : list Z) : Z :=
  match l with
  | [] => 0
  | x :: l' => (1 + Z.of_nat (length l')) * x + wsum l'
  end.
Definition big (b : Z) : Z := if 225 <=? b then 1 else 0.

(** What the sums hold; [k] counts the bytes of 225 or more dropped so far. *)
Definition RSInv (rs : RollSum) (k : Z) : Prop :=
  length (window rs) = windowSize /\ (wofs rs < windowSize)%nat /\
  Forall isByte (window rs) /\
  s1 rs = u32 (64 * 31 + sum (recent rs)) /\
  s2 rs = u32 (64 * 63 * 31 + wsum (recent rs) + 2 ^ 14 * k).

Lemma sum_app l m : sum (l ++ m) = sum l + sum m.
Proof. induction l as [|x l IH]; simpl; [lia|]. rewrite IH. lia. Qed.

Lemma wsum_snoc l c : wsum (l ++ [c]) = wsum l + sum l + c.
Proof.
  induction l as [|x l IH]; simpl; [lia|]. rewrite IH, length_app. simpl.
  unfold sum; simpl. lia.
Qed.

Lemma u32_add_r a b : u32 (a + u32 b) = u32 (a + b).
Proof. unfold u32. apply Zplus_mod_idemp_r. Qed.
Lemma u32_add_l a b : u32 (u32 a + b) = u32 (a + b).
Proof. unfold u32. apply Zplus_mod_idemp_l. Qed.
Lemma u32_sub_r a b : u32 (a - u32 b) = u32 (a - b).
Proof. unfold u32. apply Zminus_mod_idemp_r. Qed.
Lemma u32_sub_l a b : u32 (u32 a - b) = u32 (a - b).
Proof. unfold u32. apply Zminus_mod_idemp_l. Qed.

Lemma u8_offset d : isByte d -> u8 (d + 31) = d + 31 - 256 * big d.
Proof.
  unfold isByte, u8, big. intros H. change (2 ^ 8) with 256.
  destruct (Z.leb_spec 225 d).
  - symmetry. apply Zmod_unique with 1; lia.
  - rewrite Z.mod_small; lia.
Qed.

Lemma ring_step (w : list Z) o ch x :
  length w = windowSize -> (o < windowSize)%nat -> w !! o = Some x ->
  let w' := <[o := ch]> w in let o' := ((o + 1) mod windowSize)%nat in
  exists m, drop o w ++ take o w = x :: m /\ drop o' w' ++ take o' w' = m ++ [ch].
Proof.
  intros Hw Ho Hx. pose proof (drop_S w x o Hx) as Hm.
  assert (length (take o w) = o) as Hlt by (rewrite length_take; lia).
  set (a := take o w) in *. set (b := drop (S o) w) in *.
  exists (b ++ a). split; [by rewrite Hm|].
  rewrite insert_take_drop by lia. fold a b.
  assert (length b = windowSize - S o)%nat as Hlb by (unfold b; rewrite length_drop; lia).
  clearbody a b. destruct (decide (o + 1 = windowSize)%nat) as [He|He].
  - rewrite He, Nat.Div0.mod_same. rewrite drop_0, take_0, app_nil_r.
    by rewrite (nil_length_inv b) by lia.
  - rewrite Nat.mod_small by lia.
    replace (o + 1)%nat with (length (a ++ [ch])) by (rewrite length_app; simpl; lia).
    rewrite (cons_middle ch a b), app_assoc, drop_app_length, take_app_length.
    by rewrite app_assoc.
Qed.

Lemma Roll_recent rs k ch :
  RSInv rs k -> isByte ch ->
  exists x m, recent rs = x :: m /\ recent (Roll rs ch) = m ++ [ch] /\
    length m = 63%nat /\ isByte x /\ RSInv (Roll rs ch) (k + big x).
Proof.
  intros (Hw & Ho & Hb & H1 & H2) Hch.
  destruct (lookup_lt_is_Some_2 (window rs) (wofs rs)) as [x Hx]; [lia|].
  destruct (ring_step (window rs) (wofs rs) ch x Hw Ho Hx) as (m & Hr & Hr').
  assert (isByte x) as Hbx by (by eapply Forall_lookup_1).
  assert (length m = 63%nat) as Hm.
  { apply (f_equal length) in Hr. rewrite length_app, length_drop, length_take in Hr.
    simpl in Hr. unfold windowSize in *. lia. }
  exists x, m. unfold recent in *. rewrite Hr in H1, H2. simpl in H1, H2.
  split_and!; [done|done|done|done|].
  unfold RSInv, recent, Roll; simpl. rewrite Hr'.
  erewrite nth_lookup_Some by done. split_and!.
  - by rewrite length_insert.
  - apply Nat.mod_upper_bound. done.
  - by apply Forall_insert.
  - rewrite H1, u32_add_l, u32_add_r, sum_app. simpl. f_equal. lia.
  - rewrite H1, H2, !u32_add_l, !u32_add_r, u8_offset by done.
    rewrite Z.add_sub_assoc, u32_sub_r, (Z.add_sub_swap _ (u32 _)), u32_add_r.
    rewrite wsum_snoc, Hm. change (Z.of_nat windowSize) with 64.
    change (Z.of_nat 63) with 63. change (2 ^ 14) with 16384. f_equal. lia.
Qed.

Lemma New_inv : RSInv New 0.
Proof.
  unfold RSInv. split_and!; [done|unfold windowSize; simpl; lia| |vm_compute; done..].
  apply Forall_replicate. unfold isByte. lia.
Qed.

(** The last [n] elements of [l]. *)
Definition lastn {A} (n : nat) (l : list A) : list A := drop (length l - n) l.

(** The initial window followed by the bytes rolled in. *)
Definition history (bs : list Z) : list Z := replicate windowSize 0 ++ bs.

Lemma history_snoc bs c : history (bs ++ [c]) = history bs ++ [c].
Proof. unfold history. by rewrite app_assoc. Qed.

Lemma history_length bs : length (history bs) = (64 + length bs)%nat.
Proof. unfold history. by rewrite length_app, length_replicate. Qed.

Lemma lastn_snoc {A} n (l : list A) x m c :
  (S n <= length l)%nat -> lastn (S n) l = x :: m -> lastn (S n) (l ++ [c]) = m ++ [c].
Proof.
  unfold lastn. intros Hl Hx. rewrite length_app. simpl length.
  rewrite drop_app_le by lia. f_equal.
  replace (length l + 1 - S n)%nat with (length l - S n + 1)%nat by lia.
  by rewrite <- drop_drop, Hx.
Qed.

#[local] Opaque windowSize.

Lemma rollAll_inv bs :
  Forall isByte bs ->
  exists k, RSInv (rollAll bs) k /\ recent (rollAll bs) = lastn 64 (history bs).
Proof.
  induction bs as [|c bs IH] using rev_ind; intros Hb;
    [by exists 0; split; [apply New_inv|]|].
  apply Forall_app in Hb as [Hb Hc]. apply Forall_inv in Hc.
  destruct (IH Hb) as (k & Hi & Hr). unfold rollAll in *. rewrite foldl_app. cbn [foldl].
  destruct (Roll_recent _ k c Hi Hc) as (x & m & Hx & Hm & Hl & _ & Hi').
  exists (k + big x). split; [done|]. rewrite Hm, history_snoc. symmetry.
  apply lastn_snoc with x; [rewrite history_length; lia|congruence].
Qed.

(** The rolling sums are functions of the window and of one count: after
    any byte sequence [s1] is the offset sum of the last 64 bytes and [s2] the
    weighted sum plus [2^14] times the number of bytes of 225 or more that have
    left the window, all modulo [2^32]. *)
Theorem rollAll_closed_form (bs : list Z) :
  Forall isByte bs ->
  exists k, s1 (rollAll bs) = u32 (64 * 31 + sum (lastn 64 (history bs))) /\
    s2 (rollAll bs) = u32 (64 * 63 * 31 + wsum (lastn 64 (history bs)) + 2 ^ 14 * k).
Proof.
  intros Hb. destruct (rollAll_inv bs Hb) as (k & (_ & _ & _ & H1 & H2) & Hr).
  exists k. by rewrite Hr in H1, H2.
Qed.

Lemma rollAll_closed_form_witness :
  exists k, s1 (rollAll [1; 255; 3]) = u32 (64 * 31 + sum (lastn 64 (history [1; 255; 3]))) /\
    s2 (rollAll [1; 255; 3]) =
      u32 (64 * 63 * 31 + wsum (lastn 64 (history [1; 255; 3])) + 2 ^ 14 * k).
Proof. apply rollAll_closed_form. repeat constructor; unfold isByte; lia. Defined.

Lemma land_pow2_mod z n : 0 <= n -> Z.land z (2 ^ n - 1) = z mod 2 ^ n.
Proof. intros Hn. rewrite <- Z.land_ones by lia. by rewrite Z.ones_equiv, Z.sub_1_r. Qed.

Lemma OnSplit_mod rs : OnSplit rs = (s2 rs mod 2 ^ 13 =? 2 ^ 13 - 1).
Proof.
  unfold OnSplit, blobSize, blobBits. change (Z.shiftl 1 13 - 1) with (2 ^ 13 - 1).
  by rewrite land_pow2_mod by lia.
Qed.

Lemma u32_mod_pow2 a k n m :
  0 <= n <= 32 -> n <= m -> u32 (a + 2 ^ m * k) mod 2 ^ n = a mod 2 ^ n.
Proof.
  intros Hn Hm. unfold u32. rewrite Z.mod_mod_divide.
  - replace m with (n + (m - n)) by lia. rewrite Z.pow_add_r by lia.
    rewrite <- Z.mul_assoc, (Z.mul_comm (2 ^ n)). apply Z.mod_add. lia.
  - exists (2 ^ (32 - n)). rewrite <- Z.pow_add_r by lia. f_equal. lia.
Qed.

(** Splitting is content defined: whether [OnSplit] holds after rolling a
    sequence of bytes depends only on its last 64 bytes, so the same content
    is cut at the same places wherever it occurs in a file. *)
Theorem OnSplit_window (bs cs : list Z) :
  Forall isByte bs -> Forall isByte cs ->
  lastn 64 (history bs) = lastn 64 (history cs) ->
  OnSplit (rollAll bs) = OnSplit (rollAll cs).
Proof.
  intros Hb Hc Hw.
  destruct (rollAll_inv bs Hb) as (k & (_ & _ & _ & _ & H2) & Hr).
  destruct (rollAll_inv cs Hc) as (k' & (_ & _ & _ & _ & H2') & Hr').
  rewrite !OnSplit_mod, H2, H2', Hr, Hr', Hw. by rewrite !u32_mod_pow2 by lia.
Qed.

Lemma OnSplit_window_witness :
  OnSplit (rollAll ([7] ++ repeat 200 64)) = OnSplit (rollAll ([255; 9] ++ repeat 200 64)).
Proof.
  apply OnSplit_window; [| |vm_compute; reflexivity];
    simpl; repeat (apply Forall_cons; split; [unfold isByte; lia|]); constructor.
Defined.

(** The full [Digest] is not a function of the window: one dropped byte of 255
    leaves a trace, because [drop+charOffset] wraps as a [uint8]. *)
Lemma Digest_not_window :
  lastn 64 (history (255 :: repeat 0 64)) = lastn 64 (history (repeat 0 64)) /\
  Digest (rollAll (255 :: repeat 0 64)) ≠ Digest (rollAll (repeat 0 64)).
Proof. split; [vm_compute; reflexivity|vm_compute; congruence]. Qed.

(** * [Bits] *)

Lemma land_1_testbit r : Z.land (Z.shiftr r 1) 1 = Z.b2z (Z.testbit r 1).
Proof.
  change 1 with (Z.ones 1) at 2. rewrite Z.land_ones by lia.
  change (2 ^ 1) with 2. by rewrite <- Z.bit0_mod, Z.shiftr_spec by lia.
Qed.

Lemma bitsLoop_spec f r b :
  0 <= r < 2 ^ (1 + Z.of_nat f) ->
  exists k, bitsLoop (S f) r b = Some (b + k) /\ 0 <= k <= Z.of_nat f /\
    (forall i, 1 <= i <= k -> Z.testbit r i = true) /\ Z.testbit r (k + 1) = false.
Proof.
  revert r b. induction f as [|f IH]; intros r b Hr; cbn [bitsLoop]; rewrite land_1_testbit.
  - exists 0. assert (Z.testbit r 1 = false) as Hb
      by (apply (proj1 (Z.bounded_iff_bits_nonneg 1 r ltac:(lia) ltac:(lia))); simpl in *; lia).
    rewrite Hb. split_and!; [simpl; f_equal; lia|lia|lia|intros; lia|done].
  - destruct (Z.testbit r 1) eqn:Hb; simpl.
    + destruct (IH (Z.shiftr r 1) (b + 1)) as (k & Hk & Rk & Hs & He).
      { rewrite Z.shiftr_div_pow2 by lia. change (2 ^ 1) with 2.
        replace (1 + Z.of_nat (S f)) with (Z.succ (1 + Z.of_nat f)) in Hr by lia.
        rewrite Z.pow_succ_r in Hr by lia.
        split; [apply Z.div_pos; lia|apply Z.div_lt_upper_bound; lia]. }
      exists (k + 1). cbn [bitsLoop] in Hk. rewrite Hk. split_and!; [f_equal; lia|lia|lia| |].
      * intros i Hi. destruct (decide (i = 1)) as [->|]; [done|].
        specialize (Hs (i - 1) ltac:(lia)). rewrite Z.shiftr_spec in Hs by lia.
        by replace (i - 1 + 1) with i in Hs by lia.
      * by rewrite Z.shiftr_spec in He by lia.
    + exists 0. split_and!; [f_equal; lia|lia|lia|intros; lia|done].
Qed.

Lemma lor_bound a b n : 0 <= n -> 0 <= a < 2 ^ n -> 0 <= b < 2 ^ n -> 0 <= Z.lor a b < 2 ^ n.
Proof.
  intros Hn Ha Hb. assert (0 <= Z.lor a b) by (apply Z.lor_nonneg; lia).
  apply (Z.bounded_iff_bits_nonneg' n); [lia|done|]. intros l Hl. rewrite Z.lor_spec.
  rewrite (proj1 (Z.bounded_iff_bits_nonneg n a ltac:(lia) ltac:(lia)) ltac:(lia) l Hl).
  by rewrite (proj1 (Z.bounded_iff_bits_nonneg n b ltac:(lia) ltac:(lia)) ltac:(lia) l Hl).
Qed.

Lemma Digest_range rs : 0 <= Digest rs < 2 ^ 32.
Proof.
  apply lor_bound; [lia|apply u32_range|].
  change 65535 with (Z.ones 16). rewrite Z.land_ones by lia.
  pose proof (Z.mod_pos_bound (s2 rs) (2 ^ 16) ltac:(lia)).
  assert (2 ^ 16 < 2 ^ 32) by done. lia.
Qed.

(** [Bits] terminates in every state, with a value between 13 and 31: 13
    plus the length of the run of set bits of the digest starting at bit 14. *)
Theorem Bits_spec (rs : RollSum) :
  exists k, Bits rs = Some (13 + k) /\ 0 <= k <= 18 /\
    (forall i, 1 <= i <= k -> Z.testbit (Digest rs) (13 + i) = true) /\
    Z.testbit (Digest rs) (14 + k) = false.
Proof.
  pose proof (Digest_range rs) as Hd.
  destruct (bitsLoop_spec 18 (Z.shiftr (Digest rs) blobBits) blobBits)
    as (k & Hk & Rk & Hs & He).
  { unfold blobBits. rewrite Z.shiftr_div_pow2 by lia.
    split; [apply Z.div_pos; lia|apply Z.div_lt_upper_bound; [lia|]].
    change (2 ^ 13 * 2 ^ (1 + Z.of_nat 18)) with (2 ^ 32). lia. }
  exists k. unfold blobBits in *. split_and!; [done|lia|lia| |].
  - intros i Hi. specialize (Hs i Hi). rewrite Z.shiftr_spec in Hs by lia.
    by replace (13 + i) with (i + 13) by lia.
  - rewrite Z.shiftr_spec in He by lia. by replace (14 + k) with (k + 1 + 13) by lia.
Qed.
