(* ===== verification/Strutil.v ===== *)
(** String routines: pkg/strutil (strconv.go, strutil.go) and the reversed
    time strings of pkg/index/reversetime.go.

    Decimal formatting ([strconv.Itoa], the [%d] and [%v] verbs of integers) is
    the standard library's; [strconv.ParseUint] is modelled by the repository's
    copy of it, [ParseUintBytes]. *)

From S2P Require Import Prelude.

(** * Decimal formatting *)

Definition digitChar (d : Z) : ascii := zb (bz "0" + d).

(** The digits of [n >= 0], least significant first, at most [fuel] of them. *)
Fixpoint revDigits (fuel : nat) (n : Z) : gostr :=
  match fuel with
  | O => []
  | S fuel =>
      if n <? 10 then [digitChar n]
      else digitChar (n mod 10) :: revDigits fuel (n / 10)
  end.

(** [strconv.Itoa] and [%d] on integers below [2^64] in absolute value, which
    have at most 20 digits. *)
Definition itoa (n : Z) : gostr :=
  if n <? 0 then "-"%char :: rev (revDigits 20 (- n)) else rev (revDigits 20 n).

(** * ParseUintBytes *)

(** [cutoff64]: the first [n] with [n*base >= 1<<64]. *)
Definition cutoff64 (base : Z) : Z :=
  if base <? 2 then 0 else u64 ((2 ^ 64 - 1) / base + 1).

(** [1<<uint(bitSize) - 1] on [uint64]; a negative [bitSize] converts to a huge
    shift count, which gives 0. *)
Definition maxVal (bitSize : Z) : Z :=
  u64 (u64 (if bitSize <? 0 then 0 else Z.shiftl 1 bitSize) - 1).

(** The digit switch: [None] is its default case. *)
Definition digitVal (d : ascii) : option Z :=
  if (bz "0" <=? bz d) && (bz d <=? bz "9") then Some (bz d - bz "0")
  else if (bz "a" <=? bz d) && (bz d <=? bz "z") then Some (bz d - bz "a" + 10)
  else if (bz "A" <=? bz d) && (bz d <=? bz "Z") then Some (bz d - bz "A" + 10)
  else None.

(** The loop over the digits; a Go [(n, err)] pair. *)
Fixpoint parseUintLoop (base cutoff maxV : Z) (s : gostr) (n : Z) : Z * gerr :=
  match s with
  | [] => (n, None)
  | d :: s' =>
      match digitVal d with
      | None => (0, Some ErrSyntax)
      | Some v =>
          if base <=? v then (0, Some ErrSyntax)
          else if cutoff <=? n then (2 ^ 64 - 1, Some ErrRange)
          else
            let n := u64 (n * base) in
            let n1 := u64 (n + v) in
            if (n1 <? n) || (maxV <? n1) then (2 ^ 64 - 1, Some ErrRange)
            else parseUintLoop base cutoff maxV s' n1
      end
  end.

Definition isX (c : ascii) : bool := bool_decide (c = "x"%char \/ c = "X"%char).

(** The base switch: the base and digits to parse, or the error. *)
Definition parseUintBase (s : gostr) (base : Z) : error + Z * gostr :=
  match s with
  | [] => inl ErrSyntax
  | c :: rest =>
      if (2 <=? base) && (base <=? 36) then inr (base, s)
      else if base =? 0 then
        match c, rest with
        | "0"%char, x :: ds =>
            if isX x then match ds with [] => inl ErrSyntax | _ => inr (16, ds) end
            else inr (8, s)
        | "0"%char, [] => inr (8, s)
        | _, _ => inr (10, s)
        end
      else inl (ErrMsg "invalid base ")
  end.

Definition ParseUintBytes (s : gostr) (base bitSize : Z) : Z * gerr :=
  let bitSize := if bitSize =? 0 then 64 else bitSize in
  match parseUintBase s base with
  | inl e => (0, Some e)
  | inr (base, s) => parseUintLoop base (cutoff64 base) (maxVal bitSize) s 0
  end.

(** * Splitting *)

(** [s[i:i+len(sep)] == sep]. *)
Definition isAt (sep s : gostr) (i : nat) : bool :=
  bool_decide (take (length sep) (drop i s) = sep).

(** [strings.Count(s, sep)] for a non-empty [sep]: non-overlapping occurrences. *)
Fixpoint countLoop (fuel : nat) (s sep : gostr) (i : nat) : Z :=
  match fuel with
  | O => 0
  | S fuel =>
      if decide (i + length sep <= length s)%nat then
        if isAt sep s i then 1 + countLoop fuel s sep (i + length sep)
        else countLoop fuel s sep (i + 1)
      else 0
  end.
Definition stringsCount (s sep : gostr) : Z := countLoop (S (length s)) s sep 0.

(** The loop of [genSplit]; [fuel] bounds the remaining positions. *)
Fixpoint genSplitLoop (fuel : nat) (dst : list gostr) (s sep : gostr)
    (sepSave : nat) (n na : Z) (start i : nat) : list gostr * nat :=
  match fuel with
  | O => (dst, start)
  | S fuel =>
      if bool_decide (i + length sep <= length s)%nat && (na + 1 <? n) then
        if isAt sep s i then
          genSplitLoop fuel (dst ++ [take (i + sepSave - start) (drop start s)]) s sep sepSave n
            (na + 1) (i + length sep) (i + length sep)
        else genSplitLoop fuel dst s sep sepSave n na start (i + 1)
      else (dst, start)
  end.

(** [genSplit]; a nil result for [n == 0] even when [dst] is not empty. *)
Definition genSplit (dst : list gostr) (s sep : gostr) (sepSave : nat) (n : Z) :
    res (list gostr) :=
  if n =? 0 then Ok [] else
  match sep with
  | [] => Panic "sep is empty"
  | _ =>
      let n := if n <? 0 then stringsCount s sep + 1 else n in
      let '(dst, start) := genSplitLoop (S (length s)) dst s sep sepSave n 0 0 0 in
      Ok (dst ++ [drop start s])
  end.

Definition AppendSplitN (dst : list gostr) (s sep : gostr) (n : Z) : res (list gostr) :=
  genSplit dst s sep 0 n.

(** * Plausible JSON *)

Definition isASCIIWhite (b : ascii) : bool :=
  bool_decide (b ∈ [" "%char; "010"%char; "013"%char; "009"%char]).

Fixpoint startsWithOpenBrace (s : gostr) : bool :=
  match s with
  | [] => false
  | c :: s' =>
      if decide (c = "{"%char) then true
      else if isASCIIWhite c then startsWithOpenBrace s' else false
  end.

(** [endsWithCloseBrace]: one round per byte. *)
Fixpoint endsLoop (fuel : nat) (s : gostr) : bool :=
  match fuel with
  | O => false
  | S fuel =>
      match last s with
      | None => false
      | Some c =>
          if decide (c = "}"%char) then true
          else if isASCIIWhite c then endsLoop fuel (take (length s - 1) s) else false
      end
  end.
Definition endsWithCloseBrace (s : gostr) : bool := endsLoop (S (length s)) s.

Definition IsPlausibleJSON (s : gostr) : bool := startsWithOpenBrace s && endsWithCloseBrace s.

(** * Reversed time strings *)

Definition reverseChar (c : ascii) : ascii :=
  if (bz "0" <=? bz c) && (bz c <=? bz "9") then zb (u8 (bz "0" + u8 (bz "9" - bz c))) else c.

Definition appendReverseString (b s : gostr) : gostr := b ++ map reverseChar s.

Definition reverseTimeString (s : gostr) : gostr := appendReverseString (gs "rt") s.

Definition unreverseTimeString (s : gostr) : res gostr :=
  if decide (take 2 s = gs "rt") then Ok (appendReverseString [] (drop 2 s))
  else Panic "can't unreverse time string: %q".

(** * Unsigned parsing *)

(** A digit of the base. *)
Definition digitIn (base : Z) (d : ascii) : option Z :=
  v ← digitVal d; if base <=? v then None else Some v.

(** The number a digit string denotes, accumulating into [acc]. *)
Definition digitsValue (base acc : Z) (vs : list Z) : Z := foldl (fun n v => n * base + v) acc vs.

Ltac char_codes :=
  change (bz "0") with 48 in *; change (bz "9") with 57 in *;
  change (bz "a") with 97 in *; change (bz "z") with 122 in *;
  change (bz "A") with 65 in *; change (bz "Z") with 90 in *.

Lemma digitVal_nonneg d v : digitVal d = Some v -> 0 <= v < 256.
Proof.
  unfold digitVal. pose proof (bz_range d). char_codes.
  repeat case_match; intros; simplify_eq; lia.
Qed.

Lemma digitIn_range base d v : digitIn base d = Some v -> 0 <= v < base.
Proof.
  unfold digitIn. destruct (digitVal d) as [w|] eqn:E; simpl; [|done].
  apply digitVal_nonneg in E. destruct (Z.leb_spec base w); intros; simplify_eq. lia.
Qed.

Lemma mapM_digitIn_range base s vs :
  mapM (digitIn base) s = Some vs -> Forall (fun v => 0 <= v < base) vs.
Proof.
  intros H%mapM_Some. induction H; constructor; [by eapply digitIn_range|done].
Qed.

Lemma digitsValue_mono base acc vs :
  1 <= base -> 0 <= acc -> Forall (fun v => 0 <= v < base) vs -> acc <= digitsValue base acc vs.
Proof.
  intros Hb. revert acc. induction vs as [|v vs IH]; intros acc Ha Hv; [simpl; lia|].
  apply Forall_cons in Hv as [Hv Hvs]. unfold digitsValue in *; simpl.
  specialize (IH (acc * base + v) ltac:(nia) Hvs). nia.
Qed.

Lemma cutoff64_spec base n : 2 <= base -> 0 <= n -> cutoff64 base <= n <-> 2 ^ 64 <= n * base.
Proof.
  intros Hb Hn. unfold cutoff64. destruct (Z.ltb_spec base 2); [lia|].
  pose proof (Z.mul_div_le (2 ^ 64 - 1) base ltac:(lia)).
  pose proof (Z.mul_succ_div_gt (2 ^ 64 - 1) base ltac:(lia)).
  assert (0 <= (2 ^ 64 - 1) / base) by (apply Z.div_pos; lia).
  rewrite u64_small by nia. nia.
Qed.

Lemma parseUintLoop_spec base maxV s vs n :
  2 <= base -> 0 <= n <= maxV -> maxV < 2 ^ 64 ->
  mapM (digitIn base) s = Some vs ->
  parseUintLoop base (cutoff64 base) maxV s n =
    if digitsValue base n vs <=? maxV then (digitsValue base n vs, None)
    else (2 ^ 64 - 1, Some ErrRange).
Proof.
  intros Hb. revert n vs. induction s as [|d s IH]; intros n vs Hn Hm Hs.
  { injection Hs as <-. simpl. by rewrite (proj2 (Z.leb_le _ _)) by lia. }
  apply mapM_Some in Hs. apply Forall2_cons_inv_l in Hs as (v & vs' & Hd & Hs & ->).
  assert (Forall (fun v => 0 <= v < base) vs') as Hvs
    by (apply mapM_digitIn_range with s, mapM_Some, Hs).
  apply mapM_Some in Hs. pose proof (digitIn_range _ _ _ Hd) as Hv.
  unfold digitIn in Hd. destruct (digitVal d) as [w|] eqn:Ew; [|done]. simpl in Hd.
  pose proof (digitVal_nonneg _ _ Ew) as Hw. cbn [parseUintLoop]. rewrite Ew. destruct (base <=? w) eqn:Ebw; [done|]. simplify_eq.
  unfold digitsValue at 1 2. cbn [foldl]. fold (digitsValue base (n * base + v) vs').
  pose proof (digitsValue_mono base (n * base + v) vs' ltac:(lia) ltac:(nia) Hvs) as Hmono.
  pose proof (cutoff64_spec base n Hb ltac:(lia)) as Hc.
  destruct (Z.leb_spec (cutoff64 base) n) as [Hcn|Hcn].
  { destruct (Z.leb_spec (digitsValue base (n * base + v) vs') maxV); [|done]. nia. }
  assert (n * base < 2 ^ 64) by lia. rewrite (u64_small (n * base)) by nia.
  destruct (decide (n * base + v < 2 ^ 64)) as [Hlt|Hge].
  - rewrite u64_small by nia. rewrite (proj2 (Z.ltb_ge _ (n * base))) by lia.
    destruct (Z.ltb_spec maxV (n * base + v)) as [Hgt|Hle]; simpl.
    + by rewrite (proj2 (Z.leb_gt _ _)) by lia.
    + apply IH; [nia|done|done].
  - assert (u64 (n * base + v) = n * base + v - 2 ^ 64) as ->
      by (unfold u64; symmetry; apply Zmod_unique with 1; lia).
    rewrite (proj2 (Z.ltb_lt _ (n * base))) by lia. simpl.
    by rewrite (proj2 (Z.leb_gt _ _)) by lia.
Qed.

Lemma maxVal_spec bitSize : 0 < bitSize <= 64 -> maxVal bitSize = 2 ^ bitSize - 1.
Proof.
  intros H. unfold maxVal. rewrite (proj2 (Z.ltb_ge _ _)), Z.shiftl_1_l by lia.
  assert (0 < 2 ^ bitSize <= 2 ^ 64) by (split; [apply Z.pow_pos_nonneg|apply Z.pow_le_mono_r]; lia).
  destruct (decide (bitSize = 64)) as [->|]; [done|].
  assert (2 ^ bitSize <= 2 ^ 63) by (apply Z.pow_le_mono_r; lia).
  assert (2 ^ 63 < 2 ^ 64) by done. rewrite !u64_small by (rewrite ?u64_small; lia). done.
Qed.

Lemma ParseUintBytes_digits (s : gostr) (base bitSize : Z) (vs : list Z) :
  2 <= base <= 36 -> 0 < bitSize <= 64 -> s ≠ [] -> mapM (digitIn base) s = Some vs ->
  ParseUintBytes s base bitSize =
    if digitsValue base 0 vs <=? 2 ^ bitSize - 1 then (digitsValue base 0 vs, None)
    else (2 ^ 64 - 1, Some ErrRange).
Proof.
  intros Hb Hbits Hs Hvs. unfold ParseUintBytes, parseUintBase.
  rewrite (proj2 (Z.eqb_neq bitSize 0)) by lia.
  destruct s as [|c s]; [done|].
  rewrite (proj2 (Z.leb_le 2 base)), (proj2 (Z.leb_le base 36)) by lia. simpl andb. cbn iota.
  rewrite <- maxVal_spec by lia.
  assert (0 < 2 ^ bitSize <= 2 ^ 64) by (split; [apply Z.pow_pos_nonneg|apply Z.pow_le_mono_r]; lia).
  apply parseUintLoop_spec; [lia| |rewrite maxVal_spec by lia; lia|done].
  rewrite maxVal_spec by lia. lia.
Qed.

(** [ParseUintBytes] on a non-empty string of digits of the base: the
    number it denotes if that fits [bitSize] bits, and otherwise the maximum
    [uint64] with [ErrRange]; the wrap-around tests miss no overflow. *)
Theorem ParseUintBytes_spec (s : gostr) (base bitSize : Z) (vs : list Z) :
  2 <= base <= 36 -> 0 < bitSize <= 64 -> s ≠ [] -> mapM (digitIn base) s = Some vs ->
  ParseUintBytes s base bitSize =
    if digitsValue base 0 vs <=? 2 ^ bitSize - 1 then (digitsValue base 0 vs, None)
    else (2 ^ 64 - 1, Some ErrRange).
Proof. apply ParseUintBytes_digits. Qed.

Lemma ParseUintBytes_spec_witness :
  ParseUintBytes (gs "4294967296") 10 32 =
    if digitsValue 10 0 [4; 2; 9; 4; 9; 6; 7; 2; 9; 6] <=? 2 ^ 32 - 1
    then (digitsValue 10 0 [4; 2; 9; 4; 9; 6; 7; 2; 9; 6], None) else (2 ^ 64 - 1, Some ErrRange).
Proof. apply ParseUintBytes_spec; [lia|lia|done|vm_compute; reflexivity]. Defined.

(** * Decimal round trip *)

Definition isDigit (c : ascii) : Prop := 48 <= bz c <= 57.

Lemma digitChar_spec d : 0 <= d < 10 -> bz (digitChar d) = 48 + d /\ digitIn 10 (digitChar d) = Some d.
Proof.
  intros Hd. unfold digitChar, digitIn, digitVal. char_codes.
  assert (bz (zb (48 + d)) = 48 + d) as -> by (apply bz_zb_small; lia). split; [done|].
  rewrite (proj2 (Z.leb_le 48 _)), (proj2 (Z.leb_le _ 57)) by lia. simpl.
  replace (48 + d - 48) with d by lia. by rewrite (proj2 (Z.leb_gt 10 d)) by lia.
Qed.

Lemma revDigits_spec fuel n :
  0 <= n < 10 ^ Z.of_nat fuel -> (0 < fuel)%nat ->
  Forall isDigit (revDigits fuel n) /\ revDigits fuel n ≠ [] /\
  (length (revDigits fuel n) <= fuel)%nat /\
  exists vs, mapM (digitIn 10) (rev (revDigits fuel n)) = Some vs /\ digitsValue 10 0 vs = n.
Proof.
  revert n. induction fuel as [|fuel IH]; intros n Hn Hf; [lia|]. cbn [revDigits].
  destruct (Z.ltb_spec n 10) as [Hlt|Hge].
  - destruct (digitChar_spec n ltac:(lia)) as [Hb Hd]. split_and!.
    + constructor; [unfold isDigit; lia|constructor].
    + done.
    + simpl. lia.
    + exists [n]. simpl. rewrite Hd. split; [done|]. unfold digitsValue; simpl. lia.
  - pose proof (Z.mod_pos_bound n 10 ltac:(lia)) as Hm.
    pose proof (Z.div_mod n 10 ltac:(lia)) as Hdm.
    assert (0 < fuel)%nat as Hf'.
    { destruct fuel; [|lia]. change (10 ^ Z.of_nat 1) with 10 in Hn. lia. }
    rewrite Nat2Z.inj_succ, Z.pow_succ_r in Hn by lia.
    destruct (IH (n / 10)) as (Hfd & Hne & Hlen & vs & Hvs & Hval); [|done|].
    { split; [apply Z.div_pos; lia|apply Z.div_lt_upper_bound; lia]. }
    destruct (digitChar_spec (n mod 10) Hm) as [Hb Hd]. split_and!.
    + constructor; [unfold isDigit; lia|done].
    + done.
    + simpl. lia.
    + exists (vs ++ [n mod 10]). simpl. split.
      { apply mapM_Some. apply mapM_Some in Hvs. apply Forall2_app; [done|].
        by repeat constructor. } unfold digitsValue in *. rewrite foldl_app, Hval. simpl. lia.
Qed.

Lemma itoa_spec n :
  0 <= n < 2 ^ 64 ->
  Forall isDigit (itoa n) /\ itoa n ≠ [] /\ (length (itoa n) <= 20)%nat /\
  exists vs, mapM (digitIn 10) (itoa n) = Some vs /\ digitsValue 10 0 vs = n.
Proof.
  intros Hn. unfold itoa. rewrite (proj2 (Z.ltb_ge n 0)) by lia.
  destruct (revDigits_spec 20 n) as (Hf & Hne & Hl & Hv);
    [change (10 ^ Z.of_nat 20) with 100000000000000000000; lia|lia|].
  split_and!.
  - apply Forall_rev, Hf.
  - intros H%(f_equal (@rev ascii)). rewrite rev_involutive in H. done.
  - by rewrite length_rev.
  - done.
Qed.

Lemma itoa_pos_head n : 0 < n < 2 ^ 64 -> exists c s, itoa n = c :: s /\ c ≠ "0"%char /\ isDigit c.
Proof.
  intros Hn. unfold itoa. rewrite (proj2 (Z.ltb_ge n 0)) by lia.
  assert (forall fuel n, 0 < n < 10 ^ Z.of_nat fuel -> exists s c, revDigits fuel n = s ++ [c] /\ c ≠ "0"%char /\ isDigit c) as Hr.
  { induction fuel as [|fuel IH]; intros m Hm; [simpl in Hm; lia|]. cbn [revDigits].
    assert (forall d, 0 < d < 10 -> digitChar d ≠ "0"%char /\ isDigit (digitChar d)) as Hd.
    { intros d Hd. destruct (digitChar_spec d ltac:(lia)) as [Hb _]. split; [|unfold isDigit; lia].
      intros He. rewrite He in Hb. change (bz "0") with 48 in Hb. lia. }
    destruct (Z.ltb_spec m 10) as [Hlt|Hge].
    - exists [], (digitChar m). split; [done|apply Hd; lia].
    - rewrite Nat2Z.inj_succ, Z.pow_succ_r in Hm by lia. pose proof (Z.div_mod m 10 ltac:(lia)).
      pose proof (Z.mod_pos_bound m 10 ltac:(lia)).
      destruct (IH (m / 10)) as (s & c & -> & Hc); [split; [lia|apply Z.div_lt_upper_bound; lia]|].
      exists (digitChar (m mod 10) :: s), c. done. }
  destruct (Hr 20%nat n) as (s & c & -> & Hc); [split; [lia|]; assert (2 ^ 64 < 10 ^ Z.of_nat 20) by done; lia|].
  rewrite rev_app_distr. simpl. eauto.
Qed.

Lemma itoa_digits n c : 0 <= n < 2 ^ 64 -> c ∈ itoa n -> isDigit c.
Proof. intros Hn Hc. destruct (itoa_spec n Hn) as (Hf & _). by eapply Forall_forall in Hf. Qed.

Lemma itoa_parse n bitSize :
  0 < bitSize <= 64 -> 0 <= n < 2 ^ bitSize -> ParseUintBytes (itoa n) 10 bitSize = (n, None).
Proof.
  intros Hb Hn. assert (2 ^ bitSize <= 2 ^ 64) by (apply Z.pow_le_mono_r; lia).
  destruct (itoa_spec n ltac:(lia)) as (_ & Hne & _ & vs & Hvs & Hval).
  rewrite (ParseUintBytes_digits _ _ _ vs); [|lia|lia|done|done].
  rewrite Hval. by rewrite (proj2 (Z.leb_le _ _)) by lia.
Qed.

Lemma itoa_inj m n : 0 <= m < 2 ^ 64 -> 0 <= n < 2 ^ 64 -> itoa m = itoa n -> m = n.
Proof.
  intros Hm Hn H. pose proof (itoa_parse m 64 ltac:(lia) Hm) as H1.
  rewrite H, itoa_parse in H1 by lia. by simplify_eq.
Qed.

(** * Splitting *)

Definition joinSep (sep : gostr) (l : list gostr) : gostr :=
  match l with [] => [] | p :: ps => p ++ concat (map (fun q => sep ++ q) ps) end.

Lemma joinSep_snoc sep l p : l ≠ [] -> joinSep sep (l ++ [p]) = joinSep sep l ++ sep ++ p.
Proof.
  destruct l as [|q l]; [done|]. intros _. simpl.
  rewrite map_app, concat_app. simpl. by rewrite app_nil_r, app_assoc.
Qed.

(** The loop's invariant: the pieces cut so far and the rest make up [s]. *)
Definition splitInv (dst0 dst : list gostr) (s sep : gostr) (na : Z) (start : nat) : Prop :=
  exists ps, dst = dst0 ++ ps /\ glen ps = na /\ (start <= length s)%nat /\
    joinSep sep (ps ++ [drop start s]) = s.

Lemma isAt_split sep s i :
  isAt sep s i = true -> (i + length sep <= length s)%nat ->
  drop i s = sep ++ drop (i + length sep) s.
Proof.
  unfold isAt. rewrite bool_decide_eq_true. intros H Hl.
  rewrite <- (take_drop (length sep) (drop i s)) at 1. by rewrite H, drop_drop.
Qed.

Lemma splitInv_cut dst0 dst s sep na start i :
  splitInv dst0 dst s sep na start -> (start <= i)%nat ->
  (i + length sep <= length s)%nat -> isAt sep s i = true ->
  splitInv dst0 (dst ++ [take (i + 0 - start) (drop start s)]) s sep (na + 1) (i + length sep).
Proof.
  intros (ps & -> & <- & Hst & Hj) Hi Hl Hat.
  exists (ps ++ [take (i + 0 - start) (drop start s)]).
  assert (drop start s = take (i + 0 - start) (drop start s) ++ sep ++ drop (i + length sep) s) as Hd.
  { rewrite <- isAt_split by done. rewrite <- (take_drop (i + 0 - start) (drop start s)) at 1.
    f_equal. rewrite drop_drop. f_equal. lia. }
  split_and!; [by rewrite app_assoc|unfold glen; rewrite length_app; simpl; lia|lia|].
  rewrite joinSep_snoc by (by destruct ps). rewrite Hd in Hj.
  destruct ps as [|p ps]; [simpl in *; by rewrite !app_nil_r in *|].
  rewrite joinSep_snoc in Hj |- * by done. by rewrite <- !app_assoc in *.
Qed.

Lemma genSplitLoop_inv fuel dst0 dst s sep n na start i :
  splitInv dst0 dst s sep na start -> (start <= i)%nat -> na < n ->
  let '(dst', start') := genSplitLoop fuel dst s sep 0 n na start i in
  exists na', splitInv dst0 dst' s sep na' start' /\ na' < n.
Proof.
  revert dst na start i. induction fuel as [|fuel IH]; intros dst na start i Hinv Hi Hn;
    cbn [genSplitLoop]; [by exists na|].
  destruct (bool_decide _ && (na + 1 <? n)) eqn:E; [|by exists na].
  apply andb_true_iff in E as [El%bool_decide_eq_true En%Z.ltb_lt].
  destruct (isAt sep s i) eqn:Eat.
  - apply IH; [by apply splitInv_cut|lia|lia].
  - apply IH; [done|lia|lia].
Qed.

(** [AppendSplitN] appends to [dst] pieces that, joined by the separator,
    are the string again; it appends at least one and, for [n > 0], at most
    [n].  It panics exactly on an empty separator with [n <> 0]. *)
Theorem AppendSplitN_spec (dst : list gostr) (s sep : gostr) (n : Z) :
  n ≠ 0 -> sep ≠ [] ->
  exists ps, AppendSplitN dst s sep n = Ok (dst ++ ps) /\ joinSep sep ps = s /\
    1 <= glen ps /\ (0 < n -> glen ps <= n).
Proof.
  intros Hn Hsep. unfold AppendSplitN, genSplit. rewrite (proj2 (Z.eqb_neq n 0)) by done.
  destruct sep as [|c sep]; [done|]. set (sp := c :: sep) in *.
  assert (forall f t p i, 0 <= countLoop f t p i) as Hcnt.
  { clear. induction f as [|f IH]; intros t p i; simpl; [lia|].
    repeat case_match; try lia; [specialize (IH t p (i + length p)%nat); lia|apply IH]. }
  set (m := if n <? 0 then stringsCount s sp + 1 else n).
  assert (0 < m) as Hm.
  { unfold m, stringsCount. destruct (Z.ltb_spec n 0); [|lia].
    specialize (Hcnt (S (length s)) s sp O). lia. }
  assert (splitInv dst dst s sp 0 0) as Hinv.
  { exists []. rewrite app_nil_r. split_and!; [done|done|lia|]. simpl.
    by rewrite drop_0, app_nil_r. }
  pose proof (genSplitLoop_inv (S (length s)) dst dst s sp m 0 0 0 Hinv ltac:(lia) Hm) as H.
  destruct (genSplitLoop _ _ _ _ _ _ _ _ _) as [dst' start].
  destruct H as (na & (ps & -> & Hna & _ & Hj) & Hlt).
  exists (ps ++ [drop start s]). split_and!.
  - by rewrite app_assoc.
  - done.
  - unfold glen. rewrite length_app. simpl. lia.
  - intros Hp. unfold m in Hlt. rewrite (proj2 (Z.ltb_ge n 0)) in Hlt by lia.
    unfold glen in *. rewrite length_app. simpl. lia.
Qed.

Lemma AppendSplitN_spec_witness :
  exists ps, AppendSplitN [gs "x"] (gs "a|b|c") (gs "|") 2 = Ok ([gs "x"] ++ ps) /\
    joinSep (gs "|") ps = gs "a|b|c" /\ 1 <= glen ps /\ (0 < 2 -> glen ps <= 2).
Proof. apply AppendSplitN_spec; [lia|done]. Defined.

(** * Reversed time strings *)

Lemma reverseChar_involutive c : reverseChar (reverseChar c) = c.
Proof. destruct c as [[] [] [] [] [] [] [] []]; reflexivity. Qed.

Lemma map_reverseChar_involutive s : map reverseChar (map reverseChar s) = s.
Proof. induction s as [|c s IH]; simpl; [done|]. by rewrite reverseChar_involutive, IH. Qed.

(** Strings that differ only in their digits, as two RFC 3339 times of the same
    precision do. *)
Definition sameShape (a b : gostr) : Prop :=
  Forall2 (fun c d => c = d \/ (isDigit c /\ isDigit d)) a b.

Lemma reverseChar_digit c : isDigit c -> bz (reverseChar c) = 105 - bz c.
Proof.
  unfold isDigit, reverseChar. char_codes. intros H.
  rewrite (proj2 (Z.leb_le 48 _)), (proj2 (Z.leb_le _ 57)) by lia. simpl.
  unfold u8. change (2 ^ 8) with 256. rewrite !Z.mod_small by (rewrite ?Z.mod_small; lia).
  rewrite bz_zb_small; lia.
Qed.

(** Time strings are reversed without loss, and reversing turns the
    string order of times of one shape around, so that an index key built
    from a reversed time lists the newest first. *)
Theorem reverseTime_order (a b : gostr) :
  sameShape a b ->
  unreverseTimeString (reverseTimeString a) = Ok a /\
  str_compare (reverseTimeString a) (reverseTimeString b) = str_compare b a.
Proof.
  intros H. split.
  - unfold unreverseTimeString, reverseTimeString, appendReverseString.
    rewrite decide_True by done. simpl. by rewrite ?drop_0, map_reverseChar_involutive.
  - unfold reverseTimeString, appendReverseString, gs. cbn [list_ascii_of_string app str_compare].
    rewrite !Z.compare_refl. induction H as [|c d a b Hcd _ IH]; [done|].
    cbn [map str_compare]. rewrite IH. destruct Hcd as [->|[Hc Hd]].
    + by rewrite !Z.compare_refl.
    + rewrite !reverseChar_digit by done.
      destruct (Z.compare_spec (105 - bz c) (105 - bz d)), (Z.compare_spec (bz d) (bz c)); done || lia.
Qed.

Lemma reverseTime_order_witness :
  unreverseTimeString (reverseTimeString (gs "2014-01-02T03:04:05Z")) = Ok (gs "2014-01-02T03:04:05Z") /\
  str_compare (reverseTimeString (gs "2014-01-02T03:04:05Z"))
    (reverseTimeString (gs "2013-12-31T23:59:59Z")) =
  str_compare (gs "2013-12-31T23:59:59Z") (gs "2014-01-02T03:04:05Z").
Proof.
  apply reverseTime_order. unfold sameShape, gs; simpl.
  repeat (constructor; [first [left; reflexivity|right; split; vm_compute; split; congruence]|]).
  constructor.
Defined.

(** * Plausible JSON *)

(** [s] with its ASCII white space removed on the left, on the right. *)
Fixpoint trimLeft (s : gostr) : gostr :=
  match s with
  | [] => []
  | c :: s' => if isASCIIWhite c then trimLeft s' else s
  end.

Lemma startsWithOpenBrace_trim s : startsWithOpenBrace s = bool_decide (head (trimLeft s) = Some "{"%char).
Proof.
  induction s as [|c s IH]; simpl; [done|].
  destruct (decide (c = "{"%char)) as [->|Hc]; [done|].
  destruct (isASCIIWhite c); [done|]. simpl. symmetry. apply bool_decide_eq_false. congruence.
Qed.

Lemma endsLoop_trim fuel s :
  (length s < fuel)%nat -> endsLoop fuel s = bool_decide (head (trimLeft (rev s)) = Some "}"%char).
Proof.
  revert s. induction fuel as [|fuel IH]; intros s Hf; [lia|]. cbn [endsLoop].
  destruct s as [|c s _] using rev_ind; [done|].
  rewrite last_snoc, rev_app_distr. simpl. rewrite length_app in *. simpl in *.
  destruct (decide (c = "}"%char)) as [->|Hc]; [done|].
  destruct (isASCIIWhite c); simpl.
  - replace (length s + 1 - 1)%nat with (length s) by lia. rewrite take_app_length. apply IH. lia.
  - symmetry. apply bool_decide_eq_false. congruence.
Qed.

(** [IsPlausibleJSON] holds exactly when, white space apart, the string
    starts with an open brace and ends with a close brace. *)
Theorem IsPlausibleJSON_spec (s : gostr) :
  IsPlausibleJSON s = true <->
  head (trimLeft s) = Some "{"%char /\ head (trimLeft (rev s)) = Some "}"%char.
Proof.
  unfold IsPlausibleJSON, endsWithCloseBrace.
  rewrite startsWithOpenBrace_trim, endsLoop_trim by lia.
  by rewrite andb_true_iff, !bool_decide_eq_true.
Qed.
