(* ===== verification/SortedKV.v ===== *)
(** Sorted key/value stores: pkg/sorted/kv.go and pkg/sorted/mem.go.

    [KV] is the interface [sorted.KeyValue] and [KVLaws] what it promises;
    [memKeys] is the in-memory implementation over a leveldb [db.DB], which is
    an interface with its documented laws. *)

From S2P Require Import Prelude.

(** * Mutations and batches *)

Record mutation := Mutation { m_key : gostr; m_value : gostr; m_delete : bool }.

(** A batch is the list of its mutations, oldest first. *)
Abbreviation batch := (list mutation).

Definition NewBatchMutation : batch := [].
Definition batchDelete (b : batch) (key : gostr) : batch := b ++ [Mutation key [] true].
Definition batchSet (b : batch) (key value : gostr) : batch := b ++ [Mutation key value false].

(** What applying a batch means on the map of bindings. *)
Definition applyMutation (m : gmap gostr gostr) (mu : mutation) : gmap gostr gostr :=
  if m_delete mu then delete (m_key mu) m else <[m_key mu := m_value mu]> m.
Definition applyMutations (m : gmap gostr gostr) (b : batch) : gmap gostr gostr :=
  foldl applyMutation m b.

(** * The interface *)

(** The bindings [Find start end] lists: keys [>= start], and [< end] unless
    [end] is empty. *)
Definition inRange (start end_ : gostr) (p : gostr * gostr) : Prop :=
  str_le start p.1 /\ (end_ = [] \/ str_lt p.1 end_).
#[global] Instance inRange_dec start end_ p : Decision (inRange start end_ p).
Proof. unfold inRange. apply _. Defined.

Definition rangeOf (start end_ : gostr) (m : gmap gostr gostr) : list (gostr * gostr) :=
  filter (inRange start end_) (sortedPairs m).

(** [sorted.KeyValue].  [kv_find] gives the pairs the iterator yields and the
    result of closing it. *)
Class KV (K : Type) := {
  kv_get : gostr -> K -> res gostr;
  kv_set : gostr -> gostr -> K -> gerr * K;
  kv_delete : gostr -> K -> gerr * K;
  kv_commit : batch -> K -> gerr * K;
  kv_find : gostr -> gostr -> K -> list (gostr * gostr) * gerr;
  kv_close : K -> gerr * K }.

(** The documented contract; a call that reports an error promises nothing. *)
Class KVLaws (K : Type) `{KV K} := {
  kv_view : K -> gmap gostr gostr;
  kv_get_Ok k s v : kv_get k s = Ok v -> kv_view s !! k = Some v;
  kv_get_NotFound k s : kv_get k s = Err ErrNotFound -> kv_view s !! k = None;
  kv_set_ok k v s s' : kv_set k v s = (None, s') -> kv_view s' = <[k := v]> (kv_view s);
  kv_delete_ok k s s' : kv_delete k s = (None, s') -> kv_view s' = delete k (kv_view s);
  kv_commit_ok b s s' :
    kv_commit b s = (None, s') -> kv_view s' = applyMutations (kv_view s) b;
  kv_find_ok a e s l : kv_find a e s = (l, None) -> l = rangeOf a e (kv_view s);
  kv_close_ok s s' : kv_close s = (None, s') -> kv_view s' = kv_view s }.

(** [ForeachInRange kv start end fn]: [fn] threads its own state [T]. *)
Fixpoint foreachLoop {T} (fn : gostr -> gostr -> T -> gerr * T)
    (l : list (gostr * gostr)) (closeErr : gerr) (t : T) : gerr * T :=
  match l with
  | [] => (closeErr, t)
  | (k, v) :: l' =>
      match fn k v t with
      | (Some e, t') => (Some e, t')
      | (None, t') => foreachLoop fn l' closeErr t'
      end
  end.

Definition ForeachInRange {K T} `{KV K} (kv : K) (start end_ : gostr)
    (fn : gostr -> gostr -> T -> gerr * T) (t : T) : gerr * T :=
  let '(l, closeErr) := kv_find start end_ kv in foreachLoop fn l closeErr t.

Definition Foreach {K T} `{KV K} (kv : K) (fn : gostr -> gostr -> T -> gerr * T) (t : T) :=
  ForeachInRange kv [] [] fn t.

(** * memKeys *)

(** leveldb's [db.DB], vendored; its documented behaviour. *)
Definition dbErrNotFound : error := ErrMsg "leveldb/db: not found".

Class LevelDB (D : Type) := {
  db_view : D -> gmap gostr gostr;
  db_get : gostr -> D -> res gostr;
  db_set : gostr -> gostr -> D -> gerr * D;
  db_delete : gostr -> D -> gerr * D;
  db_find : gostr -> D -> list (gostr * gostr);
  db_get_spec k d :
    db_get k d = match db_view d !! k with Some v => Ok v | None => Err dbErrNotFound end;
  db_set_spec k v d : exists d',
    db_set k v d = (None, d') /\ db_view d' = <[k := v]> (db_view d);
  db_delete_spec k d : exists d',
    db_delete k d =
      (match db_view d !! k with Some _ => None | None => Some dbErrNotFound end, d') /\
    db_view d' = delete k (db_view d);
  db_find_spec k d : db_find k d = filter (fun p => str_le k p.1) (sortedPairs (db_view d)) }.

Section memKeys.
Context {D : Type} `{LevelDB D}.

(** The mutex is held during every operation, so each is one step. *)
Record memKeys := MemKeys { mk_db : D }.

(** [memIter]: the pairs the leveldb iterator still has to deliver, its
    current pair, and the upper bound. *)
Record memIter := MemIter {
  mi_rest : list (gostr * gostr);
  mi_cur : option (gostr * gostr);
  mi_end : gostr }.

Definition memIterNext (t : memIter) : bool * memIter :=
  match mi_rest t with
  | [] => (false, MemIter [] None (mi_end t))
  | p :: rest =>
      let t' := MemIter rest (Some p) (mi_end t) in
      if bool_decide (mi_end t ≠ [] /\ ~ str_lt p.1 (mi_end t)) then (false, t') else (true, t')
  end.

(** Draining an iterator: [for it.Next() { ... it.Key(), it.Value() ... }]. *)
Fixpoint memIterDrain (fuel : nat) (t : memIter) : list (gostr * gostr) :=
  match fuel with
  | O => []
  | S fuel =>
      match memIterNext t with
      | (true, t') => option_list (mi_cur t') ++ memIterDrain fuel t'
      | (false, _) => []
      end
  end.

Definition memGet (key : gostr) (mk : memKeys) : res gostr :=
  match db_get key (mk_db mk) with
  | Err e => if decide (e = dbErrNotFound) then Err ErrNotFound else Err e
  | r => r
  end.

Definition memFind (start end_ : gostr) (mk : memKeys) : memIter :=
  MemIter (db_find start (mk_db mk)) None end_.

Definition memSet (key value : gostr) (mk : memKeys) : gerr * memKeys :=
  let '(e, d) := db_set key value (mk_db mk) in (e, MemKeys d).

Definition memDelete (key : gostr) (mk : memKeys) : gerr * memKeys :=
  let '(e, d) := db_delete key (mk_db mk) in
  (if decide (e = Some dbErrNotFound) then None else e, MemKeys d).

(** [CommitBatch] stops at the first error and keeps what it has done. *)
Fixpoint memCommitBatch (b : batch) (mk : memKeys) : gerr * memKeys :=
  match b with
  | [] => (None, mk)
  | m :: b' =>
      let '(e, d) := if m_delete m then db_delete (m_key m) (mk_db mk)
                     else db_set (m_key m) (m_value m) (mk_db mk) in
      match e with
      | Some e => (Some e, MemKeys d)
      | None => memCommitBatch b' (MemKeys d)
      end
  end.

Definition memClose (mk : memKeys) : gerr * memKeys := (None, mk).

#[export] Instance memKeys_KV : KV memKeys := {
  kv_get := memGet;
  kv_set := memSet;
  kv_delete := memDelete;
  kv_commit := memCommitBatch;
  kv_find start end_ mk :=
    let it := memFind start end_ mk in (memIterDrain (S (length (mi_rest it))) it, None);
  kv_close := memClose }.
End memKeys.
Arguments memKeys : clear implicits.
Arguments MemKeys {D} _.
Arguments mk_db {D} _.

(** A concrete [db.DB]: a finite map. *)
#[export] Instance gmap_LevelDB : LevelDB (gmap gostr gostr).
Proof.
  refine {|
    db_view d := d;
    db_get k d := match d !! k with Some v => Ok v | None => Err dbErrNotFound end;
    db_set k v d := (None, <[k := v]> d);
    db_delete k d :=
      (match d !! k with Some _ => None | None => Some dbErrNotFound end, delete k d);
    db_find k d := filter (fun p => str_le k p.1) (sortedPairs d) |}; eauto.
Defined.

(** * memKeys implements the interface *)

Section memKeys_proofs.
Context {D : Type} `{LevelDB D}.
Implicit Types mk : memKeys D.

Definition memView mk : gmap gostr gostr := db_view (mk_db mk).

Lemma memIterDrain_spec l cur e fuel :
  StronglySorted key_lt l -> (length l < fuel)%nat ->
  memIterDrain fuel (MemIter l cur e) = filter (fun p => e = [] \/ str_lt p.1 e) l.
Proof.
  intros Hs. revert fuel cur. induction Hs as [|p l Hs IH Hf]; intros [|fuel] cur Hl;
    simpl in Hl; try lia; [done|].
  cbn [memIterDrain]. unfold memIterNext. cbn [mi_rest mi_end]. rewrite filter_cons.
  destruct (bool_decide_reflect (e ≠ [] /\ ~ str_lt p.1 e)) as [[He Hp]|Hn].
  - rewrite decide_False by tauto. symmetry. apply filter_none.
    rewrite Forall_forall in Hf |- *. intros q Hq [?|Hqe]; [done|].
    apply Hp. transitivity q.1; [by apply Hf|done].
  - rewrite decide_True.
    + cbn [mi_cur option_list app]. rewrite IH by lia. done.
    + destruct (decide (e = [])), (decide (str_lt p.1 e)); tauto.
Qed.

Lemma memFind_range a e mk :
  kv_find a e mk = (rangeOf a e (memView mk), None).
Proof.
  cbn [kv_find memKeys_KV]. f_equal. unfold memFind. cbn [mi_rest]. rewrite db_find_spec.
  rewrite memIterDrain_spec; [|apply ssorted_filter, sortedPairs_sorted|lia].
  rewrite list_filter_filter. unfold rangeOf. apply filter_ext. unfold inRange. tauto.
Qed.

Lemma memGet_spec k mk :
  memGet k mk = match memView mk !! k with Some v => Ok v | None => Err ErrNotFound end.
Proof.
  unfold memGet, memView. rewrite db_get_spec. destruct (_ !! k); [done|].
  by rewrite decide_True.
Qed.

Lemma memSet_spec k v mk : exists mk',
  memSet k v mk = (None, mk') /\ memView mk' = <[k := v]> (memView mk).
Proof.
  unfold memSet, memView. destruct (db_set_spec k v (mk_db mk)) as (d & -> & Hd).
  by eexists.
Qed.

Lemma memDelete_spec k mk : exists mk',
  memDelete k mk = (None, mk') /\ memView mk' = delete k (memView mk).
Proof.
  unfold memDelete, memView. destruct (db_delete_spec k (mk_db mk)) as (d & -> & Hd).
  exists (MemKeys d). split; [|exact Hd]. by destruct (db_view (mk_db mk) !! k).
Qed.

Lemma memCommitBatch_ok b mk mk' :
  memCommitBatch b mk = (None, mk') -> memView mk' = applyMutations (memView mk) b.
Proof.
  revert mk. induction b as [|m b IH]; intros mk; cbn [memCommitBatch]; [by intros [= <-]|].
  unfold applyMutations. cbn [foldl]. unfold applyMutation at 2.
  destruct (m_delete m); [destruct (db_delete_spec (m_key m) (mk_db mk)) as (d & -> & Hd)|
    destruct (db_set_spec (m_key m) (m_value m) (mk_db mk)) as (d & -> & Hd)].
  - destruct (db_view (mk_db mk) !! m_key m); [|done]. intros ->%IH.
    unfold memView in *; simpl. by rewrite Hd.
  - intros ->%IH. unfold memView in *; simpl. by rewrite Hd.
Qed.

#[export] Instance memKeys_laws : KVLaws (memKeys D).
Proof.
  refine {| kv_view := memView |}.
  - intros k s v. cbn [kv_get memKeys_KV]. rewrite memGet_spec.
    destruct (memView s !! k); naive_solver.
  - intros k s. cbn [kv_get memKeys_KV]. rewrite memGet_spec.
    destruct (memView s !! k); naive_solver.
  - intros k v s s' Hs. destruct (memSet_spec k v s) as (mk & Hm & Hv).
    cbn [kv_set memKeys_KV] in Hs. congruence.
  - intros k s s' Hs. destruct (memDelete_spec k s) as (mk & Hm & Hv).
    cbn [kv_delete memKeys_KV] in Hs. congruence.
  - intros b s s'. apply memCommitBatch_ok.
  - intros a e s l. rewrite memFind_range. by intros [= <-].
  - intros s s'. cbn. by intros [= <-].
Defined.
End memKeys_proofs.

(** The in-memory store is a sorted map: [Get] is lookup ([ErrNotFound]
    when absent), [Set] and [Delete] never fail and update one binding (also
    when the deleted key is absent), and [Find] yields exactly the bindings of
    the half-open range, in strictly increasing key order. *)
Theorem memKeys_spec {D} `{LevelDB D} (mk : memKeys D) (k v a e : gostr) :
  kv_get k mk = match memView mk !! k with Some v => Ok v | None => Err ErrNotFound end /\
  (exists mk', kv_set k v mk = (None, mk') /\ memView mk' = <[k := v]> (memView mk)) /\
  (exists mk', kv_delete k mk = (None, mk') /\ memView mk' = delete k (memView mk)) /\
  exists l, kv_find a e mk = (l, None) /\ StronglySorted key_lt l /\
    forall k v, (k, v) ∈ l <->
      memView mk !! k = Some v /\ str_le a k /\ (e = [] \/ str_lt k e).
Proof.
  split_and!; [apply memGet_spec|apply memSet_spec|apply memDelete_spec|].
  exists (rangeOf a e (memView mk)). split_and!; [apply memFind_range| |].
  - apply ssorted_filter, sortedPairs_sorted.
  - intros k' v'. unfold rangeOf. rewrite list_elem_of_filter, elem_of_sortedPairs.
    unfold inRange; simpl. tauto.
Qed.

(** [CommitBatch] of the in-memory store applies the mutations in order,
    but only up to the first deletion of a key that is absent at that point:
    there it stops with leveldb's not-found error, the earlier mutations
    applied and the later ones lost. *)
Theorem memCommitBatch_prefix {D} `{LevelDB D} (b : batch) (mk : memKeys D) :
  exists n mk' e, memCommitBatch b mk = (e, mk') /\
    memView mk' = applyMutations (memView mk) (take n b) /\
    ((e = None /\ n = length b) \/
     (e = Some dbErrNotFound /\ exists m, b !! n = Some m /\ m_delete m = true /\
        memView mk' !! m_key m = None)).
Proof.
  revert mk. induction b as [|m b IH]; intros mk.
  { exists O, mk, None. split_and!; [done|done|by left]. }
  cbn [memCommitBatch]. unfold applyMutations. destruct (m_delete m) eqn:Hm.
  - destruct (db_delete_spec (m_key m) (mk_db mk)) as (d & -> & Hd).
    destruct (db_view (mk_db mk) !! m_key m) as [v|] eqn:Hv.
    + destruct (IH (MemKeys d)) as (n & mk' & e & -> & Hview & Hcase).
      exists (S n), mk', e. split_and!; [done| |].
      * rewrite Hview. cbn [take foldl]. f_equal. unfold applyMutation. by rewrite Hm.
      * destruct Hcase as [[-> ->]|Hcase]; [by left|by right].
    + exists O, (MemKeys d), (Some dbErrNotFound). split_and!; [done| |].
      * unfold memView; simpl. rewrite Hd. by rewrite delete_id.
      * right. split; [done|]. exists m. split_and!; [done|done|].
        unfold memView; simpl. rewrite Hd. apply lookup_delete_eq.
  - destruct (db_set_spec (m_key m) (m_value m) (mk_db mk)) as (d & -> & Hd).
    destruct (IH (MemKeys d)) as (n & mk' & e & -> & Hview & Hcase).
    exists (S n), mk', e. split_and!; [done| |].
    + rewrite Hview. cbn [take foldl]. f_equal. unfold applyMutation. by rewrite Hm.
    + destruct Hcase as [[-> ->]|Hcase]; [by left|by right].
Qed.
