(* ===== verification/Buffer.v ===== *)
(** The buffered key/value store: pkg/sorted/buffer/buffer.go.

    A fast store [buf] in front of a backing store [back], both arbitrary
    [sorted.KeyValue]s given by the interface of SortedKV.v. *)

From S2P Require Import Prelude SortedKV.

(** * The merging iterator *)

(** An underlying [sorted.Iterator]: the pairs it has still to deliver and the
    current one. *)
Record baseIter := BaseIter {
  bi_rest : list (gostr * gostr);
  bi_cur : option (gostr * gostr) }.

Definition baseNext (it : baseIter) : bool * baseIter :=
  match bi_rest it with
  | [] => (false, it)
  | p :: rest => (true, BaseIter rest (Some p))
  end.

Definition baseKey (it : baseIter) : gostr := from_option fst [] (bi_cur it).
Definition baseValue (it : baseIter) : gostr := from_option snd [] (bi_cur it).

(** [subIter]: an iterator with its current key and whether it reached EOF. *)
Record subIter := SubIter { si_it : baseIter; si_key : gostr; si_eof : bool }.

Definition subNext (s : subIter) : bool * subIter :=
  let '(ok, it') := baseNext (si_it s) in
  if ok then (true, SubIter it' (baseKey it') (si_eof s))
  else (false, SubIter it' (si_key s) true).

Record iter := Iter { it_buf : subIter; it_back : subIter }.

Definition iterCurrent (it : iter) : subIter :=
  if si_eof (it_back it) then it_buf it
  else if si_eof (it_buf it) then it_back it
  else if str_leb (si_key (it_buf it)) (si_key (it_back it)) then it_buf it
  else it_back it.

Definition iterNext (it : iter) : bool * iter :=
  (* Call Next on both iterators for the first time. *)
  let '(start, buf) :=
    if bool_decide (si_key (it_buf it) = []) && negb (si_eof (it_buf it))
    then subNext (it_buf it) else (false, it_buf it) in
  let '(start, back) :=
    if bool_decide (si_key (it_back it) = []) && negb (si_eof buf)
    then let '(r, back) := subNext (it_back it) in (r || start, back)
    else (start, it_back it) in
  if start then (true, Iter buf back)
  else if si_eof buf && si_eof back then (false, Iter buf back)
  else if si_eof buf then let '(r, back) := subNext back in (r, Iter buf back)
  else if si_eof back then let '(r, buf) := subNext buf in (r, Iter buf back)
  else match str_compare (si_key buf) (si_key back) with
       | Lt => (true, Iter (snd (subNext buf)) back)
       | Gt => (true, Iter buf (snd (subNext back)))
       | Eq =>
           let '(n1, buf) := subNext buf in
           let '(n2, back) := subNext back in
           (negb (negb n1 && negb n2), Iter buf back)
       end.

Definition iterKey (it : iter) : gostr := si_key (iterCurrent it).
Definition iterValue (it : iter) : gostr := baseValue (si_it (iterCurrent it)).

(** [for it.Next() { ... it.Key(), it.Value() ... }]. *)
Fixpoint iterDrain (fuel : nat) (it : iter) : list (gostr * gostr) :=
  match fuel with
  | O => []
  | S fuel =>
      match iterNext it with
      | (true, it') => (iterKey it', iterValue it') :: iterDrain fuel it'
      | (false, _) => []
      end
  end.

Definition newSubIter (l : list (gostr * gostr)) : subIter := SubIter (BaseIter l None) [] false.

(** * The store *)

Section buffer.
Context {B K : Type} `{KV B} `{KV K}.

(** The mutexes order the operations: [Flush] excludes all others. *)
Record KeyValue := MkKeyValue {
  kbuf : B; kback : K; maxBuffer : Z; buffered : Z }.

Definition bufNew (b : B) (k : K) (maxBufferBytes : Z) : KeyValue :=
  MkKeyValue b k maxBufferBytes 0.

(** The batches [Flush] builds from the buffer's iterator. *)
Definition flushBack (l : list (gostr * gostr)) : batch :=
  foldl (fun b p => batchSet b p.1 p.2) NewBatchMutation l.
Definition flushBuf (l : list (gostr * gostr)) : batch :=
  foldl (fun b p => batchDelete b p.1) NewBatchMutation l.

Definition bufFlush (kv : KeyValue) : gerr * KeyValue :=
  let '(l, closeErr) := kv_find [] [] (kbuf kv) in
  match closeErr with
  | Some e => (Some e, kv)
  | None =>
      match l with
      | [] => (None, kv)
      | _ =>
          let '(e, back) := kv_commit (flushBack l) (kback kv) in
          let kv := MkKeyValue (kbuf kv) back (maxBuffer kv) (buffered kv) in
          match e with
          | Some e => (Some e, kv)
          | None =>
              let '(e, buf) := kv_commit (flushBuf l) (kbuf kv) in
              let kv := MkKeyValue buf (kback kv) (maxBuffer kv) (buffered kv) in
              match e with
              | Some e => (Some e, kv)
              | None => (None, MkKeyValue buf (kback kv) (maxBuffer kv) 0)
              end
          end
      end
  end.

Definition bufGet (key : gostr) (kv : KeyValue) : res gostr :=
  match kv_get key (kbuf kv) with
  | Err ErrNotFound => kv_get key (kback kv)
  | r => r
  end.

Definition bufSet (key value : gostr) (kv : KeyValue) : gerr * KeyValue :=
  let '(e, buf) := kv_set key value (kbuf kv) in
  match e with
  | Some e => (Some e, MkKeyValue buf (kback kv) (maxBuffer kv) (buffered kv))
  | None =>
      let n := i64 (buffered kv + (glen key + glen value)) in
      let kv := MkKeyValue buf (kback kv) (maxBuffer kv) n in
      if maxBuffer kv <? n then bufFlush kv else (None, kv)
  end.

Definition bufDelete (key : gostr) (kv : KeyValue) : gerr * KeyValue :=
  let '(err1, buf) := kv_delete key (kbuf kv) in
  let '(err2, back) := kv_delete key (kback kv) in
  let kv := MkKeyValue buf back (maxBuffer kv) (buffered kv) in
  match err1 with Some e => (Some e, kv) | None => (err2, kv) end.

(** The loop of [CommitBatch] over the mutations: the batch for the buffer
    and the lazily created one for the backing store. *)
Definition commitSplit (mods : batch) : batch * option batch :=
  foldl (fun '(bmbuf, bmback) m =>
    if m_delete m then
      (batchDelete bmbuf (m_key m), Some (batchDelete (default NewBatchMutation bmback) (m_key m)))
    else (batchSet bmbuf (m_key m) (m_value m), bmback)) (NewBatchMutation, None) mods.

Definition bufCommitBatch (mods : batch) (kv : KeyValue) : gerr * KeyValue :=
  let '(bmbuf, bmback) := commitSplit mods in
  let '(e, buf) := kv_commit bmbuf (kbuf kv) in
  let kv := MkKeyValue buf (kback kv) (maxBuffer kv) (buffered kv) in
  match e with
  | Some e => (Some e, kv)
  | None =>
      match bmback with
      | None => (None, kv)
      | Some bmback =>
          let '(e, back) := kv_commit bmback (kback kv) in
          (e, MkKeyValue buf back (maxBuffer kv) (buffered kv))
      end
  end.

Definition bufClose (kv : KeyValue) : gerr * KeyValue :=
  match bufFlush kv with
  | (Some e, kv) => (Some e, kv)
  | (None, kv) =>
      let '(e, back) := kv_close (kback kv) in
      (e, MkKeyValue (kbuf kv) back (maxBuffer kv) (buffered kv))
  end.

(** [Find] and the drained merging iterator with the error its [Close]
    returns. *)
Definition bufFind (start end_ : gostr) (kv : KeyValue) : list (gostr * gostr) * gerr :=
  let '(l1, err1) := kv_find start end_ (kbuf kv) in
  let '(l2, err2) := kv_find start end_ (kback kv) in
  (iterDrain (S (length l1 + length l2)) (Iter (newSubIter l1) (newSubIter l2)),
   match err1 with Some e => Some e | None => err2 end).

#[export] Instance buffer_KV : KV KeyValue := {
  kv_get := bufGet; kv_set := bufSet; kv_delete := bufDelete;
  kv_commit := bufCommitBatch; kv_find := bufFind; kv_close := bufClose }.
End buffer.
Arguments KeyValue : clear implicits.

(** * The merging iterator yields the union *)

(** Reference merge of two sorted lists; the first wins on equal keys. *)
Fixpoint mergeOut (b : list (gostr * gostr)) : list (gostr * gostr) -> list (gostr * gostr) :=
  fix go k :=
    match b, k with
    | [], _ => k
    | _, [] => b
    | p :: b', q :: k' =>
        match str_compare p.1 q.1 with
        | Lt => p :: mergeOut b' k
        | Gt => q :: go k'
        | Eq => p :: mergeOut b' k'
        end
    end.

(** A [subIter] standing on the first pair of [l], or at EOF when [l] is
    empty. *)
Definition SubAt (s : subIter) (l : list (gostr * gostr)) : Prop :=
  match l with
  | [] => si_eof s = true /\ bi_rest (si_it s) = []
  | p :: l' => si_eof s = false /\ si_key s = p.1 /\ si_it s = BaseIter l' (Some p)
  end.

Definition isNil {A} (l : list A) : bool := match l with [] => true | _ => false end.

Definition keysNonempty (l : list (gostr * gostr)) : Prop := Forall (fun p => p.1 ≠ []) l.

Lemma subNext_at s p l :
  SubAt s (p :: l) -> exists s', subNext s = (negb (isNil l), s') /\ SubAt s' l.
Proof.
  destruct s as [it key eof]. intros (He & _ & Hi); simpl in *; subst.
  destruct l as [|q l]; eexists; split; [reflexivity|done|reflexivity|done].
Qed.

Lemma subNext_eof s : SubAt s [] -> exists s', subNext s = (false, s') /\ SubAt s' [].
Proof.
  destruct s as [[rest cur] key eof]. intros [He Hr]; simpl in *; subst.
  eexists. split; [reflexivity|done].
Qed.

Lemma subNext_new l : exists s', subNext (newSubIter l) = (negb (isNil l), s') /\ SubAt s' l.
Proof. destruct l as [|p l]; eexists; (split; [reflexivity|done]). Qed.

(** One call of [Next] on a positioned iterator. *)
Definition advance (b k : list (gostr * gostr)) : list (gostr * gostr) * list (gostr * gostr) :=
  match b, k with
  | [], _ => ([], tail k)
  | _, [] => (tail b, [])
  | p :: b', q :: k' =>
      match str_compare p.1 q.1 with Lt => (b', k) | Gt => (b, k') | Eq => (b', k') end
  end.

Lemma mergeOut_nil_l k : mergeOut [] k = k.
Proof. by destruct k. Qed.

Lemma mergeOut_nil_r b : mergeOut b [] = b.
Proof. by destruct b. Qed.

Lemma mergeOut_advance b k : tail (mergeOut b k) = mergeOut (advance b k).1 (advance b k).2.
Proof.
  destruct b as [|p b]; [simpl; by rewrite !mergeOut_nil_l|].
  destruct k as [|q k]; [by rewrite mergeOut_nil_r; simpl; rewrite mergeOut_nil_r|].
  simpl. by destruct (str_compare p.1 q.1).
Qed.

(** A positioned [subIter] is not asked for its first key again. *)
Lemma SubAt_started s p l :
  SubAt s (p :: l) -> p.1 ≠ [] -> bool_decide (si_key s = []) = false.
Proof. intros (_ & -> & _) Hp. by apply bool_decide_eq_false. Qed.

Lemma iterNext_at it b k :
  SubAt (it_buf it) b -> SubAt (it_back it) k -> keysNonempty b -> keysNonempty k ->
  exists it', iterNext it = (negb (isNil (advance b k).1 && isNil (advance b k).2), it') /\
    SubAt (it_buf it') (advance b k).1 /\ SubAt (it_back it') (advance b k).2.
Proof.
  destruct it as [sb sk]; simpl. intros Hb Hk Nb Nk. unfold iterNext; simpl.
  destruct b as [|p b].
  { pose proof Hb as [-> _]. simpl. rewrite andb_false_r. simpl.
    pose proof Hb as [-> _]. rewrite andb_false_r. destruct k as [|q k].
    - pose proof Hk as [-> _]. by eexists.
    - pose proof Hk as (-> & _). simpl.
      destruct (subNext_at sk q k Hk) as (sk' & -> & Hk'). by eexists. }
  apply Forall_inv in Nb. rewrite (SubAt_started sb p b Hb Nb). simpl.
  pose proof Hb as (Heb & Hkb & _). rewrite Heb. simpl.
  destruct (subNext_at sb p b Hb) as (sb' & Esb & Hb').
  destruct k as [|q k].
  { assert (exists sk', (if bool_decide (si_key sk = []) && true then
        let '(r, back) := subNext sk in (r || false, back) else (false, sk)) = (false, sk') /\
        SubAt sk' []) as (sk' & -> & Hk').
    { destruct (bool_decide (si_key sk = [])); simpl; [|by eexists].
      destruct (subNext_eof sk Hk) as (sk' & -> & Hk'). by eexists. }
    pose proof Hk' as [-> _]. rewrite Esb, andb_true_r. by eexists. }
  apply Forall_inv in Nk. rewrite (SubAt_started sk q k Hk Nk). simpl.
  pose proof Hk as (-> & Hkk & _). destruct (subNext_at sk q k Hk) as (sk' & Esk & Hk').
  rewrite Hkb, Hkk, Esb, Esk.
  destruct (str_compare p.1 q.1), b, k; simpl; eexists; (split; [reflexivity|done]).
Qed.

Lemma iterNext_new l1 l2 :
  keysNonempty l1 ->
  exists it', iterNext (Iter (newSubIter l1) (newSubIter l2)) = (negb (isNil l1 && isNil l2), it') /\
    SubAt (it_buf it') l1 /\ SubAt (it_back it') l2.
Proof.
  intros N1. unfold iterNext; simpl.
  destruct (subNext_new l1) as (s1 & -> & H1), (subNext_new l2) as (s2 & E2 & H2).
  destruct l1 as [|p l1].
  - pose proof H1 as [-> _]. simpl. rewrite E2. by eexists.
  - pose proof H1 as (-> & _). simpl. rewrite E2. simpl. rewrite orb_true_r. by eexists.
Qed.

Lemma iter_current it b k :
  SubAt (it_buf it) b -> SubAt (it_back it) k -> isNil b && isNil k = false ->
  head (mergeOut b k) = Some (iterKey it, iterValue it).
Proof.
  destruct it as [sb sk]; simpl. intros Hb Hk Hn. unfold iterKey, iterValue, iterCurrent; simpl.
  destruct b as [|[x v] b], k as [|[y w] k]; simpl in Hn; try done.
  - destruct Hb as [-> _], Hk as (-> & -> & ->). done.
  - destruct Hk as [-> _], Hb as (_ & -> & ->). done.
  - destruct Hk as (-> & E1 & E2), Hb as (-> & E3 & E4). simpl in *.
    unfold str_leb. rewrite E1, E3. destruct (str_compare x y); by rewrite ?E1, ?E2, ?E3, ?E4.
Qed.

Lemma advance_nonempty b k :
  keysNonempty b -> keysNonempty k ->
  keysNonempty (advance b k).1 /\ keysNonempty (advance b k).2.
Proof.
  intros Hb Hk. destruct b as [|p b], k as [|q k]; simpl; try done.
  - split; [constructor|]. by apply Forall_inv_tail in Hk.
  - split; [|constructor]. by apply Forall_inv_tail in Hb.
  - destruct (str_compare p.1 q.1); split; try done; by eapply Forall_inv_tail.
Qed.

Lemma advance_length b k :
  isNil b && isNil k = false ->
  (length (advance b k).1 + length (advance b k).2 < length b + length k)%nat.
Proof.
  destruct b as [|p b], k as [|q k]; simpl; try done; try lia.
  intros _. destruct (str_compare p.1 q.1); simpl; lia.
Qed.

Lemma iterDrain_at fuel it b k :
  SubAt (it_buf it) b -> SubAt (it_back it) k -> keysNonempty b -> keysNonempty k ->
  (length b + length k <= fuel)%nat -> iterDrain fuel it = tail (mergeOut b k).
Proof.
  revert it b k. induction fuel as [|fuel IH]; intros it b k Hb Hk Nb Nk Hf.
  { destruct b, k; simpl in *; done || lia. }
  cbn [iterDrain]. destruct (iterNext_at it b k Hb Hk Nb Nk) as (it' & -> & Hb' & Hk').
  rewrite mergeOut_advance. destruct (advance_nonempty b k Nb Nk) as [Nb' Nk'].
  destruct (isNil (advance b k).1 && isNil (advance b k).2) eqn:En; simpl.
  - destruct (advance b k) as [[|??] [|??]]; simpl in *; done.
  - pose proof (iter_current it' _ _ Hb' Hk' En) as Hcur.
    assert (isNil b && isNil k = false) as Hn by (by destruct b, k).
    pose proof (advance_length b k Hn). rewrite (IH it' _ _ Hb' Hk' Nb' Nk') by lia.
    destruct (mergeOut (advance b k).1 (advance b k).2); simpl in *; congruence.
Qed.

(** Draining a fresh iterator is the reference merge. *)
Lemma iterDrain_merge l1 l2 :
  keysNonempty l1 -> keysNonempty l2 ->
  iterDrain (S (length l1 + length l2)) (Iter (newSubIter l1) (newSubIter l2)) = mergeOut l1 l2.
Proof.
  intros N1 N2. cbn [iterDrain]. destruct (iterNext_new l1 l2 N1) as (it & -> & H1 & H2).
  destruct (isNil l1 && isNil l2) eqn:En; simpl.
  - by destruct l1, l2.
  - pose proof (iter_current it _ _ H1 H2 En) as Hcur.
    rewrite (iterDrain_at _ _ _ _ H1 H2 N1 N2) by lia.
    destruct (mergeOut l1 l2); simpl in *; congruence.
Qed.

Lemma mergeOut_cons p b q k :
  mergeOut (p :: b) (q :: k) =
  match str_compare p.1 q.1 with
  | Lt => p :: mergeOut b (q :: k) | Gt => q :: mergeOut (p :: b) k | Eq => p :: mergeOut b k
  end.
Proof. done. Qed.

(** Induction along the merge. *)
Lemma merge_ind (P : list (gostr * gostr) -> list (gostr * gostr) -> Prop) :
  (forall k, P [] k) -> (forall b, P b []) ->
  (forall p b q k, str_compare p.1 q.1 = Lt -> P b (q :: k) -> P (p :: b) (q :: k)) ->
  (forall p b q k, str_compare p.1 q.1 = Gt -> P (p :: b) k -> P (p :: b) (q :: k)) ->
  (forall p b q k, str_compare p.1 q.1 = Eq -> P b k -> P (p :: b) (q :: k)) ->
  forall b k, P b k.
Proof.
  intros H1 H2 HL HG HE b. induction b as [|p b IHb]; intros k; [done|].
  induction k as [|q k IHk]; [done|]. destruct (str_compare p.1 q.1) eqn:E; auto.
Qed.

Lemma elem_of_mergeOut_sub x b k : x ∈ mergeOut b k -> x ∈ b \/ x ∈ k.
Proof.
  revert b k. apply (merge_ind (fun b k => x ∈ mergeOut b k -> x ∈ b \/ x ∈ k)).
  - intros k. rewrite mergeOut_nil_l. auto.
  - intros b. rewrite mergeOut_nil_r. auto.
  - intros p b q k E IH. rewrite mergeOut_cons, E, !elem_of_cons. rewrite elem_of_cons in IH. tauto.
  - intros p b q k E IH. rewrite mergeOut_cons, E, !elem_of_cons. rewrite elem_of_cons in IH. tauto.
  - intros p b q k E IH. rewrite mergeOut_cons, E, !elem_of_cons. tauto.
Qed.

Lemma key_lt_all (p : gostr) (q : gostr * gostr) k :
  str_lt p q.1 -> StronglySorted key_lt (q :: k) -> Forall (fun r => str_lt p r.1) (q :: k).
Proof.
  intros Hp [Hf _]%StronglySorted_cons. constructor; [done|].
  eapply Forall_impl; [exact Hf|]. intros r Hr. by transitivity q.1.
Qed.

Lemma key_lt_notin p k : Forall (fun r : gostr * gostr => str_lt p r.1) k -> p ∉ k.*1.
Proof.
  intros Hf (r & -> & Hr)%list_elem_of_fmap. rewrite Forall_forall in Hf.
  by apply (str_lt_irrefl r.1), Hf.
Qed.

Lemma mergeOut_sorted b k :
  StronglySorted key_lt b -> StronglySorted key_lt k -> StronglySorted key_lt (mergeOut b k).
Proof.
  revert b k. apply (merge_ind (fun b k => StronglySorted key_lt b -> StronglySorted key_lt k ->
    StronglySorted key_lt (mergeOut b k))).
  - intros k _. by rewrite mergeOut_nil_l.
  - intros b ? _. by rewrite mergeOut_nil_r.
  - intros p b q k E IH Hb Hk. rewrite mergeOut_cons, E. apply str_lt_compare in E.
    pose proof Hb as [Hfb Hb']%StronglySorted_cons. apply StronglySorted_cons. split; [|auto].
    pose proof (key_lt_all _ _ _ E Hk) as Hfk. rewrite Forall_forall in Hfb, Hfk |- *.
    intros x [Hx|Hx]%elem_of_mergeOut_sub; [by apply Hfb|by apply Hfk].
  - intros p b q k E IH Hb Hk. rewrite mergeOut_cons, E.
    rewrite str_compare_antisym in E.
    assert (str_lt q.1 p.1) as Hlt by (apply str_lt_compare; by destruct (str_compare q.1 p.1)).
    pose proof Hk as [Hfk Hk']%StronglySorted_cons. apply StronglySorted_cons. split; [|auto].
    pose proof (key_lt_all _ _ _ Hlt Hb) as Hfb. rewrite Forall_forall in Hfb, Hfk |- *.
    intros x [Hx|Hx]%elem_of_mergeOut_sub; [by apply Hfb|by apply Hfk].
  - intros p b q k E IH Hb Hk. rewrite mergeOut_cons, E. apply str_compare_eq in E.
    apply StronglySorted_cons in Hb as [Hfb Hb], Hk as [Hfk Hk].
    apply StronglySorted_cons. split; [|auto]. rewrite Forall_forall in Hfb, Hfk |- *.
    intros x [Hx|Hx]%elem_of_mergeOut_sub; [by apply Hfb|].
    unfold key_lt. rewrite E. by apply Hfk.
Qed.

Lemma elem_of_mergeOut x b k :
  StronglySorted key_lt b -> StronglySorted key_lt k ->
  x ∈ mergeOut b k <-> x ∈ b \/ (x ∈ k /\ x.1 ∉ b.*1).
Proof.
  revert b k. apply (merge_ind (fun b k => StronglySorted key_lt b -> StronglySorted key_lt k ->
    x ∈ mergeOut b k <-> x ∈ b \/ (x ∈ k /\ x.1 ∉ b.*1))).
  - intros k _ _. rewrite mergeOut_nil_l. set_solver.
  - intros b _ _. rewrite mergeOut_nil_r. set_solver.
  - intros p b q k E IH Hb Hk. rewrite mergeOut_cons, E.
    apply str_lt_compare in E. pose proof (key_lt_all _ _ _ E Hk) as Hf.
    rewrite Forall_forall in Hf. apply StronglySorted_cons in Hb as [_ Hb].
    rewrite elem_of_cons, (IH Hb Hk), fmap_cons, !not_elem_of_cons, (elem_of_cons b).
    split; [|tauto]. intros [->|[Hx|[Hx Hn]]]; [auto..|]. right. split; [done|].
    split; [|done]. intros He. apply (str_lt_irrefl p.1). rewrite <- He at 2. by apply Hf.
  - intros p b q k E IH Hb Hk. rewrite mergeOut_cons, E.
    rewrite str_compare_antisym in E.
    assert (str_lt q.1 p.1) as Hlt by (apply str_lt_compare; by destruct (str_compare q.1 p.1)).
    pose proof (key_lt_notin _ _ (key_lt_all _ _ _ Hlt Hb)) as Hq.
    apply StronglySorted_cons in Hk as [_ Hk].
    rewrite elem_of_cons, (IH Hb Hk), (elem_of_cons k). split; [|tauto].
    intros [->|?]; [|tauto]. auto.
  - intros p b q k E IH Hb Hk. rewrite mergeOut_cons, E. apply str_compare_eq in E.
    apply StronglySorted_cons in Hb as [_ Hb], Hk as [Hfk Hk].
    rewrite elem_of_cons, (IH Hb Hk), fmap_cons, !not_elem_of_cons, (elem_of_cons b), (elem_of_cons k).
    rewrite Forall_forall in Hfk. split.
    + intros [->|[Hx|[Hx Hn]]]; [auto..|]. right. split; [auto|]. split; [|done].
      intros He. apply (str_lt_irrefl q.1). rewrite <- E at 2. rewrite <- He. by apply Hfk.
    + intros [?|[[->|Hx] [Hn ?]]]; [tauto|congruence|tauto].
Qed.

(** On ranges of two maps the merge is the range of their union. *)
Lemma mergeOut_range (a e : gostr) (m1 m2 : gmap gostr gostr) :
  mergeOut (rangeOf a e m1) (rangeOf a e m2) = rangeOf a e (m1 ∪ m2).
Proof.
  assert (forall m, StronglySorted key_lt (rangeOf a e m)) as Hs
    by (intros m; apply ssorted_filter, sortedPairs_sorted).
  apply (ssorted_ext key_lt); [by apply mergeOut_sorted|done|]. intros [k v].
  rewrite elem_of_mergeOut by done. unfold rangeOf.
  rewrite !list_elem_of_filter, !elem_of_sortedPairs, lookup_union_Some_raw; simpl.
  assert (k ∈ (filter (inRange a e) (sortedPairs m1)).*1 <->
    exists w, inRange a e (k, w) /\ m1 !! k = Some w) as Hk.
  { rewrite list_elem_of_fmap. split.
    - intros ([k' w] & -> & Hf). rewrite list_elem_of_filter, elem_of_sortedPairs in Hf. eauto.
    - intros (w & Hr & Hw). exists (k, w). by rewrite list_elem_of_filter, elem_of_sortedPairs. }
  rewrite Hk. assert (forall w, inRange a e (k, w) <-> inRange a e (k, v)) as Hr by done.
  setoid_rewrite Hr. destruct (m1 !! k) as [w|] eqn:E; naive_solver.
Qed.

(** * The buffered store implements the union of its two stores *)

Lemma rangeOf_all m : rangeOf [] [] m = sortedPairs m.
Proof.
  unfold rangeOf. apply filter_all. apply Forall_forall. intros p _.
  split; [apply str_nil_le|by left].
Qed.

Lemma applyMutations_app m b1 b2 :
  applyMutations m (b1 ++ b2) = applyMutations (applyMutations m b1) b2.
Proof. apply foldl_app. Qed.

Lemma flushBack_map l : flushBack l = map (fun p => Mutation p.1 p.2 false) l.
Proof.
  unfold flushBack. induction l as [|p l IH] using rev_ind; [done|].
  rewrite foldl_app, IH, map_app. done.
Qed.

Lemma flushBuf_map l : flushBuf l = map (fun p => Mutation p.1 [] true) l.
Proof.
  unfold flushBuf. induction l as [|p l IH] using rev_ind; [done|].
  rewrite foldl_app, IH, map_app. done.
Qed.

Lemma apply_sets m (l : list (gostr * gostr)) :
  NoDup l.*1 ->
  applyMutations m (map (fun p => Mutation p.1 p.2 false) l) = list_to_map l ∪ m.
Proof.
  revert m. induction l as [|[k v] l IH]; intros m Hn; simpl; [by rewrite (left_id_L ∅ _)|].
  apply NoDup_cons in Hn as [Hk Hn]. rewrite IH by done. unfold applyMutation; simpl.
  rewrite <- insert_union_r, insert_union_l; [done|]. by apply not_elem_of_list_to_map.
Qed.

Lemma apply_deletes m (l : list (gostr * gostr)) k :
  applyMutations m (map (fun p => Mutation p.1 [] true) l) !! k =
  if decide (k ∈ l.*1) then None else m !! k.
Proof.
  revert m. induction l as [|[k' v] l IH]; intros m; simpl; [done|].
  rewrite IH. unfold applyMutation; simpl. rewrite lookup_delete.
  repeat case_decide; subst; set_solver.
Qed.

Lemma sortedPairs_NoDup m : NoDup (sortedPairs (V := gostr) m).*1.
Proof. unfold sortedPairs. rewrite merge_sort_Permutation. apply NoDup_fst_map_to_list. Qed.

Lemma list_to_map_sortedPairs m : list_to_map (sortedPairs (V := gostr) m) = m.
Proof.
  rewrite <- (list_to_map_to_list m) at 2. apply list_to_map_proper; [apply sortedPairs_NoDup|].
  unfold sortedPairs. apply merge_sort_Permutation.
Qed.

Lemma sortedPairs_keys m k : k ∈ (sortedPairs (V := gostr) m).*1 <-> is_Some (m !! k).
Proof.
  rewrite list_elem_of_fmap. split.
  - intros ([k' v] & -> & H%elem_of_sortedPairs). by eexists.
  - intros [v Hv]. exists (k, v). by rewrite elem_of_sortedPairs.
Qed.

(** The deletions of a batch alone, in order. *)
Definition deletesOf (mods : batch) : batch :=
  map (fun m => Mutation (m_key m) [] true) (filter (fun m => m_delete m = true) mods).

(** The mutations as [commitSplit] rebuilds them. *)
Definition rebuilt (mods : batch) : batch :=
  map (fun m => if m_delete m then Mutation (m_key m) [] true
                else Mutation (m_key m) (m_value m) false) mods.

Lemma deletesOf_snoc mods m :
  deletesOf (mods ++ [m]) =
  deletesOf mods ++ (if m_delete m then [Mutation (m_key m) [] true] else []).
Proof.
  unfold deletesOf. rewrite filter_app, map_app. f_equal.
  rewrite filter_cons. by destruct (m_delete m).
Qed.

Lemma rebuilt_snoc mods m :
  rebuilt (mods ++ [m]) =
  rebuilt mods ++ [if m_delete m then Mutation (m_key m) [] true
                   else Mutation (m_key m) (m_value m) false].
Proof. unfold rebuilt. by rewrite map_app. Qed.

Lemma commitSplit_spec mods :
  commitSplit mods = (rebuilt mods, if decide (deletesOf mods = []) then None else Some (deletesOf mods)).
Proof.
  induction mods as [|m mods IH] using rev_ind; [done|].
  unfold commitSplit in *. rewrite foldl_app, IH, deletesOf_snoc, rebuilt_snoc. cbn [foldl].
  destruct (m_delete m); [|by rewrite app_nil_r].
  unfold batchDelete. f_equal. rewrite (decide_False (P := _ ++ _ = [])).
  - by destruct (decide (deletesOf mods = [])) as [->|].
  - by intros [? ?]%app_eq_nil.
Qed.

Lemma apply_rebuilt m mods : applyMutations m (rebuilt mods) = applyMutations m mods.
Proof.
  unfold applyMutations, rebuilt. revert m. induction mods as [|mu mods IH]; intros m; [done|].
  simpl. rewrite IH. f_equal. unfold applyMutation. by destruct (m_delete mu) eqn:E; simpl.
Qed.

(** Mutating the front map and deleting behind it is mutating their union. *)
Lemma apply_union m1 m2 mods :
  applyMutations m1 mods ∪ applyMutations m2 (deletesOf mods) = applyMutations (m1 ∪ m2) mods.
Proof.
  induction mods as [|mu mods IH] using rev_ind; [done|].
  rewrite deletesOf_snoc, !applyMutations_app, <- IH.
  generalize (applyMutations m1 mods) (applyMutations m2 (deletesOf mods)). intros x y.
  unfold applyMutations, applyMutation. destruct (m_delete mu) eqn:E; simpl; rewrite E.
  - by rewrite delete_union.
  - by rewrite insert_union_l.
Qed.

Section buffer_proofs.
Context {B K : Type} `{KVLaws B} `{KVLaws K}.
Implicit Types kv : KeyValue B K.

(** The abstract contents: the buffer's bindings hide the backing store's. *)
Definition bufView kv : gmap gostr gostr := kv_view (kbuf kv) ∪ kv_view (kback kv).

(** Flushing reports success only when everything reached the backing
    store. *)
Lemma bufFlush_ok kv kv' :
  bufFlush kv = (None, kv') ->
  bufView kv' = bufView kv /\ kv_view (kbuf kv') = ∅ /\ kv_view (kback kv') = bufView kv.
Proof.
  unfold bufFlush. destruct (kv_find [] [] (kbuf kv)) as [l e] eqn:Ef.
  destruct e as [e|]; [done|]. apply kv_find_ok in Ef. rewrite rangeOf_all in Ef.
  destruct l as [|p l].
  { intros [= <-]. assert (kv_view (kbuf kv) = ∅) as Hv.
    { by rewrite <- (list_to_map_sortedPairs (kv_view (kbuf kv))), <- Ef. }
    unfold bufView. by rewrite Hv, (left_id_L ∅ _). }
  destruct (kv_commit (flushBack _) (kback kv)) as [e1 k1] eqn:E1. destruct e1; [done|].
  apply kv_commit_ok in E1. cbn [kbuf kback maxBuffer buffered].
  destruct (kv_commit (flushBuf _) (kbuf kv)) as [e2 b1] eqn:E2. destruct e2; [done|].
  apply kv_commit_ok in E2. intros [= <-]. unfold bufView; cbn [kbuf kback].
  rewrite flushBack_map, Ef, apply_sets, list_to_map_sortedPairs in E1 by apply sortedPairs_NoDup.
  assert (kv_view b1 = ∅) as Hb.
  { apply map_eq. intros k. rewrite E2, flushBuf_map, Ef, apply_deletes, lookup_empty.
    destruct (decide _) as [|Hn]; [done|]. rewrite sortedPairs_keys in Hn.
    by apply eq_None_not_Some. }
  by rewrite E1, Hb, (left_id_L ∅ _).
Qed.

(** After a successful [Flush] (or [Close]) the buffer is empty, the
    backing store holds every binding, and the contents seen through the
    store are unchanged. *)
Theorem bufFlush_spec kv kv' :
  bufFlush kv = (None, kv') \/ bufClose kv = (None, kv') ->
  bufView kv' = bufView kv /\ kv_view (kbuf kv') = ∅ /\ kv_view (kback kv') = bufView kv.
Proof.
  intros [Hf|Hc]; [by apply bufFlush_ok|]. unfold bufClose in Hc.
  destruct (bufFlush kv) as [[e|] kv1] eqn:Ef; [done|].
  apply bufFlush_ok in Ef as (H1' & H2' & H3').
  destruct (kv_close (kback kv1)) as [e k] eqn:Ek. injection Hc as -> <-.
  apply kv_close_ok in Ek. unfold bufView in *; cbn [kbuf kback]. by rewrite Ek.
Qed.

(** C32. The buffered store refines a single sorted map, the union of its two
    stores: every operation that reports success acts on the union as the
    interface promises, automatic flushes included; and when no key of either
    store is the empty string, [Find] lists the union's range in key order
    (with an empty key it can lose the pair after it:
    [iter_skips_after_empty_key]). *)
Theorem buffer_refines kv :
  (forall k v, bufGet k kv = Ok v -> bufView kv !! k = Some v) /\
  (forall k, bufGet k kv = Err ErrNotFound -> bufView kv !! k = None) /\
  (forall k v kv', bufSet k v kv = (None, kv') -> bufView kv' = <[k := v]> (bufView kv)) /\
  (forall k kv', bufDelete k kv = (None, kv') -> bufView kv' = delete k (bufView kv)) /\
  (forall b kv', bufCommitBatch b kv = (None, kv') ->
     bufView kv' = applyMutations (bufView kv) b) /\
  (forall a e l, bufView kv !! [] = None -> bufFind a e kv = (l, None) ->
     l = rangeOf a e (bufView kv)).
Proof.
  split_and!.
  - intros k v. unfold bufGet, bufView. destruct (kv_get k (kbuf kv)) as [w|e| |] eqn:E; try done.
    + intros [= <-]. apply kv_get_Ok in E. by apply lookup_union_Some_l.
    + destruct e; try done. apply kv_get_NotFound in E. intros Hk%kv_get_Ok.
      by rewrite lookup_union_r.
  - intros k. unfold bufGet, bufView. destruct (kv_get k (kbuf kv)) as [w|e| |] eqn:E; try done.
    destruct e; try done. apply kv_get_NotFound in E. intros Hk%kv_get_NotFound.
    by apply lookup_union_None.
  - intros k v kv'. unfold bufSet. destruct (kv_set k v (kbuf kv)) as [e b] eqn:E.
    destruct e; [done|]. apply kv_set_ok in E.
    assert (kv_view b ∪ kv_view (kback kv) = <[k := v]> (bufView kv)) as Hv.
    { rewrite E. unfold bufView. by rewrite insert_union_l. }
    cbn [kbuf kback maxBuffer buffered]. destruct (_ <? _).
    + intros (-> & _ & _)%bufFlush_ok. unfold bufView; cbn [kbuf kback]. exact Hv.
    + intros [= <-]. unfold bufView; cbn [kbuf kback]. exact Hv.
  - intros k kv'. unfold bufDelete.
    destruct (kv_delete k (kbuf kv)) as [e1 b] eqn:E1, (kv_delete k (kback kv)) as [e2 k2] eqn:E2.
    destruct e1; [done|]. intros [= -> <-]. apply kv_delete_ok in E1, E2.
    unfold bufView; cbn [kbuf kback]. by rewrite E1, E2, delete_union.
  - intros b kv'. unfold bufCommitBatch. rewrite commitSplit_spec.
    destruct (kv_commit (rebuilt b) (kbuf kv)) as [e1 b1] eqn:E1. destruct e1; [done|].
    apply kv_commit_ok in E1. rewrite apply_rebuilt in E1. cbn [kbuf kback maxBuffer buffered].
    destruct (decide (deletesOf b = [])) as [Hd|Hd].
    + intros [= <-]. unfold bufView; cbn [kbuf kback]. rewrite E1.
      rewrite <- apply_union, Hd. done.
    + destruct (kv_commit (deletesOf b) (kback kv)) as [e2 k2] eqn:E2.
      intros [= -> <-]. apply kv_commit_ok in E2. unfold bufView; cbn [kbuf kback].
      rewrite E1, E2. apply apply_union.
  - intros a e l Hempty. unfold bufFind, bufView in *.
    destruct (kv_find a e (kbuf kv)) as [l1 e1] eqn:E1, (kv_find a e (kback kv)) as [l2 e2] eqn:E2.
    destruct e1; [done|]. intros [<- ->]%pair_equal_spec. apply kv_find_ok in E1, E2. subst.
    apply lookup_union_None in Hempty as [Hn1 Hn2].
    assert (forall m : gmap gostr gostr, m !! [] = None -> keysNonempty (rangeOf a e m)) as Hk.
    { intros m Hm. apply Forall_forall. intros [k v] Hin. unfold rangeOf in Hin.
      rewrite list_elem_of_filter, elem_of_sortedPairs in Hin. simpl. intros ->.
      destruct Hin. congruence. }
    rewrite iterDrain_merge by auto. apply mergeOut_range.
Qed.
End buffer_proofs.

(** With an empty key the merging iterator loses a pair: the buffer holds only
    the key "", the backing store "b" and "c", and "b" is never delivered. *)
Lemma iter_skips_after_empty_key :
  iterDrain 10 (Iter (newSubIter [([], gs "1")])
                     (newSubIter [(gs "b", gs "2"); (gs "c", gs "3")])) =
  [([], gs "1"); (gs "c", gs "3")].
Proof. reflexivity. Qed.

(** A [maxBufferBytes] of zero flushes on every non-empty [Set]. *)
Lemma zero_maxBuffer_flushes :
  let kv0 := bufNew (MemKeys (∅ : gmap gostr gostr)) (MemKeys (∅ : gmap gostr gostr)) 0 in
  let '(e, kv) := bufSet (gs "k") (gs "v") kv0 in
  e = None /\ memView (kbuf kv) = ∅ /\ memView (kback kv) !! gs "k" = Some (gs "v").
Proof. vm_compute. split_and!; reflexivity. Qed.

(** A buffer holding one binding over a backing store holding two. *)
Definition exampleBuffer : KeyValue (memKeys (gmap gostr gostr)) (memKeys (gmap gostr gostr)) :=
  MkKeyValue (MemKeys {[gs "b" := gs "new"]}) (MemKeys {[gs "a" := gs "1"; gs "b" := gs "old"]}) 100 0.

Lemma bufFlush_spec_witness :
  bufView (snd (bufFlush exampleBuffer)) = bufView exampleBuffer /\
  kv_view (kbuf (snd (bufFlush exampleBuffer))) = ∅ /\
  kv_view (kback (snd (bufFlush exampleBuffer))) = bufView exampleBuffer.
Proof. apply bufFlush_spec. left. vm_compute. reflexivity. Defined.

Lemma buffer_refines_witness :
  bufView exampleBuffer !! gs "b" = Some (gs "new") /\
  bufView (snd (bufSet (gs "c") (gs "2") exampleBuffer)) = <[gs "c" := gs "2"]> (bufView exampleBuffer) /\
  bufView (snd (bufDelete (gs "a") exampleBuffer)) = delete (gs "a") (bufView exampleBuffer) /\
  bufView (snd (bufCommitBatch [Mutation (gs "b") [] true] exampleBuffer)) =
    applyMutations (bufView exampleBuffer) [Mutation (gs "b") [] true] /\
  fst (bufFind (gs "a") [] exampleBuffer) = rangeOf (gs "a") [] (bufView exampleBuffer).
Proof.
  split_and!; [eapply (buffer_refines exampleBuffer)|eapply (buffer_refines exampleBuffer)|
    eapply (buffer_refines exampleBuffer)|eapply (buffer_refines exampleBuffer)|
    eapply (buffer_refines exampleBuffer)]; vm_compute; reflexivity.
Defined.
