(* ===== verification/Lru.v ===== *)
(** The LRU cache of pkg/lru/cache.go.

    The cache is a map from keys to list elements and a doubly linked list of
    those elements, newest first.  Elements are shared between the two, so
    they are pointers into a store here: [ll] is the order of the pointers in
    the container/list list, [lcache] the map, [elems] the entries pointed to,
    and [nextElem] the next fresh pointer.  [mu] makes every exported method
    one atomic step.  The reference is an association list, newest first. *)

From S2P Require Import Prelude.

Section lru.
Context {V : Type}.

Record entry := MkEntry { ent_key : gostr; ent_value : V }.

Record Cache := MkCache {
  maxEntries : Z;
  ll : list nat;
  lcache : gmap gostr nat;
  elems : gmap nat entry;
  nextElem : nat
}.

Definition New (max : Z) : Cache := MkCache max [] ∅ ∅ 0%nat.

(** container/list: [MoveToFront], [Remove], [Back] and [PushFront]. *)
Definition listRemove (e : nat) (l : list nat) : list nat := filter (fun x => x ≠ e) l.
Definition moveToFront (e : nat) (l : list nat) : list nat := e :: listRemove e l.

#[local] Arguments moveToFront : simpl never.

(** [removeOldest]: the zero key and no value when the list is empty. *)
Definition removeOldest (c : Cache) : Cache * (gostr * option V) :=
  match last (ll c) with
  | None => (c, ([], None))
  | Some ele =>
      match elems c !! ele with
      | None => (c, ([], None))   (* a list element always has its entry *)
      | Some ent =>
          (MkCache (maxEntries c) (listRemove ele (ll c)) (delete (ent_key ent) (lcache c))
             (delete ele (elems c)) (nextElem c),
           (ent_key ent, Some (ent_value ent)))
      end
  end.

Definition Add (c : Cache) (key : gostr) (value : V) : Cache :=
  match lcache c !! key with
  | Some ee =>
      MkCache (maxEntries c) (moveToFront ee (ll c)) (lcache c)
        (alter (fun ent => MkEntry (ent_key ent) value) ee (elems c)) (nextElem c)
  | None =>
      let ele := nextElem c in
      let c := MkCache (maxEntries c) (ele :: ll c) (<[key := ele]> (lcache c))
                 (<[ele := MkEntry key value]> (elems c)) (S ele) in
      if glen (ll c) >? maxEntries c then (removeOldest c).1 else c
  end.

Definition Get (c : Cache) (key : gostr) : Cache * option V :=
  match lcache c !! key with
  | Some ele =>
      (MkCache (maxEntries c) (moveToFront ele (ll c)) (lcache c) (elems c) (nextElem c),
       ent_value <$> elems c !! ele)
  | None => (c, None)
  end.

Definition RemoveOldest (c : Cache) : Cache * (gostr * option V) := removeOldest c.

Definition Len (c : Cache) : Z := glen (ll c).

(** * The reference: an association list, newest first *)

Abbreviation lruSpec := (list (gostr * V)).

Definition specDrop (k : gostr) (s : lruSpec) : lruSpec := filter (fun p => p.1 ≠ k) s.

Definition specAdd (max : Z) (s : lruSpec) (k : gostr) (v : V) : lruSpec :=
  if decide (k ∈ s.*1) then (k, v) :: specDrop k s
  else take (Z.to_nat max) ((k, v) :: s).

Definition specGet (s : lruSpec) (k : gostr) : lruSpec * option V :=
  match (list_to_map s : gmap gostr V) !! k with
  | Some v => ((k, v) :: specDrop k s, Some v)
  | None => (s, None)
  end.

Definition specRemoveOldest (s : lruSpec) : lruSpec * (gostr * option V) :=
  match last s with
  | Some p => (take (pred (length s)) s, (p.1, Some p.2))
  | None => (s, ([], None))
  end.

(** A client's sequence of calls and what each returns. *)
Inductive lruOp := OpAdd (k : gostr) (v : V) | OpGet (k : gostr) | OpRemoveOldest | OpLen.
Inductive lruOut := OutUnit | OutGet (v : option V) | OutOldest (p : gostr * option V) | OutLen (n : Z).

Definition lruStep (c : Cache) (op : lruOp) : Cache * lruOut :=
  match op with
  | OpAdd k v => (Add c k v, OutUnit)
  | OpGet k => prod_map id OutGet (Get c k)
  | OpRemoveOldest => prod_map id OutOldest (RemoveOldest c)
  | OpLen => (c, OutLen (Len c))
  end.

Definition specStep (max : Z) (s : lruSpec) (op : lruOp) : lruSpec * lruOut :=
  match op with
  | OpAdd k v => (specAdd max s k v, OutUnit)
  | OpGet k => prod_map id OutGet (specGet s k)
  | OpRemoveOldest => prod_map id OutOldest (specRemoveOldest s)
  | OpLen => (s, OutLen (glen s))
  end.

Fixpoint runOps {S} (step : S -> lruOp -> S * lruOut) (s : S) (ops : list lruOp) : S * list lruOut :=
  match ops with
  | [] => (s, [])
  | op :: ops =>
      let '(s, o) := step s op in
      let '(s, os) := runOps step s ops in (s, o :: os)
  end.

(** * The invariant and the view *)

Definition entPair (ent : entry) : gostr * V := (ent_key ent, ent_value ent).

(** The entries of a list of elements, in order. *)
Fixpoint viewOf (el : gmap nat entry) (l : list nat) : lruSpec :=
  match l with
  | [] => []
  | e :: l => option_list (entPair <$> el !! e) ++ viewOf el l
  end.

Definition lruView (c : Cache) : lruSpec := viewOf (elems c) (ll c).

Record lruWf (c : Cache) : Prop := MkLruWf {
  wf_nodup : NoDup (ll c);
  wf_elems : forall e, e ∈ ll c <-> is_Some (elems c !! e);
  wf_cache : forall k e, lcache c !! k = Some e <-> exists v, elems c !! e = Some (MkEntry k v);
  wf_fresh : forall e, e ∈ ll c -> (e < nextElem c)%nat;
  wf_bound : (length (ll c) <= Z.to_nat (maxEntries c))%nat
}.

Lemma viewOf_ext el el' l :
  (forall e, e ∈ l -> el !! e = el' !! e) -> viewOf el l = viewOf el' l.
Proof.
  induction l as [|e l IH]; intros He; simpl; [done|].
  by rewrite He, IH by set_solver.
Qed.

Lemma viewOf_cons el e l k v :
  el !! e = Some (MkEntry k v) -> viewOf el (e :: l) = (k, v) :: viewOf el l.
Proof. simpl. by intros ->. Qed.

Lemma viewOf_app el l1 l2 : viewOf el (l1 ++ l2) = viewOf el l1 ++ viewOf el l2.
Proof. induction l1 as [|e l1 IH]; simpl; [done|]. by rewrite IH, app_assoc. Qed.

Lemma viewOf_remove el e k l :
  (forall x ent, x ∈ l -> el !! x = Some ent -> (ent_key ent = k <-> x = e)) ->
  viewOf el (listRemove e l) = specDrop k (viewOf el l).
Proof.
  unfold listRemove, specDrop.
  induction l as [|x l IH]; intros Hk; [done|]. rewrite filter_cons. simpl.
  specialize (IH ltac:(intros; apply Hk; set_solver)).
  destruct (el !! x) as [ent|] eqn:Ex; simpl.
  - rewrite filter_cons. simpl. pose proof (Hk x ent ltac:(set_solver) Ex).
    destruct (decide (x ≠ e)), (decide (ent_key ent ≠ k)); simpl; rewrite ?Ex; simpl;
      [by f_equal|tauto|tauto|done].
  - destruct (decide (x ≠ e)); simpl; rewrite ?Ex; done.
Qed.

Lemma elem_of_viewOf el l k v :
  (k, v) ∈ viewOf el l <-> exists e, e ∈ l /\ el !! e = Some (MkEntry k v).
Proof.
  induction l as [|x l IH]; simpl; [set_solver|]. rewrite elem_of_app, IH.
  destruct (el !! x) as [[k' v']|] eqn:Ex; unfold entPair; simpl; set_solver.
Qed.

(** * The invariant holds and the view is the reference *)

Lemma lruWf_view c k v :
  lruWf c -> ((k, v) ∈ lruView c <-> exists e, lcache c !! k = Some e /\ elems c !! e = Some (MkEntry k v)).
Proof.
  intros Hwf. unfold lruView. rewrite elem_of_viewOf. split.
  - intros (e & _ & He). exists e. split; [|done]. apply (wf_cache c Hwf). by exists v.
  - intros (e & _ & He). exists e. split; [|done]. apply (wf_elems c Hwf). by rewrite He.
Qed.

Lemma lruWf_hit c k e :
  lruWf c -> lcache c !! k = Some e ->
  e ∈ ll c /\ exists v, elems c !! e = Some (MkEntry k v) /\
  forall x ent, x ∈ ll c -> elems c !! x = Some ent -> (ent_key ent = k <-> x = e).
Proof.
  intros Hwf Hk. destruct (proj1 (wf_cache c Hwf k e) Hk) as [v He]. split.
  { apply (wf_elems c Hwf). by rewrite He. }
  exists v. split; [done|]. intros x [k' v'] _ Hx. split; simpl; [|intros ->; by simplify_eq].
  intros ->. assert (lcache c !! k = Some x) by (apply (wf_cache c Hwf); by exists v'). congruence.
Qed.

Lemma lruWf_keys c k : lruWf c -> (k ∈ (lruView c).*1 <-> is_Some (lcache c !! k)).
Proof.
  intros Hwf. rewrite list_elem_of_fmap. split.
  - intros ([k' v] & -> & Hp). apply (lruWf_view c) in Hp as (e & He & _); [by exists e|done].
  - intros [e He]. destruct (lruWf_hit c k e Hwf He) as (_ & v & Hv & _).
    exists (k, v). split; [done|]. apply lruWf_view; [done|]. by exists e.
Qed.

Lemma viewOf_length el l : (forall e, e ∈ l -> is_Some (el !! e)) -> length (viewOf el l) = length l.
Proof.
  induction l as [|e l IH]; intros He; simpl; [done|].
  destruct (He e ltac:(set_solver)) as [ent ->]. simpl. f_equal. set_solver.
Qed.

Lemma lruView_length c : lruWf c -> length (lruView c) = length (ll c).
Proof. intros Hwf. apply viewOf_length. intros e. apply (wf_elems c Hwf). Qed.

Lemma lruView_keys_NoDup c : lruWf c -> NoDup (lruView c).*1.
Proof.
  intros Hwf. unfold lruView. pose proof (wf_nodup c Hwf) as Hn.
  assert (forall e, e ∈ ll c -> e ∈ ll c) as Hin by done. revert Hn Hin.
  generalize (ll c) at 1 2 4 as l. induction l as [|e l IH]; intros Hn Hin; simpl; [constructor|].
  apply NoDup_cons in Hn as [He Hn]. specialize (IH Hn ltac:(set_solver)).
  destruct (elems c !! e) as [[k v]|] eqn:Ee; simpl; [|done]. constructor; [|done].
  rewrite list_elem_of_fmap. intros ([k' v'] & -> & (e' & He' & Hv)%elem_of_viewOf). simpl in Ee.
  assert (lcache c !! k' = Some e) by (apply (wf_cache c Hwf); by exists v).
  assert (lcache c !! k' = Some e') by (apply (wf_cache c Hwf); by exists v'). congruence.
Qed.

Lemma lruView_lookup c k :
  lruWf c ->
  (list_to_map (lruView c) : gmap gostr V) !! k =
    lcache c !! k ≫= fun e => ent_value <$> elems c !! e.
Proof.
  intros Hwf. destruct (lcache c !! k) as [e|] eqn:Ek; simpl.
  - destruct (lruWf_hit c k e Hwf Ek) as (_ & v & Hv & _). rewrite Hv. simpl.
    apply elem_of_list_to_map_1; [by apply lruView_keys_NoDup|]. apply lruWf_view; [done|]. by exists e.
  - apply not_elem_of_list_to_map_1. rewrite lruWf_keys by done. rewrite Ek. by intros [].
Qed.

Lemma listRemove_notin e l : e ∉ l -> listRemove e l = l.
Proof. intros He. apply filter_all. apply Forall_forall. intros x Hx ->. done. Qed.

Lemma elem_of_moveToFront e l x : e ∈ l -> (x ∈ moveToFront e l <-> x ∈ l).
Proof.
  intros He. unfold moveToFront, listRemove. rewrite elem_of_cons, list_elem_of_filter.
  destruct (decide (x = e)); set_solver.
Qed.

Lemma moveToFront_Permutation e l : NoDup l -> e ∈ l -> moveToFront e l ≡ₚ l.
Proof.
  intros Hn He. apply NoDup_Permutation; [|done|intros x; by apply elem_of_moveToFront].
  unfold moveToFront, listRemove. constructor; [|by apply NoDup_filter].
  rewrite list_elem_of_filter. tauto.
Qed.

(** Both hits do this: move the element to the front, leaving [v] in it. *)
Definition promote (c : Cache) (e : nat) (k : gostr) (v : V) : Cache :=
  MkCache (maxEntries c) (moveToFront e (ll c)) (lcache c) (<[e := MkEntry k v]> (elems c)) (nextElem c).

Lemma promote_spec c k e v :
  lruWf c -> lcache c !! k = Some e ->
  lruWf (promote c e k v) /\ lruView (promote c e k v) = (k, v) :: specDrop k (lruView c).
Proof.
  intros Hwf Hk. destruct (lruWf_hit c k e Hwf Hk) as (He & v0 & Hv & Hu).
  pose proof (moveToFront_Permutation e (ll c) (wf_nodup c Hwf) He) as Hp. split.
  - constructor; simpl.
    + rewrite Hp. apply Hwf.
    + intros x. rewrite (elem_of_moveToFront e _ x He), (wf_elems c Hwf). destruct (decide (x = e)) as [->|].
      * rewrite lookup_insert_eq, Hv. done.
      * by rewrite lookup_insert_ne.
    + intros k' x. rewrite (wf_cache c Hwf). destruct (decide (x = e)) as [->|].
      * rewrite lookup_insert_eq, Hv. naive_solver.
      * by rewrite lookup_insert_ne.
    + intros x. rewrite (elem_of_moveToFront e _ x He). apply Hwf.
    + change (length (moveToFront e (ll c)) <= Z.to_nat (maxEntries c))%nat. rewrite Hp. apply Hwf.
  - unfold lruView, promote, moveToFront; simpl. rewrite lookup_insert_eq. simpl. f_equal.
    rewrite <- (viewOf_remove _ e) by done. apply viewOf_ext. intros x Hx.
    apply list_elem_of_filter in Hx as [Hx _]. by rewrite lookup_insert_ne.
Qed.

Lemma removeOldest_snoc c e k v l :
  ll c = l ++ [e] -> NoDup (ll c) -> elems c !! e = Some (MkEntry k v) ->
  removeOldest c =
    (MkCache (maxEntries c) l (delete k (lcache c)) (delete e (elems c)) (nextElem c), (k, Some v)).
Proof.
  intros Hl Hn He. unfold removeOldest. rewrite Hl, last_snoc, He. simpl.
  assert (listRemove e (l ++ [e]) = l) as ->; [|done].
  rewrite Hl in Hn. apply NoDup_app in Hn as (_ & Hn & _).
  unfold listRemove. rewrite filter_app. cbn. rewrite decide_False by tauto.
  rewrite app_nil_r. apply listRemove_notin. intros Hx. apply (Hn e Hx). set_solver.
Qed.

(** Everything but the bound; [Add] exceeds it for a moment. *)
Lemma removeOldest_spec c :
  NoDup (ll c) -> (forall e, e ∈ ll c <-> is_Some (elems c !! e)) ->
  (forall k e, lcache c !! k = Some e <-> exists v, elems c !! e = Some (MkEntry k v)) ->
  (forall e, e ∈ ll c -> (e < nextElem c)%nat) ->
  (length (ll c) <= S (Z.to_nat (maxEntries c)))%nat ->
  lruWf (removeOldest c).1 /\
  maxEntries (removeOldest c).1 = maxEntries c /\
  (lruView (removeOldest c).1, (removeOldest c).2) = specRemoveOldest (lruView c).
Proof.
  intros Hn He Hc Hf Hb. destruct (last (ll c)) as [e|] eqn:El.
  - apply last_Some in El as [l Hl].
    destruct (proj1 (He e)) as [[k v] Hv]; [rewrite Hl; set_solver|].
    rewrite (removeOldest_snoc c e k v l Hl Hn Hv). simpl.
    pose proof Hn as Hn'. rewrite Hl in Hn'. apply NoDup_app in Hn' as (Hnl & Hel & _).
    assert (e ∉ l) as Hnot by (intros Hx; apply (Hel e Hx); set_solver).
    split_and!; [constructor; simpl|done|].
    + done.
    + intros x. rewrite lookup_delete_is_Some, <- He, Hl. set_solver.
    + intros k' x. rewrite lookup_delete_Some, Hc. split.
      * intros (Hk & v' & Hx). exists v'. rewrite lookup_delete_ne; [done|]. intros ->. congruence.
      * intros (v' & [Hx Hx']%lookup_delete_Some). split; [|by exists v'].
        intros ->. destruct Hx. assert (lcache c !! k' = Some e) by (apply Hc; by exists v).
        assert (lcache c !! k' = Some x) by (apply Hc; by exists v'). congruence.
    + intros x Hx. apply Hf. rewrite Hl. set_solver.
    + rewrite Hl, length_app in Hb. simpl in Hb. lia.
    + unfold lruView; simpl. rewrite Hl, viewOf_app. unfold specRemoveOldest.
      simpl. rewrite Hv. simpl. rewrite last_snoc, length_app. simpl. rewrite Nat.add_1_r. simpl.
      rewrite take_app_length. f_equal. apply viewOf_ext. intros x Hx. rewrite lookup_delete_ne; [done|].
      by intros ->.
  - apply last_None in El. unfold removeOldest, lruView. rewrite El. simpl. split_and!; [|done|by rewrite El].
    constructor; [done..|]. rewrite El. simpl. lia.
Qed.

Definition lruOk (max : Z) (c : Cache) (s : lruSpec) : Prop :=
  lruWf c /\ lruView c = s /\ maxEntries c = max.

Lemma New_ok max : lruOk max (New max) [].
Proof.
  split_and!; [|done|done]. constructor; simpl.
  - constructor.
  - intros e. rewrite lookup_empty, is_Some_alt. set_solver.
  - intros k e. rewrite !lookup_empty. naive_solver.
  - set_solver.
  - lia.
Qed.

Lemma removeOldest_ok max c s :
  lruOk max c s ->
  lruOk max (RemoveOldest c).1 (specRemoveOldest s).1 /\ (RemoveOldest c).2 = (specRemoveOldest s).2.
Proof.
  intros (Hwf & <- & <-). pose proof Hwf as [Hn He Hc Hf Hb].
  destruct (removeOldest_spec c Hn He Hc Hf ltac:(lia)) as (Hwf' & Hm & Hs).
  unfold RemoveOldest. rewrite <- Hs. by split_and!.
Qed.

Lemma Get_ok max c s k :
  lruOk max c s -> lruOk max (Get c k).1 (specGet s k).1 /\ (Get c k).2 = (specGet s k).2.
Proof.
  intros (Hwf & <- & <-). unfold specGet. rewrite lruView_lookup by done. unfold Get.
  destruct (lcache c !! k) as [e|] eqn:Ek; simpl; [|by split_and!].
  destruct (lruWf_hit c k e Hwf Ek) as (_ & v & Hv & _). rewrite Hv. simpl.
  destruct (promote_spec c k e v Hwf Ek) as [Hp1 Hp2].
  unfold promote in Hp1, Hp2. rewrite insert_id in Hp1, Hp2 by done. by split_and!.
Qed.

Lemma Add_hit_ok max c s k e v :
  lruOk max c s -> lcache c !! k = Some e -> lruOk max (Add c k v) ((k, v) :: specDrop k s).
Proof.
  intros (Hwf & <- & <-) Ek. unfold Add. rewrite Ek.
  destruct (lruWf_hit c k e Hwf Ek) as (_ & v0 & Hv & _).
  destruct (promote_spec c k e v Hwf Ek) as [Hp1 Hp2]. unfold promote in Hp1, Hp2.
  assert (alter (fun ent => MkEntry (ent_key ent) v) e (elems c) = <[e := MkEntry k v]> (elems c)) as ->.
  { apply map_eq. intros x. destruct (decide (x = e)) as [->|].
    - by rewrite lookup_alter_eq, Hv, lookup_insert_eq.
    - by rewrite lookup_alter_ne, lookup_insert_ne. }
  by split_and!.
Qed.

(** The list with the new element at the front, before the eviction. *)
Lemma push_facts c k v :
  lruWf c -> lcache c !! k = None ->
  let ele := nextElem c in
  NoDup (ele :: ll c) /\
  (forall e, e ∈ ele :: ll c <-> is_Some (<[ele := MkEntry k v]> (elems c) !! e)) /\
  (forall k' e, <[k := ele]> (lcache c) !! k' = Some e <->
     exists v', <[ele := MkEntry k v]> (elems c) !! e = Some (MkEntry k' v')) /\
  (forall e, e ∈ ele :: ll c -> (e < S ele)%nat) /\
  viewOf (<[ele := MkEntry k v]> (elems c)) (ele :: ll c) = (k, v) :: lruView c.
Proof.
  intros Hwf Hk ele. pose proof Hwf as [Hn He Hc Hf Hb].
  assert (ele ∉ ll c) as Hnew by (intros Hx; specialize (Hf _ Hx); unfold ele in Hf; lia).
  assert (elems c !! ele = None) as Hnone by (apply eq_None_not_Some; by rewrite <- He).
  split_and!.
  - by constructor.
  - intros e. rewrite lookup_insert_is_Some, <- He. rewrite elem_of_cons.
    destruct (decide (ele = e)); naive_solver.
  - intros k' e. rewrite !lookup_insert_Some. setoid_rewrite lookup_insert_Some. rewrite Hc. split.
    + intros [[-> <-]|[Hne [v' Hv]]]; [exists v; by left|].
      exists v'. right. split; [|done]. intros <-. by rewrite Hnone in Hv.
    + intros [v' [[<- [= -> ->]]|[Hne Hv]]]; [by left|right].
      split; [|by exists v']. intros <-. assert (lcache c !! k = Some e) by (apply Hc; by exists v').
      congruence.
  - intros e [->|Hx]%elem_of_cons; [lia|]. specialize (Hf _ Hx). unfold ele. lia.
  - rewrite (viewOf_cons _ ele _ k v) by apply lookup_insert_eq. f_equal.
    apply viewOf_ext. intros e Hx. rewrite lookup_insert_ne; [done|]. by intros <-.
Qed.

Lemma Add_ok max c s k v : lruOk max c s -> lruOk max (Add c k v) (specAdd max s k v).
Proof.
  intros (Hwf & Hs & Hm). unfold specAdd. destruct (lcache c !! k) as [e|] eqn:Ek.
  { rewrite decide_True; [by eapply Add_hit_ok|]. subst s. rewrite lruWf_keys by done. by exists e. }
  rewrite decide_False; [|subst s; rewrite lruWf_keys by done; rewrite Ek; by intros []].
  destruct (push_facts c k v Hwf Ek) as (Hn & He & Hc & Hf & Hv).
  pose proof (wf_bound c Hwf) as Hb. pose proof (lruView_length c Hwf) as Hl.
  unfold Add. rewrite Ek. cbn [ll maxEntries]. unfold glen. cbn [length].
  destruct (Z.gtb_spec (Z.of_nat (S (length (ll c)))) (maxEntries c)) as [Hgt|Hle].
  - destruct (removeOldest_spec (MkCache (maxEntries c) (nextElem c :: ll c) (<[k := nextElem c]> (lcache c))
      (<[nextElem c := MkEntry k v]> (elems c)) (S (nextElem c))) Hn He Hc Hf) as (Hwf' & Hm' & Hs').
    { simpl. lia. }
    split_and!; [done| |by rewrite Hm']. apply (f_equal fst) in Hs'. etrans; [exact Hs'|].
    unfold lruView at 1. cbn [elems ll]. rewrite Hv, Hs. unfold specRemoveOldest.
    destruct (last_is_Some ((k, v) :: s)) as [_ [p ->]]; [done|]. cbn [fst length pred].
    f_equal. subst s. lia.
  - split_and!; [constructor; simpl; try done; lia| |done].
    unfold lruView; cbn [elems ll]. rewrite Hv, Hs, take_ge; [done|]. simpl. subst s. lia.
Qed.

Lemma lruStep_ok max c s op :
  lruOk max c s ->
  lruOk max (lruStep c op).1 (specStep max s op).1 /\ (lruStep c op).2 = (specStep max s op).2.
Proof.
  intros Hok. destruct op as [k v|k| |]; simpl.
  - split; [by apply Add_ok|done].
  - destruct (Get_ok max c s k Hok) as [H1 H2]. split; [done|by rewrite H2].
  - destruct (removeOldest_ok max c s Hok) as [H1 H2]. split; [done|by rewrite H2].
  - destruct Hok as (Hwf & <- & Hm). split; [done|]. unfold Len, glen. by rewrite lruView_length.
Qed.

Lemma runOps_ok max ops c s :
  lruOk max c s ->
  lruOk max (runOps lruStep c ops).1 (runOps (specStep max) s ops).1 /\
  (runOps lruStep c ops).2 = (runOps (specStep max) s ops).2.
Proof.
  revert c s. induction ops as [|op ops IH]; intros c s Hok; simpl; [done|].
  destruct (lruStep_ok max c s op Hok) as [Hs Ho].
  destruct (lruStep c op) as [c1 o1], (specStep max s op) as [s1 o1']; simpl in *.
  destruct (IH c1 s1 Hs) as [Hs2 Ho2].
  destruct (runOps lruStep c1 ops), (runOps (specStep max) s1 ops); simpl in *.
  split; [done|congruence].
Qed.

(** Any sequence of [Add], [Get], [RemoveOldest] and [Len] calls on a new
    cache returns what the reference list ordered by last use returns, and
    leaves the reference's entries in that order: a hit moves the entry to the
    front, a miss on a full cache evicts exactly the last one.  The cache
    never holds more than [maxEntries] entries, nor a key twice. *)
Theorem lru_refines (max : Z) (ops : list lruOp) :
  let '(c, outs) := runOps lruStep (New max) ops in
  let '(s, outs') := runOps (specStep max) [] ops in
  lruView c = s /\ outs = outs' /\ 0 <= Len c <= Z.max 0 max /\ NoDup s.*1.
Proof.
  destruct (runOps_ok max ops (New max) [] (New_ok max)) as [(Hwf & Hv & Hm) Ho].
  destruct (runOps lruStep (New max) ops) as [c outs], (runOps (specStep max) [] ops) as [s outs'].
  simpl in *. split_and!; [done|done| | |].
  - unfold Len, glen. lia.
  - unfold Len, glen. pose proof (wf_bound c Hwf). lia.
  - rewrite <- Hv. by apply lruView_keys_NoDup.
Qed.
End lru.

#[global] Arguments Cache : clear implicits.
#[global] Arguments entry : clear implicits.

(** A cache of two entries: [Get] refreshes [a], so [b] is evicted. *)
Example lru_evicts_least_recent :
  (runOps lruStep (New 2)
     [OpAdd (gs "a") 1; OpAdd (gs "b") 2; OpGet (gs "a"); OpAdd (gs "c") 3;
      OpGet (gs "b"); OpGet (gs "a"); OpLen; OpRemoveOldest; OpLen]).2 =
  [OutUnit; OutUnit; OutGet (Some 1); OutUnit; OutGet None; OutGet (Some 1); OutLen 2;
   OutOldest (gs "c", Some 3); OutLen 1].
Proof. vm_compute. reflexivity. Qed.
