(* ===== verification/Gc.v ===== *)
(** The generic garbage collector of pkg/gc/gc.go.

    [Collect] stops the world, marks everything reachable from the roots,
    deletes the unmarked items and restarts the world.  An enumerator is the
    finite sequence of items it sends and the error it returns after them;
    the goroutine that receives them is the loop here.  The two goroutines of
    a [syncutil.Group] only interact through a channel of capacity
    [buffered]: when the receiver gives up, the sender finishes if the items
    left fit in the channel or its context is cancelled, and otherwise blocks
    for ever, and the group's [Err] with it ([Blocked]). *)

From S2P Require Import Prelude.

Definition buffered : Z := 32.

(** The [Marker] interface: what marking an item and asking about it promise.
    [mk_view] is the set of marked items. *)
Class Marker (Item M : Type) := {
  mk_mark : M -> Item -> M * gerr;
  mk_isMarked : M -> Item -> bool * gerr
}.

Class MarkerLaws (Item M : Type) `{Countable Item} `{!Marker Item M} := {
  mk_view : M -> gset Item;
  mk_mark_ok m it m' : mk_mark m it = (m', None) -> mk_view m' = {[it]} ∪ mk_view m;
  mk_isMarked_ok m it b : mk_isMarked m it = (b, None) -> b = bool_decide (it ∈ mk_view m)
}.

(** [World] and [Deleter] act on states of their own. *)
Record World (W : Type) := MkWorld { Stop : W -> W * gerr; Start : W -> W * gerr }.
Arguments MkWorld {W}. Arguments Stop {W}. Arguments Start {W}.

Section gc.
Context {Item M W D : Type} `{!Marker Item M}.

(** An [Enumerator]: the items sent before the channel is closed, and the
    error returned.  The sweeper's items come from the deleter's store. *)
Abbreviation enumeration := (list Item * gerr)%type.

(** [None] is a nil interface value. *)
Record Collector := MkCollector {
  cWorld : option (World W);
  cMarker : option M;
  cRoots : option enumeration;
  cSweeper : option (D -> enumeration);
  cItemEnumerator : option (Item -> enumeration);
  cDeleter : option (D -> Item -> D * gerr)
}.

(** Which of two errors a group saw first is up to the scheduler. *)
Context (firstErr : error -> gerr -> error).

(** The marker's state and whether [markCtx] is cancelled. *)
Record markState := MkMarkState { marks : M; canceled : bool }.

Definition setMarks (s : markState) (m : M) : markState := MkMarkState m (canceled s).
Definition Cancel (s : markState) : markState := MkMarkState (marks s) true.

(** [for it := range ch { if err := c.markItem(ctx, it, false) ... }]: the
    state, how the loop ended and the items not received. *)
Fixpoint markLoop (f : markState -> Item -> markState * res unit) (s : markState) (its : list Item)
    : markState * res unit * list Item :=
  match its with
  | [] => (s, Ok tt, [])
  | it :: its =>
      match f s it with
      | (s, Ok _) => markLoop f s its
      | (s, r) => (s, r, its)
      end
  end.

(** [markItem]'s enumeration group: the receiver ran [loop]; [perr] is the
    sender's error.  The context is cancelled only after both ended. *)
Definition markGroup (loop : markState * res unit * list Item) (perr : gerr) : markState * res unit :=
  match loop with
  | (s, Ok _, _) =>
      match perr with
      | None => (s, Ok tt)
      | Some e => (Cancel s, Err e)
      end
  | (s, Err e, rest) =>
      if negb (canceled s) && (buffered <? glen rest) then (s, Blocked)
      else (Cancel s, Err (firstErr e perr))
  | (s, r, _) => (s, r)
  end.

(** [fuel] bounds the depth of the recursion. *)
Fixpoint markItem (edges : Item -> enumeration) (fuel : nat) (s : markState) (it : Item) (isRoot : bool)
    : markState * res unit :=
  match fuel with
  | O => (s, Panic "out of fuel")
  | S fuel =>
      let mark :=
        match mk_mark (marks s) it with
        | (m, Some err) => (setMarks s m, Err err)
        | (m, None) =>
            markGroup (markLoop (fun s it => markItem edges fuel s it false) (setMarks s m) (edges it).1)
              (edges it).2
        end in
      if isRoot then mark
      else
        match mk_isMarked (marks s) it with
        | (_, Some err) => (s, Err err)
        | (true, None) => (s, Ok tt)
        | (false, None) => mark
        end
  end.

(** The marking group of [Collect]: its receiver cancels [markCtx] when it
    ends, so the roots' enumerator never blocks. *)
Definition markRoots (edges : Item -> enumeration) (fuel : nat) (m : M) (roots : enumeration)
    : M * res unit :=
  match markLoop (fun s it => markItem edges fuel s it true) (MkMarkState m false) roots.1 with
  | (s, Ok _, _) =>
      match roots.2 with
      | None => (marks s, Ok tt)
      | Some _ => (marks s, Err (ErrMsg "Mark failure: %v"))
      end
  | (s, Err _, _) => (marks s, Err (ErrMsg "Mark failure: %v"))
  | (s, r, _) => (marks s, r)
  end.

(** The sweeping loop: the deleter's state, the items passed to [Delete] so
    far, how it ended and the items not received. *)
Fixpoint sweepLoop (del : D -> Item -> D * gerr) (m : M) (d : D) (deleted : list Item) (its : list Item)
    : D * list Item * res unit * list Item :=
  match its with
  | [] => (d, deleted, Ok tt, [])
  | it :: its =>
      match mk_isMarked m it with
      | (_, Some err) => (d, deleted, Err err, its)
      | (true, None) => sweepLoop del m d deleted its
      | (false, None) =>
          match del d it with
          | (d, Some err) => (d, deleted ++ [it], Err err, its)
          | (d, None) => sweepLoop del m d (deleted ++ [it]) its
          end
      end
  end.

(** The sweeping group.  Its receiver ends with [defer sweepCtx.Done()],
    which only returns a channel: nothing cancels the sweeper. *)
Definition sweep (sweeper : D -> enumeration) (del : D -> Item -> D * gerr) (m : M) (d : D)
    : D * list Item * res unit :=
  match sweepLoop del m d [] (sweeper d).1 with
  | (d', deleted, Ok _, _) =>
      (d', deleted, match (sweeper d).2 with None => Ok tt | Some _ => Err (ErrMsg "Sweep failure: %v") end)
  | (d', deleted, Err _, rest) =>
      (d', deleted, if buffered <? glen rest then Blocked else Err (ErrMsg "Sweep failure: %v"))
  | (d', deleted, r, _) => (d', deleted, r)
  end.

(** The world, the store, what [Delete] was called on, and the result. *)
Record outcome := MkOutcome { oWorld : W; oStore : D; oDeleted : list Item; oResult : res unit }.

(** The deferred [World.Start]; a goroutine blocked for ever never gets there. *)
Definition restart (w : World W) (o : outcome) : outcome :=
  match oResult o with
  | Blocked => o
  | r =>
      let '(w', startErr) := Start w (oWorld o) in
      MkOutcome w' (oStore o) (oDeleted o)
        (match r, startErr with Ok _, Some e => Err e | _, _ => r end)
  end.

Definition Collect (c : Collector) (fuel : nat) (ws : W) (d : D) : outcome :=
  let fail msg := MkOutcome ws d [] (Err (ErrMsg msg)) in
  match cWorld c with
  | None => fail "no World"%string
  | Some w =>
  match cMarker c with
  | None => fail "no Marker"%string
  | Some m =>
  match cRoots c with
  | None => fail "no Roots"%string
  | Some roots =>
  match cSweeper c with
  | None => fail "no Sweeper"%string
  | Some sweeper =>
  match cItemEnumerator c with
  | None => fail "no ItemEnumerator"%string
  | Some edges =>
  match cDeleter c with
  | None => fail "no Deleter"%string
  | Some del =>
      match Stop w ws with
      | (ws, Some err) => MkOutcome ws d [] (Err err)
      | (ws, None) =>
          restart w
            match markRoots edges fuel m roots with
            | (m, Ok _) =>
                let '(d, deleted, r) := sweep sweeper del m d in MkOutcome ws d deleted r
            | (_, r) => MkOutcome ws d [] r
            end
      end
  end end end end end end.
End gc.

(** * Reachability *)

Section gc_proofs.
Context {Item M W D : Type} `{Countable Item} `{!Marker Item M} `{!MarkerLaws Item M}.
Context (firstErr : error -> gerr -> error).
Implicit Types (edges : Item -> list Item * gerr) (s : markState (M := M)).

Inductive Reach (edges : Item -> list Item * gerr) (roots : list Item) : Item -> Prop :=
| Reach_root it : it ∈ roots -> Reach edges roots it
| Reach_edge x y : Reach edges roots x -> y ∈ (edges x).1 -> Reach edges roots y.

Lemma Reach_mono edges r1 r2 x :
  (forall y, y ∈ r1 -> Reach edges r2 y) -> Reach edges r1 x -> Reach edges r2 x.
Proof. intros Hr. induction 1 as [it Hit|x y _ IH Hy]; [auto|by eapply Reach_edge]. Qed.

Abbreviation view s := (mk_view (Item := Item) (marks s)).

(** What a successful marking of [its] does: the new marks are reachable from
    [its], and whatever is newly marked has its children marked. *)
Record marked edges (its : list Item) (s s' : markState (M := M)) : Prop := MkMarked {
  marked_mono : view s ⊆ view s';
  marked_all : forall x, x ∈ its -> x ∈ view s';
  marked_reach : forall x, x ∈ view s' -> x ∈ view s \/ Reach edges its x;
  marked_closed : forall x y, x ∈ view s' -> x ∉ view s -> y ∈ (edges x).1 -> y ∈ view s'
}.

Lemma marked_nil edges s : marked edges [] s s.
Proof. split; set_solver. Qed.

Lemma marked_cons edges it its s s1 s2 :
  marked edges [it] s s1 -> marked edges its s1 s2 -> marked edges (it :: its) s s2.
Proof.
  intros [M1 A1 R1 C1] [M2 A2 R2 C2]. split.
  - set_solver.
  - set_solver.
  - intros x Hx. destruct (R2 x Hx) as [Hx1|Hr].
    + destruct (R1 x Hx1) as [|Hr]; [by left|right].
      revert Hr. apply Reach_mono. intros y Hy. apply Reach_root. set_solver.
    + right. revert Hr. apply Reach_mono. intros y Hy. apply Reach_root. set_solver.
  - intros x y Hx Hn Hy. destruct (decide (x ∈ view s1)) as [Hx1|Hx1].
    + apply M2. by eapply C1.
    + by eapply C2.
Qed.

Lemma markLoop_ok (P : markState (M := M) -> markState -> list Item -> Prop) f :
  (forall s, P s s []) ->
  (forall s s1 s2 it its, f s it = (s1, Ok tt) -> P s1 s2 its -> P s s2 (it :: its)) ->
  forall its s s' rest, markLoop f s its = (s', Ok tt, rest) -> P s s' its.
Proof.
  intros Hnil Hcons. induction its as [|it its IH]; intros s s' rest Hl; simpl in Hl.
  { simplify_eq. apply Hnil. }
  destruct (f s it) as [s1 [[]|e|p|]] eqn:Ef; simplify_eq. eapply Hcons; [done|by eapply IH].
Qed.

Lemma markGroup_ok (loop : markState (M := M) * res unit * list Item) perr s' :
  markGroup firstErr loop perr = (s', Ok tt) -> exists rest, loop = (s', Ok tt, rest) /\ perr = None.
Proof.
  destruct loop as [[s [[]|e|p|]] rest]; simpl; intros Hg; [| |simplify_eq..].
  - destruct perr; simplify_eq. by exists rest.
  - by destruct (negb _ && _).
Qed.

Lemma mark_closed edges it s s1 s' :
  view s1 = {[it]} ∪ view s -> marked edges (edges it).1 s1 s' ->
  marked edges [it] s s' /\ forall y, y ∈ (edges it).1 -> y ∈ view s'.
Proof.
  intros Hs1 [M1 A1 R1 C1]. split; [|done]. split.
  - set_solver.
  - set_solver.
  - intros x Hx. destruct (R1 x Hx) as [Hx1|Hr].
    + rewrite Hs1 in Hx1. apply elem_of_union in Hx1 as [->%elem_of_singleton|]; [|by left].
      right. apply Reach_root. set_solver.
    + right. revert Hr. apply Reach_mono. intros y Hy. eapply Reach_edge; [|done]. apply Reach_root. set_solver.
  - intros x y Hx Hn Hy. destruct (decide (x = it)) as [->|]; [by apply A1|].
    eapply C1; [done| |done]. rewrite Hs1. set_solver.
Qed.

Lemma markItem_ok edges fuel s it isRoot s' :
  markItem firstErr edges fuel s it isRoot = (s', Ok tt) ->
  marked edges [it] s s' /\ (isRoot = true -> forall y, y ∈ (edges it).1 -> y ∈ view s').
Proof.
  revert s it isRoot s'. induction fuel as [|fuel IH]; intros s it isRoot s' Hm; [done|].
  assert (forall s s' its rest,
    markLoop (fun s it => markItem firstErr edges fuel s it false) s its = (s', Ok tt, rest) ->
    marked edges its s s') as Hloop.
  { intros ? ? ?. revert its. intros its rest. revert its s0 s'0 rest.
    apply (markLoop_ok (fun s s' its => marked edges its s s')); [apply marked_nil|].
    intros s0 s1 s2 i its Hi Hr. eapply marked_cons; [|done]. by apply (IH s0 i false s1). }
  simpl in Hm. set (mark := match mk_mark _ _ with pair _ _ => _ end) in Hm.
  assert (mark = (s', Ok tt) ->
    marked edges [it] s s' /\ forall y, y ∈ (edges it).1 -> y ∈ view s') as Hmark.
  { unfold mark. destruct (mk_mark (marks s) it) as [m [e|]] eqn:Em; [done|].
    intros (rest & Hl & _)%markGroup_ok. apply Hloop in Hl.
    apply (mark_closed edges it s (setMarks s m)); [by apply mk_mark_ok|done]. }
  destruct isRoot; [tauto|].
  destruct (mk_isMarked (marks s) it) as [[] [e|]] eqn:Ei; [done| |done|split; [tauto|done]].
  apply mk_isMarked_ok in Ei. symmetry in Ei. apply bool_decide_eq_true in Ei.
  simplify_eq. split; [|done]. split; set_solver.
Qed.

(** After all roots are marked from an empty marker: exactly the reachable. *)
Lemma markRoots_ok edges fuel m roots m' :
  mk_view m = ∅ -> markRoots firstErr edges fuel m roots = (m', Ok tt) ->
  forall x, x ∈ mk_view m' <-> Reach edges roots.1 x.
Proof.
  intros H0 Hm. unfold markRoots in Hm.
  destruct (markLoop _ _ _) as [[s [[]|e|p|]] rest] eqn:El; [|done..].
  destruct roots.2; [done|]. simplify_eq/=.
  eapply (markLoop_ok (fun s s' its => marked edges its s s')) in El;
    [|apply marked_nil|intros s0 s1 s2 i its Hi Hr; eapply marked_cons; [|done]; by eapply markItem_ok].
  destruct El as [M1 A1 R1 C1]. simpl in *. intros x. split.
  - intros Hx. destruct (R1 x Hx); [set_solver|done].
  - induction 1 as [it Hit|x y _ IH Hy]; [by apply A1|]. eapply C1; [done|set_solver|done].
Qed.

(** * Enough fuel *)

(** With fuel above the number of unmarked items of a finite set closed under
    the edges, the recursion never runs out: every call that recurses has just
    marked one more item. *)
Definition closed edges (U : gset Item) : Prop :=
  forall x y, x ∈ U -> y ∈ (edges x).1 -> y ∈ U.

Definition notPanic {A} (r : res A) : Prop := match r with Panic _ => False | _ => True end.

Lemma markLoop_notPanic (f : markState (M := M) -> Item -> markState * res unit) (Q : markState -> Prop) its s :
  (forall s it, Q s -> it ∈ its -> notPanic (f s it).2 /\ ((f s it).2 = Ok tt -> Q (f s it).1)) ->
  Q s -> notPanic (markLoop f s its).1.2.
Proof.
  revert s. induction its as [|it its IH]; intros s Hf Hs; simpl; [done|].
  destruct (Hf s it Hs ltac:(set_solver)) as [Hn Hq].
  destruct (f s it) as [s1 [[]|e|p|]]; simpl in *; [|done..].
  apply IH; [|by apply Hq]. intros s2 i Hs2 Hi. apply Hf; [done|set_solver].
Qed.

Lemma markGroup_notPanic (loop : markState (M := M) * res unit * list Item) perr :
  notPanic loop.1.2 -> notPanic (markGroup firstErr loop perr).2.
Proof.
  destruct loop as [[s [[]|e|p|]] rest]; simpl; [|by destruct (negb _ && _)|done..].
  intros _. by destruct perr.
Qed.

Lemma markItem_notPanic edges (U : gset Item) fuel s it (isRoot : bool) :
  closed edges U -> it ∈ U ->
  (size (U ∖ view s : gset Item) + (if isRoot then 1 else 0) < fuel)%nat ->
  notPanic (markItem firstErr edges fuel s it isRoot).2.
Proof.
  intros HU. revert s it isRoot. induction fuel as [|fuel IH]; intros s it isRoot Hit Hf; [lia|].
  assert (forall m, mk_mark (marks s) it = (m, None) -> (isRoot = false -> it ∉ view s) ->
    notPanic (markGroup firstErr (markLoop (fun s it => markItem firstErr edges fuel s it false)
      (setMarks s m) (edges it).1) (edges it).2).2) as Hmark.
  { intros m Hm Hn. apply markGroup_notPanic.
    apply (markLoop_notPanic _ (fun s' => ({[it]} ∪ view s : gset Item) ⊆ view s')).
    - intros s1 x Hs1 Hx. split.
      + apply IH; [by eapply HU|]. destruct isRoot.
        * assert (size (U ∖ view s1) <= size (U ∖ view s))%nat by (apply subseteq_size; set_solver). lia.
        * assert (size (U ∖ view s1) < size (U ∖ view s))%nat; [|lia].
          apply subset_size. specialize (Hn eq_refl). set_solver.
      + intros Hok. destruct (markItem firstErr edges fuel s1 x false) as [s2 r] eqn:E; simpl in *.
        subst r. apply markItem_ok in E as [[Hmono _ _ _] _]. set_solver.
    - simpl. apply mk_mark_ok in Hm. by rewrite Hm. }
  simpl. destruct isRoot.
  - destruct (mk_mark (marks s) it) as [m [e|]] eqn:Em; [done|]. by apply Hmark.
  - destruct (mk_isMarked (marks s) it) as [[] [e|]] eqn:Ei; [done..|].
    apply mk_isMarked_ok in Ei. symmetry in Ei. apply bool_decide_eq_false in Ei.
    destruct (mk_mark (marks s) it) as [m [e|]] eqn:Em; [done|]. by apply Hmark.
Qed.

(** When no callback fails, nothing fails and nothing blocks. *)
Definition noErrors edges : Prop :=
  (forall x, (edges x).2 = None) /\
  (forall (m : M) (it : Item), (mk_mark m it).2 = None /\ (mk_isMarked m it).2 = None).

Definition okOrPanic {A} (r : res A) : Prop := match r with Ok _ | Panic _ => True | _ => False end.

Lemma markLoop_okOrPanic (f : markState (M := M) -> Item -> markState * res unit) its s :
  (forall s it, okOrPanic (f s it).2) -> okOrPanic (markLoop f s its).1.2.
Proof.
  intros Hf. revert s. induction its as [|it its IH]; intros s; simpl; [done|].
  specialize (Hf s it). destruct (f s it) as [s1 [[]|e|p|]]; simpl in *; auto.
Qed.

Lemma markItem_okOrPanic edges fuel s it isRoot :
  noErrors edges -> okOrPanic (markItem firstErr edges fuel s it isRoot).2.
Proof.
  intros [He Hm]. revert s it isRoot. induction fuel as [|fuel IH]; intros s it isRoot; [done|]. simpl.
  assert (okOrPanic (match mk_mark (marks s) it with
    | (m, Some err) => (setMarks s m, Err err)
    | (m, None) => markGroup firstErr (markLoop (fun s it => markItem firstErr edges fuel s it false)
                     (setMarks s m) (edges it).1) (edges it).2 end).2) as Hmark.
  { destruct (Hm (marks s) it) as [Hk _]. destruct (mk_mark (marks s) it) as [m o]; simpl in Hk. subst o.
    rewrite He. pose proof (markLoop_okOrPanic (fun s it => markItem firstErr edges fuel s it false)
      (edges it).1 (setMarks s m) ltac:(intros; apply IH)) as Hl.
    by destruct (markLoop _ _ _) as [[s1 [[]|e|p|]] rest]. }
  destruct isRoot; [done|]. destruct (Hm (marks s) it) as [_ Hk].
  by destruct (mk_isMarked (marks s) it) as [[] o]; simpl in Hk; subst o.
Qed.

#[local] Arguments markItem : simpl never.

Lemma markRoots_total edges (U : gset Item) m roots :
  closed edges U -> noErrors edges -> (forall x, x ∈ roots.1 -> x ∈ U) -> roots.2 = None ->
  exists m', markRoots firstErr edges (2 + size U) m roots = (m', Ok tt).
Proof.
  intros HU He Hr Hn. unfold markRoots.
  pose proof (markLoop_okOrPanic (fun s it => markItem firstErr edges (2 + size U) s it true) roots.1
    (MkMarkState m false) ltac:(intros; by apply markItem_okOrPanic)) as H1.
  pose proof (markLoop_notPanic (fun s it => markItem firstErr edges (2 + size U) s it true)
    (fun _ => True) roots.1 (MkMarkState m false)) as H2.
  destruct (markLoop _ _ _) as [[s [[]|e|p|]] rest]; simpl in *; [|done| |done].
  - rewrite Hn. by eexists.
  - destruct H2; [|done]. intros s1 it _ Hit. split; [|done].
    apply markItem_notPanic with (U := U); [done|by apply Hr|].
    assert (size (U ∖ view s1) <= size U)%nat by (apply subseteq_size; set_solver). lia.
Qed.

(** * Sweeping *)

Lemma sweepLoop_deleted (del : D -> Item -> D * gerr) m d deleted its x :
  x ∈ (sweepLoop del m d deleted its).1.1.2 -> x ∈ deleted \/ (x ∈ its /\ x ∉ mk_view m).
Proof.
  revert d deleted. induction its as [|it its IH]; intros d deleted; simpl; [by left|].
  destruct (mk_isMarked m it) as [[] [e|]] eqn:Ei; simpl; [by left| |by left|].
  - intros [|[? ?]]%IH; [by left|right; set_solver].
  - apply mk_isMarked_ok in Ei. symmetry in Ei. apply bool_decide_eq_false in Ei.
    destruct (del d it) as [d' [e|]]; simpl; [|intros Hx; apply IH in Hx]; set_solver.
Qed.

Lemma sweepLoop_all (del : D -> Item -> D * gerr) m d deleted its :
  (forall it, (mk_isMarked m it).2 = None) -> (forall d it, (del d it).2 = None) ->
  exists d', sweepLoop del m d deleted its =
    (d', deleted ++ filter (fun x => x ∉ mk_view m) its, Ok tt, []).
Proof.
  intros Hm Hd. revert d deleted. induction its as [|it its IH]; intros d deleted; simpl.
  { exists d. by rewrite app_nil_r. }
  specialize (Hm it) as Hi. destruct (mk_isMarked m it) as [b o] eqn:Ei; simpl in Hi. subst o.
  pose proof (mk_isMarked_ok m it b Ei) as ->. rewrite filter_cons.
  destruct (decide (it ∈ mk_view m)) as [Hin|Hin].
  - rewrite (bool_decide_eq_true_2 _ Hin). rewrite decide_False by tauto. apply IH.
  - rewrite (bool_decide_eq_false_2 _ Hin), decide_True by done.
    specialize (Hd d it) as Hd'. destruct (del d it) as [d' o]; simpl in Hd'. subst o.
    destruct (IH d' (deleted ++ [it])) as [d'' ->]. exists d''. by rewrite <- app_assoc.
Qed.

(** * Collect *)

Definition fullCollector (w : World W) (m : M) (roots : list Item * gerr)
    (sweeper : D -> list Item * gerr) (edges : Item -> list Item * gerr)
    (del : D -> Item -> D * gerr) : Collector (M := M) :=
  MkCollector (Some w) (Some m) (Some roots) (Some sweeper) (Some edges) (Some del).

Lemma restart_deleted w (o : outcome (W := W) (D := D) (Item := Item)) :
  oDeleted (restart w o) = oDeleted o.
Proof. unfold restart. by destruct (oResult o), (Start w (oWorld o)). Qed.

Lemma sweep_deleted (sweeper : D -> list Item * gerr) del (m : M) (d : D) x :
  x ∈ (sweep sweeper del m d).1.2 -> x ∉ mk_view m.
Proof.
  unfold sweep. pose proof (sweepLoop_deleted del m d [] (sweeper d).1 x) as Hs.
  destruct (sweepLoop _ _ _ _ _) as [[[d' deleted] [[]|e|p|]] rest]; simpl in *; set_solver.
Qed.

(** C33. The collector never passes a reachable item to [Delete], whatever its
    callbacks return: on a collection that fails while marking nothing is
    deleted, and on one that fails while sweeping only garbage was. *)
Theorem Collect_safe w m roots sweeper edges del fuel ws d it :
  mk_view m = ∅ ->
  it ∈ oDeleted (Collect firstErr (fullCollector w m roots sweeper edges del) fuel ws d) ->
  ~ Reach edges roots.1 it.
Proof.
  intros H0. unfold Collect; simpl. destruct (Stop w ws) as [ws' [e|]]; [simpl; set_solver|].
  rewrite restart_deleted.
  destruct (markRoots firstErr edges fuel m roots) as [m' [[]|e|p|]] eqn:Em; [|simpl; set_solver..].
  pose proof (markRoots_ok edges fuel m roots m' H0 Em it) as Hr.
  pose proof (sweep_deleted sweeper del m' d it) as Hs.
  destruct (sweep sweeper del m' d) as [[d' deleted] r]; simpl in *. rewrite <- Hr. auto.
Qed.

(** When no callback fails and the graph is finite, [Collect] returns nil,
    the world is running again, and what was deleted is exactly the sweeper's
    items that the roots do not reach, in the sweeper's order: recursion depth
    [2 + size U] is enough. *)
Theorem Collect_complete w m roots sweeper edges del (U : gset Item) ws d :
  mk_view m = ∅ -> closed edges U -> (forall x, x ∈ roots.1 -> x ∈ U) -> noErrors edges ->
  roots.2 = None -> (sweeper d).2 = None -> (forall d it, (del d it).2 = None) ->
  (Stop w ws).2 = None -> (Start w (Stop w ws).1).2 = None ->
  let o := Collect firstErr (fullCollector w m roots sweeper edges del) (2 + size U) ws d in
  oResult o = Ok tt /\ oWorld o = (Start w (Stop w ws).1).1 /\
  exists keep : gset Item, (forall x, x ∈ keep <-> Reach edges roots.1 x) /\
    oDeleted o = filter (fun x => x ∉ keep) (sweeper d).1.
Proof.
  intros H0 HU Hin He Hr Hsw Hdel Hstop Hstart.
  destruct (markRoots_total edges U m roots HU He Hin Hr) as [m' Hm'].
  pose proof (markRoots_ok edges _ m roots m' H0 Hm') as Hreach.
  destruct (sweepLoop_all del m' d [] (sweeper d).1) as [d' Hsl]; [by intros it; apply He|done|].
  unfold Collect; simpl. destruct (Stop w ws) as [ws1 o1]; simpl in Hstop, Hstart. subst o1.
  change (S (S (size U))) with (2 + size U)%nat. rewrite Hm'. unfold sweep. rewrite Hsl, Hsw.
  unfold restart; simpl. destruct (Start w ws1) as [ws2 o2]; simpl in Hstart. subst o2. simpl.
  split_and!; [done..|]. exists (mk_view m'). split; [done|]. done.
Qed.

(** Once the world was stopped, [Collect] starts it again on every path
    that returns, and a failure to start it is reported unless an earlier
    error is; nothing is deleted without stopping it. *)
Theorem Collect_restarts w m roots sweeper edges del fuel ws d :
  let o := Collect firstErr (fullCollector w m roots sweeper edges del) fuel ws d in
  let '(ws1, stopErr) := Stop w ws in
  let '(ws2, startErr) := Start w ws1 in
  match stopErr with
  | Some e => o = MkOutcome ws1 d [] (Err e)
  | None =>
      if decide (oResult o = Blocked) then oWorld o = ws1
      else oWorld o = ws2 /\ (is_ok (oResult o) = true -> startErr = None)
  end.
Proof.
  unfold Collect; simpl. destruct (Stop w ws) as [ws1 [e|]]; [by destruct (Start w ws1)|].
  set (o := match markRoots _ _ _ _ _ with pair _ _ => _ end).
  assert (oWorld o = ws1) as Ho.
  { unfold o. destruct (markRoots firstErr edges fuel m roots) as [m' [[]|e|p|]]; [|done..].
    by destruct (sweep sweeper del m' d) as [[]]. }
  unfold restart. rewrite Ho. destruct (Start w ws1) as [ws2 startErr].
  destruct (oResult o) as [[]|e|p|] eqn:Er; [destruct startErr|..]; simpl; rewrite ?Er; simpl;
    by rewrite ?decide_True, ?decide_False by congruence.
Qed.
End gc_proofs.

(** * A marker that is a set, and a store that is one *)

#[global] Instance set_Marker {Item} `{Countable Item} : Marker Item (gset Item) := {
  mk_mark m it := ({[it]} ∪ m, None);
  mk_isMarked m it := (bool_decide (it ∈ m), None)
}.

#[global, program] Instance set_MarkerLaws {Item} `{Countable Item} : MarkerLaws Item (gset Item) := {
  mk_view m := m
}.
Next Obligation. intros. simpl in *. by simplify_eq. Qed.
Next Obligation. intros. simpl in *. by simplify_eq. Qed.

Definition exampleWorld : World bool := MkWorld (fun _ => (false, None)) (fun _ => (true, None)).
(** 1 -> 2 -> 3 -> 1, and 4 -> 5 unreachable. *)
Definition exampleEdges (x : Z) : list Z * gerr :=
  (if x =? 1 then [2] else if x =? 2 then [3] else if x =? 3 then [1; 2] else if x =? 4 then [5] else [], None).
Definition exampleDelete (d : list Z) (it : Z) : list Z * gerr := (filter (fun x => x ≠ it) d, None).
Definition exampleFirst (e : error) (_ : gerr) : error := e.

Lemma Collect_safe_witness :
  5 ∈ oDeleted (Collect exampleFirst (fullCollector exampleWorld (∅ : gset Z) ([1], None)
    (fun d => (d, None)) exampleEdges exampleDelete) 10 true [1; 2; 3; 4; 5]) /\
  ~ Reach exampleEdges [1] 5.
Proof.
  assert (5 ∈ oDeleted (Collect exampleFirst (fullCollector exampleWorld (∅ : gset Z) ([1], None)
    (fun d => (d, None)) exampleEdges exampleDelete) 10 true [1; 2; 3; 4; 5])) as H
    by (vm_compute; repeat constructor).
  split; [exact H|].
  by apply (Collect_safe exampleFirst exampleWorld (∅ : gset Z) ([1], None) (fun d => (d, None))
    exampleEdges exampleDelete 10 true [1; 2; 3; 4; 5]).
Defined.

Lemma exampleEdges_closed : closed exampleEdges {[1; 2; 3]}.
Proof.
  intros x y Hx Hy. unfold exampleEdges in Hy.
  assert (x = 1 \/ x = 2 \/ x = 3) as [-> | [-> | ->]] by set_solver; simpl in Hy; set_solver.
Qed.

Lemma Collect_complete_witness :
  let o := Collect exampleFirst (fullCollector exampleWorld (∅ : gset Z) ([1], None)
    (fun d => (d, None)) exampleEdges exampleDelete) (2 + size ({[1; 2; 3]} : gset Z)) true [1; 2; 3; 4; 5] in
  oResult o = Ok tt /\ oWorld o = true /\
  exists keep : gset Z, (forall x, x ∈ keep <-> Reach exampleEdges [1] x) /\
    oDeleted o = filter (fun x => x ∉ keep) [1; 2; 3; 4; 5].
Proof.
  apply (Collect_complete exampleFirst exampleWorld (∅ : gset Z) ([1], None) (fun d => (d, None))
    exampleEdges exampleDelete {[1; 2; 3]} true [1; 2; 3; 4; 5]); try done.
  - apply exampleEdges_closed.
  - simpl. set_solver.
Defined.

(** A [Delete] that fails with more than 32 items still to come leaves the
    sweeper blocked on its channel: [Collect] never returns and the world
    stays stopped. *)
Lemma sweep_error_blocks :
  let o := Collect exampleFirst (fullCollector exampleWorld (∅ : gset Z) ([], None)
    (fun d => (d, None)) exampleEdges (fun d _ => (d, Some (ErrMsg "delete")))) 10 true
    (Z.of_nat <$> seq 0 40) in
  oResult o = Blocked /\ oWorld o = false.
Proof. vm_compute. done. Qed.
