(* ===== verification/Sha1.v ===== *)
(** SHA-1, as the standard library's crypto/sha1 computes it, and the hash
    operations of references (pkg/blob/ref.go) that use it. *)

From S2P Require Import Prelude Ref.

(** * The compression function *)

Definition rotl (n x : Z) : Z := u32 (Z.lor (Z.shiftl x n) (Z.shiftr x (32 - n))).
Definition not32 (x : Z) : Z := 4294967295 - x.

(** Big-endian words of a byte string. *)
Fixpoint words (bs : list ascii) : list Z :=
  match bs with
  | a :: b :: c :: d :: rest =>
      (bz a * 16777216 + bz b * 65536 + bz c * 256 + bz d) :: words rest
  | _ => []
  end.

Definition wordBytes (w : Z) : list ascii := [zb (w / 16777216); zb (w / 65536); zb (w / 256); zb w].

(** The message schedule, newest word first. *)
Fixpoint schedule (n : nat) (w : list Z) : list Z :=
  match n with
  | O => w
  | S n =>
      schedule n
        (rotl 1 (Z.lxor (Z.lxor (nth 2 w 0) (nth 7 w 0)) (Z.lxor (nth 13 w 0) (nth 15 w 0))) :: w)
  end.

Definition roundF (t b c d : Z) : Z :=
  if t <? 20 then Z.lor (Z.land b c) (Z.land (not32 b) d)
  else if t <? 40 then Z.lxor b (Z.lxor c d)
  else if t <? 60 then Z.lor (Z.land b c) (Z.lor (Z.land b d) (Z.land c d))
  else Z.lxor b (Z.lxor c d).

Definition roundK (t : Z) : Z :=
  if t <? 20 then 1518500249 else if t <? 40 then 1859775393
  else if t <? 60 then 2400959708 else 3395469782.

Abbreviation sha1State := (Z * Z * Z * Z * Z)%type.

Fixpoint rounds (t : Z) (ws : list Z) (s : sha1State) : sha1State :=
  match ws with
  | [] => s
  | w :: ws =>
      let '(a, b, c, d, e) := s in
      rounds (t + 1) ws (u32 (rotl 5 a + roundF t b c d + e + roundK t + w), a, rotl 30 b, c, d)
  end.

Definition block (s : sha1State) (bs : list ascii) : sha1State :=
  let '(a, b, c, d, e) := s in
  let '(a', b', c', d', e') := rounds 0 (rev (schedule 64 (rev (words bs)))) s in
  (u32 (a + a'), u32 (b + b'), u32 (c + c'), u32 (d + d'), u32 (e + e')).

Fixpoint blocks (fuel : nat) (s : sha1State) (bs : list ascii) : sha1State :=
  match fuel with
  | O => s
  | S fuel =>
      if decide (bs = []) then s else blocks fuel (block s (take 64 bs)) (drop 64 bs)
  end.

Definition sha1Pad (bs : list ascii) : list ascii :=
  let n := glen bs in
  bs ++ zb 128 :: replicate (Z.to_nat ((55 - n) mod 64)) (zb 0) ++
    wordBytes (8 * n / 4294967296) ++ wordBytes (8 * n).

(** [h.Sum(nil)] of a [sha1.New()] that was written [bs]. *)
Definition sha1 (bs : list ascii) : list ascii :=
  let p := sha1Pad bs in
  let '(a, b, c, d, e) :=
    blocks (length p) (1732584193, 4023233417, 2562383102, 271733878, 3285377520) p in
  wordBytes a ++ wordBytes b ++ wordBytes c ++ wordBytes d ++ wordBytes e.

Example sha1_abc : RefString (MkRef (Some (DSha1 (sha1 (gs "abc"))))) =
  gs "sha1-a9993e364706816aba3e25717850c26c9cd0d89d".
Proof. vm_compute. reflexivity. Qed.

Example sha1_two_blocks :
  RefString (MkRef (Some (DSha1 (sha1 (gs "abcdbcdecdefdefgefghfghighijhijkijkljklmklmnlmnomnopnopq"))))) =
  gs "sha1-84983e441c3bd26ebaae4aa1f95129e5e54670f1".
Proof. vm_compute. reflexivity. Qed.

Lemma sha1_length bs : length (sha1 bs) = 20%nat.
Proof. unfold sha1. destruct (blocks _ _ _) as [[[[a b] c] d] e]. done. Qed.

(** * References and hashes *)

(** [Ref.Hash]: a hash function, a nil hash for the types [metas] does not
    know, a panic on the zero reference. *)
Definition Hash (r : Ref) : res (option (gostr -> list ascii)) :=
  match digest r with
  | None => Panic "nil pointer dereference"
  | Some (DSha1 _) => Ok (Some sha1)
  | Some (DOther _) => Ok None
  end.

Definition SHA1FromString (s : gostr) : res Ref := RefFromHash (sha1 s).
Definition RefFromString (s : gostr) : res Ref := SHA1FromString s.

(** The blob a reference names: what [HashMatches] accepts after hashing. *)
Definition refOf (d : gostr) : Ref := MkRef (Some (DSha1 (sha1 d))).

Lemma RefFromString_refOf d : RefFromString d = Ok (refOf d).
Proof.
  unfold RefFromString, SHA1FromString, RefFromHash, sha1FromBinary.
  rewrite sha1_length. done.
Qed.

Lemma refOf_wf d : refWf (refOf d) = true /\ refOdd (refOf d) = false.
Proof. split; [|done]. unfold refWf; simpl. apply bool_decide_eq_true. apply sha1_length. Qed.

Lemma Hash_good br h : Hash br = Ok (Some h) -> h = sha1.
Proof. unfold Hash. destruct (digest br) as [[]|]; by intros [= <-]. Qed.


(** With a hash function, [HashMatches] holds of [refOf d] only. *)
Lemma HashMatches_sha1 br d :
  Hash br = Ok (Some sha1) -> HashMatches br (sha1 d) = bool_decide (br = refOf d).
Proof.
  destruct br as [[[s|o]|]]; simpl; [|done..]. intros _. unfold HashMatches, refOf; simpl.
  destruct (decide (sha1 d = s)) as [<-|Hne].
  - by rewrite !bool_decide_eq_true_2.
  - rewrite !bool_decide_eq_false_2; [done|congruence|done].
Qed.

(** Conversion never needs to look inside; [vm_compute] still evaluates it. *)
#[global] Opaque sha1.
