(* ===== verification/Storage.v ===== *)
(** The blob storage interfaces of pkg/blob/fetcher.go and
    pkg/blobserver/interface.go.

    A storage is a class of operations on a state; its laws say what the
    interface comments promise, over the finite map of the blobs it holds.
    Clients (receiving, enumerating, shards, replicas, ...) are proved against
    the laws; the storages of the other files are instances. *)

From S2P Require Import Prelude Ref Sha1.

(** * Readers and contexts *)

(** An [io.Reader] read to its end: the bytes, and how it ended ([Ok tt] is
    [io.EOF]). *)
Abbreviation reader := (gostr * res unit)%type.

(** [ioutil.ReadAll] and [io.Copy] to a buffer. *)
Definition readAll (src : reader) : res gostr := let? _ := src.2 in Ok src.1.

(** [io.LimitReader(src, n)] *)
Definition limitReader (n : Z) (src : reader) : reader :=
  if n <=? glen src.1 then (take (Z.to_nat n) src.1, Ok tt) else src.

(** A [*context.Context]: [None] is never cancelled, [Some k] becomes done
    after [k] sends of the call it is passed to. *)
Abbreviation ctx := (option nat).

(** Sending [l] on a channel in a [select] with [ctx.Done()]. *)
Definition sendAll {A} (c : ctx) (l : list A) : list A * res unit :=
  match c with
  | Some k => if decide (k < length l)%nat then (take k l, Err ErrCanceled) else (l, Ok tt)
  | None => (l, Ok tt)
  end.

(** * The operations *)

(** [blob.Fetcher]: the bytes of a blob, read to their end, and its size. *)
Class Fetcher (S : Type) := { st_Fetch : S -> Ref -> S * res (gostr * Z) }.

(** [blob.SubFetcher]: [length] bytes of a blob from [offset] on. *)
Class SubFetcher (S : Type) := { st_SubFetch : S -> Ref -> Z -> Z -> S * res reader }.

Class Storage (S : Type) := {
  st_fetcher :: Fetcher S;
  st_ReceiveBlob : S -> Ref -> reader -> S * res SizedRef;
  (** Whether [ReceiveBlob] gets to read its source to the end. *)
  st_reads : S -> Ref -> reader -> bool;
  (** What is sent on the channel, and the error. *)
  st_StatBlobs : S -> list Ref -> list SizedRef * res unit;
  st_EnumerateBlobs : S -> ctx -> gostr -> Z -> list SizedRef * res unit;
  st_RemoveBlobs : S -> list Ref -> S * res unit
}.

(** * The reference: a finite map of blobs *)

Abbreviation blobs := (gmap Ref gostr).

Definition goodRef (r : Ref) : Prop := refWf r = true /\ refOdd r = false.

(** Well-formed references with an even digit count, and sizes that fit. *)
Definition goodBlobs (m : blobs) : Prop :=
  forall br d, m !! br = Some d -> goodRef br /\ glen d < 2 ^ 32.

Definition sized (p : Ref * gostr) : SizedRef := MkSizedRef p.1 (glen p.2).

Definition sizedStr (sb : SizedRef) : gostr := RefString (sr_ref sb).
Definition sized_lt : relation SizedRef := fun a b => str_lt (sizedStr a) (sizedStr b).
Definition sized_le : relation SizedRef := fun a b => str_le (sizedStr a) (sizedStr b).

#[global] Instance sized_le_dec : RelDecision sized_le.
Proof. intros a b. unfold sized_le. apply _. Defined.
#[global] Instance sized_le_trans : Transitive sized_le.
Proof. intros a b c. unfold sized_le. apply str_le_trans. Qed.
#[global] Instance sized_le_total : Total sized_le.
Proof. intros a b. unfold sized_le. apply str_le_total. Qed.
#[global] Instance sized_lt_trans : Transitive sized_lt.
Proof. intros a b c. unfold sized_lt. apply str_lt_trans. Qed.
#[global] Instance sized_lt_irrefl : Irreflexive sized_lt.
Proof. intros a. unfold complement, sized_lt. apply str_lt_irrefl. Qed.

(** References and sizes in the order of the references' text; all blobs. *)
Definition sizedOf (sz : gmap Ref Z) : list SizedRef :=
  merge_sort sized_le ((fun p => MkSizedRef p.1 p.2) <$> map_to_list sz).
Definition sizes (m : blobs) : gmap Ref Z := glen <$> m.
Definition sizedAll (m : blobs) : list SizedRef := sizedOf (sizes m).

(** [EnumerateBlobs]: at most [limit] of those greater than [after]. *)
Definition sizedAfter (after : gostr) (sb : SizedRef) : Prop := str_lt after (sizedStr sb).
#[global] Instance sizedAfter_dec after sb : Decision (sizedAfter after sb).
Proof. unfold sizedAfter. apply _. Defined.

Definition enumAfter (m : blobs) (after : gostr) : list SizedRef :=
  filter (sizedAfter after) (sizedAll m).
Definition enumSpec (m : blobs) (after : gostr) (limit : Z) : list SizedRef :=
  take (Z.to_nat limit) (enumAfter m after).

(** [StatBlobs]: the sizes of those that exist. *)
Definition statSpec (m : blobs) (brs : list Ref) : list SizedRef :=
  omap (fun br => (fun d => MkSizedRef br (glen d)) <$> m !! br) brs.

(** [RemoveBlobs] *)
Definition removeSpec (m : blobs) (brs : list Ref) : blobs := filter (fun p => p.1 ∉ brs) m.

(** What the interface comments promise.  An error other than
    [os.ErrNotExist] is always possible. *)
Class StorageLaws (S : Type) `{!Storage S} := {
  st_view : S -> blobs;
  st_wf : S -> Prop;
  st_wf_good s : st_wf s -> goodBlobs (st_view s);
  st_Fetch_law s br s' r :
    st_wf s -> st_Fetch s br = (s', r) ->
    st_wf s' /\ st_view s' = st_view s /\
    match r with
    | Ok (d, n) => st_view s !! br = Some d /\ n = glen d
    | Err e => e = ErrNotExist -> st_view s !! br = None
    | _ => False
    end;
  st_ReceiveBlob_law s br src s' r :
    st_wf s -> goodRef br -> glen src.1 < 2 ^ 32 -> st_ReceiveBlob s br src = (s', r) ->
    st_wf s' /\
    match r with
    | Ok sb => src.2 = Ok tt /\ sb = sized (br, src.1) /\ st_view s' = st_view s ∪ {[br := src.1]}
    | Err e => st_view s' = st_view s /\ (st_reads s br src = true -> src.2 = Err e \/ src.2 = Ok tt)
    | Panic p => st_view s' = st_view s /\ src.2 = Panic p
    | Blocked => st_view s' = st_view s /\ src.2 = Blocked
    end;
  st_StatBlobs_law s brs out r :
    st_wf s -> NoDup brs -> st_StatBlobs s brs = (out, r) ->
    match r with
    | Ok _ => out ≡ₚ statSpec (st_view s) brs
    | Err _ => out ⊆+ statSpec (st_view s) brs
    | _ => False
    end;
  st_EnumerateBlobs_law s c after limit out r :
    st_wf s -> 0 < limit -> st_EnumerateBlobs s c after limit = (out, r) ->
    match r with
    | Ok _ => out = enumSpec (st_view s) after limit
    | Err _ => out `prefix_of` enumSpec (st_view s) after limit
    | _ => False
    end;
  st_RemoveBlobs_law s brs s' r :
    st_wf s -> st_RemoveBlobs s brs = (s', r) ->
    st_wf s' /\
    match r with
    | Ok _ => st_view s' = removeSpec (st_view s) brs
    | Err _ => exists brs', brs' ⊆ brs /\ st_view s' = removeSpec (st_view s) brs'
    | _ => False
    end
}.

(** What is left of the laws for those that only fetch. *)
Class FetcherLaws (S : Type) `{!Fetcher S} := {
  ft_view : S -> blobs;
  ft_wf : S -> Prop;
  ft_wf_good s : ft_wf s -> goodBlobs (ft_view s);
  ft_Fetch_law s br s' r :
    ft_wf s -> goodRef br -> st_Fetch s br = (s', r) ->
    ft_wf s' /\ ft_view s' = ft_view s /\
    match r with
    | Ok (d, n) => ft_view s !! br = Some d /\ n = glen d
    | Err e => e = ErrNotExist -> ft_view s !! br = None
    | _ => False
    end
}.

#[global] Instance storage_FetcherLaws {S} `{StorageLaws S} : FetcherLaws S := {|
  ft_view := st_view; ft_wf := st_wf; ft_wf_good := st_wf_good; ft_Fetch_law s br s' r Hs _ := st_Fetch_law s br s' r Hs
|}.

(** A part that lies inside its blob is delivered whole. *)
Class SubFetcherLaws (S : Type) `{StorageLaws S} `{!SubFetcher S} := {
  st_SubFetch_law s br offset length s' r d :
    st_wf s -> st_view s !! br = Some d -> 0 <= offset -> 0 <= length -> offset + length <= glen d ->
    st_SubFetch s br offset length = (s', r) ->
    st_wf s' /\ st_view s' = st_view s /\
    match r with
    | Ok part => part = (take (Z.to_nat length) (drop (Z.to_nat offset) d), Ok tt)
    | Err e => e ≠ ErrNotExist
    | _ => False
    end
}.

(** [StatBlob]: one reference, a channel of capacity one. *)
Definition StatBlob {S} `{!Storage S} (bs : S) (br : Ref) : res SizedRef :=
  match st_StatBlobs bs [br] with
  | (out, Ok _) => match out with sb :: _ => Ok sb | [] => Err ErrNotExist end
  | (_, Err e) => Err e
  | (_, Panic p) => Panic p
  | (_, Blocked) => Blocked
  end.

(** * The reference's lemmas *)

Lemma goodRef_inj r o : goodRef r -> goodRef o -> RefString r = RefString o -> r = o.
Proof.
  intros [Hr _] [Ho _] H. pose proof (Parse_RefString r Hr) as Hp.
  rewrite H, Parse_RefString in Hp by done. by simplify_eq.
Qed.

Lemma Less_good r o : goodRef r -> goodRef o -> Less r o = bool_decide (str_lt (RefString r) (RefString o)).
Proof.
  intros [Hr Hor] [Ho Hoo]. rewrite Less_RefString by done. apply eq_true_iff_eq.
  by rewrite bool_decide_eq_true.
Qed.

Definition goodSizes (sz : gmap Ref Z) : Prop := forall br n, sz !! br = Some n -> goodRef br.

Lemma goodBlobs_sizes m : goodBlobs m -> goodSizes (sizes m).
Proof.
  intros Hm br n. unfold sizes. rewrite lookup_fmap, fmap_Some. intros (d & Hd & _). by eapply Hm.
Qed.

Lemma elem_of_sizedOf sz sb : sb ∈ sizedOf sz <-> sz !! sr_ref sb = Some (sr_size sb).
Proof.
  unfold sizedOf. rewrite merge_sort_Permutation, list_elem_of_fmap. split.
  - intros ([br n] & -> & Hp). by apply elem_of_map_to_list in Hp.
  - intros Hs. exists (sr_ref sb, sr_size sb). split; [by destruct sb|]. by apply elem_of_map_to_list.
Qed.

Lemma elem_of_sizedAll m sb :
  sb ∈ sizedAll m <-> exists d, m !! sr_ref sb = Some d /\ sr_size sb = glen d.
Proof.
  unfold sizedAll, sizes. rewrite elem_of_sizedOf, lookup_fmap, fmap_Some. naive_solver.
Qed.

Lemma sized_strict l :
  StronglySorted sized_le l -> NoDup (sr_ref <$> l) -> (forall sb, sb ∈ l -> goodRef (sr_ref sb)) ->
  StronglySorted sized_lt l.
Proof.
  induction 1 as [|a l Hs IH Hf]; intros Hn Hg; [constructor|].
  apply NoDup_cons in Hn as [Ha Hn]. constructor; [apply IH; [done|set_solver]|].
  rewrite Forall_forall in Hf |- *. intros b Hb. unfold sized_lt.
  destruct (proj1 (str_le_lt_eq _ _) (Hf b Hb)) as [|He]; [done|]. destruct Ha.
  rewrite (goodRef_inj (sr_ref a) (sr_ref b)); [by apply list_elem_of_fmap_2|apply Hg; set_solver..|done].
Qed.

Lemma sizedOf_sorted sz : goodSizes sz -> StronglySorted sized_lt (sizedOf sz).
Proof.
  intros Hm. apply sized_strict.
  - apply StronglySorted_merge_sort; apply _.
  - unfold sizedOf. rewrite merge_sort_Permutation, <- list_fmap_compose.
    apply NoDup_fst_map_to_list.
  - intros sb Hsb%elem_of_sizedOf. by eapply Hm.
Qed.

(** A strictly sorted list of a map's references and sizes is [sizedOf]. *)
Lemma sizedOf_unique sz l :
  goodSizes sz -> StronglySorted sized_lt l ->
  (forall sb, sb ∈ l <-> sz !! sr_ref sb = Some (sr_size sb)) -> l = sizedOf sz.
Proof.
  intros Hm Hs He. apply (ssorted_ext sized_lt); [done|by apply sizedOf_sorted|].
  intros sb. by rewrite He, elem_of_sizedOf.
Qed.

Lemma sizedAll_sorted m : goodBlobs m -> StronglySorted sized_lt (sizedAll m).
Proof. intros Hm. by apply sizedOf_sorted, goodBlobs_sizes. Qed.

Lemma enumAfter_sorted m after : goodBlobs m -> StronglySorted sized_lt (enumAfter m after).
Proof. intros Hm. apply ssorted_filter, sizedAll_sorted, Hm. Qed.

Lemma elem_of_enumAfter m after sb :
  sb ∈ enumAfter m after <->
  str_lt after (sizedStr sb) /\ exists d, m !! sr_ref sb = Some d /\ sr_size sb = glen d.
Proof. unfold enumAfter. by rewrite list_elem_of_filter, elem_of_sizedAll. Qed.

Lemma goodRef_nonempty r : goodRef r -> RefString r ≠ [].
Proof. intros [Hr _] Hs. pose proof (Parse_RefString r Hr) as Hp. by rewrite Hs in Hp. Qed.

Lemma enumAfter_nil m : goodBlobs m -> enumAfter m [] = sizedAll m.
Proof.
  intros Hm. apply filter_all, Forall_forall. intros sb (d & Hd & _)%elem_of_sizedAll. unfold sizedAfter.
  destruct (proj1 (str_le_lt_eq _ _) (str_nil_le (sizedStr sb))) as [|Hn]; [done|].
  symmetry in Hn. apply goodRef_nonempty in Hn; [done|]. by eapply Hm.
Qed.

Lemma statSpec_one m br :
  statSpec m [br] = match m !! br with Some d => [MkSizedRef br (glen d)] | None => [] end.
Proof. unfold statSpec; simpl. by destruct (m !! br). Qed.

Lemma statSpec_cons m br brs :
  statSpec m (br :: brs) =
    match m !! br with Some d => [MkSizedRef br (glen d)] | None => [] end ++ statSpec m brs.
Proof. unfold statSpec; simpl. by destruct (m !! br). Qed.

Lemma statSpec_perm m l1 l2 : l1 ≡ₚ l2 -> statSpec m l1 ≡ₚ statSpec m l2.
Proof.
  induction 1 as [|b l1 l2 _ IH|b c l|l1 l2 l3 _ IH1 _ IH2]; [done|..].
  - by rewrite !statSpec_cons, IH.
  - rewrite !statSpec_cons, !app_assoc. apply Permutation_app_tail, Permutation_app_comm.
  - by etrans.
Qed.

Lemma lookup_removeSpec m brs br :
  removeSpec m brs !! br = if decide (br ∈ brs) then None else m !! br.
Proof.
  unfold removeSpec. rewrite map_lookup_filter. destruct (m !! br) as [d|]; simpl.
  - destruct (decide (br ∈ brs)); [by rewrite option_guard_False by tauto|by rewrite option_guard_True].
  - by destruct (decide _).
Qed.

Lemma removeSpec_ext m l l' : (forall br, br ∈ l <-> br ∈ l') -> removeSpec m l = removeSpec m l'.
Proof.
  intros He. apply map_eq. intros br. rewrite !lookup_removeSpec.
  destruct (decide (br ∈ l)) as [Hin|Hn]; [by rewrite decide_True by by apply He|]. rewrite decide_False; [done|]. by rewrite <- He.
Qed.

Lemma removeSpec_nil m : removeSpec m [] = m.
Proof. apply map_eq. intros br. rewrite lookup_removeSpec, decide_False; [done|]. apply not_elem_of_nil. Qed.

Lemma goodBlobs_subseteq m m' : m' ⊆ m -> goodBlobs m -> goodBlobs m'.
Proof. intros Hsub Hm br d Hd. eapply Hm. by eapply lookup_weaken. Qed.

Lemma removeSpec_subseteq m brs : removeSpec m brs ⊆ m.
Proof. apply map_filter_subseteq. Qed.

Lemma StatBlob_ok {S} `{StorageLaws S} (s : S) (br : Ref) :
  st_wf s ->
  match StatBlob s br with
  | Ok sb => exists d, st_view s !! br = Some d /\ sb = sized (br, d)
  | Err e => (st_StatBlobs s [br]).2 = Err e \/ (e = ErrNotExist /\ st_view s !! br = None)
  | _ => False
  end.
Proof.
  intros Hwf. unfold StatBlob. destruct (st_StatBlobs s [br]) as [out r] eqn:E.
  pose proof (st_StatBlobs_law s [br] out r Hwf (NoDup_singleton br) E) as Hl.
  rewrite statSpec_one in Hl. destruct r as [[]|e|p|]; [|by left|done..].
  destruct (st_view s !! br) as [d|].
  - apply Permutation_singleton_r in Hl as ->. by exists d.
  - apply Permutation_nil_r in Hl as ->. by right.
Qed.

(** [StatBlob] of a lawful storage: the blob's size, [os.ErrNotExist] when
    it is absent, and otherwise only the storage's own errors. *)
Theorem StatBlob_spec {S} `{StorageLaws S} (s : S) (br : Ref) :
  st_wf s ->
  match StatBlob s br with
  | Ok sb => exists d, st_view s !! br = Some d /\ sb = sized (br, d)
  | Err e => (st_StatBlobs s [br]).2 = Err e \/ (e = ErrNotExist /\ st_view s !! br = None)
  | _ => False
  end.
Proof. apply StatBlob_ok. Qed.

(** * Collecting the errors of goroutines *)

Section batch_errors.
(** Which of the errors received is the last. *)
Context (lastErr : list error -> error).

(** [reterr]: a goroutine's panic ends the program, a blocked one the call. *)
Definition batchErr (rs : list (res unit)) : res unit :=
  match omap (fun r => match r with Panic _ | Blocked => Some r | _ => None end) rs with
  | r :: _ => r
  | [] =>
      match omap (fun r => match r with Err e => Some e | _ => None end) rs with
      | [] => Ok tt
      | e :: es => Err (lastErr (e :: es))
      end
  end.

Lemma batchErr_spec rs :
  (forall l, l ≠ [] -> lastErr l ∈ l) ->
  match batchErr rs with
  | Ok _ => Forall (fun r => r = Ok tt) rs
  | Err e => Err e ∈ rs /\ Forall (fun r => match r with Ok _ | Err _ => True | _ => False end) rs
  | r => r ∈ rs
  end.
Proof.
  intros Hlast. unfold batchErr.
  destruct (omap (fun r => match r with Panic _ | Blocked => Some r | _ => None end) rs) as [|r l] eqn:E1.
  - assert (Forall (fun r : res unit => match r with Ok _ | Err _ => True | _ => False end) rs) as Hok.
    { apply Forall_forall. intros r Hr. destruct r as [| | p|] eqn:Er; try done;
        assert (r ∈ (@nil (res unit))) as Hin by (rewrite <- E1; apply list_elem_of_omap; exists r; by subst r);
        set_solver. }
    destruct (omap (fun r => match r with Err e => Some e | _ => None end) rs) as [|e l] eqn:E2.
    + apply Forall_forall. intros r Hr. rewrite Forall_forall in Hok. specialize (Hok r Hr).
      destruct r as [[]|e| |]; try done. exfalso.
      assert (e ∈ (@nil error)) as Hin by (rewrite <- E2; apply list_elem_of_omap; by exists (Err e)). set_solver.
    + split; [|done]. assert (lastErr (e :: l) ∈ e :: l) as Hin by by apply Hlast.
      rewrite <- E2 in Hin at 2. apply list_elem_of_omap in Hin as (r & Hr & He). destruct r as [|e'| |]; try done.
      injection He as He. by rewrite <- He.
  - assert (r ∈ r :: l) as Hin by apply list_elem_of_here. rewrite <- E1 in Hin.
    apply list_elem_of_omap in Hin as (r' & Hr & He). destruct r' as [| |p|]; simplify_eq; done.
Qed.

End batch_errors.

(** * The reference storage: the map itself *)

Definition map_Fetcher : Fetcher blobs := {|
  st_Fetch m br := (m, match m !! br with Some d => Ok (d, glen d) | None => Err ErrNotExist end)
|}.

#[global] Instance map_SubFetcher : SubFetcher blobs := {
  st_SubFetch m br offset length :=
    (m, match m !! br with
        | Some d => Ok (take (Z.to_nat length) (drop (Z.to_nat offset) d), Ok tt)
        | None => Err ErrNotExist
        end)
}.

#[global] Instance map_Storage : Storage blobs := {
  st_fetcher := map_Fetcher;
  st_ReceiveBlob m br src :=
    match readAll src with
    | Ok d => (m ∪ {[br := d]}, Ok (sized (br, d)))
    | Err e => (m, Err e)
    | Panic p => (m, Panic p)
    | Blocked => (m, Blocked)
    end;
  st_reads _ _ _ := true;
  st_StatBlobs m brs := (statSpec m brs, Ok tt);
  st_EnumerateBlobs m c after limit := sendAll c (enumSpec m after limit);
  st_RemoveBlobs m brs := (removeSpec m brs, Ok tt)
}.

Lemma goodBlobs_insert m br d :
  goodBlobs m -> goodRef br -> glen d < 2 ^ 32 -> goodBlobs (m ∪ {[br := d]}).
Proof.
  intros Hm Hbr Hd br' d' [Hd'|[_ Hd']]%lookup_union_Some_raw; [by eapply Hm|].
  by apply lookup_singleton_Some in Hd' as [<- <-].
Qed.

Lemma sendAll_prefix {A} (c : ctx) (l : list A) :
  match (sendAll c l).2 with
  | Ok _ => (sendAll c l).1 = l
  | Err _ => (sendAll c l).1 `prefix_of` l
  | _ => False
  end.
Proof.
  unfold sendAll. destruct c as [k|]; [|done]. destruct (decide _); simpl; [apply prefix_take|done].
Qed.

(** The context as a loop finds it after [n] sends. *)
Definition ctxFrom (n : nat) (c : ctx) : ctx := (fun k => (k - n)%nat) <$> c.

Lemma ctxFrom_0 c : ctxFrom 0 c = c.
Proof. destruct c as [k|]; [|done]. unfold ctxFrom; simpl. by rewrite Nat.sub_0_r. Qed.

(** One more send of a loop that checks the context before each. *)
Lemma sendAll_cons {A} (c : ctx) (n : nat) (x : A) l :
  (forall k, c = Some k -> (n <= k)%nat) ->
  sendAll (ctxFrom n c) (x :: l) =
    if decide (c = Some n) then ([], Err ErrCanceled)
    else let '(out, r) := sendAll (ctxFrom (S n) c) l in (x :: out, r).
Proof.
  intros Hk. unfold ctxFrom. destruct c as [k|]; [|done]. specialize (Hk k eq_refl).
  destruct (decide (Some k = Some n)) as [[= ->]|Hne]; simpl.
  - by rewrite decide_True, Nat.sub_diag by lia.
  - assert (k ≠ n) by congruence. replace (k - n)%nat with (S (k - S n)) by lia.
    destruct (decide (k - S n < length l)%nat); [by rewrite decide_True by lia|by rewrite decide_False by lia].
Qed.

#[global, program] Instance map_StorageLaws : StorageLaws blobs := {
  st_view m := m;
  st_wf := goodBlobs
}.
Next Obligation. done. Qed.
Next Obligation.
  intros m br m' r Hm Hf. simpl in Hf. simplify_eq. split_and!; [done..|]. by destruct (m' !! br).
Qed.
Next Obligation.
  intros m br [d [[]|e|p|]] m' r Hm Hbr Hd Hr; simpl in *; simplify_eq; split_and!; try done; auto.
  by apply goodBlobs_insert.
Qed.
Next Obligation. intros m brs out r Hm _ Hs. simpl in Hs. by simplify_eq. Qed.
Next Obligation.
  intros m c after limit out r Hm _ He. simpl in He.
  pose proof (sendAll_prefix c (enumSpec m after limit)) as Hp. by rewrite He in Hp.
Qed.
Next Obligation.
  intros m brs m' r Hm He. simpl in He. simplify_eq. split; [|done].
  eapply goodBlobs_subseteq; [apply removeSpec_subseteq|done].
Qed.

#[global] Instance map_SubFetcherLaws : SubFetcherLaws blobs.
Proof.
  constructor. intros m br offset length m' r d Hm Hd _ _ _ Hf. simpl in Hf, Hd. rewrite Hd in Hf.
  injection Hf as <- <-. done.
Qed.

(** [refOf d] is a good reference, so a map of such blobs is good. *)
Lemma refOf_good d : goodRef (refOf d).
Proof. apply refOf_wf. Qed.

Definition blobsOf (ds : list gostr) : blobs := list_to_map ((fun d => (refOf d, d)) <$> ds).

Lemma blobsOf_good ds : Forall (fun d => glen d < 2 ^ 32) ds -> goodBlobs (blobsOf ds).
Proof.
  intros Hf br d Hd. apply elem_of_list_to_map_2, list_elem_of_fmap in Hd as (d' & ? & Hd').
  simplify_eq. split; [apply refOf_good|by eapply Forall_forall in Hf].
Qed.

Lemma blobsOf_lookup ds br d : blobsOf ds !! br = Some d -> br = refOf d /\ d ∈ ds.
Proof.
  intros Hd. apply elem_of_list_to_map_2, list_elem_of_fmap in Hd as (d' & ? & Hd'). by simplify_eq.
Qed.

Lemma exampleData_inj d d' :
  d = gs "a" \/ d = gs "b" -> d' = gs "a" \/ d' = gs "b" -> refOf d = refOf d' -> d = d'.
Proof.
  assert (refOf (gs "a") ≠ refOf (gs "b")) as Hab by (apply (bool_decide_unpack _); vm_compute; exact I).
  revert Hab. generalize refOf as f. intros f Hab [->| ->] [->| ->] H; congruence.
Qed.

Lemma StatBlob_spec_witness :
  match StatBlob (blobsOf [gs "a"; gs "bc"]) (refOf (gs "bc")) with
  | Ok sb => exists d, st_view (blobsOf [gs "a"; gs "bc"]) !! refOf (gs "bc") = Some d /\ sb = sized (refOf (gs "bc"), d)
  | Err e => (st_StatBlobs (blobsOf [gs "a"; gs "bc"]) [refOf (gs "bc")]).2 = Err e \/
      (e = ErrNotExist /\ st_view (blobsOf [gs "a"; gs "bc"]) !! refOf (gs "bc") = None)
  | _ => False
  end.
Proof. apply StatBlob_spec. apply blobsOf_good. repeat constructor. Defined.
