(* ===== verification/Enumerate.v ===== *)
(** Enumerations: pkg/blob/chanpeek.go, and the merging, exhaustive and
    comparing loops of pkg/blobserver/mergedenum.go, enumerate.go and sync.go.

    A channel that its sender closes is the list of the items still to be
    received.  A merged enumeration that stops at its limit leaves the senders
    with undelivered items; a sender with more of them than its channel holds
    never returns, and neither does the code that waits for it. *)

From S2P Require Import Prelude Ref Sha1 Storage.

Definition buffered : nat := 8.

(** * ChanPeeker *)

Record ChanPeeker := MkPeeker {
  Ch : list SizedRef;
  closed : bool;
  peek : option SizedRef     (* [peekok] and [peek] *)
}.

Definition newPeeker (l : list SizedRef) : ChanPeeker := MkPeeker l false None.

Definition Peek (cp : ChanPeeker) : ChanPeeker * option SizedRef :=
  if closed cp then (cp, None)
  else
    match peek cp with
    | Some sb => (cp, Some sb)
    | None =>
        match Ch cp with
        | [] => (MkPeeker [] true None, None)
        | v :: rest => (MkPeeker rest false (Some v), Some v)
        end
    end.

Definition MustPeek (cp : ChanPeeker) : ChanPeeker * res SizedRef :=
  let '(cp, o) := Peek cp in
  (cp, match o with Some sr => Ok sr | None => Panic "No Peek value available" end).

Definition Closed (cp : ChanPeeker) : ChanPeeker * bool :=
  let '(cp, _) := Peek cp in (cp, closed cp).

Definition Take (cp : ChanPeeker) : ChanPeeker * option SizedRef :=
  let '(cp, o) := Peek cp in
  match o with
  | None => (cp, None)
  | Some v => (MkPeeker (Ch cp) (closed cp) None, Some v)
  end.

Definition MustTake (cp : ChanPeeker) : ChanPeeker * res SizedRef :=
  let '(cp, o) := Take cp in
  (cp, match o with Some sr => Ok sr | None => Panic "MustTake called on empty channel" end).

Fixpoint ConsumeAll (fuel : nat) (cp : ChanPeeker) : ChanPeeker :=
  match fuel with
  | O => cp
  | S fuel =>
      let '(cp, c) := Closed cp in
      if c then cp else ConsumeAll fuel (Take cp).1
  end.

(** What is left to take. *)
Definition pending (cp : ChanPeeker) : list SizedRef :=
  if closed cp then [] else option_list (peek cp) ++ Ch cp.

Lemma pending_new l : pending (newPeeker l) = l.
Proof. done. Qed.

(** The state after a [Peek]: the same items, and [closed] tells if any. *)
Definition peeked (cp : ChanPeeker) : ChanPeeker := (Peek cp).1.

Lemma Peek_spec cp :
  Peek cp = (peeked cp, head (pending cp)) /\ pending (peeked cp) = pending cp /\
  closed (peeked cp) = bool_decide (pending cp = []) /\
  (pending cp = [] \/ peek (peeked cp) = head (pending cp)) /\
  (length (Ch (peeked cp)) = pred (length (pending cp)) \/ closed cp = true).
Proof.
  unfold peeked, Peek, pending. destruct cp as [ch [] [sb|]]; simpl; [by split_and!; auto..| |].
  - split_and!; auto.
  - destruct ch as [|v ch]; simpl; split_and!; auto.
Qed.

Lemma Take_spec cp :
  (Take cp).2 = head (pending cp) /\ pending (Take cp).1 = tail (pending cp) /\
  (closed cp = true -> closed (Take cp).1 = true) /\ (closed cp = true -> Ch cp = [] -> Ch (Take cp).1 = []).
Proof. unfold Take, Peek, pending. by destruct cp as [[|v ch] [] [sb|]]; simpl; split_and!. Qed.

Lemma MustPeek_spec cp sb l :
  pending cp = sb :: l -> MustPeek cp = (peeked cp, Ok sb).
Proof. intros Hp. unfold MustPeek. destruct (Peek_spec cp) as (-> & _). by rewrite Hp. Qed.

Lemma MustTake_spec cp sb l :
  pending cp = sb :: l -> MustTake cp = ((Take cp).1, Ok sb) /\ pending (Take cp).1 = l.
Proof.
  intros Hp. destruct (Take_spec cp) as (H1 & H2 & _). unfold MustTake.
  destruct (Take cp) as [cp' o]; simpl in *. subst o. rewrite Hp in *. done.
Qed.

(** The peeker is a queue with look-ahead: [Peek] shows the next item and
    leaves the queue alone, [Take] removes exactly that item, [Closed] tells
    whether none is left, and [ConsumeAll] empties it. *)
Theorem ChanPeeker_queue (cp : ChanPeeker) :
  (Peek cp).2 = head (pending cp) /\ pending (Peek cp).1 = pending cp /\
  (Take cp).2 = head (pending cp) /\ pending (Take cp).1 = tail (pending cp) /\
  (Closed cp).2 = bool_decide (pending cp = []) /\ pending (Closed cp).1 = pending cp /\
  pending (ConsumeAll (S (length (pending cp))) cp) = [].
Proof.
  destruct (Peek_spec cp) as (Hp & Hpp & Hc & _). destruct (Take_spec cp) as (Ht & Htp & _).
  assert (Closed cp = (peeked cp, bool_decide (pending cp = []))) as Hcl
    by (unfold Closed; by rewrite Hp, Hc).
  rewrite Hp, Hcl. split_and!; try done.
  clear. remember (length (pending cp)) as n eqn:Hn. revert cp Hn.
  induction n as [|n IH]; intros cp Hn; simpl; unfold Closed.
  - destruct (Peek_spec cp) as (-> & Hpp & -> & _). symmetry in Hn. apply nil_length_inv in Hn.
    rewrite bool_decide_eq_true_2 by done. by rewrite Hpp.
  - destruct (Peek_spec cp) as (-> & Hpp & -> & _). destruct (pending cp) as [|sb l] eqn:Ep; [done|].
    rewrite bool_decide_eq_false_2 by done. apply IH.
    destruct (Take_spec (peeked cp)) as (_ & -> & _). rewrite Hpp. simpl in *. lia.
Qed.

(** * MergedEnumerate *)

(** A source: its goroutine's [EnumerateBlobs] sends these items on a channel
    of capacity [buffered], then returns this. *)
Abbreviation source := (list SizedRef * res unit)%type.

(** [tooLow], given [lastSent] *)
Definition tooLow (lastSent br : Ref) : bool :=
  Valid lastSent && (bool_decide (br = lastSent) || Less br lastSent).

(** [for !peeker.Closed() && tooLow(peeker.MustPeek().Ref) { peeker.Take() }] *)
Fixpoint skipLow (fuel : nat) (lastSent : Ref) (cp : ChanPeeker) : res ChanPeeker :=
  match fuel with
  | O => Panic "out of fuel"
  | S fuel =>
      let '(cp, c) := Closed cp in
      if c then Ok cp
      else
        let '(cp, r) := MustPeek cp in
        let? sb := r in
        if tooLow lastSent (sr_ref sb) then skipLow fuel lastSent (Take cp).1 else Ok cp
  end.

(** The scan for the lowest head: the peekers after it and the lowest. *)
Fixpoint scanPeekers (lastSent : Ref) (lowest : option SizedRef) (peekers : list ChanPeeker)
    : res (list ChanPeeker * option SizedRef) :=
  match peekers with
  | [] => Ok ([], lowest)
  | cp :: peekers =>
      let? cp := skipLow (S (length (pending cp))) lastSent cp in
      let '(cp, c) := Closed cp in
      if c then
        let? (ps, low) := scanPeekers lastSent lowest peekers in Ok (cp :: ps, low)
      else
        let '(cp, r) := MustPeek cp in
        let? sb := r in
        let lowest' :=
          match lowest with
          | None => Some sb
          | Some low => if Less (sr_ref sb) (sr_ref low) then Some sb else lowest
          end in
        let? (ps, low) := scanPeekers lastSent lowest' peekers in Ok (cp :: ps, low)
  end.

(** [for nSent < limit]: what is sent, and the peekers left, for [n] more. *)
Fixpoint mergeLoop (n : nat) (lastSent : Ref) (peekers : list ChanPeeker)
    : res (list SizedRef * list ChanPeeker) :=
  match n with
  | O => Ok ([], peekers)
  | S n =>
      let? (peekers, lowest) := scanPeekers lastSent None peekers in
      match lowest with
      | None => Ok ([], peekers)
      | Some sb =>
          let? (out, peekers) := mergeLoop n (sr_ref sb) peekers in Ok (sb :: out, peekers)
      end
  end.

(** [<-errch] of each source in turn: the last error.  Nothing drains the
    channels and [subctx] is only cancelled on return. *)
Fixpoint waitErrs (retErr : gerr) (srcs : list (ChanPeeker * res unit)) : res unit :=
  match srcs with
  | [] => match retErr with None => Ok tt | Some e => Err e end
  | (cp, r) :: srcs =>
      if decide (buffered < length (Ch cp))%nat then Blocked
      else
        match r with
        | Ok _ => waitErrs retErr srcs
        | Err e => waitErrs (Some e) srcs
        | Panic p => Panic p
        | Blocked => Blocked
        end
  end.

Definition mergedEnumerate (srcs : list source) (limit : Z) : list SizedRef * res unit :=
  match mergeLoop (Z.to_nat limit) zeroRef (newPeeker <$> srcs.*1) with
  | Ok (out, peekers) => (out, waitErrs None (zip peekers srcs.*2))
  | Err e => ([], Err e)
  | Panic p => ([], Panic p)
  | Blocked => ([], Blocked)
  end.

Definition MergedEnumerateStorage {S} `{!Storage S} (c : ctx) (sources : list S) (after : gostr)
    (limit : Z) : list SizedRef * res unit :=
  mergedEnumerate ((fun s => st_EnumerateBlobs s c after limit) <$> sources) limit.

(** * The reference merge of sorted lists *)

Fixpoint lowestHead (low : option SizedRef) (ls : list (list SizedRef)) : option SizedRef :=
  match ls with
  | [] => low
  | [] :: ls => lowestHead low ls
  | (sb :: _) :: ls =>
      lowestHead (match low with
                  | None => Some sb
                  | Some l => if decide (sized_lt sb l) then Some sb else low
                  end) ls
  end.

Definition dropHead (sb : SizedRef) (l : list SizedRef) : list SizedRef :=
  match l with
  | x :: l' => if decide (sr_ref x = sr_ref sb) then l' else l
  | [] => []
  end.

Fixpoint mergeN (n : nat) (ls : list (list SizedRef)) : list SizedRef :=
  match n with
  | O => []
  | S n =>
      match lowestHead None ls with
      | None => []
      | Some sb => sb :: mergeN n (dropHead sb <$> ls)
      end
  end.

Lemma lowestHead_take n low ls : lowestHead low (take (S n) <$> ls) = lowestHead low ls.
Proof. revert low. induction ls as [|[|sb l] ls IH]; intros low; simpl; auto. Qed.

Lemma take_dropHead n sb l : take n (dropHead sb (take (S n) l)) = take n (dropHead sb l).
Proof.
  destruct l as [|x l]; simpl; [done|].
  destruct (decide (sr_ref x = sr_ref sb)).
  - by rewrite take_take, Nat.min_id.
  - change (x :: take n l) with (take (S n) (x :: l)). rewrite take_take. f_equal. lia.
Qed.

Lemma mergeN_take n ls : mergeN n (take n <$> ls) = mergeN n ls.
Proof.
  revert ls. induction n as [|n IH]; intros ls; [done|]. simpl mergeN.
  rewrite lowestHead_take. destruct (lowestHead None ls) as [sb|]; [|done]. f_equal.
  rewrite <- (IH (dropHead sb <$> ls)), <- (IH (dropHead sb <$> (take (S n) <$> ls))).
  f_equal. rewrite <- !list_fmap_compose. apply list_fmap_ext. intros i l _. simpl. apply take_dropHead.
Qed.

(** Good sorted lists, as enumerations are. *)
Definition goodList (l : list SizedRef) : Prop :=
  StronglySorted sized_lt l /\ Forall (fun sb => goodRef (sr_ref sb)) l.

Lemma goodList_cons sb l :
  goodList (sb :: l) <-> Forall (sized_lt sb) l /\ goodRef (sr_ref sb) /\ goodList l.
Proof. unfold goodList. rewrite StronglySorted_cons, Forall_cons. tauto. Qed.

Lemma goodList_dropHead sb l : goodList l -> goodList (dropHead sb l).
Proof.
  destruct l as [|x l]; simpl; [done|]. intros Hl. destruct (decide _); [|done].
  apply goodList_cons in Hl. tauto.
Qed.

(** The lowest head bounds every head, and comes first among its equals. *)
Definition headsGe (sb : SizedRef) (ls : list (list SizedRef)) : Prop :=
  forall x l, x :: l ∈ ls -> sized_le sb x.
Definition headsGt (sb : SizedRef) (ls : list (list SizedRef)) : Prop :=
  forall x l, x :: l ∈ ls -> sized_lt sb x.

Lemma sized_not_lt a b : ~ sized_lt a b -> sized_le b a.
Proof. apply str_not_lt. Qed.

Lemma lowestHead_Some low ls sb :
  lowestHead low ls = Some sb ->
  (low = Some sb /\ headsGe sb ls) \/
  (exists ls1 l ls2, ls = ls1 ++ (sb :: l) :: ls2 /\ headsGt sb ls1 /\ headsGe sb ls2 /\
     forall l0, low = Some l0 -> sized_lt sb l0).
Proof.
  revert low. induction ls as [|[|x l] ls IH]; intros low H; simpl in H.
  - left. split; [done|]. intros x l. set_solver.
  - destruct (IH low H) as [[-> Hge]|(ls1 & l' & ls2 & -> & H1 & H2 & H3)]; [left|right].
    + split; [done|]. intros x l. rewrite elem_of_cons. naive_solver.
    + exists ([] :: ls1), l', ls2. split_and!; [done| |done|done].
      intros x l. rewrite elem_of_cons. naive_solver.
  - apply IH in H as [[Hlow Hge]|(ls1 & l' & ls2 & -> & H1 & H2 & H3)].
    + destruct low as [l0|]; [destruct (decide (sized_lt x l0)) as [Hlt|Hlt]|]; simplify_eq.
      * right. exists [], l, ls. split_and!; [done|intros y l'; set_solver|done|naive_solver].
      * left. split; [done|]. intros y l'. rewrite elem_of_cons. intros [[= -> ->]|Hy]; [|by eapply Hge].
        by apply sized_not_lt.
      * right. exists [], l, ls. split_and!; [done|intros y l'; set_solver|done|done].
    + right. exists ((x :: l) :: ls1), l', ls2.
      assert (sized_lt sb x /\ forall l0, low = Some l0 -> sized_lt sb l0) as [Hx Hl].
      { destruct low as [l0|]; [|by split; [apply H3|]].
        destruct (decide (sized_lt x l0)) as [Hlt|Hlt].
        - specialize (H3 x eq_refl). split; [done|]. intros ? [= <-]. by etrans.
        - specialize (H3 l0 eq_refl). split; [|naive_solver].
          eapply str_lt_le_trans; [apply H3|by apply sized_not_lt]. }
      split_and!; [done| |done|done].
      intros y l''. rewrite elem_of_cons. intros [[= -> ->]|Hy]; [done|by eapply H1].
Qed.

Lemma lowestHead_None low ls :
  lowestHead low ls = None -> low = None /\ Forall (fun l => l = []) ls.
Proof.
  revert low. induction ls as [|[|x l] ls IH]; intros low H; simpl in H; [done| |].
  - destruct (IH low H) as [-> Hf]. by repeat constructor.
  - apply IH in H as [Hl _]. destruct low as [l0|]; [by destruct (decide (sized_lt x l0))|done].
Qed.

(** * The merge is the enumeration of the union *)

Definition szmap (l : list SizedRef) : gmap Ref Z :=
  list_to_map ((fun sb => (sr_ref sb, sr_size sb)) <$> l).

Definition unionSizes (ls : list (list SizedRef)) : gmap Ref Z := ⋃ (szmap <$> ls).

Lemma goodList_keys l : goodList l -> NoDup (sr_ref <$> l).
Proof.
  induction l as [|sb l IH]; intros Hl; simpl; [constructor|].
  apply goodList_cons in Hl as (Hf & _ & Hl). constructor; [|by apply IH].
  rewrite list_elem_of_fmap. intros (y & He & Hy). rewrite Forall_forall in Hf.
  specialize (Hf y Hy). unfold sized_lt, sizedStr in Hf. rewrite He in Hf. by apply str_lt_irrefl in Hf.
Qed.

Lemma lookup_szmap l br n : goodList l -> szmap l !! br = Some n <-> MkSizedRef br n ∈ l.
Proof.
  intros Hl. unfold szmap. rewrite <- elem_of_list_to_map.
  - rewrite list_elem_of_fmap. split.
    + intros ([br' n'] & ? & Hy). by simplify_eq/=.
    + intros Hy. by exists (MkSizedRef br n).
  - rewrite <- list_fmap_compose. by apply goodList_keys.
Qed.

Lemma goodList_good l sb : goodList l -> sb ∈ l -> goodRef (sr_ref sb).
Proof. intros [_ Hf] Hs. by eapply Forall_forall in Hf. Qed.

Lemma szmap_good l : goodList l -> goodSizes (szmap l).
Proof. intros Hl br n Hs%lookup_szmap; [|done]. by apply (goodList_good l (MkSizedRef br n)). Qed.

Lemma sizedOf_szmap l : goodList l -> sizedOf (szmap l) = l.
Proof.
  intros Hl. symmetry. apply sizedOf_unique; [by apply szmap_good|apply Hl|].
  intros [br n]. by rewrite lookup_szmap.
Qed.

Lemma lookup_unionSizes ls br n :
  unionSizes ls !! br = Some n -> exists l, l ∈ ls /\ szmap l !! br = Some n.
Proof.
  unfold unionSizes. induction ls as [|l ls IH]; simpl; [by rewrite lookup_empty|].
  rewrite lookup_union_Some_raw. intros [Hl|[_ Hl]]; [exists l; set_solver|].
  destruct (IH Hl) as (l' & ? & ?). exists l'. set_solver.
Qed.

Lemma lookup_unionSizes_None ls br :
  (forall l, l ∈ ls -> szmap l !! br = None) -> unionSizes ls !! br = None.
Proof.
  intros Hn. apply eq_None_not_Some. intros [n (l & Hl & Hs)%lookup_unionSizes].
  by rewrite Hn in Hs.
Qed.

Lemma unionSizes_cons l ls : unionSizes (l :: ls) = szmap l ∪ unionSizes ls.
Proof. done. Qed.

Lemma unionSizes_app ls1 ls2 : unionSizes (ls1 ++ ls2) = unionSizes ls1 ∪ unionSizes ls2.
Proof.
  induction ls1 as [|l ls1 IH]; [symmetry; apply (left_id_L ∅ (∪))|].
  cbn [app]. by rewrite !unionSizes_cons, IH, (assoc_L (∪)).
Qed.

Definition goodLists (ls : list (list SizedRef)) : Prop := forall l, l ∈ ls -> goodList l.

Lemma unionSizes_good ls : goodLists ls -> goodSizes (unionSizes ls).
Proof. intros Hg br n (l & Hl & Hs)%lookup_unionSizes. by apply (szmap_good l (Hg l Hl) br n). Qed.

(** The elements of a good list are at or after its head. *)
Lemma goodList_head_le x l y : goodList (x :: l) -> y ∈ x :: l -> sized_le x y.
Proof.
  intros (Hf & _ & _)%goodList_cons [->|Hy]%elem_of_cons; [apply str_le_refl|].
  rewrite Forall_forall in Hf. by apply str_lt_le, Hf.
Qed.

Lemma headsGe_elem sb ls l y : goodLists ls -> headsGe sb ls -> l ∈ ls -> y ∈ l -> sized_le sb y.
Proof.
  intros Hg Hh Hl Hy. destruct l as [|x l]; [set_solver|].
  etrans; [by eapply Hh|]. eapply goodList_head_le; [by apply Hg|done].
Qed.

Lemma headsGt_None sb ls : goodLists ls -> headsGt sb ls -> unionSizes ls !! sr_ref sb = None.
Proof.
  intros Hg Hh. apply lookup_unionSizes_None. intros l Hl. apply eq_None_not_Some.
  intros [n Hn%lookup_szmap]; [|by apply Hg]. destruct l as [|x l]; [set_solver|].
  assert (sized_lt sb (MkSizedRef (sr_ref sb) n)) as Hlt.
  { eapply str_lt_le_trans; [by eapply Hh|]. eapply goodList_head_le; [by apply Hg|done]. }
  by apply str_lt_irrefl in Hlt.
Qed.

Lemma szmap_dropHead sb l :
  goodRef (sr_ref sb) -> goodList l -> (forall y, y ∈ l -> sized_le sb y) ->
  szmap (dropHead sb l) = delete (sr_ref sb) (szmap l).
Proof.
  intros Hsb Hl Hge. apply map_eq. intros br. apply option_eq. intros n.
  rewrite lookup_szmap by by apply goodList_dropHead. rewrite lookup_delete_Some, lookup_szmap by done.
  destruct l as [|x l]; simpl; [set_solver|].
  pose proof Hl as (Hf & Hx & Hl')%goodList_cons. rewrite Forall_forall in Hf.
  destruct (decide (sr_ref x = sr_ref sb)) as [He|Hne].
  - rewrite elem_of_cons. split; [|intros [Hn [<-|]]; [by simpl in He|done]].
    intros Hin. split; [|by right]. intros Hbr. specialize (Hf _ Hin).
    unfold sized_lt, sizedStr in Hf. simpl in Hf. rewrite He, Hbr in Hf. by apply str_lt_irrefl in Hf.
  - split; [|tauto]. intros Hin. split; [|done]. intros <-.
    apply Hne. apply goodRef_inj; [done|done|]. apply (anti_symm str_le).
    + apply (goodList_head_le x l _ Hl Hin).
    + apply Hge. set_solver.
Qed.

Lemma unionSizes_delete k ls : ⋃ (delete k <$> (szmap <$> ls)) = delete k (unionSizes ls).
Proof.
  induction ls as [|l ls IH]; [symmetry; apply delete_empty|].
  rewrite unionSizes_cons, delete_union, <- IH. done.
Qed.

Lemma sizedOf_cons sz sb :
  goodSizes sz -> sz !! sr_ref sb = Some (sr_size sb) ->
  (forall y, y ∈ sizedOf sz -> sized_le sb y) ->
  sizedOf sz = sb :: sizedOf (delete (sr_ref sb) sz).
Proof.
  intros Hg Hsb Hge. symmetry.
  assert (goodSizes (delete (sr_ref sb) sz)) as Hg'.
  { intros br n [_ Hn]%lookup_delete_Some. by eapply Hg. }
  apply sizedOf_unique; [done| |].
  - rewrite StronglySorted_cons. split; [|by apply sizedOf_sorted].
    apply Forall_forall. intros y Hy%elem_of_sizedOf. apply lookup_delete_Some in Hy as [Hne Hy].
    destruct (proj1 (str_le_lt_eq _ _) (Hge y (proj2 (elem_of_sizedOf _ _) Hy))) as [|He]; [done|].
    destruct Hne. apply goodRef_inj; [by eapply Hg..|done].
  - intros [br n]. rewrite elem_of_cons, elem_of_sizedOf, lookup_delete_Some. simpl.
    destruct (decide (br = sr_ref sb)) as [->|Hne].
    + rewrite Hsb. destruct sb; simpl. naive_solver.
    + split; [intros [<-|]; [done|tauto]|]. intros Hn. right. by split.
Qed.

Lemma mergeN_sizedOf n ls : goodLists ls -> mergeN n ls = take n (sizedOf (unionSizes ls)).
Proof.
  revert ls. induction n as [|n IH]; intros ls Hg; [done|]. simpl mergeN.
  destruct (lowestHead None ls) as [sb|] eqn:El.
  - apply lowestHead_Some in El as [[? _]|(ls1 & l & ls2 & -> & H1 & H2 & _)]; [done|].
    assert (goodList (sb :: l)) as Hl by (apply Hg; set_solver).
    assert (goodRef (sr_ref sb)) as Hsb by (by apply goodList_cons in Hl as (_ & ? & _)).
    assert (headsGe sb (ls1 ++ (sb :: l) :: ls2)) as Hge.
    { intros x l'. rewrite elem_of_app, elem_of_cons.
      intros [Hx|[[= -> ->]|Hx]]; [by eapply str_lt_le, H1|apply str_le_refl|by eapply H2]. }
    rewrite IH by (intros l' (l0 & -> & Hl0)%list_elem_of_fmap; by apply goodList_dropHead, Hg).
    rewrite (sizedOf_cons (unionSizes (ls1 ++ (sb :: l) :: ls2)) sb); [|by apply unionSizes_good| |].
    + simpl. do 2 f_equal. rewrite <- unionSizes_delete. unfold unionSizes.
      f_equal. f_equal. rewrite <- !list_fmap_compose. apply list_fmap_ext.
      intros i l0 Hl0%list_elem_of_lookup_2. simpl. apply szmap_dropHead; [done|by apply Hg|].
      intros y Hy. by eapply headsGe_elem.
    + rewrite unionSizes_app, lookup_union_r.
      * rewrite unionSizes_cons. apply lookup_union_Some_l. apply lookup_szmap; [done|].
        destruct sb. apply elem_of_cons. by left.
      * apply headsGt_None; [|done]. intros l' Hl'. apply Hg. set_solver.
    + intros [br m] (l0 & Hl0 & Hs)%elem_of_sizedOf%lookup_unionSizes.
      apply lookup_szmap in Hs; [|by apply Hg]. by eapply headsGe_elem.
  - apply lowestHead_None in El as [_ Hf]. rewrite <- (sizedOf_unique (unionSizes ls) []); [by destruct n|..].
    + by apply unionSizes_good.
    + constructor.
    + intros sb. split; [set_solver|]. intros (l & Hl & Hs)%lookup_unionSizes.
      rewrite Forall_forall in Hf. rewrite (Hf l Hl) in Hs. done.
Qed.

(** * The code's loop is the reference merge *)

(** A closed peeker has an empty channel. *)
Definition wfPeeker (cp : ChanPeeker) : Prop := closed cp = true -> Ch cp = [].

Lemma wfPeeker_new l : wfPeeker (newPeeker l).
Proof. done. Qed.

Lemma wfPeeker_peeked cp : wfPeeker cp -> wfPeeker (peeked cp).
Proof. unfold wfPeeker, peeked, Peek. by destruct cp as [[|v ch] [] [sb|]]; simpl. Qed.

Lemma wfPeeker_Take cp : wfPeeker cp -> wfPeeker (Take cp).1.
Proof. unfold wfPeeker, Take, Peek. by destruct cp as [[|v ch] [] [sb|]]; simpl. Qed.

Lemma wfPeeker_nil cp : wfPeeker cp -> pending cp = [] -> Ch cp = [].
Proof. unfold wfPeeker, pending. destruct cp as [ch [] [sb|]]; simpl; auto; done. Qed.

Lemma wfPeeker_length cp : wfPeeker cp -> (length (Ch cp) <= length (pending cp))%nat.
Proof.
  unfold wfPeeker, pending. destruct cp as [ch [] [sb|]]; simpl; try lia; intros H; by rewrite H.
Qed.

Fixpoint effList (lastSent : Ref) (l : list SizedRef) : list SizedRef :=
  match l with
  | [] => []
  | sb :: l' => if tooLow lastSent (sr_ref sb) then effList lastSent l' else l
  end.

Lemma Closed_spec cp : Closed cp = (peeked cp, bool_decide (pending cp = [])).
Proof. unfold Closed. destruct (Peek_spec cp) as (-> & _ & -> & _). done. Qed.

Lemma skipLow_spec fuel lastSent cp :
  wfPeeker cp -> (length (pending cp) < fuel)%nat ->
  exists cp', skipLow fuel lastSent cp = Ok cp' /\ wfPeeker cp' /\
    pending cp' = effList lastSent (pending cp).
Proof.
  revert cp. induction fuel as [|fuel IH]; intros cp Hwf Hf; [lia|]. simpl. rewrite Closed_spec.
  destruct (Peek_spec cp) as (_ & Hpp & _). pose proof (wfPeeker_peeked cp Hwf) as Hwf1.
  destruct (pending cp) as [|sb l] eqn:Ep; simpl in *.
  - exists (peeked cp). by split_and!.
  - rewrite (MustPeek_spec _ sb l Hpp). simpl.
    destruct (Peek_spec (peeked cp)) as (_ & Hppp & _). pose proof (wfPeeker_peeked _ Hwf1) as Hwf2.
    destruct (tooLow lastSent (sr_ref sb)).
    + destruct (Take_spec (peeked (peeked cp))) as (_ & Ht & _). rewrite Hppp, Hpp in Ht. simpl in Ht.
      destruct (IH (Take (peeked (peeked cp))).1) as (cp' & Hs & Hw & Hp').
      { by apply wfPeeker_Take. }
      { rewrite Ht. lia. }
      exists cp'. by rewrite Hp', Ht.
    + exists (peeked (peeked cp)). by rewrite Hppp, Hpp.
Qed.

#[local] Arguments skipLow : simpl never.

Lemma effList_suffix lastSent l : effList lastSent l `suffix_of` l.
Proof.
  induction l as [|sb l IH]; simpl; [done|]. destruct (tooLow _ _); [|done]. by apply suffix_cons_r.
Qed.

Lemma goodList_suffix l l' : l' `suffix_of` l -> goodList l -> goodList l'.
Proof.
  intros [k ->]. induction k as [|x k IH]; simpl; [done|]. intros (_ & _ & H)%goodList_cons. auto.
Qed.

Lemma goodList_effList lastSent l : goodList l -> goodList (effList lastSent l).
Proof. apply goodList_suffix, effList_suffix. Qed.

Lemma Less_sized a b : goodRef (sr_ref a) -> goodRef (sr_ref b) ->
  Less (sr_ref a) (sr_ref b) = bool_decide (sized_lt a b).
Proof. intros. by rewrite Less_good. Qed.

Lemma effList_dropHead sb l :
  goodRef (sr_ref sb) -> goodList l -> (forall y, y ∈ l -> sized_le sb y) ->
  effList (sr_ref sb) l = dropHead sb l.
Proof.
  intros Hsb Hl Hge. destruct l as [|x l]; [done|]. simpl.
  pose proof Hl as (Hf & Hx & Hl')%goodList_cons. rewrite Forall_forall in Hf. unfold tooLow.
  rewrite (refWf_Valid (sr_ref sb)) by apply Hsb.
  assert (forall y, goodRef (sr_ref y) -> sized_le sb y -> Less (sr_ref y) (sr_ref sb) = false) as Hless.
  { intros y Hy Hle. rewrite Less_sized by done. apply bool_decide_eq_false_2. by apply str_not_lt. }
  rewrite Hless by (done || apply Hge; set_solver). rewrite orb_false_r. simpl.
  destruct (decide (sr_ref x = sr_ref sb)) as [He|Hne];
    [rewrite bool_decide_eq_true_2 by done|by rewrite bool_decide_eq_false_2].
  destruct l as [|y l]; [done|]. simpl. unfold tooLow. pose proof Hl' as (_ & Hy & _)%goodList_cons.
  rewrite Hless by (done || apply Hge; set_solver).
  rewrite (refWf_Valid (sr_ref sb)) by apply Hsb. rewrite bool_decide_eq_false_2; [done|].
  intros Hy'. specialize (Hf y ltac:(set_solver)). unfold sized_lt, sizedStr in Hf.
  rewrite Hy', He in Hf. by apply str_lt_irrefl in Hf.
Qed.

Definition pendings (ps : list ChanPeeker) : list (list SizedRef) := pending <$> ps.

Lemma scanPeekers_spec lastSent low ps :
  Forall wfPeeker ps -> goodLists (pendings ps) ->
  (forall sb, low = Some sb -> goodRef (sr_ref sb)) ->
  exists ps', scanPeekers lastSent low ps = Ok (ps', lowestHead low (effList lastSent <$> pendings ps)) /\
    Forall wfPeeker ps' /\ pendings ps' = effList lastSent <$> pendings ps.
Proof.
  intros Hwf. revert low. induction Hwf as [|cp ps Hcp Hwf IH]; intros low Hg Hlow.
  { by exists []. }
  simpl. destruct (skipLow_spec (S (length (pending cp))) lastSent cp Hcp ltac:(lia)) as (cp' & -> & Hw & Hp).
  simpl. rewrite Closed_spec. destruct (Peek_spec cp') as (_ & Hpp & _).
  pose proof (wfPeeker_peeked cp' Hw) as Hw1.
  assert (goodLists (pendings ps)) as Hg' by (intros l Hl; apply Hg; set_solver).
  assert (goodList (effList lastSent (pending cp))) as Hge
    by (apply goodList_effList, Hg; unfold pendings; set_solver).
  destruct (effList lastSent (pending cp)) as [|sb l] eqn:El.
  - rewrite bool_decide_eq_true_2 by done.
    destruct (IH low Hg' Hlow) as (ps' & -> & Hws & Hps). simpl. eexists. split_and!; [done|by constructor|].
    change (pending (peeked cp') :: pendings ps' = [] :: (effList lastSent <$> pendings ps)).
    by rewrite Hps, Hpp, Hp.
  - rewrite bool_decide_eq_false_2 by by rewrite Hp. rewrite Hp in Hpp.
    rewrite (MustPeek_spec _ sb l Hpp). simpl. destruct (Peek_spec (peeked cp')) as (_ & Hppp & _).
    pose proof Hge as (_ & Hsb & _)%goodList_cons.
    set (low' := match low with None => Some sb | Some l0 => _ end).
    assert (low' = match low with None => Some sb
                   | Some l0 => if decide (sized_lt sb l0) then Some sb else low end) as ->.
    { unfold low'. destruct low as [l0|]; [|done]. rewrite Less_sized by auto.
      destruct (decide (sized_lt sb l0));
        [by rewrite bool_decide_eq_true_2|by rewrite bool_decide_eq_false_2]. }
    edestruct IH as (ps' & -> & Hws & Hps); [done| |].
    { intros s. destruct low as [l0|]; [destruct (decide (sized_lt sb l0))|]; naive_solver. }
    simpl. eexists. split_and!; [done|constructor; [by apply wfPeeker_peeked|done]|].
    change (pending (peeked (peeked cp')) :: pendings ps' =
      (sb :: l) :: (effList lastSent <$> pendings ps)).
    by rewrite Hps, Hppp, Hpp.
Qed.

Lemma lowestHead_ge ls sb :
  lowestHead None ls = Some sb -> headsGe sb ls /\ exists l, sb :: l ∈ ls.
Proof.
  intros [[? _]|(ls1 & l & ls2 & -> & H1 & H2 & _)]%lowestHead_Some; [done|]. split; [|exists l; set_solver].
  intros x l'. rewrite elem_of_app, elem_of_cons.
  intros [Hx|[[= -> ->]|Hx]]; [by eapply str_lt_le, H1|apply str_le_refl|by eapply H2].
Qed.

Lemma goodLists_effList lastSent ls : goodLists ls -> goodLists (effList lastSent <$> ls).
Proof. intros Hg l (l0 & -> & Hl0)%list_elem_of_fmap. by apply goodList_effList, Hg. Qed.

Lemma mergeLoop_spec n lastSent ps :
  Forall wfPeeker ps -> goodLists (pendings ps) ->
  exists ps', mergeLoop n lastSent ps = Ok (mergeN n (effList lastSent <$> pendings ps), ps') /\
    length ps' = length ps /\
    ((length (mergeN n (effList lastSent <$> pendings ps)) < n)%nat -> Forall (fun cp => Ch cp = []) ps').
Proof.
  revert lastSent ps. induction n as [|n IH]; intros lastSent ps Hwf Hg.
  { exists ps. split_and!; [done..|simpl; lia]. }
  cbn [mergeLoop mergeN].
  destruct (scanPeekers_spec lastSent None ps Hwf Hg) as (ps1 & -> & Hwf1 & Hp1); [done|].
  pose proof (goodLists_effList lastSent _ Hg) as Hg1. simpl rbind.
  pose proof (f_equal length Hp1) as Hlen. unfold pendings in Hlen. rewrite !length_fmap in Hlen.
  destruct (lowestHead None (effList lastSent <$> pendings ps)) as [sb|] eqn:El.
  - apply lowestHead_ge in El as (Hge & l & Hl).
    assert (goodRef (sr_ref sb)) as Hsb by (by apply Hg1, goodList_cons in Hl as (_ & ? & _)).
    rewrite <- Hp1 in Hg1. destruct (IH (sr_ref sb) ps1 Hwf1 Hg1) as (ps2 & Hm & Hl2 & He).
    assert (effList (sr_ref sb) <$> pendings ps1 = dropHead sb <$> (effList lastSent <$> pendings ps)) as Hd.
    { rewrite <- Hp1. apply list_fmap_ext. intros i l0 Hl0%list_elem_of_lookup_2.
      apply effList_dropHead; [done|by apply Hg1|]. intros y Hy. rewrite Hp1 in Hg1, Hl0.
      by eapply headsGe_elem. }
    rewrite Hd in Hm, He. rewrite Hm. simpl. exists ps2. split_and!; [done|congruence|].
    intros Hlt. apply He. lia.
  - apply lowestHead_None in El as [_ Hf]. exists ps1. split_and!; [done..|].
    intros _. rewrite <- Hp1 in Hf. clear -Hf Hwf1. unfold pendings in Hf. rewrite Forall_fmap in Hf.
    induction Hf as [|cp ps1 Hcp Hf IH]; inversion_clear Hwf1; constructor; [by apply wfPeeker_nil|by apply IH].
Qed.

Lemma effList_zero (ls : list (list SizedRef)) : effList zeroRef <$> ls = ls.
Proof.
  rewrite <- (list_fmap_id ls) at 2. apply list_fmap_ext. intros i l _. by destruct l.
Qed.

Lemma pendings_new (ls : list (list SizedRef)) : pendings (newPeeker <$> ls) = ls.
Proof. unfold pendings. rewrite <- list_fmap_compose. rewrite <- (list_fmap_id ls) at 2. by apply list_fmap_ext. Qed.

(** The merge itself: always succeeds, and is the start of the union. *)
Lemma merge_sent srcs limit :
  goodLists srcs.*1 ->
  (mergedEnumerate srcs limit).1 = take (Z.to_nat limit) (sizedOf (unionSizes srcs.*1)) /\
  exists ps, length ps = length srcs /\
    (mergedEnumerate srcs limit).2 = waitErrs None (zip ps srcs.*2) /\
    ((length (sizedOf (unionSizes srcs.*1)) < Z.to_nat limit)%nat -> Forall (fun cp => Ch cp = []) ps).
Proof.
  intros Hg. unfold mergedEnumerate.
  destruct (mergeLoop_spec (Z.to_nat limit) zeroRef (newPeeker <$> srcs.*1)) as (ps & -> & Hl & He).
  { apply Forall_fmap, Forall_true. done. }
  { by rewrite pendings_new. }
  rewrite pendings_new, effList_zero in *. rewrite mergeN_sizedOf in * by done. split; [done|].
  exists ps. rewrite !length_fmap in Hl. split_and!; [done..|].
  intros Hlt. apply He. rewrite length_take. lia.
Qed.

Lemma waitErrs_spec retErr srcs :
  Forall (fun x => match x.2 with Panic _ => False | _ => True end) srcs ->
  match waitErrs retErr srcs with
  | Ok _ => retErr = None /\ Forall (fun x => x.2 = Ok tt) srcs
  | Err e => retErr = Some e \/ exists x, x ∈ srcs /\ x.2 = Err e
  | Panic _ => False
  | Blocked => Exists (fun x => (buffered < length (Ch x.1))%nat \/ x.2 = Blocked) srcs
  end.
Proof.
  revert retErr. induction srcs as [|[cp r] srcs IH]; intros retErr Hf; simpl.
  { destruct retErr; auto. }
  apply Forall_cons in Hf as [Hr Hf]. simpl in Hr.
  destruct (decide (buffered < length (Ch cp))%nat) as [Hb|Hb]; [constructor; by left|].
  destruct r as [[]|e|p|]; [| |done|constructor; by right].
  - specialize (IH retErr Hf). destruct (waitErrs retErr srcs); [|destruct IH as [|(x & ? & ?)]; [by left|right; exists x; set_solver]|done|by right].
    destruct IH. by repeat constructor.
  - specialize (IH (Some e) Hf). destruct (waitErrs (Some e) srcs); [by destruct IH| |done|by right].
    right. destruct IH as [[= ->]|(x & ? & ?)]; [exists (cp, Err e0)|exists x]; set_solver.
Qed.

(** * Merging storages *)

Lemma goodList_enumAfter m after : goodBlobs m -> goodList (enumAfter m after).
Proof.
  intros Hm. split; [by apply enumAfter_sorted|]. apply Forall_forall.
  intros sb (_ & d & Hd & _)%elem_of_enumAfter. by eapply Hm.
Qed.

Lemma goodList_take n l : goodList l -> goodList (take n l).
Proof.
  revert n. induction l as [|sb l IH]; intros [|n] Hl; simpl; [done|done|by split; constructor|].
  apply goodList_cons in Hl as (Hf & Hs & Hl). apply goodList_cons. split_and!; [by apply Forall_take|done|auto].
Qed.

Lemma lookup_szmap_enumAfter m after br :
  goodBlobs m ->
  szmap (enumAfter m after) !! br = if decide (str_lt after (RefString br)) then sizes m !! br else None.
Proof.
  intros Hm. apply option_eq. intros n. rewrite lookup_szmap by by apply goodList_enumAfter.
  rewrite elem_of_enumAfter. unfold sizedStr, sizes; simpl.
  destruct (decide _); [|naive_solver]. rewrite lookup_fmap, fmap_Some. naive_solver.
Qed.

Lemma goodBlobs_union_list ms : (forall m, m ∈ ms -> goodBlobs m) -> goodBlobs (⋃ ms).
Proof.
  induction ms as [|m ms IH]; intros Hg br d; simpl; [by rewrite lookup_empty|].
  rewrite lookup_union_Some_raw. intros [Hd|[_ Hd]]; [by apply (Hg m ltac:(set_solver) br d)|].
  eapply IH; [|exact Hd]. set_solver.
Qed.

Lemma union_enumAfter ms after :
  (forall m, m ∈ ms -> goodBlobs m) ->
  sizedOf (unionSizes ((fun m => enumAfter m after) <$> ms)) = enumAfter (⋃ ms) after.
Proof.
  intros Hg. assert (forall br, unionSizes ((fun m => enumAfter m after) <$> ms) !! br =
    if decide (str_lt after (RefString br)) then sizes (⋃ ms) !! br else None) as Hl.
  { intros br. induction ms as [|m ms IH]; [by destruct (decide _)|].
    rewrite fmap_cons, unionSizes_cons, lookup_union, lookup_szmap_enumAfter, IH by set_solver.
    unfold sizes. simpl. rewrite map_fmap_union, lookup_union. by destruct (decide _). }
  symmetry. apply sizedOf_unique.
  - apply unionSizes_good. intros l (m & -> & Hm)%list_elem_of_fmap. by apply goodList_enumAfter, Hg.
  - by apply enumAfter_sorted, goodBlobs_union_list.
  - intros [br n]. rewrite elem_of_enumAfter, Hl. unfold sizedStr, sizes; simpl.
    destruct (decide _); [|naive_solver]. rewrite lookup_fmap, fmap_Some. naive_solver.
Qed.

Lemma merged_result (srcs : list source) limit :
  goodLists srcs.*1 -> Forall (fun x : source => match x.2 with Ok _ | Err _ => True | _ => False end) srcs ->
  let r := (mergedEnumerate srcs limit).2 in
  match r with
  | Ok _ => Forall (fun x : source => x.2 = Ok tt) srcs
  | Err e => exists x : source, x ∈ srcs /\ x.2 = Err e
  | Panic _ => False
  | Blocked => ~ (length (sizedOf (unionSizes srcs.*1)) < Z.to_nat limit)%nat
  end.
Proof.
  intros Hg Hres. destruct (merge_sent srcs limit Hg) as (_ & ps & Hlen & Hr & Hdone).
  assert (length ps = length srcs.*2) as Hlen2 by by rewrite length_fmap.
  assert (forall x, x ∈ zip ps srcs.*2 -> exists y : source, y ∈ srcs /\ x.2 = y.2) as Hzip.
  { intros [cp r'] Hx%elem_of_zip_r. apply list_elem_of_fmap in Hx as (y & -> & Hy). by exists y. }
  rewrite Forall_forall in Hres. simpl. rewrite Hr.
  pose proof (waitErrs_spec None (zip ps srcs.*2)) as Hw. ospecialize* Hw.
  { apply Forall_forall. intros x (y & Hy & ->)%Hzip. by specialize (Hres y Hy); destruct y.2. }
  destruct (waitErrs _ _) as [[]|e|p|].
  - destruct Hw as [_ Hw].
    apply Forall_forall. intros y Hy. rewrite Forall_forall in Hw.
    assert (y.2 ∈ (zip ps srcs.*2).*2) as Hy2 by (rewrite snd_zip by lia; by apply list_elem_of_fmap_2).
    apply list_elem_of_fmap in Hy2 as (x & -> & Hx). by apply Hw.
  - destruct Hw as [|(x & (y & Hy & He')%Hzip & He)]; [done|]. exists y. by rewrite <- He'.
  - done.
  - intros Hlt. specialize (Hdone Hlt). rewrite Forall_forall in Hdone.
    apply Exists_exists in Hw as ([cp r] & Hx & [Hb|Hb]); simpl in Hb.
    + apply elem_of_zip_l in Hx. rewrite (Hdone cp Hx) in Hb. simpl in Hb. lia.
    + apply Hzip in Hx as (y & Hy & He). specialize (Hres y Hy). rewrite <- He in Hres. by subst r.
Qed.

Section merged.
Context {S : Type} `{StorageLaws S}.

Lemma enum_law_ok (s : S) c after limit :
  st_wf s -> 0 < limit -> (st_EnumerateBlobs s c after limit).2 = Ok tt ->
  (st_EnumerateBlobs s c after limit).1 = take (Z.to_nat limit) (enumAfter (st_view s) after).
Proof.
  intros Hwf Hl Hr. destruct (st_EnumerateBlobs s c after limit) as [out r] eqn:E; simpl in *. subst r.
  apply st_EnumerateBlobs_law in E; done.
Qed.

Lemma enum_law_good (s : S) c after limit :
  st_wf s -> 0 < limit -> goodList (st_EnumerateBlobs s c after limit).1.
Proof.
  intros Hwf Hl. destruct (st_EnumerateBlobs s c after limit) as [out r] eqn:E; simpl.
  apply st_EnumerateBlobs_law in E; [|done..].
  pose proof (goodList_take (Z.to_nat limit) _ (goodList_enumAfter _ after (st_wf_good s Hwf))) as Hg.
  destruct r as [[]|e|p|]; [by subst| |done..]. destruct E as [k Hk]. unfold enumSpec in Hk. rewrite Hk in Hg.
  rewrite <- (take_app_length out k). by apply goodList_take.
Qed.

Lemma enum_law_res (s : S) c after limit :
  st_wf s -> 0 < limit ->
  match (st_EnumerateBlobs s c after limit).2 with Ok _ | Err _ => True | _ => False end.
Proof.
  intros Hwf Hl. destruct (st_EnumerateBlobs s c after limit) as [out r] eqn:E; simpl.
  apply st_EnumerateBlobs_law in E; [|done..]. by destruct r.
Qed.

Abbreviation outputs c sources after limit :=
  ((fun s => st_EnumerateBlobs s c after limit) <$> sources).

Lemma merged_take (sources : list S) c after limit :
  Forall st_wf sources -> 0 < limit -> Forall (fun x : source => x.2 = Ok tt) (outputs c sources after limit) ->
  take (Z.to_nat limit) (sizedOf (unionSizes (outputs c sources after limit).*1)) =
    enumSpec (⋃ (st_view <$> sources)) after limit.
Proof.
  intros Hwf Hl Hok. rewrite Forall_forall in Hwf. rewrite Forall_fmap, Forall_forall in Hok.
  assert ((outputs c sources after limit).*1 =
    take (Z.to_nat limit) <$> ((fun m => enumAfter m after) <$> (st_view <$> sources))) as ->.
  { rewrite <- !list_fmap_compose. apply list_fmap_ext. intros i s Hs%list_elem_of_lookup_2. simpl.
    apply enum_law_ok; [by apply Hwf|done|by apply Hok]. }
  assert (forall m, m ∈ st_view <$> sources -> goodBlobs m) as Hg.
  { intros m (s & -> & Hs)%list_elem_of_fmap. by apply st_wf_good, Hwf. }
  assert (goodLists ((fun m => enumAfter m after) <$> (st_view <$> sources))) as Hgl.
  { intros l (m & -> & Hm)%list_elem_of_fmap. by apply goodList_enumAfter, Hg. }
  rewrite <- mergeN_sizedOf.
  - rewrite mergeN_take, mergeN_sizedOf by done. by rewrite union_enumAfter.
  - intros l (l0 & -> & Hl0)%list_elem_of_fmap. by apply goodList_take, Hgl.
Qed.

Lemma merged_enumerates (sources : list S) (c : ctx) (after : gostr) (limit : Z) :
  Forall st_wf sources -> 0 < limit ->
  let outs := outputs c sources after limit in
  let U := ⋃ (st_view <$> sources) in
  let '(out, r) := MergedEnumerateStorage c sources after limit in
  (Forall (fun x : source => x.2 = Ok tt) outs ->
     out = enumSpec U after limit /\ (r = Ok tt \/ r = Blocked) /\
     ((length (enumAfter U after) < Z.to_nat limit)%nat -> r = Ok tt)) /\
  (r = Ok tt -> Forall (fun x : source => x.2 = Ok tt) outs) /\
  (forall e, r = Err e -> exists x : source, x ∈ outs /\ x.2 = Err e) /\
  (forall p, r ≠ Panic p).
Proof.
  intros Hwf Hl outs U. pose proof Hwf as Hwf'. rewrite Forall_forall in Hwf'.
  assert (goodLists outs.*1) as Hg.
  { intros l (x & -> & (s & -> & Hs)%list_elem_of_fmap)%list_elem_of_fmap. by apply enum_law_good; auto. }
  destruct (merge_sent outs limit Hg) as (Hsent & _).
  assert (Forall (fun x : source => match x.2 with Ok _ | Err _ => True | _ => False end) outs) as Hres.
  { apply Forall_fmap, Forall_forall. intros s Hs. by apply enum_law_res; auto. }
  pose proof (merged_result outs limit Hg Hres) as Hr. simpl in Hr.
  unfold MergedEnumerateStorage. fold outs.
  destruct (mergedEnumerate outs limit) as [out r]; simpl in *.
  split_and!; [|intros ->; done|intros e ->; done|intros p ->; done].
  intros Hok. pose proof (merged_take sources c after limit Hwf Hl Hok) as Ht. fold outs in Ht.
  rewrite Ht in Hsent. assert (r = Ok tt \/ r = Blocked) as Hr'.
  { destruct r as [[]|e|p|]; [by left| |done|by right]. destruct Hr as (x & Hx & He).
    rewrite Forall_forall in Hok. rewrite (Hok x Hx) in He. done. }
  split_and!; [done..|]. intros Hlt. destruct Hr' as [|Hb]; [done|]. rewrite Hb in Hr. destruct Hr.
  apply (f_equal length) in Ht. unfold enumSpec, U in *. rewrite !length_take in Ht. lia.
Qed.

(** C31. Merging the enumerations of lawful storages: unless it blocks or a
    source fails, what is sent is exactly the enumeration of the union of
    their blobs (earlier sources first on duplicates), in order, without
    duplicates and cut at the limit, although each source was itself cut at
    the limit.  It returns nil when the union has fewer than [limit] blobs
    left and no source fails, its error is always one of a source, and it
    never panics. *)
Theorem MergedEnumerate_spec (sources : list S) (c : ctx) (after : gostr) (limit : Z) :
  Forall st_wf sources -> 0 < limit ->
  let outs := outputs c sources after limit in
  let U := ⋃ (st_view <$> sources) in
  let '(out, r) := MergedEnumerateStorage c sources after limit in
  (Forall (fun x : source => x.2 = Ok tt) outs ->
     out = enumSpec U after limit /\ (r = Ok tt \/ r = Blocked) /\
     ((length (enumAfter U after) < Z.to_nat limit)%nat -> r = Ok tt)) /\
  (r = Ok tt -> Forall (fun x : source => x.2 = Ok tt) outs) /\
  (forall e, r = Err e -> exists x : source, x ∈ outs /\ x.2 = Err e) /\
  (forall p, r ≠ Panic p).
Proof. apply merged_enumerates. Qed.
End merged.

(** Two storages of 20 blobs each, merged with limit 20: the loop ends with
    more than 8 undelivered items in a source, and the call never returns. *)
Definition exampleStore (tag : gostr) (n : nat) : blobs :=
  blobsOf ((fun i => tag ++ [zb (Z.of_nat i)]) <$> seq 0 n).

Lemma exampleStore_good tag n : glen tag < 100 -> goodBlobs (exampleStore tag n).
Proof.
  intros Hl. apply blobsOf_good, Forall_fmap, Forall_forall. intros i _. simpl.
  unfold glen in *. rewrite length_app. simpl. lia.
Qed.

Lemma MergedEnumerate_spec_witness :
  let sources := [exampleStore (gs "a") 3; exampleStore (gs "b") 2] in
  let out := MergedEnumerateStorage None sources [] 5 in
  out.1 = enumSpec (⋃ (st_view <$> sources)) [] 5.
Proof.
  pose proof (MergedEnumerate_spec [exampleStore (gs "a") 3; exampleStore (gs "b") 2] None [] 5) as Hs.
  simpl. simpl in Hs. destruct (MergedEnumerateStorage _ _ _ _) as [out r].
  destruct Hs as [Hs _]; [|lia|apply Hs; by repeat constructor].
  apply Forall_cons. split; [by apply exampleStore_good|].
  apply Forall_cons. split; [by apply exampleStore_good|constructor].
Defined.

Lemma merged_limit_blocks :
  (MergedEnumerateStorage None [exampleStore (gs "a") 20; exampleStore (gs "b") 20] [] 20).2 = Blocked.
Proof. vm_compute. reflexivity. Qed.

(** * EnumerateAllFrom *)

Section enumerateAll.
Context {S F : Type} `{!Storage S}.

(** The callback and the state it acts on. *)
Context (fn : F -> SizedRef -> F * gerr).

(** The goroutine of one batch: [fn]'s state, its error, [after] and [n]. *)
Fixpoint consumeBatch (acc : F) (after : gostr) (n : nat) (ch : list SizedRef) : F * gerr * gostr * nat :=
  match ch with
  | [] => (acc, None, after, n)
  | sb :: ch =>
      match fn acc sb with
      | (acc, err) =>
          match err with
          | Some _ => (acc, err, RefString (sr_ref sb), Datatypes.S n)   (* the rest is skipped *)
          | None => consumeBatch acc (RefString (sr_ref sb)) (Datatypes.S n) ch
          end
      end
  end.

Definition batchSize : Z := 1000.

(** The batches.  [ctxs] is the context as each call finds it; when
    [EnumerateBlobs] fails, [fn] has seen some of what it sent ([sched]). *)
Fixpoint enumerateFrom (fuel : nat) (s : S) (ctxs : nat -> ctx) (sched : nat) (after : gostr) (acc : F)
    : F * res unit :=
  match fuel with
  | O => (acc, Panic "out of fuel")
  | Datatypes.S fuel =>
      match st_EnumerateBlobs s (ctxs fuel) after batchSize with
      | (out, Err err) => ((consumeBatch acc after 0 (take sched out)).1.1.1, Err err)
      | (out, Ok _) =>
          match consumeBatch acc after 0 out with
          | (acc, Some err, _, _) => (acc, Err err)
          | (acc, None, after, n) =>
              if decide (n = 0)%nat then (acc, Ok tt) else enumerateFrom fuel s ctxs sched after acc
          end
      | (_, r) => (acc, r)
      end
  end.

Definition EnumerateAllFrom := enumerateFrom.
Definition EnumerateAll (fuel : nat) (s : S) (ctxs : nat -> ctx) (sched : nat) (acc : F) : F * res unit :=
  EnumerateAllFrom fuel s ctxs sched [] acc.

(** The reference: [fn] on each item up to its first error. *)
Fixpoint callEach (acc : F) (l : list SizedRef) : F * gerr :=
  match l with
  | [] => (acc, None)
  | sb :: l =>
      match fn acc sb with
      | (acc, Some e) => (acc, Some e)
      | (acc, None) => callEach acc l
      end
  end.

Lemma consumeBatch_spec acc after n l :
  (consumeBatch acc after n l).1.1 = callEach acc l /\
  ((callEach acc l).2 = None ->
     (consumeBatch acc after n l).1.2 = (match last l with Some sb => sizedStr sb | None => after end) /\
     (consumeBatch acc after n l).2 = (n + length l)%nat).
Proof.
  revert acc after n. induction l as [|sb l IH]; intros acc after n; cbn [consumeBatch callEach length]; [simpl; split; [done|intros _; split; [done|lia]]|].
  destruct (fn acc sb) as [acc' [e|]]; [done|].
  destruct (IH acc' (RefString (sr_ref sb)) (Datatypes.S n)) as [H1 H2]. split; [done|].
  intros Hn. destruct (H2 Hn) as [-> ->]. rewrite last_cons. split; [by destruct (last l)|lia].
Qed.

Lemma callEach_app acc l1 l2 :
  callEach acc (l1 ++ l2) =
    match callEach acc l1 with (acc, None) => callEach acc l2 | r => r end.
Proof.
  revert acc. induction l1 as [|sb l1 IH]; intros acc; simpl; [done|].
  destruct (fn acc sb) as [acc' [e|]]; [done|]. apply IH.
Qed.
End enumerateAll.

(** What follows the last item of a batch is the rest. *)
Lemma ssorted_filter_last (R : relation SizedRef) `{!Transitive R, !Irreflexive R} (P : SizedRef -> Prop)
    `{!forall x, Decision (P x)} l1 x l2 :
  (forall y, P y <-> R x y) -> StronglySorted R (l1 ++ x :: l2) -> filter P (l1 ++ x :: l2) = l2.
Proof.
  intros HP Hs. rewrite filter_app, filter_cons.
  apply StronglySorted_app in Hs as (Hcross & _ & Hs2).
  apply StronglySorted_cons in Hs2 as [Hf _].
  rewrite filter_none.
  - rewrite decide_False by (rewrite HP; apply (irreflexivity R)).
    apply filter_all. rewrite Forall_forall in *. intros y Hy. apply HP. auto.
  - apply Forall_forall. intros y Hy. rewrite HP. intros Hxy.
    apply (irreflexivity R x). transitivity y; [done|]. apply Hcross; set_solver.
Qed.

Lemma enumAfter_next m after n l sb :
  goodBlobs m -> take n (enumAfter m after) = l ++ [sb] ->
  enumAfter m (sizedStr sb) = drop n (enumAfter m after).
Proof.
  intros Hm Ht. pose proof (enumAfter_sorted m after Hm) as Hs.
  assert (enumAfter m after = l ++ sb :: drop n (enumAfter m after)) as He.
  { rewrite <- (take_drop n (enumAfter m after)) at 1. by rewrite Ht, <- app_assoc. }
  transitivity (filter (sizedAfter (sizedStr sb)) (enumAfter m after)).
  - unfold enumAfter. rewrite list_filter_filter. apply filter_ext. intros y _.
    assert (sizedAfter after sb) as Hsb.
    { assert (sb ∈ enumAfter m after) as Hin by (rewrite He; set_solver).
      by apply elem_of_enumAfter in Hin as [? _]. }
    unfold sizedAfter in *. split; [|tauto]. intros Hy. split; [done|]. by transitivity (sizedStr sb).
  - rewrite He at 1. rewrite He in Hs. by apply (ssorted_filter_last sized_lt).
Qed.

Section enumerateAll_proofs.
Context {S F : Type} `{StorageLaws S} (fn : F -> SizedRef -> F * gerr).

(** What a run over the storage [s] from [after] may return. *)
Definition enumerated (s : S) (ctxs : nat -> ctx) (after : gostr) (acc : F) (p : F * res unit) : Prop :=
  let todo := enumAfter (st_view s) after in
  match p.2 with
  | Ok _ => (p.1, None) = callEach fn acc todo
  | Err e =>
      (p.1, Some e) = callEach fn acc todo \/
      (exists k after', (st_EnumerateBlobs s (ctxs k) after' batchSize).2 = Err e) /\
      (exists l, l `prefix_of` todo /\ p.1 = (callEach fn acc l).1)
  | _ => False
  end.

(** A first batch that [fn] accepts, and a run over the rest. *)
Lemma enumerated_step s ctxs after acc acc' l rest sb p :
  enumAfter (st_view s) after = (l ++ [sb]) ++ rest ->
  enumAfter (st_view s) (sizedStr sb) = rest ->
  callEach fn acc (l ++ [sb]) = (acc', None) ->
  enumerated s ctxs (sizedStr sb) acc' p -> enumerated s ctxs after acc p.
Proof.
  unfold enumerated. intros -> -> Hb Hp. rewrite callEach_app, Hb.
  destruct p.2 as [[]|e|q|]; [done| |done..].
  destruct Hp as [Hp|[Hk (l' & [k ->] & Hl')]]; [by left|right]. split; [done|].
  exists ((l ++ [sb]) ++ l'). split; [rewrite app_assoc; by apply prefix_app_r|].
  by rewrite callEach_app, Hb.
Qed.

Lemma enumerateFrom_ok fuel s ctxs sched after acc :
  st_wf s -> (length (enumAfter (st_view s) after) < fuel)%nat ->
  enumerated s ctxs after acc (enumerateFrom fn fuel s ctxs sched after acc).
Proof.
  intros Hwf. revert after acc. induction fuel as [|fuel IH]; intros after acc Hf; [lia|].
  cbn [enumerateFrom]. pose proof (st_wf_good s Hwf) as Hg.
  destruct (st_EnumerateBlobs s (ctxs fuel) after batchSize) as [out r] eqn:E.
  pose proof E as El. apply st_EnumerateBlobs_law in El; [|done..]. unfold enumSpec in El.
  destruct r as [[]|e|q|]; [| |done..].
  - destruct (consumeBatch_spec fn acc after 0 out) as [H1 H2].
    destruct (consumeBatch fn acc after 0 out) as [[[acc' err] after'] n]; simpl in H1, H2.
    rewrite <- H1 in H2. destruct err as [e|].
    + left. simpl. rewrite <- (take_drop (Z.to_nat batchSize) (enumAfter _ after)), callEach_app, <- El.
      by rewrite <- H1.
    + destruct (H2 eq_refl) as [-> ->]. simpl. destruct (decide (length out = 0)%nat) as [H0|H0].
      * apply nil_length_inv in H0. subst out. symmetry in H0.
        assert (enumAfter (st_view s) after = []) as Hn.
        { destruct (enumAfter (st_view s) after); [done|by simpl in H0]. }
        unfold enumerated. simpl. by rewrite Hn, H0.
      * destruct (exists_last (l := out)) as (l & sb & Hout); [by destruct out|].
        rewrite Hout, last_snoc. rewrite Hout in El. symmetry in El.
        pose proof (enumAfter_next _ _ _ _ _ Hg El) as Hnext.
        eapply enumerated_step; [|exact Hnext|by rewrite <- Hout; symmetry|].
        -- by rewrite <- El, take_drop.
        -- apply IH. rewrite Hnext, length_drop. unfold batchSize.
           assert (0 < length out)%nat by lia. rewrite Hout, <- El, length_take in *. lia.
  - right. simpl. split; [by exists fuel, after; rewrite E|].
    exists (take sched out). split.
    + transitivity out; [apply prefix_take|]. etrans; [exact El|apply prefix_take].
    + by destruct (consumeBatch_spec fn acc after 0 (take sched out)) as [-> _].
Qed.

(** C35. [EnumerateAll] over a lawful storage, with [length + 1] rounds of fuel:
    when it returns nil the callback saw every blob exactly once and in
    order; when the callback fails it was called on the blobs up to that one
    and the error is returned; otherwise the error is one of [EnumerateBlobs]
    and the callback saw the start of the enumeration.  It always returns. *)
Theorem EnumerateAll_spec (s : S) (ctxs : nat -> ctx) (sched : nat) (acc : F) :
  st_wf s ->
  let todo := sizedAll (st_view s) in
  let '(acc', r) := EnumerateAll fn (Datatypes.S (length todo)) s ctxs sched acc in
  match r with
  | Ok _ => (acc', None) = callEach fn acc todo
  | Err e =>
      (acc', Some e) = callEach fn acc todo \/
      (exists k after, (st_EnumerateBlobs s (ctxs k) after batchSize).2 = Err e) /\
      (exists l, l `prefix_of` todo /\ acc' = (callEach fn acc l).1)
  | _ => False
  end.
Proof.
  intros Hwf todo.
  pose proof (enumAfter_nil (st_view s) (st_wf_good s Hwf)) as He. unfold todo. rewrite <- He.
  pose proof (enumerateFrom_ok (Datatypes.S (length (enumAfter (st_view s) []))) s ctxs sched [] acc Hwf
    ltac:(lia)) as Hok. unfold enumerated in Hok. unfold EnumerateAll, EnumerateAllFrom.
  destruct (enumerateFrom _ _ _ _ _ _) as [acc' [[]|e|q|]]; simpl in Hok; auto.
Qed.
End enumerateAll_proofs.

(** A callback that fails on its third call. *)
Definition exampleFn (acc : list SizedRef) (sb : SizedRef) : list SizedRef * gerr :=
  if decide (length acc = 2)%nat then (acc, Some (ErrMsg "stop")) else (acc ++ [sb], None).

Lemma EnumerateAll_spec_witness :
  let s := exampleStore (gs "a") 4 in
  let '(acc, r) := EnumerateAll exampleFn (Datatypes.S (length (sizedAll s))) s (fun _ => None) 0 [] in
  r = Err (ErrMsg "stop") /\ (acc, Some (ErrMsg "stop")) = callEach exampleFn [] (sizedAll s).
Proof.
  intros s. assert ((EnumerateAll exampleFn (Datatypes.S (length (sizedAll s))) s (fun _ => None) 0 []).2 =
    Err (ErrMsg "stop")) as Hr by (vm_compute; reflexivity).
  pose proof (EnumerateAll_spec exampleFn s (fun _ => None) 0 [] (exampleStore_good (gs "a") 4 eq_refl)) as Hs.
  change (st_view s) with s in Hs. cbn zeta in Hs.
  destruct (EnumerateAll _ _ _ _ _ _) as [acc r]. cbn [snd] in Hr. subst r.
  split; [reflexivity|]. destruct Hs as [Hs|[(k & after & Hk) _]]; [exact Hs|discriminate Hk].
Defined.

(** * ListMissingDestinationBlobs *)

Record missing := MkMissing { destMissing : list SizedRef; mismatches : list Ref }.

(** One pass of the loop: what it sends, the peekers, and whether to go on. *)
Definition listMissingStep (src dst : ChanPeeker) (m : missing)
    : res (ChanPeeker * ChanPeeker * missing * bool) :=
  let '(src, o) := Peek src in
  match o with
  | None => Ok (src, dst, m, false)
  | Some srcSized =>
      if negb (Valid (sr_ref srcSized)) then Ok (src, dst, m, false)
      else
        let '(dst, o) := Peek dst in
        match o with
        | None =>
            let '(src, r) := MustTake src in
            let? sb := r in Ok (src, dst, MkMissing (destMissing m ++ [sb]) (mismatches m), true)
        | Some _ =>
            let '(src, r) := MustPeek src in
            let? srcBlob := r in
            let '(dst, r) := MustPeek dst in
            let? dstRef := r in
            if negb (Valid (sr_ref dstRef)) then Ok (src, dst, m, false)
            else if decide (sr_ref srcBlob = sr_ref dstRef) then
              let '(src, r) := MustTake src in
              let? sb := r in
              let '(dst, r) := MustTake dst in
              let? db := r in
              Ok (src, dst,
                  (if decide (sr_size sb ≠ sr_size db)
                   then MkMissing (destMissing m) (mismatches m ++ [sr_ref sb]) else m), true)
            else if Less (sr_ref srcBlob) (sr_ref dstRef) then
              let '(src, r) := MustTake src in
              let? sb := r in Ok (src, dst, MkMissing (destMissing m ++ [sb]) (mismatches m), true)
            else if Less (sr_ref dstRef) (sr_ref srcBlob) then Ok (src, (Take dst).1, m, true)
            else Ok (src, dst, m, true)
        end
  end.

Fixpoint listMissing (fuel : nat) (src dst : ChanPeeker) (m : missing) : res missing :=
  match fuel with
  | O => Panic "out of fuel"
  | S fuel =>
      let? (src, dst, m, go) := listMissingStep src dst m in
      if go then listMissing fuel src dst m else Ok m
  end.

Definition ListMissingDestinationBlobs (fuel : nat) (srcch dstch : list SizedRef) : res missing :=
  listMissing fuel (newPeeker srcch) (newPeeker dstch) (MkMissing [] []).

(** The reference. *)
Definition missingSpec (src dst : list SizedRef) : list SizedRef :=
  filter (fun sb => sr_ref sb ∉ sr_ref <$> dst) src.
Definition mismatchSpec (src dst : list SizedRef) : list Ref :=
  sr_ref <$> filter (fun sb => sr_ref sb ∈ sr_ref <$> dst /\ sb ∉ dst) src.

Lemma listMissingStep_spec src dst m :
  listMissingStep src dst m =
    match pending src, pending dst with
    | [], _ => Ok ((Peek src).1, dst, m, false)
    | s :: _, ds =>
        if negb (Valid (sr_ref s)) then Ok (peeked src, dst, m, false)
        else
          match ds with
          | [] => Ok ((Take (peeked src)).1, peeked dst, MkMissing (destMissing m ++ [s]) (mismatches m), true)
          | d :: _ =>
              let src := peeked (peeked src) in
              let dst := peeked (peeked dst) in
              if negb (Valid (sr_ref d)) then Ok (src, dst, m, false)
              else if decide (sr_ref s = sr_ref d) then
                Ok ((Take src).1, (Take dst).1,
                  (if decide (sr_size s ≠ sr_size d)
                   then MkMissing (destMissing m) (mismatches m ++ [sr_ref s]) else m), true)
              else if Less (sr_ref s) (sr_ref d) then
                Ok ((Take src).1, dst, MkMissing (destMissing m ++ [s]) (mismatches m), true)
              else if Less (sr_ref d) (sr_ref s) then Ok (src, (Take dst).1, m, true)
              else Ok (src, dst, m, true)
          end
    end.
Proof.
  unfold listMissingStep. destruct (Peek_spec src) as (Hs & Hps & _). rewrite Hs.
  destruct (pending src) as [|s ss] eqn:Es; simpl; [done|].
  destruct (negb (Valid (sr_ref s))); [done|].
  destruct (Peek_spec dst) as (Hd & Hpd & _). rewrite Hd.
  destruct (pending dst) as [|d ds] eqn:Ed; simpl.
  - destruct (MustTake_spec _ s ss Hps) as [-> _]. done.
  - rewrite (MustPeek_spec _ s ss Hps), (MustPeek_spec _ d ds Hpd). simpl.
    destruct (negb (Valid (sr_ref d))); [done|].
    destruct (Peek_spec (peeked src)) as (_ & Hpps & _). destruct (Peek_spec (peeked dst)) as (_ & Hppd & _).
    rewrite Hps in Hpps. rewrite Hpd in Hppd.
    destruct (MustTake_spec _ s ss Hpps) as [-> _], (MustTake_spec _ d ds Hppd) as [-> _].
    done.
Qed.

Lemma sized_lt_ref_notin x l : Forall (sized_lt x) l -> sr_ref x ∉ sr_ref <$> l.
Proof.
  intros Hf (y & He & Hy)%list_elem_of_fmap. rewrite Forall_forall in Hf.
  specialize (Hf y Hy). unfold sized_lt, sizedStr in Hf. rewrite He in Hf. by apply str_lt_irrefl in Hf.
Qed.

(** A destination blob whose reference no source blob has does not matter. *)
Lemma missing_skip_dst ss d ds :
  sr_ref d ∉ sr_ref <$> ss ->
  missingSpec ss (d :: ds) = missingSpec ss ds /\ mismatchSpec ss (d :: ds) = mismatchSpec ss ds.
Proof.
  intros Hd. assert (forall sb, sb ∈ ss -> sr_ref sb ≠ sr_ref d) as Hne.
  { intros sb Hsb He. apply Hd. rewrite <- He. by apply list_elem_of_fmap_2. }
  unfold missingSpec, mismatchSpec. split; [|f_equal]; apply filter_ext; intros sb Hsb;
    rewrite fmap_cons, !elem_of_cons; specialize (Hne sb Hsb).
  - tauto.
  - split; [intros [[?|?] ?]; tauto|intros [? ?]; split; [tauto|]]. intros [->|?]; tauto.
Qed.

Lemma missing_cons_only s ss ds :
  sr_ref s ∉ sr_ref <$> ds ->
  missingSpec (s :: ss) ds = s :: missingSpec ss ds /\ mismatchSpec (s :: ss) ds = mismatchSpec ss ds.
Proof.
  intros Hs. unfold missingSpec, mismatchSpec. rewrite !filter_cons.
  by rewrite decide_True, decide_False by tauto.
Qed.

Lemma missing_cons_both s ss d ds :
  sr_ref s = sr_ref d -> s ∉ ds -> sr_ref d ∉ sr_ref <$> ss ->
  missingSpec (s :: ss) (d :: ds) = missingSpec ss ds /\
  mismatchSpec (s :: ss) (d :: ds) =
    (if decide (sr_size s ≠ sr_size d) then [sr_ref s] else []) ++ mismatchSpec ss ds.
Proof.
  intros He Hs Hd. destruct (missing_skip_dst ss d ds Hd) as [<- <-].
  unfold missingSpec, mismatchSpec. rewrite !filter_cons, He. split.
  - rewrite decide_False; [done|]. rewrite fmap_cons. set_solver.
  - destruct (decide (sr_size s ≠ sr_size d)) as [Hsz|Hsz].
    + rewrite decide_True; [by rewrite fmap_cons, He|]. rewrite fmap_cons, !elem_of_cons.
      split; [by left|]. intros [->|?]; tauto.
    + rewrite decide_False; [done|]. rewrite elem_of_cons. intros [_ Hn]. apply Hn. left.
      destruct s as [rs ns], d as [rd nd]; simpl in *. f_equal; [done|].
      destruct (decide (ns = nd)); tauto.
Qed.

Lemma goodList_Valid s l : goodList (s :: l) -> Valid (sr_ref s) = true.
Proof. intros (_ & Hs & _)%goodList_cons. apply refWf_Valid, Hs. Qed.

Lemma Take_peeked cp sb l : pending cp = sb :: l ->
  pending (Take (peeked cp)).1 = l /\ pending (Take (peeked (peeked cp))).1 = l.
Proof.
  intros Hp. destruct (Peek_spec cp) as (_ & H1 & _). destruct (Peek_spec (peeked cp)) as (_ & H2 & _).
  destruct (Take_spec (peeked cp)) as (_ & H3 & _). destruct (Take_spec (peeked (peeked cp))) as (_ & H4 & _).
  rewrite H3, H4, H2, H1, Hp. done.
Qed.

Lemma pending_peeked cp : pending (peeked cp) = pending cp.
Proof. by destruct (Peek_spec cp) as (_ & H & _). Qed.

Lemma listMissing_spec fuel src dst m :
  goodList (pending src) -> goodList (pending dst) ->
  (length (pending src) + length (pending dst) < fuel)%nat ->
  listMissing fuel src dst m =
    Ok (MkMissing (destMissing m ++ missingSpec (pending src) (pending dst))
                  (mismatches m ++ mismatchSpec (pending src) (pending dst))).
Proof.
  revert src dst m. induction fuel as [|fuel IH]; intros src dst m Hs Hd Hf; [lia|].
  cbn [listMissing]. rewrite listMissingStep_spec.
  destruct (pending src) as [|s ss] eqn:Es.
  { simpl. destruct m. by rewrite !app_nil_r. }
  rewrite (goodList_Valid s ss Hs). destruct (Take_peeked src s ss Es) as [Ht1 Ht2].
  pose proof Hs as (Hfs & Hgs & Hs')%goodList_cons. cbn [negb].
  destruct (pending dst) as [|d ds] eqn:Ed; cbn [rbind].
  { rewrite IH; rewrite ?Ht1, ?pending_peeked, ?Ed; [|done|by split; constructor|simpl in *; lia].
    simpl. destruct (missing_cons_only s ss []) as [-> ->]; [set_solver|]. by rewrite <- app_assoc. }
  rewrite (goodList_Valid d ds Hd). destruct (Take_peeked dst d ds Ed) as [Ht3 Ht4].
  pose proof Hd as (Hfd & Hgd & Hd')%goodList_cons. cbn [negb].
  destruct (decide (sr_ref s = sr_ref d)) as [He|Hne]; cbn [rbind].
  { rewrite IH; rewrite ?Ht2, ?Ht4; [|done|done|simpl in *; lia].
    destruct (missing_cons_both s ss d ds He) as [-> ->].
    - intros Hin. apply (sized_lt_ref_notin d ds Hfd). rewrite <- He. by apply list_elem_of_fmap_2.
    - rewrite <- He. by apply sized_lt_ref_notin.
    - destruct (decide _); simpl; by rewrite <- ?app_assoc. }
  rewrite !Less_sized by done. case_bool_decide as Hlt; cbn [rbind].
  { rewrite IH; rewrite ?Ht2, ?pending_peeked, ?Ed; [|done|done|simpl in *; lia].
    destruct (missing_cons_only s ss (d :: ds)) as [-> ->]; [|simpl; by rewrite <- app_assoc].
    apply sized_lt_ref_notin. constructor; [done|]. eapply Forall_impl; [exact Hfd|].
    intros y Hy. by transitivity d. }
  assert (sized_lt d s) as Hgt.
  { apply sized_not_lt, str_le_lt_eq in Hlt as [|He]; [done|]. destruct Hne. by apply goodRef_inj. }
  rewrite bool_decide_eq_true_2 by done. cbn [rbind].
  rewrite IH; rewrite ?Ht4, ?pending_peeked, ?Es; [|done|done|simpl in *; lia].
  destruct (missing_skip_dst (s :: ss) d ds) as [-> ->]; [|done].
  apply sized_lt_ref_notin. constructor; [done|]. eapply Forall_impl; [exact Hfs|].
  intros y Hy. by transitivity s.
Qed.

(** C36. Comparing two sorted enumerations of references with even digit
    counts: exactly the source blobs whose reference the destination lacks are
    sent, in order, and [sizeMismatch] is called exactly for the references
    both have with different sizes.  The loop ends: each pass takes an item.
    On references with odd digit counts it can spin ([ListMissing_diverges]). *)
Theorem ListMissing_spec (srcch dstch : list SizedRef) :
  goodList srcch -> goodList dstch ->
  ListMissingDestinationBlobs (S (length srcch + length dstch)) srcch dstch =
    Ok (MkMissing (missingSpec srcch dstch) (mismatchSpec srcch dstch)).
Proof.
  intros Hs Hd. unfold ListMissingDestinationBlobs.
  rewrite listMissing_spec; rewrite ?pending_new; [done|done|done|lia].
Qed.

Lemma ListMissing_spec_witness :
  let src := sizedAll (exampleStore (gs "a") 4) in
  let dst := sizedAll (exampleStore (gs "a") 2) in
  ListMissingDestinationBlobs (S (length src + length dst)) src dst =
    Ok (MkMissing (missingSpec src dst) (mismatchSpec src dst)).
Proof.
  apply ListMissing_spec; rewrite <- enumAfter_nil by (by apply exampleStore_good);
    apply goodList_enumAfter; by apply exampleStore_good.
Defined.

(** With references that [Less] does not order either way, no case of the
    switch applies and the loop spins for ever. *)
Lemma listMissing_spins fuel s d ss ds m :
  Valid (sr_ref s) = true -> Valid (sr_ref d) = true -> sr_ref s ≠ sr_ref d ->
  Less (sr_ref s) (sr_ref d) = false -> Less (sr_ref d) (sr_ref s) = false ->
  forall src dst, pending src = s :: ss -> pending dst = d :: ds ->
  listMissing fuel src dst m = Panic "out of fuel".
Proof.
  intros Hs Hd Hne H1 H2. induction fuel as [|fuel IH]; intros src dst Es Ed; [done|].
  cbn [listMissing]. rewrite listMissingStep_spec, Es, Ed, Hs, Hd, H1, H2. cbn [negb].
  rewrite decide_False by done. cbn [rbind]. apply IH; by rewrite !pending_peeked.
Qed.

Lemma ListMissing_diverges :
  exists s d, Parse (gs "foo-ab0") = Ok (Some (sr_ref s)) /\ Parse (gs "foo-ab00") = Ok (Some (sr_ref d)) /\
    forall fuel, ListMissingDestinationBlobs fuel [s] [d] = Panic "out of fuel".
Proof.
  destruct Less_odd_incomparable as (a & b & Ha & Hb & Hva & Hvb & Hne & H1 & H2 & _).
  exists (MkSizedRef a 0), (MkSizedRef b 0). split_and!; [done|done|]. intros fuel.
  by apply listMissing_spins with (s := MkSizedRef a 0) (d := MkSizedRef b 0) (ss := []) (ds := []).
Qed.
