(* ===== verification/Receive.v ===== *)
(** Receiving blobs: the notification hub of pkg/blobserver/blobhub.go and the
    checked upload of pkg/blobserver/receive.go.

    Channels are identified by numbers; a goroutine started to send on a
    channel is an entry of the list of sends.  A nil Go map is [None]. *)

From S2P Require Import Prelude Ref Sha1 Storage.

(** * The hub *)

Record memHub := MkHub {
  hooks : list (SizedRef -> gerr);
  listeners : option (gset nat);
  blobListeners : option (gmap Ref (gset nat))
}.

(** [new(memHub)] *)
Definition newHub : memHub := MkHub [] None None.

Definition AddReceiveHook (h : memHub) (hook : SizedRef -> gerr) : memHub :=
  MkHub (hooks h ++ [hook]) (listeners h) (blobListeners h).

Definition listenerSet (h : memHub) : gset nat := default ∅ (listeners h).
Definition blobListenerMap (h : memHub) : gmap Ref (gset nat) := default ∅ (blobListeners h).

Definition RegisterListener (h : memHub) (ch : nat) : memHub :=
  MkHub (hooks h) (Some ({[ch]} ∪ listenerSet h)) (blobListeners h).

Definition UnregisterListener (h : memHub) (ch : nat) : res memHub :=
  match listeners h with
  | None => Panic "blobhub: UnregisterListener called without RegisterListener"
  | Some ls => Ok (MkHub (hooks h) (Some (ls ∖ {[ch]})) (blobListeners h))
  end.

Definition RegisterBlobListener (h : memHub) (br : Ref) (ch : nat) : memHub :=
  let m := blobListenerMap h in
  MkHub (hooks h) (listeners h) (Some (<[br := {[ch]} ∪ default ∅ (m !! br)]> m)).

Definition UnregisterBlobListener (h : memHub) (br : Ref) (ch : nat) : res memHub :=
  match blobListeners h with
  | None => Panic "blobhub: UnregisterBlobListener called without RegisterBlobListener"
  | Some m =>
      match m !! br with
      | None => Panic "blobhub: UnregisterBlobListener called without RegisterBlobListener for "
      | Some set =>
          let set := set ∖ {[ch]} in
          Ok (MkHub (hooks h) (listeners h)
                (Some (if decide (set = ∅) then delete br m else <[br := set]> m)))
      end
  end.

(** The hooks all run; [firstErr] is the scheduler's choice among their
    errors.  Then one send per listener. *)
Definition NotifyBlobReceived (firstErr : list error -> error) (h : memHub) (sb : SizedRef)
    : gerr * list (nat * Ref) :=
  match omap (fun hook => hook sb) (hooks h) with
  | e :: es => (Some (firstErr (e :: es)), [])
  | [] =>
      let br := sr_ref sb in
      (None, ((fun ch => (ch, br)) <$> elements (listenerSet h)) ++
             ((fun ch => (ch, br)) <$> elements (default ∅ (blobListenerMap h !! br))))
  end.

(** [WaitForBlob] with its channel [ch]: what it does before the [select] and
    what its deferred calls do after, last deferred first. *)
Definition waitRegister (h : memHub) (blobs : list Ref) (ch : nat) : memHub :=
  foldl (fun h br => RegisterBlobListener h br ch)
    (if decide (blobs = []) then RegisterListener h ch else h) blobs.

Fixpoint unregisterAll (h : memHub) (blobs : list Ref) (ch : nat) : res memHub :=
  match blobs with
  | [] => Ok h
  | br :: blobs => let? h := UnregisterBlobListener h br ch in unregisterAll h blobs ch
  end.

Definition waitUnregister (h : memHub) (blobs : list Ref) (ch : nat) : res memHub :=
  let? h := unregisterAll h (rev blobs) ch in
  if decide (blobs = []) then UnregisterListener h ch else Ok h.

(** * Notification *)

(** The channels that hear about [br], with no empty sets kept. *)
Definition hears (h : memHub) (br : Ref) (ch : nat) : Prop :=
  ch ∈ listenerSet h \/ ch ∈ default ∅ (blobListenerMap h !! br).

Definition hubWf (h : memHub) : Prop := forall br s, blobListenerMap h !! br = Some s -> s ≠ ∅.

(** A blob is announced exactly to the channels registered for all blobs
    or for that blob, unless a hook fails: then nobody is told and the error
    is returned. *)
Theorem NotifyBlobReceived_spec (firstErr : list error -> error) (h : memHub) (sb : SizedRef) :
  (forall l, l ≠ [] -> firstErr l ∈ l) ->
  let '(err, sends) := NotifyBlobReceived firstErr h sb in
  match err with
  | Some e => sends = [] /\ exists hook, hook ∈ hooks h /\ hook sb = Some e
  | None =>
      (forall hook, hook ∈ hooks h -> hook sb = None) /\
      (forall ch br, (ch, br) ∈ sends <-> br = sr_ref sb /\ hears h (sr_ref sb) ch)
  end.
Proof.
  intros Hf. unfold NotifyBlobReceived.
  destruct (omap (fun hook => hook sb) (hooks h)) as [|e es] eqn:E.
  - split.
    + intros hook Hin. apply eq_None_not_Some. intros [e He].
      assert (e ∈ omap (fun hook => hook sb) (hooks h)) as Hx by (apply list_elem_of_omap; by exists hook).
      rewrite E in Hx. set_solver.
    + intros ch br. rewrite elem_of_app, !list_elem_of_fmap. unfold hears.
      setoid_rewrite elem_of_elements. naive_solver.
  - split; [done|]. specialize (Hf (e :: es) ltac:(done)).
    assert (firstErr (e :: es) ∈ omap (fun hook => hook sb) (hooks h)) as Hx by by rewrite E.
    apply list_elem_of_omap in Hx as (hook & ? & ?). by exists hook.
Qed.

Lemma lookup_RegisterBlobListener h br ch br' :
  blobListenerMap (RegisterBlobListener h br ch) !! br' =
    if decide (br = br') then Some ({[ch]} ∪ default ∅ (blobListenerMap h !! br)) else blobListenerMap h !! br'.
Proof. unfold blobListenerMap at 1; simpl. by rewrite lookup_insert. Qed.

Lemma lookup_registerAll h blobs ch br :
  blobListenerMap (foldl (fun h br => RegisterBlobListener h br ch) h blobs) !! br =
    if decide (br ∈ blobs) then Some ({[ch]} ∪ default ∅ (blobListenerMap h !! br))
    else blobListenerMap h !! br.
Proof.
  revert h. induction blobs as [|b blobs IH]; intros h; cbn [foldl].
  { by rewrite decide_False by apply not_elem_of_nil. }
  rewrite IH, lookup_RegisterBlobListener.
  destruct (decide (br ∈ b :: blobs)) as [Hin|[Hne Hnin]%not_elem_of_cons].
  - apply elem_of_cons in Hin. destruct (decide (br ∈ blobs)) as [|Hnin], (decide (b = br)) as [->|Hne];
      [|done|done|naive_solver].
    simpl. by rewrite (assoc_L (∪)), (idemp_L (∪)).
  - by rewrite !decide_False by congruence.
Qed.

(** Unregistering from sets that all hold the channel. *)
Lemma unregisterAll_spec h blobs ch :
  NoDup blobs -> (forall br, br ∈ blobs -> is_Some (blobListenerMap h !! br)) ->
  exists h', unregisterAll h blobs ch = Ok h' /\ hooks h' = hooks h /\ listeners h' = listeners h /\
    forall br, blobListenerMap h' !! br =
      if decide (br ∈ blobs)
      then blobListenerMap h !! br ≫= fun s => if decide (s ∖ {[ch]} = ∅) then None else Some (s ∖ {[ch]})
      else blobListenerMap h !! br.
Proof.
  revert h. induction blobs as [|b blobs IH]; intros h Hn Hs; cbn [unregisterAll].
  { exists h. split_and!; [done..|]. intros br. by rewrite decide_False by apply not_elem_of_nil. }
  apply NoDup_cons in Hn as [Hb Hn]. destruct (Hs b) as [s Es]; [apply list_elem_of_here|].
  unfold UnregisterBlobListener. unfold blobListenerMap in Es.
  destruct (blobListeners h) as [m|] eqn:Em; simpl in Es; [|by rewrite lookup_empty in Es].
  rewrite Es. simpl. set (m' := if decide _ then _ else _).
  assert (forall br, m' !! br = if decide (br = b)
    then (if decide (s ∖ {[ch]} = ∅) then None else Some (s ∖ {[ch]})) else m !! br) as Hm'.
  { intros br. unfold m'. destruct (decide (s ∖ {[ch]} = ∅)), (decide (br = b)) as [->|];
      by rewrite ?lookup_delete_eq, ?lookup_delete_ne, ?lookup_insert_eq, ?lookup_insert_ne. }
  assert (blobListenerMap h = m) as Hm by (unfold blobListenerMap; by rewrite Em).
  destruct (IH (MkHub (hooks h) (listeners h) (Some m')) Hn) as (h' & -> & Hh & Hl & Hbl).
  { intros br Hbr. unfold blobListenerMap; simpl. rewrite Hm', decide_False by congruence.
    rewrite <- Hm. apply Hs. by apply list_elem_of_further. }
  exists h'. split_and!; [done|done|done|]. intros br. rewrite Hbl.
  change (blobListenerMap (MkHub _ _ (Some m'))) with m'. rewrite !Hm', Hm. destruct (decide (br = b)) as [->|Hne].
  - rewrite decide_False by done. rewrite (decide_True (P := b ∈ b :: blobs)) by apply list_elem_of_here.
    by rewrite Es.
  - destruct (decide (br ∈ blobs)); [by rewrite decide_True by by apply list_elem_of_further|].
    by rewrite decide_False by by rewrite not_elem_of_cons.
Qed.

Lemma in_rev_elem {A} (x : A) l : x ∈ rev l <-> x ∈ l.
Proof. by rewrite <- Permutation_rev. Qed.

(** [WaitForBlob] cleans up after itself: with distinct blobs and its new
    channel, the deferred calls do not panic and leave the hub hearing as
    before; in between the channel hears exactly the blobs waited for. *)
Theorem WaitForBlob_restores (h : memHub) (blobs : list Ref) (ch : nat) :
  NoDup blobs -> hubWf h -> (forall br, ~ hears h br ch) ->
  (forall br, hears (waitRegister h blobs ch) br ch <-> blobs = [] \/ br ∈ blobs) /\
  exists h', waitUnregister (waitRegister h blobs ch) blobs ch = Ok h' /\
    hooks h' = hooks h /\ listenerSet h' = listenerSet h /\ blobListenerMap h' = blobListenerMap h.
Proof.
  intros Hn Hwf Hfresh. unfold waitRegister, waitUnregister.
  set (h0 := if decide (blobs = []) then RegisterListener h ch else h).
  assert (blobListenerMap h0 = blobListenerMap h) as Hbl0 by (unfold h0; by destruct (decide _)).
  assert (forall h, listeners (foldl (fun h br => RegisterBlobListener h br ch) h blobs) = listeners h /\
    hooks (foldl (fun h br => RegisterBlobListener h br ch) h blobs) = hooks h) as Hfold.
  { clear. induction blobs as [|b blobs IH]; intros h; [done|]. cbn [foldl].
    by destruct (IH (RegisterBlobListener h b ch)) as [-> ->]. }
  destruct (Hfold h0) as [Hls Hhk]. split.
  - intros br. unfold hears. rewrite lookup_registerAll, Hbl0. unfold listenerSet. rewrite Hls.
    specialize (Hfresh br). unfold hears, listenerSet in Hfresh. unfold h0.
    destruct (decide (blobs = [])) as [->|Hne]; simpl; [unfold listenerSet; set_solver|].
    destruct (decide (br ∈ blobs)); simpl; set_solver.
  - destruct (unregisterAll_spec (foldl (fun h br => RegisterBlobListener h br ch) h0 blobs) (rev blobs) ch)
      as (h' & -> & Hh & Hl & Hb).
    { by rewrite <- Permutation_rev. }
    { intros br Hbr. rewrite in_rev_elem in Hbr. rewrite lookup_registerAll, decide_True by done. by eexists. }
    assert (blobListenerMap h' = blobListenerMap h) as Hmap.
    { apply map_eq. intros br. rewrite Hb, lookup_registerAll, Hbl0.
      specialize (Hfresh br). unfold hears in Hfresh.
      destruct (decide (br ∈ rev blobs)) as [Hin|Hin]; rewrite in_rev_elem in Hin.
      - rewrite decide_True by done. simpl.
        assert (({[ch]} ∪ default ∅ (blobListenerMap h !! br)) ∖ {[ch]} =
          default ∅ (blobListenerMap h !! br) :> gset nat) as -> by set_solver.
        destruct (blobListenerMap h !! br) as [s|] eqn:E; simpl.
        + rewrite decide_False; [done|]. by eapply Hwf.
        + by rewrite decide_True.
      - by rewrite decide_False. }
    assert (hooks h' = hooks h) as Hhooks by (rewrite Hh, Hhk; unfold h0; by destruct (decide _)).
    assert (listeners h' = listeners h0) as Hlis by by rewrite Hl, Hls.
    simpl. unfold h0 in Hlis. destruct (decide (blobs = [])) as [->|Hne].
    + unfold UnregisterListener. rewrite Hlis. simpl. eexists. split; [done|].
      split_and!; [done| |done]. unfold listenerSet; simpl.
      specialize (Hfresh zeroRef). unfold hears, listenerSet in *. set_solver.
    + exists h'. split_and!; [done|done|by unfold listenerSet; rewrite Hlis|done].
Qed.

Lemma NotifyBlobReceived_spec_witness :
  let h := RegisterBlobListener (RegisterListener newHub 1) (refOf (gs "a")) 2 in
  let '(err, sends) := NotifyBlobReceived (fun l => default ErrEOF (head l)) h (MkSizedRef (refOf (gs "a")) 1) in
  match err with
  | Some e => sends = [] /\ exists hook, hook ∈ hooks h /\ hook (MkSizedRef (refOf (gs "a")) 1) = Some e
  | None =>
      (forall hook, hook ∈ hooks h -> hook (MkSizedRef (refOf (gs "a")) 1) = None) /\
      (forall ch br, (ch, br) ∈ sends <-> br = refOf (gs "a") /\ hears h (refOf (gs "a")) ch)
  end.
Proof.
  apply NotifyBlobReceived_spec. intros [|e l] Hl; [destruct (Hl eq_refl)|apply list_elem_of_here].
Defined.

Lemma WaitForBlob_restores_witness :
  let h := RegisterBlobListener newHub (refOf (gs "a")) 2 in
  let bs := [refOf (gs "a"); refOf (gs "b")] in
  (forall br, hears (waitRegister h bs 7) br 7 <-> bs = [] \/ br ∈ bs) /\
  exists h', waitUnregister (waitRegister h bs 7) bs 7 = Ok h' /\
    hooks h' = hooks h /\ listenerSet h' = listenerSet h /\ blobListenerMap h' = blobListenerMap h.
Proof.
  apply WaitForBlob_restores.
  - apply (bool_decide_unpack _). vm_compute. exact I.
  - intros br s Hs. rewrite lookup_RegisterBlobListener in Hs.
    change (blobListenerMap newHub) with (∅ : gmap Ref (gset nat)) in Hs.
    destruct (decide _); [injection Hs as <-; set_solver|by rewrite lookup_empty in Hs].
  - intros br. unfold hears. rewrite lookup_RegisterBlobListener.
    change (blobListenerMap newHub) with (∅ : gmap Ref (gset nat)).
    destruct (decide _); rewrite ?lookup_empty; simpl; set_solver.
Defined.

(** Waiting for the same blob twice panics in the deferred calls. *)
Lemma WaitForBlob_duplicate_panics :
  let bs := [refOf (gs "a"); refOf (gs "a")] in
  waitUnregister (waitRegister newHub bs 7) bs 7 =
  Panic "blobhub: UnregisterBlobListener called without RegisterBlobListener for ".
Proof. vm_compute. reflexivity. Qed.

(** * Checked uploads *)

Definition MaxBlobSize : Z := 16 * 2 ^ 20.

Lemma MaxBlobSize_take {A} (l : list A) : glen (take (Z.to_nat MaxBlobSize) l) < 2 ^ 32.
Proof. unfold glen. rewrite length_take. unfold MaxBlobSize. lia. Qed.

Lemma MaxBlobSize_nonneg : 0 <= MaxBlobSize.
Proof. done. Qed.

Lemma MaxBlobSize_small : MaxBlobSize < 2 ^ 32.
Proof. done. Qed.

Lemma MaxBlobSize_large : 2 ^ 20 <= MaxBlobSize.
Proof. done. Qed.

#[global] Opaque MaxBlobSize.

(** [checkHashReader]: the source with [io.EOF] turned into
    [ErrCorruptBlob], and whether that happened; reading with a nil hash
    panics, as does asking a zero reference for one. *)
Definition checkHashReader (br : Ref) (src : reader) : res (reader * bool) :=
  let? h := Hash br in
  match h with
  | None => Ok (([], Panic "nil hash.Hash"), false)
  | Some h =>
      match src.2 with
      | Ok _ =>
          if HashMatches br (h src.1) then Ok (src, false) else Ok ((src.1, Err ErrCorruptBlob), true)
      | _ => Ok (src, false)
      end
  end.

Section receive.
Context {S : Type} `{!Storage S} (firstErr : list error -> error).

(** The storage, its hub, and the sends the hub started. *)
Definition receive (dst : S) (hub : memHub) (br : Ref) (src : reader) (checkHash : bool)
    : S * list (nat * Ref) * res SizedRef :=
  let src := limitReader MaxBlobSize src in
  match (if checkHash then checkHashReader br src else Ok (src, false)) with
  | Ok (src, corruptAtEnd) =>
      match st_ReceiveBlob dst br src with
      | (dst', Ok sb) =>
          let '(err, sends) := NotifyBlobReceived firstErr hub sb in
          (dst', sends, match err with None => Ok sb | Some e => Err e end)
      | (dst', Err err) =>
          let corrupt := corruptAtEnd && st_reads dst br src in
          (dst', [], Err (if checkHash && corrupt then ErrCorruptBlob else err))
      | (dst', r) => (dst', [], r)
      end
  | Err e => (dst, [], Err e)
  | Panic p => (dst, [], Panic p)
  | Blocked => (dst, [], Blocked)
  end.

Definition Receive (dst : S) hub br src := receive dst hub br src true.
Definition ReceiveNoHash (dst : S) hub br src := receive dst hub br src false.

Definition ReceiveString (dst : S) hub (s : gostr) : S * list (nat * Ref) * res SizedRef :=
  match RefFromString s with
  | Ok br => Receive dst hub br (s, Ok tt)
  | Err e => (dst, [], Err e)
  | Panic p => (dst, [], Panic p)
  | Blocked => (dst, [], Blocked)
  end.
End receive.

Section receive_proofs.
Context {S : Type} `{StorageLaws S} (firstErr : list error -> error).

Lemma limitReader_data n src : 0 <= n -> (limitReader n src).1 = take (Z.to_nat n) src.1.
Proof.
  intros Hn. unfold limitReader. destruct (Z.leb_spec n (glen src.1)) as [|Hlt]; [done|].
  unfold glen in Hlt. rewrite take_ge; [done|lia].
Qed.

(** The two shapes of the checked source: a matching one, or one that ends in
    something other than [io.EOF]. *)
Lemma checkHashReader_cases br src :
  Hash br = Ok (Some sha1) ->
  (br = refOf src.1 /\ src.2 = Ok tt /\ checkHashReader br src = Ok (src, false)) \/
  (src.2 ≠ Ok tt /\ checkHashReader br src = Ok (src, false)) \/
  (br ≠ refOf src.1 /\ src.2 = Ok tt /\ checkHashReader br src = Ok ((src.1, Err ErrCorruptBlob), true)).
Proof.
  intros Hh. unfold checkHashReader. rewrite Hh. simpl.
  destruct src as [d [[]|e|p|]]; simpl; [|by right; left..].
  rewrite HashMatches_sha1 by done. case_bool_decide; [by left|by right; right].
Qed.

(** A store that failed or never read: what [Receive] makes of it. *)
Definition received (dst : S) (hub : memHub) (br : Ref) (data : gostr) (p : S * list (nat * Ref) * res SizedRef)
    : Prop :=
  let '(dst', sends, r) := p in
  st_wf dst' /\
  match r with
  | Ok sb =>
      sb = sized (br, data) /\ br = refOf data /\ st_view dst' = st_view dst ∪ {[br := data]} /\
      NotifyBlobReceived firstErr hub sb = (None, sends)
  | Err e =>
      sends = [] /\
      (st_view dst' = st_view dst \/
       (br = refOf data /\ st_view dst' = st_view dst ∪ {[br := data]} /\
        (NotifyBlobReceived firstErr hub (sized (br, data))).1 = Some e))
  | _ => st_view dst' = st_view dst
  end.

Lemma notify_received (dst dst' : S) hub br data :
  st_wf dst' -> br = refOf data -> st_view dst' = st_view dst ∪ {[br := data]} ->
  received dst hub br data
    (let '(err, sends) := NotifyBlobReceived firstErr hub (sized (br, data)) in
     (dst', sends, match err with None => Ok (sized (br, data)) | Some e => Err e end)).
Proof.
  intros Hwf Hbr Hv. unfold received.
  destruct (NotifyBlobReceived firstErr hub (sized (br, data))) as [[e|] sends] eqn:En; split_and!; try done.
  - unfold NotifyBlobReceived in En. by destruct (omap _ _); simplify_eq.
  - right. by split_and!.
Qed.

(** C27. [Receive] on a lawful storage, for a reference with a known hash: the
    blob is stored and announced only if its bytes, up to the limit of 16 MB,
    hash to the reference, and then the storage holds exactly that blob more.
    Otherwise nothing is announced, the storage is unchanged (unless it was
    a receive hook that failed), and bytes that do not match give
    [ErrCorruptBlob] when the storage read them all. *)
Theorem Receive_spec (dst : S) (hub : memHub) (br : Ref) (src : reader) :
  st_wf dst -> goodRef br -> Hash br = Ok (Some sha1) ->
  let data := take (Z.to_nat MaxBlobSize) src.1 in
  let p := Receive firstErr dst hub br src in
  received dst hub br data p /\
  (br ≠ refOf data -> (limitReader MaxBlobSize src).2 = Ok tt ->
   st_reads dst br (data, Err ErrCorruptBlob) = true -> p.2 = Err ErrCorruptBlob).
Proof.
  intros Hwf Hbr Hh data. unfold Receive, receive. cbn iota zeta.
  pose proof (limitReader_data MaxBlobSize src MaxBlobSize_nonneg) as Hd. fold data in Hd.
  assert (glen data < 2 ^ 32) as Hlen by apply MaxBlobSize_take.
  destruct (limitReader MaxBlobSize src) as [d end_]; simpl in Hd. subst d. cbn [snd].
  destruct (checkHashReader_cases br (data, end_) Hh) as [(Hb & He & ->)|[(He & ->)|(Hb & He & ->)]];
    simpl in He; cbn [fst snd].
  - destruct (st_ReceiveBlob dst br (data, end_)) as [dst' r] eqn:Er.
    apply st_ReceiveBlob_law in Er as [Hwf' Hr]; [|done..]. split; [|done].
    destruct r as [sb|e|p|].
    + destruct Hr as (_ & -> & Hv). by apply notify_received.
    + split; [done|]. split; [done|]. left. apply Hr.
    + split; [done|apply Hr].
    + split; [done|apply Hr].
  - destruct (st_ReceiveBlob dst br (data, end_)) as [dst' r] eqn:Er.
    apply st_ReceiveBlob_law in Er as [Hwf' Hr]; [|done..]. split; [|intros _ Hend; by destruct He].
    destruct r as [sb|e|p|].
    + destruct Hr as (Hend & _). by destruct He.
    + split; [done|]. split; [done|]. left. apply Hr.
    + split; [done|apply Hr].
    + split; [done|apply Hr].
  - destruct (st_ReceiveBlob dst br (data, Err ErrCorruptBlob)) as [dst' r] eqn:Er.
    apply st_ReceiveBlob_law in Er as [Hwf' Hr]; [|done..].
    destruct r as [sb|e|p|]; [by destruct Hr as (? & _)| |by destruct Hr as [_ ?]..].
    split; [split; [done|]; split; [done|]; left; apply Hr|].
    intros _ _ Hreads. simpl. by rewrite Hreads.
Qed.
(** One upload: what can become of the storage. *)
Lemma ReceiveNoHash_ok (dst : S) hub br buf :
  st_wf dst -> goodRef br -> glen buf <= MaxBlobSize ->
  let '(dst', sends, r) := ReceiveNoHash firstErr dst hub br (buf, Ok tt) in
  st_wf dst' /\ (st_view dst' = st_view dst \/ st_view dst' = st_view dst ∪ {[br := buf]}) /\
  match r with
  | Ok sb => sb = sized (br, buf) /\ st_view dst' = st_view dst ∪ {[br := buf]}
  | Err _ => True
  | _ => False
  end.
Proof.
  intros Hwf Hbr Hl. unfold ReceiveNoHash, receive.
  assert (limitReader MaxBlobSize (buf, Ok tt) = (buf, Ok tt)) as ->.
  { unfold limitReader; simpl. destruct (Z.leb_spec MaxBlobSize (glen buf)) as [Hle|]; [|done].
    rewrite take_ge; [done|]. unfold glen in *. lia. }
  assert (glen buf < 2 ^ 32) as Hl32.
  { pose proof (MaxBlobSize_take (replicate (Z.to_nat MaxBlobSize) 0%nat)) as Hm.
    unfold glen in *. rewrite length_take, length_replicate in Hm. pose proof MaxBlobSize_nonneg. lia. }
  destruct (st_ReceiveBlob dst br (buf, Ok tt)) as [dst' r] eqn:E.
  apply st_ReceiveBlob_law in E as [Hwf' Hr]; [|done..]. destruct r as [sb|e|p|]; simpl in Hr.
  - destruct Hr as (_ & -> & Hv). destruct (NotifyBlobReceived firstErr hub (sized (br, buf))) as [[e|] sends];
      split_and!; try done; by right.
  - destruct Hr as [Hv _]. split_and!; try done. by left.
  - by destruct Hr.
  - by destruct Hr.
Qed.

End receive_proofs.

Lemma Receive_spec_witness :
  let first := fun l : list error => default ErrEOF (head l) in
  let data := take (Z.to_nat MaxBlobSize) (gs "a") in
  received first (blobsOf []) newHub (refOf (gs "b")) data
    (Receive first (blobsOf []) newHub (refOf (gs "b")) (gs "a", Ok tt)) /\
  (refOf (gs "b") ≠ refOf data -> (limitReader MaxBlobSize (gs "a", Ok tt)).2 = Ok tt ->
   st_reads (blobsOf []) (refOf (gs "b")) (data, Err ErrCorruptBlob) = true ->
   (Receive first (blobsOf []) newHub (refOf (gs "b")) (gs "a", Ok tt)).2 = Err ErrCorruptBlob).
Proof.
  apply (Receive_spec (fun l => default ErrEOF (head l)) (blobsOf []) newHub (refOf (gs "b")) (gs "a", Ok tt)).
  - by apply (blobsOf_good []).
  - apply refOf_good.
  - reflexivity.
Defined.

(** Concretely: the right blob is stored, the wrong one refused. *)
Example Receive_example :
  let first := fun l : list error => default ErrEOF (head l) in
  (ReceiveString first (blobsOf []) newHub (gs "a")).2 = Ok (MkSizedRef (refOf (gs "a")) 1) /\
  (Receive first (blobsOf []) newHub (refOf (gs "b")) (gs "a", Ok tt)).2 = Err ErrCorruptBlob.
Proof. vm_compute. done. Qed.
