(* ===== verification/Memory.v ===== *)
(** The in-memory storage of pkg/blobserver/memory/mem.go, plain and as a
    size-bounded LRU cache.

    [mu] makes every method one atomic step.  Go's nil map and empty map read
    the same, so [blobs_] is one finite map.  [size] and the counters are
    int64 values. *)

From S2P Require Import Prelude Ref Sha1 Lru Storage.

Record MemStorage := MkMem {
  maxSize : Z;
  blobs_ : blobs;
  size_ : Z;
  lru : option (Lru.Cache unit);
  blobsFetched : Z;
  bytesFetched : Z
}.

(** [&Storage{}] of [newFromConfig] *)
Definition newMem : MemStorage := MkMem 0 ∅ 0 None 0 0.

Definition NewCache (size : Z) : MemStorage :=
  MkMem size ∅ 0 (Some (Lru.New (2 ^ 31 - 1))) 0 0.

Definition setLru (s : MemStorage) (c : option (Lru.Cache unit)) : MemStorage :=
  MkMem (maxSize s) (blobs_ s) (size_ s) c (blobsFetched s) (bytesFetched s).

Definition setBlobs (s : MemStorage) (m : blobs) (size : Z) : MemStorage :=
  MkMem (maxSize s) m size (lru s) (blobsFetched s) (bytesFetched s).

Definition count (s : MemStorage) (bytes : Z) : MemStorage :=
  MkMem (maxSize s) (blobs_ s) (size_ s) (lru s) (i64 (blobsFetched s + 1)) (i64 (bytesFetched s + bytes)).

Definition memFetch (s : MemStorage) (ref : Ref) : MemStorage * res (gostr * Z) :=
  let s := match lru s with
           | Some c => setLru s (Some (Lru.Get c (RefString ref)).1)
           | None => s
           end in
  match blobs_ s !! ref with
  | None => (s, Err ErrNotExist)
  | Some b => (count s (glen b), Ok (take (Z.to_nat (u32 (glen b))) b, u32 (glen b)))
  end.

(** [io.NewSectionReader(bytes.NewReader(b), offset, length)] read to its end. *)
Definition sectionReader (b : gostr) (offset length : Z) : reader :=
  if i64 (offset + length) <=? offset then ([], Ok tt)
  else if offset <? 0 then ([], Err (ErrMsg "bytes.Reader.ReadAt: negative offset"))
  else (take (Z.to_nat length) (drop (Z.to_nat offset) b), Ok tt).

Definition memSubFetch (s : MemStorage) (ref : Ref) (offset length : Z) : MemStorage * res reader :=
  match blobs_ s !! ref with
  | None => (s, Err ErrNotExist)
  | Some b => (count s length, Ok (sectionReader b offset length))
  end.

Definition removeBlobLocked (s : MemStorage) (br : Ref) : MemStorage :=
  match blobs_ s !! br with
  | None => s
  | Some v => setBlobs s (delete br (blobs_ s)) (i64 (size_ s - glen v))
  end.

(** The eviction loop; [fuel] bounds the number of LRU entries. *)
Fixpoint evict (fuel : nat) (s : MemStorage) : res MemStorage :=
  match fuel with
  | O => Panic "out of fuel"
  | S fuel =>
      if negb (maxSize s =? 0) && (size_ s >? maxSize s) then
        match lru s with
        | None => Panic "nil pointer dereference"
        | Some c =>
            let '(c, (key, _)) := Lru.RemoveOldest c in
            let s := setLru s (Some c) in
            if decide (key ≠ []) then
              let? br := MustParse key in evict fuel (removeBlobLocked s br)
            else Ok s
        end
      else Ok s
  end.

Definition lruLen (s : MemStorage) : nat :=
  match lru s with Some c => length (Lru.ll c) | None => 0%nat end.

Definition memReceiveBlob (s : MemStorage) (br : Ref) (source : reader) : MemStorage * res SizedRef :=
  match Hash br with
  | Err e => (s, Err e)
  | Panic p => (s, Panic p)
  | Blocked => (s, Blocked)
  | Ok None => (s, Err (ErrMsg "Unsupported blobref hash for %s"))
  | Ok (Some h) =>
      match readAll source with
      | Err e => (s, Err e)
      | Panic p => (s, Panic p)
      | Blocked => (s, Blocked)
      | Ok all =>
          if negb (HashMatches br (h all)) then (s, Err (ErrMsg "Hash mismatch receiving blob %s"))
          else
            let done s := (s, Ok (MkSizedRef br (u32 (glen all)))) in
            match blobs_ s !! br with
            | Some _ => done s
            | None =>
                let s1 := setBlobs s (<[br := all]> (blobs_ s)) (i64 (size_ s + glen all)) in
                let s2 := match lru s1 with
                          | Some c => setLru s1 (Some (Lru.Add c (RefString br) tt))
                          | None => s1
                          end in
                match evict (S (lruLen s2)) s2 with
                | Ok s3 => done s3
                | Err e => (s2, Err e)
                | Panic p => (s2, Panic p)
                | Blocked => (s2, Blocked)
                end
            end
      end
  end.

Fixpoint memStatBlobs (s : MemStorage) (brs : list Ref) : list SizedRef * res unit :=
  match brs with
  | [] => ([], Ok tt)
  | br :: brs =>
      let '(out, r) := memStatBlobs s brs in
      (match blobs_ s !! br with Some b => MkSizedRef br (u32 (glen b)) :: out | None => out end, r)
  end.

(** [sort.Sort(blob.ByRef(sorted))] of the map's keys. *)
Definition sortedRefs (m : blobs) : list Ref := merge_sort refLe (map_to_list m).*1.

(** The sending loop: [n] sent so far. *)
Fixpoint enumLoop (s : MemStorage) (c : ctx) (after : gostr) (limit : Z) (n : nat) (sorted : list Ref)
    : list SizedRef * res unit :=
  match sorted with
  | [] => ([], Ok tt)
  | br :: sorted =>
      if decide (after ≠ [] /\ str_le (RefString br) after) then enumLoop s c after limit n sorted
      else if decide (c = Some n) then ([], Err ErrCanceled)
      else
        let sb := MkSizedRef br (u32 (glen (default [] (blobs_ s !! br)))) in
        if (0 <? limit) && (Z.of_nat (S n) =? limit) then ([sb], Ok tt)
        else let '(out, r) := enumLoop s c after limit (S n) sorted in (sb :: out, r)
  end.

Definition memEnumerateBlobs (s : MemStorage) (c : ctx) (after : gostr) (limit : Z)
    : list SizedRef * res unit :=
  enumLoop s c after limit 0 (sortedRefs (blobs_ s)).

(** What [StreamBlobs] sends: the blob, its contents and its token. *)
Fixpoint streamLoop (s : MemStorage) (c : ctx) (contToken : gostr) (n : nat) (sorted : list Ref)
    : list (SizedRef * gostr * gostr) * res unit :=
  match sorted with
  | [] => ([], Ok tt)
  | br :: sorted =>
      if decide (str_lt (RefString br) contToken) then streamLoop s c contToken n sorted
      else if decide (c = Some n) then ([], Err ErrCanceled)
      else
        let b := default [] (blobs_ s !! br) in
        let '(out, r) := streamLoop s c contToken (S n) sorted in
        ((MkSizedRef br (u32 (glen b)), b, RefString br) :: out, r)
  end.

Definition memStreamBlobs (s : MemStorage) (c : ctx) (contToken : gostr)
    : list (SizedRef * gostr * gostr) * res unit :=
  streamLoop s c contToken 0 (sortedRefs (blobs_ s)).

Definition memRemoveBlobs (s : MemStorage) (brs : list Ref) : MemStorage * res unit :=
  (foldl removeBlobLocked s brs, Ok tt).

Definition BlobContents (s : MemStorage) (br : Ref) : option gostr := blobs_ s !! br.
Definition NumBlobs (s : MemStorage) : Z := Z.of_nat (size (blobs_ s)).
Definition SumBlobSize (s : MemStorage) : Z := size_ s.
Definition BlobrefStrings (s : MemStorage) : list gostr :=
  merge_sort str_le (RefString <$> (map_to_list (blobs_ s)).*1).
Definition Stats (s : MemStorage) : Z * Z := (blobsFetched s, bytesFetched s).

Definition mem_Fetcher : Fetcher MemStorage := {| st_Fetch := memFetch |}.
#[global] Instance mem_SubFetcher : SubFetcher MemStorage := { st_SubFetch := memSubFetch }.
#[global] Instance mem_Storage : Storage MemStorage := {
  st_fetcher := mem_Fetcher;
  st_ReceiveBlob := memReceiveBlob;
  st_reads _ br _ := match Hash br with Ok (Some _) => true | _ => false end;
  st_StatBlobs := memStatBlobs;
  st_EnumerateBlobs := memEnumerateBlobs;
  st_RemoveBlobs := memRemoveBlobs
}.

(** * The contents *)

(** Every blob stored was hashed. *)
Definition hashed (m : blobs) : Prop := forall br d, m !! br = Some d -> br = refOf d /\ glen d < 2 ^ 32.

Lemma hashed_good m : hashed m -> goodBlobs m.
Proof. intros Hm br d Hd. destruct (Hm br d Hd) as [-> Hl]. split; [apply refOf_good|done]. Qed.

Lemma hashed_subseteq m m' : m' ⊆ m -> hashed m -> hashed m'.
Proof. intros Hs Hm br d Hd. eapply Hm. by eapply lookup_weaken. Qed.

Lemma hashed_insert m d : hashed m -> glen d < 2 ^ 32 -> hashed (<[refOf d := d]> m).
Proof. intros Hm Hl br d' [[<- <-]|[_ Hd]]%lookup_insert_Some; [done|by eapply Hm]. Qed.

Definition sumBlobs (m : blobs) : Z := map_fold (fun _ d n => glen d + n) 0 m.

Lemma sumBlobs_empty : sumBlobs ∅ = 0.
Proof. apply map_fold_empty. Qed.

Lemma sumBlobs_insert m br d : m !! br = None -> sumBlobs (<[br := d]> m) = glen d + sumBlobs m.
Proof.
  intros Hm. unfold sumBlobs. rewrite map_fold_insert_L; [done| |done]. intros. lia.
Qed.

Lemma sumBlobs_delete m br d : m !! br = Some d -> sumBlobs (delete br m) = sumBlobs m - glen d.
Proof.
  intros Hm. rewrite <- (insert_delete_id m br d Hm) at 2.
  rewrite sumBlobs_insert by apply lookup_delete_eq. lia.
Qed.

Lemma sumBlobs_nonneg m : 0 <= sumBlobs m.
Proof.
  induction m as [|br d m Hn IH] using map_ind; [by rewrite sumBlobs_empty|].
  rewrite sumBlobs_insert by done. pose proof (glen_nonneg d). lia.
Qed.

Lemma sumBlobs_mono m m' : m ⊆ m' -> sumBlobs m <= sumBlobs m'.
Proof.
  revert m'. induction m as [|br d m Hn IH] using map_ind; intros m' Hs.
  - rewrite sumBlobs_empty. apply sumBlobs_nonneg.
  - assert (m' !! br = Some d) as Hd by (eapply lookup_weaken; [apply lookup_insert_eq|done]).
    rewrite sumBlobs_insert by done. specialize (IH (delete br m')).
    rewrite (sumBlobs_delete m' br d Hd) in IH.
    assert (m ⊆ delete br m') as Hsub; [|specialize (IH Hsub); lia].
    apply map_subseteq_spec. intros br' d' Hd'. rewrite lookup_delete_Some. split; [by intros ->; congruence|].
    eapply lookup_weaken; [|exact Hs]. rewrite lookup_insert_ne; [done|]. intros ->. congruence.
Qed.

Lemma i64_add_l a b : i64 (i64 a + b) = i64 (a + b).
Proof.
  unfold i64. replace ((a + 2 ^ 63) mod 2 ^ 64 - 2 ^ 63 + b + 2 ^ 63) with ((a + 2 ^ 63) mod 2 ^ 64 + b) by lia.
  rewrite Z.add_mod_idemp_l by lia. f_equal. f_equal. lia.
Qed.

Lemma i64_sub_l a b : i64 (i64 a - b) = i64 (a - b).
Proof. rewrite <- !Z.add_opp_r. apply i64_add_l. Qed.

(** The size field is the sum of the blobs' sizes, as an int64. *)
Definition sizeOk (s : MemStorage) : Prop := size_ s = i64 (sumBlobs (blobs_ s)).

Lemma removeBlobLocked_spec s br :
  sizeOk s ->
  sizeOk (removeBlobLocked s br) /\ blobs_ (removeBlobLocked s br) = delete br (blobs_ s) /\
  lru (removeBlobLocked s br) = lru s /\ maxSize (removeBlobLocked s br) = maxSize s.
Proof.
  unfold sizeOk, removeBlobLocked. intros Hs. destruct (blobs_ s !! br) as [v|] eqn:E; simpl.
  - split_and!; [|done..]. by rewrite Hs, i64_sub_l, (sumBlobs_delete _ _ v).
  - rewrite delete_id by done. by split_and!.
Qed.

Lemma removeAll_spec s brs :
  sizeOk s ->
  sizeOk (foldl removeBlobLocked s brs) /\
  blobs_ (foldl removeBlobLocked s brs) = removeSpec (blobs_ s) brs /\
  lru (foldl removeBlobLocked s brs) = lru s /\ maxSize (foldl removeBlobLocked s brs) = maxSize s.
Proof.
  revert s. induction brs as [|br brs IH]; intros s Hs; cbn [foldl].
  - split_and!; [done| |done..]. apply map_eq. intros br. rewrite lookup_removeSpec.
    by rewrite decide_False by apply not_elem_of_nil.
  - destruct (removeBlobLocked_spec s br Hs) as (Hs' & Hb & Hl & Hm).
    destruct (IH _ Hs') as (H1 & H2 & H3 & H4). split_and!; [done| |congruence..].
    rewrite H2, Hb. apply map_eq. intros br'. rewrite !lookup_removeSpec, lookup_delete.
    destruct (decide (br' ∈ brs)) as [Hin|Hin], (decide (br = br')) as [->|Hne].
    + by rewrite decide_True by (by apply list_elem_of_further).
    + by rewrite decide_True by (by apply list_elem_of_further).
    + by rewrite decide_True by apply list_elem_of_here.
    + by rewrite decide_False by (rewrite not_elem_of_cons; split; congruence).
Qed.

(** * Statting and enumerating *)

Lemma u32_len m br d : hashed m -> m !! br = Some d -> u32 (glen d) = glen d.
Proof. intros Hm Hd. destruct (Hm br d Hd). apply u32_small. split; [apply glen_nonneg|done]. Qed.

Lemma memStatBlobs_spec s brs :
  hashed (blobs_ s) -> memStatBlobs s brs = (statSpec (blobs_ s) brs, Ok tt).
Proof.
  intros Hm. induction brs as [|br brs IH]; [done|]. cbn [memStatBlobs]. rewrite IH.
  unfold statSpec. simpl. destruct (blobs_ s !! br) as [d|] eqn:E; simpl; [|done].
  by rewrite (u32_len _ _ _ Hm E).
Qed.

Lemma sortedRefs_spec m : goodBlobs m -> sortedRefs m = sr_ref <$> sizedAll m.
Proof.
  intros Hm. assert (forall br, br ∈ sortedRefs m <-> is_Some (m !! br)) as Hel.
  { intros br. unfold sortedRefs. rewrite merge_sort_Permutation, list_elem_of_fmap. split.
    - intros ([br' d] & -> & Hd%elem_of_map_to_list). by exists d.
    - intros [d Hd]. exists (br, d). by rewrite elem_of_map_to_list. }
  assert (StronglySorted sized_lt ((fun br => MkSizedRef br (glen (default [] (m !! br)))) <$> sortedRefs m)) as Hs.
  { apply sized_strict.
    - assert (StronglySorted refLe (sortedRefs m)) as Hr by (apply StronglySorted_merge_sort; apply _).
      assert (Forall goodRef (sortedRefs m)) as Hg.
      { apply Forall_forall. intros br [d Hd]%Hel. by eapply Hm. }
      revert Hr Hg. generalize (sortedRefs m) as l. clear. intros l. induction 1 as [|a l _ IH Hf]; intros Hg; simpl.
      { constructor. }
      apply Forall_cons in Hg as [Ha Hg]. constructor; [by apply IH|].
      rewrite Forall_fmap, Forall_forall in *. intros b Hb. specialize (Hf b Hb). unfold refLe in Hf.
      rewrite Less_good in Hf by auto. apply bool_decide_eq_false in Hf. by apply str_not_lt.
    - rewrite <- list_fmap_compose. simpl. rewrite list_fmap_id. unfold sortedRefs.
      rewrite merge_sort_Permutation. apply NoDup_fst_map_to_list.
    - intros sb (br & -> & [d Hd]%Hel)%list_elem_of_fmap. simpl. by eapply Hm. }
  unfold sizedAll. rewrite <- (sizedOf_unique (sizes m) _ (goodBlobs_sizes m Hm) Hs).
  - rewrite <- list_fmap_compose. symmetry. apply list_fmap_id.
  - intros [br n]. unfold sizes. rewrite list_elem_of_fmap, lookup_fmap, fmap_Some. simpl. split.
    + intros (br' & [= -> ->] & [d Hd]%Hel). exists d. by rewrite Hd.
    + intros (d & Hd & ->). exists br. rewrite Hd. split; [done|]. apply Hel. by exists d.
Qed.

Lemma skip_after after br :
  goodRef br -> (~ (after ≠ [] /\ str_le (RefString br) after)) <-> str_lt after (RefString br).
Proof.
  intros Hg. rewrite <- str_not_le. destruct (decide (after = [])) as [->|Hne]; [|tauto].
  split; [|tauto]. intros _ Hle. destruct (proj1 (str_le_lt_eq _ _) Hle) as [Hlt|He].
  - apply (str_lt_irrefl (RefString br)). eapply str_lt_le_trans; [done|]. apply str_nil_le.
  - by apply goodRef_nonempty in He.
Qed.

(** The items of the loop's list still to be sent, with [n] sent already. *)
Definition loopItems (after : gostr) (limit : Z) (n : nat) (l : list SizedRef) : list SizedRef :=
  let l := filter (sizedAfter after) l in
  if 0 <? limit then take (Z.to_nat limit - n) l else l.

Definition dropCtx (c : ctx) (n : nat) : ctx := (fun k => k - n)%nat <$> c.

Lemma enumLoop_spec s c after limit n l :
  hashed (blobs_ s) -> (forall sb, sb ∈ l -> sb ∈ sizedAll (blobs_ s)) ->
  (0 < limit -> Z.of_nat n < limit) -> (forall k, c = Some k -> (n <= k)%nat) ->
  enumLoop s c after limit n (sr_ref <$> l) = sendAll (dropCtx c n) (loopItems after limit n l).
Proof.
  intros Hm. revert n. induction l as [|sb l IH]; intros n Hl Hn Hk.
  { unfold loopItems. rewrite filter_nil, take_nil. destruct (0 <? limit), c; done. }
  rewrite fmap_cons. cbn [enumLoop].
  destruct (proj1 (elem_of_sizedAll _ _) (Hl sb ltac:(apply list_elem_of_here))) as (d & Hd & Hsz).
  assert (goodRef (sr_ref sb)) as Hg by (by eapply (hashed_good _ Hm)).
  assert (MkSizedRef (sr_ref sb) (u32 (glen (default [] (blobs_ s !! sr_ref sb)))) = sb) as ->.
  { rewrite Hd. simpl. rewrite (u32_len _ _ _ Hm Hd). destruct sb; simpl in *. congruence. }
  unfold loopItems in *. rewrite filter_cons.
  pose proof (skip_after after _ Hg : _ <-> sizedAfter after sb) as Hsk.
  destruct (decide (after ≠ [] /\ str_le (RefString (sr_ref sb)) after)) as [Hskip|Hskip].
  { rewrite (decide_False (P := sizedAfter after sb)) by tauto. apply IH; [set_solver|done|done]. }
  rewrite (decide_True (P := sizedAfter after sb)) by tauto.
  destruct (decide (c = Some n)) as [->|Hc].
  { unfold dropCtx, sendAll; simpl. rewrite Nat.sub_diag.
    destruct (Z.ltb_spec 0 limit); [|done].
    by destruct (Z.to_nat limit - n)%nat eqn:E; [lia|]. }
  assert (forall l', sendAll (dropCtx c n) (sb :: l') =
    (sb :: (sendAll (dropCtx c (S n)) l').1, (sendAll (dropCtx c (S n)) l').2)) as Hcons.
  { intros l'. unfold dropCtx, sendAll. destruct c as [k|]; [|done]. simpl.
    specialize (Hk k eq_refl). assert (k ≠ n) by congruence.
    destruct (k - n)%nat as [|j] eqn:Ej; [lia|]. replace (k - S n)%nat with j by lia. simpl.
    destruct (decide (S j < S (length l'))%nat), (decide (j < length l')%nat); try lia; done. }
  destruct (Z.ltb_spec 0 limit) as [Hlim|Hlim]; cbn [andb].
  - destruct (Z.eqb_spec (Z.of_nat (S n)) limit) as [He|Hne].
    + replace (Z.to_nat limit - n)%nat with 1%nat by lia. cbn [take]. rewrite Hcons, take_0.
      unfold sendAll, dropCtx. by destruct c as [k|].
    + destruct (Z.to_nat limit - n)%nat as [|j] eqn:Ej; [lia|]. cbn [take]. rewrite Hcons.
      rewrite IH; [| set_solver|lia|intros k ->; specialize (Hk k eq_refl); assert (k ≠ n) by congruence; lia].
      replace (Z.to_nat limit - S n)%nat with j by lia. by destruct (sendAll _ _).
  - rewrite Hcons. rewrite IH; [|set_solver|lia|intros k ->; specialize (Hk k eq_refl); assert (k ≠ n) by congruence; lia].
    by destruct (sendAll _ _).
Qed.

Lemma memEnumerateBlobs_spec s c after limit :
  hashed (blobs_ s) ->
  memEnumerateBlobs s c after limit =
    sendAll c (if 0 <? limit then enumSpec (blobs_ s) after limit else enumAfter (blobs_ s) after).
Proof.
  intros Hm. unfold memEnumerateBlobs. rewrite sortedRefs_spec by by apply hashed_good.
  rewrite enumLoop_spec; [|done|done|lia|intros; lia].
  unfold loopItems, enumSpec, enumAfter. rewrite Nat.sub_0_r. f_equal.
  destruct c; [|done]. unfold dropCtx. simpl. by rewrite Nat.sub_0_r.
Qed.

(** * The plain storage obeys the interface *)

Definition memPlain (s : MemStorage) : Prop :=
  maxSize s = 0 /\ lru s = None /\ hashed (blobs_ s) /\ sizeOk s.

Lemma newMem_plain : memPlain newMem.
Proof. split_and!; [done|done|intros br d Hd; by apply (lookup_empty_Some br d) in Hd|done]. Qed.

Lemma memFetch_spec s br s' r :
  hashed (blobs_ s) -> memFetch s br = (s', r) ->
  blobs_ s' = blobs_ s /\ maxSize s' = maxSize s /\ size_ s' = size_ s /\
  lru s' = (fun c => (Lru.Get c (RefString br)).1) <$> lru s /\
  r = match blobs_ s !! br with Some d => Ok (d, glen d) | None => Err ErrNotExist end.
Proof.
  intros Hm. unfold memFetch. destruct (lru s) as [c|] eqn:El; simpl;
    (destruct (blobs_ s !! br) as [d|] eqn:E; intros [= <- <-]; simpl;
      [rewrite (u32_len _ _ _ Hm E); unfold glen at 1; rewrite Nat2Z.id, firstn_all|]); by split_and!.
Qed.

(** [ReceiveBlob] up to the storing: what it does with a source. *)
Definition received_ (s : MemStorage) (br : Ref) (d : gostr) (p : MemStorage * res SizedRef) : Prop :=
  match blobs_ s !! br with
  | Some _ => p = (s, Ok (sized (br, d)))
  | None =>
      let s1 := setBlobs s (<[br := d]> (blobs_ s)) (i64 (size_ s + glen d)) in
      let s2 := match lru s1 with
                | Some c => setLru s1 (Some (Lru.Add c (RefString br) tt))
                | None => s1
                end in
      p = match evict (S (lruLen s2)) s2 with
          | Ok s3 => (s3, Ok (sized (br, d)))
          | Err e => (s2, Err e)
          | Panic q => (s2, Panic q)
          | Blocked => (s2, Blocked)
          end
  end.

#[local] Arguments Lru.Add : simpl never.

Lemma memReceiveBlob_cases s br src :
  glen src.1 < 2 ^ 32 -> Valid br = true ->
  (src.2 = Ok tt /\ br = refOf src.1 /\ received_ s br src.1 (memReceiveBlob s br src)) \/
  (exists e, memReceiveBlob s br src = (s, Err e) /\
     (match Hash br with Ok (Some _) => true | _ => false end = true -> src.2 = Err e \/ src.2 = Ok tt) /\
     (src.2 = Ok tt -> br ≠ refOf src.1)) \/
  (exists p, memReceiveBlob s br src = (s, Panic p) /\ src.2 = Panic p) \/
  (memReceiveBlob s br src = (s, Blocked) /\ src.2 = Blocked).
Proof.
  intros Hl Hv. unfold memReceiveBlob.
  destruct (Hash br) as [[h|]| | |] eqn:Eh; [| |by destruct br as [[[]|]]..].
  2: { right; left. eexists. split_and!; [done|done|]. intros _ ->. done. }
  pose proof (Hash_good br h Eh) as ->.
  unfold readAll. destruct src as [d [[]|e|p|]]; simpl in *.
  - rewrite HashMatches_sha1 by done. case_bool_decide as Hbr; simpl.
    + left. split_and!; [done..|]. unfold received_, sized. simpl.
      rewrite (u32_small (glen d)) by (split; [apply glen_nonneg|done]). by destruct (blobs_ s !! br).
    + right; left. eexists. split; [done|]. auto.
  - right; left. exists e. split_and!; auto; done.
  - right; right; left. by exists p.
  - by right; right; right.
Qed.

Lemma evict_plain s fuel : maxSize s = 0 -> evict (S fuel) s = Ok s.
Proof. intros Hm. cbn [evict]. by rewrite Hm. Qed.

#[local] Arguments evict : simpl never.

Lemma union_insert_fresh (m : blobs) br d : m !! br = None -> m ∪ {[br := d]} = <[br := d]> m.
Proof.
  intros Hm. rewrite insert_union_singleton_l. apply map_union_comm.
  by apply map_disjoint_singleton_r.
Qed.

Lemma union_present (m : blobs) br d d' : m !! br = Some d' -> m ∪ {[br := d]} = m.
Proof.
  intros Hm. apply map_eq. intros br'. destruct (decide (br' = br)) as [->|Hne].
  - rewrite Hm. by apply lookup_union_Some_l.
  - apply lookup_union_l. by rewrite lookup_singleton_ne.
Qed.

Lemma memReceive_plain s br src s' r :
  memPlain s -> goodRef br -> glen src.1 < 2 ^ 32 -> memReceiveBlob s br src = (s', r) ->
  memPlain s' /\
  match r with
  | Ok sb => src.2 = Ok tt /\ sb = sized (br, src.1) /\ blobs_ s' = blobs_ s ∪ {[br := src.1]}
  | Err e => blobs_ s' = blobs_ s /\ (match Hash br with Ok (Some _) => true | _ => false end = true ->
                                     src.2 = Err e \/ src.2 = Ok tt)
  | Panic p => blobs_ s' = blobs_ s /\ src.2 = Panic p
  | Blocked => blobs_ s' = blobs_ s /\ src.2 = Blocked
  end.
Proof.
  intros Hp Hbr Hl Hr. pose proof Hp as (Hmax & Hlru & Hm & Hsz).
  destruct (memReceiveBlob_cases s br src Hl) as [(Hok & -> & Hrec)|[(e & He & Hread & _)|[(p & He & Hpan)|(He & Hb)]]];
    [by apply refWf_Valid, Hbr| |rewrite He in Hr; by simplify_eq..].
  rewrite Hr in Hrec. unfold received_ in Hrec.
  destruct (blobs_ s !! refOf src.1) as [d'|] eqn:E; simpl in Hrec.
  - simplify_eq. split; [done|]. split_and!; [done..|]. symmetry. by eapply union_present.
  - rewrite Hlru in Hrec. rewrite evict_plain in Hrec by done. simplify_eq.
    split; [split_and!; simpl; try done|].
    + by apply hashed_insert.
    + unfold sizeOk in *. simpl. rewrite sumBlobs_insert by done. rewrite Hsz, i64_add_l. f_equal. lia.
    + split_and!; [done..|]. simpl. by rewrite union_insert_fresh.
Qed.

#[global, program] Instance mem_StorageLaws : StorageLaws MemStorage := {
  st_view := blobs_;
  st_wf := memPlain
}.
Next Obligation. intros s (_ & _ & Hm & _). by apply hashed_good. Qed.
Next Obligation.
  intros s br s' r (Hmax & Hlru & Hm & Hsz) Hf. simpl in Hf.
  apply memFetch_spec in Hf as (Hb & Hmx & Hs & Hl & ->); [|done]. rewrite Hlru in Hl. split_and!.
  - split_and!; [congruence|done|by rewrite Hb|]. unfold sizeOk in *. by rewrite Hs, Hb.
  - done.
  - by destruct (blobs_ s !! br).
Qed.
Next Obligation. intros s br src s' r Hp Hbr Hl Hr. by apply memReceive_plain. Qed.
Next Obligation.
  intros s brs out r (_ & _ & Hm & _) Hn Hs. simpl in Hs. rewrite memStatBlobs_spec in Hs by done. by simplify_eq.
Qed.
Next Obligation.
  intros s c after limit out r (_ & _ & Hm & _) Hlim He. simpl in He.
  rewrite memEnumerateBlobs_spec in He by done. rewrite (proj2 (Z.ltb_lt _ _) Hlim) in He.
  pose proof (sendAll_prefix c (enumSpec (blobs_ s) after limit)) as Hp. by rewrite He in Hp.
Qed.
Next Obligation.
  intros s brs s' r (Hmax & Hlru & Hm & Hsz) He. simpl in He. unfold memRemoveBlobs in He. simplify_eq.
  destruct (removeAll_spec s brs Hsz) as (H1 & H2 & H3 & H4). split; [|done].
  split_and!; [congruence|congruence| |done]. rewrite H2.
  eapply hashed_subseteq; [apply removeSpec_subseteq|done].
Qed.

#[global] Instance mem_SubFetcherLaws : SubFetcherLaws MemStorage.
Proof.
  constructor. intros s br offset length s' r d Hp Hd Ho Hl Hlen Hf. simpl in Hf, Hd. unfold memSubFetch in Hf.
  rewrite Hd in Hf. injection Hf as <- <-. pose proof Hp as (Hmax & Hlru & Hm & Hsz). split; [done|]. split; [done|].
  destruct (Hm br d Hd) as [_ H32]. unfold sectionReader. rewrite i64_small by lia.
  destruct (Z.leb_spec (offset + length) offset).
  - by replace length with 0 by lia.
  - by rewrite (proj2 (Z.ltb_ge offset 0)) by lia.
Qed.

(** * The cache *)

Abbreviation lruKeys := (list (gostr * unit)).

(** The blobs whose reference is not among the keys [ks]. *)
Definition without (ks : list gostr) (m : blobs) : blobs := filter (fun p => RefString p.1 ∉ ks) m.

(** Every blob has its LRU entry, and every entry is a reference's text
    ([RemoveBlobs] leaves entries of removed blobs behind). *)
Definition covers (v : lruKeys) (m : blobs) : Prop :=
  (forall br, is_Some (m !! br) -> RefString br ∈ v.*1) /\
  (forall k, k ∈ v.*1 -> exists d, k = RefString (refOf d)).

Definition cacheMax : Z := 2 ^ 31 - 1.

Definition cacheWf (s : MemStorage) (v : lruKeys) : Prop :=
  0 < maxSize s <= 2 ^ 62 /\ hashed (blobs_ s) /\ sizeOk s /\ covers v (blobs_ s) /\
  sumBlobs (blobs_ s) <= maxSize s /\ exists c, lru s = Some c /\ Lru.lruOk cacheMax c v.

Lemma lookup_without ks m br :
  without ks m !! br = if decide (RefString br ∈ ks) then None else m !! br.
Proof.
  unfold without. rewrite map_lookup_filter. destruct (m !! br) as [d|]; simpl.
  - destruct (decide (RefString br ∈ ks)); [by rewrite option_guard_False by tauto|by rewrite option_guard_True].
  - by destruct (decide _).
Qed.

Lemma without_nil m : without [] m = m.
Proof. apply map_eq. intros br. rewrite lookup_without. by rewrite decide_False by apply not_elem_of_nil. Qed.

Lemma without_snoc ks d m :
  hashed m -> without (ks ++ [RefString (refOf d)]) m = without ks (delete (refOf d) m).
Proof.
  intros Hm. apply map_eq. intros br. rewrite !lookup_without, lookup_delete.
  destruct (m !! br) as [x|] eqn:E; [|by repeat destruct (decide _)].
  destruct (Hm br x E) as [-> _].
  destruct (decide (refOf d = refOf x)) as [<-|Hne].
  - rewrite decide_True by set_solver. by destruct (decide _).
  - destruct (decide (RefString (refOf x) ∈ ks)) as [Hin|Hin]; [by rewrite decide_True by set_solver|].
    rewrite decide_False; [done|]. rewrite elem_of_app, elem_of_cons. intros [?|[He|?]]; [done| |set_solver].
    apply Hne. symmetry. apply goodRef_inj; [apply refOf_good..|done].
Qed.

Lemma covers_nil m : covers [] m -> m = ∅.
Proof.
  intros [Hc _]. apply map_eq. intros br. rewrite lookup_empty. apply eq_None_not_Some.
  intros Hs%Hc. set_solver.
Qed.

Lemma covers_snoc v d m : hashed m ->
  covers (v ++ [(RefString (refOf d), tt)]) m -> covers v (delete (refOf d) m).
Proof.
  intros Hm [Hc Hk]. split.
  - intros br [x [Hne Hx]%lookup_delete_Some]. specialize (Hc br ltac:(by eexists)).
    rewrite fmap_app, elem_of_app in Hc. destruct Hc as [|Hc]; [done|].
    apply list_elem_of_singleton in Hc. simpl in Hc. destruct Hne. symmetry. apply goodRef_inj; [|apply refOf_good|done].
    by eapply (hashed_good m Hm).
  - intros k Hin. apply Hk. rewrite fmap_app. set_solver.
Qed.

Lemma small_size s : sizeOk s -> sumBlobs (blobs_ s) < 2 ^ 63 -> size_ s = sumBlobs (blobs_ s).
Proof. intros -> Hl. apply i64_small. pose proof (sumBlobs_nonneg (blobs_ s)). lia. Qed.

(** What the eviction loop leaves: the least recently used entries are gone,
    no more of them than needed. *)
Definition evicted (s s' : MemStorage) (v : lruKeys) : Prop :=
  maxSize s' = maxSize s /\ sizeOk s' /\
  exists kept gone c', v = kept ++ gone /\ lru s' = Some c' /\ Lru.lruOk cacheMax c' kept /\
    blobs_ s' = without gone.*1 (blobs_ s) /\ covers kept (blobs_ s') /\
    sumBlobs (blobs_ s') <= maxSize s /\
    (forall p rest, gone = p :: rest -> maxSize s < sumBlobs (without rest.*1 (blobs_ s))).

Lemma evict_done s v c :
  sizeOk s -> lru s = Some c -> Lru.lruOk cacheMax c v -> covers v (blobs_ s) ->
  sumBlobs (blobs_ s) <= maxSize s -> evicted s s v.
Proof.
  intros Hsz Hl Hok Hc Hle. split; [done|]. split; [done|].
  exists v, [], c. rewrite app_nil_r. split_and!; try done. by rewrite without_nil.
Qed.

Lemma RemoveOldest_snoc c (v : lruKeys) k :
  Lru.lruOk cacheMax c (v ++ [(k, tt)]) ->
  exists c', Lru.RemoveOldest c = (c', (k, Some tt)) /\ Lru.lruOk cacheMax c' v.
Proof.
  intros Hok. apply Lru.removeOldest_ok in Hok as [H1 H2].
  destruct (Lru.RemoveOldest c) as [c' o]; simpl in *. exists c'.
  unfold Lru.specRemoveOldest in H1, H2. rewrite last_snoc in H1, H2. simpl in *. subst o. split; [done|].
  rewrite length_app, Nat.add_1_r in H1. simpl in H1. by rewrite take_app_length in H1.
Qed.

Lemma evict_spec fuel s v c :
  0 < maxSize s -> hashed (blobs_ s) -> sizeOk s -> sumBlobs (blobs_ s) < 2 ^ 63 ->
  covers v (blobs_ s) -> lru s = Some c -> Lru.lruOk cacheMax c v -> (length v < fuel)%nat ->
  exists s', evict fuel s = Ok s' /\ evicted s s' v.
Proof.
  revert s v c. induction fuel as [|fuel IH]; intros s v c Hmax Hm Hsz Hlt Hc Hl Hok Hf; [lia|].
  unfold evict; fold evict. rewrite (proj2 (Z.eqb_neq (maxSize s) 0)) by lia. simpl negb. cbn [andb].
  rewrite (small_size s Hsz Hlt). destruct (Z.gtb_spec (sumBlobs (blobs_ s)) (maxSize s)) as [Hgt|Hle].
  2: { exists s. split; [done|]. by eapply evict_done. }
  rewrite Hl. destruct (decide (v = [])) as [->|Hne].
  { apply covers_nil in Hc. rewrite Hc, sumBlobs_empty in Hgt. lia. }
  destruct (exists_last Hne) as (v0 & [k []] & ->).
  destruct (proj2 Hc k) as [d ->]; [rewrite fmap_app; set_solver|].
  destruct (RemoveOldest_snoc c v0 _ Hok) as (c' & -> & Hok'). cbn zeta.
  rewrite decide_True by apply goodRef_nonempty, refOf_good.
  rewrite MustParse_RefString by apply refOf_good. cbn [rbind].
  destruct (removeBlobLocked_spec (setLru s (Some c')) (refOf d) Hsz) as (H1 & H2 & H3 & H4).
  simpl in H2, H3, H4. set (s1 := removeBlobLocked _ _) in *.
  destruct (IH s1 v0 c') as (s' & Hs' & Hmx & Hsz' & kept & gone & c2 & -> & Hl2 & Hok2 & Hb & Hcov & Hle & Hmin);
    rewrite ?H2, ?H3, ?H4; try done.
  - eapply hashed_subseteq; [apply delete_subseteq|done].
  - eapply Z.le_lt_trans; [apply sumBlobs_mono, delete_subseteq|done].
  - by apply covers_snoc.
  - rewrite length_app in Hf. simpl in Hf. lia.
  - exists s'. split; [done|]. split; [congruence|]. split; [done|].
    exists kept, (gone ++ [(RefString (refOf d), tt)]), c2. rewrite fmap_app. simpl.
    split_and!; [by rewrite app_assoc|done|done|by rewrite without_snoc, Hb, H2|done|by rewrite <- H4|].
    intros p rest Hgone. destruct gone as [|p' gone]; simplify_eq/=.
    + by rewrite without_nil.
    + rewrite fmap_app. simpl. rewrite without_snoc by done. rewrite <- H2, <- H4. by eapply Hmin.
Qed.

Lemma covers_add v d m :
  covers v m -> (length v < Z.to_nat cacheMax)%nat ->
  covers (Lru.specAdd cacheMax v (RefString (refOf d)) tt) (<[refOf d := d]> m).
Proof.
  intros [Hc Hk] Hl. unfold Lru.specAdd. rewrite take_ge by (simpl; lia).
  assert (forall k, k ∈ (if decide (RefString (refOf d) ∈ v.*1)
      then (RefString (refOf d), tt) :: Lru.specDrop (RefString (refOf d)) v
      else (RefString (refOf d), tt) :: v).*1 <-> k = RefString (refOf d) \/ k ∈ v.*1) as Hkeys.
  { intros k. destruct (decide (RefString (refOf d) ∈ v.*1)); rewrite fmap_cons, elem_of_cons; [|done].
    simpl. rewrite !list_elem_of_fmap. unfold Lru.specDrop.
    split; [intros [|(p & -> & Hp)]; [by left|right]|intros [|(p & -> & Hp)]; [by left|]].
    - apply list_elem_of_filter in Hp as [_ Hp]. by exists p.
    - destruct (decide (p.1 = RefString (refOf d))); [by left|right]. exists p. by rewrite list_elem_of_filter. }
  split.
  - intros br [x [[<- _]|[_ Hx]]%lookup_insert_Some]; apply Hkeys; [by left|right]. apply Hc. by eexists.
  - intros k [->|Hin]%Hkeys; [by exists d|auto].
Qed.

(** C28. Receiving a new blob into the cache: it is stored first in recency
    order and then the least recently used entries are evicted, only as many
    as needed, so that the blobs kept are no more than [maxSize] bytes; the
    accounting stays exact and the eviction always terminates.  A blob that
    is already there changes nothing. *)
Theorem memCache_receive (s : MemStorage) (v : list (gostr * unit)) (d : gostr) :
  cacheWf s v -> glen d < 2 ^ 32 -> (length v < Z.to_nat cacheMax)%nat ->
  let br := refOf d in
  let '(s', r) := memReceiveBlob s br (d, Ok tt) in
  r = Ok (sized (br, d)) /\
  match blobs_ s !! br with
  | Some _ => s' = s
  | None =>
      exists kept gone,
        Lru.specAdd cacheMax v (RefString br) tt = kept ++ gone /\ cacheWf s' kept /\
        blobs_ s' = without gone.*1 (<[br := d]> (blobs_ s)) /\
        (forall p rest, gone = p :: rest -> maxSize s < sumBlobs (without rest.*1 (<[br := d]> (blobs_ s))))
  end.
Proof.
  intros (Hmax & Hm & Hsz & Hc & Hle & c & Hl & Hok) Hd Hroom br.
  destruct (memReceiveBlob_cases s br (d, Ok tt)) as [(_ & _ & Hrec)|[(e & _ & _ & Hn)|[(p & _ & ?)|(_ & ?)]]];
    [done|done| |by destruct Hn|done..].
  destruct (memReceiveBlob s br (d, Ok tt)) as [s' r]. unfold received_ in Hrec. cbn [fst] in Hrec.
  destruct (blobs_ s !! br) as [x|] eqn:E; [by simplify_eq|].
  set (s1 := setBlobs _ _ _) in Hrec. change (lru s1) with (lru s) in Hrec. rewrite Hl in Hrec.
  set (s2 := setLru s1 _) in Hrec.
  assert (blobs_ s2 = <[br := d]> (blobs_ s)) as Hb2 by done.
  pose proof (Lru.Add_ok cacheMax c v (RefString br) tt Hok) as Hok2.
  assert (sumBlobs (blobs_ s2) = glen d + sumBlobs (blobs_ s)) as Hsum by (rewrite Hb2; by apply sumBlobs_insert).
  destruct (evict_spec (S (lruLen s2)) s2 (Lru.specAdd cacheMax v (RefString br) tt)
      (Lru.Add c (RefString br) tt)) as (s3 & Hev & Hmx & Hsz3 & kept & gone & c' & Hv & Hl3 & Hok3 & Hb3 & Hc3 & Hle3 & Hmin);
    [|rewrite Hb2; by apply hashed_insert| |lia|rewrite Hb2; by apply covers_add|done|done| |].
  - change (maxSize s2) with (maxSize s). lia.
  - unfold sizeOk. rewrite Hsum. change (size_ s2) with (i64 (size_ s + glen d)). rewrite Hsz, i64_add_l. f_equal. lia.
  - unfold lruLen. change (lru s2) with (Some (Lru.Add c (RefString br) tt)).
    destruct Hok2 as (Hwf2 & Hv2 & _). rewrite <- Hv2, Lru.lruView_length by done. lia.
  - rewrite Hev in Hrec. injection Hrec as -> ->. split; [done|]. exists kept, gone.
    rewrite <- Hb2. split_and!; [done| |done|done].
    change (maxSize s2) with (maxSize s) in Hmx, Hle3. unfold cacheWf. rewrite Hmx.
    split_and!; [lia|lia| |done|apply Hc3..|done|by exists c'].
    rewrite Hb3. eapply hashed_subseteq; [apply map_filter_subseteq|]. rewrite Hb2. by apply hashed_insert.
Qed.

Lemma covers_keys v v' m : (forall k, k ∈ v'.*1 <-> k ∈ v.*1) -> covers v m -> covers v' m.
Proof. intros Hk [H1 H2]. split; intros; [apply Hk|apply H2, Hk]; auto. Qed.

Lemma specGet_keys (v : lruKeys) k k' : k' ∈ (Lru.specGet v k).1.*1 <-> k' ∈ v.*1.
Proof.
  unfold Lru.specGet. destruct (list_to_map v !! k) as [[]|] eqn:E; [|done]. simpl.
  apply elem_of_list_to_map_2 in E. rewrite elem_of_cons, !list_elem_of_fmap. unfold Lru.specDrop. split.
  - intros [->|(p & -> & [_ Hp]%list_elem_of_filter)]; [by exists (k, tt)|by exists p].
  - intros (p & -> & Hp). destruct (decide (p.1 = k)); [by left|right]. exists p. by rewrite list_elem_of_filter.
Qed.

(** The cache's other operations: a fetch returns the blob and makes its
    entry the most recent one; removals take blobs away and leave their LRU
    entries behind; both keep the cache's invariant, its exact accounting
    and its byte bound. *)
Theorem memCache_fetch_remove (s : MemStorage) (v : list (gostr * unit)) (br : Ref) (brs : list Ref) :
  cacheWf s v ->
  (let '(s', r) := memFetch s br in
   r = (match blobs_ s !! br with Some d => Ok (d, glen d) | None => Err ErrNotExist end) /\
   blobs_ s' = blobs_ s /\ cacheWf s' (Lru.specGet v (RefString br)).1) /\
  (let '(s', r) := memRemoveBlobs s brs in
   r = Ok tt /\ blobs_ s' = removeSpec (blobs_ s) brs /\ cacheWf s' v).
Proof.
  intros (Hmax & Hm & Hsz & Hc & Hle & c & Hl & Hok). split.
  - destruct (memFetch s br) as [s' r] eqn:E. apply memFetch_spec in E as (Hb & Hmx & Hs & Hlr & ->); [|done].
    split; [done|]. split; [done|]. unfold cacheWf, sizeOk. rewrite Hb, Hmx, Hs, Hlr, Hl.
    split_and!; [lia|lia|done|done|apply (covers_keys v); [apply specGet_keys|done]..|done|].
    eexists. split; [done|]. by apply Lru.Get_ok.
  - unfold memRemoveBlobs. destruct (removeAll_spec s brs Hsz) as (H1 & H2 & H3 & H4).
    split; [done|]. split; [done|]. unfold cacheWf. rewrite H2, H3, H4.
    split_and!; [lia|lia| |done|split; [|apply Hc]| |by exists c].
    + eapply hashed_subseteq; [apply removeSpec_subseteq|done].
    + intros b [d Hd]. apply Hc. exists d. eapply lookup_weaken; [done|apply removeSpec_subseteq].
    + etrans; [|done]. apply sumBlobs_mono, removeSpec_subseteq.
Qed.

Lemma NewCache_wf max : 0 < max <= 2 ^ 62 -> cacheWf (NewCache max) [].
Proof.
  intros Hmax. unfold cacheWf; simpl.
  assert (forall br d, (∅ : blobs) !! br ≠ Some d) as Hempty by (intros br d; apply lookup_empty_Some).
  split; [lia|]. split; [intros br d Hd; by apply Hempty in Hd|]. split; [done|].
  split; [split; [intros br [d Hd]; by apply Hempty in Hd|intros k Hk; set_solver]|].
  split; [rewrite sumBlobs_empty; lia|]. eexists. split; [done|]. apply Lru.New_ok.
Qed.

(** A cache of 5 bytes that received two blobs of 3 and fetched the first. *)
Definition exampleCache : MemStorage :=
  (memReceiveBlob (NewCache 5) (refOf (gs "abc")) (gs "abc", Ok tt)).1.

Example exampleCache_evicts :
  let s := (memReceiveBlob exampleCache (refOf (gs "defg")) (gs "defg", Ok tt)).1 in
  SumBlobSize s = 4 /\ BlobrefStrings s = [RefString (refOf (gs "defg"))].
Proof. vm_compute. done. Qed.

Lemma memCache_receive_witness :
  let br := refOf (gs "abc") in
  let '(s', r) := memReceiveBlob (NewCache 5) br (gs "abc", Ok tt) in
  r = Ok (sized (br, gs "abc")) /\
  match blobs_ (NewCache 5) !! br with
  | Some _ => s' = NewCache 5
  | None =>
      exists kept gone,
        Lru.specAdd cacheMax [] (RefString br) tt = kept ++ gone /\ cacheWf s' kept /\
        blobs_ s' = without gone.*1 (<[br := gs "abc"]> (blobs_ (NewCache 5))) /\
        (forall p rest, gone = p :: rest ->
           maxSize (NewCache 5) < sumBlobs (without rest.*1 (<[br := gs "abc"]> (blobs_ (NewCache 5)))))
  end.
Proof.
  apply (memCache_receive (NewCache 5) [] (gs "abc")).
  - by apply NewCache_wf.
  - done.
  - unfold cacheMax. simpl. lia.
Defined.

Lemma memCache_fetch_remove_witness :
  let br := refOf (gs "abc") in
  (let '(s', r) := memFetch (NewCache 5) br in
   r = (match blobs_ (NewCache 5) !! br with Some d => Ok (d, glen d) | None => Err ErrNotExist end) /\
   blobs_ s' = blobs_ (NewCache 5) /\ cacheWf s' (Lru.specGet [] (RefString br)).1) /\
  (let '(s', r) := memRemoveBlobs (NewCache 5) [br] in
   r = Ok tt /\ blobs_ s' = removeSpec (blobs_ (NewCache 5)) [br] /\ cacheWf s' []).
Proof. apply memCache_fetch_remove. by apply NewCache_wf. Defined.

(** * The plain storage's operations, on every branch *)

Lemma streamLoop_spec s token n l :
  hashed (blobs_ s) -> (forall sb, sb ∈ l -> sb ∈ sizedAll (blobs_ s)) ->
  streamLoop s None token n (sr_ref <$> l) =
    ((fun sb => (sb, default [] (blobs_ s !! sr_ref sb), sizedStr sb)) <$>
       filter (fun sb => str_le token (sizedStr sb)) l, Ok tt).
Proof.
  intros Hm. revert n. induction l as [|sb l IH]; intros n Hl; [done|].
  rewrite fmap_cons. cbn [streamLoop]. rewrite filter_cons.
  destruct (proj1 (elem_of_sizedAll _ _) (Hl sb ltac:(apply list_elem_of_here))) as (d & Hd & Hsz).
  destruct (decide (str_lt (RefString (sr_ref sb)) token)) as [Hlt|Hlt].
  - rewrite IH by (intros; apply Hl; by apply list_elem_of_further).
    rewrite (decide_False (P := str_le token (sizedStr sb))); [done|]. by rewrite str_not_le.
  - rewrite (decide_True (P := str_le token (sizedStr sb))) by by apply str_not_lt.
    rewrite decide_False by done. rewrite IH by (intros; apply Hl; by apply list_elem_of_further).
    rewrite fmap_cons, Hd. simpl. rewrite (u32_len _ _ _ Hm Hd), <- Hsz. by destruct sb.
Qed.

(** The plain in-memory storage is the finite map of the blobs it
    received: each operation, on each of its branches, returns what the map
    says, and a blob enters only under the reference its bytes hash to. *)
Theorem memPlain_spec (s : MemStorage) (br : Ref) (d : gostr) (brs : list Ref) (after token : gostr) (limit : Z) :
  memPlain s -> glen d < 2 ^ 32 -> Valid br = true ->
  let m := blobs_ s in
  (memFetch s br).2 = (match m !! br with Some b => Ok (b, glen b) | None => Err ErrNotExist end) /\
  (let '(s', r) := memReceiveBlob s br (d, Ok tt) in
   memPlain s' /\
   if decide (br = refOf d) then r = Ok (sized (br, d)) /\ blobs_ s' = m ∪ {[br := d]}
   else is_ok r = false /\ s' = s) /\
  memStatBlobs s brs = (statSpec m brs, Ok tt) /\
  memEnumerateBlobs s None after limit =
    (if 0 <? limit then enumSpec m after limit else enumAfter m after, Ok tt) /\
  memStreamBlobs s None token =
    ((fun sb => (sb, default [] (m !! sr_ref sb), sizedStr sb)) <$>
       filter (fun sb => str_le token (sizedStr sb)) (sizedAll m), Ok tt) /\
  blobs_ (memRemoveBlobs s brs).1 = removeSpec m brs /\ memPlain (memRemoveBlobs s brs).1 /\
  BlobContents s br = m !! br /\ SumBlobSize s = i64 (sumBlobs m).
Proof.
  intros Hp Hd Hv m. pose proof Hp as (Hmax & Hlru & Hm & Hsz). split_and!.
  - destruct (memFetch s br) as [s' r] eqn:E. by apply memFetch_spec in E as (_ & _ & _ & _ & ->).
  - destruct (memReceiveBlob s br (d, Ok tt)) as [s' r] eqn:E.
    destruct (memReceiveBlob_cases s br (d, Ok tt) Hd Hv) as [(_ & -> & _)|[(e & He & _ & Hn)|[(p & _ & ?)|(_ & ?)]]];
      [| |done..].
    + rewrite decide_True by done. simpl in *.
      pose proof (memReceive_plain s (refOf d) (d, Ok tt) s' r Hp (refOf_good d) Hd E) as [Hp' Hr].
      split; [done|]. destruct r as [sb|e|p|]; [by destruct Hr as (_ & -> & ->)| |by destruct Hr..].
      exfalso. destruct (memReceiveBlob_cases s (refOf d) (d, Ok tt) Hd Hv)
        as [(_ & _ & Hrec)|[(e' & _ & _ & Hn)|[(p & _ & ?)|(_ & ?)]]]; [|by destruct Hn|done..].
      simpl in E. rewrite E in Hrec. unfold received_ in Hrec. simpl in Hrec.
      destruct (blobs_ s !! refOf d); [done|]. rewrite Hlru in Hrec. by rewrite evict_plain in Hrec.
    + rewrite E in He. simplify_eq. split; [done|]. by rewrite decide_False by (by apply Hn).
  - by apply memStatBlobs_spec.
  - by rewrite memEnumerateBlobs_spec.
  - unfold memStreamBlobs. rewrite sortedRefs_spec by by apply hashed_good. by apply streamLoop_spec.
  - by destruct (removeAll_spec s brs Hsz) as (_ & ? & _).
  - destruct (removeAll_spec s brs Hsz) as (H1 & H2 & H3 & H4). split_and!; simpl; [congruence|congruence| |done].
    rewrite H2. eapply hashed_subseteq; [apply removeSpec_subseteq|done].
  - done.
  - done.
Qed.

Lemma memPlain_spec_witness :
  (memFetch newMem (refOf (gs "a"))).2 = Err ErrNotExist /\
  (let '(s', r) := memReceiveBlob newMem (refOf (gs "a")) (gs "a", Ok tt) in
   memPlain s' /\
   if decide (refOf (gs "a") = refOf (gs "a"))
   then r = Ok (sized (refOf (gs "a"), gs "a")) /\ blobs_ s' = blobs_ newMem ∪ {[refOf (gs "a") := gs "a"]}
   else is_ok r = false /\ s' = newMem).
Proof.
  destruct (memPlain_spec newMem (refOf (gs "a")) (gs "a") [] [] [] 1 newMem_plain) as (H1 & H2 & _);
    [reflexivity|reflexivity|]. split; [exact H1|exact H2].
Defined.
