(* ===== verification/Shard.v ===== *)
(** The sharding storage of pkg/blobserver/shard/shard.go: each blob lives on
    the backend its reference's [Sum32] selects.

    The backends are any lawful storages.  The goroutines of a batched call
    each work on their own backend, so they are run one after the other; the
    order of what they send, and which error arrives last, are left open. *)

From S2P Require Import Prelude Ref Sha1 Storage Enumerate.

(** What one goroutine of a batch sends and returns. *)
Abbreviation batch := (list SizedRef * res unit)%type.

Section shard.
Context {S : Type} `{!Storage S}.

(** Which of the errors received from the goroutines is the last. *)
Context (lastErr : list error -> error).

Abbreviation shardStorage := (list S).

Definition shardNum (sto : shardStorage) (b : Ref) : res Z :=
  let? v := Sum32 b in
  if u32 (glen sto) =? 0 then Panic "integer divide by zero" else Ok (v mod u32 (glen sto)).

(** A call on [sto.shard(b)]. *)
Definition onShard {A} (sto : shardStorage) (b : Ref) (f : S -> S * res A) : shardStorage * res A :=
  match shardNum sto b with
  | Ok n =>
      match sto !! Z.to_nat n with
      | Some s => let '(s', r) := f s in (<[Z.to_nat n := s']> sto, r)
      | None => (sto, Panic "index out of range")
      end
  | Err e => (sto, Err e)
  | Panic p => (sto, Panic p)
  | Blocked => (sto, Blocked)
  end.

Definition shardFetch (sto : shardStorage) (b : Ref) : shardStorage * res (gostr * Z) :=
  onShard sto b (fun s => st_Fetch s b).

Definition shardReceiveBlob (sto : shardStorage) (b : Ref) (source : reader) : shardStorage * res SizedRef :=
  onShard sto b (fun s => st_ReceiveBlob s b source).

(** The map from shard numbers to their blobs, in order of appearance. *)
Fixpoint groupBlobs (sto : shardStorage) (m : gmap Z (list Ref)) (brs : list Ref) : res (gmap Z (list Ref)) :=
  match brs with
  | [] => Ok m
  | b :: brs =>
      let? sn := shardNum sto b in
      groupBlobs sto (<[sn := default [] (m !! sn) ++ [b]]> m) brs
  end.

Fixpoint runGroups (fn : S -> list Ref -> S * batch) (sto : shardStorage) (gs : list (Z * list Ref))
    : shardStorage * list batch :=
  match gs with
  | [] => (sto, [])
  | (sn, sblobs) :: gs =>
      match sto !! Z.to_nat sn with
      | Some s =>
          let '(s', out) := fn s sblobs in
          let '(sto', outs) := runGroups fn (<[Z.to_nat sn := s']> sto) gs in (sto', out :: outs)
      | None => (sto, [([], Panic "index out of range")])
      end
  end.

Definition batchedShards (fn : S -> list Ref -> S * batch) (sto : shardStorage) (brs : list Ref)
    : shardStorage * batch :=
  match groupBlobs sto ∅ brs with
  | Ok m =>
      let '(sto', outs) := runGroups fn sto (map_to_list m) in
      (sto', (concat outs.*1, batchErr lastErr outs.*2))
  | Err e => (sto, ([], Err e))
  | Panic p => (sto, ([], Panic p))
  | Blocked => (sto, ([], Blocked))
  end.

Definition shardRemoveBlobs (sto : shardStorage) (brs : list Ref) : shardStorage * res unit :=
  let '(sto', (_, r)) :=
    batchedShards (fun s brs => let '(s', r) := st_RemoveBlobs s brs in (s', ([], r))) sto brs in
  (sto', r).

Definition shardStatBlobs (sto : shardStorage) (brs : list Ref) : list SizedRef * res unit :=
  (batchedShards (fun s brs => (s, st_StatBlobs s brs)) sto brs).2.

Definition shardEnumerateBlobs (sto : shardStorage) (c : ctx) (after : gostr) (limit : Z)
    : list SizedRef * res unit :=
  MergedEnumerateStorage c sto after limit.
End shard.

(** * Placement *)

Section shard_proofs.
Context {S : Type} `{StorageLaws S} (lastErr : list error -> error).
Implicit Types sto : list S.

Definition shardView sto : blobs := ⋃ (st_view <$> sto).

(** The backend a reference belongs to. *)
Definition shardIdx (n : nat) (b : Ref) : nat :=
  match Sum32 b with Ok v => Z.to_nat (v mod Z.of_nat n) | _ => 0%nat end.

(** Each backend only holds blobs that belong to it. *)
Record shardWf sto : Prop := MkShardWf {
  sh_some : sto ≠ [];
  sh_small : glen sto < 2 ^ 32;
  sh_wf : Forall st_wf sto;
  sh_placed : forall i s br, sto !! i = Some s -> is_Some (st_view s !! br) -> shardIdx (length sto) br = i
}.

Lemma shardNum_ok sto b :
  shardWf sto -> goodRef b ->
  exists n s, shardNum sto b = Ok n /\ Z.to_nat n = shardIdx (length sto) b /\ 0 <= n /\
    sto !! shardIdx (length sto) b = Some s.
Proof.
  intros Hwf [Hb _]. destruct (Sum32_ok b Hb) as (d & v & _ & Hs & Hv & _).
  pose proof (sh_small sto Hwf) as Hl. pose proof (sh_some sto Hwf) as Hne.
  assert (0 < glen sto) as Hpos by (unfold glen; destruct sto; simpl; [done|lia]).
  unfold shardNum, shardIdx. rewrite Hs. simpl. rewrite u32_small by lia.
  rewrite (proj2 (Z.eqb_neq _ _)) by lia. pose proof (Z.mod_pos_bound v (glen sto) Hpos) as Hm.
  change (Z.of_nat (length sto)) with (glen sto).
  destruct (lookup_lt_is_Some_2 sto (Z.to_nat (v mod glen sto))) as [s Hsome]; [unfold glen in *; lia|].
  exists (v mod glen sto), s. split_and!; [done|done|lia|done].
Qed.

(** A reference's lookup in the union is its own backend's. *)
Lemma lookup_union_placed (ms : list blobs) i m br :
  ms !! i = Some m -> (forall j m', ms !! j = Some m' -> j ≠ i -> m' !! br = None) ->
  (⋃ ms) !! br = m !! br.
Proof.
  revert i. induction ms as [|m0 ms IH]; intros i Hi Hn; [done|]. simpl.
  destruct i as [|i]; simpl in Hi.
  - simplify_eq. apply lookup_union_l.
    assert (forall m', m' ∈ ms -> m' !! br = None) as Hall.
    { intros m' [j Hj]%list_elem_of_lookup. by apply (Hn (Datatypes.S j) m'). }
    clear -Hall. induction ms as [|m' ms IH]; [apply lookup_empty|]. simpl.
    rewrite lookup_union_r by apply Hall, list_elem_of_here.
    apply IH. intros m1 Hm1. apply Hall. by apply list_elem_of_further.
  - rewrite lookup_union_r by by apply (Hn 0%nat m0).
    apply (IH i); [done|]. intros j m' Hj Hne. apply (Hn (Datatypes.S j) m'); [done|lia].
Qed.

Lemma lookup_shardView sto br s :
  shardWf sto -> sto !! shardIdx (length sto) br = Some s -> shardView sto !! br = st_view s !! br.
Proof.
  intros Hwf Hs. unfold shardView. eapply lookup_union_placed; [by rewrite list_lookup_fmap, Hs|].
  intros j m' Hj Hne. rewrite list_lookup_fmap in Hj. apply fmap_Some in Hj as (s' & Hj & ->).
  apply eq_None_not_Some. intros Hsome. apply Hne. symmetry. by eapply (sh_placed sto Hwf).
Qed.

Lemma shardWf_backend sto i s : shardWf sto -> sto !! i = Some s -> st_wf s.
Proof. intros Hwf Hs. eapply Forall_lookup_1; [apply (sh_wf sto Hwf)|done]. Qed.

(** Replacing a backend by one that holds nothing it should not. *)
Lemma shardWf_insert sto i s s' :
  shardWf sto -> sto !! i = Some s -> st_wf s' ->
  (forall br, is_Some (st_view s' !! br) -> is_Some (st_view s !! br) \/ shardIdx (length sto) br = i) ->
  shardWf (<[i := s']> sto).
Proof.
  intros Hwf Hs Hs' Hv. split.
  - intros Hn. apply (sh_some sto Hwf). apply (f_equal length) in Hn. rewrite length_insert in Hn.
    by apply nil_length_inv.
  - unfold glen. rewrite length_insert. apply (sh_small sto Hwf).
  - apply Forall_insert; [apply (sh_wf sto Hwf)|done].
  - intros j t br Hj Hbr. rewrite length_insert. apply list_lookup_insert_Some in Hj as [(-> & <- & _)|[_ Hj]].
    + destruct (Hv br Hbr) as [Hold|]; [|done]. by eapply (sh_placed sto Hwf).
    + by eapply (sh_placed sto Hwf).
Qed.

(** The union after a call that took backend [i] from [s] to [s']. *)
Lemma shardView_insert sto i s s' (f : blobs -> blobs) :
  shardWf sto -> sto !! i = Some s -> shardWf (<[i := s']> sto) -> st_view s' = f (st_view s) ->
  (forall m m' br, shardIdx (length sto) br = i -> m !! br = m' !! br -> f m !! br = f m' !! br) ->
  (forall m br, shardIdx (length sto) br ≠ i -> f m !! br = m !! br) ->
  (forall br, (shardIdx (length sto) br < length sto)%nat) ->
  shardView (<[i := s']> sto) = f (shardView sto).
Proof.
  intros Hwf Hs Hwf' Hv Hsame Hother Hlt. apply map_eq. intros br.
  destruct (decide (shardIdx (length sto) br = i)) as [Hi|Hi].
  - rewrite (lookup_shardView _ br s' Hwf').
    + rewrite Hv. apply Hsame; [done|]. symmetry. apply lookup_shardView; [done|by rewrite Hi].
    + rewrite length_insert, Hi. apply list_lookup_insert_eq. by eapply lookup_lt_Some.
  - rewrite Hother by done. destruct (lookup_lt_is_Some_2 sto _ (Hlt br)) as [t Ht].
    rewrite (lookup_shardView sto br t Hwf Ht). apply lookup_shardView; [done|].
    by rewrite length_insert, list_lookup_insert_ne.
Qed.

Lemma shardIdx_lt sto br : shardWf sto -> (shardIdx (length sto) br < length sto)%nat.
Proof.
  intros Hwf. assert (0 < length sto)%nat as Hpos by (pose proof (sh_some sto Hwf); destruct sto; simpl; [done|lia]).
  unfold shardIdx. destruct (Sum32 br) as [v|e|p|]; [|lia..].
  pose proof (Z.mod_pos_bound v (Z.of_nat (length sto))). lia.
Qed.

Lemma shardView_same sto i s s' :
  shardWf sto -> sto !! i = Some s -> st_wf s' -> st_view s' = st_view s ->
  shardWf (<[i := s']> sto) /\ shardView (<[i := s']> sto) = shardView sto.
Proof.
  intros Hwf Hs Hs' Hv. assert (shardWf (<[i := s']> sto)) as Hwf'.
  { eapply shardWf_insert; [done|done|done|]. intros br. rewrite Hv. by left. }
  split; [done|]. apply (shardView_insert sto i s s' id); try done. intros br. by apply shardIdx_lt.
Qed.

Lemma onShard_ok {A} sto br (f : S -> S * res A) :
  shardWf sto -> goodRef br ->
  exists s, sto !! shardIdx (length sto) br = Some s /\ shardView sto !! br = st_view s !! br /\
    onShard sto br f = (<[shardIdx (length sto) br := (f s).1]> sto, (f s).2).
Proof.
  intros Hwf Hb. destruct (shardNum_ok sto br Hwf Hb) as (n & s & Hn & Hi & _ & Hs).
  exists s. split; [done|]. split; [by apply lookup_shardView|].
  unfold onShard. rewrite Hn, Hi, Hs. by destruct (f s).
Qed.

Lemma shardReceive_ok sto br d i s s' :
  shardWf sto -> sto !! i = Some s -> shardIdx (length sto) br = i -> st_wf s' ->
  st_view s' = st_view s ∪ {[br := d]} ->
  shardWf (<[i := s']> sto) /\ shardView (<[i := s']> sto) = shardView sto ∪ {[br := d]}.
Proof.
  intros Hwf Hs Hi Hs' Hv. assert (shardWf (<[i := s']> sto)) as Hwf'.
  { eapply shardWf_insert; [done|done|done|]. intros br' [x Hx]. rewrite Hv in Hx.
    apply lookup_union_Some_raw in Hx as [Hx|[_ Hx]]; [left; by eexists|right].
    by apply lookup_singleton_Some in Hx as [<- _]. }
  split; [done|]. apply (shardView_insert sto i s s' (fun m => m ∪ {[br := d]})); try done.
  - intros m m' br' _ He. by rewrite !lookup_union, He.
  - intros m br' Hne. apply lookup_union_l. apply lookup_singleton_ne. congruence.
  - intros br'. by apply shardIdx_lt.
Qed.

(** Fetching from and receiving into a sharded storage is fetching from
    and receiving into the union of its backends, for references with a
    known placement; the placement invariant is kept. *)
Theorem shard_fetch_receive sto br src :
  shardWf sto -> goodRef br -> glen src.1 < 2 ^ 32 ->
  (let '(sto', r) := shardFetch sto br in
   shardWf sto' /\ shardView sto' = shardView sto /\
   match r with
   | Ok (d, n) => shardView sto !! br = Some d /\ n = glen d
   | Err e => e = ErrNotExist -> shardView sto !! br = None
   | _ => False
   end) /\
  (let '(sto', r) := shardReceiveBlob sto br src in
   shardWf sto' /\
   match r with
   | Ok sb => src.2 = Ok tt /\ sb = sized (br, src.1) /\ shardView sto' = shardView sto ∪ {[br := src.1]}
   | Err e => shardView sto' = shardView sto
   | Panic p => shardView sto' = shardView sto /\ src.2 = Panic p
   | Blocked => shardView sto' = shardView sto /\ src.2 = Blocked
   end).
Proof.
  intros Hwf Hb Hl. split.
  - unfold shardFetch. destruct (onShard_ok sto br (fun s => st_Fetch s br) Hwf Hb) as (s & Hs & Hview & ->).
    destruct (st_Fetch s br) as [s' r] eqn:E. simpl. pose proof (shardWf_backend sto _ s Hwf Hs) as Hws.
    apply st_Fetch_law in E as (Hws' & Hv & Hr); [|done].
    destruct (shardView_same sto _ s s' Hwf Hs Hws' Hv) as [H1 H2].
    split; [done|]. split; [done|]. by rewrite Hview.
  - unfold shardReceiveBlob.
    destruct (onShard_ok sto br (fun s => st_ReceiveBlob s br src) Hwf Hb) as (s & Hs & Hview & ->).
    destruct (st_ReceiveBlob s br src) as [s' r] eqn:E. simpl.
    pose proof (shardWf_backend sto _ s Hwf Hs) as Hws.
    apply st_ReceiveBlob_law in E as (Hws' & Hr); [|done..]. destruct r as [sb|e|p|].
    + destruct Hr as (H1 & H2 & Hv). destruct (shardReceive_ok sto br src.1 _ s s' Hwf Hs eq_refl Hws' Hv).
      by split_and!.
    + destruct Hr as [Hv _]. by apply (shardView_same sto _ s).
    + destruct Hr as [Hv ?]. by destruct (shardView_same sto _ s s' Hwf Hs Hws' Hv).
    + destruct Hr as [Hv ?]. by destruct (shardView_same sto _ s s' Hwf Hs Hws' Hv).
Qed.

(** * Batches *)

Definition groupOk sto (m : gmap Z (list Ref)) : Prop :=
  forall sn g, m !! sn = Some g ->
    (Z.to_nat sn < length sto)%nat /\ 0 <= sn /\ Forall (fun b => shardIdx (length sto) b = Z.to_nat sn) g.

Lemma concat_groups_insert (m : gmap Z (list Ref)) sn g :
  concat (map_to_list (<[sn := default [] (m !! sn) ++ g]> m)).*2 ≡ₚ g ++ concat (map_to_list m).*2.
Proof.
  destruct (m !! sn) as [g0|] eqn:E; simpl.
  - rewrite <- (insert_delete_id m sn g0 E) at 2. rewrite <- insert_delete_eq.
    rewrite !map_to_list_insert by apply lookup_delete_eq. simpl.
    rewrite app_assoc. apply Permutation_app_tail, Permutation_app_comm.
  - by rewrite map_to_list_insert.
Qed.

Lemma groupBlobs_spec sto m brs :
  shardWf sto -> Forall goodRef brs -> groupOk sto m ->
  exists m', groupBlobs sto m brs = Ok m' /\ groupOk sto m' /\
    concat (map_to_list m').*2 ≡ₚ brs ++ concat (map_to_list m).*2.
Proof.
  intros Hwf Hg. revert m. induction Hg as [|b brs Hb Hg IH]; intros m Hm; [by exists m|].
  cbn [groupBlobs]. destruct (shardNum_ok sto b Hwf Hb) as (n & s & -> & Hi & Hn & Hs). cbn [rbind].
  destruct (IH (<[n := default [] (m !! n) ++ [b]]> m)) as (m' & Hm' & Hok & Hp).
  - intros sn g. rewrite lookup_insert_Some. intros [[<- <-]|[_ Hsn]]; [|by apply Hm].
    split; [rewrite Hi; by apply shardIdx_lt|]. split; [done|]. apply Forall_app. split; [|by repeat constructor].
    destruct (m !! n) as [g|] eqn:E; [by apply (Hm n g)|constructor].
  - exists m'. split_and!; [done..|]. rewrite Hp, concat_groups_insert. simpl.
    by rewrite Permutation_middle.
Qed.

Lemma statSpec_ext (m m' : blobs) brs :
  Forall (fun b => m !! b = m' !! b) brs -> statSpec m brs = statSpec m' brs.
Proof.
  induction 1 as [|b brs Hb _ IH]; [done|]. by rewrite !statSpec_cons, Hb, IH.
Qed.

Lemma statSpec_app m l1 l2 : statSpec m (l1 ++ l2) = statSpec m l1 ++ statSpec m l2.
Proof.
  induction l1 as [|b l1 IH]; [done|]. cbn [app]. by rewrite !statSpec_cons, IH, app_assoc.
Qed.

Definition statFn (s : S) (brs : list Ref) : S * batch := (s, st_StatBlobs s brs).

Lemma runStat_spec sto gs :
  shardWf sto -> NoDup (concat gs.*2) ->
  Forall (fun p => (Z.to_nat p.1 < length sto)%nat /\ 0 <= p.1 /\
    Forall (fun b => shardIdx (length sto) b = Z.to_nat p.1) p.2) gs ->
  exists outs, runGroups statFn sto gs = (sto, outs) /\
    Forall (fun r => match r with Ok _ | Err _ => True | _ => False end) outs.*2 /\
    concat outs.*1 ⊆+ statSpec (shardView sto) (concat gs.*2) /\
    (Forall (fun r => r = Ok tt) outs.*2 -> concat outs.*1 ≡ₚ statSpec (shardView sto) (concat gs.*2)).
Proof.
  intros Hwf Hn Hgs. induction Hgs as [|[sn g] gs (Hlt & _ & Hg) _ IH]; [by exists []|]. simpl in *.
  apply NoDup_app in Hn as (Hng & _ & Hn). destruct (IH Hn) as (outs & Hrun & Hok & Hsub & Hall).
  destruct (lookup_lt_is_Some_2 sto _ Hlt) as [s Hs]. rewrite Hs. simpl.
  rewrite list_insert_id, Hrun by done. destruct (st_StatBlobs s g) as [out r] eqn:E.
  exists ((out, r) :: outs). simpl. rewrite statSpec_app.
  assert (statSpec (st_view s) g = statSpec (shardView sto) g) as Heq.
  { apply statSpec_ext. eapply Forall_impl; [exact Hg|]. intros b Hb. simpl. symmetry.
    apply lookup_shardView; [done|]. by rewrite Hb. }
  apply st_StatBlobs_law in E; [|by eapply shardWf_backend|done]. rewrite Heq in E.
  split; [done|]. split; [constructor; [by destruct r|done]|]. split.
  - apply submseteq_app; [|done]. destruct r; [by rewrite E|done..].
  - intros [Hr Hrs]%Forall_cons. subst r. by rewrite E, (Hall Hrs).
Qed.

Definition removeFn (s : S) (brs : list Ref) : S * batch := let '(s', r) := st_RemoveBlobs s brs in (s', ([], r)).

Lemma removeSpec_app m l1 l2 : removeSpec m (l1 ++ l2) = removeSpec (removeSpec m l1) l2.
Proof.
  apply map_eq. intros br. rewrite !lookup_removeSpec.
  destruct (decide (br ∈ l2)), (decide (br ∈ l1)), (decide (br ∈ l1 ++ l2)) as [Hin|Hin]; try done;
    rewrite elem_of_app in Hin; tauto.
Qed.

Lemma shardRemove_ok sto i s s' g :
  shardWf sto -> sto !! i = Some s -> st_wf s' -> Forall (fun b => shardIdx (length sto) b = i) g ->
  st_view s' = removeSpec (st_view s) g ->
  shardWf (<[i := s']> sto) /\ shardView (<[i := s']> sto) = removeSpec (shardView sto) g.
Proof.
  intros Hwf Hs Hs' Hg Hv. assert (shardWf (<[i := s']> sto)) as Hwf'.
  { eapply shardWf_insert; [done|done|done|]. intros br [x Hx]. rewrite Hv, lookup_removeSpec in Hx.
    destruct (decide (br ∈ g)); [done|]. left. by eexists. }
  split; [done|]. apply (shardView_insert sto i s s' (fun m => removeSpec m g)); try done.
  - intros m m' br _ He. rewrite !lookup_removeSpec. by destruct (decide _).
  - intros m br Hne. rewrite lookup_removeSpec, decide_False; [done|]. intros Hin.
    rewrite Forall_forall in Hg. by apply Hne, Hg.
  - intros br. by apply shardIdx_lt.
Qed.

Lemma runRemove_spec gs sto :
  shardWf sto ->
  Forall (fun p => (Z.to_nat p.1 < length sto)%nat /\ 0 <= p.1 /\
    Forall (fun b => shardIdx (length sto) b = Z.to_nat p.1) p.2) gs ->
  exists sto' outs, runGroups removeFn sto gs = (sto', outs) /\ shardWf sto' /\
    Forall (fun r => match r with Ok _ | Err _ => True | _ => False end) outs.*2 /\
    (exists brs', brs' ⊆ concat gs.*2 /\ shardView sto' = removeSpec (shardView sto) brs') /\
    (Forall (fun r => r = Ok tt) outs.*2 -> shardView sto' = removeSpec (shardView sto) (concat gs.*2)).
Proof.
  revert sto. induction gs as [|[sn g] gs IH]; intros sto Hwf Hgs.
  { exists sto, []. split_and!; [done|done|constructor| |].
    - exists []. split; [done|]. apply map_eq. intros br. rewrite lookup_removeSpec. by rewrite decide_False by set_solver.
    - intros _. apply map_eq. intros br. rewrite lookup_removeSpec. by rewrite decide_False by set_solver. }
  apply Forall_cons in Hgs as [(Hlt & _ & Hg) Hgs]. cbn [fst snd] in *. cbn [runGroups].
  destruct (lookup_lt_is_Some_2 sto _ Hlt) as [s Hs]. rewrite Hs. unfold removeFn at 1.
  destruct (st_RemoveBlobs s g) as [s' r] eqn:E.
  apply st_RemoveBlobs_law in E as [Hws' Hr]; [|by eapply shardWf_backend].
  assert (exists g', g' ⊆ g /\ st_view s' = removeSpec (st_view s) g' /\ (r = Ok tt -> g' = g)) as (g' & Hsub & Hv & Hrg).
  { destruct r as [[]|e|p|]; [by exists g| |done..]. destruct Hr as (g' & ? & ?). by exists g'. }
  assert (Forall (fun b => shardIdx (length sto) b = Z.to_nat sn) g') as Hg'.
  { rewrite Forall_forall in *. intros b Hb. apply Hg. by apply Hsub. }
  destruct (shardRemove_ok sto _ s s' g' Hwf Hs Hws' Hg' Hv) as [Hwf1 Hv1].
  destruct (IH (<[Z.to_nat sn := s']> sto) Hwf1) as (sto' & outs & -> & Hwf' & Hok & (brs' & Hb & Hv') & Hall).
  { rewrite length_insert. done. }
  exists sto', (([], r) :: outs). split; [done|]. split; [done|]. simpl.
  split; [constructor; [by destruct r|done]|]. split.
  - exists (g' ++ brs'). split; [set_solver|]. by rewrite removeSpec_app, Hv', Hv1.
  - intros [Hrok Hrs]%Forall_cons. rewrite (Hall Hrs), Hv1, removeSpec_app. by rewrite (Hrg Hrok).
Qed.

Lemma groups_start sto brs :
  shardWf sto -> Forall goodRef brs ->
  exists m, groupBlobs sto ∅ brs = Ok m /\ concat (map_to_list m).*2 ≡ₚ brs /\
    Forall (fun p => (Z.to_nat p.1 < length sto)%nat /\ 0 <= p.1 /\
      Forall (fun b => shardIdx (length sto) b = Z.to_nat p.1) p.2) (map_to_list m).
Proof.
  intros Hwf Hg. destruct (groupBlobs_spec sto ∅ brs Hwf Hg) as (m & Hm & Hok & Hp); [done|].
  exists m. rewrite map_to_list_empty in Hp. simpl in Hp. rewrite app_nil_r in Hp. split_and!; [done..|].
  apply Forall_forall. intros [sn g] Hin%elem_of_map_to_list. by apply Hok.
Qed.

Lemma removeSpec_perm m l1 l2 : l1 ≡ₚ l2 -> removeSpec m l1 = removeSpec m l2.
Proof.
  intros Hp. apply map_eq. intros br. rewrite !lookup_removeSpec.
  destruct (decide (br ∈ l1)) as [Hin|Hin]; rewrite Hp in Hin; [by rewrite decide_True|by rewrite decide_False].
Qed.

(** Statting and removing through the shards: each reference reaches its
    own backend exactly once, so together they stat and remove from the
    union, whatever the order in which the goroutines finish; a failure of
    some backends gives part of it and one of their errors. *)
Theorem shard_stat_remove sto brs :
  (forall l, l ≠ [] -> lastErr l ∈ l) -> shardWf sto -> Forall goodRef brs -> NoDup brs ->
  (let '(out, r) := shardStatBlobs lastErr sto brs in
   match r with
   | Ok _ => out ≡ₚ statSpec (shardView sto) brs
   | Err _ => out ⊆+ statSpec (shardView sto) brs
   | _ => False
   end) /\
  (let '(sto', r) := shardRemoveBlobs lastErr sto brs in
   shardWf sto' /\
   match r with
   | Ok _ => shardView sto' = removeSpec (shardView sto) brs
   | Err _ => exists brs', brs' ⊆ brs /\ shardView sto' = removeSpec (shardView sto) brs'
   | _ => False
   end).
Proof.
  intros Hlast Hwf Hg Hn. destruct (groups_start sto brs Hwf Hg) as (m & Hm & Hp & Hgs).
  assert (statSpec (shardView sto) (concat (map_to_list m).*2) ≡ₚ statSpec (shardView sto) brs) as Hps
    by by apply statSpec_perm.
  split.
  - unfold shardStatBlobs, batchedShards. rewrite Hm. fold statFn.
    destruct (runStat_spec sto (map_to_list m)) as (outs & -> & Hok & Hsub & Hall); [done|by rewrite Hp|done|].
    simpl. pose proof (batchErr_spec lastErr outs.*2 Hlast) as Hr. rewrite Hps in Hsub, Hall.
    destruct (batchErr lastErr outs.*2) as [[]|e|p|]; [by apply Hall|done|..];
      rewrite Forall_forall in Hok; by specialize (Hok _ Hr).
  - unfold shardRemoveBlobs, batchedShards. rewrite Hm. fold removeFn.
    destruct (runRemove_spec (map_to_list m) sto Hwf Hgs)
      as (sto' & outs & -> & Hwf' & Hok & (brs' & Hb & Hv) & Hall).
    pose proof (batchErr_spec lastErr outs.*2 Hlast) as Hr. split; [done|].
    destruct (batchErr lastErr outs.*2) as [[]|e|p|].
    + rewrite (Hall Hr). by apply removeSpec_perm.
    + exists brs'. split; [|done]. intros b Hin%Hb. by rewrite Hp in Hin.
    + rewrite Forall_forall in Hok. by specialize (Hok _ Hr).
    + rewrite Forall_forall in Hok. by specialize (Hok _ Hr).
Qed.
End shard_proofs.

(** * Two map storages *)

Definition exampleShards : list blobs :=
  let d := gs "a" in
  if decide (shardIdx 2 (refOf d) = 0)%nat then [blobsOf [d]; blobsOf []] else [blobsOf []; blobsOf [d]].

Lemma two_shards_wf (m0 m1 : blobs) :
  goodBlobs m0 -> goodBlobs m1 ->
  (forall br, is_Some (m0 !! br) -> shardIdx 2 br = 0%nat) ->
  (forall br, is_Some (m1 !! br) -> shardIdx 2 br = 1%nat) -> shardWf [m0; m1].
Proof.
  intros Hg0 Hg1 H0 H1. split; [discriminate|reflexivity|by apply Forall_cons_2, Forall_cons_2|].
  intros [|[|i]] s br Hs Hbr; [injection Hs as <-; auto..|discriminate].
Qed.

Lemma shardIdx2_lt br : (shardIdx 2 br < 2)%nat.
Proof.
  unfold shardIdx. destruct (Sum32 _) as [v| | |]; [|lia..]. pose proof (Z.mod_pos_bound v (Z.of_nat 2)). lia.
Qed.

Lemma exampleShards_wf : shardWf exampleShards.
Proof.
  assert (goodBlobs (blobsOf [gs "a"])) as Hg by (apply blobsOf_good; by repeat constructor).
  assert (goodBlobs (blobsOf [])) as Hg0 by (by apply blobsOf_good).
  assert (forall br, is_Some (blobsOf [gs "a"] !! br) -> br = refOf (gs "a")) as Ha.
  { intros br [x Hx]. apply elem_of_list_to_map_2 in Hx. set_solver. }
  assert (forall br, ~ is_Some (blobsOf [] !! br)) as Hn by (intros br [x Hx]; by apply (lookup_empty_Some br x) in Hx).
  pose proof (shardIdx2_lt (refOf (gs "a"))) as Hlt. unfold exampleShards. cbn zeta.
  revert Hg Hg0 Ha Hn Hlt. generalize (refOf (gs "a")) as r, (blobsOf [gs "a"]) as ma, (blobsOf []) as m0.
  intros r ma m0 Hg Hg0 Ha Hn Hlt. destruct (decide _) as [Hd|Hd]; apply two_shards_wf; try done.
  - by intros br ->%Ha.
  - by intros br ?%Hn.
  - by intros br ?%Hn.
  - intros br ->%Ha. lia.
Qed.

Definition exampleSource : reader := (gs "bc", Ok tt).

Lemma shard_fetch_receive_witness :
  let '(sto', r) := shardReceiveBlob exampleShards (refOf (gs "bc")) exampleSource in
  shardWf sto' /\
  match r with
  | Ok sb => exampleSource.2 = Ok tt /\ sb = sized (refOf (gs "bc"), exampleSource.1) /\
      shardView sto' = shardView exampleShards ∪ {[refOf (gs "bc") := exampleSource.1]}
  | Err e => shardView sto' = shardView exampleShards
  | Panic p => shardView sto' = shardView exampleShards /\ exampleSource.2 = Panic p
  | Blocked => shardView sto' = shardView exampleShards /\ exampleSource.2 = Blocked
  end.
Proof.
  destruct (shard_fetch_receive exampleShards (refOf (gs "bc")) exampleSource
    exampleShards_wf (refOf_good _) eq_refl) as [_ H].
  destruct (shardReceiveBlob exampleShards (refOf (gs "bc")) exampleSource) as [sto' r]. exact H.
Defined.

Lemma shard_stat_remove_witness :
  let '(out, r) := shardStatBlobs (fun l => default ErrEOF (head l)) exampleShards [refOf (gs "a"); refOf (gs "b")] in
  match r with
  | Ok _ => out ≡ₚ statSpec (shardView exampleShards) [refOf (gs "a"); refOf (gs "b")]
  | Err _ => out ⊆+ statSpec (shardView exampleShards) [refOf (gs "a"); refOf (gs "b")]
  | _ => False
  end.
Proof.
  destruct (shard_stat_remove (fun l => default ErrEOF (head l)) exampleShards
    [refOf (gs "a"); refOf (gs "b")]) as [H _]; [|apply exampleShards_wf| | |].
  4: { destruct (shardStatBlobs _ exampleShards _) as [out r]. exact H. }
  - intros [|e l] Hl; [destruct (Hl eq_refl)|apply list_elem_of_here].
  - repeat constructor; apply refOf_good.
  - apply (bool_decide_unpack _). vm_compute. exact I.
Defined.
