(* ===== verification/Namespace.v ===== *)
(** The namespace storage of pkg/blobserver/namespace/ns.go: a view of a
    master storage that only shows the blobs of an inventory, a sorted
    key/value store from references to sizes. *)

From S2P Require Import Prelude Ref Strutil SortedKV Sha1 Storage.

Section namespace.
Context {K S : Type} `{!KV K} `{!Storage S}.

Record nsto := MkNs { inventory : K; master : S }.

(** [strconv.ParseUint] is what [strutil.ParseUintBytes] copies. *)
Definition ParseUint (s : gostr) (base bitSize : Z) : Z * gerr := ParseUintBytes s base bitSize.

(** The sending loop, over the pairs the iterator still yields: what is sent
    and whether it was cancelled; [n] counts the sends. *)
Fixpoint nsEnumLoop (c : ctx) (after : gostr) (first : bool) (limit : Z) (n : nat)
    (its : list (gostr * gostr)) : list SizedRef * bool :=
  match its with
  | [] => ([], false)
  | (key, value) :: its =>
      if 0 <? limit then
        if first && bool_decide (after ≠ [] /\ key = after) then nsEnumLoop c after false limit n its
        else
          match ParseBytes key, ParseUintBytes value 10 32 with
          | Ok (Some br), (size, None) =>
              if decide (c = Some n) then ([], true)
              else
                let '(out, r) := nsEnumLoop c after false (limit - 1) (Datatypes.S n) its in
                (MkSizedRef br (u32 size) :: out, r)
          | _, _ => nsEnumLoop c after false limit n its
          end
      else ([], false)
  end.

Definition nsEnumerateBlobs (ns : nsto) (c : ctx) (after : gostr) (limit : Z) : list SizedRef * res unit :=
  let '(its, closeErr) := kv_find after [] (inventory ns) in
  let '(out, canceled) := nsEnumLoop c after true limit 0 its in
  (out, if canceled then Err ErrCanceled else match closeErr with None => Ok tt | Some e => Err e end).

Definition nsFetch (ns : nsto) (br : Ref) : nsto * res (gostr * Z) :=
  match kv_get (RefString br) (inventory ns) with
  | Err ErrNotFound => (ns, Err ErrNotExist)
  | Err e => (ns, Err e)
  | Panic p => (ns, Panic p)
  | Blocked => (ns, Blocked)
  | Ok invSizeStr =>
      match ParseUint invSizeStr 10 32 with
      | (_, Some err) => (ns, Err err)
      | (invSize, None) =>
          match st_Fetch (master ns) br with
          | (m, Ok (rc, size)) =>
              (MkNs (inventory ns) m, if decide (size = u32 invSize) then Ok (rc, size) else Err ErrNotExist)
          | (m, r) => (MkNs (inventory ns) m, r)
          end
      end
  end.

Definition nsReceiveBlob (ns : nsto) (br : Ref) (src : reader) : nsto * res SizedRef :=
  match readAll src with
  | Err e => (ns, Err e)
  | Panic p => (ns, Panic p)
  | Blocked => (ns, Blocked)
  | Ok buf =>
      let size := glen buf in
      match kv_get (RefString br) (inventory ns) with
      | Ok _ => (ns, Ok (MkSizedRef br (u32 size)))
      | Panic p => (ns, Panic p)
      | Blocked => (ns, Blocked)
      | Err _ =>
          match st_ReceiveBlob (master ns) br (buf, Ok tt) with
          | (m, Ok sb) =>
              let '(err, inv) := kv_set (RefString br) (itoa size) (inventory ns) in
              (MkNs inv m, match err with None => Ok sb | Some e => Err e end)
          | (m, r) => (MkNs (inventory ns) m, r)
          end
      end
  end.

Fixpoint nsRemoveBlobs (ns : nsto) (brs : list Ref) : nsto * res unit :=
  match brs with
  | [] => (ns, Ok tt)
  | br :: brs =>
      match kv_delete (RefString br) (inventory ns) with
      | (Some err, inv) => (MkNs inv (master ns), Err err)
      | (None, inv) => nsRemoveBlobs (MkNs inv (master ns)) brs
      end
  end.

(** A size that does not parse is logged, and sent all the same. *)
Fixpoint nsStatBlobs (ns : nsto) (brs : list Ref) : list SizedRef * res unit :=
  match brs with
  | [] => ([], Ok tt)
  | br :: brs =>
      match kv_get (RefString br) (inventory ns) with
      | Err ErrNotFound => nsStatBlobs ns brs
      | Err e => ([], Err e)
      | Panic p => ([], Panic p)
      | Blocked => ([], Blocked)
      | Ok invSizeStr =>
          let '(out, r) := nsStatBlobs ns brs in
          (MkSizedRef br (u32 (ParseUint invSizeStr 10 32).1) :: out, r)
      end
  end.
End namespace.
Arguments nsto : clear implicits.

(** * The invariant *)

Section namespace_proofs.
Context {K S : Type} `{KVLaws K} `{StorageLaws S}.
Implicit Types ns : nsto K S.

(** What the namespace shows: the master's blobs that are in the inventory. *)
Definition nsView ns : blobs :=
  filter (fun p => is_Some (kv_view (inventory ns) !! RefString p.1)) (st_view (master ns)).

(** Each inventory entry is the size of a blob of the master. *)
Definition nsWf ns : Prop :=
  st_wf (master ns) /\
  forall k v, kv_view (inventory ns) !! k = Some v ->
    exists br d, goodRef br /\ k = RefString br /\ st_view (master ns) !! br = Some d /\ v = itoa (glen d).

Lemma lookup_nsView ns br :
  nsView ns !! br =
    match kv_view (inventory ns) !! RefString br with Some _ => st_view (master ns) !! br | None => None end.
Proof.
  unfold nsView. rewrite map_lookup_filter. destruct (st_view (master ns) !! br) as [d|]; simpl.
  - destruct (kv_view (inventory ns) !! RefString br) as [v|] eqn:E.
    + rewrite option_guard_True; [done|]. by exists v.
    + rewrite option_guard_False; [done|]. by intros [v Hv].
  - by destruct (_ !! RefString br).
Qed.

Lemma nsView_good ns : nsWf ns -> goodBlobs (nsView ns).
Proof. intros [Hm _]. eapply goodBlobs_subseteq; [apply map_filter_subseteq|by apply st_wf_good]. Qed.

Lemma nsWf_get ns br v :
  nsWf ns -> goodRef br -> kv_view (inventory ns) !! RefString br = Some v ->
  exists d, st_view (master ns) !! br = Some d /\ nsView ns !! br = Some d /\ v = itoa (glen d) /\ glen d < 2 ^ 32.
Proof.
  intros [Hm Hinv] Hbr Hv. destruct (Hinv _ _ Hv) as (br' & d & Hg & He & Hd & ->).
  apply goodRef_inj in He as <-; [|done..]. exists d. split_and!; [done| |done|].
  - rewrite lookup_nsView, Hv. done.
  - by eapply (st_wf_good _ Hm).
Qed.

(** The inventory in key order is the view in reference order. *)
Lemma inventory_pairs ns :
  nsWf ns ->
  sortedPairs (kv_view (inventory ns)) = (fun sb => (sizedStr sb, itoa (sr_size sb))) <$> sizedAll (nsView ns).
Proof.
  intros Hwf. pose proof (nsView_good ns Hwf) as Hg. symmetry. apply sortedPairs_unique.
  - pose proof (sizedAll_sorted _ Hg) as Hs. revert Hs. generalize (sizedAll (nsView ns)) as l.
    induction 1 as [|sb l _ IH Hf]; simpl; constructor; [done|].
    rewrite Forall_fmap. eapply Forall_impl; [exact Hf|]. done.
  - intros k v. rewrite list_elem_of_fmap. split.
    + intros ([br n] & [= -> ->] & (d & Hd & Hn)%elem_of_sizedAll). simpl in *. subst n.
      rewrite lookup_nsView in Hd. unfold sizedStr; simpl.
      destruct (kv_view (inventory ns) !! RefString br) as [v|] eqn:Ev; [|done].
      assert (goodRef br) as Hbr by (by eapply (st_wf_good _ (proj1 Hwf))).
      destruct (nsWf_get ns br v Hwf Hbr Ev) as (d' & Hd' & _ & -> & _). congruence.
    + intros Hv. destruct (proj2 Hwf _ _ Hv) as (br & d & Hbr & -> & Hd & ->).
      exists (MkSizedRef br (glen d)). split; [done|]. apply elem_of_sizedAll. exists d.
      rewrite lookup_nsView. simpl. by rewrite Hv.
Qed.

(** One pair of the loop, when it is a proper one. *)
Lemma nsPair_parse sb : goodRef (sr_ref sb) -> 0 <= sr_size sb < 2 ^ 32 ->
  ParseBytes (sizedStr sb) = Ok (Some (sr_ref sb)) /\ ParseUintBytes (itoa (sr_size sb)) 10 32 = (sr_size sb, None) /\
  MkSizedRef (sr_ref sb) (u32 (sr_size sb)) = sb.
Proof.
  intros Hg Hn. split; [apply Parse_RefString, Hg|]. split; [by apply itoa_parse|].
  rewrite u32_small by done. by destruct sb.
Qed.

Lemma nsEnumLoop_rest c after limit n l :
  (forall sb, sb ∈ l -> goodRef (sr_ref sb) /\ 0 <= sr_size sb < 2 ^ 32) ->
  (forall k, c = Some k -> (n <= k)%nat) ->
  let '(out, r) := sendAll ((fun k => k - n)%nat <$> c) (take (Z.to_nat limit) l) in
  nsEnumLoop c after false limit n ((fun sb => (sizedStr sb, itoa (sr_size sb))) <$> l) =
    (out, match r with Ok _ => false | _ => true end).
Proof.
  revert limit n. induction l as [|sb l IH]; intros limit n Hl Hk.
  { rewrite take_nil. by destruct c. }
  rewrite fmap_cons. cbn [nsEnumLoop]. destruct (Z.ltb_spec 0 limit) as [Hlim|Hlim].
  2: { replace (Z.to_nat limit) with 0%nat by lia. by destruct c. }
  cbn [andb]. destruct (Hl sb ltac:(apply list_elem_of_here)) as [Hg Hn].
  destruct (nsPair_parse sb Hg Hn) as (-> & -> & ->).
  replace (Z.to_nat limit) with (Datatypes.S (Z.to_nat (limit - 1))) by lia. cbn [take].
  destruct (decide (c = Some n)) as [->|Hc].
  { unfold sendAll; simpl. rewrite Nat.sub_diag. done. }
  specialize (IH (limit - 1) (Datatypes.S n)). ospecialize* IH.
  { intros s Hs. apply Hl. by apply list_elem_of_further. }
  { intros k ->. specialize (Hk k eq_refl). assert (k ≠ n) by congruence. lia. }
  set (rest := take (Z.to_nat (limit - 1)) l) in *. destruct c as [k|]; simpl in *.
  - specialize (Hk k eq_refl). assert (k ≠ n) by congruence.
    replace (k - n)%nat with (Datatypes.S (k - Datatypes.S n)) by lia.
    destruct (decide (k - Datatypes.S n < length rest)%nat) as [Hlt|Hlt].
    + rewrite decide_True by lia. by rewrite IH.
    + rewrite decide_False by lia. by rewrite IH.
  - by rewrite IH.
Qed.

Lemma filter_le_lt after (l : list SizedRef) :
  StronglySorted sized_lt l ->
  filter (fun sb => str_le after (sizedStr sb)) l = filter (sizedAfter after) l \/
  exists sb, sb ∈ l /\ sizedStr sb = after /\
    filter (fun sb => str_le after (sizedStr sb)) l = sb :: filter (sizedAfter after) l.
Proof.
  induction 1 as [|x l Hs IH Hf]; [by left|]. rewrite !filter_cons.
  assert (str_le after (sizedStr x) ->
    filter (fun sb => str_le after (sizedStr sb)) l = l /\ filter (sizedAfter after) l = l) as Hall.
  { intros Hle. rewrite Forall_forall in Hf.
    split; apply filter_all, Forall_forall; intros y Hy; specialize (Hf y Hy).
    - apply str_lt_le. by eapply str_le_lt_trans.
    - by eapply str_le_lt_trans. }
  destruct (decide (str_le after (sizedStr x))) as [Hle|Hle].
  - destruct (Hall Hle) as [-> ->]. destruct (decide (sizedAfter after x)) as [Hlt|Hlt]; [by left|right].
    exists x. split_and!; [apply list_elem_of_here| |done].
    by apply str_le_lt_eq in Hle as [|].
  - rewrite (decide_False (P := sizedAfter after x)) by (intros ?; by apply Hle, str_lt_le).
    destruct IH as [|(sb & Hin & ? & ?)]; [by left|right]. exists sb. split_and!; [|done..].
    by apply list_elem_of_further.
Qed.

Lemma nsEnumLoop_first c after limit its :
  (forall p, p ∈ its -> p.1 ≠ after) ->
  nsEnumLoop c after true limit 0 its = nsEnumLoop c after false limit 0 its.
Proof.
  destruct its as [|[k v] its]; [done|]. intros Hk. cbn [nsEnumLoop].
  rewrite bool_decide_eq_false_2; [done|]. intros [_ He]. by apply (Hk (k, v) ltac:(apply list_elem_of_here)).
Qed.

(** The pairs the iterator yields, and what the loop makes of them. *)
Lemma nsEnumLoop_view ns c after limit :
  nsWf ns ->
  let '(out, r) := sendAll c (enumSpec (nsView ns) after limit) in
  nsEnumLoop c after true limit 0 (rangeOf after [] (kv_view (inventory ns))) =
    (out, match r with Ok _ => false | _ => true end).
Proof.
  intros Hwf. pose proof (nsView_good ns Hwf) as Hg. unfold rangeOf. rewrite inventory_pairs by done.
  rewrite filter_fmap.
  rewrite (filter_ext _ (fun sb => str_le after (sizedStr sb))).
  2: { intros sb _. unfold inRange; simpl. tauto. }
  unfold enumSpec, enumAfter. set (l := sizedAll (nsView ns)).
  assert (forall sb, sb ∈ filter (sizedAfter after) l -> goodRef (sr_ref sb) /\ 0 <= sr_size sb < 2 ^ 32) as Hl.
  { intros sb [_ (d & Hd & ->)%elem_of_sizedAll]%list_elem_of_filter. destruct (Hg _ _ Hd).
    split; [done|]. unfold glen in *. lia. }
  pose proof (nsEnumLoop_rest c after limit 0 (filter (sizedAfter after) l) Hl ltac:(intros; lia)) as Hrest.
  assert ((fun k => k - 0)%nat <$> c = c) as Hc by (destruct c; simpl; by rewrite ?Nat.sub_0_r).
  rewrite Hc in Hrest.
  destruct (filter_le_lt after l (sizedAll_sorted _ Hg)) as [->|(sb & Hin & He & ->)].
  - rewrite nsEnumLoop_first; [done|]. intros p (sb & -> & [Hlt _]%list_elem_of_filter)%list_elem_of_fmap Heq.
    unfold sizedAfter in Hlt. simpl in Heq. rewrite Heq in Hlt. by apply str_lt_irrefl in Hlt.
  - rewrite fmap_cons. cbn [nsEnumLoop]. destruct (Z.ltb_spec 0 limit) as [Hlim|Hlim].
    + rewrite bool_decide_eq_true_2; [done|]. split; [|done]. rewrite <- He.
      apply elem_of_sizedAll in Hin as (d & Hd & _). by eapply goodRef_nonempty, Hg.
    + replace (Z.to_nat limit) with 0%nat by lia. by destruct c.
Qed.

(** Enumerating a namespace lists the blobs it shows, in order, after the
    given text and up to the limit, when the inventory's iterator does not
    fail; its other errors are the iterator's and the context's. *)
Theorem nsEnumerate_spec ns c after limit :
  nsWf ns -> (kv_find after [] (inventory ns)).2 = None ->
  nsEnumerateBlobs ns c after limit = sendAll c (enumSpec (nsView ns) after limit).
Proof.
  intros Hwf Hfind. unfold nsEnumerateBlobs.
  destruct (kv_find after [] (inventory ns)) as [its closeErr] eqn:E; simpl in Hfind. subst closeErr.
  apply kv_find_ok in E. subst its. pose proof (nsEnumLoop_view ns c after limit Hwf) as Hl.
  pose proof (sendAll_prefix c (enumSpec (nsView ns) after limit)) as Hp. unfold sendAll in *.
  destruct c as [k|]; [destruct (decide _)|]; by rewrite Hl.
Qed.

Lemma nsFetch_ok ns br :
  nsWf ns -> goodRef br -> kv_get (RefString br) (inventory ns) ≠ Err ErrNotExist ->
  let '(ns', r) := nsFetch ns br in
  inventory ns' = inventory ns /\ st_view (master ns') = st_view (master ns) /\ st_wf (master ns') /\
  match r with
  | Ok (d, n) => nsView ns !! br = Some d /\ n = glen d
  | Err e => e = ErrNotExist -> nsView ns !! br = None
  | Panic p => kv_get (RefString br) (inventory ns) = Panic p
  | Blocked => kv_get (RefString br) (inventory ns) = Blocked
  end.
Proof.
  intros Hwf Hbr Hne. pose proof (proj1 Hwf) as Hm. unfold nsFetch.
  destruct (kv_get (RefString br) (inventory ns)) as [v|e|p|] eqn:Eg; [| |by split_and!..].
  - apply kv_get_Ok in Eg. destruct (nsWf_get ns br v Hwf Hbr Eg) as (d & Hd & Hview & -> & Hl).
    unfold ParseUint. rewrite itoa_parse by (unfold glen in *; lia).
    destruct (st_Fetch (master ns) br) as [m r] eqn:Ef.
    apply st_Fetch_law in Ef as (Hm' & Hv & Hr); [|done].
    destruct r as [[d' n]|e|p|]; simpl; [| |done..].
    + destruct Hr as [Hd' ->]. assert (d' = d) as -> by congruence.
      rewrite u32_small by (unfold glen in *; lia). rewrite decide_True by done. by split_and!.
    + split_and!; [done..|]. intros He. specialize (Hr He). congruence.
  - destruct (decide (e = ErrNotFound)) as [->|Hnf].
    + split_and!; [done..|]. intros _. apply kv_get_NotFound in Eg. by rewrite lookup_nsView, Eg.
    + destruct e; try done; split_and!; done.
Qed.

(** The state after a successful upload of a blob the inventory lacks. *)
Lemma nsReceived ns br d inv m :
  nsWf ns -> goodRef br -> glen d < 2 ^ 32 -> (forall d', st_view (master ns) !! br = Some d' -> d' = d) ->
  st_wf m -> st_view m = st_view (master ns) ∪ {[br := d]} ->
  kv_view inv = <[RefString br := itoa (glen d)]> (kv_view (inventory ns)) ->
  nsWf (MkNs inv m) /\ nsView (MkNs inv m) = nsView ns ∪ {[br := d]}.
Proof.
  intros Hwf Hbr Hl Hsame Hm Hv Hi.
  assert (st_view m !! br = Some d) as Hbrd.
  { rewrite Hv. apply lookup_union_Some_raw. destruct (st_view (master ns) !! br) as [d'|] eqn:E.
    - left. by rewrite (Hsame d').
    - right. by rewrite lookup_singleton_eq. }
  assert (forall br', br' ≠ br -> st_view m !! br' = st_view (master ns) !! br') as Hother.
  { intros br' Hne. rewrite Hv. apply lookup_union_l. by apply lookup_singleton_ne. }
  split; [split; [done|]|].
  - intros k v. simpl. rewrite Hi, lookup_insert_Some. intros [[<- <-]|[Hne Hk]].
    + by exists br, d.
    + destruct (proj2 Hwf k v Hk) as (br' & d' & Hg & -> & Hd' & ->). exists br', d'.
      split_and!; [done|done| |done]. simpl. rewrite Hother; [done|]. intros ->. done.
  - apply map_eq. intros br'. rewrite lookup_nsView. simpl. rewrite Hi.
    destruct (decide (br' = br)) as [->|Hne].
    + rewrite lookup_insert_eq, Hbrd. symmetry. apply lookup_union_Some_raw.
      destruct (nsView ns !! br) as [d'|] eqn:E; [left|right; by rewrite lookup_singleton_eq].
      f_equal. apply Hsame. rewrite lookup_nsView in E. by destruct (_ !! RefString br).
    + rewrite lookup_union_l by by apply lookup_singleton_ne. rewrite lookup_nsView, Hother by done.
      destruct (decide (RefString br' = RefString br)) as [He|Hke]; [|by rewrite lookup_insert_ne].
      destruct (st_view (master ns) !! br') as [d'|] eqn:E; [|by repeat case_match].
      exfalso. apply Hne, goodRef_inj; [by eapply (st_wf_good _ (proj1 Hwf))|done..].
Qed.

Lemma nsReceive_ok ns br src :
  nsWf ns -> goodRef br -> glen src.1 < 2 ^ 32 ->
  (forall d', st_view (master ns) !! br = Some d' -> d' = src.1) ->
  let '(ns', r) := nsReceiveBlob ns br src in
  match r with
  | Ok sb => src.2 = Ok tt /\ sb = sized (br, src.1) /\ nsWf ns' /\ nsView ns' = nsView ns ∪ {[br := src.1]}
  | Err e => (nsWf ns' /\ nsView ns' = nsView ns) \/
      (kv_set (RefString br) (itoa (glen src.1)) (inventory ns)).1 = Some e
  | Panic p => src.2 = Panic p \/ kv_get (RefString br) (inventory ns) = Panic p
  | Blocked => src.2 = Blocked \/ kv_get (RefString br) (inventory ns) = Blocked
  end.
Proof.
  intros Hwf Hbr Hl Hsame. unfold nsReceiveBlob, readAll.
  destruct src as [d [[]|e|p|]]; simpl in *; [|by left..].
  destruct (kv_get (RefString br) (inventory ns)) as [v|e|p|] eqn:Eg; [| |by right..].
  - apply kv_get_Ok in Eg. destruct (nsWf_get ns br v Hwf Hbr Eg) as (d' & Hd' & Hview & _ & _).
    rewrite u32_small by (unfold glen in *; lia). split_and!; [done..|].
    apply map_eq. intros br'. destruct (decide (br' = br)) as [->|Hne].
    + rewrite Hview. symmetry. apply lookup_union_Some_raw. by left.
    + symmetry. apply lookup_union_l. by apply lookup_singleton_ne.
  - destruct (st_ReceiveBlob (master ns) br (d, Ok tt)) as [m r] eqn:Er.
    apply st_ReceiveBlob_law in Er as (Hm & Hr); [|apply Hwf|done|done].
    destruct r as [sb|e'|p|]; [|left|by destruct Hr..].
    + destruct Hr as (_ & -> & Hv).
      destruct (kv_set (RefString br) (itoa (glen d)) (inventory ns)) as [[e'|] inv] eqn:Es; [by right|].
      apply kv_set_ok in Es. destruct (nsReceived ns br d inv m Hwf Hbr Hl Hsame Hm Hv Es). by split_and!.
    + destruct Hr as [Hv _]. split; [split; [done|]; simpl; rewrite Hv; apply Hwf|].
      unfold nsView; simpl. by rewrite Hv.
Qed.

(** Fetching from and uploading to a namespace: only blobs of the
    inventory are seen, whatever else the master holds; an upload shows its
    blob even when the master had it, and an error leaves the namespace as it
    was unless it is the inventory's write that failed. *)
Theorem ns_fetch_receive ns br src :
  nsWf ns -> goodRef br -> glen src.1 < 2 ^ 32 ->
  (forall d', st_view (master ns) !! br = Some d' -> d' = src.1) ->
  kv_get (RefString br) (inventory ns) ≠ Err ErrNotExist ->
  (let '(ns', r) := nsFetch ns br in
   inventory ns' = inventory ns /\ st_view (master ns') = st_view (master ns) /\ st_wf (master ns') /\
   match r with
   | Ok (d, n) => nsView ns !! br = Some d /\ n = glen d
   | Err e => e = ErrNotExist -> nsView ns !! br = None
   | Panic p => kv_get (RefString br) (inventory ns) = Panic p
   | Blocked => kv_get (RefString br) (inventory ns) = Blocked
   end) /\
  (let '(ns', r) := nsReceiveBlob ns br src in
   match r with
   | Ok sb => src.2 = Ok tt /\ sb = sized (br, src.1) /\ nsWf ns' /\ nsView ns' = nsView ns ∪ {[br := src.1]}
   | Err e => (nsWf ns' /\ nsView ns' = nsView ns) \/
       (kv_set (RefString br) (itoa (glen src.1)) (inventory ns)).1 = Some e
   | Panic p => src.2 = Panic p \/ kv_get (RefString br) (inventory ns) = Panic p
   | Blocked => src.2 = Blocked \/ kv_get (RefString br) (inventory ns) = Blocked
   end).
Proof. intros Hwf Hbr Hl Hsame Hne. split; [by apply nsFetch_ok|by apply nsReceive_ok]. Qed.

Lemma nsDelete_ok ns br inv :
  nsWf ns -> goodRef br -> kv_view inv = delete (RefString br) (kv_view (inventory ns)) ->
  nsWf (MkNs inv (master ns)) /\ nsView (MkNs inv (master ns)) = removeSpec (nsView ns) [br].
Proof.
  intros Hwf Hbr Hi. split; [split; [apply Hwf|]|].
  - intros k v. simpl. rewrite Hi. intros [_ Hk]%lookup_delete_Some. by apply Hwf.
  - apply map_eq. intros br'. rewrite lookup_removeSpec, !lookup_nsView. simpl. rewrite Hi.
    destruct (decide (br' ∈ [br])) as [->%list_elem_of_singleton|Hne]; [by rewrite lookup_delete_eq|].
    destruct (decide (RefString br = RefString br')) as [He|Hke]; [|by rewrite lookup_delete_ne].
    destruct (st_view (master ns) !! br') as [d'|] eqn:E; [|by repeat case_match].
    destruct Hne. apply list_elem_of_singleton. symmetry. apply goodRef_inj; [done| |done].
    by eapply (st_wf_good _ (proj1 Hwf)).
Qed.

(** C1. Statting a namespace gives the sizes of the blobs it shows, in the
    order asked; removing hides the blobs and never touches the master. *)
Theorem ns_stat_remove ns brs :
  nsWf ns -> Forall goodRef brs ->
  (let '(out, r) := nsStatBlobs ns brs in
   match r with
   | Ok _ => out = statSpec (nsView ns) brs
   | _ => out `prefix_of` statSpec (nsView ns) brs /\
       exists br, br ∈ brs /\ kv_get (RefString br) (inventory ns) = (let? _ := r in Ok [])
   end) /\
  (let '(ns', r) := nsRemoveBlobs ns brs in
   master ns' = master ns /\
   match r with
   | Ok _ => nsWf ns' /\ nsView ns' = removeSpec (nsView ns) brs
   | Err _ => True
   | _ => False
   end).
Proof.
  intros Hwf Hg. split.
  - induction Hg as [|br brs Hbr Hg IH]; [done|]. cbn [nsStatBlobs]. rewrite statSpec_cons.
    assert (forall e : res unit, is_ok e = false -> kv_get (RefString br) (inventory ns) = (let? _ := e in Ok []) ->
      [] `prefix_of` (match nsView ns !! br with Some d => [MkSizedRef br (glen d)] | None => [] end ++
        statSpec (nsView ns) brs) /\
      exists br', br' ∈ br :: brs /\ kv_get (RefString br') (inventory ns) = (let? _ := e in Ok [])) as Hhere.
    { intros e _ He. split; [apply prefix_nil|]. exists br. split; [apply list_elem_of_here|done]. }
    destruct (kv_get (RefString br) (inventory ns)) as [v|e|p|] eqn:Eg;
      [|destruct (decide (e = ErrNotFound)) as [->|Hnf]|by apply (Hhere (Panic p))|by apply (Hhere Blocked)].
    + apply kv_get_Ok in Eg. destruct (nsWf_get ns br v Hwf Hbr Eg) as (d & _ & -> & -> & Hl).
      destruct (nsStatBlobs ns brs) as [out r]. unfold ParseUint.
      rewrite itoa_parse by (unfold glen in *; lia). simpl. rewrite u32_small by (unfold glen in *; lia).
      destruct r as [[]|e|p|]; [by rewrite IH|..];
        (destruct IH as [Hp (b & Hb & He)]; split; [by apply prefix_cons|]; exists b;
         split; [by apply list_elem_of_further|done]).
    + apply kv_get_NotFound in Eg. rewrite lookup_nsView, Eg. simpl.
      destruct (nsStatBlobs ns brs) as [out [[]|e|p|]]; [done|..];
        (destruct IH as [Hp (b & Hb & He)]; split; [done|]; exists b;
         split; [by apply list_elem_of_further|done]).
    + destruct e; try done; by apply (Hhere (Err _)).
  - revert ns Hwf. induction Hg as [|br brs Hbr Hg IH]; intros ns Hwf; cbn [nsRemoveBlobs].
    { split_and!; [done..|]. apply map_eq. intros br. by rewrite lookup_removeSpec, decide_False by set_solver. }
    destruct (kv_delete (RefString br) (inventory ns)) as [[e|] inv] eqn:Ed; [done|].
    apply kv_delete_ok in Ed. destruct (nsDelete_ok ns br inv Hwf Hbr Ed) as [Hwf1 Hv1].
    specialize (IH (MkNs inv (master ns)) Hwf1).
    destruct (nsRemoveBlobs (MkNs inv (master ns)) brs) as [ns' [[]|e|p|]]; [|tauto..].
    destruct IH as (Hm & Hwf' & Hv'). split_and!; [done..|]. rewrite Hv', Hv1.
    apply map_eq. intros br'. rewrite !lookup_removeSpec.
    destruct (decide (br' ∈ brs)), (decide (br' ∈ [br])), (decide (br' ∈ br :: brs)); set_solver.
Qed.
End namespace_proofs.

(** * Examples *)

(** A master of two blobs; the namespace shows one of them. *)
Definition exampleNs : nsto (memKeys (gmap gostr gostr)) blobs :=
  MkNs (MemKeys {[RefString (refOf (gs "a")) := gs "1"]}) (blobsOf [gs "a"; gs "b"]).

Lemma blobsOf_head d ds : blobsOf (d :: ds) !! refOf d = Some d.
Proof. unfold blobsOf. simpl. apply lookup_insert_eq. Qed.

Lemma exampleNs_wf : nsWf exampleNs.
Proof.
  split; [apply blobsOf_good; by repeat constructor|].
  intros k v Hkv. change (kv_view (inventory exampleNs)) with ({[RefString (refOf (gs "a")) := gs "1"]} : gmap gostr gostr) in Hkv.
  apply lookup_singleton_Some in Hkv as [<- <-]. exists (refOf (gs "a")), (gs "a").
  split_and!; [apply refOf_good|done|apply blobsOf_head|done].
Qed.

Lemma exampleNs_get k : kv_get k (inventory exampleNs) ≠ Err ErrNotExist.
Proof. cbn [kv_get memKeys_KV]. rewrite memGet_spec. by destruct (_ !! k). Qed.

Lemma nsEnumerate_spec_witness :
  nsEnumerateBlobs exampleNs None [] 10 = sendAll None (enumSpec (nsView exampleNs) [] 10).
Proof.
  exact (nsEnumerate_spec exampleNs None [] 10 exampleNs_wf (f_equal snd (memFind_range [] [] (inventory exampleNs)))).
Defined.

Lemma ns_fetch_receive_witness :
  let '(ns', r) := nsReceiveBlob exampleNs (refOf (gs "b")) (gs "b", Ok tt) in
  match r with
  | Ok sb => sb = sized (refOf (gs "b"), gs "b") /\ nsWf ns' /\ nsView ns' = nsView exampleNs ∪ {[refOf (gs "b") := gs "b"]}
  | _ => True
  end.
Proof.
  assert (forall d', st_view (master exampleNs) !! refOf (gs "b") = Some d' -> d' = gs "b") as Hsame.
  { intros d' Hd. apply (blobsOf_lookup [gs "a"; gs "b"]) in Hd as [Hr Hd]. symmetry.
    apply exampleData_inj; [by right| |exact Hr]. rewrite !elem_of_cons, elem_of_nil in Hd. tauto. }
  destruct (ns_fetch_receive exampleNs (refOf (gs "b")) (gs "b", Ok tt) exampleNs_wf (refOf_good _) eq_refl Hsame
    (exampleNs_get _)) as [_ H].
  destruct (nsReceiveBlob exampleNs (refOf (gs "b")) (gs "b", Ok tt)) as [ns' [sb|e|p|]]; [|exact I..].
  destruct H as (_ & H). exact H.
Defined.

Lemma ns_stat_remove_witness :
  let '(ns', r) := nsRemoveBlobs exampleNs [refOf (gs "a")] in
  master ns' = master exampleNs /\
  match r with
  | Ok _ => nsWf ns' /\ nsView ns' = removeSpec (nsView exampleNs) [refOf (gs "a")]
  | Err _ => True
  | _ => False
  end.
Proof.
  destruct (ns_stat_remove exampleNs [refOf (gs "a")] exampleNs_wf) as [_ H]; [|exact H].
  repeat constructor; apply refOf_good.
Defined.
