(* ===== verification/Replica.v ===== *)
(** The replicating storage of pkg/blobserver/replica/replica.go: uploads go to
    every replica and wait for [minWritesForSuccess] of them, reads try the
    read replicas in order.

    The storages are kept in one list, and the write and the read replicas are
    lists of positions in it, because both lists usually name the same
    storages.  Goroutines on different storages do not interfere: they run one
    after the other, and [arrive] and [interleave], which order what they send
    back, are arbitrary. *)

From S2P Require Import Prelude Ref Sha1 Storage Enumerate Receive.

Record replicaStorage (S : Type) := MkReplica {
  stores : list S;
  replicaPrefixes : list gostr;
  replicas : list nat;
  readPrefixes : list gostr;
  readReplicas : list nat;
  minWritesForSuccess : Z
}.
Arguments MkReplica {S}.
Arguments stores {S}.
Arguments replicaPrefixes {S}.
Arguments replicas {S}.
Arguments readPrefixes {S}.
Arguments readReplicas {S}.
Arguments minWritesForSuccess {S}.

Definition setStores {S} (sto : replicaStorage S) (ss : list S) : replicaStorage S :=
  MkReplica ss (replicaPrefixes sto) (replicas sto) (readPrefixes sto) (readReplicas sto)
    (minWritesForSuccess sto).

Definition NewForTest {S} (sto : list S) : replicaStorage S :=
  let names := replicate (length sto) (gs "/unknown-prefix/") in
  let all := seq 0 (length sto) in
  MkReplica sto names all names all (glen sto).

Record sizedBlobAndError := MkSbe { sbe_idx : nat; sbe_res : res SizedRef }.

Section replica.
Context {S : Type} `{!Storage S}.
Context (firstErr : list error -> error) (hubs : nat -> memHub).
(** The order in which the goroutines' results arrive, which of the errors is
    the last one, and how their sends on one channel interleave. *)
Context (arrive : list sizedBlobAndError -> list sizedBlobAndError).
Context (lastErr : list error -> error).
Context (interleave : list (list SizedRef) -> list SizedRef).

Definition nilDeref : string := "invalid memory address or nil pointer dereference".

(** A nil [file] is [None]: what a loop over no replicas leaves. *)
Fixpoint fetchLoop (ss : list S) (idxs : list nat) (b : Ref) (last : res (option gostr * Z))
    : list S * res (option gostr * Z) :=
  match idxs with
  | [] => (ss, last)
  | i :: idxs =>
      match ss !! i with
      | None => (ss, Panic nilDeref)
      | Some s =>
          match st_Fetch s b with
          | (s', Ok (file, size)) => (<[i := s']> ss, Ok (Some file, size))
          | (s', Err e) => fetchLoop (<[i := s']> ss) idxs b (Err e)
          | (s', Panic p) => (<[i := s']> ss, Panic p)
          | (s', Blocked) => (<[i := s']> ss, Blocked)
          end
      end
  end.

Definition replicaFetch (sto : replicaStorage S) (b : Ref) : replicaStorage S * res (option gostr * Z) :=
  let '(ss, r) := fetchLoop (stores sto) (readReplicas sto) b (Ok (None, 0)) in (setStores sto ss, r).

(** The goroutine that forwards what is needed: what it sends, what is left. *)
Fixpoint forwardNeeded (need : gset Ref) (ch : list SizedRef) : list SizedRef * gset Ref :=
  match ch with
  | [] => ([], need)
  | sb :: ch =>
      if decide (sr_ref sb ∈ need) then
        let '(out, need) := forwardNeeded (need ∖ {[sr_ref sb]}) ch in (sb :: out, need)
      else forwardNeeded need ch
  end.

Definition statResults (sto : replicaStorage S) (blobs : list Ref) : list (list SizedRef * res unit) :=
  (fun i => match stores sto !! i with Some s => st_StatBlobs s blobs | None => ([], Panic nilDeref) end)
    <$> readReplicas sto.

Definition replicaStatBlobs (sto : replicaStorage S) (blobs : list Ref) : list SizedRef * res unit :=
  let outs := statResults sto blobs in
  let '(sent, need) := forwardNeeded (list_to_set blobs) (interleave outs.*1) in
  (sent,
   match batchErr lastErr outs.*2 with
   | Err e => if decide (need = ∅) then Ok tt else Err e
   | r => r
   end).

(** The uploads, with the sends their hubs start. *)
Fixpoint uploadAll (ss : list S) (idxs : list nat) (pos : nat) (br : Ref) (buf : gostr)
    : list S * list (nat * Ref) * list sizedBlobAndError :=
  match idxs with
  | [] => (ss, [], [])
  | i :: idxs =>
      match ss !! i with
      | None =>
          let '(ss, sends, out) := uploadAll ss idxs (Datatypes.S pos) br buf in
          (ss, sends, MkSbe pos (Panic nilDeref) :: out)
      | Some s =>
          let '(s', sends1, r) := ReceiveNoHash firstErr s (hubs i) br (buf, Ok tt) in
          let '(ss, sends, out) := uploadAll (<[i := s']> ss) idxs (Datatypes.S pos) br buf in
          (ss, sends1 ++ sends, MkSbe pos r :: out)
      end
  end.

Definition zeroSized : SizedRef := MkSizedRef zeroRef 0.

(** The collecting loop: [blocked] remembers a goroutine that never reports;
    [fails] is only logged. *)
Fixpoint collect (size min : Z) (nSuccess : Z) (err : gerr) (blocked : bool) (fails : list sizedBlobAndError)
    (rs : list sizedBlobAndError) : res SizedRef :=
  match rs with
  | [] =>
      if blocked then Blocked else match err with None => Ok zeroSized | Some e => Err e end
  | r :: rs =>
      match sbe_res r with
      | Ok sb =>
          if sr_size sb =? size then
            if nSuccess + 1 =? min then Ok sb else collect size min (nSuccess + 1) err blocked fails rs
          else
            let err := ErrMsg "replica: upload shard reported size %d, expected %d" in
            collect size min nSuccess (Some err) blocked (fails ++ [MkSbe (sbe_idx r) (Err err)]) rs
      | Err e => collect size min nSuccess (Some e) blocked (fails ++ [r]) rs
      | Panic p => Panic p
      | Blocked => collect size min nSuccess err true fails rs
      end
  end.

Definition replicaReceiveBlob (sto : replicaStorage S) (br : Ref) (src : reader)
    : replicaStorage S * list (nat * Ref) * res SizedRef :=
  match readAll src with
  | Err e => (sto, [], Err e)
  | Panic p => (sto, [], Panic p)
  | Blocked => (sto, [], Blocked)
  | Ok buf =>
      let size := glen buf in
      let '(ss, sends, out) := uploadAll (stores sto) (replicas sto) 0 br buf in
      (setStores sto ss, sends, collect size (minWritesForSuccess sto) 0 None false [] (arrive out))
  end.

Fixpoint removeFromAll (ss : list S) (idxs : list nat) (blobs : list Ref) : list S * list (res unit) :=
  match idxs with
  | [] => (ss, [])
  | i :: idxs =>
      match ss !! i with
      | None => let '(ss, out) := removeFromAll ss idxs blobs in (ss, Panic nilDeref :: out)
      | Some s =>
          let '(s', r) := st_RemoveBlobs s blobs in
          let '(ss, out) := removeFromAll (<[i := s']> ss) idxs blobs in (ss, r :: out)
      end
  end.

Definition replicaRemoveBlobs (sto : replicaStorage S) (blobs : list Ref) : replicaStorage S * res unit :=
  let '(ss, out) := removeFromAll (stores sto) (replicas sto) blobs in
  (setStores sto ss,
   match batchErr lastErr out with
   | Err e => if decide (Ok tt ∈ out) then Ok tt else Err e
   | r => r
   end).

Definition replicaEnumerateBlobs (sto : replicaStorage S) (c : ctx) (after : gostr) (limit : Z)
    : list SizedRef * res unit :=
  MergedEnumerateStorage c (omap (fun i => stores sto !! i) (readReplicas sto)) after limit.
End replica.

(** * Invariant *)

Section replica_proofs.
Context {S : Type} `{StorageLaws S}.
Implicit Types sto : replicaStorage S.

(** Lawful storages that agree on the bytes of each reference, as they do for
    blobs; replicas are distinct storages. *)
Record storesOk (ss : list S) : Prop := MkStoresOk {
  so_wf : Forall st_wf ss;
  so_agree : forall i j s t br d e, ss !! i = Some s -> ss !! j = Some t ->
    st_view s !! br = Some d -> st_view t !! br = Some e -> d = e
}.

Record replicaWf sto : Prop := MkReplicaWf {
  rw_stores : storesOk (stores sto);
  rw_dom : forall i, i ∈ replicas sto \/ i ∈ readReplicas sto -> is_Some (stores sto !! i);
  rw_nodup : NoDup (replicas sto);
  rw_read_nodup : NoDup (readReplicas sto);
  rw_some : replicas sto ≠ [] /\ readReplicas sto ≠ []
}.

(** What readers see. *)
Definition readStores sto : list S := omap (fun i => stores sto !! i) (readReplicas sto).
Definition replicaView sto : blobs := ⋃ (st_view <$> readStores sto).

(** A call on storage [i] that keeps the storages lawful and in agreement. *)
Lemma storesOk_insert ss i s s' :
  storesOk ss -> ss !! i = Some s -> st_wf s' ->
  (forall br d, st_view s' !! br = Some d -> st_view s !! br = Some d \/
     forall j t e, ss !! j = Some t -> st_view t !! br = Some e -> e = d) ->
  storesOk (<[i := s']> ss).
Proof.
  intros [Hwf Hag] Hs Hs' Hv. split; [by apply Forall_insert|].
  assert (forall k t br d, <[i := s']> ss !! k = Some t -> st_view t !! br = Some d ->
    (exists k t, ss !! k = Some t /\ st_view t !! br = Some d) \/
    (t = s' /\ forall j t e, ss !! j = Some t -> st_view t !! br = Some e -> e = d)) as Hold.
  { intros k t br d [(-> & <- & _)|[_ Hk]]%list_lookup_insert_Some Hd; [|left; by exists k, t].
    destruct (Hv br d Hd) as [|Hall]; [left; by exists k, s|by right]. }
  intros j k t u br d e Hj Hk Hd He.
  destruct (Hold j t br d Hj Hd) as [(j1 & t1 & Hj1 & Hd1)|[-> Hall]],
    (Hold k u br e Hk He) as [(k1 & u1 & Hk1 & He1)|[-> Hall']].
  - by eapply (Hag j1 k1).
  - by eapply Hall'.
  - symmetry. by eapply Hall.
  - congruence.
Qed.

Lemma storesOk_same ss i s s' :
  storesOk ss -> ss !! i = Some s -> st_wf s' -> st_view s' = st_view s -> storesOk (<[i := s']> ss).
Proof. intros. eapply storesOk_insert; [done..|]. intros br d Hd. left. congruence. Qed.

(** * Reading *)

Definition sameViews (ss ss' : list S) : Prop := Forall2 (fun s s' => st_wf s' /\ st_view s' = st_view s) ss ss'.

Lemma sameViews_refl ss : storesOk ss -> sameViews ss ss.
Proof. intros [Hwf _]. induction Hwf; by constructor. Qed.

Lemma sameViews_insert ss ss' i s s' :
  sameViews ss ss' -> ss !! i = Some s -> st_wf s' -> st_view s' = st_view s -> sameViews ss (<[i := s']> ss').
Proof.
  intros Hs Hi Hs' Hv. apply Forall2_same_length_lookup. split; [rewrite length_insert; by eapply Forall2_length|].
  intros j t t' Ht [(-> & <- & _)|[_ Hj]]%list_lookup_insert_Some; [naive_solver|].
  exact (Forall2_lookup_lr _ _ _ _ _ _ Hs Ht Hj).
Qed.

Lemma fetchLoop_spec ss0 ss idxs br last :
  storesOk ss0 -> sameViews ss0 ss -> NoDup idxs ->
  (forall i, i ∈ idxs -> is_Some (ss0 !! i) /\ ss !! i = ss0 !! i) ->
  let '(ss', r) := fetchLoop ss idxs br last in
  sameViews ss0 ss' /\
  match r with
  | Ok (Some d, n) => last = Ok (Some d, n) \/
      (exists i s, i ∈ idxs /\ ss0 !! i = Some s /\ st_view s !! br = Some d) /\ n = glen d
  | Ok (None, n) => last = Ok (None, n) /\ idxs = []
  | Err e => (last = Err e \/ exists i s, i ∈ idxs /\ ss0 !! i = Some s /\ (st_Fetch s br).2 = Err e) /\
      forall i s, i ∈ idxs -> ss0 !! i = Some s -> exists e', (st_Fetch s br).2 = Err e'
  | _ => last = r /\ idxs = []
  end.
Proof.
  intros H0. revert ss last. induction idxs as [|i idxs IH]; intros ss last Hs Hn Hi; cbn [fetchLoop].
  { split; [done|]. destruct last as [[[d|] n]|e|p|]; [by left|done| |done..].
    split; [by left|]. intros i s []%elem_of_nil. }
  apply NoDup_cons in Hn as [Hni Hn]. destruct (Hi i) as [[s Hs0] Hsi]; [apply list_elem_of_here|].
  rewrite Hsi, Hs0. destruct (st_Fetch s br) as [s' r] eqn:E.
  pose proof (Forall_lookup_1 _ _ _ _ (so_wf ss0 H0) Hs0) as Hws. pose proof E as E'.
  apply st_Fetch_law in E as (Hs' & Hv & Hr); [|done].
  pose proof (sameViews_insert ss0 ss i s s' Hs Hs0 Hs' Hv) as Hsame.
  destruct r as [[d n]|e|p|]; [| |done..].
  - split; [done|]. right. destruct Hr as [Hd ->]. split; [|done]. exists i, s.
    split_and!; [apply list_elem_of_here|done..].
  - specialize (IH (<[i := s']> ss) (Err e) Hsame Hn). ospecialize* IH.
    { intros j Hj. destruct (Hi j) as [? ?]; [by apply list_elem_of_further|]. split; [done|].
      rewrite list_lookup_insert_ne; [done|]. intros ->. done. }
    destruct (fetchLoop (<[i := s']> ss) idxs br (Err e)) as [ss' r']. destruct IH as [Hsame' IH].
    split; [done|]. destruct r' as [[[d|] n]|e'|p|]; [| | |by destruct IH..].
    + right. destruct IH as [|[(j & t & Hj & Ht & Hd) ->]]; [done|]. split; [|done].
      exists j, t. split_and!; [by apply list_elem_of_further|done..].
    + by destruct IH.
    + destruct IH as [Hlast Hall]. split.
      * right. destruct Hlast as [[= <-]|(j & t & Hj & Ht & He)].
        -- exists i, s. split_and!; [apply list_elem_of_here|done|]. by rewrite E'.
        -- exists j, t. split_and!; [by apply list_elem_of_further|done..].
      * intros j t [->|Hj]%elem_of_cons Ht; [|by apply (Hall j t)].
        assert (t = s) as -> by congruence. exists e. by rewrite E'.
Qed.

(** * Forwarding what is needed *)

Lemma forwardNeeded_spec need ch :
  let '(out, rest) := forwardNeeded need ch in
  (forall sb, sb ∈ out -> sb ∈ ch /\ sr_ref sb ∈ need /\ sr_ref sb ∉ rest) /\
  NoDup (sr_ref <$> out) /\ rest ⊆ need /\
  (forall br, br ∈ need -> br ∉ rest -> br ∈ sr_ref <$> out) /\
  (forall sb, sb ∈ ch -> sr_ref sb ∉ rest).
Proof.
  revert need. induction ch as [|sb ch IH]; intros need; cbn [forwardNeeded].
  { split_and!; [set_solver|constructor|done|set_solver|set_solver]. }
  destruct (decide (sr_ref sb ∈ need)) as [Hin|Hin].
  - specialize (IH (need ∖ {[sr_ref sb]})).
    destruct (forwardNeeded (need ∖ {[sr_ref sb]}) ch) as [out rest].
    destruct IH as (H1 & H2 & H3 & H4 & H5). split_and!.
    + intros x [->|Hx]%elem_of_cons; [|set_solver]. split_and!; [apply list_elem_of_here|done|set_solver].
    + rewrite fmap_cons. constructor; [|done]. intros (x & Hx & Hxo)%list_elem_of_fmap. set_solver.
    + set_solver.
    + intros br Hbr Hnr. rewrite fmap_cons, elem_of_cons.
      destruct (decide (br = sr_ref sb)); [by left|right; apply H4; set_solver].
    + intros x [->|Hx]%elem_of_cons; [set_solver|by apply H5].
  - specialize (IH need). destruct (forwardNeeded need ch) as [out rest].
    destruct IH as (H1 & H2 & H3 & H4 & H5). split_and!; [set_solver|done|done|done|].
    intros x [->|Hx]%elem_of_cons; [set_solver|by apply H5].
Qed.

Lemma lookup_readStores_elem sto s : s ∈ readStores sto <-> exists i, i ∈ readReplicas sto /\ stores sto !! i = Some s.
Proof. unfold readStores. rewrite list_elem_of_omap. naive_solver. Qed.

Lemma readStores_view sto br d :
  replicaWf sto ->
  replicaView sto !! br = Some d <-> exists s, s ∈ readStores sto /\ st_view s !! br = Some d.
Proof.
  intros Hwf. unfold replicaView.
  assert (forall ss, (forall s, s ∈ ss -> s ∈ readStores sto) ->
    (⋃ (st_view <$> ss)) !! br = Some d <-> exists s, s ∈ ss /\ st_view s !! br = Some d) as Hg; [|by apply Hg].
  intros ss. induction ss as [|s ss IH]; intros Hss; simpl.
  { rewrite lookup_empty. split; [done|]. intros (s & []%elem_of_nil & _). }
  rewrite lookup_union_Some_raw, IH by set_solver. split.
  - intros [Hd|[_ (t & Ht & Hd)]]; [exists s|exists t]; split; try done; [apply list_elem_of_here|].
    by apply list_elem_of_further.
  - intros (t & [->|Ht]%elem_of_cons & Hd); [by left|].
    destruct (st_view s !! br) as [e|] eqn:E; [left|right; eauto].
    destruct (proj1 (lookup_readStores_elem sto s)) as (i & _ & Hi); [apply Hss, list_elem_of_here|].
    destruct (proj1 (lookup_readStores_elem sto t)) as (j & _ & Hj); [by apply Hss, list_elem_of_further|].
    f_equal. by eapply (so_agree _ (rw_stores sto Hwf) i j s t br).
Qed.

(** The replicas' answers to [StatBlobs]. *)
Lemma statResults_spec sto blobs out r :
  replicaWf sto -> NoDup blobs -> (out, r) ∈ statResults sto blobs ->
  (exists s, s ∈ readStores sto /\ out ⊆+ statSpec (st_view s) blobs /\
     (r = Ok tt -> out ≡ₚ statSpec (st_view s) blobs)) /\
  match r with Ok _ | Err _ => True | _ => False end.
Proof.
  intros Hwf Hn (i & He & Hi)%list_elem_of_fmap. destruct (rw_dom sto Hwf i) as [s Hs]; [by right|].
  rewrite Hs in He. symmetry in He.
  pose proof (Forall_lookup_1 _ _ _ _ (so_wf _ (rw_stores sto Hwf)) Hs) as Hws.
  apply st_StatBlobs_law in He; [|done..]. split; [|by destruct r].
  exists s. split; [apply lookup_readStores_elem; eauto|].
  destruct r as [[]|e|p|]; [|by split|done..]. split; [by rewrite He|done].
Qed.

Lemma elem_of_statSpec m brs sb :
  sb ∈ statSpec m brs <-> sr_ref sb ∈ brs /\ exists d, m !! sr_ref sb = Some d /\ sr_size sb = glen d.
Proof.
  unfold statSpec. rewrite list_elem_of_omap. split.
  - intros (br & Hbr & Hd). apply fmap_Some in Hd as (d & Hd & ->). simpl. eauto.
  - intros (Hin & d & Hd & Hsz). exists (sr_ref sb). split; [done|]. rewrite Hd. simpl. rewrite <- Hsz. by destruct sb.
Qed.

Lemma statSpec_refs m brs : NoDup brs -> NoDup (statSpec m brs).
Proof.
  intros Hn. apply (NoDup_fmap_1 sr_ref). induction Hn as [|br brs Hbr Hn IH]; [constructor|].
  rewrite statSpec_cons. destruct (m !! br) as [d|]; [|done]. simpl. constructor; [|done].
  intros (sb & Hr & (Hin & _)%elem_of_statSpec)%list_elem_of_fmap. congruence.
Qed.

Section answers.
Context (lastErr : list error -> error) (interleave : list (list SizedRef) -> list SizedRef).
Hypothesis lastErr_in : forall l, l ≠ [] -> lastErr l ∈ l.
Hypothesis interleave_perm : forall ls, interleave ls ≡ₚ concat ls.

Lemma replicaStat_ok sto blobs :
  replicaWf sto -> NoDup blobs ->
  let '(out, r) := replicaStatBlobs lastErr interleave sto blobs in
  match r with
  | Ok _ => out ≡ₚ statSpec (replicaView sto) blobs
  | Err e => out ⊆+ statSpec (replicaView sto) blobs /\ exists res, res ∈ statResults sto blobs /\ res.2 = Err e
  | _ => False
  end.
Proof.
  intros Hwf Hn. unfold replicaStatBlobs. set (outs := statResults sto blobs).
  pose proof (forwardNeeded_spec (list_to_set blobs) (interleave outs.*1)) as Hf.
  destruct (forwardNeeded _ _) as [sent need]. destruct Hf as (Hin & Hnd & Hsub & Hall & Hch).
  assert (forall sb, sb ∈ interleave outs.*1 -> exists out r, (out, r) ∈ outs /\ sb ∈ out) as Hsrc.
  { intros sb Hsb. rewrite interleave_perm in Hsb. apply list_elem_of_In, in_concat in Hsb as (l & Hl & Hsb).
    rewrite <- list_elem_of_In in Hl. rewrite <- list_elem_of_In in Hsb.
    apply list_elem_of_fmap in Hl as ([out r] & -> & Hl). eauto. }
  assert (forall sb, sb ∈ sent -> sb ∈ statSpec (replicaView sto) blobs) as Hsent.
  { intros sb Hsb. destruct (Hin sb Hsb) as (Hc & _ & _). destruct (Hsrc sb Hc) as (out & r & Ho & Hso).
    destruct (statResults_spec sto blobs out r Hwf Hn Ho) as [(s & Hs & Hsm & _) _].
    eapply (elem_of_submseteq _ _ _ Hso) in Hsm. apply elem_of_statSpec in Hsm as (Hbr & d & Hd & Hz).
    apply elem_of_statSpec. split; [done|]. exists d. split; [|done]. apply readStores_view; eauto. }
  assert (NoDup sent) as Hnds by by eapply NoDup_fmap_1.
  assert ((forall sb, sb ∈ statSpec (replicaView sto) blobs -> sr_ref sb ∈ sr_ref <$> sent) ->
    sent ≡ₚ statSpec (replicaView sto) blobs) as Hperm.
  { intros Hcov. apply NoDup_Permutation; [done|by apply statSpec_refs|]. intros sb. split; [apply Hsent|].
    intros Hsb. pose proof (Hcov sb Hsb) as (sb' & Hr & Hs')%list_elem_of_fmap. pose proof (Hsent _ Hs') as Hsp.
    apply elem_of_statSpec in Hsb as (_ & d & Hd & Hz), Hsp as (_ & d' & Hd' & Hz').
    destruct sb, sb'; simpl in *; subst. rewrite Hd' in Hd. by simplify_eq. }
  assert (need = ∅ -> sent ≡ₚ statSpec (replicaView sto) blobs) as Hempty.
  { intros ->. apply Hperm. intros sb (Hbr & _)%elem_of_statSpec. apply Hall; set_solver. }
  assert (Forall (fun r => match r with Ok _ | Err _ => True | _ => False end) outs.*2) as Hok.
  { apply Forall_fmap, Forall_forall. intros [out r] Ho. simpl.
    exact (proj2 (statResults_spec sto blobs out r Hwf Hn Ho)). }
  pose proof (batchErr_spec lastErr outs.*2 lastErr_in) as Hb.
  destruct (batchErr lastErr outs.*2) as [[]|e|p|].
  - apply Hperm. intros sb Hsb. pose proof Hsb as (Hbr & d & Hd & Hz)%elem_of_statSpec.
    apply (readStores_view sto _ _ Hwf) in Hd as (s & (i & Hi & Hs)%lookup_readStores_elem & Hd).
    destruct (st_StatBlobs s blobs) as [out r] eqn:E.
    assert ((out, r) ∈ outs) as Ho.
    { unfold outs, statResults. apply list_elem_of_fmap. exists i. split; [|done].
      rewrite Hs. symmetry. exact E. }
    rewrite Forall_forall in Hb. assert (r = Ok tt) as ->.
    { apply Hb, list_elem_of_fmap. by exists (out, r). }
    apply st_StatBlobs_law in E; [|exact (Forall_lookup_1 _ _ _ _ (so_wf _ (rw_stores sto Hwf)) Hs)|done].
    apply Hall; [by apply elem_of_list_to_set|]. apply Hch. rewrite interleave_perm.
    apply list_elem_of_In, in_concat. exists out.
    rewrite <- !list_elem_of_In. split; [apply list_elem_of_fmap; by exists (out, Ok tt)|].
    rewrite E. apply elem_of_statSpec. eauto.
  - destruct Hb as [Hb _]. apply list_elem_of_fmap in Hb as ([out r] & He & Ho). simpl in He. subst r.
    destruct (decide (need = ∅)) as [Hne|Hne]; [by apply Hempty|]. split; [|by exists (out, Err e)].
    by apply NoDup_submseteq.
  - rewrite Forall_forall in Hok. by apply (Hok (Panic p)).
  - rewrite Forall_forall in Hok. by apply (Hok Blocked).
Qed.

(** Reading from replicas.  [Fetch] gives a blob some read replica holds,
    in full, and fails only when every read replica does, with the error of
    one of them; the stored blobs do not change.  [StatBlobs] sends each
    asked-for blob of the replicas' union exactly once and returns nil as soon
    as they are all known; otherwise its error is one of a replica's. *)
Theorem replica_fetch_stat sto br blobs :
  replicaWf sto -> NoDup blobs ->
  (let '(sto', r) := replicaFetch sto br in
   sameViews (stores sto) (stores sto') /\
   match r with
   | Ok (Some d, n) => replicaView sto !! br = Some d /\ n = glen d
   | Err e =>
       (exists s, s ∈ readStores sto /\ (st_Fetch s br).2 = Err e) /\
       forall s, s ∈ readStores sto -> exists e', (st_Fetch s br).2 = Err e'
   | _ => False
   end) /\
  (let '(out, r) := replicaStatBlobs lastErr interleave sto blobs in
   match r with
   | Ok _ => out ≡ₚ statSpec (replicaView sto) blobs
   | Err e => out ⊆+ statSpec (replicaView sto) blobs /\ exists res, res ∈ statResults sto blobs /\ res.2 = Err e
   | _ => False
   end).
Proof.
  intros Hwf Hn. split; [|by apply replicaStat_ok]. unfold replicaFetch.
  pose proof (fetchLoop_spec (stores sto) (stores sto) (readReplicas sto) br (Ok (None, 0)) (rw_stores sto Hwf)
    (sameViews_refl _ (rw_stores sto Hwf)) (rw_read_nodup sto Hwf)) as Hf. ospecialize* Hf.
  { intros i Hi. split; [|done]. apply Hwf. by right. }
  destruct (fetchLoop _ _ _ _) as [ss r]. destruct Hf as [Hsame Hr]. split; [done|].
  destruct (rw_some sto Hwf) as [_ Hne]. destruct r as [[[d|] n]|e|p|]; [|by destruct Hr as [_ ?]| |by destruct Hr..].
  - destruct Hr as [|[(i & s & Hi & Hs & Hd) ->]]; [done|]. split; [|done]. apply readStores_view; [done|].
    exists s. split; [|done]. apply lookup_readStores_elem; eauto.
  - destruct Hr as [[|(i & s & Hi & Hs & He)] Hall]; [done|]. split.
    + exists s. split; [|done]. apply lookup_readStores_elem; eauto.
    + intros t (j & Hj & Ht)%lookup_readStores_elem. by apply (Hall j t).
Qed.
End answers.

(** * Writing *)

Lemma replicaWf_setStores sto ss :
  replicaWf sto -> storesOk ss -> (forall i, is_Some (stores sto !! i) -> is_Some (ss !! i)) ->
  replicaWf (setStores sto ss).
Proof. intros [H1 H2 H3 H4 H5] Hss Hd. split; simpl; auto. Qed.

Section uploads.
Context (firstErr : list error -> error) (hubs : nat -> memHub).
Context (arrive : list sizedBlobAndError -> list sizedBlobAndError).
Hypothesis arrive_perm : forall l, arrive l ≡ₚ l.

(** The storages from [ss] to [ss'], when the uploads of [br] go to [idxs]. *)
Definition uploaded (br : Ref) (buf : gostr) (idxs : list nat) (ss ss' : list S) : Prop :=
  forall i s, ss !! i = Some s -> exists s', ss' !! i = Some s' /\
    (st_view s' = st_view s \/ i ∈ idxs /\ st_view s' = st_view s ∪ {[br := buf]}).

(** The bytes already there are the ones uploaded. *)
Definition noClash (br : Ref) (buf : gostr) (ss : list S) : Prop :=
  forall i s d, ss !! i = Some s -> st_view s !! br = Some d -> d = buf.

Lemma union_singleton_Some (m : blobs) br buf br' d :
  (m ∪ {[br := buf]}) !! br' = Some d -> m !! br' = Some d \/ br' = br /\ d = buf.
Proof.
  intros [|[_ Hs]]%lookup_union_Some_raw; [by left|right].
  by apply lookup_singleton_Some in Hs as [<- <-].
Qed.

Lemma union_singleton_eq (m : blobs) br buf :
  (forall d, m !! br = Some d -> d = buf) -> (m ∪ {[br := buf]}) !! br = Some buf.
Proof.
  intros Hs. apply lookup_union_Some_raw. destruct (m !! br) as [d|]; [left; f_equal; by apply Hs|right].
  by rewrite lookup_singleton_eq.
Qed.

Lemma noClash_insert br buf ss i s s' :
  noClash br buf ss -> ss !! i = Some s ->
  (st_view s' = st_view s \/ st_view s' = st_view s ∪ {[br := buf]}) -> noClash br buf (<[i := s']> ss).
Proof.
  intros Hc Hi Hv j t d [(-> & <- & _)|[_ Hj]]%list_lookup_insert_Some Hd; [|by eapply Hc].
  destruct Hv as [Hv|Hv]; rewrite Hv in Hd; [by eapply Hc|].
  apply union_singleton_Some in Hd as [Hd|[_ ->]]; [by eapply Hc|done].
Qed.

Lemma storesOk_upload ss i s s' br buf :
  storesOk ss -> noClash br buf ss -> ss !! i = Some s -> st_wf s' ->
  (st_view s' = st_view s \/ st_view s' = st_view s ∪ {[br := buf]}) -> storesOk (<[i := s']> ss).
Proof.
  intros Hss Hc Hs Hs' Hv. eapply storesOk_insert; [done..|]. intros br' d Hd.
  destruct Hv as [Hv|Hv]; rewrite Hv in Hd; [by left|].
  apply union_singleton_Some in Hd as [|[-> ->]]; [by left|right]. intros j t e. apply Hc.
Qed.

Definition answerOk (br : Ref) (buf : gostr) (ss' : list S) (i : nat) (r : sizedBlobAndError) : Prop :=
  match sbe_res r with
  | Ok sb => sb = sized (br, buf) /\ exists s', ss' !! i = Some s' /\ st_view s' !! br = Some buf
  | Err _ => True
  | _ => False
  end.

Lemma uploadAll_spec ss idxs pos br buf :
  storesOk ss -> noClash br buf ss -> NoDup idxs -> (forall i, i ∈ idxs -> is_Some (ss !! i)) ->
  goodRef br -> glen buf <= MaxBlobSize ->
  let '(ss', sends, out) := uploadAll firstErr hubs ss idxs pos br buf in
  storesOk ss' /\ uploaded br buf idxs ss ss' /\ Forall2 (answerOk br buf ss') idxs out.
Proof.
  intros Hok Hc Hn Hi Hbr Hl. revert ss pos Hok Hc Hi.
  induction Hn as [|i idxs Hni Hn IH]; intros ss pos Hok Hc Hi; cbn [uploadAll].
  { split_and!; [done| |constructor]. intros j s Hj. exists s. split; [done|by left]. }
  destruct (Hi i) as [s Hs]; [apply list_elem_of_here|]. rewrite Hs.
  pose proof (ReceiveNoHash_ok firstErr s (hubs i) br buf (Forall_lookup_1 _ _ _ _ (so_wf _ Hok) Hs) Hbr Hl) as Hrec.
  destruct (ReceiveNoHash firstErr s (hubs i) br (buf, Ok tt)) as [[s' sends1] r]. destruct Hrec as (Hs' & Hv & Hr).
  specialize (IH (<[i := s']> ss) (Datatypes.S pos)). ospecialize* IH.
  { by eapply storesOk_upload. }
  { by eapply noClash_insert. }
  { intros j Hj. destruct (Hi j) as [t Ht]; [by apply list_elem_of_further|]. exists t.
    rewrite list_lookup_insert_ne; [done|]. by intros ->. }
  destruct (uploadAll firstErr hubs (<[i := s']> ss) idxs (Datatypes.S pos) br buf) as [[ss' sends] out].
  destruct IH as (Hok' & Hup & Hall).
  assert (<[i := s']> ss !! i = Some s') as His by (apply list_lookup_insert_eq; by eapply lookup_lt_Some).
  destruct (Hup i s' His) as (s'' & Hs'' & Hv''). destruct Hv'' as [Hv''|[Hin _]]; [|done].
  split_and!; [done| |].
  - intros j t Ht. destruct (decide (j = i)) as [->|Hne].
    + assert (t = s) as -> by congruence. exists s''. split; [done|]. rewrite Hv''.
      destruct Hv; [by left|right]. split; [apply list_elem_of_here|done].
    + destruct (Hup j t) as (t' & Ht' & Hvt); [by rewrite list_lookup_insert_ne|]. exists t'. split; [done|].
      destruct Hvt as [|[Hj ?]]; [by left|right]. split; [by apply list_elem_of_further|done].
  - constructor; [|done]. unfold answerOk; simpl. destruct r as [sb|e|p|]; try done.
    destruct Hr as [-> Hvr]. split; [done|]. exists s''. split; [done|]. rewrite Hv'', Hvr.
    apply union_singleton_eq. intros d. by apply (Hc i s).
Qed.

Definition successes (rs : list sizedBlobAndError) : nat := length (filter (fun r => is_ok (sbe_res r) = true) rs).

Lemma collect_spec br buf min n err fails rs :
  Forall (fun r => match sbe_res r with Ok sb => sb = sized (br, buf) | Err _ => True | _ => False end) rs ->
  0 <= n < min ->
  match collect (glen buf) min n err false fails rs with
  | Ok sb => (sb = sized (br, buf) /\ min <= n + Z.of_nat (successes rs)) \/
      (sb = zeroSized /\ err = None /\ n + glen rs < min)
  | Err e => n + Z.of_nat (successes rs) < min /\ (err = Some e \/ exists r, r ∈ rs /\ sbe_res r = Err e)
  | _ => False
  end.
Proof.
  intros Hf. revert n err fails. induction Hf as [|r rs Hr Hf IH]; intros n err fails Hn; cbn [collect].
  { unfold successes; simpl. destruct err as [e|]; [split; [lia|by left]|right]. unfold glen; simpl. split_and!; [done..|lia]. }
  unfold successes in *. rewrite filter_cons. destruct (sbe_res r) as [sb|e|p|] eqn:Er; try done; simpl.
  - subst sb. simpl. rewrite Z.eqb_refl. simpl.
    destruct (Z.eqb_spec (n + 1) min) as [Hmin|Hmin]; [left; split; [done|lia]|].
    specialize (IH (n + 1) err fails ltac:(lia)).
    destruct (collect (glen buf) min (n + 1) err false fails rs) as [sb|e|p|]; [|destruct IH as [? IH]|done..].
    + destruct IH as [[-> ?]|(-> & -> & ?)]; [left|right]; split_and!; try done; unfold glen in *; simpl; lia.
    + split; [lia|]. destruct IH as [|(x & Hx & He)]; [by left|right]. exists x. split; [by apply list_elem_of_further|done].
  - specialize (IH n (Some e) (fails ++ [r]) Hn).
    destruct (collect (glen buf) min n (Some e) false (fails ++ [r]) rs) as [sb|e'|p|]; [|destruct IH as [? IH]|done..].
    + destruct IH as [[-> ?]|(_ & ? & _)]; [by left|done].
    + split; [done|]. right. destruct IH as [[= <-]|(x & Hx & He)].
      * exists r. split; [apply list_elem_of_here|done].
      * exists x. split; [by apply list_elem_of_further|done].
Qed.

Lemma successes_indexes br buf ss' idxs out :
  Forall2 (answerOk br buf ss') idxs out ->
  exists l, l `sublist_of` idxs /\ length l = successes out /\
    forall i, i ∈ l -> exists s', ss' !! i = Some s' /\ st_view s' !! br = Some buf.
Proof.
  induction 1 as [|i r idxs out Hr _ (l & Hsub & Hl & Hall)]; [exists []; split_and!; [constructor|done|set_solver]|].
  unfold answerOk in Hr. unfold successes. rewrite filter_cons. destruct (sbe_res r) as [sb|e|p|]; try done; simpl.
  - exists (i :: l). simpl. split_and!; [by constructor|by f_equal|].
    intros j [->|Hj]%elem_of_cons; [apply Hr|by apply Hall].
  - exists l. split_and!; [by constructor|done|done].
Qed.

Lemma uploaded_is_Some br buf idxs ss ss' i :
  uploaded br buf idxs ss ss' -> is_Some (ss !! i) -> is_Some (ss' !! i).
Proof. intros Hu [s Hs]. destruct (Hu i s Hs) as (s' & Hs' & _). by exists s'. Qed.

Lemma replicaReceive_ok sto br src :
  replicaWf sto -> 0 < minWritesForSuccess sto <= glen (replicas sto) ->
  goodRef br -> glen src.1 <= MaxBlobSize -> noClash br src.1 (stores sto) ->
  let '(sto', sends, r) := replicaReceiveBlob firstErr hubs arrive sto br src in
  replicaWf sto' /\ uploaded br src.1 (replicas sto) (stores sto) (stores sto') /\
  match r with
  | Ok sb => src.2 = Ok tt /\ sb = sized (br, src.1) /\
      exists l, l `sublist_of` replicas sto /\ minWritesForSuccess sto <= glen l /\
        forall i, i ∈ l -> exists s', stores sto' !! i = Some s' /\ st_view s' !! br = Some src.1
  | Err e => (src.2 = Err e /\ sto' = sto) \/
      let out := (uploadAll firstErr hubs (stores sto) (replicas sto) 0 br src.1).2 in
      Z.of_nat (successes out) < minWritesForSuccess sto /\ exists x, x ∈ out /\ sbe_res x = Err e
  | Panic p => src.2 = Panic p
  | Blocked => src.2 = Blocked
  end.
Proof.
  intros Hwf Hmin Hbr Hl Hc. unfold replicaReceiveBlob, readAll. destruct src as [buf [[]|e|p|]]; simpl in *;
    [|(split; [done|]; split; [|auto]; intros i s Hs; exists s; (split; [done|by left]))..].
  pose proof (uploadAll_spec (stores sto) (replicas sto) 0 br buf (rw_stores sto Hwf) Hc (rw_nodup sto Hwf)
    (fun i Hi => rw_dom sto Hwf i (or_introl Hi)) Hbr Hl) as Hu.
  destruct (uploadAll firstErr hubs (stores sto) (replicas sto) 0 br buf) as [[ss' sends] out].
  destruct Hu as (Hok & Hup & Hall). split; [|split; [done|]].
  { apply replicaWf_setStores; [done..|]. intros i. by eapply uploaded_is_Some. }
  assert (successes (arrive out) = successes out) as Hsucc by (unfold successes; by rewrite (arrive_perm out)).
  pose proof (collect_spec br buf (minWritesForSuccess sto) 0 None [] (arrive out)) as Hcol. ospecialize* Hcol.
  { rewrite (arrive_perm out). clear -Hall. induction Hall as [|i r idxs out Hr _ IH]; constructor; [|done].
    unfold answerOk in Hr. destruct (sbe_res r); try done. by destruct Hr. }
  { lia. }
  rewrite Hsucc in Hcol. destruct (successes_indexes br buf ss' _ out Hall) as (l & Hsub & Hlen & Hheld).
  destruct (collect _ _ _ _ _ _ _) as [sb|e|p|]; [| |done..].
  - destruct Hcol as [[-> Hge]|(_ & _ & Hlt)].
    + split_and!; [done..|]. exists l. split_and!; [done| |done]. unfold glen. lia.
    + apply Forall2_length in Hall. pose proof (Permutation_length (arrive_perm out)). unfold glen in *. lia.
  - right. destruct Hcol as [Hlt [|(x & Hx & He)]]; [done|]. cbn [snd]. split; [lia|].
    exists x. split; [|done]. by rewrite (arrive_perm out) in Hx.
Qed.

(** C40. Uploading to replicas: storages other than the replicas do not change
    and a replica can only gain the uploaded blob.  For a minimum between one
    and the number of replicas, the upload is acknowledged only when at least
    [minWritesForSuccess] replicas hold the blob, and refused only when fewer
    uploads succeeded, with an error one of them reported, in whatever order
    the uploads finish.  (A larger minimum, which the configuration accepts, is
    acknowledged without being met: [replica_quorum_unreachable].) *)
Theorem replica_receive_quorum sto br src :
  replicaWf sto -> 0 < minWritesForSuccess sto <= glen (replicas sto) ->
  goodRef br -> glen src.1 <= MaxBlobSize -> noClash br src.1 (stores sto) ->
  let '(sto', sends, r) := replicaReceiveBlob firstErr hubs arrive sto br src in
  replicaWf sto' /\ uploaded br src.1 (replicas sto) (stores sto) (stores sto') /\
  match r with
  | Ok sb => src.2 = Ok tt /\ sb = sized (br, src.1) /\
      exists l, l `sublist_of` replicas sto /\ minWritesForSuccess sto <= glen l /\
        forall i, i ∈ l -> exists s', stores sto' !! i = Some s' /\ st_view s' !! br = Some src.1
  | Err e => (src.2 = Err e /\ sto' = sto) \/
      let out := (uploadAll firstErr hubs (stores sto) (replicas sto) 0 br src.1).2 in
      Z.of_nat (successes out) < minWritesForSuccess sto /\ exists x, x ∈ out /\ sbe_res x = Err e
  | Panic p => src.2 = Panic p
  | Blocked => src.2 = Blocked
  end.
Proof. apply replicaReceive_ok. Qed.

End uploads.

Section removals.
Context (lastErr : list error -> error).
Hypothesis lastErr_in : forall l, l ≠ [] -> lastErr l ∈ l.

(** The storages from [ss] to [ss'], when removals of [blobs] go to [idxs]. *)
Definition removed (blobs : list Ref) (idxs : list nat) (ss ss' : list S) : Prop :=
  forall i s, ss !! i = Some s -> exists s' brs', ss' !! i = Some s' /\ brs' ⊆ blobs /\
    st_view s' = removeSpec (st_view s) brs' /\ (i ∉ idxs -> brs' = []).

Lemma removeFromAll_spec ss idxs blobs :
  storesOk ss -> NoDup idxs -> (forall i, i ∈ idxs -> is_Some (ss !! i)) ->
  let '(ss', out) := removeFromAll ss idxs blobs in
  storesOk ss' /\ removed blobs idxs ss ss' /\
  Forall2 (fun i r => match r with
    | Ok _ => exists s s', ss !! i = Some s /\ ss' !! i = Some s' /\ st_view s' = removeSpec (st_view s) blobs
    | Err _ => True
    | _ => False
    end) idxs out.
Proof.
  intros Hok Hn Hi. revert ss Hok Hi. induction Hn as [|i idxs Hni Hn IH]; intros ss Hok Hi; cbn [removeFromAll].
  { split_and!; [done| |constructor]. intros j s Hs. exists s, []. rewrite removeSpec_nil. split_and!; [done|set_solver|done..]. }
  destruct (Hi i) as [s Hs]; [apply list_elem_of_here|]. rewrite Hs.
  destruct (st_RemoveBlobs s blobs) as [s' r] eqn:E.
  apply st_RemoveBlobs_law in E as [Hs' Hr]; [|exact (Forall_lookup_1 _ _ _ _ (so_wf _ Hok) Hs)].
  assert (exists brs', brs' ⊆ blobs /\ st_view s' = removeSpec (st_view s) brs') as (brs' & Hsub & Hv).
  { destruct r as [[]|e|p|]; [by exists blobs|done|done..]. }
  specialize (IH (<[i := s']> ss)). ospecialize* IH.
  { eapply storesOk_insert; [done..|]. intros br d Hd. left. rewrite Hv, lookup_removeSpec in Hd. by destruct (decide _). }
  { intros j Hj. destruct (Hi j) as [t Ht]; [by apply list_elem_of_further|]. exists t.
    rewrite list_lookup_insert_ne; [done|]. by intros ->. }
  destruct (removeFromAll (<[i := s']> ss) idxs blobs) as [ss' out]. destruct IH as (Hok' & Hrem & Hall).
  assert (<[i := s']> ss !! i = Some s') as His by (apply list_lookup_insert_eq; by eapply lookup_lt_Some).
  destruct (Hrem i s' His) as (s'' & brs'' & Hs'' & _ & Hv'' & Hnil). rewrite (Hnil Hni), removeSpec_nil in Hv''.
  split_and!; [done| |].
  - intros j t Ht. destruct (decide (j = i)) as [->|Hne].
    + assert (t = s) as -> by congruence. exists s'', brs'. split_and!; [done|done|congruence|set_solver].
    + destruct (Hrem j t) as (t' & b & ? & ? & ? & Hb); [by rewrite list_lookup_insert_ne|].
      exists t', b. split_and!; [done..|]. intros Hj. apply Hb. set_solver.
  - constructor.
    + destruct r as [[]|e|p|]; try done. exists s, s''. split_and!; [done|done|congruence].
    + apply Forall2_same_length_lookup. split; [by eapply Forall2_length|]. intros k j r' Hk Hr'.
      pose proof (Forall2_lookup_lr _ _ _ _ _ _ Hall Hk Hr') as Hj. simpl in Hj. destruct r' as [[]|e|p|]; try done.
      destruct Hj as (t & t' & Ht & ? & ?). exists t, t'. split_and!; [|done..].
      rewrite list_lookup_insert_ne in Ht; [done|]. intros ->. by apply Hni, list_elem_of_lookup_2 with k.
Qed.

(** Removals: [RemoveBlobs] returns nil as soon as one replica removed all
    the blobs, even when others failed and still hold them. *)
Lemma replicaRemove_ok sto blobs :
  replicaWf sto ->
  let '(sto', r) := replicaRemoveBlobs lastErr sto blobs in
  replicaWf sto' /\ removed blobs (replicas sto) (stores sto) (stores sto') /\
  match r with
  | Ok _ => exists i s s', i ∈ replicas sto /\ stores sto !! i = Some s /\ stores sto' !! i = Some s' /\
      st_view s' = removeSpec (st_view s) blobs
  | Err e => Err e ∈ (removeFromAll (stores sto) (replicas sto) blobs).2 /\
      Ok tt ∉ (removeFromAll (stores sto) (replicas sto) blobs).2
  | _ => False
  end.
Proof.
  intros Hwf. unfold replicaRemoveBlobs.
  pose proof (removeFromAll_spec (stores sto) (replicas sto) blobs (rw_stores sto Hwf) (rw_nodup sto Hwf)
    (fun i Hi => rw_dom sto Hwf i (or_introl Hi))) as Hr.
  destruct (removeFromAll (stores sto) (replicas sto) blobs) as [ss' out]. destruct Hr as (Hok & Hrem & Hall).
  split; [|split; [done|]].
  { apply replicaWf_setStores; [done..|]. intros i [s Hs]. destruct (Hrem i s Hs) as (s' & _ & Hs' & _). by exists s'. }
  cbn [snd].
  assert (Ok tt ∈ out -> exists i s s', i ∈ replicas sto /\ stores sto !! i = Some s /\ ss' !! i = Some s' /\
    st_view s' = removeSpec (st_view s) blobs) as Hsome.
  { intros [k Hk]%list_elem_of_lookup. destruct (Forall2_lookup_r _ _ _ _ _ Hall Hk) as (i & Hi & s & s' & ? & ? & ?).
    exists i, s, s'. split_and!; [by eapply list_elem_of_lookup_2|done..]. }
  assert (Forall (fun r => match r with Ok _ | Err _ => True | _ => False end) out) as Hres.
  { clear -Hall. induction Hall as [|i r idxs out Hr _ IH]; constructor; [by destruct r|done]. }
  rewrite Forall_forall in Hres. pose proof (batchErr_spec lastErr out lastErr_in) as Hb.
  destruct (batchErr lastErr out) as [[]|e|p|]; [| |by apply (Hres (Panic p))|by apply (Hres Blocked)].
  - apply Hsome. destruct (rw_some sto Hwf) as [Hne _].
    destruct out as [|r out]; [by apply Forall2_nil_inv_r in Hall|].
    apply Forall_cons in Hb as [-> _]. apply list_elem_of_here.
  - destruct Hb as [Hb _]. destruct (decide (Ok tt ∈ out)); [by apply Hsome|done].
Qed.
End removals.
End replica_proofs.

(** * Examples *)

Definition exampleReplicas : replicaStorage blobs :=
  MkReplica [blobsOf [gs "a"]; blobsOf [gs "a"; gs "b"]; blobsOf []] [] [0; 1; 2]%nat [] [0; 1]%nat 2.

(** Two blobs of the same reference in the lists are the same. *)
Lemma storesOk_blobsOf dss :
  Forall (Forall (fun d => glen d < 2 ^ 32)) dss ->
  (forall ds ds' d d', ds ∈ dss -> ds' ∈ dss -> d ∈ ds -> d' ∈ ds' -> refOf d = refOf d' -> d = d') ->
  storesOk (blobsOf <$> dss).
Proof.
  intros Hl Hinj. split.
  - rewrite Forall_fmap. eapply Forall_impl; [exact Hl|]. intros ds. apply blobsOf_good.
  - intros i j s t br d e (ds & -> & Hds)%list_lookup_fmap_Some (ds' & -> & Hds')%list_lookup_fmap_Some
      [-> Hd]%blobsOf_lookup [Heq He]%blobsOf_lookup.
    exact (Hinj ds ds' d e (list_elem_of_lookup_2 _ _ _ Hds) (list_elem_of_lookup_2 _ _ _ Hds') Hd He Heq).
Qed.

Definition exampleData : list (list gostr) := [[gs "a"]; [gs "a"; gs "b"]; []].

Lemma exampleData_elem ds d : ds ∈ exampleData -> d ∈ ds -> d = gs "a" \/ d = gs "b".
Proof.
  unfold exampleData. rewrite !elem_of_cons, !elem_of_nil.
  intros [->|[->|[->|[]]]]; rewrite ?elem_of_cons, ?elem_of_nil; tauto.
Qed.

Lemma exampleReplicas_wf : replicaWf exampleReplicas.
Proof.
  split; simpl.
  - change (storesOk (blobsOf <$> exampleData)). apply storesOk_blobsOf.
    + by repeat constructor.
    + intros ds ds' d d' Hds Hds' Hd Hd'. apply exampleData_inj;
      [exact (exampleData_elem ds d Hds Hd)|exact (exampleData_elem ds' d' Hds' Hd')].
  - intros i Hi. assert (i = 0%nat \/ i = 1%nat \/ i = 2%nat) as [->|[->| ->]] by set_solver; by eexists.
  - apply (bool_decide_unpack _). by vm_compute.
  - apply (bool_decide_unpack _). by vm_compute.
  - done.
Qed.

Definition headErr (l : list error) : error := default ErrEOF (head l).

Lemma headErr_in l : l ≠ [] -> headErr l ∈ l.
Proof. destruct l; [done|]. intros _. apply list_elem_of_here. Qed.

Lemma replica_fetch_stat_witness :
  let '(out, r) := replicaStatBlobs headErr (@concat _) exampleReplicas [refOf (gs "a"); refOf (gs "b"); refOf (gs "c")] in
  match r with
  | Ok _ => out ≡ₚ statSpec (replicaView exampleReplicas) [refOf (gs "a"); refOf (gs "b"); refOf (gs "c")]
  | Err e => out ⊆+ statSpec (replicaView exampleReplicas) [refOf (gs "a"); refOf (gs "b"); refOf (gs "c")] /\
      exists res, res ∈ statResults exampleReplicas [refOf (gs "a"); refOf (gs "b"); refOf (gs "c")] /\ res.2 = Err e
  | _ => False
  end.
Proof.
  assert (NoDup [refOf (gs "a"); refOf (gs "b"); refOf (gs "c")]) as Hn
    by (apply (bool_decide_unpack _); vm_compute; exact I).
  destruct (replica_fetch_stat headErr (@concat _) headErr_in (fun ls => reflexivity _) exampleReplicas
    (refOf (gs "b")) _ exampleReplicas_wf Hn) as [_ H].
  exact H.
Defined.

Lemma replica_receive_quorum_witness :
  let '(sto', sends, r) :=
    replicaReceiveBlob headErr (fun _ => newHub) (@rev _) exampleReplicas (refOf (gs "a")) (gs "a", Ok tt) in
  replicaWf sto' /\ uploaded (refOf (gs "a")) (gs "a") [0; 1; 2]%nat (stores exampleReplicas) (stores sto').
Proof.
  pose proof (replica_receive_quorum headErr (fun _ => newHub) (@rev _) (fun l => symmetry (Permutation_rev l))
    exampleReplicas (refOf (gs "a")) (gs "a", Ok tt) exampleReplicas_wf) as H.
  destruct (replicaReceiveBlob _ _ _ _ _ _) as [[sto' sends] r].
  destruct H as (H1 & H2 & _); [split; reflexivity || (intros H; discriminate H)|apply refOf_good| | |by split].
  - vm_compute. intros H. discriminate H.
  - intros i s d Hs Hd. change (stores exampleReplicas) with (blobsOf <$> exampleData) in Hs.
    apply list_lookup_fmap_Some in Hs as (ds & -> & Hds). apply blobsOf_lookup in Hd as [Hr Hd].
    symmetry. apply exampleData_inj; [by left| |exact Hr].
    exact (exampleData_elem ds d (list_elem_of_lookup_2 _ _ _ Hds) Hd).
Defined.

(** More writes asked for than replicas: every upload succeeds, and the caller
    gets a zero [SizedRef] and a nil error. *)
Example replica_quorum_unreachable :
  (replicaReceiveBlob headErr (fun _ => newHub) id
    (MkReplica [blobsOf []] [] [0%nat] [] [0%nat] 2) (refOf (gs "a")) (gs "a", Ok tt)).2 = Ok zeroSized.
Proof. vm_compute. reflexivity. Qed.
