(* ===== verification/PackFmt.v ===== *)
(** The pack file format of pkg/blobserver/diskpacked: index values, record
    headers, and the readers that walk a pack from its first byte.

    A pack is a sequence of records [[<digest> <size>]<data>].  Removing a blob
    keeps the record but overwrites the digest's letters with [x], its digits
    with [0] and its data with zero bytes. *)

From S2P Require Import Prelude Ref Strutil Sha1 Storage.

(** * Scanning integers: [fmt.Sscan] *)

(** Blanks a scan skips (the ASCII ones). *)
Definition isScanSpace (c : ascii) : bool := (bz c =? 32) || ((9 <=? bz c) && (bz c <=? 13)).

Fixpoint skipSpace (s : gostr) : gostr :=
  match s with
  | c :: s' => if isScanSpace c then skipSpace s' else s
  | [] => []
  end.

Fixpoint spanDigits (base : Z) (s : gostr) : list Z * gostr :=
  match s with
  | [] => ([], [])
  | c :: s' =>
      match digitIn base c with
      | Some v => let '(vs, r) := spanDigits base s' in (v :: vs, r)
      | None => ([], s)
      end
  end.

Definition scanNumber (base : Z) (haveDigits : bool) (s : gostr) : option (Z * gostr) :=
  let '(vs, r) := spanDigits base s in
  if negb haveDigits && bool_decide (vs = []) then None else Some (digitsValue base 0 vs, r).

(** The base prefix of [%v]: a leading 0 is octal, 0x hexadecimal. *)
Definition scanMag (s : gostr) : option (Z * gostr) :=
  match s with
  | [] => None
  | c :: s' =>
      if decide (c = "0"%char) then
        match s' with
        | x :: s'' => if isX x then scanNumber 16 true s'' else scanNumber 8 true s'
        | [] => Some (0, [])
        end
      else scanNumber 10 false s
  end.

(** An integer of [bits] bits; [None] is any error of the scan. *)
Definition scanInt (bits : Z) (s : gostr) : option (Z * gostr) :=
  match skipSpace s with
  | [] => None
  | c :: s' =>
      let neg := bool_decide (c = "-"%char) in
      '(n, r) ← scanMag (if neg || bool_decide (c = "+"%char) then s' else c :: s');
      let n := if neg then - n else n in
      if (- 2 ^ (bits - 1) <=? n) && (n <? 2 ^ (bits - 1)) then Some (n, r) else None
  end.

Definition scanUint (bits : Z) (s : gostr) : option (Z * gostr) :=
  '(n, r) ← scanMag (skipSpace s); if n <? 2 ^ bits then Some (n, r) else None.

(** * Index values *)

Record blobMeta := MkMeta { bm_file : Z; bm_offset : Z; bm_size : Z }.

Definition parseBlobMeta (s : gostr) : option blobMeta :=
  '(file, s) ← scanInt 64 s;
  '(offset, s) ← scanInt 64 s;
  '(size, _) ← scanUint 32 s;
  Some (MkMeta file offset size).

Definition metaString (m : blobMeta) : gostr :=
  itoa (bm_file m) ++ gs " " ++ itoa (bm_offset m) ++ gs " " ++ itoa (bm_size m).

Definition metaSizedRef (m : blobMeta) (br : Ref) : SizedRef := MkSizedRef br (bm_size m).

(** [parseContToken]: the pack and the offset of a continuation token. *)
Definition parseContToken (token : gostr) : option (Z * Z) :=
  if decide (token = []) then Some (0, 0)
  else '(pack, s) ← scanInt 64 token; '(offset, _) ← scanInt 64 s; Some (pack, offset).

(** * Headers *)

Definition ErrBufferFull : error := ErrMsg "bufio: buffer full".
Definition errInvalidHeader : error := ErrMsg "diskpacked: invalid header reader".

(** [bufio.Reader.ReadSlice]: the bytes up to and with the delimiter. *)
Definition readSlice (bufSize : nat) (delim : ascii) (s : gostr) : res gostr :=
  match index_byte delim s with
  | Some i => if decide (i < bufSize)%nat then Ok (take (S i) s) else Err ErrBufferFull
  | None => if decide (length s < bufSize)%nat then Err ErrEOF else Err ErrBufferFull
  end.

(** The position of a byte, -1 when there is none. *)
Definition indexZ (c : ascii) (s : gostr) : Z :=
  match index_byte c s with Some i => Z.of_nat i | None => -1 end.

(** What was consumed, the digest and the size. *)
Definition readHeader (bufSize : nat) (s : gostr) : res (Z * gostr * Z) :=
  let? line := readSlice bufSize "]" s in
  let sp := indexZ " " line in
  let '(size64, err) := ParseUintBytes (drop (Z.to_nat (sp + 1)) (take (length line - 1) line)) 10 32 in
  if bool_decide (length line < 7)%nat || negb (bool_decide (head line = Some "["%char)) ||
     negb (bool_decide (last line = Some "]"%char)) || (sp <? 0) || negb (bool_decide (err = None))
  then Err errInvalidHeader
  else Ok (glen line, drop 1 (take (Z.to_nat sp) line), u32 size64).

(** [deletedBlobRef.Match]: the regular expression [^x+-0+$]. *)
Definition deletedBlobRef (s : gostr) : bool :=
  match index_byte "-" s with
  | None => false
  | Some i =>
      let xs := take i s in
      let zs := drop (S i) s in
      negb (bool_decide (xs = [])) && forallb (fun c => bool_decide (c = "x"%char)) xs &&
      negb (bool_decide (zs = [])) && forallb (fun c => bool_decide (c = "0"%char)) zs
  end.

(** * Walking a pack *)

(** [walkPack] with a walker over its own state [W]; [pos] is where the
    record [s] starts with begins. *)
Fixpoint walkLoop {W} (fuel : nat) (walker : W -> Z -> Ref -> Z -> Z -> W * gerr) (packID : Z)
    (file : gostr) (pos : Z) (acc : W) : W * res unit :=
  match fuel with
  | O => (acc, Panic "out of fuel")
  | S fuel =>
      match drop (Z.to_nat pos) file with
      | [] => (acc, Ok tt)
      | b :: s =>
          if decide (b ≠ "["%char) then (acc, Err (ErrMsg "but '[' should be here!"))
          else
            match readSlice 512 "]" s with
            | Err e => if decide (e = ErrEOF) then (acc, Ok tt) else (acc, Err (ErrMsg "error reading blob header"))
            | Panic p => (acc, Panic p)
            | Blocked => (acc, Blocked)
            | Ok chunk =>
                let m := glen chunk in
                let chunk := take (length chunk - 1) chunk in
                let i := indexZ " " chunk in
                if i <=? 0 then (acc, Err (ErrMsg "bad header format (no space in %q)"))
                else
                  match ParseUintBytes (drop (Z.to_nat (i + 1)) chunk) 10 32 with
                  | (_, Some err) => (acc, Err (ErrMsg "cannot parse size %q as int"))
                  | (size64, None) =>
                      let size := u32 size64 in
                      let digest := take (Z.to_nat i) chunk in
                      match (if deletedBlobRef digest then Ok (Some zeroRef) else Parse digest) with
                      | Ok (Some ref) =>
                          match walker acc packID ref (pos + 1 + m) size with
                          | (acc, Some err) => (acc, Err err)
                          | (acc, None) => walkLoop fuel walker packID file (pos + 1 + m + size) acc
                          end
                      | Ok None => (acc, Err (ErrMsg "cannot parse %q as blobref"))
                      | Err e => (acc, Err e)
                      | Panic p => (acc, Panic p)
                      | Blocked => (acc, Blocked)
                      end
                  end
            end
      end
  end.

(** A pack file by its number; negative ones have no file. *)
Definition packFile (files : list gostr) (n : Z) : option gostr :=
  if n <? 0 then None else files !! Z.to_nat n.

Definition walkPack {W} (walker : W -> Z -> Ref -> Z -> Z -> W * gerr) (files : list gostr) (packID : Z) (acc : W)
    : W * res unit :=
  match packFile files packID with
  | None => (acc, Err ErrNotExist)
  | Some file => walkLoop (S (length file)) walker packID file 0 acc
  end.

(** [Walk]: the packs from [i] on, [fuel] of them. *)
Fixpoint walkFrom {W} (fuel : nat) (walker : W -> Z -> Ref -> Z -> Z -> W * gerr) (files : list gostr) (i : Z) (acc : W)
    : W * res unit :=
  match fuel with
  | O => (acc, Panic "out of fuel")
  | S fuel =>
      match packFile files i with
      | None => (acc, Ok tt)
      | Some _ =>
          match walkPack walker files i acc with
          | (acc, Ok _) => walkFrom fuel walker files (i + 1) acc
          | (acc, r) => (acc, r)
          end
      end
  end.

Definition Walk {W} (walker : W -> Z -> Ref -> Z -> Z -> W * gerr) (files : list gostr) (acc : W) : W * res unit :=
  walkFrom (S (length files)) walker files 0 acc.

(** * Streaming *)

Record blobAndToken := MkBAT { bt_ref : Ref; bt_data : gostr; bt_token : gostr }.

Definition ioBufSize : nat := Z.to_nat (256 * 1024).

(** The loop: pack, offset, and the rest of the pack from there; [n] counts
    the sends. *)
Fixpoint streamPacks (fuel : nat) (files : list gostr) (c : ctx) (n : nat) (fileNum offset : Z) (r : gostr)
    : list blobAndToken * res unit :=
  match fuel with
  | O => ([], Panic "out of fuel")
  | S fuel =>
      match r with
      | [] =>
          match packFile files (fileNum + 1) with
          | None => ([], Ok tt)
          | Some f => streamPacks fuel files c n (fileNum + 1) 0 f
          end
      | _ =>
          match readHeader ioBufSize r with
          | Err e => ([], Err e)
          | Panic p => ([], Panic p)
          | Blocked => ([], Blocked)
          | Ok (consumed, digest, size) =>
              let r := drop (Z.to_nat consumed) r in
              let next := drop (Z.to_nat size) r in
              let offset' := offset + consumed + size in
              if deletedBlobRef digest then
                if glen r <? size then ([], Err ErrEOF) else streamPacks fuel files c n fileNum offset' next
              else if glen r <? size then ([], Err (if decide (r = []) then ErrEOF else ErrUnexpectedEOF))
              else
                match ParseBytes digest with
                | Ok (Some ref) =>
                    if decide (c = Some n) then ([], Err ErrCanceled)
                    else
                      let '(out, e) := streamPacks fuel files c (S n) fileNum offset' next in
                      (MkBAT ref (take (Z.to_nat size) r) (itoa fileNum ++ gs " " ++ itoa offset) :: out, e)
                | Ok None => ([], Err (ErrMsg "diskpacked: Invalid blobref %q"))
                | Err e => ([], Err e)
                | Panic p => ([], Panic p)
                | Blocked => ([], Blocked)
                end
          end
      end
  end.

Definition streamFuel (files : list gostr) : nat := S (length files + list_sum (length <$> files)).

Definition dpStreamBlobs (files : list gostr) (c : ctx) (contToken : gostr) : list blobAndToken * res unit :=
  match parseContToken contToken with
  | None => ([], Err (ErrMsg "diskpacked: invalid continuation token"))
  | Some (fileNum, offset) =>
      match packFile files fileNum with
      | None => ([], Err ErrNotExist)
      | Some f =>
          if offset <? 0 then ([], Err (ErrMsg "invalid argument"))
          else streamPacks (streamFuel files) files c 0 fileNum offset (drop (Z.to_nat offset) f)
      end
  end.

(** * Deleting a record *)

(** [WriteAt] a non-negative offset; a gap reads as zeros. *)
Definition zeros (n : nat) : gostr := replicate n "000"%char.
Definition writeAt (f : gostr) (off : nat) (bs : gostr) : gostr :=
  take off (f ++ zeros (off - length f)) ++ bs ++ drop (off + length bs) f.

(** [ReadAt] exactly [k] bytes. *)
Definition readAt (f : gostr) (off : Z) (k : nat) : res gostr :=
  if off <? 0 then Err (ErrMsg "negative offset")
  else
    let b := take k (drop (Z.to_nat off) f) in
    if decide (length b < k)%nat then Err ErrEOF else Ok b.

(** The overwritten header, or what is wrong with it. *)
Definition deletedHeader (b : gostr) : res gostr :=
  match index_byte "-" b with
  | None => Err (ErrMsg "delete: cannot find dash in ref %q")
  | Some dash =>
      match index_byte " " (drop (S dash) b) with
      | None => Err (ErrMsg "delete: cannot find space in header %q")
      | Some space =>
          Ok (replicate dash "x"%char ++ ["-"%char] ++ replicate space "0"%char ++ drop (S dash + space) b)
      end
  end.

(** The faults of the calls [delete] makes (a failing write may have written
    some bytes), and what punching a hole says ([None] when it is not
    supported). *)
Record deleteFaults := MkDF {
  df_open : gerr; df_read : gerr; df_write : option (nat * error); df_punch : option gerr;
  df_seek : gerr; df_fill : option (nat * error) }.
Definition noDeleteFaults : deleteFaults := MkDF None None None (Some None) None None.

(** Punching a hole keeps the file's size; filling with zeros may extend it. *)
Definition punchHole (f : gostr) (off n : nat) : gostr :=
  take (length f) (writeAt f off (zeros (n `min` (length f - off)))).

(** [delete] in the pack file [f]: the new contents and the error. *)
Definition deleteRecord (fl : deleteFaults) (f : gostr) (br : Ref) (meta : blobMeta) : gostr * res unit :=
  match df_open fl with
  | Some e => (f, Err e)
  | None =>
      let k := (1 + length (RefString br) + 1 + length (itoa (bm_size meta)) + 1)%nat in
      let off := bm_offset meta - Z.of_nat k in
      match (match df_read fl with Some e => Err e | None => readAt f off k end) with
      | Err e => (f, Err e)
      | Panic p => (f, Panic p)
      | Blocked => (f, Blocked)
      | Ok b =>
          if bool_decide (head b ≠ Some "["%char) || bool_decide (last b ≠ Some "]"%char)
          then (f, Err (ErrMsg "delete: cannot find header surroundings, found %q"))
          else
            match deletedHeader (drop 1 (take (k - 1) b)) with
            | Err e => (f, Err e)
            | Panic p => (f, Panic p)
            | Blocked => (f, Blocked)
            | Ok b =>
                match df_write fl with
                | Some (n, e) => (writeAt f (Z.to_nat (off + 1)) (take n b), Err e)
                | None =>
                    let f := writeAt f (Z.to_nat (off + 1)) b in
                    let data := Z.to_nat (bm_offset meta) in
                    let size := Z.to_nat (bm_size meta) in
                    match df_punch fl with
                    | Some None => (punchHole f data size, Ok tt)
                    | Some (Some e) => (f, Err e)
                    | None =>
                        match df_seek fl, df_fill fl with
                        | Some e, _ => (f, Err e)
                        | None, Some (n, e) => (writeAt f data (zeros (n `min` size)), Err e)
                        | None, None => (writeAt f data (zeros size), Ok tt)
                        end
                    end
                end
            end
      end
  end.

(** * Index values: round trip *)

Lemma spanDigits_app base s vs r :
  mapM (digitIn base) s = Some vs -> (forall c, head r = Some c -> digitIn base c = None) ->
  spanDigits base (s ++ r) = (vs, r).
Proof.
  intros Hs Hr. apply mapM_Some in Hs. induction Hs as [|c v s vs Hc Hs IH].
  - destruct r as [|c r]; [done|]. simpl. by rewrite Hr.
  - simpl. by rewrite Hc, IH.
Qed.

Definition noDigit (r : gostr) : Prop := forall c, head r = Some c -> digitIn 10 c = None.

Lemma digitIn_blank base : digitIn base " " = None.
Proof. reflexivity. Qed.

Lemma noDigit_blank r : noDigit (" "%char :: r).
Proof. intros c [= <-]. apply digitIn_blank. Qed.
Lemma noDigit_nil : noDigit [].
Proof. done. Qed.

Lemma digit_not_space c : isDigit c -> isScanSpace c = false.
Proof. unfold isDigit, isScanSpace. intros. repeat case_match; lia. Qed.

Lemma digitIn_8 c : digitIn 10 c = None -> digitIn 8 c = None.
Proof. unfold digitIn. destruct (digitVal c) as [v|]; simpl; [|done]. repeat case_match; try done; lia. Qed.

(** The magnitude of a printed number. *)
Lemma scanMag_itoa n r :
  0 <= n < 2 ^ 64 -> noDigit r -> (forall c, head r = Some c -> isX c = false) -> scanMag (itoa n ++ r) = Some (n, r).
Proof.
  intros Hn Hr Hx. destruct (decide (n = 0)) as [->|Hne].
  { change (itoa 0 ++ r) with ("0"%char :: r). cbn [scanMag]. rewrite decide_True by done.
    destruct r as [|c r]; [done|]. rewrite Hx by done. unfold scanNumber.
    assert (digitIn 8 c = None) as Hc by (by apply digitIn_8, Hr). cbn [spanDigits]. by rewrite Hc. }
  destruct (itoa_pos_head n ltac:(lia)) as (c & s & He & Hc & _).
  destruct (itoa_spec n Hn) as (_ & _ & _ & vs & Hvs & Hv).
  rewrite He. cbn [app scanMag]. rewrite decide_False by done. rewrite app_comm_cons, <- He. unfold scanNumber.
  rewrite (spanDigits_app 10 _ vs) by done. rewrite bool_decide_eq_false_2; [by rewrite Hv|].
  intros ->. rewrite He in Hvs. simpl in Hvs. destruct (digitIn 10 c); simpl in Hvs; [|done].
  by destruct (mapM (digitIn 10) s).
Qed.

Lemma skipSpace_itoa n r : 0 <= n < 2 ^ 64 -> skipSpace (itoa n ++ r) = itoa n ++ r.
Proof.
  intros Hn. destruct (itoa_spec n Hn) as (Hf & Hne & _). destruct (itoa n) as [|c s]; [done|].
  apply Forall_cons in Hf as [Hc _]. simpl. by rewrite digit_not_space.
Qed.

Definition endsNumber (r : gostr) : Prop := r = [] \/ exists r', r = " "%char :: r'.

Lemma endsNumber_props r : endsNumber r -> noDigit r /\ forall c, head r = Some c -> isX c = false.
Proof.
  intros [->|[r' ->]]; [by split; [apply noDigit_nil|]|]. split; [apply noDigit_blank|]. by intros c [= <-].
Qed.

Lemma scanInt_itoa bits n r :
  0 <= n < 2 ^ (bits - 1) -> n < 2 ^ 64 -> endsNumber r -> scanInt bits (itoa n ++ r) = Some (n, r).
Proof.
  intros Hb Hn [Hr Hx]%endsNumber_props. unfold scanInt. rewrite skipSpace_itoa by lia.
  destruct (itoa_spec n ltac:(lia)) as (Hf & Hne & _). destruct (itoa n) as [|c s] eqn:E; [done|].
  apply Forall_cons in Hf as [Hc _]. cbn [app]. unfold isDigit in Hc.
  assert (c ≠ "-"%char /\ c ≠ "+"%char) as [Hm Hp].
  { split; intros ->; [change (bz "-") with 45 in Hc|change (bz "+") with 43 in Hc]; lia. }
  rewrite !bool_decide_eq_false_2 by done. cbn [orb].
  change (c :: s ++ r) with ((c :: s) ++ r). rewrite <- E, scanMag_itoa by (done || lia). simpl.
  rewrite (proj2 (Z.leb_le _ _)), (proj2 (Z.ltb_lt _ _)) by lia. done.
Qed.

Lemma scanUint_itoa bits n r :
  0 <= n < 2 ^ bits -> n < 2 ^ 64 -> endsNumber r -> scanUint bits (itoa n ++ r) = Some (n, r).
Proof.
  intros Hb Hn [Hr Hx]%endsNumber_props. unfold scanUint. rewrite skipSpace_itoa, scanMag_itoa by (done || lia).
  simpl. by rewrite (proj2 (Z.ltb_lt _ _)) by lia.
Qed.

(** Leading blanks do not matter. *)
Lemma scanInt_blank bits s : scanInt bits (" "%char :: s) = scanInt bits s.
Proof. reflexivity. Qed.
Lemma scanUint_blank bits s : scanUint bits (" "%char :: s) = scanUint bits s.
Proof. reflexivity. Qed.

Definition metaWf (m : blobMeta) : Prop :=
  0 <= bm_file m < 2 ^ 63 /\ 0 <= bm_offset m < 2 ^ 63 /\ 0 <= bm_size m < 2 ^ 32.

Lemma parse_metaString m : metaWf m -> parseBlobMeta (metaString m) = Some m.
Proof.
  intros (Hf & Ho & Hs). unfold parseBlobMeta, metaString.
  change (gs " " ++ ?x) with (" "%char :: x).
  rewrite scanInt_itoa by first [lia|by right; eexists]. simpl.
  rewrite scanInt_blank, scanInt_itoa by first [lia|by right; eexists]. simpl.
  rewrite scanUint_blank. rewrite <- (app_nil_r (itoa (bm_size m))), scanUint_itoa by first [lia|by left]. simpl.
  by destruct m.
Qed.

Lemma parse_token p o : 0 <= p < 2 ^ 63 -> 0 <= o < 2 ^ 63 -> parseContToken (itoa p ++ gs " " ++ itoa o) = Some (p, o).
Proof.
  intros Hp Ho. unfold parseContToken. change (gs " " ++ ?x) with (" "%char :: x). rewrite decide_False by by destruct (itoa p).
  rewrite scanInt_itoa by first [lia|by right; eexists]. simpl.
  rewrite scanInt_blank, <- (app_nil_r (itoa o)), scanInt_itoa by first [lia|by left]. done.
Qed.

(** * Records *)

Record packRec := MkRec { pr_digest : gostr; pr_data : gostr }.

Definition recHeader (r : packRec) : gostr :=
  gs "[" ++ pr_digest r ++ gs " " ++ itoa (glen (pr_data r)) ++ gs "]".
Definition recBytes (r : packRec) : gostr := recHeader r ++ pr_data r.
Definition packBytes (rs : list packRec) : gostr := concat (recBytes <$> rs).

Definition recLive (r : packRec) : bool := negb (deletedBlobRef (pr_digest r)).

(** The reference a walker sees: zero for a removed blob. *)
Definition recRef (r : packRec) : Ref :=
  if deletedBlobRef (pr_digest r) then zeroRef
  else match Parse (pr_digest r) with Ok (Some ref) => ref | _ => zeroRef end.

(** A record the readers understand, with a header that fits their buffer. *)
Record recOk (r : packRec) : Prop := MkRecOk {
  ro_size : glen (pr_data r) < 2 ^ 32;
  ro_blank : " "%char ∉ pr_digest r;
  ro_bracket : "]"%char ∉ pr_digest r;
  ro_len : (3 <= length (pr_digest r) <= 480)%nat;
  ro_parse : recLive r = true -> exists ref, Parse (pr_digest r) = Ok (Some ref)
}.

Lemma recBytes_length r : length (recBytes r) = (length (recHeader r) + length (pr_data r))%nat.
Proof. apply length_app. Qed.

Lemma recHeader_length r :
  length (recHeader r) = (3 + length (pr_digest r) + length (itoa (glen (pr_data r))))%nat.
Proof. unfold recHeader. rewrite !length_app. simpl. lia. Qed.

Lemma itoa_notin c n : 0 <= n < 2 ^ 64 -> ~ isDigit c -> c ∉ itoa n.
Proof. intros Hn Hc Hin. by apply Hc, (itoa_digits n). Qed.

Lemma blank_not_digit : ~ isDigit " ".
Proof. unfold isDigit. change (bz " ") with 32. lia. Qed.
Lemma bracket_not_digit : ~ isDigit "]".
Proof. unfold isDigit. change (bz "]") with 93. lia. Qed.

(** The part of a header between the brackets. *)
Definition recInner (r : packRec) : gostr := pr_digest r ++ " "%char :: itoa (glen (pr_data r)).

Lemma recHeader_inner r : recHeader r = "["%char :: recInner r ++ ["]"%char].
Proof. unfold recHeader, recInner. simpl. by rewrite <- app_assoc. Qed.

Lemma glen64 {A} (l : list A) : glen l < 2 ^ 32 -> 0 <= glen l < 2 ^ 64.
Proof. unfold glen. lia. Qed.

Lemma recInner_spec r : recOk r ->
  "]"%char ∉ recInner r /\ (length (recInner r) <= 501)%nat /\
  index_byte " " (recInner r) = Some (length (pr_digest r)) /\
  take (length (pr_digest r)) (recInner r) = pr_digest r /\
  drop (S (length (pr_digest r))) (recInner r) = itoa (glen (pr_data r)).
Proof.
  intros [Hs Hb Hk Hl _]. pose proof (glen64 _ Hs) as H64. destruct (itoa_spec _ H64) as (_ & _ & Hlen & _).
  unfold recInner. split_and!.
  - rewrite elem_of_app, elem_of_cons. intros [|[|Hi]]; [done|done|]. by eapply itoa_notin, Hi; [|apply bracket_not_digit].
  - rewrite length_app. simpl. lia.
  - by apply index_byte_app.
  - by rewrite take_app_length.
  - rewrite drop_app_ge by lia. replace (S (length (pr_digest r)) - length (pr_digest r))%nat with 1%nat by lia. done.
Qed.

(** Reading up to the closing bracket of a header. *)
Lemma readSlice_header bufSize pre r rest : recOk r -> "]"%char ∉ pre ->
  (length pre + length (recInner r) < bufSize)%nat ->
  readSlice bufSize "]" (pre ++ recInner r ++ "]"%char :: rest) = Ok (pre ++ recInner r ++ ["]"%char]).
Proof.
  intros Hr Hpre Hl. destruct (recInner_spec r Hr) as (Hn & _). unfold readSlice.
  rewrite app_assoc, index_byte_app by (rewrite elem_of_app; tauto). rewrite length_app.
  rewrite decide_True by lia. f_equal.
  rewrite (app_assoc pre), <- length_app.
  change ("]"%char :: rest) with (["]"%char] ++ rest). rewrite app_assoc.
  rewrite take_app_le; [apply take_ge|]; rewrite !length_app; simpl; lia.
Qed.

Lemma ParseUint_size r : recOk r ->
  ParseUintBytes (itoa (glen (pr_data r))) 10 32 = (glen (pr_data r), None).
Proof. intros [Hs _ _ _ _]. apply itoa_parse; unfold glen in *; lia. Qed.

(** * Walking records *)

Fixpoint walkRecs {W} (walker : W -> Z -> Ref -> Z -> Z -> W * gerr) (packID pos : Z) (rs : list packRec) (acc : W)
    : W * res unit :=
  match rs with
  | [] => (acc, Ok tt)
  | r :: rs =>
      match walker acc packID (recRef r) (pos + glen (recHeader r)) (glen (pr_data r)) with
      | (acc, Some err) => (acc, Err err)
      | (acc, None) => walkRecs walker packID (pos + glen (recBytes r)) rs acc
      end
  end.

Lemma packBytes_cons r rs : packBytes (r :: rs) = recBytes r ++ packBytes rs.
Proof. reflexivity. Qed.

Lemma packBytes_app rs1 rs2 : packBytes (rs1 ++ rs2) = packBytes rs1 ++ packBytes rs2.
Proof. unfold packBytes. by rewrite fmap_app, concat_app. Qed.

Lemma drop_glen {A} (pre l : list A) : drop (Z.to_nat (glen pre)) (pre ++ l) = l.
Proof. unfold glen. rewrite Nat2Z.id. apply drop_app_length. Qed.

Lemma recRef_live r : recOk r ->
  (if deletedBlobRef (pr_digest r) then Ok (Some zeroRef) else Parse (pr_digest r)) = Ok (Some (recRef r)).
Proof.
  intros Hr. unfold recRef. destruct (deletedBlobRef (pr_digest r)) eqn:E; [done|].
  destruct (ro_parse r Hr) as [ref ->]; [|done]. unfold recLive. by rewrite E.
Qed.

Lemma walkLoop_records {W} (walker : W -> Z -> Ref -> Z -> Z -> W * gerr) packID fuel pre rs acc :
  Forall recOk rs -> (length rs < fuel)%nat ->
  walkLoop fuel walker packID (pre ++ packBytes rs) (glen pre) acc = walkRecs walker packID (glen pre) rs acc.
Proof.
  intros Hrs. revert fuel pre acc. induction Hrs as [|r rs Hr Hrs IH]; intros [|fuel] pre acc Hf; simpl in Hf; try lia.
  - cbn [walkLoop]. rewrite drop_glen. done.
  - cbn [walkLoop walkRecs]. rewrite drop_glen, packBytes_cons. unfold recBytes at 1.
    rewrite recHeader_inner at 1. cbn [app]. rewrite decide_False by tauto. rewrite <- !app_assoc. cbn [app].
    destruct (recInner_spec r Hr) as (_ & Hl & Hi & Ht & Hd).
    pose proof (readSlice_header 512 [] r (pr_data r ++ packBytes rs) Hr (not_elem_of_nil _) ltac:(simpl; lia)) as Hsl.
    cbn [app] in Hsl. rewrite Hsl.
    replace (length (recInner r ++ ["]"%char]) - 1)%nat with (length (recInner r)) by (rewrite length_app; simpl; lia).
    rewrite take_app_length. unfold indexZ. rewrite Hi.
    rewrite (proj2 (Z.leb_gt _ 0)) by (pose proof (ro_len r Hr); lia).
    replace (Z.to_nat (Z.of_nat (length (pr_digest r)) + 1)) with (S (length (pr_digest r))) by lia.
    rewrite Hd, (ParseUint_size r Hr), Nat2Z.id, Ht. cbv zeta. rewrite (recRef_live r Hr).
    rewrite u32_small by (pose proof (ro_size r Hr); unfold glen in *; lia).
    assert (glen pre + 1 + glen (recInner r ++ ["]"%char]) = glen pre + glen (recHeader r)) as ->.
    { rewrite recHeader_inner. unfold glen. simpl. lia. }
    destruct (walker acc packID (recRef r) (glen pre + glen (recHeader r)) (glen (pr_data r))) as [acc' [err|]]; [done|].
    specialize (IH fuel (pre ++ recBytes r) acc' ltac:(lia)).
    assert (glen (pre ++ recBytes r) = glen pre + glen (recBytes r)) as Hg.
    { unfold glen. rewrite length_app. lia. }
    rewrite Hg in IH. rewrite <- IH. f_equal.
    + by rewrite <- app_assoc.
    + unfold glen. rewrite recBytes_length. lia.
Qed.

Lemma walkPack_records {W} (walker : W -> Z -> Ref -> Z -> Z -> W * gerr) files packID rs acc :
  Forall recOk rs -> packFile files packID = Some (packBytes rs) ->
  walkPack walker files packID acc = walkRecs walker packID 0 rs acc.
Proof.
  intros Hrs Hf. unfold walkPack. rewrite Hf. apply (walkLoop_records walker packID _ [] rs acc Hrs).
  clear -rs. enough (length rs <= length (packBytes rs))%nat by lia. induction rs as [|r rs IH]; [done|].
  rewrite packBytes_cons, length_app, recBytes_length, recHeader_length. simpl. lia.
Qed.

(** * Streaming records *)

Lemma readHeader_record r rest : recOk r ->
  readHeader ioBufSize (recBytes r ++ rest) = Ok (glen (recHeader r), pr_digest r, glen (pr_data r)).
Proof.
  intros Hr. destruct (recInner_spec r Hr) as (_ & Hl & Hi & Ht & Hd). unfold readHeader.
  assert (recBytes r ++ rest = ["["%char] ++ recInner r ++ "]"%char :: (pr_data r ++ rest)) as ->.
  { unfold recBytes. rewrite recHeader_inner. simpl. by rewrite <- !app_assoc. }
  rewrite readSlice_header; [|done|set_solver|].
  2: { assert (1000 < ioBufSize)%nat as Hb by (unfold ioBufSize; lia). simpl. lia. }
  cbn [rbind]. change (["["%char] ++ recInner r ++ ["]"%char]) with ("["%char :: recInner r ++ ["]"%char]).
  assert (indexZ " " ("["%char :: recInner r ++ ["]"%char]) = Z.of_nat (S (length (pr_digest r)))) as ->.
  { unfold indexZ. cbn [index_byte]. rewrite decide_False by done. unfold recInner. rewrite <- app_assoc. cbn [app].
    by rewrite index_byte_app by apply Hr. }
  assert (take (length ("["%char :: recInner r ++ ["]"%char]) - 1) ("["%char :: recInner r ++ ["]"%char]) =
    "["%char :: recInner r) as ->.
  { cbn [length]. rewrite length_app. cbn [length].
    replace (S (length (recInner r) + 1) - 1)%nat with (S (length (recInner r))) by lia. cbn [take].
    by rewrite take_app_length. }
  replace (Z.to_nat (Z.of_nat (S (length (pr_digest r))) + 1)) with (S (S (length (pr_digest r)))) by lia.
  cbn [drop]. cbn [drop] in Hd. rewrite Hd, (ParseUint_size r Hr).
  assert (length (recInner r) = length (pr_digest r) + 1 + length (itoa (glen (pr_data r))))%nat as Hlen.
  { unfold recInner. rewrite length_app. simpl. lia. }
  destruct (itoa_spec (glen (pr_data r))) as (_ & Hne & _); [apply glen64, Hr|].
  assert (0 < length (itoa (glen (pr_data r))))%nat by (by destruct (itoa (glen (pr_data r))); simpl; [|lia]).
  pose proof (ro_len r Hr).
  rewrite bool_decide_eq_false_2 by (cbn [length]; rewrite length_app; simpl; lia).
  rewrite (bool_decide_eq_true_2 (head _ = _)) by done.
  rewrite (bool_decide_eq_true_2 (last _ = _)) by (rewrite app_comm_cons; apply last_snoc).
  rewrite (proj2 (Z.ltb_ge _ 0)) by lia. cbn [negb orb]. rewrite bool_decide_eq_true_2 by done. cbn [negb].
  rewrite u32_small by (pose proof (ro_size r Hr); unfold glen in *; lia).
  rewrite Nat2Z.id. f_equal. f_equal. f_equal.
  - by rewrite recHeader_inner.
  - cbn [take drop]. rewrite drop_0.
    rewrite take_app_le by (rewrite Hlen; lia). exact Ht.
Qed.

Definition recToken (i off : Z) : gostr := itoa i ++ gs " " ++ itoa off.

Fixpoint recsStream (i off : Z) (rs : list packRec) : list blobAndToken :=
  match rs with
  | [] => []
  | r :: rs =>
      (if recLive r then [MkBAT (recRef r) (pr_data r) (recToken i off)] else []) ++
      recsStream i (off + glen (recBytes r)) rs
  end.

Fixpoint packsStream (i : Z) (packs : list (list packRec)) : list blobAndToken :=
  match packs with
  | [] => []
  | rs :: packs => recsStream i 0 rs ++ packsStream (i + 1) packs
  end.

Definition packFiles (packs : list (list packRec)) : list gostr := packBytes <$> packs.
Definition packsOk (packs : list (list packRec)) : Prop := Forall (Forall recOk) packs.

(** Iterations a stream over what is left takes. *)
Definition streamSteps (rs : list packRec) (ps : list (list packRec)) : nat :=
  (length rs + list_sum ((fun p => S (length p)) <$> ps))%nat.

Lemma packFile_drop (packs : list (list packRec)) i :
  packFile (packFiles packs) (Z.of_nat i) = packBytes <$> head (drop i packs).
Proof.
  unfold packFile, packFiles. rewrite (proj2 (Z.ltb_ge _ 0)) by lia. rewrite Nat2Z.id, list_lookup_fmap.
  f_equal. revert i. induction packs as [|p packs IH]; intros [|i]; try done. simpl. apply IH.
Qed.

Lemma streamPacks_records packs c fuel n i off rs :
  packsOk packs -> Forall recOk rs -> (forall k, c = Some k -> (n <= k)%nat) ->
  (streamSteps rs (drop (S i) packs) < fuel)%nat ->
  streamPacks fuel (packFiles packs) c n (Z.of_nat i) off (packBytes rs) =
    sendAll (ctxFrom n c) (recsStream (Z.of_nat i) off rs ++ packsStream (Z.of_nat (S i)) (drop (S i) packs)).
Proof.
  intros Hps. revert n i off rs. induction fuel as [|fuel IH]; intros n i off rs Hrs Hk Hf; [lia|].
  destruct Hrs as [|r rs Hr Hrs].
  - change (packBytes []) with (@nil ascii). cbn [streamPacks recsStream app].
    replace (Z.of_nat i + 1) with (Z.of_nat (S i)) by lia. rewrite packFile_drop.
    destruct (drop (S i) packs) as [|p ps] eqn:Ed; simpl.
    { unfold sendAll, ctxFrom. by destruct c. }
    assert (drop (S (S i)) packs = ps) as Ed'.
    { replace (S (S i)) with (S i + 1)%nat by lia. by rewrite <- drop_drop, Ed. }
    assert (p ∈ packs) as Hp.
    { rewrite <- (take_drop (S i) packs), Ed. apply elem_of_app. right. apply list_elem_of_here. }
    rewrite IH; [| |done|].
    + rewrite Ed'. replace (Z.of_nat (S i) + 1) with (Z.of_nat (S (S i))) by lia. done.
    + by eapply Forall_forall in Hps.
    + rewrite Ed'. change (streamSteps [] (p :: ps)) with (S (streamSteps p ps)) in Hf. lia.
  - rewrite packBytes_cons. cbn [streamPacks].
    destruct (recBytes r ++ packBytes rs) as [|b s] eqn:Eb.
    { unfold recBytes in Eb. rewrite recHeader_inner in Eb. done. }
    rewrite <- Eb, (readHeader_record r _ Hr).
    assert (drop (Z.to_nat (glen (recHeader r))) (recBytes r ++ packBytes rs) = pr_data r ++ packBytes rs) as ->.
    { unfold recBytes. rewrite <- app_assoc. apply drop_glen. }
    rewrite (drop_glen (pr_data r)).
    assert (glen (pr_data r ++ packBytes rs) <? glen (pr_data r) = false) as ->.
    { apply Z.ltb_ge. unfold glen. rewrite length_app. lia. }
    assert (off + glen (recHeader r) + glen (pr_data r) = off + glen (recBytes r)) as ->.
    { unfold glen. rewrite recBytes_length. lia. }
    unfold streamSteps in Hf. simpl in Hf. cbn [recsStream]. pose proof (recRef_live r Hr) as Hlive.
    unfold recLive at 1. destruct (deletedBlobRef (pr_digest r)).
    { simpl. apply IH; [done|done|unfold streamSteps; lia]. }
    change (ParseBytes (pr_digest r)) with (Parse (pr_digest r)). rewrite Hlive. cbn [negb app].
    rewrite (sendAll_cons c n _ _ Hk). destruct (decide (c = Some n)) as [|Hne]; [done|].
    rewrite IH; [|done| |unfold streamSteps; lia].
    + destruct (sendAll (ctxFrom (S n) c) _) as [out e]. f_equal. f_equal. f_equal.
      unfold glen. rewrite Nat2Z.id. apply take_app_length.
    + intros k ->. specialize (Hk k eq_refl). assert (k ≠ n) by congruence. lia.
Qed.

Lemma packBytes_length rs : (length rs <= length (packBytes rs))%nat.
Proof.
  induction rs as [|r rs IH]; [done|].
  rewrite packBytes_cons, length_app, recBytes_length, recHeader_length. simpl. lia.
Qed.

Lemma streamFuel_enough packs i rs1 rs2 :
  packs !! i = Some (rs1 ++ rs2) -> (streamSteps rs2 (drop (S i) packs) < streamFuel (packFiles packs))%nat.
Proof.
  intros Hi. unfold streamFuel, streamSteps, packFiles. rewrite length_fmap.
  assert (forall ps, list_sum ((fun p => S (length p)) <$> ps) <=
    length ps + list_sum (length <$> (packBytes <$> ps)))%nat as Hsum.
  { induction ps as [|p ps IH]; [done|]. pose proof (packBytes_length p).
    change (S (length p) + list_sum ((fun p => S (length p)) <$> ps) <=
      S (length ps) + (length (packBytes p) + list_sum (length <$> (packBytes <$> ps))))%nat. lia. }
  assert (list_sum ((fun p => S (length p)) <$> packs) =
    list_sum ((fun p => S (length p)) <$> take i packs) + (S (length (rs1 ++ rs2)) +
      list_sum ((fun p => S (length p)) <$> drop (S i) packs)))%nat as Heq.
  { rewrite <- (take_drop_middle packs i _ Hi) at 1. rewrite fmap_app, list_sum_app. done. }
  specialize (Hsum packs). rewrite length_app in Heq. lia.
Qed.

Lemma stream_from packs c i rs1 rs2 :
  packsOk packs -> packs !! i = Some (rs1 ++ rs2) -> Z.of_nat i < 2 ^ 63 -> glen (packBytes (rs1 ++ rs2)) < 2 ^ 63 ->
  dpStreamBlobs (packFiles packs) c (recToken (Z.of_nat i) (glen (packBytes rs1))) =
    sendAll c (recsStream (Z.of_nat i) (glen (packBytes rs1)) rs2 ++ packsStream (Z.of_nat (S i)) (drop (S i) packs)).
Proof.
  intros Hps Hi Hi63 Hl. unfold dpStreamBlobs, recToken.
  assert (glen (packBytes rs1) <= glen (packBytes (rs1 ++ rs2))).
  { rewrite packBytes_app. unfold glen. rewrite length_app. lia. }
  rewrite parse_token by (unfold glen in *; lia).
  assert (packFile (packFiles packs) (Z.of_nat i) = Some (packBytes (rs1 ++ rs2))) as ->.
  { unfold packFile, packFiles. rewrite (proj2 (Z.ltb_ge _ 0)) by lia.
    by rewrite Nat2Z.id, list_lookup_fmap, Hi. }
  rewrite (proj2 (Z.ltb_ge _ 0)) by (unfold glen; lia). rewrite packBytes_app, drop_glen.
  rewrite streamPacks_records; [by rewrite ctxFrom_0|done| |intros; lia|by eapply streamFuel_enough].
  assert (Forall recOk (rs1 ++ rs2)) as [_ H2]%Forall_app; [|done].
  by eapply Forall_lookup_1 in Hps.
Qed.

(** Where an item of the stream comes from. *)
Lemma recsStream_lookup i off rs k x : recsStream i off rs !! k = Some x ->
  exists rs1 rs2, rs = rs1 ++ rs2 /\ bt_token x = recToken i (off + glen (packBytes rs1)) /\
    drop k (recsStream i off rs) = recsStream i (off + glen (packBytes rs1)) rs2.
Proof.
  revert off k. induction rs as [|r rs IH]; intros off k Hk; [done|]. cbn [recsStream] in *.
  assert (forall k, recsStream i (off + glen (recBytes r)) rs !! k = Some x ->
    exists rs1 rs2, r :: rs = rs1 ++ rs2 /\ bt_token x = recToken i (off + glen (packBytes rs1)) /\
      drop k (recsStream i (off + glen (recBytes r)) rs) = recsStream i (off + glen (packBytes rs1)) rs2) as Hrest.
  { intros j (rs1 & rs2 & -> & Ht & Hd)%IH. exists (r :: rs1), rs2.
    assert (off + glen (recBytes r) + glen (packBytes rs1) = off + glen (packBytes (r :: rs1))) as <-; [|done].
    rewrite packBytes_cons. unfold glen. rewrite length_app. lia. }
  destruct (recLive r) eqn:El; cbn [app] in *; [|by apply Hrest].
  destruct k as [|k]; [|by apply Hrest]. simpl in Hk. simplify_eq. exists [], (r :: rs).
  change (glen (packBytes [])) with 0. rewrite Z.add_0_r. split_and!; [done..|]. cbn [recsStream]. by rewrite El.
Qed.

Lemma packsStream_lookup i packs k x : packsStream (Z.of_nat i) packs !! k = Some x ->
  exists j rs1 rs2, packs !! j = Some (rs1 ++ rs2) /\
    bt_token x = recToken (Z.of_nat (i + j)) (glen (packBytes rs1)) /\
    drop k (packsStream (Z.of_nat i) packs) =
      recsStream (Z.of_nat (i + j)) (glen (packBytes rs1)) rs2 ++ packsStream (Z.of_nat (S (i + j))) (drop (S j) packs).
Proof.
  revert i k. induction packs as [|rs packs IH]; intros i k Hk; [done|]. cbn [packsStream] in *.
  replace (Z.of_nat i + 1) with (Z.of_nat (S i)) in * by lia.
  apply lookup_app_Some in Hk as [Hk|[Hge Hk]].
  - pose proof (lookup_lt_Some _ _ _ Hk). apply recsStream_lookup in Hk as (rs1 & rs2 & -> & Ht & Hd).
    exists 0%nat, rs1, rs2. rewrite Nat.add_0_r. split_and!; [done|by rewrite Ht, Z.add_0_l|].
    rewrite drop_app_le by lia. rewrite Hd, Z.add_0_l. done.
  - apply IH in Hk as (j & rs1 & rs2 & Hj & Ht & Hd). exists (S j), rs1, rs2.
    replace (i + S j)%nat with (S i + j)%nat by lia. split_and!; [done..|].
    rewrite drop_app_ge by done. exact Hd.
Qed.

(** C37. Streaming a storage of well-formed packs sends every live blob once,
    in the order of the packs, with its reference and its bytes, skipping the
    removed ones; and the token sent with an item is one from which streaming
    resumes with exactly that item and the rest. *)
Theorem dpStream_resumes packs c :
  packsOk packs -> packs ≠ [] -> glen packs < 2 ^ 63 ->
  Forall (fun rs => glen (packBytes rs) < 2 ^ 63) packs ->
  let all := packsStream 0 packs in
  dpStreamBlobs (packFiles packs) c [] = sendAll c all /\
  forall k x, all !! k = Some x -> dpStreamBlobs (packFiles packs) c (bt_token x) = sendAll c (drop k all).
Proof.
  intros Hps Hne Hl Hlens all. split.
  - destruct packs as [|rs packs]; [done|].
    pose proof (stream_from (rs :: packs) c 0 [] rs Hps eq_refl ltac:(lia)) as Hs. ospecialize* Hs.
    { by apply Forall_cons in Hlens as [? _]. }
    transitivity (dpStreamBlobs (packFiles (rs :: packs)) c (recToken 0 0)); [reflexivity|exact Hs].
  - intros k x Hk. apply (packsStream_lookup 0) in Hk as (j & rs1 & rs2 & Hj & -> & Hd).
    unfold all. change (packsStream 0 packs) with (packsStream (Z.of_nat 0) packs). rewrite Hd. pose proof (lookup_lt_Some _ _ _ Hj).
    apply stream_from; [done|done|unfold glen in Hl; lia|]. by eapply Forall_lookup_1 in Hlens.
Qed.

(** * Deleting *)

Lemma writeAt_in f off bs : (off + length bs <= length f)%nat ->
  writeAt f off bs = take off f ++ bs ++ drop (off + length bs) f /\ length (writeAt f off bs) = length f.
Proof.
  intros Hl. unfold writeAt. replace (off - length f)%nat with 0%nat by lia. unfold zeros. simpl. rewrite app_nil_r.
  split; [done|]. rewrite !length_app, length_take, length_drop. lia.
Qed.

(** A write inside the middle part stays there. *)
Lemma writeAt_mid pre mid post o bs : (o + length bs <= length mid)%nat ->
  writeAt (pre ++ mid ++ post) (length pre + o) bs = pre ++ writeAt mid o bs ++ post.
Proof.
  intros Hl. rewrite (proj1 (writeAt_in (pre ++ mid ++ post) (length pre + o) bs ltac:(rewrite !length_app; lia))).
  rewrite (proj1 (writeAt_in mid o bs Hl)), take_app_add. rewrite take_app_le by lia.
  replace (length pre + o + length bs)%nat with (length pre + (o + length bs))%nat by lia.
  rewrite drop_app_add. rewrite drop_app_le by lia. by rewrite <- !app_assoc.
Qed.

Lemma punchHole_mid pre mid post o n : (o + n <= length mid)%nat ->
  punchHole (pre ++ mid ++ post) (length pre + o) n = pre ++ writeAt mid o (zeros n) ++ post.
Proof.
  intros Hl. unfold punchHole. rewrite !length_app.
  replace (n `min` (length pre + (length mid + length post) - (length pre + o)))%nat with n by lia.
  assert (length (zeros n) = n) as Hz by apply length_replicate.
  rewrite writeAt_mid by lia. apply take_ge.
  rewrite !length_app, (proj2 (writeAt_in mid o (zeros n) ltac:(lia))). lia.
Qed.

(** What is left of a removed record. *)
Definition deletedDigest (s : gostr) : gostr :=
  let dash := match index_byte "-" s with Some i => i | None => 0%nat end in
  replicate dash "x"%char ++ ["-"%char] ++ replicate (length s - S dash) "0"%char.
Definition deletedRec (r : packRec) : packRec :=
  MkRec (deletedDigest (pr_digest r)) (zeros (length (pr_data r))).

(** A digest text with a name and digits. *)
Definition digestShape (s : gostr) (n h : gostr) : Prop :=
  s = n ++ "-"%char :: h /\ "-"%char ∉ n /\ n ≠ [] /\ h ≠ [].

Lemma deletedDigest_shape s n h : digestShape s n h ->
  deletedDigest s = replicate (length n) "x"%char ++ "-"%char :: replicate (length h) "0"%char.
Proof.
  intros (-> & Hd & _ & _). unfold deletedDigest. rewrite index_byte_app by done. rewrite length_app. simpl.
  by replace (length n + S (length h) - S (length n))%nat with (length h) by lia.
Qed.

Lemma not_elem_replicate (c d : ascii) n : c ≠ d -> c ∉ replicate n d.
Proof. intros Hne Hin%elem_of_replicate_inv. done. Qed.

Lemma deletedDigest_deleted s n h : digestShape s n h -> deletedBlobRef (deletedDigest s) = true.
Proof.
  intros Hs. rewrite (deletedDigest_shape s n h Hs). destruct Hs as (_ & _ & Hn & Hh). unfold deletedBlobRef.
  rewrite index_byte_app by by apply not_elem_replicate.
  rewrite take_app_length. rewrite drop_app_ge by lia.
  replace (S (length (replicate (length n) "x"%char)) - length (replicate (length n) "x"%char))%nat with 1%nat by lia.
  simpl. rewrite drop_0.
  assert (forall (c : ascii) k, forallb (fun d => bool_decide (d = c)) (replicate k c) = true) as Hall.
  { intros c k. induction k as [|k IH]; [done|]. simpl. by rewrite bool_decide_eq_true_2. }
  rewrite !Hall. destruct n, h; done.
Qed.

Lemma deletedRec_ok r n h : recOk r -> digestShape (pr_digest r) n h ->
  recOk (deletedRec r) /\ recLive (deletedRec r) = false /\ length (recBytes (deletedRec r)) = length (recBytes r) /\
  itoa (glen (pr_data (deletedRec r))) = itoa (glen (pr_data r)).
Proof.
  intros Hr Hs. pose proof (deletedDigest_deleted _ n h Hs) as Hdel.
  assert (glen (pr_data (deletedRec r)) = glen (pr_data r)) as Hg by (unfold glen; simpl; unfold zeros; by rewrite length_replicate).
  assert (length (deletedDigest (pr_digest r)) = length (pr_digest r)) as Hl.
  { rewrite (deletedDigest_shape _ n h Hs). destruct Hs as (-> & _). rewrite !length_app. simpl. by rewrite !length_replicate. }
  assert (forall c, c ≠ "x"%char -> c ≠ "-"%char -> c ≠ "0"%char -> c ∉ deletedDigest (pr_digest r)) as Hnin.
  { intros c H1 H2 H3. rewrite (deletedDigest_shape _ n h Hs), elem_of_app, elem_of_cons.
    intros [Hin|[->|Hin]]; [by apply not_elem_replicate in Hin|done|by apply not_elem_replicate in Hin]. }
  split_and!.
  - split; [rewrite Hg; apply Hr|by apply Hnin|by apply Hnin|simpl; rewrite Hl; apply Hr|].
    unfold recLive; simpl. by rewrite Hdel.
  - unfold recLive; simpl. by rewrite Hdel.
  - rewrite !recBytes_length, !recHeader_length, Hg. cbn [pr_digest pr_data deletedRec]. rewrite Hl.
    unfold zeros. by rewrite length_replicate.
  - by rewrite Hg.
Qed.

Lemma deletedHeader_inner r n h : recOk r -> digestShape (pr_digest r) n h ->
  deletedHeader (recInner r) = Ok (recInner (deletedRec r)).
Proof.
  intros Hr Hs. pose proof (deletedRec_ok r n h Hr Hs) as (_ & _ & _ & Hi). unfold deletedHeader, recInner.
  rewrite Hi. simpl. rewrite (deletedDigest_shape _ n h Hs). pose proof (ro_blank r Hr) as Hb.
  destruct Hs as (He & Hd & _ & _). rewrite He in Hb |- *. rewrite <- app_assoc. cbn [app]. rewrite index_byte_app by done.
  assert (forall t, drop (S (length n)) (n ++ "-"%char :: t) = t) as Hdrop.
  { intros t. rewrite drop_app_ge by lia. by replace (S (length n) - length n)%nat with 1%nat by lia. }
  rewrite Hdrop. rewrite index_byte_app.
  2: { intros Hin. apply Hb. rewrite elem_of_app, elem_of_cons. tauto. }
  assert (drop (S (length n + length h)) (n ++ "-"%char :: h ++ " "%char :: itoa (glen (pr_data r))) =
    " "%char :: itoa (glen (pr_data r))) as Hdrop2.
  { replace (S (length n + length h)) with (S (length n) + length h)%nat by lia.
    rewrite <- drop_drop, Hdrop. apply drop_app_length. }
  cbn [Nat.add]. rewrite Hdrop2. f_equal. by rewrite <- app_assoc.
Qed.

Lemma recInner_deleted_length r n h : recOk r -> digestShape (pr_digest r) n h ->
  length (recInner (deletedRec r)) = length (recInner r).
Proof.
  intros Hr Hs. pose proof (deletedRec_ok r n h Hr Hs) as (_ & _ & Hl & Hi).
  rewrite !recBytes_length, !recHeader_inner in Hl. simpl in Hl. rewrite !length_app in Hl. unfold zeros in Hl.
  rewrite length_replicate in Hl. simpl in Hl. lia.
Qed.

(** The two writes in a record's bytes. *)
Lemma writeAt_header r b : length b = length (recInner r) ->
  writeAt (recBytes r) 1 b = "["%char :: b ++ "]"%char :: pr_data r.
Proof.
  intros Hb. unfold recBytes. rewrite recHeader_inner.
  change (("["%char :: recInner r ++ ["]"%char]) ++ pr_data r) with
    (["["%char] ++ (recInner r ++ ["]"%char]) ++ pr_data r).
  rewrite <- app_assoc. change 1%nat with (length ["["%char] + 0)%nat. rewrite writeAt_mid by lia. simpl.
  do 2 f_equal. rewrite (proj1 (writeAt_in (recInner r) 0 b ltac:(lia))). simpl. rewrite Hb, drop_all. by rewrite app_nil_r.
Qed.

Lemma writeAt_data b d bs : length bs = length d -> writeAt ("["%char :: b ++ "]"%char :: d) (2 + length b) bs = "["%char :: b ++ "]"%char :: bs.
Proof.
  intros Hl. pose proof (writeAt_mid ("["%char :: b ++ ["]"%char]) d [] 0 bs ltac:(lia)) as Hw.
  rewrite !app_nil_r in Hw. simpl in Hw. rewrite <- !app_assoc in Hw. simpl in Hw.
  replace (S (length (b ++ ["]"%char]) + 0)) with (2 + length b)%nat in Hw by (rewrite length_app; simpl; lia).
  rewrite Hw. do 3 f_equal. rewrite (proj1 (writeAt_in d 0 bs ltac:(lia))). simpl. by rewrite Hl, drop_all, app_nil_r.
Qed.

(** The record in its pack, and its index value. *)
Definition recMeta (i : Z) (rs1 : list packRec) (r : packRec) : blobMeta :=
  MkMeta i (glen (packBytes rs1) + glen (recHeader r)) (glen (pr_data r)).

Definition deleteMid (fl : deleteFaults) (r : packRec) : gostr * res unit :=
  let inner := recInner (deletedRec r) in
  let size := length (pr_data r) in
  match df_open fl, df_read fl, df_write fl with
  | Some e, _, _ | None, Some e, _ => (recBytes r, Err e)
  | None, None, Some (n, e) => (writeAt (recBytes r) 1 (take n inner), Err e)
  | None, None, None =>
      let f := "["%char :: inner ++ "]"%char :: pr_data r in
      match df_punch fl with
      | Some None => (recBytes (deletedRec r), Ok tt)
      | Some (Some e) => (f, Err e)
      | None =>
          match df_seek fl, df_fill fl with
          | Some e, _ => (f, Err e)
          | None, Some (n, e) => (writeAt f (2 + length inner) (zeros (n `min` size)), Err e)
          | None, None => (recBytes (deletedRec r), Ok tt)
          end
      end
  end.

Lemma deleteMid_length fl r n h : recOk r -> digestShape (pr_digest r) n h ->
  length (deleteMid fl r).1 = length (recBytes r).
Proof.
  intros Hr Hs. pose proof (recInner_deleted_length r n h Hr Hs) as Hil.
  pose proof (deletedRec_ok r n h Hr Hs) as (_ & _ & Hdl & _).
  assert (length (recBytes r) = 2 + length (recInner r) + length (pr_data r))%nat as Hl.
  { rewrite recBytes_length, recHeader_inner. simpl. rewrite length_app. simpl. lia. }
  unfold deleteMid. destruct (df_open fl); [done|]. destruct (df_read fl); [done|].
  destruct (df_write fl) as [[k e]|].
  { apply writeAt_in. rewrite length_take. lia. }
  assert (length ("["%char :: recInner (deletedRec r) ++ "]"%char :: pr_data r) = length (recBytes r)) as Hf.
  { cbn [length]. rewrite length_app. cbn [length]. lia. }
  destruct (df_punch fl) as [[e|]|]; [done|done|]. destruct (df_seek fl); [done|].
  destruct (df_fill fl) as [[k e]|]; [|done]. cbn [fst].
  rewrite (proj2 (writeAt_in _ (2 + length (recInner (deletedRec r))) (zeros (k `min` length (pr_data r)))
    ltac:(rewrite Hf; unfold zeros; rewrite length_replicate; lia))). exact Hf.
Qed.

(** [delete] on a record of a pack only touches the record. *)
Lemma deleteRecord_mid fl i rs1 r rest br n h :
  recOk r -> digestShape (pr_digest r) n h -> pr_digest r = RefString br ->
  deleteRecord fl (packBytes rs1 ++ recBytes r ++ rest) br (recMeta i rs1 r) =
    (packBytes rs1 ++ (deleteMid fl r).1 ++ rest, (deleteMid fl r).2).
Proof.
  intros Hr Hs Hbr. set (pre := packBytes rs1). set (f := pre ++ recBytes r ++ rest).
  assert (length (recHeader r) = 2 + length (recInner r))%nat as Hhl.
  { rewrite recHeader_inner. simpl. rewrite length_app. simpl. lia. }
  assert (1 + length (RefString br) + 1 + length (itoa (glen (pr_data r))) + 1 = length (recHeader r))%nat as Hk.
  { rewrite recHeader_length, Hbr. lia. }
  pose proof (recInner_deleted_length r n h Hr Hs) as Hil.
  unfold deleteRecord, deleteMid. fold pre. cbn [bm_offset bm_size recMeta]. rewrite Hk. fold pre.
  destruct (df_open fl) as [e|]; [done|].
  assert (glen pre + glen (recHeader r) - Z.of_nat (length (recHeader r)) = glen pre) as -> by (unfold glen; lia).
  assert (readAt f (glen pre) (length (recHeader r)) = Ok (recHeader r)) as Hread.
  { unfold readAt. rewrite (proj2 (Z.ltb_ge _ 0)) by (unfold glen; lia). unfold f. rewrite drop_glen.
    unfold recBytes. rewrite <- app_assoc, take_app_length. by rewrite decide_False by lia. }
  destruct (df_read fl) as [e|]; [done|]. rewrite Hread.
  rewrite (bool_decide_eq_false_2 (head _ ≠ _)) by (rewrite recHeader_inner; simpl; tauto).
  rewrite (bool_decide_eq_false_2 (last _ ≠ _)).
  2: { rewrite recHeader_inner, app_comm_cons. intros Hn. by apply Hn, last_snoc. }
  cbn [orb].
  assert (drop 1 (take (length (recHeader r) - 1) (recHeader r)) = recInner r) as ->.
  { rewrite Hhl, recHeader_inner. cbn [Nat.add Nat.sub take drop]. rewrite drop_0. apply take_app_length. }
  rewrite (deletedHeader_inner r n h Hr Hs).
  replace (Z.to_nat (glen pre + 1)) with (length pre + 1)%nat by (unfold glen; lia).
  assert (length (recBytes r) = 2 + length (recInner r) + length (pr_data r))%nat as Hrl.
  { rewrite recBytes_length. lia. }
  destruct (df_write fl) as [[k e]|].
  { unfold f. rewrite writeAt_mid; [done|]. rewrite length_take. lia. }
  unfold f. rewrite writeAt_mid by lia. rewrite writeAt_header by done.
  set (mid := "["%char :: recInner (deletedRec r) ++ "]"%char :: pr_data r).
  assert (length mid = length (recBytes r)) as Hml by (unfold mid; cbn [length]; rewrite length_app; cbn [length]; lia).
  assert (Z.to_nat (glen pre + glen (recHeader r)) = length pre + (2 + length (recInner (deletedRec r))))%nat as -> by (unfold glen; lia).
  replace (Z.to_nat (glen (pr_data r))) with (length (pr_data r)) by (unfold glen; lia).
  assert (writeAt mid (2 + length (recInner (deletedRec r))) (zeros (length (pr_data r))) = recBytes (deletedRec r)) as Hz.
  { unfold mid. rewrite writeAt_data by apply length_replicate. unfold recBytes. rewrite recHeader_inner. simpl.
    by rewrite <- app_assoc. }
  assert (forall k, length (zeros k) = k) as Hzl by (intros; apply length_replicate).
  destruct (df_punch fl) as [[e|]|]; [done| |].
  { rewrite punchHole_mid by lia. by rewrite Hz. }
  destruct (df_seek fl) as [e|]; [done|]. destruct (df_fill fl) as [[k e]|].
  - rewrite writeAt_mid by (rewrite Hzl; lia). done.
  - rewrite writeAt_mid by (rewrite Hzl; lia). by rewrite Hz.
Qed.

(** Deleting a blob's record rewrites that record and nothing else: the
    bytes before and after it are untouched whatever fails in between, and the
    pack keeps its length.  When no call fails (with hole punching or without)
    the record becomes one that every reader skips, of the same size, with
    zeros for its data. *)
Theorem deleteRecord_confined fl i rs1 r rs2 br n h :
  recOk r -> digestShape (pr_digest r) n h -> pr_digest r = RefString br ->
  let '(f, e) := deleteRecord fl (packBytes (rs1 ++ r :: rs2)) br (recMeta i rs1 r) in
  (exists mid, f = packBytes rs1 ++ mid ++ packBytes rs2 /\ length mid = length (recBytes r)) /\
  (e = Ok tt -> f = packBytes (rs1 ++ deletedRec r :: rs2) /\ recOk (deletedRec r) /\ recLive (deletedRec r) = false) /\
  (fl = noDeleteFaults \/ fl = MkDF None None None None None None -> e = Ok tt).
Proof.
  intros Hr Hs Hbr. rewrite packBytes_app, packBytes_cons, (deleteRecord_mid fl i rs1 r _ br n h Hr Hs Hbr).
  split; [|split].
  - exists (deleteMid fl r).1. split; [done|]. by eapply deleteMid_length.
  - intros He. destruct (deletedRec_ok r n h Hr Hs) as (H1 & H2 & _). split_and!; [|done..].
    rewrite packBytes_app, packBytes_cons. do 2 f_equal. revert He. unfold deleteMid.
    destruct (df_open fl), (df_read fl), (df_write fl) as [[]|]; try done.
    destruct (df_punch fl) as [[]|], (df_seek fl), (df_fill fl) as [[]|]; done.
  - by intros [->| ->].
Qed.

(** * Examples *)

(** The record of a blob under its SHA-1. *)
Definition recFor (d : gostr) : packRec := MkRec (RefString (refOf d)) d.

Lemma recFor_a : recOk (recFor (gs "a")).
Proof.
  constructor; [reflexivity|apply (bool_decide_unpack _); vm_compute; exact I..| |].
  - split; apply (bool_decide_unpack _); vm_compute; exact I.
  - intros _. exists (refOf (gs "a")). exact (Parse_RefString _ (proj1 (refOf_wf _))).
Qed.

Lemma recFor_bc : recOk (recFor (gs "bc")).
Proof.
  constructor; [reflexivity|apply (bool_decide_unpack _); vm_compute; exact I..| |].
  - split; apply (bool_decide_unpack _); vm_compute; exact I.
  - intros _. exists (refOf (gs "bc")). exact (Parse_RefString _ (proj1 (refOf_wf _))).
Qed.

Definition examplePacks : list (list packRec) := [[recFor (gs "a")]; [recFor (gs "bc"); recFor (gs "a")]].

Lemma examplePacks_ok : packsOk examplePacks.
Proof.
  apply Forall_cons; split; [apply Forall_cons; split; [exact recFor_a|constructor]|].
  apply Forall_cons; split; [|constructor]. apply Forall_cons; split; [exact recFor_bc|].
  apply Forall_cons; split; [exact recFor_a|constructor].
Qed.

Lemma dpStream_resumes_witness :
  dpStreamBlobs (packFiles examplePacks) None [] = sendAll None (packsStream 0 examplePacks) /\
  forall k x, packsStream 0 examplePacks !! k = Some x ->
    dpStreamBlobs (packFiles examplePacks) None (bt_token x) = sendAll None (drop k (packsStream 0 examplePacks)).
Proof.
  apply (dpStream_resumes examplePacks None examplePacks_ok); [discriminate|reflexivity|].
  repeat constructor; apply (bool_decide_unpack _); vm_compute; exact I.
Defined.

Lemma deleteRecord_confined_witness :
  let '(f, e) := deleteRecord noDeleteFaults (packBytes [recFor (gs "bc"); recFor (gs "a")]) (refOf (gs "bc"))
                   (recMeta 1 [] (recFor (gs "bc"))) in
  e = Ok tt /\ f = packBytes [deletedRec (recFor (gs "bc")); recFor (gs "a")].
Proof.
  pose proof (deleteRecord_confined noDeleteFaults 1 [] (recFor (gs "bc")) [recFor (gs "a")] (refOf (gs "bc"))
    (gs "sha1") (drop 5 (RefString (refOf (gs "bc")))) recFor_bc) as H.
  ospecialize* H.
  - split; [vm_compute; reflexivity|]. split; [|split]; apply (bool_decide_unpack _); vm_compute; exact I.
  - reflexivity.
  - destruct (deleteRecord _ _ _ _) as [f e]. destruct H as (_ & H1 & H2). specialize (H2 (or_introl eq_refl)).
    split; [exact H2|]. destruct (H1 H2) as [H3 _]. exact H3.
Defined.
