(* ===== verification/Diskpacked.v ===== *)
(** The pack file storage of pkg/blobserver/diskpacked: an index from
    references to places in pack files, and the packs.

    [dp_files] are the contents of the pack files on disk, numbered without
    gaps.  System calls that can fail are given their outcome by a fault
    argument ([ioFaults]); a failing write may have written some bytes.  The
    mutex makes [append] one step; the goroutines of a removal work on their
    own records and are run in turn. *)

From S2P Require Import Prelude Ref Strutil SortedKV Sha1 Storage PackFmt.

(** An [*os.File] open for writing: which pack, its position, and whether it
    has not been closed. *)
Record packWriter := MkWriter { w_file : nat; w_pos : Z; w_open : bool }.

Record dpStorage (K : Type) := MkDP {
  dp_index : K;
  maxFileSize : Z;
  dp_closed : bool;
  dp_files : list gostr;
  dp_fds : nat;               (* len(s.fds): packs 0 .. dp_fds-1 are open for reading *)
  dp_writer : option packWriter;
  dp_writeLock : bool;
  dp_size : Z
}.
Arguments MkDP {K}.
Arguments dp_index {K}.
Arguments maxFileSize {K}.
Arguments dp_closed {K}.
Arguments dp_files {K}.
Arguments dp_fds {K}.
Arguments dp_writer {K}.
Arguments dp_writeLock {K}.
Arguments dp_size {K}.

Definition defaultMaxFileSize : Z := 512 * 2 ^ 20.

(** The outcomes of [nextPack]'s calls. *)
Record packFaults := MkPF {
  pf_unlock : gerr; pf_close : gerr; pf_lock : gerr; pf_create : gerr; pf_seekEnd : gerr; pf_openRead : gerr }.
Definition noPackFaults : packFaults := MkPF None None None None None None.

(** The outcomes of an upload's calls. *)
Record ioFaults := MkIO {
  io_stat : gerr; io_header : option (nat * error); io_seek : gerr; io_data : option (nat * error); io_sync : gerr;
  io_pack : packFaults; io_seekBack : gerr; io_truncate : gerr }.
Definition noFaults : ioFaults := MkIO None None None None None noPackFaults None None.

Section diskpacked.
Context {K : Type} `{!KV K}.
Abbreviation storage := (dpStorage K).

Definition setIndex (s : storage) (i : K) : storage :=
  MkDP i (maxFileSize s) (dp_closed s) (dp_files s) (dp_fds s) (dp_writer s) (dp_writeLock s) (dp_size s).
Definition setFiles (s : storage) (fs : list gostr) : storage :=
  MkDP (dp_index s) (maxFileSize s) (dp_closed s) fs (dp_fds s) (dp_writer s) (dp_writeLock s) (dp_size s).
Definition setFds (s : storage) (n : nat) : storage :=
  MkDP (dp_index s) (maxFileSize s) (dp_closed s) (dp_files s) n (dp_writer s) (dp_writeLock s) (dp_size s).
Definition setWriter (s : storage) (w : option packWriter) (lk : bool) (size : Z) : storage :=
  MkDP (dp_index s) (maxFileSize s) (dp_closed s) (dp_files s) (dp_fds s) w lk size.

(** * Opening packs *)

Definition openForRead (fault : gerr) (s : storage) (n : nat) : storage * res unit :=
  if (dp_fds s <? n)%nat then (s, Panic "openForRead called out of order got %d, expected %d")
  else
    match fault with
    | Some e => (s, Err e)
    | None => if (n <? length (dp_files s))%nat then (setFds s (S (dp_fds s)), Ok tt) else (s, Err ErrNotExist)
    end.

Definition openForWrite (fl : packFaults) (s : storage) (n : nat) : storage * res unit :=
  match pf_lock fl with
  | Some e => (s, Err e)
  | None =>
      match pf_create fl with
      | Some e => (s, Err e)
      | None =>
          let s := if (n <? length (dp_files s))%nat then s else setFiles s (dp_files s ++ [[]]) in
          match pf_seekEnd fl with
          | Some e => (setWriter s (dp_writer s) (dp_writeLock s) 0, Err e)
          | None =>
              let size := glen (default [] (dp_files s !! n)) in
              (setWriter s (Some (MkWriter n size true)) true size, Ok tt)
          end
      end
  end.

Definition nextPack (fl : packFaults) (s : storage) : storage * res unit :=
  let s := setWriter s (dp_writer s) (dp_writeLock s) 0 in
  match (if dp_writeLock s then pf_unlock fl else None) with
  | Some e => (s, Err e)
  | None =>
      let s := setWriter s (dp_writer s) false 0 in
      let '(s, closeErr) :=
        match dp_writer s with
        | None => (s, None)
        | Some w =>
            if w_open w then
              (setWriter s (Some (MkWriter (w_file w) (w_pos w) false)) (dp_writeLock s) (dp_size s), pf_close fl)
            else (s, Some (ErrMsg "invalid argument"))
        end in
      match closeErr with
      | Some e => (s, Err e)
      | None =>
          let n := dp_fds s in
          match openForWrite fl s n with
          | (s, Ok _) => openForRead (pf_openRead fl) s n
          | (s, r) => (s, r)
          end
      end
  end.

(** The loop of [openAllPacks]: how many packs it opened. *)
Fixpoint openReads (fuel : nat) (faults : nat -> gerr) (s : storage) (n : nat) : storage * nat * res unit :=
  match fuel with
  | O => (s, n, Panic "out of fuel")
  | S fuel =>
      match openForRead (faults n) s n with
      | (s, Ok _) => openReads fuel faults s (S n)
      | (s, Err e) => if decide (e = ErrNotExist) then (s, n, Ok tt) else (s, n, Err e)
      | (s, r) => (s, n, r)
      end
  end.

Definition dpClose (fdErrs : list error) (lockErr : gerr) (s : storage) : storage * res unit :=
  if dp_closed s then (s, Ok tt)
  else
    let '(_, index) := kv_close (dp_index s) in
    let closeErr := match last fdErrs with Some e => Some e | None => if dp_writeLock s then lockErr else None end in
    (MkDP index (maxFileSize s) true (dp_files s) (dp_fds s) None false (dp_size s),
     match closeErr with None => Ok tt | Some e => Err e end).

(** On an error it calls [Close], which waits for the mutex that its caller
    [newStorage] holds: neither returns. *)
Definition openAllPacks (faults : nat -> gerr) (fl : packFaults) (s : storage) : storage * res unit :=
  match openReads (S (length (dp_files s))) faults s 0 with
  | (s, n, Ok _) => if (n =? 0)%nat then nextPack fl s else openForWrite fl s (n - 1)
  | (s, n, Err e) => (s, Blocked)
  | (s, n, r) => (s, r)
  end.

(** [newStorage] on an existing directory, over the index it opened; the
    generation files are not modelled. *)
Definition newStorage (faults : nat -> gerr) (fl : packFaults) (index : K) (files : list gostr) (maxSize : Z)
    : storage * res unit :=
  let maxSize := if maxSize <=? 0 then defaultMaxFileSize else maxSize in
  openAllPacks faults fl (MkDP index maxSize false files 0 None false 0).

(** * Reading *)

Definition errBadMeta : error := ErrMsg "diskpacked: bad blob metadata: %q".

Definition meta (s : storage) (br : Ref) : res blobMeta :=
  match kv_get (RefString br) (dp_index s) with
  | Err e => Err (if decide (e = ErrNotFound) then ErrNotExist else e)
  | Panic p => Panic p
  | Blocked => Blocked
  | Ok ms => match parseBlobMeta ms with Some m => Ok m | None => Err errBadMeta end
  end.

(** An [io.SectionReader] on an open or closed pack file, read to its end. *)
Definition sectionOf (s : storage) (f : gostr) (off n : Z) : reader :=
  if dp_closed s then ([], Err (ErrMsg "invalid argument"))
  else if off <? 0 then ([], Err (ErrMsg "negative offset"))
  else (take (Z.to_nat n) (drop (Z.to_nat off) f), Ok tt).

Definition fetch (s : storage) (br : Ref) (offset length : Z) : res (reader * Z) :=
  let? m := meta s br in
  if Z.of_nat (dp_fds s) <=? bm_file m then
    Err (ErrMsg "diskpacked: attempt to fetch blob from out of range pack file %d > %d")
  else
    match packFile (dp_files s) (bm_file m) with
    | None => Panic "index out of range"
    | Some f =>
        if length =? -1 then Ok (sectionOf s f (bm_offset m) (bm_size m), bm_size m)
        else
          let '(offset, length) :=
            if bm_size m <? offset then (bm_size m, 0)
            else if bm_size m <? i64 (offset + length) then (offset, bm_size m - offset)
            else (offset, length) in
          Ok (sectionOf s f (i64 (bm_offset m + offset)) length, bm_size m)
    end.

Definition dpFetch (s : storage) (br : Ref) : res (reader * Z) := fetch s br 0 (-1).

Definition dpSubFetch (s : storage) (br : Ref) (offset length : Z) : res reader :=
  if (offset <? 0) || (length <? 0) then Err (ErrMsg "invalid offset or length")
  else let? (rc, _) := fetch s br offset length in Ok rc.

(** What each goroutine sends and returns; [syncutil.Group]'s error is the
    first one, [firstErr] of those there are. *)
Definition statOne (s : storage) (br : Ref) : list SizedRef * res unit :=
  match meta s br with
  | Ok m => ([metaSizedRef m br], Ok tt)
  | Err e => ([], if decide (e = ErrNotExist) then Ok tt else Err e)
  | Panic p => ([], Panic p)
  | Blocked => ([], Blocked)
  end.

Definition dpStatBlobs (firstErr : list error -> error) (s : storage) (blobs : list Ref) : list SizedRef * res unit :=
  let outs := statOne s <$> blobs in (concat outs.*1, batchErr firstErr outs.*2).

Fixpoint dpEnumLoop (c : ctx) (after : gostr) (limit : Z) (n : nat) (its : list (gostr * gostr))
    : list SizedRef * res unit :=
  match its with
  | [] => ([], Ok tt)
  | (key, value) :: its =>
      if Z.of_nat n <? limit then
        if decide (str_le key after) then dpEnumLoop c after limit n its
        else
          match Parse key with
          | Ok (Some br) =>
              match parseBlobMeta value with
              | None => ([], Err (ErrMsg "diskpacked: couldn't parse index value %q: %q"))
              | Some m =>
                  if decide (c = Some n) then ([], Err ErrCanceled)
                  else let '(out, r) := dpEnumLoop c after limit (S n) its in (metaSizedRef m br :: out, r)
              end
          | Ok None => ([], Err (ErrMsg "diskpacked: couldn't parse index key %q"))
          | Err e => ([], Err e)
          | Panic p => ([], Panic p)
          | Blocked => ([], Blocked)
          end
      else ([], Ok tt)
  end.

Definition dpEnumerateBlobs (s : storage) (c : ctx) (after : gostr) (limit : Z) : list SizedRef * res unit :=
  let '(its, closeErr) := kv_find after [] (dp_index s) in
  let '(out, r) := dpEnumLoop c after limit 0 its in
  (out, match r, closeErr with Ok _, Some e => Err e | _, _ => r end).

(** * Writing *)

(** A write at the writer's position: the bytes written and the error. *)
Definition writerWrite (fault : option (nat * error)) (s : storage) (bs : gostr) : storage * Z * gerr :=
  match dp_writer s with
  | None => (s, 0, Some (ErrMsg "invalid argument"))
  | Some w =>
      if negb (w_open w) then (s, 0, Some (ErrMsg "invalid argument"))
      else
        let out := match fault with Some (k, _) => take k bs | None => bs end in
        let f := default [] (dp_files s !! w_file w) in
        let s := setFiles s (<[w_file w := writeAt f (Z.to_nat (w_pos w)) out]> (dp_files s)) in
        (setWriter s (Some (MkWriter (w_file w) (w_pos w + glen out) true)) (dp_writeLock s) (dp_size s + glen out),
         glen out, snd <$> fault)
  end.

Definition truncateTo (f : gostr) (n : nat) : gostr := take n (f ++ zeros (n - length f)).

(** Undoing an append after the index refused it. *)
Definition undoAppend (fl : ioFaults) (s : storage) (origOffset : Z) : storage :=
  match dp_writer s with
  | None => s
  | Some w =>
      match io_seekBack fl with
      | Some _ => s
      | None =>
          let w := MkWriter (w_file w) origOffset (w_open w) in
          match io_truncate fl with
          | Some _ => setWriter s (Some w) (dp_writeLock s) (dp_size s)
          | None =>
              let f := default [] (dp_files s !! w_file w) in
              let s := setFiles s (<[w_file w := truncateTo f (Z.to_nat origOffset)]> (dp_files s)) in
              setWriter s (Some w) (dp_writeLock s) origOffset
          end
      end
  end.

Definition blobHeader (br : SizedRef) : gostr :=
  gs "[" ++ RefString (sr_ref br) ++ gs " " ++ itoa (sr_size br) ++ gs "]".

(** The end of [append]: the index entry. *)
Definition appendIndex (fl : ioFaults) (s : storage) (br : SizedRef) (packIdx offset origOffset : Z)
    : storage * res unit :=
  let m := MkMeta packIdx offset (sr_size br) in
  let '(err, index) := kv_set (RefString (sr_ref br)) (metaString m) (dp_index s) in
  let s := setIndex s index in
  match err with
  | None => (s, Ok tt)
  | Some e => (undoAppend fl s origOffset, Err e)
  end.

Definition append (fl : ioFaults) (s : storage) (br : SizedRef) (data : gostr) : storage * res unit :=
  if dp_closed s then (s, Err (ErrMsg "diskpacked: write to closed storage"))
  else
    let origOffset := dp_size s in
    let '(s, n, err) := writerWrite (io_header fl) s (blobHeader br) in
    match err with
    | Some e => (s, Err e)
    | None =>
        match io_seek fl with
        | Some e => (s, Err e)
        | None =>
            let offset := match dp_writer s with Some w => w_pos w | None => 0 end in
            if negb (offset =? dp_size s) then (s, Err (ErrMsg "diskpacked: seek says offset = %d, we think %d"))
            else
              let offset := dp_size s in
              let '(s, n2, err) := writerWrite (io_data fl) s data in
              match err with
              | Some e => (s, Err e)
              | None =>
                  if negb (n2 =? sr_size br) then
                    (s, Err (ErrMsg "diskpacked: written blob size %d didn't match size %d"))
                  else
                    match io_sync fl with
                    | Some e => (s, Err e)
                    | None =>
                        let packIdx := Z.of_nat (dp_fds s) - 1 in
                        match (if maxFileSize s <? dp_size s then nextPack (io_pack fl) s else (s, Ok tt)) with
                        | (s, Ok _) => appendIndex fl s br packIdx offset origOffset
                        | (s, r) => (s, r)
                        end
                    end
              end
        end
    end.

Definition dpReceiveBlob (fl : ioFaults) (s : storage) (br : Ref) (source : reader) : storage * res SizedRef :=
  match readAll source with
  | Err e => (s, Err e)
  | Panic p => (s, Panic p)
  | Blocked => (s, Blocked)
  | Ok b =>
      let sbr := MkSizedRef br (u32 (glen b)) in
      let dup :=
        match meta s br with
        | Ok m =>
            match io_stat fl, packFile (dp_files s) (bm_file m) with
            | None, Some f => Ok (bm_offset m + bm_size m <=? glen f)
            | _, _ => Ok false
            end
        | Err _ => Ok false
        | Panic p => Panic p
        | Blocked => Blocked
        end in
      match dup with
      | Ok true => (s, Ok sbr)
      | Ok false => let '(s, r) := append fl s sbr b in (s, let? _ := r in Ok sbr)
      | Err e => (s, Err e)
      | Panic p => (s, Panic p)
      | Blocked => (s, Blocked)
      end
  end.

(** * Removing *)

Definition delete (fl : deleteFaults) (s : storage) (br : Ref) : storage * res unit :=
  match meta s br with
  | Err e => (s, Err e)
  | Panic p => (s, Panic p)
  | Blocked => (s, Blocked)
  | Ok m =>
      match packFile (dp_files s) (bm_file m) with
      | None => (s, Err ErrNotExist)
      | Some f =>
          let '(f, r) := deleteRecord fl f br m in
          (setFiles s (<[Z.to_nat (bm_file m) := f]> (dp_files s)), r)
      end
  end.

Fixpoint deleteAll (fls : nat -> deleteFaults) (s : storage) (blobs : list Ref) : storage * list (res unit) :=
  match blobs with
  | [] => (s, [])
  | br :: blobs =>
      let '(s, r) := delete (fls (length blobs)) s br in
      let '(s, rs) := deleteAll fls s blobs in (s, r :: rs)
  end.

Definition dpRemoveBlobs (firstErr : list error -> error) (fls : nat -> deleteFaults) (s : storage) (blobs : list Ref)
    : storage * res unit :=
  let b := foldl (fun b br => batchDelete b (RefString br)) NewBatchMutation blobs in
  let '(s, rs) := deleteAll fls s blobs in
  let err1 := batchErr firstErr rs in
  let '(err2, index) := kv_commit b (dp_index s) in
  (setIndex s index,
   match err1 with Ok _ => match err2 with None => Ok tt | Some e => Err e end | r => r end).

(** * Reindexing *)

(** The walker of [reindexOne]: the batch, whether all is well so far, and the
    mismatches that a later duplicate may explain. *)
Record reindexState := MkRI { ri_batch : list mutation; ri_allOk : bool; ri_misses : gmap Ref gostr }.

Definition reindexWalker (index : K) (overwrite : bool) (st : reindexState) (packID : Z) (ref : Ref) (offset size : Z)
    : reindexState * gerr :=
  if negb (Valid ref) then (st, None)
  else
    let m := metaString (MkMeta packID offset size) in
    if overwrite then (MkRI (batchSet (ri_batch st) (RefString ref) m) (ri_allOk st) (ri_misses st), None)
    else
      let misses := base.delete ref (ri_misses st) in
      match kv_get (RefString ref) index with
      | Ok old =>
          if decide (old = m) then (MkRI (ri_batch st) (ri_allOk st) misses, None)
          else if decide (str_lt m old) then (MkRI (ri_batch st) (ri_allOk st) (<[ref := m]> misses), None)
          else (MkRI (ri_batch st) false misses, None)
      | _ => (MkRI (ri_batch st) false misses, None)   (* not found, or an error: both are logged *)
      end.

Definition reindexOne (files : list gostr) (index : K) (overwrite : bool) (packID : Z) : K * res unit :=
  match walkPack (reindexWalker index overwrite) files packID (MkRI NewBatchMutation true ∅) with
  | (st, Ok _) =>
      let allOk := ri_allOk st && bool_decide (ri_misses st = ∅) in
      if overwrite then
        let '(err, index) := kv_commit (ri_batch st) index in
        (index, match err with None => Ok tt | Some e => Err e end)
      else if negb allOk then (index, Err (ErrMsg "index does not match data in %d"))
      else (index, Ok tt)
  | (_, r) => (index, r)
  end.

Fixpoint reindexFrom (fuel : nat) (files : list gostr) (index : K) (overwrite : bool) (i : Z) : K * res unit :=
  match fuel with
  | O => (index, Panic "out of fuel")
  | S fuel =>
      match packFile files i with
      | None => (index, Ok tt)
      | Some _ =>
          match reindexOne files index overwrite i with
          | (index, Ok _) => reindexFrom fuel files index overwrite (i + 1)
          | (index, r) => (index, r)
          end
      end
  end.

Definition Reindex (files : list gostr) (index : K) (overwrite : bool) : K * res unit :=
  let '(index, r) := reindexFrom (S (length files)) files index overwrite 0 in
  let '(closeErr, index) := kv_close index in
  (index, match r, closeErr with Ok _, Some e => Err e | _, _ => r end).
End diskpacked.

(** * Invariant *)

Section diskpacked_proofs.
Context {K : Type} `{KVLaws K}.
Implicit Types s : dpStorage K.

(** The bytes an index value stands for. *)
Definition metaData (files : list gostr) (fds : nat) (m : blobMeta) : option gostr :=
  f ← packFile files (bm_file m);
  if (bm_file m <? Z.of_nat fds) && (bm_offset m + bm_size m <=? glen f)
  then Some (take (Z.to_nat (bm_size m)) (drop (Z.to_nat (bm_offset m)) f)) else None.

(** The blob a storage holds for a reference. *)
Definition dpBlob s (br : Ref) : option gostr :=
  v ← kv_view (dp_index s) !! RefString br; m ← parseBlobMeta v; metaData (dp_files s) (dp_fds s) m.

(** The writer stands at the end of pack [i], whose contents are [f]. *)
Definition atEnd s (i : nat) (f : gostr) : Prop :=
  dp_writer s = Some (MkWriter i (dp_size s) true) /\ dp_files s !! i = Some f /\ dp_size s = glen f.

(** Every index value is the place of complete bytes in a pack that is open. *)
Definition indexOk s : Prop :=
  forall k v, kv_view (dp_index s) !! k = Some v ->
    exists m d, v = metaString m /\ metaWf m /\ metaData (dp_files s) (dp_fds s) m = Some d.

Record dpWf s : Prop := MkDpWf {
  dw_open : dp_closed s = false;
  dw_fds : dp_fds s = length (dp_files s);
  dw_writer : exists f, atEnd s (length (dp_files s) - 1) f;
  dw_index : indexOk s
}.

(** Packs only grow, at their ends. *)
Definition grows s s' : Prop :=
  (forall i f, dp_files s !! i = Some f -> exists t, dp_files s' !! i = Some (f ++ t)) /\
  (dp_fds s <= dp_fds s')%nat /\ dp_closed s' = dp_closed s /\ maxFileSize s' = maxFileSize s.

Lemma grows_refl s : grows s s.
Proof. split_and!; [|done..]. intros i f Hf. exists []. by rewrite app_nil_r. Qed.

Lemma grows_trans s1 s2 s3 : grows s1 s2 -> grows s2 s3 -> grows s1 s3.
Proof.
  intros (H1 & F1 & C1 & M1) (H2 & F2 & C2 & M2). split_and!; [|lia|congruence|congruence].
  intros i f (t1 & (t2 & ?)%H2)%H1. exists (t1 ++ t2). by rewrite app_assoc.
Qed.

Lemma metaData_grows s s' m d :
  grows s s' -> metaWf m -> metaData (dp_files s) (dp_fds s) m = Some d ->
  metaData (dp_files s') (dp_fds s') m = Some d.
Proof.
  intros (Hg & Hf & _) (Hm1 & Hm2 & Hm3). unfold metaData, packFile.
  rewrite (proj2 (Z.ltb_ge _ 0)) by lia.
  destruct (dp_files s !! Z.to_nat (bm_file m)) as [f|] eqn:Ef; simpl; [|done].
  destruct (Hg _ _ Ef) as [t ->]. simpl.
  destruct (Z.ltb_spec (bm_file m) (Z.of_nat (dp_fds s))) as [Hlt|]; [|done].
  rewrite (proj2 (Z.ltb_lt _ _)) by lia. simpl.
  destruct (Z.leb_spec (bm_offset m + bm_size m) (glen f)) as [Hle|]; [|done].
  unfold glen in *. rewrite length_app. rewrite (proj2 (Z.leb_le _ _)) by lia. intros [= <-]. f_equal.
  rewrite drop_app_le by lia. rewrite take_app_le; [done|]. rewrite length_drop. lia.
Qed.

Lemma dpBlob_grows s s' br :
  indexOk s -> grows s s' -> kv_view (dp_index s') !! RefString br = kv_view (dp_index s) !! RefString br ->
  dpBlob s' br = dpBlob s br.
Proof.
  intros Hi Hg Hv. unfold dpBlob. rewrite Hv. destruct (kv_view (dp_index s) !! RefString br) as [v|] eqn:E; [|done].
  destruct (Hi _ _ E) as (m & d & -> & Hm & Hd). simpl. rewrite parse_metaString by done. simpl.
  rewrite Hd. by eapply metaData_grows.
Qed.

Lemma indexOk_grows s s' :
  indexOk s -> grows s s' -> kv_view (dp_index s') = kv_view (dp_index s) -> indexOk s'.
Proof.
  intros Hi Hg Hv k v Hk. rewrite Hv in Hk. destruct (Hi _ _ Hk) as (m & d & -> & Hm & Hd).
  exists m, d. split_and!; [done|done|by eapply metaData_grows].
Qed.

(** * Writing at the end *)

Lemma writeAt_end f bs : writeAt f (Z.to_nat (glen f)) bs = f ++ bs.
Proof.
  unfold writeAt, glen. rewrite Nat2Z.id, Nat.sub_diag. unfold zeros. simpl. rewrite app_nil_r, firstn_all.
  rewrite drop_ge by lia. by rewrite app_nil_r.
Qed.

(** Two storages that differ only in what writing changes. *)
Definition sameRest s s' : Prop :=
  dp_index s' = dp_index s /\ dp_fds s' = dp_fds s /\ length (dp_files s') = length (dp_files s) /\
  dp_writeLock s' = dp_writeLock s.

Lemma writerWrite_end fault s i f bs :
  atEnd s i f ->
  let '(s', n, err) := writerWrite fault s bs in
  exists out, out `prefix_of` bs /\ atEnd s' i (f ++ out) /\ grows s s' /\ sameRest s s' /\ n = glen out /\
    (err = None -> out = bs) /\ dp_files s' = <[i := f ++ out]> (dp_files s).
Proof.
  intros (Hw & Hf & Hs). unfold writerWrite. rewrite Hw. simpl.
  set (out := match fault with Some (k, _) => take k bs | None => bs end).
  exists out. rewrite Hf. simpl. rewrite Hs, writeAt_end.
  assert (i < length (dp_files s))%nat as Hi by by eapply lookup_lt_Some.
  split_and!.
  - unfold out. destruct fault as [[k e]|]; [apply prefix_take|done].
  - split_and!; simpl; [done|by apply list_lookup_insert_eq|].
    unfold glen. rewrite length_app. lia.
  - split_and!; simpl; [|lia|done|done]. intros j g Hj. destruct (decide (j = i)) as [->|Hne].
    + exists out. rewrite list_lookup_insert_eq by done. congruence.
    + exists []. rewrite list_lookup_insert_ne by done. by rewrite app_nil_r.
  - split_and!; simpl; try done. apply length_insert.
  - done.
  - unfold out. by destruct fault as [[k e]|].
  - done.
Qed.

(** * The next pack *)

Lemma nextPack_spec fl s i f :
  atEnd s i f -> dp_fds s = length (dp_files s) ->
  let '(s', r) := nextPack fl s in
  grows s s' /\ dp_index s' = dp_index s /\ dp_fds s <> 0%nat /\
  match r with
  | Ok _ => atEnd s' (dp_fds s) [] /\ dp_fds s' = length (dp_files s') /\ dp_fds s' = S (dp_fds s)
  | Err _ => fl <> noPackFaults
  | _ => False
  end.
Proof.
  intros (Hw & Hf & Hs) Hfds. pose proof (lookup_lt_Some _ _ _ Hf) as Hi.
  assert (forall s1, dp_files s1 = dp_files s -> dp_fds s1 = dp_fds s -> dp_closed s1 = dp_closed s ->
    maxFileSize s1 = maxFileSize s -> grows s s1) as Hsame.
  { intros s1 H1 H2 H3 H4. split_and!; [|lia|done|done]. intros j g Hj. exists []. by rewrite H1, app_nil_r. }
  unfold nextPack. cbn [dp_writeLock setWriter].
  destruct (if dp_writeLock s then pf_unlock fl else None) as [e|] eqn:El.
  { split_and!; [by apply Hsame|done|lia|]. intros ->. by destruct (dp_writeLock s). }
  cbn [dp_writer setWriter]. rewrite Hw. cbn [w_open setWriter].
  destruct (pf_close fl) as [e|] eqn:Ec.
  { split_and!; [by apply Hsame|done|lia|]. by intros ->. }
  unfold openForWrite. cbn [dp_fds setWriter dp_files dp_writer dp_writeLock setFiles].
  destruct (pf_lock fl) as [e|] eqn:Ek.
  { split_and!; [by apply Hsame|done|lia|]. by intros ->. }
  destruct (pf_create fl) as [e|] eqn:Er.
  { split_and!; [by apply Hsame|done|lia|]. by intros ->. }
  rewrite (proj2 (Nat.ltb_ge _ _)) by lia.
  assert (forall s1, dp_files s1 = dp_files s ++ [[]] -> (dp_fds s <= dp_fds s1)%nat -> dp_closed s1 = dp_closed s ->
    maxFileSize s1 = maxFileSize s -> grows s s1) as Happ.
  { intros s1 H1 H2 H3 H4. split_and!; [|done|done|done]. intros j g Hj. exists [].
    rewrite H1, app_nil_r. by apply lookup_app_l_Some. }
  destruct (pf_seekEnd fl) as [e|] eqn:Ese.
  { split_and!; [by apply Happ|done|lia|]. by intros ->. }
  assert ((dp_files s ++ [[]]) !! dp_fds s = Some []) as Hnew.
  { rewrite Hfds, lookup_app_r, Nat.sub_diag by lia. done. }
  cbn [setFiles dp_files]. rewrite Hnew. unfold openForRead. cbn [dp_fds setWriter setFiles dp_files default].
  rewrite Nat.ltb_irrefl. destruct (pf_openRead fl) as [e|] eqn:Eo.
  { split_and!; [by apply Happ|done|lia|]. by intros ->. }
  rewrite (proj2 (Nat.ltb_lt _ _)) by (rewrite length_app; simpl; lia).
  split_and!; [apply Happ; simpl; (done || lia)|done|lia| | |].
  - by split_and!.
  - simpl. rewrite length_app. simpl. lia.
  - done.
Qed.

(** * Appending *)

Lemma setIndex_grows s idx : grows s (setIndex s idx).
Proof. split_and!; [|simpl; lia|done|done]. intros i f Hf. exists []. by rewrite app_nil_r. Qed.

(** Undoing leaves at least the old bytes of the pack. *)
Lemma undoAppend_spec fl s s0 i f f0 :
  atEnd s i f -> grows s0 s -> f0 `prefix_of` f \/ (dp_files s0 !! i = None /\ f0 = []) ->
  (forall g, dp_files s0 !! i = Some g -> g = f0) ->
  forall orig, orig = glen f0 \/ dp_files s0 !! i = None -> 0 <= orig ->
  let s' := undoAppend fl s orig in
  grows s0 s' /\ dp_index s' = dp_index s /\ dp_fds s' = dp_fds s /\ length (dp_files s') = length (dp_files s) /\
  (io_truncate fl = None -> exists f', atEnd s' i f').
Proof.
  intros (Hw & Hf & Hs) Hg Hpre Hold orig Horig Hnn. pose proof (lookup_lt_Some _ _ _ Hf) as Hi.
  unfold undoAppend. rewrite Hw. destruct (io_seekBack fl) as [e|].
  { split_and!; try done. intros _. by exists f. }
  destruct (io_truncate fl) as [e|].
  { split_and!; try done. }
  simpl. rewrite Hf. simpl. split_and!; try done.
  - destruct Hg as (Hg & F & C & M). split_and!; simpl; [|done|done|done]. intros j g Hj.
    destruct (Hg j g Hj) as [t Ht]. destruct (decide (j = i)) as [->|Hne].
    + rewrite list_lookup_insert_eq by done. rewrite (Hold g Hj) in *.
      assert (f = f0 ++ t) as -> by congruence. destruct Horig as [->|]; [|congruence].
      unfold truncateTo. exists []. rewrite app_nil_r. f_equal. unfold glen. rewrite Nat2Z.id.
      rewrite <- app_assoc. apply take_app_length.
    + rewrite list_lookup_insert_ne by done. by exists t.
  - by rewrite length_insert.
  - intros _. eexists. split_and!; simpl; [done|by apply list_lookup_insert_eq|].
    unfold truncateTo, glen, zeros. rewrite length_take, length_app, length_replicate. lia.
Qed.

Section setting.
(** A store that leaves its bindings alone when [Set] fails. *)
Hypothesis kv_set_err : forall k v (i i' : K) e, kv_set k v i = (Some e, i') -> kv_view i' = kv_view i.

(** What an upload of [d] for [br] does, whatever fails. *)
Definition stored s s' (br : Ref) (d : gostr) (r : res unit) : Prop :=
  grows s s' /\
  match r with
  | Ok _ => exists m, kv_view (dp_index s') = <[RefString br := metaString m]> (kv_view (dp_index s)) /\
      metaWf m /\ metaData (dp_files s') (dp_fds s') m = Some d
  | Err _ => kv_view (dp_index s') = kv_view (dp_index s)
  | _ => False
  end.

Lemma appendIndex_spec fl s s0 br d i f packIdx offset orig :
  atEnd s i f -> grows s0 s -> dp_index s = dp_index s0 ->
  (exists f0, (f0 `prefix_of` f \/ (dp_files s0 !! i = None /\ f0 = [])) /\
     (forall g, dp_files s0 !! i = Some g -> g = f0) /\ (orig = glen f0 \/ dp_files s0 !! i = None)) ->
  0 <= orig -> metaWf (MkMeta packIdx offset (glen d)) ->
  metaData (dp_files s) (dp_fds s) (MkMeta packIdx offset (glen d)) = Some d ->
  let '(s', r) := appendIndex fl s (MkSizedRef br (glen d)) packIdx offset orig in
  stored s0 s' br d r /\ dp_fds s' = dp_fds s /\ length (dp_files s') = length (dp_files s) /\
  (io_truncate fl = None -> exists f', atEnd s' i f').
Proof using kv_set_err.
  intros Hend Hg Hidx (f0 & Hpre & Hold & Horig) Hnn Hm Hd. unfold appendIndex. cbn [sr_size sr_ref].
  destruct (kv_set (RefString br) (metaString (MkMeta packIdx offset (glen d))) (dp_index s)) as [[e|] idx] eqn:Es.
  - apply kv_set_err in Es.
    destruct (undoAppend_spec fl (setIndex s idx) s0 i f f0 Hend) with (orig := orig) as (H1 & H2 & H3 & H4 & H5);
      [by eapply grows_trans, setIndex_grows|done..|].
    split_and!; [split; [done|]; rewrite H2; simpl; congruence|by rewrite H3|by rewrite H4|done].
  - apply kv_set_ok in Es. split_and!; try done; [|by exists f].
    split; [by eapply grows_trans, setIndex_grows|]. exists (MkMeta packIdx offset (glen d)). simpl.
    split_and!; [congruence|apply Hm..|done].
Qed.

Lemma append_spec fl s br d :
  dpWf s -> glen d < 2 ^ 32 -> dp_size s < 2 ^ 62 -> Z.of_nat (dp_fds s) < 2 ^ 62 -> glen (RefString br) < 2 ^ 61 ->
  let '(s', r) := append fl s (MkSizedRef br (glen d)) d in
  stored s s' br d r /\
  (io_pack fl = noPackFaults -> io_truncate fl = None ->
   dp_fds s' = length (dp_files s') /\ exists f, atEnd s' (length (dp_files s') - 1) f).
Proof using kv_set_err.
  intros Hwf Hd Hsz Hfds Hkey. destruct (dw_writer s Hwf) as [f Hend]. pose proof (dw_fds s Hwf) as Hfl.
  unfold append. rewrite (dw_open s Hwf).
  pose proof (writerWrite_end (io_header fl) s _ f (blobHeader (MkSizedRef br (glen d))) Hend) as Hw.
  destruct (writerWrite _ s _) as [[s1 n] err]. destruct Hw as (h & Hpre & He1 & Hg1 & (Hi1 & Hf1 & Hl1 & _) & _ & Hok & Hfiles1).
  set (i := (length (dp_files s) - 1)%nat) in *.
  assert (dp_fds s1 = length (dp_files s1) /\ exists g, atEnd s1 (length (dp_files s1) - 1) g) as Hend1.
  { rewrite Hl1, Hf1. split; [done|]. by exists (f ++ h). }
  destruct err as [e|]. { split; [split; [done|congruence]|by intros _ _]. }
  destruct (io_seek fl) as [e|]. { split; [split; [done|congruence]|by intros _ _]. }
  destruct He1 as (Hw1 & Hfi1 & Hsz1). rewrite Hw1. simpl. rewrite Z.eqb_refl. simpl.
  pose proof (writerWrite_end (io_data fl) s1 i (f ++ h) d) as Hw. ospecialize* Hw. { by split_and!. }
  destruct (writerWrite _ s1 _) as [[s2 n2] err]. destruct Hw as (o & Hpre2 & He2 & Hg2 & (Hi2 & Hf2 & Hl2 & _) & Hn2 & Hok2 & Hfiles2).
  pose proof (grows_trans _ _ _ Hg1 Hg2) as Hg02.
  assert (dp_fds s2 = length (dp_files s2) /\ exists g, atEnd s2 (length (dp_files s2) - 1) g) as Hend2.
  { rewrite Hl2, Hf2, Hl1, Hf1. split; [done|]. eexists. exact He2. }
  destruct err as [e|]. { split; [split; [done|congruence]|by intros _ _]. }
  rewrite (Hok2 eq_refl) in *. rewrite Hn2, Z.eqb_refl. simpl.
  destruct (io_sync fl) as [e|]. { split; [split; [done|congruence]|by intros _ _]. }
  destruct Hend as (Hw0 & Hfi0 & Hsz0).
  assert (h = blobHeader (MkSizedRef br (glen d))) as -> by auto.
  set (hd := blobHeader (MkSizedRef br (glen d))) in *.
  assert (length hd = 3 + length (RefString br) + length (itoa (glen d)))%nat as Hhl.
  { unfold hd, blobHeader. cbn [sr_ref sr_size]. rewrite !length_app. simpl. lia. }
  destruct (itoa_spec (glen d) (glen64 d Hd)) as (_ & _ & Hil & _). pose proof (lookup_lt_Some _ _ _ Hfi0) as Hilt.
  set (m := MkMeta (Z.of_nat (dp_fds s2) - 1) (dp_size s1) (glen d)).
  assert (metaWf m) as Hmwf.
  { unfold m, metaWf; simpl. rewrite Hf2, Hf1, Hsz1. unfold glen in *. rewrite length_app, Hhl. lia. }
  assert (metaData (dp_files s2) (dp_fds s2) m = Some d) as Hmd.
  { unfold metaData, packFile, m. simpl. rewrite (proj2 (Z.ltb_ge _ 0)) by lia.
    replace (Z.to_nat (Z.of_nat (dp_fds s2) - 1)) with i by (unfold i; lia).
    destruct He2 as (_ & -> & _). simpl. rewrite (proj2 (Z.ltb_lt _ _)) by lia. simpl. rewrite Hsz1.
    rewrite (proj2 (Z.leb_le _ _)) by (unfold glen; rewrite (length_app (f ++ hd)); lia).
    rewrite drop_glen. f_equal. unfold glen. rewrite Nat2Z.id. apply firstn_all. }
  assert (forall g, dp_files s !! i = Some g -> g = f) as Hold by (intros; congruence).
  destruct (maxFileSize s2 <? dp_size s2).
  - pose proof (nextPack_spec (io_pack fl) s2 i ((f ++ hd) ++ d) He2 (proj1 Hend2)) as Hnp.
    destruct (nextPack (io_pack fl) s2) as [s3 r]. destruct Hnp as (Hg3 & Hi3 & Hne & Hr).
    destruct r as [[]|e|p|]; [| |done..].
    + destruct Hr as (He3 & Hf3 & Hf3').
      pose proof (appendIndex_spec fl s3 s br d (dp_fds s2) [] (Z.of_nat (dp_fds s2) - 1) (dp_size s1) (dp_size s) He3) as Ha.
      ospecialize* Ha.
      { by eapply grows_trans. }
      { congruence. }
      { exists []. split_and!; [by left| |].
        - intros g Hg. apply lookup_lt_Some in Hg. lia.
        - right. apply lookup_ge_None. lia. }
      { rewrite Hsz0. unfold glen. lia. }
      { exact Hmwf. }
      { by eapply metaData_grows. }
      destruct (appendIndex fl s3 _ _ _ _) as [s' r]. destruct Ha as (Hst & Hfd & Hlen & Ht). split; [done|].
      intros _ Htr. rewrite Hfd, Hlen. split; [lia|]. destruct (Ht Htr) as [f' Hf']. exists f'.
      replace (length (dp_files s3) - 1)%nat with (dp_fds s2) by lia. done.
    + split; [split; [by eapply grows_trans|congruence]|]. intros Hno. by destruct Hr.
  - pose proof (appendIndex_spec fl s2 s br d i ((f ++ hd) ++ d) (Z.of_nat (dp_fds s2) - 1) (dp_size s1) (dp_size s) He2 Hg02) as Ha.
    ospecialize* Ha.
    { congruence. }
    { exists f. split_and!; [|done|by left]. left. exists (hd ++ d). by rewrite app_assoc. }
    { rewrite Hsz0. unfold glen. lia. }
    { exact Hmwf. }
    { exact Hmd. }
    destruct (appendIndex fl s2 _ _ _ _) as [s' r]. destruct Ha as (Hst & Hfd & Hlen & Ht). split; [done|].
    intros _ Htr. rewrite Hfd, Hlen. split; [lia|]. destruct (Ht Htr) as [f' Hf']. exists f'.
    replace (length (dp_files s2) - 1)%nat with i by (unfold i; lia). done.
Qed.

Lemma meta_spec s br : dpWf s ->
  match meta s br with
  | Ok m => kv_view (dp_index s) !! RefString br = Some (metaString m) /\ metaWf m /\
      exists d, metaData (dp_files s) (dp_fds s) m = Some d /\ dpBlob s br = Some d
  | Err e => e = ErrNotExist -> dpBlob s br = None \/ kv_get (RefString br) (dp_index s) = Err ErrNotExist
  | Panic p => kv_get (RefString br) (dp_index s) = Panic p
  | Blocked => kv_get (RefString br) (dp_index s) = Blocked
  end.
Proof using Type.
  intros Hwf. unfold meta. destruct (kv_get (RefString br) (dp_index s)) as [v|e|p|] eqn:E; [| |done..].
  - apply kv_get_Ok in E. destruct (dw_index s Hwf _ _ E) as (m & d & -> & Hm & Hd). rewrite parse_metaString by done.
    split_and!; [done|apply Hm..|]. exists d. split; [done|]. unfold dpBlob. rewrite E. simpl.
    rewrite parse_metaString by done. done.
  - destruct (decide (e = ErrNotFound)) as [->|Hne]; [|by intros ->; right].
    intros _. left. apply kv_get_NotFound in E. unfold dpBlob. by rewrite E.
Qed.

Lemma dpBlob_setIndex s idx br m d :
  kv_view idx = <[RefString br := metaString m]> (kv_view (dp_index s)) -> metaWf m ->
  metaData (dp_files s) (dp_fds s) m = Some d ->
  dpBlob (setIndex s idx) br = Some d.
Proof using Type.
  intros Hv Hm Hd. unfold dpBlob. simpl. rewrite Hv, lookup_insert_eq. simpl. by rewrite parse_metaString.
Qed.

(** What the index says after an upload. *)
Lemma stored_index s s' br d r : indexOk s -> stored s s' br d r -> indexOk s'.
Proof using Type.
  intros Hi [Hg Hr] k v Hk. assert (kv_view (dp_index s) !! k = Some v -> exists m d', v = metaString m /\ metaWf m /\
    metaData (dp_files s') (dp_fds s') m = Some d') as Hold.
  { intros (m & d' & -> & Hm & Hd)%Hi. exists m, d'. split_and!; [done|apply Hm..|by eapply metaData_grows]. }
  destruct r as [[]|e|p|]; [|rewrite Hr in Hk; auto|done..]. destruct Hr as (m & Hv & Hm & Hd).
  rewrite Hv in Hk. apply lookup_insert_Some in Hk as [[<- <-]|[_ Hk]]; [|auto]. eauto.
Qed.

Lemma stored_blob s s' br d r br' :
  indexOk s -> stored s s' br d r -> goodRef br -> goodRef br' ->
  (br' ≠ br \/ r ≠ Ok tt -> dpBlob s' br' = dpBlob s br') /\ (r = Ok tt -> dpBlob s' br = Some d).
Proof using Type.
  intros Hi [Hg Hr] Hb Hb'. split.
  - intros Hne. apply dpBlob_grows; [done..|]. destruct r as [[]|e|p|]; [|by rewrite Hr|done..].
    destruct Hne as [Hne|]; [|done]. destruct Hr as (m & -> & _). rewrite lookup_insert_ne; [done|].
    intros He. apply Hne. symmetry. by apply goodRef_inj.
  - intros ->. destruct Hr as (m & Hv & Hm & Hd). unfold dpBlob. rewrite Hv, lookup_insert_eq. simpl.
    by rewrite parse_metaString.
Qed.

(** C29. Uploading to the pack files, whatever system call fails on the way,
    harms no blob: the others read as before, and this one too unless the
    upload succeeds, and then it reads back as uploaded.  The storage stays
    well formed unless opening the next pack or undoing the append failed. *)
Theorem dpReceive_safe fl s br src :
  dpWf s -> goodRef br -> glen src.1 < 2 ^ 32 -> (forall d, dpBlob s br = Some d -> d = src.1) ->
  dp_size s < 2 ^ 62 -> Z.of_nat (dp_fds s) < 2 ^ 62 -> glen (RefString br) < 2 ^ 61 ->
  let '(s', r) := dpReceiveBlob fl s br src in
  (io_pack fl = noPackFaults -> io_truncate fl = None -> dpWf s') /\
  (forall br', goodRef br' -> br' ≠ br \/ is_ok r = false -> dpBlob s' br' = dpBlob s br') /\
  match r with
  | Ok sb => src.2 = Ok tt /\ sb = sized (br, src.1) /\ dpBlob s' br = Some src.1
  | Err e => True
  | Panic p => src.2 = Panic p \/ kv_get (RefString br) (dp_index s) = Panic p
  | Blocked => src.2 = Blocked \/ kv_get (RefString br) (dp_index s) = Blocked
  end.
Proof using kv_set_err.
  intros Hwf Hbr Hd Hsame Hsz Hfds Hkey. unfold dpReceiveBlob, readAll.
  destruct src as [d [[]|e|p|]]; simpl in *; [|by split_and!; auto..].
  rewrite u32_small by (unfold glen in *; lia).
  assert (let '(s', r) := append fl s (MkSizedRef br (glen d)) d in
    (io_pack fl = noPackFaults -> io_truncate fl = None -> dpWf s') /\
    (forall br', goodRef br' -> br' ≠ br \/ is_ok (let? _ := r in Ok (MkSizedRef br (glen d))) = false ->
      dpBlob s' br' = dpBlob s br') /\
    match (let? _ := r in Ok (MkSizedRef br (glen d))) with
    | Ok sb => sb = sized (br, d) /\ dpBlob s' br = Some d
    | Err e => True
    | _ => False
    end) as Happ.
  { pose proof (append_spec fl s br d Hwf Hd Hsz Hfds Hkey) as Ha.
    destruct (append fl s (MkSizedRef br (glen d)) d) as [s' r]. destruct Ha as [Hst Hend]. split; [|split].
    - intros Hp Ht. destruct (Hend Hp Ht) as [Hl Hw]. split; [|done|done|].
      + destruct Hst as [(_ & _ & Hc & _) _]. rewrite Hc. apply Hwf.
      + eapply stored_index; [apply Hwf|done].
    - intros br' Hb' Hne. destruct (stored_blob s s' br d r br' (dw_index s Hwf) Hst Hbr Hb') as [H1 _]. apply H1.
      destruct Hne as [|Hne]; [by left|right]. intros ->. done.
    - destruct (stored_blob s s' br d r br (dw_index s Hwf) Hst Hbr Hbr) as [_ H1]. destruct Hst as [_ Hr].
      destruct r as [[]|e|p|]; simpl; auto. }
  destruct (append fl s (MkSizedRef br (glen d)) d) as [s' r]. simpl in Happ.
  assert (match (let? _ := r in Ok (MkSizedRef br (glen d))) with Ok _ | Err _ => True | _ => False end) as Hres.
  { destruct Happ as (_ & _ & Hr). by destruct (let? _ := r in Ok (MkSizedRef br (glen d))). }
  pose proof (meta_spec s br Hwf) as Hm. destruct (meta s br) as [m|e|p|].
  - destruct Hm as (_ & (Hm0 & _) & d' & Hmd & Hb). unfold metaData in Hmd.
    destruct (packFile (dp_files s) (bm_file m)) as [f|]; [|done]. simpl in Hmd.
    destruct (bm_file m <? Z.of_nat (dp_fds s)); [|done]. simpl in Hmd.
    destruct (bm_offset m + bm_size m <=? glen f) eqn:El; [|done].
    destruct (io_stat fl).
    + destruct Happ as (H1 & H2 & H3). split_and!; [done..|]. by destruct (let? _ := r in Ok (MkSizedRef br (glen d))).
    + split_and!; [done|done|done|done|]. rewrite Hb. f_equal. by apply Hsame.
  - destruct Happ as (H1 & H2 & H3). split_and!; [done..|]. by destruct (let? _ := r in Ok (MkSizedRef br (glen d))).
  - split_and!; auto.
  - split_and!; auto.
Qed.
End setting.
End diskpacked_proofs.

(** * Reindexing *)

Section reindex_proofs.
Context {K : Type} `{KVLaws K}.

(** The live records of a pack from offset [off], with their index values. *)
Fixpoint recEntries (i off : Z) (rs : list packRec) : list (packRec * blobMeta) :=
  match rs with
  | [] => []
  | r :: rs =>
      (if recLive r then [(r, MkMeta i (off + glen (recHeader r)) (glen (pr_data r)))] else []) ++
      recEntries i (off + glen (recBytes r)) rs
  end.

Fixpoint packEntries (i : Z) (packs : list (list packRec)) : list (packRec * blobMeta) :=
  match packs with
  | [] => []
  | rs :: packs => recEntries i 0 rs ++ packEntries (i + 1) packs
  end.

Definition entryMutation (e : packRec * blobMeta) : mutation := Mutation (pr_digest e.1) (metaString e.2) false.

Lemma recRef_ok r : recOk r -> recLive r = true -> Valid (recRef r) = true /\ RefString (recRef r) = pr_digest r.
Proof.
  intros Hr Hl. destruct (ro_parse r Hr Hl) as [ref Hp]. destruct (Parse_inv _ _ Hp) as [Hwf Hs].
  unfold recRef. unfold recLive in Hl. destruct (deletedBlobRef (pr_digest r)); [done|]. rewrite Hp.
  by split; [apply refWf_Valid|].
Qed.

(** The walker collects the entries, in order. *)
Lemma walkRecs_batch index i off rs b ok ms :
  Forall recOk rs ->
  walkRecs (reindexWalker index true) i off rs (MkRI b ok ms) =
    (MkRI (b ++ (entryMutation <$> recEntries i off rs)) ok ms, Ok tt).
Proof.
  intros Hrs. revert off b. induction Hrs as [|r rs Hr Hrs IH]; intros off b; cbn [walkRecs recEntries].
  { by rewrite app_nil_r. }
  destruct (recLive r) eqn:El.
  - destruct (recRef_ok r Hr El) as [Hv Hs]. unfold reindexWalker at 1. rewrite Hv. cbn [negb ri_batch ri_allOk ri_misses].
    rewrite IH. unfold batchSet. rewrite Hs. cbn [app fmap list_fmap]. by rewrite <- app_assoc.
  - unfold recRef. unfold recLive in El. apply negb_false_iff in El. rewrite El.
    change (reindexWalker index true (MkRI b ok ms) i zeroRef (off + glen (recHeader r)) (glen (pr_data r))) with
      (MkRI b ok ms, @None error). cbn iota. rewrite IH. done.
Qed.

Definition setEntries (m : gmap gostr gostr) (es : list (packRec * blobMeta)) : gmap gostr gostr :=
  applyMutations m (entryMutation <$> es).

Lemma setEntries_app m es1 es2 : setEntries m (es1 ++ es2) = setEntries (setEntries m es1) es2.
Proof. unfold setEntries, applyMutations. by rewrite fmap_app, foldl_app. Qed.

Lemma lookup_setEntries m es k :
  setEntries m es !! k =
    match last (filter (fun e => pr_digest e.1 = k) es) with Some e => Some (metaString e.2) | None => m !! k end.
Proof.
  induction es as [|e es IH] using rev_ind; [done|]. rewrite setEntries_app, filter_app.
  change (setEntries ?m [e]) with (<[pr_digest e.1 := metaString e.2]> m). rewrite filter_cons.
  destruct (decide (pr_digest e.1 = k)) as [He|Hne].
  - rewrite filter_nil, last_snoc, <- He, lookup_insert_eq. done.
  - by rewrite filter_nil, app_nil_r, lookup_insert_ne.
Qed.

Lemma reindexFrom_spec fuel packs index i :
  packsOk packs -> (length packs - i < fuel)%nat ->
  match reindexFrom fuel (packFiles packs) index true (Z.of_nat i) with
  | (index', Ok _) =>
      kv_view index' = setEntries (kv_view index) (packEntries (Z.of_nat i) (drop i packs))
  | (_, Err e) => exists b ix ix', kv_commit b ix = (Some e, ix')
  | _ => False
  end.
Proof.
  intros Hps. revert index i. induction fuel as [|fuel IH]; intros index i Hf; [lia|].
  cbn [reindexFrom]. rewrite packFile_drop. destruct (drop i packs) as [|rs ps] eqn:Ed; simpl; [done|].
  assert (packs !! i = Some rs) as Hi.
  { rewrite <- (Nat.add_0_r i), <- lookup_drop, Ed. done. }
  assert (Forall recOk rs) as Hrs by by eapply Forall_lookup_1 in Hps.
  assert (packFile (packFiles packs) (Z.of_nat i) = Some (packBytes rs)) as Hfile by by rewrite packFile_drop, Ed.
  unfold reindexOne. rewrite (walkPack_records _ _ _ rs _ Hrs Hfile), walkRecs_batch by done. cbn [ri_batch].
  change (NewBatchMutation ++ ?l) with l.
  destruct (kv_commit (entryMutation <$> recEntries (Z.of_nat i) 0 rs) index) as [[e|] index'] eqn:Ec; [eauto|].
  apply kv_commit_ok in Ec. replace (Z.of_nat i + 1) with (Z.of_nat (S i)) by lia.
  apply lookup_lt_Some in Hi as Hlt. specialize (IH index' (S i) ltac:(lia)).
  assert (drop (S i) packs = ps) as Ed'.
  { replace (S i) with (i + 1)%nat by lia. by rewrite <- drop_drop, Ed. }
  rewrite Ed' in IH. destruct (reindexFrom fuel (packFiles packs) index' true (Z.of_nat (S i))) as [ix [[]|e|p|]]; try done.
  rewrite IH, setEntries_app. by rewrite Ec.
Qed.

(** Every entry leads back to its record's bytes. *)
Lemma recEntries_data packs i rs1 rs2 :
  packsOk packs -> packs !! i = Some (rs1 ++ rs2) -> glen packs < 2 ^ 62 ->
  Forall (fun rs => glen (packBytes rs) < 2 ^ 62) packs ->
  Forall (fun e => metaWf e.2 /\ metaData (packFiles packs) (length packs) e.2 = Some (pr_data e.1))
    (recEntries (Z.of_nat i) (glen (packBytes rs1)) rs2).
Proof.
  intros Hps Hi Hn Hl. revert rs1 Hi. induction rs2 as [|r rs2 IH]; intros rs1 Hi; [constructor|]. cbn [recEntries].
  assert (recOk r /\ glen (packBytes (rs1 ++ r :: rs2)) < 2 ^ 62) as [Hr Hlen].
  { split; [|by eapply Forall_lookup_1 in Hl]. eapply Forall_lookup_1 in Hps; [|done].
    by apply Forall_app in Hps as [_ [? _]%Forall_cons]. }
  pose proof (lookup_lt_Some _ _ _ Hi) as Hlt.
  assert (packBytes (rs1 ++ r :: rs2) = (packBytes rs1 ++ recHeader r) ++ pr_data r ++ packBytes rs2) as Hfile.
  { rewrite packBytes_app, packBytes_cons. unfold recBytes. by rewrite <- !app_assoc. }
  assert (glen (packBytes rs1 ++ recHeader r) = glen (packBytes rs1) + glen (recHeader r)) as Hoff.
  { unfold glen. rewrite length_app. lia. }
  apply Forall_app. split.
  - destruct (recLive r); [|constructor]. constructor; [|constructor]. simpl. split.
    + unfold metaWf; simpl. rewrite <- Hoff. pose proof (ro_size r Hr).
      rewrite Hfile in Hlen. unfold glen in *. rewrite !length_app in *. lia.
    + unfold metaData, packFile; simpl. rewrite (proj2 (Z.ltb_ge _ 0)) by lia.
      unfold packFiles. rewrite Nat2Z.id, list_lookup_fmap, Hi. cbn [fmap option_fmap option_map mbind option_bind].
      rewrite (proj2 (Z.ltb_lt _ _)) by lia. rewrite <- Hoff, Hfile, drop_glen.
      rewrite (proj2 (Z.leb_le _ _)) by (unfold glen; rewrite !length_app; lia).
      unfold glen. by rewrite Nat2Z.id, take_app_length.
  - specialize (IH (rs1 ++ [r])). rewrite <- app_assoc in IH. specialize (IH Hi).
    assert (glen (packBytes (rs1 ++ [r])) = glen (packBytes rs1) + glen (recBytes r)) as <-; [|done].
    rewrite packBytes_app. change (packBytes [r]) with (recBytes r ++ []). rewrite app_nil_r.
    unfold glen. rewrite length_app. lia.
Qed.

Lemma packEntries_data packs i :
  packsOk packs -> glen packs < 2 ^ 62 -> Forall (fun rs => glen (packBytes rs) < 2 ^ 62) packs ->
  Forall (fun e => metaWf e.2 /\ metaData (packFiles packs) (length packs) e.2 = Some (pr_data e.1))
    (packEntries (Z.of_nat i) (drop i packs)).
Proof.
  intros Hps Hn Hl. remember (drop i packs) as ps eqn:Ed. revert i Ed.
  induction ps as [|rs ps IH]; intros i Ed; [constructor|]. cbn [packEntries].
  assert (packs !! i = Some rs) as Hi.
  { rewrite <- (Nat.add_0_r i), <- lookup_drop, <- Ed. done. }
  apply Forall_app. split.
  - by apply (recEntries_data packs i [] rs).
  - replace (Z.of_nat i + 1) with (Z.of_nat (S i)) by lia. apply IH.
    replace (S i) with (i + 1)%nat by lia. by rewrite <- drop_drop, <- Ed.
Qed.

(** The bytes of the last live record with a digest. *)
Definition lastLive (packs : list (list packRec)) (digest : gostr) : option gostr :=
  pr_data <$> last (filter (fun r => recLive r = true /\ pr_digest r = digest) (concat packs)).

Lemma recEntries_records i off rs : (recEntries i off rs).*1 = filter (fun r => recLive r = true) rs.
Proof.
  revert off. induction rs as [|r rs IH]; intros off; [done|]. cbn [recEntries]. rewrite fmap_app, IH, filter_cons.
  destruct (recLive r) eqn:El; [rewrite decide_True by done; done|by rewrite decide_False].
Qed.

Lemma packEntries_records i packs : (packEntries i packs).*1 = filter (fun r => recLive r = true) (concat packs).
Proof.
  revert i. induction packs as [|rs packs IH]; intros i; [done|]. cbn [packEntries concat].
  by rewrite fmap_app, IH, recEntries_records, filter_app.
Qed.

Lemma lastLive_entries i packs digest :
  lastLive packs digest = pr_data ∘ fst <$> last (filter (fun e => pr_digest e.1 = digest) (packEntries i packs)).
Proof.
  unfold lastLive. rewrite (filter_ext _ (fun r => pr_digest r = digest /\ recLive r = true)) by (intros; tauto).
  rewrite <- list_filter_filter, <- (packEntries_records i packs), filter_fmap, fmap_last.
  by destruct (last _).
Qed.

(** C30. Rebuilding a lost index from well-formed packs restores every blob:
    afterwards each reference reads as the bytes of its last live record, and
    the references without one read as absent.  The only errors are those of
    the index itself. *)
Theorem Reindex_restores (packs : list (list packRec)) (index : K) :
  packsOk packs -> glen packs < 2 ^ 62 -> Forall (fun rs => glen (packBytes rs) < 2 ^ 62) packs ->
  kv_view index = ∅ ->
  match Reindex (packFiles packs) index true with
  | (index', Ok _) =>
      forall br mx lk w sz, dpBlob (MkDP index' mx false (packFiles packs) (length packs) w lk sz) br =
        lastLive packs (RefString br)
  | (_, Err e) => (exists b ix ix', kv_commit b ix = (Some e, ix')) \/ (exists ix ix', kv_close ix = (Some e, ix'))
  | _ => False
  end.
Proof.
  intros Hps Hn Hl Hempty. unfold Reindex. unfold packFiles at 1. rewrite length_fmap.
  pose proof (reindexFrom_spec (S (length packs)) packs index 0 Hps ltac:(lia)) as Hr.
  change (Z.of_nat 0) with 0 in Hr. rewrite drop_0 in Hr.
  destruct (reindexFrom _ _ _ _ _) as [ix [[]|e|p|]]; [| |done..].
  2: { destruct (kv_close ix) as [[]]; by left. }
  destruct (kv_close ix) as [[e|] index'] eqn:Ec; [right; eauto|]. apply kv_close_ok in Ec.
  intros br mx lk w sz. unfold dpBlob. cbn [dp_index dp_files dp_fds]. rewrite Ec, Hr, lookup_setEntries, Hempty.
  rewrite (lastLive_entries 0).
  pose proof (packEntries_data packs 0 Hps Hn Hl) as Hd. rewrite drop_0 in Hd. change (Z.of_nat 0) with 0 in Hd.
  destruct (last (filter _ (packEntries 0 packs))) as [e|] eqn:El; [|by rewrite lookup_empty].
  apply last_Some_elem_of, list_elem_of_filter in El as [_ El]. rewrite Forall_forall in Hd. destruct (Hd e El) as [Hm He].
  simpl. by rewrite parse_metaString.
Qed.
End reindex_proofs.

(** * Reading is reading the blobs *)

Section reads_proofs.
Context {K : Type} `{KVLaws K}.
Implicit Types s : dpStorage K.

(** The blobs [m] are what the storage holds. *)
Record represents s (m : blobs) : Prop := MkRepresents {
  rp_keys : forall k v, kv_view (dp_index s) !! k = Some v -> exists br, k = RefString br /\ is_Some (m !! br);
  rp_blobs : forall br d, m !! br = Some d -> goodRef br /\ dpBlob s br = Some d
}.

(** An index whose reads do not fail. *)
Definition reliable s : Prop := forall k,
  kv_get k (dp_index s) = match kv_view (dp_index s) !! k with Some v => Ok v | None => Err ErrNotFound end.

Lemma metaData_inv files fds m d : metaWf m -> metaData files fds m = Some d ->
  exists f, packFile files (bm_file m) = Some f /\ bm_file m < Z.of_nat fds /\
    d = take (Z.to_nat (bm_size m)) (drop (Z.to_nat (bm_offset m)) f) /\ glen d = bm_size m.
Proof.
  intros (H1 & H2 & H3) Hd. unfold metaData in Hd. destruct (packFile files (bm_file m)) as [f|]; [|done]. simpl in Hd.
  destruct (Z.ltb_spec (bm_file m) (Z.of_nat fds)); [|done]. simpl in Hd.
  destruct (Z.leb_spec (bm_offset m + bm_size m) (glen f)); [|done]. injection Hd as <-.
  exists f. split_and!; [done|done|done|]. unfold glen in *. rewrite length_take, length_drop. lia.
Qed.

Lemma dpBlob_meta s br d : dpWf s -> dpBlob s br = Some d ->
  exists m, kv_view (dp_index s) !! RefString br = Some (metaString m) /\ metaWf m /\
    metaData (dp_files s) (dp_fds s) m = Some d.
Proof.
  intros Hwf Hb. unfold dpBlob in Hb. destruct (kv_view (dp_index s) !! RefString br) as [v|] eqn:E; [|done].
  destruct (dw_index s Hwf _ _ E) as (m & d' & -> & Hm & Hd). simpl in Hb. rewrite parse_metaString in Hb by done.
  simpl in Hb. exists m. split_and!; [done|apply Hm..|done].
Qed.

Lemma represents_good s m : dpWf s -> represents s m -> goodBlobs m.
Proof.
  intros Hwf Hr br d Hd. destruct (rp_blobs s m Hr br d Hd) as [Hg Hb]. split; [done|].
  destruct (dpBlob_meta s br d Hwf Hb) as (mt & _ & Hm & Hmd).
  destruct (metaData_inv _ _ _ _ Hm Hmd) as (f & _ & _ & _ & ->). apply Hm.
Qed.

(** A reference's index entry and its blob. *)
Lemma meta_represents s m br : dpWf s -> represents s m -> reliable s -> goodRef br ->
  match m !! br with
  | Some d => exists mt, meta s br = Ok mt /\ metaWf mt /\ metaData (dp_files s) (dp_fds s) mt = Some d /\ bm_size mt = glen d
  | None => meta s br = Err ErrNotExist
  end.
Proof.
  intros Hwf Hr Hrel Hbr. unfold meta. rewrite Hrel. destruct (m !! br) as [d|] eqn:Em.
  - destruct (rp_blobs s m Hr br d Em) as [_ Hb]. destruct (dpBlob_meta s br d Hwf Hb) as (mt & -> & Hm & Hmd).
    rewrite parse_metaString by done. exists mt. split_and!; [done|apply Hm..|done|].
    by destruct (metaData_inv _ _ _ _ Hm Hmd) as (f & _ & _ & _ & ->).
  - destruct (kv_view (dp_index s) !! RefString br) as [v|] eqn:E; [|done]. exfalso.
    destruct (rp_keys s m Hr _ _ E) as (br' & He & [d' Hd']). destruct (rp_blobs s m Hr br' d' Hd') as [Hg _].
    apply goodRef_inj in He; [|done..]. congruence.
Qed.

Lemma fetch_represents s m br d offset length :
  dpWf s -> represents s m -> reliable s -> m !! br = Some d ->
  (length = -1 /\ offset = 0) \/ (0 <= offset /\ 0 <= length /\ offset + length < 2 ^ 63) ->
  Forall (fun f => glen f < 2 ^ 63) (dp_files s) ->
  fetch s br offset length =
    Ok ((if length =? -1 then d else take (Z.to_nat length) (drop (Z.to_nat offset) d), Ok tt), glen d).
Proof.
  intros Hwf Hr Hrel Hd Hrange Hfiles. destruct (rp_blobs s m Hr br d Hd) as [Hbr _].
  pose proof (meta_represents s m br Hwf Hr Hrel Hbr) as Hm. rewrite Hd in Hm. destruct Hm as (mt & Hmt & Hmwf & Hmd & Hsz).
  destruct (metaData_inv _ _ _ _ Hmwf Hmd) as (f & Hf & Hfds & -> & Hg).
  assert (0 <= bm_offset mt /\ bm_offset mt + bm_size mt <= glen f /\ glen f < 2 ^ 63) as (Ho & Hle & Hf63).
  { destruct Hmwf as (? & ? & ?). unfold metaData in Hmd. rewrite Hf in Hmd. simpl in Hmd.
    destruct (Z.leb_spec (bm_offset mt + bm_size mt) (glen f)); [|by rewrite andb_false_r in Hmd].
    unfold packFile in Hf. rewrite (proj2 (Z.ltb_ge _ 0)) in Hf by lia. eapply Forall_lookup_1 in Hfiles; [|done].
    split_and!; [lia|lia|done]. }
  unfold fetch. rewrite Hmt. simpl. rewrite (proj2 (Z.leb_gt _ _)) by lia. rewrite Hf.
  unfold sectionOf. rewrite (dw_open s Hwf). destruct Hrange as [[-> ->]|(H1 & H2 & H3)].
  - simpl. rewrite (proj2 (Z.ltb_ge _ 0)) by lia. by rewrite Hg.
  - rewrite (proj2 (Z.eqb_neq length (-1))) by lia. rewrite i64_small by lia.
    set (d := take (Z.to_nat (bm_size mt)) (drop (Z.to_nat (bm_offset mt)) f)) in *.
    assert (forall o l, 0 <= o -> o <= bm_size mt -> 0 <= l -> o + l <= bm_size mt ->
      take (Z.to_nat l) (drop (Z.to_nat (bm_offset mt + o)) f) = take (Z.to_nat l) (drop (Z.to_nat o) d)) as Hslice.
    { intros o l Ho1 Ho2 Hl1 Hl2. unfold d. rewrite skipn_firstn_comm, drop_drop, take_take.
      f_equal; [lia|]. f_equal. lia. }
    assert (glen d = bm_size mt) as Hgd by done. assert (0 <= bm_size mt) by (destruct Hmwf as (? & ? & ?); lia).
    destruct (Z.ltb_spec (bm_size mt) offset) as [Hlt|Hge].
    + rewrite i64_small by lia. rewrite (proj2 (Z.ltb_ge _ 0)) by lia.
      change (Z.to_nat 0) with 0%nat. cbn [take]. rewrite Hgd. do 3 f_equal.
      rewrite (drop_ge d), take_nil; [done|]. unfold glen in Hgd. lia.
    + destruct (Z.ltb_spec (bm_size mt) (offset + length)) as [Hlt|Hle2].
      * rewrite i64_small by lia. rewrite (proj2 (Z.ltb_ge _ 0)) by lia. rewrite Hslice by lia. rewrite Hgd.
        do 3 f_equal. rewrite !take_ge; [done|rewrite length_drop; unfold glen in Hgd; lia..].
      * rewrite i64_small by lia. rewrite (proj2 (Z.ltb_ge _ 0)) by lia. rewrite Hslice by lia. by rewrite Hgd.
Qed.

Lemma statOne_represents s m br : dpWf s -> represents s m -> reliable s -> goodRef br ->
  statOne s br = (match m !! br with Some d => [MkSizedRef br (glen d)] | None => [] end, Ok tt).
Proof.
  intros Hwf Hr Hrel Hbr. pose proof (meta_represents s m br Hwf Hr Hrel Hbr) as Hm. unfold statOne.
  destruct (m !! br) as [d|]; [|by rewrite Hm]. destruct Hm as (mt & -> & _ & _ & Hs). unfold metaSizedRef. by rewrite Hs.
Qed.

Lemma batchErr_ok firstErr (rs : list (res unit)) : Forall (fun r => r = Ok tt) rs -> batchErr firstErr rs = Ok tt.
Proof.
  intros Hrs. unfold batchErr.
  assert (forall {A} (f : res unit -> option A), f (Ok tt) = None -> omap f rs = []) as Hno.
  { intros A f Hf. induction Hrs as [|r rs -> _ IH]; [done|]. simpl. by rewrite Hf. }
  by rewrite !Hno.
Qed.

Lemma dpStat_represents firstErr s m brs : dpWf s -> represents s m -> reliable s -> Forall goodRef brs ->
  dpStatBlobs firstErr s brs = (statSpec m brs, Ok tt).
Proof.
  intros Hwf Hr Hrel Hg. unfold dpStatBlobs. f_equal.
  - induction Hg as [|br brs Hbr Hg IH]; [done|]. cbn [fmap list_fmap concat]. rewrite statSpec_cons.
    rewrite (statOne_represents s m br Hwf Hr Hrel Hbr). by rewrite <- IH.
  - apply batchErr_ok. rewrite !Forall_fmap. eapply Forall_impl; [exact Hg|]. intros br Hbr. simpl.
    by rewrite (statOne_represents s m br Hwf Hr Hrel Hbr).
Qed.

(** * Enumerating *)

(** An index pair and the blob it stands for. *)
Definition pairOf (p : gostr * gostr) (sb : SizedRef) : Prop :=
  p.1 = sizedStr sb /\ goodRef (sr_ref sb) /\ exists m, p.2 = metaString m /\ metaWf m /\ bm_size m = sr_size sb.

Lemma pairs_represents s m : dpWf s -> represents s m ->
  Forall2 pairOf (sortedPairs (kv_view (dp_index s))) (sizedAll m).
Proof.
  intros Hwf Hr. pose proof (represents_good s m Hwf Hr) as Hg.
  set (conv := fun sb => (sizedStr sb, default [] (kv_view (dp_index s) !! sizedStr sb))).
  assert (sortedPairs (kv_view (dp_index s)) = conv <$> sizedAll m) as ->.
  { symmetry. apply sortedPairs_unique.
    - pose proof (sizedAll_sorted m Hg) as Hs. induction Hs as [|sb l _ IH Hf]; simpl; constructor; [done|].
      rewrite Forall_fmap. eapply Forall_impl; [exact Hf|]. done.
    - intros k v. rewrite list_elem_of_fmap. unfold conv. split.
      + intros (sb & [= -> ->] & (d & Hd & _)%elem_of_sizedAll). destruct (rp_blobs s m Hr _ _ Hd) as [_ Hb].
        destruct (dpBlob_meta s _ d Hwf Hb) as (mt & Hv & _). unfold sizedStr. by rewrite Hv.
      + intros Hv. destruct (rp_keys s m Hr _ _ Hv) as (br & -> & [d Hd]). exists (MkSizedRef br (glen d)).
        unfold sizedStr; simpl. rewrite Hv. split; [done|]. apply elem_of_sizedAll. by exists d. }
  apply Forall2_fmap_l, Forall_Forall2_diag, Forall_forall. intros sb Hsb. unfold conv, pairOf; simpl.
  apply elem_of_sizedAll in Hsb as (d & Hd & Hs). destruct (rp_blobs s m Hr _ _ Hd) as [Hgr Hb].
  destruct (dpBlob_meta s _ d Hwf Hb) as (mt & Hv & Hm & Hmd). split_and!; [done|apply Hgr..|]. exists mt.
  unfold sizedStr. rewrite Hv. split_and!; [done|apply Hm..|]. rewrite Hs.
  by destruct (metaData_inv _ _ _ _ Hm Hmd) as (f & _ & _ & _ & ->).
Qed.

Lemma dpEnumLoop_pairs c after limit n ps l : Forall2 pairOf ps l -> (forall k, c = Some k -> (n <= k)%nat) ->
  dpEnumLoop c after limit n ps =
    sendAll (ctxFrom n c) (take (Z.to_nat (limit - Z.of_nat n)) (filter (sizedAfter after) l)).
Proof.
  intros Hps. revert n. induction Hps as [|[k v] sb ps l (Hk & Hg & mt & Hv & Hm & Hs) Hps IH]; intros n Hc; cbn [dpEnumLoop].
  { rewrite filter_nil, take_nil. unfold sendAll, ctxFrom. by destruct c. }
  simpl in Hk, Hv. subst k v. destruct (Z.ltb_spec (Z.of_nat n) limit) as [Hlt|Hge].
  - rewrite filter_cons. destruct (decide (str_le (sizedStr sb) after)) as [Hle|Hgt].
    + rewrite decide_False by (unfold sizedAfter; by rewrite str_not_lt). by apply IH.
    + rewrite decide_True by (unfold sizedAfter; by rewrite <- str_not_le).
      assert (Parse (sizedStr sb) = Ok (Some (sr_ref sb))) as -> by (apply Parse_RefString, Hg).
      rewrite (parse_metaString mt Hm).
      replace (Z.to_nat (limit - Z.of_nat n)) with (S (Z.to_nat (limit - Z.of_nat (S n)))) by lia. cbn [take].
      rewrite (sendAll_cons c n _ _ Hc). destruct (decide (c = Some n)) as [|Hne]; [done|].
      rewrite IH. { unfold metaSizedRef. rewrite Hs. by destruct sb. }
      intros k ->. specialize (Hc k eq_refl). assert (k ≠ n) by congruence. lia.
  - replace (Z.to_nat (limit - Z.of_nat n)) with 0%nat by lia. unfold sendAll, ctxFrom. by destruct c.
Qed.

Lemma Forall2_filter {A B} (R : A -> B -> Prop) (P : A -> Prop) (Q : B -> Prop)
    `{!forall x, Decision (P x)} `{!forall x, Decision (Q x)} l k :
  Forall2 R l k -> (forall x y, R x y -> P x <-> Q y) -> Forall2 R (filter P l) (filter Q k).
Proof.
  intros Hlk Hpq. induction Hlk as [|x y l k Hxy _ IH]; [constructor|]. rewrite !filter_cons.
  destruct (decide (P x)), (decide (Q y)); [by constructor|exfalso; naive_solver..|done].
Qed.

(** C38. Reading a pack storage is reading the blobs it holds, when the index
    answers: [Fetch] gives the bytes and the size, [SubFetch] the part asked
    for cut at the end, [StatBlobs] the sizes of those that exist, and
    [EnumerateBlobs] the blobs after the given text in order, up to the limit
    and until the context is done. *)
Theorem dp_reads firstErr s m br offset length brs c after limit :
  dpWf s -> represents s m -> reliable s -> goodRef br -> Forall goodRef brs ->
  Forall (fun f => glen f < 2 ^ 63) (dp_files s) -> 0 <= offset -> 0 <= length -> offset + length < 2 ^ 63 ->
  (kv_find after [] (dp_index s)).2 = None ->
  dpFetch s br = match m !! br with Some d => Ok ((d, Ok tt), glen d) | None => Err ErrNotExist end /\
  dpSubFetch s br offset length =
    match m !! br with
    | Some d => Ok (take (Z.to_nat length) (drop (Z.to_nat offset) d), Ok tt)
    | None => Err ErrNotExist
    end /\
  dpStatBlobs firstErr s brs = (statSpec m brs, Ok tt) /\
  dpEnumerateBlobs s c after limit = sendAll c (enumSpec m after limit).
Proof.
  intros Hwf Hr Hrel Hbr Hbrs Hfiles Ho Hl Hol Hfind. split_and!.
  - unfold dpFetch. destruct (m !! br) as [d|] eqn:Em.
    + by rewrite (fetch_represents s m br d 0 (-1) Hwf Hr Hrel Em (or_introl (conj eq_refl eq_refl)) Hfiles).
    + unfold fetch. pose proof (meta_represents s m br Hwf Hr Hrel Hbr) as Hm. rewrite Em in Hm. by rewrite Hm.
  - unfold dpSubFetch. rewrite (proj2 (Z.ltb_ge offset 0)), (proj2 (Z.ltb_ge length 0)) by lia. simpl.
    destruct (m !! br) as [d|] eqn:Em.
    + rewrite (fetch_represents s m br d offset length Hwf Hr Hrel Em (or_intror (conj Ho (conj Hl Hol))) Hfiles). simpl.
      by rewrite (proj2 (Z.eqb_neq length (-1))) by lia.
    + unfold fetch. pose proof (meta_represents s m br Hwf Hr Hrel Hbr) as Hm. rewrite Em in Hm. by rewrite Hm.
  - by apply dpStat_represents.
  - unfold dpEnumerateBlobs. destruct (kv_find after [] (dp_index s)) as [its closeErr] eqn:E. simpl in Hfind. subst closeErr.
    apply kv_find_ok in E. subst its. unfold rangeOf.
    rewrite (dpEnumLoop_pairs c after limit 0 _ (filter (fun sb => str_le after (sizedStr sb)) (sizedAll m))).
    + rewrite ctxFrom_0, list_filter_filter. change (Z.of_nat 0) with 0. rewrite Z.sub_0_r.
      unfold enumSpec, enumAfter. rewrite (filter_ext _ (sizedAfter after)).
      2: { intros sb _. unfold sizedAfter. pose proof (str_lt_le after (sizedStr sb)). tauto. }
      destruct (sendAll c _) as [out [[]|e|p|]]; done.
    + apply Forall2_filter; [by apply pairs_represents|]. intros [k v] sb (Hk & _). cbn in Hk. subst k. unfold inRange. tauto.
    + intros; lia.
Qed.
End reads_proofs.

(** * Opening a storage *)

Section open_proofs.
Context {K : Type} `{KVLaws K}.
Implicit Types s : dpStorage K.

Lemma openReads_all fuel s :
  (dp_fds s <= length (dp_files s))%nat -> (length (dp_files s) - dp_fds s < fuel)%nat ->
  openReads fuel (fun _ => None) s (dp_fds s) = (setFds s (length (dp_files s)), length (dp_files s), Ok tt).
Proof.
  revert s. induction fuel as [|fuel IH]; intros s Hle Hf; [lia|]. cbn [openReads]. unfold openForRead.
  rewrite Nat.ltb_irrefl. destruct (Nat.ltb_spec (dp_fds s) (length (dp_files s))) as [Hlt|Hge].
  - change (S (dp_fds s)) with (dp_fds (setFds s (S (dp_fds s)))). rewrite IH by (simpl; lia). done.
  - rewrite decide_True by done. replace (length (dp_files s)) with (dp_fds s) by lia. by destruct s.
Qed.

(** Opening a directory of packs over an index of whole records gives a
    working storage: every pack is open for reading, the last one (a new one
    when there was none) for writing at its end, and nothing was written. *)
Lemma newStorage_opens (index : K) (files : list gostr) (mx : Z) :
  (forall k v, kv_view index !! k = Some v -> exists m d, v = metaString m /\ metaWf m /\
     metaData files (length files) m = Some d) ->
  let '(s, r) := newStorage (fun _ => None) noPackFaults index files mx in
  r = Ok tt /\ dpWf s /\ dp_index s = index /\ 0 < maxFileSize s /\
  dp_files s = match files with [] => [[]] | _ => files end.
Proof.
  intros Hi. unfold newStorage, openAllPacks.
  set (mx' := if mx <=? 0 then defaultMaxFileSize else mx).
  assert (0 < mx') as Hmx by (unfold mx'; destruct (Z.leb_spec mx 0); [done|lia]).
  pose proof (openReads_all (S (length files)) (MkDP index mx' false files 0 None false 0)) as Ho.
  cbn [dp_fds dp_files] in Ho. specialize (Ho ltac:(lia) ltac:(lia)). cbn [dp_files]. rewrite Ho.
  destruct files as [|f0 files].
  - cbn. split_and!; try done. constructor; [done|done|exists []; by split_and!|].
    intros k v Hk. destruct (Hi k v Hk) as (m & d & _ & _ & Hd). unfold metaData, packFile in Hd.
    by destruct (_ <? 0).
  - set (fs := f0 :: files) in *. replace (length fs =? 0)%nat with false by done. unfold openForWrite. cbn [pf_lock pf_create noPackFaults pf_seekEnd setFds dp_files].
    rewrite (proj2 (Nat.ltb_lt _ _)) by (unfold fs; simpl; lia).
    destruct (lookup_lt_is_Some_2 fs (length fs - 1)) as [g Hg]; [unfold fs; simpl; lia|].
    cbn [dp_files setFds]. rewrite Hg. split_and!; [done| |done|done|done].
    constructor; [done|done|exists g; by split_and!|exact Hi].
Qed.
End open_proofs.

(** * Examples *)

Definition exampleIndex : memKeys (gmap gostr gostr) :=
  MemKeys {[RefString (refOf (gs "a")) := metaString (recMeta 0 [] (recFor (gs "a")))]}.

(** A storage of one pack with one blob. *)
Definition exampleDP : dpStorage (memKeys (gmap gostr gostr)) :=
  (newStorage (fun _ => None) noPackFaults exampleIndex (packFiles [[recFor (gs "a")]]) 0).1.

Lemma exampleIndex_view k v : kv_view exampleIndex !! k = Some v <->
  k = RefString (refOf (gs "a")) /\ v = metaString (recMeta 0 [] (recFor (gs "a"))).
Proof.
  change (kv_view exampleIndex) with
    ({[RefString (refOf (gs "a")) := metaString (recMeta 0 [] (recFor (gs "a")))]} : gmap gostr gostr).
  rewrite lookup_singleton_Some. split; intros [H1 H2]; split; symmetry; assumption.
Qed.

Lemma exampleDP_opens : dpWf exampleDP /\ dp_index exampleDP = exampleIndex.
Proof.
  pose proof (newStorage_opens exampleIndex (packFiles [[recFor (gs "a")]]) 0) as H. unfold exampleDP.
  ospecialize* H.
  - intros k v [_ Hv]%exampleIndex_view. exists (recMeta 0 [] (recFor (gs "a"))), (gs "a").
    split; [exact Hv|]. split; [repeat split; apply (bool_decide_unpack _); vm_compute; exact I|vm_compute; reflexivity].
  - destruct (newStorage _ _ _ _ _) as [s r]. destruct H as (_ & H1 & H2 & _). split; [exact H1|exact H2].
Qed.

Definition exampleDP_wf : dpWf exampleDP := proj1 exampleDP_opens.
Definition exampleDP_index : dp_index exampleDP = exampleIndex := proj2 exampleDP_opens.

Lemma gmap_set_err (k v : gostr) (i i' : memKeys (gmap gostr gostr)) (e : error) : kv_set k v i = (Some e, i') -> kv_view i' = kv_view i.
Proof. cbn. intros E. discriminate E. Qed.

Lemma exampleDP_represents : represents exampleDP {[refOf (gs "a") := gs "a"]}.
Proof.
  constructor.
  - intros k v. rewrite exampleDP_index. intros [-> _]%exampleIndex_view. exists (refOf (gs "a")).
    split; [reflexivity|]. rewrite lookup_singleton_eq. eexists. reflexivity.
  - intros br d [<- <-]%lookup_singleton_Some. split; [exact (refOf_good (gs "a"))|vm_compute; reflexivity].
Qed.

Lemma dpReceive_safe_witness :
  let '(s', r) := dpReceiveBlob noFaults exampleDP (refOf (gs "bc")) (gs "bc", Ok tt) in
  dpWf s' /\ dpBlob s' (refOf (gs "a")) = dpBlob exampleDP (refOf (gs "a")) /\
  match r with Ok sb => sb = sized (refOf (gs "bc"), gs "bc") /\ dpBlob s' (refOf (gs "bc")) = Some (gs "bc") | _ => True end.
Proof.
  pose proof (dpReceive_safe gmap_set_err noFaults exampleDP (refOf (gs "bc")) (gs "bc", Ok tt) exampleDP_wf (refOf_good _)) as H.
  ospecialize* H; [reflexivity| |reflexivity..|].
  - intros d. vm_compute. discriminate.
  - destruct (dpReceiveBlob _ _ _ _) as [s' r]. destruct H as (H1 & H2 & H3).
    split; [apply H1; reflexivity|]. split.
    + apply H2; [exact (refOf_good _)|]. left. apply (bool_decide_unpack _). vm_compute. exact I.
    + destruct r; [|exact I..]. destruct H3 as (_ & H3). exact H3.
Defined.

Lemma Reindex_restores_witness :
  match Reindex (packFiles examplePacks) (MemKeys (∅ : gmap gostr gostr)) true with
  | (index', Ok _) =>
      forall br mx lk w sz, dpBlob (MkDP index' mx false (packFiles examplePacks) (length examplePacks) w lk sz) br =
        lastLive examplePacks (RefString br)
  | _ => False
  end.
Proof.
  pose proof (Reindex_restores examplePacks (MemKeys (∅ : gmap gostr gostr)) examplePacks_ok) as H.
  ospecialize* H; [reflexivity| |reflexivity|].
  - repeat constructor; apply (bool_decide_unpack _); vm_compute; exact I.
  - assert (is_ok (Reindex (packFiles examplePacks) (MemKeys (∅ : gmap gostr gostr)) true).2 = true) as Hok
      by (vm_compute; reflexivity).
    destruct (Reindex _ _ _) as [ix [[]|e|p|]]; [exact H|discriminate Hok|destruct H..].
Defined.

Lemma dp_reads_witness :
  dpFetch exampleDP (refOf (gs "a")) = Ok ((gs "a", Ok tt), 1) /\
  dpEnumerateBlobs exampleDP None [] 10 = sendAll None (enumSpec {[refOf (gs "a") := gs "a"]} [] 10).
Proof.
  pose proof (dp_reads (fun l => default ErrEOF (head l)) exampleDP {[refOf (gs "a") := gs "a"]} (refOf (gs "a")) 0 1
    [refOf (gs "a")] None [] 10 exampleDP_wf exampleDP_represents) as H.
  ospecialize* H.
  - intros k. rewrite exampleDP_index. exact (memGet_spec k exampleIndex).
  - exact (refOf_good _).
  - apply Forall_singleton. exact (refOf_good _).
  - apply (bool_decide_unpack _). vm_compute. exact I.
  - discriminate.
  - discriminate.
  - reflexivity.
  - rewrite exampleDP_index. reflexivity.
  - destruct H as (H1 & _ & _ & H4). rewrite lookup_singleton_eq in H1. split; [exact H1|exact H4].
Defined.

(** Removing a blob that is not there is an error, unlike in the other
    storages: [delete] returns what [meta] said. *)
Example remove_absent :
  (dpRemoveBlobs (fun l => default ErrEOF (head l)) (fun _ => noDeleteFaults) exampleDP [refOf (gs "bc")]).2 = Err ErrNotExist.
Proof. vm_compute. reflexivity. Qed.

(** When the next pack cannot be opened for reading after it was created, the
    upload fails but later ones write to the new pack and index the old one:
    the blob then reads as bytes that are not its own. *)
Example failed_next_pack :
  let small := MkDP (dp_index exampleDP) 60 false (dp_files exampleDP) 1 (dp_writer exampleDP) true (dp_size exampleDP) in
  let '(s1, r1) := dpReceiveBlob (MkIO None None None None None (MkPF None None None None None (Some ErrEOF)) None None)
                     small (refOf (gs "bc")) (gs "bc", Ok tt) in
  let '(s2, r2) := dpReceiveBlob noFaults s1 (refOf (gs "zyx")) (gs "zyx", Ok tt) in
  r1 = Err ErrEOF /\ r2 = Ok (sized (refOf (gs "zyx"), gs "zyx")) /\
  dpFetch s2 (refOf (gs "zyx")) = Ok ((gs "a[s", Ok tt), 3).
Proof. vm_compute. split_and!; reflexivity. Qed.

(** When the index refuses an entry whose append has just opened a new pack,
    undoing it "truncates" the new, empty pack to the old pack's length: the
    new pack then starts with zero bytes that no reader accepts. *)
Example undo_in_new_pack :
  let fresh := MkDP (dp_index exampleDP) 60 false (packFiles [[recFor (gs "a")]; []]) 2 (Some (MkWriter 1 0 true)) true 0 in
  let s := undoAppend noFaults fresh 50 in
  dp_files s !! 1%nat = Some (zeros 50) /\ is_ok (dpStreamBlobs (dp_files s) None []).2 = false.
Proof. vm_compute. split; reflexivity. Qed.

(** A pack that exists but cannot be opened hangs the storage's constructor. *)
Example unopenable_pack_blocks :
  (newStorage (fun _ => Some ErrEOF) noPackFaults exampleIndex (packFiles [[recFor (gs "a")]]) 0).2 = Blocked.
Proof. vm_compute. reflexivity. Qed.

(** Checking the index compares positions as text, so that a blob stored twice
    at offsets 49 and 150 is reported as a mismatch by an index that is right. *)
Example reindex_compares_text :
  let files := packFiles [[recFor (gs "a"); recFor (gs "bc"); recFor (gs "a")]] in
  let '(index, r) := Reindex files (MemKeys (∅ : gmap gostr gostr)) true in
  r = Ok tt /\ kv_get (RefString (refOf (gs "a"))) index = Ok (gs "0 150 1") /\
  (Reindex files index false).2 = Err (ErrMsg "index does not match data in %d").
Proof. vm_compute. split_and!; reflexivity. Qed.
