(* ===== verification/Times.v ===== *)
(** Times: pkg/types/types.go's [Time3339], and of Go's package time what the
    repository uses of it.

    A [time.Time] is its instant, in nanoseconds since the start of year 1;
    the zero time is 0.  Locations are dropped: they are only printed. *)

From S2P Require Import Prelude Strutil.

Abbreviation gotime := Z.

Definition nsPerSecond : Z := 10 ^ 9.
Definition secondsPerDay : Z := 86400.
Definition nsPerDay : Z := secondsPerDay * nsPerSecond.

(** Seconds between the start of year 1 and that of 1970. *)
Definition unixToInternal : Z := (1969 * 365 + 1969 / 4 - 1969 / 100 + 1969 / 400) * secondsPerDay.
Definition Unix (t : gotime) : Z := t / nsPerSecond - unixToInternal.

(** [Time3339.IsZero]: Go zero or Unix zero. *)
Definition time3339IsZero (t : gotime) : bool := (t =? 0) || (Unix t =? 0).

(** * The calendar *)

Definition daysBeforeYear (y : Z) : Z := (y - 1) * 365 + (y - 1) / 4 - (y - 1) / 100 + (y - 1) / 400.
Definition isLeap (y : Z) : bool := (y mod 4 =? 0) && (negb (y mod 100 =? 0) || (y mod 400 =? 0)).

Definition daysInMonths (leap : bool) : list Z := [31; if leap then 29 else 28; 31; 30; 31; 30; 31; 31; 30; 31; 30; 31].

(** The year of a day and the days before it in the year: [absDate]. *)
Definition yearOf (d : Z) : Z * Z :=
  let n400 := d / 146097 in
  let d := d - 146097 * n400 in
  let n100 := d / 36524 in
  let n100 := n100 - n100 / 4 in
  let d := d - 36524 * n100 in
  let n4 := d / 1461 in
  let d := d - 1461 * n4 in
  let n1 := d / 365 in
  let n1 := n1 - n1 / 4 in
  let d := d - 365 * n1 in
  (400 * n400 + 100 * n100 + 4 * n4 + n1 + 1, d).

(** The month and day of the month, from 1, of a day of the year. *)
Fixpoint monthOf (months : list Z) (m yday : Z) : Z * Z :=
  match months with
  | n :: months => if yday <? n then (m, yday + 1) else monthOf months (m + 1) (yday - n)
  | [] => (m, yday + 1)
  end.

Definition daysBeforeMonth (leap : bool) (m : Z) : Z := foldr Z.add 0 (take (Z.to_nat (m - 1)) (daysInMonths leap)).

(** * Printing: [RFC3339Nano] in UTC *)

Definition pad2 (z : Z) : gostr := [digitChar (z / 10); digitChar (z mod 10)].
Definition pad4 (z : Z) : gostr := pad2 (z / 100) ++ pad2 (z mod 100).

(** Years outside 0 to 9999 are not padded. *)
Definition formatYear (y : Z) : gostr := if (0 <=? y) && (y <? 10000) then pad4 y else itoa y.

Fixpoint fracDigits (n : nat) (ns : Z) : gostr :=
  match n with
  | O => []
  | S n => fracDigits n (ns / 10) ++ [digitChar (ns mod 10)]
  end.

(** The digits without the zeros at the end. *)
Fixpoint trimZeros (rs : gostr) : gostr :=
  match rs with
  | c :: rs' => if decide (c = "0"%char) then trimZeros rs' else rs
  | [] => []
  end.

Definition formatFrac (ns : Z) : gostr :=
  match trimZeros (rev (fracDigits 9 ns)) with [] => [] | rs => "."%char :: rev rs end.

Definition formatTime3339 (t : gotime) : gostr :=
  let day := t / nsPerDay in
  let secs := (t mod nsPerDay) / nsPerSecond in
  let '(y, yday) := yearOf day in
  let '(m, d) := monthOf (daysInMonths (isLeap y)) 1 yday in
  formatYear y ++ gs "-" ++ pad2 m ++ gs "-" ++ pad2 d ++ gs "T" ++
  pad2 (secs / 3600) ++ gs ":" ++ pad2 (secs / 60 mod 60) ++ gs ":" ++ pad2 (secs mod 60) ++
  formatFrac (t mod nsPerSecond) ++ gs "Z".

(** * Reading: [time.Parse(time.RFC3339, s)] *)

Definition timeDigit (c : ascii) : option Z := if (48 <=? bz c) && (bz c <=? 57) then Some (bz c - 48) else None.

Fixpoint getDigits (n : nat) (acc : Z) (s : gostr) : option (Z * gostr) :=
  match n with
  | O => Some (acc, s)
  | S n => match s with c :: s => d ← timeDigit c; getDigits n (acc * 10 + d) s | [] => None end
  end.

Definition expect (c : ascii) (s : gostr) : option gostr :=
  match s with x :: s => if decide (x = c) then Some s else None | [] => None end.

Definition between (lo hi z : Z) : option unit := if (lo <=? z) && (z <=? hi) then Some tt else None.

(** A fraction after the seconds: at most nine digits. *)
Fixpoint spanDigits (s : gostr) : list Z * gostr :=
  match s with
  | c :: s' => match timeDigit c with Some d => let '(ds, r) := spanDigits s' in (d :: ds, r) | None => ([], s) end
  | [] => ([], s)
  end.

Definition parseFrac (s : gostr) : option (Z * gostr) :=
  match s with
  | c :: s' =>
      if decide (c = "."%char) then
        match spanDigits s' with
        | ([], _) => Some (0, s)
        | (ds, r) => if (length ds <=? 9)%nat then Some (foldl (fun a d => a * 10 + d) 0 ds * 10 ^ (9 - Z.of_nat (length ds)), r) else None
        end
      else Some (0, s)
  | [] => Some (0, s)
  end.

(** The zone: the seconds east of UTC. *)
Definition parseZone (s : gostr) : option (Z * gostr) :=
  match s with
  | c :: s =>
      if decide (c = "Z"%char) then Some (0, s)
      else
        sign ← (if decide (c = "+"%char) then Some 1 else if decide (c = "-"%char) then Some (-1) else None);
        '(hr, s) ← getDigits 2 0 s;
        s ← expect ":"%char s;
        '(mi, s) ← getDigits 2 0 s;
        Some (sign * ((hr * 60 + mi) * 60), s)
  | [] => None
  end.

Definition ParseRFC3339 (s : gostr) : option gotime :=
  '(y, s) ← getDigits 4 0 s; s ← expect "-"%char s;
  '(m, s) ← getDigits 2 0 s; _ ← between 1 12 m; s ← expect "-"%char s;
  '(d, s) ← getDigits 2 0 s; s ← expect "T"%char s;
  '(h, s) ← getDigits 2 0 s; _ ← between 0 23 h; s ← expect ":"%char s;
  '(mi, s) ← getDigits 2 0 s; _ ← between 0 59 mi; s ← expect ":"%char s;
  '(sec, s) ← getDigits 2 0 s; _ ← between 0 59 sec;
  '(ns, s) ← parseFrac s;
  '(off, s) ← parseZone s;
  match s with
  | [] =>
      _ ← between 1 (default 0 (daysInMonths (isLeap y) !! Z.to_nat (m - 1))) d;
      let day := daysBeforeYear y + daysBeforeMonth (isLeap y) m + (d - 1) in
      Some ((day * secondsPerDay + h * 3600 + mi * 60 + sec - off) * nsPerSecond + ns)
  | _ => None
  end.

Definition ParseTime3339OrZero (v : gostr) : gotime := default 0 (ParseRFC3339 v).
Definition ParseTime3339OrNil (v : gostr) : option gotime := ParseRFC3339 v.

(** [UnmarshalJSON] of a string literal's contents, which are not unescaped. *)
Definition isPrefixB (p s : gostr) : bool := bool_decide (p `prefix_of` s).
Definition unmarshalTime (s : gostr) : option gotime :=
  if decide (s = []) then Some 0
  else
    match ParseRFC3339 s with
    | Some t => Some t
    | None => if isPrefixB (gs "0000-00-00T00:00:00") s then Some 0 else None
    end.

Example parse_example : ParseRFC3339 (gs "1970-01-01T00:02:03.5Z") = Some ((unixToInternal + 123) * nsPerSecond + 500000000).
Proof. vm_compute. reflexivity. Qed.
Example format_example : formatTime3339 ((unixToInternal + 1300000000) * nsPerSecond) = gs "2011-03-13T07:06:40Z".
Proof. vm_compute. reflexivity. Qed.
Example zone_example : ParseRFC3339 (gs "2011-03-13T09:06:40+02:00") = ParseRFC3339 (gs "2011-03-13T07:06:40Z").
Proof. vm_compute. reflexivity. Qed.

(** * Printed times read back *)

(** A quotient of at most 4, with 4 taken as 3. *)
Lemma quot4 r k : 0 < k -> 0 <= r <= 4 * k -> exists n, r / k - r / k / 4 = n /\ 0 <= n <= 3 /\ 0 <= r - k * n <= k /\ (n < 3 -> r - k * n < k).
Proof.
  intros Hk Hr. eexists. split; [done|]. pose proof (Z.div_mod r k ltac:(lia)) as Hd. pose proof (Z.mod_pos_bound r k Hk).
  assert (0 <= r / k <= 4) as Hq by (split; [apply Z.div_pos; lia|apply Z.div_le_upper_bound; lia]).
  assert (r / k = 0 \/ r / k = 1 \/ r / k = 2 \/ r / k = 3 \/ r / k = 4) as [E|[E|[E|[E|E]]]] by lia; rewrite E in *;
    [change (0 - 0 / 4) with 0|change (1 - 1 / 4) with 1|change (2 - 2 / 4) with 2|change (3 - 3 / 4) with 3|change (4 - 4 / 4) with 3]; lia.
Qed.

Definition yearDays (y : Z) : Z := if isLeap y then 366 else 365.

Lemma yearOf_spec d : 0 <= d -> let '(y, yday) := yearOf d in
  d = daysBeforeYear y + yday /\ 0 <= yday < yearDays y /\ 1 <= y /\ (d < daysBeforeYear 10000 -> y <= 9999).
Proof.
  intros Hd. unfold yearOf. pose proof (Z.div_mod d 146097 ltac:(lia)) as H1. pose proof (Z.mod_pos_bound d 146097 ltac:(lia)) as H2.
  assert (0 <= d / 146097) as Ha by (apply Z.div_pos; lia). set (a := d / 146097) in *. replace (d - 146097 * a) with (d mod 146097) by lia.
  set (r := d mod 146097) in *. destruct (quot4 r 36524) as (b & -> & Hb & Hrb & Hrb'); [lia|lia|]. set (r1 := r - 36524 * b) in *.
  pose proof (Z.div_mod r1 1461 ltac:(lia)) as H3. pose proof (Z.mod_pos_bound r1 1461 ltac:(lia)) as H4.
  assert (0 <= r1 / 1461 <= 24) as Hc by (split; [apply Z.div_pos; lia|apply Z.lt_succ_r, Z.div_lt_upper_bound; lia]).
  set (c := r1 / 1461) in *. replace (r1 - 1461 * c) with (r1 mod 1461) by lia. set (r2 := r1 mod 1461) in *.
  destruct (quot4 r2 365) as (e & -> & He & Hre & Hre'); [lia| |].
  { lia. }
  set (yday := r2 - 365 * e) in *. set (y := 400 * a + 100 * b + 4 * c + e + 1).
  assert (Hy : daysBeforeYear y = 146097 * a + 36524 * b + 1461 * c + 365 * e).
  { unfold daysBeforeYear. replace (y - 1) with (400 * a + 100 * b + 4 * c + e) by (unfold y; lia).
    replace ((400 * a + 100 * b + 4 * c + e) / 4) with (100 * a + 25 * b + c) by (apply Z.div_unique with e; lia).
    replace ((400 * a + 100 * b + 4 * c + e) / 100) with (4 * a + b) by (apply Z.div_unique with (4 * c + e); lia).
    replace ((400 * a + 100 * b + 4 * c + e) / 400) with a by (apply Z.div_unique with (100 * b + 4 * c + e); lia). lia. }
  assert (Hl : yday = 365 -> isLeap y = true).
  { intros Hd'. assert (e = 3) as -> by lia. unfold isLeap.
    replace (y mod 4) with 0 by (apply Z.mod_unique with (100 * a + 25 * b + c + 1); unfold y; lia). cbn [Z.eqb andb].
    destruct (decide (c = 24)) as [->|Hn].
    - assert (b = 3) as -> by lia. replace (y mod 400) with 0 by (apply Z.mod_unique with (a + 1); unfold y; lia). by rewrite orb_true_r.
    - replace (y mod 100) with (4 * c + 4) by (apply Z.mod_unique with (4 * a + b); unfold y; lia).
      destruct (Z.eqb_spec (4 * c + 4) 0); [lia|done]. }
  split; [lia|]. split; [|split; [unfold y; lia|]].
  - unfold yearDays. destruct (isLeap y) eqn:E; [lia|]. enough (yday ≠ 365) by lia. intros Hn. specialize (Hl Hn). congruence.
  - intros Hlt. destruct (Z.le_gt_cases y 9999) as [|Hgt]; [done|]. exfalso.
    assert (daysBeforeYear 10000 = 3651694 + 365) as H10 by (vm_compute; reflexivity). unfold y in *. lia.
Qed.

Lemma monthOf_spec months m yday : 0 <= yday < foldr Z.add 0 months -> Forall (fun n => 0 < n) months ->
  let '(m', d) := monthOf months m yday in
  exists i, m' = m + Z.of_nat i /\ 1 <= d <= default 0 (months !! i) /\ (i < length months)%nat /\ yday = foldr Z.add 0 (take i months) + (d - 1).
Proof.
  revert m yday. induction months as [|n months IH]; intros m yday Hy Hp; cbn [foldr monthOf] in *; [lia|].
  apply Forall_cons in Hp as [Hn Hp]. destruct (Z.ltb_spec yday n) as [Hlt|Hge].
  - exists 0%nat. cbn [take foldr default]. split_and!; simpl; lia.
  - specialize (IH (m + 1) (yday - n) ltac:(lia) Hp). destruct (monthOf months (m + 1) (yday - n)) as [m' d].
    destruct IH as (i & -> & Hd & Hi & Hy'). exists (S i). cbn [take foldr length]. split_and!; [lia|simpl; lia|simpl; lia|lia|lia].
Qed.

Lemma digitVal_char z : 0 <= z < 10 -> timeDigit (digitChar z) = Some z.
Proof.
  intros Hz. unfold timeDigit. rewrite (proj1 (digitChar_spec z Hz)).
  destruct (Z.leb_spec 48 (48 + z)), (Z.leb_spec (48 + z) 57); try lia. cbn [andb]. f_equal. lia.
Qed.

Lemma getDigits_pad2 n acc z s : 0 <= z < 100 -> getDigits (S (S n)) acc (pad2 z ++ s) = getDigits n (acc * 100 + z) s.
Proof.
  intros Hz. unfold pad2. cbn [app getDigits]. pose proof (Z.mod_pos_bound z 10 ltac:(lia)). pose proof (Z.div_mod z 10 ltac:(lia)).
  assert (0 <= z / 10 < 10) by (split; [apply Z.div_pos; lia|apply Z.div_lt_upper_bound; lia]).
  rewrite digitVal_char by lia. cbn [mbind option_bind]. rewrite digitVal_char by lia. cbn [mbind option_bind]. f_equal. lia.
Qed.

Lemma getDigits_pad4 z s : 0 <= z < 10000 -> getDigits 4 0 (pad4 z ++ s) = Some (z, s).
Proof.
  intros Hz. unfold pad4. rewrite <- app_assoc. pose proof (Z.mod_pos_bound z 100 ltac:(lia)). pose proof (Z.div_mod z 100 ltac:(lia)).
  assert (0 <= z / 100 < 100) by (split; [apply Z.div_pos; lia|apply Z.div_lt_upper_bound; lia]).
  rewrite !getDigits_pad2 by lia. cbn [getDigits]. do 2 f_equal. lia.
Qed.

Lemma fracDigits_digits n ns : 0 <= ns -> Forall (fun c => exists z, c = digitChar z /\ 0 <= z < 10) (fracDigits n ns).
Proof.
  revert ns. induction n as [|n IH]; intros ns Hn; cbn [fracDigits]; [constructor|]. apply Forall_app. split; [apply IH, Z.div_pos; lia|].
  apply Forall_singleton. exists (ns mod 10). split; [done|]. apply Z.mod_pos_bound. lia.
Qed.

Definition digitsOf (s : gostr) : Z := foldl (fun a c => a * 10 + (bz c - 48)) 0 s.

Lemma digitsOf_snoc s c : digitsOf (s ++ [c]) = digitsOf s * 10 + (bz c - 48).
Proof. unfold digitsOf. by rewrite foldl_app. Qed.

Lemma digitsOf_frac n ns : 0 <= ns < 10 ^ Z.of_nat n -> digitsOf (fracDigits n ns) = ns.
Proof.
  revert ns. induction n as [|n IH]; intros ns Hn; cbn [fracDigits]; [change (10 ^ Z.of_nat 0) with 1 in Hn; change (digitsOf []) with 0; lia|].
  rewrite digitsOf_snoc. rewrite Nat2Z.inj_succ, Z.pow_succ_r in Hn by lia. pose proof (Z.mod_pos_bound ns 10 ltac:(lia)). pose proof (Z.div_mod ns 10 ltac:(lia)).
  rewrite IH by (split; [apply Z.div_pos; lia|apply Z.div_lt_upper_bound; lia]). rewrite (proj1 (digitChar_spec (ns mod 10) ltac:(lia))). lia.
Qed.

Lemma length_fracDigits n ns : length (fracDigits n ns) = n.
Proof. revert ns. induction n as [|n IH]; intros ns; cbn [fracDigits]; [done|]. rewrite length_app, IH. simpl. lia. Qed.

Lemma rev_replicate {A} k (x : A) : rev (replicate k x) = replicate k x.
Proof. induction k as [|k IH]; [done|]. cbn [replicate rev]. rewrite IH. symmetry. apply replicate_S_end. Qed.

Lemma trimZeros_spec rs : exists k, rs = replicate k "0"%char ++ trimZeros rs.
Proof.
  induction rs as [|c rs [k IH]]; cbn [trimZeros]; [by exists 0%nat|]. destruct (decide (c = "0"%char)) as [->|]; [|by exists 0%nat].
  exists (S k). cbn [replicate app]. by f_equal.
Qed.

Lemma digitsOf_zeros s k : digitsOf (s ++ replicate k "0"%char) = digitsOf s * 10 ^ Z.of_nat k.
Proof.
  induction k as [|k IH]; [rewrite app_nil_r; change (10 ^ Z.of_nat 0) with 1; lia|].
  rewrite replicate_S_end, app_assoc, digitsOf_snoc, IH, Nat2Z.inj_succ, Z.pow_succ_r by lia. change (bz "0"%char) with 48. lia.
Qed.

Lemma spanTimeDigits_app s r : Forall (fun c => exists z, c = digitChar z /\ 0 <= z < 10) s ->
  match r with [] => True | c :: _ => timeDigit c = None end ->
  spanDigits (s ++ r) = (map (fun c => bz c - 48) s, r).
Proof.
  intros Hs Hr. induction Hs as [|c s (z & -> & Hz) Hs IH]; cbn [app map].
  { destruct r as [|c r]; cbn [spanDigits]; [done|]. by rewrite Hr. }
  cbn [spanDigits]. rewrite digitVal_char by done. rewrite IH. rewrite (proj1 (digitChar_spec z Hz)). do 2 f_equal. lia.
Qed.

Lemma parseFrac_format ns s : 0 <= ns < 10 ^ 9 -> parseFrac (formatFrac ns ++ "Z"%char :: s) = Some (ns, "Z"%char :: s).
Proof.
  intros Hns. unfold formatFrac. destruct (trimZeros_spec (rev (fracDigits 9 ns))) as [k Hk].
  set (ts := trimZeros (rev (fracDigits 9 ns))) in *.
  assert (fracDigits 9 ns = rev ts ++ replicate k "0"%char) as Hf.
  { rewrite <- (rev_involutive (fracDigits 9 ns)), Hk, rev_app_distr, rev_replicate. reflexivity. }
  assert (ns = digitsOf (rev ts) * 10 ^ Z.of_nat k) as Hv by (rewrite <- digitsOf_zeros, <- Hf; symmetry; by apply digitsOf_frac).
  assert (length ts + k = 9)%nat as Hl.
  { pose proof (length_fracDigits 9 ns) as H9. rewrite Hf, length_app, length_rev, length_replicate in H9. done. }
  pose proof (fracDigits_digits 9 ns ltac:(lia)) as Hd. rewrite Hf in Hd. apply Forall_app in Hd as [Hd _].
  destruct ts as [|t ts].
  { cbn [app parseFrac]. rewrite decide_False by done. change (digitsOf (rev [])) with 0 in Hv. do 2 f_equal. lia. }
  cbn [app parseFrac]. rewrite decide_True by done. rewrite spanTimeDigits_app by done.
  assert (Hfold : foldl (fun a d => a * 10 + d) 0 (map (fun c => bz c - 48) (rev (t :: ts))) = digitsOf (rev (t :: ts))).
  { unfold digitsOf. generalize 0. generalize (rev (t :: ts)). clear. intros l. induction l as [|c l IH]; intros a; [done|]. cbn [map foldl]. apply IH. }
  destruct (map (fun c => bz c - 48) (rev (t :: ts))) as [|x xs] eqn:E.
  { apply (f_equal length) in E. rewrite length_map, length_rev in E. simpl in E. lia. }
  assert (length (x :: xs) = length (t :: ts)) as Hlx by (rewrite <- E, length_map, length_rev; done).
  rewrite Hlx, Hfold. rewrite (proj2 (Nat.leb_le _ _)) by lia.
  do 2 f_equal. rewrite Hv. do 2 f_equal. lia.
Qed.

Lemma expect_cons c s : expect c (c :: s) = Some s.
Proof. unfold expect. by rewrite decide_True. Qed.

Lemma between_ok lo hi z : lo <= z <= hi -> between lo hi z = Some tt.
Proof. intros Hz. unfold between. by rewrite (proj2 (Z.leb_le _ _)), (proj2 (Z.leb_le _ _)) by lia. Qed.

(** The years that are printed with four digits. *)
Definition printable (t : gotime) : Prop := 0 <= t < daysBeforeYear 10000 * nsPerDay.

Lemma sum_daysInMonths leap : foldr Z.add 0 (daysInMonths leap) = if leap then 366 else 365.
Proof. by destruct leap. Qed.

Lemma getDigits2 z s : 0 <= z < 100 -> getDigits 2 0 (pad2 z ++ s) = Some (z, s).
Proof. intros Hz. rewrite getDigits_pad2 by done. cbn [getDigits]. by do 2 f_equal. Qed.

(** [ParseRFC3339] of the parts as they are printed. *)
Lemma ParseRFC3339_parts y m d h mi sec ns i : 0 <= y < 10000 -> m = 1 + Z.of_nat i -> (i < 12)%nat ->
  1 <= d <= default 0 (daysInMonths (isLeap y) !! i) -> 0 <= h < 24 -> 0 <= mi < 60 -> 0 <= sec < 60 -> 0 <= ns < 10 ^ 9 ->
  ParseRFC3339 (formatYear y ++ gs "-" ++ pad2 m ++ gs "-" ++ pad2 d ++ gs "T" ++
    pad2 h ++ gs ":" ++ pad2 mi ++ gs ":" ++ pad2 sec ++ formatFrac ns ++ gs "Z") =
  Some (((daysBeforeYear y + foldr Z.add 0 (take i (daysInMonths (isLeap y))) + (d - 1)) * secondsPerDay + h * 3600 + mi * 60 + sec) * nsPerSecond + ns).
Proof.
  intros Hy -> Hi Hd Hh Hmi Hsec Hns. unfold ParseRFC3339, formatYear.
  rewrite (proj2 (Z.leb_le 0 y)), (proj2 (Z.ltb_lt y 10000)) by lia. cbn [andb].
  assert (default 0 (daysInMonths (isLeap y) !! i) <= 31) as Hd31.
  { do 12 (destruct i as [|i]; [by destruct (isLeap y)|]). lia. }
  rewrite getDigits_pad4 by done. cbn [mbind option_bind].
  do 4 (change (gs "-" ++ ?t) with ("-"%char :: t)).
  change (gs "T" ++ ?t) with ("T"%char :: t). do 2 (change (gs ":" ++ ?t) with (":"%char :: t)).
  rewrite expect_cons. cbn [mbind option_bind]. rewrite getDigits2 by lia. cbn [mbind option_bind]. rewrite (between_ok 1 12 (1 + Z.of_nat i)) by lia. cbn [mbind option_bind].
  rewrite expect_cons. cbn [mbind option_bind]. rewrite getDigits2 by lia. cbn [mbind option_bind].
  rewrite expect_cons. cbn [mbind option_bind]. rewrite getDigits2 by lia. cbn [mbind option_bind]. rewrite (between_ok 0 23 h) by lia. cbn [mbind option_bind].
  rewrite expect_cons. cbn [mbind option_bind]. rewrite getDigits2 by lia. cbn [mbind option_bind]. rewrite (between_ok 0 59 mi) by lia. cbn [mbind option_bind].
  rewrite expect_cons. cbn [mbind option_bind]. rewrite getDigits2 by lia. cbn [mbind option_bind]. rewrite (between_ok 0 59 sec) by lia. cbn [mbind option_bind].
  change (gs "Z") with ["Z"%char]. rewrite parseFrac_format by done. cbn [mbind option_bind parseZone]. rewrite decide_True by done. cbn [mbind option_bind].
  replace (Z.to_nat (1 + Z.of_nat i - 1)) with i by lia. rewrite between_ok by lia. cbn [mbind option_bind].
  unfold daysBeforeMonth. replace (Z.to_nat (1 + Z.of_nat i - 1)) with i by lia. do 2 f_equal. lia.
Qed.

(** A printed time reads back as the same instant. *)
Lemma ParseRFC3339_format t : printable t -> ParseRFC3339 (formatTime3339 t) = Some t.
Proof.
  intros [Ht0 Ht]. unfold formatTime3339. set (day := t / nsPerDay).
  assert (nsPerDay = 86400000000000) as Hn by (vm_compute; reflexivity).
  pose proof (Z.div_mod t nsPerDay ltac:(lia)) as Hdm. pose proof (Z.mod_pos_bound t nsPerDay ltac:(lia)) as Hmb.
  assert (0 <= day) as Hd0 by (apply Z.div_pos; lia).
  assert (day < daysBeforeYear 10000) as Hdl by (apply Z.div_lt_upper_bound; lia).
  pose proof (yearOf_spec day Hd0) as Hy. destruct (yearOf day) as [y yday]. destruct Hy as (Hday & Hyd & Hy1 & Hy9).
  pose proof (monthOf_spec (daysInMonths (isLeap y)) 1 yday) as Hm. rewrite sum_daysInMonths in Hm.
  destruct (monthOf (daysInMonths (isLeap y)) 1 yday) as [m d].
  destruct Hm as (i & Hm & Hd & Hi & Hyday); [exact Hyd|by destruct (isLeap y); repeat constructor|].
  set (rest := t mod nsPerDay) in *. assert (nsPerSecond = 1000000000) as Hns by (vm_compute; reflexivity).
  assert (t mod nsPerSecond = rest mod nsPerSecond) as ->.
  { rewrite Hdm, Hn, Hns. replace (86400000000000 * (t / 86400000000000)) with (86400 * (t / 86400000000000) * 1000000000) by lia.
    rewrite Z.add_comm, Z.mod_add by lia. done. }
  pose proof (Z.div_mod rest nsPerSecond ltac:(lia)) as Hr. pose proof (Z.mod_pos_bound rest nsPerSecond ltac:(lia)) as Hrb.
  assert (0 <= rest / nsPerSecond < 86400) as Hs by (split; [apply Z.div_pos; lia|apply Z.div_lt_upper_bound; lia]).
  set (secs := rest / nsPerSecond) in *.
  pose proof (Z.div_mod secs 3600 ltac:(lia)) as H1. pose proof (Z.mod_pos_bound secs 3600 ltac:(lia)) as H2.
  pose proof (Z.div_mod secs 60 ltac:(lia)) as H3. pose proof (Z.mod_pos_bound secs 60 ltac:(lia)) as H4.
  pose proof (Z.div_mod (secs / 60) 60 ltac:(lia)) as H5. pose proof (Z.mod_pos_bound (secs / 60) 60 ltac:(lia)) as H6.
  assert (secs / 60 / 60 = secs / 3600) as H7 by (rewrite Z.div_div by lia; done).
  assert (0 <= secs / 3600 < 24) as H8 by (split; [apply Z.div_pos; lia|apply Z.div_lt_upper_bound; lia]).
  rewrite (ParseRFC3339_parts y m d _ _ _ _ i); [|specialize (Hy9 Hdl); lia|done|by destruct (isLeap y)|done|lia|lia|lia|lia].
  f_equal. unfold secondsPerDay. rewrite Hyday in Hday. lia.
Qed.

(** What is printed: digits and punctuation, of the length a time has. *)
Definition timeChar (c : ascii) : Prop := isDigit c \/ c ∈ gs "-:TZ.".

Lemma digitChar_timeChar z : 0 <= z < 10 -> timeChar (digitChar z).
Proof. intros Hz. left. unfold isDigit. rewrite (proj1 (digitChar_spec z Hz)). lia. Qed.

Lemma pad2_timeChar z : 0 <= z < 100 -> Forall timeChar (pad2 z).
Proof.
  intros Hz. apply Forall_cons; split; [|apply Forall_singleton]; apply digitChar_timeChar; [|apply Z.mod_pos_bound; lia].
  split; [apply Z.div_pos; lia|apply Z.div_lt_upper_bound; lia].
Qed.

Lemma formatFrac_timeChar ns : 0 <= ns -> Forall timeChar (formatFrac ns).
Proof.
  intros Hns. unfold formatFrac. destruct (trimZeros_spec (rev (fracDigits 9 ns))) as [k Hk].
  assert (Forall timeChar (trimZeros (rev (fracDigits 9 ns)))) as Hf.
  { assert (Forall timeChar (rev (fracDigits 9 ns))) as Hr.
    { apply Forall_rev. eapply Forall_impl; [by apply fracDigits_digits|]. intros c (z & -> & Hz). by apply digitChar_timeChar. }
    rewrite Hk in Hr. by apply Forall_app in Hr as [_ Hr]. }
  destruct (trimZeros _) as [|c l]; [constructor|]. constructor; [right; set_solver|]. by apply Forall_rev.
Qed.

(** The shape that [keyType.build] looks for. *)
Lemma formatTime3339_shape t : printable t ->
  Forall timeChar (formatTime3339 t) /\ (19 <= length (formatTime3339 t))%nat /\ formatTime3339 t !! 4%nat = Some "-"%char.
Proof.
  intros [Ht0 Ht]. unfold formatTime3339. set (day := t / nsPerDay).
  assert (nsPerDay = 86400000000000) as Hn by (vm_compute; reflexivity).
  assert (nsPerSecond = 1000000000) as Hns by (vm_compute; reflexivity).
  pose proof (Z.mod_pos_bound t nsPerDay ltac:(lia)) as Hmb.
  assert (0 <= day) as Hd0 by (apply Z.div_pos; lia).
  assert (day < daysBeforeYear 10000) as Hdl by (apply Z.div_lt_upper_bound; lia).
  pose proof (yearOf_spec day Hd0) as Hy. destruct (yearOf day) as [y yday]. destruct Hy as (Hday & Hyd & Hy1 & Hy9). specialize (Hy9 Hdl).
  pose proof (monthOf_spec (daysInMonths (isLeap y)) 1 yday) as Hm. rewrite sum_daysInMonths in Hm.
  destruct (monthOf (daysInMonths (isLeap y)) 1 yday) as [m d].
  destruct Hm as (i & Hm & Hd & Hi & _); [exact Hyd|by destruct (isLeap y); repeat constructor|].
  set (rest := t mod nsPerDay) in *.
  assert (0 <= rest / nsPerSecond < 86400) as Hs by (split; [apply Z.div_pos; lia|apply Z.div_lt_upper_bound; lia]).
  set (secs := rest / nsPerSecond) in *.
  pose proof (Z.mod_pos_bound secs 60 ltac:(lia)). pose proof (Z.mod_pos_bound (secs / 60) 60 ltac:(lia)).
  assert (0 <= secs / 3600 < 24) by (split; [apply Z.div_pos; lia|apply Z.div_lt_upper_bound; lia]).
  pose proof (Z.mod_pos_bound t nsPerSecond ltac:(lia)).
  assert (i < 12)%nat as Hi12 by (by destruct (isLeap y)).
  assert (default 0 (daysInMonths (isLeap y) !! i) <= 31) as Hd31.
  { do 12 (destruct i as [|i]; [by destruct (isLeap y)|]). lia. }
  unfold formatYear. rewrite (proj2 (Z.leb_le 0 y)), (proj2 (Z.ltb_lt y 10000)) by lia. cbn [andb].
  assert (0 <= y / 100 < 100) as Hyc by (split; [apply Z.div_pos; lia|apply Z.div_lt_upper_bound; lia]).
  split_and!.
  - assert (forall s, (forall c, c ∈ gs s -> c ∈ gs "-:TZ.") -> Forall timeChar (gs s)) as Hlit.
    { intros s Hc. apply Forall_forall. intros c Hin. right. by apply Hc. }
    unfold pad4. repeat (apply Forall_app; split); try (apply pad2_timeChar; lia); try (apply formatFrac_timeChar; lia); try (apply Hlit; set_solver).
    apply pad2_timeChar. apply Z.mod_pos_bound. lia.
  - rewrite !length_app. unfold pad4, pad2. rewrite length_app. cbn [length gs list_ascii_of_string]. lia.
  - done.
Qed.

(** A time prints to RFC 3339 text that reads back as the same instant, to
    the nanosecond, for every year from 1 to 9999. *)
Theorem Time3339_roundtrip (t : gotime) (Ht : printable t) :
  ParseTime3339OrNil (formatTime3339 t) = Some t /\ ParseTime3339OrZero (formatTime3339 t) = t.
Proof. unfold ParseTime3339OrNil, ParseTime3339OrZero. by rewrite ParseRFC3339_format. Qed.

(** The end of a leap day, with a fraction of a second. *)
Lemma Time3339_roundtrip_witness :
  let t := (daysBeforeYear 2012 + 60) * nsPerDay - 1 in
  formatTime3339 t = gs "2012-02-29T23:59:59.999999999Z" /\
  ParseTime3339OrNil (formatTime3339 t) = Some t /\ ParseTime3339OrZero (formatTime3339 t) = t.
Proof. split; [vm_compute; reflexivity|]. apply Time3339_roundtrip. unfold printable. split; [vm_compute; discriminate|vm_compute; reflexivity]. Defined.
