(* ===== verification/Json.v ===== *)
(** What the schema code uses of Go's unicode/utf8 and encoding/json:
    decoding runes, [MarshalIndent] of maps, and reading one value.

    A string literal is kept as it is written ([JStr] holds the bytes between
    the quotes), as the decoder does until a field asks for its contents. *)

From S2P Require Import Prelude Ref Strutil.

(** * UTF-8 *)

Definition inByte (lo hi : Z) (c : ascii) : bool := (lo <=? bz c) && (bz c <=? hi).

(** The size [utf8.DecodeRuneInString] reports for the first rune; [None] is
    an invalid encoding, which it reports as [RuneError] of size 1. *)
Definition runeSize (s : gostr) : option nat :=
  match s with
  | [] => None
  | c :: s =>
      if bz c <? 128 then Some 1%nat
      else if inByte 194 223 c then
        match s with
        | d :: _ => if inByte 128 191 d then Some 2%nat else None
        | _ => None
        end
      else if inByte 224 239 c then
        match s with
        | d :: e :: _ =>
            if inByte (if bz c =? 224 then 160 else 128) (if bz c =? 237 then 159 else 191) d && inByte 128 191 e
            then Some 3%nat else None
        | _ => None
        end
      else if inByte 240 244 c then
        match s with
        | d :: e :: f :: _ =>
            if inByte (if bz c =? 240 then 144 else 128) (if bz c =? 244 then 143 else 191) d &&
               inByte 128 191 e && inByte 128 191 f
            then Some 4%nat else None
        | _ => None
        end
      else None
  end.

(** The bytes of a rune ([utf8.EncodeRune]), surrogates replaced. *)
Definition runeError : gostr := [zb 239; zb 191; zb 189].
Definition encodeRune (r : Z) : gostr :=
  if r <? 128 then [zb r]
  else if r <? 2048 then [zb (192 + r / 64); zb (128 + r mod 64)]
  else if (55296 <=? r) && (r <=? 57343) || (1114111 <? r) then runeError
  else if r <? 65536 then [zb (224 + r / 4096); zb (128 + (r / 64) mod 64); zb (128 + r mod 64)]
  else [zb (240 + r / 262144); zb (128 + (r / 4096) mod 64); zb (128 + (r / 64) mod 64); zb (128 + r mod 64)].

Fixpoint validLoop (fuel : nat) (s : gostr) : bool :=
  match fuel with
  | O => bool_decide (s = [])
  | S fuel =>
      match s with
      | [] => true
      | _ => match runeSize s with Some n => validLoop fuel (drop n s) | None => false end
      end
  end.

(** [utf8.ValidString] *)
Definition ValidString (s : gostr) : bool := validLoop (length s) s.

(** * Writing *)

(** The values the schema code marshals. *)
Inductive goval :=
| VStr (s : gostr)
| VInt (z : Z)
| VBool (b : bool)
| VNull                              (* a nil slice or pointer *)
| VArr (l : list goval)
| VMap (l : list (gostr * goval)).   (* a map's pairs, in key order *)

Definition backslash : ascii := "092"%char.

(** [escapeByte]: an ASCII byte inside a string literal. *)
Definition escapeByte (c : ascii) : gostr :=
  if bool_decide (c = backslash) || bool_decide (c = dquote) then [backslash; c]
  else if bz c =? 10 then [backslash; "n"%char]
  else if bz c =? 13 then [backslash; "r"%char]
  else if (bz c <? 32) || bool_decide (c = "<"%char) || bool_decide (c = ">"%char) || bool_decide (c = "&"%char)
  then backslash :: gs "u00" ++ hexByte c
  else [c].

(** U+2028 and U+2029, which are escaped, by their last byte. *)
Definition lineSep (s : gostr) : option ascii :=
  match s with
  | [a; b; c] =>
      if decide (a = zb 226 /\ b = zb 128 /\ c = zb 168) then Some "8"%char
      else if decide (a = zb 226 /\ b = zb 128 /\ c = zb 169) then Some "9"%char else None
  | _ => None
  end.

Fixpoint escapeLoop (fuel : nat) (s : gostr) : gostr :=
  match fuel with
  | O => []
  | S fuel =>
      match s with
      | [] => []
      | c :: s' =>
          if bz c <? 128 then escapeByte c ++ escapeLoop fuel s'
          else
            match runeSize s with
            | None => backslash :: gs "ufffd" ++ escapeLoop fuel s'
            | Some n =>
                match lineSep (take n s) with
                | Some x => backslash :: gs "u202" ++ [x] ++ escapeLoop fuel (drop n s)
                | None => take n s ++ escapeLoop fuel (drop n s)
                end
            end
      end
  end.

Definition escape (s : gostr) : gostr := escapeLoop (length s) s.

Definition quoted (raw : gostr) : gostr := dquote :: raw ++ [dquote].

Definition newline (depth : nat) : gostr := "010"%char :: replicate (2 * depth) " "%char.

(** [MarshalIndent(v, "", "  ")], [v] nested [depth] deep. *)
Fixpoint render (depth : nat) (v : goval) : gostr :=
  match v with
  | VStr s => quoted (escape s)
  | VInt z => itoa z
  | VBool b => if b then gs "true" else gs "false"
  | VNull => gs "null"
  | VArr [] => gs "[]"
  | VArr (x :: l) =>
      gs "[" ++ newline (S depth) ++ render (S depth) x ++
      flat_map (fun y => gs "," ++ newline (S depth) ++ render (S depth) y) l ++ newline depth ++ gs "]"
  | VMap [] => gs "{}"
  | VMap ((k, x) :: l) =>
      gs "{" ++ newline (S depth) ++ (quoted (escape k) ++ gs ": " ++ render (S depth) x) ++
      flat_map (fun p => gs "," ++ newline (S depth) ++ quoted (escape p.1) ++ gs ": " ++ render (S depth) p.2) l ++
      newline depth ++ gs "}"
  end.

(** * Reading *)

Inductive json :=
| JNull
| JBool (b : bool)
| JNum (lit : gostr)
| JStr (raw : gostr)
| JArr (l : list json)
| JObj (l : list (gostr * json)).    (* keys as written, in order *)

Definition isJSpace (c : ascii) : bool := (bz c =? 32) || (bz c =? 9) || (bz c =? 10) || (bz c =? 13).

Fixpoint skipWs (s : gostr) : gostr :=
  match s with
  | c :: s' => if isJSpace c then skipWs s' else s
  | [] => []
  end.

Definition hexNibble (c : ascii) : option Z :=
  if inByte 48 57 c then Some (bz c - 48)
  else if inByte 97 102 c then Some (bz c - 87)
  else if inByte 65 70 c then Some (bz c - 55)
  else None.

(** Four hexadecimal digits. *)
Definition getu4 (s : gostr) : option Z :=
  match s with
  | a :: b :: c :: d :: _ =>
      a ← hexNibble a; b ← hexNibble b; c ← hexNibble c; d ← hexNibble d;
      Some (((a * 16 + b) * 16 + c) * 16 + d)
  | _ => None
  end.

Definition simpleEscape (c : ascii) : option ascii :=
  if decide (c = dquote \/ c = backslash \/ c = "/"%char) then Some c
  else if decide (c = "b"%char) then Some (zb 8)
  else if decide (c = "f"%char) then Some (zb 12)
  else if decide (c = "n"%char) then Some (zb 10)
  else if decide (c = "r"%char) then Some (zb 13)
  else if decide (c = "t"%char) then Some (zb 9)
  else None.

(** The scanner inside a literal: what it holds, and what follows its closing
    quote. *)
Fixpoint scanString (s : gostr) : option (gostr * gostr) :=
  match s with
  | [] => None
  | c :: s' =>
      if decide (c = dquote) then Some ([], s')
      else if bz c <? 32 then None
      else if decide (c = backslash) then
        match s' with
        | e :: s'' =>
            if bool_decide (is_Some (simpleEscape e)) || (bool_decide (e = "u"%char) && bool_decide (is_Some (getu4 s'')))
            then '(raw, r) ← scanString s''; Some (c :: e :: raw, r)
            else None
        | [] => None
        end
      else '(raw, r) ← scanString s'; Some (c :: raw, r)
  end.

Definition isSurrogate (r : Z) : bool := (55296 <=? r) && (r <=? 57343).

(** [unquote] of a literal the scanner has accepted: the bytes it stands for;
    invalid UTF-8 is replaced. *)
Fixpoint unquoteLoop (fuel : nat) (s : gostr) : gostr :=
  match fuel with
  | O => []
  | S fuel =>
      match s with
      | [] => []
      | c :: s' =>
          if decide (c = backslash) then
            match s' with
            | [] => []
            | e :: s'' =>
                match simpleEscape e with
                | Some x => x :: unquoteLoop fuel s''
                | None =>
                    let r := default 0 (getu4 s'') in
                    let rest := drop 4 s'' in
                    if isSurrogate r then
                      match rest with
                      | b :: u :: rest' =>
                          let r2 := default 0 (getu4 rest') in
                          if bool_decide (b = backslash /\ u = "u"%char) && (r <=? 56319) &&
                             (56320 <=? r2) && (r2 <=? 57343)
                          then encodeRune ((r - 55296) * 1024 + (r2 - 56320) + 65536) ++ unquoteLoop fuel (drop 4 rest')
                          else runeError ++ unquoteLoop fuel rest
                      | _ => runeError ++ unquoteLoop fuel rest
                      end
                    else encodeRune r ++ unquoteLoop fuel rest
                end
            end
          else if bz c <? 128 then c :: unquoteLoop fuel s'
          else
            match runeSize s with
            | None => runeError ++ unquoteLoop fuel s'
            | Some n => take n s ++ unquoteLoop fuel (drop n s)
            end
      end
  end.

Definition unquote (raw : gostr) : gostr := unquoteLoop (length raw) raw.

Definition isDigitB (c : ascii) : bool := inByte 48 57 c.

Fixpoint spanD (s : gostr) : gostr * gostr :=
  match s with
  | c :: s' => if isDigitB c then let '(a, r) := spanD s' in (c :: a, r) else ([], s)
  | [] => ([], [])
  end.

(** A number literal. *)
Definition scanNum (s : gostr) : option (gostr * gostr) :=
  let '(sign, s) := match s with c :: s' => if decide (c = "-"%char) then ([c], s') else ([], s) | [] => ([], s) end in
  '(int, s) ← match s with
    | c :: s' => if decide (c = "0"%char) then Some ([c], s') else if isDigitB c then Some (spanD s) else None
    | [] => None
    end;
  '(frac, s) ← match s with
    | c :: s' => if decide (c = "."%char) then let '(f, r) := spanD s' in
                   match f with [] => None | _ => Some (c :: f, r) end else Some ([], s)
    | [] => Some ([], [])
    end;
  '(exp, s) ← match s with
    | c :: s' =>
        if decide (c = "e"%char \/ c = "E"%char) then
          let '(sg, s') := match s' with x :: t => if decide (x = "+"%char \/ x = "-"%char) then ([x], t) else ([], s') | [] => ([], s') end in
          let '(f, r) := spanD s' in
          match f with [] => None | _ => Some (c :: sg ++ f, r) end
        else Some ([], s)
    | [] => Some ([], [])
    end;
  Some (sign ++ int ++ frac ++ exp, s).

Definition stripPrefix (p s : gostr) : option gostr :=
  if decide (take (length p) s = p) then Some (drop (length p) s) else None.

(** One value and what follows it; [None] is any error of the scanner. *)
Fixpoint parseValue (fuel : nat) (s : gostr) : option (json * gostr) :=
  match fuel with
  | O => None
  | S fuel =>
      match skipWs s with
      | [] => None
      | c :: r =>
          if decide (c = dquote) then '(raw, r) ← scanString r; Some (JStr raw, r)
          else if decide (c = "{"%char) then
            match skipWs r with
            | d :: r' => if decide (d = "}"%char) then Some (JObj [], r')
                         else '(ms, r) ← parseMembers fuel r; Some (JObj ms, r)
            | [] => None
            end
          else if decide (c = "["%char) then
            match skipWs r with
            | d :: r' => if decide (d = "]"%char) then Some (JArr [], r')
                         else '(vs, r) ← parseElems fuel r; Some (JArr vs, r)
            | [] => None
            end
          else if decide (c = "t"%char) then r ← stripPrefix (gs "rue") r; Some (JBool true, r)
          else if decide (c = "f"%char) then r ← stripPrefix (gs "alse") r; Some (JBool false, r)
          else if decide (c = "n"%char) then r ← stripPrefix (gs "ull") r; Some (JNull, r)
          else '(lit, r) ← scanNum (c :: r); Some (JNum lit, r)
      end
  end
with parseElems (fuel : nat) (s : gostr) : option (list json * gostr) :=
  match fuel with
  | O => None
  | S fuel =>
      '(v, r) ← parseValue fuel s;
      match skipWs r with
      | c :: r =>
          if decide (c = ","%char) then '(vs, r) ← parseElems fuel r; Some (v :: vs, r)
          else if decide (c = "]"%char) then Some ([v], r) else None
      | [] => None
      end
  end
with parseMembers (fuel : nat) (s : gostr) : option (list (gostr * json) * gostr) :=
  match fuel with
  | O => None
  | S fuel =>
      match skipWs s with
      | c :: r =>
          if decide (c = dquote) then
            '(k, r) ← scanString r;
            match skipWs r with
            | c :: r =>
                if decide (c = ":"%char) then
                  '(v, r) ← parseValue fuel r;
                  match skipWs r with
                  | c :: r =>
                      if decide (c = ","%char) then '(ms, r) ← parseMembers fuel r; Some ((k, v) :: ms, r)
                      else if decide (c = "}"%char) then Some ([(k, v)], r) else None
                  | [] => None
                  end
                else None
            | [] => None
            end
          else None
      | [] => None
      end
  end.

(** Reading one value from the front of a text. *)
Definition decodeValue (s : gostr) : option json := fst <$> parseValue (2 * length s + 2) s.

(** * UTF-8 lemmas *)

Lemma runeSize_bounds s n : runeSize s = Some n -> (0 < n <= length s)%nat.
Proof.
  unfold runeSize. destruct s as [|c [|d [|e [|f s]]]]; try done; repeat case_match; intros; simplify_eq; simpl; lia.
Qed.

(** The size depends on the bytes of the rune only. *)
Lemma runeSize_take s n u : runeSize s = Some n -> runeSize (take n s ++ u) = Some n.
Proof.
  unfold runeSize. destruct s as [|c s]; [done|].
  destruct (bz c <? 128) eqn:E1; [intros [= <-]; simpl; by rewrite E1|].
  destruct (inByte 194 223 c) eqn:E2.
  { destruct s as [|d s]; [done|]. destruct (inByte 128 191 d) eqn:E; [|done]. intros [= <-]. simpl. by rewrite E1, E2, E. }
  destruct (inByte 224 239 c) eqn:E3.
  { destruct s as [|d [|e s]]; [done..|]. destruct (_ && _) eqn:E; [|done]. intros [= <-]. simpl. by rewrite E1, E2, E3, E. }
  destruct (inByte 240 244 c) eqn:E4; [|done].
  destruct s as [|d [|e [|f s]]]; [done..|]. destruct (_ && _ && _) eqn:E; [|done]. intros [= <-]. simpl. by rewrite E1, E2, E3, E4, E.
Qed.

(** Every byte of a rune of several bytes is outside ASCII. *)
Lemma runeSize_high s n : runeSize s = Some n -> match s with c :: _ => bz c <? 128 = false | [] => True end ->
  Forall (fun c => 128 <= bz c) (take n s).
Proof.
  unfold runeSize, inByte. destruct s as [|c s]; [done|]. intros H E. rewrite E in H. revert H.
  repeat case_match; intros Hx; simplify_eq; cbn [take]; repeat constructor;
    repeat match goal with
    | H : _ && _ = true |- _ => apply andb_prop in H as [? ?]
    | H : (_ <=? _) = true |- _ => apply Z.leb_le in H
    | H : (_ <? _) = false |- _ => apply Z.ltb_ge in H
    end; try lia; repeat case_match; lia.
Qed.

Lemma validLoop_cons fuel s : s ≠ [] -> (length s <= fuel)%nat ->
  validLoop fuel s = match runeSize s with Some n => validLoop (pred fuel) (drop n s) | None => false end.
Proof. destruct fuel as [|fuel], s; simpl; try done; lia. Qed.

(** * Literals *)

Lemma scan_plain t u : Forall (fun c => 128 <= bz c) t ->
  scanString (t ++ u) = '(raw, r) ← scanString u; Some (t ++ raw, r).
Proof.
  induction 1 as [|c t Hc _ IH]; [simpl; by destruct (scanString u) as [[]|]|]. cbn [app scanString].
  assert (c ≠ dquote /\ c ≠ backslash) as [H1 H2] by (split; intros ->; change (bz _) with 34 in Hc || change (bz _) with 92 in Hc; lia).
  rewrite decide_False by done. rewrite (proj2 (Z.ltb_ge _ 32)) by lia. rewrite decide_False by done. rewrite IH.
  by destruct (scanString u) as [[]|].
Qed.

Lemma scan_escapeByte c u : bz c < 128 ->
  scanString (escapeByte c ++ u) = '(raw, r) ← scanString u; Some (escapeByte c ++ raw, r).
Proof.
  intros Hc. destruct c as [[] [] [] [] [] [] [] []]; try (vm_compute in Hc; discriminate Hc);
    (match goal with |- scanString (escapeByte ?c ++ u) = _ => let e := eval vm_compute in (escapeByte c) in
      change (escapeByte c) with e end; simpl; destruct (scanString u) as [[]|]; reflexivity).
Qed.

Lemma lineSep_inv t x : lineSep t = Some x ->
  (x = "8"%char /\ t = [zb 226; zb 128; zb 168]) \/ (x = "9"%char /\ t = [zb 226; zb 128; zb 169]).
Proof.
  unfold lineSep. destruct t as [|a [|b [|c [|d t]]]]; try done.
  destruct (decide _) as [(-> & -> & ->)|_]; [intros [= <-]; by left|].
  destruct (decide _) as [(-> & -> & ->)|_]; [intros [= <-]; by right|done].
Qed.

Lemma high_not_special c : 128 <= bz c -> c ≠ dquote /\ c ≠ backslash.
Proof. intros Hc. split; intros ->; [change (bz dquote) with 34 in Hc|change (bz backslash) with 92 in Hc]; lia. Qed.

Lemma scan_escape fuel s u : (length s <= fuel)%nat ->
  scanString (escapeLoop fuel s ++ dquote :: u) = Some (escapeLoop fuel s, u).
Proof.
  revert s. induction fuel as [|fuel IH]; intros s Hl; [by destruct s; simpl in Hl; [|lia]|].
  destruct s as [|c s]; [done|]. simpl in Hl. cbn [escapeLoop]. destruct (Z.ltb_spec (bz c) 128) as [Hlt|Hge].
  { rewrite <- app_assoc, scan_escapeByte, IH by lia. done. }
  destruct (runeSize (c :: s)) as [n|] eqn:En.
  - pose proof (runeSize_bounds _ _ En) as Hn. cbn [length] in Hn.
    assert (length (drop n (c :: s)) <= fuel)%nat as Hd by (rewrite length_drop; simpl; lia).
    destruct (lineSep (take n (c :: s))) as [x|] eqn:Ex.
    + destruct (lineSep_inv _ _ Ex) as [[-> _]|[-> _]]; simpl; by rewrite IH.
    + rewrite <- app_assoc, scan_plain, IH by (first [done|apply runeSize_high; [done|by apply Z.ltb_ge]]). done.
  - simpl. by rewrite IH by lia.
Qed.

Lemma unquote_escapeByte k c u : bz c < 128 -> unquoteLoop (S k) (escapeByte c ++ u) = c :: unquoteLoop k u.
Proof.
  intros Hc. destruct c as [[] [] [] [] [] [] [] []]; try (vm_compute in Hc; discriminate Hc);
    (match goal with |- unquoteLoop _ (escapeByte ?c ++ u) = _ => let e := eval vm_compute in (escapeByte c) in
      change (escapeByte c) with e end; reflexivity).
Qed.

Lemma escapeByte_nonempty c : escapeByte c ≠ [].
Proof. unfold escapeByte. by repeat case_match. Qed.

Lemma unquote_escape_loop fuel s k : (length s <= fuel)%nat -> validLoop fuel s = true ->
  (length (escapeLoop fuel s) <= k)%nat -> unquoteLoop k (escapeLoop fuel s) = s.
Proof.
  revert s k. induction fuel as [|fuel IH]; intros s k Hl Hv Hk.
  { destruct s; [by destruct k|simpl in Hl; lia]. }
  destruct s as [|c s]; [by destruct k|]. simpl in Hl. rewrite validLoop_cons in Hv by (done || (simpl; lia)).
  cbn [escapeLoop] in *. destruct (Z.ltb_spec (bz c) 128) as [Hlt|Hge].
  { assert (runeSize (c :: s) = Some 1%nat) as Hr by (unfold runeSize; by rewrite (proj2 (Z.ltb_lt _ _)) by done).
    rewrite Hr in Hv. cbn [pred drop] in Hv. rewrite length_app in Hk.
    assert (0 < length (escapeByte c))%nat by (pose proof (escapeByte_nonempty c); destruct (escapeByte c); simpl; [done|lia]).
    destruct k as [|k]; [lia|]. rewrite unquote_escapeByte by done. f_equal. apply IH; [lia|done|lia]. }
  destruct (runeSize (c :: s)) as [n|] eqn:En; [|done]. cbn [pred] in Hv.
  pose proof (runeSize_bounds _ _ En) as Hn. cbn [length] in Hn.
  assert (length (drop n (c :: s)) <= fuel)%nat as Hd by (rewrite length_drop; simpl; lia).
  destruct (lineSep (take n (c :: s))) as [x|] eqn:Ex.
  - rewrite <- (take_drop n (c :: s)) at 2. destruct k as [|k]; [simpl in Hk; lia|].
    assert (length (escapeLoop fuel (drop n (c :: s))) <= k)%nat by (cbn [length app] in Hk; rewrite ?length_app in Hk; simpl in Hk; lia).
    destruct (lineSep_inv _ _ Ex) as [[-> ->]|[-> ->]]; simpl; do 3 f_equal; by apply IH.
  - rewrite <- (take_drop n (c :: s)) at 3. rewrite length_app in Hk.
    rewrite length_take in Hk. destruct k as [|k]; [cbn [length] in Hk; lia|].
    destruct (high_not_special c Hge) as [_ Hb].
    destruct (take n (c :: s)) as [|c' t] eqn:Et; [destruct n; [lia|done]|].
    assert (c' = c) as -> by (destruct n; [lia|]; simpl in Et; congruence).
    cbn [app unquoteLoop]. rewrite decide_False by done. rewrite (proj2 (Z.ltb_ge _ _)) by lia.
    change (c :: t ++ escapeLoop fuel (drop n (c :: s))) with ((c :: t) ++ escapeLoop fuel (drop n (c :: s))).
    rewrite <- Et, (runeSize_take _ _ _ En). rewrite take_app_length', drop_app_length' by (rewrite length_take; simpl; lia).
    rewrite Et. cbn [app]. do 2 f_equal. apply IH; [lia|done|]. cbn [length] in Hk. lia.
Qed.

Lemma unquote_escape s : ValidString s = true -> unquote (escape s) = s.
Proof. intros Hv. by apply unquote_escape_loop. Qed.

(** * Values *)

(** What the decoder sees of a marshalled value. *)
Fixpoint jsonOf (v : goval) : json :=
  match v with
  | VStr s => JStr (escape s)
  | VInt z => JNum (itoa z)
  | VBool b => JBool b
  | VNull => JNull
  | VArr l => JArr (map jsonOf l)
  | VMap l => JObj (map (fun p => (escape p.1, jsonOf p.2)) l)
  end.

Section goval_induction.
Context (P : goval -> Prop) (Hstr : forall s, P (VStr s)) (Hint : forall z, P (VInt z)) (Hbool : forall b, P (VBool b)) (Hnull : P VNull)
  (Harr : forall l, Forall P l -> P (VArr l)) (Hmap : forall l, Forall (fun p => P p.2) l -> P (VMap l)).

Fixpoint goval_ind' (v : goval) : P v :=
  match v with
  | VStr s => Hstr s
  | VInt z => Hint z
  | VBool b => Hbool b
  | VNull => Hnull
  | VArr l => Harr l ((fix go l := match l return Forall P l with [] => Forall_nil_2 P | x :: l => Forall_cons_2 P x l (goval_ind' x) (go l) end) l)
  | VMap l => Hmap l ((fix go l := match l return Forall (fun p => P p.2) l with
      [] => Forall_nil_2 _ | x :: l => Forall_cons_2 (fun p => P p.2) x l (goval_ind' x.2) (go l) end) l)
  end.
End goval_induction.

(** Steps a value takes to read, and integers that print as they should. *)
Fixpoint valSize (v : goval) : nat :=
  match v with
  | VArr l => S (list_sum (map (fun x => S (valSize x)) l))
  | VMap l => S (list_sum (map (fun p => S (valSize p.2)) l))
  | _ => 1
  end.

Fixpoint valOk (v : goval) : Prop :=
  match v with
  | VInt z => 0 <= z < 2 ^ 64
  | VArr l => fold_right (fun x P => valOk x /\ P) True l
  | VMap l => fold_right (fun p P => valOk p.2 /\ P) True l
  | _ => True
  end.

(** What may follow a number. *)
Definition numEnd (s : gostr) : Prop :=
  match s with c :: _ => isDigitB c = false /\ c ≠ "."%char /\ c ≠ "e"%char /\ c ≠ "E"%char | [] => True end.

Lemma skipWs_newline d s : skipWs (newline d ++ s) = skipWs s.
Proof.
  unfold newline. cbn [app skipWs]. replace (isJSpace "010") with true by done.
  induction (2 * d)%nat as [|n IH]; [done|]. cbn [replicate app skipWs]. by replace (isJSpace " ") with true by done.
Qed.

Lemma skipWs_cons c s : isJSpace c = false -> skipWs (c :: s) = c :: s.
Proof. intros H. simpl. by rewrite H. Qed.

Lemma spanD_app t r : Forall isDigit t -> match r with c :: _ => isDigitB c = false | [] => True end -> spanD (t ++ r) = (t, r).
Proof.
  intros Ht Hr. induction Ht as [|c t Hc _ IH].
  - destruct r as [|c r]; [done|]. simpl. by rewrite Hr.
  - simpl. assert (isDigitB c = true) as ->; [|by rewrite IH].
    unfold isDigitB, inByte. unfold isDigit in Hc. rewrite !(proj2 (Z.leb_le _ _)) by lia. done.
Qed.

Lemma digit_char_ne c d : isDigit c -> ~ isDigit d -> c ≠ d.
Proof. intros Hc Hd ->. done. Qed.

Ltac not_digit := unfold isDigit; vm_compute; intuition discriminate.

Lemma scanNum_itoa z r : 0 <= z < 2 ^ 64 -> numEnd r -> scanNum (itoa z ++ r) = Some (itoa z, r).
Proof.
  intros Hz Hr. destruct (itoa_spec z Hz) as (Hd & Hne & _).
  assert (match r with c :: _ => isDigitB c = false | [] => True end) as Hr' by (destruct r; [done|apply Hr]).
  unfold scanNum. destruct (itoa z) as [|c t] eqn:E; [done|]. apply Forall_cons in Hd as [Hc Ht]. cbn [app].
  rewrite (decide_False (P := c = "-"%char)) by (apply digit_char_ne; [done|not_digit]).
  assert (forall t0, c :: t = t0 -> (if decide (c = "0"%char) then Some ([c], t ++ r) else if isDigitB c then Some (spanD (c :: t ++ r)) else None) = Some (t0, r)) as Hint.
  { intros t0 <-. destruct (decide (c = "0"%char)) as [->|Hn0].
    - destruct (decide (z = 0)) as [->|Hz0]; [change (itoa 0) with (gs "0") in E; injection E as <-; done|].
      destruct (itoa_pos_head z) as (c & s & He & Hc0 & _); [lia|]. congruence.
    - replace (isDigitB c) with true; [|symmetry; unfold isDigitB, inByte; unfold isDigit in Hc; by rewrite !(proj2 (Z.leb_le _ _)) by lia].
      f_equal. apply (spanD_app (c :: t) r); [by constructor|done]. }
  rewrite (Hint _ eq_refl). simpl. destruct r as [|d r]; [simpl; by rewrite !app_nil_r|]. destruct Hr as (_ & H1 & H2 & H3).
  rewrite (decide_False (P := d = "."%char)) by done. simpl. rewrite decide_False by tauto. simpl. by rewrite !app_nil_r.
Qed.

(** A rendered value starts with a byte that is neither a space nor a closing
    bracket. *)
Lemma render_head d v : valOk v -> exists c t, render d v = c :: t /\ isJSpace c = false /\ c ≠ "]"%char /\ c ≠ "}"%char.
Proof.
  destruct v as [s|z|[]| |[|x l]|[|[k x] l]]; cbn [render]; intros Hv; try (by eexists _, _).
  destruct (itoa_spec z Hv) as (Hd & Hne & _). destruct (itoa z) as [|c t]; [done|]. exists c, t.
  apply Forall_cons in Hd as [Hc _]. split_and!; [done| |apply digit_char_ne; [done|not_digit]..].
  unfold isJSpace. unfold isDigit in Hc. by rewrite !(proj2 (Z.eqb_neq _ _)) by lia.
Qed.

Lemma scan_string s u : scanString (escape s ++ dquote :: u) = Some (escape s, u).
Proof. by apply scan_escape. Qed.

Lemma parseValue_newline fuel d s : parseValue fuel (newline d ++ s) = parseValue fuel s.
Proof. destruct fuel; [done|]. cbn [parseValue]. by rewrite skipWs_newline. Qed.

Lemma parseMembers_newline fuel d s : parseMembers fuel (newline d ++ s) = parseMembers fuel s.
Proof. destruct fuel; [done|]. cbn [parseMembers]. by rewrite skipWs_newline. Qed.

Definition parsesTo (v : goval) : Prop := forall d fuel r,
  valOk v -> numEnd r -> (valSize v <= fuel)%nat -> parseValue fuel (render d v ++ r) = Some (jsonOf v, r).

Lemma numEnd_newline d s : numEnd (newline d ++ s).
Proof. by unfold newline. Qed.

(** The text after the first element of an array, and after the first pair of
    a map. *)
Definition elemsTail (depth : nat) (l : list goval) (r : gostr) : gostr :=
  flat_map (fun y => gs "," ++ newline (S depth) ++ render (S depth) y) l ++ newline depth ++ gs "]" ++ r.
Definition pairText (depth : nat) (p : gostr * goval) : gostr := quoted (escape p.1) ++ gs ": " ++ render depth p.2.
Definition membersTail (depth : nat) (l : list (gostr * goval)) (r : gostr) : gostr :=
  flat_map (fun p => gs "," ++ newline (S depth) ++ pairText (S depth) p) l ++ newline depth ++ gs "}" ++ r.

Lemma parseElems_render depth x l r fuel :
  Forall parsesTo (x :: l) -> Forall valOk (x :: l) -> (list_sum (map (fun v => S (valSize v)) (x :: l)) <= fuel)%nat ->
  parseElems fuel (render (S depth) x ++ elemsTail depth l r) = Some (map jsonOf (x :: l), r).
Proof.
  revert x fuel. induction l as [|y l IH]; intros x fuel Hp Hok Hf; cbn [map list_sum foldr] in Hf;
    apply Forall_cons in Hp as [Hx Hp]; apply Forall_cons in Hok as [Hvx Hok]; (destruct fuel as [|fuel]; [lia|]); cbn [parseElems].
  - unfold elemsTail. cbn [flat_map app]. rewrite Hx; [|done|apply numEnd_newline|lia]. cbn [mbind option_bind].
    rewrite skipWs_newline. done.
  - unfold elemsTail. cbn [flat_map]. rewrite <- !app_assoc. rewrite Hx; [|done|done|lia]. cbn [mbind option_bind].
    change (skipWs (gs "," ++ ?t)) with (skipWs (","%char :: t)). rewrite skipWs_cons by done. rewrite decide_True by done.
    fold (elemsTail depth l r). specialize (IH y fuel Hp Hok). cbn [map list_sum foldr] in IH.
    assert (parseElems fuel (newline (S depth) ++ render (S depth) y ++ elemsTail depth l r) =
      parseElems fuel (render (S depth) y ++ elemsTail depth l r)) as ->.
    { destruct fuel as [|fuel]; [done|]. cbn [parseElems]. by rewrite parseValue_newline. }
    rewrite IH by lia. done.
Qed.

Lemma parsePair depth p r fuel {A} (k : gostr * json * gostr -> option A) :
  parsesTo p.2 -> valOk p.2 -> numEnd r -> (valSize p.2 <= fuel)%nat ->
  ('(raw, r1) ← scanString (drop 1 (pairText depth p ++ r));
   match skipWs r1 with
   | c :: r1 => if decide (c = ":"%char) then '(v, r2) ← parseValue fuel r1; k (raw, v, r2) else None
   | [] => None
   end) = k (escape p.1, jsonOf p.2, r).
Proof.
  intros Hp Hok Hr Hf. unfold pairText, quoted. rewrite <- !app_assoc. cbn [app drop]. rewrite drop_0, <- ?app_assoc. cbn [app].
  rewrite scan_string. cbn [mbind option_bind gs list_ascii_of_string app]. rewrite skipWs_cons by done.
  rewrite decide_True by done. destruct fuel as [|fuel]; [destruct p.2; simpl in Hf; lia|].
  assert (parseValue (S fuel) (" "%char :: render depth p.2 ++ r) = Some (jsonOf p.2, r)) as Hv.
  { rewrite <- (Hp depth (S fuel) r Hok Hr Hf). done. }
  by rewrite Hv.
Qed.

Lemma parseMembers_render depth p l r fuel :
  Forall (fun p => parsesTo p.2) (p :: l) -> Forall (fun p => valOk p.2) (p :: l) ->
  (list_sum (map (fun p => S (valSize p.2)) (p :: l)) <= fuel)%nat ->
  parseMembers fuel (pairText (S depth) p ++ membersTail depth l r) = Some (map (fun p => (escape p.1, jsonOf p.2)) (p :: l), r).
Proof.
  revert p fuel. induction l as [|q l IH]; intros p fuel Hp Hok Hf; cbn [map list_sum foldr] in Hf;
    apply Forall_cons in Hp as [Hx Hp]; apply Forall_cons in Hok as [Hvx Hok]; (destruct fuel as [|fuel]; [lia|]); cbn [parseMembers].
  - unfold membersTail. cbn [flat_map].
    assert (exists t, pairText (S depth) p = dquote :: t) as [t Ht] by (by eexists). rewrite Ht. cbn [app].
    rewrite skipWs_cons by done. rewrite decide_True by done.
    change (t ++ newline depth ++ gs "}" ++ r) with (drop 1 ((dquote :: t) ++ newline depth ++ gs "}" ++ r)). rewrite <- Ht.
    pose proof (parsePair (S depth) p (newline depth ++ gs "}" ++ r) fuel (fun '(raw, v, r) =>
      match skipWs r with
      | c :: r => if decide (c = ","%char) then '(ms, r) ← parseMembers fuel r; Some ((raw, v) :: ms, r)
                  else if decide (c = "}"%char) then Some ([(raw, v)], r) else None
      | [] => None end) Hx Hvx (numEnd_newline _ _) ltac:(lia)) as Hpair.
    cbn iota beta in Hpair. rewrite skipWs_newline in Hpair. exact Hpair.
  - unfold membersTail. cbn [flat_map]. rewrite <- !app_assoc. fold (membersTail depth l r).
    assert (exists t, pairText (S depth) p = dquote :: t) as [t Ht] by (by eexists). rewrite Ht. cbn [app].
    rewrite skipWs_cons by done. rewrite decide_True by done.
    change (t ++ gs "," ++ ?x) with (drop 1 ((dquote :: t) ++ gs "," ++ x)). rewrite <- Ht.
    pose proof (parsePair (S depth) p (gs "," ++ newline (S depth) ++ pairText (S depth) q ++ membersTail depth l r) fuel
     (fun '(raw, v, r) =>
      match skipWs r with
      | c :: r => if decide (c = ","%char) then '(ms, r) ← parseMembers fuel r; Some ((raw, v) :: ms, r)
                  else if decide (c = "}"%char) then Some ([(raw, v)], r) else None
      | [] => None end) Hx Hvx ltac:(done) ltac:(lia)) as Hpair.
    etransitivity; [exact Hpair|]. cbn iota beta. cbn [app gs list_ascii_of_string]. rewrite skipWs_cons by done.
    rewrite decide_True by done. rewrite parseMembers_newline, IH by (done || (cbn [map list_sum foldr]; lia)). done.
Qed.

Lemma valOk_arr l : valOk (VArr l) -> Forall valOk l.
Proof. induction l as [|x l IH]; [constructor|]. intros [Hx Hl]. constructor; [done|]. by apply IH. Qed.

Lemma valOk_map l : valOk (VMap l) -> Forall (fun p => valOk p.2) l.
Proof. induction l as [|x l IH]; [constructor|]. intros [Hx Hl]. constructor; [done|]. by apply IH. Qed.

Lemma parse_render v : parsesTo v.
Proof.
  induction v as [s|z|b| |l IH|l IH] using goval_ind'; intros d fuel r Hok Hr Hf;
    (destruct fuel as [|fuel]; [simpl in Hf; lia|]).
  - cbn [render]. unfold quoted. cbn [app parseValue]. rewrite skipWs_cons by done. rewrite decide_True by done.
    rewrite <- app_assoc. cbn [app]. by rewrite scan_string.
  - cbn [render parseValue jsonOf]. destruct (itoa_spec z Hok) as (Hd & Hne & _).
    pose proof (scanNum_itoa z r Hok Hr) as Hs. destruct (itoa z) as [|c t]; [done|]. apply Forall_cons in Hd as [Hc _].
    cbn [app] in Hs |- *. rewrite skipWs_cons by (unfold isJSpace; unfold isDigit in Hc; by rewrite !(proj2 (Z.eqb_neq _ _)) by lia).
    rewrite !decide_False by (apply digit_char_ne; [done|not_digit]). by rewrite Hs.
  - by destruct b.
  - done.
  - destruct l as [|x l]; [done|]. cbn [render]. rewrite <- !app_assoc. change (gs "[" ++ ?t) with ("["%char :: t). cbn [parseValue].
    rewrite skipWs_cons by done.
    do 2 (rewrite decide_False by done). rewrite decide_True by done.
    apply valOk_arr in Hok. pose proof (Forall_inv Hok) as Hx.
    destruct (render_head (S d) x Hx) as (c & t & Hc & Hsp & Hcl & _).
    rewrite skipWs_newline. fold (elemsTail d l r). rewrite Hc. cbn [app]. rewrite skipWs_cons by done.
    rewrite decide_False by done. change (c :: t ++ ?u) with ((c :: t) ++ u). rewrite <- Hc.
    destruct fuel as [|fuel]; [simpl in Hf; lia|].
    assert (forall s, parseElems (S fuel) (newline (S d) ++ s) = parseElems (S fuel) s) as ->
      by (intros s; cbn [parseElems]; by rewrite parseValue_newline).
    rewrite parseElems_render by (done || (cbn [valSize] in Hf; lia)). done.
  - destruct l as [|[k x] l]; [done|]. cbn [render].
    change (quoted (escape k) ++ gs ": " ++ render (S d) x) with (pairText (S d) (k, x)).
    change (flat_map _ l) with (flat_map (fun p => gs "," ++ newline (S d) ++ pairText (S d) p) l).
    rewrite <- !app_assoc.
    change (gs "{" ++ ?t) with ("{"%char :: t). cbn [parseValue]. rewrite skipWs_cons by done.
    rewrite decide_False by done. rewrite decide_True by done.
    apply valOk_map in Hok. rewrite skipWs_newline. fold (membersTail d l r).
    assert (exists t, pairText (S d) (k, x) = dquote :: t) as [t Ht] by (by eexists).
    rewrite Ht. cbn [app]. rewrite skipWs_cons by done. rewrite decide_False by done.
    change (dquote :: t ++ ?u) with ((dquote :: t) ++ u). rewrite <- Ht, parseMembers_newline.
    rewrite parseMembers_render by (done || (cbn [valSize] in Hf; lia)). done.
Qed.

(** * The fuel suffices *)

Lemma skipWs_length s : (length (skipWs s) <= length s)%nat.
Proof. induction s as [|c s IH]; [done|]. simpl. destruct (isJSpace c); simpl; lia. Qed.

Lemma scanString_length s raw r : scanString s = Some (raw, r) -> (length r < length s)%nat.
Proof.
  revert raw r. induction s as [s IH] using (induction_ltof1 _ (@length ascii)). unfold ltof in IH. intros raw r.
  destruct s as [|c s]; [done|]. cbn [scanString length] in *.
  destruct (decide (c = dquote)); [intros [= <- <-]; lia|]. destruct (bz c <? 32); [done|].
  destruct (decide (c = backslash)).
  - destruct s as [|c2 s]; [done|]. destruct (_ || _); [|done]. simpl in *.
    destruct (scanString s) as [[raw' r']|] eqn:E; [|done]. intros [= <- <-]. apply IH in E; lia.
  - destruct (scanString s) as [[raw' r']|] eqn:E; [|done]. intros [= <- <-]. apply IH in E; lia.
Qed.

Lemma spanD_length s : (length (spanD s).1 + length (spanD s).2 = length s)%nat.
Proof. induction s as [|c s IH]; [done|]. simpl. destruct (isDigitB c); [|done]. destruct (spanD s); simpl in *; lia. Qed.

Lemma spanD_rest s a r : spanD s = (a, r) -> (length r <= length s)%nat.
Proof. pose proof (spanD_length s). intros Hs. rewrite Hs in *. simpl in *. lia. Qed.

Lemma scanNum_length s lit r : scanNum s = Some (lit, r) -> (length r < length s)%nat.
Proof.
  unfold scanNum.
  set (p := match s with c :: s' => if decide (c = "-"%char) then ([c], s') else ([], s) | [] => ([], s) end).
  assert (length p.2 <= length s)%nat as H1.
  { unfold p. destruct s as [|c s]; [done|]. destruct (decide _); simpl; lia. }
  destruct p as [sign s1]. simpl in H1.
  destruct (match s1 with c :: s' => if decide (c = "0"%char) then Some ([c], s') else if isDigitB c then Some (spanD s1) else None
            | [] => None end) as [[int s2]|] eqn:E2; [|done]. cbn [mbind option_bind].
  assert (length s2 < length s1)%nat as H2.
  { destruct s1 as [|c s1]; [done|]. destruct (decide (c = "0"%char)); [injection E2 as <- <-; simpl; lia|].
    destruct (isDigitB c) eqn:Ed; [|done]. injection E2 as E2. simpl in E2. rewrite Ed in E2.
    pose proof (spanD_length s1). destruct (spanD s1); simpl in *. injection E2 as <- <-. simpl. lia. }
  destruct (match s2 with c :: s' => if decide (c = "."%char) then _ else Some ([], s2) | [] => Some ([], []) end) as [[frac s3]|] eqn:E3; [|done].
  assert (length s3 <= length s2)%nat as H3.
  { destruct s2 as [|c s2]; [by injection E3 as <- <-|]. destruct (decide (c = "."%char)); [|injection E3 as <- <-; lia].
    destruct (spanD s2) as [f r0] eqn:Es. apply spanD_rest in Es. destruct f; [done|]. injection E3 as <- <-. simpl. lia. }
  cbn [mbind option_bind].
  destruct (match s3 with c :: s' => if decide (c = "e"%char \/ c = "E"%char) then _ else Some ([], s3) | [] => Some ([], []) end) as [[ex s4]|] eqn:E4; [|done].
  assert (length s4 <= length s3)%nat as H4.
  { destruct s3 as [|c s3]; [by injection E4 as <- <-|]. destruct (decide (c = "e"%char \/ c = "E"%char)); [|injection E4 as <- <-; lia].
    set (q := match s3 with x :: t => if decide (x = "+"%char \/ x = "-"%char) then ([x], t) else ([], s3) | [] => ([], s3) end) in *.
    assert (length q.2 <= length s3)%nat by (unfold q; destruct s3 as [|x s3]; [done|]; destruct (decide _); simpl; lia).
    destruct q as [sg s3']. destruct (spanD s3') as [f r0] eqn:Es. apply spanD_rest in Es. destruct f; [done|].
    injection E4 as <- <-. simpl in *. lia. }
  cbn [mbind option_bind]. intros [= <- <-]. lia.
Qed.

Lemma stripPrefix_length p s r : stripPrefix p s = Some r -> (length r <= length s)%nat.
Proof. unfold stripPrefix. destruct (decide _); [|done]. intros [= <-]. rewrite length_drop. lia. Qed.

(** What is left after a value is shorter. *)
Lemma parse_length fuel : forall s,
  (forall v r, parseValue fuel s = Some (v, r) -> (length r < length s)%nat) /\
  (forall v r, parseElems fuel s = Some (v, r) -> (length r < length s)%nat) /\
  (forall v r, parseMembers fuel s = Some (v, r) -> (length r < length s)%nat).
Proof.
  induction fuel as [|fuel IH]; intros s; [done|]. pose proof (skipWs_length s) as Hw. split_and!; intros v r.
  - cbn [parseValue]. destruct (skipWs s) as [|c t]; [done|]. cbn [length] in Hw.
    pose proof (skipWs_length t) as Hw2. destruct (IH t) as (_ & Ie & Im).
    destruct (decide (c = dquote)).
    { destruct (scanString t) as [[raw r']|] eqn:E; [|done]. intros [= <- <-]. apply scanString_length in E. lia. }
    destruct (decide (c = "{"%char)).
    { destruct (skipWs t) as [|d t']; [done|]. cbn [length] in Hw2. destruct (decide _); [intros [= <- <-]; lia|].
      destruct (parseMembers fuel t) as [[ms r']|]; [|done]. intros [= <- <-]. specialize (Im _ _ eq_refl). lia. }
    destruct (decide (c = "["%char)).
    { destruct (skipWs t) as [|d t']; [done|]. cbn [length] in Hw2. destruct (decide _); [intros [= <- <-]; lia|].
      destruct (parseElems fuel t) as [[ms r']|]; [|done]. intros [= <- <-]. specialize (Ie _ _ eq_refl). lia. }
    repeat (destruct (decide _); [destruct (stripPrefix _ t) as [r'|] eqn:E; [|done]; intros [= <- <-]; apply stripPrefix_length in E; lia|]).
    destruct (scanNum (c :: t)) as [[lit r']|] eqn:E; [|done]. intros [= <- <-]. apply scanNum_length in E. cbn [length] in E. lia.
  - cbn [parseElems]. destruct (IH s) as (Iv & _). destruct (parseValue fuel s) as [[x r1]|]; [|done].
    specialize (Iv _ _ eq_refl). cbn [mbind option_bind]. pose proof (skipWs_length r1) as Hw1.
    destruct (skipWs r1) as [|c r2]; [done|]. cbn [length] in Hw1. destruct (decide _).
    + destruct (IH r2) as (_ & Ie & _). destruct (parseElems fuel r2) as [[vs r3]|]; [|done]. intros [= <- <-].
      specialize (Ie _ _ eq_refl). lia.
    + destruct (decide _); [|done]. intros [= <- <-]. lia.
  - cbn [parseMembers]. destruct (skipWs s) as [|c t]; [done|]. cbn [length] in Hw. destruct (decide _); [|done].
    destruct (scanString t) as [[k r1]|] eqn:E; [|done]. apply scanString_length in E. cbn [mbind option_bind].
    pose proof (skipWs_length r1) as Hw1. destruct (skipWs r1) as [|c1 r2]; [done|]. cbn [length] in Hw1.
    destruct (decide _); [|done]. destruct (IH r2) as (Iv & _). destruct (parseValue fuel r2) as [[x r3]|]; [|done].
    specialize (Iv _ _ eq_refl). cbn [mbind option_bind]. pose proof (skipWs_length r3) as Hw3.
    destruct (skipWs r3) as [|c3 r4]; [done|]. cbn [length] in Hw3. destruct (decide _).
    + destruct (IH r4) as (_ & _ & Im). destruct (parseMembers fuel r4) as [[ms r5]|]; [|done]. intros [= <- <-].
      specialize (Im _ _ eq_refl). lia.
    + destruct (decide _); [|done]. intros [= <- <-]. lia.
Qed.

(** Twice the length, and a little, is enough fuel. *)
Lemma parse_fuel n : forall s, (length s <= n)%nat -> forall f g,
  ((2 * length s < f)%nat -> (2 * length s < g)%nat -> parseValue f s = parseValue g s) /\
  ((2 * length s + 1 < f)%nat -> (2 * length s + 1 < g)%nat -> parseElems f s = parseElems g s) /\
  ((2 * length s < f)%nat -> (2 * length s < g)%nat -> parseMembers f s = parseMembers g s).
Proof.
  induction n as [|n IH].
  { intros s Hs [|f] [|g]; try (split_and!; lia). destruct s; simpl in Hs; [|lia].
    split_and!; intros Hf Hg; cbn [parseElems parseMembers parseValue skipWs]; try done.
    destruct f as [|f], g as [|g]; simpl in *; try lia. done. }
  assert (forall s, (length s <= S n)%nat -> forall f g, (2 * length s < f)%nat -> (2 * length s < g)%nat -> parseValue f s = parseValue g s) as Hval.
  { intros s Hs [|f] [|g] Hf Hg; try lia. cbn [parseValue]. pose proof (skipWs_length s) as Hw.
    destruct (skipWs s) as [|c t]; [done|]. cbn [length] in Hw.
    destruct (IH t ltac:(lia) f g) as (_ & Ie & Im). by rewrite Ie, Im by lia. }
  intros s Hs f g. split_and!; [by apply Hval|..]; destruct f as [|f], g as [|g]; try lia; intros Hf Hg.
  - cbn [parseElems]. rewrite (Hval s Hs f g) by lia. destruct (parseValue g s) as [[x r1]|] eqn:E; [|done].
    cbn [mbind option_bind]. apply (parse_length g s) in E. pose proof (skipWs_length r1) as Hw1.
    destruct (skipWs r1) as [|c r2]; [done|]. cbn [length] in Hw1.
    destruct (IH r2 ltac:(lia) f g) as (_ & Ie & _). by rewrite Ie by lia.
  - cbn [parseMembers]. pose proof (skipWs_length s) as Hw. destruct (skipWs s) as [|c t]; [done|]. cbn [length] in Hw.
    destruct (decide _); [|done]. destruct (scanString t) as [[k r1]|] eqn:E; [|done]. apply scanString_length in E.
    cbn [mbind option_bind]. pose proof (skipWs_length r1) as Hw1. destruct (skipWs r1) as [|c1 r2]; [done|]. cbn [length] in Hw1.
    destruct (decide _); [|done]. destruct (IH r2 ltac:(lia) f g) as (Iv & _). rewrite Iv by lia.
    destruct (parseValue g r2) as [[x r3]|] eqn:Ev; [|done]. apply (parse_length g r2) in Ev. cbn [mbind option_bind].
    pose proof (skipWs_length r3) as Hw3. destruct (skipWs r3) as [|c3 r4]; [done|]. cbn [length] in Hw3.
    destruct (IH r4 ltac:(lia) f g) as (_ & _ & Im). by rewrite Im by lia.
Qed.

Lemma decodeValue_fuel s f : (2 * length s < f)%nat -> fst <$> parseValue f s = decodeValue s.
Proof. intros Hf. unfold decodeValue. f_equal. by apply (parse_fuel (length s)); lia. Qed.

Lemma list_sum_le {A} (f g : A -> nat) l : Forall (fun x => (f x <= g x)%nat) l -> (list_sum (map f l) <= list_sum (map g l))%nat.
Proof. induction 1 as [|x l Hx _ IH]; simpl; lia. Qed.

Lemma valSize_render v : forall d, valOk v -> (valSize v <= length (render d v))%nat.
Proof.
  induction v as [s|z|b| |l IH|l IH] using goval_ind'; intros d Hok.
  - simpl. lia.
  - simpl. destruct (itoa_spec z Hok) as (_ & Hne & _). destruct (itoa z); [done|simpl; lia].
  - destruct b; simpl; lia.
  - simpl. lia.
  - apply valOk_arr in Hok. destruct l as [|x l]; [simpl; lia|]. apply Forall_cons in IH as [Hx IH]. apply Forall_cons in Hok as [Hvx Hok].
    cbn [render valSize map list_sum foldr]. rewrite !length_app. specialize (Hx (S d) Hvx).
    assert (list_sum (map (fun x => S (valSize x)) l) <= length (flat_map (fun y => gs "," ++ newline (S d) ++ render (S d) y) l))%nat as Hl.
    { clear Hx Hvx. induction l as [|y l IHl]; [simpl; lia|]. apply Forall_cons in IH as [Hy IH]. apply Forall_cons in Hok as [Hvy Hok].
      specialize (Hy (S d) Hvy). cbn [map list_sum foldr flat_map]. rewrite !length_app. specialize (IHl IH Hok).
      change (length (gs ",")) with 1%nat. unfold list_sum in *. lia. }
    change (length (gs "[")) with 1%nat. change (length (gs "]")) with 1%nat. unfold list_sum in *. lia.
  - apply valOk_map in Hok. destruct l as [|[k x] l]; [simpl; lia|]. apply Forall_cons in IH as [Hx IH]. apply Forall_cons in Hok as [Hvx Hok].
    cbn [render valSize map list_sum foldr]. rewrite !length_app. specialize (Hx (S d) Hvx). cbn [snd] in *.
    assert (list_sum (map (fun p => S (valSize p.2)) l) <=
      length (flat_map (fun p => gs "," ++ newline (S d) ++ quoted (escape p.1) ++ gs ": " ++ render (S d) p.2) l))%nat as Hl.
    { clear Hx Hvx. induction l as [|y l IHl]; [simpl; lia|]. apply Forall_cons in IH as [Hy IH]. apply Forall_cons in Hok as [Hvy Hok].
      specialize (Hy (S d) Hvy). cbn [map list_sum foldr flat_map]. rewrite !length_app. specialize (IHl IH Hok).
      change (length (gs ",")) with 1%nat. unfold list_sum in *. lia. }
    change (length (gs "{")) with 1%nat. change (length (gs "}")) with 1%nat. unfold list_sum in *. lia.
Qed.

(** Reading what was written. *)
Lemma decode_render d v r : valOk v -> numEnd r -> decodeValue (render d v ++ r) = Some (jsonOf v).
Proof.
  intros Hok Hr. unfold decodeValue. rewrite (parse_render v d _ r Hok Hr); [done|].
  pose proof (valSize_render v d Hok). rewrite length_app. lia.
Qed.
