(* ===== verification/Runes.v ===== *)
(** Runes and case folding: what pkg/search and pkg/strutil use of Go's
    unicode, utf8, strings and strconv packages, and the functions of
    pkg/strutil/strutil.go that ignore case.

    The tables of the unicode package beyond ASCII are the class [Unicode]. *)

From Stdlib Require Import SpecFloat.
From S2P Require Import Prelude Ref Strutil Times Json.

(** * Decoding *)

Definition RuneError : Z := 65533.
(** [utf8.RuneSelf] *)
Definition RuneSelf : Z := 128.

(** The rune that [n] bytes encode. *)
Definition runeValue (s : gostr) : Z :=
  match s with
  | [c] => bz c
  | [c; d] => (bz c mod 32) * 64 + bz d mod 64
  | [c; d; e] => (bz c mod 16) * 4096 + (bz d mod 64) * 64 + bz e mod 64
  | [c; d; e; f] => (bz c mod 8) * 262144 + (bz d mod 64) * 4096 + (bz e mod 64) * 64 + bz f mod 64
  | _ => RuneError
  end.

(** [utf8.DecodeRuneInString] *)
Definition DecodeRune (s : gostr) : Z * nat :=
  match s with
  | [] => (RuneError, O)
  | _ => match runeSize s with None => (RuneError, 1%nat) | Some n => (runeValue (take n s), n) end
  end.

Lemma DecodeRune_size s : s <> [] -> (1 <= (DecodeRune s).2 <= length s)%nat.
Proof.
  intros Hs. unfold DecodeRune. destruct s as [|c s]; [done|]. destruct (runeSize (c :: s)) as [n|] eqn:E; cbn [snd].
  - apply runeSize_bounds in E. lia.
  - cbn. lia.
Qed.

Lemma DecodeRune_ascii c s : bz c < 128 -> DecodeRune (c :: s) = (bz c, 1%nat).
Proof. intros Hc. unfold DecodeRune, runeSize. by rewrite (proj2 (Z.ltb_lt _ _)). Qed.

(** * Classes of runes *)

(** [unicode.IsSpace] *)
Definition IsSpace (r : Z) : bool :=
  bool_decide (r ∈ [9; 10; 11; 12; 13; 32; 133; 160; 5760; 8232; 8233; 8239; 8287; 12288]) || ((8192 <=? r) && (r <=? 8202)).

(** [utf8.RuneStart], [utf8.DecodeLastRuneInString] *)
Definition RuneStart (b : ascii) : bool := negb ((128 <=? bz b) && (bz b <? 192)).
Definition DecodeLastRune (s : gostr) : Z * nat :=
  match last s with
  | None => (RuneError, O)
  | Some c =>
      if bz c <? RuneSelf then (bz c, 1%nat)
      else
        let n := length s in
        let starts k := match s !! (n - k)%nat with Some b => (k <=? n)%nat && RuneStart b | None => false end in
        let k := if starts 2%nat then 2%nat else if starts 3%nat then 3%nat else if starts 4%nat then 4%nat else Nat.min 5 n in
        let '(r, size) := DecodeRune (drop (n - k) s) in
        if decide (size = k) then (r, size) else (RuneError, 1%nat)
  end.

(** [strings.TrimSpace] *)
Fixpoint trimLeftLoop (fuel : nat) (s : gostr) : gostr :=
  match fuel, s with
  | S fuel, _ :: _ => let '(r, n) := DecodeRune s in if IsSpace r then trimLeftLoop fuel (drop n s) else s
  | _, _ => s
  end.
Fixpoint trimRightLoop (fuel : nat) (s : gostr) : gostr :=
  match fuel, s with
  | S fuel, _ :: _ => let '(r, n) := DecodeLastRune s in if IsSpace r then trimRightLoop fuel (take (length s - n) s) else s
  | _, _ => s
  end.
Definition TrimSpace (s : gostr) : gostr :=
  let s := trimLeftLoop (length s) s in trimRightLoop (length s) s.

(** * Unquoting *)

Fixpoint hexDigits (n : nat) (acc : Z) (s : gostr) : option (Z * gostr) :=
  match n, s with
  | O, _ => Some (acc, s)
  | S n, c :: s =>
      match digitVal c with
      | Some d => if d <? 16 then hexDigits n (acc * 16 + d) s else None
      | None => None
      end
  | _, [] => None
  end.

Definition octDigit (c : ascii) : option Z := if (48 <=? bz c) && (bz c <=? 55) then Some (bz c - 48) else None.

(** [strconv.UnquoteChar] with a double quote: the bytes that the first
    character stands for, and what is left. *)
Definition unquoteChar (s : gostr) : option (gostr * gostr) :=
  match s with
  | [] => None
  | c :: s' =>
      if decide (c = dquote) then None
      else if RuneSelf <=? bz c then let '(r, n) := DecodeRune s in Some (encodeRune r, drop n s)
      else if negb (bool_decide (c = backslash)) then Some ([c], s')
      else
        match s' with
        | [] => None
        | e :: rest =>
            let simple z := Some ([zb z], rest) in
            let rune n := match hexDigits n 0 rest with
                          | Some (v, rest) => if 1114111 <? v then None else Some (encodeRune v, rest)
                          | None => None
                          end in
            if decide (e = "a"%char) then simple 7
            else if decide (e = "b"%char) then simple 8
            else if decide (e = "f"%char) then simple 12
            else if decide (e = "n"%char) then simple 10
            else if decide (e = "r"%char) then simple 13
            else if decide (e = "t"%char) then simple 9
            else if decide (e = "v"%char) then simple 11
            else if decide (e = "x"%char) then
              match hexDigits 2 0 rest with Some (v, rest) => Some ([zb v], rest) | None => None end
            else if decide (e = "u"%char) then rune 4%nat
            else if decide (e = "U"%char) then rune 8%nat
            else if decide (e = backslash) then Some ([backslash], rest)
            else if decide (e = dquote) then Some ([dquote], rest)
            else
              match octDigit e, rest with
              | Some a, c1 :: c2 :: rest =>
                  match octDigit c1, octDigit c2 with
                  | Some b, Some d => let v := a * 64 + b * 8 + d in if 255 <? v then None else Some ([zb v], rest)
                  | _, _ => None
                  end
              | _, _ => None
              end
        end
  end.

Fixpoint unquoteChars (fuel : nat) (s : gostr) : option gostr :=
  match fuel, s with
  | _, [] => Some []
  | O, _ => None
  | S fuel, _ => '(b, s) ← unquoteChar s; rest ← unquoteChars fuel s; Some (b ++ rest)
  end.

(** [strconv.Unquote] of what is in double quotes, or is nothing of the kind. *)
Definition Unquote (s : gostr) : option gostr :=
  match s with
  | q :: s' =>
      if decide (q = dquote /\ s' <> [] /\ last s' = Some dquote) then
        let body := removelast s' in
        if bool_decide (zb 10 ∈ body) then None
        else if bool_decide (backslash ∉ body) && bool_decide (dquote ∉ body) then Some body
        else unquoteChars (length body) body
      else None
  | [] => None
  end.

(** * Letters and folding *)

Class Unicode := { letterTable : Z -> bool; foldTable : Z -> Z }.

Section unicode.
Context `{Unicode}.

(** [unicode.IsLetter]; a negative rune is in no table. *)
Definition IsLetter (r : Z) : bool :=
  if r <? 0 then false
  else if r <? RuneSelf then (65 <=? r) && (r <=? 90) || (97 <=? r) && (r <=? 122)
  else letterTable r.

(** [unicode.SimpleFold]: the orbits of k and of s leave ASCII. *)
Definition SimpleFold (r : Z) : Z :=
  if r <? RuneSelf then
    if (65 <=? r) && (r <=? 90) then r + 32
    else if r =? 107 then 8490
    else if r =? 115 then 383
    else if (97 <=? r) && (r <=? 122) then r - 32
    else r
  else foldTable r.

(** The loop of [strings.EqualFold] over the orbit of [sr]; no orbit has more
    than four runes. *)
Fixpoint foldLoop (fuel : nat) (sr tr r : Z) : Z :=
  match fuel with
  | O => r
  | S fuel => if negb (r =? sr) && (r <? tr) then foldLoop fuel sr tr (SimpleFold r) else r
  end.

Definition equalFoldRune (a b : Z) : bool :=
  if a =? b then true
  else
    let '(sr, tr) := if b <? a then (b, a) else (a, b) in
    if (tr <? RuneSelf) && ((65 <=? sr) && (sr <=? 90)) then tr =? sr + 32
    else foldLoop 4 sr tr (SimpleFold sr) =? tr.

Fixpoint equalFoldLoop (fuel : nat) (s t : gostr) : bool :=
  match fuel with
  | O => bool_decide (s = t)
  | S fuel =>
      match s, t with
      | [], _ | _, [] => bool_decide (s = t)
      | _, _ =>
          let '(sr, m) := DecodeRune s in
          let '(tr, n) := DecodeRune t in
          equalFoldRune sr tr && equalFoldLoop fuel (drop m s) (drop n t)
      end
  end.
(** [strings.EqualFold] *)
Definition EqualFold (s t : gostr) : bool := equalFoldLoop (S (length s)) s t.

Definition HasPrefixFold (s prefix : gostr) : bool :=
  if glen s <? glen prefix then false else EqualFold (take (length prefix) s) prefix.

Definition HasSuffixFold (s suffix : gostr) : bool :=
  if glen s <? glen suffix then false else EqualFold (drop (length s - length suffix) s) suffix.

(** The loop over the runes of [s]; [s] is what is left of it. *)
Fixpoint containsFoldLoop (fuel : nat) (firstLowerRune : Z) (s substr : gostr) : bool :=
  match fuel, s with
  | O, _ | _, [] => false
  | S fuel, _ =>
      if glen s <? glen substr then false
      else
        let '(r, n) := DecodeRune s in
        if ((r =? firstLowerRune) || (SimpleFold r =? firstLowerRune)) && HasPrefixFold s substr then true
        else containsFoldLoop fuel firstLowerRune (drop n s) substr
  end.

Definition ContainsFold (s substr : gostr) : bool :=
  match substr, s with
  | [], _ => true
  | _, [] => false
  | c :: _, _ =>
      let firstRune := if bz c <? RuneSelf then bz c else (DecodeRune substr).1 in
      containsFoldLoop (length s) (SimpleFold firstRune) s substr
  end.
End unicode.

(** * Floating-point numbers *)

(** Numbers of 64 bits, as Go's [float64] rounds them. *)
Abbreviation float64 := spec_float.
#[global] Instance float64_eq_dec : EqDecision float64.
Proof. solve_decision. Defined.
Definition floatZero : float64 := S754_zero false.
Definition floatOf (z : Z) : float64 := binary_normalize 53 1024 z 0 false.
Definition fdiv (a b : float64) : float64 := SFdiv 53 1024 a b.
Definition fltb (a b : float64) : bool := SFltb a b.
Definition fleb (a b : float64) : bool := SFleb a b.
Definition feqb (a b : float64) : bool := SFeqb a b.

(** [strconv.ParseFloat(s, 64)]: a sign, then an infinity, a NaN, or decimal
    digits with at most one point and an exponent; the value is rounded
    once.  [None] is a syntax error or a number out of range. *)
Definition lowerAscii (c : ascii) : ascii := if (65 <=? bz c) && (bz c <=? 90) then zb (bz c + 32) else c.

Fixpoint floatDigits (s : gostr) (mant exp : Z) (sawdot sawdigits : bool) : Z * Z * bool * gostr :=
  match s with
  | c :: s' =>
      if isDigitB c then floatDigits s' (mant * 10 + (bz c - 48)) (if sawdot then exp - 1 else exp) sawdot true
      else if decide (c = "."%char) then
        if sawdot then (mant, exp, sawdigits, s) else floatDigits s' mant exp true sawdigits
      else (mant, exp, sawdigits, s)
  | [] => (mant, exp, sawdigits, [])
  end.

(** The exponent after an e: its value stops growing at 10000. *)
Definition floatExp (s : gostr) : option Z :=
  let '(sign, s) := match s with
                    | c :: s' => if decide (c = "+"%char) then (1, s') else if decide (c = "-"%char) then (-1, s') else (1, s)
                    | [] => (1, [])
                    end in
  match s with
  | [] => None
  | _ => if forallb isDigitB s then Some (sign * foldl (fun e c => if e <? 10000 then e * 10 + (bz c - 48) else e) 0 s) else None
  end.

Definition floatOfDecimal (neg : bool) (mant exp : Z) : float64 :=
  match mant with
  | Zpos m =>
      if 0 <=? exp then binary_normalize 53 1024 (if neg then - (mant * 10 ^ exp) else mant * 10 ^ exp) 0 neg
      else SFdiv 53 1024 (S754_finite neg m 0) (S754_finite false (Z.to_pos (10 ^ (- exp))) 0)
  | _ => S754_zero neg
  end.

Definition ParseFloat (s : gostr) : option float64 :=
  let '(neg, rest) := match s with
                      | c :: s' => if decide (c = "+"%char) then (false, s') else if decide (c = "-"%char) then (true, s') else (false, s)
                      | [] => (false, [])
                      end in
  let low := map lowerAscii rest in
  if bool_decide (low ∈ [gs "inf"; gs "infinity"]) then Some (S754_infinity neg)
  else if bool_decide (map lowerAscii s = gs "nan") then Some S754_nan
  else
    let '(mant, exp, sawdigits, rest) := floatDigits rest 0 0 false false in
    if negb sawdigits then None
    else
      let check exp :=
        let f := floatOfDecimal neg mant exp in
        match f with S754_infinity _ => None | _ => Some f end in
      match rest with
      | [] => check exp
      | c :: rest => if decide (lowerAscii c = "e"%char) then floatExp rest ≫= fun e => check (exp + e) else None
      end.
