(* ===== verification/Schema.v ===== *)
(** Schema blobs: pkg/schema/schema.go and blob.go.

    A [Builder] is a map that [mapJSON] prints; a [superset] is what the
    decoder fills from the text.  The superset is the table of its struct tags
    ([supersetFields]) and the values of the fields set. *)

From S2P Require Import Prelude Ref Strutil Sha1 Storage Json Times.

Definition maxBlobSize : Z := 2 ^ 20.
Definition MaxSchemaBlobSize : Z := 2 ^ 20.

(** * The superset *)

(** A ["parts"] element. *)
Record BytesPart := MkPart { bp_Size : Z; bp_BlobRef : Ref; bp_BytesRef : Ref; bp_Offset : Z }.
Definition zeroPart : BytesPart := MkPart 0 zeroRef zeroRef 0.

#[global] Instance BytesPart_eq_dec : EqDecision BytesPart.
Proof. solve_decision. Defined.

Inductive fieldKind := KString | KInt | KBool | KRef | KRefs | KMixed | KParts | KTime | KAny.

Inductive fieldVal :=
| FString (s : gostr)
| FInt (z : Z)
| FBool (b : bool)
| FRef (r : Ref)
| FRefs (l : list Ref)
| FMixed (l : list json)                   (* []interface{} *)
| FParts (l : list (option BytesPart))     (* []*BytesPart; None is nil *)
| FTime (t : gotime)                       (* types.Time3339 *)
| FAny (v : json).                         (* interface{}; JNull is nil *)

Definition zeroField (k : fieldKind) : fieldVal :=
  match k with
  | KString => FString [] | KInt => FInt 0 | KBool => FBool false | KRef => FRef zeroRef
  | KRefs => FRefs [] | KMixed => FMixed [] | KParts => FParts [] | KTime => FTime 0 | KAny => FAny JNull
  end.

(** The fields of [superset], by their JSON names ([BlobRef] has no tag). *)
Definition supersetFields : list (gostr * fieldKind) :=
  [(gs "BlobRef", KRef); (gs "camliVersion", KInt); (gs "camliType", KString);
   (gs "camliSigner", KRef); (gs "camliSig", KString); (gs "claimType", KString);
   (gs "claimDate", KTime); (gs "permaNode", KRef); (gs "attribute", KString); (gs "value", KString);
   (gs "fileName", KString); (gs "fileNameBytes", KMixed);
   (gs "symlinkTarget", KString); (gs "symlinkTargetBytes", KMixed);
   (gs "unixPermission", KString); (gs "unixOwnerId", KInt); (gs "unixOwner", KString);
   (gs "unixGroupId", KInt); (gs "unixGroup", KString); (gs "unixMtime", KString);
   (gs "unixCtime", KString); (gs "unixAtime", KString); (gs "parts", KParts);
   (gs "entries", KRef); (gs "members", KRefs); (gs "search", KAny);
   (gs "target", KRef); (gs "transitive", KBool); (gs "authType", KString);
   (gs "expires", KTime)].

(** The fields that have been set; the others are zero. *)
Abbreviation superset := (gmap gostr fieldVal).

Definition strField (name : gostr) (ss : superset) : gostr :=
  match ss !! name with Some (FString s) => s | _ => [] end.
Definition refField (name : gostr) (ss : superset) : Ref :=
  match ss !! name with Some (FRef r) => r | _ => zeroRef end.
Definition mixedField (name : gostr) (ss : superset) : list json :=
  match ss !! name with Some (FMixed l) => l | _ => [] end.
Definition ss_BlobRef : superset -> Ref := refField (gs "BlobRef").
Definition ss_Type : superset -> gostr := strField (gs "camliType").
Definition ss_Parts (ss : superset) : list (option BytesPart) :=
  match ss !! gs "parts" with Some (FParts l) => l | _ => [] end.
Definition ss_Members (ss : superset) : list Ref :=
  match ss !! gs "members" with Some (FRefs l) => l | _ => [] end.
Definition setBlobRef (r : Ref) (ss : superset) : superset := <[gs "BlobRef" := FRef r]> ss.

(** * Claim types *)

Definition SetAttributeClaim : gostr := gs "set-attribute".
Definition AddAttributeClaim : gostr := gs "add-attribute".
Definition DelAttributeClaim : gostr := gs "del-attribute".
Definition ShareClaim : gostr := gs "share".
Definition DeleteClaim : gostr := gs "delete".
Definition ShareHaveRef : gostr := gs "haveref".

(** * Decoding *)

Definition errJSON : error := ErrMsg "encoding/json".

(** Field names are matched exactly, else up to the case of ASCII letters. *)
Definition foldByte (c : ascii) : Z := if inByte 65 90 c then bz c + 32 else bz c.
Definition foldEq (a b : gostr) : bool := bool_decide (map foldByte a = map foldByte b).

Definition findField (fields : list (gostr * fieldKind)) (key : gostr) : option (gostr * fieldKind) :=
  match list_find (fun f => f.1 = key) fields with
  | Some (_, f) => Some f
  | None => snd <$> list_find (fun f => foldEq f.1 key = true) fields
  end.

Definition decodeInt (v : json) (old : Z) : res Z :=
  match v with
  | JNull => Ok old
  | JNum lit =>
      let neg := bool_decide (head lit = Some "-"%char) in
      match ParseUintBytes (if neg then drop 1 lit else lit) 10 64 with
      | (n, None) => if n <? 2 ^ 63 + (if neg then 1 else 0) then Ok (if neg then - n else n) else Err errJSON
      | _ => Err errJSON
      end
  | _ => Err errJSON
  end.

Definition decodeUint64 (v : json) (old : Z) : res Z :=
  match v with
  | JNull => Ok old
  | JNum lit => match ParseUintBytes lit 10 64 with (n, None) => Ok n | _ => Err errJSON end
  | _ => Err errJSON
  end.

(** [blob.Ref] is an [Unmarshaler]: it is given the text of the value, which
    for anything but a string or null is not in quotes. *)
Definition decodeRef (v : json) (old : Ref) : res Ref :=
  match v with
  | JNull => UnmarshalJSON old jsonNull
  | JStr raw => UnmarshalJSON old (quoted raw)
  | _ => Err errJSON
  end.

(** The elements of a slice are decoded over those it had. *)
Fixpoint decodeSlice {A} (f : json -> A -> res A) (zero : A) (vs : list json) (old : list A) : res (list A) :=
  match vs with
  | [] => Ok []
  | v :: vs =>
      let? x := f v (default zero (head old)) in
      let? xs := decodeSlice f zero vs (tail old) in Ok (x :: xs)
  end.

Definition partFields : list (gostr * fieldKind) :=
  [(gs "size", KInt); (gs "blobRef", KRef); (gs "bytesRef", KRef); (gs "offset", KInt)].

Definition decodePartField (p : BytesPart) (kv : gostr * json) : res BytesPart :=
  match findField partFields (unquote kv.1) with
  | None => Ok p
  | Some (name, _) =>
      if decide (name = gs "size") then
        let? z := decodeUint64 kv.2 (bp_Size p) in Ok (MkPart z (bp_BlobRef p) (bp_BytesRef p) (bp_Offset p))
      else if decide (name = gs "blobRef") then
        let? r := decodeRef kv.2 (bp_BlobRef p) in Ok (MkPart (bp_Size p) r (bp_BytesRef p) (bp_Offset p))
      else if decide (name = gs "bytesRef") then
        let? r := decodeRef kv.2 (bp_BytesRef p) in Ok (MkPart (bp_Size p) (bp_BlobRef p) r (bp_Offset p))
      else
        let? z := decodeUint64 kv.2 (bp_Offset p) in Ok (MkPart (bp_Size p) (bp_BlobRef p) (bp_BytesRef p) z)
  end.

Definition decodePart (v : json) (old : option BytesPart) : res (option BytesPart) :=
  match v with
  | JNull => Ok None
  | JObj ms => let? p := rfold decodePartField ms (default zeroPart old) in Ok (Some p)
  | _ => Err errJSON
  end.

(** [Time3339] is an [Unmarshaler] too; what is in the quotes is not unescaped. *)
Definition decodeTime (v : json) : res gotime :=
  match v with
  | JNull => Ok 0
  | JStr raw => match unmarshalTime raw with Some t => Ok t | None => Err errJSON end
  | _ => Err errJSON
  end.

(** One field; a value of the wrong type is an error. *)
Definition decodeField (v : json) (old : fieldVal) : res fieldVal :=
  match old with
  | FString s => match v with JNull => Ok old | JStr raw => Ok (FString (unquote raw)) | _ => Err errJSON end
  | FInt z => let? z := decodeInt v z in Ok (FInt z)
  | FBool b => match v with JNull => Ok old | JBool b => Ok (FBool b) | _ => Err errJSON end
  | FRef r => let? r := decodeRef v r in Ok (FRef r)
  | FRefs l =>
      match v with
      | JNull => Ok (FRefs [])
      | JArr vs => let? l := decodeSlice decodeRef zeroRef vs l in Ok (FRefs l)
      | _ => Err errJSON
      end
  | FMixed l => match v with JNull => Ok (FMixed []) | JArr vs => Ok (FMixed vs) | _ => Err errJSON end
  | FParts l =>
      match v with
      | JNull => Ok (FParts [])
      | JArr vs => let? l := decodeSlice decodePart None vs l in Ok (FParts l)
      | _ => Err errJSON
      end
  | FTime t => let? t := decodeTime v in Ok (FTime t)
  | FAny _ => Ok (FAny v)
  end.

Definition decodeMember (ss : superset) (kv : gostr * json) : res superset :=
  match findField supersetFields (unquote kv.1) with
  | None => Ok ss
  | Some (name, kind) =>
      let? x := decodeField kv.2 (default (zeroField kind) (ss !! name)) in Ok (<[name := x]> ss)
  end.

Definition decodeSuperset (v : json) : res superset :=
  match v with
  | JNull => Ok ∅
  | JObj ms => rfold decodeMember ms ∅
  | _ => Err errJSON
  end.

(** The decoder reads one value from the first megabyte. *)
Definition parseSuperset (src : reader) : res superset :=
  let src := limitReader MaxSchemaBlobSize src in
  match decodeValue src.1 with
  | Some v => decodeSuperset v
  | None => let? _ := src.2 in Err errJSON
  end.

(** * Names *)

(** A number of an array, as the byte it was ([byte(num)]); only those written
    as integers. *)
Definition numByte (lit : gostr) : gostr :=
  match ParseUintBytes lit 10 64 with (n, None) => [zb n] | _ => [] end.

Definition stringFromMixedArray (parts : list json) : gostr :=
  flat_map (fun part => match part with JStr raw => unquote raw | JNum lit => numByte lit | _ => [] end) parts.

(** How many bytes in front are valid UTF-8.  The inner [for] never ends on a
    replacement character that is encoded properly. *)
Fixpoint utf8StrLenLoop (fuel : nat) (i : nat) (s : gostr) : res nat :=
  match fuel with
  | O => Ok i
  | S fuel =>
      match s with
      | [] => Ok i
      | _ =>
          match runeSize s with
          | None => Ok i
          | Some n => if decide (take n s = runeError) then Blocked else utf8StrLenLoop fuel (i + n) (drop n s)
          end
      end
  end.

Definition utf8StrLen (s : gostr) : res nat := utf8StrLenLoop (length s) 0 s.

Fixpoint mixedArrayLoop (fuel : nat) (s : gostr) : res (list goval) :=
  match fuel with
  | O => Ok []
  | S fuel =>
      match s with
      | [] => Ok []
      | c :: s' =>
          let? n := utf8StrLen s in
          if decide (0 < n)%nat then
            let? parts := mixedArrayLoop fuel (drop n s) in Ok (VStr (take n s) :: parts)
          else let? parts := mixedArrayLoop fuel s' in Ok (VInt (bz c) :: parts)
      end
  end.

Definition mixedArrayFromString (s : gostr) : res (list goval) := mixedArrayLoop (length s) s.

Definition FileNameString (ss : superset) : gostr :=
  let v := strField (gs "fileName") ss in
  let v := if decide (v = []) then stringFromMixedArray (mixedField (gs "fileNameBytes") ss) else v in
  if bool_decide ("/"%char ∈ v) || bool_decide (backslash ∈ v) then [] else v.

Definition HasFilename (ss : superset) (name : gostr) : bool := bool_decide (FileNameString ss = name).

Definition SymlinkTargetString (ss : superset) : gostr :=
  let v := strField (gs "symlinkTarget") ss in
  if decide (v = []) then stringFromMixedArray (mixedField (gs "symlinkTargetBytes") ss) else v.

(** Wraps around; a nil part is a nil dereference. *)
Definition SumPartsSize (ss : superset) : res Z :=
  rfold (fun size p => match p with Some p => Ok (u64 (size + bp_Size p)) | None => Panic "nil pointer dereference" end)
    (ss_Parts ss) 0.

(** * The builder *)

Abbreviation Builder := (gmap gostr goval).

Definition base (version : Z) (ctype : gostr) : Builder :=
  <[gs "camliVersion" := VInt version]> (<[gs "camliType" := VStr ctype]> ∅).

Definition newBytes : Builder := base 1 (gs "bytes").

Definition SetType (bb : Builder) (t : gostr) : Builder := <[gs "camliType" := VStr t]> bb.

Definition Type_ (bb : Builder) : gostr :=
  match bb !! gs "camliType" with Some (VStr s) => s | _ => [] end.

Definition SetRawStringField (bb : Builder) (key value : gostr) : Builder := <[key := VStr value]> bb.

Fixpoint dropSlashes (s : gostr) : gostr :=
  match s with c :: s' => if decide (c = "/"%char) then dropSlashes s' else s | [] => [] end.
Fixpoint beforeSlash (s : gostr) : gostr :=
  match s with c :: s' => if decide (c = "/"%char) then [] else c :: beforeSlash s' | [] => [] end.

(** [filepath.Base] where the separator is the slash. *)
Definition filepathBase (path : gostr) : gostr :=
  match path with
  | [] => gs "."
  | _ => match rev (beforeSlash (dropSlashes (rev path))) with [] => gs "/" | b => b end
  end.

Definition SetFileName (bb : Builder) (name : gostr) : res Builder :=
  let baseName := filepathBase name in
  if ValidString baseName then Ok (<[gs "fileName" := VStr baseName]> bb)
  else let? parts := mixedArrayFromString baseName in Ok (<[gs "fileNameBytes" := VArr parts]> bb).

Definition SetSymlinkTarget (bb : Builder) (target : gostr) : res Builder :=
  let bb := SetType bb (gs "symlink") in
  if ValidString target then Ok (<[gs "symlinkTarget" := VStr target]> bb)
  else let? parts := mixedArrayFromString target in Ok (<[gs "symlinkTargetBytes" := VArr parts]> bb).

Definition newCommonFilenameMap (fileName : gostr) : res Builder :=
  let bb := base 1 [] in if decide (fileName = []) then Ok bb else SetFileName bb fileName.

Definition NewFileMap (fileName : gostr) : res Builder :=
  let? bb := newCommonFilenameMap fileName in Ok (SetType bb (gs "file")).
Definition NewDirMap (fileName : gostr) : res Builder :=
  let? bb := newCommonFilenameMap fileName in Ok (SetType bb (gs "directory")).

Definition PopulateDirectoryMap (bb : Builder) (staticSetRef : Ref) : Builder :=
  <[gs "entries" := VStr (RefString staticSetRef)]> (SetType bb (gs "directory")).

(** The map of one part. *)
Definition partMap (part : BytesPart) : res goval :=
  let? ref :=
    match Valid (bp_BlobRef part), Valid (bp_BytesRef part) with
    | true, true => Err (ErrMsg "schema: part contains both BlobRef and BytesRef")
    | true, false => Ok (gs "blobRef", bp_BlobRef part)
    | false, true => Ok (gs "bytesRef", bp_BytesRef part)
    | false, false => Err (ErrMsg "schema: part must contain either a BlobRef or BytesRef")
    end in
  let m := <[ref.1 := VStr (RefString ref.2)]> (∅ : Builder) in
  let m := <[gs "size" := VInt (bp_Size part)]> m in
  Ok (VMap (sortedPairs (if bp_Offset part =? 0 then m else <[gs "offset" := VInt (bp_Offset part)]> m))).

Fixpoint partMaps (parts : list BytesPart) (sumSize : Z) : res (list goval * Z) :=
  match parts with
  | [] => Ok ([], sumSize)
  | part :: parts =>
      let? m := partMap part in
      let? (ms, sum) := partMaps parts (i64 (sumSize + i64 (bp_Size part))) in Ok (m :: ms, sum)
  end.

Definition populateParts (m : Builder) (size : Z) (parts : list BytesPart) : res Builder :=
  let? (mparts, sumSize) := partMaps parts 0 in
  if sumSize =? size then Ok (<[gs "parts" := VArr mparts]> m)
  else Err (ErrMsg "schema: declared size %d doesn't match sum of parts size %d").

Definition PopulateParts := populateParts.

(** [%v] of a version, which is an int or a string. *)
Definition showVersion (v : goval) : gostr :=
  match v with VInt z => itoa z | VStr s => s | _ => [] end.

Definition mapJSON (m : Builder) : res gostr :=
  match m !! gs "camliVersion" with
  | None => Err (ErrMsg "schema: no camliVersion key in map")
  | Some version =>
      let jsonBytes := render 0 (VMap (sortedPairs (delete (gs "camliVersion") m))) in
      Ok (gs "{" ++ quoted (gs "camliVersion") ++ gs ": " ++ showVersion version ++ gs "," ++ ["010"%char] ++ drop 2 jsonBytes)
  end.

(** * Blobs *)

Record Blob := MkBlob { b_br : Ref; b_str : gostr; b_ss : superset }.

(** [Builder.Blob]: an error of either step is a panic. *)
Definition orPanic {A} (r : res A) : res A := match r with Err _ => Panic "schema: Builder.Blob" | _ => r end.
Definition Blob_ (bb : Builder) : res Blob :=
  let? json := orPanic (mapJSON bb) in
  let? ss := orPanic (parseSuperset (json, Ok tt)) in
  Ok (MkBlob (refOf json) json ss).

Definition ByteParts (b : Blob) : res (list BytesPart) :=
  foldr (fun p acc => match p with Some p => let? l := acc in Ok (p :: l) | None => Panic "nil pointer dereference" end)
    (Ok []) (ss_Parts (b_ss b)).

Definition StaticSetMembers (b : Blob) : list Ref :=
  if decide (ss_Type (b_ss b) = gs "static-set") then filter (fun r => Valid r = true) (ss_Members (b_ss b)) else [].

Definition DirectoryEntries (b : Blob) : option Ref :=
  if decide (ss_Type (b_ss b) = gs "directory") then Some (refField (gs "entries") (b_ss b)) else None.

Definition isStaticFile (b : Blob) : bool :=
  bool_decide (ss_Type (b_ss b) ∈ [gs "file"; gs "symlink"; gs "fifo"; gs "socket"]).

Definition staticSetBlob (refs : list Ref) : res Blob :=
  Blob_ (<[gs "members" := VArr ((fun r => VStr (RefString r)) <$> refs)]> (base 1 (gs "static-set"))).

Definition LikelySchemaBlob (buf : gostr) : bool :=
  match buf with
  | c :: _ => bool_decide (c = "{"%char) && existsb (fun i => isAt (gs "camliVersion") buf i) (seq 0 (length buf))
  | [] => false
  end.

(** * Text lemmas *)

Lemma escapeByte_plain c : refChar c -> escapeByte c = [c] /\ bz c < 128.
Proof.
  intros Hc%refChar_range. destruct Hc as (Hr & H1 & H2 & H3). split; [|lia]. unfold escapeByte.
  rewrite (bool_decide_eq_false_2 (c = backslash)) by (intros ->; by apply H3).
  rewrite (bool_decide_eq_false_2 (c = dquote)) by (intros ->; change (bz dquote) with 34 in Hr; lia). cbn [orb].
  rewrite !(proj2 (Z.eqb_neq _ _)) by lia. rewrite (proj2 (Z.ltb_ge _ _)) by lia.
  rewrite !(bool_decide_eq_false_2) by (first [done|intros ->; change (bz "&") with 38 in Hr; lia]). done.
Qed.

Lemma escapeLoop_plain fuel s : (length s <= fuel)%nat -> Forall refChar s -> escapeLoop fuel s = s.
Proof.
  revert s. induction fuel as [|fuel IH]; intros s Hl Hs; [by destruct s; simpl in Hl; [|lia]|].
  destruct Hs as [|c s Hc Hs]; [done|]. simpl in Hl. cbn [escapeLoop].
  destruct (escapeByte_plain c Hc) as [-> Hlt]. rewrite (proj2 (Z.ltb_lt _ _)) by done. cbn [app]. f_equal. apply IH; [lia|done].
Qed.

Lemma escape_ref r : refWf r = true -> escape (RefString r) = RefString r.
Proof. intros Hr. apply escapeLoop_plain; [done|by apply RefString_chars]. Qed.

Lemma decodeRef_text r : refWf r = true -> decodeRef (JStr (escape (RefString r))) zeroRef = Ok r.
Proof. intros Hr. rewrite escape_ref by done. by apply UnmarshalJSON_text. Qed.

Lemma decodeUint64_itoa z : 0 <= z < 2 ^ 64 -> decodeUint64 (JNum (itoa z)) 0 = Ok z.
Proof. intros Hz. unfold decodeUint64. by rewrite itoa_parse by lia. Qed.

Lemma decodeInt_itoa z : 0 <= z < 2 ^ 63 -> decodeInt (JNum (itoa z)) 0 = Ok z.
Proof.
  intros Hz. unfold decodeInt. destruct (itoa_spec z ltac:(lia)) as (Hd & Hne & _).
  rewrite bool_decide_eq_false_2.
  - rewrite itoa_parse by lia. by rewrite (proj2 (Z.ltb_lt _ _)) by lia.
  - destruct (itoa z) as [|c t]; [done|]. intros [= ->]. apply Forall_cons in Hd as [Hc _]. revert Hc. not_digit.
Qed.

(** * Parts *)

Definition partOk (p : BytesPart) : Prop :=
  0 <= bp_Size p < 2 ^ 64 /\ 0 <= bp_Offset p < 2 ^ 64 /\
  ((refWf (bp_BlobRef p) = true /\ bp_BytesRef p = zeroRef) \/ (bp_BlobRef p = zeroRef /\ refWf (bp_BytesRef p) = true)).

(** The pairs of a part's map, in key order. *)
Definition partPairs (p : BytesPart) : list (gostr * goval) :=
  let off := if bp_Offset p =? 0 then [] else [(gs "offset", VInt (bp_Offset p))] in
  if Valid (bp_BlobRef p)
  then (gs "blobRef", VStr (RefString (bp_BlobRef p))) :: off ++ [(gs "size", VInt (bp_Size p))]
  else (gs "bytesRef", VStr (RefString (bp_BytesRef p))) :: off ++ [(gs "size", VInt (bp_Size p))].

(** A concrete map of two or three keys in order. *)
Lemma sorted_pairs_of (l : list (gostr * goval)) (m : Builder) :
  m = list_to_map l -> StronglySorted key_lt l -> sortedPairs m = l.
Proof.
  intros -> Hs. symmetry. apply sortedPairs_unique; [done|]. intros k v.
  rewrite elem_of_list_to_map; [done|].
  clear -Hs. induction Hs as [|p l _ IH Hf]; [constructor|]. cbn. constructor; [|done].
  intros (q & Hq & Hin)%list_elem_of_fmap. rewrite Forall_forall in Hf. specialize (Hf q Hin).
  unfold key_lt in Hf. rewrite Hq in Hf. by eapply str_lt_irrefl.
Qed.

Lemma partMap_sorted name v p : name = gs "blobRef" \/ name = gs "bytesRef" ->
  sortedPairs (let m := <[gs "size" := VInt (bp_Size p)]> (<[name := v]> (∅ : Builder)) in
    if bp_Offset p =? 0 then m else <[gs "offset" := VInt (bp_Offset p)]> m) =
  (name, v) :: (if bp_Offset p =? 0 then [] else [(gs "offset", VInt (bp_Offset p))]) ++ [(gs "size", VInt (bp_Size p))].
Proof.
  intros Hn. assert (name ≠ gs "offset" /\ name ≠ gs "size") as [Ho Hs] by (by destruct Hn as [->| ->]).
  apply sorted_pairs_of.
  - cbn zeta. destruct (bp_Offset p =? 0); cbn [app list_to_map foldr fst snd uncurry].
    + by rewrite insert_insert_ne.
    + by rewrite (insert_insert_ne _ name (gs "offset")), (insert_insert_ne _ name (gs "size")) by done.
  - destruct Hn as [->| ->], (bp_Offset p =? 0); repeat constructor.
Qed.

Lemma partMap_ok p : partOk p -> partMap p = Ok (VMap (partPairs p)).
Proof.
  intros (_ & _ & Href). unfold partMap, partPairs. destruct Href as [[Hb Hy]|[Hb Hy]].
  - rewrite (refWf_Valid _ Hb), Hy. change (Valid zeroRef) with false. cbn iota. cbn [rbind fst snd].
    do 2 f_equal. apply partMap_sorted. by left.
  - rewrite Hb, (refWf_Valid _ Hy). change (Valid zeroRef) with false. cbn iota. cbn [rbind fst snd].
    do 2 f_equal. apply partMap_sorted. by right.
Qed.

(** The part a reader gets back. *)
Lemma decodePart_ok p : partOk p -> decodePart (jsonOf (VMap (partPairs p))) None = Ok (Some p).
Proof.
  intros (Hs & Ho & Href). unfold partPairs.
  assert (forall q z, 0 <= z < 2 ^ 64 -> bp_Size q = 0 ->
    decodePartField q (escape (gs "size"), JNum (itoa z)) = Ok (MkPart z (bp_BlobRef q) (bp_BytesRef q) (bp_Offset q))) as Hsize.
  { intros q z Hz Hq. unfold decodePartField. cbn [fst snd].
    replace (findField partFields (unquote (escape (gs "size")))) with (Some (gs "size", KInt)) by (vm_compute; reflexivity).
    rewrite decide_True by done. by rewrite Hq, decodeUint64_itoa. }
  assert (forall q z, 0 <= z < 2 ^ 64 -> bp_Offset q = 0 ->
    decodePartField q (escape (gs "offset"), JNum (itoa z)) = Ok (MkPart (bp_Size q) (bp_BlobRef q) (bp_BytesRef q) z)) as Hoff.
  { intros q z Hz Hq. unfold decodePartField. cbn [fst snd].
    replace (findField partFields (unquote (escape (gs "offset")))) with (Some (gs "offset", KInt)) by (vm_compute; reflexivity).
    rewrite !decide_False by done. by rewrite Hq, decodeUint64_itoa. }
  assert (forall q r, refWf r = true -> bp_BlobRef q = zeroRef ->
    decodePartField q (escape (gs "blobRef"), JStr (escape (RefString r))) = Ok (MkPart (bp_Size q) r (bp_BytesRef q) (bp_Offset q))) as Hblob.
  { intros q r Hr Hq. unfold decodePartField. cbn [fst snd].
    replace (findField partFields (unquote (escape (gs "blobRef")))) with (Some (gs "blobRef", KRef)) by (vm_compute; reflexivity).
    rewrite decide_False by done. rewrite decide_True by done. by rewrite Hq, decodeRef_text. }
  assert (forall q r, refWf r = true -> bp_BytesRef q = zeroRef ->
    decodePartField q (escape (gs "bytesRef"), JStr (escape (RefString r))) = Ok (MkPart (bp_Size q) (bp_BlobRef q) r (bp_Offset q))) as Hbytes.
  { intros q r Hr Hq. unfold decodePartField. cbn [fst snd].
    replace (findField partFields (unquote (escape (gs "bytesRef")))) with (Some (gs "bytesRef", KRef)) by (vm_compute; reflexivity).
    do 2 (rewrite decide_False by done). rewrite decide_True by done. by rewrite Hq, decodeRef_text. }
  destruct p as [sz b y off]. cbn [bp_Size bp_Offset bp_BlobRef bp_BytesRef] in *.
  destruct Href as [[Hb ->]|[-> Hy]].
  - rewrite (refWf_Valid _ Hb). destruct (Z.eqb_spec off 0) as [->|Hne];
      cbn [app jsonOf map decodePart default rfold foldl rbind fst snd].
    + rewrite Hblob by done. cbn [rbind]. by rewrite Hsize.
    + rewrite Hblob by done. cbn [rbind]. rewrite Hoff by done. cbn [rbind]. by rewrite Hsize.
  - change (Valid zeroRef) with false. cbn iota. destruct (Z.eqb_spec off 0) as [->|Hne];
      cbn [app jsonOf map decodePart default rfold foldl rbind fst snd].
    + rewrite Hbytes by done. cbn [rbind]. by rewrite Hsize.
    + rewrite Hbytes by done. cbn [rbind]. rewrite Hoff by done. cbn [rbind]. by rewrite Hsize.
Qed.

Lemma partMaps_ok parts : Forall partOk parts -> forall sum,
  partMaps parts sum = Ok ((fun p => VMap (partPairs p)) <$> parts, foldl (fun s p => i64 (s + i64 (bp_Size p))) sum parts).
Proof.
  induction 1 as [|p parts Hp _ IH]; intros sum; [done|]. cbn [partMaps]. rewrite partMap_ok by done. cbn [rbind].
  rewrite IH. done.
Qed.

Lemma decodeSlice_parts parts : Forall partOk parts ->
  decodeSlice decodePart None (map (fun p => jsonOf (VMap (partPairs p))) parts) [] = Ok (Some <$> parts).
Proof.
  induction 1 as [|p parts Hp _ IH]; [done|]. cbn [map decodeSlice head tail default].
  rewrite decodePart_ok by done. cbn [rbind]. rewrite IH. done.
Qed.

(** * Printing and reading back a builder *)

(** What a reader makes of a key's value. *)
Definition fieldOf (k : gostr) (v : goval) : option fieldVal :=
  match findField supersetFields k with
  | Some (name, kind) =>
      match decodeField (jsonOf v) (zeroField kind) with Ok x => Some x | _ => None end
  | None => None
  end.

(** Keys of the table with values of their kind, which print as they should. *)
Definition pairOk (k : gostr) (v : goval) : Prop :=
  valOk v /\ ValidString k = true /\ (exists kind, findField supersetFields k = Some (k, kind)) /\ is_Some (fieldOf k v).

Definition builderOk (bb : Builder) : Prop := forall k v, bb !! k = Some v -> pairOk k v.

Lemma decode_members l ss :
  (forall k v, (k, v) ∈ l -> pairOk k v /\ ss !! k = None) -> NoDup l.*1 ->
  exists ss', rfold decodeMember (map (fun p => (escape p.1, jsonOf p.2)) l) ss = Ok ss' /\
    forall k, ss' !! k = match (list_to_map l : Builder) !! k with Some v => fieldOf k v | None => ss !! k end.
Proof.
  revert ss. induction l as [|[k v] l IH]; intros ss Hl Hn.
  { exists ss. split; [done|]. intros k. cbn [list_to_map foldr]. by rewrite lookup_empty. }
  apply NoDup_cons in Hn as [Hk Hn]. destruct (Hl k v) as [(_ & Hv & (kind & Hkind) & [x Hx]) Hnone]; [apply list_elem_of_here|].
  assert (decodeMember ss (escape k, jsonOf v) = Ok (<[k := x]> ss)) as Hm.
  { unfold decodeMember. cbn [fst snd]. rewrite unquote_escape by done. rewrite Hkind, Hnone. cbn [default].
    unfold fieldOf in Hx. rewrite Hkind in Hx. destruct (decodeField _ _); [|done..]. injection Hx as ->. done. }
  destruct (IH (<[k := x]> ss)) as (ss' & Hss & Hlk); [|done|].
  { intros k' v' Hin. destruct (Hl k' v') as [Hp Hnone']; [by apply list_elem_of_further|]. split; [done|].
    rewrite lookup_insert_ne; [done|]. intros ->. apply Hk. apply list_elem_of_fmap. by exists (k', v'). }
  exists ss'. split.
  - unfold rfold in *. cbn [map foldl rbind fst snd]. by rewrite Hm.
  - intros k'. rewrite Hlk, list_to_map_cons. destruct (decide (k = k')) as [<-|Hne].
    + rewrite (not_elem_of_list_to_map_1 l k) by done. by rewrite !lookup_insert_eq, Hx.
    + by rewrite !lookup_insert_ne.
Qed.

Definition headPair (z : Z) : gostr * goval := (gs "camliVersion", VInt z).

(** The printed text: the version, then the other pairs. *)
Lemma mapJSON_text bb z q l : bb !! gs "camliVersion" = Some (VInt z) ->
  sortedPairs (delete (gs "camliVersion") bb) = q :: l ->
  mapJSON bb = Ok ("{"%char :: pairText 1 (headPair z) ++ membersTail 0 (q :: l) []).
Proof.
  intros Hz Hl. unfold mapJSON. rewrite Hz, Hl. f_equal.
  unfold pairText, membersTail. cbn [flat_map fst snd headPair]. destruct q as [k x]. cbn [render fst snd].
  replace (escape (gs "camliVersion")) with (gs "camliVersion") by (vm_compute; reflexivity).
  change (gs "{" ++ newline 1 ++ ?t) with ("{"%char :: "010"%char :: " "%char :: " "%char :: t). cbn [drop].
  rewrite app_nil_r, <- !app_assoc. unfold pairText. cbn [fst snd]. rewrite <- !app_assoc. reflexivity.
Qed.

(** An object's text, up to its members. *)
Lemma parseValue_object fuel p t : parseValue (S fuel) ("{"%char :: pairText 1 p ++ t) =
  '(ms, r) ← parseMembers fuel (pairText 1 p ++ t); Some (JObj ms, r).
Proof.
  cbn [parseValue]. rewrite skipWs_cons by done. rewrite decide_False by done. rewrite decide_True by done.
  assert (exists u, pairText 1 p = dquote :: u) as [u Hu] by (by eexists).
  rewrite Hu. cbn [app]. rewrite skipWs_cons by done. rewrite decide_False by done. done.
Qed.

(** The printed text, as the reader sees it. *)
Lemma mapJSON_decode bb z q l : bb !! gs "camliVersion" = Some (VInt z) ->
  sortedPairs (delete (gs "camliVersion") bb) = q :: l -> Forall (fun p => valOk p.2) (headPair z :: q :: l) ->
  exists text, mapJSON bb = Ok text /\
    decodeValue text = Some (JObj (map (fun p => (escape p.1, jsonOf p.2)) (headPair z :: q :: l))).
Proof.
  intros Hz Hl Hok. rewrite (mapJSON_text _ _ _ _ Hz Hl). eexists. split; [done|].
  set (text := "{"%char :: pairText 1 (headPair z) ++ membersTail 0 (q :: l) []).
  rewrite <- (decodeValue_fuel text (S (2 * length text + list_sum (map (fun p => S (valSize p.2)) (headPair z :: q :: l))))) by lia.
  unfold text. rewrite parseValue_object, parseMembers_render; [done| |done|lia].
  apply Forall_forall. intros p _. apply parse_render.
Qed.

Lemma limitReader_all n src : glen src.1 <= n -> (limitReader n src).1 = src.1.
Proof.
  intros Hn. unfold limitReader. destruct (Z.leb_spec n (glen src.1)); [|done]. cbn [fst].
  apply take_ge. unfold glen in *. lia.
Qed.

(** A builder's pairs, in the order they are printed, and what they decode to. *)
Lemma builder_pairs bb z : builderOk bb -> bb !! gs "camliVersion" = Some (VInt z) -> is_Some (bb !! gs "camliType") ->
  exists q l ss, sortedPairs (delete (gs "camliVersion") bb) = q :: l /\
    (forall k v, (k, v) ∈ headPair z :: q :: l <-> bb !! k = Some v) /\ Forall (fun p => valOk p.2) (headPair z :: q :: l) /\
    rfold decodeMember (map (fun p => (escape p.1, jsonOf p.2)) (headPair z :: q :: l)) ∅ = Ok ss /\
    forall k, ss !! k = bb !! k ≫= fieldOf k.
Proof.
  intros Hbb Hz [t Ht].
  assert (forall k v, (k, v) ∈ sortedPairs (delete (gs "camliVersion") bb) <-> k ≠ gs "camliVersion" /\ bb !! k = Some v) as Hin.
  { intros k v. rewrite elem_of_sortedPairs, lookup_delete_Some. naive_solver. }
  destruct (sortedPairs (delete (gs "camliVersion") bb)) as [|q l] eqn:El.
  { exfalso. assert ((gs "camliType", t) ∈ @nil (gostr * goval)) as Hx by (by apply Hin). set_solver. }
  set (all := headPair z :: q :: l).
  assert (forall k v, (k, v) ∈ all <-> bb !! k = Some v) as Hall.
  { intros k v. unfold all, headPair. rewrite elem_of_cons, Hin. split.
    - intros [[= -> ->]|[_ ?]]; done.
    - intros Hk. destruct (decide (k = gs "camliVersion")) as [->|]; [left; congruence|by right]. }
  assert (NoDup all.*1) as Hnd.
  { unfold all. cbn [fmap list_fmap headPair fst]. apply NoDup_cons. split.
    - change (q.1 :: l.*1) with ((q :: l).*1). intros (p & Hp & Hp')%list_elem_of_fmap. destruct p as [k v]. simpl in Hp. subst k. by apply Hin in Hp' as [? _].
    - change (q.1 :: l.*1) with ((q :: l).*1). rewrite <- El. unfold sortedPairs. rewrite merge_sort_Permutation.
      apply NoDup_fst_map_to_list. }
  destruct (decode_members all ∅) as (ss & Hss & Hlk); [|done|].
  { intros k v Hkv. split; [by apply Hbb, Hall|done]. }
  exists q, l, ss. split_and!; [done|done| |done|].
  - apply Forall_forall. intros [k v] Hkv. apply Hall, Hbb in Hkv. apply Hkv.
  - intros k. rewrite Hlk. assert ((list_to_map all : Builder) !! k = bb !! k) as ->.
    { destruct (bb !! k) as [v|] eqn:Ek.
      - apply elem_of_list_to_map_1; [done|]. by apply Hall.
      - apply not_elem_of_list_to_map_1. intros ([k' v] & Hk & Hv)%list_elem_of_fmap. simpl in Hk. subst k'. apply Hall in Hv. congruence. }
    by destruct (bb !! k).
Qed.

(** Reading back what [mapJSON] printed. *)
Lemma parseSuperset_mapJSON bb z text end_ : builderOk bb ->
  bb !! gs "camliVersion" = Some (VInt z) -> is_Some (bb !! gs "camliType") ->
  mapJSON bb = Ok text -> glen text <= MaxSchemaBlobSize ->
  exists ss, parseSuperset (text, end_) = Ok ss /\ forall k, ss !! k = bb !! k ≫= fieldOf k.
Proof.
  intros Hbb Hz Ht Htext Hlen. destruct (builder_pairs bb z Hbb Hz Ht) as (q & l & ss & El & _ & Hok & Hss & Hlk).
  destruct (mapJSON_decode bb z q l Hz El Hok) as (text' & Htext' & Hdec). assert (text' = text) as -> by congruence.
  exists ss. split; [|done]. unfold parseSuperset. rewrite limitReader_all by done. cbn [fst]. rewrite Hdec. exact Hss.
Qed.

Lemma Blob_ok bb z text : builderOk bb ->
  bb !! gs "camliVersion" = Some (VInt z) -> is_Some (bb !! gs "camliType") ->
  mapJSON bb = Ok text -> glen text <= MaxSchemaBlobSize ->
  exists b, Blob_ bb = Ok b /\ b_br b = refOf text /\ b_str b = text /\ parseSuperset (text, Ok tt) = Ok (b_ss b) /\
    forall k, b_ss b !! k = bb !! k ≫= fieldOf k.
Proof.
  intros Hbb Hz Ht Htext Hlen. destruct (parseSuperset_mapJSON bb z text (Ok tt) Hbb Hz Ht Htext Hlen) as (ss & Hss & Hlk).
  exists (MkBlob (refOf text) text ss). unfold Blob_. rewrite Htext. cbn [orPanic rbind]. rewrite Hss. done.
Qed.

(** * File names *)

Lemma validLoop_fuel f g s : (length s <= f)%nat -> (length s <= g)%nat -> validLoop f s = validLoop g s.
Proof.
  revert g s. induction f as [|f IH]; intros g s Hf Hg.
  { destruct s; [by destruct g|simpl in Hf; lia]. }
  destruct s as [|c s]; [by destruct g|]. destruct g as [|g]; [simpl in Hg; lia|]. cbn [validLoop].
  destruct (runeSize (c :: s)) as [n|] eqn:En; [|done]. pose proof (runeSize_bounds _ _ En). cbn [length] in *.
  apply IH; rewrite length_drop; simpl; lia.
Qed.

Lemma ValidString_rune s n : runeSize s = Some n -> ValidString s = ValidString (drop n s).
Proof.
  intros En. pose proof (runeSize_bounds _ _ En). unfold ValidString. destruct s as [|c s]; [simpl in *; lia|].
  cbn [length validLoop]. rewrite En. apply validLoop_fuel; rewrite length_drop; simpl in *; lia.
Qed.

Lemma utf8StrLen_valid fuel i s m : (length s <= fuel)%nat -> utf8StrLenLoop fuel i s = Ok m ->
  exists n, m = (i + n)%nat /\ (n <= length s)%nat /\ ValidString (take n s) = true.
Proof.
  revert i s. induction fuel as [|fuel IH]; intros i s Hl.
  { destruct s; [|simpl in Hl; lia]. intros [= <-]. exists 0%nat. split_and!; [lia|lia|done]. }
  cbn [utf8StrLenLoop]. destruct s as [|c s]; [intros [= <-]; exists 0%nat; split_and!; [lia|lia|done]|].
  destruct (runeSize (c :: s)) as [k|] eqn:Ek.
  - destruct (decide _) as [?|Hfffd]; [done|]. pose proof (runeSize_bounds _ _ Ek). intros H1.
    apply IH in H1 as (n & -> & Hn & Hv); [|rewrite length_drop; simpl in *; lia]. rewrite length_drop in Hn.
    exists (k + n)%nat. split_and!; [lia|lia|].
    assert (runeSize (take (k + n) (c :: s)) = Some k) as Hk.
    { pose proof (runeSize_take _ _ (take n (drop k (c :: s))) Ek) as Ht. by rewrite take_take_drop in Ht. }
    rewrite (ValidString_rune _ k Hk). by rewrite skipn_firstn_comm, Nat.add_comm, Nat.add_sub in *.
  - intros [= <-]. exists 0%nat. split_and!; [lia|lia|done].
Qed.

Lemma numByte_itoa c : numByte (itoa (bz c)) = [c].
Proof. unfold numByte. pose proof (bz_range c). rewrite itoa_parse by lia. by rewrite zb_bz. Qed.

Lemma mixedArray_ok fuel s parts : (length s <= fuel)%nat -> mixedArrayLoop fuel s = Ok parts ->
  stringFromMixedArray (map jsonOf parts) = s /\ Forall valOk parts.
Proof.
  revert s parts. induction fuel as [|fuel IH]; intros s parts Hl.
  { destruct s; [|simpl in Hl; lia]. by intros [= <-]. }
  cbn [mixedArrayLoop]. destruct s as [|c s]; [by intros [= <-]|]. intros H1.
  apply rbind_Ok in H1 as (n & Hn & H1).
  destruct (utf8StrLen_valid (length (c :: s)) 0 (c :: s) n ltac:(done) Hn) as (n' & -> & Hn' & Hv). cbn [Nat.add] in *.
  destruct (decide (0 < n')%nat) as [Hpos|Hz].
  - apply rbind_Ok in H1 as (ps & Hps & [= <-]). apply IH in Hps as [Hs Hok]; [|rewrite length_drop; simpl in *; lia].
    split; [|by constructor]. cbn [map jsonOf]. unfold stringFromMixedArray in *. cbn [flat_map].
    rewrite unquote_escape by done. rewrite Hs. by rewrite take_drop.
  - apply rbind_Ok in H1 as (ps & Hps & [= <-]). apply IH in Hps as [Hs Hok]; [|simpl in *; lia].
    split; [|constructor; [simpl; pose proof (bz_range c); lia|done]]. cbn [map jsonOf]. unfold stringFromMixedArray in *. cbn [flat_map].
    by rewrite numByte_itoa, Hs.
Qed.

Lemma mixedArray_roundtrip s parts : mixedArrayFromString s = Ok parts ->
  stringFromMixedArray (map jsonOf parts) = s /\ Forall valOk parts.
Proof. by apply mixedArray_ok. Qed.

(** * File blobs *)

Lemma pairOk_version z : 0 <= z < 2 ^ 63 -> pairOk (gs "camliVersion") (VInt z).
Proof.
  intros Hz. split_and!; [simpl; lia|by vm_compute| |].
  - exists KInt. vm_compute. reflexivity.
  - unfold fieldOf. replace (findField _ _) with (Some (gs "camliVersion", KInt)) by (vm_compute; reflexivity).
    cbn [zeroField decodeField jsonOf]. rewrite decodeInt_itoa by done. by eexists.
Qed.

Lemma pairOk_string k s : ValidString k = true -> findField supersetFields k = Some (k, KString) -> pairOk k (VStr s).
Proof.
  intros Hv Hf. split_and!; [done|done|by exists KString|]. unfold fieldOf. rewrite Hf. by eexists.
Qed.

Lemma fieldOf_string k s : findField supersetFields k = Some (k, KString) -> ValidString s = true ->
  fieldOf k (VStr s) = Some (FString s).
Proof. intros Hf Hs. unfold fieldOf. rewrite Hf. cbn [zeroField decodeField jsonOf]. by rewrite unquote_escape. Qed.

Lemma fieldOf_ref k r : findField supersetFields k = Some (k, KRef) -> refWf r = true -> fieldOf k (VStr (RefString r)) = Some (FRef r).
Proof. intros Hf Hr. unfold fieldOf. rewrite Hf. cbn [zeroField decodeField jsonOf]. by rewrite decodeRef_text. Qed.

Lemma pairOk_ref k r : ValidString k = true -> findField supersetFields k = Some (k, KRef) -> refWf r = true -> pairOk k (VStr (RefString r)).
Proof. intros Hv Hf Hr. split_and!; [done|done|by exists KRef|]. rewrite fieldOf_ref by done. by eexists. Qed.

Lemma valOk_VArr l : Forall valOk l -> valOk (VArr l).
Proof. induction 1 as [|x l Hx _ IH]; [done|]. by split. Qed.

Lemma valOk_part p : partOk p -> valOk (VMap (partPairs p)).
Proof.
  intros (Hs & Ho & _). unfold partPairs. destruct (Valid _), (bp_Offset p =? 0); cbn; lia.
Qed.

Lemma fieldOf_parts parts : Forall partOk parts ->
  fieldOf (gs "parts") (VArr ((fun p => VMap (partPairs p)) <$> parts)) = Some (FParts (Some <$> parts)).
Proof.
  intros Hp. unfold fieldOf. replace (findField _ _) with (Some (gs "parts", KParts)) by (vm_compute; reflexivity).
  cbn [zeroField decodeField jsonOf].
  assert (map jsonOf ((fun p => VMap (partPairs p)) <$> parts) = map (fun p => jsonOf (VMap (partPairs p))) parts) as ->
    by apply map_map.
  by rewrite decodeSlice_parts.
Qed.

Lemma pairOk_parts parts : Forall partOk parts ->
  pairOk (gs "parts") (VArr ((fun p => VMap (partPairs p)) <$> parts)).
Proof.
  intros Hp. split_and!; [|by vm_compute|exists KParts; vm_compute; reflexivity|].
  - apply valOk_VArr. rewrite Forall_fmap. eapply Forall_impl; [exact Hp|]. intros p. apply valOk_part.
  - rewrite fieldOf_parts by done. by eexists.
Qed.

Lemma fieldOf_mixed k l : findField supersetFields k = Some (k, KMixed) ->
  fieldOf k (VArr l) = Some (FMixed (map jsonOf l)).
Proof. intros Hf. unfold fieldOf. by rewrite Hf. Qed.

Lemma pairOk_insert bb k v : builderOk bb -> pairOk k v -> builderOk (<[k := v]> bb).
Proof. intros Hbb Hp k' v' [[<- <-]|[_ Hk]]%lookup_insert_Some; [done|]. by apply Hbb. Qed.

Lemma populateParts_inv m size parts bb : Forall partOk parts -> populateParts m size parts = Ok bb ->
  bb = <[gs "parts" := VArr ((fun p => VMap (partPairs p)) <$> parts)]> m /\
  size = foldl (fun s p => i64 (s + i64 (bp_Size p))) 0 parts.
Proof.
  intros Hp. unfold populateParts. rewrite partMaps_ok by done. cbn [rbind].
  destruct (Z.eqb_spec (foldl (fun s p => i64 (s + i64 (bp_Size p))) 0 parts) size) as [<-|]; [|done]. by intros [= <-].
Qed.

(** What a name's base reads back as. *)
Definition readName (name : gostr) : gostr :=
  if decide (name = []) then []
  else let v := filepathBase name in if bool_decide ("/"%char ∈ v) || bool_decide (backslash ∈ v) then [] else v.

Lemma filepathBase_nonempty name : filepathBase name ≠ [].
Proof. unfold filepathBase. destruct name; [done|]. by destruct (rev _). Qed.

(** The builder of a file: its keys, all readable, and the name it keeps. *)
Lemma NewFileMap_ok name bb : NewFileMap name = Ok bb ->
  builderOk bb /\ bb !! gs "camliVersion" = Some (VInt 1) /\ bb !! gs "camliType" = Some (VStr (gs "file")) /\
  bb !! gs "parts" = None /\
  forall ss : superset, ss !! gs "fileName" = bb !! gs "fileName" ≫= fieldOf (gs "fileName") ->
    ss !! gs "fileNameBytes" = bb !! gs "fileNameBytes" ≫= fieldOf (gs "fileNameBytes") ->
    FileNameString ss = readName name.
Proof.
  unfold NewFileMap. intros H1. apply rbind_Ok in H1 as (bb0 & H0 & [= <-]).
  assert (builderOk (base 1 [])) as Hbase.
  { unfold base. apply pairOk_insert; [apply pairOk_insert; [by intros k v|]|by apply pairOk_version].
    by apply pairOk_string; vm_compute. }
  assert (pairOk (gs "camliType") (VStr (gs "file"))) as Htype by by apply pairOk_string; vm_compute.
  unfold newCommonFilenameMap in H0. unfold readName. destruct (decide (name = [])) as [->|Hne].
  { injection H0 as <-. split_and!; [by apply pairOk_insert|done..|]. intros ss Hn Hb. unfold FileNameString, strField, mixedField.
    change (SetType (base 1 []) (gs "file") !! gs "fileName") with (@None goval) in Hn.
    change (SetType (base 1 []) (gs "file") !! gs "fileNameBytes") with (@None goval) in Hb.
    by rewrite Hn, Hb. }
  unfold SetFileName in H0. set (b := filepathBase name) in *.
  assert (b ≠ []) as Hb by apply filepathBase_nonempty.
  destruct (ValidString b) eqn:Ev.
  - injection H0 as <-. split_and!; [|done..|].
    + apply pairOk_insert; [|done]. apply pairOk_insert; [done|]. by apply pairOk_string; vm_compute.
    + intros ss Hn _. unfold SetType in Hn. rewrite lookup_insert_ne, lookup_insert_eq in Hn by done. cbn [mbind option_bind] in Hn.
      rewrite fieldOf_string in Hn by (done || (vm_compute; reflexivity)).
      unfold FileNameString, strField. rewrite Hn. by rewrite decide_False.
  - apply rbind_Ok in H0 as (parts & Hp & [= <-]). apply mixedArray_roundtrip in Hp as [Hs Hok].
    assert (findField supersetFields (gs "fileNameBytes") = Some (gs "fileNameBytes", KMixed)) as Hf by (vm_compute; reflexivity).
    split_and!; [|done..|].
    + apply pairOk_insert; [|done]. apply pairOk_insert; [done|].
      split_and!; [by apply valOk_VArr|by vm_compute|by exists KMixed|]. rewrite fieldOf_mixed by done. by eexists.
    + intros ss Hn Hm. unfold SetType in Hn, Hm.
      rewrite (lookup_insert_ne _ _ (gs "fileName")), (lookup_insert_ne _ _ (gs "fileName")) in Hn by done.
      change (base 1 [] !! gs "fileName") with (@None goval) in Hn. cbn [mbind option_bind] in Hn.
      rewrite (lookup_insert_ne _ (gs "camliType")), lookup_insert_eq in Hm by done. cbn [mbind option_bind] in Hm. rewrite fieldOf_mixed in Hm by done.
      unfold FileNameString, strField, mixedField. rewrite Hn, Hm. rewrite decide_True by done. by rewrite Hs.
Qed.

(** Blobs of bytes: the same without a name. *)
Lemma newBytes_ok : builderOk newBytes /\ newBytes !! gs "camliVersion" = Some (VInt 1) /\
  newBytes !! gs "camliType" = Some (VStr (gs "bytes")).
Proof.
  split; [|done]. unfold newBytes, base. apply pairOk_insert; [apply pairOk_insert; [by intros k v|]|by apply pairOk_version].
  by apply pairOk_string; vm_compute.
Qed.

(** A builder with parts: what its blob reads as. *)
Lemma partsBlob_ok m size parts bb ctype text :
  builderOk m -> m !! gs "camliVersion" = Some (VInt 1) -> m !! gs "camliType" = Some (VStr ctype) -> ValidString ctype = true ->
  Forall partOk parts -> populateParts m size parts = Ok bb -> mapJSON bb = Ok text -> glen text <= MaxSchemaBlobSize ->
  exists b, Blob_ bb = Ok b /\ b_br b = refOf text /\ b_str b = text /\ (forall e, parseSuperset (text, e) = Ok (b_ss b)) /\
    ss_Type (b_ss b) = ctype /\ ss_Parts (b_ss b) = Some <$> parts /\
    (forall k, k ≠ gs "parts" -> b_ss b !! k = m !! k ≫= fieldOf k).
Proof.
  intros Hm Hz Ht Hct Hp Hpp Htext Hlen. apply populateParts_inv in Hpp as [-> _]; [|done].
  set (bb := <[_ := _]> m) in *.
  assert (builderOk bb) as Hbb by (apply pairOk_insert; [done|by apply pairOk_parts]).
  assert (bb !! gs "camliVersion" = Some (VInt 1)) as Hz' by (unfold bb; by rewrite lookup_insert_ne).
  assert (bb !! gs "camliType" = Some (VStr ctype)) as Ht' by (unfold bb; by rewrite lookup_insert_ne).
  destruct (Blob_ok bb 1 text Hbb Hz' ltac:(by rewrite Ht') Htext Hlen) as (b & Hb & Hbr & Hstr & Hparse & Hlk).
  exists b. split_and!; [done..|intros e| | |].
  - destruct (parseSuperset_mapJSON bb 1 text e Hbb Hz' ltac:(by rewrite Ht') Htext Hlen) as (ss & Hss & Hlk').
    rewrite Hss. f_equal. apply map_eq. intros k. by rewrite Hlk, Hlk'.
  - unfold ss_Type, strField. rewrite Hlk, Ht'. cbn [mbind option_bind].
    rewrite fieldOf_string; [done|vm_compute; reflexivity|done].
  - unfold ss_Parts. rewrite Hlk. unfold bb. rewrite lookup_insert_eq. cbn [mbind option_bind]. by rewrite fieldOf_parts.
  - intros k Hk. rewrite Hlk. unfold bb. by rewrite lookup_insert_ne.
Qed.

(** C26. The schema blob of a file reads back as what was built: its type, its
    parts with their sizes and offsets, and the base of its name, byte for
    byte even when it is not UTF-8 (a name with a slash or a backslash reads
    as empty).  Its reference is that of its text, which fits the limit. *)
Theorem file_blob_roundtrip (name : gostr) (size : Z) (parts : list BytesPart) (m bb : Builder) (text : gostr) :
  NewFileMap name = Ok m -> Forall partOk parts -> populateParts m size parts = Ok bb ->
  mapJSON bb = Ok text -> glen text <= MaxSchemaBlobSize ->
  exists b, Blob_ bb = Ok b /\ b_br b = refOf text /\ b_str b = text /\
    parseSuperset (text, Ok tt) = Ok (b_ss b) /\ ss_Type (b_ss b) = gs "file" /\
    ByteParts b = Ok parts /\ FileNameString (b_ss b) = readName name.
Proof.
  intros Hm Hp Hpp Htext Hlen. apply NewFileMap_ok in Hm as (Hbb & Hz & Ht & Hnone & Hname).
  destruct (partsBlob_ok m size parts bb (gs "file") text Hbb Hz Ht ltac:(by vm_compute) Hp Hpp Htext Hlen)
    as (b & Hb & Hbr & Hstr & Hparse & Htype & Hparts & Hlk).
  exists b. split_and!; [done..| |].
  - unfold ByteParts. rewrite Hparts. clear. induction parts as [|p parts IH]; [done|]. cbn [fmap list_fmap foldr]. by rewrite IH.
  - by apply Hname; apply Hlk.
Qed.

Definition exampleParts : list BytesPart := [MkPart 1 (refOf (gs "a")) zeroRef 0].

Lemma exampleParts_ok : Forall partOk exampleParts.
Proof. apply Forall_singleton. split; [done|]. split; [done|]. left. split; [exact (proj1 (refOf_wf _))|reflexivity]. Qed.

(** A file's blob is built and fits. *)
Definition fileFits (name : gostr) (size : Z) (parts : list BytesPart) : bool :=
  match (let? m := NewFileMap name in let? bb := populateParts m size parts in mapJSON bb) with
  | Ok text => bool_decide (glen text <= MaxSchemaBlobSize)
  | _ => false
  end.

(** Concretely, with a name that is not UTF-8. *)
Lemma file_blob_roundtrip_witness :
  let name := gs "dir/a" ++ [zb 255] in
  fileFits name 1 exampleParts = true /\
  match (let? m := NewFileMap name in let? bb := populateParts m 1 exampleParts in Blob_ bb) with
  | Ok b => ByteParts b = Ok exampleParts /\ FileNameString (b_ss b) = gs "a" ++ [zb 255]
  | _ => False
  end.
Proof.
  cbn zeta. assert (fileFits (gs "dir/a" ++ [zb 255]) 1 exampleParts = true) as Hf by (vm_compute; reflexivity).
  split; [exact Hf|]. unfold fileFits in Hf.
  destruct (NewFileMap (gs "dir/a" ++ [zb 255])) as [m|e|p|] eqn:Em; cbn [rbind] in *; [|discriminate Hf..].
  destruct (populateParts m 1 exampleParts) as [bb|e|p|] eqn:Ep; cbn [rbind] in *; [|discriminate Hf..].
  destruct (mapJSON bb) as [text|e|p|] eqn:Et; [|discriminate Hf..]. apply bool_decide_eq_true in Hf.
  destruct (file_blob_roundtrip _ 1 exampleParts m bb text Em exampleParts_ok Ep Et Hf) as (b & -> & _ & _ & _ & _ & Hp & Hn).
  split; [exact Hp|]. rewrite Hn. vm_compute. reflexivity.
Defined.

(** A replacement character before an invalid byte: the name is never split. *)
Example replacement_char_hangs : SetFileName (base 1 []) (runeError ++ [zb 255]) = Blocked.
Proof. vm_compute. reflexivity. Qed.

(** The text of a small file's blob. *)
Example file_text :
  match NewFileMap (gs "x"), Parse (gs "sha1-86f7e437faa5a7fce15d1ddcb9eaeaea377667b8") with
  | Ok m, Ok (Some r) =>
      match populateParts m 1 [MkPart 1 r zeroRef 0] with
      | Ok bb => mapJSON bb = Ok (gs "{" ++ quoted (gs "camliVersion") ++ gs ": 1," ++ ["010"%char] ++
          gs "  " ++ quoted (gs "camliType") ++ gs ": " ++ quoted (gs "file") ++ gs "," ++ newline 1 ++
          quoted (gs "fileName") ++ gs ": " ++ quoted (gs "x") ++ gs "," ++ newline 1 ++
          quoted (gs "parts") ++ gs ": [" ++ newline 2 ++ gs "{" ++ newline 3 ++
          quoted (gs "blobRef") ++ gs ": " ++ quoted (gs "sha1-86f7e437faa5a7fce15d1ddcb9eaeaea377667b8") ++ gs "," ++ newline 3 ++
          quoted (gs "size") ++ gs ": 1" ++ newline 2 ++ gs "}" ++ newline 1 ++ gs "]" ++ newline 0 ++ gs "}")
      | _ => False
      end
  | _, _ => False
  end.
Proof. vm_compute. reflexivity. Qed.

(** The blob of a file built from a name and parts, when it fits. *)
Definition fileText (name : gostr) (size : Z) (parts : list BytesPart) : gostr :=
  match (let? m := NewFileMap name in let? bb := populateParts m size parts in mapJSON bb) with Ok text => text | _ => [] end.

Lemma fileText_ok name size parts : fileFits name size parts = true -> Forall partOk parts ->
  exists ss, (forall e, parseSuperset (fileText name size parts, e) = Ok ss) /\
    ss_Type ss = gs "file" /\ ss_Parts ss = Some <$> parts.
Proof.
  intros Hf Hp. unfold fileFits, fileText in *.
  destruct (NewFileMap name) as [m|e|p|] eqn:Em; cbn [rbind] in *; [|done..].
  destruct (populateParts m size parts) as [bb|e|p|] eqn:Ep; cbn [rbind] in *; [|done..].
  destruct (mapJSON bb) as [text|e|p|] eqn:Et; [|done..]. apply bool_decide_eq_true in Hf.
  apply NewFileMap_ok in Em as (Hbb & Hz & Ht & _).
  destruct (partsBlob_ok m size parts bb (gs "file") text Hbb Hz Ht ltac:(by vm_compute) Hp Ep Et Hf)
    as (b & _ & _ & _ & Hparse & Htype & Hparts & _). exists (b_ss b). by split_and!.
Qed.
