(* ===== verification/FileReader.v ===== *)
(** Reading files: pkg/schema/filereader.go, and the blobs in memory of
    pkg/blob/blob.go.

    A [FileReader] is its superset and its size; the readers it makes for
    nested "bytes" blobs share the caches of the root ([frRoot]), which also
    holds the fetcher's state.  Recursion into nested blobs takes fuel. *)

From S2P Require Import Prelude Ref Strutil Sha1 Storage Receive Json Schema.

(** * Blobs in memory *)

(** [blob.FromReader]: exactly the reported number of bytes. *)
Definition FromReader (src : reader) (size : Z) : res gostr :=
  if MaxBlobSize <? size then Err (ErrMsg "blob: %v with reported size %d is over max size of %d")
  else if glen src.1 <? size then
    match src.2 with
    | Panic p => Panic p
    | Blocked => Blocked
    | _ => Err (ErrMsg "blob: after reading %d bytes of %v: %v")
    end
  else if size <? glen src.1 then Err (ErrMsg "blob: %v had more than reported %d bytes")
  else Ok src.1.

Definition FromFetcher {S} `{!Fetcher S} (fetcher : S) (br : Ref) : S * res gostr :=
  match st_Fetch fetcher br with
  | (s, Ok (d, size)) => (s, FromReader (d, Ok tt) size)
  | (s, Err e) => (s, Err e)
  | (s, Panic p) => (s, Panic p)
  | (s, Blocked) => (s, Blocked)
  end.

(** * The reader *)

Record FileReader := MkFR { fr_ss : superset; fr_size : Z }.

Record frRoot (S : Type) := MkRoot { fr_fetcher : S; lastBlob : option (Ref * gostr); ssm : gmap Ref superset }.
Arguments MkRoot {S}.
Arguments fr_fetcher {S}.
Arguments lastBlob {S}.
Arguments ssm {S}.

Definition ssNewFileReader (ss : superset) : res FileReader :=
  if bool_decide (ss_Type ss ∈ [gs "file"; gs "bytes"]) then
    let? size := SumPartsSize ss in Ok (MkFR ss (i64 size))
  else Err (ErrMsg "schema/filereader: Superset not of type file or bytes").

(** What [readerForOffset] returns: nothing, zeros, a blob or another reader,
    the last two from a position on and up to a limit. *)
Inductive chunkReader :=
| REmpty
| RZeros (n : Z)
| RBlob (d : gostr) (pos limit : Z)
| RSub (fr : FileReader) (pos limit : Z).

Section filereader.
Context {S : Type} `{!Fetcher S}.
Abbreviation root := (frRoot S).

Definition NewFileReader (fetcher : S) (fileBlobRef : Ref) : S * res (root * FileReader) :=
  if negb (Valid fileBlobRef) then (fetcher, Err (ErrMsg "schema/filereader: NewFileReader blobref invalid"))
  else
    match st_Fetch fetcher fileBlobRef with
    | (s, Ok (d, _)) =>
        match parseSuperset (d, Ok tt) with
        | Ok ss =>
            let ss := setBlobRef fileBlobRef ss in
            if bool_decide (ss_Type ss ∈ [gs "file"; gs "bytes"]) then
              (s, let? fr := ssNewFileReader ss in Ok (MkRoot s None ∅, fr))
            else (s, Err (ErrMsg "schema/filereader: expected file or bytes schema blob, got %q"))
        | Err _ => (s, Err (ErrMsg "schema/filereader: decoding file schema blob: %v"))
        | Panic p => (s, Panic p)
        | Blocked => (s, Blocked)
        end
    | (s, Err _) => (s, Err (ErrMsg "schema/filereader: fetching file schema blob: %v"))
    | (s, Panic p) => (s, Panic p)
    | (s, Blocked) => (s, Blocked)
    end.

Definition getBlob (r : root) (br : Ref) : root * res gostr :=
  let fetchIt :=
    match FromFetcher (fr_fetcher r) br with
    | (s, Ok d) => (MkRoot s (Some (br, d)) (ssm r), Ok d)
    | (s, x) => (MkRoot s (lastBlob r) (ssm r), x)
    end in
  match lastBlob r with
  | Some (br', d) => if decide (br' = br) then (r, Ok d) else fetchIt
  | None => fetchIt
  end.

Definition getSuperset (r : root) (br : Ref) : root * res superset :=
  match ssm r !! br with
  | Some ss => (r, Ok ss)
  | None =>
      match st_Fetch (fr_fetcher r) br with
      | (s, Ok (d, _)) =>
          match parseSuperset (d, Ok tt) with
          | Ok ss => let ss := setBlobRef br ss in (MkRoot s (lastBlob r) (<[br := ss]> (ssm r)), Ok ss)
          | x => (MkRoot s (lastBlob r) (ssm r), x)
          end
      | (s, Err _) => (MkRoot s (lastBlob r) (ssm r), Err (ErrMsg "schema/filereader: fetching file schema blob: %v"))
      | (s, Panic p) => (MkRoot s (lastBlob r) (ssm r), Panic p)
      | (s, Blocked) => (MkRoot s (lastBlob r) (ssm r), Blocked)
      end
  end.

(** Skipping the parts that end at or before the offset. *)
Fixpoint skipParts (parts : list (option BytesPart)) (offRemain : Z) : res (list (option BytesPart) * Z) :=
  match parts with
  | [] => Ok ([], offRemain)
  | None :: _ => Panic "nil pointer dereference"
  | Some p :: parts' =>
      if bp_Size p <=? u64 offRemain then skipParts parts' (i64 (offRemain - i64 (bp_Size p)))
      else Ok (parts, offRemain)
  end.

Definition readerForOffset (r : root) (fr : FileReader) (off : Z) : root * res chunkReader :=
  if off <? 0 then (r, Panic "negative offset")
  else if fr_size fr <=? off then (r, Ok REmpty)
  else
    match skipParts (ss_Parts (fr_ss fr)) off with
    | Ok ([], _) => (r, Ok REmpty)
    | Ok (None :: _, _) => (r, Panic "nil pointer dereference")
    | Ok (Some p0 :: _, offRemain) =>
        let pos := i64 (offRemain + i64 (bp_Offset p0)) in
        let pos := if 0 <? pos then pos else 0 in
        let limit := i64 (bp_Size p0) in
        match Valid (bp_BlobRef p0), Valid (bp_BytesRef p0) with
        | true, true => (r, Err (ErrMsg "part illegally contained both a blobRef and bytesRef"))
        | false, false => (r, Ok (RZeros (i64 (u64 (bp_Size p0 - u64 offRemain)))))
        | true, false =>
            match getBlob r (bp_BlobRef p0) with
            | (r, Ok d) => (r, Ok (RBlob d pos limit))
            | (r, Err e) => (r, Err e)
            | (r, Panic p) => (r, Panic p)
            | (r, Blocked) => (r, Blocked)
            end
        | false, true =>
            match getSuperset r (bp_BytesRef p0) with
            | (r, Ok ss) => (r, let? sub := ssNewFileReader ss in Ok (RSub sub pos limit))
            | (r, Err e) => (r, Err e)
            | (r, Panic p) => (r, Panic p)
            | (r, Blocked) => (r, Blocked)
            end
        end
    | Err e => (r, Err e)
    | Panic p => (r, Panic p)
    | Blocked => (r, Blocked)
    end.

(** The loop of [ReadAt]: the bytes read and the error.  The error of
    [io.ReadFull] is assigned to a variable of the loop's body and lost. *)
Fixpoint readLoop (readFull : root -> chunkReader -> Z -> root * res gostr) (fuel : nat) (r : root)
    (fr : FileReader) (want off : Z) : root * res (gostr * gerr) :=
  match fuel with
  | O => (r, Panic "out of fuel")
  | Datatypes.S fuel =>
      if want <=? 0 then (r, Ok ([], None))
      else
        match readerForOffset r fr off with
        | (r, Ok rc) =>
            match readFull r rc want with
            | (r, Ok bs) =>
                if decide (bs = []) then (r, Ok ([], Some ErrUnexpectedEOF))
                else
                  match readLoop readFull fuel r fr (want - glen bs) (i64 (off + glen bs)) with
                  | (r, Ok (rest, e)) => (r, Ok (bs ++ rest, e))
                  | x => x
                  end
            | (r, Err e) => (r, Ok ([], Some e))
            | (r, Panic p) => (r, Panic p)
            | (r, Blocked) => (r, Blocked)
            end
        | (r, Err e) => (r, Ok ([], Some e))
        | (r, Panic p) => (r, Panic p)
        | (r, Blocked) => (r, Blocked)
        end
  end.

(** What [io.ReadFull] gets of a chunk reader; [readAt] reads nested files. *)
Definition readFull (readAt : root -> FileReader -> Z -> Z -> root * res (gostr * gerr)) (r : root) (rc : chunkReader)
    (want : Z) : root * res gostr :=
  match rc with
  | REmpty => (r, Ok [])
  | RZeros n => (r, Ok (replicate (Z.to_nat (want `min` n)) "000"%char))
  | RBlob d pos limit => (r, Ok (take (Z.to_nat (want `min` limit)) (drop (Z.to_nat pos) d)))
  | RSub sub pos limit =>
      let n := want `min` limit `min` (fr_size sub - pos) in
      if n <=? 0 then (r, Ok [])
      else
        match readAt r sub n pos with
        | (r, Ok (bs, _)) => (r, Ok bs)
        | (r, Err e) => (r, Err e)
        | (r, Panic p) => (r, Panic p)
        | (r, Blocked) => (r, Blocked)
        end
  end.

(** [ReadAt(p, off)] with [len(p) = want]; [depth] bounds the nesting. *)
Fixpoint ReadAt (depth : nat) (r : root) (fr : FileReader) (want off : Z) : root * res (gostr * gerr) :=
  match depth with
  | O => (r, Panic "out of fuel")
  | Datatypes.S depth =>
      if off <? 0 then (r, Ok ([], Some (ErrMsg "schema/filereader: negative offset")))
      else if fr_size fr <=? off then (r, Ok ([], Some ErrEOF))
      else readLoop (readFull (ReadAt depth)) (Datatypes.S (Z.to_nat want)) r fr want off
  end.

(** [Read] of the section reader in a [FileReader]: up to [want] bytes. *)
Definition readSection (depth : nat) (r : root) (fr : FileReader) (want off : Z) : root * res (gostr * gerr) :=
  if fr_size fr <=? off then (r, Ok ([], Some ErrEOF)) else ReadAt depth r fr (Z.min want (fr_size fr - off)) off.

(** [foreachChunk]; the callback is given the storage too, which it shares with
    the reader, and threads what it keeps. *)
Fixpoint foreachChunk {A} (depth : nat) (fn : S -> A -> list Ref -> BytesPart -> S * A * res unit) (r : root)
    (fr : FileReader) (path : list Ref) (acc : A) : root * A * res unit :=
  match depth with
  | O => (r, acc, Panic "out of fuel")
  | Datatypes.S depth =>
      let path := path ++ [ss_BlobRef (fr_ss fr)] in
      (fix go (parts : list (option BytesPart)) (r : root) (acc : A) : root * A * res unit :=
         match parts with
         | [] => (r, acc, Ok tt)
         | None :: _ => (r, acc, Panic "nil pointer dereference")
         | Some bp :: parts =>
             match Valid (bp_BytesRef bp), Valid (bp_BlobRef bp) with
             | true, true => (r, acc, Err (ErrMsg "part in %v illegally contained both a blobRef and bytesRef"))
             | true, false =>
                 match getSuperset r (bp_BytesRef bp) with
                 | (r, Ok ss) =>
                     match ssNewFileReader ss with
                     | Ok subfr =>
                         match foreachChunk depth fn r subfr path acc with
                         | (r, acc, Ok _) => go parts r acc
                         | x => x
                         end
                     | Err e => (r, acc, Err e)
                     | Panic p => (r, acc, Panic p)
                     | Blocked => (r, acc, Blocked)
                     end
                 | (r, Err e) => (r, acc, Err e)
                 | (r, Panic p) => (r, acc, Panic p)
                 | (r, Blocked) => (r, acc, Blocked)
                 end
             | false, _ =>
                 match fn (fr_fetcher r) acc path bp with
                 | (s, acc, Ok _) => go parts (MkRoot s (lastBlob r) (ssm r)) acc
                 | (s, acc, x) => (MkRoot s (lastBlob r) (ssm r), acc, x)
                 end
             end
         end) (ss_Parts (fr_ss fr)) r acc
  end.
End filereader.

(** * What parts stand for *)

(** In the blobs [m], nested at most [n] deep, the part [p] stands for the
    bytes [this]: the rest of a blob, or of a "bytes" blob, from its offset
    on, or a hole. *)
Fixpoint partHolds (m : blobs) (n : nat) (p : BytesPart) (this : gostr) : Prop :=
  0 < bp_Size p /\ glen this = bp_Size p /\ 0 <= bp_Offset p /\
  ((Valid (bp_BlobRef p) = true /\ Valid (bp_BytesRef p) = false /\
    exists d, m !! bp_BlobRef p = Some d /\ glen d <= MaxBlobSize /\ this = drop (Z.to_nat (bp_Offset p)) d) \/
   (Valid (bp_BlobRef p) = false /\ Valid (bp_BytesRef p) = false /\ this = replicate (Z.to_nat (bp_Size p)) "000"%char) \/
   (Valid (bp_BlobRef p) = false /\ Valid (bp_BytesRef p) = true /\
    match n with
    | O => False
    | S n => exists text ss sub ds, m !! bp_BytesRef p = Some text /\ parseSuperset (text, Ok tt) = Ok ss /\
        ss_Type ss ∈ [gs "file"; gs "bytes"] /\ ss_Parts ss = Some <$> sub /\ Forall2 (partHolds m n) sub ds /\
        glen (concat ds) < 2 ^ 62 /\ this = drop (Z.to_nat (bp_Offset p)) (concat ds)
    end)).

(** The parts of a file and its bytes. *)
Definition holds (m : blobs) (n : nat) (ps : list BytesPart) (d : gostr) : Prop :=
  exists ds, Forall2 (partHolds m n) ps ds /\ d = concat ds.

Lemma partHolds_mono m n p this : partHolds m n p this -> partHolds m (S n) p this.
Proof.
  revert p this. induction n as [|n IH]; intros p this (Hs & Hl & Ho & [Hc|[Hc|(H1 & H2 & Hc)]]);
    try done; (split_and!; [done..|]); [by left|by right; left|by left|by right; left|].
  right; right. split_and!; [done..|]. destruct Hc as (text & ss & sub & ds & ? & ? & ? & ? & Hf & ? & ?).
  exists text, ss, sub, ds. split_and!; try done. eapply Forall2_impl; [exact Hf|]. apply IH.
Qed.

Lemma partHolds_view m m' n p this : m ⊆ m' -> partHolds m n p this -> partHolds m' n p this.
Proof.
  intros Hsub. revert p this.
  induction n as [|n IH]; intros p this (Hs & Hl & Ho & [(H1 & H2 & d & Hd & Hc)|[Hc|(H1 & H2 & Hc)]]);
    try done; (split_and!; [done..|]).
  1, 3: left; split_and!; [done..|]; exists d; split; [by eapply lookup_weaken|done].
  1, 2: by right; left.
  right; right. split_and!; [done..|]. destruct Hc as (text & ss & sub & ds & ? & ? & ? & ? & Hf & ? & ?).
  exists text, ss, sub, ds. split_and!; try done; [by eapply lookup_weaken|]. eapply Forall2_impl; [exact Hf|]. apply IH.
Qed.

Lemma holds_mono m n ps d : holds m n ps d -> holds m (S n) ps d.
Proof. intros (ds & Hf & ->). exists ds. split; [|done]. eapply Forall2_impl; [exact Hf|]. apply partHolds_mono. Qed.

Lemma holds_le m n n' ps d : (n <= n')%nat -> holds m n ps d -> holds m n' ps d.
Proof. induction 1; [done|]. intros Hh. by apply holds_mono, IHle. Qed.

Lemma holds_view m m' n ps d : m ⊆ m' -> holds m n ps d -> holds m' n ps d.
Proof. intros Hsub (ds & Hf & ->). exists ds. split; [|done]. eapply Forall2_impl; [exact Hf|]. intros p t. by apply partHolds_view. Qed.

Lemma holds_app m n ps1 d1 ps2 d2 : holds m n ps1 d1 -> holds m n ps2 d2 -> holds m n (ps1 ++ ps2) (d1 ++ d2).
Proof.
  intros (ds1 & H1 & ->) (ds2 & H2 & ->). exists (ds1 ++ ds2). split; [by apply Forall2_app|]. by rewrite concat_app.
Qed.

Definition sumSizes (ps : list BytesPart) : Z := foldr (fun p s => bp_Size p + s) 0 ps.

Lemma partHolds_size m n p this : partHolds m n p this -> 0 < bp_Size p /\ glen this = bp_Size p /\ 0 <= bp_Offset p.
Proof. destruct n; intros (H1 & H2 & H3 & _); done. Qed.

Lemma holds_sum m n ps ds : Forall2 (partHolds m n) ps ds -> sumSizes ps = glen (concat ds).
Proof.
  induction 1 as [|p this ps ds Hp _ IH]; [done|]. cbn [sumSizes foldr concat]. fold (sumSizes ps).
  apply partHolds_size in Hp as (_ & Hp & _). rewrite glen_app. lia.
Qed.

Lemma holds_positive m n ps ds : Forall2 (partHolds m n) ps ds -> Forall (fun p => 0 < bp_Size p) ps.
Proof. induction 1 as [|p this ps ds Hp _ IH]; constructor; [|done]. by destruct (partHolds_size _ _ _ _ Hp). Qed.

Lemma sumSizes_nonneg ps : Forall (fun p => 0 < bp_Size p) ps -> 0 <= sumSizes ps.
Proof. induction 1 as [|p ps Hp _ IH]; cbn [sumSizes foldr]; [lia|]. fold (sumSizes ps). lia. Qed.

Lemma SumPartsSize_ok ss ps : ss_Parts ss = Some <$> ps -> Forall (fun p => 0 < bp_Size p) ps -> sumSizes ps < 2 ^ 63 ->
  SumPartsSize ss = Ok (sumSizes ps).
Proof.
  intros Hss Hps Hsum. unfold SumPartsSize, rfold. rewrite Hss. clear Hss.
  assert (forall acc, 0 <= acc -> acc + sumSizes ps < 2 ^ 64 ->
    foldl (fun acc (b : option BytesPart) => let? a := acc in match b with Some p => Ok (u64 (a + bp_Size p)) | None => Panic "nil pointer dereference" end)
      (Ok acc) (Some <$> ps) = Ok (acc + sumSizes ps)) as Hg.
  { clear Hsum. induction Hps as [|p ps Hp Hps IH]; intros acc Ha Hs; [simpl; by rewrite Z.add_0_r|].
    cbn [fmap list_fmap foldl rbind sumSizes foldr] in *. fold (sumSizes ps) in *. pose proof (sumSizes_nonneg ps Hps).
    rewrite u64_small by lia. rewrite IH by lia. f_equal. lia. }
  rewrite Hg by lia. done.
Qed.

Lemma ssNewFileReader_ok m n ss ps ds : ss_Type ss ∈ [gs "file"; gs "bytes"] -> ss_Parts ss = Some <$> ps ->
  Forall2 (partHolds m n) ps ds -> glen (concat ds) < 2 ^ 62 -> ssNewFileReader ss = Ok (MkFR ss (glen (concat ds))).
Proof.
  intros Ht Hps Hf Hl. unfold ssNewFileReader. rewrite bool_decide_eq_true_2 by done.
  rewrite (SumPartsSize_ok ss ps); [|done|by eapply holds_positive|rewrite (holds_sum _ _ _ _ Hf); lia]. cbn [rbind].
  rewrite (holds_sum _ _ _ _ Hf). do 2 f_equal. pose proof (glen_nonneg (concat ds)). rewrite i64_small by lia. done.
Qed.

(** The part an offset falls into: what is skipped, and what is left of it. *)
Lemma skipParts_spec m n ps ds off : Forall2 (partHolds m n) ps ds -> glen (concat ds) < 2 ^ 62 -> 0 <= off < glen (concat ds) ->
  exists p rest o pre this after, skipParts (Some <$> ps) off = Ok (Some p :: rest, o) /\ 0 <= o < bp_Size p /\
    concat ds = pre ++ this ++ after /\ off = glen pre + o /\ partHolds m n p this.
Proof.
  intros Hf. revert off. induction Hf as [|p this ps ds Hp Hf IH]; intros off Hl Hoff; [unfold glen in Hoff; simpl in Hoff; lia|].
  destruct (partHolds_size _ _ _ _ Hp) as (Hs & Hg & _). cbn [concat] in *. rewrite glen_app in *. pose proof (glen_nonneg (concat ds)).
  cbn [fmap list_fmap skipParts]. rewrite u64_small by lia. destruct (Z.leb_spec (bp_Size p) off) as [Hle|Hlt].
  - rewrite (i64_small (bp_Size p)), i64_small by lia.
    destruct (IH (off - bp_Size p)) as (q & rest & o & pre & th & after & Hskip & Ho & Hd & Hoff' & Hq); [lia|lia|].
    exists q, rest, o, (this ++ pre), th, after. split_and!; [done|lia|lia|by rewrite Hd, app_assoc|rewrite glen_app; lia|done].
  - exists p, (Some <$> ps), off, [], this, (concat ds). split_and!; [done|lia|lia|done|unfold glen; simpl; lia|done].
Qed.

(** * Reading *)

Section filereader_proofs.
Context {S : Type} `{FetcherLaws S} (m : blobs).
Implicit Types r : frRoot S.

(** The caches hold what the storage holds. *)
Record rootOk r : Prop := MkRootOk {
  ro_wf : ft_wf (fr_fetcher r);
  ro_view : ft_view (fr_fetcher r) = m;
  ro_last : forall br d, lastBlob r = Some (br, d) -> m !! br = Some d;
  ro_ssm : forall br ss, ssm r !! br = Some ss -> exists text ss0,
    m !! br = Some text /\ parseSuperset (text, Ok tt) = Ok ss0 /\ ss = setBlobRef br ss0
}.

Lemma root_good r br d : rootOk r -> m !! br = Some d -> goodRef br.
Proof. intros Hr Hd. apply (ft_wf_good _ (ro_wf r Hr) br d). by rewrite ro_view. Qed.

(** A storage whose fetches of blobs it has do not fail. *)
Definition fetches : Prop := forall (s : S) br d, ft_wf s -> ft_view s !! br = Some d -> is_ok (st_Fetch s br).2 = true.

Lemma getBlob_spec r br d : rootOk r -> m !! br = Some d -> glen d <= MaxBlobSize ->
  rootOk (getBlob r br).1 /\ match (getBlob r br).2 with Ok d' => d' = d | Err _ => ~ fetches | _ => False end.
Proof.
  intros Hr Hd Hmax. unfold getBlob.
  set (fetchIt := match FromFetcher (fr_fetcher r) br with (s, Ok d) => _ | (s, x) => _ end).
  assert (rootOk fetchIt.1 /\ match fetchIt.2 with Ok d' => d' = d | Err _ => ~ fetches | _ => False end) as Hf.
  { unfold fetchIt, FromFetcher. destruct (st_Fetch (fr_fetcher r) br) as [s x] eqn:E.
    pose proof E as E'. apply ft_Fetch_law in E' as (Hwf & Hv & Hx); [|by apply ro_wf|by eapply root_good]. rewrite (ro_view r Hr) in *.
    assert (forall l, (forall br d, l = Some (br, d) -> m !! br = Some d) -> rootOk (MkRoot s l (ssm r))) as Hok.
    { intros l Hl. constructor; [done|done|done|apply Hr]. }
    destruct x as [[d' sz]|e|p|]; [|split; [apply Hok, Hr|]|done..].
    - destruct Hx as [Hd' ->]. assert (d' = d) as -> by congruence. unfold FromReader. cbn [fst snd].
      rewrite (proj2 (Z.ltb_ge _ _)) by done. rewrite !Z.ltb_irrefl. split; [|done]. apply Hok. by intros ?? [= <- <-].
    - intros Hfet. specialize (Hfet (fr_fetcher r) br d (ro_wf r Hr)). rewrite E, (ro_view r Hr) in Hfet. by specialize (Hfet Hd). }
  destruct (lastBlob r) as [[br' d']|] eqn:El; [|done]. destruct (decide (br' = br)) as [->|]; [|done].
  split; [done|]. cbn [snd]. pose proof (ro_last r Hr _ _ El). congruence.
Qed.

Lemma getSuperset_spec r br text ss : rootOk r -> m !! br = Some text -> parseSuperset (text, Ok tt) = Ok ss ->
  rootOk (getSuperset r br).1 /\
  match (getSuperset r br).2 with Ok ss' => ss' = setBlobRef br ss | Err _ => ~ fetches | _ => False end.
Proof.
  intros Hr Ht Hp. unfold getSuperset. destruct (ssm r !! br) as [ss'|] eqn:E.
  { split; [done|]. destruct (ro_ssm r Hr _ _ E) as (text' & ss0 & H1 & H2 & ->). cbn [snd]. congruence. }
  destruct (st_Fetch (fr_fetcher r) br) as [s x] eqn:Ef.
  pose proof Ef as E'. apply ft_Fetch_law in E' as (Hwf & Hv & Hx); [|by apply ro_wf|by eapply root_good]. rewrite (ro_view r Hr) in *.
  destruct x as [[d' sz]|e|p|]; [| |done..].
  - destruct Hx as [Hd' _]. assert (d' = text) as -> by congruence. rewrite Hp. split; [|done].
    constructor; [done|done|apply Hr|]. cbn [ssm fst]. intros br' ss' [[<- <-]|[_ Hl]]%lookup_insert_Some; [by exists text, ss|by apply (ro_ssm r Hr)].
  - split; [constructor; [done|done|apply Hr..]|].
    intros Hfet. specialize (Hfet (fr_fetcher r) br text (ro_wf r Hr)). rewrite Ef, (ro_view r Hr) in Hfet. by specialize (Hfet Ht).
Qed.

(** The bytes a chunk reader gives when nothing fails. *)
Definition standsFor (n : nat) (rc : chunkReader) (piece : gostr) : Prop :=
  match rc with
  | REmpty => piece = []
  | RZeros k => piece = replicate (Z.to_nat k) "000"%char
  | RBlob d pos limit => piece = take (Z.to_nat limit) (drop (Z.to_nat pos) d)
  | RSub fr pos limit =>
      match n with
      | O => False
      | Datatypes.S n => 0 <= pos /\ exists sub ds, ss_Parts (fr_ss fr) = Some <$> sub /\ Forall2 (partHolds m n) sub ds /\
          glen (concat ds) < 2 ^ 62 /\ fr_size fr = glen (concat ds) /\
          piece = take (Z.to_nat limit) (drop (Z.to_nat pos) (concat ds))
      end
  end.

Lemma seek_piece (d this : gostr) (O size o : Z) : this = drop (Z.to_nat O) d -> glen this = size -> 0 < size -> 0 <= O ->
  glen d < 2 ^ 62 -> 0 <= o < size ->
  0 <= (if 0 <? i64 (o + i64 O) then i64 (o + i64 O) else 0) /\
  take (Z.to_nat (i64 size)) (drop (Z.to_nat (if 0 <? i64 (o + i64 O) then i64 (o + i64 O) else 0)) d) = drop (Z.to_nat o) this.
Proof.
  intros Ht Hg Hs HO Hd Ho. assert (glen this = Z.max 0 (glen d - O)) as Hgd by (rewrite Ht; by apply glen_drop).
  rewrite (i64_small O) by lia. rewrite (i64_small (o + O)) by lia. rewrite (i64_small size) by lia.
  assert ((if 0 <? o + O then o + O else 0) = o + O) as ->.
  { destruct (Z.ltb_spec 0 (o + O)); lia. }
  split; [lia|]. rewrite Ht, drop_drop. rewrite take_ge.
  - f_equal. lia.
  - unfold glen in *. rewrite length_drop. lia.
Qed.

Lemma readerForOffset_spec n r fr ps ds off : rootOk r -> ss_Parts (fr_ss fr) = Some <$> ps -> Forall2 (partHolds m n) ps ds ->
  glen (concat ds) < 2 ^ 62 -> fr_size fr = glen (concat ds) -> 0 <= off ->
  rootOk (readerForOffset r fr off).1 /\
  match (readerForOffset r fr off).2 with
  | Ok rc =>
      if off <? glen (concat ds)
      then exists piece, standsFor n rc piece /\ piece ≠ [] /\ piece `prefix_of` drop (Z.to_nat off) (concat ds)
      else rc = REmpty
  | Err _ => ~ fetches
  | _ => False
  end.
Proof.
  intros Hr Hps Hf Hl Hsz Hoff. unfold readerForOffset. rewrite (proj2 (Z.ltb_ge off 0)) by done. rewrite Hsz.
  destruct (Z.ltb_spec off (glen (concat ds))) as [Hlt|Hge]; [|by rewrite (proj2 (Z.leb_le _ _)) by done].
  rewrite (proj2 (Z.leb_gt _ _)) by done. rewrite Hps.
  destruct (skipParts_spec m n ps ds off Hf Hl ltac:(lia)) as (p & rest & o & pre & this & after & -> & Ho & Hd & Hpo & Hp).
  destruct (partHolds_size _ _ _ _ Hp) as (Hs & Hg & Hof).
  assert (drop (Z.to_nat off) (concat ds) = drop (Z.to_nat o) this ++ after) as Hdrop.
  { rewrite Hd, Hpo. rewrite drop_app_ge by (unfold glen in *; lia).
    rewrite drop_app_le by (unfold glen in *; lia). do 2 f_equal. unfold glen. lia. }
  assert (glen this <= glen (concat ds)) as Hgt by (rewrite Hd, !glen_app; pose proof (glen_nonneg pre); pose proof (glen_nonneg after); lia).
  assert (drop (Z.to_nat o) this ≠ [] /\ drop (Z.to_nat o) this `prefix_of` drop (Z.to_nat off) (concat ds)) as Hpiece.
  { split; [|rewrite Hdrop; by exists after].
    intros Hn. apply (f_equal glen) in Hn. rewrite glen_drop in Hn by lia. change (glen []) with 0 in Hn. lia. }
  assert (forall d : gostr, glen d <= MaxBlobSize -> glen d < 2 ^ 62) as Hmax62.
  { intros d Hm. pose proof MaxBlobSize_small. lia. }
  assert ((Valid (bp_BlobRef p) = true /\ Valid (bp_BytesRef p) = false /\
      exists d, m !! bp_BlobRef p = Some d /\ glen d <= MaxBlobSize /\ this = drop (Z.to_nat (bp_Offset p)) d) \/
    (Valid (bp_BlobRef p) = false /\ Valid (bp_BytesRef p) = false /\ this = replicate (Z.to_nat (bp_Size p)) "000"%char) \/
    (Valid (bp_BlobRef p) = false /\ Valid (bp_BytesRef p) = true /\ exists n', n = Datatypes.S n' /\
      exists text ss sub ds, m !! bp_BytesRef p = Some text /\ parseSuperset (text, Ok tt) = Ok ss /\
        ss_Type ss ∈ [gs "file"; gs "bytes"] /\ ss_Parts ss = Some <$> sub /\ Forall2 (partHolds m n') sub ds /\
        glen (concat ds) < 2 ^ 62 /\ this = drop (Z.to_nat (bp_Offset p)) (concat ds))) as Hcases.
  { destruct n as [|n]; destruct Hp as (_ & _ & _ & [Hc|[Hc|(H1 & H2 & Hc)]]); try done; [by left|by right; left|by left|by right; left|].
    right; right. split_and!; [done..|]. by exists n. }
  destruct Hcases as [(Hb & Hy & d & Hmd & Hmax & Hth)|[(Hb & Hy & Hth)|(Hb & Hy & n' & -> & text & ss & sub & ds' & Hmt & Hps' & Htype & Hpart & Hf' & Hl' & Hth)]];
    rewrite Hb, Hy.
  - pose proof (getBlob_spec r _ d Hr Hmd Hmax) as [Hr' Hres]. destruct (getBlob r (bp_BlobRef p)) as [r' [d'|e|pm|]];
      [cbn [fst snd] in *; subst d'|done..]. split; [done|]. exists (drop (Z.to_nat o) this). split; [|done].
    cbn [standsFor]. symmetry. apply seek_piece; auto.
  - split; [done|]. cbn [snd]. exists (drop (Z.to_nat o) this). split; [|done]. cbn [standsFor].
    rewrite (u64_small o) by lia. rewrite (u64_small (bp_Size p - o)) by lia. rewrite i64_small by lia.
    rewrite Hth, drop_replicate. f_equal. lia.
  - pose proof (getSuperset_spec r _ text ss Hr Hmt Hps') as [Hr' Hres]. destruct (getSuperset r (bp_BytesRef p)) as [r' [ss'|e|pm|]];
      [cbn [fst snd] in *; subst ss'|done..]. split; [done|].
    assert (ss_Type (setBlobRef (bp_BytesRef p) ss) = ss_Type ss) as Ht1 by (unfold ss_Type, strField, setBlobRef; by rewrite lookup_insert_ne).
    assert (ss_Parts (setBlobRef (bp_BytesRef p) ss) = ss_Parts ss) as Ht2 by (unfold ss_Parts, setBlobRef; by rewrite lookup_insert_ne).
    rewrite (ssNewFileReader_ok m n' _ sub ds') by (rewrite ?Ht1, ?Ht2; done). cbn [rbind].
    exists (drop (Z.to_nat o) this). split; [|done]. destruct (seek_piece (concat ds') this _ _ o Hth Hg Hs Hof Hl' Ho) as [Hpos Hsk].
    cbn [standsFor fr_ss fr_size]. split; [done|]. exists sub, ds'. rewrite Ht2. split_and!; done.
Qed.
End filereader_proofs.

Section readat_proofs.
Context {S : Type} `{FetcherLaws S} (m : blobs).
Implicit Types r : frRoot S.

(** What a read of [want] bytes promises of [good], the bytes there are. *)
Definition readsOf (x : frRoot S * res (gostr * gerr)) (good : gostr) (fin : gerr) : Prop :=
  rootOk m x.1 /\ exists bs e, x.2 = Ok (bs, e) /\ bs `prefix_of` good /\ (e = None -> bs = good /\ fin = None) /\
    (fetches (S := S) -> bs = good /\ e = fin).

Lemma take_prefix {A} (k : nat) (a b : list A) : a `prefix_of` b -> take k a `prefix_of` take k b.
Proof. intros [t ->]. rewrite firstn_app. by eexists. Qed.

Lemma prefix_take_drop {A} (want : Z) (bs l : list A) : bs `prefix_of` take (Z.to_nat want) l ->
  take (Z.to_nat want) l = bs ++ take (Z.to_nat (want - glen bs)) (drop (length bs) l) /\
  glen bs <= glen l /\ (0 <= want -> glen bs <= want).
Proof.
  intros [t Ht]. pose proof (f_equal length Ht) as Hlen. rewrite length_take, length_app in Hlen.
  assert (l = bs ++ drop (length bs) l) as Hl.
  { rewrite <- (take_drop (Z.to_nat want) l) at 1. rewrite Ht, <- app_assoc. f_equal.
    rewrite <- (take_drop (Z.to_nat want) l) at 2. rewrite Ht, <- app_assoc. by rewrite drop_app_length. }
  split_and!; [|unfold glen; lia|unfold glen; lia].
  rewrite Hl at 1. rewrite firstn_app, take_ge by lia. f_equal. f_equal. unfold glen. lia.
Qed.

Definition readFullSpec (n : nat) (rf : frRoot S -> chunkReader -> Z -> frRoot S * res gostr) : Prop :=
  forall r rc want piece, rootOk m r -> 0 < want -> standsFor m n rc piece ->
    rootOk m (rf r rc want).1 /\ exists bs, (rf r rc want).2 = Ok bs /\
      bs `prefix_of` take (Z.to_nat want) piece /\ (fetches (S := S) -> bs = take (Z.to_nat want) piece).

Lemma readLoop_spec n rf fuel r fr ps ds want off : readFullSpec n rf -> rootOk m r ->
  ss_Parts (fr_ss fr) = Some <$> ps -> Forall2 (partHolds m n) ps ds ->
  glen (concat ds) < 2 ^ 62 -> fr_size fr = glen (concat ds) -> 0 <= off <= glen (concat ds) -> (Z.to_nat want < fuel)%nat ->
  readsOf (readLoop rf fuel r fr want off) (take (Z.to_nat want) (drop (Z.to_nat off) (concat ds)))
    (if (want <=? 0) || (off + want <=? glen (concat ds)) then None else Some ErrUnexpectedEOF).
Proof.
  intros Hrf Hr Hps Hf Hl Hsz. revert r want off Hr. induction fuel as [|fuel IH]; intros r want off Hr Hoff Hfuel; [lia|].
  cbn [readLoop]. destruct (Z.leb_spec want 0) as [Hw|Hw].
  { replace (Z.to_nat want) with 0%nat by lia. split; [done|]. exists [], None. split_and!; try done. }
  pose proof (readerForOffset_spec m n r fr ps ds off Hr Hps Hf Hl Hsz ltac:(lia)) as [Hr1 Hres].
  destruct (readerForOffset r fr off) as [r1 [rc|e|p|]]; cbn [fst snd] in *; [|by split; [|exists [], (Some e); split_and!; [done|apply prefix_nil|done|intros ?; by destruct Hres]]|done..].
  destruct (Z.ltb_spec off (glen (concat ds))) as [Hlt|Hge].
  - destruct Hres as (piece & Hst & Hne & Hpre). destruct (Hrf r1 rc want piece Hr1 Hw Hst) as (Hr2 & bs & Hbs & Hp & Hfet).
    destruct (rf r1 rc want) as [r2 x]; cbn [fst snd] in *. subst x.
    assert (bs `prefix_of` take (Z.to_nat want) (drop (Z.to_nat off) (concat ds))) as Hp' by (etrans; [exact Hp|by apply take_prefix]).
    assert (take (Z.to_nat want) piece ≠ []) as Hne'.
    { destruct piece; [done|]. destruct (Z.to_nat want) eqn:E; [lia|done]. }
    destruct (decide (bs = [])) as [->|Hnb].
    { split; [done|]. exists [], (Some ErrUnexpectedEOF). split_and!; [done|apply prefix_nil|done|].
      intros Hft. by destruct Hne'; rewrite <- Hfet. }
    destruct (prefix_take_drop want bs _ Hp') as (Htake & Hlen1 & Hlen2). specialize (Hlen2 ltac:(lia)).
    rewrite glen_drop in Hlen1 by lia. assert (0 < glen bs) as Hpos by (unfold glen; destruct bs; [done|simpl; lia]).
    rewrite i64_small by lia.
    destruct (IH r2 (want - glen bs) (off + glen bs) Hr2) as (Hr3 & rest & e & Hrest & Hp3 & He3 & Hf3); [lia|lia|].
    destruct (readLoop rf fuel r2 fr (want - glen bs) (off + glen bs)) as [r3 x]; cbn [fst snd] in *. subst x.
    assert (drop (Z.to_nat (off + glen bs)) (concat ds) = drop (length bs) (drop (Z.to_nat off) (concat ds))) as Hdrop.
    { rewrite drop_drop. f_equal. unfold glen. lia. }
    assert ((if (want - glen bs <=? 0) || (off + glen bs + (want - glen bs) <=? glen (concat ds)) then None else Some ErrUnexpectedEOF) =
      (if off + want <=? glen (concat ds) then None else Some ErrUnexpectedEOF)) as Hfin.
    { replace (off + glen bs + (want - glen bs)) with (off + want) by lia.
      destruct (Z.leb_spec (off + want) (glen (concat ds))), (Z.leb_spec (want - glen bs) 0); try done. lia. }
    rewrite Hdrop in *. rewrite Hfin in *. cbn [orb].
    split; [done|]. exists (bs ++ rest), e. rewrite Htake. split_and!; [done|by apply prefix_app| |].
    + intros He. destruct (He3 He) as [-> ->]. done.
    + intros Hft. destruct (Hf3 Hft) as [-> ->]. done.
  - subst rc. assert (off = glen (concat ds)) as -> by lia.
    destruct (Hrf r1 REmpty want [] Hr1 Hw eq_refl) as (Hr2 & bs & Hbs & Hp & _).
    destruct (rf r1 REmpty want) as [r2 x]; cbn [fst snd] in *. subst x. rewrite take_nil in Hp. apply prefix_nil_inv in Hp as ->.
    rewrite decide_True by done. rewrite drop_ge by (unfold glen; lia). rewrite take_nil, (proj2 (Z.leb_gt _ _)) by lia.
    cbn [orb]. split; [done|]. exists [], (Some ErrUnexpectedEOF). by split_and!.
Qed.

(** Enough fuel is one more than the nesting. *)
Lemma ReadAt_spec n : forall depth r fr ps ds want off, (n < depth)%nat -> rootOk m r ->
  ss_Parts (fr_ss fr) = Some <$> ps -> Forall2 (partHolds m n) ps ds ->
  glen (concat ds) < 2 ^ 62 -> fr_size fr = glen (concat ds) -> 0 <= off ->
  readsOf (ReadAt depth r fr want off) (take (Z.to_nat want) (drop (Z.to_nat off) (concat ds)))
    (if glen (concat ds) <=? off then Some ErrEOF
     else if (want <=? 0) || (off + want <=? glen (concat ds)) then None else Some ErrUnexpectedEOF).
Proof.
  induction n as [n IHn] using lt_wf_ind; intros [|depth] r fr ps ds want off Hn Hr Hps Hf Hl Hsz Hoff; [lia|].
  cbn [ReadAt]. rewrite (proj2 (Z.ltb_ge off 0)) by done. rewrite Hsz. destruct (Z.leb_spec (glen (concat ds)) off) as [Hge|Hlt].
  { rewrite drop_ge by (unfold glen in *; lia). rewrite take_nil. split; [done|]. exists [], (Some ErrEOF). by split_and!. }
  apply (readLoop_spec n _ _ r fr ps ds); try done; [|lia|lia].
  clear r fr ps ds want off Hr Hps Hf Hl Hsz Hoff Hlt. intros r rc want piece Hr Hw Hst. destruct rc as [|k|d pos limit|fr pos limit]; cbn [readFull standsFor] in *.
  - subst piece. split; [done|]. exists []. by rewrite take_nil.
  - subst piece. split; [done|]. eexists. split; [done|]. rewrite take_replicate.
    assert (Z.to_nat (want `min` k) = (Z.to_nat want `min` Z.to_nat k)%nat) as -> by lia. done.
  - subst piece. split; [done|]. eexists. split; [done|]. rewrite take_take.
    assert (Z.to_nat (want `min` limit) = (Z.to_nat want `min` Z.to_nat limit)%nat) as -> by lia. done.
  - destruct n as [|n]; [done|]. destruct Hst as (Hpos & sub & ds & Hps & Hf & Hl & Hsz & ->). rewrite Hsz.
    set (k := want `min` limit `min` (glen (concat ds) - pos)).
    assert (take (Z.to_nat want) (take (Z.to_nat limit) (drop (Z.to_nat pos) (concat ds))) =
      take (Z.to_nat k) (drop (Z.to_nat pos) (concat ds))) as ->.
    { rewrite take_take. destruct (decide (want `min` limit <= glen (concat ds) - pos)).
      - f_equal. unfold k. lia.
      - rewrite !take_ge; [done|rewrite length_drop; unfold k, glen in *; lia..]. }
    destruct (Z.leb_spec k 0) as [Hk|Hk].
    { split; [done|]. exists []. replace (Z.to_nat k) with 0%nat by lia. done. }
    destruct (IHn n ltac:(lia) depth r fr sub ds k pos ltac:(lia) Hr Hps Hf Hl Hsz Hpos) as (Hr' & bs & e & Hx & Hp & _ & Hft).
    destruct (ReadAt depth r fr k pos) as [r' x]; cbn [fst snd] in *. subst x. split; [done|]. exists bs. split_and!; [done|done|].
    intros Hfe. by destruct (Hft Hfe).
Qed.
End readat_proofs.

(** * Files *)

(** The blob [br] is a file, nested at most [n] deep, with the bytes [data]. *)
Definition fileHolds (m : blobs) (n : nat) (br : Ref) (data : gostr) : Prop :=
  exists text ss ps ds, m !! br = Some text /\ parseSuperset (text, Ok tt) = Ok ss /\
    ss_Type ss ∈ [gs "file"; gs "bytes"] /\ ss_Parts ss = Some <$> ps /\ Forall2 (partHolds m n) ps ds /\
    glen (concat ds) < 2 ^ 62 /\ data = concat ds.

Section files.
Context {S : Type} `{FetcherLaws S}.

(** Opening a file gives a reader of its parts. *)
Lemma NewFileReader_opens (s : S) (br : Ref) (text : gostr) ss ps ds n :
  ft_wf s -> Valid br = true -> ft_view s !! br = Some text -> parseSuperset (text, Ok tt) = Ok ss ->
  ss_Type ss ∈ [gs "file"; gs "bytes"] -> ss_Parts ss = Some <$> ps -> Forall2 (partHolds (ft_view s) n) ps ds -> glen (concat ds) < 2 ^ 62 ->
  match NewFileReader s br with
  | (s', Ok (r0, fr)) => rootOk (ft_view s) r0 /\ fr_size fr = glen (concat ds) /\ ss_Parts (fr_ss fr) = Some <$> ps
  | (_, Err _) => ~ fetches (S := S)
  | _ => False
  end.
Proof.
  intros Hwf Hv Ht Hp Hty Hps Hf Hl. unfold NewFileReader. rewrite Hv. cbn [negb].
  destruct (st_Fetch s br) as [s' x] eqn:E. pose proof E as E'. apply ft_Fetch_law in E' as (Hwf' & Hview & Hx); [|done|by eapply (ft_wf_good s Hwf)].
  destruct x as [[d sz]|e|p|]; [| |done..].
  - destruct Hx as [Hd _]. assert (d = text) as -> by congruence. rewrite Hp.
    assert (ss_Type (setBlobRef br ss) = ss_Type ss) as Ht1 by (unfold ss_Type, strField, setBlobRef; by rewrite lookup_insert_ne).
    assert (ss_Parts (setBlobRef br ss) = Some <$> ps) as Ht2 by (unfold ss_Parts, setBlobRef; by rewrite lookup_insert_ne).
    rewrite Ht1, bool_decide_eq_true_2 by done. rewrite (ssNewFileReader_ok (ft_view s) n _ ps ds) by (rewrite ?Ht1; done).
    cbn [rbind]. split; [by constructor|]. done.
  - intros Hfet. specialize (Hfet s br text Hwf Ht). by rewrite E in Hfet.
Qed.

Lemma file_reads (s : S) (br : Ref) (n : nat) (data : gostr) :
  ft_wf s -> Valid br = true -> fileHolds (ft_view s) n br data ->
  match NewFileReader s br with
  | (s', Ok (r0, fr)) =>
      rootOk (ft_view s) r0 /\ fr_size fr = glen data /\
      forall r depth want off, rootOk (ft_view s) r -> (n < depth)%nat -> 0 <= off ->
        readsOf (ft_view s) (ReadAt depth r fr want off) (take (Z.to_nat want) (drop (Z.to_nat off) data))
          (if glen data <=? off then Some ErrEOF
           else if (want <=? 0) || (off + want <=? glen data) then None else Some ErrUnexpectedEOF)
  | (_, Err _) => ~ fetches (S := S)
  | _ => False
  end.
Proof.
  intros Hwf Hv (text & ss & ps & ds & Ht & Hp & Hty & Hps & Hf & Hl & ->).
  pose proof (NewFileReader_opens s br text ss ps ds n Hwf Hv Ht Hp Hty Hps Hf Hl) as Ho.
  destruct (NewFileReader s br) as [s' [[r0 fr]|e|p|]]; [|done..]. destruct Ho as (Hr0 & Hsz & Hparts). split; [done|]. split; [done|].
  intros r depth want off Hr Hdepth Hoff. by apply (ReadAt_spec (ft_view s) n _ _ _ ps ds).
Qed.

(** C19. A reader of a file reads the file, whose parts each run to the end of
    the blob or "bytes" blob they refer to, as those of written files do: its
    size is the number of bytes, and at every offset a read returns bytes of
    the file in their place.  When the storage does not fail it returns all
    that were asked for and are there, and says so; when it does, what is
    returned is still a prefix of them, and never without an error unless it
    is complete.  This holds whatever the caches hold after earlier reads.  Of
    a part that is only the front of a larger blob a read that starts inside
    the part can run past it ([part_overread]). *)
Theorem ReadAt_file (s : S) (br : Ref) (n : nat) (data : gostr) :
  ft_wf s -> Valid br = true -> fileHolds (ft_view s) n br data ->
  match NewFileReader s br with
  | (s', Ok (r0, fr)) =>
      rootOk (ft_view s) r0 /\ fr_size fr = glen data /\
      forall r depth want off, rootOk (ft_view s) r -> (n < depth)%nat -> 0 <= off ->
        readsOf (ft_view s) (ReadAt depth r fr want off) (take (Z.to_nat want) (drop (Z.to_nat off) data))
          (if glen data <=? off then Some ErrEOF
           else if (want <=? 0) || (off + want <=? glen data) then None else Some ErrUnexpectedEOF)
  | (_, Err _) => ~ fetches (S := S)
  | _ => False
  end.
Proof. apply file_reads. Qed.
End files.

(** A blob and a file of one part. *)
Definition exampleFile : gostr := fileText (gs "x") 1 exampleParts.
Definition exampleFiles : blobs := blobsOf [gs "a"; exampleFile].

Lemma exampleFile_holds : fileHolds exampleFiles 0 (refOf exampleFile) (gs "a").
Proof.
  destruct (fileText_ok (gs "x") 1 exampleParts) as (ss & Hss & Hty & Hps); [vm_compute; reflexivity|exact exampleParts_ok|].
  exists exampleFile, ss, exampleParts, [gs "a"]. split; [vm_compute; reflexivity|]. split; [exact (Hss (Ok tt))|].
  split; [rewrite Hty; apply list_elem_of_here|]. split; [exact Hps|]. split; [|split; reflexivity].
  constructor; [|constructor]. split; [reflexivity|]. split; [reflexivity|]. split; [discriminate|]. left.
  split; [reflexivity|]. split; [reflexivity|]. exists (gs "a"). split; [vm_compute; reflexivity|]. split; [|reflexivity].
  apply (bool_decide_unpack _). vm_compute. exact I.
Qed.

Lemma exampleFiles_good : goodBlobs exampleFiles.
Proof.
  apply blobsOf_good. constructor; [reflexivity|]. constructor; [|constructor].
  apply (bool_decide_unpack _). vm_compute. exact I.
Qed.

Lemma ReadAt_file_witness :
  match NewFileReader exampleFiles (refOf exampleFile) with
  | (s', Ok (r0, fr)) => fr_size fr = 1 /\ exists r', ReadAt 1 r0 fr 5 0 = (r', Ok (gs "a", Some ErrUnexpectedEOF))
  | _ => False
  end.
Proof.
  pose proof (ReadAt_file exampleFiles (refOf exampleFile) 0 (gs "a") exampleFiles_good eq_refl exampleFile_holds) as Hread.
  assert (fetches (S := blobs)) as Hf.
  { intros s br d _ Hd. change (ft_view s) with s in Hd. cbn [st_Fetch st_fetcher map_Storage map_Fetcher snd]. rewrite Hd. reflexivity. }
  destruct (NewFileReader exampleFiles (refOf exampleFile)) as [s' [[r0 fr]|e|p|]]; [|exact (Hread Hf)|exact Hread|exact Hread].
  destruct Hread as (Hr & Hs & Hread). split; [exact Hs|].
  destruct (Hread r0 1%nat 5 0 Hr ltac:(lia) ltac:(lia)) as (_ & bs & e & He & _ & _ & Hfe). destruct (Hfe Hf) as [-> ->].
  exists (ReadAt 1 r0 fr 5 0).1.
  transitivity ((ReadAt 1 r0 fr 5 0).1, (ReadAt 1 r0 fr 5 0).2); [apply surjective_pairing|]. rewrite He. reflexivity.
Defined.

(** A part that is the front of a blob reads too far when the read starts
    inside the part: the reader is limited to the part's size, not to what is
    left of it. *)
Example part_overread :
  let part off := MkPart off (refOf (gs "abc")) zeroRef 0 in
  let text := fileText (gs "x") 3 [part 2; part 1] in
  match NewFileReader (blobsOf [gs "abc"; text]) (refOf text) with
  | (s', Ok (r0, fr)) => (ReadAt 1 r0 fr 3 0).2 = Ok (gs "aba", None) /\ (ReadAt 1 r0 fr 2 1).2 = Ok (gs "bc", None)
  | _ => False
  end.
Proof. vm_compute. split; reflexivity. Qed.
