(* ===== verification/FileWriter.v ===== *)
(** Writing files: pkg/schema/filewriter.go.

    A source is what its successive [Read] calls return.  The chunks are cut by
    the pure [cutByte]; the loop around it uploads them.  The uploads of the
    goroutines take effect in the order in which they are started; when the
    loop learns of a failed one is up to [seen].  The goroutines' panics end
    the program.  What the hub sends is not followed here. *)

From S2P Require Import Prelude Ref RollSum Strutil Sha1 Storage Receive Json Schema FileReader.

Definition firstChunkSize : Z := 256 * 2 ^ 10.
Definition bufioReaderSize : nat := 32 * 1024.
Definition tooSmallThreshold : Z := 64 * 2 ^ 10.

(** * Reading the source *)

(** A [bufio.Reader] over a [noteEOFReader]: unread bytes, the results of the
    reads to come, the error kept for later, and whether [io.EOF] was seen. *)
Record bufReader := MkBuf { bf_buf : gostr; bf_src : list (gostr * gerr); bf_err : gerr; bf_sawEOF : bool }.

(** One [Read] of at most [bufioReaderSize] bytes; an exhausted source says
    [io.EOF]. *)
Definition srcRead (src : list (gostr * gerr)) : gostr * gerr * list (gostr * gerr) :=
  match src with
  | [] => ([], Some ErrEOF, [])
  | (p, e) :: l =>
      if (length p <=? bufioReaderSize)%nat then (p, e, l)
      else (take bufioReaderSize p, None, (drop bufioReaderSize p, e) :: l)
  end.

Definition isEOF (e : gerr) : bool := bool_decide (e = Some ErrEOF).

(** [fill]: up to a hundred empty reads. *)
Fixpoint fillLoop (k : nat) (src : list (gostr * gerr)) (saw : bool) : bufReader :=
  match k with
  | O => MkBuf [] src (Some (ErrMsg "multiple Read calls return no data or error")) saw
  | S k =>
      let '(p, e, src) := srcRead src in
      let saw := saw || isEOF e in
      match e, p with
      | None, [] => fillLoop k src saw
      | _, _ => MkBuf p src e saw
      end
  end.

Definition readByte (b : bufReader) : bufReader * res ascii :=
  let b := match bf_buf b, bf_err b with [], None => fillLoop 100 (bf_src b) (bf_sawEOF b) | _, _ => b end in
  match bf_buf b with
  | c :: t => (MkBuf t (bf_src b) (bf_err b) (bf_sawEOF b), Ok c)
  | [] => (MkBuf [] (bf_src b) None (bf_sawEOF b), match bf_err b with Some e => Err e | None => Panic "bufio" end)
  end.

Definition newReader (src : list (gostr * gerr)) : bufReader := MkBuf [] src None false.

(** * Spans *)

Inductive span := Span (from to bits : Z) (br : Ref) (children : list span).

Definition sp_from (s : span) : Z := let 'Span f _ _ _ _ := s in f.
Definition sp_to (s : span) : Z := let 'Span _ t _ _ _ := s in t.
Definition sp_bits (s : span) : Z := let 'Span _ _ b _ _ := s in b.
Definition sp_br (s : span) : Ref := let 'Span _ _ _ r _ := s in r.
Definition sp_children (s : span) : list span := let 'Span _ _ _ _ c := s in c.

Definition isSingleBlob (s : span) : bool := match sp_children s with [] => true | _ => false end.

Fixpoint spanSize (s : span) : Z :=
  let 'Span from to _ _ children := s in
  to - from + foldr Z.add 0 (map spanSize children).

(** * Cutting *)

Record cutState := MkCut { cs_n : Z; cs_last : Z; cs_blobSize : Z; cs_rs : RollSum; cs_buf : gostr; cs_spans : list span }.
Definition cutInit : cutState := MkCut 0 0 0 RollSum.New [] [].

(** The [switch]: the weight of a cut after this byte, if there is one. *)
Definition cutBits (n blobSize : Z) (rs : RollSum) (sawEOF : bool) : option Z :=
  if blobSize =? maxBlobSize then Some 20
  else if sawEOF then None
  else if OnSplit rs && (firstChunkSize <? n) && (tooSmallThreshold <? blobSize) then Bits rs
  else if n =? firstChunkSize then Some 18
  else None.

(** The spans at the end that are lighter than a new one become its children. *)
Fixpoint popSpans (bits : Z) (rspans acc : list span) : list span * list span :=
  match rspans with
  | s :: r => if sp_bits s <? bits then popSpans bits r (s :: acc) else (rev rspans, acc)
  | [] => ([], acc)
  end.

(** One byte: the new state and the chunk to upload, if it ends here. *)
Definition cutByte (st : cutState) (sawEOF : bool) (c : ascii) : cutState * option gostr :=
  let buf := cs_buf st ++ [c] in
  let n := cs_n st + 1 in
  let blobSize := cs_blobSize st + 1 in
  let rs := Roll (cs_rs st) (bz c) in
  match cutBits n blobSize rs sawEOF with
  | None => (MkCut n (cs_last st) blobSize rs buf (cs_spans st), None)
  | Some bits =>
      let '(spans, children) := popSpans bits (rev (cs_spans st)) [] in
      (MkCut n n 0 rs [] (spans ++ [Span (cs_last st) n bits (refOf buf) children]), Some buf)
  end.

(** The end of the source: what is left is the last span. *)
Definition cutEnd (st : cutState) : cutState * option gostr :=
  if cs_n st =? cs_last st then (st, None)
  else (MkCut (cs_n st) (cs_last st) (cs_blobSize st) (cs_rs st) []
          (cs_spans st ++ [Span (cs_last st) (cs_n st) 0 (refOf (cs_buf st)) []]), Some (cs_buf st)).

(** * Uploading *)

(** The result of an [uploadBytes] in progress: the reference known already,
    its own outcome, and those of its children. *)
Inductive future := Future (br : Ref) (own : gerr) (children : list future).
Definition f_br (f : future) : Ref := let 'Future br _ _ := f in br.

(** [Get]: the first child that failed, else the outcome. *)
Fixpoint futGet (f : future) : res Ref :=
  let 'Future br own children := f in
  match foldr (fun r (acc : res unit) => match r with Ok _ => acc | Err e => Err e | Panic p => Panic p | Blocked => Blocked end)
          (Ok tt) (map futGet children) with
  | Ok _ => match own with None => Ok br | Some e => Err e end
  | Err e => Err e
  | Panic p => Panic p
  | Blocked => Blocked
  end.

Section filewriter.
Context {S : Type} `{!Storage S} (firstErr : list error -> error) (hub : memHub) (seen : nat -> bool).

Definition serverHasBlob (bs : S) (br : Ref) : res bool :=
  match StatBlob bs br with
  | Ok _ => Ok true
  | Err e => if decide (e = ErrNotExist) then Ok false else Err e
  | Panic p => Panic p
  | Blocked => Blocked
  end.

Definition uploadString (bs : S) (br : Ref) (s : gostr) : S * res Ref :=
  if negb (Valid br) then (bs, Panic "invalid blobref")
  else
    match serverHasBlob bs br with
    | Ok true => (bs, Ok br)
    | Ok false => let '(bs, _, r) := ReceiveNoHash firstErr bs hub br (s, Ok tt) in (bs, let? _ := r in Ok br)
    | Err e => (bs, Err e)
    | Panic p => (bs, Panic p)
    | Blocked => (bs, Blocked)
    end.

(** The store, the error sent on [firsterrc] if any, and how many spans have
    been uploaded. *)
Record upState := MkUp { up_bs : S; up_err : gerr; up_count : nat }.

Definition uploadLastSpan (u : upState) (chunk : gostr) : upState * res unit :=
  match up_err u with
  | Some e => if seen (up_count u) then (u, Err e) else
      match uploadString (up_bs u) (refOf chunk) chunk with
      | (bs, Ok _) | (bs, Err _) => (MkUp bs (Some e) (Datatypes.S (up_count u)), Ok tt)
      | (bs, Panic p) => (MkUp bs (Some e) (up_count u), Panic p)
      | (bs, Blocked) => (MkUp bs (Some e) (up_count u), Blocked)
      end
  | None =>
      match uploadString (up_bs u) (refOf chunk) chunk with
      | (bs, Ok _) => (MkUp bs None (Datatypes.S (up_count u)), Ok tt)
      | (bs, Err e) => (MkUp bs (Some e) (Datatypes.S (up_count u)), Ok tt)
      | (bs, Panic p) => (MkUp bs None (up_count u), Panic p)
      | (bs, Blocked) => (MkUp bs None (up_count u), Blocked)
      end
  end.

Definition uploadOpt (u : upState) (chunk : option gostr) : upState * res unit :=
  match chunk with Some c => uploadLastSpan u c | None => (u, Ok tt) end.

(** The loop of [writeFileChunks] and the wait after it. *)
Fixpoint chunkLoop (fuel : nat) (u : upState) (b : bufReader) (st : cutState) : upState * res (Z * list span) :=
  match fuel with
  | O => (u, Panic "out of fuel")
  | Datatypes.S fuel =>
      match readByte b with
      | (b, Ok c) =>
          let '(st, chunk) := cutByte st (bf_sawEOF b) c in
          match uploadOpt u chunk with
          | (u, Ok _) => chunkLoop fuel u b st
          | (u, Err e) => (u, Err e)
          | (u, Panic p) => (u, Panic p)
          | (u, Blocked) => (u, Blocked)
          end
      | (b, Err e) =>
          if decide (e = ErrEOF) then
            let '(st, chunk) := cutEnd st in
            match uploadOpt u chunk with
            | (u, Ok _) => (u, match up_err u with Some e => Err e | None => Ok (cs_n st, cs_spans st) end)
            | (u, Err e) => (u, Err e)
            | (u, Panic p) => (u, Panic p)
            | (u, Blocked) => (u, Blocked)
            end
          else (u, Err e)
      | (b, Panic p) => (u, Panic p)
      | (b, Blocked) => (u, Blocked)
      end
  end.

Definition srcLen (src : list (gostr * gerr)) : nat := list_sum (map (fun r => length r.1) src).

Definition writeFileChunks (bs : S) (src : list (gostr * gerr)) : S * res (Z * list span) :=
  let '(u, r) := chunkLoop (Datatypes.S (srcLen src)) (MkUp bs None 0) (newReader src) cutInit in (up_bs u, r).

(** What [uploadBytes] does after [addBytesParts] has given it the parts and
    the futures of its children. *)
Definition finishBytes (bs : S) (bb : Builder) (size : Z) (parts : list BytesPart) (children : list future) : S * res future :=
  match PopulateParts bb size parts with
  | Err e => (bs, Ok (Future zeroRef (Some e) children))
  | Panic p => (bs, Panic p)
  | Blocked => (bs, Blocked)
  | Ok bb =>
      match (if decide (Type_ bb = gs "file") then (let? _ := futGet (Future zeroRef None children) in Ok []) else Ok children) with
      | Err e => (bs, Ok (Future zeroRef (Some e) []))
      | Panic p => (bs, Panic p)
      | Blocked => (bs, Blocked)
      | Ok children =>
          match Blob_ bb with
          | Ok b =>
              let json := b_str b in
              match uploadString bs (refOf json) json with
              | (bs, Ok _) => (bs, Ok (Future (refOf json) None children))
              | (bs, Err e) => (bs, Ok (Future (refOf json) (Some e) children))
              | (bs, Panic p) => (bs, Panic p)
              | (bs, Blocked) => (bs, Blocked)
              end
          | Err e => (bs, Err e)
          | Panic p => (bs, Panic p)
          | Blocked => (bs, Blocked)
          end
      end
  end.

Definition blobPart (br : Ref) (size : Z) : BytesPart := MkPart (u64 size) br zeroRef 0.

(** One span of [addBytesParts]: the parts and futures it adds. *)
Fixpoint addSpan (sp : span) (bs : S) : S * res (list BytesPart * list future) :=
  let 'Span from to _ br children := sp in
  let own (x : list BytesPart * list future) : res (list BytesPart * list future) :=
    if from =? to then Panic "Shouldn't happen. weird span with same from & to: %#v"
    else Ok (x.1 ++ [blobPart br (to - from)], x.2) in
  match children with
  | [] => (bs, own ([], []))
  | [Span f t _ r []] => (bs, own ([blobPart r (spanSize (Span f t 0 r []))], []))
  | _ =>
      let childrenSize := foldr Z.add 0 (map spanSize children) in
      match (fix go (l : list span) (bs : S) : S * res (list BytesPart * list future) :=
               match l with
               | [] => (bs, Ok ([], []))
               | c :: l =>
                   match addSpan c bs with
                   | (bs, Ok x) =>
                       match go l bs with
                       | (bs, Ok y) => (bs, Ok (x.1 ++ y.1, x.2 ++ y.2))
                       | z => z
                       end
                   | z => z
                   end
               end) children bs with
      | (bs, Ok (parts, futs)) =>
          match finishBytes bs newBytes childrenSize parts futs with
          | (bs, Ok fut) => (bs, own ([MkPart (u64 childrenSize) zeroRef (f_br fut) 0], [fut]))
          | (bs, Err e) => (bs, Err e)
          | (bs, Panic p) => (bs, Panic p)
          | (bs, Blocked) => (bs, Blocked)
          end
      | z => z
      end
  end.

Fixpoint addBytesParts (l : list span) (bs : S) : S * res (list BytesPart * list future) :=
  match l with
  | [] => (bs, Ok ([], []))
  | c :: l =>
      match addSpan c bs with
      | (bs, Ok x) =>
          match addBytesParts l bs with
          | (bs, Ok y) => (bs, Ok (x.1 ++ y.1, x.2 ++ y.2))
          | z => z
          end
      | z => z
      end
  end.

Definition uploadBytes (bs : S) (bb : Builder) (size : Z) (s : list span) : S * res future :=
  match addBytesParts s bs with
  | (bs, Ok (parts, futs)) => finishBytes bs bb size parts futs
  | (bs, Err e) => (bs, Err e)
  | (bs, Panic p) => (bs, Panic p)
  | (bs, Blocked) => (bs, Blocked)
  end.

Definition writeFileMapRolling (bs : S) (file : Builder) (src : list (gostr * gerr)) : S * res Ref :=
  match writeFileChunks bs src with
  | (bs, Ok (n, spans)) => let '(bs, f) := uploadBytes bs file n spans in (bs, let? f := f in futGet f)
  | (bs, Err e) => (bs, Err e)
  | (bs, Panic p) => (bs, Panic p)
  | (bs, Blocked) => (bs, Blocked)
  end.

Definition WriteFileMap := writeFileMapRolling.

(** [WriteFileChunks]: the builder with its parts. *)
Definition WriteFileChunks (bs : S) (file : Builder) (src : list (gostr * gerr)) : S * res Builder :=
  match writeFileChunks bs src with
  | (bs, Ok (size, spans)) =>
      match addBytesParts spans bs with
      | (bs, Ok (parts, futs)) => (bs, let? _ := futGet (Future zeroRef None futs) in PopulateParts file size parts)
      | (bs, Err e) => (bs, Err e)
      | (bs, Panic p) => (bs, Panic p)
      | (bs, Blocked) => (bs, Blocked)
      end
  | (bs, Err e) => (bs, Err e)
  | (bs, Panic p) => (bs, Panic p)
  | (bs, Blocked) => (bs, Blocked)
  end.

Definition WriteFileFromReader (bs : S) (filename : gostr) (src : list (gostr * gerr)) : S * res Ref :=
  if decide ("/"%char ∈ filename) then
    (bs, Err (ErrMsg "schema.WriteFileFromReader: filename %q shouldn't contain a slash"))
  else
    match NewFileMap filename with
    | Ok m => WriteFileMap bs m src
    | Err e => (bs, Err e)
    | Panic p => (bs, Panic p)
    | Blocked => (bs, Blocked)
    end.
End filewriter.

(** * The source, byte by byte *)

(** What a source has before its first error, and that error. *)
Fixpoint srcBytes (src : list (gostr * gerr)) : gostr :=
  match src with
  | [] => []
  | (p, None) :: l => p ++ srcBytes l
  | (p, Some _) :: _ => p
  end.

Fixpoint srcEnd (src : list (gostr * gerr)) : error :=
  match src with
  | [] => ErrEOF
  | (_, None) :: l => srcEnd l
  | (_, Some e) :: _ => e
  end.

Definition errNoProgress : error := ErrMsg "multiple Read calls return no data or error".

Definition bufBytes (b : bufReader) : gostr :=
  bf_buf b ++ match bf_err b with Some _ => [] | None => srcBytes (bf_src b) end.
Definition bufEnd (b : bufReader) : error := match bf_err b with Some e => e | None => srcEnd (bf_src b) end.
Definition bufLen (b : bufReader) : nat := (length (bf_buf b) + srcLen (bf_src b))%nat.

(** No [Read] returns neither bytes nor an error. *)
Definition progresses (src : list (gostr * gerr)) : Prop := Forall (fun r => r.1 ≠ [] \/ r.2 ≠ None) src.

Lemma srcRead_spec src p e l : srcRead src = (p, e, l) ->
  srcBytes src = p ++ match e with Some _ => [] | None => srcBytes l end /\
  srcEnd src = match e with Some e => e | None => srcEnd l end /\
  (length p + srcLen l = srcLen src)%nat /\ (progresses src -> progresses l /\ (p ≠ [] \/ e ≠ None)).
Proof.
  unfold srcRead. destruct src as [|[q er] src].
  { intros [= <- <- <-]. split_and!; [done..|]. intros _. split; [constructor|by right]. }
  destruct (Nat.leb_spec (length q) bufioReaderSize) as [Hq|Hq]; intros [= <- <- <-].
  - split_and!; [by destruct er; rewrite ?app_nil_r|by destruct er|done|]. by intros [??]%Forall_cons.
  - cbn [srcBytes srcEnd]. split_and!.
    + destruct er; [by rewrite take_drop|]. by rewrite app_assoc, take_drop.
    + done.
    + unfold srcLen. cbn [map fst list_sum foldr]. rewrite length_take, length_drop. lia.
    + intros [Hp Hps]%Forall_cons. split; [constructor; [|done]; left|left]; cbn [fst];
        intros Hn; apply (f_equal length) in Hn; rewrite ?length_take, ?length_drop in Hn; cbn [length] in Hn; unfold bufioReaderSize in *; lia.
Qed.

Lemma fillLoop_spec k src saw : let b := fillLoop k src saw in
  bufLen b = srcLen src /\
  ((bufBytes b = srcBytes src /\ bufEnd b = srcEnd src /\ (bf_buf b ≠ [] \/ bf_err b ≠ None)) \/
   (bf_buf b = [] /\ bf_err b = Some errNoProgress /\ (~ progresses src \/ k = O))) /\
  (progresses src -> progresses (bf_src b)).
Proof.
  revert src saw. induction k as [|k IH]; intros src saw; cbn [fillLoop].
  { cbn zeta. split_and!; [done| |done]. right. do 2 (split; [reflexivity|]). by right. }
  destruct (srcRead src) as [[p e] l] eqn:E. apply srcRead_spec in E as (Hb & He & Hl & Hp).
  destruct e as [e|]; [|destruct p as [|c p]]; cbn zeta.
  - unfold bufLen, bufBytes, bufEnd. cbn [bf_buf bf_src bf_err]. split_and!; [done| |intros Hpr; apply (Hp Hpr)]. left. rewrite Hb, He. split_and!; [done..|by right].
  - specialize (IH l (saw || isEOF None)). cbn zeta in IH. destruct IH as (H1 & H2 & H3). rewrite H1. cbn [app length] in *.
    split_and!; [done| |intros Hpr; apply H3, (Hp Hpr)]. destruct H2 as [(H2 & H4 & H5)|(H2 & H4 & H5)]; [left; by rewrite H2, H4, Hb, He|right].
    split_and!; [done..|]. left. intros Hpr. destruct (Hp Hpr) as [Hpr' [?|?]]; done.
  - unfold bufLen, bufBytes, bufEnd. cbn [bf_buf bf_src bf_err]. split_and!; [done| |intros Hpr; apply (Hp Hpr)]. left. rewrite Hb, He. split_and!; [done..|by left].
Qed.

(** Reading a byte: the next one, or the end. *)
Lemma readByte_spec b :
  match readByte b with
  | (b', Ok c) => bufBytes b = c :: bufBytes b' /\ bufEnd b = bufEnd b' /\ S (bufLen b') = bufLen b /\
      (progresses (bf_src b) -> progresses (bf_src b'))
  | (_, Err e) => (bufBytes b = [] /\ e = bufEnd b) \/ (e = errNoProgress /\ ~ progresses (bf_src b))
  | _ => False
  end.
Proof.
  unfold readByte. destruct b as [buf src err saw]. cbn [bf_buf bf_src bf_err bf_sawEOF].
  assert (forall b' : bufReader, bufLen b' = bufLen (MkBuf buf src err saw) -> (progresses src -> progresses (bf_src b')) ->
    bufBytes b' = bufBytes (MkBuf buf src err saw) /\ bufEnd b' = bufEnd (MkBuf buf src err saw) /\ (bf_buf b' ≠ [] \/ bf_err b' ≠ None) \/
     (bf_buf b' = [] /\ bf_err b' = Some errNoProgress /\ ~ progresses src) ->
    match (let '(b1, x) := match bf_buf b' with
      | c :: t => (MkBuf t (bf_src b') (bf_err b') (bf_sawEOF b'), Ok c)
      | [] => (MkBuf [] (bf_src b') None (bf_sawEOF b'), match bf_err b' with Some e => Err e | None => Panic "bufio" end)
      end in (b1, x)) with
    | (b', Ok c) => bufBytes (MkBuf buf src err saw) = c :: bufBytes b' /\ bufEnd (MkBuf buf src err saw) = bufEnd b' /\
        S (bufLen b') = bufLen (MkBuf buf src err saw) /\ (progresses src -> progresses (bf_src b'))
    | (_, Err e) => (bufBytes (MkBuf buf src err saw) = [] /\ e = bufEnd (MkBuf buf src err saw)) \/ (e = errNoProgress /\ ~ progresses src)
    | _ => False
    end) as Hgen.
  { intros [buf' src' err' saw'] Hl Hp Hc. cbn [bf_buf bf_src bf_err bf_sawEOF] in *.
    destruct Hc as [(<- & <- & Hne)|(-> & -> & Hn)]; [|right; done].
    destruct buf' as [|c t].
    - destruct err' as [e|]; [left; done|]. by destruct Hne.
    - split_and!; [done|done| |done]. rewrite <- Hl. done. }
  destruct buf as [|c t]; [destruct err as [e|]|].
  - left. done.
  - pose proof (fillLoop_spec 100 src saw) as Hf. cbn zeta in Hf. destruct Hf as (H1 & H2 & H3).
    specialize (Hgen (fillLoop 100 src saw)). destruct (fillLoop 100 src saw) as [buf' src' err' saw']. cbn [bf_buf bf_src bf_err bf_sawEOF] in *.
    destruct buf' as [|c t].
    + apply Hgen; [exact H1|exact H3|]. destruct H2 as [H2|(?&?&[?|?])]; [left; exact H2|right; done|done].
    + apply Hgen; [exact H1|exact H3|]. destruct H2 as [H2|(?&?&[?|?])]; [left; exact H2|right; done|done].
  - split_and!; done.
Qed.

(** * The chunks and spans of a source *)

Definition chunkList (c : option gostr) : list gostr := match c with Some c => [c] | None => [] end.

(** [chunkLoop] without the uploads: the chunks it sends and what it returns. *)
Fixpoint cutLoop (fuel : nat) (b : bufReader) (st : cutState) : list gostr * res (Z * list span) :=
  match fuel with
  | O => ([], Panic "out of fuel")
  | S fuel =>
      match readByte b with
      | (b, Ok c) =>
          let '(st, chunk) := cutByte st (bf_sawEOF b) c in
          let '(cs, r) := cutLoop fuel b st in (chunkList chunk ++ cs, r)
      | (b, Err e) =>
          if decide (e = ErrEOF) then
            let '(st, chunk) := cutEnd st in (chunkList chunk, Ok (cs_n st, cs_spans st))
          else ([], Err e)
      | (b, Panic p) => ([], Panic p)
      | (b, Blocked) => ([], Blocked)
      end
  end.

Definition cutSrc (src : list (gostr * gerr)) : list gostr * res (Z * list span) :=
  cutLoop (S (srcLen src)) (newReader src) cutInit.

(** A tree's blobs in the order of their bytes: the children's before its own. *)
Fixpoint leaves (s : span) : list (Z * Z * Ref) :=
  let 'Span from to _ br children := s in concat (map leaves children) ++ [(from, to, br)].

(** Where chunks lie. *)
Fixpoint placed (pos : Z) (chunks : list gostr) : list (Z * Z * Ref) :=
  match chunks with
  | [] => []
  | c :: cs => (pos, pos + glen c, refOf c) :: placed (pos + glen c) cs
  end.

(** Children are lighter than their parent. *)
Fixpoint heaped (s : span) : Prop :=
  let 'Span _ _ bits _ children := s in
  0 <= bits <= 31 /\ foldr and True (map (fun c => sp_bits c < bits /\ heaped c) children).

Definition chunkOk (c : gostr) : Prop := 0 < glen c <= maxBlobSize.

(** Induction on spans and their children. *)
Lemma span_ind' (P : span -> Prop) :
  (forall from to bits br children, Forall P children -> P (Span from to bits br children)) -> forall s, P s.
Proof.
  intros Hstep. fix IH 1. intros [from to bits br children]. apply Hstep.
  induction children as [|c l IHl]; constructor; [apply IH|apply IHl].
Qed.

Lemma foldr_and_Forall {A} (P : A -> Prop) l : foldr and True (map P l) <-> Forall P l.
Proof. induction l as [|x l IH]; cbn [map foldr]; [by split|]. by rewrite Forall_cons, IH. Qed.

Lemma heaped_unfold from to bits br children : heaped (Span from to bits br children) <->
  0 <= bits <= 31 /\ Forall (fun c => sp_bits c < bits /\ heaped c) children.
Proof. cbn [heaped]. by rewrite foldr_and_Forall. Qed.

Lemma placed_app pos a b : placed pos (a ++ b) = placed pos a ++ placed (pos + glen (concat a)) b.
Proof.
  revert pos. induction a as [|c a IH]; intros pos; cbn [app placed concat].
  { change (glen []) with 0. by rewrite Z.add_0_r. }
  rewrite IH, glen_app. do 3 f_equal. lia.
Qed.

(** [popSpans] splits the spans: those left, and the lighter ones after. *)
Lemma popSpans_spec bits rspans acc spans children : popSpans bits rspans acc = (spans, children) ->
  exists l, children = l ++ acc /\ rev rspans = spans ++ l /\ Forall (fun s => sp_bits s < bits) l /\
    match last spans with Some s => bits <= sp_bits s | None => True end.
Proof.
  revert acc. induction rspans as [|s r IH]; intros acc; cbn [popSpans].
  { intros [= <- <-]. exists []. by split_and!. }
  destruct (Z.ltb_spec (sp_bits s) bits) as [Hlt|Hge].
  - intros (l & -> & Hr & Hf & Hl)%IH. exists (l ++ [s]). cbn [rev]. rewrite Hr, <- !app_assoc. split_and!; [done..| |done].
    apply Forall_app. split; [done|]. by apply Forall_singleton.
  - intros [= <- <-]. exists []. rewrite app_nil_r. split_and!; [done..|]. cbn [rev]. by rewrite last_snoc.
Qed.

Lemma cutBits_range n size rs saw bits : cutBits n size rs saw = Some bits -> 13 <= bits <= 31.
Proof.
  unfold cutBits. destruct (size =? maxBlobSize); [by intros [= <-]|]. destruct saw; [done|].
  destruct (_ && _ && _); [|destruct (n =? _); [by intros [= <-]|done]].
  destruct (Bits_spec rs) as (k & -> & Hk & _). intros [= <-]. lia.
Qed.

Lemma cutBits_first n size rs saw bits : cutBits n size rs saw = Some bits -> size <= n ->
  firstChunkSize <= n /\ (tooSmallThreshold < size \/ n = firstChunkSize).
Proof.
  unfold cutBits. destruct (Z.eqb_spec size maxBlobSize) as [->|].
  { intros _ Hn. split; [|left]; unfold firstChunkSize, tooSmallThreshold, maxBlobSize in *; lia. }
  destruct saw; [done|]. destruct (OnSplit rs); cbn [andb].
  - destruct (Z.ltb_spec firstChunkSize n) as [Hf|Hf]; cbn [andb].
    + destruct (Z.ltb_spec tooSmallThreshold size) as [Ht|Ht]; [intros _ _; split; [lia|by left]|].
      destruct (Z.eqb_spec n firstChunkSize); [lia|done].
    + destruct (Z.eqb_spec n firstChunkSize) as [->|]; [|done]. intros _ _. split; [done|by right].
  - destruct (Z.eqb_spec n firstChunkSize) as [->|]; [|done]. intros _ _. split; [done|by right].
Qed.

(** The bits of the spans at the top do not increase. *)
Definition descending (spans : list span) : Prop := StronglySorted (fun a b => sp_bits b <= sp_bits a) spans.

(** The state after the bytes [data], of which [chunks] have been cut. *)
Record cutOk (st : cutState) (data : gostr) (chunks : list gostr) : Prop := MkCutOk {
  co_data : data = concat chunks ++ cs_buf st;
  co_n : cs_n st = glen data;
  co_last : cs_last st = glen (concat chunks);
  co_size : cs_blobSize st = glen (cs_buf st);
  co_room : glen (cs_buf st) < maxBlobSize;
  co_chunks : Forall chunkOk chunks;
  co_big : Forall (fun c => tooSmallThreshold < glen c) chunks;
  co_first : chunks = [] \/ firstChunkSize <= cs_n st;
  co_leaves : concat (map leaves (cs_spans st)) = placed 0 chunks;
  co_heaped : Forall heaped (cs_spans st);
  co_descending : descending (cs_spans st)
}.

Lemma cutInit_ok : cutOk cutInit [] [].
Proof. constructor; try done; [by left|constructor]. Qed.

Lemma StronglySorted_app_l {A} (R : relation A) l k : StronglySorted R (l ++ k) -> StronglySorted R l.
Proof. induction l as [|x l IH]; [constructor|]. intros [Hs Hf]%StronglySorted_inv. apply Forall_app in Hf as [Hf _]. constructor; auto. Qed.

Lemma descending_snoc spans bits s : descending spans -> match last spans with Some s => bits <= sp_bits s | None => True end ->
  sp_bits s = bits -> descending (spans ++ [s]).
Proof.
  intros Hd Hl Hs. induction Hd as [|x l Hd IH Hf]; [repeat constructor|]. cbn [app].
  assert (match last l with Some s => bits <= sp_bits s | None => True end) as Hl'.
  { destruct l; [done|exact Hl]. }
  constructor; [by apply IH|]. apply Forall_app. split; [done|]. apply Forall_singleton. destruct l as [|y l _] using rev_ind; [simpl in *; lia|].
  rewrite last_snoc in Hl'. cbn in Hl'. rewrite Forall_app, Forall_singleton in Hf. lia.
Qed.

Lemma cutByte_ok st data chunks saw c : cutOk st data chunks ->
  let '(st', chunk) := cutByte st saw c in cutOk st' (data ++ [c]) (chunks ++ chunkList chunk).
Proof.
  intros [Hd Hn Hl Hs Hroom Hc Hbig Hfst Hlv Hh Hde]. unfold cutByte.
  assert (glen (cs_buf st ++ [c]) = glen (cs_buf st) + 1) as Hg by (by rewrite glen_app).
  pose proof (glen_nonneg (cs_buf st)) as Hnn.
  destruct (cutBits _ _ _ _) as [bits|] eqn:Eb.
  - destruct (popSpans bits (rev (cs_spans st)) []) as [spans children] eqn:Ep. apply popSpans_spec in Ep as (l & -> & Hr & Hf & Hlast).
    rewrite app_nil_r in *. rewrite rev_involutive in Hr. rewrite Hr in *. apply Forall_app in Hh as [Hh1 Hh2].
    pose proof (cutBits_first _ _ _ _ _ Eb) as Hfirst. pose proof (cutBits_range _ _ _ _ _ Eb) as Hrange. cbn [chunkList].
    assert (concat (chunks ++ [cs_buf st ++ [c]]) = data ++ [c]) as Hcat.
    { rewrite concat_app. cbn [concat]. by rewrite app_nil_r, app_assoc, <- Hd. }
    assert (glen (data ++ [c]) = glen data + 1) as Hg' by (by rewrite glen_app).
    assert (glen data = glen (concat chunks) + glen (cs_buf st)) as Hgd by (by rewrite Hd, glen_app).
    pose proof (glen_nonneg (concat chunks)).
    constructor; cbn [cs_n cs_last cs_blobSize cs_buf cs_spans].
    + by rewrite Hcat, app_nil_r.
    + lia.
    + rewrite Hcat. lia.
    + done.
    + done.
    + apply Forall_app. split; [done|]. apply Forall_singleton. unfold chunkOk. rewrite Hg. lia.
    + apply Forall_app. split; [done|]. apply Forall_singleton. rewrite Hg. destruct Hfirst as [_ [?|?]]; [lia|lia|].
      destruct Hfst as [->|?]; [|lia]. cbn [concat app] in Hd. subst data. unfold firstChunkSize, tooSmallThreshold in *. lia.
    + right. lia.
    + rewrite map_app, concat_app. cbn [map concat leaves]. rewrite app_nil_r, app_assoc.
      rewrite <- concat_app, <- map_app, Hlv, placed_app. f_equal. cbn [placed]. rewrite Hl, Hn, Hg, Hgd. do 3 f_equal; lia.

    + apply Forall_app. split; [done|]. apply Forall_singleton. apply heaped_unfold. split; [lia|].
      rewrite Forall_forall in *. intros x Hx. split; [by apply Hf|by apply Hh2].
    + apply (descending_snoc _ bits); [by eapply StronglySorted_app_l|done|done].
  - cbn [chunkList]. rewrite app_nil_r. constructor; cbn [cs_n cs_last cs_blobSize cs_buf cs_spans]; try done.
    + by rewrite Hd, app_assoc.
    + rewrite glen_app, Hn. done.
    + lia.
    + rewrite Hg. unfold cutBits in Eb. destruct (Z.eqb_spec (cs_blobSize st + 1) maxBlobSize); [done|]. lia.
    + destruct Hfst as [->|?]; [by left|right; lia].
Qed.

(** What has become of all the bytes [data]: [n] of them, cut into [chunks]
    that are the leaves of [spans].  All but the last are larger than 64 KB. *)
Record cutDone (n : Z) (spans : list span) (data : gostr) (chunks : list gostr) : Prop := MkCutDone {
  cd_data : concat chunks = data;
  cd_n : n = glen data;
  cd_chunks : Forall chunkOk chunks;
  cd_big : Forall (fun c => tooSmallThreshold < glen c) (removelast chunks);
  cd_leaves : concat (map leaves spans) = placed 0 chunks;
  cd_heaped : Forall heaped spans;
  cd_descending : descending spans
}.

Lemma Forall_removelast {A} (P : A -> Prop) l : Forall P l -> Forall P (removelast l).
Proof.
  induction 1 as [|x l Hx Hl IH]; [constructor|]. cbn [removelast]. destruct l; [constructor|]. by constructor.
Qed.

Lemma cutEnd_ok st data chunks : cutOk st data chunks ->
  let '(st', chunk) := cutEnd st in cutDone (cs_n st') (cs_spans st') data (chunks ++ chunkList chunk).
Proof.
  intros [Hd Hn Hl Hs Hroom Hc Hbig Hfst Hlv Hh Hde]. unfold cutEnd.
  assert (glen data = glen (concat chunks) + glen (cs_buf st)) as Hg by (by rewrite Hd, glen_app).
  destruct (Z.eqb_spec (cs_n st) (cs_last st)) as [He|Hne].
  - cbn [chunkList]. rewrite app_nil_r. assert (cs_buf st = []) as Hb by (apply glen_0; lia).
    constructor; try done; [by rewrite Hd, Hb, app_nil_r|by apply Forall_removelast].
  - cbn [chunkList]. pose proof (glen_nonneg (cs_buf st)).
    constructor; cbn [cs_n cs_spans].
    + rewrite concat_app. cbn [concat]. by rewrite app_nil_r.
    + done.
    + apply Forall_app. split; [done|]. apply Forall_singleton. unfold chunkOk. lia.
    + by rewrite removelast_last.
    + rewrite map_app, concat_app. cbn [map concat leaves]. rewrite Hlv, placed_app. cbn [placed app]. f_equal. rewrite Hl, Hn.
      do 3 f_equal; lia.
    + apply Forall_app. split; [done|]. apply Forall_singleton. apply heaped_unfold. split; [lia|constructor].
    + apply (descending_snoc _ 0); [done| |done].
      destruct (last (cs_spans st)) as [s|] eqn:El; [|done]. rewrite Forall_forall in Hh.
      apply last_Some_elem_of, Hh in El. destruct s as [? ? ? ? ?]. apply heaped_unfold in El. cbn [sp_bits]. lia.
Qed.

(** The whole source is cut, and only its own errors stop it. *)
Lemma cutLoop_ok fuel b st data chunks : cutOk st data chunks -> (bufLen b < fuel)%nat ->
  match (cutLoop fuel b st).2 with
  | Ok (n, spans) => bufEnd b = ErrEOF /\ cutDone n spans (data ++ bufBytes b) (chunks ++ (cutLoop fuel b st).1)
  | Err e => e ≠ ErrEOF /\ (e = bufEnd b \/ ~ progresses (bf_src b))
  | _ => False
  end.
Proof.
  revert b st data chunks. induction fuel as [|fuel IH]; intros b st data chunks Hok Hf; [lia|].
  cbn [cutLoop]. pose proof (readByte_spec b) as Hr. destruct (readByte b) as [b' [c|e|p|]]; [| |done..].
  - destruct Hr as (Hb & He & Hl & Hp). pose proof (cutByte_ok st data chunks (bf_sawEOF b') c Hok) as Hc.
    destruct (cutByte st (bf_sawEOF b') c) as [st' chunk]. specialize (IH b' st' _ _ Hc ltac:(lia)).
    destruct (cutLoop fuel b' st') as [cs r]. cbn [fst snd] in *. destruct r as [[n spans]|e|p|]; [| |done..].
    + destruct IH as [HE Hd]. split; [by rewrite He|]. rewrite Hb. by rewrite <- !app_assoc in Hd.
    + rewrite He. naive_solver.
  - destruct (decide (e = ErrEOF)) as [->|Hne].
    + destruct Hr as [[Hb He]|[Hx _]]; [|done]. pose proof (cutEnd_ok st data chunks Hok) as Hd.
      destruct (cutEnd st) as [st' chunk]. cbn [fst snd]. by rewrite Hb, app_nil_r.
    + cbn [snd]. split; [done|]. naive_solver.
Qed.

Lemma cutLoop_chunks fuel b st data chunks : cutOk st data chunks -> Forall chunkOk (cutLoop fuel b st).1.
Proof.
  revert b st data chunks. induction fuel as [|fuel IH]; intros b st data chunks Hok; [constructor|]. cbn [cutLoop].
  destruct (readByte b) as [b' [c|e|p|]]; [| |constructor..].
  - pose proof (cutByte_ok st data chunks (bf_sawEOF b') c Hok) as Hc.
    destruct (cutByte st (bf_sawEOF b') c) as [st' chunk]. specialize (IH b' st' _ _ Hc). pose proof (co_chunks _ _ _ Hc) as Hch.
    destruct (cutLoop fuel b' st') as [cs r]. cbn [fst] in *. rewrite Forall_app in *. naive_solver.
  - destruct (decide (e = ErrEOF)); [|constructor]. pose proof (cutEnd_ok st data chunks Hok) as Hd.
    destruct (cutEnd st) as [st' chunk]. cbn [fst]. apply cd_chunks in Hd. rewrite Forall_app in Hd. naive_solver.
Qed.

Lemma cutSrc_ok src :
  match (cutSrc src).2 with
  | Ok (n, spans) => srcEnd src = ErrEOF /\ cutDone n spans (srcBytes src) (cutSrc src).1
  | Err e => e ≠ ErrEOF /\ (e = srcEnd src \/ ~ progresses src)
  | _ => False
  end.
Proof. apply (cutLoop_ok (S (srcLen src)) (newReader src) cutInit [] [] cutInit_ok). unfold bufLen. simpl. lia. Qed.

(** * What the spans become *)

Lemma spanSize_leaves s : spanSize s = foldr (fun l acc => l.1.2 - l.1.1 + acc) 0 (leaves s).
Proof.
  induction s as [from to bits br children IH] using span_ind'. cbn [spanSize leaves]. rewrite foldr_app. cbn [foldr fst snd].
  rewrite Z.add_0_r. generalize (to - from) as z. induction IH as [|c l Hc _ IHl]; intros z; cbn [map foldr concat]; [lia|].
  rewrite foldr_app, <- IHl, Hc. clear. generalize (leaves c) as k. intros k.
  assert (forall a, foldr (fun l acc => l.1.2 - l.1.1 + acc) a k = foldr (fun l acc => l.1.2 - l.1.1 + acc) 0 k + a) as Hk.
  { intros a. induction k as [|x k IHk]; cbn [foldr]; lia. }
  rewrite (Hk (z + _)). lia.
Qed.


(** The parts and the blob texts [addBytesParts] makes of spans. *)
Definition buildText (m : Builder) (size : Z) (parts : list BytesPart) : gostr :=
  match PopulateParts m size parts with
  | Ok bb => match mapJSON bb with Ok text => text | _ => [] end
  | _ => []
  end.

Fixpoint spanOut (sp : span) : list BytesPart * list gostr :=
  let 'Span from to _ br children := sp in
  let own := blobPart br (to - from) in
  match children with
  | [] => ([own], [])
  | [Span f t _ r []] => ([blobPart r (spanSize (Span f t 0 r [])); own], [])
  | _ =>
      let size := foldr Z.add 0 (map spanSize children) in
      let text := buildText newBytes size (concat (map (fun c => (spanOut c).1) children)) in
      ([MkPart (u64 size) zeroRef (refOf text) 0; own], concat (map (fun c => (spanOut c).2) children) ++ [text])
  end.

Definition spansParts (l : list span) : list BytesPart := concat (map (fun c => (spanOut c).1) l).
Definition spansTexts (l : list span) : list gostr := concat (map (fun c => (spanOut c).2) l).

(** Everything uploaded for a source: its chunks, and the blobs of its tree,
    the file's last. *)
Definition textsOf (m : Builder) (src : list (gostr * gerr)) : list gostr :=
  match (cutSrc src).2 with
  | Ok (n, spans) => spansTexts spans ++ [buildText m n (spansParts spans)]
  | _ => []
  end.
Definition uploadsOf (m : Builder) (src : list (gostr * gerr)) : list gostr := (cutSrc src).1 ++ textsOf m src.

(** The children of a span that get a blob of their own. *)
Definition grouped (children : list span) : bool :=
  match children with [] | [Span _ _ _ _ []] => false | _ => true end.

Lemma spanOut_grouped from to bits br children : grouped children = true ->
  let text := buildText newBytes (foldr Z.add 0 (map spanSize children)) (spansParts children) in
  spanOut (Span from to bits br children) =
    ([MkPart (u64 (foldr Z.add 0 (map spanSize children))) zeroRef (refOf text) 0; blobPart br (to - from)], spansTexts children ++ [text]).
Proof. destruct children as [|[f t b r [|]] [|]]; done. Qed.

Lemma ungrouped children : grouped children = false -> children = [] \/ exists f t b r, children = [Span f t b r []].
Proof. destruct children as [|[f t b r [|]] [|]]; try done; [by left|right; by eexists _, _, _, _]. Qed.

(** A leaf is a chunk. *)
Definition leafOk (l : Z * Z * Ref) (d : gostr) : Prop := l.1.2 - l.1.1 = glen d /\ l.2 = refOf d /\ chunkOk d.

Lemma placed_leafOk pos chunks : Forall chunkOk chunks -> Forall2 leafOk (placed pos chunks) chunks.
Proof.
  intros Hc. revert pos. induction Hc as [|c cs Hc _ IH]; intros pos; constructor; [|apply IH]. split; [|done]. cbn [fst snd]. lia.
Qed.

Lemma leaves_size l ds : Forall2 leafOk l ds -> foldr (fun l acc => l.1.2 - l.1.1 + acc) 0 l = glen (concat ds).
Proof. induction 1 as [|x d l ds (Hx & _) _ IH]; [done|]. cbn [foldr concat]. rewrite glen_app. lia. Qed.

Lemma spanSize_ok s ds : Forall2 leafOk (leaves s) ds -> spanSize s = glen (concat ds).
Proof. intros Hf. rewrite spanSize_leaves. by apply leaves_size. Qed.

Lemma spansSize_ok l ds : Forall2 leafOk (concat (map leaves l)) ds -> foldr Z.add 0 (map spanSize l) = glen (concat ds).
Proof.
  revert ds. induction l as [|s l IH]; intros ds Hf; cbn [map concat foldr] in *; [by apply Forall2_nil_inv_l in Hf as ->|].
  apply Forall2_app_inv_l in Hf as (d1 & d2 & H1 & H2 & ->). rewrite (spanSize_ok _ _ H1), (IH _ H2), concat_app, glen_app. done.
Qed.

(** Parts that can be written and add up. *)
Definition partsFor (ps : list BytesPart) (size : Z) : Prop :=
  Forall (fun p => partOk p /\ 0 < bp_Size p) ps /\ sumSizes ps = size.

Lemma sumSizes_app ps qs : sumSizes (ps ++ qs) = sumSizes ps + sumSizes qs.
Proof. induction ps as [|p ps IH]; [done|]. cbn [app sumSizes foldr]. fold (sumSizes (ps ++ qs)) (sumSizes ps). lia. Qed.

Lemma partsFor_app ps qs n k : partsFor ps n -> partsFor qs k -> partsFor (ps ++ qs) (n + k).
Proof. intros [H1 <-] [H2 <-]. split; [by apply Forall_app|apply sumSizes_app]. Qed.

Lemma MaxBlobSize_chunk d : chunkOk d -> 0 < glen d <= MaxBlobSize.
Proof. unfold chunkOk, maxBlobSize. pose proof MaxBlobSize_large. lia. Qed.

Lemma maxBlobSize_62 : maxBlobSize < 2 ^ 62.
Proof. done. Qed.

Lemma blobPart_for d size : chunkOk d -> size = glen d -> partsFor [blobPart (refOf d) size] (glen d).
Proof.
  intros Hc ->. pose proof maxBlobSize_62. unfold chunkOk in Hc. split; [|cbn; rewrite u64_small by lia; lia].
  apply Forall_singleton. unfold partOk, blobPart. cbn [bp_Size bp_BlobRef bp_BytesRef bp_Offset]. rewrite u64_small by lia.
  split_and!; try lia. left. split; [|reflexivity]. exact (proj1 (refOf_wf d)).
Qed.

Lemma bytesPart_for text size : 0 < size < 2 ^ 62 -> partsFor [MkPart (u64 size) zeroRef (refOf text) 0] size.
Proof.
  intros Hs. split; [|cbn; rewrite u64_small by lia; lia]. apply Forall_singleton. unfold partOk.
  cbn [bp_Size bp_BlobRef bp_BytesRef bp_Offset]. rewrite u64_small by lia.
  split_and!; try lia. right. split; [reflexivity|]. exact (proj1 (refOf_wf text)).
Qed.

Lemma leafOk_inv from to br ds : Forall2 leafOk [(from, to, br)] ds -> exists d, ds = [d] /\ to - from = glen d /\ br = refOf d /\ chunkOk d.
Proof.
  intros Hf. apply Forall2_cons_inv_l in Hf as (d & ds' & Hd & Hn & ->). apply Forall2_nil_inv_l in Hn as ->. by exists d.
Qed.

Lemma leaves_pos l ds : Forall2 leafOk l ds -> l ≠ [] -> 0 < glen (concat ds).
Proof.
  destruct 1 as [|x d l ds (_ & _ & Hd) _]; [done|]. intros _. cbn [concat]. rewrite glen_app. pose proof (glen_nonneg (concat ds)).
  unfold chunkOk in Hd. lia.
Qed.

Lemma grouped_leaves children : grouped children = true -> concat (map leaves children) ≠ [].
Proof.
  destruct children as [|[f t b r cs] l]; [done|]. intros _. cbn [map concat leaves]. rewrite <- !app_assoc. by destruct (concat (map leaves cs)).
Qed.

Lemma spanOut_for s : forall ds, Forall2 leafOk (leaves s) ds -> glen (concat ds) < 2 ^ 62 -> partsFor (spanOut s).1 (glen (concat ds)).
Proof.
  destruct s as [from to bits br children]. intros ds Hf Hl. cbn [leaves] in Hf.
  apply Forall2_app_inv_l in Hf as (d1 & d2 & H1 & H2 & ->). apply leafOk_inv in H2 as (d & -> & Hd & -> & Hc).
  rewrite concat_app, glen_app in *. cbn [concat] in *. rewrite app_nil_r in *. pose proof (glen_nonneg d).
  destruct (grouped children) eqn:Eg.
  - rewrite spanOut_grouped by done. cbn [fst]. rewrite (spansSize_ok _ _ H1).
    apply (partsFor_app [_] [_]); [|by apply blobPart_for]. apply bytesPart_for. split; [|lia].
    eapply leaves_pos; [exact H1|by apply grouped_leaves].
  - destruct (ungrouped _ Eg) as [->|(f & t & b & r & ->)].
    + apply Forall2_nil_inv_l in H1 as ->. by apply blobPart_for.
    + cbn [map leaves concat app] in H1. apply leafOk_inv in H1 as (d' & -> & Hd' & -> & Hc').
      cbn [spanOut fst concat]. rewrite app_nil_r. apply (partsFor_app [_] [_]); apply blobPart_for; try done. cbn. lia.
Qed.

Lemma spansParts_for l : forall ds, Forall2 leafOk (concat (map leaves l)) ds -> glen (concat ds) < 2 ^ 62 ->
  partsFor (spansParts l) (glen (concat ds)).
Proof.
  induction l as [|s l IH]; intros ds Hf Hl; cbn [map concat] in Hf.
  { apply Forall2_nil_inv_l in Hf as ->. split; [constructor|done]. }
  apply Forall2_app_inv_l in Hf as (d1 & d2 & H1 & H2 & ->). rewrite concat_app, glen_app in *.
  pose proof (glen_nonneg (concat d1)). pose proof (glen_nonneg (concat d2)).
  unfold spansParts. cbn [map concat]. apply partsFor_app; [apply spanOut_for; [done|lia]|apply IH; [done|lia]].
Qed.

(** * The blobs built *)

(** A builder that [partsBlob_ok] knows. *)
Definition buildsType (m : Builder) (ctype : gostr) : Prop :=
  builderOk m /\ m !! gs "camliVersion" = Some (VInt 1) /\ m !! gs "camliType" = Some (VStr ctype).

Lemma partsFor_sum ps : Forall (fun p => partOk p /\ 0 < bp_Size p) ps -> forall acc, 0 <= acc -> acc + sumSizes ps < 2 ^ 62 ->
  foldl (fun s p => i64 (s + i64 (bp_Size p))) acc ps = acc + sumSizes ps.
Proof.
  induction 1 as [|p ps [_ Hp] Hps IH]; intros acc Ha Hs; cbn [foldl sumSizes foldr] in *; [lia|]. fold (sumSizes ps) in *.
  assert (0 <= sumSizes ps) by (apply sumSizes_nonneg; eapply Forall_impl; [exact Hps|]; by intros q [_ ?]).
  rewrite (i64_small (bp_Size p)), i64_small by lia. rewrite IH by lia. lia.
Qed.

Lemma build_ok m ctype size parts : buildsType m ctype -> ValidString ctype = true -> partsFor parts size -> size < 2 ^ 62 ->
  glen (buildText m size parts) <= MaxSchemaBlobSize ->
  exists bb b, PopulateParts m size parts = Ok bb /\ Type_ bb = ctype /\ Blob_ bb = Ok b /\ b_str b = buildText m size parts /\
    (forall e, parseSuperset (buildText m size parts, e) = Ok (b_ss b)) /\ ss_Type (b_ss b) = ctype /\
    ss_Parts (b_ss b) = Some <$> parts /\ (forall k, k ≠ gs "parts" -> b_ss b !! k = m !! k ≫= fieldOf k).
Proof.
  intros (Hm & Hz & Ht) Hv [Hp Hs] Hsz Hl.
  assert (Forall partOk parts) as Hp' by (eapply Forall_impl; [exact Hp|]; by intros q [? _]).
  assert (exists bb, PopulateParts m size parts = Ok bb) as [bb Hbb].
  { unfold PopulateParts, populateParts. rewrite partMaps_ok by done. cbn [rbind].
    rewrite (partsFor_sum parts Hp 0) by lia. rewrite Z.add_0_l, Hs, Z.eqb_refl. by eexists. }
  unfold buildText in *. rewrite Hbb in *.
  pose proof Hbb as Hpp. apply populateParts_inv in Hpp as [Hbb' _]; [|done].
  assert (exists text, mapJSON bb = Ok text) as [text Htext].
  { unfold mapJSON. rewrite Hbb', lookup_insert_ne, Hz by done. by eexists. }
  rewrite Htext in *.
  destruct (partsBlob_ok m size parts bb ctype text Hm Hz Ht Hv Hp' Hbb Htext Hl) as (b & Hb & _ & Hstr & Hparse & Hty & Hpa & Hk).
  exists bb, b. split_and!; try done. unfold Type_. by rewrite Hbb', lookup_insert_ne, Ht.
Qed.

Lemma newBytes_type : buildsType newBytes (gs "bytes").
Proof. exact newBytes_ok. Qed.

(** * The tree stands for the bytes *)

Definition present (m : blobs) (d : gostr) : Prop := m !! refOf d = Some d.
Definition textFits (t : gostr) : Prop := glen t <= MaxSchemaBlobSize.

Lemma blobPart_holds m n d size : present m d -> chunkOk d -> size = glen d -> partHolds m n (blobPart (refOf d) size) d.
Proof.
  intros Hm Hc ->. pose proof maxBlobSize_62. pose proof (MaxBlobSize_chunk d Hc) as Hd. unfold chunkOk in Hc.
  assert (0 < u64 (glen d) /\ glen d = u64 (glen d)) as Hu by (rewrite u64_small by lia; lia).
  destruct n; (split; [apply Hu|]; split; [apply Hu|]; split; [done|]; left;
    split; [reflexivity|]; split; [reflexivity|]; exists d; split; [exact Hm|]; split; [lia|reflexivity]).
Qed.

(** The children of a span are strictly lighter, so the weight bounds the
    nesting. *)
Lemma spanOut_holds m s : forall ds, heaped s -> Forall2 leafOk (leaves s) ds -> glen (concat ds) < 2 ^ 62 ->
  Forall (present m) ds -> Forall (present m) (spanOut s).2 -> Forall textFits (spanOut s).2 ->
  holds m (Z.to_nat (sp_bits s)) (spanOut s).1 (concat ds).
Proof.
  induction s as [from to bits br children IH] using span_ind'. intros ds Hh Hf Hl Hds Ht Hfit.
  apply heaped_unfold in Hh as [Hbits Hch]. cbn [leaves sp_bits] in *.
  apply Forall2_app_inv_l in Hf as (d1 & d2 & H1 & H2 & ->). apply leafOk_inv in H2 as (d & -> & Hd & -> & Hc).
  apply Forall_app in Hds as [Hds Hd']. rewrite Forall_singleton in Hd'.
  rewrite concat_app in *. rewrite glen_app in Hl. cbn [concat] in *. rewrite app_nil_r in *. pose proof (glen_nonneg d).
  assert (forall n, holds m n [blobPart (refOf d) (to - from)] d) as Hown.
  { intros n. exists [d]. split; [|cbn [concat]; by rewrite app_nil_r]. constructor; [by apply blobPart_holds|constructor]. }
  destruct (grouped children) eqn:Eg.
  - rewrite spanOut_grouped in * by done. cbn [fst snd] in *. rewrite (spansSize_ok _ _ H1) in *.
    set (text := buildText newBytes (glen (concat d1)) (spansParts children)) in *.
    apply Forall_app in Ht as [Ht Htext]. apply Forall_app in Hfit as [Hfit Hftext]. rewrite Forall_singleton in Htext, Hftext.
    apply (holds_app _ _ [_] _ [_]); [|apply Hown].
    assert (0 < glen (concat d1)) as Hpos by (eapply leaves_pos; [exact H1|by apply grouped_leaves]).
    assert (Z.to_nat bits = S (Z.to_nat (bits - 1))) as ->.
    { enough (0 < bits) by lia. destruct children as [|c cs]; [done|]. apply Forall_cons in Hch as [[Hlt Hc1] _].
      destruct c as [f t b r cs']. apply heaped_unfold in Hc1. cbn [sp_bits] in Hlt. lia. }
    assert (holds m (Z.to_nat (bits - 1)) (spansParts children) (concat d1)) as (ds & Hds' & Hcat).
    { unfold spansParts, spansTexts in *. clear text Eg Htext Hftext Hpos Hown. revert d1 H1 Hds Hl Ht Hfit.
      induction children as [|c cs IHcs]; intros d1 H1 Hds Hl Ht Hfit; cbn [map concat] in *.
      { apply Forall2_nil_inv_l in H1 as ->. by exists []. }
      apply Forall2_app_inv_l in H1 as (e1 & e2 & H1 & H2 & ->). rewrite concat_app, glen_app in *.
      apply Forall_app in Hds as [? ?], Ht as [? ?], Hfit as [? ?]. apply Forall_cons in IH as [IHc IH], Hch as [[Hlt Hhc] Hch].
      pose proof (glen_nonneg (concat e1)). pose proof (glen_nonneg (concat e2)).
      apply holds_app; [|by apply IHcs; try done; lia].
      eapply holds_le; [|by apply IHc; try done; lia]. destruct c as [f t b r cs']. apply heaped_unfold in Hhc. cbn [sp_bits] in *. lia. }
    pose proof (spansParts_for children d1 H1 ltac:(lia)) as Hfor.
    destruct (build_ok newBytes (gs "bytes") _ _ newBytes_type ltac:(by vm_compute) Hfor ltac:(lia) Hftext)
      as (bb & b & _ & _ & _ & _ & Hparse & Hty & Hpa & _).
    exists [concat d1]. split; [|cbn [concat]; by rewrite app_nil_r]. constructor; [|constructor].
    assert (0 < u64 (glen (concat d1)) /\ glen (concat d1) = u64 (glen (concat d1))) as Hu by (rewrite u64_small by lia; lia).
    split; [apply Hu|]. split; [apply Hu|]. split; [done|]. right; right. split; [reflexivity|]. split; [reflexivity|].
    exists text, (b_ss b), (spansParts children), ds. split; [exact Htext|]. split; [apply Hparse|]. split; [rewrite Hty; apply list_elem_of_further, list_elem_of_here|].
    split; [exact Hpa|]. split; [exact Hds'|]. rewrite <- Hcat. split; [lia|reflexivity].
  - destruct (ungrouped _ Eg) as [->|(f & t & b & r & ->)].
    + apply Forall2_nil_inv_l in H1 as ->. apply Hown.
    + cbn [map leaves concat app] in H1. apply leafOk_inv in H1 as (d' & -> & Hd'' & -> & Hc').
      rewrite Forall_singleton in Hds. cbn [spanOut fst concat]. rewrite app_nil_r. apply (holds_app _ _ [_] _ [_]); [|apply Hown].
      exists [d']. split; [|cbn [concat]; by rewrite app_nil_r]. constructor; [|constructor]. apply blobPart_holds; [done..|]. cbn. lia.
Qed.

Lemma spansParts_holds m l : forall ds, Forall heaped l -> Forall2 leafOk (concat (map leaves l)) ds -> glen (concat ds) < 2 ^ 62 ->
  Forall (present m) ds -> Forall (present m) (spansTexts l) -> Forall textFits (spansTexts l) ->
  holds m 31 (spansParts l) (concat ds).
Proof.
  unfold spansParts, spansTexts. induction l as [|s l IH]; intros ds Hh H1 Hl Hds Ht Hfit; cbn [map concat] in *.
  { apply Forall2_nil_inv_l in H1 as ->. by exists []. }
  apply Forall2_app_inv_l in H1 as (e1 & e2 & H1 & H2 & ->). rewrite concat_app, glen_app in *.
  apply Forall_app in Hds as [? ?], Ht as [? ?], Hfit as [? ?]. apply Forall_cons in Hh as [Hh Hhs].
  pose proof (glen_nonneg (concat e1)). pose proof (glen_nonneg (concat e2)).
  apply holds_app; [|by apply IH; try done; lia].
  eapply holds_le; [|by apply spanOut_holds; try done; lia]. destruct s as [f t b r cs']. apply heaped_unfold in Hh. cbn [sp_bits] in *. lia.
Qed.

(** * The uploads *)

(** No two of the strings, nor one of them and a blob there already, share a
    reference. *)
Definition noCollision (m : blobs) (us : list gostr) : Prop :=
  (forall d d', d ∈ us -> d' ∈ us -> refOf d = refOf d' -> d = d') /\
  (forall d d', d ∈ us -> m !! refOf d = Some d' -> d' = d).

Section filewriter_proofs.
Context {S : Type} `{StorageLaws S} (firstErr : list error -> error) (hub : memHub) (seen : nat -> bool).
Context (m0 : blobs) (us : list gostr) (Hus : noCollision m0 us).

(** Nothing fails: not the storage, not the hub's hooks. *)
Definition accepts : Prop :=
  (forall (s : S) brs, st_wf s -> is_ok (st_StatBlobs s brs).2 = true) /\
  (forall (s : S) br d, st_wf s -> is_ok (st_ReceiveBlob s br (d, Ok tt)).2 = true) /\
  (forall sb, (NotifyBlobReceived firstErr hub sb).1 = None).

(** What was there is there still, and the rest is what was uploaded. *)
Definition storeOk (s : S) : Prop :=
  st_wf s /\ m0 ⊆ st_view s /\ (forall br d, st_view s !! br = Some d -> m0 !! br = Some d \/ (br = refOf d /\ d ∈ us)).

Lemma store_present s d : storeOk s -> d ∈ us -> is_Some (st_view s !! refOf d) -> present (st_view s) d.
Proof.
  intros (_ & _ & Hs) Hd [d' Hd']. destruct Hus as [H1 H2]. unfold present. rewrite Hd'. f_equal.
  destruct (Hs _ _ Hd') as [Hm|[He Hu]]; [by apply H2|]. by apply H1.
Qed.

Lemma store_insert s s' d : storeOk s -> d ∈ us -> st_wf s' -> st_view s' = st_view s ∪ {[refOf d := d]} ->
  storeOk s' /\ st_view s ⊆ st_view s' /\ present (st_view s') d.
Proof.
  intros Hs Hd Hwf Hv. pose proof Hs as (_ & Hsub & Hin).
  assert (st_view s ⊆ st_view s') as Hsub' by (rewrite Hv; apply map_union_subseteq_l).
  assert (storeOk s') as Hs'.
  { split_and!; [done|by etrans|]. intros br x. rewrite Hv, lookup_union_Some_raw.
    intros [Hx|[_ Hx]]; [by apply Hin|]. apply lookup_singleton_Some in Hx as [<- <-]. by right. }
  split_and!; [done|done|]. apply store_present; [done|done|]. rewrite Hv, lookup_union_is_Some. right. rewrite lookup_singleton_eq. by eexists.
Qed.

Lemma ReceiveNoHash_fails (s : S) br d e : st_wf s -> (ReceiveNoHash firstErr s hub br (d, Ok tt)).2 = Err e -> ~ accepts.
Proof.
  intros Hwf He (_ & Hr & Hn). unfold ReceiveNoHash, receive in He.
  assert (exists d', limitReader MaxBlobSize (d, Ok tt) = (d', Ok tt)) as [d' Hl] by (unfold limitReader; destruct (_ <=? _); by eexists).
  rewrite Hl in He. specialize (Hr s br d' Hwf). destruct (st_ReceiveBlob s br (d', Ok tt)) as [s' [sb|e'|p|]]; [|done..].
  specialize (Hn sb). destruct (NotifyBlobReceived firstErr hub sb) as [err sends]. cbn [fst] in Hn. by subst err.
Qed.

Lemma uploadString_ok s d : storeOk s -> d ∈ us -> glen d <= MaxBlobSize ->
  let '(s', r) := uploadString firstErr hub s (refOf d) d in
  storeOk s' /\ st_view s ⊆ st_view s' /\
  match r with Ok br => br = refOf d /\ present (st_view s') d | Err _ => ~ accepts | _ => False end.
Proof.
  intros Hs Hd Hl. pose proof Hs as (Hwf & _ & _). unfold uploadString. change (negb (Valid (refOf d))) with false. cbn [negb].
  pose proof (StatBlob_ok s (refOf d) Hwf) as Hst. unfold serverHasBlob. destruct (StatBlob s (refOf d)) as [sb|e|p|]; [| |done..].
  { destruct Hst as (d' & Hd' & _). split_and!; [done..|]. apply store_present; [done|done|]. by rewrite Hd'. }
  assert (e ≠ ErrNotExist -> ~ accepts) as Hfail.
  { intros He (Ha & _). destruct Hst as [Hst|[? _]]; [|done]. specialize (Ha s [refOf d] Hwf). by rewrite Hst in Ha. }
  destruct (decide (e = ErrNotExist)) as [->|Hne]; [|split_and!; [done..|by apply Hfail]].
  pose proof (ReceiveNoHash_ok firstErr s hub (refOf d) d Hwf (refOf_good d) Hl) as Hr.
  pose proof (ReceiveNoHash_fails s (refOf d) d) as Hf.
  destruct (ReceiveNoHash firstErr s hub (refOf d) (d, Ok tt)) as [[s' sends] r]. destruct Hr as (Hwf' & Hv & Hr). cbn [snd] in Hf.
  destruct r as [sb|e|p|]; [| |done..]; cbn [rbind].
  - destruct Hr as [_ Hv']. destruct (store_insert s s' d Hs Hd Hwf' Hv') as (? & ? & ?). by split_and!.
  - destruct Hv as [Hv|Hv].
    + split; [|split; [by rewrite Hv|by eapply Hf]]. destruct Hs as (_ & Hs1 & Hs2). split; [done|]. by rewrite Hv.
    + destruct (store_insert s s' d Hs Hd Hwf' Hv) as (? & ? & _). split_and!; [done|done|by eapply Hf].
Qed.

(** What an upload leaves: the store, larger, and [good] if nothing failed. *)
Lemma uploadOpt_ok u c : storeOk (up_bs u) -> Forall (fun d => d ∈ us /\ chunkOk d) (chunkList c) -> (up_err u ≠ None -> ~ accepts) ->
  let '(u', r) := uploadOpt firstErr hub seen u c in
  storeOk (up_bs u') /\ st_view (up_bs u) ⊆ st_view (up_bs u') /\ (up_err u' ≠ None -> ~ accepts) /\
  match r with
  | Ok _ => up_err u' = None -> up_err u = None /\ Forall (present (st_view (up_bs u'))) (chunkList c)
  | Err _ => ~ accepts
  | _ => False
  end.
Proof.
  intros Hs Hc He. destruct c as [d|]; cbn [chunkList uploadOpt] in *.
  2: { split_and!; [done..|]. by intros ->. }
  rewrite Forall_singleton in Hc. destruct Hc as [Hd Hc]. unfold uploadLastSpan.
  pose proof (uploadString_ok (up_bs u) d Hs Hd ltac:(apply MaxBlobSize_chunk in Hc; lia)) as Hup.
  destruct (uploadString firstErr hub (up_bs u) (refOf d) d) as [s' [br|e|p|]]; destruct Hup as (Hs' & Hsub & Hr);
    try done; destruct (up_err u) as [e0|] eqn:Eu; cbn [up_bs up_err].
  - pose proof (He ltac:(done)) as Hna. destruct (seen (up_count u)); cbn [up_bs up_err]; [rewrite Eu|]; (do 3 (split; [done|])); done.
  - split_and!; [done|done|done|]. intros _. split; [done|]. rewrite Forall_singleton. by destruct Hr.
  - pose proof (He ltac:(done)) as Hna. destruct (seen (up_count u)); cbn [up_bs up_err]; [rewrite Eu|]; (do 3 (split; [done|])); done.
  - do 3 (split; [done|]). done.
Qed.

Lemma present_mono m m' d : m ⊆ m' -> present m d -> present m' d.
Proof. intros Hs Hd. by eapply lookup_weaken. Qed.

Lemma presents_mono m m' ds : m ⊆ m' -> Forall (present m) ds -> Forall (present m') ds.
Proof. intros Hs Hf. eapply Forall_impl; [exact Hf|]. intros d. by apply present_mono. Qed.

(** The loop uploads the chunks it cuts, unless something fails. *)
Lemma chunkLoop_ok fuel u b st : storeOk (up_bs u) -> (up_err u ≠ None -> ~ accepts) ->
  Forall (fun d => d ∈ us /\ chunkOk d) (cutLoop fuel b st).1 ->
  let '(u', r) := chunkLoop firstErr hub seen fuel u b st in
  storeOk (up_bs u') /\ st_view (up_bs u) ⊆ st_view (up_bs u') /\
  match r with
  | Ok x => (cutLoop fuel b st).2 = Ok x /\ up_err u = None /\ Forall (present (st_view (up_bs u'))) (cutLoop fuel b st).1
  | Err e => ~ accepts \/ (cutLoop fuel b st).2 = Err e
  | Panic p => (cutLoop fuel b st).2 = Panic p
  | Blocked => (cutLoop fuel b st).2 = Blocked
  end.
Proof.
  revert u b st. induction fuel as [|fuel IH]; intros u b st Hs He Hc; [by split_and!|].
  cbn [chunkLoop cutLoop] in *. destruct (readByte b) as [b' [c|e|p|]]; [| |by split_and!..].
  - destruct (cutByte st (bf_sawEOF b') c) as [st' chunk].
    specialize (fun u => IH u b' st'). destruct (cutLoop fuel b' st') as [cs r]. cbn [fst snd] in *. apply Forall_app in Hc as [Hc Hcs].
    pose proof (uploadOpt_ok u chunk Hs Hc He) as Hup.
    destruct (uploadOpt firstErr hub seen u chunk) as [u' [x|e|p|]]; destruct Hup as (Hs' & Hsub & He' & Hr); [| |done..].
    + specialize (IH u' Hs' He' Hcs). destruct (chunkLoop firstErr hub seen fuel u' b' st') as [u'' r'].
      destruct IH as (Hs'' & Hsub' & Hr'). split_and!; [done|by etrans|]. destruct r' as [x'|e|p|]; [|done..].
      destruct Hr' as (-> & Hn & Hp). destruct (Hr Hn) as [-> Hp']. split_and!; [done..|]. apply Forall_app. split; [|done].
      by eapply presents_mono.
    + split_and!; [done|done|by left].
  - destruct (decide (e = ErrEOF)) as [->|Hne]; [|split_and!; [done..|by right]].
    destruct (cutEnd st) as [st' chunk]. cbn [fst snd] in *. pose proof (uploadOpt_ok u chunk Hs Hc He) as Hup.
    destruct (uploadOpt firstErr hub seen u chunk) as [u' [x|e|p|]]; destruct Hup as (Hs' & Hsub & He' & Hr); [| |done..].
    + split_and!; [done..|]. destruct (up_err u') as [e|]; [left; by apply He'|]. by destruct (Hr eq_refl) as [-> Hp].
    + split_and!; [done|done|by left].
Qed.

Lemma writeFileChunks_ok s src : storeOk s -> Forall (fun d => d ∈ us) (cutSrc src).1 ->
  let '(s', r) := writeFileChunks firstErr hub seen s src in
  storeOk s' /\ st_view s ⊆ st_view s' /\
  match r with
  | Ok x => (cutSrc src).2 = Ok x /\ Forall (present (st_view s')) (cutSrc src).1
  | Err e => ~ accepts \/ (cutSrc src).2 = Err e
  | _ => False
  end.
Proof.
  intros Hs Hc. unfold writeFileChunks.
  assert (Forall (fun d => d ∈ us /\ chunkOk d) (cutSrc src).1) as Hc'.
  { apply Forall_and. split; [done|]. apply (cutLoop_chunks _ _ _ [] [] cutInit_ok). }
  pose proof (cutSrc_ok src) as Hcut.
  pose proof (chunkLoop_ok (Datatypes.S (srcLen src)) (MkUp s None 0) (newReader src) cutInit Hs ltac:(done) Hc') as Hl.
  unfold cutSrc in *. destruct (chunkLoop _ _ _ _ _ _ _) as [u r]. destruct Hl as (Hs' & Hsub & Hr). split_and!; [done|done|].
  destruct r as [x|e|p|]; [by destruct Hr as (? & _ & ?)|done|by rewrite Hr in Hcut..].
Qed.

(** The first failure among futures. *)
Definition futsGet (futs : list future) : res unit :=
  foldr (fun r (acc : res unit) => match r with Ok _ => acc | Err e => Err e | Panic p => Panic p | Blocked => Blocked end)
    (Ok tt) (map futGet futs).

Lemma futGet_unfold br own futs : futGet (Future br own futs) =
  match futsGet futs with
  | Ok _ => match own with None => Ok br | Some e => Err e end
  | Err e => Err e
  | Panic p => Panic p
  | Blocked => Blocked
  end.
Proof. done. Qed.

Lemma futsGet_app a b : futsGet (a ++ b) =
  match futsGet a with Ok _ => futsGet b | Err e => Err e | Panic p => Panic p | Blocked => Blocked end.
Proof. induction a as [|f a IH]; [done|]. unfold futsGet in *. cbn [app map foldr]. by destruct (futGet f). Qed.

(** Futures that succeed only if [texts] are there. *)
Definition futsOk (s : S) (futs : list future) (texts : list gostr) : Prop :=
  match futsGet futs with Ok _ => Forall (present (st_view s)) texts | Err _ => ~ accepts | _ => False end.

Lemma futsOk_app s s' f1 t1 f2 t2 : st_view s ⊆ st_view s' -> futsOk s f1 t1 -> futsOk s' f2 t2 -> futsOk s' (f1 ++ f2) (t1 ++ t2).
Proof.
  intros Hsub H1 H2. unfold futsOk in *. rewrite futsGet_app. destruct (futsGet f1) as [x|e|p|]; [|done..].
  destruct (futsGet f2); try done. apply Forall_app. split; [by eapply presents_mono|done].
Qed.

(** A blob of parts: its future fails exactly when an upload does. *)
Lemma finishBytes_ok s m ctype size parts futs texts :
  storeOk s -> buildsType m ctype -> ValidString ctype = true -> partsFor parts size -> size < 2 ^ 62 ->
  textFits (buildText m size parts) -> buildText m size parts ∈ us -> futsOk s futs texts ->
  let '(s', r) := finishBytes firstErr hub s m size parts futs in
  storeOk s' /\ st_view s ⊆ st_view s' /\
  match r with
  | Ok f => futsOk s' [f] (texts ++ [buildText m size parts]) /\
      (ctype ≠ gs "file" \/ is_ok (futGet f) = true -> f_br f = refOf (buildText m size parts))
  | _ => False
  end.
Proof.
  intros Hs Hm Hv Hp Hsz Hfit Hin Hf. unfold finishBytes.
  destruct (build_ok m ctype size parts Hm Hv Hp Hsz Hfit) as (bb & b & -> & -> & Hb & Hstr & _).
  set (kids := if decide (ctype = gs "file") then _ else _).
  assert ((exists kids', kids = Ok kids' /\ futsOk s kids' texts) \/ (ctype = gs "file" /\ exists e, kids = Err e /\ ~ accepts)) as Hk.
  { unfold kids. destruct (decide (ctype = gs "file")) as [->|]; [|left; by exists futs]. rewrite futGet_unfold. unfold futsOk in Hf.
    destruct (futsGet futs) as [x|e|p|]; cbn [rbind]; [left; by exists []|right; split; [done|by exists e]|done..]. }
  clearbody kids. destruct Hk as [(kids' & -> & Hk)|(-> & e & -> & Hna)].
  2: { split; [done|]. split; [done|]. split; [by intros ?|]. intros [?|?]; done. }
  rewrite Hb, Hstr. set (text := buildText m size parts) in *.
  assert (glen text <= MaxBlobSize) as Hmax.
  { unfold textFits, MaxSchemaBlobSize in Hfit. pose proof MaxBlobSize_large. lia. }
  pose proof (uploadString_ok s text Hs Hin Hmax) as Hup.
  destruct (uploadString firstErr hub s (refOf text) text) as [s' r]. destruct Hup as (Hs' & Hsub & Hr).
  assert (forall own, match own with None => present (st_view s') text | Some _ => ~ accepts end ->
    futsOk s' [Future (refOf text) own kids'] (texts ++ [text])) as Hfut.
  { intros own Hown. unfold futsOk in *. assert (futsGet [Future (refOf text) own kids'] =
      match futsGet kids' with Ok _ => match own with None => Ok tt | Some e => Err e end | Err e => Err e | Panic p => Panic p | Blocked => Blocked end) as ->.
    { unfold futsGet at 1. cbn [map foldr]. rewrite futGet_unfold. by destruct (futsGet kids'), own. }
    destruct (futsGet kids'); [|done..]. destruct own; [done|]. apply Forall_app. split; [by eapply presents_mono|by apply Forall_singleton]. }
  destruct r as [br|e|p|]; [| |done..]; (split; [done|]; split; [done|]; split; [|done]); apply Hfut; [by destruct Hr|done].
Qed.

(** The parts are those of [spanOut], and the futures know what failed. *)
Definition spanAdded (s : S) (x : S * res (list BytesPart * list future)) (parts : list BytesPart) (texts : list gostr) : Prop :=
  storeOk x.1 /\ st_view s ⊆ st_view x.1 /\
  match x.2 with Ok (ps, futs) => ps = parts /\ futsOk x.1 futs texts | _ => False end.

Definition addable (sp : span) : Prop := forall s ds, storeOk s -> Forall2 leafOk (leaves sp) ds -> glen (concat ds) < 2 ^ 62 ->
  Forall textFits (spanOut sp).2 -> Forall (fun t => t ∈ us) (spanOut sp).2 ->
  spanAdded s (addSpan firstErr hub sp s) (spanOut sp).1 (spanOut sp).2.

Lemma addBytesParts_of l : Forall addable l -> forall s ds, storeOk s -> Forall2 leafOk (concat (map leaves l)) ds -> glen (concat ds) < 2 ^ 62 ->
  Forall textFits (spansTexts l) -> Forall (fun t => t ∈ us) (spansTexts l) ->
  spanAdded s (addBytesParts firstErr hub l s) (spansParts l) (spansTexts l).
Proof.
  unfold spansParts, spansTexts. induction 1 as [|sp l Hsp _ IH]; intros s ds Hs Hf Hl Hfit Hin; cbn [map concat addBytesParts] in *.
  { split; [done|]. split; [done|]. split; [done|]. constructor. }
  apply Forall2_app_inv_l in Hf as (d1 & d2 & H1 & H2 & ->). rewrite concat_app, glen_app in Hl.
  pose proof (glen_nonneg (concat d1)). pose proof (glen_nonneg (concat d2)). apply Forall_app in Hfit as [? ?], Hin as [? ?].
  destruct (Hsp s d1 Hs H1 ltac:(lia)) as (Hs' & Hsub & Hr); [done..|].
  destruct (addSpan firstErr hub sp s) as [s' [[ps futs]|e|p|]]; cbn [fst snd] in *; [|done..]. destruct Hr as [-> Hfut].
  destruct (IH s' d2 Hs' H2 ltac:(lia)) as (Hs'' & Hsub' & Hr'); [done..|].
  destruct (addBytesParts firstErr hub l s') as [s'' [[ps' futs']|e|p|]]; cbn [fst snd] in *; [|done..]. destruct Hr' as [-> Hfut'].
  split; [done|]. split; [by etrans|]. split; [done|]. by eapply futsOk_app.
Qed.

Lemma addSpan_grouped from to bits br children s : grouped children = true -> from ≠ to ->
  addSpan firstErr hub (Span from to bits br children) s =
  match addBytesParts firstErr hub children s with
  | (s, Ok (parts, futs)) =>
      match finishBytes firstErr hub s newBytes (foldr Z.add 0 (map spanSize children)) parts futs with
      | (s, Ok fut) => (s, Ok ([MkPart (u64 (foldr Z.add 0 (map spanSize children))) zeroRef (f_br fut) 0; blobPart br (to - from)], [fut]))
      | (s, Err e) => (s, Err e)
      | (s, Panic p) => (s, Panic p)
      | (s, Blocked) => (s, Blocked)
      end
  | z => z
  end.
Proof.
  intros Hg Hne. destruct children as [|[f t b r [|]] [|]]; try done; cbn [addSpan]; rewrite (proj2 (Z.eqb_neq from to) Hne); reflexivity.
Qed.

Lemma addSpan_ok sp : addable sp.
Proof.
  induction sp as [from to bits br children IH] using span_ind'. intros s ds Hs Hf Hl Hfit Hin. cbn [leaves] in Hf.
  apply Forall2_app_inv_l in Hf as (d1 & d2 & H1 & H2 & ->). apply leafOk_inv in H2 as (d & -> & Hd & -> & Hc).
  assert (from ≠ to) as Hne by (unfold chunkOk in Hc; lia).
  rewrite concat_app, glen_app in Hl. cbn [concat] in Hl. rewrite app_nil_r in Hl. pose proof (glen_nonneg d).
  destruct (grouped children) eqn:Eg.
  - rewrite spanOut_grouped in * by done. rewrite addSpan_grouped by done. cbn [fst snd] in *.
    apply Forall_app in Hfit as [Hfit Hft], Hin as [Hin Hit]. rewrite Forall_singleton in Hft, Hit.
    destruct (addBytesParts_of children IH s d1 Hs H1 ltac:(lia) Hfit Hin) as (Hs' & Hsub & Hr).
    destruct (addBytesParts firstErr hub children s) as [s' [[ps futs]|e|p|]]; cbn [fst snd] in *; [|done..]. destruct Hr as [-> Hfut].
    pose proof (spansParts_for children d1 H1 ltac:(lia)) as Hfor. rewrite (spansSize_ok _ _ H1) in *.
    pose proof (finishBytes_ok s' newBytes (gs "bytes") _ _ futs _ Hs' newBytes_type ltac:(by vm_compute) Hfor ltac:(lia) Hft Hit Hfut) as Hfin.
    destruct (finishBytes _ _ _ _ _ _ _) as [s'' r]. destruct Hfin as (Hs'' & Hsub' & Hr). destruct r as [f|e|p|]; [|done..].
    destruct Hr as [Hff Hbr]. rewrite Hbr by (by left). split; [done|]. split; [by etrans|]. by split.
  - assert (forall ps, spanAdded s (s, Ok (ps, [])) ps []) as Hno by (intros ps; split; [done|]; split; [done|]; split; [done|]; constructor).
    destruct (ungrouped _ Eg) as [->|(f & t & b & r & ->)]; cbn [addSpan]; rewrite (proj2 (Z.eqb_neq from to) Hne); apply Hno.
Qed.

Lemma addBytesParts_ok l s ds : storeOk s -> Forall2 leafOk (concat (map leaves l)) ds -> glen (concat ds) < 2 ^ 62 ->
  Forall textFits (spansTexts l) -> Forall (fun t => t ∈ us) (spansTexts l) ->
  spanAdded s (addBytesParts firstErr hub l s) (spansParts l) (spansTexts l).
Proof. apply addBytesParts_of. apply Forall_forall. intros sp _. apply addSpan_ok. Qed.
End filewriter_proofs.

(** * Files written *)

Section files_written.
Context {S : Type} `{StorageLaws S} (firstErr : list error -> error) (hub : memHub) (seen : nat -> bool).

Lemma storeOk_start (s : S) us : st_wf s -> storeOk (st_view s) us s.
Proof. intros Hs. split; [done|]. split; [done|]. by left. Qed.

Lemma writeFileMap_ok (s : S) (m : Builder) (src : list (gostr * gerr)) :
  st_wf s -> buildsType m (gs "file") -> noCollision (st_view s) (uploadsOf m src) -> Forall textFits (textsOf m src) ->
  glen (srcBytes src) < 2 ^ 62 ->
  let '(s', r) := WriteFileMap firstErr hub seen s m src in
  storeOk (st_view s) (uploadsOf m src) s' /\
  match r with
  | Ok br => srcEnd src = ErrEOF /\ fileHolds (st_view s') 31 br (srcBytes src)
  | Err e => ~ accepts (S := S) firstErr hub \/ (e ≠ ErrEOF /\ (e = srcEnd src \/ ~ progresses src))
  | _ => False
  end.
Proof.
  intros Hwf Hm Hus Hfit Hl. unfold WriteFileMap, writeFileMapRolling.
  assert (Forall (fun d => d ∈ uploadsOf m src) (cutSrc src).1) as Hin.
  { apply Forall_forall. intros d Hd. unfold uploadsOf. set_solver. }
  assert (Forall (fun d => d ∈ uploadsOf m src) (textsOf m src)) as Hin'.
  { apply Forall_forall. intros d Hd. unfold uploadsOf. set_solver. }
  pose proof (writeFileChunks_ok firstErr hub seen _ _ Hus s src (storeOk_start s _ Hwf) Hin) as Hw.
  destruct (writeFileChunks firstErr hub seen s src) as [s1 r]. destruct Hw as (Hs1 & _ & Hr).
  pose proof (cutSrc_ok src) as Hcut. destruct r as [[n spans]|e|p|]; [| |done..].
  2: { split; [done|]. destruct Hr as [?|Hr]; [by left|]. right. by rewrite Hr in Hcut. }
  destruct Hr as [Hr Hch]. rewrite Hr in Hcut. destruct Hcut as [Hend [Hcat Hn Hok Hbig Hlv Hh _]]. subst n. rewrite <- Hcat in *.
  assert (Forall2 leafOk (concat (map leaves spans)) (cutSrc src).1) as Hlf by (rewrite Hlv; by apply placed_leafOk).
  unfold textsOf in Hfit, Hin'. rewrite Hr in Hfit, Hin'. set (chunks := (cutSrc src).1) in *.
  apply Forall_app in Hfit as [Hfit Hft], Hin' as [Hit Hitf]. rewrite Forall_singleton in Hft, Hitf.
  destruct (addBytesParts_ok firstErr hub _ _ Hus spans s1 chunks Hs1 Hlf Hl Hfit Hit) as (Hs2 & Hsub & Hr2).
  unfold uploadBytes. destruct (addBytesParts firstErr hub spans s1) as [s2 [[ps futs]|e|p|]]; cbn [fst snd] in *; [|done..]. destruct Hr2 as [-> Hf].
  pose proof (spansParts_for spans chunks Hlf Hl) as Hfor.
  pose proof (finishBytes_ok firstErr hub _ _ Hus s2 m (gs "file") _ _ futs _ Hs2 Hm ltac:(by vm_compute) Hfor Hl Hft Hitf Hf) as Hfin.
  destruct (finishBytes _ _ _ _ _ _ _) as [s3 r]. destruct Hfin as (Hs3 & Hsub' & Hr3). destruct r as [f|e|p|]; [|done..].
  cbn [rbind]. split; [done|]. destruct Hr3 as [Hf3 Hbr]. unfold futsOk, futsGet in Hf3. cbn [map foldr] in Hf3.
  destruct f as [br own kids]. cbn [f_br] in Hbr.
  destruct (futGet (Future br own kids)) as [br'|e|p|] eqn:Eg; [|by left|done..]. split; [done|].
  assert (br' = br) as ->.
  { rewrite futGet_unfold in Eg. destruct (futsGet kids), own; congruence. }
  rewrite Hbr by (by right). apply Forall_app in Hf3 as [Hpt Hpf]. rewrite Forall_singleton in Hpf.
  destruct (build_ok m (gs "file") _ _ Hm ltac:(by vm_compute) Hfor Hl Hft) as (bb & b & _ & _ & _ & _ & Hparse & Hty & Hpa & _).
  assert (holds (st_view s3) 31 (spansParts spans) (concat chunks)) as (ds & Hds & Hdc).
  { apply spansParts_holds; try done. eapply presents_mono; [exact Hsub'|]. by eapply presents_mono. }
  eexists _, (b_ss b), (spansParts spans), ds. split; [exact Hpf|]. split; [apply Hparse|]. split; [rewrite Hty; apply list_elem_of_here|].
  split; [done|]. split; [done|]. rewrite <- Hdc. done.
Qed.

(** The file is named [name], which has no slash. *)
Lemma WriteFileFromReader_ok (s : S) (name : gostr) (m : Builder) (src : list (gostr * gerr)) :
  st_wf s -> "/"%char ∉ name -> NewFileMap name = Ok m ->
  noCollision (st_view s) (uploadsOf m src) -> Forall textFits (textsOf m src) -> glen (srcBytes src) < 2 ^ 62 ->
  let '(s', r) := WriteFileFromReader firstErr hub seen s name src in
  storeOk (st_view s) (uploadsOf m src) s' /\
  match r with
  | Ok br => srcEnd src = ErrEOF /\ fileHolds (st_view s') 31 br (srcBytes src)
  | Err e => ~ accepts (S := S) firstErr hub \/ (e ≠ ErrEOF /\ (e = srcEnd src \/ ~ progresses src))
  | _ => False
  end.
Proof.
  intros Hwf Hname Hm Hus Hfit Hl. unfold WriteFileFromReader. rewrite decide_False by done. rewrite Hm.
  apply writeFileMap_ok; try done. apply NewFileMap_ok in Hm as (? & ? & ? & _). by split_and!.
Qed.

(** C17. Writing a file: when it succeeds the source was read to its end, and
    the reference returned is that of a file with the source's bytes, nested
    at most 31 deep, every chunk and every "bytes" blob of its tree in the
    storage.  It fails only with the source's own error, or when the storage
    or a hook failed; it does not panic or block.  Nothing that was there is
    lost, and nothing is added but the chunks and blobs of the tree.

    This is for a name that [NewFileMap] accepts and that has no slash, for
    sources below 2^62 bytes, no clashes of hashes, and schema texts of at most
    1 MB each.  The last always holds of sources of up to 512 MB with a short
    name ([small_file_fits] of FileSize.v), and not of a source of more than
    about 10 GiB in which nothing is a cut ([flat_file_too_large]), for which
    [Builder.Blob] panics. *)
Theorem WriteFileFromReader_file (s : S) (name : gostr) (m : Builder) (src : list (gostr * gerr)) :
  st_wf s -> "/"%char ∉ name -> NewFileMap name = Ok m ->
  noCollision (st_view s) (uploadsOf m src) -> Forall textFits (textsOf m src) -> glen (srcBytes src) < 2 ^ 62 ->
  let '(s', r) := WriteFileFromReader firstErr hub seen s name src in
  storeOk (st_view s) (uploadsOf m src) s' /\
  match r with
  | Ok br => srcEnd src = ErrEOF /\ fileHolds (st_view s') 31 br (srcBytes src)
  | Err e => ~ accepts (S := S) firstErr hub \/ (e ≠ ErrEOF /\ (e = srcEnd src \/ ~ progresses src))
  | _ => False
  end.
Proof. apply WriteFileFromReader_ok. Qed.

(** C16. What is written is read back: when nothing fails, writing a source
    that ends returns a reference, opening it gives a reader of the source's
    size, and reading all of it gives the source's bytes.  As for C17 the name
    is one that [NewFileMap] accepts, without a slash, there is no clash of
    hashes, and the schema texts are of at most 1 MB each, as they always are
    for sources of up to 512 MB with a short name. *)
Theorem written_file_reads (s : S) (name : gostr) (m : Builder) (src : list (gostr * gerr)) :
  accepts (S := S) firstErr hub -> fetches (S := S) -> progresses src -> srcEnd src = ErrEOF ->
  st_wf s -> "/"%char ∉ name -> NewFileMap name = Ok m ->
  noCollision (st_view s) (uploadsOf m src) -> Forall textFits (textsOf m src) -> glen (srcBytes src) < 2 ^ 62 ->
  exists s' br s'' r0 fr, WriteFileFromReader firstErr hub seen s name src = (s', Ok br) /\
    NewFileReader s' br = (s'', Ok (r0, fr)) /\ fr_size fr = glen (srcBytes src) /\
    (ReadAt 32 r0 fr (fr_size fr) 0).2 = Ok (srcBytes src, if decide (srcBytes src = []) then Some ErrEOF else None).
Proof.
  intros Hacc Hfet Hpr Hend Hwf Hname Hm Hus Hfit Hl.
  pose proof (WriteFileFromReader_ok s name m src Hwf Hname Hm Hus Hfit Hl) as Hw.
  destruct (WriteFileFromReader firstErr hub seen s name src) as [s' r]. destruct Hw as ((Hwf' & _) & Hr).
  destruct r as [br|e|p|]; [|destruct Hr as [?|[? [?|?]]]; congruence|done..].
  destruct Hr as [_ Hfile]. assert (Valid br = true) as Hv.
  { destruct Hfile as (text & ? & ? & ? & Hb & _). apply (st_wf_good s' Hwf') in Hb as [[Hb _] _]. by apply refWf_Valid. }
  pose proof (file_reads s' br 31 (srcBytes src) Hwf' Hv Hfile) as Hread.
  destruct (NewFileReader s' br) as [s'' [[r0 fr]|e|p|]] eqn:En; [|by destruct Hread|done..].
  destruct Hread as (Hroot & Hsz & Hread). exists s', br, s'', r0, fr. split_and!; [done..|]. rewrite Hsz.
  destruct (Hread r0 32%nat (glen (srcBytes src)) 0 Hroot ltac:(lia) ltac:(lia)) as (_ & bs & e & -> & _ & _ & Hf).
  destruct (Hf Hfet) as [-> ->]. rewrite Z.add_0_l, Z.leb_refl, orb_true_r. rewrite drop_0, take_ge by (unfold glen; lia).
  do 2 f_equal. destruct (decide (srcBytes src = [])) as [->|Hne]; [done|].
  destruct (Z.leb_spec (glen (srcBytes src)) 0); [|done]. destruct Hne. apply glen_0. pose proof (glen_nonneg (srcBytes src)). lia.
Qed.

(** C25. The chunks cut: when the loop succeeds there are chunks, all in the
    storage, that make up the source's bytes in order; none is larger than
    1 MB, and all but the last are larger than 64 KB.  They are the leaves of
    the spans, children before their parent, the spans' bits do not increase
    and a span's children have smaller bits than the span. *)
Theorem writeFileChunks_cuts (s : S) (src : list (gostr * gerr)) :
  st_wf s -> noCollision (st_view s) (cutSrc src).1 ->
  let '(s', r) := writeFileChunks firstErr hub seen s src in
  storeOk (st_view s) (cutSrc src).1 s' /\
  match r with
  | Ok (n, spans) => exists chunks, concat chunks = srcBytes src /\ n = glen (srcBytes src) /\
      Forall (present (st_view s')) chunks /\
      Forall (fun c => 0 < glen c <= 2 ^ 20) chunks /\ Forall (fun c => 2 ^ 16 < glen c) (removelast chunks) /\
      concat (map leaves spans) = placed 0 chunks /\ Forall heaped spans /\ descending spans
  | Err e => ~ accepts (S := S) firstErr hub \/ (e ≠ ErrEOF /\ (e = srcEnd src \/ ~ progresses src))
  | _ => False
  end.
Proof.
  intros Hwf Hus.
  pose proof (writeFileChunks_ok firstErr hub seen _ _ Hus s src (storeOk_start s _ Hwf) ltac:(by apply Forall_forall)) as Hw.
  destruct (writeFileChunks firstErr hub seen s src) as [s1 r]. destruct Hw as (Hs1 & _ & Hr). split; [done|].
  pose proof (cutSrc_ok src) as Hcut. destruct r as [[n spans]|e|p|]; [| |done..].
  - destruct Hr as [Hr Hch]. rewrite Hr in Hcut. destruct Hcut as [_ [Hcat Hn Hok Hbig Hlv Hh Hd]]. by exists (cutSrc src).1.
  - destruct Hr as [?|Hr]; [by left|]. right. by rewrite Hr in Hcut.
Qed.
End files_written.

(** * A small file, written and read *)

Definition exampleSrc : list (gostr * gerr) := [(gs "ab", None); (gs "c", Some ErrEOF)].
Definition exampleFirst (l : list error) : error := default ErrEOF (head l).

Definition refsDistinct (us : list gostr) : bool := bool_decide (NoDup (refOf <$> us)).

Lemma refsDistinct_ok us : refsDistinct us = true -> noCollision ∅ us.
Proof.
  unfold refsDistinct. rewrite bool_decide_eq_true. intros Hn. split; [|done]. intros d d' Hd Hd' He.
  apply list_elem_of_lookup in Hd as [i Hi], Hd' as [j Hj].
  assert (i = j) as -> by (eapply NoDup_lookup; [exact Hn| |]; rewrite list_lookup_fmap, ?Hi, ?Hj; cbn [fmap option_fmap option_map]; [reflexivity|by rewrite He]).
  congruence.
Qed.

Definition exampleMap : Builder := match NewFileMap (gs "x") with Ok m => m | _ => ∅ end.

Lemma exampleMap_ok : NewFileMap (gs "x") = Ok exampleMap.
Proof. vm_compute. reflexivity. Qed.

Lemma exampleUploads : noCollision ∅ (uploadsOf exampleMap exampleSrc).
Proof. apply refsDistinct_ok. vm_compute. reflexivity. Qed.

Lemma exampleTexts : Forall textFits (textsOf exampleMap exampleSrc).
Proof. apply (bool_decide_unpack _). vm_compute. exact I. Qed.

Lemma exampleSlash : "/"%char ∉ gs "x".
Proof. apply (bool_decide_unpack _). vm_compute. exact I. Qed.

Lemma exampleAccepts : accepts (S := blobs) exampleFirst newHub.
Proof.
  split; [|split].
  - intros s brs _. reflexivity.
  - intros s br d _. reflexivity.
  - intros sb. reflexivity.
Qed.

Lemma blobs_fetches : fetches (S := blobs).
Proof. intros s br d _ Hd. change (ft_view s) with s in Hd. cbn [st_Fetch st_fetcher map_Storage map_Fetcher snd]. by rewrite Hd. Qed.

Lemma WriteFileFromReader_file_witness :
  let '(s', r) := WriteFileFromReader exampleFirst newHub (fun _ => false) (∅ : blobs) (gs "x") exampleSrc in
  storeOk (st_view (∅ : blobs)) (uploadsOf exampleMap exampleSrc) s' /\
  match r with
  | Ok br => srcEnd exampleSrc = ErrEOF /\ fileHolds (st_view s') 31 br (srcBytes exampleSrc)
  | Err e => ~ accepts (S := blobs) exampleFirst newHub \/ (e ≠ ErrEOF /\ (e = srcEnd exampleSrc \/ ~ progresses exampleSrc))
  | _ => False
  end.
Proof.
  apply (WriteFileFromReader_file exampleFirst newHub (fun _ => false) (∅ : blobs) (gs "x") exampleMap exampleSrc).
  - exact (blobsOf_good [] (Forall_nil_2 _)).
  - exact exampleSlash.
  - exact exampleMap_ok.
  - exact exampleUploads.
  - exact exampleTexts.
  - reflexivity.
Defined.

Lemma exampleProgresses : progresses exampleSrc.
Proof. apply Forall_cons; split; [left; discriminate|]. apply Forall_cons; split; [left; discriminate|]. apply Forall_nil_2. Qed.

Lemma written_file_reads_witness :
  exists s' br s'' r0 fr, WriteFileFromReader exampleFirst newHub (fun _ => false) (∅ : blobs) (gs "x") exampleSrc = (s', Ok br) /\
    NewFileReader s' br = (s'', Ok (r0, fr)) /\ fr_size fr = 3 /\
    (ReadAt 32 r0 fr (fr_size fr) 0).2 = Ok (gs "abc", None).
Proof.
  exact (written_file_reads exampleFirst newHub (fun _ => false) (∅ : blobs) (gs "x") exampleMap exampleSrc
    exampleAccepts blobs_fetches exampleProgresses eq_refl (blobsOf_good [] (Forall_nil_2 _)) exampleSlash exampleMap_ok
    exampleUploads exampleTexts eq_refl).
Defined.

Lemma exampleChunks : noCollision ∅ (cutSrc exampleSrc).1.
Proof. apply refsDistinct_ok. vm_compute. reflexivity. Qed.

Lemma writeFileChunks_cuts_witness :
  match writeFileChunks exampleFirst newHub (fun _ => false) (∅ : blobs) exampleSrc with
  | (s', Ok (n, spans)) => n = 3 /\ concat (map leaves spans) = [(0, 3, refOf (gs "abc"))]
  | _ => False
  end.
Proof.
  pose proof (writeFileChunks_cuts exampleFirst newHub (fun _ => false) (∅ : blobs) exampleSrc
    (blobsOf_good [] (Forall_nil_2 _)) exampleChunks) as Hc.
  assert (is_ok (writeFileChunks exampleFirst newHub (fun _ => false) (∅ : blobs) exampleSrc).2 = true) as Hok by (vm_compute; reflexivity).
  destruct (writeFileChunks exampleFirst newHub (fun _ => false) (∅ : blobs) exampleSrc) as [s' r] eqn:Ew.
  destruct r as [[n spans]|e|p|]; [|discriminate Hok..].
  destruct Hc as [_ (chunks & Hcat & Hn & _ & Hsz & Hbig & Hlv & _)]. split; [exact Hn|]. rewrite Hlv.
  destruct chunks as [|c1 [|c2 cs]].
  - discriminate Hcat.
  - cbn [concat] in Hcat. rewrite app_nil_r in Hcat. subst c1. reflexivity.
  - exfalso. cbn [removelast] in Hbig. apply Forall_cons in Hbig as [Hbig _]. apply (f_equal glen) in Hcat.
    cbn [concat] in Hcat. rewrite glen_app in Hcat. change (glen (srcBytes exampleSrc)) with 3 in Hcat.
    pose proof (glen_nonneg (c2 ++ concat cs)). lia.
Defined.
