(* ===== verification/FileSize.v ===== *)
(** How long the schema texts of a written file are, which a schema blob's
    limit of 1 MB bounds: the texts of sources of up to 512 MB always fit, and
    that of a source of more than about 10 GiB without any cut does not. *)

From S2P Require Import Prelude Ref Strutil Sha1 Storage Json Schema FileReader FileWriter.

(** * The length of JSON text *)

Lemma length_newline d : length (newline d) = Datatypes.S (2 * d).
Proof. unfold newline. cbn [length]. by rewrite length_replicate. Qed.

Lemma length_flat {A} (f : A -> gostr) (g : A -> nat) l : (forall x, length (f x) = g x) -> length (flat_map f l) = sum_list_with g l.
Proof. intros Hf. induction l as [|x l IH]; [done|]. cbn [flat_map sum_list_with]. by rewrite length_app, Hf, IH. Qed.

(** A member or an element, with the line it is on. *)
Definition elemLen (d : nat) (v : goval) : nat := 4 + 2 * d + length (render (Datatypes.S d) v).
Definition memberLen (d : nat) (p : gostr * goval) : nat := 8 + 2 * d + length (escape p.1) + length (render (Datatypes.S d) p.2).

Lemma render_arr_length d l : l <> [] -> length (render d (VArr l)) = (2 + 2 * d + sum_list_with (elemLen d) l)%nat.
Proof.
  destruct l as [|x l]; [done|]. intros _. cbn [render]. rewrite !length_app, !length_newline, (length_flat _ (elemLen d)).
  - cbn [sum_list_with gs list_ascii_of_string length]. unfold elemLen at 2. lia.
  - intros y. unfold elemLen. rewrite !length_app, length_newline. cbn. lia.
Qed.

Lemma length_quoted s : length (quoted s) = (2 + length s)%nat.
Proof. unfold quoted. cbn [length]. rewrite length_app. cbn. lia. Qed.

Lemma render_map_length d l : l <> [] -> length (render d (VMap l)) = (2 + 2 * d + sum_list_with (memberLen d) l)%nat.
Proof.
  destruct l as [|[k x] l]; [done|]. intros _. cbn [render]. rewrite !length_app, !length_newline, length_quoted, (length_flat _ (memberLen d)).
  - cbn [sum_list_with gs list_ascii_of_string length]. unfold memberLen at 2. cbn [fst snd]. lia.
  - intros [y v]. unfold memberLen. rewrite !length_app, length_newline, length_quoted. cbn. lia.
Qed.

Lemma sortedPairs_perm (m : Builder) : sortedPairs m ≡ₚ map_to_list m.
Proof. apply merge_sort_Permutation. Qed.

(** What the parts add to the text of a map without them. *)
Lemma mapJSON_parts_length (m : Builder) (v : goval) (t0 t : gostr) : m !! gs "parts" = None -> is_Some (m !! gs "camliType") ->
  mapJSON m = Ok t0 -> mapJSON (<[gs "parts" := v]> m) = Ok t -> length t = (length t0 + memberLen 0 (gs "parts", v))%nat.
Proof.
  intros Hp Ht. unfold mapJSON. rewrite lookup_insert_ne by done. destruct (m !! gs "camliVersion") as [ver|]; [|done].
  rewrite delete_insert_ne by done. set (m' := delete _ m). intros H0 H1. apply Ok_eq in H0 as <-. apply Ok_eq in H1 as <-.
  assert (m' !! gs "parts" = None) as Hp' by (unfold m'; by rewrite lookup_delete_ne).
  assert (forall m'' : Builder, is_Some (m'' !! gs "camliType") -> length (render 0 (VMap (sortedPairs m''))) = (2 + sum_list_with (memberLen 0) (map_to_list m''))%nat) as Hl.
  { intros m'' [x Hx]. rewrite render_map_length; [by rewrite sortedPairs_perm|]. intros Hnil.
    assert ((gs "camliType", x) ∈ sortedPairs m'') as Hin by by apply elem_of_sortedPairs. rewrite Hnil in Hin. by apply elem_of_nil in Hin. }
  rewrite !length_app, !length_drop, !Hl.
  - rewrite map_to_list_insert by done. cbn [sum_list_with]. lia.
  - unfold m'. by rewrite lookup_delete_ne.
  - rewrite lookup_insert_ne by done. unfold m'. by rewrite lookup_delete_ne.
Qed.

(** * The length of a part *)

Lemma itoa_length z : 0 <= z -> (length (itoa z) <= 20)%nat.
Proof.
  intros Hz. unfold itoa. rewrite (proj2 (Z.ltb_ge _ _)) by done. rewrite length_rev.
  generalize 20%nat as k. intros k. clear Hz. revert z. induction k as [|k IH]; intros z; [done|]. cbn [revDigits].
  destruct (z <? 10); cbn [length]; [lia|]. specialize (IH (z / 10)). lia.
Qed.

Lemma refOf_length d : length (RefString (refOf d)) = 45%nat.
Proof.
  change (RefString (refOf d)) with (gs "sha1-" ++ hexBytes (sha1 d)). rewrite length_app, hexBytes_length, sha1_length. reflexivity.
Qed.

(** A part of a tree of spans: a chunk, or a "bytes" blob, from its start. *)
Definition plainPart (p : BytesPart) : Prop := exists d size,
  p = blobPart (refOf d) size \/ p = MkPart (u64 size) zeroRef (refOf d) 0.

Lemma plainPart_ok p : plainPart p -> partOk p.
Proof.
  intros (d & size & [-> | ->]); pose proof (u64_range size); pose proof (refOf_wf d) as [Hw _];
    (split; [exact H|]; split; [cbn; lia|]); [left|right]; done.
Qed.

Lemma part_length p : plainPart p -> (elemLen 1 (VMap (partPairs p)) <= 115)%nat.
Proof.
  intros (d & size & Hp). unfold elemLen. pose proof (u64_range size) as Hu. pose proof (itoa_length (u64 size) (proj1 Hu)) as Hi.
  pose proof (refOf_wf d) as [Hw _]. pose proof (refOf_length d) as Hr. pose proof (refWf_Valid _ Hw) as Hv.
  assert (exists k, (length (escape k) <= 8)%nat /\
    partPairs p = [(k, VStr (RefString (refOf d))); (gs "size", VInt (u64 size))]) as (k & Hk & ->).
  { destruct Hp as [-> | ->]; [exists (gs "blobRef")|exists (gs "bytesRef")]; (split; [vm_compute; lia|]); unfold partPairs, blobPart; cbn [bp_BlobRef bp_BytesRef bp_Offset bp_Size].
    - by rewrite Hv.
    - reflexivity. }
  rewrite render_map_length by done. cbn [sum_list_with]. unfold memberLen. cbn [fst snd render]. rewrite length_quoted, escape_ref, Hr by done.
  change (length (escape (gs "size"))) with 4%nat. lia.
Qed.

Lemma sum_list_bound {A} (f : A -> nat) l n : Forall (fun x => (f x <= n)%nat) l -> (sum_list_with f l <= n * length l)%nat.
Proof. induction 1; cbn [sum_list_with length]; lia. Qed.

(** The text of a file or "bytes" blob, with at most 115 bytes for a part. *)
Lemma buildText_length (m : Builder) size parts t0 : m !! gs "parts" = None -> is_Some (m !! gs "camliType") -> mapJSON m = Ok t0 ->
  Forall plainPart parts -> (length (buildText m size parts) <= length t0 + 20 + 115 * length parts)%nat.
Proof.
  intros Hnone Ht Hm Hp. unfold buildText. destruct (PopulateParts m size parts) as [bb| | |] eqn:Eb; [|cbn; lia..].
  assert (Forall partOk parts) as Hok by (eapply Forall_impl; [exact Hp|apply plainPart_ok]).
  apply populateParts_inv in Eb as [-> _]; [|done]. destruct (mapJSON (<[_ := _]> m)) as [t| | |] eqn:Et; [|cbn; lia..].
  rewrite (mapJSON_parts_length m _ t0 t Hnone Ht Hm Et). unfold memberLen. cbn [fst snd].
  change (length (escape (gs "parts"))) with 5%nat. destruct parts as [|p parts]; [cbn; lia|].
  rewrite render_arr_length by done. assert (sum_list_with (elemLen 1) ((fun p => VMap (partPairs p)) <$> p :: parts) <= 115 * length (p :: parts))%nat; [|lia].
  etransitivity; [apply sum_list_bound with (n := 115%nat)|by rewrite length_fmap].
  apply Forall_fmap. eapply Forall_impl; [exact Hp|]. intros q. apply part_length.
Qed.

(** * Sources of up to 512 MB *)

Definition refSpan (l : Z * Z * Ref) : Prop := exists d, l.2 = refOf d.

(** A span has no more parts than it has leaves. *)
Definition spanShort (s : span) : Prop := Forall refSpan (leaves s) ->
  Forall plainPart (spanOut s).1 /\ (length (spanOut s).1 <= length (leaves s))%nat /\
  Forall (fun t => (length t <= 200 + 115 * length (leaves s))%nat) (spanOut s).2.

Lemma spansShort l : Forall spanShort l -> Forall refSpan (concat (map leaves l)) ->
  Forall plainPart (spansParts l) /\ (length (spansParts l) <= length (concat (map leaves l)))%nat /\
  Forall (fun t => (length t <= 200 + 115 * length (concat (map leaves l)))%nat) (spansTexts l).
Proof.
  unfold spansParts, spansTexts. induction 1 as [|s l Hs _ IH]; intros Hl; cbn [map concat] in *; [split_and!; [constructor|done|constructor]|].
  apply Forall_app in Hl as [H1 H2]. destruct (Hs H1) as (P1 & L1 & T1), (IH H2) as (P2 & L2 & T2).
  rewrite !length_app. split_and!; [by apply Forall_app|lia|]. apply Forall_app.
  split; (eapply Forall_impl; [eassumption|]; intros t Ht; cbn beta in *; lia).
Qed.

Lemma newBytes_text : exists t0, mapJSON newBytes = Ok t0 /\ (length t0 <= 100)%nat.
Proof. eexists. split; [reflexivity|]. vm_compute. lia. Qed.

Lemma span_short s : spanShort s.
Proof.
  induction s as [from to bits br children IH] using span_ind'. intros Hl. cbn [leaves] in *.
  apply Forall_app in Hl as [Hc Hown]. apply Forall_singleton in Hown as [d Hd]. cbn in Hd. subst br.
  rewrite length_app. cbn [length]. assert (forall size, plainPart (blobPart (refOf d) size)) as Hp by (intros size; exists d, size; by left).
  destruct (grouped children) eqn:Eg.
  - destruct (spansShort children IH Hc) as (P & L & T). rewrite spanOut_grouped by done. cbn [fst snd length].
    set (text := buildText _ _ _). assert (1 <= length (concat (map leaves children)))%nat as Hne.
    { destruct children as [|[f t b r l] k]; [done|]. cbn [map concat leaves]. rewrite !length_app. cbn [length]. lia. }
    split_and!; [|lia|].
    + apply Forall_cons. split; [|by apply Forall_singleton]. exists text. eexists. by right.
    + apply Forall_app. split; [eapply Forall_impl; [exact T|]; intros t Ht; cbn beta in *; lia|]. apply Forall_singleton.
      destruct newBytes_text as (t0 & H0 & Ht0).
      pose proof (buildText_length newBytes (foldr Z.add 0 (map spanSize children)) (spansParts children) t0 eq_refl ltac:(by eexists) H0 P) as Hb.
      fold text in Hb. lia.
  - apply ungrouped in Eg as [-> | (f & t & b & r & ->)]; cbn [spanOut fst snd length].
    + split_and!; [by apply Forall_singleton|cbn; lia|constructor].
    + cbn [map concat leaves app] in *. apply Forall_singleton in Hc as [d' Hd']. cbn in Hd'. subst r.
      split_and!; [|cbn; lia|constructor]. apply Forall_cons. split; [eexists _, _; by left|by apply Forall_singleton].
Qed.

Lemma placed_refSpan pos chunks : Forall refSpan (placed pos chunks) /\ length (placed pos chunks) = length chunks.
Proof.
  revert pos. induction chunks as [|c chunks IH]; intros pos; [by split; [constructor|]|]. cbn [placed length].
  destruct (IH (pos + glen c)) as [Hf Hl]. split; [|by rewrite Hl]. apply Forall_cons. split; [by exists c|done].
Qed.

(** Few chunks, for each but the last has more than 64 KB. *)
Lemma chunks_few (chunks : list gostr) : Forall (fun c => tooSmallThreshold < glen c) (removelast chunks) ->
  (glen chunks - 1) * tooSmallThreshold <= glen (concat chunks).
Proof.
  induction chunks as [|c chunks IH]; intros Hb; [unfold tooSmallThreshold, glen; cbn; lia|]. destruct chunks as [|c' chunks].
  - unfold glen, tooSmallThreshold. cbn [length concat]. rewrite app_nil_r. lia.
  - change (removelast (c :: c' :: chunks)) with (c :: removelast (c' :: chunks)) in Hb. apply Forall_cons in Hb as [Hc Hb].
    specialize (IH Hb). cbn [concat] in *. rewrite glen_app. change (glen (c :: c' :: chunks)) with (Z.of_nat (Datatypes.S (length (c' :: chunks)))).
    unfold glen at 1 in IH. lia.
Qed.

(** The texts of a file of up to 512 MB fit, if the one without its parts is
    short: the name is the only part of it that varies. *)
Lemma small_file_fits (m : Builder) (src : list (gostr * gerr)) (t0 : gostr) : m !! gs "parts" = None -> is_Some (m !! gs "camliType") ->
  mapJSON m = Ok t0 -> glen t0 <= 2 ^ 16 -> glen (srcBytes src) <= 2 ^ 29 -> Forall textFits (textsOf m src).
Proof.
  intros Hnone Ht Hm H0 Hlen. unfold textsOf. pose proof (cutSrc_ok src) as Hc. destruct (cutSrc src).2 as [[n spans]|e|p|]; [|constructor..].
  destruct Hc as (_ & [Hcat _ _ Hbig Hlv _ _]). destruct (placed_refSpan 0 (cutSrc src).1) as [Hr Hl]. rewrite <- Hlv in Hr, Hl.
  apply chunks_few in Hbig. rewrite Hcat in Hbig.
  destruct (spansShort spans ltac:(by apply Forall_forall; intros s _; apply span_short) Hr) as (P & L & T).
  assert (Z.of_nat (length (concat (map leaves spans))) <= 8193) as Hfew.
  { rewrite Hl. change tooSmallThreshold with 65536 in Hbig. change (2 ^ 29) with 536870912 in Hlen. revert Hbig Hlen. generalize (glen (srcBytes src)). unfold glen. lia. }
  unfold textFits, MaxSchemaBlobSize. apply Forall_app. split.
  - eapply Forall_impl; [exact T|]. intros t Hb. cbn beta in *. unfold glen. lia.
  - apply Forall_singleton. pose proof (buildText_length m n (spansParts spans) t0 Hnone Ht Hm P) as Hb. unfold glen in *. lia.
Qed.

(** * A flat source *)

(** A source in which nothing is cut, like one whose bytes are all equal, is
    one flat list of full chunks.  At 10 GiB and a bit its text is more than
    1 MB, and [Builder.Blob], which reads it back through the limit, panics. *)
Definition fullPart : BytesPart := blobPart (refOf (gs "a")) (2 ^ 20).

Lemma fullParts_sum n acc : 0 <= acc -> acc + Z.of_nat n * 2 ^ 20 < 2 ^ 62 ->
  foldl (fun s p => i64 (s + i64 (bp_Size p))) acc (replicate n fullPart) = acc + Z.of_nat n * 2 ^ 20.
Proof.
  revert acc. induction n as [|n IH]; intros acc Ha Hl; cbn [replicate foldl]; [lia|].
  change (i64 (bp_Size fullPart)) with (2 ^ 20). rewrite i64_small by lia. rewrite IH by lia. lia.
Qed.

Lemma flat_text_length (n : nat) : (0 < n)%nat -> Z.of_nat n < 2 ^ 30 -> exists m, NewFileMap (gs "x") = Ok m /\
  exists k, (length (buildText m (Z.of_nat n * 2 ^ 20) (replicate n fullPart)) = k + 101 * n)%nat.
Proof.
  intros Hn Hbig. eexists. split; [reflexivity|]. set (m := SetType _ _). set (t0 := match mapJSON m with Ok t => t | _ => [] end).
  exists (length t0 + 17)%nat. unfold buildText. assert (Forall partOk (replicate n fullPart)) as Hok.
  { apply Forall_forall. intros p [-> _]%elem_of_replicate. apply plainPart_ok. eexists _, _. by left. }
  unfold PopulateParts, populateParts. rewrite partMaps_ok by done. cbn [rbind]. rewrite fullParts_sum, Z.add_0_l, Z.eqb_refl by lia.
  set (v := VArr _). assert (mapJSON m = Ok t0) as H0 by reflexivity.
  assert (exists t, mapJSON (<[gs "parts" := v]> m) = Ok t) as [t Ht].
  { unfold mapJSON. rewrite lookup_insert_ne by done. eexists. reflexivity. }
  rewrite Ht. rewrite (mapJSON_parts_length m v t0 t eq_refl ltac:(by eexists) H0 Ht). unfold memberLen. cbn [fst snd]. unfold v.
  rewrite render_arr_length by (destruct n; [lia|done]). rewrite fmap_replicate.
  assert (forall k x, sum_list_with (elemLen 1) (replicate k x) = (k * elemLen 1 x)%nat) as ->
    by (intros k x; induction k as [|k IH]; [done|]; cbn [replicate sum_list_with]; rewrite IH; lia).
  assert (elemLen 1 (VMap (partPairs fullPart)) = 101%nat) as -> by (vm_compute; reflexivity).
  change (length (escape (gs "parts"))) with 5%nat. lia.
Qed.

(** 10500 chunks of 1 MB. *)
Example flat_file_too_large : exists m, NewFileMap (gs "x") = Ok m /\
  ~ textFits (buildText m (10500 * 2 ^ 20) (replicate (Z.to_nat 10500) fullPart)).
Proof.
  destruct (flat_text_length (Z.to_nat 10500)) as (m & Hm & k & Hk); [lia|lia|]. exists m. split; [exact Hm|].
  rewrite Z2Nat.id in Hk by lia. unfold textFits, glen, MaxSchemaBlobSize. rewrite Hk. lia.
Qed.
