(* ===== verification/IndexKeys.v ===== *)
(** The rows of the index: pkg/index/keys.go and util.go, and the readers of
    rows in index.go.

    A row is a key and a value, each made of parts joined by ['|'].  The query
    escaping of net/url and [strings.Split] are written out. *)

From S2P Require Import Prelude Ref Strutil Sha1 Times.

(** * net/url's query escaping *)

Definition isAlnum (c : ascii) : bool :=
  (48 <=? bz c) && (bz c <=? 57) || (65 <=? bz c) && (bz c <=? 90) || (97 <=? bz c) && (bz c <=? 122).

Definition upperHex (z : Z) : ascii := if z <? 10 then zb (48 + z) else zb (55 + z).

Definition escapeQueryByte (c : ascii) : gostr :=
  if isAlnum c || bool_decide (c ∈ gs "-_.~") then [c]
  else if decide (c = " "%char) then ["+"%char]
  else ["%"%char; upperHex (bz c / 16); upperHex (bz c mod 16)].

(** [urle], that is [url.QueryEscape]. *)
Definition urle (s : gostr) : gostr := concat (map escapeQueryByte s).

Definition unhex (c : ascii) : option Z :=
  if (48 <=? bz c) && (bz c <=? 57) then Some (bz c - 48)
  else if (97 <=? bz c) && (bz c <=? 102) then Some (bz c - 87)
  else if (65 <=? bz c) && (bz c <=? 70) then Some (bz c - 55)
  else None.

Fixpoint queryUnescape (s : gostr) : option gostr :=
  match s with
  | [] => Some []
  | c :: s' =>
      if decide (c = "%"%char) then
        match s' with
        | a :: b :: s'' => x ← unhex a; y ← unhex b; r ← queryUnescape s''; Some (zb (x * 16 + y) :: r)
        | _ => None
        end
      else r ← queryUnescape s'; Some ((if decide (c = "+"%char) then " "%char else c) :: r)
  end.

(** [urld]: the empty string when it cannot be unescaped. *)
Definition urld (s : gostr) : gostr := default [] (queryUnescape s).

(** * Splitting *)

(** [strings.Split(s, sep)] for a one-byte separator. *)
Fixpoint splitOn (sep : ascii) (s : gostr) : list gostr :=
  match s with
  | [] => [[]]
  | c :: s' =>
      if decide (c = sep) then [] :: splitOn sep s'
      else match splitOn sep s' with p :: ps => (c :: p) :: ps | [] => [[c]] end
  end.

Definition pipe : ascii := "|"%char.

(** * Keys *)

Definition typeOfKey (k : gostr) : gostr :=
  match index_byte ":" k, index_byte pipe k with
  | None, None => []
  | None, Some p => take p k
  | Some c, None => take c k
  | Some c, Some p => take (if (p <? c)%nat then p else c) k
  end.

Inductive partType := typeKeyId | typeTime | typeReverseTime | typeBlobRef | typeStr | typeIntStr | typeRawStr.

#[global] Instance partType_eq_dec : EqDecision partType.
Proof. solve_decision. Defined.

Record keyType := MkKey { kt_name : gostr; keyParts : list partType; valParts : list partType }.

(** The arguments that callers pass: a string, an integer, or a [blob.Ref]. *)
Inductive arg := AStr (s : gostr) | AInt (z : Z) | ARef (r : Ref).

(** A string or a [Stringer]. *)
Definition asStr (a : arg) : res gostr :=
  match a with
  | AStr s => Ok s
  | ARef r => Ok (RefString r)
  | AInt _ => Panic "interface conversion: int is not fmt.Stringer"
  end.

Definition looksLikeTime (s : gostr) : bool :=
  (19 <=? length s)%nat && (bool_decide (s !! 4%nat = Some "-"%char) || bool_decide (s !! 10%nat = Some "T"%char)).

Definition partText (typ : partType) (a : arg) : res gostr :=
  match typ with
  | typeIntStr => match a with AInt z => Ok (itoa z) | _ => Panic "bogus int type" end
  | typeStr => let? s := asStr a in Ok (urle s)
  | typeRawStr => asStr a
  | typeReverseTime =>
      let? s := asStr a in
      if looksLikeTime s then Ok (reverseTimeString s) else Panic "doesn't look like a time: "
  | _ => asStr a
  end.

(** The loop of [build]; [sep] says whether the next part has a ['|'] before it. *)
Fixpoint buildParts (sep : bool) (parts : list partType) (args : list arg) {struct args} : res gostr :=
  match args, parts with
  | [], _ => Ok []
  | _ :: _, [] => Panic "too many arguments"
  | a :: args, p :: parts =>
      let? t := partText p a in
      let? rest := buildParts true parts args in
      Ok ((if sep then [pipe] else []) ++ t ++ rest)
  end.

Definition build (isPrefix isKey : bool) (k : keyType) (parts : list partType) (args : list arg) : res gostr :=
  if negb isPrefix && negb (length args =? length parts)%nat then Panic "wrong number of arguments"
  else if (length parts <? length args)%nat then Panic "too many arguments"
  else
    let? body := buildParts isKey parts args in
    Ok ((if isKey then kt_name k else []) ++ body ++ (if isPrefix then [pipe] else [])).

Definition Prefix (k : keyType) (args : list arg) : res gostr := build true true k (keyParts k) args.
Definition Key (k : keyType) (args : list arg) : res gostr := build false true k (keyParts k) args.
Definition Val (k : keyType) (args : list arg) : res gostr := build false false k (valParts k) args.

Definition requiredSchemaVersion : Z := 4.

Definition keySchemaVersion : keyType := MkKey (gs "schemaversion") [] [typeIntStr].
Definition keyMissing : keyType := MkKey (gs "missing") [typeBlobRef; typeBlobRef] [typeStr].
Definition keyPermanodeClaim : keyType :=
  MkKey (gs "claim") [typeBlobRef; typeKeyId; typeTime; typeBlobRef] [typeStr; typeStr; typeStr; typeBlobRef].
Definition keyRecentPermanode : keyType := MkKey (gs "recpn") [typeKeyId; typeReverseTime; typeBlobRef] [].
Definition keyPathBackward : keyType :=
  MkKey (gs "signertargetpath") [typeKeyId; typeBlobRef; typeBlobRef] [typeTime; typeBlobRef; typeStr; typeStr].
Definition keyPathForward : keyType :=
  MkKey (gs "path") [typeKeyId; typeBlobRef; typeStr; typeReverseTime; typeBlobRef] [typeStr; typeBlobRef].
Definition keyWholeToFileRef : keyType := MkKey (gs "wholetofile") [typeBlobRef; typeBlobRef] [typeStr].
Definition keyFileInfo : keyType := MkKey (gs "fileinfo") [typeBlobRef] [typeIntStr; typeStr; typeStr].
Definition keyFileTimes : keyType := MkKey (gs "filetimes") [typeBlobRef] [typeStr].
Definition keySignerAttrValue : keyType :=
  MkKey (gs "signerattrvalue") [typeKeyId; typeStr; typeStr; typeReverseTime; typeBlobRef] [typeBlobRef].
Definition keyDeleted : keyType := MkKey (gs "deleted") [typeBlobRef; typeReverseTime; typeBlobRef] [].
Definition keyEdgeBackward : keyType := MkKey (gs "edgeback") [typeBlobRef; typeBlobRef; typeBlobRef] [typeStr; typeStr].
Definition keyImageSize : keyType := MkKey (gs "imagesize") [typeBlobRef] [typeStr; typeStr].
Definition keyStaticDirChild : keyType := MkKey (gs "dirchild") [typeBlobRef; typeStr] [typeStr].
Definition keyMediaTag : keyType := MkKey (gs "mediatag") [typeBlobRef; typeStr] [typeStr].
Definition keyEXIFTag : keyType := MkKey (gs "exiftag") [typeBlobRef; typeStr] [typeStr; typeIntStr; typeRawStr].
Definition keyEXIFGPS : keyType := MkKey (gs "exifgps") [typeBlobRef] [typeStr; typeStr].

(** Bytes that a raw part escapes: those from ['z'] on, below [' '], and the
    two that escaping uses.  (Go ranges over runes; every rune of a byte from
    128 on is above ['z'].) *)
Definition containsUnsafeRawStrByte (s : gostr) : bool :=
  existsb (fun c => (122 <=? bz c) || (bz c <? 32) || bool_decide (c = "%"%char) || bool_decide (c = "+"%char)) s.

(** * Reading rows *)

(** [camtypes.Claim], [camtypes.Path], [camtypes.Edge], [camtypes.BlobMeta],
    [camtypes.ImageInfo]. *)
Record Claim := MkClaim {
  cl_BlobRef : Ref; cl_Signer : Ref; cl_Date : gotime; cl_Type : gostr;
  cl_Attr : gostr; cl_Value : gostr; cl_Permanode : Ref; cl_Target : Ref
}.
Record Path := MkPath { p_Claim : Ref; p_Base : Ref; p_Target : Ref; p_ClaimDate : gotime; p_Suffix : gostr }.
Record Edge := MkEdge { e_From : Ref; e_FromType : gostr; e_FromTitle : gostr; e_To : Ref; e_BlobRef : Ref }.
Record BlobMeta := MkMeta { bm_Ref : Ref; bm_Size : Z; bm_CamliType : gostr }.
Record ImageInfo := MkImage { ii_Width : Z; ii_Height : Z }.

#[global] Instance Claim_eq_dec : EqDecision Claim.
Proof. solve_decision. Defined.
#[global] Instance BlobMeta_eq_dec : EqDecision BlobMeta.
Proof. solve_decision. Defined.

Definition zeroClaim : Claim := MkClaim zeroRef zeroRef 0 [] [] [] zeroRef zeroRef.
Definition zeroPath : Path := MkPath zeroRef zeroRef zeroRef 0 [].
Definition zeroMeta : BlobMeta := MkMeta zeroRef 0 [].

(** The functions below return from the middle with the named result [ok] as
    the last parse has left it: where a date or a size is bad after a
    reference was good, they return the zero value and true. *)

(** [blob.Parse] and [blob.ParseBytes] as their two results. *)
Definition blobParse (s : gostr) : option Ref := match Parse s with Ok o => o | _ => None end.

Definition kvDeleted (k : gostr) : res (option Claim) :=
  match splitOn pipe k with
  | [name; t; when; c] =>
      if decide (name = gs "deleted") then
        match blobParse t, blobParse c with
        | Some target, Some claimRef =>
            let? when := unreverseTimeString when in
            Ok (Some (match ParseRFC3339 when with
                      | Some date => MkClaim claimRef zeroRef date (gs "delete") [] [] zeroRef target
                      | None => zeroClaim
                      end))
        | _, _ => Ok None
        end
      else Ok None
  | _ => Ok None
  end.

Definition kvClaim (k v : gostr) : res (option Claim) :=
  let? keyPart := AppendSplitN [] k [pipe] (-1) in
  let? valPart := AppendSplitN [] v [pipe] (-1) in
  match keyPart, valPart with
  | _ :: pn :: _ :: date :: claim :: _, ctype :: attr :: value :: signer :: _ =>
      Ok (signerRef ← blobParse signer; permaNode ← blobParse pn; claimRef ← blobParse claim;
          Some (match ParseRFC3339 date with
                | Some date => MkClaim claimRef signerRef date (urld ctype) (urld attr) (urld value) permaNode zeroRef
                | None => zeroClaim
                end))
  | _, _ => Ok None
  end.

Definition kvSignerAttrValue (k v : gostr) : res (option Claim) :=
  match splitOn pipe k, splitOn pipe v with
  | [name; _; attr; value; when; claim], [pn] =>
      if decide (name = gs "signerattrvalue") then
        let? when := unreverseTimeString when in
        Ok (date ← ParseRFC3339 when; claimRef ← blobParse claim; permaNode ← blobParse pn;
            Some (MkClaim claimRef zeroRef date [] (urld attr) (urld value) permaNode zeroRef))
      else Ok None
  | _, _ => Ok None
  end.

(** The path and whether it is active. *)
Definition kvPathBackward (k v : gostr) : option (Path * bool) :=
  match splitOn pipe k, splitOn pipe v with
  | [name; _; target; claim], [date; base; active; suffix] =>
      if decide (name = gs "signertargetpath") then
        target ← blobParse target; claim ← blobParse claim;
        match ParseRFC3339 date with
        | None => Some (zeroPath, false)
        | Some date => base ← blobParse base; Some (MkPath claim base target date (urld suffix), bool_decide (active = gs "Y"))
        end
      else None
  | _, _ => None
  end.

Definition kvPathForward (k v : gostr) : res (option (Path * bool)) :=
  match splitOn pipe k, splitOn pipe v with
  | [name; _; base; suffix; when; claim], [active; target] =>
      if decide (name = gs "path") then
        match blobParse base with
        | Some base =>
            let? when := unreverseTimeString when in
            Ok (match ParseRFC3339 when with
                | None => Some (zeroPath, false)
                | Some date =>
                    claim ← blobParse claim; target ← blobParse target;
                    Some (MkPath claim base target date (urld suffix), bool_decide (active = gs "Y"))
                end)
        | None => Ok None
        end
      else Ok None
  | _, _ => Ok None
  end.

Definition kvEdgeBackward (k v : gostr) : option Edge :=
  match splitOn pipe k, splitOn pipe v with
  | [name; _; parent; br], [ptype; title] =>
      if decide (name = gs "edgeback") then
        parentRef ← blobParse parent; blobRef ← blobParse br;
        Some (MkEdge parentRef ptype title zeroRef blobRef)
      else None
  | _, _ => None
  end.

Definition camliTypeMIMEPrefix : gostr := gs "application/json; camliType=".

Definition camliTypeFromMIME (mime : gostr) : gostr :=
  if decide (take (length camliTypeMIMEPrefix) mime = camliTypeMIMEPrefix) then drop (length camliTypeMIMEPrefix) mime else [].

(** [kvBlobMeta_bytes]; [k] starts with ["meta:"] or the slicing panics. *)
Definition kvBlobMeta_bytes (k v : gostr) : res (option BlobMeta) :=
  if (length k <? 5)%nat then Panic "slice bounds out of range"
  else
    let? br := ParseBytes (drop 5 k) in
    Ok (br ← br;
        Some (match index_byte pipe v with
              | None => zeroMeta
              | Some i =>
                  match ParseUintBytes (take i v) 10 32 with
                  | (size, None) => MkMeta br size (camliTypeFromMIME (drop (S i) v))
                  | _ => zeroMeta
                  end
              end)).

Definition kvImageInfo (v : gostr) : option ImageInfo :=
  i ← index_byte pipe v;
  match ParseUintBytes (take i v) 10 16, ParseUintBytes (drop (S i) v) 10 16 with
  | (w, None), (h, None) => Some (MkImage w h)
  | _, _ => None
  end.

(** * Escaping *)

Lemma unhex_upperHex z : 0 <= z < 16 -> unhex (upperHex z) = Some z.
Proof.
  intros Hz. unfold upperHex. destruct (Z.ltb_spec z 10).
  - unfold unhex. rewrite bz_zb_small by lia. rewrite (proj2 (Z.leb_le 48 _)), (proj2 (Z.leb_le _ 57)) by lia. cbn [andb]. f_equal. lia.
  - unfold unhex. rewrite bz_zb_small by lia. rewrite (proj2 (Z.leb_gt _ 57)) by lia. rewrite andb_false_r.
    rewrite (proj2 (Z.leb_gt 97 _)) by lia. cbn [andb]. rewrite (proj2 (Z.leb_le 65 _)), (proj2 (Z.leb_le _ 70)) by lia. cbn [andb]. f_equal. lia.
Qed.

Lemma queryUnescape_byte c r : queryUnescape (escapeQueryByte c ++ r) = (fun r => c :: r) <$> queryUnescape r.
Proof.
  unfold escapeQueryByte. destruct (isAlnum c || bool_decide (c ∈ gs "-_.~")) eqn:E.
  - assert (c ≠ "%"%char /\ c ≠ "+"%char) as [H1 H2].
    { split; intros ->; vm_compute in E; discriminate E. }
    cbn [app queryUnescape]. rewrite decide_False by done. destruct (queryUnescape r); [|done]. cbn [mbind option_bind fmap option_fmap option_map]. by rewrite decide_False.
  - destruct (decide (c = " "%char)) as [->|]; cbn [app queryUnescape].
    { rewrite decide_False by done. by destruct (queryUnescape r). }
    rewrite decide_True by done. pose proof (bz_range c). pose proof (Z.mod_pos_bound (bz c) 16 ltac:(lia)).
    rewrite !unhex_upperHex by (first [lia|split; [apply Z.div_pos; lia|apply Z.div_lt_upper_bound; lia]]). cbn [mbind option_bind].
    replace (bz c / 16 * 16 + bz c mod 16) with (bz c) by (rewrite (Z.div_mod (bz c) 16) at 1 by lia; lia).
    rewrite zb_bz. by destruct (queryUnescape r).
Qed.

Lemma urld_urle s : urld (urle s) = s.
Proof.
  unfold urld, urle. assert (queryUnescape (concat (map escapeQueryByte s)) = Some s) as ->; [|done].
  induction s as [|c s IH]; [done|]. cbn [map concat]. by rewrite queryUnescape_byte, IH.
Qed.

(** Parts hold no ['|']. *)
Definition noPipe (s : gostr) : Prop := pipe ∉ s.

Lemma noPipe_Forall (P : ascii -> Prop) s : (forall c, P c -> c ≠ pipe) -> Forall P s -> noPipe s.
Proof. intros HP Hs Hin. rewrite Forall_forall in Hs. by apply (HP pipe (Hs _ Hin)). Qed.

Lemma upperHex_ne z : 0 <= z < 16 -> upperHex z ≠ pipe.
Proof.
  intros Hz E. apply (f_equal bz) in E. change (bz pipe) with 124 in E. unfold upperHex in E.
  destruct (z <? 10); rewrite bz_zb_small in E by lia; lia.
Qed.

Lemma urle_noPipe s : noPipe (urle s).
Proof.
  unfold noPipe, urle. induction s as [|c s IH]; [set_solver|]. cbn [map concat]. rewrite not_elem_of_app. split; [|done].
  unfold escapeQueryByte. destruct (isAlnum c || _) eqn:E.
  - rewrite list_elem_of_singleton. intros <-. vm_compute in E. discriminate E.
  - destruct (decide (c = " "%char)); [rewrite list_elem_of_singleton; done|].
    pose proof (bz_range c). pose proof (Z.mod_pos_bound (bz c) 16 ltac:(lia)).
    assert (0 <= bz c / 16 < 16) by (split; [apply Z.div_pos; lia|apply Z.div_lt_upper_bound; lia]).
    rewrite !not_elem_of_cons. split_and!; [done| | |by apply not_elem_of_nil]; intros Hp; symmetry in Hp; by apply upperHex_ne in Hp.
Qed.

Lemma RefString_noPipe r : refWf r = true -> noPipe (RefString r).
Proof. intros Hr. eapply noPipe_Forall; [|by apply RefString_chars]. intros c Hc%refChar_range ->. change (bz pipe) with 124 in Hc. lia. Qed.

Lemma timeChar_ne c : timeChar c -> c ≠ pipe.
Proof. intros [Hc|Hc] ->; [unfold isDigit in Hc; change (bz pipe) with 124 in Hc; lia|]. revert Hc. apply (bool_decide_unpack _). vm_compute. exact I. Qed.

Lemma time_noPipe t : printable t -> noPipe (formatTime3339 t).
Proof. intros Ht. eapply noPipe_Forall; [apply timeChar_ne|]. by apply formatTime3339_shape. Qed.

(** * Splitting what was joined *)

Lemma splitOn_nil_iff sep s : splitOn sep s ≠ [].
Proof. destruct s as [|c s]; [done|]. cbn [splitOn]. destruct (decide (c = sep)); [done|]. by destruct (splitOn sep s). Qed.

Lemma splitOn_noSep sep s : sep ∉ s -> splitOn sep s = [s].
Proof.
  induction s as [|c s IH]; [done|]. intros [Hc Hs]%not_elem_of_cons. cbn [splitOn]. rewrite decide_False by done. by rewrite IH.
Qed.

Lemma splitOn_cons sep p s : sep ∉ p -> splitOn sep (p ++ sep :: s) = p :: splitOn sep s.
Proof.
  induction p as [|c p IH]; intros Hp; cbn [app splitOn]; [by rewrite decide_True|].
  apply not_elem_of_cons in Hp as [Hc Hp]. rewrite decide_False by done. by rewrite IH.
Qed.

Definition joinOn (sep : ascii) (ps : list gostr) : gostr := joinSep [sep] ps.

Lemma splitOn_join sep ps : ps ≠ [] -> Forall (fun p => sep ∉ p) ps -> splitOn sep (joinOn sep ps) = ps.
Proof.
  destruct ps as [|p ps]; [done|]. intros _ [Hp Hps]%Forall_cons. unfold joinOn, joinSep.
  revert p Hp. induction Hps as [|q ps Hq Hps IH]; intros p Hp; cbn [map concat].
  { rewrite app_nil_r. by apply splitOn_noSep. }
  cbn [app]. rewrite splitOn_cons by done. f_equal. by apply IH.
Qed.

(** [AppendSplitN] without a limit is [strings.Split]. *)
Lemma isAt_lookup c s i : isAt [c] s i = bool_decide (s !! i = Some c).
Proof.
  unfold isAt. apply bool_decide_ext. cbn [length]. destruct (s !! i) as [x|] eqn:E.
  - rewrite (drop_S _ _ _ E). cbn [take]. rewrite take_0. split; congruence.
  - rewrite drop_ge by by apply lookup_ge_None. rewrite take_nil. split; congruence.
Qed.

Lemma countLoop_fuel c s f g i : (length s < f + i)%nat -> (length s < g + i)%nat -> countLoop f s [c] i = countLoop g s [c] i.
Proof.
  revert g i. induction f as [|f IH]; intros g i Hf Hg.
  - destruct g as [|g]; [done|]. cbn [countLoop length]. by rewrite decide_False by lia.
  - destruct g as [|g]; cbn [countLoop length]; [by rewrite decide_False by lia|].
    destruct (decide _); [|done]. destruct (isAt [c] s i); [f_equal|]; apply IH; lia.
Qed.

Lemma countLoop_nonneg c s f i : 0 <= countLoop f s [c] i.
Proof. revert i. induction f as [|f IH]; intros i; cbn [countLoop length]; [lia|]. destruct (decide _); [|lia]. destruct (isAt _ _ _); [|done]. pose proof (IH (i + 1)%nat). lia. Qed.

Lemma countLoop_zero c s f i : (length s < f + i)%nat -> countLoop f s [c] i = 0 -> c ∉ drop i s.
Proof.
  revert i. induction f as [|f IH]; intros i Hf H0; [rewrite drop_ge by lia; apply not_elem_of_nil|].
  cbn [countLoop length] in H0. destruct (decide (i + 1 <= length s)%nat) as [Hle|]; [|rewrite drop_ge by lia; apply not_elem_of_nil].
  assert (exists x, s !! i = Some x) as [x Hx] by (apply lookup_lt_is_Some; lia). rewrite (drop_S _ _ _ Hx).
  rewrite isAt_lookup in H0. case_bool_decide as Hb; [pose proof (countLoop_nonneg c s f (i + 1)); lia|].
  apply not_elem_of_cons. split; [congruence|]. rewrite <- Nat.add_1_r. apply IH; [lia|done].
Qed.

Lemma genSplitLoop_all c s fuel dst na start i : (length s < fuel + i)%nat -> (start <= i)%nat ->
  c ∉ take (i - start) (drop start s) ->
  let '(dst', start') := genSplitLoop fuel dst s [c] 0 (countLoop fuel s [c] i + na + 1) na start i in
  dst' ++ [drop start' s] = dst ++ splitOn c (drop start s).
Proof.
  revert dst na start i. induction fuel as [|fuel IH]; intros dst na start i Hf Hsi Hc.
  { cbn [genSplitLoop]. f_equal. rewrite take_ge in Hc by (rewrite length_drop; lia). by rewrite splitOn_noSep. }
  cbn [genSplitLoop countLoop length].
  destruct (decide (i + 1 <= length s)%nat) as [Hle|Hgt].
  - assert (exists x, s !! i = Some x) as [x Hx] by (apply lookup_lt_is_Some; lia).
    assert (drop start s = take (i - start) (drop start s) ++ x :: drop (S i) s) as Hd.
    { rewrite <- (take_drop (i - start) (drop start s)) at 1. f_equal. rewrite drop_drop. replace (start + (i - start))%nat with i by lia. by apply drop_S. }
    rewrite isAt_lookup. rewrite (bool_decide_eq_true_2 (i + 1 <= length s)%nat) by done. cbn [andb].
    destruct (decide (x = c)) as [->|Hne].
    + rewrite bool_decide_eq_true_2 by done. pose proof (countLoop_nonneg c s fuel (i + 1)).
      rewrite (proj2 (Z.ltb_lt _ _)) by lia.
      specialize (IH (dst ++ [take (i + 0 - start) (drop start s)]) (na + 1) (i + 1)%nat (i + 1)%nat ltac:(lia) ltac:(lia)).
      replace (1 + countLoop fuel s [c] (i + 1) + na + 1) with (countLoop fuel s [c] (i + 1) + (na + 1) + 1) by lia.
      destruct (genSplitLoop _ _ _ _ _ _ _ _ _) as [dst' start']. rewrite IH by (rewrite Nat.sub_diag; cbn [take]; apply not_elem_of_nil).
      rewrite <- app_assoc. f_equal. rewrite Hd at 2. rewrite splitOn_cons by done. by rewrite Nat.add_0_r, Nat.add_1_r.
    + rewrite bool_decide_eq_false_2 by congruence.
      assert (c ∉ take (i + 1 - start) (drop start s)) as Hc'.
      { rewrite Hd. replace (i + 1 - start)%nat with (length (take (i - start) (drop start s)) + 1)%nat by (rewrite length_take, length_drop; lia).
        rewrite take_app_add. cbn [take]. rewrite take_0. rewrite not_elem_of_app, list_elem_of_singleton. split; [done|congruence]. }
      destruct (Z.ltb_spec (na + 1) (countLoop fuel s [c] (i + 1) + na + 1)) as [Hlt|Hge].
      * apply IH; [lia|lia|done].
      * pose proof (countLoop_nonneg c s fuel (i + 1)). f_equal. rewrite splitOn_noSep; [done|].
        rewrite Hd, not_elem_of_app, not_elem_of_cons. split_and!; [done|congruence|]. rewrite <- Nat.add_1_r.
        apply (countLoop_zero c s fuel); lia.
  - rewrite bool_decide_eq_false_2 by done. cbn [andb]. f_equal.
    rewrite take_ge in Hc by (rewrite length_drop; lia). by rewrite splitOn_noSep.
Qed.

Lemma AppendSplitN_all c s : AppendSplitN [] s [c] (-1) = Ok (splitOn c s).
Proof.
  unfold AppendSplitN, genSplit. cbn [Z.eqb Z.ltb Z.compare]. unfold stringsCount.
  pose proof (genSplitLoop_all c s (S (length s)) [] 0 0 0 ltac:(lia) ltac:(lia)) as Hg.
  replace (countLoop (S (length s)) s [c] 0 + 1) with (countLoop (S (length s)) s [c] 0 + 0 + 1) by lia.
  destruct (genSplitLoop _ _ _ _ _ _ _ _ _) as [dst' start']. rewrite Hg by apply not_elem_of_nil. by rewrite drop_0.
Qed.

(** * Rows *)

Fixpoint partTexts (parts : list partType) (args : list arg) {struct args} : res (list gostr) :=
  match args, parts with
  | [], _ => Ok []
  | _ :: _, [] => Panic "too many arguments"
  | a :: args, p :: parts => let? t := partText p a in let? ts := partTexts parts args in Ok (t :: ts)
  end.

Definition piped (ts : list gostr) : gostr := concat (map (fun q => [pipe] ++ q) ts).

Lemma buildParts_ok parts args ts sep : partTexts parts args = Ok ts ->
  buildParts sep parts args = Ok (match ts with [] => [] | t :: ts => (if sep then [pipe] else []) ++ t ++ piped ts end).
Proof.
  revert parts ts sep. induction args as [|a args IH]; intros parts ts sep; cbn [partTexts buildParts]; [by destruct parts; intros [= <-]|].
  destruct parts as [|p parts]; [done|]. intros (t & Ht & H1)%rbind_Ok. apply rbind_Ok in H1 as (ts' & Hts & [= <-]).
  cbn beta iota. rewrite Ht. cbn [rbind]. rewrite (IH _ _ true Hts). cbn [rbind]. by destruct ts'.
Qed.

Lemma partTexts_length parts args ts : partTexts parts args = Ok ts -> length ts = length args.
Proof.
  revert parts ts. induction args as [|a args IH]; intros parts ts; cbn [partTexts]; [by destruct parts; intros [= <-]|].
  destruct parts as [|p parts]; [done|]. intros (t & _ & H1)%rbind_Ok. apply rbind_Ok in H1 as (ts' & Hts & [= <-]).
  cbn [length]. f_equal. by eapply IH.
Qed.

Lemma Key_ok k args ts : partTexts (keyParts k) args = Ok ts -> length args = length (keyParts k) ->
  Key k args = Ok (joinOn pipe (kt_name k :: ts)).
Proof.
  intros Ht Hl. unfold Key, build. rewrite (proj2 (Nat.eqb_eq _ _)), (proj2 (Nat.ltb_ge _ _)) by lia. cbn [negb andb].
  rewrite (buildParts_ok _ _ _ true Ht). cbn [rbind]. rewrite app_nil_r. by destruct ts.
Qed.

Lemma Val_ok k args ts : partTexts (valParts k) args = Ok ts -> length args = length (valParts k) ->
  Val k args = Ok (joinOn pipe ts).
Proof.
  intros Ht Hl. unfold Val, build. rewrite (proj2 (Nat.eqb_eq _ _)), (proj2 (Nat.ltb_ge _ _)) by lia. cbn [negb andb].
  rewrite (buildParts_ok _ _ _ false Ht). cbn [rbind]. rewrite app_nil_r. by destruct ts.
Qed.

Lemma Prefix_ok k args ts : partTexts (keyParts k) args = Ok ts -> (length args <= length (keyParts k))%nat ->
  Prefix k args = Ok (joinOn pipe (kt_name k :: ts) ++ [pipe]).
Proof.
  intros Ht Hl. unfold Prefix, build. rewrite (proj2 (Nat.ltb_ge _ _)) by lia. cbn [negb andb].
  rewrite (buildParts_ok _ _ _ true Ht). cbn [rbind]. f_equal. unfold joinOn. cbn [joinSep]. rewrite <- app_assoc. by destruct ts.
Qed.

Lemma blobParse_String r : refWf r = true -> blobParse (RefString r) = Some r.
Proof. intros Hr. unfold blobParse. by rewrite Parse_RefString. Qed.

Lemma looksLikeTime_format t : printable t -> looksLikeTime (formatTime3339 t) = true.
Proof.
  intros Ht. destruct (formatTime3339_shape t Ht) as (_ & Hl & H4). unfold looksLikeTime.
  rewrite (proj2 (Nat.leb_le _ _)) by done. rewrite H4. by rewrite bool_decide_eq_true_2.
Qed.

Lemma unreverse_reverse s : unreverseTimeString (reverseTimeString s) = Ok s.
Proof.
  unfold unreverseTimeString, reverseTimeString, appendReverseString. rewrite decide_True by done. simpl.
  by rewrite ?drop_0, map_reverseChar_involutive.
Qed.

Lemma reversed_noPipe t : printable t -> noPipe (reverseTimeString (formatTime3339 t)).
Proof.
  intros Ht. unfold reverseTimeString, appendReverseString. destruct (formatTime3339_shape t Ht) as (Hf & _ & _).
  unfold noPipe. rewrite not_elem_of_app. split; [apply (bool_decide_unpack _); vm_compute; exact I|].
  intros (c & Hc & Hin)%list_elem_of_fmap. rewrite Forall_forall in Hf. apply Hf in Hin as [Hd|Hp].
  - apply (f_equal bz) in Hc. rewrite reverseChar_digit in Hc by done. unfold isDigit in Hd. change (bz pipe) with 124 in Hc. lia.
  - assert (Forall (fun c => reverseChar c ≠ pipe) (gs "-:TZ.")) as Hall by (apply (bool_decide_unpack _); vm_compute; exact I).
    rewrite Forall_forall in Hall. by apply (Hall c Hp).
Qed.

(** A claim that a row can hold. *)
Definition rowClaim (cl : Claim) : Prop :=
  refWf (cl_BlobRef cl) = true /\ refWf (cl_Signer cl) = true /\ refWf (cl_Permanode cl) = true /\
  printable (cl_Date cl) /\ cl_Target cl = zeroRef.

Definition claimKeyArgs (cl : Claim) (keyId : gostr) : list arg :=
  [ARef (cl_Permanode cl); AStr keyId; AStr (formatTime3339 (cl_Date cl)); ARef (cl_BlobRef cl)].
Definition claimValArgs (cl : Claim) : list arg :=
  [AStr (cl_Type cl); AStr (cl_Attr cl); AStr (cl_Value cl); ARef (cl_Signer cl)].

Ltac noPipes := repeat (apply Forall_cons; split); try apply Forall_nil_2;
  try (apply urle_noPipe); try (by apply RefString_noPipe); try (by apply time_noPipe); try (by apply reversed_noPipe);
  try done; try (apply (bool_decide_unpack _); vm_compute; exact I).

(** What [populateClaim] writes for a claim, [kvClaim] reads back, whatever
    bytes its type, attribute and value have. *)
Lemma kvClaim_row (cl : Claim) (keyId : gostr) : rowClaim cl -> noPipe keyId ->
  exists k v, Key keyPermanodeClaim (claimKeyArgs cl keyId) = Ok k /\ Val keyPermanodeClaim (claimValArgs cl) = Ok v /\
    kvClaim k v = Ok (Some cl).
Proof.
  intros (Hb & Hs & Hp & Hd & Ht) Hk. destruct cl as [br signer date ctype attr value pn target]. cbn [cl_BlobRef cl_Signer cl_Permanode cl_Date cl_Target cl_Type cl_Attr cl_Value] in *.
  eexists _, _. split; [by apply Key_ok|]. split; [by apply Val_ok|]. unfold kvClaim. rewrite !AppendSplitN_all. cbn [rbind].
  rewrite !splitOn_join by (done || noPipes). cbn [kt_name keyPermanodeClaim].
  rewrite !blobParse_String by done. cbn [mbind option_bind]. rewrite ParseRFC3339_format by done. cbn [mbind option_bind].
  rewrite !urld_urle. by subst target.
Qed.

(** A deletion row whose date is bad reads as the zero claim, and as good. *)
Example kvDeleted_bad_date :
  kvDeleted (gs "deleted|sha1-0beec7b5ea3f0fdbc95d0dd47f3c5bc275da8a33|rtx|sha1-0beec7b5ea3f0fdbc95d0dd47f3c5bc275da8a33") = Ok (Some zeroClaim).
Proof. vm_compute. reflexivity. Qed.

Lemma kvDeleted_row (br target : Ref) (date : gotime) : refWf br = true -> refWf target = true -> printable date ->
  exists k, Key keyDeleted [ARef target; AStr (formatTime3339 date); ARef br] = Ok k /\
    kvDeleted k = Ok (Some (MkClaim br zeroRef date (gs "delete") [] [] zeroRef target)).
Proof.
  intros Hb Ht Hd. eexists. split; [apply Key_ok; [|done]|].
  { cbn [partTexts keyParts keyDeleted partText asStr rbind]. rewrite looksLikeTime_format by done. cbn [rbind]. reflexivity. }
  unfold kvDeleted. rewrite splitOn_join by (done || noPipes). cbn [kt_name keyDeleted]. rewrite decide_True by done.
  rewrite !blobParse_String by done. rewrite unreverse_reverse. cbn [rbind]. by rewrite ParseRFC3339_format.
Qed.

Lemma kvSignerAttrValue_row (keyId attr value : gostr) (date : gotime) (br pn : Ref) :
  refWf br = true -> refWf pn = true -> printable date -> noPipe keyId ->
  exists k v, Key keySignerAttrValue [AStr keyId; AStr attr; AStr value; AStr (formatTime3339 date); ARef br] = Ok k /\
    Val keySignerAttrValue [ARef pn] = Ok v /\
    kvSignerAttrValue k v = Ok (Some (MkClaim br zeroRef date [] attr value pn zeroRef)).
Proof.
  intros Hb Hp Hd Hk. eexists _, _. split; [apply Key_ok; [|done]|].
  { cbn [partTexts keyParts keySignerAttrValue partText asStr rbind]. rewrite looksLikeTime_format by done. cbn [rbind]. reflexivity. }
  split; [by apply Val_ok|]. unfold kvSignerAttrValue. rewrite !splitOn_join by (done || noPipes). cbn [kt_name keySignerAttrValue].
  rewrite decide_True by done. rewrite unreverse_reverse. cbn [rbind]. rewrite ParseRFC3339_format by done. cbn [mbind option_bind].
  rewrite !blobParse_String by done. cbn [mbind option_bind]. by rewrite !urld_urle.
Qed.

Lemma kvPath_rows (keyId suffix : gostr) (date : gotime) (claim base target : Ref) (active : bool) :
  refWf claim = true -> refWf base = true -> refWf target = true -> printable date -> noPipe keyId ->
  let act := if active then gs "Y" else gs "N" in let p := MkPath claim base target date suffix in
  (exists k v, Key keyPathBackward [AStr keyId; ARef target; ARef claim] = Ok k /\
    Val keyPathBackward [AStr (formatTime3339 date); ARef base; AStr act; AStr suffix] = Ok v /\ kvPathBackward k v = Some (p, active)) /\
  (exists k v, Key keyPathForward [AStr keyId; ARef base; AStr suffix; AStr (formatTime3339 date); ARef claim] = Ok k /\
    Val keyPathForward [AStr act; ARef target] = Ok v /\ kvPathForward k v = Ok (Some (p, active))).
Proof.
  intros Hc Hb Ht Hd Hk. cbn zeta. split; eexists _, _.
  - split; [by apply Key_ok|]. split; [by apply Val_ok|]. unfold kvPathBackward. rewrite !splitOn_join by (done || noPipes). cbn [kt_name keyPathBackward].
    rewrite decide_True by done. rewrite !blobParse_String by done. cbn [mbind option_bind]. rewrite ParseRFC3339_format by done. cbn [mbind option_bind].
    rewrite urld_urle. by destruct active.
  - split; [apply Key_ok; [|done]|].
    { cbn [partTexts keyParts keyPathForward partText asStr rbind]. rewrite looksLikeTime_format by done. cbn [rbind]. reflexivity. }
    split; [by apply Val_ok|]. unfold kvPathForward. rewrite !splitOn_join by (done || noPipes). cbn [kt_name keyPathForward].
    rewrite decide_True by done. rewrite !blobParse_String by done. rewrite unreverse_reverse. cbn [rbind mbind option_bind].
    rewrite ParseRFC3339_format by done. cbn [mbind option_bind]. rewrite urld_urle. by destruct active.
Qed.

Lemma kvEdgeBackward_row (child parent br : Ref) :
  refWf child = true -> refWf parent = true -> refWf br = true ->
  exists k v, Key keyEdgeBackward [ARef child; ARef parent; ARef br] = Ok k /\
    Val keyEdgeBackward [AStr (gs "permanode"); AStr []] = Ok v /\
    kvEdgeBackward k v = Some (MkEdge parent (gs "permanode") [] zeroRef br).
Proof.
  intros Hc Hp Hb. eexists _, _. split; [by apply Key_ok|]. split; [by apply Val_ok|].
  unfold kvEdgeBackward. rewrite !splitOn_join by (done || noPipes). cbn [kt_name keyEdgeBackward]. rewrite decide_True by done.
  by rewrite !blobParse_String by done.
Qed.

(** * The property *)

(** C34. The row that is written for a claim on a permanode reads back as the
    claim, whatever bytes its type, attribute and value have, and the row
    written for a deletion as its target, its date and the deleting claim. *)
Theorem claim_rows_roundtrip (cl : Claim) (keyId : gostr) (target : Ref)
  (Hcl : rowClaim cl) (Hkey : noPipe keyId) (Htarget : refWf target = true) :
  (exists k v, Key keyPermanodeClaim (claimKeyArgs cl keyId) = Ok k /\ Val keyPermanodeClaim (claimValArgs cl) = Ok v /\
     kvClaim k v = Ok (Some cl)) /\
  (exists k, Key keyDeleted [ARef target; AStr (formatTime3339 (cl_Date cl)); ARef (cl_BlobRef cl)] = Ok k /\
     kvDeleted k = Ok (Some (MkClaim (cl_BlobRef cl) zeroRef (cl_Date cl) (gs "delete") [] [] zeroRef target))).
Proof. split; [by apply kvClaim_row|]. destruct Hcl as (Hb & _ & _ & Hd & _). by apply kvDeleted_row. Qed.

Definition rowRef (n : Z) : Ref := MkRef (Some (DSha1 (replicate 20 (zb n)))).

(** A value with the separator and a percent sign in it. *)
Lemma claim_rows_roundtrip_witness :
  let cl := MkClaim (rowRef 10) (rowRef 1) (nsPerDay * 735000) (gs "set-attribute") (gs "tag") (gs "a|b%7C c") (rowRef 2) zeroRef in
  Val keyPermanodeClaim (claimValArgs cl) = Ok (gs "set-attribute|tag|a%7Cb%257C+c|" ++ RefString (rowRef 1)) /\
  (exists k v, Key keyPermanodeClaim (claimKeyArgs cl (gs "F0EA")) = Ok k /\ Val keyPermanodeClaim (claimValArgs cl) = Ok v /\
     kvClaim k v = Ok (Some cl)) /\
  (exists k, Key keyDeleted [ARef (rowRef 2); AStr (formatTime3339 (cl_Date cl)); ARef (cl_BlobRef cl)] = Ok k /\
     kvDeleted k = Ok (Some (MkClaim (cl_BlobRef cl) zeroRef (cl_Date cl) (gs "delete") [] [] zeroRef (rowRef 2)))).
Proof.
  split; [vm_compute; reflexivity|]. apply claim_rows_roundtrip.
  - repeat (split; [vm_compute; reflexivity|]). split; [|reflexivity]. cbn [cl_Date]. unfold printable. split; [vm_compute; discriminate|vm_compute; reflexivity].
  - apply (bool_decide_unpack _). vm_compute. exact I.
  - vm_compute. reflexivity.
Defined.
