(* ===== verification/Corpus.v ===== *)
(** The in-memory index: pkg/index/corpus.go.

    [Corpus] is the record of its maps; interned strings and references are
    the values themselves.  Not followed: GPS coordinates (floating point),
    the statistics that are logged, [edge] and [edgeBack], which nothing
    fills.  A lock held for a whole method makes it one step.

    [sort.Sort] is not stable: [sortBy key l] is whatever sorted arrangement
    of [l] it makes. *)

From S2P Require Import Prelude Ref Strutil SortedKV Sha1 Storage Times Json Runes Schema IndexKeys.

Record FileInfo := MkFileInfo {
  fi_FileName : gostr; fi_Size : Z; fi_MIMEType : gostr; fi_Time : option gotime; fi_ModTime : option gotime
}.
Definition zeroFileInfo : FileInfo := MkFileInfo [] 0 [] None None.

Record deletion := MkDeletion { d_deleter : Ref; d_when : gotime }.
#[global] Instance deletion_eq_dec : EqDecision deletion.
Proof. solve_decision. Defined.

Record pnAndTime := MkPnTime { pt_pn : Ref; pt_t : gotime }.

(** [lazySortedPermanodes] *)
Record lazySorted := MkLazy { sortedCache : option (list pnAndTime); sortedCacheReversed : option (list pnAndTime); ofGen : Z }.
Definition newLazy : lazySorted := MkLazy None None 0.

Record latLong := MkLatLong { lat : float64; long : float64 }.
#[global] Instance latLong_eq_dec : EqDecision latLong.
Proof. solve_decision. Defined.

Record Corpus := MkCorpus {
  building : bool;
  gen : Z;
  cblobs : gmap Ref BlobMeta;
  sumBlobBytes : Z;
  camBlobs : gmap gostr (gmap Ref BlobMeta);
  keyId : gmap Ref gostr;
  files : gmap Ref FileInfo;
  permanodes : gmap Ref (list Claim);
  imageInfo : gmap Ref ImageInfo;
  fileWholeRef : gmap Ref Ref;
  claimBack : gmap Ref (list Claim);
  deletes : gmap Ref (list deletion);
  mediaTags : gmap Ref (gmap gostr gostr);
  gps : gmap Ref latLong;
  permanodesByTime : lazySorted;
  permanodesByModtime : lazySorted
}.

Definition newCorpus : Corpus := MkCorpus false 0 ∅ 0 ∅ ∅ ∅ ∅ ∅ ∅ ∅ ∅ ∅ ∅ newLazy newLazy.

(** The delete claims of a mutation: the claim's blob, its target and date. *)
Record deleteClaim := MkDelete { dc_Blob : Ref; dc_Target : Ref; dc_Date : gotime }.


Definition setClaims (c : Corpus) (pns : gmap Ref (list Claim)) (back : gmap Ref (list Claim)) : Corpus :=
  MkCorpus (building c) (gen c) (cblobs c) (sumBlobBytes c) (camBlobs c) (keyId c) (files c) pns (imageInfo c)
    (fileWholeRef c) back (deletes c) (mediaTags c) (gps c) (permanodesByTime c) (permanodesByModtime c).
Definition setDeletes (c : Corpus) (d : gmap Ref (list deletion)) : Corpus :=
  MkCorpus (building c) (gen c) (cblobs c) (sumBlobBytes c) (camBlobs c) (keyId c) (files c) (permanodes c) (imageInfo c)
    (fileWholeRef c) (claimBack c) d (mediaTags c) (gps c) (permanodesByTime c) (permanodesByModtime c).
Definition setFiles (c : Corpus) (f : gmap Ref FileInfo) : Corpus :=
  MkCorpus (building c) (gen c) (cblobs c) (sumBlobBytes c) (camBlobs c) (keyId c) f (permanodes c) (imageInfo c)
    (fileWholeRef c) (claimBack c) (deletes c) (mediaTags c) (gps c) (permanodesByTime c) (permanodesByModtime c).

(** * Reading *)

(** [IsDeletedLocked]: a deletion counts unless its claim is itself deleted. *)
Fixpoint IsDeletedLocked (fuel : nat) (dels : gmap Ref (list deletion)) (br : Ref) : res bool :=
  match fuel with
  | O => Panic "stack overflow"
  | S fuel =>
      (fix go (l : list deletion) : res bool :=
         match l with
         | [] => Ok false
         | v :: l => let? b := IsDeletedLocked fuel dels (d_deleter v) in if b then go l else Ok true
         end) (default [] (dels !! br))
  end.

(** More than the longest chain of deletions can have. *)
Definition deleteFuel (dels : gmap Ref (list deletion)) : nat := S (S (size dels)).
Definition IsDeleted (c : Corpus) (br : Ref) : res bool := IsDeletedLocked (deleteFuel (deletes c)) (deletes c) br.


(** The claims a loop does not skip: of [attr], not after [at_], of the
    signer if one is given. *)
Definition concerns (attr : gostr) (at_ : gotime) (signerFilter : Ref) (cl : Claim) : bool :=
  bool_decide (cl_Attr cl = attr) && negb (at_ <? cl_Date cl) &&
  negb (Valid signerFilter && negb (bool_decide (signerFilter = cl_Signer cl))).

Definition claimsOf (c : Corpus) (pn : Ref) : option (list Claim) := permanodes c !! pn.

(** [PermanodeAttrValueLocked]; [now] is the clock, for a zero [at_]. *)
Definition attrValueStep (attr : gostr) (at_ : gotime) (signerFilter : Ref) (v : gostr) (cl : Claim) : gostr :=
  if negb (concerns attr at_ signerFilter cl) then v
  else if decide (cl_Type cl = DelAttributeClaim) then
    if decide (cl_Value cl = []) then [] else if decide (v = cl_Value cl) then [] else v
  else if decide (cl_Type cl = SetAttributeClaim) then cl_Value cl
  else if decide (cl_Type cl = AddAttributeClaim) then (if decide (v = []) then cl_Value cl else v)
  else v.

Definition PermanodeAttrValueLocked (c : Corpus) (pn : Ref) (attr : gostr) (at_ now : gotime) (signerFilter : Ref) : gostr :=
  match claimsOf c pn with
  | None => []
  | Some claims => foldl (attrValueStep attr (if at_ =? 0 then now else at_) signerFilter) [] claims
  end.

(** The loop that removes a value in place: [copy(dst[i:], dst[i+1:])] and one
    less in length, staying at [i]. *)
Fixpoint removeLoop (fuel i : nat) (dst : list gostr) (val : gostr) : list gostr :=
  match fuel with
  | O => dst
  | S fuel =>
      match dst !! i with
      | None => dst
      | Some v => if decide (v = val) then removeLoop fuel i (take i dst ++ drop (S i) dst) val else removeLoop fuel (S i) dst val
      end
  end.

Definition attrValuesStep (attr : gostr) (at_ : gotime) (signerFilter : Ref) (dst : list gostr) (cl : Claim) : list gostr :=
  if negb (concerns attr at_ signerFilter cl) then dst
  else if decide (cl_Type cl = DelAttributeClaim) then
    if decide (cl_Value cl = []) then [] else removeLoop (S (length dst)) 0 dst (cl_Value cl)
  else if decide (cl_Type cl = SetAttributeClaim) then [cl_Value cl]
  else if decide (cl_Type cl = AddAttributeClaim) then dst ++ [cl_Value cl]
  else dst.

Definition AppendPermanodeAttrValuesLocked (c : Corpus) (dst : list gostr) (pn : Ref) (attr : gostr) (at_ now : gotime)
    (signerFilter : Ref) : res (list gostr) :=
  match dst with
  | _ :: _ => Panic "len(dst) must be 0"
  | [] =>
      match claimsOf c pn with
      | None => Ok []
      | Some claims => Ok (foldl (attrValuesStep attr (if at_ =? 0 then now else at_) signerFilter) [] claims)
      end
  end.

(** [PermanodeHasAttrValueLocked] *)
Fixpoint hasAttrValueLoop (attr val : gostr) (at_ : gotime) (claims : list Claim) (ret : bool) : bool :=
  match claims with
  | [] => ret
  | cl :: claims =>
      if negb (bool_decide (cl_Attr cl = attr)) then hasAttrValueLoop attr val at_ claims ret
      else if at_ <? cl_Date cl then ret
      else if decide (cl_Type cl = DelAttributeClaim) then
        hasAttrValueLoop attr val at_ claims (if bool_decide (cl_Value cl = []) || bool_decide (cl_Value cl = val) then false else ret)
      else if decide (cl_Type cl = SetAttributeClaim) then hasAttrValueLoop attr val at_ claims (bool_decide (cl_Value cl = val))
      else if decide (cl_Type cl = AddAttributeClaim) then
        if decide (cl_Value cl = val) then true else hasAttrValueLoop attr val at_ claims ret
      else hasAttrValueLoop attr val at_ claims ret
  end.

Definition PermanodeHasAttrValueLocked (c : Corpus) (pn : Ref) (at_ now : gotime) (attr val : gostr) : bool :=
  match claimsOf c pn with
  | None => false
  | Some claims => hasAttrValueLoop attr val (if at_ =? 0 then now else at_) claims false
  end.

(** [AppendClaims] *)
Fixpoint appendClaimsLoop (c : Corpus) (signerFilter : Ref) (attrFilter : gostr) (claims : list Claim) (dst : list Claim) : res (list Claim) :=
  match claims with
  | [] => Ok dst
  | cl :: claims =>
      let? deleted := IsDeleted c (cl_BlobRef cl) in
      if deleted || (Valid signerFilter && negb (bool_decide (cl_Signer cl = signerFilter))) ||
         (negb (bool_decide (attrFilter = [])) && negb (bool_decide (cl_Attr cl = attrFilter)))
      then appendClaimsLoop c signerFilter attrFilter claims dst
      else appendClaimsLoop c signerFilter attrFilter claims (dst ++ [cl])
  end.

Definition AppendClaims (c : Corpus) (dst : list Claim) (pn signerFilter : Ref) (attrFilter : gostr) : res (list Claim) :=
  match claimsOf c pn with None => Ok [] | Some claims => appendClaimsLoop c signerFilter attrFilter claims dst end.

(** [PermanodeModtimeLocked]: the latest date of a claim not deleted. *)
Definition modtimeStep (c : Corpus) (t : gotime) (cl : Claim) : res gotime :=
  let? deleted := IsDeleted c (cl_BlobRef cl) in
  Ok (if deleted then t else if t <? cl_Date cl then cl_Date cl else t).

Definition PermanodeModtimeLocked (c : Corpus) (pn : Ref) : res (option gotime) :=
  match claimsOf c pn with
  | None => Ok None
  | Some claims => let? t := rfold (modtimeStep c) claims 0 in Ok (if t =? 0 then None else Some t)
  end.

Definition pnTimeAttrLocked (c : Corpus) (pn : Ref) (attr : gostr) (now : gotime) : option gotime :=
  let v := PermanodeAttrValueLocked c pn attr 0 now zeroRef in
  if decide (v = []) then None else ParseRFC3339 v.

Definition camliContentStep (acc : Ref * gotime) (cl : Claim) : Ref * gotime :=
  if negb (bool_decide (cl_Attr cl = gs "camliContent")) then acc
  else if decide (cl_Type cl = DelAttributeClaim) then (zeroRef, 0)
  else if decide (cl_Type cl = SetAttributeClaim) then (default zeroRef (blobParse (cl_Value cl)), cl_Date cl)
  else acc.

Definition pnCamliContentLocked (c : Corpus) (pn : Ref) : option (Ref * gotime) :=
  match claimsOf c pn with
  | None => None
  | Some claims => let '(cc, t) := foldl camliContentStep (zeroRef, 0) claims in if Valid cc then Some (cc, t) else None
  end.

(** The names of pkg/schema/nodeattr. *)
Definition StartDate : gostr := gs "startDate".
Definition DateCreated : gostr := gs "dateCreated".
Definition DatePublished : gostr := gs "datePublished".
Definition DateModified : gostr := gs "dateModified".

(** [PermanodeTimeLocked]; its [ok] is one variable, which every look-up of an
    attribute assigns. *)
Definition timeAttr (c : Corpus) (pn : Ref) (attr : gostr) (now : gotime) : gotime * bool :=
  match pnTimeAttrLocked c pn attr now with Some t => (t, true) | None => (0, false) end.

Definition PermanodeTimeLocked (c : Corpus) (pn : Ref) (now : gotime) : option gotime :=
  let '(t, ok) := timeAttr c pn StartDate now in if ok then Some t else
  let '(t, ok) := timeAttr c pn DateCreated now in if ok then Some t else
  let '(ccRef, ccTime, ok) := match pnCamliContentLocked c pn with Some (r, t) => (r, t, true) | None => (zeroRef, 0, false) end in
  let fi := if ok : bool then default zeroFileInfo (files c !! ccRef) else zeroFileInfo in
  match fi_Time fi with
  | Some t => Some t
  | None =>
      let '(t, ok) := timeAttr c pn DatePublished now in if ok then Some t else
      let '(t, ok) := timeAttr c pn DateModified now in if ok then Some t else
      match fi_ModTime fi with
      | Some t => Some t
      | None => if ok : bool then Some ccTime else None
      end
  end.

Definition PermanodeAnyTimeLocked (c : Corpus) (pn : Ref) (now : gotime) : res (option gotime) :=
  match PermanodeTimeLocked c pn now with Some t => Ok (Some t) | None => PermanodeModtimeLocked c pn end.

Definition GetBlobMetaLocked (c : Corpus) (br : Ref) : res BlobMeta :=
  match cblobs c !! br with Some bm => Ok bm | None => Err ErrNotExist end.
Definition KeyId (c : Corpus) (signer : Ref) : res gostr :=
  match keyId c !! signer with Some v => Ok v | None => Err ErrNotFound end.
Definition GetFileInfoLocked (c : Corpus) (fileRef : Ref) : res FileInfo :=
  match files c !! fileRef with Some fi => Ok fi | None => Err ErrNotExist end.
Definition GetImageInfoLocked (c : Corpus) (fileRef : Ref) : res ImageInfo :=
  match imageInfo c !! fileRef with Some ii => Ok ii | None => Err ErrNotExist end.
Definition GetWholeRefLocked (c : Corpus) (fileRef : Ref) : option Ref := fileWholeRef c !! fileRef.
Definition FileLatLongLocked (c : Corpus) (fileRef : Ref) : option latLong := fileWholeRef c !! fileRef ≫= fun w => gps c !! w.

(** [PermanodeLatLongLocked]: a check-in is at its venue, which is a permanode
    that may be a check-in again; each call takes a frame of the stack. *)
Fixpoint PermanodeLatLongLocked (fuel : nat) (c : Corpus) (pn : Ref) (at_ now : gotime) : res (option latLong) :=
  match fuel with
  | O => Panic "stack overflow"
  | S fuel =>
      let value attr := PermanodeAttrValueLocked c pn attr at_ now zeroRef in
      let nodeType := value (gs "camliNodeType") in
      if decide (nodeType = []) then Ok None
      else if decide (nodeType = gs "foursquare.com:checkin") then
        match blobParse (value (gs "foursquareVenuePermanode")) with Some venuePn => PermanodeLatLongLocked fuel c venuePn at_ now | None => Ok None end
      else if bool_decide (nodeType ∈ [gs "foursquare.com:venue"; gs "twitter.com:tweet"]) then
        Ok (la ← ParseFloat (value (gs "latitude")); lo ← ParseFloat (value (gs "longitude")); Some (MkLatLong la lo))
      else Ok None
  end.

Definition GetMediaTagsLocked (c : Corpus) (fileRef : Ref) : res (gmap gostr gostr) :=
  match fileWholeRef c !! fileRef with
  | None => Err ErrNotExist
  | Some wholeRef => match mediaTags c !! wholeRef with None => Err ErrNotExist | Some tags => Ok tags end
  end.

(** [ForeachClaimBackLocked], threading what the callback keeps. *)
Fixpoint foreachBackLoop {A} (at_ : gotime) (fn : A -> Claim -> A * bool) (claims : list Claim) (acc : A) : A :=
  match claims with
  | [] => acc
  | cl :: claims =>
      if negb (at_ =? 0) && (at_ <? cl_Date cl) then foreachBackLoop at_ fn claims acc
      else let '(acc, more) := fn acc cl in if more then foreachBackLoop at_ fn claims acc else acc
  end.
Definition ForeachClaimBackLocked {A} (c : Corpus) (value : Ref) (at_ : gotime) (fn : A -> Claim -> A * bool) (acc : A) : A :=
  foreachBackLoop at_ fn (default [] (claimBack c !! value)) acc.

(** * Permanodes by time *)

(** [byPermanodeTime]; equal only to itself on well-formed references. *)
Definition pnLess (a b : pnAndTime) : bool :=
  if pt_t a =? pt_t b then Less (pt_pn a) (pt_pn b) else pt_t a <? pt_t b.
Definition pnLe (a b : pnAndTime) : Prop := pnLess b a = false.
#[global] Instance pnLe_dec : RelDecision pnLe.
Proof. intros a b. unfold pnLe. apply _. Defined.

Definition reversedCopy {A} (l : list A) : list A := rev l.

Section corpus.
Context (sortBy : forall A, (A -> gotime) -> list A -> list A).

(** The permanodes that are not deleted and have a time. *)
Fixpoint timedPns (pnTime : Ref -> res (option gotime)) (deleted : Ref -> res bool) (pns : list Ref) : res (list pnAndTime) :=
  match pns with
  | [] => Ok []
  | pn :: pns =>
      let? d := deleted pn in
      if d then timedPns pnTime deleted pns
      else
        let? t := pnTime pn in
        let? rest := timedPns pnTime deleted pns in
        Ok (match t with Some t => MkPnTime pn t :: rest | None => rest end)
  end.

(** [sorted]: the result and the caches. *)
Definition lazyRebuild (c : Corpus) (pnTime : Ref -> res (option gotime)) (reverse : bool) : res (list pnAndTime * lazySorted) :=
  let? pns := timedPns pnTime (IsDeleted c) (map_to_list (permanodes c)).*1 in
  let up := merge_sort pnLe pns in
  if reverse then Ok (rev up, MkLazy None (Some (rev up)) (gen c)) else Ok (up, MkLazy (Some up) None (gen c)).

Definition lazySortedBy (c : Corpus) (pnTime : Ref -> res (option gotime)) (lsp : lazySorted) (reverse : bool) : res (list pnAndTime * lazySorted) :=
  if ofGen lsp =? gen c then
    if reverse then
      match sortedCacheReversed lsp, sortedCache lsp with
      | Some l, _ => Ok (l, lsp)
      | None, Some l => Ok (reversedCopy l, MkLazy (Some l) (Some (reversedCopy l)) (ofGen lsp))
      | None, None => lazyRebuild c pnTime reverse
      end
    else
      match sortedCache lsp, sortedCacheReversed lsp with
      | Some l, _ => Ok (l, lsp)
      | None, Some l => Ok (reversedCopy l, MkLazy (Some (reversedCopy l)) (Some l) (ofGen lsp))
      | None, None => lazyRebuild c pnTime reverse
      end
  else lazyRebuild c pnTime reverse.

Definition setLazy (c : Corpus) (byTime byModtime : lazySorted) : Corpus :=
  MkCorpus (building c) (gen c) (cblobs c) (sumBlobBytes c) (camBlobs c) (keyId c) (files c) (permanodes c) (imageInfo c)
    (fileWholeRef c) (claimBack c) (deletes c) (mediaTags c) (gps c) byTime byModtime.

(** [sendPermanodes]: what is sent, and the error. *)
Definition sendPermanodes (c : Corpus) (ctx : ctx) (pns : list pnAndTime) : list BlobMeta * res unit :=
  sendAll ctx (omap (fun p => cblobs c !! pt_pn p) pns).

Definition EnumeratePermanodesLastModifiedLocked (c : Corpus) (ctx : ctx) : Corpus * list BlobMeta * res unit :=
  match lazySortedBy c (PermanodeModtimeLocked c) (permanodesByModtime c) true with
  | Ok (pns, lsp) => let '(out, r) := sendPermanodes c ctx pns in (setLazy c (permanodesByTime c) lsp, out, r)
  | Err e => (c, [], Err e)
  | Panic p => (c, [], Panic p)
  | Blocked => (c, [], Blocked)
  end.

Definition EnumeratePermanodesCreatedLocked (c : Corpus) (now : gotime) (ctx : ctx) (newestFirst : bool) : Corpus * list BlobMeta * res unit :=
  match lazySortedBy c (fun pn => PermanodeAnyTimeLocked c pn now) (permanodesByTime c) newestFirst with
  | Ok (pns, lsp) => let '(out, r) := sendPermanodes c ctx pns in (setLazy c lsp (permanodesByModtime c), out, r)
  | Err e => (c, [], Err e)
  | Panic p => (c, [], Panic p)
  | Blocked => (c, [], Blocked)
  end.

(** [EnumerateBlobMetaLocked] and [EnumerateCamliBlobsLocked], in the order
    [arrange] in which the maps happen to be visited. *)
Definition EnumerateBlobMetaLocked (arrange : list BlobMeta -> list BlobMeta) (c : Corpus) (ctx : ctx) : list BlobMeta * res unit :=
  sendAll ctx (arrange (map_to_list (cblobs c)).*2).
Definition EnumerateCamliBlobsLocked (arrange : list BlobMeta -> list BlobMeta) (c : Corpus) (ctx : ctx) (camType : gostr) : list BlobMeta * res unit :=
  sendAll ctx (arrange (concat (map (fun p => if bool_decide (camType = []) || bool_decide (camType = p.1) then (map_to_list p.2).*2 else [])
    (map_to_list (camBlobs c))))).
End corpus.

(** * Values of attributes *)

(** The in-place loop drops every occurrence. *)
Lemma removeLoop_filter fuel i dst val : (length dst < fuel + i)%nat -> (i <= length dst)%nat ->
  removeLoop fuel i dst val = take i dst ++ filter (fun v => v ≠ val) (drop i dst).
Proof.
  revert i dst. induction fuel as [|fuel IH]; intros i dst Hf Hi; [lia|]. cbn [removeLoop].
  destruct (dst !! i) as [v|] eqn:E.
  - pose proof (lookup_lt_Some _ _ _ E) as Hlt. rewrite (drop_S _ _ _ E), filter_cons. case_decide as Hv.
    + subst v. rewrite decide_False by (intros H; by apply H).
      rewrite IH by (rewrite ?length_app, ?length_take, ?length_drop; lia).
      rewrite take_app_le by (rewrite length_take; lia). rewrite take_take, Nat.min_id. f_equal. f_equal.
      rewrite drop_app_ge by (rewrite length_take; lia). rewrite length_take, (Nat.min_l i) by lia.
      by rewrite Nat.sub_diag, drop_0.
    + rewrite decide_True by done. rewrite IH by lia. rewrite (take_S_r _ _ _ E), <- app_assoc. done.
  - apply lookup_ge_None in E. rewrite drop_ge, take_ge by lia. by rewrite filter_nil, app_nil_r.
Qed.

Lemma removeLoop_all dst val : removeLoop (S (length dst)) 0 dst val = filter (fun v => v ≠ val) dst.
Proof. rewrite removeLoop_filter by lia. by rewrite take_0, drop_0. Qed.

(** A claim that gives [v], and one that takes it away. *)
Definition addsValue (v : gostr) (cl : Claim) : Prop :=
  cl_Value cl = v /\ (cl_Type cl = SetAttributeClaim \/ cl_Type cl = AddAttributeClaim).
Definition erasesValue (v : gostr) (cl : Claim) : Prop :=
  cl_Type cl = DelAttributeClaim /\ (cl_Value cl = [] \/ cl_Value cl = v) \/ cl_Type cl = SetAttributeClaim /\ cl_Value cl ≠ v.

(** [v] is given by a claim that counts and that no later one takes away. *)
Definition holdsValue (counts : Claim -> bool) (v : gostr) (claims : list Claim) : Prop :=
  exists l1 cl l2, claims = l1 ++ cl :: l2 /\ counts cl = true /\ addsValue v cl /\
    Forall (fun cl' => counts cl' = true -> ~ erasesValue v cl') l2.

Lemma holdsValue_nil counts v : ~ holdsValue counts v [].
Proof. intros (l1 & cl & l2 & H & _). by destruct l1. Qed.

Lemma holdsValue_snoc counts v claims cl : holdsValue counts v (claims ++ [cl]) <->
  (counts cl = true /\ addsValue v cl) \/ (holdsValue counts v claims /\ (counts cl = true -> ~ erasesValue v cl)).
Proof.
  split.
  - intros (l1 & c & l2 & H & Hc & Ha & Hl). destruct l2 as [|x l2 _] using rev_ind.
    + apply app_inj_tail in H as [-> ->]. by left.
    + rewrite app_comm_cons, app_assoc in H. apply app_inj_tail in H as [-> ->].
      rewrite Forall_app, Forall_singleton in Hl. right. split; [|tauto]. exists l1, c, l2. tauto.
  - intros [[Hc Ha]|[(l1 & c & l2 & -> & Hc & Ha & Hl) He]].
    + exists claims, cl, []. auto.
    + exists l1, c, (l2 ++ [cl]). rewrite <- app_assoc. split; [done|]. split; [done|]. split; [done|].
      rewrite Forall_app, Forall_singleton. auto.
Qed.

Lemma addsValue_not_erases v cl : addsValue v cl -> ~ erasesValue v cl.
Proof. intros [Hv [Ht|Ht]] [[Ht' _]|[_ Hne]]; [|done| |done]; rewrite Ht in Ht'; discriminate. Qed.

Lemma attrValuesStep_in attr at_ sf dst cl v : v ∈ attrValuesStep attr at_ sf dst cl <->
  (concerns attr at_ sf cl = true /\ addsValue v cl) \/ (v ∈ dst /\ (concerns attr at_ sf cl = true -> ~ erasesValue v cl)).
Proof.
  unfold attrValuesStep. destruct (concerns attr at_ sf cl) eqn:Ec; cbn [negb]; [|naive_solver].
  unfold addsValue, erasesValue.
  assert (DelAttributeClaim ≠ SetAttributeClaim /\ DelAttributeClaim ≠ AddAttributeClaim /\ SetAttributeClaim ≠ AddAttributeClaim)
    as (D1 & D2 & D3) by (split; [|split]; discriminate).
  destruct (decide (cl_Type cl = DelAttributeClaim)) as [Hd|Hd].
  - case_decide as Hv; [rewrite elem_of_nil; intuition congruence|].
    rewrite removeLoop_all, list_elem_of_filter. intuition congruence.
  - case_decide as Hs.
    + rewrite list_elem_of_singleton. destruct (decide (v = cl_Value cl)); intuition congruence.
    + case_decide as Ha; [rewrite elem_of_app, list_elem_of_singleton|]; [intuition congruence|].
      split; [|intros [(_ & _ & [?|?])|[H _]]; done]. intros H. right. split; [done|]. by intros _ [[? _]|[? _]].
Qed.

Lemma attrValues_holds attr at_ sf claims v :
  v ∈ foldl (attrValuesStep attr at_ sf) [] claims <-> holdsValue (concerns attr at_ sf) v claims.
Proof.
  induction claims as [|cl claims IH] using rev_ind; [cbn; rewrite elem_of_nil; split; [done|apply holdsValue_nil]|].
  rewrite foldl_snoc, attrValuesStep_in, holdsValue_snoc, IH. done.
Qed.

(** [PermanodeHasAttrValueLocked] looks at the claims of the attribute up to
    the first that is too late. *)
Definition hasCounts (attr : gostr) (at_ : gotime) (cl : Claim) : bool := bool_decide (cl_Attr cl = attr) && negb (at_ <? cl_Date cl).

(** An added [v] is found at once; else what counts is whether the last word
    of a claim about [v] gave it. *)
Definition addedOrHeld (counts : Claim -> bool) (v : gostr) (claims : list Claim) (ret : bool) : Prop :=
  (exists cl, cl ∈ claims /\ counts cl = true /\ cl_Type cl = AddAttributeClaim /\ cl_Value cl = v) \/
  holdsValue counts v claims \/ (ret = true /\ Forall (fun cl => counts cl = true -> ~ erasesValue v cl) claims).

Lemma holdsValue_cons counts v cl claims : holdsValue counts v (cl :: claims) <->
  holdsValue counts v claims \/
  (counts cl = true /\ addsValue v cl /\ Forall (fun c => counts c = true -> ~ erasesValue v c) claims).
Proof.
  split.
  - intros (l1 & c & l2 & H & Hc & Ha & Hl). destruct l1 as [|x l1]; cbn [app] in H; injection H as H1 H2; subst; [by right|].
    left. exists l1, c, l2. auto.
  - intros [(l1 & c & l2 & -> & H)|H]; [exists (cl :: l1), c, l2; auto|exists [], cl, claims; auto].
Qed.

Definition datesSorted (claims : list Claim) : Prop := StronglySorted Z.le (map cl_Date claims).

Lemma addedOrHeld_cons counts v cl claims ret : addedOrHeld counts v (cl :: claims) ret <->
  (counts cl = true /\ cl_Type cl = AddAttributeClaim /\ cl_Value cl = v) \/
  (if counts cl then addedOrHeld counts v claims true /\ addsValue v cl \/
     (~ addsValue v cl /\ ~ erasesValue v cl /\ addedOrHeld counts v claims ret) \/ (erasesValue v cl /\ addedOrHeld counts v claims false)
   else addedOrHeld counts v claims ret).
Proof.
  unfold addedOrHeld. rewrite holdsValue_cons, Forall_cons. setoid_rewrite elem_of_cons.
  pose proof (addsValue_not_erases v cl) as Hn. assert (Da : Decision (addsValue v cl)) by (unfold addsValue; apply _).
  assert (De : Decision (erasesValue v cl)) by (unfold erasesValue; apply _).
  destruct (counts cl) eqn:Ec.
  - destruct (decide (addsValue v cl)), (decide (erasesValue v cl)); naive_solver.
  - naive_solver.
Qed.
Lemma hasAttrValueLoop_holds attr val at_ claims ret : datesSorted claims ->
  hasAttrValueLoop attr val at_ claims ret = true <-> addedOrHeld (hasCounts attr at_) val claims ret.
Proof.
  intros Hs. revert ret. induction claims as [|cl claims IH]; intros ret.
  { simpl. unfold addedOrHeld. split; [auto|]. intros [(cl & H & _)|[H|[H _]]]; [by apply elem_of_nil in H|by apply holdsValue_nil in H|done]. }
  unfold datesSorted in Hs. cbn [map] in Hs. apply StronglySorted_inv in Hs as [Hs Hle]. specialize (IH Hs).
  cbn [hasAttrValueLoop]. rewrite addedOrHeld_cons. unfold hasCounts at 1 2 3.
  destruct (bool_decide (cl_Attr cl = attr)) eqn:Ea; cbn [negb andb]; [|rewrite IH; naive_solver].
  destruct (at_ <? cl_Date cl) eqn:Et; cbn [negb].
  - assert (Hall : forall c, c ∈ cl :: claims -> hasCounts attr at_ c = false).
    { intros c Hc. unfold hasCounts. replace (at_ <? cl_Date c) with true; [by rewrite andb_false_r|].
      symmetry. apply Z.ltb_lt. apply Z.ltb_lt in Et. apply elem_of_cons in Hc as [->|Hc]; [done|].
      rewrite Forall_forall in Hle. pose proof (Hle (cl_Date c) (list_elem_of_fmap_2 cl_Date _ _ Hc)). lia. }
    split.
    + intros ->. right. right. right. split; [done|]. apply Forall_forall. intros c Hc. rewrite Hall by (by right). done.
    + intros [[? _]|[(c & Hc & Hcc & _)|[(l1 & c & l2 & -> & Hcc & _)|[-> _]]]]; [done| | |done];
        rewrite Hall in Hcc by set_solver; done.
  - assert (Hadd : addsValue val cl -> cl_Type cl ≠ DelAttributeClaim) by (intros [_ [H|H]]; rewrite H; discriminate).
    unfold addsValue, erasesValue in *.
    destruct (decide (cl_Type cl = DelAttributeClaim)) as [Hd|Hd].
    + rewrite IH. assert (cl_Type cl ≠ SetAttributeClaim) by (rewrite Hd; discriminate).
      assert (cl_Type cl ≠ AddAttributeClaim) by (rewrite Hd; discriminate).
      destruct (bool_decide (cl_Value cl = [])) eqn:E1, (bool_decide (cl_Value cl = val)) eqn:E2;
        repeat match goal with
          | H : bool_decide _ = true |- _ => apply bool_decide_eq_true in H
          | H : bool_decide _ = false |- _ => apply bool_decide_eq_false in H end; cbn [orb]; naive_solver.
    + destruct (decide (cl_Type cl = SetAttributeClaim)) as [Hset|Hset].
      * rewrite IH. assert (cl_Type cl ≠ AddAttributeClaim) by (rewrite Hset; discriminate).
        destruct (bool_decide (cl_Value cl = val)) eqn:E2;
        repeat match goal with
          | H : bool_decide _ = true |- _ => apply bool_decide_eq_true in H
          | H : bool_decide _ = false |- _ => apply bool_decide_eq_false in H end; naive_solver.
      * destruct (decide (cl_Type cl = AddAttributeClaim)) as [Hadda|Hadda]; [|rewrite IH; naive_solver].
        destruct (decide (cl_Value cl = val)); [|rewrite IH]; naive_solver.
Qed.

Lemma concerns_zero attr at_ cl : concerns attr at_ zeroRef cl = hasCounts attr at_ cl.
Proof. unfold concerns, hasCounts. change (Valid zeroRef) with false. cbn [andb negb]. by rewrite andb_true_r. Qed.

Lemma addedOrHeld_iff attr at_ val claims :
  addedOrHeld (hasCounts attr at_) val claims false <->
  val ∈ foldl (attrValuesStep attr at_ zeroRef) [] claims \/
  (exists cl, cl ∈ claims /\ concerns attr at_ zeroRef cl = true /\ cl_Type cl = AddAttributeClaim /\ cl_Value cl = val).
Proof.
  rewrite attrValues_holds. unfold addedOrHeld, holdsValue. setoid_rewrite concerns_zero. naive_solver.
Qed.

(** The single value is one of the values. *)
Lemma attrValue_among attr at_ sf claims :
  let v := foldl (attrValueStep attr at_ sf) [] claims in v = [] \/ v ∈ foldl (attrValuesStep attr at_ sf) [] claims.
Proof.
  induction claims as [|cl claims IH] using rev_ind; [by left|]. cbv zeta in *. rewrite !foldl_snoc.
  set (v := foldl (attrValueStep attr at_ sf) [] claims) in *. set (vs := foldl (attrValuesStep attr at_ sf) [] claims) in *.
  unfold attrValueStep, attrValuesStep. destruct (concerns attr at_ sf cl); cbn [negb]; [|done].
  destruct (decide (cl_Type cl = DelAttributeClaim)).
  - destruct (decide (cl_Value cl = [])); [by left|]. destruct (decide (v = cl_Value cl)) as [|Hne]; [by left|].
    destruct IH as [|IH]; [by left|right]. rewrite removeLoop_all, list_elem_of_filter. done.
  - destruct (decide (cl_Type cl = SetAttributeClaim)); [right; apply list_elem_of_singleton; done|].
    destruct (decide (cl_Type cl = AddAttributeClaim)); [|done].
    destruct (decide (v = [])); [right; apply elem_of_app; right; by apply list_elem_of_singleton|].
    destruct IH as [|IH]; [by left|right]. apply elem_of_app. by left.
Qed.

(** * Deletions *)

(** A deletion refers to an older blob, so deletions form no cycle. *)
Definition acyclic (dels : gmap Ref (list deletion)) (rank : Ref -> nat) : Prop :=
  forall br l d, dels !! br = Some l -> d ∈ l -> (rank (d_deleter d) < rank br)%nat.

(** The keys no higher than [br]. *)
Definition below {A : Type} (rank : Ref -> nat) (m : gmap Ref A) (br : Ref) : gmap Ref A :=
  filter (fun p : Ref * A => (rank p.1 <= rank br)%nat) m.

Lemma below_lt {A : Type} rank (m : gmap Ref A) br x a : m !! br = Some a -> (rank x < rank br)%nat ->
  (size (below rank m x) < size (below rank m br))%nat.
Proof.
  intros Hl Hr. apply map_subset_size, map_subset_alt. split.
  - apply map_filter_subseteq_ext. intros k l' _. cbn. lia.
  - exists br. split.
    + apply map_lookup_filter_None. right. intros l' _. cbn. lia.
    + exists a. by apply map_lookup_filter_Some.
Qed.

Lemma below_size rank dels br l d : acyclic dels rank -> dels !! br = Some l -> d ∈ l ->
  (size (below rank dels (d_deleter d)) < size (below rank dels br))%nat.
Proof. intros Ha Hl Hd. eapply below_lt; [exact Hl|by eapply Ha]. Qed.

(** The code's loop over the deletions of a blob. *)
Definition anyStands (isDel : Ref -> res bool) : list deletion -> res bool :=
  fix go l := match l with
              | [] => Ok false
              | v :: l => let? b := isDel (d_deleter v) in if b then go l else Ok true
              end.

Lemma IsDeletedLocked_S fuel dels br :
  IsDeletedLocked (S fuel) dels br = anyStands (IsDeletedLocked fuel dels) (default [] (dels !! br)).
Proof. reflexivity. Qed.

Lemma anyStands_ext f g l : (forall d, d ∈ l -> f (d_deleter d) = g (d_deleter d)) -> anyStands f l = anyStands g l.
Proof.
  induction l as [|d l IH]; intros H; [done|]. cbn. rewrite (H d) by set_solver.
  destruct (g (d_deleter d)) as [[]|e|p|]; [|done..]. cbn. apply IH. set_solver.
Qed.

Lemma anyStands_ok f l : (forall d, d ∈ l -> exists b, f (d_deleter d) = Ok b) ->
  exists b, anyStands f l = Ok b /\ (b = true <-> exists d, d ∈ l /\ f (d_deleter d) = Ok false).
Proof.
  induction l as [|d l IH]; intros H.
  { exists false. split; [done|]. split; [done|]. by intros (d & Hd%elem_of_nil & _). }
  destruct (H d) as [b Eb]; [set_solver|]. destruct IH as (b' & E' & Hb'); [set_solver|]. cbn. rewrite Eb. cbn.
  destruct b.
  - exists b'. split; [done|]. rewrite Hb'. split; [intros (x & Hx & E); exists x; set_solver|].
    intros (x & Hx & E). apply elem_of_cons in Hx as [->|Hx]; [congruence|by exists x].
  - exists true. split; [done|]. split; [intros _; exists d; set_solver|done].
Qed.

Lemma IsDeletedLocked_total dels rank br fuel : acyclic dels rank -> (S (size (below rank dels br)) < fuel)%nat ->
  exists b, IsDeletedLocked fuel dels br = Ok b /\ forall fuel', (S (size (below rank dels br)) < fuel')%nat -> IsDeletedLocked fuel' dels br = Ok b.
Proof.
  intros Ha. revert br. induction fuel as [|fuel IH]; intros br Hf; [lia|].
  set (l := default [] (dels !! br)).
  assert (Hin : forall d, d ∈ l -> dels !! br = Some l).
  { intros d Hd. subst l. destruct (dels !! br); [done|by apply elem_of_nil in Hd]. }
  assert (Hl : forall d, d ∈ l -> exists b, IsDeletedLocked fuel dels (d_deleter d) = Ok b /\
            forall fuel', (S (size (below rank dels (d_deleter d))) < fuel')%nat -> IsDeletedLocked fuel' dels (d_deleter d) = Ok b).
  { intros d Hd. apply IH. pose proof (below_size rank dels br l d Ha (Hin d Hd) Hd). lia. }
  destruct (anyStands_ok (IsDeletedLocked fuel dels) l) as (b & Eb & _).
  { intros d Hd. destruct (Hl d Hd) as (b & Eb & _). by exists b. }
  exists b. split; [done|]. intros [|fuel'] Hf'; [lia|]. rewrite IsDeletedLocked_S, <- Eb. apply anyStands_ext.
  intros d Hd. destruct (Hl d Hd) as (b' & -> & Hall). apply Hall.
  pose proof (below_size rank dels br l d Ha (Hin d Hd) Hd). lia.
Qed.

Lemma below_size_le {A : Type} rank (dels : gmap Ref A) br : (size (below rank dels br) <= size dels)%nat.
Proof. apply map_subseteq_size, map_filter_subseteq. Qed.

(** Deleted: by a claim that is not itself deleted. *)
Lemma IsDeleted_ok dels rank br : acyclic dels rank ->
  exists b, IsDeletedLocked (deleteFuel dels) dels br = Ok b /\
    (b = true <-> exists d, d ∈ default [] (dels !! br) /\ IsDeletedLocked (deleteFuel dels) dels (d_deleter d) = Ok false).
Proof.
  intros Ha. unfold deleteFuel. pose proof (below_size_le rank dels br) as Hle.
  assert (Hd : forall d, d ∈ default [] (dels !! br) -> exists b, IsDeletedLocked (S (size dels)) dels (d_deleter d) = Ok b /\
     IsDeletedLocked (S (S (size dels))) dels (d_deleter d) = Ok b).
  { intros d Hd. destruct (dels !! br) as [l|] eqn:El; [|by apply elem_of_nil in Hd].
    pose proof (below_size rank dels br l d Ha El Hd).
    destruct (IsDeletedLocked_total dels rank (d_deleter d) (S (size dels)) Ha) as (b & Eb & Hall); [lia|].
    exists b. split; [done|]. apply Hall. lia. }
  rewrite IsDeletedLocked_S.
  destruct (anyStands_ok (IsDeletedLocked (S (size dels)) dels) (default [] (dels !! br))) as (b & Eb & Hb).
  { intros d H. destruct (Hd d H) as (b & E & _). by exists b. }
  exists b. split; [done|]. rewrite Hb. split; intros (d & H & E); exists d; (split; [done|]); destruct (Hd d H) as (b' & E1 & E2); congruence.
Qed.

(** * The cached orders *)

#[global] Instance pnLe_total : Total pnLe.
Proof.
  intros a b. unfold pnLe, pnLess. rewrite (Z.eqb_sym (pt_t b)). destruct (Z.eqb_spec (pt_t a) (pt_t b)).
  - apply refLe_total.
  - destruct (Z.ltb_spec (pt_t a) (pt_t b)); [left; apply Z.ltb_ge; lia|right; reflexivity].
Qed.

#[global] Instance pnLe_trans : Transitive pnLe.
Proof.
  intros a b c. unfold pnLe, pnLess.
  destruct (Z.eqb_spec (pt_t b) (pt_t a)), (Z.eqb_spec (pt_t c) (pt_t b)), (Z.eqb_spec (pt_t c) (pt_t a)); try lia; [apply refLe_trans|rewrite ?Z.ltb_ge; lia..].
Qed.

Lemma pnLe_time a b : pnLe a b -> pt_t a <= pt_t b.
Proof. unfold pnLe, pnLess. destruct (Z.eqb_spec (pt_t b) (pt_t a)); [lia|]. rewrite Z.ltb_ge. lia. Qed.

Lemma timedPns_spec pnTime deleted pns l : timedPns pnTime deleted pns = Ok l ->
  forall p, p ∈ l <-> pt_pn p ∈ pns /\ deleted (pt_pn p) = Ok false /\ pnTime (pt_pn p) = Ok (Some (pt_t p)).
Proof.
  revert l. induction pns as [|pn pns IH]; intros l; cbn [timedPns].
  { intros [= <-] p. rewrite !elem_of_nil. tauto. }
  intros (d & Hd & H)%rbind_Ok p. destruct d.
  { rewrite (IH _ H). rewrite elem_of_cons. split; [tauto|]. intros [[->|Hp] [E T]]; [congruence|tauto]. }
  apply rbind_Ok in H as (t & Ht & H). apply rbind_Ok in H as (rest & Hr & [= <-]). specialize (IH _ Hr p).
  destruct t as [t|]; rewrite elem_of_cons.
  - rewrite elem_of_cons, IH. split.
    + intros [->|?]; [cbn; auto|tauto].
    + intros [[Hp|Hp] [E T]]; [left|tauto]. destruct p as [q tq]; cbn in *. subst q. congruence.
  - rewrite IH. split; [tauto|]. intros [[Hp|Hp] [E T]]; [|tauto]. rewrite Hp in T. congruence.
Qed.

(** What the caches stand for. *)
Definition sortedPns (c : Corpus) (pnTime : Ref -> res (option gotime)) : res (list pnAndTime) :=
  let? pns := timedPns pnTime (IsDeleted c) (map_to_list (permanodes c)).*1 in Ok (merge_sort pnLe pns).

Definition validLazy (c : Corpus) (pnTime : Ref -> res (option gotime)) (lsp : lazySorted) : Prop :=
  ofGen lsp = gen c ->
  (forall l, sortedCache lsp = Some l -> sortedPns c pnTime = Ok l) /\
  (forall l, sortedCacheReversed lsp = Some l -> sortedPns c pnTime = Ok (rev l)).

Lemma validLazy_mk c pnTime up a b : sortedPns c pnTime = Ok up -> a = None \/ a = Some up -> b = None \/ b = Some (rev up) ->
  forall g, validLazy c pnTime (MkLazy a b g).
Proof.
  intros E Ha Hb g _. cbn. split; intros l H.
  - destruct Ha as [->| ->]; congruence.
  - destruct Hb as [->| ->]; [done|]. injection H as <-. by rewrite rev_involutive.
Qed.

(** Whichever cache serves it, the list asked for is the sorted one, and the
    caches that are left stand for the same order. *)
Lemma lazySortedBy_ok c pnTime lsp reverse up : validLazy c pnTime lsp -> sortedPns c pnTime = Ok up ->
  exists lsp', lazySortedBy c pnTime lsp reverse = Ok (if reverse then rev up else up, lsp') /\
    validLazy c pnTime lsp' /\ ofGen lsp' = gen c.
Proof.
  intros Hv E.
  assert (Hre : exists lsp', lazyRebuild c pnTime reverse = Ok (if reverse then rev up else up, lsp') /\
                  validLazy c pnTime lsp' /\ ofGen lsp' = gen c).
  { pose proof E as E'. unfold sortedPns in E'. apply rbind_Ok in E' as (pns & Ep & [= <-]). unfold lazyRebuild. rewrite Ep. cbn.
    destruct reverse; eexists; (split; [reflexivity|]); (split; [|done]); (eapply validLazy_mk; [exact E|auto..]). }
  unfold lazySortedBy. destruct (Z.eqb_spec (ofGen lsp) (gen c)) as [Hg|]; [|exact Hre].
  destruct (Hv Hg) as [H1 H2]. destruct lsp as [sc sr g]; cbn in *. unfold reversedCopy.
  destruct reverse, sc as [l1|], sr as [l2|]; try exact Hre; eexists; (split; [f_equal|]);
    try (specialize (H1 _ eq_refl)); try (specialize (H2 _ eq_refl)).
  - f_equal. replace up with (rev l2) by congruence. by rewrite rev_involutive.
  - split; [|done]. eapply validLazy_mk; [exact E|right; f_equal; congruence|right; f_equal].
    replace up with (rev l2) by congruence. by rewrite rev_involutive.
  - f_equal. congruence.
  - split; [|done]. eapply validLazy_mk; [exact E|right; f_equal; congruence|right; do 2 f_equal; congruence].
  - f_equal. replace up with (rev l2) by congruence. by rewrite rev_involutive.
  - split; [|done]. eapply validLazy_mk; [exact E|by left|right; f_equal].
    replace up with (rev l2) by congruence. by rewrite rev_involutive.
  - f_equal. congruence.
  - split; [|done]. eapply validLazy_mk; [exact E|right; f_equal; congruence|right; f_equal].
    replace up with (rev l2) by congruence. by rewrite rev_involutive.
  - f_equal. congruence.
  - split; [|done]. eapply validLazy_mk; [exact E|right; f_equal; congruence|by left].
  - f_equal. congruence.
  - split; [|done]. eapply validLazy_mk; [exact E|right; f_equal; congruence|right; f_equal].
    replace up with (rev l2) by congruence. by rewrite rev_involutive.
Qed.

(** * The properties *)

(** C23. The values of an attribute: exactly those that some claim of the
    attribute and signer, not after the time asked for, sets or adds and that
    no later such claim deletes or replaces; and the single value, if there is
    one, is among them. *)
Theorem PermanodeAttrValues_spec (c : Corpus) (pn : Ref) (attr : gostr) (at_ now : gotime) (sf : Ref) :
  exists vs, AppendPermanodeAttrValuesLocked c [] pn attr at_ now sf = Ok vs /\
    (forall v, v ∈ vs <-> exists claims, claimsOf c pn = Some claims /\
       holdsValue (concerns attr (if at_ =? 0 then now else at_) sf) v claims) /\
    (let v := PermanodeAttrValueLocked c pn attr at_ now sf in v = [] \/ v ∈ vs).
Proof.
  unfold AppendPermanodeAttrValuesLocked, PermanodeAttrValueLocked. destruct (claimsOf c pn) as [claims|].
  - eexists. split; [reflexivity|]. split; [|apply attrValue_among].
    intros v. rewrite attrValues_holds. split; [intros H; by exists claims|]. by intros (? & [= <-] & H).
  - exists []. split; [done|]. split; [|by left]. intros v. rewrite elem_of_nil. split; [done|]. by intros (? & ? & _).
Qed.

(** [PermanodeHasAttrValue] finds every value the attribute has, and also
    any value that was ever added, even one deleted since. *)
Theorem PermanodeHasAttrValue_spec (c : Corpus) (pn : Ref) (at_ now : gotime) (attr val : gostr) (claims : list Claim)
  (Hclaims : claimsOf c pn = Some claims) (Hsorted : datesSorted claims) :
  exists vs, AppendPermanodeAttrValuesLocked c [] pn attr at_ now zeroRef = Ok vs /\
    (PermanodeHasAttrValueLocked c pn at_ now attr val = true <->
     val ∈ vs \/ exists cl, cl ∈ claims /\ concerns attr (if at_ =? 0 then now else at_) zeroRef cl = true /\
                   cl_Type cl = AddAttributeClaim /\ cl_Value cl = val).
Proof.
  unfold AppendPermanodeAttrValuesLocked, PermanodeHasAttrValueLocked. rewrite Hclaims. eexists. split; [reflexivity|].
  rewrite hasAttrValueLoop_holds by done. apply addedOrHeld_iff.
Qed.

Definition exampleRef (n : Z) : Ref := MkRef (Some (DSha1 (replicate 20 (zb n)))).
Definition exampleClaim (n : Z) (typ : gostr) (val : gostr) : Claim :=
  MkClaim (exampleRef n) (exampleRef 1) n typ (gs "tag") val (exampleRef 2) zeroRef.
Definition exampleCorpus : Corpus :=
  setClaims newCorpus {[exampleRef 2 := [exampleClaim 10 AddAttributeClaim (gs "a"); exampleClaim 11 DelAttributeClaim (gs "a")]]} ∅.

(** A tag that was added and deleted: no value, yet the permanode has it. *)
Lemma PermanodeHasAttrValue_spec_witness :
  PermanodeHasAttrValueLocked exampleCorpus (exampleRef 2) 20 20 (gs "tag") (gs "a") = true /\
  AppendPermanodeAttrValuesLocked exampleCorpus [] (exampleRef 2) (gs "tag") 20 20 zeroRef = Ok [] /\
  exists vs, AppendPermanodeAttrValuesLocked exampleCorpus [] (exampleRef 2) (gs "tag") 20 20 zeroRef = Ok vs /\
    (PermanodeHasAttrValueLocked exampleCorpus (exampleRef 2) 20 20 (gs "tag") (gs "a") = true <->
     gs "a" ∈ vs \/ exists cl, cl ∈ [exampleClaim 10 AddAttributeClaim (gs "a"); exampleClaim 11 DelAttributeClaim (gs "a")] /\
       concerns (gs "tag") (if 20 =? 0 then 20 else 20) zeroRef cl = true /\ cl_Type cl = AddAttributeClaim /\ cl_Value cl = gs "a").
Proof.
  split; [vm_compute; reflexivity|]. split; [vm_compute; reflexivity|].
  apply PermanodeHasAttrValue_spec; [vm_compute; reflexivity|].
  unfold datesSorted. cbn [map]. repeat constructor; vm_compute; discriminate.
Defined.

(** Deciding whether a blob is deleted always ends: with deletions that
    form no cycle, the recursion is no deeper than there are deleted blobs, and
    a blob is deleted exactly when some deletion of it is not deleted. *)
Theorem IsDeleted_terminates (c : Corpus) (rank : Ref -> nat) (br : Ref) (Hacyclic : acyclic (deletes c) rank) :
  exists b, IsDeleted c br = Ok b /\
    (b = true <-> exists d, d ∈ default [] (deletes c !! br) /\ IsDeleted c (d_deleter d) = Ok false).
Proof. by apply (IsDeleted_ok _ rank). Qed.

(** A permanode whose deletion is deleted. *)
Definition exampleDeletes : gmap Ref (list deletion) :=
  {[exampleRef 2 := [MkDeletion (exampleRef 10) 10]; exampleRef 10 := [MkDeletion (exampleRef 11) 11]]}.
Definition exampleRank (r : Ref) : nat := if decide (r = exampleRef 2) then 2 else if decide (r = exampleRef 10) then 1 else 0.

Lemma IsDeleted_terminates_witness :
  let c := setDeletes newCorpus exampleDeletes in
  IsDeleted c (exampleRef 2) = Ok false /\
  exists b, IsDeleted c (exampleRef 10) = Ok b /\
    (b = true <-> exists d, d ∈ default [] (deletes c !! exampleRef 10) /\ IsDeleted c (d_deleter d) = Ok false).
Proof.
  split; [vm_compute; reflexivity|]. apply (IsDeleted_terminates _ exampleRank).
  intros br l d Hl Hd. change (exampleDeletes !! br = Some l) in Hl. unfold exampleDeletes in Hl.
  apply lookup_insert_Some in Hl as [[<- <-]|[_ Hl]]; [|apply lookup_singleton_Some in Hl as [<- <-]];
    apply list_elem_of_singleton in Hd as ->; apply (bool_decide_unpack _); vm_compute; exact I.
Defined.

(** The date of the claim that set the content is never the time of a
    permanode: [ok] has been overwritten when it is tested. *)
Lemma PermanodeTime_no_claim_date (c : Corpus) (pn : Ref) (now : gotime) :
  (forall attr, pnTimeAttrLocked c pn attr now = None) -> files c = ∅ -> PermanodeTimeLocked c pn now = None.
Proof.
  intros Ha Hf. unfold PermanodeTimeLocked, timeAttr. rewrite !Ha.
  destruct (pnCamliContentLocked c pn) as [[r t]|]; [|done]. rewrite Hf, lookup_empty. done.
Qed.
