(* ===== verification/CorpusRows.v ===== *)
(** How the in-memory index is filled: the merge functions, [addBlob] and
    [scanFromStorage] of pkg/index/corpus.go, with the queries by prefix of
    index.go.

    A merge function that reports an error has changed nothing, so it
    returns the new corpus or the error; the loops that call them keep what
    was merged before. *)

From S2P Require Import Prelude Ref Strutil SortedKV Sha1 Storage Times Json Runes Schema IndexKeys Corpus.

(** [strconv.ParseInt(s, 10, 64)], without its error's text. *)
Definition ParseInt10 (s : gostr) : option Z :=
  let '(neg, d) := match s with
                   | c :: r => if decide (c = "-"%char) then (true, r) else if decide (c = "+"%char) then (false, r) else (false, s)
                   | [] => (false, [])
                   end in
  match ParseUintBytes d 10 64 with
  | (un, None) =>
      if neg then (if 2 ^ 63 <? un then None else Some (- un)) else if 2 ^ 63 <=? un then None else Some un
  | _ => None
  end.

(** * Queries by prefix *)

(** [string(b)] of a byte: the UTF-8 of the code point. *)
Definition stringOfByte (b : Z) : gostr := if b <? 128 then [zb b] else [zb (192 + b / 64); zb (128 + b mod 64)].

Definition prefixEnd (prefix : gostr) : res gostr :=
  match last prefix with
  | None => Ok []
  | Some lastByte =>
      if bz lastByte =? 255 then Panic "unsupported query prefix ending in 0xff"
      else Ok (removelast prefix ++ stringOfByte (bz lastByte + 1))
  end.

Definition queryPrefixString {K} `{!KV K} (s : K) (prefix : gostr) : res (list (gostr * gostr) * gerr) :=
  let? end_ := prefixEnd prefix in Ok (kv_find prefix end_ s).

Definition queryPrefix {K} `{!KV K} (s : K) (key : keyType) (args : list arg) : res (list (gostr * gostr) * gerr) :=
  let? prefix := Prefix key args in queryPrefixString s prefix.

(** * The merge functions *)

Definition setBlobs (c : Corpus) (b : gmap Ref BlobMeta) (sum : Z) (cam : gmap gostr (gmap Ref BlobMeta)) : Corpus :=
  MkCorpus (building c) (gen c) b sum cam (keyId c) (files c) (permanodes c) (imageInfo c)
    (fileWholeRef c) (claimBack c) (deletes c) (mediaTags c) (gps c) (permanodesByTime c) (permanodesByModtime c).
Definition setKeyId (c : Corpus) (k : gmap Ref gostr) : Corpus :=
  MkCorpus (building c) (gen c) (cblobs c) (sumBlobBytes c) (camBlobs c) k (files c) (permanodes c) (imageInfo c)
    (fileWholeRef c) (claimBack c) (deletes c) (mediaTags c) (gps c) (permanodesByTime c) (permanodesByModtime c).
Definition setImageInfo (c : Corpus) (i : gmap Ref ImageInfo) : Corpus :=
  MkCorpus (building c) (gen c) (cblobs c) (sumBlobBytes c) (camBlobs c) (keyId c) (files c) (permanodes c) i
    (fileWholeRef c) (claimBack c) (deletes c) (mediaTags c) (gps c) (permanodesByTime c) (permanodesByModtime c).
Definition setWholeRef (c : Corpus) (w : gmap Ref Ref) : Corpus :=
  MkCorpus (building c) (gen c) (cblobs c) (sumBlobBytes c) (camBlobs c) (keyId c) (files c) (permanodes c) (imageInfo c)
    w (claimBack c) (deletes c) (mediaTags c) (gps c) (permanodesByTime c) (permanodesByModtime c).
Definition setMediaTags (c : Corpus) (t : gmap Ref (gmap gostr gostr)) : Corpus :=
  MkCorpus (building c) (gen c) (cblobs c) (sumBlobBytes c) (camBlobs c) (keyId c) (files c) (permanodes c) (imageInfo c)
    (fileWholeRef c) (claimBack c) (deletes c) t (gps c) (permanodesByTime c) (permanodesByModtime c).
Definition setGps (c : Corpus) (g : gmap Ref latLong) : Corpus :=
  MkCorpus (building c) (gen c) (cblobs c) (sumBlobBytes c) (camBlobs c) (keyId c) (files c) (permanodes c) (imageInfo c)
    (fileWholeRef c) (claimBack c) (deletes c) (mediaTags c) g (permanodesByTime c) (permanodesByModtime c).
Definition setBuilding (c : Corpus) (b : bool) : Corpus :=
  MkCorpus b (gen c) (cblobs c) (sumBlobBytes c) (camBlobs c) (keyId c) (files c) (permanodes c) (imageInfo c)
    (fileWholeRef c) (claimBack c) (deletes c) (mediaTags c) (gps c) (permanodesByTime c) (permanodesByModtime c).
Definition setGen (c : Corpus) (g : Z) : Corpus :=
  MkCorpus (building c) g (cblobs c) (sumBlobBytes c) (camBlobs c) (keyId c) (files c) (permanodes c) (imageInfo c)
    (fileWholeRef c) (claimBack c) (deletes c) (mediaTags c) (gps c) (permanodesByTime c) (permanodesByModtime c).

Definition mergeBlobMeta (c : Corpus) (bm : BlobMeta) : res Corpus :=
  match cblobs c !! bm_Ref bm with
  | Some _ => Panic "dup blob seen"
  | None =>
      Ok (setBlobs c (<[bm_Ref bm := bm]> (cblobs c)) (i64 (sumBlobBytes c + bm_Size bm))
            (if decide (bm_CamliType bm = []) then camBlobs c
             else <[bm_CamliType bm := <[bm_Ref bm := bm]> (default ∅ (camBlobs c !! bm_CamliType bm))]> (camBlobs c)))
  end.

Definition mergeMetaRow (c : Corpus) (k v : gostr) : res Corpus :=
  let? bm := kvBlobMeta_bytes k v in
  match bm with None => Err (ErrMsg "bogus meta row") | Some bm => mergeBlobMeta c bm end.

(** [k[n:]], which panics beyond the end. *)
Definition sliceFrom (n : nat) (k : gostr) : res gostr :=
  if (length k <? n)%nat then Panic "slice bounds out of range" else Ok (drop n k).

Definition mergeSignerKeyIdRow (c : Corpus) (k v : gostr) : res Corpus :=
  let? s := sliceFrom (length (gs "signerkeyid:")) k in
  let? br := ParseBytes s in
  match br with None => Err (ErrMsg "bogus signerid row") | Some br => Ok (setKeyId c (<[br := v]> (keyId c))) end.

Definition mutateFileInfo (c : Corpus) (br : Ref) (fn : FileInfo -> FileInfo) : Corpus :=
  setFiles c (<[br := fn (default zeroFileInfo (files c !! br))]> (files c)).

(** The reference after the first ['|'] of a key. *)
Definition keyRef (k : gostr) : option Ref := i ← index_byte pipe k; blobParse (drop (S i) k).

Definition withInfo (size : Z) (name mime : gostr) (fi : FileInfo) : FileInfo :=
  MkFileInfo name size mime (fi_Time fi) (fi_ModTime fi).

Definition mergeFileInfoRow (c : Corpus) (k v : gostr) : res Corpus :=
  match keyRef k with
  | None => Err (ErrMsg "unexpected fileinfo key")
  | Some br =>
      let? ss := AppendSplitN [] v [pipe] 3 in
      match ss with
      | [size; name; mime] =>
          match ParseInt10 size with
          | None => Err (ErrMsg "unexpected fileinfo value")
          | Some size => Ok (mutateFileInfo c br (withInfo size (urld name) (urld mime)))
          end
      | _ => Err (ErrMsg "unexpected fileinfo value")
      end
  end.

(** [updateFileInfoTimes]: the oldest time, and the newest when there are two. *)
Definition updateFileInfoTimes (fi : FileInfo) (times : list gostr) : FileInfo :=
  match times with
  | [] => fi
  | t :: ts =>
      MkFileInfo (fi_FileName fi) (fi_Size fi) (fi_MIMEType fi) (ParseTime3339OrNil t)
        (match ts with [m] => ParseTime3339OrNil m | _ => fi_ModTime fi end)
  end.

Definition mergeFileTimesRow (c : Corpus) (k v : gostr) : res Corpus :=
  match v with
  | [] => Ok c
  | _ :: _ =>
      match keyRef k with
      | None => Err (ErrMsg "unexpected filetimes key")
      | Some br =>
          let? times := AppendSplitN [] (urld v) (gs ",") (-1) in
          Ok (mutateFileInfo c br (fun fi => updateFileInfoTimes fi times))
      end
  end.

Definition mergeImageSizeRow (c : Corpus) (k v : gostr) : res Corpus :=
  let? s := sliceFrom (length (gs "imagesize|")) k in
  match blobParse s, kvImageInfo v with
  | Some br, Some ii => Ok (setImageInfo c (<[br := ii]> (imageInfo c)))
  | _, _ => Err (ErrMsg "bogus row")
  end.

Definition mergeWholeToFileRow (c : Corpus) (k v : gostr) : res Corpus :=
  let? rest := sliceFrom (length (gs "wholetofile|")) k in
  match index_byte pipe rest with
  | None => Err (ErrMsg "bogus row")
  | Some i =>
      match blobParse (take i rest), blobParse (drop (S i) rest) with
      | Some wholeRef, Some fileRef => Ok (setWholeRef c (<[fileRef := wholeRef]> (fileWholeRef c)))
      | _, _ => Err (ErrMsg "bogus row")
      end
  end.

Definition mergeMediaTag (c : Corpus) (k v : gostr) : res Corpus :=
  match splitOn pipe k with
  | [_; whole; tag] =>
      match blobParse whole with
      | None => Err (ErrMsg "failed to parse wholeref from key")
      | Some wholeRef =>
          Ok (setMediaTags c (<[wholeRef := <[tag := urld v]> (default ∅ (mediaTags c !! wholeRef))]> (mediaTags c)))
      end
  | _ => Err (ErrMsg "unexpected key")
  end.

(** The latitude and the longitude of a value. *)
Definition parseLatLong (v : gostr) : option latLong :=
  i ← index_byte pipe v;
  lat ← ParseFloat (take i v);
  long ← ParseFloat (drop (S i) v);
  Some (MkLatLong lat long).

Definition mergeEXIFGPSRow (c : Corpus) (k v : gostr) : res Corpus :=
  let? s := sliceFrom (length (gs "exifgps|")) k in
  let? wholeRef := ParseBytes s in
  match wholeRef, parseLatLong v with
  | Some wholeRef, Some ll => Ok (setGps c (<[wholeRef := ll]> (gps c)))
  | _, _ => Err (ErrMsg "bogus row")
  end.

Section rows.
Context (sortBy : forall A, (A -> gotime) -> list A -> list A).
Context (arrange : forall A, list A -> list A).
Arguments sortBy {A}.
Arguments arrange {A}.

Definition addClaim (c : Corpus) (cl : Claim) : Corpus :=
  let claims := default [] (permanodes c !! cl_Permanode cl) ++ [cl] in
  setClaims c (<[cl_Permanode cl := if building c then claims else sortBy cl_Date claims]> (permanodes c))
    (match blobParse (cl_Value cl) with
     | Some vbr => <[vbr := default [] (claimBack c !! vbr) ++ [cl]]> (claimBack c)
     | None => claimBack c
     end).

Definition mergeClaimRow (c : Corpus) (k v : gostr) : res Corpus :=
  let? cl := kvClaim k v in
  match cl with
  | Some cl => if Valid (cl_Permanode cl) then Ok (addClaim c cl) else Err (ErrMsg "bogus claim row")
  | None => Err (ErrMsg "bogus claim row")
  end.

(** [corpusMergeFunc]; [None] where the map has a nil function or no entry. *)
Definition corpusMergeFunc (kt : gostr) : option (Corpus -> gostr -> gostr -> res Corpus) :=
  if decide (kt = gs "meta") then Some mergeMetaRow
  else if decide (kt = gs "signerkeyid") then Some mergeSignerKeyIdRow
  else if decide (kt = gs "claim") then Some mergeClaimRow
  else if decide (kt = gs "fileinfo") then Some mergeFileInfoRow
  else if decide (kt = gs "filetimes") then Some mergeFileTimesRow
  else if decide (kt = gs "imagesize") then Some mergeImageSizeRow
  else if decide (kt = gs "wholetofile") then Some mergeWholeToFileRow
  else if decide (kt = gs "exifgps") then Some mergeEXIFGPSRow
  else if decide (kt = gs "mediatag") then Some mergeMediaTag
  else None.

Definition slurpPrefixes : list gostr :=
  map gs ["meta:"; "signerkeyid:"; "claim|"; "fileinfo|"; "filetimes|"; "imagesize|"; "wholetofile|"; "exifgps|"; "mediatag|"].
Definition slurpedKeyType (kt : gostr) : bool := bool_decide (kt ∈ map typeOfKey slurpPrefixes).

(** Calling a nil function panics. *)
Definition callMerge (c : Corpus) (kt k v : gostr) : res Corpus :=
  match corpusMergeFunc kt with Some fn => fn c k v | None => Panic "nil pointer dereference" end.

(** A loop that keeps what was done before it stops. *)
Fixpoint keepLoop {B} (f : Corpus -> B -> res Corpus) (l : list B) (c : Corpus) : Corpus * res unit :=
  match l with
  | [] => (c, Ok tt)
  | b :: l =>
      match f c b with
      | Ok c => keepLoop f l c
      | Err e => (c, Err e)
      | Panic p => (c, Panic p)
      | Blocked => (c, Blocked)
      end
  end.

Definition byNewest : list deletion -> list deletion := sortBy (fun d => - d_when d).

(** [updateDeletes]; the claim's date has been parsed. *)
Definition updateDeletes (c : Corpus) (dc : deleteClaim) : Corpus :=
  let del := MkDeletion (dc_Blob dc) (dc_Date dc) in
  let old := default [] (deletes c !! dc_Target dc) in
  if decide (del ∈ old) then c else setDeletes c (<[dc_Target dc := byNewest (old ++ [del])]> (deletes c)).

Definition addRow (c : Corpus) (p : gostr * gostr) : res Corpus :=
  if slurpedKeyType (typeOfKey p.1) then callMerge c (typeOfKey p.1) p.1 p.2 else Ok c.

(** [addBlob]: a map is visited in some order. *)
Definition addBlob (c : Corpus) (br : Ref) (kv : gmap gostr gostr) (dels : list deleteClaim) : Corpus * res unit :=
  match cblobs c !! br with
  | Some _ => (c, Ok tt)
  | None =>
      match keepLoop addRow (arrange (map_to_list kv)) (setGen c (i64 (gen c + 1))) with
      | (c, Ok _) => (foldl updateDeletes c dels, Ok tt)
      | (c, r) => (c, r)
      end
  end.

(** * Filling from the rows *)

Context {K : Type} `{!KV K}.

Definition gerrRes (e : gerr) : res unit := match e with None => Ok tt | Some e => Err e end.

Definition scanPrefix (c : Corpus) (s : K) (prefix : gostr) : Corpus * res unit :=
  match corpusMergeFunc (typeOfKey prefix) with
  | None => (c, Panic "No registered merge func for prefix")
  | Some fn =>
      match queryPrefixString s prefix with
      | Ok (rows, cerr) =>
          match keepLoop (fun c p => fn c p.1 p.2) rows c with
          | (c, Ok _) => (c, gerrRes cerr)
          | (c, r) => (c, r)
          end
      | Err e => (c, Err e)
      | Panic p => (c, Panic p)
      | Blocked => (c, Blocked)
      end
  end.

(** The goroutines of a group all run; the first error counts.  The lock
    makes each scan one step. *)
Definition firstErr (a b : res unit) : res unit := match a with Ok _ => b | _ => a end.
Fixpoint scanGroup (s : K) (prefixes : list gostr) (c : Corpus) : Corpus * res unit :=
  match prefixes with
  | [] => (c, Ok tt)
  | p :: prefixes =>
      let '(c, r) := scanPrefix c s p in
      let '(c, r') := scanGroup s prefixes c in
      (c, firstErr r r')
  end.

(** [initDeletes] *)
Definition initDeletesRow (c : Corpus) (p : gostr * gostr) : res Corpus :=
  let? cl := kvDeleted p.1 in
  match cl with
  | None => Err (ErrMsg "Bogus keyDeleted entry key")
  | Some cl =>
      Ok (setDeletes c (<[cl_Target cl := byNewest (default [] (deletes c !! cl_Target cl) ++ [MkDeletion (cl_BlobRef cl) (cl_Date cl)])]> (deletes c)))
  end.

Definition initDeletes (c : Corpus) (s : K) : Corpus * res unit :=
  match queryPrefix s keyDeleted [] with
  | Ok (rows, cerr) =>
      match keepLoop initDeletesRow rows c with
      | (c, Ok _) => (c, gerrRes cerr)
      | (c, r) => (c, r)
      end
  | Err e => (c, Err e)
  | Panic p => (c, Panic p)
  | Blocked => (c, Blocked)
  end.

Definition setPermanodes (c : Corpus) (p : gmap Ref (list Claim)) : Corpus := setClaims c p (claimBack c).

Definition scanFromStorage (c : Corpus) (s : K) : Corpus * res unit :=
  match scanPrefix (setBuilding c true) s (gs "meta:") with
  | (c, Ok _) =>
      match scanGroup s (arrange (tail slurpPrefixes)) (setPermanodes (setFiles c ∅) ∅) with
      | (c, Ok _) => initDeletes (setBuilding (setPermanodes c (sortBy cl_Date <$> permanodes c)) false) s
      | (c, r) => (c, r)
      end
  | (c, r) => (c, r)
  end.

Definition NewCorpusFromStorage (s : K) : Corpus * res unit := scanFromStorage newCorpus s.
End rows.
