(* ===== verification/CorpusSpec.v ===== *)
(** What the in-memory index holds, as a function of the rows of the index:
    each row has an effect, and the corpus reflects the effects it has been
    given.  Filling it from storage and adding blobs one by one reflect the
    same rows. *)

From S2P Require Import Prelude Ref Strutil SortedKV Sha1 Storage Times Json Runes Schema IndexKeys Corpus CorpusRows.

Section spec.
Context (sortBy : forall A, (A -> gotime) -> list A -> list A).
Context (arrange : forall A, list A -> list A).
Arguments sortBy {A}.
Arguments arrange {A}.

(** What a row says. *)
Inductive effect :=
| EMeta (bm : BlobMeta)
| EKey (signer : Ref) (keyId : gostr)
| EClaim (cl : Claim)
| EInfo (br : Ref) (size : Z) (name mime : gostr)
| ETimes (br : Ref) (times : list gostr)
| EImage (br : Ref) (ii : ImageInfo)
| EWhole (fileRef wholeRef : Ref)
| ETag (wholeRef : Ref) (tag value : gostr)
| EGps (wholeRef : Ref) (ll : latLong)
| ENone.

Definition orErr {A} (msg : string) (o : option A) : res A := match o with Some a => Ok a | None => Err (ErrMsg msg) end.

Definition rowEffect (p : gostr * gostr) : res effect :=
  let '(k, v) := p in
  let kt := typeOfKey k in
  if decide (kt = gs "meta") then
    let? bm := kvBlobMeta_bytes k v in let? bm := orErr "bogus meta row" bm in Ok (EMeta bm)
  else if decide (kt = gs "signerkeyid") then
    let? s := sliceFrom (length (gs "signerkeyid:")) k in
    let? br := ParseBytes s in let? br := orErr "bogus signerid row" br in Ok (EKey br v)
  else if decide (kt = gs "claim") then
    let? cl := kvClaim k v in
    match cl with
    | Some cl => if Valid (cl_Permanode cl) then Ok (EClaim cl) else Err (ErrMsg "bogus claim row")
    | None => Err (ErrMsg "bogus claim row")
    end
  else if decide (kt = gs "fileinfo") then
    let? br := orErr "unexpected fileinfo key" (keyRef k) in
    let? ss := AppendSplitN [] v [pipe] 3 in
    match ss with
    | [size; name; mime] => let? size := orErr "unexpected fileinfo value" (ParseInt10 size) in Ok (EInfo br size (urld name) (urld mime))
    | _ => Err (ErrMsg "unexpected fileinfo value")
    end
  else if decide (kt = gs "filetimes") then
    match v with
    | [] => Ok ENone
    | _ => let? br := orErr "unexpected filetimes key" (keyRef k) in
           let? times := AppendSplitN [] (urld v) (gs ",") (-1) in Ok (ETimes br times)
    end
  else if decide (kt = gs "imagesize") then
    let? s := sliceFrom (length (gs "imagesize|")) k in
    match blobParse s, kvImageInfo v with Some br, Some ii => Ok (EImage br ii) | _, _ => Err (ErrMsg "bogus row") end
  else if decide (kt = gs "wholetofile") then
    let? rest := sliceFrom (length (gs "wholetofile|")) k in
    match index_byte pipe rest with
    | None => Err (ErrMsg "bogus row")
    | Some i =>
        match blobParse (take i rest), blobParse (drop (S i) rest) with
        | Some wholeRef, Some fileRef => Ok (EWhole fileRef wholeRef)
        | _, _ => Err (ErrMsg "bogus row")
        end
    end
  else if decide (kt = gs "exifgps") then
    let? s := sliceFrom (length (gs "exifgps|")) k in
    let? wholeRef := ParseBytes s in
    match wholeRef, parseLatLong v with Some wholeRef, Some ll => Ok (EGps wholeRef ll) | _, _ => Err (ErrMsg "bogus row") end
  else if decide (kt = gs "mediatag") then
    match splitOn pipe k with
    | [_; whole; tag] =>
        let? wholeRef := orErr "failed to parse wholeref from key" (blobParse whole) in Ok (ETag wholeRef tag (urld v))
    | _ => Err (ErrMsg "unexpected key")
    end
  else Ok ENone.

Definition applyEffect (c : Corpus) (e : effect) : res Corpus :=
  match e with
  | EMeta bm => mergeBlobMeta c bm
  | EKey br v => Ok (setKeyId c (<[br := v]> (keyId c)))
  | EClaim cl => Ok (addClaim (@sortBy) c cl)
  | EInfo br size name mime => Ok (mutateFileInfo c br (withInfo size name mime))
  | ETimes br times => Ok (mutateFileInfo c br (fun fi => updateFileInfoTimes fi times))
  | EImage br ii => Ok (setImageInfo c (<[br := ii]> (imageInfo c)))
  | EWhole fileRef wholeRef => Ok (setWholeRef c (<[fileRef := wholeRef]> (fileWholeRef c)))
  | ETag wholeRef tag value => Ok (setMediaTags c (<[wholeRef := <[tag := value]> (default ∅ (mediaTags c !! wholeRef))]> (mediaTags c)))
  | EGps wholeRef ll => Ok (setGps c (<[wholeRef := ll]> (gps c)))
  | ENone => Ok c
  end.

(** Merging a row is applying its effect. *)
Lemma callMerge_effect c k v : slurpedKeyType (typeOfKey k) = true ->
  callMerge (@sortBy) c (typeOfKey k) k v = let? e := rowEffect (k, v) in applyEffect c e.
Proof.
  intros Hs. unfold callMerge, corpusMergeFunc, rowEffect.
  repeat (case_decide; [clear Hs|]).
  - unfold mergeMetaRow. destruct (kvBlobMeta_bytes k v) as [[bm|]|e|p|]; done.
  - unfold mergeSignerKeyIdRow. destruct (sliceFrom _ k) as [s|e|p|]; [|done..]. cbn [rbind].
    destruct (ParseBytes s) as [[bm|]|e|p|]; done.
  - unfold mergeClaimRow. destruct (kvClaim k v) as [[cl|]|e|p|]; [|done..]. cbn [rbind]. destruct (Valid _); done.
  - unfold mergeFileInfoRow. destruct (keyRef k) as [br|]; [|done]. cbn [orErr rbind].
    destruct (AppendSplitN [] v [pipe] 3) as [[|a [|b [|d [|? ?]]]]|e|p|]; try done. cbn [rbind]. by destruct (ParseInt10 a).
  - unfold mergeFileTimesRow. destruct v; [done|]. destruct (keyRef k) as [br|]; [|done]. cbn [orErr rbind].
    destruct (AppendSplitN [] _ _ _) as [l|e|p|]; done.
  - unfold mergeImageSizeRow. destruct (sliceFrom _ k) as [s|e|p|]; [|done..]. cbn [rbind].
    destruct (blobParse s), (kvImageInfo v); done.
  - unfold mergeWholeToFileRow. destruct (sliceFrom _ k) as [s|e|p|]; [|done..]. cbn [rbind].
    destruct (index_byte pipe s) as [i|]; [|done]. destruct (blobParse (take i s)), (blobParse (drop (S i) s)); done.
  - unfold mergeEXIFGPSRow. destruct (sliceFrom _ k) as [s|e|p|]; [|done..]. cbn [rbind].
    destruct (ParseBytes s) as [[br|]|e|p|]; [|done..]. cbn [rbind]. by destruct (parseLatLong v).
  - unfold mergeMediaTag. destruct (splitOn pipe k) as [|a [|b [|d [|? ?]]]]; try done. by destruct (blobParse b).
  - exfalso. unfold slurpedKeyType in Hs. apply bool_decide_eq_true in Hs.
    set (l := map typeOfKey slurpPrefixes) in Hs. vm_compute in l. subst l. cbn in *. set_solver.
Qed.

(** * What effects leave in the corpus *)

(** The latest effect that says something. *)
Definition says {A} (f : effect -> option A) (es : list effect) : option A := head (omap f es).

Definition metaAt (br : Ref) (e : effect) : option BlobMeta :=
  match e with EMeta bm => if decide (bm_Ref bm = br) then Some bm else None | _ => None end.
Definition camAt (t : gostr) (br : Ref) (e : effect) : option BlobMeta :=
  match e with
  | EMeta bm => if decide (bm_CamliType bm = t /\ t ≠ [] /\ bm_Ref bm = br) then Some bm else None
  | _ => None
  end.
Definition sizeOf (e : effect) : option Z := match e with EMeta bm => Some (bm_Size bm) | _ => None end.
Definition keyAt (br : Ref) (e : effect) : option gostr :=
  match e with EKey r v => if decide (r = br) then Some v else None | _ => None end.
Definition claimOn (pn : Ref) (e : effect) : option Claim :=
  match e with EClaim cl => if decide (cl_Permanode cl = pn) then Some cl else None | _ => None end.
Definition claimTo (vbr : Ref) (e : effect) : option Claim :=
  match e with EClaim cl => if decide (blobParse (cl_Value cl) = Some vbr) then Some cl else None | _ => None end.
Definition infoAt (br : Ref) (e : effect) : option (Z * gostr * gostr) :=
  match e with EInfo r size name mime => if decide (r = br) then Some (size, name, mime) else None | _ => None end.
Definition timeAt (br : Ref) (e : effect) : option (option gotime) :=
  match e with ETimes r (t :: _) => if decide (r = br) then Some (ParseTime3339OrNil t) else None | _ => None end.
Definition modTimeAt (br : Ref) (e : effect) : option (option gotime) :=
  match e with ETimes r [_; m] => if decide (r = br) then Some (ParseTime3339OrNil m) else None | _ => None end.
Definition fileAt (br : Ref) (e : effect) : option unit :=
  match e with
  | EInfo r _ _ _ => if decide (r = br) then Some tt else None
  | ETimes r _ => if decide (r = br) then Some tt else None
  | _ => None
  end.
Definition imageAt (br : Ref) (e : effect) : option ImageInfo :=
  match e with EImage r ii => if decide (r = br) then Some ii else None | _ => None end.
Definition wholeAt (br : Ref) (e : effect) : option Ref :=
  match e with EWhole r w => if decide (r = br) then Some w else None | _ => None end.
Definition tagAt (w : Ref) (tag : gostr) (e : effect) : option gostr :=
  match e with ETag r t v => if decide (r = w /\ t = tag) then Some v else None | _ => None end.

Definition gpsAt (w : Ref) (e : effect) : option latLong :=
  match e with EGps r ll => if decide (r = w) then Some ll else None | _ => None end.

Definition fileOf (br : Ref) (es : list effect) : option FileInfo :=
  match says (fileAt br) es with
  | None => None
  | Some _ =>
      let '(size, name, mime) := default (0, [], []) (says (infoAt br) es) in
      Some (MkFileInfo name size mime (default None (says (timeAt br) es)) (default None (says (modTimeAt br) es)))
  end.

Definition sumZ (l : list Z) : Z := foldr Z.add 0 l.

Record reflects (c : Corpus) (es : list effect) : Prop := {
  ref_blobs : forall br, cblobs c !! br = says (metaAt br) es;
  ref_sum : sumBlobBytes c = i64 (sumZ (omap sizeOf es));
  ref_cam : forall t br, default ∅ (camBlobs c !! t) !! br = says (camAt t br) es;
  ref_cam_ne : forall t, camBlobs c !! t ≠ Some ∅;
  ref_keys : forall br, keyId c !! br = says (keyAt br) es;
  ref_claims : forall pn, default [] (permanodes c !! pn) ≡ₚ omap (claimOn pn) es;
  ref_claims_ne : forall pn, permanodes c !! pn ≠ Some [];
  ref_back : forall vbr, default [] (claimBack c !! vbr) ≡ₚ omap (claimTo vbr) es;
  ref_back_ne : forall vbr, claimBack c !! vbr ≠ Some [];
  ref_files : forall br, files c !! br = fileOf br es;
  ref_image : forall br, imageInfo c !! br = says (imageAt br) es;
  ref_whole : forall br, fileWholeRef c !! br = says (wholeAt br) es;
  ref_tags : forall w tag, default ∅ (mediaTags c !! w) !! tag = says (tagAt w tag) es;
  ref_tags_ne : forall w, mediaTags c !! w ≠ Some ∅;
  ref_gps : forall w, gps c !! w = says (gpsAt w) es
}.

Lemma says_cons {A} (f : effect -> option A) e es : says f (e :: es) = match f e with Some a => Some a | None => says f es end.
Proof. unfold says. simpl. by destruct (f e). Qed.

Lemma omap_cons' {A} (f : effect -> option A) e es : omap f (e :: es) = match f e with Some a => a :: omap f es | None => omap f es end.
Proof. reflexivity. Qed.

Lemma reflects_new : reflects newCorpus [].
Proof. split; intros; unfold newCorpus; simpl; rewrite ?lookup_empty; done. Qed.

(** The other maps are as they were. *)
Ltac reflect_rest := intros; cbn; rewrite ?says_cons, ?omap_cons'; cbn; auto.

Hypothesis sortBy_perm : forall A (key : A -> gotime) l, sortBy key l ≡ₚ l.

Lemma says_None {A} (f : effect -> option A) (br : Ref) es : (forall e, fileAt br e = None -> f e = None) ->
  says (fileAt br) es = None -> says f es = None.
Proof.
  intros Hf. induction es as [|e es IH]; [done|]. rewrite !says_cons. destruct (fileAt br e) eqn:E; [done|].
  by rewrite (Hf e E).
Qed.

Lemma infoAt_file br e : fileAt br e = None -> infoAt br e = None.
Proof. destruct e; try done. cbn. by destruct (decide _). Qed.
Lemma timeAt_file br e : fileAt br e = None -> timeAt br e = None.
Proof. destruct e as [| | | |r ts| | | | |]; try done. cbn. destruct (decide _); [done|]. by destruct ts. Qed.
Lemma modTimeAt_file br e : fileAt br e = None -> modTimeAt br e = None.
Proof. destruct e as [| | | |r ts| | | | |]; try done. cbn. destruct (decide _); [done|]. by destruct ts as [|t [|m [|]]]. Qed.

Lemma i64_add a b : i64 (i64 a + b) = i64 (b + a).
Proof.
  unfold i64. f_equal. replace ((a + 2 ^ 63) mod 2 ^ 64 - 2 ^ 63 + b + 2 ^ 63) with ((a + 2 ^ 63) mod 2 ^ 64 + b) by lia.
  rewrite Zplus_mod_idemp_l. f_equal. lia.
Qed.

Lemma addClaim_perm c cl pn : default [] (permanodes (addClaim (@sortBy) c cl) !! pn) ≡ₚ
  (if decide (cl_Permanode cl = pn) then [cl] else []) ++ default [] (permanodes c !! pn).
Proof.
  unfold addClaim. cbn. destruct (decide (cl_Permanode cl = pn)) as [->|Hne].
  - rewrite lookup_insert_eq. cbn. destruct (building c); [|rewrite sortBy_perm]; by rewrite Permutation_app_comm.
  - by rewrite lookup_insert_ne.
Qed.

Lemma apply_reflects c e c' es : reflects c es -> applyEffect c e = Ok c' -> reflects c' (e :: es).
Proof.
  intros R H. destruct e as [bm|br v|cl|br size name mime|br times|br ii|f w|w tag v|w ll|]; cbn [applyEffect] in H.
  - unfold mergeBlobMeta in H. destruct (cblobs c !! bm_Ref bm) eqn:Eb; [done|]. injection H as <-.
    destruct R. split; reflect_rest.
    + destruct (decide (bm_Ref bm = br)) as [<-|Hne]; [apply lookup_insert_eq|by rewrite lookup_insert_ne].
    + rewrite ref_sum0. apply i64_add.
    + rewrite <- ref_cam0. destruct (decide (bm_CamliType bm = [])) as [E|E].
      { rewrite decide_False; [done|]. intros (? & ? & ?). congruence. }
      destruct (decide (bm_CamliType bm = t)) as [<-|Hne].
      * rewrite lookup_insert_eq. cbn. destruct (decide (bm_Ref bm = br)) as [<-|Hne].
        -- rewrite lookup_insert_eq, decide_True by done. done.
        -- rewrite lookup_insert_ne by done. rewrite decide_False by tauto. done.
      * rewrite lookup_insert_ne by done. rewrite decide_False by tauto. done.
    + destruct (decide (bm_CamliType bm = [])) as [E|E]; [auto|].
      destruct (decide (bm_CamliType bm = t)) as [<-|Hne]; [|by rewrite lookup_insert_ne].
      rewrite lookup_insert_eq. intros [= H]. by apply insert_non_empty in H.
  - injection H as <-. destruct R. split; reflect_rest.
    destruct (decide (br = br0)) as [<-|Hne]; [apply lookup_insert_eq|by rewrite lookup_insert_ne].
  - injection H as <-. destruct R. split; try solve [reflect_rest].
    + intros pn. rewrite addClaim_perm, ref_claims0, omap_cons'. cbn. by destruct (decide (cl_Permanode cl = pn)).
    + intros pn. unfold addClaim. cbn. destruct (decide (cl_Permanode cl = pn)) as [<-|Hne]; [|by rewrite lookup_insert_ne].
      rewrite lookup_insert_eq. intros [= H]. destruct (building c); [by destruct (default [] _)|].
      pose proof (sortBy_perm _ cl_Date (default [] (permanodes c !! cl_Permanode cl) ++ [cl])) as Hp. rewrite H in Hp.
      apply Permutation_nil in Hp. by destruct (default [] _).
    + intros vbr. rewrite omap_cons'. unfold addClaim. cbn. destruct (blobParse (cl_Value cl)) as [v|]; [|rewrite decide_False by done; auto].
      destruct (decide (v = vbr)) as [->|Hne].
      * rewrite lookup_insert_eq, decide_True by done. cbn. rewrite ref_back0, Permutation_app_comm. done.
      * rewrite lookup_insert_ne, decide_False by congruence. auto.
    + intros vbr. unfold addClaim. cbn. destruct (blobParse (cl_Value cl)) as [v|]; [|auto].
      destruct (decide (v = vbr)) as [->|Hne]; [|by rewrite lookup_insert_ne].
      rewrite lookup_insert_eq. intros [= H]. by destruct (default [] _).
  - injection H as <-. destruct R. split; reflect_rest.
    unfold mutateFileInfo, fileOf. cbn. rewrite !says_cons. cbn. destruct (decide (br = br0)) as [<-|Hne].
    + rewrite lookup_insert_eq. f_equal. unfold withInfo. rewrite ref_files0. unfold fileOf.
      destruct (says (fileAt br) es) eqn:E; [by destruct (default _ (says (infoAt br) es)) as [[]]|]. cbn.
      rewrite (says_None _ br es (timeAt_file br) E), (says_None _ br es (modTimeAt_file br) E). done.
    + rewrite lookup_insert_ne by done. apply ref_files0.
  - injection H as <-. destruct R. split; reflect_rest.
    unfold mutateFileInfo, fileOf. cbn. rewrite !says_cons. cbn. destruct (decide (br = br0)) as [<-|Hne].
    + rewrite lookup_insert_eq. f_equal. rewrite ref_files0. unfold fileOf.
      destruct (says (fileAt br) es) eqn:E.
      * destruct (default _ (says (infoAt br) es)) as [[]].
        destruct times as [|t [|m [|x ts]]]; cbn; rewrite ?decide_True by done; done.
      * rewrite (says_None _ br es (infoAt_file br) E), (says_None _ br es (timeAt_file br) E), (says_None _ br es (modTimeAt_file br) E).
        destruct times as [|t [|m [|x ts]]]; cbn; rewrite ?decide_True by done; done.
    + rewrite lookup_insert_ne by done. rewrite ref_files0. unfold fileOf. destruct times as [|t [|m [|x ts]]]; done.
  - injection H as <-. destruct R. split; reflect_rest.
    destruct (decide (br = br0)) as [<-|Hne]; [apply lookup_insert_eq|by rewrite lookup_insert_ne].
  - injection H as <-. destruct R. split; reflect_rest.
    destruct (decide (f = br)) as [<-|Hne]; [apply lookup_insert_eq|by rewrite lookup_insert_ne].
  - injection H as <-. destruct R. split; reflect_rest.
    + destruct (decide (w = w0)) as [<-|Hne]; [rewrite lookup_insert_eq|rewrite lookup_insert_ne by done; rewrite decide_False by tauto; auto].
      cbn. destruct (decide (tag = tag0)) as [<-|Hne]; [rewrite lookup_insert_eq, decide_True; done|].
      rewrite lookup_insert_ne, decide_False by tauto. auto.
    + destruct (decide (w = w0)) as [<-|Hne]; [|by rewrite lookup_insert_ne].
      rewrite lookup_insert_eq. intros [= H]. by apply insert_non_empty in H.
  - injection H as <-. destruct R. split; reflect_rest.
    destruct (decide (w = w0)) as [<-|Hne]; [apply lookup_insert_eq|by rewrite lookup_insert_ne].
  - injection H as <-. destruct R. split; reflect_rest.
Qed.
#[local] Arguments ParseTime3339OrNil : simpl never.

(** * The order of the rows *)

(** Effects that agree on what both speak of. *)
Definition agree (e e' : effect) : Prop :=
  match e, e' with
  | EMeta a, EMeta b => bm_Ref a = bm_Ref b -> a = b
  | EKey r v, EKey r' v' => r = r' -> v = v'
  | EInfo r s n m, EInfo r' s' n' m' => r = r' -> (s, n, m) = (s', n', m')
  | ETimes r ts, ETimes r' ts' => r = r' -> ts = ts'
  | EImage r ii, EImage r' ii' => r = r' -> ii = ii'
  | EWhole f w, EWhole f' w' => f = f' -> w = w'
  | ETag w t v, ETag w' t' v' => w = w' -> t = t' -> v = v'
  | EGps w ll, EGps w' ll' => w = w' -> ll = ll'
  | _, _ => True
  end.

Definition consistent (es : list effect) : Prop := forall e e', e ∈ es -> e' ∈ es -> agree e e'.

(** A blob and a claim are said once. *)
Definition counted (e : effect) : Prop := match e with EMeta _ | EClaim _ => True | _ => False end.
#[local] Instance counted_dec e : Decision (counted e).
Proof. destruct e; apply _. Defined.

Definition sameEffects (es es' : list effect) : Prop :=
  (forall e, e ∈ es <-> e ∈ es') /\ filter counted es ≡ₚ filter counted es'.

Lemma sameEffects_perm es es' : es ≡ₚ es' -> sameEffects es es'.
Proof. intros H. split; [by intros e; rewrite H|by rewrite H]. Qed.

Lemma sameEffects_trans es1 es2 es3 : sameEffects es1 es2 -> sameEffects es2 es3 -> sameEffects es1 es3.
Proof. intros [H1 H2] [H3 H4]. split; [intros e; by rewrite H1|by rewrite H2]. Qed.

Lemma sameEffects_sym es1 es2 : sameEffects es1 es2 -> sameEffects es2 es1.
Proof. intros [H1 H2]. split; [intros e; by rewrite H1|by rewrite H2]. Qed.

Lemma says_Some {A} (f : effect -> option A) es a : says f es = Some a -> exists e, e ∈ es /\ f e = Some a.
Proof.
  induction es as [|e es IH]; [done|]. rewrite says_cons. destruct (f e) eqn:E.
  - intros [= <-]. exists e. split; [by left|done].
  - intros H. destruct (IH H) as (e' & He & E'). exists e'. split; [by right|done].
Qed.

Lemma says_is_Some {A} (f : effect -> option A) es e a : e ∈ es -> f e = Some a -> exists b, says f es = Some b.
Proof.
  induction es as [|e' es IH]; intros He E; [by apply elem_of_nil in He|]. rewrite says_cons.
  apply elem_of_cons in He as [->|He]; [rewrite E; eauto|]. destruct (f e'); eauto.
Qed.

Lemma says_same {A} (f : effect -> option A) es es' : (forall e, e ∈ es <-> e ∈ es') ->
  (forall e e' a b, e ∈ es -> e' ∈ es -> f e = Some a -> f e' = Some b -> a = b) -> says f es = says f es'.
Proof.
  intros Hm Hf. destruct (says f es) as [a|] eqn:E1, (says f es') as [b|] eqn:E2; try done.
  - apply says_Some in E1 as (e & He & Ea), E2 as (e' & He' & Eb). f_equal. eapply Hf; [exact He| |exact Ea|exact Eb]. by apply Hm.
  - apply says_Some in E1 as (e & He & Ea). apply Hm in He. destruct (says_is_Some f es' e a He Ea). congruence.
  - apply says_Some in E2 as (e & He & Ea). apply Hm in He. destruct (says_is_Some f es e b He Ea). congruence.
Qed.

Lemma omap_counted {A} (f : effect -> option A) (es : list effect) : (forall e, ~ counted e -> f e = None) -> omap f es = omap f (filter counted es).
Proof.
  intros Hf. induction es as [|e es IH]; [done|]. rewrite filter_cons, omap_cons'. case_decide as Hc.
  - rewrite omap_cons', IH. done.
  - by rewrite (Hf e Hc), IH.
Qed.

Lemma omap_same {A} (f : effect -> option A) (es es' : list effect) : (forall e, ~ counted e -> f e = None) -> sameEffects es es' -> omap f es ≡ₚ omap f es'.
Proof. intros Hf [_ Hp]. rewrite (omap_counted f es), (omap_counted f es') by done. by rewrite Hp. Qed.

Lemma sumZ_perm l l' : l ≡ₚ l' -> sumZ l = sumZ l'.
Proof. unfold sumZ. induction 1; simpl; lia. Qed.

(** Two corpora with the same rows in them. *)
Record sameIndex (c c' : Corpus) : Prop := {
  same_blobs : cblobs c = cblobs c';
  same_sum : sumBlobBytes c = sumBlobBytes c';
  same_cam : camBlobs c = camBlobs c';
  same_keys : keyId c = keyId c';
  same_files : files c = files c';
  same_image : imageInfo c = imageInfo c';
  same_whole : fileWholeRef c = fileWholeRef c';
  same_tags : mediaTags c = mediaTags c';
  same_gps : gps c = gps c';
  same_claims : forall pn, default [] (permanodes c !! pn) ≡ₚ default [] (permanodes c' !! pn);
  same_pns : dom (permanodes c) = dom (permanodes c');
  same_back : forall vbr, default [] (claimBack c !! vbr) ≡ₚ default [] (claimBack c' !! vbr)
}.

Lemma nested_ext {K1 K2 A} `{Countable K1, Countable K2} (m m' : gmap K1 (gmap K2 A)) :
  (forall k, m !! k ≠ Some ∅) -> (forall k, m' !! k ≠ Some ∅) ->
  (forall k j, default ∅ (m !! k) !! j = default ∅ (m' !! k) !! j) -> m = m'.
Proof.
  intros H1 H2 He. apply map_eq. intros k.
  assert (Hd : default ∅ (m !! k) = default ∅ (m' !! k)) by (apply map_eq; intros j; apply He).
  specialize (H1 k). specialize (H2 k). destruct (m !! k), (m' !! k); cbn in Hd; congruence.
Qed.

Lemma dom_nonempty {A} (m m' : gmap Ref (list A)) : (forall k, m !! k ≠ Some []) -> (forall k, m' !! k ≠ Some []) ->
  (forall k, default [] (m !! k) ≡ₚ default [] (m' !! k)) -> dom m = dom m'.
Proof.
  intros H1 H2 Hp. apply set_eq. intros k. rewrite !elem_of_dom. specialize (Hp k). specialize (H1 k). specialize (H2 k).
  destruct (m !! k) as [l|] eqn:E1, (m' !! k) as [l'|] eqn:E2; cbn in Hp; try (split; intros [x Hx]; eauto; fail).
  - symmetry in Hp. apply Permutation_nil in Hp. congruence.
  - apply Permutation_nil in Hp. congruence.
Qed.

(** A look-up of consistent effects finds one answer. *)
Ltac agreeing Hc := apply says_same; [assumption|]; intros e e' a b He He' Ea Eb;
  specialize (Hc e e' He He'); destruct e, e'; try discriminate; cbn in *;
  repeat case_decide; try discriminate; destruct_and?;
  first [specialize (Hc ltac:(congruence) ltac:(congruence))|specialize (Hc ltac:(congruence))]; congruence.

Lemma reflects_same c c' es es' : consistent es -> sameEffects es es' -> reflects c es -> reflects c' es' -> sameIndex c c'.
Proof.
  intros Hc Hs R R'. pose proof Hs as [Hm _]. destruct R, R'. split.
  - apply map_eq. intros br. rewrite ref_blobs0, ref_blobs1. agreeing Hc.
  - rewrite ref_sum0, ref_sum1. f_equal. apply sumZ_perm, omap_same; [|done]. intros [] H; cbn in H; tauto.
  - apply nested_ext; [done..|]. intros t br. rewrite ref_cam0, ref_cam1. agreeing Hc.
  - apply map_eq. intros br. rewrite ref_keys0, ref_keys1. agreeing Hc.
  - apply map_eq. intros br. rewrite ref_files0, ref_files1. unfold fileOf.
    assert (says (fileAt br) es = says (fileAt br) es') as -> by (apply says_same; [done|]; by intros ? ? [] []).
    assert (says (infoAt br) es = says (infoAt br) es') as -> by agreeing Hc.
    assert (says (timeAt br) es = says (timeAt br) es') as ->.
    { apply says_same; [done|]. intros e e' a b He He' Ea Eb. specialize (Hc e e' He He').
      destruct e as [| | | |r ts| | | | |], e' as [| | | |r' ts'| | | | |]; try done; cbn in *.
      destruct ts as [|t ts], ts' as [|t' ts']; try done. repeat case_decide; try done; subst. specialize (Hc eq_refl). congruence. }
    assert (says (modTimeAt br) es = says (modTimeAt br) es') as ->.
    { apply says_same; [done|]. intros e e' a b He He' Ea Eb. specialize (Hc e e' He He').
      destruct e as [| | | |r ts| | | | |], e' as [| | | |r' ts'| | | | |]; try done; cbn in *.
      destruct ts as [|t [|m [|x ts]]], ts' as [|t' [|m' [|x' ts']]]; try done. repeat case_decide; try done; subst. specialize (Hc eq_refl). congruence. }
    done.
  - apply map_eq. intros br. rewrite ref_image0, ref_image1. agreeing Hc.
  - apply map_eq. intros br. rewrite ref_whole0, ref_whole1. agreeing Hc.
  - apply nested_ext; [done..|]. intros w tag. rewrite ref_tags0, ref_tags1. agreeing Hc.
  - apply map_eq. intros w. rewrite ref_gps0, ref_gps1. agreeing Hc.
  - intros pn. rewrite ref_claims0, ref_claims1. apply omap_same; [|done]. intros [] H; cbn in H; tauto.
  - apply dom_nonempty; [done..|]. intros pn. rewrite ref_claims0, ref_claims1. apply omap_same; [|done]. intros [] H; cbn in H; tauto.
  - intros pn. rewrite ref_back0, ref_back1. apply omap_same; [|done]. intros [] H; cbn in H; tauto.
Qed.

(** * Loops over rows *)

Definition effectsOf (rows : list (gostr * gostr)) : list effect :=
  omap (fun p => match rowEffect p with Ok ENone => None | Ok e => Some e | _ => None end) rows.

Definition readable (p : gostr * gostr) : Prop := is_ok (rowEffect p) = true.

Definition metaRef (e : effect) : option Ref := match e with EMeta bm => Some (bm_Ref bm) | _ => None end.

Definition applyRow (c : Corpus) (p : gostr * gostr) : res Corpus := let? e := rowEffect p in applyEffect c e.

Lemma says_metaAt es br : says (metaAt br) es = None <-> br ∉ omap metaRef es.
Proof.
  induction es as [|e es IH]; [cbn; rewrite elem_of_nil; tauto|]. rewrite says_cons, omap_cons'.
  destruct e; cbn [metaAt metaRef]; try done. case_decide; rewrite elem_of_cons.
  - split; [done|]. intros H'. exfalso. apply H'. left. congruence.
  - rewrite IH. split; [intros H1 [H2|H2]; congruence|tauto].
Qed.

Lemma applyEffect_ok c e es : reflects c es -> NoDup (omap metaRef (e :: es)) -> exists c', applyEffect c e = Ok c'.
Proof.
  intros R Hn. destruct e; cbn [applyEffect]; eauto. rewrite omap_cons' in Hn. cbn in Hn.
  apply NoDup_cons in Hn as [Hn _]. unfold mergeBlobMeta. rewrite (ref_blobs _ _ R).
  apply says_metaAt in Hn as ->. eauto.
Qed.

(** What a merge leaves alone. *)
Definition frame (c c' : Corpus) : Prop :=
  deletes c' = deletes c /\ building c' = building c /\ gen c' = gen c /\
  permanodesByTime c' = permanodesByTime c /\ permanodesByModtime c' = permanodesByModtime c.

Lemma frame_refl c : frame c c.
Proof. repeat (split; [done|]). done. Qed.
Lemma frame_trans c1 c2 c3 : frame c1 c2 -> frame c2 c3 -> frame c1 c3.
Proof. intros (? & ? & ? & ? & ?) (? & ? & ? & ? & ?). repeat split; congruence. Qed.

Lemma applyEffect_frame c e c' : applyEffect c e = Ok c' -> frame c c'.
Proof.
  destruct e; cbn; try (intros [= <-]; repeat split; done). unfold mergeBlobMeta. destruct (cblobs c !! _); [done|].
  intros [= <-]; repeat split; done.
Qed.

Lemma effectsOf_cons p rows e : rowEffect p = Ok e -> e = ENone /\ effectsOf (p :: rows) = effectsOf rows \/ effectsOf (p :: rows) = e :: effectsOf rows.
Proof. intros E. unfold effectsOf. cbn. rewrite E. destruct e; auto. Qed.

Lemma elem_of_effectsOf rows e : e ∈ effectsOf rows <-> e ≠ ENone /\ exists p, p ∈ rows /\ rowEffect p = Ok e.
Proof.
  unfold effectsOf. rewrite list_elem_of_omap. split.
  - intros (p & Hp & E). destruct (rowEffect p) as [x| | |] eqn:Ex; try done. destruct x; try done; injection E as <-; (split; [done|]); by exists p.
  - intros (Hne & p & Hp & E). exists p. split; [done|]. rewrite E. by destruct e.
Qed.

Lemma applyRows_reflects rows c es : reflects c es -> Forall readable rows -> NoDup (omap metaRef (rev (effectsOf rows) ++ es)) ->
  exists c', keepLoop applyRow rows c = (c', Ok tt) /\ reflects c' (rev (effectsOf rows) ++ es) /\ frame c c'.
Proof.
  revert c es. induction rows as [|p rows IH]; intros c es R Hr Hn; [exists c; auto using frame_refl|].
  apply Forall_cons in Hr as [Hp Hr]. unfold readable in Hp. destruct (rowEffect p) as [e| | |] eqn:Ee; try done.
  destruct (effectsOf_cons _ rows _ Ee) as [[-> E]|E]; rewrite E in Hn |- *; clear E.
  { cbn [keepLoop]. unfold applyRow at 1. rewrite Ee. cbn [rbind applyEffect]. by apply IH. }
  cbn [rev] in Hn |- *. rewrite <- app_assoc in Hn |- *. cbn [app] in Hn |- *.
  destruct (applyEffect_ok c e es R) as [c1 E1].
  { rewrite omap_app in Hn. by apply NoDup_app in Hn as (_ & _ & Hn). }
  cbn [keepLoop]. unfold applyRow at 1. rewrite Ee. cbn [rbind]. rewrite E1.
  destruct (IH c1 (e :: es)) as (c' & E' & R' & Hf); [by eapply apply_reflects|done..|].
  exists c'. split; [done|]. split; [done|]. eapply frame_trans; [by eapply applyEffect_frame|done].
Qed.

Lemma keepLoop_ext {B} (f g : Corpus -> B -> res Corpus) l c : (forall c p, p ∈ l -> f c p = g c p) -> keepLoop f l c = keepLoop g l c.
Proof.
  revert c. induction l as [|b l IH]; intros c H; [done|]. cbn. rewrite H by set_solver.
  destruct (g c b); [|done..]. apply IH. set_solver.
Qed.

Lemma addRow_apply c p : addRow (@sortBy) c p = applyRow c p.
Proof.
  clear sortBy_perm. unfold addRow, applyRow. destruct p as [k v]; cbn [fst snd]. destruct (slurpedKeyType (typeOfKey k)) eqn:E.
  - by apply callMerge_effect.
  - unfold rowEffect. set (kt := typeOfKey k) in *.
    assert (Hk : forall t, t ∈ map typeOfKey slurpPrefixes -> kt ≠ t).
    { intros t Ht ->. unfold slurpedKeyType in E. apply bool_decide_eq_false in E. done. }
    repeat (rewrite decide_False; [|apply Hk; vm_compute; set_solver]). done.
Qed.

(** * Rows by prefix *)

(** The keys from a prefix up to its successor are those it begins. *)
Lemma str_between q b k : bz b < 127 ->
  str_le (q ++ [b]) k /\ str_lt k (q ++ stringOfByte (bz b + 1)) <-> (q ++ [b]) `prefix_of` k.
Proof.
  intros Hb. pose proof (bz_range b). assert (stringOfByte (bz b + 1) = [zb (bz b + 1)]) as ->.
  { unfold stringOfByte. destruct (Z.ltb_spec (bz b + 1) 128); [done|lia]. }
  revert k. induction q as [|x q IH]; intros k; cbn [app]; (destruct k as [|c k]; [split; [intros [H1 _]; by unfold str_le in H1|by intros [l Hl]]|]).
  - rewrite str_le_cons, str_lt_cons, bz_zb_small by lia. split.
    + intros [H1 H2]. assert (b = c) as ->; [|by exists k].
      destruct H1 as [?|[? _]]; [|done]. destruct H2 as [?|[_ H2]]; [lia|by apply str_lt_nil in H2].
    + intros [l Hl]. injection Hl as -> ->. split; [right; split; [done|]; apply str_nil_le|left; lia].
  - rewrite str_le_cons, str_lt_cons. split.
    + intros [H1 H2]. assert (x = c) as -> by (destruct H1 as [?|[? _]]; [destruct H2 as [?|[? _]]; [lia|done]|done]).
      apply prefix_cons, IH. split; [destruct H1 as [?|[_ ?]]|destruct H2 as [?|[_ ?]]]; [lia|done|lia|done].
    + intros Hp. assert (x = c) as -> by (destruct Hp as [l Hl]; by injection Hl). apply prefix_cons_inv_2, IH in Hp as [H1 H2]. auto.
Qed.

Lemma str_app_nonnil (q : gostr) b : q ++ [b] ≠ [].
Proof. by destruct q. Qed.

Context {K : Type} `{!KV K} `{!KVLaws K}.

Lemma queryPrefixString_rows (s : K) q b : bz b < 127 -> (forall a e, (kv_find a e s).2 = None) ->
  queryPrefixString s (q ++ [b]) = Ok (filter (fun p => (q ++ [b]) `prefix_of` p.1) (sortedPairs (kv_view s)), None).
Proof.
  intros Hb Hf. unfold queryPrefixString, prefixEnd. rewrite last_snoc.
  destruct (Z.eqb_spec (bz b) 255); [lia|]. cbn [rbind]. rewrite removelast_last.
  set (e := q ++ stringOfByte (bz b + 1)). specialize (Hf (q ++ [b]) e).
  destruct (kv_find (q ++ [b]) e s) as [l ge] eqn:E. cbn in Hf. subst ge. apply kv_find_ok in E as ->.
  do 2 f_equal. unfold rangeOf. apply filter_ext. intros [k v] _. unfold inRange. cbn.
  subst e. rewrite <- (str_between q b k Hb). split; [intros [H1 [H2|H2]]; [|tauto]|tauto].
  exfalso. unfold stringOfByte in H2. destruct (_ <? 128) in H2; by destruct q.
Qed.

(** * Scanning *)

Definition prefixRows (m : gmap gostr gostr) (p : gostr) : list (gostr * gostr) := filter (fun r => p `prefix_of` r.1) (sortedPairs m).

Lemma typeOfKey_app t sep r : (sep = ":" \/ sep = pipe)%char -> ":"%char ∉ t -> pipe ∉ t -> typeOfKey (t ++ sep :: r) = t.
Proof.
  intros Hsep H1 H2. unfold typeOfKey.
  assert (Hlt : forall c i, c ∉ t -> c ≠ sep -> index_byte c (t ++ sep :: r) = Some i -> (length t < i)%nat).
  { intros c i Hc Hne Hi. apply index_byte_Some in Hi as (E & _ & Hi).
    assert (Hl : (t ++ sep :: r) !! i = Some c) by (rewrite E, <- Hi at 1; apply list_lookup_middle; congruence).
    destruct (Nat.lt_total i (length t)) as [Hlt|[->|Hgt]]; [| |done]; exfalso.
    - rewrite lookup_app_l in Hl by done. apply Hc. by apply list_elem_of_lookup_2 in Hl.
    - rewrite list_lookup_middle in Hl by done. congruence. }
  destruct Hsep as [-> | ->].
  - rewrite (index_byte_app ":" t r) by done. destruct (index_byte pipe _) as [i|] eqn:E; [|by rewrite take_app_length].
    apply Hlt in E; [|done..]. destruct (Nat.ltb_spec i (length t)); [lia|]. by rewrite take_app_length.
  - rewrite (index_byte_app pipe t r) by done. destruct (index_byte ":" _) as [i|] eqn:E; [|by rewrite take_app_length].
    apply Hlt in E; [|done..]. destruct (Nat.ltb_spec (length t) i); [|lia]. by rewrite take_app_length.
Qed.

Lemma slurpPrefix_shape p : p ∈ slurpPrefixes ->
  exists t sep, p = t ++ [sep] /\ (sep = ":" \/ sep = pipe)%char /\ ":"%char ∉ t /\ pipe ∉ t /\ slurpedKeyType t = true.
Proof.
  assert (H : Forall (fun p => exists t sep, p = t ++ [sep] /\ (sep = ":" \/ sep = pipe)%char /\ ":"%char ∉ t /\ pipe ∉ t /\ slurpedKeyType t = true) slurpPrefixes).
  { unfold slurpPrefixes. cbn [map].
    repeat (apply Forall_cons; split); [..|constructor];
      match goal with |- exists t sep, ?p = _ /\ _ => exists (removelast p), (List.last p " "%char) end;
      (split; [vm_compute; reflexivity|]); (split; [first [left; vm_compute; reflexivity|right; vm_compute; reflexivity]|]);
      (split; [apply (bool_decide_unpack _); vm_compute; exact I|]); (split; [apply (bool_decide_unpack _); vm_compute; exact I|]); vm_compute; reflexivity. }
  rewrite Forall_forall in H. apply H.
Qed.

Lemma slurpPrefix_type p k : p ∈ slurpPrefixes -> p `prefix_of` k -> typeOfKey k = typeOfKey p /\ slurpedKeyType (typeOfKey p) = true.
Proof.
  intros Hp [r ->]. destruct (slurpPrefix_shape p Hp) as (t & sep & -> & Hs & H1 & H2 & H3).
  rewrite <- app_assoc. cbn [app]. rewrite !typeOfKey_app by done. done.
Qed.

Lemma scanPrefix_ok (s : K) c es p : (forall a e, (kv_find a e s).2 = None) -> p ∈ slurpPrefixes -> reflects c es ->
  Forall readable (prefixRows (kv_view s) p) -> NoDup (omap metaRef (rev (effectsOf (prefixRows (kv_view s) p)) ++ es)) ->
  exists c', scanPrefix (@sortBy) c s p = (c', Ok tt) /\ reflects c' (rev (effectsOf (prefixRows (kv_view s) p)) ++ es) /\ frame c c'.
Proof.
  intros Hf Hp R Hr Hn. destruct (applyRows_reflects _ c es R Hr Hn) as (c' & Hk & R').
  exists c'. split; [|done]. unfold scanPrefix.
  pose proof (slurpPrefix_type p p Hp ltac:(done)) as [_ Hs].
  destruct (corpusMergeFunc (@sortBy) (typeOfKey p)) as [fn|] eqn:Efn.
  2:{ pose proof (callMerge_effect c p [] Hs) as H. unfold callMerge in H. rewrite Efn in H. exfalso.
      destruct (slurpPrefix_shape p Hp) as (t & sep & -> & Hsep & H1 & H2 & H3). rewrite (typeOfKey_app t sep []) in * by done.
      clear -Efn H3. unfold corpusMergeFunc in Efn. unfold slurpedKeyType in H3. apply bool_decide_eq_true in H3.
      set (l := map typeOfKey slurpPrefixes) in H3. vm_compute in l. subst l.
      repeat (case_decide; [done|]). cbn in *. set_solver. }
  destruct (slurpPrefix_shape p Hp) as (t & sep & E & Hsep & H1 & H2 & H3).
  rewrite E at 1. rewrite queryPrefixString_rows; [|by destruct Hsep as [-> | ->]|done].
  rewrite <- E. fold (prefixRows (kv_view s) p).
  rewrite (keepLoop_ext _ applyRow), Hk; [done|]. intros c0 [k v] Hin. cbn [fst snd]. unfold applyRow.
  unfold prefixRows in Hin. apply list_elem_of_filter in Hin as [Hpre _]. cbn in Hpre.
  destruct (slurpPrefix_type p k Hp Hpre) as [Ek _]. rewrite <- callMerge_effect by (by rewrite Ek).
  unfold callMerge. by rewrite Ek, Efn.
Qed.

Lemma effectsOf_app l k : effectsOf (l ++ k) = effectsOf l ++ effectsOf k.
Proof. apply omap_app. Qed.

Lemma scanGroup_ok (s : K) ps c es : (forall a e, (kv_find a e s).2 = None) -> (forall p, p ∈ ps -> p ∈ slurpPrefixes) -> reflects c es ->
  let L := concat (map (prefixRows (kv_view s)) ps) in
  Forall readable L -> NoDup (omap metaRef (rev (effectsOf L) ++ es)) ->
  exists c', scanGroup (@sortBy) s ps c = (c', Ok tt) /\ reflects c' (rev (effectsOf L) ++ es) /\ frame c c'.
Proof.
  intros Hf. revert c es. induction ps as [|p ps IH]; intros c es Hps R L Hr Hn; [exists c; auto using frame_refl|].
  subst L. cbn [map concat] in *. rewrite effectsOf_app, rev_app_distr, <- app_assoc in Hn |- *.
  apply Forall_app in Hr as [Hr1 Hr2].
  destruct (scanPrefix_ok s c es p Hf (Hps p ltac:(by left)) R Hr1) as (c1 & E1 & R1 & F1).
  { rewrite omap_app in Hn. by apply NoDup_app in Hn as (_ & _ & Hn). }
  destruct (IH c1 _ ltac:(set_solver) R1 Hr2 Hn) as (c2 & E2 & R2 & F2).
  exists c2. split; [cbn [scanGroup]; by rewrite E1, E2|]. split; [done|]. by eapply frame_trans.
Qed.

(** A row whose type is read into memory has one of the prefixes, and a row of
    a blob is not one that reads as the zero value. *)
Definition wellKeyed (r : gostr * gostr) : Prop :=
  (slurpedKeyType (typeOfKey r.1) = true -> exists p, p ∈ slurpPrefixes /\ p `prefix_of` r.1) /\
  (forall bm, rowEffect r = Ok (EMeta bm) -> Valid (bm_Ref bm) = true).

Lemma rowEffect_meta k v bm : rowEffect (k, v) = Ok (EMeta bm) -> typeOfKey k = gs "meta" /\ kvBlobMeta_bytes k v = Ok (Some bm).
Proof.
  unfold rowEffect. case_decide as E.
  - intros (o & Ho & H)%rbind_Ok. destruct o as [b|]; [|done]. cbn in H. split; [done|]. congruence.
  - intros H. exfalso. repeat (case_decide; [clear E|]);
      repeat match goal with
        | H : rbind _ _ = Ok _ |- _ => apply rbind_Ok in H as (? & _ & H)
        | H : match ?x with _ => _ end = Ok _ |- _ => destruct x
        end; discriminate.
Qed.

Lemma meta_row_key k v bm : rowEffect (k, v) = Ok (EMeta bm) -> wellKeyed (k, v) -> k = gs "meta:" ++ RefString (bm_Ref bm).
Proof.
  intros He [Hw Hval]. specialize (Hval bm He). apply rowEffect_meta in He as [Ht Hk]. cbn [fst] in Hw.
  destruct Hw as (p & Hp & Hpre); [by rewrite Ht|].
  destruct (slurpPrefix_type p k Hp Hpre) as [E _]. rewrite Ht in E.
  assert (p = gs "meta:") as ->.
  { unfold slurpPrefixes in Hp. cbn [map] in Hp. repeat (apply elem_of_cons in Hp as [->|Hp]; [first [reflexivity|vm_compute in E; discriminate]|]).
    by apply elem_of_nil in Hp. }
  destruct Hpre as [r ->]. f_equal. unfold kvBlobMeta_bytes in Hk. change (drop 5 (gs "meta:" ++ r)) with r in Hk.
  destruct (_ <? 5)%nat; [done|]. apply rbind_Ok in Hk as (o & Hb & Hk). injection Hk as Hk. destruct o as [br|]; [|done]. cbn in Hk.
  rewrite ParseBytes_Parse in Hb. apply Parse_inv in Hb as [_ <-].
  destruct (index_byte pipe v) as [i|]; [|by injection Hk as <-]. cbn in Hk. destruct (ParseUintBytes _ _ _) as [z [e|]]; by injection Hk as <-.
Qed.

Lemma metaRefs_NoDup L : NoDup L.*1 -> (forall p, p ∈ L -> wellKeyed p) -> NoDup (omap metaRef (effectsOf L)).
Proof.
  induction L as [|[k v] L IH]; intros Hn Hw; [constructor|]. rewrite fmap_cons in Hn. apply NoDup_cons in Hn as [Hk Hn].
  specialize (IH Hn ltac:(set_solver)). destruct (rowEffect (k, v)) as [e| | |] eqn:E; [|unfold effectsOf; cbn [omap list_omap]; rewrite E; exact IH..].
  destruct (effectsOf_cons _ L _ E) as [[-> E1]|E1]; rewrite E1; [done|]. rewrite omap_cons'.
  destruct e; try done. cbn [metaRef]. constructor; [|done].
  intros (e & He & Hr)%list_elem_of_omap. destruct e; try done. injection Hr as Hr.
  apply elem_of_effectsOf in He as (_ & [k' v'] & Hin & E'').
  apply Hk. apply meta_row_key in E; [|by apply (Hw (k, v)); left]. apply meta_row_key in E''; [|by apply (Hw (k', v')); right].
  cbn. rewrite E, <- Hr, <- E''. by apply (list_elem_of_fmap_2 fst _ (k', v')).
Qed.

(** Before the second part of the scan there are only blobs. *)
Lemma reflects_clear c es : Forall (fun e => exists bm, e = EMeta bm) es -> reflects c es -> reflects (setPermanodes (setFiles c ∅) ∅) es.
Proof.
  intros Hm R. destruct R. split; try done; cbn.
  - intros pn. rewrite lookup_empty. cbn. clear -Hm. induction Hm as [|e es [bm ->] _ IH]; [done|]. rewrite omap_cons'. apply IH.
  - intros br. rewrite lookup_empty. unfold fileOf. clear -Hm. induction Hm as [|e es [bm ->] _ IH]; [done|]. rewrite says_cons. apply IH.
Qed.

Lemma reflects_sorted c es b : reflects c es -> reflects (setBuilding (setPermanodes c (sortBy cl_Date <$> permanodes c)) b) es.
Proof.
  intros R. destruct R. split; try done; cbn.
  - intros pn. rewrite <- ref_claims0, lookup_fmap. destruct (permanodes c !! pn); cbn; [apply sortBy_perm|done].
  - intros pn. rewrite lookup_fmap. specialize (ref_claims_ne0 pn). destruct (permanodes c !! pn) as [l|]; [|done].
    cbn. intros [= H]. pose proof (sortBy_perm _ cl_Date l) as Hp. rewrite H in Hp. apply Permutation_nil in Hp. congruence.
Qed.

(** All the rows that are read. *)
Definition hasPrefix (r : gostr * gostr) : Prop := Exists (fun p => p `prefix_of` r.1) slurpPrefixes.
#[local] Instance hasPrefix_dec r : Decision (hasPrefix r).
Proof. unfold hasPrefix. apply _. Defined.

Hypothesis arrange_perm : forall A (l : list A), arrange l ≡ₚ l.

Lemma NoDup_map_inj {A B} (f : A -> B) l x y : NoDup (map f l) -> x ∈ l -> y ∈ l -> f x = f y -> x = y.
Proof.
  induction l as [|z l IH]; intros Hn Hx Hy E; [by apply elem_of_nil in Hx|]. cbn in Hn. apply NoDup_cons in Hn as [Hz Hn].
  apply elem_of_cons in Hx as [->|Hx], Hy as [->|Hy]; try done.
  - destruct Hz. rewrite E. by apply list_elem_of_fmap_2.
  - destruct Hz. rewrite <- E. by apply list_elem_of_fmap_2.
  - auto.
Qed.

Lemma slurpPrefix_inj p q k : p ∈ slurpPrefixes -> q ∈ slurpPrefixes -> p `prefix_of` k -> q `prefix_of` k -> p = q.
Proof.
  intros Hp Hq Hpk Hqk. destruct (slurpPrefix_type p k Hp Hpk) as [E1 _], (slurpPrefix_type q k Hq Hqk) as [E2 _].
  eapply (NoDup_map_inj typeOfKey slurpPrefixes); [|done..|congruence]. apply (bool_decide_unpack _). vm_compute. exact I.
Qed.

Lemma sortedPairs_NoDup_fst (m : gmap gostr gostr) : NoDup (sortedPairs m).*1.
Proof. unfold sortedPairs. rewrite merge_sort_Permutation. apply NoDup_fst_map_to_list. Qed.

Lemma in_concat_iff {A} (x : A) (ls : list (list A)) : x ∈ concat ls <-> exists l, l ∈ ls /\ x ∈ l.
Proof. rewrite list_elem_of_In, in_concat. setoid_rewrite list_elem_of_In. done. Qed.

Lemma prefixRows_NoDup m ps : NoDup ps -> (forall p, p ∈ ps -> p ∈ slurpPrefixes) -> NoDup (concat (map (prefixRows m) ps)).
Proof.
  induction ps as [|p ps IH]; intros Hn Hps; [constructor|]. apply NoDup_cons in Hn as [Hp Hn]. cbn.
  apply NoDup_app. split; [|split; [|apply IH; [done|set_solver]]].
  - apply NoDup_filter. eapply NoDup_fmap_1, sortedPairs_NoDup_fst.
  - intros r Hr Hr'. apply list_elem_of_filter in Hr as [Hpr _].
    apply in_concat_iff in Hr' as (l & Hl & Hin). apply list_elem_of_fmap in Hl as (q & -> & Hq).
    apply list_elem_of_filter in Hin as [Hqr _]. rewrite (slurpPrefix_inj p q r.1) in Hp; [done|set_solver..|done|done].
Qed.

Definition scanRows (m : gmap gostr gostr) : list (gostr * gostr) :=
  prefixRows m (gs "meta:") ++ concat (map (prefixRows m) (arrange (tail slurpPrefixes))).

Lemma scanRows_perm m : scanRows m ≡ₚ filter hasPrefix (map_to_list m).
Proof.
  set (ps := gs "meta:" :: arrange (tail slurpPrefixes)).
  assert (Hps : ps ≡ₚ slurpPrefixes) by (unfold ps; by rewrite arrange_perm).
  change (scanRows m) with (concat (map (prefixRows m) ps)). apply NoDup_Permutation.
  - apply prefixRows_NoDup; [|intros p; by rewrite Hps]. rewrite Hps. apply (bool_decide_unpack _). vm_compute. exact I.
  - apply NoDup_filter, NoDup_map_to_list.
  - intros r. change (map (prefixRows m) ps) with (prefixRows m <$> ps). rewrite list_elem_of_filter, in_concat_iff. setoid_rewrite list_elem_of_fmap. unfold hasPrefix. rewrite Exists_exists.
    assert (Hin : forall p, p ∈ slurpPrefixes <-> p ∈ ps) by (intros p; by rewrite Hps). split.
    + intros (l & (p & -> & Hp) & Hr). apply Hin in Hp. apply list_elem_of_filter in Hr as [Hpr Hr]. unfold sortedPairs in Hr.
      rewrite merge_sort_Permutation in Hr. split; [by exists p|done].
    + intros [(p & Hp & Hpr) Hr]. apply Hin in Hp. exists (prefixRows m p). split; [by exists p|]. apply list_elem_of_filter. split; [done|].
      unfold sortedPairs. by rewrite merge_sort_Permutation.
Qed.

Definition rowsOk (m : gmap gostr gostr) : Prop :=
  forall k v, m !! k = Some v -> readable (k, v) /\ wellKeyed (k, v) /\
    (gs "deleted|" `prefix_of` k -> exists cl, kvDeleted k = Ok (Some cl)).

Lemma rowEffect_other k v : slurpedKeyType (typeOfKey k) = false -> rowEffect (k, v) = Ok ENone.
Proof.
  intros E. pose proof (addRow_apply newCorpus (k, v)) as H. clear H. unfold rowEffect. set (kt := typeOfKey k) in *.
  assert (Hk : forall t, t ∈ map typeOfKey slurpPrefixes -> kt ≠ t).
  { intros t Ht ->. unfold slurpedKeyType in E. apply bool_decide_eq_false in E. done. }
  repeat (rewrite decide_False; [|apply Hk; vm_compute; set_solver]). done.
Qed.

Lemma effectsOf_filter m l : rowsOk m -> (forall p, p ∈ l -> m !! p.1 = Some p.2) -> effectsOf l = effectsOf (filter hasPrefix l).
Proof.
  intros Hm. induction l as [|[k v] l IH]; intros Hl; [done|]. rewrite filter_cons.
  pose proof (Hl (k, v) ltac:(by left)) as Hk. cbn in Hk. destruct (Hm k v Hk) as (Hr & Hw & _). unfold readable in Hr.
  destruct (rowEffect (k, v)) as [e| | |] eqn:E; try done. specialize (IH ltac:(set_solver)). case_decide as Hp.
  - unfold effectsOf. cbn [omap list_omap]. rewrite E. fold (effectsOf l) (effectsOf (filter hasPrefix l)). by destruct e; rewrite IH.
  - destruct (slurpedKeyType (typeOfKey k)) eqn:Es.
    + destruct Hp. destruct (proj1 Hw Es) as (p & Hp & Hpk). apply Exists_exists. eauto.
    + rewrite rowEffect_other in E by done. injection E as <-.
      unfold effectsOf at 1. cbn [omap list_omap]. rewrite rowEffect_other by done. exact IH.
Qed.

(** * Deletions *)

Hypothesis sortBy_sorted : forall A (key : A -> gotime) l, StronglySorted Z.le (map key (sortBy key l)).

Definition deletedOf (r : gostr * gostr) : option (Ref * deletion) :=
  match kvDeleted r.1 with
  | Ok (Some cl) => Some (cl_Target cl, MkDeletion (cl_BlobRef cl) (cl_Date cl))
  | _ => None
  end.
Definition deletedRows (m : gmap gostr gostr) : list (gostr * gostr) := prefixRows m (gs "deleted|").

Definition deletionOn (t : Ref) (p : Ref * deletion) : option deletion := if decide (p.1 = t) then Some p.2 else None.

(** The deletions of every blob, the newest first. *)
Definition newestFirst (l : list deletion) : Prop := StronglySorted Z.le (map (fun d => - d_when d) l).
Definition reflectsDeletes (c : Corpus) (D : list (Ref * deletion)) : Prop :=
  forall t, default [] (deletes c !! t) ≡ₚ omap (deletionOn t) D /\ newestFirst (default [] (deletes c !! t)).

Lemma addDeletion_reflects c D t d : reflectsDeletes c D ->
  reflectsDeletes (setDeletes c (<[t := byNewest (@sortBy) (default [] (deletes c !! t) ++ [d])]> (deletes c))) ((t, d) :: D).
Proof.
  intros R t'. cbn. unfold deletionOn at 1. cbn. destruct (decide (t = t')) as [<-|Hne].
  - rewrite lookup_insert_eq. cbn. split; [|apply (sortBy_sorted _ (fun d => - d_when d))]. unfold byNewest. rewrite sortBy_perm.
    rewrite (proj1 (R t)). by rewrite Permutation_app_comm.
  - rewrite lookup_insert_ne by done. apply R.
Qed.

(** Whatever a corpus is filled with, the deletions are apart from the rest. *)
Lemma reflects_setDeletes c d es : reflects c es -> reflects (setDeletes c d) es.
Proof. intros R. by destruct R. Qed.

Definition deletesOf (rows : list (gostr * gostr)) : list (Ref * deletion) := omap deletedOf rows.

Lemma initDeletes_loop rows c es D : reflects c es -> reflectsDeletes c D ->
  (forall r, r ∈ rows -> exists cl, kvDeleted r.1 = Ok (Some cl)) ->
  exists c', keepLoop (initDeletesRow (@sortBy)) rows c = (c', Ok tt) /\ reflects c' es /\ reflectsDeletes c' (rev (deletesOf rows) ++ D) /\
    permanodes c' = permanodes c /\ building c' = building c /\ gen c' = gen c /\
    permanodesByTime c' = permanodesByTime c /\ permanodesByModtime c' = permanodesByModtime c.
Proof.
  revert c D. induction rows as [|r rows IH]; intros c D R RD Hr; [by exists c|].
  destruct (Hr r) as [cl Hcl]; [by left|]. cbn [keepLoop]. unfold initDeletesRow at 1. rewrite Hcl. cbn [rbind].
  pose proof (addDeletion_reflects c D (cl_Target cl) (MkDeletion (cl_BlobRef cl) (cl_Date cl)) RD) as RD'.
  destruct (IH _ _ (reflects_setDeletes _ _ _ R) RD') as (c' & E & R' & RD'' & Hrest); [set_solver|].
  exists c'. split; [exact E|]. split; [done|]. split; [|done].
  unfold deletesOf. cbn [omap list_omap]. unfold deletedOf at 1. rewrite Hcl. cbn [rev]. rewrite <- app_assoc. exact RD''.
Qed.

Lemma Prefix_deleted : Prefix keyDeleted [] = Ok (gs "deleted|").
Proof. reflexivity. Qed.

Lemma elem_of_deletedRows m k v : (k, v) ∈ deletedRows m <-> m !! k = Some v /\ gs "deleted|" `prefix_of` k.
Proof. unfold deletedRows, prefixRows. rewrite list_elem_of_filter, elem_of_sortedPairs. cbn. tauto. Qed.

Definition claimsSorted (c : Corpus) : Prop := forall pn l, permanodes c !! pn = Some l -> datesSorted l.

(** A corpus that holds the rows [m]. *)
Record holdsRows (c : Corpus) (m : gmap gostr gostr) : Prop := {
  hr_effects : exists es, reflects c es /\ sameEffects es (effectsOf (map_to_list m));
  hr_deletes : reflectsDeletes c (deletesOf (deletedRows m));
  hr_sorted : claimsSorted c;
  hr_building : building c = false
}.

Lemma reflectsDeletes_perm c D D' : D ≡ₚ D' -> reflectsDeletes c D -> reflectsDeletes c D'.
Proof. intros Hp R t. rewrite <- Hp. apply R. Qed.

Lemma readable_rows m rows : rowsOk m -> (forall k v, (k, v) ∈ rows -> m !! k = Some v) -> Forall readable rows.
Proof. intros Hm Hr. apply Forall_forall. intros [k v] Hin. by apply Hm, Hr. Qed.

Lemma scanRows_in m k v : (k, v) ∈ scanRows m -> m !! k = Some v.
Proof. rewrite scanRows_perm. intros H. apply list_elem_of_filter in H as [_ H]. by apply elem_of_map_to_list. Qed.

Lemma scanRows_effects m : rowsOk m -> effectsOf (scanRows m) ≡ₚ effectsOf (map_to_list m).
Proof.
  intros Hm. rewrite (effectsOf_filter m (map_to_list m) Hm).
  - unfold effectsOf. apply omap_Permutation, scanRows_perm.
  - intros [k v] H. by apply elem_of_map_to_list.
Qed.

Lemma filter_fst_NoDup (P : gostr * gostr -> Prop) `{!forall r, Decision (P r)} l : NoDup l.*1 -> NoDup (filter P l).*1.
Proof.
  induction l as [|r l IH]; intros Hn; [done|]. rewrite fmap_cons in Hn. apply NoDup_cons in Hn as [Hr Hn].
  rewrite filter_cons. case_decide; [|auto]. rewrite fmap_cons. constructor; [|auto].
  intros (r' & E & Hin)%list_elem_of_fmap. apply list_elem_of_filter in Hin as [_ Hin]. apply Hr. rewrite E. by apply list_elem_of_fmap_2.
Qed.

Lemma scanRows_metas m : rowsOk m -> NoDup (omap metaRef (effectsOf (scanRows m))).
Proof.
  intros Hm. apply metaRefs_NoDup.
  - rewrite scanRows_perm. apply filter_fst_NoDup, NoDup_fst_map_to_list.
  - intros [k v] H. apply scanRows_in in H. by apply Hm in H as (_ & ? & _).
Qed.

Lemma metas_only m : rowsOk m -> Forall (fun e => exists bm, e = EMeta bm) (rev (effectsOf (prefixRows m (gs "meta:"))) ++ []).
Proof.
  intros Hm. rewrite app_nil_r. apply Forall_rev, Forall_forall. intros e (_ & [k v] & Hin & E)%elem_of_effectsOf.
  apply list_elem_of_filter in Hin as [Hp _]. destruct (slurpPrefix_type (gs "meta:") k ltac:(by left) Hp) as [Hk _].
  unfold rowEffect in E. rewrite decide_True in E by (rewrite Hk; reflexivity).
  apply rbind_Ok in E as (o & _ & E). apply rbind_Ok in E as (bm & _ & [= <-]). by exists bm.
Qed.

(** Reading the index into memory succeeds, and the corpus then holds its
    rows. *)
Lemma NewCorpus_holds (s : K) : (forall a e, (kv_find a e s).2 = None) -> rowsOk (kv_view s) ->
  exists c, NewCorpusFromStorage (@sortBy) (@arrange) s = (c, Ok tt) /\ holdsRows c (kv_view s) /\
    gen c = 0 /\ permanodesByTime c = newLazy /\ permanodesByModtime c = newLazy.
Proof.
  intros Hf Hm. set (m := kv_view s) in *. pose proof (scanRows_metas m Hm) as Hn. pose proof (readable_rows m _ Hm (scanRows_in m)) as Hr.
  pose proof (scanRows_effects m Hm) as Hsame.
  unfold scanRows in Hn, Hr, Hsame. rewrite effectsOf_app in Hn, Hsame. apply Forall_app in Hr as [Hr1 Hr2].
  set (L1 := prefixRows m (gs "meta:")) in *. set (L2 := concat _) in *.
  assert (Hn2 : NoDup (omap metaRef (rev (effectsOf L2) ++ rev (effectsOf L1) ++ []))).
  { rewrite app_nil_r, <- rev_app_distr. rewrite <- Permutation_rev. exact Hn. }
  destruct (scanPrefix_ok s (setBuilding newCorpus true) [] (gs "meta:") Hf) as (c1 & E1 & R1 & F1);
    [by left|by destruct reflects_new|done|by rewrite omap_app in Hn2; apply NoDup_app in Hn2 as (_ & _ & Hn2)|].
  assert (R1' := reflects_clear c1 _ (metas_only m Hm) R1).
  destruct (scanGroup_ok s (arrange (tail slurpPrefixes)) _ _ Hf ltac:(intros p; rewrite arrange_perm; by right) R1' Hr2 Hn2) as (c2 & E2 & R2 & F2).
  assert (R3 := reflects_sorted c2 _ false R2). set (c3 := setBuilding _ false) in R3.
  destruct (initDeletes_loop (deletedRows m) c3 _ [] R3) as (c4 & E4 & R4 & RD & Ep & Eb & F4).
  { intros t. destruct F1 as (D1 & _), F2 as (D2 & _).
    assert (deletes c3 = ∅) as -> by (subst c3; cbn; rewrite D2; cbn; by rewrite D1). split; [done|constructor]. }
  { intros [k v] Hin. apply elem_of_deletedRows in Hin as [Hk Hp]. by apply (Hm k v). }
  destruct F1 as (_ & _ & G1 & T1 & U1), F2 as (_ & _ & G2 & T2 & U2), F4 as (G4 & T4 & U4).
  exists c4. split; [|split; [split|]].
  - unfold NewCorpusFromStorage, scanFromStorage. rewrite E1, E2. unfold initDeletes, queryPrefix. rewrite Prefix_deleted. cbn [rbind].
    change (gs "deleted|") with (gs "deleted" ++ ["|"%char]). rewrite queryPrefixString_rows by done.
    change (filter _ _) with (deletedRows m). fold c3. rewrite E4. done.
  - eexists. split; [exact R4|]. apply sameEffects_perm. rewrite <- Hsame, app_nil_r, <- rev_app_distr. symmetry. apply Permutation_rev.
  - eapply reflectsDeletes_perm; [|exact RD]. rewrite app_nil_r. symmetry. apply Permutation_rev.
  - intros pn l Hl. rewrite Ep in Hl. subst c3. cbn in Hl. rewrite lookup_fmap in Hl. apply fmap_Some in Hl as (l' & _ & ->).
    apply (sortBy_sorted _ cl_Date).
  - by rewrite Eb.
  - split; [|split]; [rewrite G4|rewrite T4|rewrite U4]; subst c3; cbn; [rewrite G2|rewrite T2|rewrite U2]; cbn; [rewrite G1|rewrite T1|rewrite U1]; done.
Qed.

(** * Adding a blob *)

(** Rows that several blobs may write, always with the same value. *)
Definition repeatable (k : gostr) : Prop := typeOfKey k ∉ map gs ["meta"; "claim"; "deleted"].

Definition delPair (dc : deleteClaim) : Ref * deletion := (dc_Target dc, MkDeletion (dc_Blob dc) (dc_Date dc)).

(** The rows [kv] of a new blob and its deletions, given those [m] that are
    known. *)
Record newRows (kv m : gmap gostr gostr) (dels : list deleteClaim) : Prop := {
  nr_ok : rowsOk kv;
  nr_again : forall k v v', kv !! k = Some v -> m !! k = Some v' -> v' = v /\ repeatable k;
  nr_deletes : map delPair dels ≡ₚ deletesOf (deletedRows kv);
  nr_once : NoDup (map delPair dels ++ deletesOf (deletedRows m))
}.

Lemma counted_type k v e : rowEffect (k, v) = Ok e -> counted e -> ~ repeatable k.
Proof.
  unfold rowEffect, repeatable. intros H Hc Hr. apply Hr. cbn [map].
  destruct (decide (typeOfKey k = gs "meta")) as [->|]; [by left|].
  destruct (decide (typeOfKey k = gs "signerkeyid")).
  { exfalso. repeat (apply rbind_Ok in H as (? & _ & H)). by injection H as <-. }
  destruct (decide (typeOfKey k = gs "claim")) as [->|]; [right; by left|]. exfalso.
  repeat (case_decide; [|]);
    repeat match goal with
      | H : rbind _ _ = Ok _ |- _ => apply rbind_Ok in H as (? & _ & H)
      | H : match ?x with _ => _ end = Ok _ |- _ => destruct x
      end; first [discriminate | by injection H as <-].
Qed.

Lemma map_to_list_union (m1 m2 : gmap gostr gostr) : m1 ##ₘ m2 -> map_to_list (m1 ∪ m2) ≡ₚ map_to_list m1 ++ map_to_list m2.
Proof.
  intros Hd. apply NoDup_Permutation; [apply NoDup_map_to_list| |].
  - apply NoDup_app. split; [apply NoDup_map_to_list|split; [|apply NoDup_map_to_list]].
    intros [k v] H1%elem_of_map_to_list H2%elem_of_map_to_list. by eapply (proj1 (map_disjoint_spec m1 m2)).
  - intros [k v]. rewrite elem_of_app, !elem_of_map_to_list. by apply lookup_union_Some.
Qed.

Lemma map_split (kv m : gmap gostr gostr) : map_to_list kv ≡ₚ map_to_list (kv ∖ m) ++ map_to_list (filter (fun r => is_Some (m !! r.1)) kv).
Proof.
  rewrite <- map_to_list_union; [f_equiv|].
  - apply map_eq. intros k. apply option_eq. intros v. rewrite lookup_union_Some_raw, lookup_difference_Some, map_lookup_filter_Some, lookup_difference_None.
    cbn. destruct (m !! k); naive_solver.
  - apply map_disjoint_spec. intros k v v' (_ & H1)%lookup_difference_Some (_ & [x H2])%map_lookup_filter_Some. cbn in H2. congruence.
Qed.

Lemma map_union_split (kv m : gmap gostr gostr) : (forall k v v', kv !! k = Some v -> m !! k = Some v' -> v' = v) ->
  map_to_list (kv ∪ m) ≡ₚ map_to_list (kv ∖ m) ++ map_to_list m.
Proof.
  intros Ha. rewrite <- map_to_list_union; [f_equiv|].
  - apply map_eq. intros k. apply option_eq. intros v. rewrite !lookup_union_Some_raw, lookup_difference_Some, lookup_difference_None.
    specialize (Ha k). destruct (kv !! k) as [x|], (m !! k) as [y|]; naive_solver.
  - apply map_disjoint_spec. intros k v v' (_ & H1)%lookup_difference_Some H2. congruence.
Qed.

Lemma effectsOf_uncounted l : (forall k v, (k, v) ∈ l -> repeatable k) -> filter counted (effectsOf l) = [].
Proof.
  intros H. apply filter_none, Forall_forall. intros e (_ & [k v] & Hin & E)%elem_of_effectsOf Hc.
  by eapply counted_type; [exact E|exact Hc|eapply H].
Qed.

Lemma effectsOf_perm l k : l ≡ₚ k -> effectsOf l ≡ₚ effectsOf k.
Proof. apply omap_Permutation. Qed.

(** The effects of the new rows and of the old ones are those of all. *)
Lemma newRows_effects kv m dels : newRows kv m dels ->
  sameEffects (effectsOf (map_to_list kv) ++ effectsOf (map_to_list m)) (effectsOf (map_to_list (kv ∪ m))).
Proof.
  intros [Hok Hag _ _]. assert (Ha : forall k v v', kv !! k = Some v -> m !! k = Some v' -> v' = v) by (intros; by eapply Hag).
  split.
  - intros e. rewrite elem_of_app, !elem_of_effectsOf. split.
    + intros [(Hne & [k v] & Hin & E)|(Hne & [k v] & Hin & E)]; (split; [done|]); exists (k, v); (split; [|done]);
        apply elem_of_map_to_list in Hin; apply elem_of_map_to_list; apply lookup_union_Some_raw; [by left|].
      destruct (kv !! k) as [v'|] eqn:E'; [left; f_equal; symmetry; by eapply Ha|by right].
    + intros (Hne & [k v] & Hin & E). apply elem_of_map_to_list, lookup_union_Some_raw in Hin as [Hin|[_ Hin]]; [left|right];
        (split; [done|]); exists (k, v); (split; [|done]); by apply elem_of_map_to_list.
  - rewrite (effectsOf_perm _ _ (map_union_split kv m Ha)), effectsOf_app, !filter_app. f_equiv.
    rewrite (effectsOf_perm _ _ (map_split kv m)), effectsOf_app, filter_app.
    rewrite (effectsOf_uncounted (map_to_list (filter _ kv))), app_nil_r; [done|].
    intros k v (Hk & [v' Hv'])%elem_of_map_to_list%map_lookup_filter_Some. by eapply Hag.
Qed.

Lemma rowsOk_union kv m : rowsOk kv -> rowsOk m -> rowsOk (kv ∪ m).
Proof. intros H1 H2 k v [H|[_ H]]%lookup_union_Some_raw; [by apply H1|by apply H2]. Qed.

Lemma applyEffect_sorted c e c' : building c = false -> claimsSorted c -> applyEffect c e = Ok c' -> claimsSorted c'.
Proof.
  intros Hb Hs H. destruct e; cbn in H; try (injection H as <-; exact Hs).
  - unfold mergeBlobMeta in H. destruct (cblobs c !! _); [done|]. by injection H as <-.
  - injection H as <-. intros pn l. unfold addClaim. cbn. rewrite Hb. intros [[-> <-]|[Hne Hl]]%lookup_insert_Some.
    + apply (sortBy_sorted _ cl_Date).
    + by eapply Hs.
Qed.

Lemma keepLoop_sorted rows c : building c = false -> claimsSorted c -> claimsSorted (keepLoop applyRow rows c).1.
Proof.
  revert c. induction rows as [|p rows IH]; intros c Hb Hs; [done|]. cbn. unfold applyRow at 1.
  destruct (rowEffect p) as [e| | |]; [|done..]. cbn. destruct (applyEffect c e) as [c1| | |] eqn:E; [|done..].
  apply IH; [|by eapply applyEffect_sorted]. apply applyEffect_frame in E as (_ & -> & _). done.
Qed.

Lemma updateDeletes_loop dels c es D : reflects c es -> reflectsDeletes c D -> NoDup (map delPair dels ++ D) ->
  let c' := foldl (updateDeletes (@sortBy)) c dels in
  reflects c' es /\ reflectsDeletes c' (rev (map delPair dels) ++ D) /\ permanodes c' = permanodes c /\ building c' = building c.
Proof.
  revert c D. induction dels as [|dc dels IH]; intros c D R RD Hn; [done|]. cbn [map rev foldl app] in Hn |- *.
  apply NoDup_cons in Hn as [Hd Hn]. rewrite <- app_assoc. cbn [app].
  assert (E : updateDeletes (@sortBy) c dc = setDeletes c (<[dc_Target dc := byNewest (@sortBy)
    (default [] (deletes c !! dc_Target dc) ++ [MkDeletion (dc_Blob dc) (dc_Date dc)])]> (deletes c))).
  { unfold updateDeletes. rewrite decide_False; [done|]. rewrite (proj1 (RD (dc_Target dc))). intros Hin.
    apply Hd, elem_of_app. right. apply list_elem_of_omap in Hin as ([t d] & Hin & Ht). unfold deletionOn in Ht. cbn in Ht.
    case_decide; [|done]. subst. injection Ht as ->. exact Hin. }
  rewrite E. destruct (IH _ _ (reflects_setDeletes _ _ _ R) (addDeletion_reflects c D (dc_Target dc) (MkDeletion (dc_Blob dc) (dc_Date dc)) RD)) as (R' & RD' & Ep & Eb).
  { rewrite Permutation_app_comm in Hn |- *. cbn [app]. constructor; [|done]. intros H. apply Hd. rewrite elem_of_app in H |- *. tauto. }
  done.
Qed.

Lemma deletedRows_perm m : deletedRows m ≡ₚ filter (fun r => gs "deleted|" `prefix_of` r.1) (map_to_list m).
Proof. unfold deletedRows, prefixRows, sortedPairs. by rewrite merge_sort_Permutation. Qed.

Lemma deletedRows_union kv m dels : newRows kv m dels -> deletedRows (kv ∪ m) ≡ₚ deletedRows kv ++ deletedRows m.
Proof.
  intros [Hok Hag _ _]. assert (Ha : forall k v v', kv !! k = Some v -> m !! k = Some v' -> v' = v) by (intros; by eapply Hag).
  rewrite !deletedRows_perm, (map_union_split kv m Ha), filter_app, (map_split kv m), filter_app.
  rewrite (filter_none _ (map_to_list (filter _ kv))); [by rewrite app_nil_r|].
  apply Forall_forall. intros [k v] (Hk & [v' Hv'])%elem_of_map_to_list%map_lookup_filter_Some [r Hr]. cbn [fst] in *.
  destruct (Hag k v v' Hk Hv') as [_ Hrep]. apply Hrep. subst k. cbv beta.
  assert (typeOfKey (gs "deleted|" ++ r) = gs "deleted") as ->; [|vm_compute; set_solver].
  change (gs "deleted|" ++ r) with (gs "deleted" ++ "|"%char :: r). apply typeOfKey_app; [by right| |];
    apply (bool_decide_unpack _); vm_compute; exact I.
Qed.

(** Adding a blob that is not known succeeds, and the corpus then holds its
    rows beside the others. *)
Lemma addBlob_holds c m br kv dels : holdsRows c m -> rowsOk m -> newRows kv m dels -> cblobs c !! br = None ->
  exists c', addBlob (@sortBy) (@arrange) c br kv dels = (c', Ok tt) /\ holdsRows c' (kv ∪ m).
Proof.
  intros [(es & R & Hes) RD Hs Hb] Hm Hnew Hbr. pose proof Hnew as [Hok Hag Hdel Honce].
  set (rows := arrange (map_to_list kv)). assert (Hrows : rows ≡ₚ map_to_list kv) by apply arrange_perm.
  assert (Hsame : sameEffects (rev (effectsOf rows) ++ es) (effectsOf (map_to_list (kv ∪ m)))).
  { eapply sameEffects_trans; [|by eapply newRows_effects]. destruct Hes as [H1 H2]. split.
    - intros e. rewrite !elem_of_app, H1, <- Permutation_rev, (effectsOf_perm _ _ Hrows). done.
    - rewrite !filter_app, H2, <- Permutation_rev, (effectsOf_perm _ _ Hrows). done. }
  destruct (applyRows_reflects rows (setGen c (i64 (gen c + 1))) es) as (c1 & E1 & R1 & F1).
  { by destruct R. }
  { apply (readable_rows kv); [done|]. intros k v. rewrite Hrows. apply elem_of_map_to_list. }
  { rewrite (omap_same metaRef _ _) by (first [exact Hsame|by intros []]).
    apply metaRefs_NoDup; [apply NoDup_fst_map_to_list|]. intros [k v] H%elem_of_map_to_list. by apply (rowsOk_union kv m) in H as (_ & ? & _). }
  destruct F1 as (Ed & Eb & _).
  destruct (updateDeletes_loop dels c1 _ (deletesOf (deletedRows m)) R1) as (R2 & RD2 & Ep & Eb2); [|done|].
  { intros t. rewrite Ed. apply RD. }
  exists (foldl (updateDeletes (@sortBy)) c1 dels). split.
  { unfold addBlob. rewrite Hbr. fold rows. rewrite (keepLoop_ext _ applyRow) by (intros; apply addRow_apply). by rewrite E1. }
  split.
  - eauto.
  - eapply reflectsDeletes_perm; [|exact RD2]. unfold deletesOf. rewrite (deletedRows_union kv m dels Hnew), omap_app.
    f_equiv. rewrite <- Permutation_rev. exact Hdel.
  - unfold claimsSorted. rewrite Ep. pose proof (keepLoop_sorted rows (setGen c (i64 (gen c + 1))) Hb Hs) as H. by rewrite E1 in H.
  - by rewrite Eb2, Eb.
Qed.

(** Two corpora that hold the same rows answer alike. *)
Lemma holdsRows_same c c' m : consistent (effectsOf (map_to_list m)) -> holdsRows c m -> holdsRows c' m ->
  sameIndex c c' /\ (forall t, default [] (deletes c !! t) ≡ₚ default [] (deletes c' !! t)).
Proof.
  intros Hc [(es & R & Hes) RD Hs Hb] [(es' & R' & Hes') RD' Hs' Hb']. split.
  - eapply (reflects_same c c' es es'); [|eapply sameEffects_trans; [done|by apply sameEffects_sym]|done|done].
    intros e e' He He'. apply Hes in He, He'. by apply Hc.
  - intros t. by rewrite (proj1 (RD t)), (proj1 (RD' t)).
Qed.
End spec.

(** * The properties *)

(** C21. Reading the index into memory: from rows that can be read, with a
    store that reports no error, it succeeds, and the corpus holds those rows:
    every map is what the rows say whatever the order of the scans, every
    permanode's claims are sorted by date, every blob's deletions from the
    newest. *)
Theorem NewCorpusFromStorage_holds {K} `{KVLaws K} (sortBy : forall A, (A -> gotime) -> list A -> list A) (arrange : forall A, list A -> list A)
  (sort_perm : forall A (key : A -> gotime) l, sortBy A key l ≡ₚ l)
  (sort_sorted : forall A (key : A -> gotime) l, StronglySorted Z.le (map key (sortBy A key l)))
  (arrange_perm : forall A (l : list A), arrange A l ≡ₚ l)
  (s : K) (Hfind : forall a e, (kv_find a e s).2 = None) (Hrows : rowsOk (kv_view s)) :
  exists c, NewCorpusFromStorage sortBy arrange s = (c, Ok tt) /\ holdsRows c (kv_view s).
Proof. destruct (NewCorpus_holds sortBy arrange sort_perm arrange_perm sort_sorted s Hfind Hrows) as (c & E & Hh & _). by exists c. Qed.

(** C20. The in-memory index follows the stored one: adding to a corpus, read
    from a store, a blob it does not know leaves it as reading the store with
    the blob's rows in it would: the same maps, the same claims and deletions.
    The rows are readable, agree with those already there, and the deletions
    that come with them are exactly those of their "deleted|" rows.  Of a
    deletion of a blob that is neither a permanode nor a claim the corpus is
    told without such a row, and then forgets it when it is loaded again
    ([file_deletion] of IndexLaws.v). *)
Theorem addBlob_refines_scan {K} `{KVLaws K} (sortBy : forall A, (A -> gotime) -> list A -> list A) (arrange : forall A, list A -> list A)
  (sort_perm : forall A (key : A -> gotime) l, sortBy A key l ≡ₚ l)
  (sort_sorted : forall A (key : A -> gotime) l, StronglySorted Z.le (map key (sortBy A key l)))
  (arrange_perm : forall A (l : list A), arrange A l ≡ₚ l)
  (s s' : K) (br : Ref) (kv : gmap gostr gostr) (dels : list deleteClaim) (c : Corpus)
  (Hfind : forall a e, (kv_find a e s).2 = None) (Hfind' : forall a e, (kv_find a e s').2 = None)
  (Hrows : rowsOk (kv_view s)) (Hnew : newRows kv (kv_view s) dels) (Hview : kv_view s' = kv ∪ kv_view s)
  (Hcons : consistent (effectsOf (map_to_list (kv ∪ kv_view s))))
  (Hc : NewCorpusFromStorage sortBy arrange s = (c, Ok tt)) (Hbr : cblobs c !! br = None) :
  exists c1 c2, addBlob sortBy arrange c br kv dels = (c1, Ok tt) /\ NewCorpusFromStorage sortBy arrange s' = (c2, Ok tt) /\
    sameIndex c1 c2 /\ (forall t, default [] (deletes c1 !! t) ≡ₚ default [] (deletes c2 !! t)).
Proof.
  destruct (NewCorpus_holds sortBy arrange sort_perm arrange_perm sort_sorted s Hfind Hrows) as (c0 & E & Hh & _).
  rewrite Hc in E. injection E as <-.
  destruct (addBlob_holds sortBy arrange sort_perm arrange_perm sort_sorted c _ br kv dels Hh Hrows Hnew Hbr) as (c1 & E1 & H1).
  destruct (NewCorpus_holds sortBy arrange sort_perm arrange_perm sort_sorted s' Hfind') as (c2 & E2 & H2 & _).
  { rewrite Hview. apply rowsOk_union; [by destruct Hnew|done]. }
  rewrite Hview in H2. exists c1, c2. split; [done|]. split; [done|]. by eapply holdsRows_same.
Qed.

(** ** An example *)

Definition keyLe {A} (key : A -> gotime) (a b : A) : Prop := key a <= key b.
#[global] Instance keyLe_dec {A} (key : A -> gotime) : RelDecision (keyLe key).
Proof. intros a b. unfold keyLe. apply _. Defined.
#[local] Instance keyLe_total {A} (key : A -> gotime) : Total (keyLe key).
Proof. intros a b. unfold keyLe. lia. Qed.
#[local] Instance keyLe_trans {A} (key : A -> gotime) : Transitive (keyLe key).
Proof. intros a b c. unfold keyLe. lia. Qed.
Definition sortByKey {A} (key : A -> gotime) (l : list A) : list A := merge_sort (keyLe key) l.

Lemma sortByKey_perm A (key : A -> gotime) l : sortByKey key l ≡ₚ l.
Proof. apply merge_sort_Permutation. Qed.
Lemma sortByKey_sorted A (key : A -> gotime) l : StronglySorted Z.le (map key (sortByKey key l)).
Proof.
  assert (Hs : StronglySorted (keyLe key) (sortByKey key l)) by (apply StronglySorted_merge_sort; apply _).
  induction Hs as [|a l' Hl IH Hf]; [constructor|]. cbn. apply SSorted_cons; [done|].
  apply Forall_forall. intros k (x & -> & Hx)%list_elem_of_fmap. by apply (proj1 (Forall_forall _ _) Hf).
Qed.

Definition rowOk (r : gostr * gostr) : bool :=
  match rowEffect r with Ok (EMeta bm) => Valid (bm_Ref bm) | Ok _ => true | _ => false end &&
  (negb (slurpedKeyType (typeOfKey r.1)) || bool_decide (Exists (fun p => p `prefix_of` r.1) slurpPrefixes)) &&
  (negb (bool_decide (gs "deleted|" `prefix_of` r.1)) || match kvDeleted r.1 with Ok (Some _) => true | _ => false end).

Lemma rowsOk_forallb (l : list (gostr * gostr)) : forallb rowOk l = true -> rowsOk (list_to_map l).
Proof.
  intros Hl k v Hk. apply elem_of_list_to_map_2 in Hk. rewrite forallb_forall in Hl.
  specialize (Hl _ (proj1 (list_elem_of_In _ _) Hk)). unfold rowOk in Hl. cbn [fst] in Hl.
  apply andb_true_iff in Hl as [[Hr Hw]%andb_true_iff Hd]. split; [|split; [split|]].
  - unfold readable. by destruct (rowEffect (k, v)) as [[]| | |].
  - intros Hs. cbn [fst] in Hs. rewrite Hs in Hw. cbn in Hw. apply bool_decide_eq_true, Exists_exists in Hw as (p & ? & ?). by exists p.
  - intros bm He. by rewrite He in Hr.
  - intros Hp. rewrite bool_decide_eq_true_2 in Hd by done. cbn in Hd. destruct (kvDeleted k) as [[cl|]| | |]; try done. by exists cl.
Qed.

Definition refText (n : Z) : gostr := RefString (exampleRef n).
Definition exampleRows : list (gostr * gostr) :=
  [(gs "meta:" ++ refText 2, gs "100|application/json; camliType=permanode");
   (gs "meta:" ++ refText 10, gs "200|application/json; camliType=claim");
   (gs "signerkeyid:" ++ refText 1, gs "F0EA");
   (gs "claim|" ++ refText 2 ++ gs "|F0EA|2014-03-01T10:00:00Z|" ++ refText 10, gs "set-attribute|title|Hi|" ++ refText 1)].
Definition exampleNew : list (gostr * gostr) :=
  [(gs "meta:" ++ refText 11, gs "300|application/json; camliType=claim");
   (gs "signerkeyid:" ++ refText 1, gs "F0EA");
   (gs "deleted|" ++ refText 2 ++ gs "|rt7985-96-97T89:99:99Z|" ++ refText 11, [])].
Definition exampleStore (l : list (gostr * gostr)) : memKeys (gmap gostr gostr) := MemKeys (list_to_map l).
Definition exampleDels : list deleteClaim :=
  match kvDeleted (gs "deleted|" ++ refText 2 ++ gs "|rt7985-96-97T89:99:99Z|" ++ refText 11) with
  | Ok (Some cl) => [MkDelete (exampleRef 11) (exampleRef 2) (cl_Date cl)]
  | _ => []
  end.

#[local] Instance ImageInfo_eq_dec : EqDecision ImageInfo.
Proof. solve_decision. Defined.
#[local] Instance agree_dec e e' : Decision (agree e e').
Proof. destruct e, e'; cbn; apply _. Defined.
#[local] Instance repeatable_dec k : Decision (repeatable k).
Proof. unfold repeatable. apply _. Defined.

Lemma consistent_forallb es : forallb (fun e => forallb (fun e' => bool_decide (agree e e')) es) es = true -> consistent es.
Proof.
  intros H e e' He He'. rewrite forallb_forall in H. specialize (H e (proj1 (list_elem_of_In _ _) He)).
  rewrite forallb_forall in H. by apply (bool_decide_eq_true_1 _ (H e' (proj1 (list_elem_of_In _ _) He'))).
Qed.

Lemma again_forallb (l : list (gostr * gostr)) (m : gmap gostr gostr) :
  forallb (fun r => match m !! r.1 with Some v' => bool_decide (v' = r.2) && bool_decide (repeatable r.1) | None => true end) l = true ->
  forall k v v', (list_to_map l : gmap gostr gostr) !! k = Some v -> m !! k = Some v' -> v' = v /\ repeatable k.
Proof.
  intros H k v v' Hk Hm. apply elem_of_list_to_map_2 in Hk. rewrite forallb_forall in H.
  specialize (H _ (proj1 (list_elem_of_In _ _) Hk)). cbn [fst snd] in H. rewrite Hm in H.
  apply andb_true_iff in H as [H1 H2]. split; [by apply bool_decide_eq_true_1 in H1|by apply bool_decide_eq_true_1 in H2].
Qed.

Lemma exampleNew_ok : newRows (list_to_map exampleNew) (list_to_map exampleRows) exampleDels.
Proof.
  split.
  - apply rowsOk_forallb. vm_compute. reflexivity.
  - apply again_forallb. vm_compute. reflexivity.
  - assert (map delPair exampleDels = deletesOf (deletedRows (list_to_map exampleNew))) as -> by (vm_compute; reflexivity). reflexivity.
  - apply (bool_decide_unpack _). vm_compute. exact I.
Qed.

Definition exampleCorpus2 : Corpus := (NewCorpusFromStorage (@sortByKey) (fun _ l => l) (exampleStore exampleRows)).1.

Lemma NewCorpusFromStorage_holds_witness :
  exists c, NewCorpusFromStorage (@sortByKey) (fun _ l => l) (exampleStore exampleRows) = (c, Ok tt) /\ holdsRows c (kv_view (exampleStore exampleRows)).
Proof.
  apply (NewCorpusFromStorage_holds (@sortByKey) (fun _ l => l) sortByKey_perm sortByKey_sorted (fun A l => reflexivity l) (exampleStore exampleRows)).
  - reflexivity.
  - apply rowsOk_forallb. vm_compute. reflexivity.
Defined.

(** A delete claim: after it the permanode is deleted, in memory as after a
    restart. *)
Lemma addBlob_refines_scan_witness :
  exists c1 c2, addBlob (@sortByKey) (fun _ l => l) exampleCorpus2 (exampleRef 11) (list_to_map exampleNew) exampleDels = (c1, Ok tt) /\
    NewCorpusFromStorage (@sortByKey) (fun _ l => l) (exampleStore (exampleNew ++ exampleRows)) = (c2, Ok tt) /\
    sameIndex c1 c2 /\ (forall t, default [] (deletes c1 !! t) ≡ₚ default [] (deletes c2 !! t)).
Proof.
  apply (addBlob_refines_scan (@sortByKey) (fun _ l => l) sortByKey_perm sortByKey_sorted (fun A l => reflexivity l)
    (exampleStore exampleRows) (exampleStore (exampleNew ++ exampleRows))).
  - reflexivity.
  - reflexivity.
  - apply rowsOk_forallb. vm_compute. reflexivity.
  - exact exampleNew_ok.
  - exact (list_to_map_app exampleNew exampleRows).
  - apply consistent_forallb. vm_compute. reflexivity.
  - vm_compute. reflexivity.
  - vm_compute. reflexivity.
Defined.
