(* ===== verification/CorpusLife.v ===== *)
(** The orders in which permanodes are enumerated, over the life of a corpus:
    blobs are added, and enumerations fill and read the caches. *)

From S2P Require Import Prelude Ref Strutil SortedKV Sha1 Storage Times Json Runes Schema IndexKeys Corpus CorpusRows CorpusSpec.

(** Reversed, the sorted permanodes have their times from the last to the
    first. *)
Lemma sorted_rev_ge l : StronglySorted Z.le l -> StronglySorted Z.ge (rev l).
Proof.
  induction 1 as [|a l Hl IH Hf]; [constructor|]. cbn. apply StronglySorted_app_2; [|done|repeat constructor].
  intros x y Hx Hy%list_elem_of_singleton. subst y. rewrite <- Permutation_rev in Hx. rewrite Forall_forall in Hf. specialize (Hf x Hx). lia.
Qed.

Lemma pnSorted_desc pns : StronglySorted Z.ge (map pt_t (rev (merge_sort pnLe pns))).
Proof.
  rewrite map_rev. apply sorted_rev_ge. pose proof (StronglySorted_merge_sort pnLe pns) as Hs.
  induction Hs as [|a l Hl IH Hf]; [constructor|]. cbn. apply SSorted_cons; [done|].
  apply Forall_forall. intros t (x & -> & Hx)%list_elem_of_fmap. by apply pnLe_time, (proj1 (Forall_forall _ _) Hf).
Qed.

Section life.
Context (sortBy : forall A, (A -> gotime) -> list A -> list A).
Context (arrange : forall A, list A -> list A).

(** One call on a corpus. *)
Inductive step : Corpus -> Corpus -> Prop :=
| step_add c br kv dels : gen c < 2 ^ 63 - 1 -> step c (addBlob sortBy arrange c br kv dels).1
| step_modified c cx : step c (EnumeratePermanodesLastModifiedLocked c cx).1.1
| step_created c now cx newestFirst : step c (EnumeratePermanodesCreatedLocked c now cx newestFirst).1.1.

(** Reached from a corpus as it is after a scan. *)
Definition reached (c : Corpus) : Prop :=
  exists c0, gen c0 = 0 /\ permanodesByTime c0 = newLazy /\ permanodesByModtime c0 = newLazy /\ rtc step c0 c.

Record lazyOk (c : Corpus) : Prop := {
  lo_valid : validLazy c (PermanodeModtimeLocked c) (permanodesByModtime c);
  lo_gen : 0 <= ofGen (permanodesByModtime c) <= gen c /\ gen c < 2 ^ 63
}.

Lemma addBlob_lazy c br kv dels : gen c < 2 ^ 63 - 1 -> lazyOk c -> lazyOk (addBlob sortBy arrange c br kv dels).1.
Proof.
  intros Hg [Hv Hl]. unfold addBlob. destruct (cblobs c !! br); [by split|].
  set (c0 := setGen c (i64 (gen c + 1))).
  assert (Hk : gen (keepLoop (addRow sortBy) (arrange _ (map_to_list kv)) c0).1 = gen c + 1 /\
               permanodesByModtime (keepLoop (addRow sortBy) (arrange _ (map_to_list kv)) c0).1 = permanodesByModtime c).
  { assert (Hc0 : gen c0 = gen c + 1 /\ permanodesByModtime c0 = permanodesByModtime c) by (subst c0; cbn; by rewrite i64_small by lia).
    revert Hc0. generalize c0. generalize (arrange _ (map_to_list kv)). clear. intros l. induction l as [|r l IH]; intros c0 Hc0; [done|]. cbn.
    rewrite addRow_apply. unfold applyRow. destruct (rowEffect r) as [e| | |]; [|done..]. cbn.
    destruct (applyEffect sortBy c0 e) as [c1| | |] eqn:E; [|done..]. apply applyEffect_frame in E as (_ & _ & G & _ & M).
    apply IH. rewrite G, M. done. }
  assert (Hnew : forall c', gen c' = gen c + 1 /\ permanodesByModtime c' = permanodesByModtime c -> lazyOk c').
  { intros c' [G M]. split; rewrite M; [intros Hof; rewrite G in Hof; lia|rewrite G; lia]. }
  destruct (keepLoop (addRow sortBy) _ c0) as [c1 [u|e|p|]]; cbn [fst] in *; try by apply Hnew.
  apply Hnew. rewrite <- (proj1 Hk), <- (proj2 Hk). clear. revert c1. induction dels as [|d dels IH]; intros c1; [done|].
  cbn [foldl]. destruct (IH (updateDeletes sortBy c1 d)) as [-> ->]. unfold updateDeletes. by destruct (decide _).
Qed.

Lemma timedPns_ok pnTime deleted pns : (forall pn, exists b, deleted pn = Ok b) -> (forall pn, exists t, pnTime pn = Ok t) ->
  exists l, timedPns pnTime deleted pns = Ok l.
Proof.
  intros Hd Ht. induction pns as [|pn pns [l IH]]; [by exists []|]. cbn. destruct (Hd pn) as [[] ->]; cbn; [by exists l|].
  destruct (Ht pn) as [t ->]. cbn. rewrite IH. cbn. eauto.
Qed.

Lemma modtime_ok c rank pn : acyclic (deletes c) rank -> exists t, PermanodeModtimeLocked c pn = Ok t.
Proof.
  intros Ha. unfold PermanodeModtimeLocked. destruct (claimsOf c pn) as [claims|]; [|eauto].
  assert (Hf : forall t, exists t', rfold (modtimeStep c) claims t = Ok t').
  { induction claims as [|cl claims IH]; intros t; [by exists t|]. rewrite rfold_cons. unfold modtimeStep.
    destruct (IsDeleted_ok (deletes c) rank (cl_BlobRef cl) Ha) as (b & Hb & _). unfold IsDeleted. rewrite Hb. cbn. apply IH. }
  destruct (Hf 0) as [t ->]. cbn. eauto.
Qed.

Lemma sortedPns_ok c rank : acyclic (deletes c) rank -> exists up, sortedPns c (PermanodeModtimeLocked c) = Ok up.
Proof.
  intros Ha. unfold sortedPns. destruct (timedPns_ok (PermanodeModtimeLocked c) (IsDeleted c) (map_to_list (permanodes c)).*1) as [l ->].
  - intros pn. destruct (IsDeleted_ok (deletes c) rank pn Ha) as (b & Hb & _). by exists b.
  - intros pn. by eapply modtime_ok.
  - cbn. eauto.
Qed.

Lemma lazySortedBy_cases c pnTime lsp reverse : validLazy c pnTime lsp ->
  match lazySortedBy c pnTime lsp reverse with
  | Ok (_, lsp') => validLazy c pnTime lsp' /\ ofGen lsp' = gen c
  | _ => True
  end.
Proof.
  intros Hv. destruct (lazySortedBy c pnTime lsp reverse) as [[l lsp']| | |] eqn:E; try done.
  destruct (sortedPns c pnTime) as [up| | |] eqn:Es.
  { destruct (lazySortedBy_ok c pnTime lsp reverse up Hv Es) as (x & Ex & H). rewrite E in Ex. by injection Ex as -> ->. }
  all: exfalso; unfold lazySortedBy in E;
    assert (Hre : lazyRebuild c pnTime reverse ≠ Ok (l, lsp')) by
      (unfold lazyRebuild; unfold sortedPns in Es; destruct (timedPns _ _ _); [done|done..]);
    destruct (Z.eqb_spec (ofGen lsp) (gen c)) as [Hg|]; [|done]; destruct (Hv Hg) as [H1 H2];
    destruct reverse, (sortedCache lsp) as [l1|], (sortedCacheReversed lsp) as [l2|]; try done;
    first [specialize (H1 _ eq_refl)|specialize (H2 _ eq_refl)]; congruence.
Qed.

Lemma step_lazy c c' : step c c' -> lazyOk c -> lazyOk c'.
Proof.
  intros Hstep Hl. destruct Hstep as [c br kv dels Hg|c cx|c now cx nf].
  - by apply addBlob_lazy.
  - destruct Hl as [Hv Hg]. unfold EnumeratePermanodesLastModifiedLocked. pose proof (lazySortedBy_cases c _ _ true Hv) as H.
    destruct (lazySortedBy c _ _ true) as [[pns lsp]| | |]; [|by split..]. destruct H as [Hv' Hof].
    destruct (sendPermanodes c cx pns) as [out r]. cbn. split; [exact Hv'|]. cbn. lia.
  - destruct Hl as [Hv Hg]. unfold EnumeratePermanodesCreatedLocked.
    destruct (lazySortedBy c _ _ nf) as [[pns lsp]| | |]; [|by split..].
    destruct (sendPermanodes c cx pns) as [out r]. cbn. split; [exact Hv|]. cbn. lia.
Qed.

Lemma reached_lazy c : reached c -> lazyOk c.
Proof.
  intros (c0 & Hg & _ & Hm & Hr). assert (H0 : lazyOk c0).
  { split; rewrite Hm; [intros _; split; intros l H; done|]. cbn. lia. }
  clear Hg Hm. induction Hr as [c|c c1 c2 Hs Hr IH]; [done|]. apply IH. by eapply step_lazy.
Qed.
End life.

(** C24. Enumerating the permanodes by modification gives the same however the
    caches came to be: over any life of a corpus, in which blobs are added and
    enumerations of either kind fill and reuse the caches, what is sent is the
    known blobs among the permanodes that are not deleted and have a
    modification time, the last modified first, cut off only by the context. *)
Theorem EnumeratePermanodesLastModified_order (sortBy : forall A, (A -> gotime) -> list A -> list A) (arrange : forall A, list A -> list A)
  (c : Corpus) (rank : Ref -> nat) (cx : ctx) (Hreached : reached sortBy arrange c) (Hacyclic : acyclic (deletes c) rank) :
  exists pns c', EnumeratePermanodesLastModifiedLocked c cx = (c', (sendPermanodes c cx pns).1, (sendPermanodes c cx pns).2) /\
    StronglySorted Z.ge (map pt_t pns) /\
    forall p, p ∈ pns <-> pt_pn p ∈ dom (permanodes c) /\ IsDeleted c (pt_pn p) = Ok false /\
                PermanodeModtimeLocked c (pt_pn p) = Ok (Some (pt_t p)).
Proof.
  destruct (reached_lazy _ _ c Hreached) as [Hv _]. destruct (sortedPns_ok c rank Hacyclic) as [up Eup].
  destruct (lazySortedBy_ok c _ _ true up Hv Eup) as (lsp & E & _).
  exists (rev up). unfold EnumeratePermanodesLastModifiedLocked. rewrite E.
  destruct (sendPermanodes c cx (rev up)) as [out r]. eexists. split; [reflexivity|].
  apply rbind_Ok in Eup as (pns & Ep & [= <-]). split.
  - apply pnSorted_desc.
  - intros p. rewrite <- Permutation_rev, merge_sort_Permutation, (timedPns_spec _ _ _ _ Ep). unfold IsDeleted.
    rewrite elem_of_dom. split; intros (H1 & H2 & H3); (split; [|done]).
    + apply list_elem_of_fmap in H1 as ([k l] & -> & H%elem_of_map_to_list). by exists l.
    + destruct H1 as [l Hl]. apply list_elem_of_fmap. exists (pt_pn p, l). split; [done|]. by apply elem_of_map_to_list.
Qed.

(** After a deletion and two enumerations. *)
Definition exampleLife1 : Corpus := (EnumeratePermanodesLastModifiedLocked exampleCorpus2 None).1.1.
Definition exampleLife2 : Corpus := (addBlob (@sortByKey) (fun _ l => l) exampleLife1 (exampleRef 11) (list_to_map exampleNew) exampleDels).1.
Definition exampleLife : Corpus := (EnumeratePermanodesCreatedLocked exampleLife2 0 None true).1.1.

Lemma example_step1 : step (@sortByKey) (fun _ l => l) exampleCorpus2 exampleLife1.
Proof. unfold exampleLife1. apply step_modified. Qed.
Lemma example_step2 : step (@sortByKey) (fun _ l => l) exampleLife1 exampleLife2.
Proof. assert (Hg : gen exampleLife1 < 2 ^ 63 - 1) by (vm_compute; reflexivity). unfold exampleLife2. by apply step_add. Qed.
Lemma example_step3 : step (@sortByKey) (fun _ l => l) exampleLife2 exampleLife.
Proof. unfold exampleLife. apply step_created. Qed.

Lemma exampleLife_reached : reached (@sortByKey) (fun _ l => l) exampleLife.
Proof.
  exists exampleCorpus2. split; [vm_compute; reflexivity|]. split; [vm_compute; reflexivity|]. split; [vm_compute; reflexivity|].
  exact (rtc_l _ _ _ _ example_step1 (rtc_l _ _ _ _ example_step2 (rtc_once _ _ example_step3))).
Qed.

Lemma deletes_exampleLife : deletes exampleLife = {[exampleRef 2 := map (fun dc => MkDeletion (dc_Blob dc) (dc_Date dc)) exampleDels]}.
Proof. apply (bool_decide_unpack _). vm_compute. exact I. Qed.

Lemma exampleLife_acyclic : acyclic (deletes exampleLife) exampleRank.
Proof.
  rewrite deletes_exampleLife. intros br l d Hl Hd. apply lookup_singleton_Some in Hl as [<- <-].
  assert (E : map d_deleter (map (fun dc => MkDeletion (dc_Blob dc) (dc_Date dc)) exampleDels) = [exampleRef 11]) by (vm_compute; reflexivity).
  apply (list_elem_of_fmap_2 d_deleter) in Hd. change (d_deleter <$> ?l) with (map d_deleter l) in Hd. rewrite E in Hd.
  apply list_elem_of_singleton in Hd as ->. apply (bool_decide_unpack _). vm_compute. exact I.
Qed.

Lemma EnumeratePermanodesLastModified_order_witness :
  exists pns c', EnumeratePermanodesLastModifiedLocked exampleLife None = (c', (sendPermanodes exampleLife None pns).1, (sendPermanodes exampleLife None pns).2) /\
    StronglySorted Z.ge (map pt_t pns) /\
    forall p, p ∈ pns <-> pt_pn p ∈ dom (permanodes exampleLife) /\ IsDeleted exampleLife (pt_pn p) = Ok false /\
                PermanodeModtimeLocked exampleLife (pt_pn p) = Ok (Some (pt_t p)).
Proof.
  exact (EnumeratePermanodesLastModified_order (@sortByKey) (fun _ l => l) exampleLife exampleRank None exampleLife_reached exampleLife_acyclic).
Defined.
