(* ===== verification/Armor.v ===== *)
(** ASCII armor of OpenPGP: armor.go and encode.go of
    src/third_party/code.google.com/p/go.crypto/openpgp/armor, which signing
    and verifying of JSON use, over base 64 and line reading of Go's standard
    library.

    A body that is read lazily is a [reader]: the bytes that come before its
    end, and how it ends. *)

From S2P Require Import Prelude Ref Strutil Sha1 Storage Times Json Runes.

(** * Base 64 *)

Definition b64Alphabet : gostr := gs "ABCDEFGHIJKLMNOPQRSTUVWXYZabcdefghijklmnopqrstuvwxyz0123456789+/".
Definition padChar : ascii := "="%char.

Definition b64Char (v : Z) : ascii := nth (Z.to_nat v) b64Alphabet "A"%char.
Definition b64Val (c : ascii) : option Z :=
  if inByte 65 90 c then Some (bz c - 65)
  else if inByte 97 122 c then Some (bz c - 71)
  else if inByte 48 57 c then Some (bz c + 4)
  else if decide (c = "+"%char) then Some 62
  else if decide (c = "/"%char) then Some 63
  else None.

(** [base64.StdEncoding.Encode] *)
Fixpoint b64Encode (s : gostr) : gostr :=
  match s with
  | [] => []
  | [a] => [b64Char (Z.shiftr (bz a) 2); b64Char (Z.land (Z.shiftl (bz a) 4) 63); padChar; padChar]
  | [a; b] =>
      [b64Char (Z.shiftr (bz a) 2); b64Char (Z.land (Z.lor (Z.shiftl (bz a) 4) (Z.shiftr (bz b) 4)) 63);
       b64Char (Z.land (Z.shiftl (bz b) 2) 63); padChar]
  | a :: b :: c :: s =>
      b64Char (Z.shiftr (bz a) 2) :: b64Char (Z.land (Z.lor (Z.shiftl (bz a) 4) (Z.shiftr (bz b) 4)) 63) ::
      b64Char (Z.land (Z.lor (Z.shiftl (bz b) 2) (Z.shiftr (bz c) 6)) 63) :: b64Char (Z.land (bz c) 63) :: b64Encode s
  end.

Definition byte0 (x y : Z) : ascii := zb (u8 (Z.lor (Z.shiftl x 2) (Z.shiftr y 4))).
Definition byte1 (y z : Z) : ascii := zb (u8 (Z.lor (Z.shiftl y 4) (Z.shiftr z 2))).
Definition byte2 (z w : Z) : ascii := zb (u8 (Z.lor (Z.shiftl z 6) w)).

(** What a decoder delivers, and whether it came to the end without finding
    corrupt input; padding ends the data. *)
Fixpoint b64Decode (s : gostr) : gostr * bool :=
  match s with
  | [] => ([], true)
  | c0 :: c1 :: c2 :: c3 :: s =>
      match b64Val c0, b64Val c1 with
      | Some x, Some y =>
          if decide (c2 = padChar) then if decide (c3 = padChar) then ([byte0 x y], true) else ([], false)
          else
            match b64Val c2 with
            | None => ([], false)
            | Some z =>
                if decide (c3 = padChar) then ([byte0 x y; byte1 y z], true)
                else
                  match b64Val c3 with
                  | None => ([], false)
                  | Some w => let '(d, ok) := b64Decode s in (byte0 x y :: byte1 y z :: byte2 z w :: d, ok)
                  end
            end
      | _, _ => ([], false)
      end
  | _ => ([], false)
  end.

(** * Checksums *)

Definition crc24Init : Z := 0xb704ce.
Definition crc24Poly : Z := 0x1864cfb.
Definition crc24Mask : Z := 0xffffff.

Fixpoint crc24Shift (i : nat) (crc : Z) : Z :=
  match i with
  | O => crc
  | S i =>
      let crc := u32 (Z.shiftl crc 1) in
      crc24Shift i (if Z.land crc 0x1000000 =? 0 then crc else Z.lxor crc crc24Poly)
  end.
Definition crc24 (crc : Z) (d : gostr) : Z := foldl (fun crc b => crc24Shift 8 (Z.lxor crc (Z.shiftl (bz b) 16))) crc d.

Definition crcBytes (crc : Z) : gostr := [zb (u8 (Z.shiftr crc 16)); zb (u8 (Z.shiftr crc 8)); zb (u8 crc)].

(** * Encoding *)

Definition lf : ascii := "010"%char.
Definition armorStart : gostr := gs "-----BEGIN ".
Definition armorEndMark : gostr := gs "-----END ".
Definition armorEndOfLine : gostr := gs "-----".

(** [lineBreaker]: the line so far ([l.line[:l.used]]), whether a line has been
    written, and what has been written out. *)
Record lineBreaker := MkBreaker { lb_line : gostr; lb_haveWritten : bool; lb_out : gostr }.
Definition newLineBreaker : lineBreaker := MkBreaker [] false [].

(** [Write]; the recursion is on what is left of [b], which [fuel] bounds. *)
Fixpoint lbWrite (fuel : nat) (n : nat) (l : lineBreaker) (b : gostr) : lineBreaker :=
  match fuel with
  | O => l
  | S fuel =>
      match b with
      | [] => l
      | _ =>
          let out := if bool_decide (lb_line l = []) && lb_haveWritten l then lb_out l ++ [lf] else lb_out l in
          if (length (lb_line l) + length b <? n)%nat then MkBreaker (lb_line l ++ b) (lb_haveWritten l) out
          else
            let excess := (n - length (lb_line l))%nat in
            lbWrite fuel n (MkBreaker [] true (out ++ lb_line l ++ take excess b)) (drop excess b)
      end
  end.
Definition lbClose (l : lineBreaker) : gostr := lb_out l ++ lb_line l.

Definition armorLineLength : nat := 64.

(** [Encode] without headers, a write of the data and [Close].  Cutting the
    data into several writes makes no difference ([lbWrite_app]). *)
Definition armorEncode (blockType data : gostr) : gostr :=
  let text := b64Encode data in
  armorStart ++ blockType ++ armorEndOfLine ++ [lf] ++ [lf] ++
  lbClose (lbWrite (S (length text)) armorLineLength newLineBreaker text) ++
  lf :: padChar :: b64Encode (crcBytes (crc24 crc24Init data)) ++ [lf] ++
  armorEndMark ++ blockType ++ armorEndOfLine ++ [lf].

(** * Decoding *)

(** [bufio.Reader.ReadLine] with a buffer of 100 bytes: the line, whether it is
    only the front of one, and what follows; [None] is [io.EOF]. *)
Definition readLine (s : gostr) : option (gostr * bool * gostr) :=
  match index_byte lf (take 100 s) with
  | Some i =>
      let line := take i s in
      Some (if decide (last line = Some "013"%char) then removelast line else line, false, drop (S i) s)
  | None =>
      if (100 <=? length s)%nat then
        if decide (last (take 100 s) = Some "013"%char) then Some (take 99 s, true, drop 99 s) else Some (take 100 s, true, drop 100 s)
      else match s with [] => None | _ => Some (s, false, []) end
  end.

Definition hasPrefix (p s : gostr) : bool := bool_decide (p `prefix_of` s).

(** [lineReader]: the text of the lines up to the end, and the checksum found
    there, or no sum when the end is an error. *)
Fixpoint lineReaderAll (fuel : nat) (s : gostr) : gostr * option Z :=
  match fuel with
  | O => ([], None)
  | S fuel =>
      match readLine s with
      | None => ([], Some 0)
      | Some (_, true, _) => ([], None)
      | Some (line, false, rest) =>
          if bool_decide (length line = 5)%nat && bool_decide (head line = Some padChar) then
            match b64Decode (drop 1 line) with
            | (_, false) => ([], None)
            | ([b0; b1; b2], true) =>
                let next := match readLine rest with Some (line, _, _) => line | None => [] end in
                if hasPrefix armorEndMark next then ([], Some (Z.lor (Z.lor (Z.shiftl (bz b0) 16) (Z.shiftl (bz b1) 8)) (bz b2)))
                else ([], None)
            | _ => lineReaderAll fuel rest
            end
          else if (96 <? length line)%nat then ([], None)
          else let '(text, crc) := lineReaderAll fuel rest in (line ++ text, crc)
      end
  end.

Definition ArmorCorrupt : error := ErrMsg "armor invalid".

(** The decoder of base 64 leaves out the bytes that end lines. *)
Definition dropLineEnds (s : gostr) : gostr := filter (fun c => c ≠ lf /\ c ≠ "013"%char) s.

(** [openpgpReader], read to its end. *)
Definition armorBody (s : gostr) : reader :=
  let '(text, crc) := lineReaderAll (S (length s)) s in
  let '(d, ok) := b64Decode (dropLineEnds text) in
  (d, match crc with
      | Some sum => if ok && (sum =? Z.land (crc24 crc24Init d) crc24Mask) then Ok tt else Err ArmorCorrupt
      | None => Err ArmorCorrupt
      end).

(** Skipping to the first line of a block: that line, and what follows. *)
Fixpoint skipGarbage (fuel : nat) (ignoreNext : bool) (s : gostr) : option (gostr * gostr) :=
  match fuel with
  | O => None
  | S fuel =>
      match readLine s with
      | None => None
      | Some (line, isPrefix, rest) =>
          if isPrefix || ignoreNext then skipGarbage fuel isPrefix rest
          else
            let line := TrimSpace line in
            if (length armorStart + length armorEndOfLine <? length line)%nat && hasPrefix armorStart line then Some (line, rest)
            else skipGarbage fuel isPrefix rest
      end
  end.

Fixpoint containsText (sub s : gostr) : bool :=
  bool_decide (sub `prefix_of` s) || match s with [] => false | _ :: s => containsText sub s end.

(** The headers: [inl] the body after them, [inr] what is left when a line is
    not a header; [None] is an error.  The headers are not used. *)
Fixpoint skipHeaders (fuel : nat) (isContinuation : bool) (s : gostr) : option (gostr + gostr) :=
  match fuel with
  | O => None
  | S fuel =>
      match readLine s with
      | None => None
      | Some (line, next, rest) =>
          if isContinuation then skipHeaders fuel next rest
          else
            let line := TrimSpace line in
            if decide (line = []) then Some (inl rest)
            else if containsText (gs ": ") line then skipHeaders fuel next rest
            else Some (inr rest)
      end
  end.

(** [Decode], with [TryNextBlock]: the type of the first block and its body. *)
Fixpoint tryBlocks (fuel : nat) (s : gostr) : option (gostr * reader) :=
  match fuel with
  | O => None
  | S fuel =>
      match skipGarbage (S (length s)) false s with
      | None => None
      | Some (line, rest) =>
          match skipHeaders (S (length rest)) false rest with
          | None => None
          | Some (inr rest) => tryBlocks fuel rest
          | Some (inl body) =>
              let typ := drop (length armorStart) (take (length line - length armorEndOfLine) line) in
              Some (typ, armorBody body)
          end
      end
  end.
Definition armorDecode (s : gostr) : option (gostr * reader) := tryBlocks (S (length s)) s.

(** * Base 64 reads back *)

(** A property of two bytes, tried on all of them. *)
Definition allBytes : list Z := map Z.of_nat (seq 0 256).
Lemma allBytes_bz c : bz c ∈ allBytes.
Proof.
  pose proof (bz_range c). apply list_elem_of_fmap. exists (Z.to_nat (bz c)). split; [lia|]. apply elem_of_seq. lia.
Qed.
Lemma bytes2 (f : Z -> Z -> bool) : forallb (fun x => forallb (f x) allBytes) allBytes = true -> forall a b, f (bz a) (bz b) = true.
Proof.
  intros Hf a b. rewrite forallb_forall in Hf. specialize (Hf _ (proj1 (list_elem_of_In _ _) (allBytes_bz a))).
  rewrite forallb_forall in Hf. apply Hf, list_elem_of_In, allBytes_bz.
Qed.

(** The four numbers that three bytes are written as. *)
Definition sextet0 (a : ascii) : Z := Z.shiftr (bz a) 2.
Definition sextet1 (a b : ascii) : Z := Z.land (Z.lor (Z.shiftl (bz a) 4) (Z.shiftr (bz b) 4)) 63.
Definition sextet2 (b c : ascii) : Z := Z.land (Z.lor (Z.shiftl (bz b) 2) (Z.shiftr (bz c) 6)) 63.
Definition sextet3 (c : ascii) : Z := Z.land (bz c) 63.

Definition b64Ok (v : Z) : Prop := 0 <= v < 64.

Lemma land63 z : b64Ok (Z.land z 63).
Proof. unfold b64Ok. change 63 with (Z.ones 6). rewrite Z.land_ones by lia. by apply Z.mod_pos_bound. Qed.

Lemma sextet0_ok a : b64Ok (sextet0 a).
Proof.
  unfold b64Ok, sextet0. pose proof (bz_range a). rewrite Z.shiftr_div_pow2 by lia. change (2 ^ 2) with 4.
  split; [apply Z.div_pos; lia | apply Z.div_lt_upper_bound; lia].
Qed.

Lemma b64Val_Char v : b64Ok v -> b64Val (b64Char v) = Some v.
Proof.
  intros Hv. assert (forallb (fun v => bool_decide (b64Val (b64Char v) = Some v)) (map Z.of_nat (seq 0 64)) = true) as Hf by (vm_compute; reflexivity).
  rewrite forallb_forall in Hf. apply (proj1 (bool_decide_eq_true _)), Hf, in_map_iff. exists (Z.to_nat v). unfold b64Ok in Hv. split; [lia|]. apply in_seq. lia.
Qed.

Lemma b64Char_alphabet v : b64Char v ∈ b64Alphabet.
Proof.
  unfold b64Char. destruct (nth_in_or_default (Z.to_nat v) b64Alphabet "A"%char) as [Hi| ->]; [by apply list_elem_of_In|].
  apply list_elem_of_here.
Qed.

Lemma alphabet_not_pad c : c ∈ b64Alphabet -> c <> padChar.
Proof. intros Hc ->. revert Hc. apply (bool_decide_unpack _). vm_compute. exact I. Qed.

Lemma zb_u8 z : zb (u8 z) = zb z.
Proof. unfold zb, u8. change (2 ^ 8) with 256. by rewrite Z.mod_mod. Qed.

Lemma byte0_back a b : byte0 (sextet0 a) (sextet1 a b) = a.
Proof.
  unfold byte0. rewrite zb_u8. rewrite <- (zb_bz a) at 3. f_equal.
  apply Z.eqb_eq. revert a b. apply (bytes2 (fun x y => Z.lor (Z.shiftl (Z.shiftr x 2) 2) (Z.shiftr (Z.land (Z.lor (Z.shiftl x 4) (Z.shiftr y 4)) 63) 4) =? x)).
  vm_compute. reflexivity.
Qed.

(** Only the low bits of the first number count. *)
Lemma u8_low z n q : 0 <= n <= 8 -> u8 (Z.lor (Z.shiftl z n) q) = u8 (Z.lor (Z.shiftl (Z.land z (Z.ones (8 - n))) n) q).
Proof.
  intros Hn. unfold u8. rewrite <- !(Z.land_ones _ 8) by lia. apply Z.bits_inj'. intros i Hi.
  rewrite !Z.land_spec, !Z.lor_spec, !Z.shiftl_spec, Z.land_spec by lia.
  destruct (Z.ltb_spec i 8); [|rewrite !Z.ones_spec_high by lia; by rewrite !andb_false_r].
  destruct (Z.ltb_spec i n); [by rewrite !Z.testbit_neg_r by lia|].
  by rewrite (Z.ones_spec_low (8 - n)), andb_true_r by lia.
Qed.

Lemma byte1_back a b c : byte1 (sextet1 a b) (sextet2 b c) = b.
Proof.
  unfold byte1. rewrite u8_low by lia. rewrite zb_u8. rewrite <- (zb_bz b) at 3. f_equal.
  assert (Z.land (sextet1 a b) (Z.ones (8 - 4)) = Z.shiftr (bz b) 4) as ->.
  { apply Z.eqb_eq. revert a b. apply (bytes2 (fun x y => Z.land (Z.land (Z.lor (Z.shiftl x 4) (Z.shiftr y 4)) 63) (Z.ones (8 - 4)) =? Z.shiftr y 4)).
    vm_compute. reflexivity. }
  apply Z.eqb_eq. revert b c. apply (bytes2 (fun x y => Z.lor (Z.shiftl (Z.shiftr x 4) 4) (Z.shiftr (Z.land (Z.lor (Z.shiftl x 2) (Z.shiftr y 6)) 63) 2) =? x)).
  vm_compute. reflexivity.
Qed.

Lemma byte2_back b c : byte2 (sextet2 b c) (sextet3 c) = c.
Proof.
  unfold byte2. rewrite u8_low by lia. rewrite zb_u8. rewrite <- (zb_bz c) at 3. f_equal.
  apply Z.eqb_eq. revert b c. apply (bytes2 (fun x y => Z.lor (Z.shiftl (Z.land (Z.land (Z.lor (Z.shiftl x 2) (Z.shiftr y 6)) 63) (Z.ones (8 - 6))) 6) (Z.land y 63) =? y)).
  vm_compute. reflexivity.
Qed.

Lemma sextet1_pad a : Z.land (Z.shiftl (bz a) 4) 63 = sextet1 a "000"%char.
Proof. unfold sextet1. change (Z.shiftr (bz "000"%char) 4) with 0. by rewrite Z.lor_0_r. Qed.
Lemma sextet2_pad b : Z.land (Z.shiftl (bz b) 2) 63 = sextet2 b "000"%char.
Proof. unfold sextet2. change (Z.shiftr (bz "000"%char) 6) with 0. by rewrite Z.lor_0_r. Qed.

(** Three bytes at a time. *)
Lemma by_threes (P : gostr -> Prop) : P [] -> (forall a, P [a]) -> (forall a b, P [a; b]) ->
  (forall a b c s, P s -> P (a :: b :: c :: s)) -> forall s, P s.
Proof.
  intros H0 H1 H2 H3. fix go 1. intros [|a [|b [|c s]]]; [done|apply H1|apply H2|]. apply H3, go.
Qed.

Lemma b64Encode_cons a b c s : b64Encode (a :: b :: c :: s) =
  b64Char (sextet0 a) :: b64Char (sextet1 a b) :: b64Char (sextet2 b c) :: b64Char (sextet3 c) :: b64Encode s.
Proof. reflexivity. Qed.

Create HintDb armor.
#[export] Hint Resolve sextet0_ok land63 : armor.

Lemma b64Decode_Encode s : b64Decode (b64Encode s) = (s, true).
Proof.
  induction s as [|a|a b|a b c s IH] using by_threes; [done| | |].
  - cbn [b64Encode]. fold (sextet0 a). rewrite sextet1_pad. cbn [b64Decode].
    rewrite !b64Val_Char by (unfold sextet1; auto with armor). rewrite !decide_True by done. by rewrite byte0_back.
  - cbn [b64Encode]. fold (sextet0 a) (sextet1 a b). rewrite sextet2_pad. cbn [b64Decode].
    rewrite !b64Val_Char by (unfold sextet1, sextet2; auto with armor).
    rewrite decide_False by apply alphabet_not_pad, b64Char_alphabet. rewrite decide_True by done. by rewrite byte0_back, byte1_back.
  - rewrite b64Encode_cons. cbn [b64Decode]. rewrite !b64Val_Char by (unfold sextet1, sextet2, sextet3; auto with armor).
    rewrite !decide_False by apply alphabet_not_pad, b64Char_alphabet. rewrite IH. by rewrite byte0_back, byte1_back, byte2_back.
Qed.

Lemma b64Encode_chars s : Forall (fun c => c ∈ b64Alphabet \/ c = padChar) (b64Encode s).
Proof.
  induction s as [|a|a b|a b c s IH] using by_threes; [constructor|..|rewrite b64Encode_cons]; cbn [b64Encode];
    repeat (apply Forall_cons; split); try done; auto using b64Char_alphabet.
Qed.

(** Three bytes are written without padding. *)
Lemma b64Encode_three a b c : Forall (fun c => c ∈ b64Alphabet) (b64Encode [a; b; c]).
Proof. cbn [b64Encode]. repeat (apply Forall_cons; split); [apply b64Char_alphabet..|constructor]. Qed.

Lemma b64Encode_length s : (length (b64Encode s) mod 4 = 0)%nat.
Proof.
  induction s as [|a|a b|a b c s IH] using by_threes; try done. rewrite b64Encode_cons. cbn [length].
  replace (S (S (S (S (length (b64Encode s)))))) with (length (b64Encode s) + 1 * 4)%nat by lia. by rewrite Nat.Div0.mod_add.
Qed.

(** * Lines *)

Lemma lbWrite_S k n l b : b <> [] -> lbWrite (S k) n l b =
  let out := if bool_decide (lb_line l = []) && lb_haveWritten l then lb_out l ++ [lf] else lb_out l in
  if (length (lb_line l) + length b <? n)%nat then MkBreaker (lb_line l ++ b) (lb_haveWritten l) out
  else lbWrite k n (MkBreaker [] true (out ++ lb_line l ++ take (n - length (lb_line l)) b)) (drop (n - length (lb_line l)) b).
Proof. by destruct b. Qed.

Lemma lbWrite_nil k n l : lbWrite k n l [] = l.
Proof. by destruct k. Qed.

(** More fuel than bytes makes no difference. *)
Lemma lbWrite_fuel n k k' l b : (0 < n)%nat -> (length (lb_line l) < n)%nat -> (length b < k)%nat -> (length b < k')%nat ->
  lbWrite k n l b = lbWrite k' n l b.
Proof.
  intros Hn. revert k' l b. induction k as [|k IH]; intros [|k'] l b Hl Hk Hk'; try lia.
  destruct b as [|c b]; [done|]. rewrite !lbWrite_S by done. cbn zeta. destruct (_ <? n)%nat; [done|].
  rewrite length_cons in Hk, Hk'. apply IH; rewrite ?length_drop; cbn [lb_line length] in *; lia.
Qed.

(** Writing in pieces is writing at once. *)
Lemma lbWrite_app n k l b1 b2 : (0 < n)%nat -> (length (lb_line l) < n)%nat -> (length b1 + length b2 < k)%nat ->
  lbWrite k n (lbWrite k n l b1) b2 = lbWrite k n l (b1 ++ b2).
Proof.
  intros Hn. remember (length b1) as m eqn:Em. revert k l b1 Em. induction m as [m IH] using lt_wf_ind. intros k l b1 -> Hl Hk.
  destruct k as [|k]; [lia|]. destruct (decide (b1 = [])) as [->|H1]; [done|]. destruct (decide (b2 = [])) as [->|H2].
  { by rewrite lbWrite_nil, app_nil_r. }
  assert (length b1 <> 0)%nat as L1 by (by destruct b1). assert (length b2 <> 0)%nat as L2 by (by destruct b2).
  assert (b1 ++ b2 <> []) as H12 by (by destruct b1). rewrite (lbWrite_S k n l b1), (lbWrite_S k n l (b1 ++ b2)) by done. cbn zeta.
  set (out := if bool_decide (lb_line l = []) && lb_haveWritten l then _ else _). rewrite length_app. destruct (Nat.ltb_spec (length (lb_line l) + length b1) n) as [Hlt|Hge].
  - rewrite lbWrite_S by done. cbn zeta. cbn [lb_line lb_haveWritten lb_out]. rewrite bool_decide_eq_false_2 by (destruct (lb_line l), b1; done).
    cbn [andb]. rewrite length_app, <- Nat.add_assoc. destruct (_ <? n)%nat; [by rewrite <- app_assoc|].
    f_equal; [f_equal|].
    + rewrite <- !app_assoc. do 2 f_equal. rewrite take_app_ge by lia. do 2 f_equal. lia.
    + rewrite drop_app_ge by lia. f_equal. lia.
  - destruct (Nat.ltb_spec (length (lb_line l) + (length b1 + length b2)) n); [lia|].
    rewrite take_app_le, drop_app_le by lia.
    assert (0 < n - length (lb_line l))%nat by lia.
    rewrite (lbWrite_fuel n k (S k) _ (drop _ b1)) by (rewrite ?length_drop; cbn; lia).
    rewrite (lbWrite_fuel n k (S k) _ (drop _ b1 ++ b2)) by (rewrite ?length_app, ?length_drop; cbn; lia).
    eapply IH; [|reflexivity|done|]; rewrite length_drop; lia.
Qed.

(** Without the ends of lines, what comes out is what went in. *)
Definition joinLines (s : gostr) : gostr := filter (fun c => c ≠ lf) s.

Lemma joinLines_app s t : joinLines (s ++ t) = joinLines s ++ joinLines t.
Proof. apply filter_app. Qed.
Lemma joinLines_id s : lf ∉ s -> joinLines s = s.
Proof. intros Hs. apply filter_all, Forall_forall. by intros c Hc ->. Qed.

Lemma lbWrite_join n k l b : (0 < n)%nat -> (length (lb_line l) < n)%nat -> (length b < k)%nat ->
  joinLines (lbClose (lbWrite k n l b)) = joinLines (lb_out l ++ lb_line l ++ b).
Proof.
  intros Hn. revert l b. induction k as [|k IH]; intros l b Hl Hk; [lia|].
  destruct (decide (b = [])) as [->|Hb]; [by rewrite lbWrite_nil, app_nil_r|].
  assert (length b <> 0)%nat as Lb by (by destruct b). rewrite lbWrite_S by done. cbn zeta.
  set (out := if bool_decide (lb_line l = []) && lb_haveWritten l then _ else _). assert (Hout : joinLines out = joinLines (lb_out l)).
  { subst out. destruct (_ && _); [|done]. rewrite joinLines_app. apply app_nil_r. }
  destruct (_ <? n)%nat.
  - unfold lbClose. cbn [lb_out lb_line]. by rewrite !joinLines_app, Hout.
  - rewrite IH by (rewrite ?length_drop; cbn; lia). cbn [lb_out lb_line app]. rewrite !joinLines_app, Hout, <- !app_assoc.
    do 2 f_equal. by rewrite <- joinLines_app, take_drop.
Qed.

(** What comes out has nothing but what went in, and ends of lines. *)
Lemma lbWrite_chars (P : ascii -> Prop) n k l b : P lf -> Forall P (lb_out l) -> Forall P (lb_line l) -> Forall P b ->
  Forall P (lbClose (lbWrite k n l b)).
Proof.
  intros Hlf. revert l b. induction k as [|k IH]; intros l b Ho Hl Hb; [by apply Forall_app|].
  destruct (decide (b = [])) as [->|Hne]; [rewrite lbWrite_nil; by apply Forall_app|]. rewrite lbWrite_S by done. cbn zeta.
  set (out := if bool_decide (lb_line l = []) && lb_haveWritten l then _ else _). assert (Forall P out) as Hout.
  { subst out. destruct (_ && _); [apply Forall_app; split; [done|by constructor]|done]. }
  destruct (_ <? n)%nat; [unfold lbClose; cbn; by repeat (apply Forall_app; split)|].
  apply IH; cbn [lb_out lb_line]; [|done|by apply Forall_drop].
  repeat (apply Forall_app; split); [done|done|by apply Forall_take].
Qed.

(** * Reading lines back *)

Definition cr : ascii := "013"%char.

(** A line without an end of line in it. *)
Definition plainLine (line : gostr) : Prop := lf ∉ line /\ cr ∉ line /\ (length line <= 96)%nat.

Lemma readLine_line line rest : plainLine line -> readLine (line ++ lf :: rest) = Some (line, false, rest).
Proof.
  intros (Hlf & Hcr & Hlen). unfold readLine. rewrite take_app_ge by lia.
  replace (100 - length line)%nat with (S (99 - length line)) by lia. cbn [take].
  rewrite index_byte_app by done. rewrite take_app_length.
  rewrite decide_False by (intros Hl%last_Some_elem_of; by apply Hcr).
  do 2 f_equal. rewrite drop_app_ge by lia. by replace (S (length line) - length line)%nat with 1%nat by lia.
Qed.

Lemma lineReaderAll_line k line rest : plainLine line -> length line <> 5%nat ->
  lineReaderAll (S k) (line ++ lf :: rest) = let '(text, crc) := lineReaderAll k rest in (line ++ text, crc).
Proof.
  intros Hl H5. cbn [lineReaderAll]. rewrite readLine_line by done.
  rewrite bool_decide_eq_false_2 by done. cbn [andb]. destruct (Nat.ltb_spec 96 (length line)); [|done].
  destruct Hl as (_ & _ & ?). lia.
Qed.

(** A checksum that is not followed by the end line ends the text with an
    error. *)
Lemma lineReaderAll_sum k b0 b1 b2 next rest : plainLine next -> hasPrefix armorEndMark next = false ->
  lineReaderAll (S k) ((padChar :: b64Encode [b0; b1; b2]) ++ lf :: next ++ lf :: rest) = ([], None).
Proof.
  intros Hn Hp. cbn [lineReaderAll]. rewrite readLine_line.
  - rewrite !bool_decide_eq_true_2 by done. cbn [andb]. change (drop 1 (padChar :: ?x)) with x.
    rewrite b64Decode_Encode. rewrite readLine_line by done. by rewrite Hp.
  - pose proof (b64Encode_three b0 b1 b2) as Hb. rewrite Forall_forall in Hb. split_and!.
    + intros [?|Hc%Hb]%elem_of_cons; [done|]. revert Hc. apply (bool_decide_unpack _). vm_compute. exact I.
    + intros [?|Hc%Hb]%elem_of_cons; [done|]. revert Hc. apply (bool_decide_unpack _). vm_compute. exact I.
    + cbn. lia.
Qed.

(** What the decoder does with a text whose first line opens a block that
    has no headers. *)
Lemma armorDecode_block typ s : plainLine (armorStart ++ typ ++ armorEndOfLine) -> typ <> [] ->
  TrimSpace (armorStart ++ typ ++ armorEndOfLine) = armorStart ++ typ ++ armorEndOfLine ->
  armorDecode ((armorStart ++ typ ++ armorEndOfLine) ++ lf :: lf :: s) = Some (typ, armorBody s).
Proof.
  intros Hl Htyp Htrim. unfold armorDecode. cbn [tryBlocks skipGarbage]. rewrite readLine_line by done. cbn [orb].
  rewrite Htrim. assert (length typ <> 0)%nat by (by destruct typ).
  destruct (Nat.ltb_spec (length armorStart + length armorEndOfLine) (length (armorStart ++ typ ++ armorEndOfLine))); [|rewrite !length_app in *; lia].
  unfold hasPrefix at 1. rewrite bool_decide_eq_true_2 by (by eexists). cbn [andb].
  cbn [skipHeaders]. assert (readLine (lf :: s) = Some ([], false, s)) as -> by (apply (readLine_line []); split_and!; [apply not_elem_of_nil..|cbn; lia]).
  rewrite decide_True by (vm_compute; reflexivity). do 2 f_equal.
  rewrite app_assoc, length_app, Nat.add_sub, take_app_length, drop_app_length. done.
Qed.

Lemma dropLineEnds_id s : Forall (fun c => c ∈ b64Alphabet \/ c = padChar) s -> dropLineEnds s = s.
Proof.
  intros Hs. apply filter_all. eapply Forall_impl; [exact Hs|]. intros c Hc.
  assert (forall d, (d ∈ b64Alphabet \/ d = padChar) -> d <> lf /\ d <> cr) as Hd; [|by apply Hd].
  intros d [Hd| ->]; [|done]. split; intros ->; revert Hd; apply (bool_decide_unpack _); vm_compute; exact I.
Qed.

Lemma armorBody_text s t data : Forall (fun c => c ∈ b64Alphabet \/ c = padChar) t -> t = b64Encode data ->
  lineReaderAll (S (length s)) s = (t, None) -> armorBody s = (data, Err ArmorCorrupt).
Proof.
  intros Ht -> Hs. unfold armorBody. rewrite Hs. rewrite dropLineEnds_id by done. by rewrite b64Decode_Encode.
Qed.

(** * Examples *)

Example b64_examples : (b64Encode (gs "f"), b64Encode (gs "fo"), b64Encode (gs "foo"), b64Encode (gs "foobar")) =
  (gs "Zg==", gs "Zm8=", gs "Zm9v", gs "Zm9vYmFy").
Proof. vm_compute. reflexivity. Qed.

Example armor_example : armorDecode (armorEncode (gs "PGP MESSAGE") (gs "hello, world; this is more than one line of armored text, I hope.")) =
  Some (gs "PGP MESSAGE", (gs "hello, world; this is more than one line of armored text, I hope.", Ok tt)).
Proof. vm_compute. reflexivity. Qed.
