(* ===== verification/Jsonsign.v ===== *)
(** Signed JSON: pkg/jsonsign/sign.go, verify.go and keys.go.

    The packets of OpenPGP, its keys and its detached signatures are a vendored
    library and a parameter, the class [PGP]; their ASCII armor is Armor.v.
    [json.Unmarshal] into a map is the decoder of Json.v; numbers are not
    converted. *)

From S2P Require Import Prelude Ref Strutil Sha1 Storage Json Armor.

(** * What is used of the standard library *)

(** [json.Unmarshal]: one value, and nothing after it but white space. *)
Definition Unmarshal (s : gostr) : option json :=
  '(v, r) ← parseValue (2 * length s + 2) s; if decide (skipWs r = []) then Some v else None.

(** Into a [map[string]interface{}]; the last of equal keys counts. *)
Definition jsonMap (ms : list (gostr * json)) : gmap gostr json := foldl (fun m kv => <[unquote kv.1 := kv.2]> m) ∅ ms.
Definition UnmarshalMap (s : gostr) : option (gmap gostr json) :=
  v ← Unmarshal s; match v with JObj ms => Some (jsonMap ms) | JNull => Some ∅ | _ => None end.

Definition jsonString (v : json) : option gostr := match v with JStr raw => Some (unquote raw) | _ => None end.

Definition Index (s sep : gostr) : option nat := head (filter (fun i => isAt sep s i = true) (seq 0 (S (length s)))).
Definition LastIndex (s sep : gostr) : option nat := last (filter (fun i => isAt sep s i = true) (seq 0 (S (length s)))).

(** The encodings of the runes of [unicode.IsSpace]. *)
Definition spaceRunes : list gostr :=
  map (fun b => [zb b]) [9; 10; 11; 12; 13; 32] ++ map (fun b => [zb 194; zb b]) [133; 160] ++
  [[zb 225; zb 154; zb 128]] ++ map (fun b => [zb 226; zb 128; zb b]) [128; 129; 130; 131; 132; 133; 134; 135; 136; 137; 138; 168; 169; 175] ++
  [[zb 226; zb 129; zb 159]; [zb 227; zb 128; zb 128]].

Definition trimOne (s : gostr) : option gostr :=
  head (omap (fun u => if decide ((length u <= length s)%nat /\ drop (length s - length u) s = u) then Some (take (length s - length u) s) else None) spaceRunes).
Fixpoint trimLoop (fuel : nat) (s : gostr) : gostr :=
  match fuel with O => s | S fuel => match trimOne s with Some s' => trimLoop fuel s' | None => s end end.
(** [strings.TrimRightFunc(s, unicode.IsSpace)] *)
Definition trimRight (s : gostr) : gostr := trimLoop (length s) s.

(** * OpenPGP *)

Inductive hashKind := HSha1 | HSha256 | HOther.

Class PGP := {
  PublicKey : Type;
  Signature : Type;
  Entity : Type;
  keyIdString : PublicKey -> gostr;
  entityKeyIdString : Entity -> gostr;
  entityKeyIdShortString : Entity -> gostr;
  sigHash : Signature -> hashKind;
  sigBinary : Signature -> bool;                            (* SigTypeBinary *)
  packetRead : reader -> option (PublicKey + Signature + unit);  (* key, signature, or any other packet *)
  pgpVerify : PublicKey -> Signature -> gostr -> bool;
  detachSign : Entity -> gostr -> res gostr                 (* the bytes of a signature packet *)
}.

Definition errSign (msg : string) : error := ErrMsg msg.
Definition ErrMissingKeyBlob : error := ErrMsg "key blob not found".

Definition newlineB : ascii := "010"%char.

(** The 13 bytes between the payload and the text of the signature. *)
Definition sigSeparator : gostr := gs "," ++ [dquote] ++ gs "camliSig" ++ [dquote] ++ gs ":" ++ [dquote].

(** * Armor *)

(** Lines of at most 60 bytes. *)
Fixpoint armorLines (fuel : nat) (payload : gostr) : gostr :=
  match fuel with
  | O => []
  | S fuel =>
      match payload with
      | [] => []
      | _ => let chunkLen := Nat.min 60 (length payload) in take chunkLen payload ++ [newlineB] ++ armorLines fuel (drop chunkLen payload)
      end
  end.

Definition armorHead : gostr := gs "-----BEGIN PGP SIGNATURE-----" ++ [newlineB; newlineB].

Definition reArmor (line : gostr) : gostr :=
  match LastIndex line (gs "=") with
  | None => []
  | Some lastEq =>
      armorHead ++ armorLines (length line) (take lastEq line) ++ drop lastEq line ++
      [newlineB] ++ gs "-----BEGIN PGP SIGNATURE-----" ++ [newlineB]
  end.

Definition publicKeyMaxSize : Z := 256 * 1024.

Section jsonsign.
Context `{PGP}.

Definition SignatureType : gostr := gs "PGP SIGNATURE".

(** [armoredDetachSign] into a buffer, which takes every write. *)
Definition ArmoredDetachSign (e : Entity) (message : gostr) : res gostr :=
  let? packet := detachSign e message in Ok (armorEncode SignatureType packet).

(** [openArmoredPublicKeyFile]; a read error ends the armor. *)
Definition openArmoredPublicKeyFile (src : reader) : res PublicKey :=
  match armorDecode (limitReader publicKeyMaxSize src).1 with
  | None => Err (ErrMsg "Couldn't find PGP block in public key file")
  | Some (typ, body) =>
      if decide (typ = gs "PGP PUBLIC KEY BLOCK") then
        match packetRead body with
        | None => Err (ErrMsg "Invalid public key blob")
        | Some (inl (inl pk)) => Ok pk
        | Some _ => Err (ErrMsg "Invalid public key blob; not a public key packet")
        end
      else Err (ErrMsg "Invalid public key blob.")
  end.

(** * Verifying *)

Record VerifyRequest := MkVerify {
  vr_ba : gostr;
  vr_bp : gostr;
  vr_bpj : gostr;
  vr_bs : gostr;
  vr_CamliSigner : Ref;
  vr_CamliSig : gostr;
  vr_PublicKeyPacket : option PublicKey;
  vr_PayloadMap : option (gmap gostr json);
  vr_SignerKeyId : gostr;
  vr_Err : gerr
}.

(** [fail] *)
Definition fail (vr : VerifyRequest) (e : error) : VerifyRequest * bool :=
  (MkVerify (vr_ba vr) (vr_bp vr) (vr_bpj vr) (vr_bs vr) (vr_CamliSigner vr) (vr_CamliSig vr) (vr_PublicKeyPacket vr)
     (vr_PayloadMap vr) (vr_SignerKeyId vr) (Some e), false).

Definition setSig (vr : VerifyRequest) (sig : gostr) : VerifyRequest :=
  MkVerify (vr_ba vr) (vr_bp vr) (vr_bpj vr) (vr_bs vr) (vr_CamliSigner vr) sig (vr_PublicKeyPacket vr)
    (vr_PayloadMap vr) (vr_SignerKeyId vr) (vr_Err vr).
Definition setPayload (vr : VerifyRequest) (pm : option (gmap gostr json)) (signer : Ref) : VerifyRequest :=
  MkVerify (vr_ba vr) (vr_bp vr) (vr_bpj vr) (vr_bs vr) signer (vr_CamliSig vr) (vr_PublicKeyPacket vr) pm (vr_SignerKeyId vr) (vr_Err vr).
Definition setKey (vr : VerifyRequest) (pk : PublicKey) : VerifyRequest :=
  MkVerify (vr_ba vr) (vr_bp vr) (vr_bpj vr) (vr_bs vr) (vr_CamliSigner vr) (vr_CamliSig vr) (Some pk)
    (vr_PayloadMap vr) (vr_SignerKeyId vr) (vr_Err vr).
Definition setSignerKeyId (vr : VerifyRequest) (id : gostr) : VerifyRequest :=
  MkVerify (vr_ba vr) (vr_bp vr) (vr_bpj vr) (vr_bs vr) (vr_CamliSigner vr) (vr_CamliSig vr) (vr_PublicKeyPacket vr)
    (vr_PayloadMap vr) id (vr_Err vr).

Definition ParseSigMap (vr : VerifyRequest) : VerifyRequest * bool :=
  match UnmarshalMap (vr_bs vr) with
  | None => fail vr (errSign "invalid JSON in signature")
  | Some sigMap =>
      if decide (size sigMap = 1)%nat then
        match sigMap !! gs "camliSig" with
        | None => fail vr (errSign "no 'camliSig' key in signature")
        | Some v =>
            match jsonString v with
            | Some s => (setSig vr s, true)
            | None => fail (setSig vr []) (errSign "camliSig not a string")
            end
        end
      else fail vr (errSign "signature JSON didn't have exactly 1 key")
  end.

Definition ParsePayloadMap (vr : VerifyRequest) : VerifyRequest * bool :=
  match UnmarshalMap (vr_bpj vr) with
  | None => fail (setPayload vr (Some ∅) (vr_CamliSigner vr)) (errSign "parse error; payload JSON is invalid")
  | Some pm =>
      let vr := setPayload vr (Some pm) (vr_CamliSigner vr) in
      match pm !! gs "camliVersion" with
      | None => fail vr (errSign "missing 'camliVersion' in the JSON payload")
      | Some _ =>
          match pm !! gs "camliSigner" with
          | None => fail vr (errSign "missing 'camliSigner' in the JSON payload")
          | Some signer =>
              match jsonString signer with
              | None => fail vr (errSign "invalid 'camliSigner' in the JSON payload")
              | Some s =>
                  match Parse s with
                  | Ok (Some br) => (setPayload vr (Some pm) br, true)
                  | _ => fail (setPayload vr (Some pm) zeroRef) (errSign "malformed 'camliSigner' blobref in the JSON payload")
                  end
              end
          end
      end
  end.

Definition FindAndParsePublicKeyBlob (fetch : Ref -> res gostr) (vr : VerifyRequest) : VerifyRequest * bool :=
  match fetch (vr_CamliSigner vr) with
  | Err ErrNotExist => fail vr ErrMissingKeyBlob
  | Err e => fail vr e
  | Ok d =>
      match openArmoredPublicKeyFile (d, Ok tt) with
      | Ok pk => (setKey vr pk, true)
      | _ => fail vr (errSign "error opening public key file")
      end
  | _ => fail vr (errSign "fetch")
  end.

Definition VerifySignature (vr : VerifyRequest) : VerifyRequest * bool :=
  match armorDecode (reArmor (vr_CamliSig vr)) with
  | None => fail vr (errSign "can't parse camliSig armor")
  | Some (_, body) =>
      match packetRead body with
      | None => fail vr (errSign "error reading PGP packet from camliSig")
      | Some (inl (inr sig)) =>
          match sigHash sig with
          | HOther => fail vr (errSign "I can only verify SHA1 or SHA256 signatures")
          | _ =>
              if sigBinary sig then
                match vr_PublicKeyPacket vr with
                | None => fail vr (errSign "nil public key")   (* not reached: the key has been parsed *)
                | Some pk => if pgpVerify pk sig (vr_bp vr) then (setSignerKeyId vr (keyIdString pk), true) else fail vr (errSign "bad signature")
                end
              else fail vr (errSign "I can only verify binary signatures")
          end
      | Some _ => fail vr (errSign "PGP packet isn't a signature packet")
      end
  end.

Definition NewVerificationRequest (sjson : gostr) : VerifyRequest :=
  match LastIndex sjson sigSeparator with
  | None => MkVerify sjson [] [] [] zeroRef [] None None [] (Some (errSign "no 13-byte camliSig separator found in sjson"))
  | Some sigIndex =>
      let bp := take sigIndex sjson in
      let bpj := bp ++ gs "}" in
      MkVerify (bpj ++ drop (S sigIndex) sjson) bp bpj (gs "{" ++ drop (S sigIndex) sjson) zeroRef [] None None [] None
  end.

(** The next check, if the one before passed. *)
Definition andThen (r : VerifyRequest * bool) (f : VerifyRequest -> VerifyRequest * bool) : VerifyRequest * bool :=
  let '(vr, ok) := r in if ok then f vr else (vr, false).

Definition Verify (fetch : Ref -> res gostr) (vr : VerifyRequest) : VerifyRequest * bool :=
  match vr_Err vr with
  | Some _ => (vr, false)
  | None =>
      let '(vr, ok) := andThen (andThen (andThen (ParseSigMap vr) ParsePayloadMap) (FindAndParsePublicKeyBlob fetch)) VerifySignature in
      if ok then (vr, true)
      else
        let vr := setPayload vr None (vr_CamliSigner vr) in
        match vr_Err vr with
        | Some _ => (vr, false)
        | None => fail vr (errSign "verification failed")
        end
  end.

(** * Signing *)

Record SignRequest := MkSign { sr_UnsignedJSON : gostr; sr_Fetch : Ref -> res gostr; sr_FetchEntity : gostr -> res Entity }.

Definition Sign (sr : SignRequest) : res gostr :=
  let trimmedJSON := trimRight (sr_UnsignedJSON sr) in
  match UnmarshalMap trimmedJSON with
  | None => Err (ErrMsg "json parse error")
  | Some jmap =>
      match jmap !! gs "camliSigner" with
      | None => Err (ErrMsg "json lacks camliSigner key with public key blobref")
      | Some camliSigner =>
          let? signerBlob := Parse (default [] (jsonString camliSigner)) in
          match signerBlob with
          | None => Err (ErrMsg "json camliSigner key is malformed or unsupported")
          | Some signerBlob =>
              match sr_Fetch sr signerBlob with
              | Err _ => Err (ErrMsg "failed to find public key")
              | Panic p => Panic p
              | Blocked => Blocked
              | Ok d =>
                  match openArmoredPublicKeyFile (d, Ok tt) with
                  | Ok pubk =>
                      if decide (last trimmedJSON = Some "}"%char) then
                        let trimmedJSON := removelast trimmedJSON in
                        let? signer := sr_FetchEntity sr (keyIdString pubk) in
                        let? output := ArmoredDetachSign signer trimmedJSON in
                        match Index output [newlineB; newlineB], Index output ([newlineB] ++ gs "-----") with
                        | Some index1, Some index2 =>
                            if (index2 <? index1 + 2)%nat then Panic "slice bounds out of range"
                            else
                              let inner := drop (index1 + 2) (take index2 output) in
                              let signature := filter (fun c => c ≠ newlineB) inner in
                              Ok (trimmedJSON ++ sigSeparator ++ signature ++ [dquote] ++ gs "}" ++ [newlineB])
                        | _, _ => Err (ErrMsg "Failed to parse signature from gpg.")
                        end
                      else Err (ErrMsg "json parameter lacks trailing '}'")
                  | _ => Err (ErrMsg "failed to parse public key from blobref")
                  end
              end
          end
      end
  end.
End jsonsign.

(** * Splitting a signed text *)

Lemma LastIndex_Some s sep i : (i <= length s)%nat -> isAt sep s i = true -> (forall j, (i < j)%nat -> isAt sep s j = false) ->
  LastIndex s sep = Some i.
Proof.
  intros Hi Hat Hno. unfold LastIndex. replace (S (length s)) with (i + S (length s - i))%nat by lia.
  rewrite seq_app, filter_app. cbn [seq Nat.add]. rewrite filter_cons, decide_True by done.
  rewrite (filter_none _ (seq (S i) _)).
  - apply last_snoc.
  - apply Forall_forall. intros j [Hj _]%elem_of_seq H. rewrite Hno in H by lia. done.
Qed.

Lemma LastIndex_at s sep i : LastIndex s sep = Some i -> isAt sep s i = true.
Proof.
  unfold LastIndex. intros H. apply last_Some_elem_of in H. by apply list_elem_of_filter in H as [Hat _].
Qed.

Lemma isAt_cut sep s i : isAt sep s i = true -> s = take i s ++ sep ++ drop (i + length sep) s.
Proof.
  intros H. apply bool_decide_eq_true in H. rewrite <- H at 1.
  rewrite <- (take_drop i s) at 1. f_equal. rewrite <- (take_drop (length sep) (drop i s)) at 1. by rewrite drop_drop.
Qed.

(** Where the text after a separator has no comma, it is the last. *)
Lemma LastIndex_sep bp t : ","%char ∉ t -> LastIndex (bp ++ sigSeparator ++ t) sigSeparator = Some (length bp).
Proof.
  intros Ht. apply LastIndex_Some.
  - rewrite length_app. lia.
  - unfold isAt. apply bool_decide_eq_true. rewrite drop_app_length. apply take_app_length.
  - intros j Hj. apply not_true_iff_false. intros H%bool_decide_eq_true.
    assert (Hc : (bp ++ sigSeparator ++ t) !! j = Some ","%char).
    { apply (f_equal (fun l => l !! 0%nat)) in H. rewrite lookup_take_lt in H by (cbn; lia). rewrite lookup_drop, Nat.add_0_r in H. by rewrite H. }
    change sigSeparator with (","%char :: tail sigSeparator) in Hc. rewrite lookup_app_r in Hc by lia.
    destruct (j - length bp)%nat as [|k] eqn:Ek; [lia|]. cbn [app lookup list_lookup] in Hc.
    change (list_lookup k (tail sigSeparator ++ t)) with ((tail sigSeparator ++ t) !! k) in Hc.
    apply list_elem_of_lookup_2, elem_of_app in Hc as [Hc|Hc]; [|done].
    revert Hc. apply (bool_decide_unpack _). vm_compute. exact I.
Qed.

(** The characters of armored text. *)
Definition plainChar (c : ascii) : Prop := 32 <= bz c < 127 /\ c ≠ backslash /\ c ≠ dquote /\ c ≠ ","%char.

Lemma scanString_plain t u : Forall plainChar t -> scanString (t ++ dquote :: u) = Some (t, u).
Proof.
  induction 1 as [|c t (Hc & Hb & Hq & _) _ IH]; cbn [app scanString]; [by rewrite decide_True|].
  rewrite decide_False by done. destruct (Z.ltb_spec (bz c) 32); [lia|]. rewrite decide_False by done. by rewrite IH.
Qed.

Lemma unquoteLoop_plain t k : Forall plainChar t -> (length t <= k)%nat -> unquoteLoop k t = t.
Proof.
  intros Ht. revert k. induction Ht as [|c t (Hc & Hb & Hq & _) _ IH]; intros [|k] Hk; cbn in Hk; try done; try lia.
  cbn [unquoteLoop]. rewrite decide_False by done. destruct (Z.ltb_spec (bz c) 128); [|lia]. f_equal. apply IH. lia.
Qed.

Lemma unquote_plain t : Forall plainChar t -> unquote t = t.
Proof. intros Ht. by apply unquoteLoop_plain. Qed.

(** The member that signing adds, as a reader of JSON sees it. *)
Definition sigMember (sg : gostr) : gostr := drop 1 sigSeparator ++ sg ++ [dquote] ++ gs "}" ++ [newlineB].

Lemma parseMembers_sig n sg : Forall plainChar sg ->
  parseMembers (S (S n)) (sigMember sg) = Some ([(gs "camliSig", JStr sg)], [newlineB]).
Proof.
  intros Hs. unfold sigMember. change (drop 1 sigSeparator ++ ?x) with (dquote :: gs "camliSig" ++ dquote :: ":"%char :: dquote :: x).
  change ([dquote] ++ gs "}" ++ [newlineB]) with (dquote :: "}"%char :: [newlineB]).
  cbn [parseMembers]. rewrite skipWs_cons by reflexivity. rewrite decide_True by reflexivity.
  rewrite scanString_plain by (apply Forall_forall; intros c Hc; revert c Hc; apply Forall_forall; repeat constructor; vm_compute; done).
  cbn [mbind option_bind]. rewrite skipWs_cons by reflexivity. rewrite decide_True by reflexivity.
  cbn [parseValue]. rewrite skipWs_cons by reflexivity. rewrite decide_True by reflexivity. rewrite scanString_plain by done. cbn [mbind option_bind].
  rewrite skipWs_cons by reflexivity. rewrite decide_False by (vm_compute; discriminate). rewrite decide_True by reflexivity. reflexivity.
Qed.

Lemma Unmarshal_sig sg : Forall plainChar sg -> UnmarshalMap (gs "{" ++ sigMember sg) = Some {[gs "camliSig" := JStr sg]}.
Proof.
  intros Hs. unfold UnmarshalMap, Unmarshal. set (s := gs "{" ++ _).
  assert (exists n, (2 * length s + 2)%nat = S (S (S n))) as [n ->].
  { exists (2 * length s - 1)%nat. subst s. rewrite length_app. cbn [gs list_ascii_of_string length]. lia. }
  assert (parseValue (S (S (S n))) s = Some (JObj [(gs "camliSig", JStr sg)], [newlineB])) as ->.
  - subst s. cbn [gs list_ascii_of_string app parseValue]. rewrite skipWs_cons by reflexivity.
    rewrite decide_False by (vm_compute; discriminate). rewrite decide_True by reflexivity.
    unfold sigMember at 1. change (drop 1 sigSeparator ++ ?x) with (dquote :: gs "camliSig" ++ dquote :: ":"%char :: dquote :: x).
    rewrite skipWs_cons by reflexivity. rewrite decide_False by (vm_compute; discriminate).
    change (dquote :: gs "camliSig" ++ dquote :: ":"%char :: dquote :: ?x) with (drop 1 sigSeparator ++ x). fold (sigMember sg).
    by rewrite parseMembers_sig.
  - cbn. by rewrite insert_empty.
Qed.

Lemma isAt_nth sep s i k c : isAt sep s i = true -> sep !! k = Some c -> s !! (i + k)%nat = Some c.
Proof.
  intros H%bool_decide_eq_true Hk. rewrite <- lookup_drop. rewrite <- H in Hk. by apply lookup_take_Some in Hk as [Hk _].
Qed.

Lemma isAt_app pre sep t : isAt sep (pre ++ sep ++ t) (length pre) = true.
Proof. unfold isAt. apply bool_decide_eq_true. rewrite drop_app_length. apply take_app_length. Qed.

Lemma Index_Some s sep i : (i <= length s)%nat -> isAt sep s i = true -> (forall j, (j < i)%nat -> isAt sep s j = false) ->
  Index s sep = Some i.
Proof.
  intros Hi Hat Hno. unfold Index. replace (S (length s)) with (i + S (length s - i))%nat by lia.
  rewrite seq_app, filter_app, (filter_none _ (seq 0 i)).
  - cbn [seq Nat.add app]. by rewrite filter_cons, decide_True by done.
  - apply Forall_forall. intros j [_ Hj]%elem_of_seq H. rewrite Hno in H by lia. done.
Qed.

Lemma Index_at s sep i : Index s sep = Some i -> isAt sep s i = true.
Proof. unfold Index. intros H. apply head_Some_elem_of in H. by apply list_elem_of_filter in H as [Hat _]. Qed.

Lemma LastIndex_le s sep i : LastIndex s sep = Some i -> (i <= length s)%nat.
Proof. unfold LastIndex. intros H. apply last_Some_elem_of in H. apply list_elem_of_filter in H as [_ H%elem_of_seq]. lia. Qed.

Lemma singleton_of_size {A} (m : gmap gostr A) k v : size m = 1%nat -> m !! k = Some v -> m = {[k := v]}.
Proof.
  intros Hs Hk. rewrite <- (insert_delete_id _ _ _ Hk). rewrite (map_size_empty_inv (delete k m)); [done|].
  rewrite map_size_delete_Some by eauto. lia.
Qed.

(** * What verification means *)

Section verified.
Context `{PGP}.

(** What [Verify] has found, if it succeeds: the text up to its last
    separator is the payload, the payload names the signer, and the signer's
    key has signed exactly these bytes. *)
Record verified (fetch : Ref -> res gostr) (sjson : gostr) (vr : VerifyRequest) : Prop := {
  ver_split : sjson = vr_bp vr ++ sigSeparator ++ drop (length (vr_bp vr) + length sigSeparator) sjson;
  ver_last : LastIndex sjson sigSeparator = Some (length (vr_bp vr));
  ver_payload : vr_PayloadMap vr = UnmarshalMap (vr_bp vr ++ gs "}");
  ver_signer : exists pm v raw, vr_PayloadMap vr = Some pm /\ pm !! gs "camliVersion" = Some v /\
    pm !! gs "camliSigner" = Some (JStr raw) /\ Parse (unquote raw) = Ok (Some (vr_CamliSigner vr));
  ver_key : exists d pk, fetch (vr_CamliSigner vr) = Ok d /\ openArmoredPublicKeyFile (d, Ok tt) = Ok pk /\
    vr_PublicKeyPacket vr = Some pk /\ vr_SignerKeyId vr = keyIdString pk /\
    exists raw typ body sig,
      UnmarshalMap (gs "{" ++ drop (S (length (vr_bp vr))) sjson) = Some {[gs "camliSig" := JStr raw]} /\
      vr_CamliSig vr = unquote raw /\
      armorDecode (reArmor (vr_CamliSig vr)) = Some (typ, body) /\ packetRead body = Some (inl (inr sig)) /\
      sigHash sig <> HOther /\ sigBinary sig = true /\ pgpVerify pk sig (vr_bp vr) = true;
  ver_noerr : vr_Err vr = None
}.

Lemma ParseSigMap_ok vr vr' : ParseSigMap vr = (vr', true) ->
  exists raw, UnmarshalMap (vr_bs vr) = Some {[gs "camliSig" := JStr raw]} /\ vr' = setSig vr (unquote raw).
Proof.
  unfold ParseSigMap, fail. destruct (UnmarshalMap _) as [m|]; [|done]. destruct (decide _) as [Hs|]; [|done].
  destruct (m !! _) as [v|] eqn:Ev; [|done]. destruct (jsonString v) as [s|] eqn:Es; [|done]. intros [= <-].
  destruct v as [| |raw| | |]; try done. injection Es as <-. exists raw. split; [|done]. f_equal.
  by apply singleton_of_size.
Qed.

Lemma ParsePayloadMap_ok vr vr' : ParsePayloadMap vr = (vr', true) ->
  exists pm v raw br, UnmarshalMap (vr_bpj vr) = Some pm /\ pm !! gs "camliVersion" = Some v /\
    pm !! gs "camliSigner" = Some (JStr raw) /\ Parse (unquote raw) = Ok (Some br) /\ vr' = setPayload vr (Some pm) br.
Proof.
  unfold ParsePayloadMap, fail. destruct (UnmarshalMap _) as [pm|]; [|done]. destruct (pm !! gs "camliVersion") as [v|] eqn:Ev; [|done].
  destruct (pm !! gs "camliSigner") as [sg|] eqn:Es; [|done]. destruct (jsonString sg) as [s|] eqn:Ej; [|done].
  destruct (Parse s) as [[br|]| | |] eqn:Ep; try done. intros [= <-].
  destruct sg as [| |raw| | |]; try done. injection Ej as <-. by exists pm, v, raw, br.
Qed.

Lemma FindAndParsePublicKeyBlob_ok fetch vr vr' : FindAndParsePublicKeyBlob fetch vr = (vr', true) ->
  exists d pk, fetch (vr_CamliSigner vr) = Ok d /\ openArmoredPublicKeyFile (d, Ok tt) = Ok pk /\ vr' = setKey vr pk.
Proof.
  unfold FindAndParsePublicKeyBlob, fail. destruct (fetch _) as [d|[]| |]; try done.
  destruct (openArmoredPublicKeyFile _) as [pk| | |] eqn:Eo; try done. intros [= <-]. by exists d, pk.
Qed.

Lemma VerifySignature_ok vr vr' : VerifySignature vr = (vr', true) ->
  exists typ body sig pk, armorDecode (reArmor (vr_CamliSig vr)) = Some (typ, body) /\ packetRead body = Some (inl (inr sig)) /\
    sigHash sig <> HOther /\ sigBinary sig = true /\ vr_PublicKeyPacket vr = Some pk /\ pgpVerify pk sig (vr_bp vr) = true /\
    vr' = setSignerKeyId vr (keyIdString pk).
Proof.
  unfold VerifySignature, fail. destruct (armorDecode _) as [[typ body]|]; [|done]. destruct (packetRead body) as [[[?|sig]|?]|] eqn:Ep; try done.
  intros Hv. exists typ, body, sig. revert Hv.
  destruct (sigHash sig) eqn:Eh, (sigBinary sig) eqn:Eb, (vr_PublicKeyPacket vr) as [pk|]; try done;
    destruct (pgpVerify _ _ _) eqn:Ev; try done; intros [= <-]; by exists pk.
Qed.

Lemma andThen_ok r f vr' : andThen r f = (vr', true) -> exists vr, r = (vr, true) /\ f vr = (vr', true).
Proof. destruct r as [vr []]; cbn; [|done]. by exists vr. Qed.

(** C5. Signatures are sound: [Verify] answers true only when the bytes
    before the last signature separator were signed by the key that the
    payload itself names, the payload map is what these bytes parse to, and
    the key id is that key's; in every other case the caller sees an error
    and no payload map. *)
Theorem Verify_sound (fetch : Ref -> res gostr) (sjson : gostr) :
  let '(vr, ok) := Verify fetch (NewVerificationRequest sjson) in
  if ok then verified fetch sjson vr else vr_PayloadMap vr = None /\ vr_Err vr <> None.
Proof.
  unfold Verify, NewVerificationRequest. destruct (LastIndex sjson sigSeparator) as [i|] eqn:Ei; cbn [vr_Err]; [|done].
  set (vr0 := MkVerify _ _ _ _ _ _ _ _ _ _). destruct (andThen _ _) as [vr ok] eqn:Ev. destruct ok.
  - apply andThen_ok in Ev as (vr3 & Ev & E4). apply andThen_ok in Ev as (vr2 & Ev & E3). apply andThen_ok in Ev as (vr1 & E1 & E2).
    apply ParseSigMap_ok in E1 as (raws & E1 & ->). apply ParsePayloadMap_ok in E2 as (pm & v & raw & br & E2 & Hv & Hs & Hp & ->).
    apply FindAndParsePublicKeyBlob_ok in E3 as (d & pk & E3 & Ho & ->). apply VerifySignature_ok in E4 as (typ & body & sig & pk' & Ha & Hr & Hh & Hb & Hk & Hg & ->).
    cbn in Hk. injection Hk as <-. pose proof (isAt_cut _ _ _ (LastIndex_at _ _ _ Ei)) as Hsplit.
    assert (length (take i sjson) = i) as Hi.
    { apply length_take_le. apply LastIndex_le in Ei. lia. }
    change (vr_bp vr0) with (take i sjson) in Hg. constructor; cbn [vr_bp vr_Err vr_PayloadMap vr_CamliSigner vr_CamliSig vr_PublicKeyPacket vr_SignerKeyId setSignerKeyId setKey setPayload setSig vr0]; rewrite ?Hi.
    + exact Hsplit.
    + done.
    + symmetry. exact E2.
    + by exists pm, v, raw.
    + exists d, pk. split_and!; try done. by exists raws, typ, body, sig.
    + done.
  - cbn [vr_Err setPayload fail]. destruct (vr_Err vr) eqn:Ee; cbn; rewrite ?Ee; split; done.
Qed.
End verified.

(** * Signing, then verifying *)

Definition armorEnd : gostr := newlineB :: gs "-----END PGP SIGNATURE-----" ++ [newlineB].
Definition dash : ascii := "-"%char.

Section signed.
Context `{PGP}.

(** What the OpenPGP library promises of a detached signature: reading its
    packet does not depend on how the reader ends, and gives a signature over
    the message that this key verifies. *)
Definition packetSigns (pk : PublicKey) (msg pkt : gostr) : Prop := exists sig,
  (forall e, packetRead (pkt, e) = Some (inl (inr sig))) /\ sigHash sig <> HOther /\ sigBinary sig = true /\ pgpVerify pk sig msg = true.

(** The entity that the keyring holds under a key's id signs for that key. *)
Definition keyringSigns (fetchEntity : gostr -> res Entity) : Prop := forall pk e msg pkt,
  fetchEntity (keyIdString pk) = Ok e -> detachSign e msg = Ok pkt -> packetSigns pk msg pkt.

(** The lines of an armored signature, the checksum's included. *)
Definition armorText (pkt : gostr) : gostr :=
  lbClose (lbWrite (S (length (b64Encode pkt))) armorLineLength newLineBreaker (b64Encode pkt)) ++
  lf :: padChar :: b64Encode (crcBytes (crc24 crc24Init pkt)).

Lemma armorEncode_text pkt : armorEncode SignatureType pkt = armorHead ++ armorText pkt ++ armorEnd.
Proof. unfold armorEncode, armorText, armorEnd. rewrite <- app_assoc. reflexivity. Qed.

Lemma alphabet_plain c : c ∈ b64Alphabet \/ c = padChar -> plainChar c /\ c <> dash.
Proof.
  assert (Forall (fun c => plainChar c /\ c <> dash) (padChar :: b64Alphabet)) as Hf.
  { apply (bool_decide_unpack _). vm_compute. exact I. }
  rewrite Forall_forall in Hf. intros [Hc| ->]; apply Hf; [by apply list_elem_of_further|apply list_elem_of_here].
Qed.

Lemma armorText_chars pkt : Forall (fun c => c = newlineB \/ (plainChar c /\ c <> dash)) (armorText pkt).
Proof.
  assert (forall d, Forall (fun c => c = newlineB \/ (plainChar c /\ c <> dash)) (b64Encode d)) as Hb.
  { intros d. eapply Forall_impl; [apply b64Encode_chars|]. intros c Hc. right. by apply alphabet_plain. }
  unfold armorText. apply Forall_app. split; [apply lbWrite_chars; try done; by left|].
  apply Forall_cons. split; [by left|]. apply Forall_cons. split; [right; by apply alphabet_plain; right|apply Hb].
Qed.

Lemma b64_no_lf s : lf ∉ b64Encode s.
Proof.
  pose proof (b64Encode_chars s) as Hf. rewrite Forall_forall in Hf. intros Hc%Hf%alphabet_plain. destruct Hc as ((Hc & _) & _).
  change (bz lf) with 10 in Hc. lia.
Qed.

Lemma armorText_join pkt : joinLines (armorText pkt) = b64Encode pkt ++ padChar :: b64Encode (crcBytes (crc24 crc24Init pkt)).
Proof.
  unfold armorText. rewrite joinLines_app, lbWrite_join by (unfold armorLineLength; cbn [lb_line newLineBreaker length]; lia). cbn [lb_out lb_line newLineBreaker app].
  rewrite (joinLines_id (b64Encode pkt)) by apply b64_no_lf. f_equal.
  change (joinLines (lf :: ?x)) with (joinLines x). apply joinLines_id. apply not_elem_of_cons. split; [done|apply b64_no_lf].
Qed.

(** The lines that [reArmor] cuts are read as they are. *)
Lemma armorLines_read fuel k text s : (length text <= fuel)%nat -> (length text < k)%nat -> (length text mod 4 = 0)%nat ->
  Forall (fun c => c ∈ b64Alphabet \/ c = padChar) text -> (forall k, lineReaderAll (S k) s = ([], None)) ->
  lineReaderAll k (armorLines fuel text ++ s) = (text, None).
Proof.
  revert k text. induction fuel as [|fuel IH]; intros [|k] text Hf Hk H4 Hc Hs; try lia.
  { destruct text; [apply Hs|cbn in Hf; lia]. }
  destruct (decide (text = [])) as [->|Hne]; [apply Hs|]. assert (length text <> 0)%nat by (by destruct text).
  assert (armorLines (S fuel) text = take (Nat.min 60 (length text)) text ++ [newlineB] ++ armorLines fuel (drop (Nat.min 60 (length text)) text)) as -> by (by destruct text).
  set (n := Nat.min 60 (length text)). assert (n mod 4 = 0)%nat as Hn by (subst n; destruct (Nat.min_spec 60 (length text)) as [[_ ->]|[_ ->]]; done).
  rewrite <- !app_assoc. change ([newlineB] ++ ?x) with (lf :: x).
  assert (length (take n text) = n) as Hl by (rewrite length_take; lia).
  rewrite lineReaderAll_line.
  - rewrite IH; [by rewrite take_drop|..]; try done; rewrite ?length_drop; try lia; [|by apply Forall_drop].
    clear - Hn H4. subst n. destruct (Nat.min_spec 60 (length text)) as [[Hlt ->]|[_ ->]]; [|by rewrite Nat.sub_diag].
    pose proof (Nat.div_mod_eq (length text) 4) as E. rewrite H4, Nat.add_0_r in E. rewrite E.
    replace (4 * (length text / 4) - 60)%nat with ((length text / 4 - 15) * 4)%nat by lia. apply Nat.Div0.mod_mul.
  - apply (Forall_take _ n) in Hc. rewrite Forall_forall in Hc. split_and!; [..|lia]; intros Hin%Hc%alphabet_plain; destruct Hin as ((Hin & _) & _).
    + change (bz lf) with 10 in Hin. lia.
    + change (bz cr) with 13 in Hin. lia.
  - rewrite Hl. intros E. by rewrite E in Hn.
Qed.

Lemma length_armorLines fuel text : (length text <= fuel)%nat -> (length text <= length (armorLines fuel text))%nat.
Proof.
  revert text. induction fuel as [|fuel IH]; intros text Hf; [lia|]. destruct text as [|c text]; [cbn; lia|].
  cbn [armorLines]. set (n := Nat.min 60 _). assert (0 < n)%nat by (subst n; cbn; lia).
  specialize (IH (drop n (c :: text))). rewrite length_drop in IH. rewrite !length_app, length_take. cbn [length] in *. lia.
Qed.

(** The decoder finds the packet in the joined and re-armored lines, and then
    a corrupt end, as the last line is not an end line. *)
Lemma reArmor_decodes pkt :
  armorDecode (reArmor (joinLines (armorText pkt))) = Some (SignatureType, (pkt, Err ArmorCorrupt)).
Proof.
  rewrite armorText_join. set (text := b64Encode pkt). set (sum := b64Encode (crcBytes _)).
  assert (LastIndex (text ++ padChar :: sum) (gs "=") = Some (length text)) as Hi.
  { apply LastIndex_Some.
    - rewrite length_app. lia.
    - apply (isAt_app text (gs "=")).
    - intros j Hj. apply not_true_iff_false. intros Ha. pose proof (isAt_nth _ _ _ 0 padChar Ha eq_refl) as Hat.
      rewrite Nat.add_0_r, lookup_app_r in Hat by lia. destruct (j - length text)%nat as [|i] eqn:E; [lia|].
      cbn in Hat. apply list_elem_of_lookup_2 in Hat. pose proof (b64Encode_three _ _ _ : Forall _ sum) as Hs.
      rewrite Forall_forall in Hs. by apply (alphabet_not_pad padChar (Hs _ Hat)). }
  unfold reArmor. rewrite Hi, take_app_length, drop_app_length. set (lines := armorLines _ _).
  set (trailer := [newlineB] ++ _). set (s := lines ++ (padChar :: sum) ++ trailer).
  assert (armorHead ++ s = (armorStart ++ SignatureType ++ armorEndOfLine) ++ lf :: lf :: s) as -> by reflexivity.
  rewrite armorDecode_block; [|split_and!|done|vm_compute; reflexivity].
  - do 2 f_equal. eapply armorBody_text; [apply b64Encode_chars|reflexivity|].
    unfold s, lines. apply (armorLines_read _ _ text); [rewrite length_app; lia| |apply b64Encode_length|apply b64Encode_chars|].
    + assert (length text <= length (armorLines (length (text ++ padChar :: sum)) text))%nat as HL by (apply length_armorLines; rewrite length_app; lia).
      rewrite length_app. lia.
    + intros k. unfold sum, trailer, crcBytes. apply lineReaderAll_sum; [split_and!|vm_compute; reflexivity].
      * apply (bool_decide_unpack _). vm_compute. exact I.
      * apply (bool_decide_unpack _). vm_compute. exact I.
      * cbn. lia.
  - apply (bool_decide_unpack _). vm_compute. exact I.
  - apply (bool_decide_unpack _). vm_compute. exact I.
  - cbn. lia.
Qed.

Lemma armored_indices body : Forall (fun c => c = newlineB \/ (plainChar c /\ c <> dash)) body ->
  Index (armorHead ++ body ++ armorEnd) [newlineB; newlineB] = Some 29%nat /\
  Index (armorHead ++ body ++ armorEnd) ([newlineB] ++ gs "-----") = Some (31 + length body)%nat.
Proof.
  intros Hb. set (out := armorHead ++ body ++ armorEnd).
  assert (Hhead : forall j, (j < 29)%nat -> out !! j <> Some newlineB).
  { intros j Hj. assert (j < length armorHead)%nat as Hl by (change (length armorHead) with 31%nat; lia).
    unfold out. rewrite lookup_app_l by done. clear - Hj.
    do 29 (destruct j as [|j]; [vm_compute; discriminate|]). lia. }
  assert (Hlen : length out = (31 + (length body + 29))%nat) by (unfold out; rewrite !length_app; done).
  split; apply Index_Some; try lia.
  - reflexivity.
  - intros j Hj. apply not_true_iff_false. intros Ha. apply (Hhead j Hj). rewrite <- (Nat.add_0_r j). by apply (isAt_nth _ _ _ 0 newlineB Ha).
  - unfold out. rewrite app_assoc. replace (31 + length body)%nat with (length (armorHead ++ body)) by (rewrite length_app; done).
    change armorEnd with (([newlineB] ++ gs "-----") ++ gs "END PGP SIGNATURE-----" ++ [newlineB]). apply isAt_app.
  - intros j Hj. apply not_true_iff_false. intros Ha. destruct (decide (j < 29)%nat) as [Hlt|Hge].
    + apply (Hhead j Hlt). rewrite <- (Nat.add_0_r j). by apply (isAt_nth _ _ _ 0 newlineB Ha).
    + pose proof (isAt_nth _ _ _ 1 dash Ha eq_refl) as Hd. unfold out in Hd.
      destruct (decide (j = 29)%nat) as [->|]; [by vm_compute in Hd|].
      rewrite lookup_app_r in Hd by (change (length armorHead) with 31%nat; lia). change (length armorHead) with 31%nat in Hd.
      destruct (decide (j + 1 - 31 < length body)%nat) as [Hi|Hi].
      * rewrite lookup_app_l in Hd by done. rewrite Forall_lookup in Hb. by destruct (Hb _ _ Hd) as [|[_ ?]].
      * rewrite lookup_app_r in Hd by lia. replace (j + 1 - 31 - length body)%nat with 0%nat in Hd by lia. done.
Qed.

Lemma last_split (l : gostr) c : last l = Some c -> l = removelast l ++ [c].
Proof.
  intros [l' ->]%last_Some. by rewrite removelast_last.
Qed.

Lemma inner_body body : drop (29 + 2) (take (31 + length body) (armorHead ++ body ++ armorEnd)) = body.
Proof.
  rewrite app_assoc. change 31%nat with (length armorHead) at 1. rewrite <- length_app, take_app_length.
  change (29 + 2)%nat with (length armorHead). apply drop_app_length.
Qed.

Lemma plain_filter body : Forall (fun c => c = newlineB \/ (plainChar c /\ c <> dash)) body ->
  Forall plainChar (filter (fun c => c ≠ newlineB) body).
Proof.
  rewrite !Forall_forall. intros Hb c [Hn Hc]%list_elem_of_filter. by destruct (Hb c Hc) as [|[? _]].
Qed.

Lemma plain_no_comma sgn : Forall plainChar sgn -> ","%char ∉ sgn ++ [dquote] ++ gs "}" ++ [newlineB].
Proof.
  intros Hs [Hc|Hc]%elem_of_app.
  - rewrite Forall_forall in Hs. by destruct (Hs _ Hc) as (_ & _ & _ & ?).
  - revert Hc. apply (bool_decide_unpack _). vm_compute. exact I.
Qed.

(** What [Sign] has done when it succeeds. *)
Record signedBy (fetch : Ref -> res gostr) (json text bp sgn : gostr) (pm : gmap gostr Json.json) (br : Ref) (pk : PublicKey) : Prop := {
  sb_trimmed : trimRight json = bp ++ gs "}";
  sb_map : UnmarshalMap (trimRight json) = Some pm;
  sb_text : text = bp ++ sigSeparator ++ sgn ++ [dquote] ++ gs "}" ++ [newlineB];
  sb_plain : Forall plainChar sgn;
  sb_nonempty : sgn <> [];
  sb_signer : exists raw, pm !! gs "camliSigner" = Some (JStr raw) /\ Parse (unquote raw) = Ok (Some br);
  sb_key : exists d, fetch br = Ok d /\ openArmoredPublicKeyFile (d, Ok tt) = Ok pk;
  sb_sig : exists typ pkt sig, armorDecode (reArmor sgn) = Some (typ, pkt) /\ packetRead pkt = Some (inl (inr sig)) /\
    sigHash sig <> HOther /\ sigBinary sig = true /\ pgpVerify pk sig bp = true
}.

Lemma Sign_signedBy json fetch fetchEntity text : keyringSigns fetchEntity -> Sign (MkSign json fetch fetchEntity) = Ok text ->
  exists bp sgn pm br pk, signedBy fetch json text bp sgn pm br pk.
Proof.
  intros Hring Hsign. unfold Sign in Hsign. cbn [sr_UnsignedJSON sr_Fetch sr_FetchEntity] in Hsign.
  destruct (UnmarshalMap (trimRight json)) as [pm|] eqn:Hpm; [|done].
  destruct (pm !! gs "camliSigner") as [sg|] eqn:Esg; [|done].
  destruct (Parse (default [] (jsonString sg))) as [[br|]| | |] eqn:Ep; try done. cbn [rbind] in Hsign.
  destruct (fetch br) as [d| | |] eqn:Ef; try done.
  destruct (openArmoredPublicKeyFile (d, Ok ())) as [pk| | |] eqn:Eo; try done.
  destruct (decide _) as [Hlast|]; [|done].
  destruct (fetchEntity (keyIdString pk)) as [e| | |] eqn:Ee; try done. cbn [rbind] in Hsign.
  unfold ArmoredDetachSign in Hsign. destruct (detachSign e _) as [pkt| | |] eqn:Eout; try done. cbn [rbind] in Hsign.
  destruct (Hring _ _ _ _ Ee Eout) as (sig & Hpkt & Hh & Hb & Hv). rewrite armorEncode_text in Hsign. set (body := armorText pkt) in *.
  destruct (armored_indices body (armorText_chars pkt)) as [Ei1 Ei2]. rewrite Ei1, Ei2 in Hsign.
  destruct (Nat.ltb_spec (31 + length body) (29 + 2)); [lia|]. rewrite inner_body in Hsign. apply Ok_eq in Hsign as <-.
  exists (removelast (trimRight json)), (filter (fun c => c ≠ newlineB) body), pm, br, pk. constructor; try done.
  - by apply last_split.
  - apply plain_filter, armorText_chars.
  - intros Hnil. pose proof (armorText_join pkt) as Hj. unfold joinLines in Hj. fold body in Hj. change lf with newlineB in Hj.
    rewrite Hnil in Hj. by destruct (b64Encode pkt).
  - assert (Hnil : Parse [] = Ok None) by (vm_compute; reflexivity).
    destruct sg as [| |raw| | |]; cbn [jsonString default] in Ep; try (unfold default in Ep; rewrite Hnil in Ep; done). by exists raw.
  - by exists d.
  - exists SignatureType, (pkt, Err ArmorCorrupt), sig. split; [apply reArmor_decodes|by split_and!].
Qed.

Lemma signedBy_verifies fetch json text bp sgn pm br pk : signedBy fetch json text bp sgn pm br pk -> is_Some (pm !! gs "camliVersion") ->
  exists vr, Verify fetch (NewVerificationRequest text) = (vr, true) /\ vr_PayloadMap vr = Some pm /\ vr_bp vr = bp /\
    vr_CamliSigner vr = br /\ vr_SignerKeyId vr = keyIdString pk.
Proof.
  intros [Htrim Hpm -> Hplain _ (raw & Hsg & Hp) (d & Hf & Ho) (typ & pkt & sig & Hdec & Hpkt & Hh & Hb & Hv)] [v Hver].
  unfold NewVerificationRequest. rewrite LastIndex_sep by (by apply plain_no_comma).
  rewrite take_app_length. unfold Verify. cbn [vr_Err].
  replace (drop (S (length bp)) (bp ++ sigSeparator ++ sgn ++ [dquote] ++ gs "}" ++ [newlineB])) with (sigMember sgn)
    by (rewrite drop_app_ge by lia; by replace (S (length bp) - length bp)%nat with 1%nat by lia).
  unfold ParseSigMap at 1. cbn [vr_bs]. rewrite Unmarshal_sig by done.
  rewrite decide_True by apply map_size_singleton. rewrite lookup_singleton_eq. cbn [jsonString andThen].
  rewrite unquote_plain by done. unfold ParsePayloadMap. cbn [setSig vr_bpj]. rewrite <- Htrim, Hpm, Hver, Hsg. cbn [jsonString].
  rewrite Hp. cbn [andThen]. unfold FindAndParsePublicKeyBlob. cbn [setPayload vr_CamliSigner]. rewrite Hf, Ho. cbn [andThen].
  unfold VerifySignature. cbn [setKey setSig setPayload vr_CamliSig vr_PublicKeyPacket vr_bp]. rewrite Hdec, Hpkt, Hb, Hv.
  eexists. destruct (sigHash sig); [| |done]; (split; [reflexivity|]); done.
Qed.

(** C6. A text that [Sign] returns passes [Verify], if the object that was
    signed has a camliVersion, which [Sign] does not check and [Verify] does
    ([sign_without_version]): with the same key blob and a keyring that signs
    for it, the signature that was armored, joined and put into the text is
    taken out, armored again and decoded to the packet that was made
    ([reArmor_decodes]), the payload map is the map of the text that was given,
    and the signed bytes are that text without its closing brace. *)
Theorem Sign_verifies (json : gostr) (fetch : Ref -> res gostr) (fetchEntity : gostr -> res Entity) (pm : gmap gostr Json.json) (text : gostr)
    (Hring : keyringSigns fetchEntity)
    (Hpm : UnmarshalMap (trimRight json) = Some pm) (Hver : is_Some (pm !! gs "camliVersion"))
    (Hsign : Sign (MkSign json fetch fetchEntity) = Ok text) :
  exists vr, Verify fetch (NewVerificationRequest text) = (vr, true) /\ vr_PayloadMap vr = Some pm /\
    trimRight json = vr_bp vr ++ gs "}" /\ exists sig, text = vr_bp vr ++ sigSeparator ++ sig ++ [dquote] ++ gs "}" ++ [newlineB].
Proof.
  destruct (Sign_signedBy _ _ _ _ Hring Hsign) as (bp & sgn & pm' & br & pk & Hs). pose proof Hs as [Htrim Hmap Htext _ _ _ _ _].
  assert (pm' = pm) as -> by congruence.
  destruct (signedBy_verifies _ _ _ _ _ _ _ _ Hs Hver) as (vr & Hv & Hp & <- & _). exists vr. split_and!; try done. by exists sgn.
Qed.
End signed.

(** * A toy OpenPGP

    Keys are texts, a signature is one digit: the sum of the key's and the
    message's bytes modulo 16. *)

Definition hexLetters : gostr := gs "0123456789abcdef".
Definition toySum (pk msg : gostr) : ascii :=
  nth (Z.to_nat (foldr (fun c z => bz c + z) 0 (pk ++ msg) mod 16)) hexLetters "0"%char.

Definition toyPGP : PGP := {|
  PublicKey := gostr;
  Signature := ascii;
  Entity := gostr;
  keyIdString pk := pk;
  entityKeyIdString e := e;
  entityKeyIdShortString e := e;
  sigHash _ := HSha256;
  sigBinary _ := true;
  packetRead r := match r.1 with "k"%char :: pk => Some (inl (inl pk)) | c :: _ => Some (inl (inr c)) | [] => None end;
  pgpVerify pk sig msg := bool_decide (sig = toySum pk msg);
  detachSign e msg := Ok [toySum e msg]
|}.

Lemma toySum_letter pk msg : toySum pk msg ∈ hexLetters.
Proof.
  apply list_elem_of_In, nth_In. change (length hexLetters) with 16%nat.
  pose proof (Z.mod_pos_bound (foldr (fun c z => bz c + z) 0 (pk ++ msg)) 16). lia.
Qed.

Lemma toy_keyringSigns (fe : gostr -> res gostr) : (forall pk e, fe pk = Ok e -> e = pk) -> @keyringSigns toyPGP fe.
Proof.
  intros Hfe pk e msg pkt He Hs. apply Hfe in He as ->. apply Ok_eq in Hs as <-.
  exists (toySum pk msg). split_and!; try done; [|by apply bool_decide_eq_true].
  intros end_. pose proof (toySum_letter pk msg) as Hl. change (@keyIdString toyPGP pk) with pk.
  change (match [toySum pk msg] with "k"%char :: t => Some (inl (inl t)) | c :: _ => Some (inl (inr c)) | [] => None end =
    Some (inl (inr (toySum pk msg)) : gostr + ascii + unit)).
  revert Hl. generalize (toySum pk msg) as c. apply Forall_forall. repeat (apply Forall_cons; split; [reflexivity|]). constructor.
Qed.

(** The key blob of the toy key [KEY]. *)
Definition toyKeyBlob : gostr := armorEncode (gs "PGP PUBLIC KEY BLOCK") (gs "kKEY").

Definition exampleUnsigned : gostr :=
  gs "{" ++ [dquote] ++ gs "camliVersion" ++ [dquote] ++ gs ": 1," ++ [newlineB] ++ [dquote] ++ gs "camliSigner" ++ [dquote] ++ gs ": " ++
  [dquote] ++ gs "sha1-f1d2d2f924e986ac86fdf7b36c94bcdf32beec15" ++ [dquote] ++ [newlineB] ++ gs "}" ++ [newlineB; newlineB].
Definition exampleFetch : Ref -> res gostr := fun _ => Ok toyKeyBlob.
Definition exampleSigned : gostr :=
  match @Sign toyPGP (@MkSign toyPGP exampleUnsigned exampleFetch (fun id => Ok id)) with Ok t => t | _ => [] end.
Definition examplePayload : gmap gostr json := default ∅ (UnmarshalMap (trimRight exampleUnsigned)).

Lemma Sign_verifies_witness : exists vr,
  @Verify toyPGP exampleFetch (@NewVerificationRequest toyPGP exampleSigned) = (vr, true) /\ vr_PayloadMap vr = Some examplePayload /\
  trimRight exampleUnsigned = vr_bp vr ++ gs "}" /\
  exists sig, exampleSigned = vr_bp vr ++ sigSeparator ++ sig ++ [dquote] ++ gs "}" ++ [newlineB].
Proof.
  apply (@Sign_verifies toyPGP exampleUnsigned exampleFetch (fun id => Ok id) examplePayload exampleSigned).
  - apply toy_keyringSigns. by intros pk e [= ->].
  - vm_compute. reflexivity.
  - vm_compute. eexists. reflexivity.
  - vm_compute. reflexivity.
Defined.

(** [Sign] does not ask for the camliVersion that [Verify] asks for. *)
Example sign_without_version :
  let json := gs "{" ++ quoted (gs "camliSigner") ++ gs ": " ++ quoted (gs "sha1-f1d2d2f924e986ac86fdf7b36c94bcdf32beec15") ++ gs "}" in
  match @Sign toyPGP (@MkSign toyPGP json exampleFetch (fun id => Ok id)) with
  | Ok text => (@Verify toyPGP exampleFetch (@NewVerificationRequest toyPGP text)).2
  | _ => true
  end = false.
Proof. vm_compute. reflexivity. Qed.
