(* ===== verification/Claims.v ===== *)
(** Claims: the builders and accessors of pkg/schema/schema.go and blob.go
    for claims and shares, and sign.go, which signs them. *)

From S2P Require Import Prelude Ref Strutil Sha1 Storage Times Json Schema Jsonsign.

(** * Times of blobs *)

Definition UnixNano (t : gotime) : Z := i64 (t - unixToInternal * nsPerSecond).

(** [RFC3339FromTime] in a known zone.  The nanoseconds are tested on a 64-bit
    count, and RFC 3339 without a fraction is the form of whole seconds. *)
Definition RFC3339FromTime (t : gotime) : gostr :=
  if Z.rem (UnixNano t) nsPerSecond =? 0 then formatTime3339 (t - t mod nsPerSecond) else formatTime3339 t.

Definition strOf (v : option goval) : option gostr := match v with Some (VStr s) => Some s | _ => None end.

(** * Builders *)

Definition ClaimTypeOf (bb : Builder) : gostr := default [] (strOf (bb !! gs "claimType")).
Definition IsClaimType (bb : Builder) : bool := bool_decide (Type_ bb ∈ [gs "claim"; gs "permanode"]).

Definition SetClaimDate (bb : Builder) (t : gotime) : res Builder :=
  if IsClaimType bb then Ok (<[gs "claimDate" := VStr (RFC3339FromTime t)]> bb)
  else Panic "SetClaimDate called on non-claim *Builder".

Definition SetModTime (bb : Builder) (t : gotime) : Builder := <[gs "unixMtime" := VStr (RFC3339FromTime t)]> bb.

Definition CapCreationTime (bb : Builder) : Builder :=
  match strOf (bb !! gs "unixCtime") with
  | None => bb
  | Some ctime =>
      match strOf (bb !! gs "unixMtime") with
      | Some mtime => if bool_decide (str_lt mtime ctime) then <[gs "unixCtime" := VStr mtime]> bb else bb
      | None => bb
      end
  end.

Definition BuilderModTime (bb : Builder) : option gotime := strOf (bb !! gs "unixMtime") ≫= ParseRFC3339.

Definition NewPlannedPermanode (key : gostr) : Builder := <[gs "key" := VStr key]> (base 1 (gs "permanode")).

(** The 20 random bytes, in standard base 64, are an argument. *)
Definition NewUnsignedPermanode (random : gostr) : Builder := <[gs "random" := VStr random]> (base 1 (gs "permanode")).

Record claimParam := MkParam {
  cp_claimType : gostr;
  cp_permanode : Ref;
  cp_attribute : gostr;
  cp_value : gostr;
  cp_authType : gostr;
  cp_transitive : bool;
  cp_target : Ref
}.

Definition populateClaimMap (m : Builder) (cp : claimParam) : Builder :=
  let m := <[gs "claimType" := VStr (cp_claimType cp)]> m in
  if decide (cp_claimType cp = ShareClaim) then
    <[gs "transitive" := VBool (cp_transitive cp)]> (<[gs "authType" := VStr (cp_authType cp)]> m)
  else if decide (cp_claimType cp = DeleteClaim) then <[gs "target" := VStr (RefString (cp_target cp))]> m
  else
    let m := <[gs "attribute" := VStr (cp_attribute cp)]> (<[gs "permaNode" := VStr (RefString (cp_permanode cp))]> m) in
    if decide (cp_claimType cp = DelAttributeClaim /\ cp_value cp = []) then m else <[gs "value" := VStr (cp_value cp)]> m.

(** [newClaim(cp, more...)]; [now] is the time of the clock. *)
Definition newClaim (now : gotime) (cp : claimParam) (more : list claimParam) : res Builder :=
  let? bb := SetClaimDate (base 1 (gs "claim")) now in
  match more with
  | [] => Ok (populateClaimMap bb cp)
  | _ =>
      Ok (<[gs "claims" := VArr (map (fun cp => VMap (sortedPairs (populateClaimMap ∅ cp))) (cp :: more))]>
            (<[gs "claimType" := VStr (gs "multi")]> bb))
  end.

Definition NewShareRef (now : gotime) (authType : gostr) (transitive : bool) : res Builder :=
  newClaim now (MkParam ShareClaim zeroRef [] [] authType transitive zeroRef) [].
Definition NewSetAttributeClaim (now : gotime) (permaNode : Ref) (attr value : gostr) : res Builder :=
  newClaim now (MkParam SetAttributeClaim permaNode attr value [] false zeroRef) [].
Definition NewAddAttributeClaim (now : gotime) (permaNode : Ref) (attr value : gostr) : res Builder :=
  newClaim now (MkParam AddAttributeClaim permaNode attr value [] false zeroRef) [].
Definition NewDelAttributeClaim (now : gotime) (permaNode : Ref) (attr value : gostr) : res Builder :=
  newClaim now (MkParam DelAttributeClaim permaNode attr value [] false zeroRef) [].
Definition NewDeleteClaim (now : gotime) (target : Ref) : res Builder :=
  newClaim now (MkParam DeleteClaim zeroRef [] [] [] false target) [].

(** Setters that only shares have. *)
Definition onShare (bb : Builder) (what : string) (f : Builder -> Builder) : res Builder :=
  if bool_decide (Type_ bb = gs "claim") && bool_decide (ClaimTypeOf bb = ShareClaim) then Ok (f bb) else Panic what.
Definition SetShareTarget (bb : Builder) (t : Ref) : res Builder :=
  onShare bb "called SetShareTarget on non-share" (fun bb => <[gs "target" := VStr (RefString t)]> bb).
Definition SetShareExpiration (bb : Builder) (t : gotime) : res Builder :=
  onShare bb "called SetShareExpiration on non-share"
    (fun bb => if t =? 0 then delete (gs "expires") bb else <[gs "expires" := VStr (RFC3339FromTime t)]> bb).
Definition SetShareIsTransitive (bb : Builder) (b : bool) : res Builder :=
  onShare bb "called SetShareIsTransitive on non-share"
    (fun bb => if b then <[gs "transitive" := VBool true]> bb else delete (gs "transitive") bb).

(** [NewBuilder]: the version is a string here. *)
Definition NewBuilder : Builder := {[gs "camliVersion" := VStr (gs "1")]}.

(** [Builder.PartsSize] looks for a list of [BytesPart], which no builder holds. *)
Definition BuilderPartsSize (bb : Builder) : Z := 0.

Definition SetSigner (bb : Builder) (signer : Ref) : Builder := <[gs "camliSigner" := VStr (RefString signer)]> bb.

(** * Reading a blob *)

Definition isASCIIWhite (c : ascii) : bool := bool_decide (c ∈ [" "%char; "009"%char; "013"%char; "010"%char]).

(** How much a [json.Decoder] has read of a source that fills its buffer when
    it has seen a value of [need] bytes: the buffer's capacity is doubled,
    plus 512, until the value fits. *)
Fixpoint decoderBuffered (fuel : nat) (cap need : Z) : Z :=
  match fuel with O => cap | S fuel => if need <=? cap then cap else decoderBuffered fuel (2 * cap + 512) need end.

(** The rest is read 16 bytes at a time and must be white. *)
Fixpoint whiteLoop (fuel : nat) (rest : gostr) (afterObj : Z) : bool :=
  match fuel with
  | O => true
  | S fuel =>
      let wb := take 16 rest in
      let afterObj := afterObj + glen wb in
      if forallb isASCIIWhite wb then
        if MaxSchemaBlobSize <? afterObj then true
        else if decide (wb = []) then true else whiteLoop fuel (drop 16 rest) afterObj
      else false
  end.

(** [BlobFromReader] of bytes in memory.  What the decoder has buffered after
    the value is not looked at. *)
Definition BlobFromReader (ref : Ref) (src : gostr) : res Blob :=
  if negb (Valid ref) then Err (ErrMsg "schema.BlobFromReader: invalid blobref")
  else
    let? ss := parseSuperset (src, Ok tt) in
    let need := match parseValue (2 * length src + 2) src with Some (_, r) => glen src - glen r | None => glen src end in
    let buffered := Z.min MaxSchemaBlobSize (decoderBuffered (length src) 512 need) in
    if whiteLoop (S (length src)) (drop (Z.to_nat buffered) src) 0 then
      if MaxSchemaBlobSize <? glen src then Err (ErrMsg "schema: metadata blob %v is over expected limit; size=%d")
      else Ok (MkBlob ref src ss)
    else Err (ErrMsg "invalid bytes after JSON schema blob in %v").

(** * Accessors *)

Definition timeField (name : gostr) (ss : superset) : gotime := match ss !! name with Some (FTime t) => t | _ => 0 end.
Definition boolField (name : gostr) (ss : superset) : bool := match ss !! name with Some (FBool b) => b | _ => false end.
Definition anyField (name : gostr) (ss : superset) : json := match ss !! name with Some (FAny v) => v | _ => JNull end.

Definition ss_Signer : superset -> Ref := refField (gs "camliSigner").
Definition ss_Sig : superset -> gostr := strField (gs "camliSig").
Definition ss_ClaimType : superset -> gostr := strField (gs "claimType").
Definition ss_ClaimDate : superset -> gotime := timeField (gs "claimDate").

Definition ssModTime (ss : superset) : gotime :=
  let s := strField (gs "unixMtime") ss in if decide (s = []) then 0 else default 0 (ParseRFC3339 s).

Definition PartsSize (b : Blob) : res Z :=
  rfold (fun n p => match p with Some part => Ok (i64 (n + i64 (bp_Size part))) | None => Panic "nil pointer dereference" end)
    (ss_Parts (b_ss b)) 0.

Definition ClaimDate (b : Blob) : res gotime :=
  let claimDate := ss_ClaimDate (b_ss b) in
  if time3339IsZero claimDate then Err (ErrMsg "schema: missing field %q") else Ok claimDate.

(** [AsClaim]; a [Claim] is its blob. *)
Definition AsClaim (b : Blob) : option Blob :=
  let ss := b_ss b in
  if Valid (ss_Signer ss) && bool_decide (ss_Sig ss <> []) && bool_decide (ss_ClaimType ss <> []) && negb (time3339IsZero (ss_ClaimDate ss))
  then Some b else None.

Definition ClaimDateString (c : Blob) : gostr := formatTime3339 (ss_ClaimDate (b_ss c)).
Definition ClaimType (c : Blob) : gostr := ss_ClaimType (b_ss c).
Definition Attribute (c : Blob) : gostr := strField (gs "attribute") (b_ss c).
Definition Value (c : Blob) : gostr := strField (gs "value") (b_ss c).
Definition ModifiedPermanode (c : Blob) : Ref := refField (gs "permaNode") (b_ss c).
Definition Target (c : Blob) : Ref := refField (gs "target") (b_ss c).

Definition AsShare (b : Blob) : option Blob :=
  match AsClaim b with
  | None => None
  | Some c =>
      let ss := b_ss b in
      if bool_decide (ss_ClaimType ss = ShareClaim) && bool_decide (strField (gs "authType") ss = ShareHaveRef) &&
         (Valid (refField (gs "target") ss) || match anyField (gs "search") ss with JNull => false | _ => true end)
      then Some c else None
  end.
Definition AuthType (s : Blob) : gostr := strField (gs "authType") (b_ss s).
Definition IsTransitive (s : Blob) : bool := boolField (gs "transitive") (b_ss s).
Definition IsExpired (now : gotime) (s : Blob) : bool :=
  let t := timeField (gs "expires") (b_ss s) in negb (t =? 0) && (t <? now).
Definition ShareAuthType (b : Blob) : gostr := match AsShare b with Some s => AuthType s | None => [] end.
Definition ShareTarget (b : Blob) : Ref := match AsShare b with Some s => Target s | None => zeroRef end.

(** [AsStaticFile] and the kinds of static files; each is its blob. *)
Definition AsStaticFile (b : Blob) : option Blob := if isStaticFile b then Some b else None.
Definition AsStaticSymlink (sf : Blob) : option Blob := if decide (ss_Type (b_ss sf) = gs "symlink") then Some sf else None.
Definition AsStaticFIFO (sf : Blob) : option Blob := if decide (ss_Type (b_ss sf) = gs "fifo") then Some sf else None.
Definition AsStaticSocket (sf : Blob) : option Blob := if decide (ss_Type (b_ss sf) = gs "socket") then Some sf else None.

(** * Signing *)

Section signing.
Context `{PGP}.

Record Signer := MkSigner { sg_keyId : gostr; sg_pubref : Ref; sg_pubKey : gostr; sg_entity : Entity }.

Definition memoryFetch (s : Signer) (br : Ref) : res gostr := if decide (br = sg_pubref s) then Ok (sg_pubKey s) else Err ErrNotExist.
Definition fetchEntity (s : Signer) (wantKeyId : gostr) : res Entity :=
  if negb (bool_decide (entityKeyIdString (sg_entity s) = wantKeyId)) && negb (bool_decide (entityKeyIdShortString (sg_entity s) = wantKeyId))
  then Err (ErrMsg "jsonsign code unexpectedly requested keyId %q; only have %q") else Ok (sg_entity s).

Definition SignJSON (s : Signer) (json : gostr) : res gostr := Sign (MkSign json (memoryFetch s) (fetchEntity s)).

(** [SignAt]; the time of the signature is OpenPGP's matter. *)
Definition SignAt (bb : Builder) (signer : Signer) : res gostr :=
  if IsClaimType bb then let? b := Blob_ (SetSigner bb (sg_pubref signer)) in SignJSON signer (b_str b)
  else Err (ErrMsg "can't sign camliType %q").
End signing.

(** * Signed blobs read back *)

(** The members of an object, continued by others. *)
Lemma parseMembers_then depth p l t ms r n fuel :
  Forall (fun p => valOk p.2) (p :: l) -> (forall f, (n <= f)%nat -> parseMembers f t = Some (ms, r)) ->
  (n + list_sum (map (fun p => S (valSize p.2)) (p :: l)) <= fuel)%nat ->
  parseMembers fuel (pairText (S depth) p ++ flat_map (fun p => gs "," ++ newline (S depth) ++ pairText (S depth) p) l ++
    newline depth ++ gs "," ++ t) = Some (map (fun p => (escape p.1, jsonOf p.2)) (p :: l) ++ ms, r).
Proof.
  intros Hok Ht. revert p fuel Hok. induction l as [|q l IH]; intros p fuel Hok Hf; cbn [map list_sum foldr] in Hf;
    apply Forall_cons in Hok as [Hvx Hok]; (destruct fuel as [|fuel]; [lia|]); cbn [parseMembers].
  - cbn [flat_map app].
    assert (exists u, pairText (S depth) p = dquote :: u) as [u Hu] by (by eexists). rewrite Hu. cbn [app].
    rewrite skipWs_cons by done. rewrite decide_True by done.
    change (u ++ newline depth ++ gs "," ++ t) with (drop 1 ((dquote :: u) ++ newline depth ++ gs "," ++ t)). rewrite <- Hu.
    pose proof (parsePair (S depth) p (newline depth ++ gs "," ++ t) fuel (fun '(raw, v, r) =>
      match skipWs r with
      | c :: r => if decide (c = ","%char) then '(ms, r) ← parseMembers fuel r; Some ((raw, v) :: ms, r)
                  else if decide (c = "}"%char) then Some ([(raw, v)], r) else None
      | [] => None end) (parse_render _) Hvx (numEnd_newline _ _) ltac:(lia)) as Hpair.
    etransitivity; [exact Hpair|]. cbn iota beta. rewrite skipWs_newline. change (gs "," ++ t) with (","%char :: t).
    rewrite skipWs_cons by done. rewrite decide_True by done. rewrite Ht by lia. done.
  - cbn [flat_map]. rewrite <- !app_assoc.
    assert (exists u, pairText (S depth) p = dquote :: u) as [u Hu] by (by eexists). rewrite Hu. cbn [app].
    rewrite skipWs_cons by done. rewrite decide_True by done.
    set (tl := flat_map _ l ++ newline depth ++ gs "," ++ t) in *.
    change (u ++ gs "," ++ ?x) with (drop 1 ((dquote :: u) ++ gs "," ++ x)). rewrite <- Hu.
    pose proof (parsePair (S depth) p (gs "," ++ newline (S depth) ++ pairText (S depth) q ++ tl) fuel
     (fun '(raw, v, r) =>
      match skipWs r with
      | c :: r => if decide (c = ","%char) then '(ms, r) ← parseMembers fuel r; Some ((raw, v) :: ms, r)
                  else if decide (c = "}"%char) then Some ([(raw, v)], r) else None
      | [] => None end) (parse_render _) Hvx ltac:(done) ltac:(lia)) as Hpair.
    etransitivity; [exact Hpair|]. cbn iota beta. cbn [app gs list_ascii_of_string]. rewrite skipWs_cons by done.
    rewrite decide_True by done. rewrite parseMembers_newline. fold tl.
    subst tl. rewrite IH by (done || (cbn [map list_sum foldr]; lia)). done.
Qed.

Lemma trimRight_brace s : trimRight (s ++ gs "}") = s ++ gs "}".
Proof.
  unfold trimRight. rewrite length_app, Nat.add_comm. cbn [gs list_ascii_of_string length Nat.add trimLoop].
  assert (trimOne (s ++ ["}"%char]) = None) as ->; [|done].
  unfold trimOne. apply head_None. apply elem_of_nil_inv. intros x (u & Hu & Hx)%list_elem_of_omap.
  destruct (decide _) as [[Hl Hd]|]; [|done]. clear Hx.
  assert (last u = Some "}"%char) as Hlast.
  { destruct u as [|c u] using rev_ind; [exfalso; revert Hu; apply (bool_decide_unpack _); vm_compute; exact I|].
    rewrite last_snoc. apply (f_equal last) in Hd. rewrite last_snoc in Hd. rewrite <- Hd.
    rewrite <- (last_snoc "}"%char s). rewrite length_app in *. cbn [length] in *. rewrite length_app. cbn [length].
    rewrite drop_app_le by lia. by rewrite !last_snoc. }
  assert (Forall (fun u => last u <> Some "}"%char) spaceRunes) as Hall by (apply (bool_decide_unpack _); vm_compute; exact I).
  rewrite Forall_forall in Hall. by apply (Hall u).
Qed.

(** The text of a builder, open at its end. *)
Definition openText (z : Z) (q : gostr * goval) (l : list (gostr * goval)) : gostr :=
  "{"%char :: pairText 1 (headPair z) ++ flat_map (fun p => gs "," ++ newline 1 ++ pairText 1 p) (q :: l) ++ newline 0.

Lemma membersTail_open l r : membersTail 0 l r = (flat_map (fun p => gs "," ++ newline 1 ++ pairText 1 p) l ++ newline 0) ++ gs "}" ++ r.
Proof. unfold membersTail. by rewrite <- app_assoc. Qed.

Lemma openText_close z q l : "{"%char :: pairText 1 (headPair z) ++ membersTail 0 (q :: l) [] = openText z q l ++ gs "}".
Proof. unfold openText. rewrite membersTail_open, app_nil_r. cbn [app]. by rewrite <- !app_assoc. Qed.

Lemma parse_signed z q l sg : Forall (fun p => valOk p.2) (headPair z :: q :: l) -> Forall plainChar sg ->
  exists f0, forall f, (f0 <= f)%nat -> parseValue f (openText z q l ++ sigSeparator ++ sg ++ [dquote] ++ gs "}" ++ [newlineB]) =
    Some (JObj (map (fun p => (escape p.1, jsonOf p.2)) (headPair z :: q :: l) ++ [(gs "camliSig", JStr sg)]), [newlineB]).
Proof.
  intros Hok Hs. exists (3 + list_sum (map (fun p => S (valSize p.2)) (headPair z :: q :: l)))%nat. intros f Hf.
  destruct f as [|f]; [lia|].
  change (sigSeparator ++ sg ++ [dquote] ++ gs "}" ++ [newlineB]) with (gs "," ++ sigMember sg).
  unfold openText. cbn [app]. rewrite <- app_assoc. rewrite parseValue_object, <- app_assoc.
  rewrite (parseMembers_then 0 (headPair z) (q :: l) (sigMember sg) [(gs "camliSig", JStr sg)] [newlineB] 2 f);
    [done|done| |cbn [map list_sum foldr] in *; lia].
  intros g Hg. destruct g as [|[|g]]; [lia..|]. by apply parseMembers_sig.
Qed.

(** White space after the object is no obstacle. *)
Lemma decoderBuffered_ge fuel cap need : 0 <= cap -> Z.min need (cap + Z.of_nat fuel) <= decoderBuffered fuel cap need.
Proof.
  revert cap. induction fuel as [|fuel IH]; intros cap Hc; cbn [decoderBuffered]; [lia|].
  destruct (Z.leb_spec need cap); [lia|]. specialize (IH (2 * cap + 512)). lia.
Qed.

Lemma whiteLoop_white fuel rest a : forallb isASCIIWhite rest = true -> whiteLoop fuel rest a = true.
Proof.
  revert rest a. induction fuel as [|fuel IH]; intros rest a Hw; [done|]. cbn [whiteLoop].
  rewrite <- (take_drop 16 rest), forallb_app in Hw. apply andb_prop in Hw as [-> Hd].
  destruct (_ <? _); [done|]. destruct (decide _); [done|]. by apply IH.
Qed.

Lemma BlobFromReader_ok ref src ss v r : Valid ref = true -> glen src <= MaxSchemaBlobSize -> parseSuperset (src, Ok tt) = Ok ss ->
  parseValue (2 * length src + 2) src = Some (v, r) -> (exists u, src = u ++ r) -> forallb isASCIIWhite r = true ->
  BlobFromReader ref src = Ok (MkBlob ref src ss).
Proof.
  intros Hv Hl Hp Hpv [u Hu] Hw. unfold BlobFromReader. rewrite Hv, Hp, Hpv. cbn [negb rbind].
  set (buffered := Z.min _ _).
  assert (forallb isASCIIWhite (drop (Z.to_nat buffered) src) = true) as Hd.
  { assert (length u <= Z.to_nat buffered)%nat as Hb.
    { pose proof (decoderBuffered_ge (length src) 512 (glen src - glen r) ltac:(lia)) as Hg.
      assert (glen src - glen r = Z.of_nat (length u)) as Hn by (rewrite Hu; unfold glen; rewrite length_app; lia).
      subst buffered. unfold glen in *. rewrite Hn in *. lia. }
    replace (Z.to_nat buffered) with (length u + (Z.to_nat buffered - length u))%nat by lia. rewrite Hu, drop_app_add'; [|done].
    rewrite <- (take_drop (Z.to_nat buffered - length u) r), forallb_app in Hw. by apply andb_prop in Hw as [_ ?]. }
  rewrite whiteLoop_white by done. destruct (Z.ltb_spec MaxSchemaBlobSize (glen src)); [lia|done].
Qed.

Section roundtrip.
Context `{PGP}.

Lemma jsonMap_is_Some ms m k : is_Some (m !! k) \/ k ∈ map (fun kv => unquote kv.1) ms ->
  is_Some (foldl (fun (m : gmap gostr json) kv => <[unquote kv.1 := kv.2]> m) m ms !! k).
Proof.
  revert m. induction ms as [|[k' v] ms IH]; intros m Hk; [destruct Hk as [?|Hk]; [done|by apply elem_of_nil in Hk]|].
  cbn [foldl fst snd]. apply IH. destruct (decide (unquote k' = k)) as [<-|Hne]; [left; by rewrite lookup_insert_eq|].
  rewrite lookup_insert_ne by done. cbn [map fst] in Hk. destruct Hk as [?|[->|?]%elem_of_cons]; [by left|done|by right].
Qed.

Lemma UnmarshalMap_decode s ms pm : decodeValue s = Some (JObj ms) -> UnmarshalMap s = Some pm -> pm = jsonMap ms.
Proof.
  unfold decodeValue, UnmarshalMap, Unmarshal. destruct (parseValue _ _) as [[v r]|]; [|done]. cbn [fmap option_fmap option_map fst].
  intros [= ->]. cbn [mbind option_bind]. destruct (decide _); [|done]. cbn [mbind option_bind]. by intros [= <-].
Qed.

Lemma openText_version bb q l pm : bb !! gs "camliVersion" = Some (VInt 1) ->
  sortedPairs (delete (gs "camliVersion") bb) = q :: l -> Forall (fun p => valOk p.2) (headPair 1 :: q :: l) ->
  UnmarshalMap (openText 1 q l ++ gs "}") = Some pm -> is_Some (pm !! gs "camliVersion").
Proof.
  intros Hz El Hok Hmap. destruct (mapJSON_decode bb 1 q l Hz El Hok) as (text & Ht & Hdec).
  rewrite (mapJSON_text _ _ _ _ Hz El), openText_close in Ht. apply Ok_eq in Ht. rewrite <- Ht in Hdec.
  rewrite (UnmarshalMap_decode _ _ _ Hdec Hmap). apply jsonMap_is_Some. right. rewrite map_map.
  apply list_elem_of_fmap. exists (headPair 1). split; [|apply list_elem_of_here]. cbn [fst headPair].
  by rewrite unquote_escape by (vm_compute; reflexivity).
Qed.

(** A signed blob reads back as its builder, with the signer and a signature
    added, and it verifies. *)
Lemma SignAt_reads signer bb text ref ctype : builderOk bb -> bb !! gs "camliVersion" = Some (VInt 1) ->
  bb !! gs "camliType" = Some (VStr ctype) -> bb !! gs "camliSig" = None -> refWf (sg_pubref signer) = true ->
  keyringSigns (fetchEntity signer) -> SignAt bb signer = Ok text -> glen text <= MaxSchemaBlobSize -> Valid ref = true ->
  exists b sg, BlobFromReader ref text = Ok b /\ b_str b = text /\ b_br b = ref /\ ss_Sig (b_ss b) = sg /\ sg <> [] /\
    ss_Signer (b_ss b) = sg_pubref signer /\
    (forall k, k <> gs "camliSig" -> k <> gs "camliSigner" -> b_ss b !! k = bb !! k ≫= fieldOf k) /\
    exists vr, Verify (memoryFetch signer) (NewVerificationRequest text) = (vr, true) /\ vr_CamliSigner vr = sg_pubref signer.
Proof.
  intros Hbb Hz Ht Hnosig Hwf Hring Hsign Hlen Href. unfold SignAt in Hsign. destruct (IsClaimType bb); [|done].
  set (bb' := SetSigner bb (sg_pubref signer)) in *.
  assert (Hsf : findField supersetFields (gs "camliSigner") = Some (gs "camliSigner", KRef)) by (vm_compute; reflexivity).
  assert (Hfs : fieldOf (gs "camliSigner") (VStr (RefString (sg_pubref signer))) = Some (FRef (sg_pubref signer))) by (by apply fieldOf_ref).
  assert (builderOk bb') as Hbb' by (apply pairOk_insert; [done|by apply pairOk_ref; [vm_compute| |]]).
  assert (bb' !! gs "camliVersion" = Some (VInt 1)) as Hz' by (unfold bb', SetSigner; by rewrite lookup_insert_ne).
  assert (bb' !! gs "camliType" = Some (VStr ctype)) as Ht' by (unfold bb', SetSigner; by rewrite lookup_insert_ne).
  destruct (Blob_ bb') as [b0| | |] eqn:Eb; try done. cbn [rbind] in Hsign.
  destruct (builder_pairs bb' 1 Hbb' Hz' ltac:(by rewrite Ht')) as (q & l & ss & El & Hall & Hok & Hss & Hlk).
  unfold Blob_ in Eb. rewrite (mapJSON_text _ _ _ _ Hz' El), openText_close in Eb. cbn [orPanic rbind] in Eb.
  destruct (parseSuperset _) as [ss0| | |]; try done. cbn [orPanic rbind] in Eb. apply Ok_eq in Eb as <-. cbn [b_str] in Hsign.
  unfold SignJSON in Hsign. destruct (Sign_signedBy _ _ _ _ Hring Hsign) as (bp & sgn & pm & br & pk & Hsb). pose proof Hsb as [Htrim Hmap Htext Hplain Hne (raw & _ & _) (d & Hfetch & _) _].
  rewrite trimRight_brace in Htrim, Hmap. apply app_inj_2 in Htrim as [<- _]; [|done].
  assert (br = sg_pubref signer) as ->. { unfold memoryFetch in Hfetch. by destruct (decide _). }
  destruct (parse_signed 1 q l sgn Hok Hplain) as [f0 Hparse]. rewrite <- Htext in Hparse.
  assert (Hpv : parseValue (2 * length text + 2) text =
    Some (JObj (map (fun p => (escape p.1, jsonOf p.2)) (headPair 1 :: q :: l) ++ [(gs "camliSig", JStr sgn)]), [newlineB])).
  { rewrite <- (Hparse (f0 + (2 * length text + 2))%nat) by lia. apply (parse_fuel (length text)); lia. }
  set (ss' := <[gs "camliSig" := FString sgn]> ss).
  assert (parseSuperset (text, Ok tt) = Ok ss') as Hps.
  { unfold parseSuperset. rewrite limitReader_all by done. cbn [fst]. unfold decodeValue. rewrite Hpv. cbn [fmap option_fmap option_map fst].
    unfold decodeSuperset. rewrite rfold_app, Hss. cbn [rbind rfold foldl]. unfold rfold. cbn [foldl rbind]. unfold decodeMember. cbn [fst snd].
    assert (findField supersetFields (unquote (gs "camliSig")) = Some (gs "camliSig", KString)) as -> by (vm_compute; reflexivity).
    rewrite Hlk. unfold bb', SetSigner. rewrite lookup_insert_ne, Hnosig by done. cbn [mbind option_bind default zeroField decodeField rbind].
    by rewrite unquote_plain. }
  exists (MkBlob ref text ss'), sgn. split_and!; try done.
  - eapply BlobFromReader_ok; [done|done|exact Hps|exact Hpv| |reflexivity].
    exists (openText 1 q l ++ sigSeparator ++ sgn ++ [dquote] ++ gs "}"). rewrite Htext. by rewrite <- !app_assoc.
  - unfold ss_Sig, strField. cbn [b_ss]. unfold ss'. by rewrite lookup_insert_eq.
  - unfold ss_Signer, refField. cbn [b_ss]. unfold ss'. rewrite lookup_insert_ne, Hlk by done. unfold bb', SetSigner. rewrite lookup_insert_eq.
    cbn [mbind option_bind]. by rewrite Hfs.
  - intros k Hk1 Hk2. cbn [b_ss]. unfold ss'. rewrite lookup_insert_ne, Hlk by done. unfold bb', SetSigner. by rewrite lookup_insert_ne.
  - assert (is_Some (pm !! gs "camliVersion")) as Hpv'.
    { by eapply openText_version. }
    destruct (signedBy_verifies _ _ _ _ _ _ _ _ Hsb Hpv') as (vr & Hv & _ & _ & Hs & _). by exists vr.
Qed.
End roundtrip.

(** The cap compares texts, in which a fraction sorts before the zone. *)
Example CapCreationTime_raises :
  let early := RFC3339FromTime ((unixToInternal + 1) * nsPerSecond) in
  let late := RFC3339FromTime ((unixToInternal + 1) * nsPerSecond + 500000000) in
  CapCreationTime (<[gs "unixCtime" := VStr early]> (<[gs "unixMtime" := VStr late]> ∅)) !! gs "unixCtime" = Some (VStr late).
Proof. vm_compute. reflexivity. Qed.

(** * Claims read back *)

Lemma timeChar_range c : timeChar c -> 45 <= bz c <= 58 \/ bz c = 84 \/ bz c = 90.
Proof.
  intros [Hd|Hin]; [unfold isDigit in Hd; lia|].
  assert (Forall (fun c => 45 <= bz c <= 58 \/ bz c = 84 \/ bz c = 90) (gs "-:TZ.")) as Hall by (repeat constructor; vm_compute; intuition congruence).
  rewrite Forall_forall in Hall. by apply Hall.
Qed.

Lemma escape_timeChar s : Forall timeChar s -> escape s = s.
Proof.
  intros Hs. unfold escape. induction Hs as [|c s Hc _ IH]; [done|]. cbn [length escapeLoop]. apply timeChar_range in Hc.
  destruct (Z.ltb_spec (bz c) 128); [|lia]. rewrite IH. change (c :: s) with ([c] ++ s). f_equal. unfold escapeByte.
  assert (forall d, bz d <> bz c -> bool_decide (c = d) = false) as Hne by (intros d Hd; apply bool_decide_eq_false; congruence).
  rewrite !Hne by (match goal with |- bz ?d <> _ => let v := eval vm_compute in (bz d) in change (bz d) with v end; lia). repeat rewrite (proj2 (Z.eqb_neq _ _)) by lia. by rewrite (proj2 (Z.ltb_ge _ _)) by lia.
Qed.

(** Instants that RFC 3339 prints and 64 bits of nanoseconds count. *)
Definition clockTime (t : gotime) : Prop := printable t /\ - 2 ^ 63 <= t - unixToInternal * nsPerSecond < 2 ^ 63 /\ time3339IsZero t = false.

Lemma RFC3339FromTime_format t : clockTime t -> RFC3339FromTime t = formatTime3339 t.
Proof.
  intros (Hp & Hr & _). unfold RFC3339FromTime, UnixNano. rewrite i64_small by done.
  destruct (Z.eqb_spec (Z.rem (t - unixToInternal * nsPerSecond) nsPerSecond) 0) as [Hz|]; [|done].
  assert (nsPerSecond = 1000000000) as Hn by (vm_compute; reflexivity).
  assert (t mod nsPerSecond = 0) as ->; [|by rewrite Z.sub_0_r].
  apply Z.rem_divide in Hz; [|lia]. destruct Hz as [k Hk]. replace t with ((k + unixToInternal) * nsPerSecond) by lia. apply Z.mod_mul. lia.
Qed.

Lemma fieldOf_time k t : findField supersetFields k = Some (k, KTime) -> clockTime t -> fieldOf k (VStr (RFC3339FromTime t)) = Some (FTime t).
Proof.
  intros Hf Ht. pose proof Ht as (Hp & _ & _). rewrite RFC3339FromTime_format by done. unfold fieldOf. rewrite Hf.
  destruct (formatTime3339_shape t Hp) as (Hc & Hl & _).
  cbn [zeroField decodeField jsonOf decodeTime]. rewrite escape_timeChar by done. unfold unmarshalTime.
  rewrite decide_False by (intros Hnil; rewrite Hnil in Hl; simpl in Hl; lia). by rewrite ParseRFC3339_format.
Qed.

Lemma pairOk_time k t : ValidString k = true -> findField supersetFields k = Some (k, KTime) -> clockTime t -> pairOk k (VStr (RFC3339FromTime t)).
Proof. intros Hv Hf Ht. split_and!; [done|done|by exists KTime|]. rewrite fieldOf_time by done. by eexists. Qed.

Definition isAttrClaim (typ : gostr) : bool := bool_decide (typ ∈ [SetAttributeClaim; AddAttributeClaim; DelAttributeClaim]).

(** Claims about attributes, with text that is UTF-8, and deletions. *)
Definition claimOk (cp : claimParam) : Prop :=
  (isAttrClaim (cp_claimType cp) = true /\ refWf (cp_permanode cp) = true /\ ValidString (cp_attribute cp) = true /\ ValidString (cp_value cp) = true) \/
  (cp_claimType cp = DeleteClaim /\ refWf (cp_target cp) = true).

(** What the accessors of a claim say of it. *)
Definition claimReads (cp : claimParam) (now : gotime) (c : Blob) : Prop :=
  AsClaim c = Some c /\ ss_Type (b_ss c) = gs "claim" /\ ClaimType c = cp_claimType cp /\ ClaimDate c = Ok now /\
  (isAttrClaim (cp_claimType cp) = true -> ModifiedPermanode c = cp_permanode cp /\ Attribute c = cp_attribute cp /\ Value c = cp_value cp) /\
  (cp_claimType cp = DeleteClaim -> Target c = cp_target cp).

Ltac table := vm_compute; reflexivity.

Lemma newClaim_ok now cp bb : clockTime now -> claimOk cp -> newClaim now cp [] = Ok bb ->
  builderOk bb /\ bb !! gs "camliVersion" = Some (VInt 1) /\ bb !! gs "camliType" = Some (VStr (gs "claim")) /\
  bb !! gs "camliSig" = None /\ bb !! gs "claimDate" = Some (VStr (RFC3339FromTime now)) /\
  bb !! gs "claimType" = Some (VStr (cp_claimType cp)) /\
  (isAttrClaim (cp_claimType cp) = true -> bb !! gs "permaNode" = Some (VStr (RefString (cp_permanode cp))) /\
    bb !! gs "attribute" = Some (VStr (cp_attribute cp)) /\
    (bb !! gs "value" = Some (VStr (cp_value cp)) \/ (bb !! gs "value" = None /\ cp_value cp = []))) /\
  (cp_claimType cp = DeleteClaim -> bb !! gs "target" = Some (VStr (RefString (cp_target cp)))).
Proof.
  intros Ht Hcp Hbb. unfold newClaim, SetClaimDate in Hbb. change (IsClaimType _) with true in Hbb. cbn [rbind] in Hbb. apply Ok_eq in Hbb as <-.
  set (b0 := <[_ := _]> _).
  assert (builderOk b0) as H0.
  { unfold b0, base. apply pairOk_insert; [apply pairOk_insert; [apply pairOk_insert; [by intros k v|]|by apply pairOk_version]|].
    - by apply pairOk_string; table.
    - by apply pairOk_time; [table|table|]. }
  assert (pairOk (gs "claimType") (VStr (cp_claimType cp))) as Hct by (by apply pairOk_string; table).
  unfold populateClaimMap.
  destruct Hcp as [(Hattr & Hpn & Ha & Hv)|(Hdel & Htg)].
  - assert (cp_claimType cp <> ShareClaim /\ cp_claimType cp <> DeleteClaim) as [Hns Hnd].
    { unfold isAttrClaim in Hattr. apply bool_decide_eq_true in Hattr. split; intros He; rewrite He in Hattr; revert Hattr; apply (bool_decide_unpack _); vm_compute; exact I. }
    rewrite decide_False, decide_False by done.
    set (b1 := <[gs "attribute" := _]> _).
    assert (builderOk b1) as H1.
    { unfold b1. apply pairOk_insert; [apply pairOk_insert; [by apply pairOk_insert|by apply pairOk_ref; [table|table|]]|by apply pairOk_string; table]. }
    destruct (decide _) as [[_ Hnil]|_].
    + split_and!; try done. intros _. split_and!; [done|done|]. by right.
    + split_and!; try done; [apply pairOk_insert; [done|by apply pairOk_string; table]|].
      intros _. split_and!; try done. left. by rewrite lookup_insert_eq.
  - rewrite decide_False by (rewrite Hdel; vm_compute; discriminate). rewrite decide_True by done.
    split_and!; try done; [apply pairOk_insert; [by apply pairOk_insert|by apply pairOk_ref; [table|table|]]|].
    intros Hattr. rewrite Hdel in Hattr. vm_compute in Hattr. discriminate.
Qed.

(** C7. What a client asserts is what a server reads.  An attribute claim or
    a deletion of well-formed references is built, with an attribute and a
    value that are UTF-8 and at a
    time that RFC 3339 prints, 64 bits of nanoseconds since 1970 count (the
    years 1678 to 2262) and is not the epoch, and is signed with at most 1 MB
    of text.  From the signed text it reads back as a claim with its type,
    date, permanode, attribute, value and target, and its signature verifies
    for the key of the signer ([claim_invalid_utf8] and [claim_at_epoch] are
    what happens without these conditions). *)
Theorem claim_signed_roundtrip `{PGP} (now : gotime) (cp : claimParam) (bb : Builder) (signer : Signer) (text : gostr) (ref : Ref)
    (Hnow : clockTime now) (Hcp : claimOk cp) (Hbb : newClaim now cp [] = Ok bb)
    (Hring : keyringSigns (fetchEntity signer)) (Hpub : refWf (sg_pubref signer) = true)
    (Hsign : SignAt bb signer = Ok text) (Hlen : glen text <= MaxSchemaBlobSize) (Href : Valid ref = true) :
  exists c, BlobFromReader ref text = Ok c /\ b_str c = text /\ b_br c = ref /\ claimReads cp now c /\
    exists vr, Verify (memoryFetch signer) (NewVerificationRequest (b_str c)) = (vr, true) /\ vr_CamliSigner vr = sg_pubref signer.
Proof.
  destruct (newClaim_ok now cp bb Hnow Hcp Hbb) as (Hok & Hz & Ht & Hns & Hd & Hct & Hattr & Hdel).
  destruct (SignAt_reads signer bb text ref _ Hok Hz Ht Hns Hpub Hring Hsign Hlen Href)
    as (c & sg & Hr & Hstr & Hbr & Hsig & Hne & Hsgn & Hlk & Hver).
  assert (b_ss c !! gs "claimDate" = Some (FTime now)) as Hcd by (rewrite Hlk, Hd by done; by apply fieldOf_time; [table|]).
  assert (ValidString (cp_claimType cp) = true /\ cp_claimType cp <> []) as [Hvt Htne].
  { destruct Hcp as [(Ha & _)|(-> & _)]; [|by split; [table|]]. unfold isAttrClaim in Ha. apply bool_decide_eq_true in Ha.
    assert (Forall (fun t => ValidString t = true /\ t <> []) [SetAttributeClaim; AddAttributeClaim; DelAttributeClaim]) as Hf
      by (repeat constructor; done). rewrite Forall_forall in Hf. by apply Hf. }
  assert (b_ss c !! gs "claimType" = Some (FString (cp_claimType cp))) as Hcct by (rewrite Hlk, Hct by done; by apply fieldOf_string; [table|]).
  exists c. split_and!; try done; [|by rewrite Hstr].
  unfold claimReads, AsClaim, ClaimDate, ClaimType, ss_ClaimType, ss_ClaimDate, strField, timeField. rewrite Hcd, Hcct, Hsgn, Hsig.
  destruct Hnow as (_ & _ & Hnz). rewrite Hnz, (refWf_Valid _ Hpub). rewrite !bool_decide_true by done. split_and!; try done.
  - unfold ss_Type, strField. rewrite Hlk, Ht by done. cbn [mbind option_bind]. by rewrite fieldOf_string by (table || done).
  - intros Ha. destruct (Hattr Ha) as (Hp & Hat & Hval). destruct Hcp as [(_ & Hwf & Hva & Hvv)|(He & _)].
    + unfold ModifiedPermanode, Attribute, Value, refField, strField. rewrite !Hlk, Hp, Hat by done. cbn [mbind option_bind].
      rewrite fieldOf_ref, fieldOf_string by (table || done). split_and!; try done.
      destruct Hval as [->|[-> ->]]; [|done]. cbn [mbind option_bind]. by rewrite fieldOf_string by (table || done).
    + rewrite He in Ha. vm_compute in Ha. discriminate.
  - intros He. specialize (Hdel He). destruct Hcp as [(Ha & _)|(_ & Hwf)]; [rewrite He in Ha; vm_compute in Ha; discriminate|].
    unfold Target, refField. rewrite Hlk, Hdel by done. cbn [mbind option_bind]. by rewrite fieldOf_ref by (table || done).
Qed.

(** * A claim *)

Definition exampleKeyRef : Ref := MkRef (Some (DSha1 (replicate 20 (zb 7)))).
Definition examplePn : Ref := MkRef (Some (DSha1 (replicate 20 (zb 9)))).
Definition exampleSigner : @Signer toyPGP := @MkSigner toyPGP (gs "KEY") exampleKeyRef toyKeyBlob (gs "KEY").
Definition exampleNow : gotime := (unixToInternal + 1300000000) * nsPerSecond + 5.
Definition exampleParam : claimParam := MkParam SetAttributeClaim examplePn (gs "title") (gs "a <b>") [] false zeroRef.
Definition exampleClaimText : gostr :=
  match (let? bb := newClaim exampleNow exampleParam [] in @SignAt toyPGP bb exampleSigner) with Ok t => t | _ => [] end.

(** A text that is not UTF-8 is not kept: its bytes read back as U+FFFD. *)
Example claim_invalid_utf8 :
  let cp := MkParam SetAttributeClaim examplePn (gs "title") [zb 255] [] false zeroRef in
  match (let? bb := newClaim exampleNow cp [] in let? t := @SignAt toyPGP bb exampleSigner in BlobFromReader examplePn t) with
  | Ok c => bool_decide (Value c = map zb [239; 191; 189])
  | _ => false
  end = true.
Proof. vm_compute. reflexivity. Qed.

(** The epoch is the zero time of a claim: it reads back as no claim. *)
Example claim_at_epoch :
  match (let? bb := newClaim (unixToInternal * nsPerSecond) exampleParam [] in let? t := @SignAt toyPGP bb exampleSigner in BlobFromReader examplePn t) with
  | Ok c => match AsClaim c with None => true | _ => false end
  | _ => false
  end = true.
Proof. vm_compute. reflexivity. Qed.

Lemma claim_signed_roundtrip_witness : exists c, BlobFromReader examplePn exampleClaimText = Ok c /\ b_str c = exampleClaimText /\
  b_br c = examplePn /\ claimReads exampleParam exampleNow c /\
  exists vr, @Verify toyPGP (@memoryFetch toyPGP exampleSigner) (@NewVerificationRequest toyPGP (b_str c)) = (vr, true) /\
    vr_CamliSigner vr = exampleKeyRef.
Proof.
  destruct (newClaim exampleNow exampleParam []) as [bb|e|p|] eqn:Eb; [|discriminate Eb..].
  apply (@claim_signed_roundtrip toyPGP exampleNow exampleParam bb exampleSigner exampleClaimText examplePn).
  - split; [split; [vm_compute; discriminate|vm_compute; reflexivity]|]. split; [split; [vm_compute; discriminate|vm_compute; reflexivity]|].
    vm_compute. reflexivity.
  - left. split_and!; vm_compute; reflexivity.
  - exact Eb.
  - apply toy_keyringSigns. intros pk e. unfold fetchEntity. cbn [entityKeyIdString entityKeyIdShortString toyPGP sg_entity exampleSigner].
    case_bool_decide as Hk; [|done]. cbn [negb andb]. intros [= <-]. exact Hk.
  - vm_compute. reflexivity.
  - assert (exampleClaimText = match @SignAt toyPGP bb exampleSigner with Ok t => t | _ => [] end) as ->.
    { unfold exampleClaimText. rewrite Eb. reflexivity. }
    assert (is_ok (@SignAt toyPGP bb exampleSigner) = true) as Hok; [|by destruct (@SignAt toyPGP bb exampleSigner)].
    assert (is_ok (let? bb := newClaim exampleNow exampleParam [] in @SignAt toyPGP bb exampleSigner) = true) as Hok by (vm_compute; reflexivity).
    rewrite Eb in Hok. exact Hok.
  - vm_compute. discriminate.
  - vm_compute. reflexivity.
Defined.
