(* ===== verification/Dirs.v ===== *)
(** Directories: pkg/schema/dirreader.go and the directory entries of
    schema.go.

    The goroutines that load the entries run one after the other here; the
    entries are awaited in the order of the static set in any case. *)

From S2P Require Import Prelude Ref Strutil Sha1 Storage Receive Times Json Schema FileReader.

(** * Reading a directory *)

(** The position [dr_current] is a field of the code's, set to 0 only. *)
Record DirReader := MkDR { dr_ss : superset; dr_staticSet : list Ref; dr_current : Z }.

Section dirs.
Context {S : Type} `{!Fetcher S}.
Abbreviation root := (frRoot S).

(** A fetch that passes on what its error becomes. *)
Definition fetching {A} (fetcher : S) (br : Ref) (onErr : error -> error) (k : gostr -> res A) : S * res A :=
  match st_Fetch fetcher br with
  | (s, Ok (d, _)) => (s, k d)
  | (s, Err e) => (s, Err (onErr e))
  | (s, Panic p) => (s, Panic p)
  | (s, Blocked) => (s, Blocked)
  end.

(** The text decoded over a superset that has the blob's reference, without a
    limit. *)
Definition decodeOver (blobRef : Ref) (d : gostr) : res superset :=
  let ss := setBlobRef blobRef ∅ in
  match decodeValue d with
  | Some JNull => Ok ss
  | Some (JObj ms) =>
      match rfold decodeMember ms ss with
      | Err _ => Err (ErrMsg "schema/dirreader: decoding schema blob %s: %v")
      | r => r
      end
  | _ => Err (ErrMsg "schema/dirreader: decoding schema blob %s: %v")
  end.

(** [setFromBlobRef] of a new superset. *)
Definition setFromBlobRef (fetcher : S) (blobRef : Ref) : S * res superset :=
  if negb (Valid blobRef) then (fetcher, Err (ErrMsg "schema/dirreader: blobref invalid"))
  else fetching fetcher blobRef (fun _ => ErrMsg "schema/dirreader: fetching schema blob %s: %v") (decodeOver blobRef).

Definition ssNewDirReader (ss : superset) : res DirReader :=
  if decide (ss_Type ss = gs "directory") then Ok (MkDR ss [] 0)
  else Err (ErrMsg "Superset not of type directory").

Definition NewDirReader (fetcher : S) (dirBlobRef : Ref) : S * res DirReader :=
  match setFromBlobRef fetcher dirBlobRef with
  | (s, r) => (s, let? ss := r in
      if decide (ss_Type ss = gs "directory") then ssNewDirReader ss
      else Err (ErrMsg "schema/dirreader: expected directory schema blob for %s, got %q"))
  end.

(** The loop over the members: what [staticSet] has become, and the error. *)
Fixpoint addMembers (members : list Ref) (staticSet : list Ref) : list Ref * res unit :=
  match members with
  | [] => (staticSet, Ok tt)
  | member :: members =>
      if Valid member then addMembers members (staticSet ++ [member])
      else (staticSet, Err (ErrMsg "schema/dirreader: invalid (static-set member) blobref"))
  end.

Definition setStaticSet (dr : DirReader) (l : list Ref) : DirReader := MkDR (dr_ss dr) l (dr_current dr).

(** [StaticSet]; the slice is nil if and only if it is empty. *)
Definition StaticSet (fetcher : S) (dr : DirReader) : S * DirReader * res (list Ref) :=
  match dr_staticSet dr with
  | _ :: _ => (fetcher, dr, Ok (dr_staticSet dr))
  | [] =>
      let staticSetBlobref := refField (gs "entries") (dr_ss dr) in
      if negb (Valid staticSetBlobref) then (fetcher, dr, Err (ErrMsg "schema/dirreader: Invalid blobref"))
      else
        match fetching fetcher staticSetBlobref (fun _ => ErrMsg "schema/dirreader: fetching schema blob %s: %v") Ok with
        | (s, Ok d) =>
            match parseSuperset (d, Ok tt) with
            | Ok ss =>
                if decide (ss_Type ss = gs "static-set") then
                  let '(l, r) := addMembers (ss_Members ss) [] in
                  (s, setStaticSet dr l, let? _ := r in Ok l)
                else (s, dr, Err (ErrMsg "schema/dirreader: expected static-set schema blob for %s, got %q"))
            | Err _ => (s, dr, Err (ErrMsg "schema/dirreader: decoding schema blob %s: %v"))
            | Panic p => (s, dr, Panic p)
            | Blocked => (s, dr, Blocked)
            end
        | (s, Err e) => (s, dr, Err e)
        | (s, Panic p) => (s, dr, Panic p)
        | (s, Blocked) => (s, dr, Blocked)
        end
  end.

(** * Entries *)

(** An entry and the readers it has made. *)
Record dirEntry := MkEntry { de_ss : superset; de_fr : option (root * FileReader); de_dr : option DirReader }.

Definition entryTypes : list gostr := [gs "file"; gs "directory"; gs "symlink"; gs "fifo"; gs "socket"].

Definition newDirectoryEntry (ss : superset) : res dirEntry :=
  if negb (Valid (ss_BlobRef ss)) then Err (ErrMsg "ss.BlobRef was invalid")
  else if bool_decide (ss_Type ss ∈ entryTypes) then Ok (MkEntry ss None None)
  else Err (ErrMsg "invalid DirectoryEntry camliType of %q").

Definition NewDirectoryEntryFromBlobRef (fetcher : S) (blobRef : Ref) : S * res dirEntry :=
  match setFromBlobRef fetcher blobRef with
  | (s, Ok ss) => (s, newDirectoryEntry ss)
  | (s, Err _) => (s, Err (ErrMsg "schema/filereader: can't fill superset: %v"))
  | (s, Panic p) => (s, Panic p)
  | (s, Blocked) => (s, Blocked)
  end.

Definition de_CamliType (de : dirEntry) : gostr := ss_Type (de_ss de).
Definition de_FileName (de : dirEntry) : gostr := FileNameString (de_ss de).
Definition de_BlobRef (de : dirEntry) : Ref := ss_BlobRef (de_ss de).

(** [File] and [Directory] make their reader once. *)
Definition de_File (fetcher : S) (de : dirEntry) : S * dirEntry * res (root * FileReader) :=
  match de_fr de with
  | Some fr => (fetcher, de, Ok fr)
  | None =>
      if decide (de_CamliType de = gs "file") then
        match NewFileReader fetcher (de_BlobRef de) with
        | (s, Ok fr) => (s, MkEntry (de_ss de) (Some fr) (de_dr de), Ok fr)
        | (s, r) => (s, de, r)
        end
      else (fetcher, de, Err (ErrMsg "DirectoryEntry is camliType %q, not %q"))
  end.
Definition de_Directory (fetcher : S) (de : dirEntry) : S * dirEntry * res DirReader :=
  match de_dr de with
  | Some dr => (fetcher, de, Ok dr)
  | None =>
      if decide (de_CamliType de = gs "directory") then
        match NewDirReader fetcher (de_BlobRef de) with
        | (s, Ok dr) => (s, MkEntry (de_ss de) (de_fr de) (Some dr), Ok dr)
        | (s, r) => (s, de, r)
        end
      else (fetcher, de, Err (ErrMsg "DirectoryEntry is camliType %q, not %q"))
  end.

(** All entries are loaded; the first error in their order counts. *)
Fixpoint loadEntries (fetcher : S) (refs : list Ref) : S * res (list dirEntry) :=
  match refs with
  | [] => (fetcher, Ok [])
  | entRef :: refs =>
      let '(s, e) := NewDirectoryEntryFromBlobRef fetcher entRef in
      let '(s, es) := loadEntries s refs in
      (s, match e with
          | Ok e => let? es := es in Ok (e :: es)
          | Err _ => Err (ErrMsg "schema/dirreader: can't create dirEntry: %v")
          | Panic p => Panic p
          | Blocked => Blocked
          end)
  end.

(** [Readdir]; the error that marks the end of the directory is assigned to
    the result and then overwritten. *)
Definition Readdir (fetcher : S) (dr : DirReader) (n : Z) : S * DirReader * res (list dirEntry) :=
  match StaticSet fetcher dr with
  | (s, dr, Ok sts) =>
      let len := Z.of_nat (length sts) in
      let '(dr, up) :=
        if n <=? 0 then (MkDR (dr_ss dr) (dr_staticSet dr) 0, len)
        else (dr, if len - dr_current dr <? n then len else dr_current dr + n) in
      if (dr_current dr <=? up) && (up <=? len) then
        let '(s, r) := loadEntries s (drop (Z.to_nat (dr_current dr)) (take (Z.to_nat up) sts)) in (s, dr, r)
      else (s, dr, Panic "slice bounds out of range")
  | (s, dr, Err _) => (s, dr, Err (ErrMsg "schema/dirreader: can't get StaticSet: %v"))
  | (s, dr, Panic p) => (s, dr, Panic p)
  | (s, dr, Blocked) => (s, dr, Blocked)
  end.
End dirs.

(** * Listing *)

Lemma addMembers_valid l acc : Forall (fun r => Valid r = true) l -> addMembers l acc = (acc ++ l, Ok tt).
Proof.
  intros Hl. revert acc. induction Hl as [|r l Hr _ IH]; intros acc; cbn [addMembers]; [by rewrite app_nil_r|].
  by rewrite Hr, IH, <- app_assoc.
Qed.

(** A listing that stops at an invalid member leaves those before it behind,
    and the next call takes them for the whole directory. *)
Example StaticSet_partial :
  let bad := [MkRef (Some (DSha1 (replicate 20 (zb 1)))); zeroRef] in
  addMembers bad [] = ([MkRef (Some (DSha1 (replicate 20 (zb 1))))], Err (ErrMsg "schema/dirreader: invalid (static-set member) blobref")).
Proof. reflexivity. Qed.

Section listing.
Context {S : Type} `{FetcherLaws S}.
Variable m : blobs.

(** The blob [r] is an entry of a directory: [ss] is what it decodes to. *)
Definition entryOf (r : Ref) (ss : superset) : Prop := Valid r = true /\ exists text ms, m !! r = Some text /\
  decodeValue text = Some (JObj ms) /\ rfold decodeMember ms (setBlobRef r ∅) = Ok ss /\
  Valid (ss_BlobRef ss) = true /\ ss_Type ss ∈ entryTypes.

(** The directory [ss] has the entries [sss], whose blobs are [refs]. *)
Definition dirHolds (ss : superset) (refs : list Ref) (sss : list superset) : Prop :=
  let br := refField (gs "entries") ss in
  Valid br = true /\ Forall2 entryOf refs sss /\
  exists text set, m !! br = Some text /\ parseSuperset (text, Ok tt) = Ok set /\ ss_Type set = gs "static-set" /\ ss_Members set = refs.

(** A fetch of what is there gives it, or fails where fetches may. *)
Lemma fetching_spec {A} s br onErr (k : gostr -> res A) d : ft_wf s -> ft_view s = m -> m !! br = Some d ->
  exists s' r, fetching s br onErr k = (s', r) /\ ft_wf s' /\ ft_view s' = m /\
    (r = k d \/ ((exists e, r = Err (onErr e)) /\ ~ @fetches S _ _)).
Proof.
  intros Hwf Hv Hd. unfold fetching. destruct (st_Fetch s br) as [s' r] eqn:E.
  pose proof E as E'. apply ft_Fetch_law in E' as (Hwf' & Hv' & Hr); [|done|apply (ft_wf_good s Hwf br d); by rewrite Hv]. rewrite Hv in Hv'.
  destruct r as [[d' n]|e|p|]; [| |done..].
  - destruct Hr as [Hd' ->]. exists s', (k d'). split_and!; try done. left. congruence.
  - exists s', (Err (onErr e)). split_and!; try done. right. split; [by eexists|].
    intros Hf. specialize (Hf s br d Hwf). rewrite Hv, E in Hf. by specialize (Hf Hd).
Qed.

Lemma loadEntries_spec s refs sss : ft_wf s -> ft_view s = m -> Forall2 entryOf refs sss ->
  exists s' r, loadEntries s refs = (s', r) /\ ft_wf s' /\ ft_view s' = m /\
    (r = Ok (map (fun ss => MkEntry ss None None) sss) \/ ((exists e, r = Err e) /\ ~ @fetches S _ _)).
Proof.
  intros Hwf Hv Hf. revert s Hwf Hv. induction Hf as [|r ss refs sss (Hr & text & ms & Hm & Hdec & Hfold & Hbr & Hty) _ IH]; intros s Hwf Hv.
  { exists s, (Ok []). split_and!; try done. by left. }
  cbn [loadEntries]. unfold NewDirectoryEntryFromBlobRef, setFromBlobRef. rewrite Hr. cbn [negb].
  destruct (fetching_spec s r (fun _ => ErrMsg "schema/dirreader: fetching schema blob %s: %v") (decodeOver r) text Hwf Hv Hm) as (s1 & r1 & -> & Hwf1 & Hv1 & Hr1).
  destruct (IH s1 Hwf1 Hv1) as (s2 & r2 & Hl & Hwf2 & Hv2 & Hr2).
  destruct Hr1 as [->|[[e ->] Hnf]].
  - unfold decodeOver. cbn zeta. rewrite Hdec, Hfold, Hl. eexists s2, _. split; [reflexivity|]. split_and!; try done.
    unfold newDirectoryEntry. rewrite Hbr, bool_decide_true by done. cbn [negb].
    destruct Hr2 as [->|[[e ->] Hnf]]; [by left|]. right. split; [by eexists|done].
  - rewrite Hl. eexists s2, _. split; [reflexivity|]. split_and!; try done. right. split; [by eexists|done].
Qed.

Lemma StaticSet_spec s dr refs sss : ft_wf s -> ft_view s = m -> dirHolds (dr_ss dr) refs sss ->
  dr_staticSet dr = [] \/ dr_staticSet dr = refs ->
  exists s' dr' r, StaticSet s dr = (s', dr', r) /\ ft_wf s' /\ ft_view s' = m /\ dr_ss dr' = dr_ss dr /\ dr_current dr' = dr_current dr /\
    (dr_staticSet dr' = [] \/ dr_staticSet dr' = refs) /\ (r = Ok refs \/ ((exists e, r = Err e) /\ ~ @fetches S _ _)).
Proof.
  intros Hwf Hv (Hbr & Hent & text & set & Hm & Hp & Hty & Hmem) Hset. unfold StaticSet.
  destruct (dr_staticSet dr) as [|r0 l0] eqn:El.
  2:{ destruct Hset as [?|<-]; [done|]. eexists s, dr, _. split; [reflexivity|]. split_and!; try done; [by right|by left]. }
  rewrite Hbr. cbn [negb].
  destruct (fetching_spec s (refField (gs "entries") (dr_ss dr)) (fun _ => ErrMsg "schema/dirreader: fetching schema blob %s: %v") Ok text Hwf Hv Hm)
    as (s1 & r1 & -> & Hwf1 & Hv1 & [->|[[e ->] Hnf]]).
  - rewrite Hp, decide_True by done. rewrite Hmem, addMembers_valid.
    2:{ clear - Hent. induction Hent as [|? ? ? ? [? _] _ IH]; by constructor. }
    cbn [app rbind]. eexists s1, _, _. split; [reflexivity|]. split_and!; try done; [by right|by left].
  - eexists s1, dr, _. split; [reflexivity|]. split_and!; try done; [by left|]. right. split; [by eexists|done].
Qed.

(** C8. [Readdir(n)] of a directory gives the first [n] entries in the order
    of its static set, and all of them if [n] is not positive or exceeds
    their number, each with what its blob decodes to, or an error only where
    a fetch failed.  It leaves the reader where it was: the next call gives
    the same entries again, and the end is never reported. *)
Theorem Readdir_lists (s : S) (dr : DirReader) (n : Z) (refs : list Ref) (sss : list superset)
    (Hwf : ft_wf s) (Hv : ft_view s = m) (Hdir : dirHolds (dr_ss dr) refs sss)
    (Hset : dr_staticSet dr = [] \/ dr_staticSet dr = refs) (Hcur : dr_current dr = 0) :
  exists s' dr' r, Readdir s dr n = (s', dr', r) /\
    (r = Ok (map (fun ss => MkEntry ss None None) (if n <=? 0 then sss else take (Z.to_nat n) sss)) \/
     ((exists e, r = Err e) /\ ~ @fetches S _ _)) /\
    ft_wf s' /\ ft_view s' = m /\ dr_ss dr' = dr_ss dr /\ dr_current dr' = 0 /\ (dr_staticSet dr' = [] \/ dr_staticSet dr' = refs).
Proof.
  unfold Readdir. destruct (StaticSet_spec s dr refs sss Hwf Hv Hdir Hset) as (s1 & dr1 & r1 & -> & Hwf1 & Hv1 & Hss1 & Hc1 & Hset1 & Hr1).
  destruct Hr1 as [->|[[e ->] Hnf]].
  2:{ eexists s1, dr1, _. split; [reflexivity|]. split; [right; split; [by eexists|done]|]. rewrite Hc1, Hcur. done. }
  destruct Hdir as (_ & Hent & _). pose proof (Forall2_length _ _ _ Hent) as Hlen.
  set (up := if n <=? 0 then Z.of_nat (length refs) else if Z.of_nat (length refs) - dr_current dr1 <? n then Z.of_nat (length refs) else dr_current dr1 + n).
  assert (Hup : 0 <= up <= Z.of_nat (length refs) /\ take (Z.to_nat up) sss = if n <=? 0 then sss else take (Z.to_nat n) sss).
  { unfold up. rewrite Hc1, Hcur. destruct (Z.leb_spec n 0); [|destruct (Z.ltb_spec (Z.of_nat (length refs) - 0) n)].
    - split; [lia|]. rewrite take_ge by lia. done.
    - split; [lia|]. rewrite !take_ge by lia. done.
    - split; [lia|done]. }
  destruct Hup as [Hup Htake].
  destruct (loadEntries_spec s1 (take (Z.to_nat up) refs) (take (Z.to_nat up) sss) Hwf1 Hv1 (Forall2_take _ _ _ _ Hent))
    as (s2 & r2 & Hl & Hwf2 & Hv2 & Hr2). rewrite Htake in Hr2.
  assert (Hgo : forall dr2, dr_ss dr2 = dr_ss dr1 -> dr_current dr2 = 0 -> dr_staticSet dr2 = dr_staticSet dr1 ->
    exists s' dr' r, (if (dr_current dr2 <=? up) && (up <=? Z.of_nat (length refs)) then
        let '(s, r) := loadEntries s1 (drop (Z.to_nat (dr_current dr2)) (take (Z.to_nat up) refs)) in (s, dr2, r)
      else (s1, dr2, Panic "slice bounds out of range")) = (s', dr', r) /\
    (r = Ok (map (fun ss => MkEntry ss None None) (if n <=? 0 then sss else take (Z.to_nat n) sss)) \/ ((exists e, r = Err e) /\ ~ @fetches S _ _)) /\
    ft_wf s' /\ ft_view s' = m /\ dr_ss dr' = dr_ss dr /\ dr_current dr' = 0 /\ (dr_staticSet dr' = [] \/ dr_staticSet dr' = refs)).
  { intros dr2 E1 E2 E3. rewrite E2. rewrite (proj2 (Z.leb_le 0 up)), (proj2 (Z.leb_le up _)) by lia. cbn [andb Z.to_nat drop]. rewrite drop_0, Hl.
    eexists s2, dr2, _. split; [reflexivity|]. rewrite E1, E2, E3. split_and!; done. }
  subst up. destruct (n <=? 0); apply Hgo; try done. by rewrite Hc1.
Qed.
End listing.

(** * A directory of two files *)

Definition entryCheck (m : blobs) (r : Ref) : option superset :=
  text ← m !! r;
  match decodeValue text with
  | Some (JObj ms) =>
      match rfold decodeMember ms (setBlobRef r ∅) with
      | Ok ss => if Valid r && Valid (ss_BlobRef ss) && bool_decide (ss_Type ss ∈ entryTypes) then Some ss else None
      | _ => None
      end
  | _ => None
  end.

Lemma entryCheck_ok m r ss : entryCheck m r = Some ss -> entryOf m r ss.
Proof.
  unfold entryCheck. destruct (m !! r) as [text|] eqn:Em; [|done]. cbn [mbind option_bind].
  destruct (decodeValue text) as [[| | | | |ms]|] eqn:Ed; try done. destruct (rfold _ _ _) as [ss'| | |] eqn:Ef; try done.
  destruct (Valid r) eqn:Er, (Valid (ss_BlobRef ss')) eqn:Eb; try done. cbn [andb]. destruct (bool_decide _) eqn:Et; [|done].
  apply bool_decide_eq_true in Et. intros [= <-]. split; [done|]. by exists text, ms.
Qed.

Lemma entries_check m refs : forallb (fun r => match entryCheck m r with Some _ => true | None => false end) refs = true ->
  Forall2 (entryOf m) refs (omap (entryCheck m) refs).
Proof.
  induction refs as [|r refs IH]; [constructor|]. cbn [forallb omap list_omap]. destruct (entryCheck m r) as [ss|] eqn:E; [|done].
  cbn [andb]. intros Hf. constructor; [by apply entryCheck_ok|by apply IH].
Qed.

Definition exampleTexts : list gostr := [fileText (gs "a") 0 []; fileText (gs "b") 0 []].
Definition exampleMembers : list Ref := map refOf exampleTexts.
Definition exampleSet : gostr := match staticSetBlob exampleMembers with Ok b => b_str b | _ => [] end.
Definition exampleBlobs : blobs := blobsOf (exampleSet :: exampleTexts).
Definition exampleDir : superset := <[gs "camliType" := FString (gs "directory")]> {[gs "entries" := FRef (refOf exampleSet)]}.
Definition exampleEntries : list superset := omap (entryCheck exampleBlobs) exampleMembers.

Lemma exampleDir_holds : dirHolds exampleBlobs exampleDir exampleMembers exampleEntries.
Proof.
  split; [vm_compute; reflexivity|]. split.
  - assert (forallb (fun r => match entryCheck exampleBlobs r with Some _ => true | None => false end) exampleMembers = true) as Hf
      by (vm_compute; reflexivity).
    unfold exampleEntries. apply entries_check. exact Hf.
  - assert (match parseSuperset (exampleSet, Ok tt) with
            | Ok set => exampleBlobs !! refField (gs "entries") exampleDir = Some exampleSet /\ ss_Type set = gs "static-set" /\ ss_Members set = exampleMembers
            | _ => False end) as Hx by (vm_compute; split_and!; reflexivity).
    destruct (parseSuperset (exampleSet, Ok tt)) as [set| | |] eqn:Ep; [|destruct Hx..]. destruct Hx as (H1 & H2 & H3). exists exampleSet, set. split; [exact H1|]. split; [exact Ep|]. split; [exact H2|exact H3].
Qed.

Lemma Readdir_lists_witness : exists s' dr' r, Readdir exampleBlobs (MkDR exampleDir [] 0) 1 = (s', dr', r) /\
  (r = Ok (map (fun ss => MkEntry ss None None) (take 1 exampleEntries)) \/ ((exists e, r = Err e) /\ ~ fetches (S := blobs))) /\
  dr_current dr' = 0 /\ map FileNameString (take 1 exampleEntries) = [gs "a"].
Proof.
  destruct (Readdir_lists exampleBlobs exampleBlobs (MkDR exampleDir [] 0) 1 exampleMembers exampleEntries)
    as (s' & dr' & r & Hr & Hc & _ & _ & _ & Hcur & _).
  - apply blobsOf_good. do 3 (constructor; [apply Z.ltb_lt; vm_compute; reflexivity|]). constructor.
  - reflexivity.
  - exact exampleDir_holds.
  - left. reflexivity.
  - reflexivity.
  - exists s', dr', r. split; [exact Hr|]. split; [exact Hc|]. split; [exact Hcur|]. vm_compute. reflexivity.
Defined.
