(* ===== verification/Media.v ===== *)
(** What a blob holds: pkg/magic, which tells MIME types by their first
    bytes, and pkg/media, the length of MP3 files.

    [http.DetectContentType] of Go's net/http, a long table of the same kind,
    is an argument: what is proved holds for any. *)

From S2P Require Import Prelude Strutil.

(** * pkg/magic *)

Definition bytes (l : list Z) : gostr := map zb l.

Definition prefixTable : list (gostr * gostr) := [
  (gs "GIF87a", gs "image/gif");
  (gs "GIF89a", gs "image/gif");
  (bytes [255; 216; 255; 226], gs "image/jpeg");
  (bytes [255; 216; 255; 225], gs "image/jpeg");
  (bytes [255; 216; 255; 224], gs "image/jpeg");
  (bytes [255; 216; 255; 219], gs "image/jpeg");
  (bytes [73; 73; 42; 0; 16; 0; 0; 0; 67; 82; 2], gs "image/cr2");
  (bytes [137; 80; 78; 71; 13; 10; 26; 10], gs "image/png");
  (bytes [73; 32; 73], gs "image/tiff");
  (bytes [73; 73; 42; 0], gs "image/tiff");
  (bytes [77; 77; 0; 42], gs "image/tiff");
  (bytes [77; 77; 0; 43], gs "image/tiff");
  (gs "8BPS", gs "image/vnd.adobe.photoshop");
  (gs "gimp xcf ", gs "image/xcf");
  (gs "-----BEGIN PGP PUBLIC KEY BLOCK---", gs "text/x-openpgp-public-key");
  (gs "fLaC" ++ bytes [0; 0; 0], gs "audio/flac");
  (gs "ID3", gs "audio/mpeg");
  (bytes [0; 0; 1; 183], gs "video/mpeg");
  (bytes [0; 0; 0; 20; 102; 116; 121; 112; 113; 116; 32; 32], gs "video/quicktime");
  (bytes [0; 110; 30; 240], gs "application/vnd.ms-powerpoint");
  (bytes [26; 69; 223; 163], gs "video/webm");
  (gs "FLV" ++ bytes [1], gs "application/vnd.adobe.flash.video");
  (bytes [31; 139; 8], gs "application/gzip");
  (bytes [55; 122; 188; 175; 39; 28], gs "application/x-7z-compressed");
  (gs "BZh", gs "application/bzip2");
  (bytes [253; 55; 122; 88; 90; 0], gs "application/x-xz");
  (gs "PK" ++ bytes [3; 4; 10; 0; 2; 0], gs "application/epub+zip");
  (bytes [208; 207; 17; 224; 161; 177; 26; 225], gs "application/vnd.ms-word");
  (gs "PK" ++ bytes [3; 4; 10; 20; 0; 6; 0], gs "application/vnd.openxmlformats-officedocument.custom-properties+xml");
  (gs "PK" ++ bytes [3; 4], gs "application/zip");
  (gs "%PDF", gs "application/pdf");
  (gs "{rtf", gs "text/rtf1");
  (gs "BEGIN:VCARD" ++ bytes [13; 10], gs "text/vcard");
  (gs "Return-Path: ", gs "message/rfc822")
].

(** [strings.Replace(t, old, "", 1)] *)
Fixpoint removeFirst (old t : gostr) : gostr :=
  if decide (take (length old) t = old) then drop (length old) t
  else match t with [] => [] | c :: t => c :: removeFirst old t end.

Definition matches (hdr : gostr) (pte : gostr * gostr) : bool :=
  (length pte.1 <? length hdr)%nat && bool_decide (take (length pte.1) hdr = pte.1).

Section magic.
Variable DetectContentType : gostr -> gostr.

Definition MIMEType (hdr : gostr) : gostr :=
  match List.find (matches hdr) prefixTable with
  | Some pte => pte.2
  | None =>
      let t := removeFirst (gs "; charset=utf-8") (DetectContentType hdr) in
      if bool_decide (t <> gs "application/octet-stream") && bool_decide (t <> gs "text/plain") then t else []
  end.
End magic.

Definition videoExtensions : list gostr :=
  map gs ["3gp"; "avi"; "flv"; "m1v"; "m2v"; "m4v"; "mkv"; "mov"; "mp4"; "mpeg"; "mpg"; "ogv"; "wmv"]%string.

(** [filepath.Ext]: from the last dot of the last element. *)
Fixpoint extLoop (rs acc : gostr) : gostr :=
  match rs with
  | [] => []
  | c :: rs => if decide (c = "/"%char) then [] else if decide (c = "."%char) then c :: acc else extLoop rs (c :: acc)
  end.
Definition filepathExt (path : gostr) : gostr := extLoop (rev path) [].

Definition lowerByte (c : ascii) : ascii := if (65 <=? bz c) && (bz c <=? 90) then zb (bz c + 32) else c.

(** [IsVideo]; [ToLower] is [strings.ToLower], for extensions that are not ASCII. *)
Definition IsVideo (ToLower : gostr -> gostr) (mimeType filename : gostr) : bool :=
  if bool_decide (gs "video/" `prefix_of` mimeType) then true
  else
    match filepathExt filename with
    | "."%char :: ext =>
        if existsb (fun c => 128 <=? bz c) ext then bool_decide (ToLower ext ∈ videoExtensions)
        else bool_decide (map lowerByte ext ∈ videoExtensions)
    | _ => false
    end.

(** * pkg/media *)

Definition ID3v1TagLength : Z := 128.

Definition HasID3v1Tag (r : gostr) : bool :=
  if glen r <? ID3v1TagLength then false
  else bool_decide (take 3 (drop (Z.to_nat (glen r - ID3v1TagLength)) r) = gs "TAG").

Inductive mpegVersion := mpegVersion1 | mpegVersion2 | mpegVersion2_5.
Inductive mpegLayer := mpegLayer1 | mpegLayer2 | mpegLayer3.

Definition mpegVersionsById (i : Z) : option mpegVersion :=
  if i =? 0 then Some mpegVersion2_5 else if i =? 2 then Some mpegVersion2 else if i =? 3 then Some mpegVersion1 else None.
Definition mpegLayersByIndex (i : Z) : option mpegLayer :=
  if i =? 1 then Some mpegLayer3 else if i =? 2 then Some mpegLayer2 else if i =? 3 then Some mpegLayer1 else None.

Definition mpegBitrates (v : mpegVersion) (l : mpegLayer) : list Z :=
  match v, l with
  | mpegVersion1, mpegLayer1 => [0; 32; 64; 96; 128; 160; 192; 224; 256; 288; 320; 352; 384; 416; 448; 0]
  | mpegVersion1, mpegLayer2 => [0; 32; 48; 56; 64; 80; 96; 112; 128; 160; 192; 224; 256; 320; 384; 0]
  | mpegVersion1, mpegLayer3 => [0; 32; 40; 48; 56; 64; 80; 96; 112; 128; 160; 192; 224; 256; 320; 0]
  | _, mpegLayer1 => [0; 32; 48; 56; 64; 80; 96; 112; 128; 144; 160; 176; 192; 224; 256; 0]
  | _, _ => [0; 8; 16; 24; 32; 40; 48; 56; 64; 80; 96; 112; 128; 144; 160; 0]
  end.
Definition mpegSamplingRates (v : mpegVersion) : list Z :=
  match v with
  | mpegVersion1 => [44100; 48000; 32000; 0]
  | mpegVersion2 => [22050; 24000; 16000; 0]
  | mpegVersion2_5 => [11025; 12000; 8000; 0]
  end.
Definition mpegSamplesPerFrame (v : mpegVersion) (l : mpegLayer) : Z :=
  match l, v with
  | mpegLayer1, _ => 384
  | mpegLayer2, _ => 1152
  | mpegLayer3, mpegVersion1 => 1152
  | mpegLayer3, _ => 576
  end.

Definition bigEndian (bs : gostr) : Z := foldl (fun z c => z * 256 + bz c) 0 bs.

(** [numBits] bits from [startBit] on, the most significant first. *)
Definition getBits (header startBit numBits : Z) : Z := Z.shiftr (u32 (Z.shiftl header startBit)) (32 - numBits).

(** [GetMPEGAudioDuration], in nanoseconds. *)
Definition GetMPEGAudioDuration (r : gostr) : res Z :=
  if glen r <? 4 then Err (ErrMsg "Failed to read MPEG frame header: %v")
  else
    let header := bigEndian (take 4 r) in
    if negb (getBits header 0 11 =? 2047) then Err (ErrMsg "Missing sync bits in MPEG frame header")
    else
      match mpegVersionsById (getBits header 11 2) with
      | None => Err (ErrMsg "Invalid MPEG version index")
      | Some version =>
          match mpegLayersByIndex (getBits header 13 2) with
          | None => Err (ErrMsg "Invalid MPEG layer index")
          | Some layer =>
              let bitrate := nth (Z.to_nat (getBits header 16 4)) (mpegBitrates version layer) 0 in
              if bitrate =? 0 then Err (ErrMsg "Invalid MPEG bitrate")
              else
                let samplingRate := nth (Z.to_nat (getBits header 20 2)) (mpegSamplingRates version) 0 in
                if samplingRate =? 0 then Err (ErrMsg "Invalid MPEG sample rate")
                else
                  let samplesPerFrame := mpegSamplesPerFrame version layer in
                  let xingHeaderStart := 4 + (if getBits header 24 2 =? 3 then 17 else 32) + (if getBits header 15 1 =? 0 then 2 else 0) in
                  let b := take 12 (drop (Z.to_nat xingHeaderStart) r) in
                  if glen b <? 12 then Err (ErrMsg "Unable to read Xing header at %d: %v")
                  else
                    let millis ms := Ok (i64 (ms * 1000000)) in
                    if bool_decide (take 4 b ∈ [gs "Xing"; gs "Info"]) then
                      let xingFlags := bigEndian (take 4 (drop 4 b)) in
                      if Z.land xingFlags 1 =? 0 then Err (ErrMsg "Xing header at %d lacks number of frames")
                      else
                        let numFrames := bigEndian (take 4 (drop 8 b)) in
                        millis (samplesPerFrame * numFrames * 1000 / samplingRate)
                    else millis (glen r / bitrate * 8)
          end
      end.

(** A second of 128 kbit/s in MPEG 1, layer 3, without a Xing header. *)
Example duration_cbr : GetMPEGAudioDuration (bytes [255; 251; 144; 64] ++ replicate 15996 "000"%char) = Ok (1000 * 1000000).
Proof. vm_compute. reflexivity. Qed.

(** RTF files start with a brace and a backslash. *)
Example rtf_not_matched : List.find (matches (gs "{" ++ bytes [92] ++ gs "rtf1")) prefixTable = None.
Proof. vm_compute. reflexivity. Qed.
