(* ===== verification/Index.v ===== *)
(** The index: pkg/index/index.go, its state and its queries.

    [Index] is the record of the fields; [K] is the sorted key/value store
    under it and [S] the storage its blobs come from, which is also where keys
    are fetched ([KeyFetcher]; only tests set another).  The locks make each
    method one step.  An iterator is the list of the rows it gives and the
    error of closing it; where the code ends a loop early it closes the same
    iterator. *)

From S2P Require Import Prelude Ref Strutil SortedKV Sha1 Storage Times Json Runes Schema IndexKeys Corpus CorpusRows.

(** [tickleOoo] is a channel of capacity one: whether a tickle waits in it. *)
Record Index (K S : Type) := MkIndex {
  ix_s : K;
  ix_deletes : option (gmap Ref (list deletion));
  ix_corpus : option Corpus;
  needs : gmap Ref (list Ref);
  neededBy : gmap Ref (list Ref);
  readyReindex : gset Ref;
  oooRunning : bool;
  blobSource : option S;
  tickleOoo : bool
}.
Arguments MkIndex {K S}.
Arguments ix_s {K S}.
Arguments ix_deletes {K S}.
Arguments ix_corpus {K S}.
Arguments needs {K S}.
Arguments neededBy {K S}.
Arguments readyReindex {K S}.
Arguments oooRunning {K S}.
Arguments blobSource {K S}.
Arguments tickleOoo {K S}.

(** [camtypes.RecentPermanode], [camtypes.PermanodeByAttrRequest]. *)
Record RecentPermanode := MkRecent { rp_Permanode : Ref; rp_Signer : Ref; rp_LastModTime : gotime }.
Record PermanodeByAttrRequest := MkByAttr {
  rq_Signer : Ref; rq_Attribute : gostr; rq_Query : gostr; rq_FuzzyMatch : bool; rq_MaxResults : Z
}.

(** [strings.SplitN(s, sep, n)] for a one-byte separator and [n > 0]. *)
Fixpoint splitN (n : nat) (sep : ascii) (s : gostr) : list gostr :=
  match n with
  | 0%nat | 1%nat => [s]
  | S n' =>
      match index_byte sep s with
      | None => [s]
      | Some i => take i s :: splitN n' sep (drop (S i) s)
      end
  end.

(** A query that sends on a channel: what it sends, and its error. *)
Abbreviation sending A := (list A * res unit)%type.

(** [defer closeIterator(it, &err)] *)
Definition closing {A} (cerr : gerr) (r : res A) : res A :=
  match r, cerr with Ok _, Some e => Err e | _, _ => r end.
Definition sendingErr {A} (r : res A) : res unit := let? _ := r in Ok tt.

Section index.
Context {K S : Type} `{!KV K, !Storage S}.
Context (sortBy : forall A, (A -> gotime) -> list A -> list A).
Context (arrange : forall A, list A -> list A).
Arguments sortBy {A}.
Arguments arrange {A}.
Abbreviation index := (Index K S).

Definition setStore (x : index) (s : K) : index :=
  MkIndex s (ix_deletes x) (ix_corpus x) (needs x) (neededBy x) (readyReindex x) (oooRunning x) (blobSource x) (tickleOoo x).
Definition setDeletesCache (x : index) (d : option (gmap Ref (list deletion))) : index :=
  MkIndex (ix_s x) d (ix_corpus x) (needs x) (neededBy x) (readyReindex x) (oooRunning x) (blobSource x) (tickleOoo x).
Definition setCorpus (x : index) (c : option Corpus) : index :=
  MkIndex (ix_s x) (ix_deletes x) c (needs x) (neededBy x) (readyReindex x) (oooRunning x) (blobSource x) (tickleOoo x).
Definition setNeeds (x : index) (n nb : gmap Ref (list Ref)) (rr : gset Ref) (tickle : bool) : index :=
  MkIndex (ix_s x) (ix_deletes x) (ix_corpus x) n nb rr (oooRunning x) (blobSource x) tickle.
Definition setSource (x : index) (bs : option S) : index :=
  MkIndex (ix_s x) (ix_deletes x) (ix_corpus x) (needs x) (neededBy x) (readyReindex x) (oooRunning x) bs (tickleOoo x).
Definition setRunning (x : index) (b : bool) : index :=
  MkIndex (ix_s x) (ix_deletes x) (ix_corpus x) (needs x) (neededBy x) (readyReindex x) b (blobSource x) (tickleOoo x).

(** * Deletions *)

Definition isDeleted (dels : gmap Ref (list deletion)) (br : Ref) : res bool := IsDeletedLocked (deleteFuel dels) dels br.

(** The loop over the deletions of a blob: one that stands is enough. *)
Fixpoint anyUndeleted (deleted : Ref -> res bool) (rows : list (gostr * gostr)) (cerr : gerr) : res bool :=
  let close b := match cerr with None => Ok b | Some _ => Panic "Could not close iterator on keyDeleted: %v" end in
  match rows with
  | [] => close false
  | (k, _) :: rows =>
      let? cl := kvDeleted k in
      match cl with
      | None => Panic "Bogus keyDeleted entry key"
      | Some cl => let? b := deleted (cl_BlobRef cl) in if b then anyUndeleted deleted rows cerr else close true
      end
  end.

Fixpoint isDeletedNoCacheLoop (fuel : nat) (s : K) (br : Ref) : res bool :=
  match fuel with
  | O => Panic "stack overflow"
  | Datatypes.S fuel =>
      let? rows := queryPrefix s keyDeleted [ARef br] in
      anyUndeleted (isDeletedNoCacheLoop fuel s) rows.1 rows.2
  end.

(** Deeper than the chains that the rows can make. *)
Definition noCacheFuel (s : K) : nat :=
  match queryPrefix s keyDeleted [] with Ok (rows, _) => Datatypes.S (Datatypes.S (length rows)) | _ => 0 end.

Definition isDeletedNoCache (s : K) (br : Ref) : res bool := isDeletedNoCacheLoop (noCacheFuel s) s br.

Definition IsDeleted (x : index) (br : Ref) : res bool :=
  match ix_deletes x with None => isDeletedNoCache (ix_s x) br | Some dels => isDeleted dels br end.

(** Either of two references is deleted; the second is not looked up when the
    first is. *)
Definition eitherDeleted (x : index) (a b : Ref) : res bool := let? d := IsDeleted x a in if d then Ok true else IsDeleted x b.

(** * Queries *)

Definition KeyId (x : index) (signer : Ref) : res gostr :=
  match ix_corpus x with
  | Some c => Corpus.KeyId c signer
  | None => kv_get (gs "signerkeyid:" ++ RefString signer) (ix_s x)
  end.

(** The loop of [GetRecentPermanodes]; [seen] is the [dupSkipper]. *)
Fixpoint recentLoop (x : index) (owner : Ref) (limit : Z) (before : gotime) (rows : list (gostr * gostr))
    (seen : gset gostr) (dest : list RecentPermanode) : sending RecentPermanode :=
  match rows with
  | [] => (dest, Ok tt)
  | (k, permaStr) :: rows =>
      match splitN 4 pipe k with
      | [_; _; when; _] =>
          match unreverseTimeString when with
          | Ok when =>
              let mTime := default 0 (ParseRFC3339 when) in
              match blobParse permaStr with
              | None => recentLoop x owner limit before rows seen dest
              | Some permaRef =>
                  match IsDeleted x permaRef with
                  | Ok true => recentLoop x owner limit before rows seen dest
                  | Ok false =>
                      if decide (permaStr ∈ seen) then recentLoop x owner limit before rows seen dest
                      else if negb (mTime <? before) then recentLoop x owner limit before rows ({[permaStr]} ∪ seen) dest
                      else
                        let dest := dest ++ [MkRecent permaRef owner mTime] in
                        if Z.of_nat (length dest) =? limit then (dest, Ok tt)
                        else recentLoop x owner limit before rows ({[permaStr]} ∪ seen) dest
                  | r => (dest, sendingErr r)
                  end
              end
          | r => (dest, sendingErr r)
          end
      | _ => recentLoop x owner limit before rows seen dest
      end
  end.

(** [GetRecentPermanodes]; [now] is the clock, for a zero [before]. *)
Definition GetRecentPermanodes (x : index) (owner : Ref) (limit : Z) (before now : gotime) : sending RecentPermanode :=
  match KeyId x owner with
  | Err e => ([], if decide (e = ErrNotFound) then Ok tt else Err e)
  | Ok keyId =>
      match queryPrefix (ix_s x) keyRecentPermanode [AStr keyId] with
      | Ok (rows, cerr) =>
          let '(dest, r) := recentLoop x owner limit (if before =? 0 then now else before) rows ∅ [] in
          (dest, closing cerr r)
      | r => ([], sendingErr r)
      end
  | r => ([], sendingErr r)
  end.

(** [strings.Contains] *)
Fixpoint contains (s sub : gostr) : bool :=
  isPrefixB sub s || match s with [] => false | _ :: s => contains s sub end.

Fixpoint appendClaimRows (x : index) (signerFilter : Ref) (attrFilter mustHave : gostr) (rows : list (gostr * gostr))
    (dst : list Claim) : res (list Claim) :=
  match rows with
  | [] => Ok dst
  | (k, val) :: rows =>
      let next := appendClaimRows x signerFilter attrFilter mustHave rows in
      if negb (bool_decide (mustHave = [])) && negb (contains val mustHave) then next dst
      else
        let? cl := kvClaim k val in
        match cl with
        | None => next dst
        | Some cl =>
            let? deleted := IsDeleted x (cl_BlobRef cl) in
            if deleted || (negb (bool_decide (attrFilter = [])) && negb (bool_decide (cl_Attr cl = attrFilter))) ||
               (Valid signerFilter && negb (bool_decide (cl_Signer cl = signerFilter)))
            then next dst else next (dst ++ [cl])
        end
  end.

(** [AppendClaims]; the error of closing the iterator goes to a variable that
    is not a result. *)
Definition AppendClaims (x : index) (dst : list Claim) (permaNode signerFilter : Ref) (attrFilter : gostr) : res (list Claim) :=
  match ix_corpus x with
  | Some c => Corpus.AppendClaims c dst permaNode signerFilter attrFilter
  | None =>
      let mustHave := if bool_decide (urle attrFilter = attrFilter) then attrFilter else [] in
      let rowsFor args := let? rows := queryPrefix (ix_s x) keyPermanodeClaim args in
                          appendClaimRows x signerFilter attrFilter mustHave rows.1 dst in
      if Valid signerFilter then
        match KeyId x signerFilter with
        | Ok keyId => rowsFor [ARef permaNode; AStr keyId]
        | Err e => if decide (e = ErrNotFound) then Ok [] else Err e
        | Panic p => Panic p
        | Blocked => Blocked
        end
      else rowsFor [ARef permaNode]
  end.

(** [strconv.ParseUint(s, 10, 32)]; [ParseUintBytes] is a copy of it. *)
Definition ParseUint32 (s : gostr) : res Z :=
  match ParseUintBytes s 10 32 with (n, None) => Ok n | (_, Some e) => Err e end.

Definition GetBlobMeta (x : index) (br : Ref) : res BlobMeta :=
  match ix_corpus x with
  | Some c => GetBlobMetaLocked c br
  | None =>
      match kv_get (gs "meta:" ++ RefString br) (ix_s x) with
      | Ok meta =>
          match index_byte pipe meta with
          | None => Panic "Bogus index row for key %q: got value %q"
          | Some pos =>
              let? size := ParseUint32 (take pos meta) in
              Ok (MkMeta br size (camliTypeFromMIME (drop (Datatypes.S pos) meta)))
          end
      | Err e => Err (if decide (e = ErrNotFound) then ErrNotExist else e)
      | Panic p => Panic p
      | Blocked => Blocked
      end
  end.

(** The first permanode with the value that is not deleted. *)
Fixpoint firstPermanode (x : index) (rows : list (gostr * gostr)) : res Ref :=
  match rows with
  | [] => Err ErrNotExist
  | (_, v) :: rows =>
      match blobParse v with
      | None => firstPermanode x rows
      | Some permaRef => let? deleted := IsDeleted x permaRef in if deleted then firstPermanode x rows else Ok permaRef
      end
  end.

Definition PermanodeOfSignerAttrValue (x : index) (signer : Ref) (attr val : gostr) : res Ref :=
  match KeyId x signer with
  | Ok keyId =>
      let? rows := queryPrefix (ix_s x) keySignerAttrValue [AStr keyId; AStr attr; AStr val] in
      closing rows.2 (firstPermanode x rows.1)
  | Err e => Err (if decide (e = ErrNotFound) then ErrNotExist else e)
  | Panic p => Panic p
  | Blocked => Blocked
  end.

Fixpoint withAttrLoop (x : index) (maxResults : Z) (rows : list (gostr * gostr)) (seen : gset gostr) (dest : list Ref) : sending Ref :=
  match rows with
  | [] => (dest, Ok tt)
  | (k, v) :: rows =>
      match kvSignerAttrValue k v with
      | Ok (Some cl) =>
          match eitherDeleted x (cl_BlobRef cl) (cl_Permanode cl) with
          | Ok true => withAttrLoop x maxResults rows seen dest
          | Ok false =>
              let pnstr := RefString (cl_Permanode cl) in
              if decide (pnstr ∈ seen) then withAttrLoop x maxResults rows seen dest
              else
                let seen := {[pnstr]} ∪ seen in
                if Z.of_nat (size seen) =? maxResults then (dest ++ [cl_Permanode cl], Ok tt)
                else withAttrLoop x maxResults rows seen (dest ++ [cl_Permanode cl])
          | r => (dest, sendingErr r)
          end
      | Ok None => withAttrLoop x maxResults rows seen dest
      | r => (dest, sendingErr r)
      end
  end.

Definition SearchPermanodesWithAttr (x : index) (request : PermanodeByAttrRequest) : sending Ref :=
  if rq_FuzzyMatch request then
    ([], Err (ErrMsg "TODO: SearchPermanodesWithAttr: generic indexer doesn't support FuzzyMatch on PermanodeByAttrRequest"))
  else if bool_decide (rq_Attribute request = []) then ([], Err (ErrMsg "index: missing Attribute in SearchPermanodesWithAttr"))
  else
    match KeyId x (rq_Signer request) with
    | Err e => ([], if decide (e = ErrNotFound) then Ok tt else Err e)
    | Ok keyId =>
        let args := if bool_decide (rq_Query request = []) then [AStr keyId; AStr (rq_Attribute request)]
                    else [AStr keyId; AStr (rq_Attribute request); AStr (rq_Query request)] in
        match queryPrefix (ix_s x) keySignerAttrValue args with
        | Ok (rows, cerr) => let '(dest, r) := withAttrLoop x (rq_MaxResults request) rows ∅ [] in (dest, closing cerr r)
        | r => ([], sendingErr r)
        end
    | r => ([], sendingErr r)
    end.

Fixpoint backwardLoop (x : index) (rows : list (gostr * gostr)) (mostRecent : gmap gostr Path) (maxClaimDates : gmap gostr gotime) : res (gmap gostr Path) :=
  match rows with
  | [] => Ok mostRecent
  | (k, v) :: rows =>
      match kvPathBackward k v with
      | None => backwardLoop x rows mostRecent maxClaimDates
      | Some (p, active) =>
          let? deleted := eitherDeleted x (p_Claim p) (p_Base p) in
          let key := RefString (p_Base p) ++ gs "/" ++ p_Suffix p in
          if deleted then backwardLoop x rows mostRecent maxClaimDates
          else if default 0 (maxClaimDates !! key) <? p_ClaimDate p then
            backwardLoop x rows (if active : bool then <[key := p]> mostRecent else delete key mostRecent)
              (<[key := p_ClaimDate p]> maxClaimDates)
          else backwardLoop x rows mostRecent maxClaimDates
      end
  end.

(** What a query of paths does with the signer: unknown ones have none. *)
Definition ofSigner {A} (x : index) (signer : Ref) (none : A) (k : gostr -> res A) : res A :=
  match KeyId x signer with
  | Ok keyId => k keyId
  | Err e => if decide (e = ErrNotFound) then Ok none else Err e
  | Panic p => Panic p
  | Blocked => Blocked
  end.

Definition PathsOfSignerTarget (x : index) (signer target : Ref) : res (list Path) :=
  ofSigner x signer [] (fun keyId =>
    let? rows := queryPrefix (ix_s x) keyPathBackward [AStr keyId; ARef target] in
    closing rows.2 (let? mostRecent := backwardLoop x rows.1 ∅ ∅ in Ok (arrange (map_to_list mostRecent).*2))).

Fixpoint forwardLoop (x : index) (rows : list (gostr * gostr)) (paths : list Path) : res (list Path) :=
  match rows with
  | [] => Ok paths
  | (k, v) :: rows =>
      let? p := kvPathForward k v in
      match p with
      | None => forwardLoop x rows paths
      | Some (p, _) =>
          let? deleted := eitherDeleted x (p_Claim p) (p_Target p) in
          forwardLoop x rows (if deleted : bool then paths else paths ++ [p])
      end
  end.

Definition PathsLookup (x : index) (signer base : Ref) (suffix : gostr) : res (list Path) :=
  ofSigner x signer [] (fun keyId =>
    let? rows := queryPrefix (ix_s x) keyPathForward [AStr keyId; ARef base; AStr suffix] in
    closing rows.2 (forwardLoop x rows.1 [])).

(** The loop of [PathLookup]: the date in seconds of the newest path so far,
    and the path. *)
Definition newestStep (atSeconds : Z) (acc : Z * option Path) (path : Path) : Z * option Path :=
  let secs := Unix (p_ClaimDate path) in
  if negb (atSeconds =? 0) && (atSeconds <? secs) then acc
  else if secs <? acc.1 then acc
  else (secs, Some path).

Definition PathLookup (x : index) (signer base : Ref) (suffix : gostr) (at_ : gotime) : res Path :=
  let? paths := PathsLookup x signer base suffix in
  let atSeconds := if at_ =? 0 then 0 else Unix at_ in
  match (foldl (newestStep atSeconds) (0, None) paths).2 with
  | None => Err ErrNotExist
  | Some best => Ok best
  end.

Definition existingOf (p : gostr * gostr) : option Ref :=
  match tail (splitOn pipe p.1) with _ :: r :: _ => blobParse r | _ => None end.

Definition ExistingFileSchemas (x : index) (wholeRef : Ref) : res (list Ref) :=
  let? rows := queryPrefix (ix_s x) keyWholeToFileRef [ARef wholeRef] in
  closing rows.2 (Ok (omap existingOf rows.1)).

(** The value that [loadKey] leaves: empty with an error. *)
Definition loadedValue (r : res gostr) : gostr := match r with Ok v => v | _ => [] end.

(** [GetFileInfo]; the two rows are read by two goroutines. *)
Definition GetFileInfo (x : index) (fileRef : Ref) : res FileInfo :=
  match ix_corpus x with
  | Some c => GetFileInfoLocked c fileRef
  | None =>
      let tv := loadedValue (kv_get (gs "filetimes|" ++ RefString fileRef) (ix_s x)) in
      match kv_get (gs "fileinfo|" ++ RefString fileRef) (ix_s x) with
      | Ok iv =>
          match splitOn pipe iv with
          | size :: name :: mime :: _ =>
              match ParseInt10 size with
              | None => Err ErrNotExist
              | Some size =>
                  let fi := MkFileInfo (urld name) size (urld mime) None None in
                  Ok (match tv with [] => fi | _ => updateFileInfoTimes fi (splitOn ","%char (urld tv)) end)
              end
          | _ => Err ErrNotExist
          end
      | Err e => Err (if decide (e = ErrNotFound) then ErrNotExist else e)
      | Panic p => Panic p
      | Blocked => Blocked
      end
  end.

Definition GetImageInfo (x : index) (fileRef : Ref) : res ImageInfo :=
  match ix_corpus x with
  | Some c => GetImageInfoLocked c fileRef
  | None =>
      let? key := Key keyImageSize [AStr (RefString fileRef)] in
      match kv_get key (ix_s x) with
      | Ok v => match kvImageInfo v with Some ii => Ok ii | None => Err (ErrMsg "index: bogus key %q = %q") end
      | Err e => Err (if decide (e = ErrNotFound) then ErrNotExist else e)
      | Panic p => Panic p
      | Blocked => Blocked
      end
  end.

(** [GetMediaTags]; without a corpus, [tags] is a nil map. *)
Definition GetMediaTags (x : index) (fileRef : Ref) : res (gmap gostr gostr) :=
  match ix_corpus x with
  | Some c => GetMediaTagsLocked c fileRef
  | None =>
      let? rows := queryPrefix (ix_s x) keyMediaTag [AStr (RefString fileRef)] in
      match rows.1 with
      | [] => closing rows.2 (Ok ∅)
      | _ => Panic "assignment to entry in nil map"
      end
  end.

Fixpoint edgesLoop (x : index) (ref : Ref) (rows : list (gostr * gostr)) (parents : gmap gostr Edge) (edges : list Edge) :
    res (gmap gostr Edge * list Edge) :=
  match rows with
  | [] => Ok (parents, edges)
  | (k, v) :: rows =>
      match kvEdgeBackward k v with
      | None => edgesLoop x ref rows parents edges
      | Some edge =>
          let? deleted := eitherDeleted x (e_From edge) (e_BlobRef edge) in
          let edge := MkEdge (e_From edge) (e_FromType edge) (e_FromTitle edge) ref (e_BlobRef edge) in
          if deleted then edgesLoop x ref rows parents edges
          else if decide (e_FromType edge = gs "permanode") then edgesLoop x ref rows (<[RefString (e_From edge) := edge]> parents) edges
          else edgesLoop x ref rows parents (edges ++ [edge])
      end
  end.

Definition EdgesTo (x : index) (ref : Ref) : res (list Edge) :=
  let? rows := queryPrefix (ix_s x) keyEdgeBackward [ARef ref] in
  closing rows.2 (let? pe := edgesLoop x ref rows.1 ∅ [] in Ok (pe.2 ++ arrange (map_to_list pe.1).*2)).

Fixpoint dirLoop (limit : Z) (rows : list (gostr * gostr)) (dest : list Ref) : sending Ref :=
  match rows with
  | [] => (dest, Ok tt)
  | (k, _) :: rows =>
      match splitOn pipe k with
      | [_; _; c] =>
          match blobParse c with
          | None => dirLoop limit rows dest
          | Some child =>
              let dest := dest ++ [child] in
              if Z.of_nat (length dest) =? limit then (dest, Ok tt) else dirLoop limit rows dest
          end
      | _ => (dest, Err (ErrMsg "index: bogus key keyStaticDirChild = %q"))
      end
  end.

Definition GetDirMembers (x : index) (dir : Ref) (limit : Z) : sending Ref :=
  match queryPrefix (ix_s x) keyStaticDirChild [AStr (RefString dir)] with
  | Ok (rows, cerr) => let '(dest, r) := dirLoop limit rows [] in (dest, closing cerr r)
  | r => ([], sendingErr r)
  end.

(** [kvBlobMeta] is [kvBlobMeta_bytes] on strings. *)
Definition kvBlobMeta := kvBlobMeta_bytes.

(** [enumerateBlobMeta]; the callback threads [A]. *)
Fixpoint metaLoop {A} (cb : A -> BlobMeta -> A * res unit) (rows : list (gostr * gostr)) (acc : A) : A * res unit :=
  match rows with
  | [] => (acc, Ok tt)
  | (k, v) :: rows =>
      match kvBlobMeta k v with
      | Ok None => metaLoop cb rows acc
      | Ok (Some bm) => match cb acc bm with (acc, Ok _) => metaLoop cb rows acc | (acc, r) => (acc, r) end
      | r => (acc, sendingErr r)
      end
  end.

Definition enumerateBlobMeta {A} (s : K) (cb : A -> BlobMeta -> A * res unit) (acc : A) : A * res unit :=
  match queryPrefixString s (gs "meta:") with
  | Ok (rows, cerr) => let '(acc, r) := metaLoop cb rows acc in (acc, closing cerr r)
  | r => (acc, sendingErr r)
  end.

(** [enumerateSignerKeyId] *)
Definition signerOf (p : gostr * gostr) : option (Ref * gostr) :=
  (fun br => (br, p.2)) <$> blobParse (if isPrefixB (gs "signerkeyid:") p.1 then drop 12 p.1 else p.1).
Definition enumerateSignerKeyId (s : K) : sending (Ref * gostr) :=
  match queryPrefixString s (gs "signerkeyid:") with
  | Ok (rows, cerr) => (omap signerOf rows, closing cerr (Ok tt))
  | r => ([], sendingErr r)
  end.

Definition EnumerateBlobMeta (x : index) (c : ctx) : sending BlobMeta :=
  match ix_corpus x with
  | Some cp => EnumerateBlobMetaLocked arrange cp c
  | None =>
      enumerateBlobMeta (ix_s x) (fun sent bm =>
        if bool_decide (c = Some (length sent)) then (sent, Err ErrCanceled) else (sent ++ [bm], Ok tt)) []
  end.

(** * Starting *)

Definition newDeletionCache : gmap Ref (list deletion) := ∅.

(** A deletion recorded in the cache, newest first. *)
Definition addDeletion (dels : gmap Ref (list deletion)) (target : Ref) (d : deletion) : gmap Ref (list deletion) :=
  <[target := byNewest (@sortBy) (default [] (dels !! target) ++ [d])]> dels.

Fixpoint deletesRows (rows : list (gostr * gostr)) (dels : gmap Ref (list deletion)) : gmap Ref (list deletion) * res unit :=
  match rows with
  | [] => (dels, Ok tt)
  | (k, _) :: rows =>
      match kvDeleted k with
      | Ok (Some cl) => deletesRows rows (addDeletion dels (cl_Target cl) (MkDeletion (cl_BlobRef cl) (cl_Date cl)))
      | Ok None => (dels, Err (ErrMsg "Bogus keyDeleted entry key"))
      | r => (dels, sendingErr r)
      end
  end.

Definition initDeletesCache (x : index) : index * res unit :=
  match queryPrefix (ix_s x) keyDeleted [] with
  | Ok (rows, cerr) =>
      let '(dels, r) := deletesRows rows newDeletionCache in
      (setDeletesCache x (Some dels), closing cerr r)
  | r => (setDeletesCache x (Some newDeletionCache), sendingErr r)
  end.

Definition noteNeededMemory (x : index) (have missing : Ref) : index :=
  setNeeds x (<[have := default [] (needs x !! have) ++ [missing]]> (needs x))
    (<[missing := default [] (neededBy x !! missing) ++ [have]]> (neededBy x)) (readyReindex x) (tickleOoo x).

Definition noteNeeded (x : index) (have missing : Ref) : index * res unit :=
  match Key keyMissing [ARef have; ARef missing] with
  | Ok key =>
      match kv_set key (gs "1") (ix_s x) with
      | (None, s) => (noteNeededMemory (setStore x s) have missing, Ok tt)
      | (Some e, s) => (setStore x s, Err e)
      end
  | r => (x, sendingErr r)
  end.

(** The two references of a "missing" row. *)
Definition missingPair (key : gostr) : res (Ref * Ref) :=
  let? part := sliceFrom (length (gs "missing|")) key in
  match index_byte pipe part with
  | None => Err (ErrMsg "Bogus missing key %q")
  | Some i =>
      let? have := ParseBytes (take i part) in
      let? missing := ParseBytes (drop (Datatypes.S i) part) in
      match have, missing with
      | Some have, Some missing => Ok (have, missing)
      | _, _ => Err (ErrMsg "Bogus missing key %q")
      end
  end.

Fixpoint neededRows (rows : list (gostr * gostr)) (x : index) : index * res unit :=
  match rows with
  | [] => (x, Ok tt)
  | (k, _) :: rows =>
      match missingPair k with
      | Ok (have, missing) => neededRows rows (noteNeededMemory x have missing)
      | r => (x, sendingErr r)
      end
  end.

(** [initNeededMaps]; it begins with an empty cache of deletions. *)
Definition initNeededMaps (x : index) : index * res unit :=
  let x := setDeletesCache x (Some newDeletionCache) in
  match queryPrefix (ix_s x) keyMissing [] with
  | Ok (rows, cerr) => let '(x, r) := neededRows rows x in (x, closing cerr r)
  | r => (x, sendingErr r)
  end.

Definition schemaVersion (s : K) : res Z :=
  match kv_get (kt_name keySchemaVersion) s with
  | Ok v => match ParseInt10 v with Some n => Ok n | None => Panic "Bogus index schema version: %q" end
  | Err e => if decide (e = ErrNotFound) then Ok 0 else Panic "Could not get index schema version: %v"
  | Panic p => Panic p
  | Blocked => Blocked
  end.

Definition isEmpty (s : K) : res bool :=
  match kv_find [] [] s with
  | (rows, None) => Ok (match rows with [] => true | _ => false end)
  | (_, Some _) => Panic "error"
  end.

Definition newIndex (s : K) : index := MkIndex s None None ∅ ∅ ∅ false None false.

(** An error is replaced by another that has its text. *)
Definition rewrapped (msg : string) {St A} (m : St * res A) : St * res A :=
  match m with (s, Err _) => (s, Err (ErrMsg msg)) | _ => m end.

(** The caches that [New] fills. *)
Definition initCaches (x : index) : res index :=
  let '(x, r) :=
    let! (x, _) := rewrapped "Could not initialize index's deletes cache: %v" (initDeletesCache x) in
    rewrapped "Could not initialize index's missing blob maps: %v" (initNeededMaps x) in
  let? _ := r in Ok x.

(** [New]; [aboutToReindex] is the variable of the package.  What becomes of
    the store, and the result. *)
Definition New (aboutToReindex : bool) (s : K) : K * res index :=
  if aboutToReindex then (s, Ok (setDeletesCache (newIndex s) (Some newDeletionCache)))
  else
    match schemaVersion s with
    | Ok v =>
        match (if v =? 0 then isEmpty s else Ok false) with
        | Ok true =>
            match kv_set (kt_name keySchemaVersion) (itoa requiredSchemaVersion) s with
            | (None, s) => (s, initCaches (newIndex s))
            | (Some _, s) => (s, Err (ErrMsg "Could not write index schema version %q: %v"))
            end
        | Ok false =>
            if v =? requiredSchemaVersion then (s, initCaches (newIndex s))
            else (s, Err (ErrMsg "index schema version is %d; required one is %d. You need to reindex. %s"))
        | Err e => (s, Err e)
        | Panic p => (s, Panic p)
        | Blocked => (s, Blocked)
        end
    | Err e => (s, Err e)
    | Panic p => (s, Panic p)
    | Blocked => (s, Blocked)
    end.

(** [InitBlobSource]; [disableOoo] is CAMLI_TESTREINDEX_DISABLE_OOO.  The
    loop that it starts notes that it runs. *)
Definition InitBlobSource (disableOoo : bool) (x : index) (bs : S) : res index :=
  match blobSource x with
  | Some _ => Panic "blobSource of Index already set"
  | None =>
      if oooRunning x then Panic "outOfOrderIndexerLoop should never have previously started without a blobSource"
      else
        let x := setSource x (Some bs) in
        Ok (if disableOoo then x else setRunning x true)
  end.

(** A scan that fails leaves the corpus as far as it got. *)
Definition KeepInMemory (x : index) : index * res unit :=
  let '(c, r) := NewCorpusFromStorage (@sortBy) (@arrange) (ix_s x) in
  (setCorpus x (Some c), r).

Definition Close (x : index) : index * res unit :=
  let '(e, s) := kv_close (ix_s x) in (setStore x s, gerrRes e).
End index.
