(* ===== verification/IndexReceive.v ===== *)
(** Indexing blobs: pkg/index/receive.go and sniff.go, and Reindex of
    index.go.

    What the code asks of other people's packages is an argument: OpenPGP
    ([PGP]), EXIF ([EXIF]), image headers, MP3 tags and
    [http.DetectContentType].  A [missTrackFetcher] holds the state of the
    index's blob source while a blob is indexed.  [io.Copy] reads in one
    piece; a second reading of a file reads it whole again. *)

From S2P Require Import Prelude Ref Strutil SortedKV Sha1 Storage Receive Times Json Runes Schema FileReader IndexKeys Corpus CorpusRows Enumerate Jsonsign Claims Dirs Media Index.

(** * Sniffing *)

Record BlobSniffer := MkSniffer {
  sn_br : Ref; sn_header : gostr; sn_written : Z; sn_meta : option Blob; sn_mimeType : gostr; sn_camliType : gostr
}.

Definition NewBlobSniffer (ref : Ref) : res BlobSniffer :=
  if Valid ref then Ok (MkSniffer ref [] 0 None [] []) else Panic "invalid ref".

(** [Write] *)
Definition snWrite (sn : BlobSniffer) (d : gostr) : BlobSniffer :=
  MkSniffer (sn_br sn)
    (if glen (sn_header sn) <? MaxSchemaBlobSize then
       sn_header sn ++ take (Z.to_nat (MaxSchemaBlobSize - glen (sn_header sn))) d
     else sn_header sn)
    (i64 (sn_written sn + glen d)) (sn_meta sn) (sn_mimeType sn) (sn_camliType sn).

Definition IsTruncated (sn : BlobSniffer) : bool := MaxSchemaBlobSize <? sn_written sn.
Definition Body (sn : BlobSniffer) : res gostr :=
  if IsTruncated sn then Err (ErrMsg "index.Body: was truncated") else Ok (sn_header sn).

(** [bufferIsCamliJSON]: the blob that the header is. *)
Definition bufferIsCamliJSON (sn : BlobSniffer) : option Blob :=
  if LikelySchemaBlob (sn_header sn) then
    match BlobFromReader (sn_br sn) (sn_header sn) with Ok b => Some b | _ => None end
  else None.

(** [Parse] *)
Definition snParse (DetectContentType : gostr -> gostr) (sn : BlobSniffer) : BlobSniffer :=
  match bufferIsCamliJSON sn with
  | Some b =>
      let t := ss_Type (b_ss b) in
      MkSniffer (sn_br sn) (sn_header sn) (sn_written sn) (Some b) (gs "application/json; camliType=" ++ t) t
  | None => MkSniffer (sn_br sn) (sn_header sn) (sn_written sn) (sn_meta sn) (MIMEType DetectContentType (sn_header sn)) (sn_camliType sn)
  end.

(** * Mutations *)

Record mutationMap := MkMut { mm_kv : gmap gostr gostr; mm_deletes : list Blob }.

Definition mmSet (mm : mutationMap) (k v : gostr) : mutationMap := MkMut (<[k := v]> (mm_kv mm)) (mm_deletes mm).
Definition noteDelete (mm : mutationMap) (deleteClaim : Blob) : mutationMap := MkMut (mm_kv mm) (mm_deletes mm ++ [deleteClaim]).

(** Rows whose keys and values are built first. *)
Definition mmPut (mm : mutationMap) (row : res gostr * res gostr) : res mutationMap :=
  let? k := row.1 in let? v := row.2 in Ok (mmSet mm k v).
Definition mmPuts (mm : mutationMap) (rows : list (res gostr * res gostr)) : res mutationMap := rfold mmPut rows mm.

(** A row of references that are needed, or of a reference and others. *)
Definition blobsFilteringOut (v : list Ref) (x : Ref) : list Ref := filter (fun vb => vb <> x) v.

Definition errMissingDep : error := ErrMsg "blob was not fully indexed because of a missing dependency".

(** * Fetching what a blob depends on *)

Record missTrackFetcher (S : Type) := MkMiss { mt_src : option S; missing : list Ref }.
Arguments MkMiss {S}.
Arguments mt_src {S}.
Arguments missing {S}.

Section fetcher.
Context {S : Type} `{!Fetcher S}.

(** The fetcher under it, which is nil without a blob source. *)
Definition srcFetch (mt : missTrackFetcher S) (br : Ref) : missTrackFetcher S * res (gostr * Z) :=
  match mt_src mt with
  | None => (mt, Panic "nil pointer dereference")
  | Some s => let '(s, r) := st_Fetch s br in (MkMiss (Some s) (missing mt), r)
  end.

Definition mtFetch (mt : missTrackFetcher S) (br : Ref) : missTrackFetcher S * res (gostr * Z) :=
  match srcFetch mt br with
  | (mt, Err ErrNotExist) => (MkMiss (mt_src mt) (missing mt ++ [br]), Err errMissingDep)
  | x => x
  end.

#[global] Instance miss_Fetcher : Fetcher (missTrackFetcher S) := { st_Fetch := mtFetch }.

(** [blob.NewSerialFetcher(ix.KeyFetcher, fetcher)] *)
Definition serialFetch (mt : missTrackFetcher S) (br : Ref) : missTrackFetcher S * res (gostr * Z) :=
  match srcFetch mt br with
  | (mt, Err _) => mtFetch mt br
  | x => x
  end.

(** * Reading a file *)

(** [magic.MIMETypeFromReader], then copying the reader that it returns: the
    first bytes, and all of them with how the reading ended. *)
Definition readFile (depth : nat) (r : frRoot (missTrackFetcher S)) (fr : FileReader) :
    frRoot (missTrackFetcher S) * res (gostr * reader) :=
  let! (r, x) := readSection depth r fr 1024 0 in
  let hdr := x.1 in
  let! (r, y) := readSection depth r fr (fr_size fr) (glen hdr) in
  let '(rest, e) := y in
  (r, Ok (hdr, (hdr ++ rest, match e with None => Ok tt | Some e => if decide (e = ErrEOF) then Ok tt else Err e end))).

(** A second [NewFileReader], and a user that reads it to the end. *)
Definition reread (depth : nat) (mt : missTrackFetcher S) (ss : superset) : missTrackFetcher S * res reader :=
  let! (mt, fr) := (mt, ssNewFileReader ss) in
  let '(r, x) := readFile depth (MkRoot mt None ∅) fr in
  (fr_fetcher r, let? x := x in Ok x.2).
End fetcher.

(** * EXIF, image headers and MP3 tags *)

Inductive tiffFormat := IntVal | RatVal | FloatVal | StringVal | OtherVal.

(** The package goexif: what decoding gives, even with an error; the fields in
    the order of a walk, and whether the walk panics after them; floating-point
    values as Go prints them. *)
Class EXIF := {
  exif : Type;
  tag : Type;
  exifDecode : reader -> exif * gerr;
  IsCriticalError : error -> bool;
  IsGPSError : error -> bool;
  IsTagNotPresentError : error -> bool;
  walk : exif -> list tag * bool;
  tagId : tag -> Z;
  tagFormat : tag -> tiffFormat;
  tagCount : tag -> Z;
  tagStringVal : tag -> res gostr;
  tagInt : tag -> Z -> res Z;
  tagRat2 : tag -> Z -> res (Z * Z);
  tagFloat : tag -> Z -> res gostr;
  LatLong : exif -> res (gostr * gostr)
}.

Definition tagFormatString (f : tiffFormat) : gostr :=
  match f with IntVal => gs "int" | RatVal => gs "rat" | FloatVal => gs "float" | StringVal => gs "string" | OtherVal => [] end.

(** [fmt.Sprintf("%04x", id)] of an id of 16 bits. *)
Definition hex4 (id : Z) : gostr :=
  let digit z := zb (if z <? 10 then 48 + z else 87 + z) in
  [digit (id / 4096 mod 16); digit (id / 256 mod 16); digit (id / 16 mod 16); digit (id mod 16)].

Section exif.
Context `{EXIF}.

Definition tagText (tg : tag) (i : Z) : res gostr :=
  match tagFormat tg with
  | IntVal => let? v := tagInt tg i in Ok (itoa v)
  | RatVal => let? v := tagRat2 tg i in Ok (itoa v.1 ++ gs "/" ++ itoa v.2)
  | FloatVal => tagFloat tg i
  | _ => Panic "shouldn't get here"
  end.

Fixpoint tagTexts (fuel : nat) (tg : tag) (i : Z) : res gostr :=
  match fuel with
  | O => Ok []
  | S fuel =>
      let? t := tagText tg i in
      let? rest := tagTexts fuel tg (i + 1) in
      Ok ((if 0 <? i then [pipe] else []) ++ t ++ rest)
  end.

(** What follows the format and the number of components; an error means that
    the tag has no row. *)
Definition tagVal (tg : tag) : res gostr :=
  match tagFormat tg with
  | StringVal => let? str := tagStringVal tg in Ok (if containsUnsafeRawStrByte str then urle str else str)
  | _ => tagTexts (Z.to_nat (tagCount tg)) tg 0
  end.

(** The function that is called on every field. *)
Definition exifField (wholeRef : Ref) (mm : mutationMap) (tg : tag) : res mutationMap :=
  let tagFmt := tagFormatString (tagFormat tg) in
  if decide (tagFmt = []) then Ok mm
  else
    let? key := Key keyEXIFTag [ARef wholeRef; AStr (hex4 (tagId tg))] in
    let? val := Val keyEXIFTag [AStr tagFmt; AInt (match tagFormat tg with StringVal => 1 | _ => tagCount tg end); AStr []] in
    match tagVal tg with
    | Ok v => Ok (mmSet mm key (val ++ v))
    | Err _ => Ok mm
    | Panic p => Panic p
    | Blocked => Blocked
    end.

Definition errEXIFPanic : error := ErrMsg "EXIF library panicked while walking fields".

(** A walk; a panic is recovered and keeps the rows set before it. *)
Fixpoint walkFields (wholeRef : Ref) (tags : list tag) (panics : bool) (mm : mutationMap) : mutationMap * gerr :=
  match tags with
  | [] => (mm, if panics then Some errEXIFPanic else None)
  | tg :: tags =>
      match exifField wholeRef mm tg with
      | Ok mm => walkFields wholeRef tags panics mm
      | _ => (mm, Some errEXIFPanic)
      end
  end.

Definition indexEXIF (wholeRef : Ref) (src : reader) (mm : mutationMap) : mutationMap * gerr :=
  let '(ex, err) := exifDecode src in
  if match err with Some e => IsCriticalError e | None => false end then (mm, err)
  else
    let '(tags, panics) := walk ex in
    match walkFields wholeRef tags panics mm with
    | (mm, Some e) => (mm, Some e)
    | (mm, None) =>
        if match err with Some e => IsGPSError e | None => false end then (mm, None)
        else
          match LatLong ex with
          | Ok (lat, long) =>
              match mmPut mm (Key keyEXIFGPS [ARef wholeRef], Val keyEXIFGPS [AStr lat; AStr long]) with
              | Ok mm => (mm, None)
              | _ => (mm, Some errEXIFPanic)
              end
          | Panic _ => (mm, Some errEXIFPanic)
          | _ => (mm, None)
          end
    end.
End exif.

(** [taglib.GenericTag], with the frame "MusicBrainz Album Id". *)
Record musicTag := MkTag {
  mt_Title : gostr; mt_Artist : gostr; mt_Album : gostr; mt_Genre : gostr; mt_AlbumId : gostr;
  mt_Year : gotime; mt_Track : Z; mt_Disc : Z; mt_TagSize : Z
}.

Definition yearText (t : gotime) : gostr := formatYear (yearOf (t / nsPerDay)).1.

(** [n] bytes from [off] on, as a section reader gives them. *)
Definition section (d : gostr) (off n : Z) : gostr := take (Z.to_nat n) (drop (Z.to_nat off) d).

(** [indexMusic], on a file that could be read again. *)
Definition indexMusic (taglibDecode : gostr -> Z -> res musicTag) (r : gostr) (wholeRef : Ref) (mm : mutationMap) : res mutationMap :=
  match taglibDecode r (glen r) with
  | Ok tg =>
      let footerLength := if HasID3v1Tag r then ID3v1TagLength else 0 in
      let audioStart := mt_TagSize tg in
      let audio := section r audioStart (glen r - audioStart - footerLength) in
      let? mediaRef := RefFromString audio in
      let duration := match GetMPEGAudioDuration audio with Ok d => d | _ => 0 end in
      let num z := if z =? 0 then [] else itoa z in
      let tags := [
        (gs "title", mt_Title tg); (gs "artist", mt_Artist tg); (gs "album", mt_Album tg); (gs "genre", mt_Genre tg);
        (gs "musicbrainzalbumid", mt_AlbumId tg); (gs "year", if mt_Year tg =? 0 then [] else yearText (mt_Year tg));
        (gs "track", num (mt_Track tg)); (gs "disc", num (mt_Disc tg)); (gs "mediaref", RefString mediaRef);
        (gs "durationms", if duration =? 0 then [] else itoa (Z.quot duration 1000000))] in
      mmPuts mm (map (fun p => (Key keyMediaTag [ARef wholeRef; AStr p.1], Val keyMediaTag [AStr p.2]))
                     (filter (fun p => p.2 <> []) tags))
  | Err _ => Ok mm
  | Panic p => Panic p
  | Blocked => Blocked
  end.

(** * What a blob says *)

Definition IsIndexedAttribute (attr : gostr) : bool :=
  bool_decide (attr ∈ [gs "camliRoot"; gs "camliImportRoot"; gs "tag"; gs "title"]).
Definition IsBlobReferenceAttribute (attr : gostr) : bool := bool_decide (attr = gs "camliMember").
Definition IsFulltextAttribute (attr : gostr) : bool := bool_decide (attr ∈ [gs "tag"; gs "title"]).

Section populate.
Context {K S : Type} `{!KV K, !Storage S} `{PGP, EXIF}.
Context (sortBy : forall A, (A -> gotime) -> list A -> list A).
Context (arrange : forall A, list A -> list A).
Context (DetectContentType : gostr -> gostr).
(** [images.DecodeConfig]: width and height; [schema.FileTime] of bytes. *)
Context (DecodeConfig : reader -> res (Z * Z)) (FileTime : gostr -> res gotime).
Context (taglibDecode : gostr -> Z -> res musicTag).
(** How deep files nest "bytes" blobs. *)
Context (depth : nat).
Arguments sortBy {A}.
Arguments arrange {A}.
Abbreviation index := (Index K S).
Abbreviation fetcher := (missTrackFetcher S).

(** ** Files *)

(** A result that may come from a second reading of the file [ss]. *)
Definition orReread {A : Type} (mt : fetcher) (ss : superset) (again : bool) (r : A) (k : reader -> A) (failed : error -> A) : fetcher * res A :=
  if again then
    match reread depth mt ss with
    | (mt, Err e) => (mt, Ok (failed e))
    | (mt, src) => (mt, let? src := src in Ok (k src))
    end
  else (mt, Ok r).

(** The rows of an image: its size, its creation time if EXIF has one, its
    EXIF fields. *)
Definition populateImage (mt : fetcher) (b : Blob) (wholeRef : Ref) (buf : gostr) (mm : mutationMap) :
    fetcher * res (mutationMap * list gotime) :=
  let conf := DecodeConfig (buf, Ok tt) in
  let! (mt, conf) := orReread mt (b_ss b) (bool_decide (conf = Err ErrUnexpectedEOF)) conf DecodeConfig Err in
  let! (mt, mm) := (mt, match conf with
                        | Ok (w, h) => mmPut mm (Key keyImageSize [ARef (b_br b)], Val keyImageSize [AStr (itoa w); AStr (itoa h)])
                        | Err _ => Ok mm
                        | Panic p => Panic p
                        | Blocked => Blocked
                        end) in
  let times := match FileTime buf with Ok ft => [ft] | _ => [] end in
  let '(mm, err) := indexEXIF wholeRef (buf, Ok tt) mm in
  let! (mt, x) := orReread mt (b_ss b) (bool_decide (err = Some ErrEOF)) (mm, err)
                    (fun src => indexEXIF wholeRef src mm) (fun e => (mm, Some e)) in
  (mt, Ok (x.1, times)).

(** The oldest and the newest of the times that are not zero. *)
Definition timesText (times : list gotime) : gostr :=
  match sortBy (fun t => t) (filter (fun t => t <> 0) times) with
  | [] => []
  | [t] => formatTime3339 t
  | t :: ts => formatTime3339 t ++ gs "," ++ formatTime3339 (List.last ts t)
  end.

Definition fileRows (b : Blob) (wholeRef : Ref) (size : Z) (mime times : gostr) : list (res gostr * res gostr) := [
  (Key keyWholeToFileRef [ARef wholeRef; ARef (b_br b)], Ok (gs "1"));
  (Key keyFileInfo [ARef (b_br b)], Val keyFileInfo [AInt size; AStr (FileNameString (b_ss b)); AStr mime]);
  (Key keyFileTimes [ARef (b_br b)], Val keyFileTimes [AStr times])].

Definition populateFile (mt : fetcher) (b : Blob) (mm : mutationMap) : fetcher * res mutationMap :=
  let! (mt, fr) := (mt, ssNewFileReader (b_ss b)) in
  let '(r, x) := readFile depth (MkRoot mt None ∅) fr in
  let! (mt, x) := (fr_fetcher r, x) in
  let '(hdr, src) := x in
  let mime := MIMEType DetectContentType hdr in
  let! (mt, content) := (mt, readAll src) in
  let! (mt, wholeRef) := (mt, RefFromString content) in
  let! (mt, x) := if isPrefixB (gs "image/") mime then populateImage mt b wholeRef (take (512 * 1024) content) mm
                  else (mt, Ok (mm, [])) in
  let '(mm, times) := x in
  let! (mt, mm) := (mt, mmPuts mm (fileRows b wholeRef (glen content) mime (timesText (ssModTime (b_ss b) :: times)))) in
  if isPrefixB (gs "audio/") mime then
    match reread depth mt (b_ss b) with
    | (mt, Ok (d, Ok _)) => (mt, indexMusic taglibDecode d wholeRef mm)
    | (mt, Panic p) => (mt, Panic p)
    | (mt, Blocked) => (mt, Blocked)
    | (mt, _) => (mt, Ok mm)
    end
  else (mt, Ok mm).

(** ** Directories *)

(** [populateDir]; errors are logged only. *)
Definition populateDir (mt : fetcher) (b : Blob) (mm : mutationMap) : fetcher * res mutationMap :=
  match ssNewDirReader (b_ss b) with
  | Ok dr =>
      match StaticSet mt dr with
      | (mt, _, Ok sts) =>
          (mt, mmPuts mm ((Key keyFileInfo [ARef (b_br b)],
                           Val keyFileInfo [AInt (Z.of_nat (length sts)); AStr (FileNameString (b_ss b)); AStr []]) ::
                          map (fun br => (Key keyStaticDirChild [ARef (b_br b); AStr (RefString br)], Ok (gs "1"))) sts))
      | (mt, _, Err _) => (mt, Ok mm)
      | (mt, _, Panic p) => (mt, Panic p)
      | (mt, _, Blocked) => (mt, Blocked)
      end
  | _ => (mt, Ok mm)
  end.

(** ** Claims *)

(** The key that verifying [vr] asks for, if it gets that far. *)
Definition keyWanted (vr : VerifyRequest) : option Ref :=
  match vr_Err vr with
  | Some _ => None
  | None => let '(vr, ok) := andThen (ParseSigMap vr) ParsePayloadMap in if ok then Some (vr_CamliSigner vr) else None
  end.

(** [Verify] with the state of the fetcher. *)
Definition verifyWith (mt : fetcher) (vr : VerifyRequest) : fetcher * res (VerifyRequest * bool) :=
  match keyWanted vr with
  | None => (mt, Ok (Verify (fun _ => Err ErrNotExist) vr))
  | Some br =>
      match serialFetch mt br with
      | (mt, Panic p) => (mt, Panic p)
      | (mt, Blocked) => (mt, Blocked)
      | (mt, r) => (mt, Ok (Verify (fun _ => let? x := r in Ok x.1) vr))
      end
  end.

(** The rows of a claim on the permanode [pn], which its deletion has too. *)
Definition claimRows (claim : Blob) (vr : VerifyRequest) (pn : Ref) : list (res gostr * res gostr) := [
  (Key keyRecentPermanode [AStr (vr_SignerKeyId vr); AStr (ClaimDateString claim); ARef (b_br claim)], Ok (RefString pn));
  (Key keyPermanodeClaim [ARef pn; AStr (vr_SignerKeyId vr); AStr (ClaimDateString claim); ARef (b_br claim)],
   Val keyPermanodeClaim [AStr (ClaimType claim); AStr (Attribute claim); AStr (Value claim); ARef (vr_CamliSigner vr)])].

(** The rows that depend on the attribute. *)
Definition pathRows (claim : Blob) (keyId : gostr) (pn : Ref) : list (res gostr * res gostr) :=
  if isPrefixB (gs "camliPath:") (Attribute claim) then
    match blobParse (Value claim) with
    | None => []
    | Some targetRef =>
        let suffix := drop (length (gs "camliPath:")) (Attribute claim) in
        let active := if bool_decide (ClaimType claim = DelAttributeClaim) then gs "N" else gs "Y" in
        [(Key keyPathBackward [AStr keyId; ARef targetRef; ARef (b_br claim)],
          Val keyPathBackward [AStr (ClaimDateString claim); ARef pn; AStr active; AStr suffix]);
         (Key keyPathForward [AStr keyId; ARef pn; AStr suffix; AStr (ClaimDateString claim); ARef (b_br claim)],
          Val keyPathForward [AStr active; ARef targetRef])]
    end
  else [].

Definition attrRows (claim : Blob) (keyId : gostr) (pn : Ref) : list (res gostr * res gostr) :=
  (if negb (bool_decide (ClaimType claim = DelAttributeClaim)) && IsIndexedAttribute (Attribute claim) then
     [(Key keySignerAttrValue [AStr keyId; AStr (Attribute claim); AStr (Value claim); AStr (ClaimDateString claim); ARef (b_br claim)],
       Val keySignerAttrValue [ARef pn])]
   else []) ++
  (if IsBlobReferenceAttribute (Attribute claim) then
     match blobParse (Value claim) with
     | Some targetRef =>
         [(Key keyEdgeBackward [ARef targetRef; ARef pn; ARef (b_br claim)], Val keyEdgeBackward [AStr (gs "permanode"); AStr []])]
     | None => []
     end
   else []).

(** [populateDeleteClaim]: the index, which may note a need, the rows, and
    the error. *)
Definition populateDeleteClaim (x : index) (cl : Blob) (vr : VerifyRequest) (mm : mutationMap) : index * mutationMap * res unit :=
  let target := Target cl in
  if negb (Valid target) then (x, mm, Ok tt)
  else
    match GetBlobMeta x target with
    | Err e =>
        if decide (e = ErrNotExist) then
          match noteNeeded x (b_br cl) target with
          | (x, Ok _) => (x, mm, Err errMissingDep)
          | (x, Err _) => (x, mm, Err (ErrMsg "could not note that delete claim %v depends on %v: %v"))
          | (x, r) => (x, mm, r)
          end
        else (x, mm, Ok tt)
    | Ok meta =>
        if bool_decide (bm_CamliType meta = gs "permanode") || bool_decide (bm_CamliType meta = gs "claim") then
          let rows := (Key keyDeleted [ARef target; AStr (ClaimDateString cl); ARef (b_br cl)], Ok []) ::
                      (if decide (bm_CamliType meta = gs "claim") then [] else claimRows cl vr target) in
          match mmPuts mm rows with
          | Ok mm => (x, mm, Ok tt)
          | r => (x, mm, sendingErr r)
          end
        else (x, mm, Ok tt)
    | r => (x, mm, sendingErr r)
    end.

Definition populateClaim (x : index) (mt : fetcher) (b : Blob) (mm : mutationMap) : index * fetcher * mutationMap * res unit :=
  match AsClaim b with
  | None => (x, mt, mm, Ok tt)
  | Some claim =>
      match verifyWith mt (NewVerificationRequest (b_str b)) with
      | (mt, Ok (vr, true)) =>
          let mm := mmSet mm (gs "signerkeyid:" ++ RefString (vr_CamliSigner vr)) (vr_SignerKeyId vr) in
          if decide (ClaimType claim = DeleteClaim) then
            match populateDeleteClaim x claim vr mm with
            | (x, mm, Ok _) => (x, mt, noteDelete mm claim, Ok tt)
            | (x, mm, r) => (x, mt, mm, r)
            end
          else
            let pnbr := ModifiedPermanode claim in
            if negb (Valid pnbr) then (x, mt, mm, Ok tt)
            else
              match mmPuts mm (claimRows claim vr pnbr ++ pathRows claim (vr_SignerKeyId vr) pnbr ++ attrRows claim (vr_SignerKeyId vr) pnbr) with
              | Ok mm => (x, mt, mm, Ok tt)
              | r => (x, mt, mm, sendingErr r)
              end
      | (mt, Ok (vr, false)) => (x, mt, mm, Err (default (ErrMsg "index: populateClaim verification failure") (vr_Err vr)))
      | (mt, r) => (x, mt, mm, sendingErr r)
      end
  end.

(** By the type of the schema blob, if it is one. *)
Definition populateBlob (x : index) (mt : fetcher) (sn : BlobSniffer) (mm : mutationMap) : index * fetcher * mutationMap * res unit :=
  match sn_meta sn with
  | None => (x, mt, mm, Ok tt)
  | Some b =>
      let pure (p : fetcher * res mutationMap) :=
        match p with
        | (mt, Ok mm) => (x, mt, mm, Ok tt)
        | (mt, r) => (x, mt, mm, sendingErr r)
        end in
      if decide (ss_Type (b_ss b) = gs "claim") then populateClaim x mt b mm
      else if decide (ss_Type (b_ss b) = gs "file") then pure (populateFile mt b mm)
      else if decide (ss_Type (b_ss b) = gs "directory") then pure (populateDir mt b mm)
      else (x, mt, mm, Ok tt)
  end.

(** [populateMutationMap].  An index miss, which no fetch has missed, passes
    for success: it has been noted already. *)
Definition populateMutationMap (x : index) (mt : fetcher) (br : Ref) (sn : BlobSniffer) : index * fetcher * mutationMap * res unit :=
  let size := itoa (sn_written sn) in
  let mm := MkMut {[gs "meta:" ++ RefString br := size ++ [pipe] ++ sn_mimeType sn]} [] in
  let '(x, mt, mm, r) := populateBlob x mt sn mm in
  let have val := mmSet mm (gs "have:" ++ RefString br) val in
  match r with
  | Ok _ => (x, mt, have (size ++ gs "|indexed"), Ok tt)
  | Err e =>
      if decide (e = errMissingDep) then
        (x, mt, have size, match missing mt with [] => Ok tt | _ => Err errMissingDep end)
      else (x, mt, mm, Err e)
  | r => (x, mt, mm, r)
  end.

(** * Receiving *)

(** [noteBlobIndexed]: the blobs that need [br] need it no more; those that
    need nothing are ready, and the loop is tickled. *)
Definition noteNeeder (br : Ref) (x : index) (needer : Ref) : index :=
  match blobsFilteringOut (default [] (needs x !! needer)) br with
  | [] => setNeeds x (delete needer (needs x)) (neededBy x) ({[needer]} ∪ readyReindex x) true
  | newNeeds => setNeeds x (<[needer := newNeeds]> (needs x)) (neededBy x) (readyReindex x) (tickleOoo x)
  end.
Definition noteBlobIndexed (x : index) (br : Ref) : index :=
  let x := foldl (noteNeeder br) x (default [] (neededBy x !! br)) in
  setNeeds x (needs x) (delete br (neededBy x)) (readyReindex x) (tickleOoo x).

(** [removeAllMissingEdges]; errors are logged only. *)
Definition removeAllMissingEdges (x : index) (br : Ref) : index :=
  match queryPrefix (ix_s x) keyMissing [ARef br] with
  | Ok (rows, _) => setStore x (foldl (fun s p => (kv_delete p.1 s).2) (ix_s x) rows)
  | _ => x
  end.

(** [updateDeletesCache] *)
Definition updateDeletesCache (x : index) (deleteClaim : Blob) : index * res unit :=
  match ix_deletes x with
  | None => (x, Panic "nil pointer dereference")
  | Some dels =>
      let! (x, when) := (x, ClaimDate deleteClaim) in
      (setDeletesCache x (Some (addDeletion (@sortBy) dels (Target deleteClaim) (MkDeletion (b_br deleteClaim) when))), Ok tt)
  end.

Fixpoint updateDeletesAll (x : index) (cls : list Blob) : index * res unit :=
  match cls with
  | [] => (x, Ok tt)
  | cl :: cls =>
      match updateDeletesCache x cl with
      | (x, Ok _) => updateDeletesAll x cls
      | (x, Err _) => (x, Err (ErrMsg "Could not update the deletes cache after deletion from %v: %v"))
      | r => r
      end
  end.

(** [commit]; the batch takes the rows in the order of the map's iteration. *)
Definition commit (x : index) (mm : mutationMap) : index * res unit :=
  match ix_deletes x with
  | None => (x, Panic "nil pointer dereference")
  | Some _ =>
      let bm := foldl (fun bm p => batchSet bm p.1 p.2) NewBatchMutation (arrange (map_to_list (mm_kv mm))) in
      match kv_commit bm (ix_s x) with
      | (Some e, s) => (setStore x s, Err e)
      | (None, s) => updateDeletesAll (setStore x s) (mm_deletes mm)
      end
  end.

(** What the corpus gets of a delete claim. *)
Definition deletionOf (cl : Blob) : deleteClaim := MkDelete (b_br cl) (Target cl) (ss_ClaimDate (b_ss cl)).

(** The needs of a blob whose fetches have missed; whether all are recorded. *)
Fixpoint noteAllNeeded (x : index) (br : Ref) (miss : list Ref) : index * res bool :=
  match miss with
  | [] => (x, Ok true)
  | m :: miss =>
      match noteNeeded x br m with
      | (x, Ok _) => noteAllNeeded x br miss
      | (x, Err _) => let! (x, _) := noteAllNeeded x br miss in (x, Ok false)
      | (x, Panic p) => (x, Panic p)
      | (x, Blocked) => (x, Blocked)
      end
  end.

Definition hasSuffix (s suf : gostr) : bool := (length suf <=? length s)%nat && bool_decide (drop (length s - length suf) s = suf).

(** The body of [ReceiveBlob]: whether dependencies are missing, and the
    result. *)
Definition receiveBody (x : index) (blobRef : Ref) (source : reader) : index * bool * res SizedRef :=
  match NewBlobSniffer blobRef with
  | Ok sniffer =>
      let sniffer := snWrite sniffer source.1 in
      let sb := MkSizedRef blobRef (u32 (glen source.1)) in
      match source.2 with
      | Ok _ =>
          if match kv_get (gs "have:" ++ RefString blobRef) (ix_s x) with Ok v => hasSuffix v (gs "|indexed") | _ => false end
          then (x, false, Ok sb)
          else
            let sniffer := snParse DetectContentType sniffer in
            let '(x, mt, mm, r) := populateMutationMap x (MkMiss (blobSource x) []) blobRef sniffer in
            let x := setSource x (mt_src mt) in
            match r with
            | Ok _ =>
                match commit x mm with
                | (x, Ok _) =>
                    match ix_corpus x with
                    | None => (x, false, Ok sb)
                    | Some c =>
                        let '(c, r) := addBlob (@sortBy) (@arrange) c blobRef (mm_kv mm) (map deletionOf (mm_deletes mm)) in
                        (setCorpus x (Some c), false, let? _ := r in Ok sb)
                    end
                | (x, r) => (x, false, let? _ := r in Ok sb)
                end
            | Err e =>
                if decide (e = errMissingDep) then
                  match noteAllNeeded x blobRef (missing mt) with
                  | (x, Ok true) => (x, true, Ok sb)
                  | (x, Ok false) => (x, true, Err errMissingDep)
                  | (x, r) => (x, true, let? _ := r in Ok sb)
                  end
                else (x, false, Err e)
            | Panic p => (x, false, Panic p)
            | Blocked => (x, false, Blocked)
            end
      | Err e => (x, false, Err e)
      | Panic p => (x, false, Panic p)
      | Blocked => (x, false, Blocked)
      end
  | r => (x, false, let? _ := r in Ok (MkSizedRef blobRef 0))
  end.

(** [ReceiveBlob], with what it has deferred, which runs unless there is an
    error (no error has been assigned when a call panics). *)
Definition finish (x : index) (missingDeps : bool) (br : Ref) : index :=
  let x := noteBlobIndexed x br in if missingDeps then x else removeAllMissingEdges x br.
Definition ReceiveBlob (x : index) (blobRef : Ref) (source : reader) : index * res SizedRef :=
  match receiveBody x blobRef source with
  | (x, missingDeps, Ok sb) => (finish x missingDeps blobRef, Ok sb)
  | (x, missingDeps, Panic p) => (finish x missingDeps blobRef, Panic p)
  | (x, _, r) => (x, r)
  end.

(** The other operations of a storage are those of an embedded nil pointer. *)
Definition index_Fetcher : Fetcher index := {| st_Fetch x _ := (x, Panic "nil pointer dereference") |}.
#[global] Instance index_Storage : Storage index := {|
  st_fetcher := index_Fetcher;
  st_ReceiveBlob := ReceiveBlob;
  st_reads _ br _ := Valid br;
  st_StatBlobs _ _ := ([], Panic "nil pointer dereference");
  st_EnumerateBlobs _ _ _ _ := ([], Panic "nil pointer dereference");
  st_RemoveBlobs x _ := (x, Panic "nil pointer dereference")
|}.

(** * Reindexing *)

Section reindex.
(** The hub of the index and which of its hooks' errors counts. *)
Context (hub : memHub) (firstErr : list error -> error).

Definition indexBlob (x : index) (br : Ref) : index * list (nat * Ref) * res unit :=
  match blobSource x with
  | None => (x, [], Panic "index: can't re-index %v: no blobSource")
  | Some bs =>
      let '(bs, r) := st_Fetch bs br in
      let x := setSource x (Some bs) in
      match r with
      | Ok (d, _) => let '(x, sends, r) := Receive firstErr x hub br (d, Ok tt) in (x, sends, sendingErr r)
      | Err _ => (x, [], Err (ErrMsg "index: failed to fetch %v for reindexing: %v"))
      | Panic p => (x, [], Panic p)
      | Blocked => (x, [], Blocked)
      end
  end.

(** A round of [outOfOrderIndexerLoop] with the blob [br] that the map's
    iteration happened to give. *)
Definition oooRound (x : index) (br : Ref) : index * res unit :=
  let x := setNeeds x (needs x) (neededBy x) (readyReindex x ∖ {[br]}) (tickleOoo x) in
  match indexBlob x br with
  | (x, _, Err _) =>
      (match default [] (needs x !! br) with
       | [] => setNeeds x (needs x) (neededBy x) ({[br]} ∪ readyReindex x) (tickleOoo x)
       | _ => x
       end, Ok tt)
  | (x, _, r) => (x, r)
  end.

(** The loop after a tickle, until nothing is ready; with fuel, for a blob
    that fails is ready at once again. *)
Fixpoint oooLoop (fuel : nat) (x : index) : index * res unit :=
  match fuel with
  | O => (x, Panic "out of fuel")
  | Datatypes.S fuel =>
      match head (arrange (elements (readyReindex x))) with
      | None => (x, Ok tt)
      | Some br => let! (x, _) := oooRound x br in oooLoop fuel x
      end
  end.

(** A tickle that is waiting is received. *)
Definition oooTickled (fuel : nat) (x : index) : index * res unit :=
  if oooRunning x && tickleOoo x then oooLoop fuel (setNeeds x (needs x) (neededBy x) (readyReindex x) false) else (x, Ok tt).

(** The blobs of [Reindex] go to several goroutines: [arrange] is the order
    in which they are indexed. *)
Fixpoint reindexAll (x : index) (brs : list Ref) (nerr : nat) : index * res nat :=
  match brs with
  | [] => (x, Ok nerr)
  | br :: brs =>
      match indexBlob x br with
      | (x, _, Ok _) => reindexAll x brs nerr
      | (x, _, Err _) => reindexAll x brs (Datatypes.S nerr)
      | (x, _, Panic p) => (x, Panic p)
      | (x, _, Blocked) => (x, Blocked)
      end
  end.

(** [Reindex]; [wipe] is the optional method of the store, [reindexStart] what
    CAMLI_REINDEX_START parses to, [fuel] and [sched] those of [EnumerateAll].  All blobs are enumerated before the first
    is indexed, which the goroutines do meanwhile. *)
Definition Reindex (wipe : option (K -> gerr * K)) (reindexStart : Ref) (fuel sched : nat) (x : index) : index * res unit :=
  match wipe with
  | None => (x, Err (ErrMsg "index's storage type %T doesn't support sorted.Wiper"))
  | Some wipe =>
      match wipe (ix_s x) with
      | (Some _, s) => (setStore x s, Err (ErrMsg "error wiping index's sorted key/value type %T: %v"))
      | (None, s) =>
          match kv_set (kt_name keySchemaVersion) (itoa requiredSchemaVersion) s with
          | (Some e, s) => (setStore x s, Err e)
          | (None, s) =>
              let x := setStore x s in
              match blobSource x with
              | None => (x, Panic "nil pointer dereference")
              | Some bs =>
                  let send acc sb :=
                    (if Valid reindexStart && Less (sr_ref sb) reindexStart then acc else acc ++ [sr_ref sb], None) in
                  let '(brs, enumErr) := EnumerateAll send fuel bs (fun _ => None) sched [] in
                  let! (x, nerr) := reindexAll x (arrange brs) 0 in
                  match enumErr with
                  | Ok _ =>
                      if decide (readyReindex x = ∅) then
                        match nerr with
                        | O => initDeletesCache (@sortBy) x
                        | _ => (x, Err (ErrMsg "%d blobs failed to re-index"))
                        end
                      else (x, Err (ErrMsg "%d blobs were ready to reindex in out-of-order queue, but not yet ran"))
                  | r => (x, r)
                  end
              end
          end
      end
  end.
End reindex.
End populate.
