(* ===== verification/IndexLaws.v ===== *)
(** What the index keeps: deletions as the rows say, and the blobs that wait
    for others. *)

From S2P Require Import Prelude Ref Strutil SortedKV Sha1 Storage Receive Times Json Runes Schema FileReader IndexKeys Corpus CorpusRows CorpusSpec Enumerate Jsonsign Claims Dirs Media Index IndexReceive.

(** * Deletions *)

Lemma joinOn_splitOn sep s : joinOn sep (splitOn sep s) = s.
Proof.
  induction s as [|c s IH]; [done|]. cbn [splitOn]. pose proof (splitOn_nil_iff sep s) as Hn.
  destruct (splitOn sep s) as [|p ps]; [done|]. unfold joinOn, joinSep in *.
  destruct (decide (c = sep)) as [->|]; cbn in *; by f_equal.
Qed.

Lemma kvDeleted_inv k cl : kvDeleted k = Ok (Some cl) -> Valid (cl_Target cl) = true ->
  refWf (cl_Target cl) = true /\ refWf (cl_BlobRef cl) = true /\
  exists when, k = gs "deleted|" ++ RefString (cl_Target cl) ++ pipe :: when ++ pipe :: RefString (cl_BlobRef cl).
Proof.
  unfold kvDeleted. intros E Hv. pose proof (joinOn_splitOn pipe k) as Hj.
  destruct (splitOn pipe k) as [|name [|t [|when [|c [|? ?]]]]]; try done. case_decide as Hn; [|done]. subst name.
  destruct (blobParse t) as [target|] eqn:Et; [|done]. destruct (blobParse c) as [claimRef|] eqn:Ec; [|done].
  apply rbind_Ok in E as (w & _ & E). destruct (ParseRFC3339 w) as [date|]; [|by injection E as <-]. injection E as <-. cbn in *.
  unfold blobParse in Et, Ec. destruct (Parse t) as [[?|]| | |] eqn:Pt; try done. injection Et as ->.
  destruct (Parse c) as [[?|]| | |] eqn:Pc; try done. injection Ec as ->.
  apply Parse_inv in Pt as [? Et], Pc as [? Ec]. split; [done|]. split; [done|]. exists when. subst k t c.
  unfold joinOn, joinSep. cbn. by rewrite app_nil_r.
Qed.

Lemma noPipe_prefix a b (r s : gostr) : noPipe a -> noPipe b -> (a ++ pipe :: r) `prefix_of` (b ++ pipe :: s) -> a = b.
Proof.
  intros Ha Hb [u Hu]. revert b Hb Hu. induction a as [|c a IH]; intros [|d b] Hb Hu; cbn in Hu.
  - done.
  - exfalso. injection Hu as Hu _. apply Hb. rewrite Hu. by left.
  - exfalso. injection Hu as Hu _. apply Ha. rewrite <- Hu. by left.
  - injection Hu as <- Hu. f_equal. apply IH; [intros ?; apply Ha; by right|intros ?; apply Hb; by right|done].
Qed.

Lemma RefString_inj a b : refWf a = true -> refWf b = true -> RefString a = RefString b -> a = b.
Proof. intros Ha Hb E. pose proof (blobParse_String a Ha) as Pa. rewrite E, blobParse_String in Pa by done. congruence. Qed.

(** The rows of a deletion of [br] are those with its prefix. *)
Definition deletedPrefix (br : Ref) : gostr := gs "deleted|" ++ RefString br ++ [pipe].

Lemma deletedPrefix_target k cl br : kvDeleted k = Ok (Some cl) -> Valid (cl_Target cl) = true -> refWf br = true ->
  (deletedPrefix br `prefix_of` k <-> cl_Target cl = br).
Proof.
  intros Hk Hv Hbr. destruct (kvDeleted_inv k cl Hk Hv) as (Ht & _ & when & ->). unfold deletedPrefix. split.
  - intros Hp. apply prefix_app_inv in Hp. apply noPipe_prefix in Hp; [|by apply RefString_noPipe..]. by apply RefString_inj.
  - intros <-. apply prefix_app, prefix_app. by exists (when ++ pipe :: RefString (cl_BlobRef cl)).
Qed.

Lemma Prefix_deleted_of br : Prefix keyDeleted [ARef br] = Ok (deletedPrefix br).
Proof. rewrite (Prefix_ok _ _ [RefString br]) by (done || (cbn; lia)). f_equal. unfold deletedPrefix, joinOn, joinSep. cbn. by rewrite app_nil_r. Qed.

(** Every deletion can be read. *)
Definition deletionsOk (m : gmap gostr gostr) : Prop :=
  forall k v, m !! k = Some v -> gs "deleted|" `prefix_of` k -> exists cl, kvDeleted k = Ok (Some cl) /\ Valid (cl_Target cl) = true.

(** Deletions refer to blobs that were there before. *)
Definition ranked (m : gmap gostr gostr) (rank : Ref -> nat) : Prop :=
  forall k v cl, m !! k = Some v -> gs "deleted|" `prefix_of` k -> kvDeleted k = Ok (Some cl) -> (rank (cl_BlobRef cl) < rank (cl_Target cl))%nat.

Section deletions.
Context {K S : Type} `{KVLaws K, !Storage S}.
Context (sortBy : forall A, (A -> gotime) -> list A -> list A).
Context (sortBy_perm : forall A (key : A -> gotime) l, sortBy A key l ≡ₚ l).

Lemma query_deleted (s : K) br : (forall a e, (kv_find a e s).2 = None) ->
  queryPrefix s keyDeleted [ARef br] = Ok (prefixRows (kv_view s) (deletedPrefix br), None).
Proof.
  intros Hf. unfold queryPrefix. rewrite Prefix_deleted_of. cbn [rbind]. unfold deletedPrefix. rewrite app_assoc.
  by rewrite queryPrefixString_rows.
Qed.

Lemma query_all_deleted (s : K) : (forall a e, (kv_find a e s).2 = None) ->
  queryPrefix s keyDeleted [] = Ok (deletedRows (kv_view s), None).
Proof.
  intros Hf. unfold queryPrefix. change (Prefix keyDeleted []) with (@Ok gostr (gs "deleted" ++ ["|"%char])). cbn [rbind].
  by rewrite queryPrefixString_rows.
Qed.

Lemma elem_of_prefixRows m p k v : (k, v) ∈ prefixRows m p <-> m !! k = Some v /\ p `prefix_of` k.
Proof. unfold prefixRows. rewrite list_elem_of_filter, elem_of_sortedPairs. cbn. tauto. Qed.

(** Filling the cache. *)
Lemma deletesRows_ok rows dels : (forall k v, (k, v) ∈ rows -> exists cl, kvDeleted k = Ok (Some cl)) ->
  exists dels', deletesRows sortBy rows dels = (dels', Ok tt) /\
    (forall t, default [] (dels' !! t) ≡ₚ omap (deletionOn t) (deletesOf rows) ++ default [] (dels !! t)) /\
    (forall t, dels' !! t = Some [] -> dels !! t = Some []) /\ (size dels' <= length rows + size dels)%nat.
Proof.
  revert dels. induction rows as [|[k v] rows IH]; intros dels Hr; [exists dels; split_and!; try done; intros; done|].
  destruct (Hr k v) as [cl Hcl]; [by left|]. cbn [deletesRows]. rewrite Hcl.
  destruct (IH (addDeletion sortBy dels (cl_Target cl) (MkDeletion (cl_BlobRef cl) (cl_Date cl)))) as (dels' & E & Hp & Hn & Hs).
  { intros k' v' Hin. apply (Hr k' v'). by right. }
  exists dels'. split; [done|]. unfold deletesOf. cbn [omap list_omap]. unfold deletedOf at 1 2. cbn [fst]. rewrite Hcl.
  fold (deletesOf rows). split_and!.
  - intros t. rewrite (Hp t). cbn [omap list_omap]. unfold addDeletion. destruct (decide (cl_Target cl = t)) as [<-|Hne].
    + rewrite lookup_insert_eq. cbn [default from_option id]. unfold deletionOn at 2. cbn [fst snd]. rewrite decide_True by done.
      unfold byNewest. rewrite sortBy_perm, app_assoc. symmetry. apply Permutation_cons_append.
    + rewrite lookup_insert_ne by done. unfold deletionOn at 2. cbn [fst snd]. by rewrite decide_False by done.
  - intros t Ht. apply Hn in Ht. unfold addDeletion in Ht. destruct (decide (cl_Target cl = t)) as [<-|Hne]; [|by rewrite lookup_insert_ne in Ht].
    rewrite lookup_insert_eq in Ht. injection Ht as Ht. exfalso. apply (f_equal length) in Ht. unfold byNewest in Ht.
    rewrite (Permutation_length (sortBy_perm _ _ _)), length_app in Ht. cbn in Ht. lia.
  - cbn [length]. etransitivity; [exact Hs|]. unfold addDeletion. rewrite map_size_insert. destruct (dels !! cl_Target cl); unfold id; lia.
Qed.

(** The two loops over a blob's deletions. *)
Lemma anyUndeleted_ok f rows : (forall k v, (k, v) ∈ rows -> exists cl b, kvDeleted k = Ok (Some cl) /\ f (cl_BlobRef cl) = Ok b) ->
  exists b, anyUndeleted f rows None = Ok b /\
    (b = true <-> exists k v cl, (k, v) ∈ rows /\ kvDeleted k = Ok (Some cl) /\ f (cl_BlobRef cl) = Ok false).
Proof.
  induction rows as [|[k v] rows IH]; intros Hr.
  { exists false. split; [done|]. split; [done|]. by intros (? & ? & ? & ?%elem_of_nil & _). }
  destruct (Hr k v) as (cl & b & Hcl & Hb); [by left|]. destruct IH as (b' & E' & Hb'); [intros k' v' Hin; apply (Hr k' v'); by right|].
  cbn [anyUndeleted]. rewrite Hcl. cbn [rbind]. rewrite Hb. cbn [rbind]. destruct b.
  - exists b'. split; [done|]. rewrite Hb'. split.
    + intros (k' & v' & cl' & Hin & Hk & Hf). exists k', v', cl'. split; [by right|done].
    + intros (k' & v' & cl' & Hin & Hk & Hf). apply elem_of_cons in Hin as [[= -> ->]|Hin]; [congruence|]. by exists k', v', cl'.
  - exists true. split; [done|]. split; [intros _; exists k, v, cl; split; [by left|done]|done].
Qed.

(** The cache [dels] says what the rows [m] say. *)
Definition cacheHolds (dels : gmap Ref (list deletion)) (m : gmap gostr gostr) : Prop :=
  forall t d, d ∈ default [] (dels !! t) <->
    exists k v cl, m !! k = Some v /\ gs "deleted|" `prefix_of` k /\ kvDeleted k = Ok (Some cl) /\ cl_Target cl = t /\
      d = MkDeletion (cl_BlobRef cl) (cl_Date cl).

Lemma cache_acyclic dels m rank : cacheHolds dels m -> ranked m rank -> acyclic dels rank.
Proof.
  intros Hc Hr t l d Hl Hd. destruct (proj1 (Hc t d)) as (k & v & cl & Hk & Hp & Hcl & <- & ->); [by rewrite Hl|]. by eapply Hr.
Qed.

Lemma deletedPrefix_of br : gs "deleted|" `prefix_of` deletedPrefix br.
Proof. unfold deletedPrefix. by exists (RefString br ++ [pipe]). Qed.

(** With fuel enough, looking into the rows is looking into the cache. *)
Lemma noCache_cache (s : K) dels rank fuel : (forall a e, (kv_find a e s).2 = None) -> deletionsOk (kv_view s) ->
  ranked (kv_view s) rank -> cacheHolds dels (kv_view s) ->
  forall br, refWf br = true -> (Datatypes.S (size (below rank dels br)) < fuel)%nat ->
  isDeletedNoCacheLoop fuel s br = IsDeletedLocked fuel dels br.
Proof.
  intros Hf Hok Hr Hc. pose proof (cache_acyclic _ _ _ Hc Hr) as Ha.
  induction fuel as [|fuel IH]; intros br Hbr Hfuel; [lia|].
  cbn [isDeletedNoCacheLoop]. rewrite (query_deleted s br Hf). cbn [rbind fst snd].
  rewrite IsDeletedLocked_S.
  assert (Hd : forall d, d ∈ default [] (dels !! br) -> exists b, IsDeletedLocked fuel dels (d_deleter d) = Ok b).
  { intros d Hd. destruct (dels !! br) as [l|] eqn:El; [|by apply elem_of_nil in Hd].
    pose proof (below_size rank dels br l d Ha El Hd).
    destruct (IsDeletedLocked_total dels rank (d_deleter d) fuel Ha) as (b & Eb & _); [lia|]. by exists b. }
  assert (Hrow : forall k v, (k, v) ∈ prefixRows (kv_view s) (deletedPrefix br) -> exists cl, kvDeleted k = Ok (Some cl) /\
    MkDeletion (cl_BlobRef cl) (cl_Date cl) ∈ default [] (dels !! br) /\
    isDeletedNoCacheLoop fuel s (cl_BlobRef cl) = IsDeletedLocked fuel dels (cl_BlobRef cl)).
  { intros k v [Hk Hp]%elem_of_prefixRows. pose proof (transitivity (deletedPrefix_of br) Hp) as Hp'.
    destruct (Hok k v Hk Hp') as (cl & Hcl & Hv). exists cl. split; [done|].
    apply (deletedPrefix_target k cl br Hcl Hv Hbr) in Hp as Ht.
    assert (Hin : MkDeletion (cl_BlobRef cl) (cl_Date cl) ∈ default [] (dels !! br)) by (apply Hc; by exists k, v, cl).
    split; [done|]. apply IH; [by destruct (kvDeleted_inv k cl Hcl Hv) as (_ & ? & _)|].
    destruct (dels !! br) as [l|] eqn:El; [|by apply elem_of_nil in Hin].
    pose proof (below_size rank dels br l _ Ha El Hin). cbn in *. lia. }
  destruct (anyStands_ok (IsDeletedLocked fuel dels) (default [] (dels !! br)) Hd) as (b & -> & Hb).
  destruct (anyUndeleted_ok (isDeletedNoCacheLoop fuel s) (prefixRows (kv_view s) (deletedPrefix br))) as (b' & -> & Hb').
  { intros k v Hin. destruct (Hrow k v Hin) as (cl & Hcl & Hin' & E). destruct (Hd _ Hin') as [b0 Hb0]. exists cl, b0. split; [done|]. by rewrite E. }
  f_equal. apply eq_true_iff_eq. rewrite Hb, Hb'. split.
  - intros (k & v & cl & Hin & Hcl & Hf'). destruct (Hrow k v Hin) as (cl' & Hcl' & Hin' & E). rewrite Hcl in Hcl'. injection Hcl' as <-.
    exists (MkDeletion (cl_BlobRef cl) (cl_Date cl)). split; [done|]. cbn. congruence.
  - intros (d & Hin & Hfd). apply Hc in Hin as Hx. destruct Hx as (k & v & cl & Hk & Hp & Hcl & Ht & ->).
    destruct (Hok k v Hk Hp) as (cl' & Hcl' & Hv). rewrite Hcl in Hcl'. injection Hcl' as <-.
    assert (Hin' : (k, v) ∈ prefixRows (kv_view s) (deletedPrefix br)).
    { apply elem_of_prefixRows. split; [done|]. by apply (deletedPrefix_target k cl br). }
    exists k, v, cl. split; [done|]. split; [done|]. destruct (Hrow k v Hin') as (cl' & Hcl' & _ & E). rewrite Hcl in Hcl'. injection Hcl' as <-.
    rewrite E. exact Hfd.
Qed.

Lemma initDeletesCache_ok (x : Index K S) : (forall a e, (kv_find a e (ix_s x)).2 = None) -> deletionsOk (kv_view (ix_s x)) ->
  exists dels, initDeletesCache sortBy x = (setDeletesCache x (Some dels), Ok tt) /\ cacheHolds dels (kv_view (ix_s x)) /\
    (size dels <= length (deletedRows (kv_view (ix_s x))))%nat.
Proof.
  intros Hf Hok. unfold initDeletesCache. rewrite query_all_deleted by done.
  destruct (deletesRows_ok (deletedRows (kv_view (ix_s x))) newDeletionCache) as (dels & E & Hp & _ & Hs).
  { intros k v [Hk Hpre]%elem_of_deletedRows. destruct (Hok k v Hk Hpre) as (cl & ? & _). by exists cl. }
  rewrite E. exists dels. split; [done|]. split; [|cbn in Hs; unfold newDeletionCache in Hs; rewrite map_size_empty in Hs; lia].
  intros t d. rewrite (Hp t). unfold newDeletionCache. rewrite lookup_empty. cbn [default from_option]. rewrite app_nil_r.
  unfold deletesOf. rewrite list_elem_of_omap. split.
  - intros (q & Hq & Hd). apply list_elem_of_omap in Hq as ([k v] & Hin & Hkv). apply elem_of_deletedRows in Hin as [Hk Hpre].
    unfold deletedOf in Hkv. cbn in Hkv. destruct (kvDeleted k) as [[cl|]| | |] eqn:Hcl; try done. injection Hkv as <-.
    unfold deletionOn in Hd. cbn in Hd. case_decide as Ht; [|done]. injection Hd as <-. by exists k, v, cl.
  - intros (k & v & cl & Hk & Hpre & Hcl & Ht & ->). exists (t, MkDeletion (cl_BlobRef cl) (cl_Date cl)). split.
    + apply list_elem_of_omap. exists (k, v). split; [by apply elem_of_deletedRows|]. unfold deletedOf. cbn. rewrite Hcl. by subst t.
    + unfold deletionOn. cbn. by rewrite decide_True.
Qed.
End deletions.

(** C22. The cache of deletions gives the answer that the rows give: once the
    cache has been filled from a store whose deletions can be read and do not
    form a cycle, [IsDeleted] and the search through the rows without the
    cache both end, and agree on every blob. *)
Theorem IsDeleted_cached {K S} `{KVLaws K, !Storage S} (sortBy : forall A, (A -> gotime) -> list A -> list A)
    (sortBy_perm : forall A (key : A -> gotime) l, sortBy A key l ≡ₚ l)
    (x x' : Index K S) (rank : Ref -> nat) (br : Ref)
    (Hfind : forall a e, (kv_find a e (ix_s x)).2 = None) (Hrows : deletionsOk (kv_view (ix_s x)))
    (Hrank : ranked (kv_view (ix_s x)) rank) (Hbr : refWf br = true) (Hinit : initDeletesCache sortBy x = (x', Ok tt)) :
  exists b, IsDeleted x' br = Ok b /\ isDeletedNoCache (ix_s x') br = Ok b.
Proof.
  destruct (initDeletesCache_ok sortBy sortBy_perm x Hfind Hrows) as (dels & E & Hc & Hs). rewrite Hinit in E. injection E as ->.
  pose proof (cache_acyclic _ _ _ Hc Hrank) as Ha. destruct (IsDeleted_ok dels rank br Ha) as (b & Hb & _).
  exists b. split; [exact Hb|]. cbn [ix_s setDeletesCache]. unfold isDeletedNoCache, noCacheFuel. rewrite query_all_deleted by done.
  pose proof (below_size_le rank dels br) as Hle.
  rewrite (noCache_cache (ix_s x) dels rank _ Hfind Hrows Hrank Hc br Hbr) by lia.
  destruct (IsDeletedLocked_total dels rank br (Datatypes.S (Datatypes.S (length (deletedRows (kv_view (ix_s x)))))) Ha) as (b' & Eb & Hall); [lia|].
  rewrite Eb. rewrite <- Hb. unfold deleteFuel. symmetry. apply Hall. lia.
Qed.

(** A permanode whose deletion was deleted, in an index over memory. *)
Definition exampleDelete (target claim : Z) (date : gotime) : gostr * gostr :=
  (gs "deleted|" ++ refText target ++ gs "|" ++ reverseTimeString (formatTime3339 date) ++ gs "|" ++ refText claim, []).
Definition exampleDeleted : list (gostr * gostr) := [exampleDelete 2 10 nsPerDay; exampleDelete 10 11 (2 * nsPerDay)].
Abbreviation memIndex := (Index (memKeys (gmap gostr gostr)) blobs).
Definition exampleIndex (rows : list (gostr * gostr)) : memIndex := newIndex (CorpusSpec.exampleStore rows).

Definition deletionOk (rank : Ref -> nat) (k : gostr) : bool :=
  negb (isPrefixB (gs "deleted|") k) ||
  match kvDeleted k with Ok (Some cl) => Valid (cl_Target cl) && (rank (cl_BlobRef cl) <? rank (cl_Target cl))%nat | _ => false end.

Lemma deletions_forallb rank (l : list (gostr * gostr)) : forallb (fun r => deletionOk rank r.1) l = true ->
  deletionsOk (list_to_map l) /\ ranked (list_to_map l) rank.
Proof.
  intros Hl. rewrite forallb_forall in Hl.
  assert (Hrow : forall k v, (list_to_map l : gmap gostr gostr) !! k = Some v -> gs "deleted|" `prefix_of` k ->
    exists cl, kvDeleted k = Ok (Some cl) /\ Valid (cl_Target cl) = true /\ (rank (cl_BlobRef cl) < rank (cl_Target cl))%nat).
  { intros k v Hk Hp. apply elem_of_list_to_map_2, list_elem_of_In in Hk. specialize (Hl _ Hk). unfold deletionOk in Hl. cbn [fst] in Hl.
    unfold isPrefixB in Hl. rewrite bool_decide_true in Hl by done. cbn [negb orb] in Hl.
    destruct (kvDeleted k) as [[cl|]| | |]; try done. apply andb_prop in Hl as [Hv Hr]. exists cl. split; [done|]. split; [done|]. by apply Nat.ltb_lt. }
  split.
  - intros k v Hk Hp. destruct (Hrow k v Hk Hp) as (cl & ? & ? & _). by exists cl.
  - intros k v cl Hk Hp Hcl. destruct (Hrow k v Hk Hp) as (cl' & Hcl' & _ & ?). rewrite Hcl in Hcl'. by injection Hcl' as <-.
Qed.

Lemma IsDeleted_cached_witness :
  let x' := (initDeletesCache (@sortByKey) (exampleIndex exampleDeleted)).1 in
  IsDeleted x' (exampleRef 10) = Ok true /\
  exists b, IsDeleted x' (exampleRef 2) = Ok b /\ isDeletedNoCache (ix_s x') (exampleRef 2) = Ok b.
Proof.
  cbv zeta. split; [vm_compute; reflexivity|].
  assert (Hrows : forallb (fun r => deletionOk exampleRank r.1) exampleDeleted = true) by (vm_compute; reflexivity).
  apply deletions_forallb in Hrows as [Hok Hr].
  apply (IsDeleted_cached (@sortByKey) sortByKey_perm (exampleIndex exampleDeleted) _ exampleRank).
  - reflexivity.
  - exact Hok.
  - exact Hr.
  - vm_compute. reflexivity.
  - rewrite (surjective_pairing (initDeletesCache (@sortByKey) (exampleIndex exampleDeleted))) at 1. f_equal.
Defined.

(** [New] forgets the deletions: whatever the store holds, the cache of
    the index it returns is empty, so that no blob is deleted for it until
    another delete claim comes in. *)
Theorem New_forgets_deletions {K S} `{!KV K, !Storage S} (sortBy : forall A, (A -> gotime) -> list A -> list A)
    (aboutToReindex : bool) (s s' : K) (x : Index K S) (Hnew : New sortBy aboutToReindex s = (s', Ok x)) (br : Ref) :
  IsDeleted x br = Ok false.
Proof.
  assert (ix_deletes x = Some ∅) as Hd.
  { unfold New in Hnew. destruct aboutToReindex; [by injection Hnew as <- <-|].
    assert (Hc : forall y, initCaches sortBy (newIndex y) = Ok x -> ix_deletes x = Some ∅).
    { intros y Hy. unfold initCaches in Hy. destruct (initDeletesCache _ _) as [x1 [| | |]]; cbn [rewrapped sbind rbind] in Hy; try done.
      assert (ix_deletes (initNeededMaps x1).1 = Some ∅) as Hn.
      { unfold initNeededMaps. destruct (queryPrefix _ _ _) as [[rows cerr]| | |]; try done.
        assert (forall rows (x2 : Index K S), ix_deletes (neededRows rows x2).1 = ix_deletes x2) as Hk.
        { clear. induction rows as [|[k v] rows IH]; intros x2; [done|]. cbn. destruct (missingPair k) as [[a b]| | |]; [|done..]. by rewrite IH. }
        specialize (Hk rows (setDeletesCache x1 (Some newDeletionCache))). by destruct (neededRows rows _) as [x2 r]. }
      destruct (initNeededMaps x1) as [x2 [| | |]]; cbn [rewrapped fst rbind] in *; try done. by injection Hy as <-. }
    destruct (schemaVersion s) as [v| | |]; try done. destruct (if v =? 0 then _ else _) as [[]| | |]; try done.
    - destruct (kv_set _ _ s) as [[e|] s1]; [done|]. injection Hnew as _ Hnew. by eapply Hc.
    - destruct (v =? requiredSchemaVersion); [|done]. injection Hnew as _ Hnew. by eapply Hc. }
  unfold IsDeleted. rewrite Hd. unfold isDeleted, deleteFuel. by cbn.
Qed.

Lemma New_forgets_deletions_witness :
  let rows := (gs "schemaversion", gs "4") :: exampleDeleted in
  let x := match (New (@sortByKey) false (CorpusSpec.exampleStore rows) : _ * res memIndex).2 with Ok x => x | _ => exampleIndex [] end in
  isDeletedNoCache (ix_s x) (exampleRef 10) = Ok true /\ IsDeleted x (exampleRef 10) = Ok false.
Proof.
  cbv zeta. split; [vm_compute; reflexivity|].
  set (s := CorpusSpec.exampleStore ((gs "schemaversion", gs "4") :: exampleDeleted)).
  assert (is_ok (New (@sortByKey) false s : _ * res memIndex).2 = true) as Hok by (vm_compute; reflexivity).
  destruct (New (@sortByKey) false s : _ * res memIndex) as [s' [x|e|p|]] eqn:E; cbn [snd is_ok] in *; [|done..].
  by apply (New_forgets_deletions (@sortByKey) false s s').
Defined.

(** * Blobs that wait for others *)

Section waiting.
Context {K S : Type} `{!KV K, !Storage S} `{PGP, EXIF}.
Context (sortBy : forall A, (A -> gotime) -> list A -> list A).
Context (arrange : forall A, list A -> list A).
Context (DetectContentType : gostr -> gostr) (DecodeConfig : reader -> res (Z * Z)) (FileTime : gostr -> res gotime).
Context (taglibDecode : gostr -> Z -> res musicTag) (depth : nat).
Abbreviation index := (Index K S).
Abbreviation receiveBlob := (ReceiveBlob sortBy arrange DetectContentType DecodeConfig FileTime taglibDecode depth).

(** [a] waits for [b]. *)
Definition waits (x : index) (a b : Ref) : Prop := b ∈ default [] (needs x !! a).

(** [neededBy] is the inverse of [needs]. *)
Definition dual (x : index) : Prop := forall a b, waits x a b <-> a ∈ default [] (neededBy x !! b).

(** Nothing has changed but what [br] waits for. *)
Record noted (br : Ref) (x x' : index) : Prop := {
  no_needs : forall a, a <> br -> needs x' !! a = needs x !! a;
  no_ready : readyReindex x' = readyReindex x;
  no_tickle : tickleOoo x' = tickleOoo x;
  no_dual : dual x -> dual x'
}.

#[local] Instance noted_refl br : Reflexive (noted br).
Proof. intros x. by split. Qed.
#[local] Instance noted_trans br : Transitive (noted br).
Proof.
  intros x y z [N1 R1 T1 D1] [N2 R2 T2 D2]. split; [|congruence|congruence|auto].
  intros a Ha. by rewrite N2, N1.
Qed.

Lemma noted_store br x s : noted br x (setStore x s).
Proof. by split. Qed.
Lemma noted_deletes br x d : noted br x (setDeletesCache x d).
Proof. by split. Qed.
Lemma noted_corpus br x c : noted br x (setCorpus x c).
Proof. by split. Qed.
Lemma noted_source br x s : noted br x (setSource x s).
Proof. by split. Qed.
Hint Resolve noted_store noted_deletes noted_corpus noted_source : noted.
Hint Extern 0 (noted _ ?x ?x) => reflexivity : noted.

Lemma waits_noteNeededMemory x have m a b : waits (noteNeededMemory x have m) a b <-> waits x a b \/ (a = have /\ b = m).
Proof.
  unfold waits, noteNeededMemory. cbn. destruct (decide (a = have)) as [->|Hne].
  - rewrite lookup_insert_eq. cbn. rewrite elem_of_app, list_elem_of_singleton. tauto.
  - rewrite lookup_insert_ne by done. tauto.
Qed.

Lemma noted_memory x br m : noted br x (noteNeededMemory x br m).
Proof.
  split; [|done|done|].
  - intros a Ha. cbn. by rewrite lookup_insert_ne.
  - intros Hd a b. rewrite waits_noteNeededMemory. rewrite (Hd a b). cbn. destruct (decide (m = b)) as [->|Hne].
    + rewrite lookup_insert_eq. cbn. rewrite elem_of_app, list_elem_of_singleton. naive_solver.
    + rewrite lookup_insert_ne by done. naive_solver.
Qed.

Lemma noted_needed x br m : noted br x (noteNeeded x br m).1.
Proof.
  unfold noteNeeded. destruct (Key keyMissing _) as [key| | |]; [|reflexivity..].
  destruct (kv_set _ _ _) as [[e|] s]; cbn; [auto with noted|]. etransitivity; [|apply noted_memory]. auto with noted.
Qed.

Lemma noted_all x br l : noted br x (noteAllNeeded x br l).1.
Proof.
  revert x. induction l as [|m l IH]; intros x; [reflexivity|]. cbn [noteAllNeeded].
  pose proof (noted_needed x br m) as Hn. destruct (noteNeeded x br m) as [x1 [u|e|p|]]; cbn [fst] in *; [| |done..].
  - etransitivity; [exact Hn|apply IH].
  - specialize (IH x1). destruct (noteAllNeeded x1 br l) as [x2 [b|e'|p|]]; cbn in *; by etransitivity.
Qed.

Lemma noted_deletesAll br x cls : noted br x (updateDeletesAll sortBy x cls).1.
Proof.
  revert x. induction cls as [|cl cls IH]; intros x; [reflexivity|]. cbn [updateDeletesAll]. unfold updateDeletesCache.
  destruct (ix_deletes x) as [dels|]; [|reflexivity]. destruct (ClaimDate cl) as [t|e|p|]; cbn; [|auto with noted..].
  etransitivity; [|apply IH]. auto with noted.
Qed.

Lemma noted_commit br x mm : noted br x (commit sortBy arrange x mm).1.
Proof.
  unfold commit. destruct (ix_deletes x); [|reflexivity]. destruct (kv_commit _ _) as [[e|] s]; cbn; [auto with noted|].
  etransitivity; [|apply noted_deletesAll]. auto with noted.
Qed.

Lemma noted_deleteClaim x cl vr mm : noted (b_br cl) x (populateDeleteClaim x cl vr mm).1.1.
Proof.
  unfold populateDeleteClaim. destruct (negb _); [reflexivity|]. destruct (GetBlobMeta x (Target cl)) as [meta|e|p|]; [| |reflexivity..].
  - destruct (_ || _); [|reflexivity]. destruct (mmPuts _ _); reflexivity.
  - destruct (decide (e = ErrNotExist)); [|reflexivity]. pose proof (noted_needed x (b_br cl) (Target cl)) as Hn.
    by destruct (noteNeeded x (b_br cl) (Target cl)) as [x1 [|e'|p|]].
Qed.

Lemma noted_claim x mt b mm : noted (b_br b) x (populateClaim x mt b mm).1.1.1.
Proof.
  unfold populateClaim. destruct (AsClaim b) as [claim|] eqn:Ec; [|reflexivity].
  assert (claim = b) as -> by (unfold AsClaim in Ec; destruct (_ && _); congruence).
  destruct (verifyWith mt _) as [mt' [[vr []]|e|p|]]; [|reflexivity..].
  destruct (decide _).
  - pose proof (noted_deleteClaim x b vr (mmSet mm (gs "signerkeyid:" ++ RefString (vr_CamliSigner vr)) (vr_SignerKeyId vr))) as Hn.
    by destruct (populateDeleteClaim _ _ _ _) as [[x1 mm1] [|e'|p|]].
  - destruct (negb _); [reflexivity|]. destruct (mmPuts _ _); reflexivity.
Qed.

Lemma snParse_meta sn b : sn_meta (snParse DetectContentType sn) = Some b -> b_br b = sn_br sn \/ sn_meta sn = Some b.
Proof.
  unfold snParse, bufferIsCamliJSON. destruct (LikelySchemaBlob _); [|by right].
  destruct (BlobFromReader _ _) as [b'| | |] eqn:Eb; cbn; [|by right..]. intros [= <-]. left. unfold BlobFromReader in Eb.
  destruct (negb _); [done|]. apply rbind_Ok in Eb as (ss & _ & Eb). destruct (whiteLoop _ _ _); [|done].
  destruct (_ <? _); [done|]. by injection Eb as <-.
Qed.

Lemma noted_blob x mt sn mm br : (forall b, sn_meta sn = Some b -> b_br b = br) ->
  noted br x (populateBlob sortBy DetectContentType DecodeConfig FileTime taglibDecode depth x mt sn mm).1.1.1.
Proof.
  intros Hsn. unfold populateBlob. destruct (sn_meta sn) as [b|]; [|reflexivity]. rewrite <- (Hsn b eq_refl).
  destruct (decide _); [apply noted_claim|].
  destruct (decide _); [by destruct (populateFile _ _ _ _ _ _ _ _ _) as [? [| | |]]|].
  destruct (decide _); [by destruct (populateDir _ _ _) as [? [| | |]]|reflexivity].
Qed.

Lemma noted_mutation x mt br sn : (forall b, sn_meta sn = Some b -> b_br b = br) ->
  noted br x (populateMutationMap sortBy DetectContentType DecodeConfig FileTime taglibDecode depth x mt br sn).1.1.1.
Proof.
  intros Hsn. unfold populateMutationMap.
  pose proof (noted_blob x mt sn (MkMut {[gs "meta:" ++ RefString br := itoa (sn_written sn) ++ [pipe] ++ sn_mimeType sn]} []) br Hsn) as Hn.
  destruct (populateBlob _ _ _ _ _ _ _ _ _ _) as [[[x1 mt1] mm1] [u|e|p|]]; try exact Hn. by destruct (decide (e = errMissingDep)).
Qed.

Lemma noted_body x br src : noted br x (receiveBody sortBy arrange DetectContentType DecodeConfig FileTime taglibDecode depth x br src).1.1.
Proof.
  unfold receiveBody, NewBlobSniffer. destruct (Valid br); [|reflexivity]. cbn zeta beta.
  destruct src.2 as [[]|e|p|]; [|reflexivity..]. destruct (match kv_get _ _ with Ok _ => _ | _ => _ end); [reflexivity|].
  set (sn := snParse _ _).
  assert (Hsn : forall b, sn_meta sn = Some b -> b_br b = br).
  { intros b Hb. apply snParse_meta in Hb as [Hb|Hb]; [exact Hb|done]. }
  pose proof (noted_mutation x (MkMiss (blobSource x) []) br sn Hsn) as Hn.
  destruct (populateMutationMap _ _ _ _ _ _ _ _ _ _) as [[[x1 mt] mm] r]. cbn [fst] in Hn.
  assert (Hn1 : noted br x (setSource x1 (mt_src mt))) by (etransitivity; [exact Hn|auto with noted]).
  destruct r as [u|e|p|]; [| |exact Hn1..].
  - pose proof (noted_commit br (setSource x1 (mt_src mt)) mm) as Hc.
    destruct (commit _ _ _ _) as [x2 [[]|e|p|]]; cbn [fst] in Hc; [|by etransitivity..].
    destruct (ix_corpus x2) as [c|]; [|by etransitivity]. destruct (addBlob _ _ _ _ _ _) as [c1 r].
    etransitivity; [exact Hn1|]. etransitivity; [exact Hc|]. cbn. auto with noted.
  - destruct (decide _); [|exact Hn1]. pose proof (noted_all (setSource x1 (mt_src mt)) br (missing mt)) as Ha.
    destruct (noteAllNeeded _ _ _) as [x2 [[]|e'|p|]]; cbn [fst] in *; by etransitivity.
Qed.

(** ** What [noteBlobIndexed] does *)

Lemma blobsFilteringOut_elem l b x : b ∈ blobsFilteringOut l x <-> b ∈ l /\ b <> x.
Proof. unfold blobsFilteringOut. rewrite list_elem_of_filter. tauto. Qed.

Lemma waits_noteNeeder br x n a b : waits (noteNeeder br x n) a b <-> waits x a b /\ ~ (a = n /\ b = br).
Proof.
  unfold waits, noteNeeder. destruct (blobsFilteringOut _ _) as [|c l] eqn:E; cbn.
  - destruct (decide (a = n)) as [->|Hne].
    + rewrite lookup_delete_eq. cbn. rewrite elem_of_nil. split; [done|]. intros [Hb Hn].
      assert (b ∈ blobsFilteringOut (default [] (needs x !! n)) br) as Hin by (apply blobsFilteringOut_elem; naive_solver).
      rewrite E in Hin. by apply elem_of_nil in Hin.
    + rewrite lookup_delete_ne by done. naive_solver.
  - destruct (decide (a = n)) as [->|Hne].
    + rewrite lookup_insert_eq. cbn. rewrite <- E, blobsFilteringOut_elem. naive_solver.
    + rewrite lookup_insert_ne by done. naive_solver.
Qed.

Lemma noteNeeder_ready br x n : neededBy (noteNeeder br x n) = neededBy x /\ readyReindex x ⊆ readyReindex (noteNeeder br x n) /\
  (tickleOoo x = true -> tickleOoo (noteNeeder br x n) = true) /\
  ((forall b, ~ waits (noteNeeder br x n) n b) -> n ∈ readyReindex (noteNeeder br x n) /\ tickleOoo (noteNeeder br x n) = true).
Proof.
  unfold noteNeeder, waits. destruct (blobsFilteringOut _ _) as [|c l] eqn:E; cbn.
  - split_and!; [done|apply union_subseteq_r|done|]. intros _. split; [apply elem_of_union_l, elem_of_singleton; done|done].
  - split_and!; [done|done|done|]. intros Hn. destruct (Hn c). rewrite lookup_insert_eq. cbn. by left.
Qed.

(** A blob waits, or the loop has been told of it. *)
Definition pending (x : index) (a : Ref) : Prop := (exists b, waits x a b) \/ (a ∈ readyReindex x /\ tickleOoo x = true).

Lemma waits_any x a : (exists b, waits x a b) \/ (forall b, ~ waits x a b).
Proof.
  unfold waits. destruct (default [] (needs x !! a)) as [|b l]; [right; intros b; apply not_elem_of_nil|]. left. exists b. by left.
Qed.

Lemma noteNeeder_pending br x n a : pending x a -> pending (noteNeeder br x n) a.
Proof.
  intros Hp. destruct (noteNeeder_ready br x n) as (_ & Hr & Ht & Hn). destruct Hp as [[b Hb]|[Ha Htk]]; [|right; split; [set_solver|auto]].
  destruct (waits_any (noteNeeder br x n) a) as [|Hno]; [by left|]. right.
  destruct (decide (a = n)) as [->|Hne]; [by apply Hn|]. exfalso. apply (Hno b), waits_noteNeeder. naive_solver.
Qed.

Lemma noteNeeders br l x : 
  (forall a b, waits (foldl (noteNeeder br) x l) a b <-> waits x a b /\ ~ (a ∈ l /\ b = br)) /\
  neededBy (foldl (noteNeeder br) x l) = neededBy x /\
  (forall a, pending x a -> pending (foldl (noteNeeder br) x l) a).
Proof.
  revert x. induction l as [|n l IH]; intros x; cbn [foldl].
  { split_and!; [|done|done]. intros a b. rewrite elem_of_nil. tauto. }
  destruct (IH (noteNeeder br x n)) as (Hw & Hnb & Hp). destruct (noteNeeder_ready br x n) as (Hnb1 & _). split_and!.
  - intros a b. rewrite Hw, waits_noteNeeder, elem_of_cons. tauto.
  - congruence.
  - intros a Ha. by apply Hp, noteNeeder_pending.
Qed.

Lemma noteBlobIndexed_spec x br : dual x ->
  (forall a b, waits (noteBlobIndexed x br) a b <-> waits x a b /\ b <> br) /\
  dual (noteBlobIndexed x br) /\ (forall a, pending x a -> pending (noteBlobIndexed x br) a).
Proof.
  intros Hd. unfold noteBlobIndexed. destruct (noteNeeders br (default [] (neededBy x !! br)) x) as (Hw & Hnb & Hp).
  set (y := foldl _ _ _) in *. set (z := setNeeds _ _ _ _ _).
  assert (Hz : forall a b, waits z a b <-> waits x a b /\ b <> br).
  { intros a b. change (waits z a b) with (waits y a b). rewrite Hw. rewrite <- (Hd a br). destruct (decide (b = br)) as [->|]; naive_solver. }
  split_and!; [exact Hz| |exact Hp].
  intros a b. rewrite Hz, (Hd a b). unfold z. cbn. rewrite Hnb. destruct (decide (b = br)) as [->|Hne].
  - rewrite lookup_delete_eq. cbn. rewrite elem_of_nil. naive_solver.
  - rewrite lookup_delete_ne by done. naive_solver.
Qed.

Lemma removeAllMissingEdges_noted x br a : noted a x (removeAllMissingEdges x br).
Proof. unfold removeAllMissingEdges. destruct (queryPrefix _ _ _) as [[]| | |]; auto with noted. Qed.

(** A call of [ReceiveBlob], from outside. *)
Lemma receive_spec x br src : dual x ->
  let '(x', r) := receiveBlob x br src in
  dual x' /\ (forall a, a <> br -> pending x a -> pending x' a) /\
  (forall a b, a <> br -> waits x' a b -> waits x a b /\ (is_ok r = true -> b <> br)).
Proof.
  intros Hd. pose proof (noted_body x br src) as [Nn Nr Nt Nd]. unfold ReceiveBlob.
  destruct (receiveBody _ _ _ _ _ _ _ _ _ _) as [[x1 md] r]. cbn [fst] in *. specialize (Nd Hd).
  assert (Hp1 : forall a, a <> br -> pending x a -> pending x1 a).
  { intros a Ha. unfold pending, waits. rewrite (Nn a Ha), Nr, Nt. done. }
  assert (Hw1 : forall a b, a <> br -> waits x1 a b -> waits x a b) by (intros a b Ha; unfold waits; by rewrite (Nn a Ha)).
  assert (Hfin : dual (finish x1 md br) /\ (forall a, a <> br -> pending x a -> pending (finish x1 md br) a) /\
    (forall a b, a <> br -> waits (finish x1 md br) a b -> waits x a b /\ b <> br)).
  { destruct (noteBlobIndexed_spec x1 br Nd) as (Hw & Hd2 & Hp2). set (y := noteBlobIndexed x1 br) in *.
    assert (Hy : dual y /\ (forall a, a <> br -> pending x a -> pending y a) /\ (forall a b, a <> br -> waits y a b -> waits x a b /\ b <> br)).
    { split_and!; [done|auto|]. intros a b Ha Hab. apply Hw in Hab as [Hab ?]. auto. }
    unfold finish. fold y. destruct md; [exact Hy|]. unfold removeAllMissingEdges. destruct (queryPrefix _ _ _) as [[]| | |]; exact Hy. }
  destruct Hfin as (F1 & F2 & F3). destruct r as [sb|e|p|]; cbn [is_ok].
  - split; [done|]. split; [done|]. intros a b Ha Hab. destruct (F3 a b Ha Hab). done.
  - split; [done|]. split; [done|]. intros a b Ha Hab. split; [by apply Hw1|done].
  - split; [done|]. split; [done|]. intros a b Ha Hab. split; [by apply (F3 a b)|done].
  - split; [done|]. split; [done|]. intros a b Ha Hab. split; [by apply Hw1|done].
Qed.

Lemma dual_new s : dual (newIndex s : index).
Proof. intros a b. unfold waits, newIndex. cbn. rewrite !lookup_empty. cbn. by rewrite !elem_of_nil. Qed.

Lemma neededRows_dual rows x : dual x -> dual (neededRows rows x).1.
Proof.
  revert x. induction rows as [|[k v] rows IH]; intros x Hx; [done|]. cbn [neededRows]. destruct (missingPair k) as [[a b]|e|p|]; [|done..].
  apply IH. by apply (no_dual _ _ _ (noted_memory x a b)).
Qed.

Lemma New_dual about s s' x : New sortBy about s = (s', Ok x) -> dual x.
Proof.
  assert (Hc : forall y, initCaches sortBy (newIndex y : index) = Ok x -> dual x).
  { intros y. unfold initCaches. pose proof (dual_new y) as Hd.
    assert (Hi : dual (initDeletesCache sortBy (newIndex y : index)).1).
    { unfold initDeletesCache. destruct (queryPrefix _ _ _) as [[rows cerr]|e|p|]; [by destruct (deletesRows sortBy rows _)|done..]. }
    destruct (initDeletesCache _ _) as [x1 [u|e|p|]]; cbn [rewrapped sbind fst rbind] in *; [|done..].
    assert (Hn : dual (initNeededMaps x1).1).
    { unfold initNeededMaps. destruct (queryPrefix _ _ _) as [[rows cerr]|e|p|]; [|done..].
      pose proof (neededRows_dual rows (setDeletesCache x1 (Some newDeletionCache)) Hi) as Hn. by destruct (neededRows _ _). }
    destruct (initNeededMaps x1) as [x2 [u'|e|p|]]; cbn [rewrapped fst rbind] in *; [|done..]. by intros [= <-]. }
  unfold New. destruct about; [intros [= _ <-]; apply dual_new|].
  destruct (schemaVersion s) as [v|e|p|]; [|done..]. destruct (if v =? 0 then isEmpty s else Ok false) as [[]|e|p|]; [| |done..].
  - destruct (kv_set _ _ s) as [[e|] s1]; [done|]. intros [= _ Hx]. by eapply Hc.
  - destruct (v =? requiredSchemaVersion); [|done]. intros [= _ Hx]. by eapply Hc.
Qed.

Context (hub : memHub) (firstErr : list error -> error).
Abbreviation oooStep := (oooRound sortBy arrange DetectContentType DecodeConfig FileTime taglibDecode depth hub firstErr).

Abbreviation index1 := (indexBlob sortBy arrange DetectContentType DecodeConfig FileTime taglibDecode depth hub firstErr).

(** What a call for [br] does to those that wait: nothing is lost, and the
    others wait for [br] no more once it is received. *)
Definition wakes (br : Ref) (x x' : index) (received : bool) : Prop :=
  dual x' /\ (forall a, a <> br -> pending x a -> pending x' a) /\
  (forall a b, a <> br -> waits x' a b -> waits x a b /\ (received = true -> b <> br)).

Lemma wakes_none br x x' ok : wakes br x x' ok -> wakes br x x' false.
Proof. intros (Hd & Hp & Hw). split_and!; [done|done|]. intros a b Ha Hab. by destruct (Hw a b Ha Hab). Qed.

Lemma wakes_same br x x' : dual x -> needs x' = needs x -> neededBy x' = neededBy x -> readyReindex x ∖ {[br]} ⊆ readyReindex x' ->
  tickleOoo x' = tickleOoo x -> wakes br x x' false.
Proof.
  intros Hd Hn Hb Hr Ht. split_and!.
  - intros a b. unfold waits in *. rewrite Hn, Hb. apply Hd.
  - intros a Ha. unfold pending, waits. rewrite Hn, Ht. intros [Hw|[Hin Htk]]; [by left|right; split; [set_solver|done]].
  - intros a b _. unfold waits. rewrite Hn. done.
Qed.

Lemma wakes_trans br x y z ok : wakes br x y false -> (dual y -> wakes br y z ok) -> wakes br x z ok.
Proof.
  intros (Hd & Hp & Hw) H2. destruct (H2 Hd) as (Hd' & Hp' & Hw'). split_and!; [done|auto|].
  intros a b Ha Hab. destruct (Hw' a b Ha Hab) as [Hab' Hok]. by destruct (Hw a b Ha Hab').
Qed.

Lemma index_wakes x br : dual x -> wakes br x (index1 x br).1.1 (is_ok (index1 x br).2).
Proof.
  intros Hd. unfold indexBlob. assert (Hself : wakes br x x false) by (apply wakes_same; try done; set_solver).
  destruct (blobSource x) as [bs|]; [|exact Hself]. destruct (st_Fetch bs br) as [bs' r].
  assert (Hsrc : wakes br x (setSource x (Some bs')) false) by (apply wakes_same; try done; cbn; set_solver).
  destruct r as [[d n]|e|p|]; [|exact Hsrc..].
  unfold Receive, receive. cbn iota. destruct (checkHashReader _ _) as [[src corrupt]|e|p|]; [|exact Hsrc..].
  pose proof (receive_spec (setSource x (Some bs')) br src) as Hr. cbn [st_ReceiveBlob index_Storage].
  destruct (receiveBlob _ br src) as [x1 r]. eapply wakes_trans; [exact Hsrc|]. intros Hd'. specialize (Hr Hd').
  destruct r as [sb|e|p|]; [|exact Hr..]. destruct (NotifyBlobReceived _ _ _) as [err sends].
  cbn [fst snd]. destruct err; cbn [sendingErr is_ok fst snd]; [by eapply wakes_none|exact Hr].
Qed.

(** A round takes the blob out of the ready set before it is indexed. *)
Definition takeReady (x : index) (br : Ref) : index := setNeeds x (needs x) (neededBy x) (readyReindex x ∖ {[br]}) (tickleOoo x).

Lemma round_wakes x br : dual x -> wakes br x (oooStep x br).1 (is_ok (index1 (takeReady x br) br).2).
Proof.
  intros Hd. apply wakes_trans with (takeReady x br); [by apply wakes_same|]. intros Hd0.
  pose proof (index_wakes (takeReady x br) br Hd0) as Hi. unfold oooRound. fold (takeReady x br).
  destruct (index1 (takeReady x br) br) as [[x1 sends] [u|e|p|]]; cbn [fst snd is_ok] in *; [exact Hi| |exact Hi..].
  destruct (default [] (needs x1 !! br)); [|exact Hi]. eapply wakes_trans; [exact Hi|]. intros Hd1. apply wakes_same; try done. cbn. set_solver.
Qed.

(** The index from its start on: [New], what [InitBlobSource] and others do to
    the source, corpora, uploads, rounds of the out-of-order loop, Reindex's
    calls. *)
Inductive life : index -> Prop :=
| life_new about s s' x : New sortBy about s = (s', Ok x) -> life x
| life_source x bs : life x -> life (setSource x bs)
| life_running x b : life x -> life (setRunning x b)
| life_corpus x c : life x -> life (setCorpus x c)
| life_receive x br src : life x -> life (receiveBlob x br src).1
| life_index x br : life x ->
    life (indexBlob sortBy arrange DetectContentType DecodeConfig FileTime taglibDecode depth hub firstErr x br).1.1
| life_round x br : life x -> br ∈ readyReindex x -> life (oooStep x br).1.

Lemma life_dual x : life x -> dual x.
Proof.
  induction 1 as [about s s' x Hx|x bs _ IH|x b _ IH|x c _ IH|x br src _ IH|x br _ IH|x br _ IH Hr]; [by eapply New_dual|done|done|done| | |].
  - pose proof (receive_spec x br src IH) as Hs. destruct (receiveBlob x br src). exact (proj1 Hs).
  - by apply index_wakes.
  - by apply round_wakes.
Qed.

(** A run during which [a] is not indexed, and the blobs that were received
    in it without an error: uploads of other blobs, calls of [Reindex] and
    rounds of the out-of-order loop for other blobs, changes of the source and
    of the corpus, and a tickle that the loop takes before [a] is ready. *)
Inductive receives (a : Ref) : index -> list Ref -> index -> Prop :=
| rc_done x : receives a x [] x
| rc_call x br src x1 r brs x2 : br <> a -> receiveBlob x br src = (x1, r) -> receives a x1 brs x2 ->
    receives a x (if is_ok r then br :: brs else brs) x2
| rc_index x br x1 sends r brs x2 : br <> a -> index1 x br = (x1, sends, r) -> receives a x1 brs x2 ->
    receives a x (if is_ok r then br :: brs else brs) x2
| rc_round x br brs x2 : br <> a -> br ∈ readyReindex x -> receives a (oooStep x br).1 brs x2 ->
    receives a x (if is_ok (index1 (takeReady x br) br).2 then br :: brs else brs) x2
| rc_tickle x brs x2 : a ∉ readyReindex x -> receives a (setNeeds x (needs x) (neededBy x) (readyReindex x) false) brs x2 -> receives a x brs x2
| rc_source x bs brs x2 : receives a (setSource x bs) brs x2 -> receives a x brs x2
| rc_running x b brs x2 : receives a (setRunning x b) brs x2 -> receives a x brs x2
| rc_corpus x c brs x2 : receives a (setCorpus x c) brs x2 -> receives a x brs x2.

Lemma wakes_received a br ok x x1 brs : br <> a -> wakes br x x1 ok -> pending x a ->
  (forall b, waits x a b -> b ∈ (if ok then br :: brs else brs)) ->
  dual x1 /\ pending x1 a /\ (forall b, waits x1 a b -> b ∈ brs).
Proof.
  intros Hne (Hd & Hp & Hw) Hpa Hall. split_and!; [done|auto|]. intros b Hb. destruct (Hw a b ltac:(congruence) Hb) as [Hb' Hbr].
  specialize (Hall b Hb'). destruct ok; [|done]. apply elem_of_cons in Hall as [->|]; [|done]. by destruct (Hbr eq_refl).
Qed.

Lemma receives_wakes a x brs x' : receives a x brs x' -> dual x -> pending x a -> (forall b, waits x a b -> b ∈ brs) ->
  pending x' a /\ (forall b, ~ waits x' a b).
Proof.
  induction 1 as [x|x br src x1 r brs x2 Hne E Hr IH|x br x1 sends r brs x2 Hne E Hr IH|x br brs x2 Hne Hin Hr IH|x brs x2 Hna Hr IH|
    x bs brs x2 Hr IH|x b brs x2 Hr IH|x c brs x2 Hr IH]; intros Hd Hp Hw; [|..|by apply IH|by apply IH|by apply IH].
  - split; [done|]. intros b Hb. by apply (not_elem_of_nil b), Hw.
  - pose proof (receive_spec x br src Hd) as Hs. rewrite E in Hs. destruct (wakes_received a br _ x x1 brs Hne Hs Hp Hw) as (? & ? & ?). by apply IH.
  - pose proof (index_wakes x br Hd) as Hs. rewrite E in Hs. destruct (wakes_received a br _ x x1 brs Hne Hs Hp Hw) as (? & ? & ?). by apply IH.
  - destruct (wakes_received a br _ x _ brs Hne (round_wakes x br Hd) Hp Hw) as (? & ? & ?). by apply IH.
  - destruct Hp as [Hwt|[Hin _]]; [|done]. apply IH; [exact Hd|by left|exact Hw].
Qed.
End waiting.

(** C18. Blobs may come before the blobs they depend on.  In any life of an
    index, a blob that waits for others is ready to be indexed again, and the
    out-of-order loop has been told, once all of those have been received,
    in whatever order, with uploads and re-indexings of any other blobs,
    rounds of the loop and changes of the source and the corpus in between;
    only the waiting blob itself is not uploaded or indexed again meanwhile,
    and the loop does not take a tickle once it is ready. *)
Theorem late_blobs_wake {K S} `{!KV K, !Storage S, PGP, EXIF} (sortBy : forall A, (A -> gotime) -> list A -> list A)
    (arrange : forall A, list A -> list A) (DetectContentType : gostr -> gostr) (DecodeConfig : reader -> res (Z * Z))
    (FileTime : gostr -> res gotime) (taglibDecode : gostr -> Z -> res musicTag) (depth : nat) (hub : memHub) (firstErr : list error -> error)
    (x x' : Index K S) (a b0 : Ref) (brs : list Ref)
    (Hlife : life sortBy arrange DetectContentType DecodeConfig FileTime taglibDecode depth hub firstErr x)
    (Hwait : waits x a b0)
    (Hrun : receives sortBy arrange DetectContentType DecodeConfig FileTime taglibDecode depth hub firstErr a x brs x')
    (Hall : forall b, waits x a b -> b ∈ brs) :
  a ∈ readyReindex x' /\ tickleOoo x' = true.
Proof.
  apply life_dual in Hlife. destruct (receives_wakes _ _ _ _ _ _ _ _ _ a x brs x' Hrun Hlife) as [Hp Hn]; [left; by exists b0|done|].
  destruct Hp as [[b Hb]|]; [by destruct (Hn b)|done].
Qed.


(** ** A file that comes before its chunk *)

Definition toyEXIF : EXIF := {|
  exif := unit; tag := unit;
  exifDecode _ := (tt, Some (ErrMsg "no EXIF"));
  IsCriticalError _ := true; IsGPSError _ := false; IsTagNotPresentError _ := true;
  walk _ := ([], false); tagId _ := 0; tagFormat _ := OtherVal; tagCount _ := 0;
  tagStringVal _ := Ok []; tagInt _ _ := Ok 0; tagRat2 _ _ := Ok (0, 0); tagFloat _ _ := Ok []; LatLong _ := Ok ([], [])
|}.

(** The index without pictures, music or other files to be told by their
    content; at most two levels of files. *)
Definition toyImage : reader -> res (Z * Z) := fun _ => Err (ErrMsg "no image").
Definition toyTime : gostr -> res gotime := fun _ => Err (ErrMsg "no time").
Definition toyMusic : gostr -> Z -> res musicTag := fun _ _ => Err (ErrMsg "no tag").
Definition toyReceive : memIndex -> Ref -> reader -> memIndex * res SizedRef :=
  @ReceiveBlob _ _ _ _ toyPGP toyEXIF (@sortByKey) (fun _ l => l) id toyImage toyTime toyMusic 2.
Definition toyTickled : memIndex -> memIndex * res unit :=
  @oooTickled _ _ _ _ toyPGP toyEXIF (@sortByKey) (fun _ l => l) id toyImage toyTime toyMusic 2 newHub (fun _ => ErrMsg "hook") 9.

Definition started (rows : list (gostr * gostr)) (src : blobs) : memIndex :=
  match (New (@sortByKey) false (CorpusSpec.exampleStore rows) : _ * res memIndex).2 with
  | Ok x => setRunning (setSource x (Some src)) true
  | _ => exampleIndex []
  end.
Definition rowOf (x : memIndex) (k : gostr) : option gostr := kv_view (ix_s x) !! k.

Definition waitingFile : memIndex := (toyReceive (started [] (blobsOf [exampleFile])) (refOf exampleFile) (exampleFile, Ok tt)).1.
Definition wokenFile : memIndex := (toyReceive (setSource waitingFile (Some exampleFiles)) (refOf (gs "a")) (gs "a", Ok tt)).1.

Example late_chunk :
  let fr := RefString (refOf exampleFile) in
  let a := refOf (gs "a") in
  (fun x => (needs x !! refOf exampleFile, rowOf x (gs "have:" ++ fr), rowOf x (gs "missing|" ++ fr ++ gs "|" ++ RefString a)))
    waitingFile = (Some [a; a], None, Some (gs "1")) /\
  (fun x => (bool_decide (readyReindex x = ∅), rowOf x (gs "fileinfo|" ++ fr), rowOf x (gs "have:" ++ fr),
             rowOf x (gs "missing|" ++ fr ++ gs "|" ++ RefString a)))
    (toyTickled wokenFile).1 = (true, Some (gs "1|x|a"), Some (itoa (glen exampleFile) ++ gs "|indexed"), None).
Proof. split; vm_compute; reflexivity. Qed.

Abbreviation toyLife := (@life _ _ _ _ toyPGP toyEXIF (@sortByKey) (fun _ l => l) id toyImage toyTime toyMusic 2 newHub (fun _ => ErrMsg "hook")).
Abbreviation toyReceives := (@receives _ _ _ _ toyPGP toyEXIF (@sortByKey) (fun _ l => l) id toyImage toyTime toyMusic 2 newHub (fun _ => ErrMsg "hook")).

Lemma started_life rows src : is_ok (New (@sortByKey) false (CorpusSpec.exampleStore rows) : _ * res memIndex).2 = true -> toyLife (started rows src).
Proof.
  intros Hok. unfold started. destruct (New _ _ _) as [s' [x|e|p|]] eqn:E; cbn [snd is_ok] in *; [|done..].
  apply life_running, life_source. by eapply life_new.
Qed.

Lemma receives_one a x br src : br <> a -> is_ok (toyReceive x br src).2 = true -> toyReceives a x [br] (toyReceive x br src).1.
Proof.
  intros Hne Hok. unfold toyReceive in *. destruct (ReceiveBlob _ _ _ _ _ _ _ x br src) as [x1 r] eqn:E. cbn [fst snd] in *.
  assert ([br] = if is_ok r then br :: [] else []) as -> by by rewrite Hok. eapply rc_call; [done|exact E|]. apply rc_done.
Qed.

Lemma late_blobs_wake_witness : refOf exampleFile ∈ readyReindex wokenFile /\ tickleOoo wokenFile = true.
Proof.
  apply (@late_blobs_wake _ _ _ _ toyPGP toyEXIF (@sortByKey) (fun _ l => l) id toyImage toyTime toyMusic 2 newHub (fun _ => ErrMsg "hook")
    waitingFile wokenFile (refOf exampleFile) (refOf (gs "a")) [refOf (gs "a")]).
  - apply life_receive, started_life. vm_compute. reflexivity.
  - unfold waits. apply (bool_decide_unpack _). vm_compute. exact I.
  - apply rc_source with (bs := Some exampleFiles). apply receives_one; [|vm_compute; reflexivity].
    apply (bool_decide_unpack _). vm_compute. exact I.
  - assert (needs waitingFile !! refOf exampleFile = Some [refOf (gs "a"); refOf (gs "a")]) as E by (vm_compute; reflexivity).
    intros b. unfold waits. rewrite E. cbn [default from_option id]. rewrite !elem_of_cons, elem_of_nil. tauto.
Defined.

(** ** A deletion that comes before its permanode *)

Definition permanodeText : gostr := match Blob_ (NewPlannedPermanode (gs "key")) with Ok b => b_str b | _ => [] end.
Definition deleteText : gostr :=
  match (let? bb := NewDeleteClaim exampleNow (refOf permanodeText) in @SignAt toyPGP bb exampleSigner) with Ok t => t | _ => [] end.
Definition deleteSource : blobs := <[exampleKeyRef := toyKeyBlob]> (blobsOf [permanodeText; deleteText]).

Definition inMemory (x : memIndex) : memIndex := (KeepInMemory (@sortByKey) (fun _ l => l) x).1.
Definition waitingDelete : memIndex :=
  (toyReceive (inMemory (started [] deleteSource)) (refOf deleteText) (deleteText, Ok tt)).1.
Definition deleted : memIndex :=
  (toyTickled (toyReceive waitingDelete (refOf permanodeText) (permanodeText, Ok tt)).1).1.

(** The claim waits in memory, but its row is removed at once; and when the
    permanode has come, the row of the deletion is written, the cache knows
    it, and the corpus does not. *)
Example early_delete :
  let dr := RefString (refOf deleteText) in
  let pr := RefString (refOf permanodeText) in
  (fun x => (needs x !! refOf deleteText, rowOf x (gs "missing|" ++ dr ++ gs "|" ++ pr), rowOf x (gs "have:" ++ dr)))
    waitingDelete = (Some [refOf permanodeText], None, Some (itoa (glen deleteText))) /\
  (fun x => (rowOf x (gs "deleted|" ++ pr ++ gs "|" ++ reverseTimeString (formatTime3339 exampleNow) ++ gs "|" ++ dr),
             IsDeleted x (refOf permanodeText),
             (fun c => Corpus.IsDeleted c (refOf permanodeText)) <$> ix_corpus x,
             (fun c => Corpus.IsDeleted c (refOf permanodeText)) <$> ix_corpus (inMemory x)))
    deleted = (Some [], Ok true, Some (Ok false), Some (Ok true)).
Proof. split; vm_compute; reflexivity. Qed.

(** ** A directory that comes before its static set *)

Definition setText : gostr := match staticSetBlob [refOf (gs "a")] with Ok b => b_str b | _ => [] end.
Definition dirText : gostr :=
  match (let? m := NewDirMap (gs "d") in Blob_ (PopulateDirectoryMap m (refOf setText))) with Ok b => b_str b | _ => [] end.

(** It counts as indexed without its members, and waits for nothing. *)
Example early_directory :
  let dr := RefString (refOf dirText) in
  (fun x => (rowOf x (gs "have:" ++ dr), rowOf x (gs "fileinfo|" ++ dr), needs x !! refOf dirText))
    (toyReceive (started [] (blobsOf [dirText])) (refOf dirText) (dirText, Ok tt)).1 =
    (Some (itoa (glen dirText) ++ gs "|indexed"), None, None) /\
  (fun x => (rowOf x (gs "fileinfo|" ++ dr), rowOf x (gs "dirchild|" ++ dr ++ gs "|" ++ RefString (refOf (gs "a")))))
    (toyReceive (started [] (blobsOf [dirText; setText])) (refOf dirText) (dirText, Ok tt)).1 =
    (Some (gs "1|d|"), Some (gs "1")).
Proof. split; vm_compute; reflexivity. Qed.

(** ** A file that comes before what its parts nest in *)

Definition nestedText : gostr := fileText (gs "n") 1 [MkPart 1 zeroRef (refOf (gs "b")) 0].

(** The error of the nested fetch is not the one that the index waits for. *)
Example early_nested :
  (fun y => (y.2, needs y.1 !! refOf nestedText)) (toyReceive (started [] (blobsOf [nestedText])) (refOf nestedText) (nestedText, Ok tt)) =
    (Err (ErrMsg "schema/filereader: fetching file schema blob: %v"), None).
Proof. vm_compute. reflexivity. Qed.

(** ** A deletion of a file *)

Definition deleteFileText : gostr :=
  match (let? bb := NewDeleteClaim exampleNow (refOf exampleFile) in @SignAt toyPGP bb exampleSigner) with Ok t => t | _ => [] end.
Definition fileDeleted : memIndex :=
  let src : blobs := <[exampleKeyRef := toyKeyBlob]> (<[refOf deleteFileText := deleteFileText]> exampleFiles) in
  let x := (toyReceive (inMemory (started [] src)) (refOf exampleFile) (exampleFile, Ok tt)).1 in
  (toyReceive x (refOf deleteFileText) (deleteFileText, Ok tt)).1.

(** Only permanodes and claims can be deleted, and no row says that a file
    is; but the corpus is told of it, and forgets it when it is loaded again. *)
Example file_deletion :
  (fun x => (kv_view (ix_s x) !! (gs "deleted|" ++ RefString (refOf exampleFile) ++ gs "|" ++ reverseTimeString (formatTime3339 exampleNow) ++
               gs "|" ++ RefString (refOf deleteFileText)),
             (fun c => Corpus.IsDeleted c (refOf exampleFile)) <$> ix_corpus x,
             (fun c => Corpus.IsDeleted c (refOf exampleFile)) <$> ix_corpus (inMemory x)))
    fileDeleted = (None, Some (Ok true), Some (Ok false)).
Proof. vm_compute. reflexivity. Qed.
