(* ===== verification/Constraint.v ===== *)
(** Search constraints: the types of pkg/search/query.go, when they are valid,
    and how numbers, strings and times match. *)

From Stdlib Require Import SpecFloat.
From S2P Require Import Prelude Ref Strutil SortedKV Sha1 Storage Receive Times Json Schema FileReader IndexKeys Corpus CorpusRows Enumerate Jsonsign Claims Dirs Media Index IndexReceive Runes.

(** * Sorting *)

(** [SortType], an [int]; the constants in their order. *)
Definition UnspecifiedSort : Z := 0.
Definition LastModifiedDesc : Z := 1.
Definition LastModifiedAsc : Z := 2.
Definition CreatedDesc : Z := 3.
Definition CreatedAsc : Z := 4.
Definition maxSortType : Z := 5.

Definition sortName (t : Z) : option gostr :=
  if t =? LastModifiedDesc then Some (dquote :: gs "-mod" ++ [dquote])
  else if t =? LastModifiedAsc then Some (dquote :: gs "mod" ++ [dquote])
  else if t =? CreatedDesc then Some (dquote :: gs "-created" ++ [dquote])
  else if t =? CreatedAsc then Some (dquote :: gs "created" ++ [dquote])
  else None.

Definition marshalSort (t : Z) : res gostr :=
  match sortName t with Some v => Ok v | None => Panic "unnamed SortType " end.

(** The range over the map finds the only sort of that name. *)
Definition unmarshalSort (v : gostr) : res Z :=
  match filter (fun t => sortName t = Some v) [LastModifiedDesc; LastModifiedAsc; CreatedDesc; CreatedAsc] with
  | t :: _ => Ok t
  | [] => Err (ErrMsg "Bogus search sort type %q")
  end.

(** * Constraints on values *)

Record IntConstraint := MkInt { ic_Min : Z; ic_Max : Z; ic_ZeroMin : bool; ic_ZeroMax : bool }.
Record FloatConstraint := MkFloat { fc_Min : float64; fc_Max : float64; fc_ZeroMin : bool; fc_ZeroMax : bool }.
Record StringConstraint := MkString {
  sc_Empty : bool; sc_Equals : gostr; sc_Contains : gostr; sc_HasPrefix : gostr; sc_HasSuffix : gostr;
  sc_ByteLength : option IntConstraint; sc_CaseInsensitive : bool
}.
(** [tc_InLast] is a duration in nanoseconds. *)
Record TimeConstraint := MkTime { tc_Before : gotime; tc_After : gotime; tc_InLast : Z }.
Record LocationConstraint := MkLocation { lc_Any : bool; lc_North : float64; lc_West : float64; lc_East : float64; lc_South : float64 }.
Record MediaTagConstraint := MkMediaTag { mc_Tag : gostr; mc_String : option StringConstraint; mc_Int : option IntConstraint }.

(** [EXIFConstraint] has no fields yet. *)
Record FileConstraint := MkFile {
  f_FileSize : option IntConstraint; f_FileName : option StringConstraint; f_MIMEType : option StringConstraint;
  f_Time : option TimeConstraint; f_ModTime : option TimeConstraint; f_WholeRef : Ref; f_IsImage : bool; f_EXIF : option unit;
  f_Width : option IntConstraint; f_Height : option IntConstraint; f_WHRatio : option FloatConstraint;
  f_Location : option LocationConstraint; f_MediaTag : option MediaTagConstraint
}.
Record DirConstraint := MkDir {
  d_FileName : option StringConstraint; d_TopFileSize : option IntConstraint; d_TopFileCount : option IntConstraint;
  d_FileSize : option IntConstraint; d_FileCount : option IntConstraint
}.
Record ClaimConstraint := MkClaimConstraint { cc_SignedBy : gostr; cc_SignedAfter : gotime; cc_SignedBefore : gotime }.
Record PermanodeContinueConstraint := MkContinue { pcc_LastMod : gotime; pcc_LastCreated : gotime; pcc_Last : Ref }.

(** * Constraints *)

Inductive Constraint := MkConstraint
  (c_Logical : option LogicalConstraint) (c_Anything : bool) (c_CamliType : gostr) (c_AnyCamliType : bool) (c_BlobRefPrefix : gostr)
  (c_File : option FileConstraint) (c_Dir : option DirConstraint) (c_Claim : option ClaimConstraint)
  (c_BlobSize : option IntConstraint) (c_Permanode : option PermanodeConstraint)
with LogicalConstraint := MkLogical (lc_Op : gostr) (lc_A lc_B : option Constraint)
with PermanodeConstraint := MkPermanode
  (pc_At : gotime) (pc_ModTime pc_Time : option TimeConstraint) (pc_Attr : gostr) (pc_SkipHidden : bool) (pc_NumValue : option IntConstraint)
  (pc_ValueAll : bool) (pc_Value : gostr) (pc_ValueMatches : option StringConstraint) (pc_ValueMatchesInt : option IntConstraint)
  (pc_ValueMatchesFloat : option FloatConstraint) (pc_ValueInSet : option Constraint) (pc_Relation : option RelationConstraint)
  (pc_Location : option LocationConstraint) (pc_Continue : option PermanodeContinueConstraint)
with RelationConstraint := MkRelation (rc_Relation rc_EdgeType : gostr) (rc_Any rc_All : option Constraint).

Section fields.
Implicit Types (c : Constraint) (l : LogicalConstraint) (p : PermanodeConstraint) (r : RelationConstraint).
Definition c_Logical c := let 'MkConstraint x _ _ _ _ _ _ _ _ _ := c in x.
Definition c_Anything c := let 'MkConstraint _ x _ _ _ _ _ _ _ _ := c in x.
Definition c_CamliType c := let 'MkConstraint _ _ x _ _ _ _ _ _ _ := c in x.
Definition c_AnyCamliType c := let 'MkConstraint _ _ _ x _ _ _ _ _ _ := c in x.
Definition c_BlobRefPrefix c := let 'MkConstraint _ _ _ _ x _ _ _ _ _ := c in x.
Definition c_File c := let 'MkConstraint _ _ _ _ _ x _ _ _ _ := c in x.
Definition c_Dir c := let 'MkConstraint _ _ _ _ _ _ x _ _ _ := c in x.
Definition c_Claim c := let 'MkConstraint _ _ _ _ _ _ _ x _ _ := c in x.
Definition c_BlobSize c := let 'MkConstraint _ _ _ _ _ _ _ _ x _ := c in x.
Definition c_Permanode c := let 'MkConstraint _ _ _ _ _ _ _ _ _ x := c in x.
Definition lc_Op l := let 'MkLogical x _ _ := l in x.
Definition lc_A l := let 'MkLogical _ x _ := l in x.
Definition lc_B l := let 'MkLogical _ _ x := l in x.
Definition pc_At p := let 'MkPermanode x _ _ _ _ _ _ _ _ _ _ _ _ _ _ := p in x.
Definition pc_ModTime p := let 'MkPermanode _ x _ _ _ _ _ _ _ _ _ _ _ _ _ := p in x.
Definition pc_Time p := let 'MkPermanode _ _ x _ _ _ _ _ _ _ _ _ _ _ _ := p in x.
Definition pc_Attr p := let 'MkPermanode _ _ _ x _ _ _ _ _ _ _ _ _ _ _ := p in x.
Definition pc_SkipHidden p := let 'MkPermanode _ _ _ _ x _ _ _ _ _ _ _ _ _ _ := p in x.
Definition pc_NumValue p := let 'MkPermanode _ _ _ _ _ x _ _ _ _ _ _ _ _ _ := p in x.
Definition pc_ValueAll p := let 'MkPermanode _ _ _ _ _ _ x _ _ _ _ _ _ _ _ := p in x.
Definition pc_Value p := let 'MkPermanode _ _ _ _ _ _ _ x _ _ _ _ _ _ _ := p in x.
Definition pc_ValueMatches p := let 'MkPermanode _ _ _ _ _ _ _ _ x _ _ _ _ _ _ := p in x.
Definition pc_ValueMatchesInt p := let 'MkPermanode _ _ _ _ _ _ _ _ _ x _ _ _ _ _ := p in x.
Definition pc_ValueMatchesFloat p := let 'MkPermanode _ _ _ _ _ _ _ _ _ _ x _ _ _ _ := p in x.
Definition pc_ValueInSet p := let 'MkPermanode _ _ _ _ _ _ _ _ _ _ _ x _ _ _ := p in x.
Definition pc_Relation p := let 'MkPermanode _ _ _ _ _ _ _ _ _ _ _ _ x _ _ := p in x.
Definition pc_Location p := let 'MkPermanode _ _ _ _ _ _ _ _ _ _ _ _ _ x _ := p in x.
Definition pc_Continue p := let 'MkPermanode _ _ _ _ _ _ _ _ _ _ _ _ _ _ x := p in x.
Definition rc_Relation r := let 'MkRelation x _ _ _ := r in x.
Definition rc_EdgeType r := let 'MkRelation _ x _ _ := r in x.
Definition rc_Any r := let 'MkRelation _ _ x _ := r in x.
Definition rc_All r := let 'MkRelation _ _ _ x := r in x.
End fields.

(** Go's zero values. *)
Definition zeroInt : IntConstraint := MkInt 0 0 false false.
Definition zeroFloat : FloatConstraint := MkFloat floatZero floatZero false false.
Definition zeroString : StringConstraint := MkString false [] [] [] [] None false.
Definition zeroFile : FileConstraint := MkFile None None None None None zeroRef false None None None None None None.
Definition zeroPermanode : PermanodeConstraint := MkPermanode 0 None None [] false None false [] None None None None None None None.
Definition onLogical (l : LogicalConstraint) : Constraint := MkConstraint (Some l) false [] false [] None None None None None.
Definition onPermanode (p : PermanodeConstraint) : Constraint := MkConstraint None false [] false [] None None None None (Some p).
Definition onFile (f : FileConstraint) : Constraint := MkConstraint None false [] false [] (Some f) None None None None.
Definition onPrefix (pfx : gostr) : Constraint := MkConstraint None false [] false pfx None None None None None.

(** [andConst], [orConst], [notConst] of expr.go *)
Definition andConst (a b : Constraint) : Constraint := onLogical (MkLogical (gs "and") (Some a) (Some b)).
Definition orConst (a b : Constraint) : Constraint := onLogical (MkLogical (gs "or") (Some a) (Some b)).
Definition notConst (a : Constraint) : Constraint := onLogical (MkLogical (gs "not") (Some a) None).

(** * Validity *)

Definition intHasMin (c : IntConstraint) : bool := negb (ic_Min c =? 0) || ic_ZeroMin c.
Definition intHasMax (c : IntConstraint) : bool := negb (ic_Max c =? 0) || ic_ZeroMax c.

Definition intCheckValid (c : option IntConstraint) : res unit :=
  match c with
  | None => Ok tt
  | Some c =>
      if ic_ZeroMin c && negb (ic_Min c =? 0) then Err (ErrMsg "in IntConstraint, can't set both ZeroMin and Min")
      else if ic_ZeroMax c && negb (ic_Max c =? 0) then Err (ErrMsg "in IntConstraint, can't set both ZeroMax and Max")
      else if intHasMax c && intHasMin c && (ic_Max c <? ic_Min c) then Err (ErrMsg "in IntConstraint, min is greater than max")
      else Ok tt
  end.

Definition floatHasMin (c : FloatConstraint) : bool := negb (feqb (fc_Min c) floatZero) || fc_ZeroMin c.
Definition floatHasMax (c : FloatConstraint) : bool := negb (feqb (fc_Max c) floatZero) || fc_ZeroMax c.

(** [FloatConstraint.checkValid], which nothing calls. *)
Definition floatCheckValid (c : option FloatConstraint) : res unit :=
  match c with
  | None => Ok tt
  | Some c =>
      if fc_ZeroMin c && negb (feqb (fc_Min c) floatZero) then Err (ErrMsg "in FloatConstraint, can't set both ZeroMin and Min")
      else if fc_ZeroMax c && negb (feqb (fc_Max c) floatZero) then Err (ErrMsg "in FloatConstraint, can't set both ZeroMax and Max")
      else if floatHasMax c && floatHasMin c && fltb (fc_Max c) (fc_Min c) then Err (ErrMsg "in FloatConstraint, min is greater than max")
      else Ok tt
  end.

Definition pccCheckValid (pcc : PermanodeContinueConstraint) : res unit :=
  if Bool.eqb (pcc_LastMod pcc =? 0) (pcc_LastCreated pcc =? 0) then
    Err (ErrMsg "exactly one of PermanodeContinueConstraint LastMod or LastCreated must be defined")
  else Ok tt.

Definition isNone {A} (o : option A) : bool := match o with None => true | Some _ => false end.

Definition rcCheckValid (rc : RelationConstraint) : res unit :=
  if negb (bool_decide (rc_Relation rc = gs "parent")) then
    Err (ErrMsg "only RelationConstraint.Relation of 'parent' is currently supported")
  else if Bool.eqb (isNone (rc_Any rc)) (isNone (rc_All rc)) then
    Err (ErrMsg "exactly one of RelationConstraint Any or All must be defined")
  else Ok tt.

Definition hasValueConstraint (p : PermanodeConstraint) : bool :=
  negb (bool_decide (pc_Value p = [])) || negb (isNone (pc_ValueMatches p)) || negb (isNone (pc_ValueMatchesInt p)) ||
  negb (isNone (pc_ValueMatchesFloat p)) || negb (isNone (pc_ValueInSet p)).

Definition numValueCheckValid (p : PermanodeConstraint) : res unit :=
  match pc_NumValue p with
  | None => if hasValueConstraint p then Ok tt
            else Err (ErrMsg "PermanodeConstraint with Attr requires also setting NumValue or a value-matching constraint")
  | Some nv =>
      if ic_ZeroMin nv then Err (ErrMsg "NumValue with ZeroMin makes no sense; matches everything")
      else if ic_ZeroMax nv && hasValueConstraint p then
        Err (ErrMsg "NumValue with ZeroMax makes no sense in conjunction with a value-matching constraint; matches nothing")
      else if (ic_Min nv <? 0) || (ic_Max nv <? 0) then Err (ErrMsg "NumValue with negative Min or Max makes no sense")
      else Ok tt
  end.

Definition pnCheckValid (p : option PermanodeConstraint) : res unit :=
  match p with
  | None => Ok tt
  | Some p =>
      let? _ := if decide (pc_Attr p = []) then Ok tt else numValueCheckValid p in
      let? _ := match pc_Relation p with Some rc => rcCheckValid rc | None => Ok tt end in
      match pc_Continue p with Some pcc => pccCheckValid pcc | None => Ok tt end
  end.

(** [Constraint.checkValid] with that of [LogicalConstraint]; those of files
    and directories accept anything.  The constraints inside a permanode's
    are not looked at. *)
Fixpoint checkValid (c : Constraint) : res unit :=
  match c with
  | MkConstraint lg _ _ _ _ _ _ claim bs pn =>
      match claim with
      | Some _ => Err (ErrMsg "TODO: implement ClaimConstraint")
      | None =>
          let? _ := match lg with
                    | None => Ok tt
                    | Some (MkLogical op a b) =>
                        match a with
                        | None => Err (ErrMsg "In LogicalConstraint, need to set A")
                        | Some a =>
                            let? _ := checkValid a in
                            if bool_decide (op ∈ [gs "and"; gs "xor"; gs "or"]) then
                              match b with
                              | None => Err (ErrMsg "In LogicalConstraint, need both A and B set")
                              | Some b => checkValid b
                              end
                            else if bool_decide (op = gs "not") then Ok tt
                            else Err (ErrMsg "In LogicalConstraint, unknown operation %q")
                        end
                    end in
          let? _ := intCheckValid bs in
          pnCheckValid pn
      end
  end.

(** [onlyMatchesPermanode]; a missing operand is a nil pointer. *)
Fixpoint onlyMatchesPermanode (c : Constraint) : res bool :=
  match c with
  | MkConstraint lg _ ct _ _ _ _ _ _ pn =>
      if negb (isNone pn) || bool_decide (ct = gs "permanode") then Ok true
      else
        match lg with
        | Some (MkLogical op a b) =>
            if bool_decide (op = gs "and") then
              match a with
              | None => Panic "nil pointer dereference"
              | Some a =>
                  let? oa := onlyMatchesPermanode a in
                  if oa : bool then Ok true
                  else match b with None => Panic "nil pointer dereference" | Some b => onlyMatchesPermanode b end
              end
            else Ok false
        | None => Ok false
        end
  end.

(** * Matching values *)

Definition intMatches (c : IntConstraint) (v : Z) : bool :=
  negb (intHasMin c && (v <? ic_Min c)) && negb (intHasMax c && (ic_Max c <? v)).

Definition floatMatches (c : FloatConstraint) (v : float64) : bool :=
  negb (floatHasMin c && fltb v (fc_Min c)) && negb (floatHasMax c && fltb (fc_Max c) v).

Definition matchesLatLong (c : LocationConstraint) (lat long : float64) : bool :=
  lc_Any c || (fleb (lc_West c) long && fleb long (lc_East c) && fleb (lc_South c) lat && fleb lat (lc_North c)).

Definition stringConstraintFuncs : list ((StringConstraint -> gostr) * (gostr -> gostr -> bool)) := [
  (sc_Equals, fun a b => bool_decide (a = b)); (sc_Contains, contains);
  (sc_HasPrefix, fun s v => isPrefixB v s); (sc_HasSuffix, hasSuffix)].

Definition stringConstraintFuncsFold `{Unicode} : list ((StringConstraint -> gostr) * (gostr -> gostr -> bool)) := [
  (sc_Equals, EqualFold); (sc_Contains, ContainsFold); (sc_HasPrefix, HasPrefixFold); (sc_HasSuffix, HasSuffixFold)].

Definition stringMatches `{Unicode} (c : StringConstraint) (s : gostr) : bool :=
  if sc_Empty c && (0 <? glen s) then false
  else if match sc_ByteLength c with Some bl => negb (intMatches bl (glen s)) | None => false end then false
  else forallb (fun p => bool_decide (p.1 c = []) || p.2 s (p.1 c))
         (if sc_CaseInsensitive c then stringConstraintFuncsFold else stringConstraintFuncs).

(** [timeMatches]; [now] is the clock.  [Time3339.IsZero] also holds at the
    Unix epoch, [time.Time.IsZero] does not. *)
Definition timeMatches (now : gotime) (c : TimeConstraint) (t : gotime) : bool :=
  if t =? 0 then false
  else if negb (time3339IsZero (tc_Before c)) && negb (t <? tc_Before c) then false
  else
    let after := if (tc_After c =? 0) && (0 <? tc_InLast c) then now - tc_InLast c else tc_After c in
    (after =? 0) || (after <=? t).

(** [RelationConstraint.matchesAttr] *)
Definition matchesAttr (rc : RelationConstraint) (attr : gostr) : bool :=
  if decide (rc_EdgeType rc = []) then bool_decide (attr = gs "camliMember") || isPrefixB (gs "camliPath:") attr
  else bool_decide (attr = rc_EdgeType rc).
