(* ===== verification/Predicate.v ===== *)
(** The atoms of search expressions: pkg/search/predicate.go.

    [Lookup] is [geocode.Lookup], which asks a web service for the rectangles
    of a place. *)

From Stdlib Require Import SpecFloat.
From S2P Require Import Prelude Ref Strutil SortedKV Times Json Schema IndexKeys Runes Constraint.

Definition colon : ascii := ":".

Record atom := MkAtom { predicate : gostr; args : list gostr }.

(** [atom.String] *)
Definition atomString (a : atom) : gostr := predicate a ++ concat (map (fun arg => colon :: arg) (args a)).

(** [geocode.Rect] *)
Record LatLong := MkGeo { ll_Lat : float64; ll_Long : float64 }.
Record Rect := MkRect { NorthEast : LatLong; SouthWest : LatLong }.

(** The interface [keyword]. *)
Record keyword := MkKeyword { kw_Name : gostr; kw_Match : atom -> res bool; kw_Predicate : list gostr -> res Constraint }.

(** ** Helpers *)

Definition attrConst (attr val : gostr) : Constraint :=
  let p value matches := MkPermanode 0 None None attr true None false value matches None None None None None None in
  onPermanode (if decide (val = []) then p [] (Some (MkString true [] [] [] [] None false)) else p val None).

Definition permOfFile (fc : FileConstraint) : Constraint :=
  onPermanode (MkPermanode 0 None None (gs "camliContent") false None false [] None None None (Some (onFile fc)) None None None).

Definition whRatio (fc : FloatConstraint) : Constraint :=
  permOfFile (MkFile None None None None None zeroRef true None None None (Some fc) None None).

(** A leading run of digits, if it has at most ten. *)
Definition digits10 (s : gostr) : option (gostr * gostr) :=
  let '(d, rest) := spanD s in if (length d <=? 10)%nat then Some (d, rest) else None.

(** [whRangeExpr], [whValueExpr] *)
Definition whRangeExpr (expr : gostr) : option (gostr * gostr) :=
  match digits10 expr with
  | Some (m1, c :: rest) =>
      if decide (c = "-"%char) then match digits10 rest with Some (m2, []) => Some (m1, m2) | _ => None end else None
  | _ => None
  end.
Definition whValueExpr (expr : gostr) : option gostr :=
  match digits10 expr with Some (m, []) => if decide (m = []) then None else Some m | _ => None end.

Definition parseWHExpression (expr : gostr) : res (gostr * gostr) :=
  match whRangeExpr expr with
  | Some m => Ok m
  | None =>
      match whValueExpr expr with
      | Some m => Ok (m, m)
      | None => Err (ErrMsg "Unable to parse %q as range, wanted something like 480-1024, 480-, -1024 or 1024")
      end
  end.

Definition base : gostr := gs "0000-01-01T00:00:00Z".

Definition parseTimePrefix (when : gostr) : res gotime :=
  let when := if glen when <? glen base then when ++ drop (length when) base else when in
  match ParseRFC3339 when with Some t => Ok t | None => Err (ErrMsg "parsing time") end.

(** [strconv.Atoi] of at most ten digits. *)
Definition digitsVal (s : gostr) : Z := foldl (fun n c => n * 10 + (bz c - 48)) 0 s.

Definition whIntConstraint (mins maxs : gostr) : IntConstraint :=
  let '(min, zmin) := if decide (mins = []) then (0, false) else if decide (mins = gs "0") then (0, true) else (digitsVal mins, false) in
  let '(max, zmax) := if decide (maxs = []) then (0, false) else if decide (maxs = gs "0") then (0, true) else (digitsVal maxs, false) in
  MkInt min max zmin zmax.

Definition mimeFromFormat (v : gostr) : res gostr :=
  if bool_decide ("/"%char ∈ v) then Ok v
  else if bool_decide (v ∈ [gs "jpg"; gs "jpeg"]) then Ok (gs "image/jpeg")
  else if bool_decide (v = gs "gif") then Ok (gs "image/gif")
  else if bool_decide (v = gs "png") then Ok (gs "image/png")
  else if bool_decide (v = gs "pdf") then Ok (gs "application/pdf")
  else Err (ErrMsg "Unknown format: %s").

(** ** Matchers *)

(** [matchEqual] *)
Definition equalMatch (me : gostr) (a : atom) : res bool := Ok (bool_decide (me = atomString a)).

(** [matchPrefix] *)
Definition prefixMatch (prefix : gostr) (count : Z) (a : atom) : res bool :=
  if decide (prefix = predicate a) then
    if glen (args a) =? count then Ok true else Err (ErrMsg "Wrong number of arguments for %q, given %d, expected %d")
  else Ok false.

Definition argAt (i : nat) (l : list gostr) : res gostr :=
  match l !! i with Some a => Ok a | None => Panic "index out of range" end.

Definition newMatchPrefix (name : string) (pred : gostr -> res Constraint) : keyword :=
  MkKeyword (gs name) (prefixMatch (gs name) 1) (fun args => let? a := argAt 0 args in pred a).
Definition newMatchEqual (name : string) (c : Constraint) : keyword :=
  MkKeyword (gs name) (equalMatch (gs name)) (fun _ => Ok c).

(** ** Keywords *)

Definition timeConst (before after : gotime) : Constraint :=
  onPermanode (MkPermanode 0 None (Some (MkTime before after 0)) [] false None false [] None None None None None None None).

Definition newAfter : keyword := newMatchPrefix "after" (fun a => let? t := parseTimePrefix a in Ok (timeConst 0 t)).
Definition newBefore : keyword := newMatchPrefix "before" (fun a => let? t := parseTimePrefix a in Ok (timeConst t 0)).

Definition newAttribute : keyword :=
  MkKeyword (gs "attr") (prefixMatch (gs "attr") 2) (fun args =>
    let? attr := argAt 0 args in
    let? val := argAt 1 args in
    match val with
    | "~"%char :: sub =>
        Ok (onPermanode (MkPermanode 0 None None attr true None false [] (Some (MkString false [] sub [] [] None true)) None None None None None None))
    | _ => Ok (attrConst attr val)
    end).

Definition newChildrenOf : keyword :=
  newMatchPrefix "childrenof" (fun a =>
    Ok (onPermanode (MkPermanode 0 None None [] false None false [] None None None None
                       (Some (MkRelation (gs "parent") [] (Some (onPrefix a)) None)) None None))).

Definition newFormat : keyword :=
  newMatchPrefix "format" (fun a =>
    let? mimeType := mimeFromFormat a in
    Ok (permOfFile (MkFile None None (Some (MkString false mimeType [] [] [] None false)) None None zeroRef false None None None None None None))).

Definition newTag : keyword := newMatchPrefix "tag" (fun a => Ok (attrConst (gs "tag") a)).

Definition newTitle : keyword :=
  newMatchPrefix "title" (fun a =>
    Ok (onPermanode (MkPermanode 0 None None (gs "title") true None false [] (Some (MkString false [] a [] [] None true)) None None None None None None))).

Definition imageFile (width height : option IntConstraint) (loc : option LocationConstraint) : FileConstraint :=
  MkFile None None None None None zeroRef true None width height None loc None.

Definition newIsImage : keyword := newMatchEqual "is:image" (permOfFile (imageFile None None None)).
Definition newIsLandscape : keyword := newMatchEqual "is:landscape" (whRatio (MkFloat (floatOf 1) floatZero false false)).
Definition newIsPano : keyword := newMatchEqual "is:pano" (whRatio (MkFloat (floatOf 2) floatZero false false)).
Definition newIsPortait : keyword := newMatchEqual "is:portrait" (whRatio (MkFloat floatZero (floatOf 1) false false)).

Definition newWidth : keyword :=
  newMatchPrefix "width" (fun a => let? m := parseWHExpression a in Ok (permOfFile (imageFile (Some (whIntConstraint m.1 m.2)) None None))).
Definition newHeight : keyword :=
  newMatchPrefix "height" (fun a => let? m := parseWHExpression a in Ok (permOfFile (imageFile None (Some (whIntConstraint m.1 m.2)) None))).

(** An image file, or a permanode, at a place. *)
Definition atLocation (loc : LocationConstraint) : Constraint :=
  orConst (permOfFile (imageFile None None (Some loc)))
    (onPermanode (MkPermanode 0 None None [] false None false [] None None None None None (Some loc) None)).

Definition rectConst (r : Rect) : Constraint :=
  atLocation (MkLocation false (ll_Lat (NorthEast r)) (ll_Long (SouthWest r)) (ll_Long (NorthEast r)) (ll_Lat (SouthWest r))).

Definition newLocation (Lookup : gostr -> res (list Rect)) : keyword :=
  newMatchPrefix "loc" (fun where_ =>
    let? rects := Lookup where_ in
    match rects with
    | [] => Err (ErrMsg "No location found for %q")
    | r :: rects => Ok (foldl (fun c r => orConst c (rectConst r)) (rectConst r) rects)
    end).

Definition newHasLocation : keyword :=
  newMatchEqual "has:location" (atLocation (MkLocation true floatZero floatZero floatZero floatZero)).

Definition nodeTypeIs (t : string) : Constraint :=
  onPermanode (MkPermanode 0 None None (gs "camliNodeType") false None false (gs t) None None None None None None None).
Definition newIsPost : keyword := newMatchEqual "is:post" (nodeTypeIs "twitter.com:tweet").
Definition newIsCheckin : keyword := newMatchEqual "is:checkin" (nodeTypeIs "foursquare.com:checkin").

(** What [init] registers, in its order. *)
Definition keywords (Lookup : gostr -> res (list Rect)) : list keyword := [
  newAfter; newBefore; newAttribute; newChildrenOf; newFormat; newTag; newTitle;
  newIsImage; newHeight; newIsLandscape; newIsPano; newIsPortait; newWidth;
  newIsPost; newIsCheckin; newHasLocation; newLocation Lookup].
