(* ===== verification/SearchExpr.v ===== *)
(** Search expressions: pkg/search/lexer.go and expr.go.

    The lexer runs in a goroutine of its own and hands one token at a time to
    the parser over an unbuffered channel; here the parser holds the lexer and
    runs it up to its next token.  [keywords] are the atoms that are
    registered. *)

From S2P Require Import Prelude Ref Strutil SortedKV Times Json Schema IndexKeys Runes Constraint Predicate.

(** * Tokens *)

Inductive tokenType :=
| tokenAnd | tokenArg | tokenClose | tokenColon | tokenEOF | tokenError | tokenLiteral | tokenNot
| tokenOpen | tokenOr | tokenPredicate | tokenQuotedArg | tokenQuotedLiteral.

#[global] Instance tokenType_eq_dec : EqDecision tokenType.
Proof. solve_decision. Defined.

Record token := MkToken { typ : tokenType; val : gostr; start : Z }.

Definition eof : Z := -1.
Definition whitespace : gostr := [zb 9; zb 10; zb 12; zb 11; zb 13; zb 32].
Definition opBound : gostr := whitespace ++ gs "(".

Definition isSearchWordRune (r : Z) : bool :=
  if bool_decide (r ∈ [58; 41; 40; eof]) then false else negb (IsSpace r).

(** * The lexer *)

Record lexer := MkLexer { input : gostr; lstart : nat; pos : nat; width : nat }.

Definition emitted (l : lexer) (t : tokenType) : token :=
  MkToken t (take (pos l - lstart l) (drop (lstart l) (input l))) (Z.of_nat (lstart l)).
Definition ignore (l : lexer) : lexer := MkLexer (input l) (pos l) (pos l) (width l).

Definition lnext (l : lexer) : Z * lexer :=
  if (length (input l) <=? pos l)%nat then (eof, MkLexer (input l) (lstart l) (pos l) 0)
  else
    let '(r, w) := DecodeRune (drop (pos l) (input l)) in
    (r, MkLexer (input l) (lstart l) (pos l + w) w).

Definition backup (l : lexer) : lexer := MkLexer (input l) (lstart l) (pos l - width l) (width l).

Definition lpeek (l : lexer) : Z * lexer := let '(r, l) := lnext l in (r, backup l).

(** [strings.IndexRune(valid, r) >= 0] for an ASCII [valid] *)
Definition oneOf (valid : gostr) (r : Z) : bool := bool_decide (r ∈ map bz valid).

Definition accept (valid : gostr) (l : lexer) : bool * lexer :=
  let '(r, l) := lnext l in if oneOf valid r then (true, l) else (false, backup l).

Fixpoint acceptString (s : gostr) (l : lexer) : bool * lexer :=
  match s with
  | [] => (true, l)
  | c :: s => let '(r, l) := lnext l in if r =? bz c then acceptString s l else (false, backup l)
  end.

(** The loop ends at the latest at the end of the input, which no [valid]
    holds for. *)
Fixpoint acceptLoop (fuel : nat) (valid : Z -> bool) (l : lexer) : lexer :=
  match fuel with
  | O => l
  | S fuel => let '(r, l) := lnext l in if valid r then acceptLoop fuel valid l else backup l
  end.
Definition acceptRunFn (valid : Z -> bool) (l : lexer) : lexer := acceptLoop (S (length (input l) - pos l)) valid l.
Definition acceptRun (valid : gostr) (l : lexer) : lexer := acceptRunFn (oneOf valid) l.

(** The state functions; [None] is a nil [stateFn], which closes the channel. *)
Inductive stateFn :=
| readNeg | readClose | readOpen | readColon | readPredicate | readLiteral | readArg | readAND | readOR
| readQuotedLiteral | readQuotedArg | readExp | readOperator.

Definition lexStep := (lexer * option token * option stateFn)%type.

(** [emit], and what comes next. *)
Definition emit (l : lexer) (t : tokenType) (next : option stateFn) : lexStep := (ignore l, Some (emitted l t), next).
Definition errorf (l : lexer) (msg : string) : lexStep := (l, Some (MkToken tokenError (gs msg) (Z.of_nat (lstart l))), None).
Definition goto (l : lexer) (next : stateFn) : lexStep := (l, None, Some next).

(** [runQuoted] after the opening quote. *)
Fixpoint quotedLoop (fuel : nat) (l : lexer) : bool * lexer :=
  match fuel with
  | O => (false, l)
  | S fuel =>
      let '(r, l) := lnext l in
      if r =? eof then (false, l)
      else if r =? bz backslash then quotedLoop fuel (lnext l).2
      else if r =? bz dquote then (true, l)
      else quotedLoop fuel l
  end.
Definition runQuoted (l : lexer) : bool * lexer :=
  let l := (accept [dquote] l).2 in quotedLoop (S (length (input l) - pos l)) l.

(** What [readArg] and [readQuotedArg] do after their token. *)
Definition afterArg (l : lexer) (t : tokenType) : lexStep :=
  let l' := ignore l in
  (l', Some (emitted l t), Some (if (lpeek l').1 =? bz colon then readColon else readOperator)).

Section search.
Context `{Unicode}.

(** A call of the state function. *)
Definition runState (st : stateFn) (l : lexer) : lexStep :=
  match st with
  | readNeg => emit (accept (gs "-") l).2 tokenNot (Some readExp)
  | readClose => emit (accept (gs ")") l).2 tokenClose (Some readOperator)
  | readOpen => emit (accept (gs "(") l).2 tokenOpen (Some readExp)
  | readColon => emit (accept (gs ":") l).2 tokenColon (Some readArg)
  | readPredicate =>
      let l := acceptRunFn IsLetter l in
      let '(r, l) := lpeek l in
      if r =? bz colon then emit l tokenPredicate (Some readColon) else goto l readLiteral
  | readLiteral => emit (acceptRunFn isSearchWordRune l) tokenLiteral (Some readOperator)
  | readArg =>
      let '(r, l) := lpeek l in
      if r =? bz dquote then goto l readQuotedArg else afterArg (acceptRunFn isSearchWordRune l) tokenArg
  | readAND =>
      match acceptString (gs "and") l with
      | (true, l) =>
          match accept opBound l with
          | (true, l) => emit (backup l) tokenAnd (Some readExp)
          | (false, l) => goto l readPredicate
          end
      | (false, l) => goto l readPredicate
      end
  | readOR =>
      match acceptString (gs "or") l with
      | (true, l) =>
          match accept opBound l with
          | (true, l) => emit (backup l) tokenOr (Some readExp)
          | (false, l) => goto l readPredicate
          end
      | (false, l) => goto l readPredicate
      end
  | readQuotedLiteral =>
      match runQuoted l with
      | (true, l) => emit l tokenQuotedLiteral (Some readOperator)
      | (false, l) => errorf l "Unclosed quote"
      end
  | readQuotedArg =>
      match runQuoted l with
      | (true, l) => afterArg l tokenQuotedArg
      | (false, l) => errorf l "Unclosed quote"
      end
  | readExp =>
      let '(r, l) := lpeek (ignore (acceptRun whitespace l)) in
      if r =? eof then (l, None, None)
      else goto l (if r =? bz "(" then readOpen else if r =? bz ")" then readClose else if r =? bz "-" then readNeg
                   else if r =? bz dquote then readQuotedLiteral else readPredicate)
  | readOperator =>
      let '(r, l) := lpeek (ignore (acceptRun whitespace l)) in
      goto l (if r =? bz "a" then readAND else if r =? bz "o" then readOR else readExp)
  end.

(** [run] up to the next token; at most four state functions in a row send
    none. *)
Fixpoint runLexer (fuel : nat) (st : option stateFn) (l : lexer) : option token * option stateFn * lexer :=
  match fuel, st with
  | S fuel, Some s =>
      match runState s l with
      | (l, Some t, next) => (Some t, next, l)
      | (l, None, next) => runLexer fuel next l
      end
  | _, _ => (None, st, l)
  end.

(** * The parser *)

Record parser := MkParser { p_lexer : lexer; p_state : option stateFn; peeked : option token }.

Definition newParser (exp : gostr) : parser := MkParser (MkLexer exp 0 0 0) (Some readExp) None.

Definition eofToken : token := MkToken tokenEOF [] (-1).

Definition readInternal (p : parser) : token * parser :=
  match runLexer 6 (p_state p) (p_lexer p) with
  | (t, st, l) => (default eofToken t, MkParser l st (peeked p))
  end.

Definition pnext (p : parser) : token * parser :=
  match peeked p with
  | Some t => (t, MkParser (p_lexer p) (p_state p) None)
  | None => readInternal p
  end.

Definition ppeek (p : parser) : token * parser :=
  match peeked p with
  | Some t => (t, p)
  | None => let '(t, p) := readInternal p in (t, MkParser (p_lexer p) (p_state p) (Some t))
  end.

(** The type of the token to come. *)
Definition peekType (p : parser) : tokenType * parser := let '(t, p) := ppeek p in (typ t, p).

Definition parseExpError (mesg : string) : error := ErrMsg mesg.
Definition noMatchingOpening : string := "No matching opening parenthesis".
Definition noMatchingClosing : string := "No matching closing parenthesis".
Definition noLiteralSupport : string := "No support for literals yet".
Definition noQuotedLiteralSupport : string := "No support for quoted literals yet".
Definition expectedAtom : string := "Expected an atom".
Definition predicateError : string := "Predicates do not start with a colon".
Definition trailingTokens : string := "After parsing finished there is still input left".

Context (Lookup : gostr -> res (list Rect)).

(** The result of a parse: the parser afterwards and the constraint, which
    may be nil. *)
Abbreviation parsed A := (parser * res A)%type.
Definition pbind {A B} (m : parsed A) (k : parser -> A -> parsed B) : parsed B :=
  match m with
  | (p, Ok a) => k p a
  | (p, Err e) => (p, Err e)
  | (p, Panic s) => (p, Panic s)
  | (p, Blocked) => (p, Blocked)
  end.

(** [stripNot]; the loops of the parser have fuel. *)
Fixpoint stripNot (fuel : nat) (p : parser) (negated : bool) : parsed bool :=
  match fuel with
  | O => (p, Panic "out of fuel")
  | S fuel =>
      let '(t, p) := peekType p in
      if decide (t = tokenNot) then stripNot fuel (pnext p).2 (negb negated) else (p, Ok negated)
  end.

(** The loop of [atomWords] over the arguments. *)
Fixpoint atomArgs (fuel : nat) (p : parser) (a : atom) : parsed atom :=
  match fuel with
  | O => (p, Panic "out of fuel")
  | S fuel =>
      let '(t, p) := peekType p in
      match t with
      | tokenColon => atomArgs fuel (pnext p).2 a
      | tokenArg => let '(i, p) := pnext p in atomArgs fuel p (MkAtom (predicate a) (args a ++ [val i]))
      | tokenQuotedArg =>
          let '(i, p) := pnext p in
          match Unquote (val i) with
          | Some uq => atomArgs fuel p (MkAtom (predicate a) (args a ++ [uq]))
          | None => (p, Err ErrSyntax)
          end
      | _ => (p, Ok a)
      end
  end.

Definition atomWords (fuel : nat) (p : parser) : parsed atom :=
  let '(t, p) := peekType p in
  match t with
  | tokenLiteral => (p, Err (parseExpError noLiteralSupport))
  | tokenQuotedLiteral => (p, Err (parseExpError noQuotedLiteralSupport))
  | tokenColon => (p, Err (parseExpError predicateError))
  | tokenPredicate => let '(i, p) := pnext p in atomArgs fuel p (MkAtom (val i) [])
  | _ => atomArgs fuel p (MkAtom [] [])
  end.

(** The loop over the keywords. *)
Fixpoint matchKeywords (ks : list keyword) (a : atom) : res Constraint :=
  match ks with
  | [] => Err (parseExpError "Unknown search predicate: %q")
  | k :: ks => let? matched := kw_Match k a in if matched : bool then kw_Predicate k (args a) else matchKeywords ks a
  end.

Definition parseAtom (fuel : nat) (p : parser) : parsed (option Constraint) :=
  pbind (atomWords fuel p) (fun p a => (p, let? c := matchKeywords (keywords Lookup) a in Ok (Some c))).

(** A nil operand of a logical constraint stays nil. *)
Definition andOpt (a b : option Constraint) : option Constraint := Some (onLogical (MkLogical (gs "and") a b)).
Definition orOpt (a b : option Constraint) : option Constraint := Some (onLogical (MkLogical (gs "or") a b)).

(** The functions that call each other, by the function they are. *)
Inductive rule := PExp | PExpLoop (c : option Constraint) | PGroup | POrRHS (c : option Constraint) | PAnd | PAndRHS (c : option Constraint) | POperand.

Fixpoint parse (fuel : nat) (f : rule) (p : parser) : parsed (option Constraint) :=
  match fuel with
  | O => (p, Panic "out of fuel")
  | S fuel =>
      match f with
      | PExp =>
          let '(t, p) := peekType p in
          if decide (t = tokenEOF) then (p, Ok None)
          else pbind (parse fuel POperand p) (fun p c => parse fuel (PExpLoop c) p)
      | PExpLoop c =>
          let '(t, p) := peekType p in
          match t with
          | tokenOr => parse fuel (POrRHS c) (pnext p).2
          | tokenClose | tokenEOF => (p, Ok c)
          | _ =>
              let p := if decide (t = tokenAnd) then (pnext p).2 else p in
              pbind (parse fuel (PAndRHS c) p) (fun p c => parse fuel (PExpLoop c) p)
          end
      | PGroup =>
          let '(i, p) := pnext p in
          if decide (typ i = tokenOpen) then
            pbind (parse fuel PExp p) (fun p c =>
              let '(t, p) := peekType p in
              if decide (t = tokenClose) then ((pnext p).2, Ok c) else (p, Err (parseExpError noMatchingClosing)))
          else (p, Err (parseExpError "internal: do not call parseGroup when not on a '('"))
      | POrRHS c =>
          pbind (parse fuel PAnd p) (fun p rhs =>
            let c := orOpt c rhs in
            let '(t, p) := peekType p in
            match t with
            | tokenOr => parse fuel (POrRHS c) (pnext p).2
            | tokenAnd | tokenClose | tokenEOF => (p, Ok c)
            | _ => parse fuel (POrRHS c) p
            end)
      | PAnd =>
          pbind (parse fuel POperand p) (fun p c =>
            let '(t, p) := peekType p in
            match t with
            | tokenOr | tokenClose | tokenEOF => (p, Ok c)
            | tokenAnd => parse fuel (PAndRHS c) (pnext p).2
            | _ => parse fuel (PAndRHS c) p
            end)
      | PAndRHS c =>
          pbind (parse fuel POperand p) (fun p rhs =>
            let c := andOpt c rhs in
            let '(t, p) := peekType p in
            if decide (t = tokenAnd) then parse fuel (PAndRHS c) (pnext p).2 else (p, Ok c))
      | POperand =>
          pbind (stripNot fuel p false) (fun p negated =>
            let '(i, p) := ppeek p in
            let operand :=
              match typ i with
              | tokenError => (p, Err (parseExpError "Unclosed quote"))
              | tokenEOF => (p, Err (parseExpError expectedAtom))
              | tokenClose => (p, Err (parseExpError noMatchingOpening))
              | tokenLiteral | tokenQuotedLiteral | tokenPredicate | tokenColon | tokenArg => parseAtom fuel p
              | tokenOpen => parse fuel PGroup p
              | _ => (p, Ok None)
              end in
            pbind operand (fun p c =>
              (p, Ok (if negated : bool then Some (onLogical (MkLogical (gs "not") c None)) else c))))
      end
  end.

(** The parser's steps are bounded by the bytes of the input. *)
Definition parseFuel (exp : gostr) : nat := 16 * S (length exp).

Definition parseExp (exp : gostr) : parser * res (option Constraint) := parse (parseFuel exp) PExp (newParser exp).

(** The constraint that every expression is joined to. *)
Definition baseConstraint : Constraint :=
  onPermanode (MkPermanode 0 None None [] true None false [] None None None None None None None).

(** [parseExpression]: the [Constraint] of the query it returns, the only field
    that it sets. *)
Definition parseExpression (exp : gostr) : res Constraint :=
  let exp := TrimSpace exp in
  if decide (exp = []) then Ok baseConstraint
  else
    match parseExp exp with
    | (p, Ok c) =>
        let lastToken := (pnext p).1 in
        if decide (typ lastToken = tokenEOF) then Ok (match c with Some c => andConst baseConstraint c | None => baseConstraint end)
        else Err (parseExpError (if decide (typ lastToken = tokenClose) then noMatchingOpening else trailingTokens))
    | (_, Err e) => Err e
    | (_, Panic s) => Panic s
    | (_, Blocked) => Blocked
    end.
End search.
