(* ===== verification/Describe.v ===== *)
(** Describing blobs: pkg/search/describe.go.

    A description is asked for in a goroutine of its own; [pending] are those
    that have been started, and [wait] (the [WaitGroup]) runs them to the end
    one by one, in an order that [pick] chooses.  A reading of the index is not
    interrupted by a change of it.  [rangeOver] gives the keys of a Go map in
    the order of a loop. *)

From Stdlib Require Import SpecFloat.
From S2P Require Import Prelude Ref Strutil SortedKV Sha1 Storage Receive Times Json Runes Schema FileReader IndexKeys Corpus CorpusRows Enumerate Jsonsign Claims Dirs Media Index IndexReceive.

Definition maxResults : Z := 1000.
Definition defaultNumResults : Z := 50.
Definition MaxImageSize : Z := 2000.

Definition sanitizeNumResults (n : Z) : Z := if (n <=? 0) || (maxResults <? n) then defaultNumResults else n.

(** * Requests and descriptions *)

Inductive DescribeRule := MkRule (ru_IfResultRoot : bool) (ru_IfCamliNodeType : gostr) (ru_Attrs : list gostr) (ru_Rules : list DescribeRule).

Record DescribeRequest := MkDescribe {
  dr_BlobRefs : list Ref; dr_BlobRef : Ref; dr_Depth : Z; dr_MaxDirChildren : Z; dr_At : gotime; dr_ThumbnailSize : Z;
  dr_Rules : list DescribeRule
}.

Record DescribedPermanode := MkDescribedPn { dp_Attr : gmap gostr (list gostr); dp_ModTime : gotime }.

(** [Request] is left out: the functions that follow it get the map of its
    results. *)
Record DescribedBlob := MkDescribed {
  db_BlobRef : Ref; db_CamliType : gostr; db_Size : Z; db_Permanode : option DescribedPermanode;
  db_File : option FileInfo; db_Dir : option FileInfo; db_Image : option ImageInfo; db_MediaTags : option (gmap gostr gostr);
  db_DirChildren : list Ref; db_Thumbnail : option (gostr * Z * Z); db_Stub : bool
}.
Abbreviation MetaMap := (gmap gostr DescribedBlob).

(** [url.Values.Get] *)
Definition attrGet (attr : gmap gostr (list gostr)) (k : gostr) : gostr :=
  match attr !! k with Some (v :: _) => v | _ => [] end.

Definition stubOf (br : Ref) : DescribedBlob := MkDescribed br [] 0 None None None None None [] None true.
Definition peerBlob (m : MetaMap) (br : Ref) : DescribedBlob := default (stubOf br) (m !! RefString br).

Definition ContentRef (b : DescribedBlob) : option Ref :=
  match db_Permanode b with
  | Some dp => let cref := attrGet (dp_Attr dp) (gs "camliContent") in if decide (cref = []) then None else blobParse cref
  | None => None
  end.

(** [PermanodeFile], [PermanodeDir] *)
Definition permanodeContent {A : Type} (m : MetaMap) (b : DescribedBlob) (get : DescribedBlob -> option A) : option (list Ref * A) :=
  match db_Permanode b with
  | Some dp =>
      let contentRef := attrGet (dp_Attr dp) (gs "camliContent") in
      if decide (contentRef = []) then None
      else match m !! contentRef with
           | Some cdes => match get cdes with Some fi => Some ([db_BlobRef b; db_BlobRef cdes], fi) | None => None end
           | None => None
           end
  | None => None
  end.
Definition PermanodeFile (m : MetaMap) (b : DescribedBlob) := permanodeContent m b db_File.
Definition PermanodeDir (m : MetaMap) (b : DescribedBlob) := permanodeContent m b db_Dir.

(** [Title]: the title of the content, which may be a permanode in its turn. *)
Fixpoint Title (fuel : nat) (m : MetaMap) (b : DescribedBlob) : res gostr :=
  match fuel with
  | O => Panic "stack overflow"
  | S fuel =>
      let fileName := match db_File b, db_Dir b with
                      | Some fi, _ | None, Some fi => fi_FileName fi
                      | None, None => []
                      end in
      match db_Permanode b with
      | Some dp =>
          let t := attrGet (dp_Attr dp) (gs "title") in
          let contentRef := attrGet (dp_Attr dp) (gs "camliContent") in
          if negb (bool_decide (t = [])) then Ok t
          else if negb (bool_decide (contentRef = [])) then
            match m !! contentRef with Some b => Title fuel m b | None => Ok [] end
          else Ok fileName
      | None => Ok fileName
      end
  end.

Definition Description (b : DescribedBlob) : gostr :=
  match db_Permanode b with Some dp => attrGet (dp_Attr dp) (gs "description") | None => [] end.

Definition camliPathPrefix : gostr := gs "camliPath:".

Definition Members (rangeOver : gmap gostr (list gostr) -> list gostr) (m : MetaMap) (b : DescribedBlob) : list DescribedBlob :=
  match db_Permanode b with
  | None => []
  | Some dp =>
      map (peerBlob m) (omap blobParse (default [] (dp_Attr dp !! gs "camliMember")) ++
        omap (fun k => if isPrefixB camliPathPrefix k then head (default [] (dp_Attr dp !! k)) ≫= blobParse else None) (rangeOver (dp_Attr dp)))
  end.

Definition DirMembers (m : MetaMap) (b : DescribedBlob) : list DescribedBlob :=
  match db_Dir b with None => [] | Some _ => map (peerBlob m) (db_DirChildren b) end.

Definition IsContainer (dp : DescribedPermanode) : bool :=
  negb (bool_decide (default [] (dp_Attr dp !! gs "camliMember") = [])) ||
  bool_decide (Exists (fun k => isPrefixB camliPathPrefix k = true) (map_to_list (dp_Attr dp)).*1).

(** ** Thumbnails *)

(** [images.ScaledDimensions]; [float32] divisions. *)
Definition float32div (a b : Z) : spec_float := SFdiv 24 128 (binary_normalize 24 128 a 0 false) (binary_normalize 24 128 b 0 false).
Definition ScaledDimensions (w h mw mh : Z) : Z * Z :=
  if (w =? 0) || (h =? 0) || (mw =? 0) || (mh =? 0) then (1, 1)
  else if SFltb (float32div w mw) (float32div h mh) then (Z.quot (i64 (w * mh)) h, mh)
  else (mw, Z.quot (i64 (h * mw)) w).

(** [int(math.Floor(f))] of a number that is not negative. *)
Definition floorOf (f : float64) : Z :=
  match f with S754_finite false m e => Z.shiftl (Zpos m) e | _ => 0 end.
Definition fileIconWidth (thumbSize : Z) : Z :=
  floorOf (SFadd 53 1024 (SFmul 53 1024 (floatOf thumbSize) (fdiv (floatOf 260) (floatOf 300))) (fdiv (floatOf 1) (floatOf 2))).

(** [thumbnail]; [ThumbnailVersion] is that of pkg/images, [ToLower] that of
    package strings. *)
Definition thumbnail (ToLower : gostr -> gostr) (ThumbnailVersion : gostr) (m : MetaMap) (b : DescribedBlob) (thumbSize : Z) : option (gostr * Z * Z) :=
  if thumbSize <=? 0 then None
  else
    match db_Permanode b with
    | None => None
    | Some dp =>
        let icon name := Some (gs name, thumbSize, thumbSize) in
        if db_Stub b then icon "node.png"
        else if IsContainer dp then icon "folder.png"
        else
          match ContentRef b with
          | None => icon "node.png"
          | Some content =>
              let peer := peerBlob m content in
              match db_File peer with
              | Some fi =>
                  if isPrefixB (gs "image/") (fi_MIMEType fi) || IsVideo ToLower (fi_MIMEType fi) (fi_FileName fi) then
                    let image := gs "thumbnail/" ++ RefString (db_BlobRef peer) ++ gs "/" ++ urle (fi_FileName fi) ++ gs "?mh=" ++
                                 itoa thumbSize ++ gs "&tv=" ++ ThumbnailVersion in
                    match db_Image peer with
                    | Some ii =>
                        if (0 <? ii_Height ii) && (0 <? ii_Width ii) then
                          let '(mw, mh) := ScaledDimensions (ii_Width ii) (ii_Height ii) MaxImageSize thumbSize in Some (image, mw, mh)
                        else Some (image, 0, thumbSize)
                    | None => Some (image, 0, thumbSize)
                    end
                  else Some (gs "file.png", fileIconWidth thumbSize, thumbSize)
              | None => match db_Dir peer with Some _ => icon "folder.png" | None => icon "node.png" end
              end
          end
    end.

(** ** References in a string *)

Definition wordByte (c : ascii) : bool :=
  isDigitB c || inByte 65 90 c || inByte 97 122 c || bool_decide (c = "_"%char).

Fixpoint spanBytes (p : ascii -> bool) (s : gostr) : gostr * gostr :=
  match s with
  | c :: s' => if p c then let '(a, r) := spanBytes p s' in (c :: a, r) else ([], s)
  | [] => ([], [])
  end.

(** A match of [blob.Pattern] at the start of [s], and what follows it: the
    classes before and after the dash leave the matcher no choice. *)
Definition matchRef (s : gostr) : option (gostr * gostr) :=
  match s with
  | c :: _ =>
      if inByte 97 122 c then
        let '(name, rest) := spanBytes (fun c => inByte 97 122 c || isDigitB c) s in
        match rest with
        | d :: rest =>
            if decide (d = "-"%char) then
              let '(digits, rest) := spanBytes (fun c => inByte 97 102 c || isDigitB c) rest in
              if bool_decide (digits = []) || match rest with c :: _ => wordByte c | [] => false end then None
              else Some (name ++ d :: digits, rest)
            else None
        | [] => None
        end
      else None
  | [] => None
  end.

(** [blobRefPattern.FindAllString(str, -1)]; [inWord] tells whether the byte
    before [s] is of a word. *)
Fixpoint findRefs (fuel : nat) (inWord : bool) (s : gostr) : list gostr :=
  match fuel, s with
  | S fuel, c :: s' =>
      match (if inWord then None else matchRef s) with
      | Some (match_, rest) => match_ :: findRefs fuel true rest
      | None => findRefs fuel (wordByte c) s'
      end
  | _, _ => []
  end.

Definition refsIn (str : gostr) : list Ref :=
  omap (fun s => match ParseKnown s with Ok r => r | _ => None end) (findRefs (length str) false str).

(** * The state of a request *)

Record descState := MkDesc {
  ds_m : MetaMap;
  ds_done : gset (Ref * Z);
  ds_errs : gmap gostr error;
  ds_res : gset (nat * Ref);
  pending : list (Ref * Z)
}.
Definition newDesc : descState := MkDesc ∅ ∅ ∅ ∅ [].

(** [DescribeRequest.Describe] *)
Definition startDescribe (s : descState) (br : Ref) (depth : Z) : descState :=
  if depth <=? 0 then s
  else if decide ((br, depth) ∈ ds_done s) then s
  else MkDesc (ds_m s) ({[(br, depth)]} ∪ ds_done s) (ds_errs s) (ds_res s) (pending s ++ [(br, depth)]).

Definition addError (s : descState) (br : Ref) (e : error) : descState :=
  MkDesc (ds_m s) (ds_done s) (<[RefString br := e]> (ds_errs s)) (ds_res s) (pending s).
Definition setDescribed (s : descState) (b : DescribedBlob) : descState :=
  MkDesc (<[RefString (db_BlobRef b) := b]> (ds_m s)) (ds_done s) (ds_errs s) (ds_res s) (pending s).
(** [noteResultFromRule], by the number of the rule. *)
Definition noteResultFromRule (s : descState) (rule : nat) (br : Ref) : descState :=
  MkDesc (ds_m s) (ds_done s) (ds_errs s) ({[(rule, br)]} ∪ ds_res s) (pending s).

Definition describeRefs (s : descState) (str : gostr) (depth : Z) : descState :=
  foldl (fun s ref => startDescribe s ref (depth - 1)) s (refsIn str).

(** ** Rules *)

Record flatRule := MkFlat { fl_IfResultRoot : bool; fl_IfCamliNodeType : gostr; fl_Attrs : list gostr; fl_parent : option nat }.

(** [appendToFlatCache]: a rule before its children; [n] rules come before. *)
Fixpoint flatten (parent : option nat) (n : nat) (r : DescribeRule) : list flatRule :=
  match r with
  | MkRule root ty attrs rules =>
      MkFlat root ty attrs parent ::
      (fix children (k : nat) (rs : list DescribeRule) : list flatRule :=
         match rs with
         | [] => []
         | r :: rs => let l := flatten (Some n) k r in l ++ children (k + length l)%nat rs
         end) (S n) rules
  end.
Fixpoint flattenAll (n : nat) (rs : list DescribeRule) : list flatRule :=
  match rs with [] => [] | r :: rs => let l := flatten None n r in l ++ flattenAll (n + length l) rs end.
Definition flatRules (dr : DescribeRequest) : list flatRule := flattenAll 0 (dr_Rules dr).

Definition blobInitiallyRequested (dr : DescribeRequest) (br : Ref) : bool :=
  (Valid (dr_BlobRef dr) && bool_decide (dr_BlobRef dr = br)) || bool_decide (br ∈ dr_BlobRefs dr).

Definition attrMatches (attr matchAttr : gostr) : bool :=
  bool_decide (attr = matchAttr) || (hasSuffix matchAttr (gs "*") && isPrefixB (take (length matchAttr - 1) matchAttr) attr).

Section describe.
Context {K S : Type} `{!KV K, !Storage S}.
Context (sortBy : forall A, (A -> gotime) -> list A -> list A).
Context (arrange : forall A, list A -> list A).
Context (pick : list (Ref * Z) -> nat) (ToLower : gostr -> gostr) (ThumbnailVersion : gostr).
Arguments sortBy {A}.
Arguments arrange {A}.
Abbreviation index := (Index K S).

Definition rangeOver {A : Type} (m : gmap gostr A) : list gostr := arrange (map_to_list m).*1.

Definition newMatches (dr : DescribeRequest) (s : descState) (r : flatRule) (br : Ref) : list Ref :=
  if fl_IfResultRoot r && negb (blobInitiallyRequested dr br) then []
  else if match fl_parent r with Some p => negb (bool_decide ((p, br) ∈ ds_res s)) | None => false end then []
  else
    match ds_m s !! RefString br ≫= db_Permanode with
    | None => []
    | Some dp =>
        if negb (bool_decide (fl_IfCamliNodeType r = [])) && negb (bool_decide (attrGet (dp_Attr dp) (gs "camliNodeType") = fl_IfCamliNodeType r)) then []
        else concat (map (fun attr => if existsb (attrMatches attr) (fl_Attrs r) then omap blobParse (default [] (dp_Attr dp !! attr)) else [])
                       (rangeOver (dp_Attr dp)))
    end.

Definition foreachResultBlob (dr : DescribeRequest) (s : descState) : list Ref :=
  (if Valid (dr_BlobRef dr) then [dr_BlobRef dr] else []) ++ dr_BlobRefs dr ++ omap blobParse (rangeOver (ds_m s)).

(** One pass of the rules: the references they find. *)
Fixpoint applyRules (dr : DescribeRequest) (n : nat) (rules : list flatRule) (s : descState) : descState * list Ref :=
  match rules with
  | [] => (s, [])
  | r :: rules =>
      let new := concat (map (newMatches dr s r) (foreachResultBlob dr s)) in
      let '(s, rest) := applyRules dr (n + 1) rules (foldl (fun s br => noteResultFromRule s n br) s new) in
      (s, new ++ rest)
  end.

(** ** One description *)

Definition claimAttrs (at_ : gotime) (pi : DescribedPermanode) (cl : Claim) : DescribedPermanode :=
  let attr := dp_Attr pi in
  if negb (time3339IsZero at_) && (at_ <? cl_Date cl) then pi
  else if decide (cl_Type cl = DelAttributeClaim) then
    MkDescribedPn (if decide (cl_Value cl = []) then delete (cl_Attr cl) attr
                   else <[cl_Attr cl := filter (fun v => v <> cl_Value cl) (default [] (attr !! cl_Attr cl))]> attr) (cl_Date cl)
  else if decide (cl_Type cl = SetAttributeClaim \/ cl_Type cl = AddAttributeClaim) then
    let attr := if decide (cl_Type cl = SetAttributeClaim) then delete (cl_Attr cl) attr else attr in
    let sl := default [] (attr !! cl_Attr cl) in
    if decide (cl_Value cl = []) then MkDescribedPn attr (dp_ModTime pi)
    else if decide (cl_Value cl ∈ sl) then MkDescribedPn attr (dp_ModTime pi)
    else MkDescribedPn (<[cl_Attr cl := sl ++ [cl_Value cl]]> attr) (cl_Date cl)
  else pi.

Definition populatePermanodeFields (x : index) (dr : DescribeRequest) (s : descState) (pn signer : Ref) (depth : Z) : descState * res DescribedPermanode :=
  match AppendClaims x [] pn signer [] with
  | Err e => (addError s pn (ErrMsg "Error getting claims of %s: %v"), Ok (MkDescribedPn ∅ 0))
  | Ok claims =>
      let pi := foldl (claimAttrs (dr_At dr)) (MkDescribedPn ∅ 0) (sortBy cl_Date claims) in
      (foldl (fun s key => foldl (fun s v => describeRefs s v depth) (describeRefs s key depth) (default [] (dp_Attr pi !! key)))
         s (rangeOver (dp_Attr pi)), Ok pi)
  | Panic p => (s, Panic p)
  | Blocked => (s, Blocked)
  end.

Definition maxDirChildren (dr : DescribeRequest) : Z := sanitizeNumResults (dr_MaxDirChildren dr).

(** [getDirMembers]: the children are described to the same depth. *)
Definition getDirMembers (x : index) (dr : DescribeRequest) (s : descState) (br : Ref) (depth : Z) : descState * res (list Ref) :=
  let '(members, r) := GetDirMembers x br (maxDirChildren dr) in
  (foldl (fun s child => startDescribe s child depth) s members, let? _ := r in Ok members).

Definition describeDir (x : index) (dr : DescribeRequest) (s : descState) (des : DescribedBlob) (br : Ref) (depth : Z) : descState * res DescribedBlob :=
  let fi := GetFileInfo x br in
  match getDirMembers x dr s br depth with
  | (s, Panic p) => (s, Panic p)
  | (s, Blocked) => (s, Blocked)
  | (s, members) =>
      let des := MkDescribed br (db_CamliType des) (db_Size des) (db_Permanode des) (db_File des)
                   (match fi with Ok fi => Some fi | _ => None end) (db_Image des) (db_MediaTags des)
                   (match members with Ok l => l | _ => [] end) (db_Thumbnail des) false in
      match fi, members with
      | Panic p, _ => (s, Panic p)
      | Blocked, _ => (s, Blocked)
      | Err e, _ | _, Err e => (addError s br e, Ok des)
      | _, _ => (s, Ok des)
      end
  end.

Definition describeFile (x : index) (s : descState) (des : DescribedBlob) (br : Ref) : descState * res DescribedBlob :=
  match GetFileInfo x br with
  | Err e => (if decide (e = ErrNotExist) then s else addError s br e, Ok des)
  | Panic p => (s, Panic p)
  | Blocked => (s, Blocked)
  | Ok fi =>
      let img := if isPrefixB (gs "image/") (fi_MIMEType fi) then GetImageInfo x br else Err ErrNotExist in
      let s := match img with Err e => if decide (e = ErrNotExist) then s else addError s br e | _ => s end in
      let with_tags tags :=
        (s, Ok (MkDescribed br (db_CamliType des) (db_Size des) (db_Permanode des) (Some fi) (db_Dir des)
                  (match img with Ok ii => Some ii | _ => db_Image des end) tags (db_DirChildren des) (db_Thumbnail des) false)) in
      match img, GetMediaTags x br with
      | Panic p, _ | _, Panic p => (s, Panic p)
      | Blocked, _ | _, Blocked => (s, Blocked)
      | _, Ok tags => with_tags (Some tags)
      | _, Err _ => with_tags (db_MediaTags des)
      end
  end.

Definition describeReally (x : index) (owner : Ref) (dr : DescribeRequest) (s : descState) (br : Ref) (depth : Z) : descState * res unit :=
  match GetBlobMeta x br with
  | Err e => (if decide (e = ErrNotExist) then s else addError s br e, Ok tt)
  | Panic p => (s, Panic p)
  | Blocked => (s, Blocked)
  | Ok meta =>
      let old := default (MkDescribed br [] 0 None None None None None [] None false) (ds_m s !! RefString br) in
      let ty := if decide (bm_CamliType meta = []) then db_CamliType old else bm_CamliType meta in
      let des := MkDescribed br ty (bm_Size meta) (db_Permanode old) (db_File old) (db_Dir old) (db_Image old) (db_MediaTags old)
                   (db_DirChildren old) (db_Thumbnail old) false in
      let finish (m : descState * res DescribedBlob) : descState * res unit :=
        match m with (s, Ok des) => (setDescribed s des, Ok tt) | (s, r) => (setDescribed s des, sendingErr r) end in
      if decide (ty = gs "permanode") then
        finish (match populatePermanodeFields x dr s br owner depth with
                | (s, Ok dp) => (s, Ok (MkDescribed br ty (bm_Size meta) (Some dp) (db_File old) (db_Dir old) (db_Image old) (db_MediaTags old)
                                          (db_DirChildren old) (db_Thumbnail old) false))
                | (s, r) => (s, let? _ := r in Ok des)
                end)
      else if decide (ty = gs "file") then finish (describeFile x s des br)
      else if decide (ty = gs "directory") then finish (describeDir x dr s des br depth)
      else finish (s, Ok des)
  end.

(** ** All of them *)

(** [wg.Wait]: what is pending is described, and what that starts. *)
Fixpoint wait (fuel : nat) (x : index) (owner : Ref) (dr : DescribeRequest) (s : descState) : descState * res unit :=
  match fuel with
  | O => (s, Panic "out of fuel")
  | Datatypes.S fuel =>
      match pending s with
      | [] => (s, Ok tt)
      | t :: ts =>
          let i := Nat.modulo (pick (pending s)) (length (pending s)) in
          let '(br, depth) := default t (pending s !! i) in
          let s := MkDesc (ds_m s) (ds_done s) (ds_errs s) (ds_res s) (delete i (pending s)) in
          match describeReally x owner dr s br depth with
          | (s, Ok _) => wait fuel x owner dr s
          | r => r
          end
      end
  end.

(** [expandRules] *)
Fixpoint expandRules (fuel : nat) (x : index) (owner : Ref) (dr : DescribeRequest) (s : descState) : descState * res unit :=
  match fuel with
  | O => (s, Panic "out of fuel")
  | Datatypes.S fuel' =>
      match wait fuel x owner dr s with
      | (s, Ok _) =>
          let len0 := size (ds_m s) in
          let '(s, new) := applyRules dr 0 (flatRules dr) s in
          match wait fuel x owner dr (foldl (fun s br => startDescribe s br 1) s new) with
          | (s, Ok _) => if decide (size (ds_m s) = len0) then (s, Ok tt) else expandRules fuel' x owner dr s
          | r => r
          end
      | r => r
      end
  end.

(** [metaMapThumbs], after the wait. *)
Definition metaMapThumbs (s : descState) (thumbSize : Z) : res MetaMap :=
  if decide (ds_errs s = ∅) then
    Ok ((fun b => match thumbnail ToLower ThumbnailVersion (ds_m s) b thumbSize with
                  | Some t => MkDescribed (db_BlobRef b) (db_CamliType b) (db_Size b) (db_Permanode b) (db_File b) (db_Dir b) (db_Image b)
                                (db_MediaTags b) (db_DirChildren b) (Some t) (db_Stub b)
                  | None => b
                  end) <$> ds_m s)
  else Err (ErrMsg "error populating %s: %v").

Definition depth (dr : DescribeRequest) : Z := if 0 <? dr_Depth dr then dr_Depth dr else 1.

Definition startAll (dr : DescribeRequest) (s : descState) : descState :=
  foldl (fun s br => startDescribe s br (depth dr)) (if Valid (dr_BlobRef dr) then startDescribe s (dr_BlobRef dr) (depth dr) else s) (dr_BlobRefs dr).

(** [Handler.Describe] *)
Definition Describe (fuel : nat) (x : index) (owner : Ref) (dr : DescribeRequest) : res MetaMap :=
  match expandRules fuel x owner dr (startAll dr newDesc) with
  | (s, Ok _) => metaMapThumbs s (dr_ThumbnailSize dr)
  | (_, r) => let? _ := r in Ok ∅
  end.

(** A request of [NewDescribeRequest] for some blobs to a depth, and its
    result. *)
Definition describeTo (fuel : nat) (x : index) (owner : Ref) (brs : list Ref) (depth : Z) (thumbSize : Z) : res MetaMap :=
  let dr := MkDescribe [] zeroRef 0 0 0 0 [] in
  match wait fuel x owner dr (foldl (fun s br => startDescribe s br depth) newDesc brs) with
  | (s, Ok _) => metaMapThumbs s thumbSize
  | (_, r) => let? _ := r in Ok ∅
  end.
End describe.
