(* ===== verification/Search.v ===== *)
(** Running a search: the evaluation in pkg/search/query.go and the requests
    of pkg/search/handler.go.

    A matcher is the function the code builds of a constraint; it reads the
    handler, the [*search] of the code.  A query holds the corpus's lock for
    reading, so the handler does not change under it but for the corpus's
    caches of sorted permanodes; [now] is the clock, read once.  The candidates
    are sent over a channel: the source is run to its end and its list then
    consumed, for a consumer that stops early only makes the source stop with
    [ErrCanceled], which is not reported.  The scratch slice [ss] and the memo
    of a matcher are not seen from outside. *)

From Stdlib Require Import SpecFloat.
From S2P Require Import Prelude Ref Strutil SortedKV Sha1 Storage Receive Times Json Runes Schema FileReader IndexKeys Corpus CorpusRows Enumerate Jsonsign Claims Dirs Media Index IndexReceive Constraint Predicate SearchExpr Describe.

(** [time.Unix(0, nsec)] and [time.Time.UnixNano] *)
Definition unixTime (nsec : Z) : gotime := nsec + unixToInternal * nsPerSecond.
Definition UnixNano (t : gotime) : Z := i64 (t - unixToInternal * nsPerSecond).

Record SearchQuery := MkQuery {
  sq_Expression : gostr; sq_Constraint : option Constraint; sq_Limit : Z; sq_Sort : Z; sq_Continue : gostr;
  sq_Describe : option DescribeRequest
}.

Record SearchResult := MkResult { sr_Blobs : list Ref; sr_Describe : option MetaMap; sr_Continue : gostr }.

(** ** Continuing *)

(** [strings.Index] of a colon *)
Fixpoint cutColon (s : gostr) : option (gostr * gostr) :=
  match s with
  | [] => None
  | c :: s => if decide (c = colon) then Some ([], s) else '(a, b) ← cutColon s; Some (c :: a, b)
  end.

Definition parsePermanodeContinueToken (v : gostr) : option (gotime * Ref) :=
  match v with
  | c1 :: c2 :: c3 :: v =>
      if decide ([c1; c2; c3] = gs "pn:") then
        '(digits, ref) ← cutColon v;
        match ParseUintBytes digits 10 64 with
        | (nano, None) => br ← blobParse ref; Some (unixTime (i64 nano), br)
        | _ => None
        end
      else None
  | _ => None
  end.

Definition continueToken (t : gotime) (br : Ref) : gostr := gs "pn:" ++ itoa (UnixNano t) ++ gs ":" ++ RefString br.

Definition onContinue (pcc : PermanodeContinueConstraint) : Constraint :=
  onPermanode (MkPermanode 0 None None [] false None false [] None None None None None None (Some pcc)).

(** [addContinueConstraint]; its error is only logged, and the constraint is
    then as it was. *)
Definition addContinueConstraint (cont : gostr) (sort : Z) (c : Constraint) : res Constraint :=
  if decide (cont = []) then Ok c
  else
    let? only := onlyMatchesPermanode c in
    if only : bool then
      match parsePermanodeContinueToken cont with
      | None => Ok c
      | Some (tokent, lastbr) =>
          if sort =? LastModifiedDesc then Ok (andConst (onContinue (MkContinue tokent 0 lastbr)) c)
          else if sort =? CreatedDesc then Ok (andConst (onContinue (MkContinue 0 tokent lastbr)) c)
          else Ok c
      end
    else Ok c.

(** A query as it is run: the constraint, the sort and the limit. *)
Record plan := MkPlan { pq_Constraint : Constraint; pq_Sort : Z; pq_Limit : Z }.

(** [plannedQuery]; a parsed expression sets neither the sort nor the limit. *)
Definition plannedQuery (q : SearchQuery) (expr : option Constraint) : res plan :=
  match (match expr with Some _ => expr | None => sq_Constraint q end) with
  | None => Panic "nil pointer dereference"
  | Some c =>
      let? sort := if sq_Sort q =? 0 then let? only := onlyMatchesPermanode c in Ok (if only : bool then CreatedDesc else 0)
                   else Ok (sq_Sort q) in
      let? c := addContinueConstraint (sq_Continue q) sort c in
      Ok (MkPlan c sort (if sq_Limit q =? 0 then 200 else sq_Limit q))
  end.

(** * Matching *)

Section search.
Context {K S : Type} `{!KV K, !Storage S} `{Unicode}.
Context (sortBy : forall A, (A -> gotime) -> list A -> list A).
Context (arrange : forall A, list A -> list A).
Context (pick : list (Ref * Z) -> nat) (ToLower : gostr -> gostr) (ThumbnailVersion : gostr).
Context (Lookup : gostr -> res (list Rect)) (describeFuel : nat) (now : gotime).
Arguments sortBy {A}.
Arguments arrange {A}.

(** [Handler]; with [slurpToMemory] it searches the index's corpus.  The
    WebSocket hub is not part of it. *)
Record Handler := MkHandler { h_index : Index K S; h_owner : Ref; h_slurp : bool }.
Definition h_corpus (h : Handler) : option Corpus := if h_slurp h then ix_corpus (h_index h) else None.

Definition blobMeta (h : Handler) (br : Ref) : res BlobMeta :=
  match h_corpus h with Some c => GetBlobMetaLocked c br | None => GetBlobMeta (h_index h) br end.
Definition fileInfo (h : Handler) (br : Ref) : res FileInfo :=
  match h_corpus h with Some c => GetFileInfoLocked c br | None => GetFileInfo (h_index h) br end.

Definition describe (h : Handler) (dr : DescribeRequest) : res MetaMap :=
  Describe (@sortBy) (@arrange) pick ToLower ThumbnailVersion describeFuel (h_index h) (h_owner h) dr.

Definition matchFn := Handler -> Ref -> BlobMeta -> res bool.
Definition alwaysMatch : matchFn := fun _ _ _ => Ok true.
Definition neverMatch : matchFn := fun _ _ _ => Ok false.
Definition anyCamliType : matchFn := fun _ _ bm => Ok (negb (bool_decide (bm_CamliType bm = []))).

(** [allMustMatch] *)
Fixpoint allMustMatch (fns : list matchFn) : matchFn := fun h br bm =>
  match fns with
  | [] => Ok true
  | fn :: fns => let? m := fn h br bm in if m : bool then allMustMatch fns h br bm else Ok false
  end.

(** One condition after another, as code that returns at the first that fails. *)
Definition andThen (a : res bool) (b : res bool) : res bool := let? m := a in if m : bool then b else Ok false.

(** ** Files *)

Definition whole {A : Type} (r : res A) : res (option A) :=
  match r with Ok a => Ok (Some a) | Err e => if decide (e = ErrNotExist) then Ok None else Err e | Panic p => Panic p | Blocked => Blocked end.

Definition optOk {A : Type} (o : option A) (f : A -> bool) : bool := match o with Some a => f a | None => true end.

(** The dimensions, if one is asked for. *)
Definition fileDims (h : Handler) (c : FileConstraint) (br : Ref) : res bool :=
  if isNone (f_Width c) && isNone (f_Height c) && isNone (f_WHRatio c) then Ok true
  else
    match h_corpus h with
    | None => Ok false
    | Some corpus =>
        let? info := whole (GetImageInfoLocked corpus br) in
        match info with
        | None => Ok false
        | Some ii =>
            Ok (optOk (f_Width c) (fun ic => intMatches ic (ii_Width ii)) && optOk (f_Height c) (fun ic => intMatches ic (ii_Height ii)) &&
                optOk (f_WHRatio c) (fun fc => floatMatches fc (fdiv (floatOf (ii_Width ii)) (floatOf (ii_Height ii)))))
        end
    end.

Definition fileWhere (h : Handler) (c : FileConstraint) (br : Ref) : bool :=
  match f_Location c with
  | None => true
  | Some lc =>
      match h_corpus h ≫= fun corpus => FileLatLongLocked corpus br with
      | None => false
      | Some ll => lc_Any lc || matchesLatLong lc (lat ll) (long ll)
      end
  end.

Definition fileTags (h : Handler) (c : FileConstraint) (br : Ref) : bool :=
  match f_MediaTag c, h_corpus h with
  | None, _ => true
  | Some _, None => false
  | Some mt, Some corpus =>
      let tagValue := match GetMediaTagsLocked corpus br with
                      | Ok mediaTags => if decide (mc_Tag mt = []) then [] else default [] (mediaTags !! mc_Tag mt)
                      | _ => []
                      end in
      optOk (mc_Int mt) (fun ic => match ParseInt10 tagValue with Some i => intMatches ic i | None => false end) &&
      optOk (mc_String mt) (fun sc => stringMatches sc tagValue)
  end.

Definition isWhole (h : Handler) (c : FileConstraint) (br : Ref) : bool :=
  if Valid (f_WholeRef c) then
    match h_corpus h ≫= fun corpus => GetWholeRefLocked corpus br with
    | Some w => bool_decide (w = f_WholeRef c)
    | None => false
    end
  else true.

Definition fileInfoMatches (c : FileConstraint) (fi : FileInfo) : bool :=
  optOk (f_FileSize c) (fun fs => intMatches fs (fi_Size fi)) &&
  (negb (f_IsImage c) || isPrefixB (gs "image/") (fi_MIMEType fi)) &&
  optOk (f_FileName c) (fun sc => stringMatches sc (fi_FileName fi)) &&
  optOk (f_MIMEType c) (fun sc => stringMatches sc (fi_MIMEType fi)) &&
  optOk (f_Time c) (fun tc => match fi_Time fi with Some t => timeMatches now tc t | None => false end) &&
  optOk (f_ModTime c) (fun tc => match fi_ModTime fi with Some t => timeMatches now tc t | None => false end).

(** [FileConstraint.blobMatches] *)
Definition fileMatches (c : FileConstraint) : matchFn := fun h br bm =>
  if negb (bool_decide (bm_CamliType bm = gs "file")) then Ok false
  else
    let? fi := whole (fileInfo h br) in
    match fi with
    | None => Ok false
    | Some fi =>
        if fileInfoMatches c fi && isWhole h c br then
          andThen (fileDims h c br) (Ok (fileWhere h c br && fileTags h c br))
        else Ok false
    end.

(** [DirConstraint.blobMatches] *)
Definition dirMatches : matchFn := fun _ _ bm =>
  if bool_decide (bm_CamliType bm = gs "directory") then Panic "TODO: implement DirConstraint.blobMatches" else Ok false.

(** ** Permanodes *)

Section pn.
Context (p : PermanodeConstraint).
(** The matchers of the constraints inside, made when they are first used. *)
Context (inSet relAny relAll : option (res matchFn)).

Definition permanodeMatchesAttrVal (h : Handler) (val : gostr) : res bool :=
  if negb (bool_decide (pc_Value p = [])) && negb (bool_decide (pc_Value p = val)) then Ok false
  else if negb (optOk (pc_ValueMatches p) (fun sc => stringMatches sc val)) then Ok false
  else if negb (optOk (pc_ValueMatchesInt p) (fun ic => match ParseInt10 val with Some i => intMatches ic i | None => false end)) then Ok false
  else if negb (optOk (pc_ValueMatchesFloat p) (fun fc => match ParseFloat val with Some f => floatMatches fc f | None => false end)) then Ok false
  else
    match inSet with
    | None => Ok true
    | Some m =>
        match blobParse val with
        | None => Ok false
        | Some br =>
            let? meta := whole (blobMeta h br) in
            match meta with
            | None => Ok false
            | Some meta => let? fn := m in fn h br meta
            end
        end
    end.

(** The number of the values that match. *)
Fixpoint countMatches (h : Handler) (vals : list gostr) : res nat :=
  match vals with
  | [] => Ok 0%nat
  | v :: vals =>
      let? m := permanodeMatchesAttrVal h v in
      let? n := countMatches h vals in
      Ok (if m : bool then Datatypes.S n else n)
  end.

Definition permanodeMatchesAttrVals (h : Handler) (vals : list gostr) : res bool :=
  if negb (optOk (pc_NumValue p) (fun nv => intMatches nv (glen vals))) then Ok false
  else if hasValueConstraint p then
    let? nmatch := countMatches h vals in
    Ok (if (nmatch =? 0)%nat then false else if pc_ValueAll p then (nmatch =? length vals)%nat else true)
  else Ok true.

(** What the loop of [RelationConstraint.match] keeps. *)
Record relState := MkRel { anyGood : bool; anyBad : bool; lastChecked : Ref; permanodesChecked : gset Ref; relErr : res unit }.

Definition relStep (h : Handler) (corpus : Corpus) (rc : RelationConstraint) (matcher : matchFn) (at_ : gotime)
    (s : relState) (cl : Claim) : relState * bool :=
  if negb (matchesAttr rc (cl_Attr cl)) then (s, true)
  else
    let s := if Valid (lastChecked s) then MkRel (anyGood s) (anyBad s) zeroRef ({[lastChecked s]} ∪ permanodesChecked s) (relErr s) else s in
    if decide (cl_Permanode cl ∈ permanodesChecked s) then (s, true)
    else if negb (PermanodeHasAttrValueLocked corpus (cl_Permanode cl) at_ now (cl_Attr cl) (cl_Value cl)) then (s, true)
    else
      let fails e := (MkRel (anyGood s) (anyBad s) (lastChecked s) (permanodesChecked s) e, false) in
      match (let? bm := blobMeta h (cl_Permanode cl) in matcher h (cl_Permanode cl) bm) with
      | Ok true =>
          if isNone (rc_Any rc) then (MkRel true (anyBad s) (cl_Permanode cl) (permanodesChecked s) (relErr s), true)
          else (MkRel true (anyBad s) (lastChecked s) (permanodesChecked s) (relErr s), false)
      | Ok false =>
          if isNone (rc_All rc) then (MkRel (anyGood s) true (cl_Permanode cl) (permanodesChecked s) (relErr s), true)
          else (MkRel (anyGood s) true (lastChecked s) (permanodesChecked s) (relErr s), false)
      | Err e => fails (Err e)
      | Panic e => fails (Panic e)
      | Blocked => fails Blocked
      end.

(** [RelationConstraint.match] *)
Definition relMatch (rc : RelationConstraint) (h : Handler) (pn : Ref) (at_ : gotime) : res bool :=
  match h_corpus h with
  | None => Err (ErrMsg "RelationConstraint requires an in-memory corpus")
  | Some corpus =>
      if negb (bool_decide (rc_Relation rc = gs "parent")) then Panic "bogus"
      else
        let? matcher := match relAny, relAll with
                        | Some m, _ | None, Some m => m
                        | None, None => Panic "nil pointer dereference"
                        end in
        let s := ForeachClaimBackLocked corpus pn at_ (relStep h corpus rc matcher at_) (MkRel false false zeroRef ∅ (Ok tt)) in
        let? _ := relErr s in
        Ok (if isNone (rc_All rc) then anyGood s else anyGood s && negb (anyBad s))
  end.

(** What the code looks up when there is no corpus: the description. *)
Definition describedPn (h : Handler) (br : Ref) : res (option DescribedPermanode) :=
  let? m := describe h (MkDescribe [] br 0 0 0 0 []) in
  Ok (m !! RefString br ≫= db_Permanode).

Definition pnAttr (h : Handler) (dp : DescribedPermanode) (br : Ref) : res bool :=
  if decide (pc_Attr p = []) then Ok true
  else
    match h_corpus h with
    | Some corpus =>
        let? vals := AppendPermanodeAttrValuesLocked corpus [] br (pc_Attr p) (pc_At p) now (h_owner h) in
        permanodeMatchesAttrVals h vals
    | None =>
        if negb (pc_At p =? 0) then Panic "PermanodeConstraint.At not supported without an in-memory corpus"
        else permanodeMatchesAttrVals h (default [] (dp_Attr dp !! pc_Attr p))
    end.

Definition pnNotHidden (h : Handler) (br : Ref) : bool :=
  match h_corpus h with
  | Some corpus =>
      let value attr := PermanodeAttrValueLocked corpus br attr (pc_At p) now (h_owner h) in
      negb (pc_SkipHidden p) ||
      (negb (bool_decide (value (gs "camliDefVis") = gs "hide")) && negb (bool_decide (value (gs "camliNodeType") = gs "foursquare.com:venue")))
  | None => true
  end.

Definition pnModTime (h : Handler) (dp : DescribedPermanode) (br : Ref) : res bool :=
  match pc_ModTime p, h_corpus h with
  | None, _ => Ok true
  | Some tc, Some corpus => let? mt := PermanodeModtimeLocked corpus br in Ok (match mt with Some mt => timeMatches now tc mt | None => false end)
  | Some tc, None => Ok (timeMatches now tc (dp_ModTime dp))
  end.

Definition pnTime (h : Handler) (br : Ref) : res bool :=
  match pc_Time p, h_corpus h with
  | None, _ => Ok true
  | Some tc, Some corpus => let? t := PermanodeAnyTimeLocked corpus br now in Ok (match t with Some t => timeMatches now tc t | None => false end)
  | Some _, None => Panic "TODO: not yet supported"
  end.

Definition pnRelation (h : Handler) (br : Ref) : res bool :=
  match pc_Relation p with None => Ok true | Some rc => relMatch rc h br (pc_At p) end.

(** A chain of venues longer than this goes round in a circle, where the code
    recurses without end. *)
Definition venueFuel (c : Corpus) : nat := Datatypes.S (Datatypes.S (size (permanodes c))).
Definition pnLocation (h : Handler) (br : Ref) : res bool :=
  match pc_Location p, h_corpus h with
  | None, _ => Ok true
  | Some _, None => Ok false
  | Some lc, Some corpus =>
      let? ll := PermanodeLatLongLocked (venueFuel corpus) corpus br (pc_At p) now in
      Ok (match ll with Some ll => matchesLatLong lc (lat ll) (long ll) | None => false end)
  end.

(** Not after the time of the last page, and if at that time then of a smaller
    reference. *)
Definition continues (cc : PermanodeContinueConstraint) (limit : gotime) (br : Ref) (t : option gotime) : bool :=
  match t with
  | None => false
  | Some t => negb (limit <? t) && negb (((t =? pcc_LastMod cc) || (t =? pcc_LastCreated cc)) && negb (Less br (pcc_Last cc)))
  end.

Definition pnContinue (h : Handler) (br : Ref) : res bool :=
  match pc_Continue p, h_corpus h with
  | None, _ => Ok true
  | Some _, None => Ok false
  | Some cc, Some corpus =>
      if negb (pcc_LastMod cc =? 0) then let? t := PermanodeModtimeLocked corpus br in Ok (continues cc (pcc_LastMod cc) br t)
      else if negb (pcc_LastCreated cc =? 0) then let? t := PermanodeAnyTimeLocked corpus br now in Ok (continues cc (pcc_LastCreated cc) br t)
      else Panic "Continue constraint without a LastMod or a LastCreated"
  end.

(** [PermanodeConstraint.blobMatches] *)
Definition pnMatches : matchFn := fun h br bm =>
  if negb (bool_decide (bm_CamliType bm = gs "permanode")) then Ok false
  else
    let? dp := match h_corpus h with Some _ => Ok (Some (MkDescribedPn ∅ 0)) | None => describedPn h br end in
    match dp with
    | None => Ok false
    | Some dp =>
        andThen (pnAttr h dp br) (andThen (Ok (pnNotHidden h br)) (andThen (pnModTime h dp br) (andThen (pnTime h br)
          (andThen (pnRelation h br) (andThen (pnLocation h br) (pnContinue h br))))))
    end.
End pn.

(** ** Any constraint *)

Definition logicalMatch (op : gostr) (amatches : matchFn) (bmatches : option matchFn) : matchFn := fun h br bm =>
  let? av := amatches h br bm in
  if decide (op = gs "not") then Ok (negb av)
  else if bool_decide (op = gs "and") && negb av then Ok false
  else if bool_decide (op = gs "or") && av then Ok true
  else
    match bmatches with
    | None => Panic "nil pointer dereference"
    | Some bmatches =>
        let? bv := bmatches h br bm in
        if bool_decide (op = gs "and") || bool_decide (op = gs "or") then Ok bv
        else if bool_decide (op = gs "xor") then Ok (xorb av bv)
        else Panic "unreachable"
    end.

(** What [genMatcher] makes of the conditions it collects. *)
Definition conjoin (conds : list matchFn) : matchFn :=
  match conds with [] => neverMatch | [cond] => cond | _ => allMustMatch conds end.

Definition condIf (b : bool) (fn : matchFn) : list matchFn := if b then [fn] else [].

Fixpoint genMatcher (c : Constraint) : res matchFn :=
  match c with
  | MkConstraint lg anything ct anyType pfx file dir _ bs pn =>
      let? logical :=
        match lg with
        | None => Ok []
        | Some (MkLogical op a b) =>
            let? am := match a with None => Panic "nil pointer dereference" | Some a => genMatcher a end in
            let? bm := if decide (op = gs "not") then Ok None
                       else match b with None => Panic "nil pointer dereference" | Some b => let? m := genMatcher b in Ok (Some m) end in
            Ok [logicalMatch op am bm]
        end in
      let permanode :=
        match pn with
        | None => []
        | Some (MkPermanode _ _ _ _ _ _ _ _ _ _ _ inset rel _ _ as p) =>
            let inner (o : option Constraint) := match o with Some c => Some (genMatcher c) | None => None end in
            let '(any, all) := match rel with Some (MkRelation _ _ any all) => (inner any, inner all) | None => (None, None) end in
            [pnMatches p (inner inset) any all]
        end in
      Ok (conjoin (logical ++ condIf anything alwaysMatch ++
        condIf (negb (bool_decide (ct = []))) (fun _ _ bm => Ok (bool_decide (bm_CamliType bm = ct))) ++
        condIf anyType anyCamliType ++ permanode ++
        match file with Some fc => [fileMatches fc] | None => [] end ++
        match dir with Some _ => [dirMatches] | None => [] end ++
        match bs with Some bs => [fun _ _ bm => Ok (intMatches bs (bm_Size bm))] | None => [] end ++
        condIf (negb (bool_decide (pfx = []))) (fun _ br _ => Ok (isPrefixB pfx (RefString br)))))
  end.

(** * Queries *)

(** [SearchQuery.checkValid]: the constraint of the expression, if there is no
    other. *)
Definition queryCheckValid (q : SearchQuery) : res (option Constraint) :=
  if (maxSortType <=? sq_Sort q) || (sq_Sort q <? 0) then Err (ErrMsg "invalid sort type")
  else
    match sq_Constraint q with
    | Some c => let? _ := checkValid c in Ok None
    | None =>
        if decide (sq_Expression q = []) then Err (ErrMsg "no search constraint or expression")
        else
          match parseExpression Lookup (sq_Expression q) with
          | Err _ => Err (ErrMsg "Error parsing search expression %q: %v")
          | Panic p => Panic p
          | Blocked => Blocked
          | Ok c =>
              match checkValid c with
              | Err _ => Err (ErrMsg "Internal error: parseExpression(%q) returned invalid constraint: %v")
              | Ok _ => Ok (Some c)
              | Panic p => Panic p
              | Blocked => Blocked
              end
          end
    end.

(** [candidateSource] *)
Inductive candSource := corpus_permanode_lastmod | corpus_permanode_created | corpus_blob_meta (camType : gostr) | index_blob_meta.

Definition cands_sorted (src : candSource) : bool :=
  match src with corpus_permanode_lastmod | corpus_permanode_created => true | _ => false end.

Definition pickCandidateSource (q : plan) (h : Handler) : res candSource :=
  let c := pq_Constraint q in
  let anyBlob := if c_AnyCamliType c || negb (bool_decide (c_CamliType c = [])) then corpus_blob_meta (c_CamliType c) else index_blob_meta in
  match h_corpus h with
  | None => Ok index_blob_meta
  | Some _ =>
      let? only := onlyMatchesPermanode c in
      Ok (if only && (pq_Sort q =? LastModifiedDesc) then corpus_permanode_lastmod
          else if only && (pq_Sort q =? CreatedDesc) then corpus_permanode_created
          else anyBlob)
  end.

Definition withCorpus (h : Handler) (c : Corpus) : Handler := MkHandler (setCorpus (h_index h) (Some c)) (h_owner h) (h_slurp h).

(** [cands.send], uninterrupted. *)
Definition sendCandidates (src : candSource) (h : Handler) : Handler * list BlobMeta * res unit :=
  match src, h_corpus h with
  | corpus_permanode_lastmod, Some c =>
      let '(c, out, r) := EnumeratePermanodesLastModifiedLocked c None in (withCorpus h c, out, r)
  | corpus_permanode_created, Some c =>
      let '(c, out, r) := EnumeratePermanodesCreatedLocked c now None true in (withCorpus h c, out, r)
  | corpus_blob_meta camType, Some c => let '(out, r) := EnumerateCamliBlobsLocked arrange c None camType in (h, out, r)
  | _, _ => let '(out, r) := EnumerateBlobMeta (@arrange) (h_index h) None in (h, out, r)
  end.

(** The loop over the candidates: what matches, up to the limit where the
    source is sorted. *)
Fixpoint matchLoop (blobMatches : matchFn) (h : Handler) (stop : nat -> bool) (metas : list BlobMeta) (blobs : list Ref) : res (list Ref) :=
  match metas with
  | [] => Ok blobs
  | meta :: metas =>
      let? m := blobMatches h (bm_Ref meta) meta in
      if m : bool then
        let blobs := blobs ++ [bm_Ref meta] in
        if stop (length blobs) then Ok blobs else matchLoop blobMatches h stop metas blobs
      else matchLoop blobMatches h stop metas blobs
  end.

Definition stopAt (limit : Z) (sorted : bool) (n : nat) : bool := (0 <? limit) && (Z.of_nat n =? limit) && sorted.

(** [setResultContinue]: the token that the result ends with. *)
Definition setResultContinue (q : plan) (corpus : Corpus) (blobs : list Ref) : res gostr :=
  let? only := onlyMatchesPermanode (pq_Constraint q) in
  if negb only then Ok []
  else if negb ((pq_Sort q =? LastModifiedDesc) || (pq_Sort q =? CreatedDesc)) then Ok []
  else
    if (pq_Limit q <=? 0) || negb (glen blobs =? pq_Limit q) then Ok []
    else
      match last blobs with
      | None => Ok []
      | Some lastpn =>
          let? t := if pq_Sort q =? LastModifiedDesc then PermanodeModtimeLocked corpus lastpn else PermanodeAnyTimeLocked corpus lastpn now in
          Ok (match t with Some t => continueToken t lastpn | None => [] end)
      end.

(** What is found, before it is described. *)
Definition runPlan (h : Handler) (q : plan) : Handler * res (list Ref * gostr) :=
  match (let? src := pickCandidateSource q h in let? m := genMatcher (pq_Constraint q) in Ok (src, m)) with
  | Err e => (h, Err e)
  | Panic p => (h, Panic p)
  | Blocked => (h, Blocked)
  | Ok (src, blobMatches) =>
      let '(h, metas, sent) := sendCandidates src h in
      (h,
       let? _ := match sent with Panic p => Panic p | Blocked => Blocked | _ => Ok tt end in
       let? blobs := matchLoop blobMatches h (stopAt (pq_Limit q) (cands_sorted src)) metas [] in
       let? _ := match sent with Err e => if decide (e = ErrCanceled) then Ok tt else Err e | _ => Ok tt end in
       let blobs := if negb (cands_sorted src) && (0 <? pq_Limit q) then take (Z.to_nat (pq_Limit q)) blobs else blobs in
       match h_corpus h with
       | Some corpus => let? token := setResultContinue q corpus blobs in Ok (blobs, token)
       | None => Ok (blobs, [])
       end)
  end.

Definition describeResult (h : Handler) (q : SearchQuery) (blobs : list Ref) : res (option MetaMap) :=
  match sq_Describe q with
  | None => Ok None
  | Some dr =>
      let? m := describe h (MkDescribe blobs zeroRef (dr_Depth dr) (dr_MaxDirChildren dr) (dr_At dr) (dr_ThumbnailSize dr) (dr_Rules dr)) in
      Ok (Some m)
  end.

(** [Handler.Query] *)
Definition Query (h : Handler) (rawq : SearchQuery) : Handler * res SearchResult :=
  match queryCheckValid rawq with
  | Err _ => (h, Err (ErrMsg "Invalid SearchQuery: %v"))
  | Panic p => (h, Panic p)
  | Blocked => (h, Blocked)
  | Ok exprResult =>
      match plannedQuery rawq exprResult with
      | Ok q =>
          let '(h, r) := runPlan h q in
          (h,
           let? found := r in
           let? meta := describeResult h rawq found.1 in
           Ok (MkResult found.1 meta found.2))
      | Err e => (h, Err e)
      | Panic p => (h, Panic p)
      | Blocked => (h, Blocked)
      end
  end.

(** * Requests of the handler *)

Definition minThumbSize : Z := 25.
Definition defThumbSize : Z := 50.
Definition maxThumbSize : Z := 800.

(** [thumbnailSizeStr]; an error of [strconv.Atoi] leaves 0 or an [int] that is too large. *)
Definition thumbnailSizeStr (s : gostr) : Z :=
  if decide (s = []) then 0
  else match ParseInt10 s with
       | Some i => if (minThumbSize <=? i) && (i <=? maxThumbSize) then i else defThumbSize
       | None => defThumbSize
       end.

Definition recentThumbnailSize (v : Z) : Z :=
  if v =? 0 then 0 else if (v <? minThumbSize) || (maxThumbSize <? v) then defThumbSize else v.
Definition withAttrThumbnailSize (v : Z) : Z :=
  if v =? 0 then 0 else if v <? minThumbSize then minThumbSize else if maxThumbSize <? v then maxThumbSize else v.

Definition describeRefsTo (h : Handler) (brs : list Ref) (thumbSize : Z) : res MetaMap :=
  describeTo (@sortBy) (@arrange) pick ToLower ThumbnailVersion describeFuel (h_index h) (h_owner h) brs 2 thumbSize.

Definition GetRecentPermanodesOf (h : Handler) (n : Z) (before : gotime) (thumbSize : Z) : res (list RecentPermanode * MetaMap) :=
  let '(recent, r) := GetRecentPermanodes (h_index h) (h_owner h) (sanitizeNumResults n) (if before =? 0 then now else before) now in
  let? _ := r in
  let? metaMap := describeRefsTo h (map rp_Permanode recent) (recentThumbnailSize thumbSize) in
  Ok (recent, metaMap).

Definition GetPermanodesWithAttr (h : Handler) (signer : Ref) (attr value : gostr) (fuzzy : bool) (n thumbSize : Z) : res (list Ref * MetaMap) :=
  let signer := if Valid signer then signer else h_owner h in
  let '(withAttr, r) := SearchPermanodesWithAttr (h_index h) (MkByAttr signer attr value fuzzy n) in
  let? metaMap := describeRefsTo h withAttr (withAttrThumbnailSize thumbSize) in
  let? _ := r in
  Ok (withAttr, metaMap).

Definition GetClaims (h : Handler) (permanode : Ref) (attrFilter : gostr) : res (list Claim) :=
  if negb (Valid permanode) then Err (ErrMsg "Error getting claims: nil permanode.")
  else
    match AppendClaims (h_index h) [] permanode (h_owner h) attrFilter with
    | Err _ => Err (ErrMsg "Error getting claims of %s: %v")
    | r => let? claims := r in Ok (sortBy cl_Date claims)
    end.

Definition serveFiles (h : Handler) (wholedigest : gostr) : res (list gostr) :=
  match blobParse wholedigest with
  | None => Err (ErrMsg "Missing or invalid 'wholedigest' param")
  | Some br => let? files := ExistingFileSchemas (h_index h) br in Ok (map RefString files)
  end.

Definition SignerAttrValue (h : Handler) (signer : Ref) (attr value : gostr) : res (Ref * MetaMap) :=
  let? pn := PermanodeOfSignerAttrValue (h_index h) signer attr value in
  let? metaMap := describeRefsTo h [pn] 0 in
  Ok (pn, metaMap).

(** [verify]: whether the permanode of an edge still refers to [toRef]; a
    blob that is not described is a nil pointer. *)
Definition verifyEdge (h : Handler) (toRef from : Ref) : res bool :=
  match wait (@sortBy) (@arrange) pick describeFuel (h_index h) (h_owner h) (MkDescribe [] zeroRef 0 0 0 0 []) (startDescribe newDesc from 1) with
  | (s, Ok _) =>
      if decide (ds_errs s = ∅) then
        match ds_m s !! RefString from with
        | None => Panic "nil pointer dereference"
        | Some db =>
            Ok match db_Permanode db with
               | Some dp => existsb (fun av : gostr * list gostr => IsBlobReferenceAttribute av.1 && bool_decide (RefString toRef ∈ av.2)) (map_to_list (dp_Attr dp))
               | None => false
               end
        end
      else Err (ErrMsg "DescribeError")
  | (_, r) => let? _ := r in Ok false
  end.

(** [Handler.EdgesTo]; the permanodes are verified side by side and come in
    the order in which that ends. *)
Definition HandlerEdgesTo (h : Handler) (toRef : Ref) : res (list (Ref * gostr)) :=
  match EdgesTo (@arrange) (h_index h) toRef with
  | Err _ => Panic "EdgesTo"
  | r =>
      let? edges := r in
      let isPn (e : Edge) : bool := bool_decide (e_FromType e = gs "permanode") in
      let others := filter (fun e => isPn e = false) edges in
      let? verified := rfold (fun acc e => let? ok := verifyEdge h toRef (e_From e) in
                                           Ok (if ok : bool then acc ++ [(e_From e, gs "permanode")] else acc))
                         (arrange (filter (fun e => isPn e = true) edges)) [] in
      Ok (map (fun e => (e_From e, e_FromType e)) others ++ verified)
  end.

Definition GetSignerPaths (h : Handler) (signer target : Ref) : res (list Path * MetaMap) :=
  if negb (Valid signer) then Err (ErrMsg "Error getting signer paths: nil signer.")
  else if negb (Valid target) then Err (ErrMsg "Error getting signer paths: nil target.")
  else
    match PathsOfSignerTarget (@arrange) (h_index h) signer target with
    | Err _ => Err (ErrMsg "Error getting paths of %s: %v")
    | r =>
        let? paths := r in
        let? metaMap := describeRefsTo h (map p_Base paths) 0 in
        Ok (paths, metaMap)
    end.
End search.
