(* ===== verification/ExprLaws.v ===== *)
(** What the lexer and the parser of search expressions guarantee: the parser
    always ends, and the constraint that it returns is well-formed at every
    depth ([SearchExpr], [Constraint]). *)

From Stdlib Require Import SpecFloat.
From S2P Require Import Prelude Ref Strutil SortedKV Times Json Schema IndexKeys Runes Constraint Predicate SearchExpr.

(** * Well-formed constraints *)

(** A result that is a value or an error. *)
Definition calm {A : Type} (r : res A) : Prop := match r with Ok _ | Err _ => True | Panic _ | Blocked => False end.

Lemma calm_bind {A B : Type} (r : res A) (k : A -> res B) : calm r -> (forall a, r = Ok a -> calm (k a)) -> calm (rbind r k).
Proof. destruct r; cbn; auto. Qed.

(** Every constraint inside, too, passes [checkValid] and asks nothing of
    directories, which have no matcher. *)
Fixpoint deepValid (c : Constraint) : bool :=
  is_ok (checkValid c) &&
  let inner (o : option Constraint) : bool := match o with Some c => deepValid c | None => true end in
  match c with
  | MkConstraint lg _ _ _ _ _ dir _ _ pn =>
      isNone dir &&
      match lg with Some (MkLogical _ a b) => inner a && inner b | None => true end &&
      match pn with
      | Some (MkPermanode _ _ _ _ _ _ _ _ _ _ _ inset rel _ _) =>
          inner inset && match rel with Some (MkRelation _ _ any all) => inner any && inner all | None => true end
      | None => true
      end
  end.

(** * The lexer *)

(** The bytes that have not been read. *)
Definition rem (l : lexer) : nat := (length (input l) - pos l)%nat.

(** [l'] has read on from [l]. *)
Definition ahead (l l' : lexer) : Prop := input l' = input l /\ (pos l <= pos l')%nat.

#[global] Instance ahead_refl : Reflexive ahead.
Proof. intros l. split; [done|lia]. Qed.
#[global] Instance ahead_trans : Transitive ahead.
Proof. intros a b c [E1 H1] [E2 H2]. split; [congruence|lia]. Qed.

Lemma ahead_rem l l' : ahead l l' -> (rem l' <= rem l)%nat.
Proof. intros [E H]. unfold rem. rewrite E. lia. Qed.

(** One rune: at the end nothing moves. *)
Lemma lnext_spec l r l' : lnext l = (r, l') ->
  input l' = input l /\ lstart l' = lstart l /\ pos l' = (pos l + width l')%nat /\
  (r <> eof -> (pos l < length (input l))%nat /\ (1 <= width l')%nat).
Proof.
  unfold lnext. case_match eqn:E; [intros [= <- <-]; cbn; repeat split; done || lia|].
  apply Nat.leb_gt in E. pose proof (DecodeRune_size (drop (pos l) (input l))) as Hs.
  destruct (DecodeRune _) as [r0 w]. intros [= <- <-]. cbn in *. split; [done|]. split; [done|]. split; [done|]. intros _.
  rewrite length_drop in Hs. assert (drop (pos l) (input l) <> []) as Hne; [|specialize (Hs Hne); lia].
  intros Hn. apply (f_equal length) in Hn. rewrite length_drop in Hn. cbn in Hn. lia.
Qed.

Lemma lpeek_spec l r l' : lpeek l = (r, l') ->
  input l' = input l /\ lstart l' = lstart l /\ pos l' = pos l /\ (lnext l).1 = r /\ (r <> eof -> (0 < rem l)%nat).
Proof.
  unfold lpeek. destruct (lnext l) as [r0 l0] eqn:E. intros [= <- <-]. apply lnext_spec in E as (E1 & E2 & E3 & E4). cbn.
  repeat split; try done; try lia. intros H. apply E4 in H. unfold rem. lia.
Qed.

(** Looking at the next rune does not depend on what was read before. *)
Lemma lnext_at l l' : input l = input l' -> pos l = pos l' -> (lnext l).1 = (lnext l').1.
Proof. intros E1 E2. unfold lnext. rewrite E1, E2. case_match; [done|]. by destruct (DecodeRune _). Qed.

Lemma oneOf_eof valid : oneOf valid eof = false.
Proof.
  apply bool_decide_eq_false. intros H. apply list_elem_of_fmap in H as (c & H & _). unfold eof, bz in H. lia.
Qed.

Lemma accept_spec valid l b l' : accept valid l = (b, l') ->
  ahead l l' /\ lstart l' = lstart l /\ (b = false -> pos l' = pos l) /\
  (b = true -> (rem l' < rem l)%nat /\ pos (backup l') = pos l).
Proof.
  unfold accept. destruct (lnext l) as [r l0] eqn:E. apply lnext_spec in E as (E1 & E2 & E3 & E4).
  destruct (oneOf valid r) eqn:Eo; intros [= <- <-].
  - assert (r <> eof) as Hr by (intros ->; by rewrite oneOf_eof in Eo). apply E4 in Hr.
    unfold ahead, rem. cbn. rewrite E1. repeat split; try done; try lia.
  - unfold ahead. cbn. rewrite E3. repeat split; try done; lia.
Qed.

Lemma acceptString_spec s l b l' : acceptString s l = (b, l') ->
  ahead l l' /\ lstart l' = lstart l /\ (b = true -> s <> [] -> (rem l' < rem l)%nat).
Proof.
  revert l. induction s as [|c s IH]; intros l; cbn [acceptString]; [intros [= <- <-]; done|].
  destruct (lnext l) as [r l0] eqn:E. apply lnext_spec in E as (E1 & E2 & E3 & E4).
  destruct (Z.eqb_spec r (bz c)) as [Hr|].
  - intros H. apply IH in H as (Ha & Hs & Hb). assert (r <> eof) as Hn by (unfold eof, bz in *; lia). apply E4 in Hn.
    assert (ahead l l0) as Hl by (split; [done|lia]). split; [by etransitivity|]. split; [congruence|]. intros _ _.
    apply ahead_rem in Ha. unfold rem in *. rewrite E1 in Ha. lia.
  - intros [= <- <-]. unfold ahead. cbn. repeat split; try done. lia.
Qed.

Lemma acceptRunFn_spec valid l : let l' := acceptRunFn valid l in ahead l l' /\ lstart l' = lstart l.
Proof.
  unfold acceptRunFn. generalize (S (length (input l) - pos l)) as n. intros n. revert l.
  induction n as [|n IH]; intros l; cbn [acceptLoop]; [done|]. destruct (lnext l) as [r l0] eqn:E.
  apply lnext_spec in E as (E1 & E2 & E3 & _). destruct (valid r).
  - destruct (IH l0) as [Ha Hs]. split; [|congruence]. etransitivity; [|exact Ha]. split; [done|lia].
  - unfold ahead. cbn. repeat split; done || lia.
Qed.

Lemma quotedLoop_spec n l : let l' := (quotedLoop n l).2 in ahead l l' /\ lstart l' = lstart l.
Proof.
  revert l. induction n as [|n IH]; intros l; cbn [quotedLoop]; [done|]. destruct (lnext l) as [r l0] eqn:E.
  apply lnext_spec in E as (E1 & E2 & E3 & _). assert (ahead l l0) as Ha by (split; [done|lia]).
  repeat case_match; cbn [snd]; try done.
  - destruct (lnext l0) as [r1 l1] eqn:E'. apply lnext_spec in E' as (E1' & E2' & E3' & _). cbn [snd].
    destruct (IH l1) as [Hb Hs]. split; [|congruence]. etransitivity; [exact Ha|]. etransitivity; [|exact Hb]. split; [done|lia].
  - destruct (IH l0) as [Hb Hs]. split; [by etransitivity|congruence].
Qed.

Lemma runQuoted_spec l b l' : runQuoted l = (b, l') -> ahead l l' /\ lstart l' = lstart l.
Proof.
  unfold runQuoted. destruct (accept [dquote] l) as [b0 l0] eqn:E. apply accept_spec in E as (Ha & Hs & _). cbn [snd].
  intros H. pose proof (quotedLoop_spec (S (length (input l0) - pos l0)) l0) as Hq. rewrite H in Hq. cbn in Hq.
  destruct Hq as [Hq1 Hq2]. split; [by etransitivity|congruence].
Qed.

(** Before a colon. *)
Definition colonNext (l : lexer) : Prop := (lnext l).1 = bz colon.

Lemma colonNext_peek l0 l l' : lpeek l0 = (bz colon, l) -> input l' = input l -> pos l' = pos l -> colonNext l'.
Proof.
  intros H E1 E2. apply lpeek_spec in H as (E3 & _ & E4 & E5 & _). unfold colonNext. rewrite <- E5.
  apply lnext_at; congruence.
Qed.

(** What may come in the states that the lexer rests in, and where each token
    leaves it. *)
Definition opening : list tokenType :=
  [tokenOpen; tokenClose; tokenNot; tokenPredicate; tokenLiteral; tokenQuotedLiteral; tokenError; tokenEOF].

Definition expects (st : option stateFn) : list tokenType :=
  match st with
  | Some readExp => opening
  | Some readOperator => tokenAnd :: tokenOr :: opening
  | Some readColon => [tokenColon]
  | Some readArg => [tokenArg; tokenQuotedArg; tokenError]
  | _ => [tokenEOF]
  end.

Definition leaves (t : tokenType) (st : option stateFn) (l : lexer) : Prop :=
  match t with
  | tokenOpen | tokenNot | tokenAnd | tokenOr => st = Some readExp
  | tokenClose | tokenLiteral | tokenQuotedLiteral => st = Some readOperator
  | tokenPredicate => st = Some readColon /\ colonNext l
  | tokenColon => st = Some readArg
  | tokenArg | tokenQuotedArg => st = Some readColon /\ colonNext l \/ st = Some readOperator
  | tokenError | tokenEOF => st = None
  end.

(** More than the tokens to come before one of those that the parser does not
    take. *)
Definition steps (st : option stateFn) (l : lexer) : nat :=
  match st with None => 0 | Some readColon => 3 * rem l | Some readArg => 3 * rem l + 2 | Some _ => 3 * rem l + 1 end.

Definition stuck (t : tokenType) : bool :=
  match t with tokenLiteral | tokenQuotedLiteral | tokenError | tokenEOF => true | _ => false end.

Definition resting (st : option stateFn) (l : lexer) : Prop :=
  match st with Some readExp | Some readOperator | Some readArg => True | Some readColon => colonNext l | _ => False end.

(** A run of the lexer to its next token. *)
Definition runs (types : list tokenType) (bound : nat) (r : option token * option stateFn * lexer) : Prop :=
  let '(t, st, l) := r in
  let ty := typ (default eofToken t) in
  ty ∈ types /\ leaves ty st l /\ (stuck ty = true \/ S (steps st l) <= bound)%nat.

Lemma runs_weaken types types' b b' r : runs types b r -> types ⊆ types' -> (b <= b')%nat -> runs types' b' r.
Proof. destruct r as [[t st] l]. intros (H1 & H2 & H3) Ht Hb. split; [by apply Ht|]. split; [done|]. destruct H3; [by left|right; lia]. Qed.

Section lex.
Context `{Unicode}.

Lemma runLexer_S n s l :
  runLexer (S n) (Some s) l = match runState s l with (l, Some t, next) => (Some t, next, l) | (l, None, next) => runLexer n next l end.
Proof. reflexivity. Qed.

Lemma readLiteral_runs n l b : runs [tokenLiteral] b (runLexer (S n) (Some readLiteral) l).
Proof. repeat apply conj; [by apply list_elem_of_singleton|done|by left]. Qed.

Lemma readPredicate_runs n l : runs [tokenPredicate; tokenLiteral] (3 * rem l + 1) (runLexer (S (S n)) (Some readPredicate) l).
Proof.
  rewrite runLexer_S. cbn [runState]. destruct (acceptRunFn_spec IsLetter l) as [Ha _]. destruct (lpeek _) as [r l1] eqn:E.
  pose proof E as E'. apply lpeek_spec in E' as (E1 & _ & E3 & _ & _). destruct (Z.eqb_spec r (bz colon)) as [->|].
  - cbn. split; [by left|]. split; [split; [done|]; by eapply colonNext_peek|]. right. apply ahead_rem in Ha. unfold rem, ignore in *. cbn. rewrite E1, E3. lia.
  - cbn [goto]. eapply runs_weaken; [apply (readLiteral_runs n _ 0)| |lia]. intros ? ?%list_elem_of_singleton. subst. by right; left.
Qed.

(** The keywords, or what else begins with their letter. *)
Lemma readWord_runs n l word t b : word <> [] -> (t = tokenAnd /\ b = readAND /\ word = gs "and") \/ (t = tokenOr /\ b = readOR /\ word = gs "or") ->
  runs [t; tokenPredicate; tokenLiteral] (3 * rem l + 1) (runLexer (S (S (S n))) (Some b) l).
Proof.
  intros Hw Hb.
  assert (Hrun : forall l', ahead l l' -> runs [t; tokenPredicate; tokenLiteral] (3 * rem l + 1) (runLexer (S (S n)) (Some readPredicate) l')).
  { intros l' Ha. eapply runs_weaken; [apply readPredicate_runs|set_solver|]. apply ahead_rem in Ha. lia. }
  assert (Hgo : runs [t; tokenPredicate; tokenLiteral] (3 * rem l + 1)
            (match (match acceptString word l with
                    | (true, l) => match accept opBound l with
                                   | (true, l) => emit (backup l) t (Some readExp)
                                   | (false, l) => goto l readPredicate
                                   end
                    | (false, l) => goto l readPredicate
                    end) with
             | (l, Some t, next) => (Some t, next, l)
             | (l, None, next) => runLexer (S (S n)) next l
             end)).
  { destruct (acceptString word l) as [[] l1] eqn:E1; apply acceptString_spec in E1 as (Ha & _ & Hd); [|by apply Hrun].
    destruct (accept opBound l1) as [[] l2] eqn:E2; apply accept_spec in E2 as (Ha2 & _ & H3 & H4); [|apply Hrun; by etransitivity].
    cbn. specialize (H4 eq_refl) as [_ H4]. specialize (Hd eq_refl Hw).
    split; [by left|]. split; [by destruct Hb as [(-> & _)|(-> & _)]|]. right. unfold rem in *. cbn in *. destruct Ha2 as [-> _]. lia. }
  destruct Hb as [(-> & -> & ->)|(-> & -> & ->)]; exact Hgo.
Qed.

Lemma space_ahead l : ahead l (ignore (acceptRun whitespace l)).
Proof. destruct (acceptRunFn_spec (oneOf whitespace) l) as [Ha _]. exact Ha. Qed.

(** A token of one byte. *)
Lemma readByte_runs n l c r (st : stateFn) (t : tokenType) next types b :
  (forall l, runState st l = emit (accept [c] l).2 t (Some next)) -> (lnext l).1 = r -> r = bz c -> t ∈ types ->
  (forall l', leaves t (Some next) l') -> (forall l', steps (Some next) l' <= 3 * rem l' + 2)%nat -> (3 * rem l <= b)%nat ->
  runs types b (runLexer (S n) (Some st) l).
Proof.
  intros Hst Hr -> Ht Hl Hs Hb. rewrite runLexer_S, Hst. destruct (accept [c] l) as [a l'] eqn:E. cbn [snd emit].
  assert (a = true) as ->.
  { unfold accept in E. destruct (lnext l) as [r0 l0]. cbn in Hr. subst r0. unfold oneOf in E. cbn [map] in E.
    rewrite bool_decide_eq_true_2 in E by (by left). by injection E. }
  apply accept_spec in E as (_ & _ & _ & E). destruct (E eq_refl) as [Hlt _]. cbn. split; [done|]. split; [apply Hl|].
  right. specialize (Hs (ignore l')). unfold rem in *. cbn in *. lia.
Qed.

Lemma readQuoted_runs n l b : runs [tokenQuotedLiteral; tokenError] b (runLexer (S n) (Some readQuotedLiteral) l).
Proof.
  rewrite runLexer_S. cbn [runState]. destruct (runQuoted l) as [[] l']; repeat apply conj; cbn; set_solver.
Qed.

Lemma readExp_runs n l b : (3 * rem l + 1 <= b)%nat -> runs opening b (runLexer (S (S (S n))) (Some readExp) l).
Proof.
  intros Hb. rewrite runLexer_S. cbn [runState]. destruct (lpeek _) as [r l1] eqn:E.
  pose proof (ahead_rem _ _ (space_ahead l)) as Ha. apply lpeek_spec in E as (E1 & _ & E3 & E4 & E5).
  assert ((lnext l1).1 = r) as Hr by (rewrite <- E4; by apply lnext_at).
  assert (3 * rem l1 + 1 <= b)%nat as Hb1 by (unfold rem in *; rewrite E1, E3; cbn in *; lia).
  destruct (Z.eqb_spec r eof) as [->|]; [cbn; split; [unfold opening; set_solver|split; [done|by left]]|]. cbn [goto].
  destruct (Z.eqb_spec r (bz "(")) as [Hc|_]; [|destruct (Z.eqb_spec r (bz ")")) as [Hc|_]; [|destruct (Z.eqb_spec r (bz "-")) as [Hc|_];
    [|destruct (Z.eqb_spec r (bz dquote)) as [_|_]]]].
  - eapply (readByte_runs _ _ "("%char); try done; [unfold opening; set_solver|intros; cbn; lia|lia].
  - eapply (readByte_runs _ _ ")"%char); try done; [unfold opening; set_solver|intros; cbn; lia|lia].
  - eapply (readByte_runs _ _ "-"%char); try done; [unfold opening; set_solver|intros; cbn; lia|lia].
  - eapply runs_weaken; [apply (readQuoted_runs (S n) _ b)|unfold opening; set_solver|done].
  - eapply runs_weaken; [apply readPredicate_runs|unfold opening; set_solver|done].
Qed.

Lemma readOperator_runs n l : runs (tokenAnd :: tokenOr :: opening) (3 * rem l + 1) (runLexer (S (S (S (S n)))) (Some readOperator) l).
Proof.
  rewrite runLexer_S. cbn [runState]. destruct (lpeek _) as [r l1] eqn:E. pose proof (ahead_rem _ _ (space_ahead l)) as Ha.
  apply lpeek_spec in E as (E1 & _ & E3 & _). assert (3 * rem l1 + 1 <= 3 * rem l + 1)%nat as Hb by (unfold rem in *; rewrite E1, E3; cbn in *; lia).
  cbn [goto]. destruct (Z.eqb_spec r (bz "a")) as [_|_]; [|destruct (Z.eqb_spec r (bz "o")) as [_|_]].
  - eapply runs_weaken; [apply (readWord_runs _ _ (gs "and") tokenAnd readAND)| |done]; [done|by left|unfold opening; set_solver].
  - eapply runs_weaken; [apply (readWord_runs _ _ (gs "or") tokenOr readOR)| |done]; [done|by right|unfold opening; set_solver].
  - eapply runs_weaken; [by apply (readExp_runs _ l1 (3 * rem l + 1))|set_solver|done].
Qed.

Lemma afterArg_runs n l t b : t = tokenArg \/ t = tokenQuotedArg -> (3 * rem l + 2 <= b)%nat ->
  runs [tokenArg; tokenQuotedArg; tokenError] b
    (match afterArg l t with (l, Some t, next) => (Some t, next, l) | (l, None, next) => runLexer n next l end).
Proof.
  unfold afterArg. intros Ht Hb. cbn [runs default emitted typ].
  assert (steps (Some (if ((lpeek (ignore l)).1 =? bz colon)%Z then readColon else readOperator)) (ignore l) <= 3 * rem l + 1)%nat as Hs
    by (unfold rem; case_match; cbn; unfold rem; cbn; lia).
  split; [destruct Ht as [-> | ->]; set_solver|]. split; [|right; lia].
  assert (leaves tokenArg (Some (if ((lpeek (ignore l)).1 =? bz colon)%Z then readColon else readOperator)) (ignore l)) as Hl; [|by destruct Ht as [-> | ->]].
  destruct (lpeek (ignore l)) as [r l1] eqn:E. cbn [fst]. destruct (Z.eqb_spec r (bz colon)) as [->|]; [left|by right].
  split; [done|]. apply lpeek_spec in E as (_ & _ & _ & E & _). exact E.
Qed.

Lemma readArg_runs n l : runs [tokenArg; tokenQuotedArg; tokenError] (3 * rem l + 2) (runLexer (S (S n)) (Some readArg) l).
Proof.
  rewrite runLexer_S. cbn [runState]. destruct (lpeek l) as [r l1] eqn:E. apply lpeek_spec in E as (E1 & _ & E3 & _ & _).
  assert (rem l1 = rem l) as Hr by (unfold rem; congruence). destruct (Z.eqb_spec r (bz dquote)) as [_|_].
  - cbn [goto]. rewrite runLexer_S. cbn [runState].
    destruct (runQuoted l1) as [[] l2] eqn:Eq; apply runQuoted_spec in Eq as [Ha _]; apply ahead_rem in Ha.
    + apply afterArg_runs; [by right|lia].
    + repeat apply conj; cbn; set_solver.
  - destruct (acceptRunFn_spec isSearchWordRune l1) as [Ha _]. apply ahead_rem in Ha. apply afterArg_runs; [by left|lia].
Qed.

(** From every state it rests in the lexer reaches the next token. *)
Lemma runLexer_runs st l : resting st l -> runs (expects st) (steps st l) (runLexer 6 st l).
Proof.
  intros Hr. destruct st as [[]|]; try done; cbn [expects steps].
  - eapply (readByte_runs _ _ ":"%char); [done|exact Hr|done|set_solver|done|intros; cbn; lia|done].
  - apply readArg_runs.
  - by apply readExp_runs.
  - apply readOperator_runs.
Qed.
End lex.

(** * What the predicates make *)

Lemma deepValid_check c : deepValid c = true -> checkValid c = Ok tt.
Proof.
  intros Hd. assert (is_ok (checkValid c) = true) as Hc by (destruct c; cbn [deepValid] in Hd; by apply andb_prop in Hd as [? _]).
  by destruct (checkValid c) as [[]| | |].
Qed.

Lemma deepValid_binary op a b : op ∈ [gs "and"; gs "xor"; gs "or"] -> deepValid a = true -> deepValid b = true ->
  deepValid (onLogical (MkLogical op (Some a) (Some b))) = true.
Proof.
  intros Ho Ha Hb. cbn [deepValid onLogical]. rewrite Ha, Hb. cbn [checkValid].
  rewrite (deepValid_check a), (deepValid_check b) by done. cbn [rbind]. rewrite bool_decide_eq_true_2 by done. done.
Qed.

Lemma deepValid_and a b : deepValid a = true -> deepValid b = true -> deepValid (andConst a b) = true.
Proof. apply deepValid_binary. set_solver. Qed.
Lemma deepValid_or a b : deepValid a = true -> deepValid b = true -> deepValid (orConst a b) = true.
Proof. apply deepValid_binary. set_solver. Qed.
Lemma deepValid_not a : deepValid a = true -> deepValid (notConst a) = true.
Proof. intros Ha. unfold notConst. cbn [deepValid onLogical]. rewrite Ha. cbn [checkValid]. by rewrite (deepValid_check a). Qed.

Lemma deepValid_attr attr val : deepValid (attrConst attr val) = true.
Proof.
  unfold attrConst. destruct (decide (val = [])); cbn [deepValid onPermanode checkValid pnCheckValid pc_Attr numValueCheckValid pc_NumValue hasValueConstraint
    pc_Value pc_ValueMatches pc_ValueMatchesInt pc_ValueMatchesFloat pc_ValueInSet isNone intCheckValid rbind].
  - by destruct (decide (attr = [])).
  - unfold hasValueConstraint. cbn [pc_Value]. rewrite (bool_decide_eq_false_2 (val = [])) by done. by destruct (decide (attr = [])).
Qed.

Lemma deepValid_location loc : deepValid (atLocation loc) = true.
Proof. by apply deepValid_or. Qed.

(** A keyword that an atom matches either refuses its arguments or makes a
    well-formed constraint of them. *)
Definition sound (r : res Constraint) : Prop := match r with Ok c => deepValid c = true | Err _ => True | Panic _ | Blocked => False end.
Definition soundKeyword (k : keyword) : Prop :=
  forall a, calm (kw_Match k a) /\ (kw_Match k a = Ok true -> sound (kw_Predicate k (args a))).

Lemma soundKeyword_equal name c : deepValid c = true -> soundKeyword (newMatchEqual name c).
Proof. intros Hc a. done. Qed.

Lemma prefixMatch_args name n a : prefixMatch name n a = Ok true -> glen (args a) = n.
Proof. unfold prefixMatch. repeat case_match; try done. by intros _; apply Z.eqb_eq. Qed.
Lemma prefixMatch_calm name n a : calm (prefixMatch name n a).
Proof. unfold prefixMatch. by repeat case_match. Qed.

Lemma soundKeyword_prefix name pred : (forall w, sound (pred w)) -> soundKeyword (newMatchPrefix name pred).
Proof.
  intros Hp a. split; [apply prefixMatch_calm|]. intros Hm%prefixMatch_args. cbn [newMatchPrefix kw_Predicate].
  destruct (args a) as [|w l]; [done|]. apply Hp.
Qed.

Lemma sound_bind {A : Type} (r : res A) (k : A -> res Constraint) : calm r -> (forall a, sound (k a)) -> sound (rbind r k).
Proof. destruct r; cbn; auto. Qed.

Lemma parseTimePrefix_calm w : calm (parseTimePrefix w).
Proof. unfold parseTimePrefix. by repeat case_match. Qed.
Lemma parseWHExpression_calm w : calm (parseWHExpression w).
Proof. unfold parseWHExpression. by repeat case_match. Qed.
Lemma mimeFromFormat_calm w : calm (mimeFromFormat w).
Proof. unfold mimeFromFormat. by repeat case_match. Qed.

Section parse.
Context `{Unicode} (Lookup : gostr -> res (list Rect)).
(** What is relied on of [geocode.Lookup]: it returns. *)
Context (Lookup_calm : forall w, calm (Lookup w)).

Lemma soundKeyword_attribute : soundKeyword newAttribute.
Proof.
  intros a. split; [apply prefixMatch_calm|]. intros Hm%prefixMatch_args. cbn [newAttribute kw_Predicate].
  destruct (args a) as [|attr [|val l]]; try done. cbn [argAt lookup list_lookup rbind].
  destruct val as [|c sub]; [apply deepValid_attr|].
  assert (sound (Ok (attrConst attr (c :: sub)))) as Ha by apply deepValid_attr.
  destruct c as [[] [] [] [] [] [] [] []]; exact Ha.
Qed.

Lemma keywords_sound : Forall soundKeyword (keywords Lookup).
Proof.
  repeat apply Forall_cons_2; try (by apply soundKeyword_equal); try apply Forall_nil_2; try apply soundKeyword_attribute;
    try (apply soundKeyword_equal, deepValid_location); apply soundKeyword_prefix; intros w.
  - by apply sound_bind; [apply parseTimePrefix_calm|].
  - by apply sound_bind; [apply parseTimePrefix_calm|].
  - done.
  - by apply sound_bind; [apply mimeFromFormat_calm|].
  - apply deepValid_attr.
  - done.
  - by apply sound_bind; [apply parseWHExpression_calm|].
  - by apply sound_bind; [apply parseWHExpression_calm|].
  - apply sound_bind; [apply Lookup_calm|]. intros [|r rects]; [done|]. cbn [sound].
    assert (deepValid (rectConst r) = true) as Hr by apply deepValid_location. revert Hr. generalize (rectConst r) as c.
    induction rects as [|r' rects IH]; intros c Hc; [done|]. cbn [foldl]. apply IH, deepValid_or; [done|apply deepValid_location].
Qed.

Lemma matchKeywords_sound ks a : Forall soundKeyword ks -> sound (matchKeywords ks a).
Proof.
  induction 1 as [|k ks Hk _ IH]; cbn [matchKeywords]; [done|]. destruct (Hk a) as [Hc Hp].
  destruct (kw_Match k a) as [[]| | |]; try done. by apply Hp.
Qed.

(** * The parser *)

(** More than the tokens that the parser may still take. *)
Definition ahead_of (p : parser) : nat :=
  match peeked p with
  | None => steps (p_state p) (p_lexer p)
  | Some t => if stuck (typ t) then 0%nat else S (steps (p_state p) (p_lexer p))
  end.

(** The next token is one that follows the state [st] of the lexer. *)
Definition at_ (st : stateFn) (p : parser) : Prop :=
  match peeked p with
  | None => p_state p = Some st /\ resting (Some st) (p_lexer p)
  | Some t => typ t ∈ expects (Some st) /\ leaves (typ t) (p_state p) (p_lexer p)
  end.

Lemma readInternal_at st p t p' : p_state p = Some st -> resting (Some st) (p_lexer p) -> readInternal p = (t, p') ->
  typ t ∈ expects (Some st) /\ leaves (typ t) (p_state p') (p_lexer p') /\ peeked p' = peeked p /\
  (stuck (typ t) = true \/ S (steps (p_state p') (p_lexer p')) <= steps (Some st) (p_lexer p))%nat.
Proof.
  intros Hs Hr. unfold readInternal. rewrite Hs. pose proof (runLexer_runs (Some st) (p_lexer p) Hr) as Hrun.
  destruct (runLexer 6 (Some st) (p_lexer p)) as [[t0 st'] l']. intros [= <- <-]. destruct Hrun as (H1 & H2 & H3). done.
Qed.

Lemma ppeek_at st p t p' : at_ st p -> ppeek p = (t, p') ->
  peeked p' = Some t /\ typ t ∈ expects (Some st) /\ leaves (typ t) (p_state p') (p_lexer p') /\ (ahead_of p' <= ahead_of p)%nat.
Proof.
  unfold at_, ppeek, ahead_of. destruct (peeked p) as [t0|] eqn:Ep.
  - intros [H1 H2] [= <- <-]. rewrite Ep. done.
  - intros [Hs Hr]. destruct (readInternal p) as [t0 p0] eqn:E. intros [= <- <-].
    eapply readInternal_at in E as (H1 & H2 & _ & H3); [|done..]. cbn. split; [done|]. split; [done|]. split; [done|].
    rewrite Hs. destruct H3 as [->|H3]; [lia|]. case_match; lia.
Qed.

Lemma peekType_at st p ty p' : at_ st p -> peekType p = (ty, p') ->
  exists t, peeked p' = Some t /\ typ t = ty /\ ty ∈ expects (Some st) /\ leaves ty (p_state p') (p_lexer p') /\ (ahead_of p' <= ahead_of p)%nat.
Proof.
  unfold peekType. intros Ha. destruct (ppeek p) as [t p0] eqn:E. intros [= <- <-]. exists t.
  destruct (ppeek_at _ _ _ _ Ha E) as (H1 & H2 & H3 & H4). done.
Qed.

(** Taking a token that was seen. *)
Lemma pnext_at p t : peeked p = Some t -> leaves (typ t) (p_state p) (p_lexer p) -> stuck (typ t) = false ->
  let '(t', p') := pnext p in
  t' = t /\ (S (ahead_of p') = ahead_of p)%nat /\ exists st, at_ st p' /\ peeked p' = None /\ leaves (typ t) (Some st) (p_lexer p').
Proof.
  intros Hp Hl Hs. unfold pnext. rewrite Hp. split; [done|]. unfold ahead_of at 2. rewrite Hp, Hs. split; [done|].
  assert (exists st, p_state p = Some st /\ resting (Some st) (p_lexer p)) as (st & Hst & Hr).
  { destruct (typ t); try done; cbn [leaves] in Hl; try (eexists; split; [exact Hl|done]).
    1,3: destruct Hl as [[Hl Hc]|Hl]; eexists; (split; [exact Hl|done]).
    destruct Hl as [Hl Hc]; eexists; (split; [exact Hl|done]). }
  exists st. rewrite <- Hst. split; [|done]. by split.
Qed.

(** A token with which an operand begins. *)
Lemma at_operand st p t : st = readExp \/ st = readOperator -> peeked p = Some t -> typ t ∈ expects (Some st) -> leaves (typ t) (p_state p) (p_lexer p) ->
  typ t <> tokenAnd -> typ t <> tokenOr -> at_ readExp p.
Proof.
  intros Hst Hp Ht Hl Ha Ho. unfold at_. rewrite Hp. split; [|done].
  destruct Hst as [-> | ->]; [done|]. cbn [expects] in *. set_solver.
Qed.

Definition outcome (bound : nat) (r : parser * res (option Constraint)) : Prop :=
  match r with
  | (p, Ok (Some c)) => at_ readOperator p /\ (ahead_of p < bound)%nat /\ deepValid c = true
  | (p, Ok None) => False
  | (_, Err _) => True
  | (_, Panic _) | (_, Blocked) => False
  end.

Lemma outcome_weaken b b' r : outcome b r -> (b <= b')%nat -> outcome b' r.
Proof. destruct r as [p [[c|]|e|s|]]; cbn; try done. intros (H1 & H2 & H3) Hb. split; [done|]. split; [lia|done]. Qed.

Lemma outcome_bind b b' m k : outcome b m ->
  (forall p c, at_ readOperator p -> (ahead_of p < b)%nat -> deepValid c = true -> outcome b' (k p (Some c))) -> outcome b' (pbind m k).
Proof. destruct m as [p [[c|]|e|s|]]; cbn; try done. intros (H1 & H2 & H3) Hk. by apply Hk. Qed.

Lemma stripNot_at fuel p n : at_ readExp p -> (ahead_of p < fuel)%nat ->
  exists p' n', stripNot fuel p n = (p', Ok n') /\ at_ readExp p' /\ (exists t, peeked p' = Some t /\ typ t <> tokenNot) /\ (ahead_of p' <= ahead_of p)%nat.
Proof.
  revert p n. induction fuel as [|fuel IH]; intros p n Ha Hf; [lia|]. cbn [stripNot]. destruct (peekType p) as [ty p1] eqn:E.
  destruct (peekType_at _ _ _ _ Ha E) as (t & Hp & Ht & Hin & Hl & Hle). subst ty. destruct (decide (typ t = tokenNot)) as [Hn|Hn].
  - pose proof (pnext_at p1 t Hp Hl) as Hx. rewrite Hn in Hx. specialize (Hx eq_refl). destruct (pnext p1) as [t' p2].
    destruct Hx as (_ & Hlt & st & Hst & _ & [= ->]). cbn [snd].
    destruct (IH p2 (negb n) Hst) as (p' & n' & H1 & H2 & H3 & H4); [lia|]. exists p', n'. repeat split; try done. lia.
  - exists p1, n. split; [done|]. split; [|split; [by exists t|done]]. unfold at_. by rewrite Hp.
Qed.

(** Inside an atom: before a colon, an argument, or what follows the atom. *)
Definition inAtom (p : parser) : Prop := peeked p = None /\ exists st, at_ st p /\ st ∈ [readColon; readArg; readOperator].

Lemma atomArgs_at fuel p a : inAtom p -> (ahead_of p < fuel)%nat ->
  match atomArgs fuel p a with
  | (p', Ok _) => at_ readOperator p' /\ (ahead_of p' <= ahead_of p)%nat
  | (_, Err _) => True
  | _ => False
  end.
Proof.
  revert p a. induction fuel as [|fuel IH]; intros p a [Hnone (st & Ha & Hst)] Hf; [lia|]. cbn [atomArgs].
  destruct (peekType p) as [ty p1] eqn:E. destruct (peekType_at _ _ _ _ Ha E) as (t & Hp & Ht & Hin & Hl & Hle). subst ty.
  assert (Hstop : typ t ∈ expects (Some readOperator) -> at_ readOperator p1 /\ (ahead_of p1 <= ahead_of p)%nat).
  { intros Hr. split; [|done]. unfold at_. by rewrite Hp. }
  assert (Hgo : stuck (typ t) = false -> typ t ∈ [tokenColon; tokenArg; tokenQuotedArg] ->
            let '(t', p2) := pnext p1 in t' = t /\ inAtom p2 /\ (S (ahead_of p2) <= ahead_of p)%nat).
  { intros Hs Hk. pose proof (pnext_at p1 t Hp Hl Hs) as Hx. destruct (pnext p1) as [t' p2]. destruct Hx as (-> & Hlt & st' & Hst' & Hnone' & Hl').
    split; [done|]. split; [|lia]. split; [done|]. exists st'. split; [done|].
    rewrite !elem_of_cons in Hk. destruct Hk as [Hk|[Hk|[Hk|Hk]]]; [| | |by apply elem_of_nil in Hk]; rewrite Hk in Hl'; cbn in Hl'.
    - injection Hl' as ->. set_solver.
    - destruct Hl' as [[[= ->] _]|[= ->]]; set_solver.
    - destruct Hl' as [[[= ->] _]|[= ->]]; set_solver. }
  assert (Hop : typ t ∈ expects (Some readOperator) \/ typ t ∈ [tokenColon; tokenArg; tokenQuotedArg]).
  { rewrite !elem_of_cons in Hst. destruct Hst as [->|[->|[->|Hst]]]; [right; by apply list_elem_of_singleton in Hin as ->; left| |by left|by apply elem_of_nil in Hst].
    cbn [expects] in Hin. rewrite !elem_of_cons in Hin. destruct Hin as [->|[->|[->|Hin]]]; [right; set_solver|right; set_solver|left|by apply elem_of_nil in Hin].
    apply (bool_decide_unpack _). vm_compute. exact I. }
  destruct (typ t) eqn:Et; try (apply Hstop; destruct Hop as [?|Hop]; [done|set_solver]);
    (destruct (pnext p1) as [t' p2]; destruct Hgo as (-> & Hi & Hlt); [done|set_solver|]; cbn [snd]).
  - specialize (IH p2 (MkAtom (predicate a) (args a ++ [val t])) Hi ltac:(lia)). repeat case_match; try done. destruct IH. split; [done|lia].
  - specialize (IH p2 a Hi ltac:(lia)). repeat case_match; try done. destruct IH. split; [done|lia].
  - destruct (Unquote (val t)) as [uq|]; [|done].
    specialize (IH p2 (MkAtom (predicate a) (args a ++ [uq])) Hi ltac:(lia)). repeat case_match; try done. destruct IH. split; [done|lia].
Qed.

(** An atom: what begins with a predicate, or a token that no atom has. *)
Lemma parseAtom_at fuel p t : peeked p = Some t -> typ t ∈ opening -> leaves (typ t) (p_state p) (p_lexer p) ->
  typ t ∈ [tokenPredicate; tokenLiteral; tokenQuotedLiteral] -> (ahead_of p < fuel)%nat ->
  outcome (ahead_of p) (parseAtom Lookup fuel p).
Proof.
  intros Hp Ho Hl Ht Hf. unfold parseAtom, atomWords, peekType, ppeek. rewrite Hp.
  rewrite !elem_of_cons in Ht. destruct Ht as [Ht|[Ht|[Ht|Ht]]]; [|rewrite Ht; done..|by apply elem_of_nil in Ht].
  pose proof (pnext_at p t Hp Hl) as Hx. rewrite Ht in *. specialize (Hx eq_refl). destruct (pnext p) as [t' p2].
  destruct Hx as (-> & Hlt & st & Hst & Hnone & Hl'). cbn [leaves] in Hl'. destruct Hl' as [[= ->] _].
  assert (inAtom p2) as Hi by (split; [done|]; exists readColon; split; [done|set_solver]).
  pose proof (atomArgs_at fuel p2 (MkAtom (val t) []) Hi ltac:(lia)) as Ha. destruct (atomArgs _ _ _) as [p' [a|e|s|]]; try done.
  cbn [pbind]. destruct Ha as [Ha Hle]. pose proof (matchKeywords_sound (keywords Lookup) a keywords_sound) as Hk.
  destruct (matchKeywords _ a) as [c|e|s|]; try done. cbn [rbind outcome]. split; [done|]. split; [lia|done].
Qed.

(** The fuel that a function of the parser needs beside that for the tokens,
    five times their number. *)
Definition rank (f : rule) : nat :=
  match f with PGroup => 1 | POperand => 2 | PExp | PAnd | PAndRHS _ => 3 | POrRHS _ | PExpLoop _ => 4 end.

(** What a function of the parser is called with, and what it ends in. *)
Definition called (f : rule) (p : parser) : Prop :=
  match f with
  | PExp | PAnd | POperand => at_ readExp p
  | PGroup => exists t, peeked p = Some t /\ typ t = tokenOpen /\ leaves tokenOpen (p_state p) (p_lexer p)
  | PExpLoop (Some c) => at_ readOperator p /\ deepValid c = true
  | POrRHS (Some c) | PAndRHS (Some c) => at_ readExp p /\ deepValid c = true
  | PExpLoop None | POrRHS None | PAndRHS None => False
  end.

Definition ends (f : rule) (p : parser) (r : parser * res (option Constraint)) : Prop :=
  match f with
  | PExpLoop _ => outcome (S (ahead_of p)) r
  | PExp => outcome (S (ahead_of p)) r \/ exists p' t, r = (p', Ok None) /\ peeked p' = Some t /\ typ t = tokenEOF
  | _ => outcome (ahead_of p) r
  end.

Lemma pnext_op p t st : peeked p = Some t -> leaves (typ t) (p_state p) (p_lexer p) -> typ t ∈ [tokenAnd; tokenOr; tokenOpen; tokenClose] ->
  st = (if decide (typ t = tokenClose) then readOperator else readExp) -> at_ st (pnext p).2 /\ (S (ahead_of (pnext p).2) = ahead_of p)%nat.
Proof.
  intros Hp Hl Ht ->. pose proof (pnext_at p t Hp Hl) as Hx. destruct (pnext p) as [t' p']. cbn [snd].
  rewrite !elem_of_cons in Ht. destruct Ht as [E|[E|[E|[E|E]]]]; [..|by apply elem_of_nil in E];
    rewrite E in *; destruct (Hx eq_refl) as (_ & Hlt & st & Hst & _ & [= ->]); done.
Qed.

Section step.
Context (fuel : nat) (IH : forall f p, called f p -> (5 * ahead_of p + rank f <= fuel)%nat -> ends f p (parse Lookup fuel f p)).

(** What comes after a token was seen behind an operand. *)
Lemma seen st p ty p1 : st = readExp \/ st = readOperator -> at_ st p -> peekType p = (ty, p1) ->
  (ahead_of p1 <= ahead_of p)%nat /\ at_ st p1 /\
  (ty <> tokenAnd -> ty <> tokenOr -> at_ readExp p1) /\
  (ty = tokenAnd \/ ty = tokenOr -> at_ readExp (pnext p1).2 /\ (S (ahead_of (pnext p1).2) = ahead_of p1)%nat).
Proof.
  intros Hst Ha E. destruct (peekType_at _ _ _ _ Ha E) as (t & Hp & Ht & Hin & Hl & Hle). subst ty. split; [done|]. split; [unfold at_; by rewrite Hp|].
  split; [by eapply at_operand|]. intros Hao. apply (pnext_op p1 t); [done|done|set_solver|]. by destruct Hao as [-> | ->].
Qed.

Lemma PExp_step p : called PExp p -> (5 * ahead_of p + rank PExp <= S fuel)%nat -> ends PExp p (parse Lookup (S fuel) PExp p).
Proof.
  cbn [called rank]. intros Ha Hf. cbn [parse]. destruct (peekType p) as [ty p1] eqn:E.
  destruct (peekType_at _ _ _ _ Ha E) as (t & Hp & Ht & _). destruct (seen _ _ _ _ (or_introl eq_refl) Ha E) as (Hle & Ha1 & _ & _).
  case_decide as Hty; [right; exists p1, t; repeat split; congruence|]. left.
  eapply outcome_bind; [apply (IH POperand); [done|cbn; lia]|]. intros p2 c Ha2 Hlt Hc.
  eapply outcome_weaken; [apply (IH (PExpLoop (Some c))); [done|cbn; lia]|lia].
Qed.

Lemma PExpLoop_step c p : called (PExpLoop c) p -> (5 * ahead_of p + rank (PExpLoop c) <= S fuel)%nat ->
  ends (PExpLoop c) p (parse Lookup (S fuel) (PExpLoop c) p).
Proof.
  destruct c as [c|]; [|done]. cbn [called rank ends]. intros [Ha Hc] Hf. cbn [parse]. destruct (peekType p) as [ty p1] eqn:E.
  destruct (seen _ _ _ _ (or_intror eq_refl) Ha E) as (Hle & Ha1 & Hop & Hnx).
  assert (Hand : forall p2, at_ readExp p2 -> (ahead_of p2 <= ahead_of p)%nat ->
            outcome (S (ahead_of p)) (pbind (parse Lookup fuel (PAndRHS (Some c)) p2) (fun p c => parse Lookup fuel (PExpLoop c) p))).
  { intros p2 Ha2 Hl2. eapply outcome_bind; [apply (IH (PAndRHS (Some c))); [done|cbn; lia]|]. intros p3 c' Ha3 Hlt Hc'.
    eapply outcome_weaken; [apply (IH (PExpLoop (Some c'))); [done|cbn; lia]|lia]. }
  destruct ty; try (case_decide; [done|]; apply Hand; [by apply Hop|done]).
  - rewrite decide_True by done. destruct Hnx as [Hnx Hlt]; [by left|]. apply Hand; [done|lia].
  - cbn. split; [done|]. split; [lia|done].
  - cbn. split; [done|]. split; [lia|done].
  - destruct Hnx as [Hnx Hlt]; [by right|]. eapply outcome_weaken; [apply (IH (POrRHS (Some c))); [done|cbn; lia]|lia].
Qed.

Lemma PGroup_step p : called PGroup p -> (5 * ahead_of p + rank PGroup <= S fuel)%nat -> ends PGroup p (parse Lookup (S fuel) PGroup p).
Proof.
  cbn [called rank ends]. intros (t & Hp & Ht & Hl) Hf. cbn [parse]. pose proof (pnext_op p t readExp Hp) as Hx. rewrite Ht in Hx.
  destruct Hx as [Hx Hlt]; [done|set_solver|done|]. assert ((pnext p).1 = t) as Hfst by (unfold pnext; by rewrite Hp).
  destruct (pnext p) as [i p1]. cbn in *. subst i. rewrite decide_True by done.
  destruct (IH PExp p1) as [Hout|(p' & t' & -> & Hp' & Ht')]; [done|cbn; lia| |].
  - eapply outcome_bind; [exact Hout|]. intros p2 c Ha2 Hl2 Hc. destruct (peekType p2) as [ty p3] eqn:E.
    destruct (peekType_at _ _ _ _ Ha2 E) as (t3 & Hp3 & Ht3 & Hin & Hl3 & Hle3). case_decide as Hty; [|done].
    destruct (pnext_op p3 t3 readOperator) as [Ha4 Hlt4]; [done|congruence|set_solver|by rewrite Ht3, Hty|]. cbn. split; [done|]. split; [lia|done].
  - cbn [pbind]. unfold peekType, ppeek. rewrite Hp', Ht'. by rewrite decide_False.
Qed.

Lemma POrRHS_step c p : called (POrRHS c) p -> (5 * ahead_of p + rank (POrRHS c) <= S fuel)%nat -> ends (POrRHS c) p (parse Lookup (S fuel) (POrRHS c) p).
Proof.
  destruct c as [c|]; [|done]. cbn [called rank ends]. intros [Ha Hc] Hf. cbn [parse].
  eapply outcome_bind; [apply (IH PAnd); [done|cbn; lia]|]. intros p1 rhs Ha1 Hlt Hr.
  assert (deepValid (orConst c rhs) = true) as Hor by by apply deepValid_or. change (orOpt (Some c) (Some rhs)) with (Some (orConst c rhs)).
  destruct (peekType p1) as [ty p2] eqn:E. destruct (seen _ _ _ _ (or_intror eq_refl) Ha1 E) as (Hle & Ha2 & Hop & Hnx).
  assert (Hgo : forall p3, at_ readExp p3 -> (ahead_of p3 <= ahead_of p2)%nat -> outcome (ahead_of p) (parse Lookup fuel (POrRHS (Some (orConst c rhs))) p3)).
  { intros p3 Ha3 Hl3. eapply outcome_weaken; [apply (IH (POrRHS (Some (orConst c rhs)))); [done|cbn; lia]|lia]. }
  destruct ty; try (apply Hgo; [by apply Hop|done]); try (cbn; split; [done|]; split; [lia|done]).
  destruct Hnx as [Hnx Hl3]; [by right|]. apply Hgo; [done|lia].
Qed.

Lemma PAnd_step p : called PAnd p -> (5 * ahead_of p + rank PAnd <= S fuel)%nat -> ends PAnd p (parse Lookup (S fuel) PAnd p).
Proof.
  cbn [called rank ends]. intros Ha Hf. cbn [parse].
  eapply outcome_bind; [apply (IH POperand); [done|cbn; lia]|]. intros p1 c Ha1 Hlt Hc.
  destruct (peekType p1) as [ty p2] eqn:E. destruct (seen _ _ _ _ (or_intror eq_refl) Ha1 E) as (Hle & Ha2 & Hop & Hnx).
  assert (Hgo : forall p3, at_ readExp p3 -> (ahead_of p3 <= ahead_of p2)%nat -> outcome (ahead_of p) (parse Lookup fuel (PAndRHS (Some c)) p3)).
  { intros p3 Ha3 Hl3. eapply outcome_weaken; [apply (IH (PAndRHS (Some c))); [done|cbn; lia]|lia]. }
  destruct ty; try (apply Hgo; [by apply Hop|done]); try (cbn; split; [done|]; split; [lia|done]).
  destruct Hnx as [Hnx Hl3]; [by left|]. apply Hgo; [done|lia].
Qed.

Lemma PAndRHS_step c p : called (PAndRHS c) p -> (5 * ahead_of p + rank (PAndRHS c) <= S fuel)%nat -> ends (PAndRHS c) p (parse Lookup (S fuel) (PAndRHS c) p).
Proof.
  destruct c as [c|]; [|done]. cbn [called rank ends]. intros [Ha Hc] Hf. cbn [parse].
  eapply outcome_bind; [apply (IH POperand); [done|cbn; lia]|]. intros p1 rhs Ha1 Hlt Hr.
  assert (deepValid (andConst c rhs) = true) as Hand by by apply deepValid_and. change (andOpt (Some c) (Some rhs)) with (Some (andConst c rhs)).
  destruct (peekType p1) as [ty p2] eqn:E. destruct (seen _ _ _ _ (or_intror eq_refl) Ha1 E) as (Hle & Ha2 & Hop & Hnx).
  case_decide as Hty; [|cbn; split; [done|]; split; [lia|done]].
  destruct Hnx as [Hnx Hl3]; [by left|]. eapply outcome_weaken; [apply (IH (PAndRHS (Some (andConst c rhs)))); [done|cbn; lia]|lia].
Qed.

Lemma POperand_step p : called POperand p -> (5 * ahead_of p + rank POperand <= S fuel)%nat -> ends POperand p (parse Lookup (S fuel) POperand p).
Proof.
  cbn [called rank ends]. intros Ha Hf. cbn [parse].
  destruct (stripNot_at fuel p false Ha ltac:(lia)) as (p1 & n & -> & Ha1 & (t & Hp & Hnot) & Hle). cbn [pbind].
  unfold ppeek. rewrite Hp. unfold at_ in Ha1. rewrite Hp in Ha1. destruct Ha1 as [Ht Hl].
  assert (Hfin : forall m, outcome (ahead_of p1) m ->
            outcome (ahead_of p) (pbind m (fun p c => (p, Ok (if n : bool then Some (onLogical (MkLogical (gs "not") c None)) else c))))).
  { intros m Hm. eapply outcome_bind; [exact Hm|]. intros p2 c Ha2 Hlt Hc. destruct n; cbn; (split; [done|]); (split; [lia|]); [by apply deepValid_not|done]. }
  apply Hfin. destruct (typ t) eqn:Et; try done; try (cbn in Ht; unfold opening in Ht; exfalso; set_solver).
  - eapply (parseAtom_at fuel p1 t); rewrite ?Et; try done; [set_solver|lia].
  - apply (IH PGroup); [by exists t|cbn; lia].
  - eapply (parseAtom_at fuel p1 t); rewrite ?Et; try done; [set_solver|lia].
  - eapply (parseAtom_at fuel p1 t); rewrite ?Et; try done; [set_solver|lia].
Qed.
End step.

(** Enough fuel for the tokens, and the parser ends in a well-formed
    constraint or in an error. *)
Lemma parse_ends fuel f p : called f p -> (5 * ahead_of p + rank f <= fuel)%nat -> ends f p (parse Lookup fuel f p).
Proof.
  revert f p. induction fuel as [|fuel IH]; intros f p Hc Hf; [destruct f; cbn in Hf; lia|].
  destruct f; [by apply PExp_step|by apply PExpLoop_step|by apply PGroup_step|by apply POrRHS_step|by apply PAnd_step|by apply PAndRHS_step|by apply POperand_step].
Qed.

Lemma parseExpression_sound exp : sound (parseExpression Lookup exp).
Proof.
  unfold parseExpression. set (s := TrimSpace exp). case_decide; [done|]. unfold parseExp.
  destruct (parse_ends (parseFuel s) PExp (newParser s)) as [Hout|(p & t & -> & _)].
  - done.
  - unfold ahead_of, parseFuel. cbn. unfold rem. cbn. lia.
  - destruct (parse _ _ _ _) as [p [[c|]|e|m|]]; try done. destruct Hout as (_ & _ & Hc). case_decide; [by apply deepValid_and|done].
  - by case_decide.
Qed.

End parse.

(** * The property *)

(** C15. The parser of search expressions always ends: on any string it gives
    an error or a constraint, never a nil operand or an endless loop, and the
    constraint is valid at every depth, the constraints inside permanode
    constraints included, which [checkValid] does not look at. *)
Theorem parseExpression_total `{Unicode} (Lookup : gostr -> res (list Rect)) (exp : gostr)
  (Lookup_returns : forall w, calm (Lookup w)) :
  (exists e, parseExpression Lookup exp = Err e) \/
  exists c, parseExpression Lookup exp = Ok c /\ deepValid c = true /\ checkValid c = Ok tt.
Proof.
  pose proof (parseExpression_sound Lookup Lookup_returns exp) as Hs.
  destruct (parseExpression Lookup exp) as [c|e| |]; try done; [right|left; by exists e].
  exists c. split; [done|]. split; [exact Hs|by apply deepValid_check].
Qed.

(** The Unicode tables of ASCII text: only the two letters whose orbits leave
    it, and no letters beyond. *)
#[export] Instance exampleUnicode : Unicode :=
  {| letterTable := fun _ => false; foldTable := fun r => if r =? 8490 then 75 else if r =? 383 then 83 else r |}.
Definition exampleLookup (w : gostr) : res (list Rect) := if decide (w = gs "nowhere") then Err (ErrMsg "no results") else Ok [].

(** One expression that is a constraint and one whose quote stays open. *)
Lemma parseExpression_total_witness :
  is_ok (parseExpression exampleLookup (gs "tag:a -(is:image or title:b) after:2011")) = true /\
  is_ok (parseExpression exampleLookup (gs "title:" ++ [dquote] ++ gs "b c")) = false /\
  (let exp := gs "tag:a or childrenof:sha1-1 -is:pano" in
   (exists e, parseExpression exampleLookup exp = Err e) \/
   exists c, parseExpression exampleLookup exp = Ok c /\ deepValid c = true /\ checkValid c = Ok tt).
Proof.
  split; [vm_compute; reflexivity|]. split; [vm_compute; reflexivity|]. apply parseExpression_total. intros w. unfold exampleLookup. by case_decide.
Defined.
