(* ===== verification/SearchLaws.v ===== *)
(** What searches guarantee: a well-formed constraint never goes wrong
    ([Search]), and pages that continue each other are the whole result. *)

From Stdlib Require Import SpecFloat.
From S2P Require Import Prelude Ref Strutil SortedKV Sha1 Storage Receive Times Json Runes Schema FileReader IndexKeys Corpus CorpusRows CorpusSpec CorpusLife Enumerate Jsonsign Claims Dirs Media Index IndexReceive Constraint Predicate SearchExpr Describe Search ExprLaws.

(** * Constraints by induction *)

Definition optList {A : Type} (o : option A) : list A := match o with Some a => [a] | None => [] end.

(** The constraints just inside one. *)
Definition operands (c : Constraint) : list Constraint :=
  match c_Logical c with Some (MkLogical _ a b) => optList a ++ optList b | None => [] end.
Definition nested (p : PermanodeConstraint) : list Constraint :=
  optList (pc_ValueInSet p) ++ match pc_Relation p with Some rc => optList (rc_Any rc) ++ optList (rc_All rc) | None => [] end.
Definition inside (c : Constraint) : list Constraint :=
  operands c ++ match c_Permanode c with Some p => nested p | None => [] end.

Lemma Constraint_deep_ind (P : Constraint -> Prop) : (forall c, Forall P (inside c) -> P c) -> forall c, P c.
Proof.
  intros H. fix IH 1. intros c. apply H. destruct c as [lg ? ? ? ? ? ? ? ? pn].
  assert (Ho : forall o : option Constraint, match o with Some c => P c | None => True end -> Forall P (optList o)).
  { intros [c|] Hc; [by apply Forall_singleton|by apply Forall_nil]. }
  unfold inside, operands, nested. cbn [c_Logical c_Permanode]. apply Forall_app. split.
  - destruct lg as [[op a b]|]; [|by apply Forall_nil]. apply Forall_app. split; apply Ho; [destruct a as [a|]|destruct b as [b|]]; try exact I; apply IH.
  - destruct pn as [[? ? ? ? ? ? ? ? ? ? ? inset rel ? ?]|]; [|by apply Forall_nil]. cbn [pc_ValueInSet pc_Relation]. apply Forall_app. split.
    + apply Ho. destruct inset as [i|]; [apply IH|exact I].
    + destruct rel as [[? ? any all]|]; [|by apply Forall_nil]. cbn [rc_Any rc_All]. apply Forall_app.
      split; apply Ho; [destruct any as [a|]|destruct all as [a|]]; try exact I; apply IH.
Qed.

(** * A corpus without circles *)

(** The venue of a check-in. *)
Definition venueOf (c : Corpus) (pn : Ref) (at_ now : gotime) : option Ref :=
  if decide (PermanodeAttrValueLocked c pn (gs "camliNodeType") at_ now zeroRef = gs "foursquare.com:checkin")
  then blobParse (PermanodeAttrValueLocked c pn (gs "foursquareVenuePermanode") at_ now zeroRef) else None.

(** Neither deletions nor venues go round in a circle.  The first cannot, for
    a claim names what it deletes by its hash. *)
Record tame (c : Corpus) (now : gotime) : Prop := {
  deletes_acyclic : exists rank, acyclic (deletes c) rank;
  venues_acyclic : forall at_, exists rank : Ref -> nat, forall pn v, venueOf c pn at_ now = Some v -> (rank v < rank pn)%nat
}.

Section tame.
Context (c : Corpus) (now : gotime) (Htame : tame c now).

Lemma IsDeleted_tame br : exists b, Corpus.IsDeleted c br = Ok b.
Proof. destruct (deletes_acyclic _ _ Htame) as [rank Hr]. destruct (IsDeleted_ok (deletes c) rank br Hr) as (b & E & _). by exists b. Qed.

Lemma modtime_tame pn : exists t, PermanodeModtimeLocked c pn = Ok t.
Proof. destruct (deletes_acyclic _ _ Htame) as [rank Hr]. by eapply modtime_ok. Qed.

Lemma anyTime_tame pn : exists t, PermanodeAnyTimeLocked c pn now = Ok t.
Proof. unfold PermanodeAnyTimeLocked. destruct (PermanodeTimeLocked c pn now) as [t|]; [by eexists|apply modtime_tame]. Qed.

Lemma latLong_calm pn at_ : calm (PermanodeLatLongLocked (venueFuel c) c pn at_ now).
Proof.
  destruct (venues_acyclic _ _ Htame at_) as [rank Hr].
  assert (forall fuel pn, (S (size (below rank (permanodes c) pn)) < fuel)%nat -> calm (PermanodeLatLongLocked fuel c pn at_ now)) as H.
  { clear pn. induction fuel as [|fuel IH]; intros pn Hf; [lia|]. cbn [PermanodeLatLongLocked].
    case_decide as H0; [done|]. case_decide as H1; [|by case_match].
    destruct (blobParse _) as [v|] eqn:Ev; [|done]. apply IH.
    assert (venueOf c pn at_ now = Some v) as Hv by (unfold venueOf; by rewrite decide_True).
    destruct (permanodes c !! pn) as [cls|] eqn:Ecl.
    - pose proof (below_lt rank _ _ _ _ Ecl (Hr _ _ Hv)). lia.
    - exfalso. apply H0. unfold PermanodeAttrValueLocked, claimsOf. by rewrite Ecl. }
  apply H. unfold venueFuel. pose proof (below_size_le rank (permanodes c) pn). lia.
Qed.

Lemma lazySortedBy_tame pnTime lsp reverse : (forall pn, exists t, pnTime pn = Ok t) -> exists r, lazySortedBy c pnTime lsp reverse = Ok r.
Proof.
  intros Ht. assert (exists r, lazyRebuild c pnTime reverse = Ok r) as Hr.
  { unfold lazyRebuild. destruct (timedPns_ok pnTime (Corpus.IsDeleted c) (map_to_list (permanodes c)).*1 IsDeleted_tame Ht) as [l ->]. cbn. case_match; by eexists. }
  unfold lazySortedBy. repeat case_match; try (by eexists); exact Hr.
Qed.
End tame.

Lemma deepValid_inside c : deepValid c = true -> checkValid c = Ok tt /\ c_Dir c = None /\ Forall (fun d => deepValid d = true) (inside c).
Proof.
  intros Hd. split; [by apply deepValid_check|]. destruct c as [lg ? ? ? ? ? dir ? ? pn]. cbn [deepValid] in Hd.
  apply andb_prop in Hd as [_ Hd]. apply andb_prop in Hd as [Hd Hpn]. apply andb_prop in Hd as [Hdir Hlg].
  cbn [c_Dir]. destruct dir; [done|]. split; [done|].
  assert (Ho : forall o : option Constraint, match o with Some c => deepValid c | None => true end = true -> Forall (fun d => deepValid d = true) (optList o)).
  { intros [c|] Hc; [by apply Forall_singleton|by apply Forall_nil]. }
  unfold inside, operands, nested. cbn [c_Logical c_Permanode]. apply Forall_app. split.
  - destruct lg as [[op a b]|]; [|by apply Forall_nil]. apply andb_prop in Hlg as [Ha Hb]. apply Forall_app. auto.
  - destruct pn as [[? ? ? ? ? ? ? ? ? ? ? inset rel ? ?]|]; [|by apply Forall_nil]. cbn [pc_ValueInSet pc_Relation].
    apply andb_prop in Hpn as [Hin Hrel]. apply Forall_app. split; [auto|].
    destruct rel as [[? ? any all]|]; [|by apply Forall_nil]. apply andb_prop in Hrel as [Ha Hb]. apply Forall_app. auto.
Qed.

(** * Matching never goes wrong *)

(** A test of the code that returns at once. *)
Ltac calm_if := match goal with |- calm (if ?b then _ else _) => destruct b; [done|] end.

Lemma calm_whole {A : Type} (r : res A) : calm r -> calm (whole r).
Proof. unfold whole. repeat case_match; done. Qed.

Lemma calm_andThen a b : calm a -> calm b -> calm (andThen a b).
Proof. intros Ha Hb. apply calm_bind; [done|]. by intros []. Qed.

Lemma foreachBack_inv {A : Type} (P : A -> Prop) c value at_ (fn : A -> Claim -> A * bool) acc :
  (forall a cl, P a -> P (fn a cl).1) -> P acc -> P (ForeachClaimBackLocked c value at_ fn acc).
Proof.
  intros Hf. unfold ForeachClaimBackLocked. generalize (default [] (claimBack c !! value)) as cls. intros cls. revert acc.
  induction cls as [|cl cls IH]; intros acc Ha; [done|]. cbn [foreachBackLoop]. case_match; [by apply IH|].
  specialize (Hf acc cl Ha). destruct (fn acc cl) as [acc' []]; cbn in Hf; [by apply IH|exact Hf].
Qed.

Section search.
Context {K S : Type} `{!KV K} `{Unicode}.
Context (sortBy : forall A, (A -> gotime) -> list A -> list A) (arrange : forall A, list A -> list A).
Context (pick : list (Ref * Z) -> nat) (ToLower : gostr -> gostr) (ThumbnailVersion : gostr).
Context (Lookup : gostr -> res (list Rect)) (describeFuel : nat) (now : gotime).
Abbreviation handler := (@Handler K S).
Abbreviation matcher := (@matchFn K S).
Abbreviation pnMatchesOf := (pnMatches sortBy arrange pick ToLower ThumbnailVersion describeFuel now).
Abbreviation genMatcherOf := (genMatcher (K:=K) (S:=S) sortBy arrange pick ToLower ThumbnailVersion describeFuel now).

(** On a handler with a corpus, a matcher that neither panics nor blocks. *)
Definition fine (m : matcher) : Prop :=
  forall h c br bm, h_corpus h = Some c -> tame c now -> calm (m h br bm).

Definition fineInner (o : option (res matcher)) : Prop := match o with Some r => exists m, r = Ok m /\ fine m | None => True end.

Lemma blobMeta_calm (h : handler) c br : h_corpus h = Some c -> calm (blobMeta h br).
Proof. intros Hc. unfold blobMeta. rewrite Hc. unfold GetBlobMetaLocked. by case_match. Qed.

Lemma fileMatches_fine fc : fine (fileMatches now fc).
Proof.
  intros h c br bm Hc _. unfold fileMatches. calm_if. apply calm_bind.
  { apply calm_whole. unfold fileInfo. rewrite Hc. unfold GetFileInfoLocked. by case_match. }
  intros [fi|] _; [|done]. destruct (fileInfoMatches _ _ _ && _); [|done]. apply calm_andThen; [|done].
  unfold fileDims. rewrite Hc. calm_if. apply calm_bind; [|by intros [] _].
  apply calm_whole. unfold GetImageInfoLocked. by case_match.
Qed.

Section pn.
Context (p : PermanodeConstraint) (inSet relAny relAll : option (res matcher)).
Context (HinSet : fineInner inSet) (HrelAny : fineInner relAny) (HrelAll : fineInner relAll).
Context (h : handler) (c : Corpus) (Hc : h_corpus h = Some c) (Htame : tame c now).

Lemma attrVal_calm val : calm (permanodeMatchesAttrVal p inSet h val).
Proof using HinSet Hc Htame.
  unfold permanodeMatchesAttrVal. do 4 calm_if. destruct inSet as [m|]; [|done]. destruct HinSet as (fn & -> & Hfn).
  case_match; [|done]. apply calm_bind; [by apply calm_whole, (blobMeta_calm h c)|]. intros [meta|] _; [|done]. cbn [rbind]. by apply (Hfn h c).
Qed.

Lemma attrVals_calm vals : calm (permanodeMatchesAttrVals p inSet h vals).
Proof using HinSet Hc Htame.
  unfold permanodeMatchesAttrVals. calm_if. case_match; [|done]. apply calm_bind; [|done].
  induction vals as [|v vals IH]; [done|]. cbn [countMatches]. apply calm_bind; [apply attrVal_calm|]. intros m _. by apply calm_bind.
Qed.

Lemma relMatch_calm rc pn at_ : rc_Relation rc = gs "parent" -> is_Some relAny \/ is_Some relAll -> calm (relMatch now relAny relAll rc h pn at_).
Proof using HrelAny HrelAll Hc Htame.
  intros Hp Hs. unfold relMatch. rewrite Hc, bool_decide_eq_true_2 by done. cbn [negb].
  assert (exists m, match relAny, relAll with Some m, _ | None, Some m => m | None, None => Panic "nil pointer dereference" end = Ok m /\ fine m) as (m & -> & Hm).
  { destruct relAny as [r|]; [exact HrelAny|]. destruct relAll as [r|]; [exact HrelAll|]. by destruct Hs as [[? ?]|[? ?]]. }
  cbn [rbind]. apply calm_bind; [|done]. apply (foreachBack_inv (fun s => calm (relErr s))); [|done]. intros s cl Hs'. unfold relStep.
  destruct (negb (matchesAttr _ _)); [done|]. set (s1 := if Valid (lastChecked s) then _ else _). assert (calm (relErr s1)) as Hs1 by (unfold s1; by case_match).
  case_decide; [done|]. destruct (negb (PermanodeHasAttrValueLocked _ _ _ _ _ _)); [done|].
  assert (calm (let? bm := blobMeta h (cl_Permanode cl) in m h (cl_Permanode cl) bm)) as Hcm.
  { apply calm_bind; [by apply (blobMeta_calm h c)|]. intros bm _. by apply (Hm h c). }
  destruct (rbind _ _) as [[]|e|e|]; try done; by case_match.
Qed.

Lemma pnMatches_calm br bm :
  match pc_Relation p with Some rc => rc_Relation rc = gs "parent" /\ (is_Some relAny \/ is_Some relAll) | None => True end ->
  match pc_Continue p with Some pcc => pccCheckValid pcc = Ok tt | None => True end ->
  calm (pnMatchesOf p inSet relAny relAll h br bm).
Proof using HinSet HrelAny HrelAll Hc Htame.
  intros Hrel Hcont. unfold pnMatches. calm_if. rewrite Hc. cbn [rbind]. repeat apply calm_andThen.
  - unfold pnAttr. case_decide; [done|]. rewrite Hc. apply calm_bind; [|intros; apply attrVals_calm].
    unfold AppendPermanodeAttrValuesLocked. by destruct (claimsOf c br).
  - done.
  - unfold pnModTime. rewrite Hc. destruct (pc_ModTime p); [|done]. by destruct (modtime_tame c now Htame br) as [? ->].
  - unfold pnTime. rewrite Hc. destruct (pc_Time p); [|done]. by destruct (anyTime_tame c now Htame br) as [? ->].
  - unfold pnRelation. destruct (pc_Relation p) as [rc|]; [|done]. destruct Hrel. by apply relMatch_calm.
  - unfold pnLocation. rewrite Hc. destruct (pc_Location p); [|done]. apply calm_bind; [by apply latLong_calm|done].
  - unfold pnContinue. rewrite Hc. destruct (pc_Continue p) as [cc|]; [|done].
    destruct (modtime_tame c now Htame br) as [t ->], (anyTime_tame c now Htame br) as [t' ->].
    unfold pccCheckValid in Hcont. destruct (Z.eqb_spec (pcc_LastMod cc) 0) as [->|]; [|done]. cbn [negb].
    destruct (Z.eqb_spec (pcc_LastCreated cc) 0) as [->|]; done.
Qed.
End pn.

Lemma logicalMatch_fine op a b : fine a -> (op <> gs "not" -> exists m, b = Some m /\ fine m) ->
  op ∈ [gs "and"; gs "xor"; gs "or"; gs "not"] -> fine (logicalMatch op a b).
Proof.
  intros Ha Hb Hop h c br bm Hc Ht. unfold logicalMatch. apply calm_bind; [by apply (Ha h c)|]. intros av _.
  case_decide as Hnot; [done|]. do 2 calm_if. destruct (Hb Hnot) as (m & -> & Hm).
  apply calm_bind; [by apply (Hm h c)|]. intros bv _.
  rewrite !elem_of_cons in Hop. destruct Hop as [->|[->|[->|[->|Hop]]]]; [done..|by apply elem_of_nil in Hop].
Qed.

Lemma conjoin_fine conds : Forall fine conds -> fine (conjoin conds).
Proof.
  intros Hc. assert (fine (allMustMatch conds)) as Ha.
  { induction Hc as [|m conds Hm _ IH]; intros h c br bm He Ht; [done|]. cbn [allMustMatch]. apply calm_bind; [by apply (Hm h c)|].
    intros [] _; [by apply (IH h c)|done]. }
  destruct Hc as [|m [|m' conds] Hm Hr]; [done|done|exact Ha].
Qed.

(** A well-formed constraint has a matcher, and it is fine. *)
Lemma genMatcher_fine c : deepValid c = true -> exists m, genMatcherOf c = Ok m /\ fine m.
Proof.
  induction c as [c IH] using Constraint_deep_ind. intros Hd. apply deepValid_inside in Hd as (Hv & Hdir & Hin).
  assert (IHin : forall d, d ∈ inside c -> exists m, genMatcherOf d = Ok m /\ fine m).
  { intros d Hd. rewrite Forall_forall in IH, Hin. by apply IH, Hin. }
  clear IH Hin. destruct c as [lg anything ct anyType pfx file dir claim bs pn]. cbn [c_Dir] in Hdir. subst dir.
  unfold inside, operands in IHin. cbn [c_Logical c_Permanode] in IHin.
  cbn [checkValid] in Hv. destruct claim; [done|]. apply rbind_Ok in Hv as ([] & Hlg & Hv). apply rbind_Ok in Hv as ([] & _ & Hpn).
  assert (exists l, match lg with
      | None => Ok []
      | Some (MkLogical op a b) =>
          let? am := match a with None => Panic "nil pointer dereference" | Some a => genMatcherOf a end in
          let? bm := if decide (op = gs "not") then Ok None
                     else match b with None => Panic "nil pointer dereference" | Some b => let? m := genMatcherOf b in Ok (Some m) end in
          Ok [logicalMatch op am bm]
      end = Ok l /\ Forall fine l) as (l & El & Hl).
  { destruct lg as [[op a b]|]; [|by exists []]. destruct a as [a|]; [|done]. apply rbind_Ok in Hlg as ([] & _ & Hb).
    destruct (IHin a) as (m & -> & Hm); [set_solver|]. cbn [rbind]. destruct (decide (op = gs "not")) as [Hn|Hn].
    - cbn [rbind]. eexists. split; [reflexivity|]. apply Forall_singleton, logicalMatch_fine; [done|done|set_solver].
    - destruct (bool_decide (op ∈ _)) eqn:Eop; [|by rewrite bool_decide_eq_false_2 in Hb by done].
      apply bool_decide_eq_true in Eop. destruct b as [b|]; [|done]. destruct (IHin b) as (m' & -> & Hm'); [set_solver|]. cbn [rbind].
      eexists. split; [reflexivity|]. apply Forall_singleton, logicalMatch_fine; [done|intros _; by exists m'|set_solver]. }
  cbn [genMatcher]. rewrite El. cbn [rbind]. eexists. split; [reflexivity|]. apply conjoin_fine. rewrite !Forall_app.
  assert (Hif : forall b m, fine m -> Forall fine (condIf b m)) by (intros [] m Hm; [by apply Forall_singleton|by apply Forall_nil]).
  split; [done|]. split; [by apply Hif|]. split; [by apply Hif|]. split; [by apply Hif|]. split; [|split; [|split; [|split]]].
  - destruct pn as [[at_ mt t attr skip nv all v vm vi vf inset rel loc cont]|]; [|by apply Forall_nil].
    unfold nested in IHin. cbn [pc_ValueInSet pc_Relation] in IHin. cbn [pnCheckValid pc_Relation pc_Continue] in Hpn.
    apply rbind_Ok in Hpn as ([] & _ & Hpn). apply rbind_Ok in Hpn as ([] & Hrel & Hcont).
    assert (Hinner : forall o, (forall d, o = Some d -> d ∈ operands (MkConstraint lg anything ct anyType pfx file None None bs None) ++
               optList inset ++ match rel with Some rc => optList (rc_Any rc) ++ optList (rc_All rc) | None => [] end) ->
               fineInner (match o with Some c => Some (genMatcherOf c) | None => None end)).
    { intros [d|] Ho; [|done]. by apply IHin, Ho. }
    assert (fineInner (match inset with Some c => Some (genMatcherOf c) | None => None end)) as Hset by (apply Hinner; intros d ->; set_solver).
    destruct rel as [[r et any all']|]; cbn [rc_Any rc_All] in *.
    + apply Forall_singleton. intros h c br bm Hc Ht. eapply pnMatches_calm; try done; try (apply Hinner; intros d ->; set_solver); cbn [pc_Relation pc_Continue rc_Relation].
      * unfold rcCheckValid in Hrel. cbn [rc_Relation rc_Any rc_All] in Hrel. case_bool_decide as E1; [|done]. split; [done|].
        destruct any, all'; try done; [left|right]; by eexists.
      * by destruct cont.
    + apply Forall_singleton. intros h c br bm Hc Ht. eapply pnMatches_calm; try done. by destruct cont.
  - destruct file; [apply Forall_singleton, fileMatches_fine|by apply Forall_nil].
  - by apply Forall_nil.
  - destruct bs; [by apply Forall_singleton|by apply Forall_nil].
  - by apply Hif.
Qed.

(** * Queries never go wrong *)

Lemma onlyMatches_ok c : deepValid c = true -> exists b, onlyMatchesPermanode c = Ok b.
Proof.
  induction c as [c IH] using Constraint_deep_ind. intros Hd. apply deepValid_inside in Hd as (Hv & _ & Hin).
  rewrite Forall_forall in IH, Hin. destruct c as [lg ? ct ? ? ? ? claim ? pn]. cbn [onlyMatchesPermanode].
  destruct (negb (isNone pn) || _); [by eexists|]. destruct lg as [[op a b]|]; [|by eexists].
  unfold inside, operands in *. cbn [c_Logical] in *. cbn [checkValid] in Hv. destruct claim; [done|].
  apply rbind_Ok in Hv as ([] & Hlg & _). destruct a as [a|]; [|done]. apply rbind_Ok in Hlg as ([] & _ & Hb).
  destruct (bool_decide (op = gs "and")) eqn:E; [|by eexists]. apply bool_decide_eq_true in E as ->.
  rewrite bool_decide_eq_true_2 in Hb by set_solver. destruct b as [b|]; [|done].
  destruct (IH a) as [oa ->]; [set_solver|apply Hin; set_solver|]. cbn [rbind]. destruct oa; [by eexists|].
  apply IH; [set_solver|apply Hin; set_solver].
Qed.

Lemma unixTime_nonzero nano : unixTime (i64 nano) <> 0.
Proof.
  unfold unixTime, i64. pose proof (Z.mod_pos_bound (nano + 2 ^ 63) (2 ^ 64) eq_refl).
  assert (2 ^ 63 < unixToInternal * nsPerSecond) by (vm_compute; reflexivity). lia.
Qed.

Lemma parseContinue_nonzero v t br : parsePermanodeContinueToken v = Some (t, br) -> t <> 0.
Proof.
  unfold parsePermanodeContinueToken. destruct v as [|c1 [|c2 [|c3 v]]]; try done. case_decide; [|done].
  destruct (cutColon v) as [[d r]|]; [|done]. cbn [mbind option_bind]. destruct (ParseUintBytes d 10 64) as [nano [e|]]; [done|].
  destruct (blobParse r); [|done]. cbn. intros [= <- _]. apply unixTime_nonzero.
Qed.

Lemma addContinue_deepValid cont sort c : deepValid c = true ->
  exists c', addContinueConstraint cont sort c = Ok c' /\ deepValid c' = true.
Proof.
  intros Hd. unfold addContinueConstraint. case_decide; [by exists c|]. destruct (onlyMatches_ok c Hd) as [[] ->]; cbn [rbind]; [|by exists c].
  destruct (parsePermanodeContinueToken cont) as [[t br]|] eqn:E; [|by exists c]. apply parseContinue_nonzero in E. apply Z.eqb_neq in E.
  assert (Hc : forall pcc, pccCheckValid pcc = Ok tt -> deepValid (andConst (onContinue pcc) c) = true).
  { intros pcc Hp. apply deepValid_and; [|done]. unfold onContinue. cbn [deepValid onPermanode checkValid pnCheckValid pc_Attr pc_Relation pc_Continue].
    rewrite decide_True by done. cbn [rbind intCheckValid]. by rewrite Hp. }
  destruct (sort =? LastModifiedDesc); [|destruct (sort =? CreatedDesc); [|by exists c]].
  - eexists. split; [done|]. apply Hc. unfold pccCheckValid. cbn [pcc_LastMod pcc_LastCreated]. by rewrite E.
  - eexists. split; [done|]. apply Hc. unfold pccCheckValid. cbn [pcc_LastMod pcc_LastCreated]. by rewrite E.
Qed.

Lemma plannedQuery_ok q expr c : match expr with Some _ => expr | None => sq_Constraint q end = Some c -> deepValid c = true ->
  exists pl, plannedQuery q expr = Ok pl /\ deepValid (pq_Constraint pl) = true.
Proof.
  intros Hc Hd. unfold plannedQuery. rewrite Hc. destruct (onlyMatches_ok c Hd) as [only Eo].
  assert (exists sort, (if sq_Sort q =? 0 then let? only := onlyMatchesPermanode c in Ok (if only : bool then CreatedDesc else 0) else Ok (sq_Sort q)) = Ok sort)
    as [sort ->] by (rewrite Eo; destruct (sq_Sort q =? 0); by eexists).
  cbn [rbind]. destruct (addContinue_deepValid (sq_Continue q) sort c Hd) as (c' & -> & Hc'). cbn [rbind]. by eexists.
Qed.

Lemma setLazy_tame c a b : tame c now -> tame (setLazy c a b) now.
Proof. intros [H1 H2]. by constructor. Qed.

Lemma withCorpus_corpus (h : handler) c c' : h_corpus h = Some c -> h_corpus (withCorpus h c') = Some c'.
Proof. unfold h_corpus, withCorpus. destruct h as [x o []]; done. Qed.

(** The candidates are sent, and the handler's corpus differs in its caches at
    most. *)
Lemma sendCandidates_tame src (h : handler) c : h_corpus h = Some c -> tame c now ->
  exists h' a b out, sendCandidates arrange now src h = (h', out, Ok tt) /\ (h' = h \/ h' = withCorpus h (setLazy c a b)).
Proof.
  intros Hc Ht. unfold sendCandidates. rewrite Hc. destruct src as [| |camType|].
  - unfold EnumeratePermanodesLastModifiedLocked.
    destruct (lazySortedBy_tame c now Ht (PermanodeModtimeLocked c) (permanodesByModtime c) true (modtime_tame c now Ht)) as [[pns lsp] ->].
    eexists _, _, _, _. split; [reflexivity|by right].
  - unfold EnumeratePermanodesCreatedLocked.
    destruct (lazySortedBy_tame c now Ht (fun pn => PermanodeAnyTimeLocked c pn now) (permanodesByTime c) true (anyTime_tame c now Ht)) as [[pns lsp] ->].
    eexists _, _, _, _. split; [reflexivity|by right].
  - eexists _, newLazy, newLazy, _. split; [reflexivity|by left].
  - eexists _, newLazy, newLazy, _. split; [|by left]. unfold EnumerateBlobMeta.
    assert (ix_corpus (h_index h) = Some c) as -> by (unfold h_corpus in Hc; by destruct (h_slurp h)). reflexivity.
Qed.

Lemma matchLoop_calm m (h : handler) c stop metas blobs : fine m -> h_corpus h = Some c -> tame c now -> calm (matchLoop m h stop metas blobs).
Proof.
  intros Hm Hc Ht. revert blobs. induction metas as [|meta metas IH]; intros blobs; [done|]. cbn [matchLoop].
  apply calm_bind; [by apply (Hm h c)|]. intros [] _; [|done]. by case_match.
Qed.

Lemma setResultContinue_calm pl c blobs : deepValid (pq_Constraint pl) = true -> tame c now -> calm (setResultContinue now pl c blobs).
Proof.
  intros Hd Ht. unfold setResultContinue. destruct (onlyMatches_ok _ Hd) as [only ->]. cbn [rbind]. do 3 calm_if.
  destruct (last blobs) as [pn|]; [|done]. destruct (modtime_tame c now Ht pn) as [t ->], (anyTime_tame c now Ht pn) as [t' ->]. by case_match.
Qed.

Lemma runPlan_calm (h : handler) c pl : h_corpus h = Some c -> tame c now -> deepValid (pq_Constraint pl) = true ->
  calm (runPlan sortBy arrange pick ToLower ThumbnailVersion describeFuel now h pl).2.
Proof.
  intros Hc Ht Hd. unfold runPlan, pickCandidateSource. rewrite Hc. destruct (onlyMatches_ok _ Hd) as [only ->]. cbn [rbind].
  destruct (genMatcher_fine _ Hd) as (m & -> & Hm). cbn [rbind]. set (src := if _ : bool then corpus_permanode_lastmod else _).
  destruct (sendCandidates_tame src h c Hc Ht) as (h' & a & b & out & -> & Hh'). cbn [snd rbind].
  assert (exists c', h_corpus h' = Some c' /\ tame c' now) as (c' & Hc' & Ht').
  { destruct Hh' as [->| ->]; [by exists c|]. exists (setLazy c a b). split; [by eapply withCorpus_corpus|by apply setLazy_tame]. }
  apply calm_bind; [by apply (matchLoop_calm m h' c')|]. intros blobs _. rewrite Hc'. apply calm_bind; [|done].
  by apply setResultContinue_calm.
Qed.

Lemma queryCheckValid_ok q : (forall w, calm (Lookup w)) -> (forall c, sq_Constraint q = Some c -> deepValid c = true) ->
  (exists e, queryCheckValid Lookup q = Err e) \/
  exists expr c, queryCheckValid Lookup q = Ok expr /\ match expr with Some _ => expr | None => sq_Constraint q end = Some c /\ deepValid c = true.
Proof.
  intros HL Hq. unfold queryCheckValid. destruct (_ || _); [left; by eexists|]. destruct (sq_Constraint q) as [c|] eqn:Ec.
  - right. exists None, c. rewrite (deepValid_check c) by auto. auto.
  - case_decide; [left; by eexists|]. pose proof (parseExpression_sound Lookup HL (sq_Expression q)) as Hs.
    destruct (parseExpression Lookup (sq_Expression q)) as [c|e|p|]; try done; [|left; by eexists].
    right. exists (Some c), c. cbn in Hs. rewrite (deepValid_check c) by done. done.
Qed.

Lemma Query_calm (h : handler) c q : h_corpus h = Some c -> tame c now -> (forall w, calm (Lookup w)) ->
  (forall c, sq_Constraint q = Some c -> deepValid c = true) -> sq_Describe q = None ->
  calm (Query sortBy arrange pick ToLower ThumbnailVersion Lookup describeFuel now h q).2.
Proof.
  intros Hc Ht HL Hq Hdesc. unfold Query. destruct (queryCheckValid_ok q HL Hq) as [[e ->]|(expr & c0 & -> & Hc0 & Hd)]; [done|].
  destruct (plannedQuery_ok q expr c0 Hc0 Hd) as (pl & -> & Hpl). pose proof (runPlan_calm h c pl Hc Ht Hpl) as Hr.
  destruct (runPlan _ _ _ _ _ _ _ _ _) as [h' r]. cbn [snd] in *. apply calm_bind; [done|]. intros found _.
  unfold describeResult. by rewrite Hdesc.
Qed.
End search.

(** * The property *)

(** C14. Searches are type-safe: on a handler with a corpus, whatever a query
    asks by an expression, or by a constraint that is valid at every depth and
    has no Dir constraint in it, and whatever limit, sort and continue token it
    has, running it returns a result or an error; no matcher meets a nil
    operand, a relation or an operation it does not know, or a continuation
    without a time.  This is for queries without a Describe request, where the
    look-up of places returns and no check-ins are each other's venues; a Dir
    constraint passes [checkValid], but matching it against a directory panics
    ([directory_query_panics]). *)
Theorem Query_never_panics {K S : Type} `{!KV K} `{Unicode}
  (sortBy : forall A, (A -> gotime) -> list A -> list A) (arrange : forall A, list A -> list A)
  (pick : list (Ref * Z) -> nat) (ToLower : gostr -> gostr) (ThumbnailVersion : gostr)
  (Lookup : gostr -> res (list Rect)) (describeFuel : nat) (now : gotime) (h : @Handler K S) (c : Corpus) (q : SearchQuery)
  (Hcorpus : h_corpus h = Some c) (Htame : tame c now) (HLookup : forall w, calm (Lookup w))
  (Hvalid : forall c, sq_Constraint q = Some c -> deepValid c = true) (Hdescribe : sq_Describe q = None) :
  (exists r, (Query sortBy arrange pick ToLower ThumbnailVersion Lookup describeFuel now h q).2 = Ok r) \/
  exists e, (Query sortBy arrange pick ToLower ThumbnailVersion Lookup describeFuel now h q).2 = Err e.
Proof.
  pose proof (Query_calm sortBy arrange pick ToLower ThumbnailVersion Lookup describeFuel now h c q Hcorpus Htame HLookup Hvalid Hdescribe) as Hq.
  destruct (Query _ _ _ _ _ _ _ _ _ _).2 as [r|e| |]; [left; by exists r|right; by exists e|done|done].
Qed.

(** Three permanodes, two of them tagged, at different times. *)
Definition exampleAt (n : Z) : gotime := (unixToInternal + n) * nsPerSecond.
Definition exampleTagged (n : Z) (tag : gostr) : list Claim :=
  [MkClaim (exampleRef (10 + n)) (exampleRef 1) (exampleAt n) SetAttributeClaim (gs "tag") tag (exampleRef n) zeroRef].
Definition exampleSearchCorpus : Corpus :=
  let pn n := (exampleRef n, MkMeta (exampleRef n) 100 (gs "permanode")) in
  MkCorpus false 1 (list_to_map [pn 2; pn 3; pn 4]) 300 ∅ ∅ ∅
    (list_to_map [(exampleRef 2, exampleTagged 2 (gs "a")); (exampleRef 3, exampleTagged 3 (gs "b")); (exampleRef 4, exampleTagged 4 (gs "a"))])
    ∅ ∅ ∅ ∅ ∅ ∅ newLazy newLazy.
Definition exampleHandler : @Handler (memKeys (gmap gostr gostr)) unit :=
  MkHandler (setCorpus (newIndex (CorpusSpec.exampleStore [])) (Some exampleSearchCorpus)) (exampleRef 1) true.
Definition exampleQuery (expr : gostr) (limit sort : Z) (cont : gostr) : SearchQuery := MkQuery expr None limit sort cont None.
Definition exampleNow : gotime := exampleAt 1000.

Abbreviation exampleRun q :=
  (Query (@sortByKey) (fun _ l => l) (fun _ => O) (fun s => s) [] exampleLookup 0 exampleNow exampleHandler q).

Lemma exampleSearch_tame : tame exampleSearchCorpus exampleNow.
Proof.
  split; [exists (fun _ => O); intros br l d Hl; change ((∅ : gmap Ref (list deletion)) !! br = Some l) in Hl; by rewrite lookup_empty in Hl|].
  intros at_. exists (fun _ => O). intros pn v Hv. exfalso. revert Hv. unfold venueOf. case_decide as Hd; [|done]. intros _. revert Hd.
  assert (forall n tag, foldl (attrValueStep (gs "camliNodeType") (if at_ =? 0 then exampleNow else at_) zeroRef) [] (exampleTagged n tag) = []) as Hno by done.
  unfold PermanodeAttrValueLocked, claimsOf, exampleSearchCorpus. cbn [permanodes list_to_map foldr fst snd].
  destruct (_ !! pn) as [cls|] eqn:E; [|done].
  repeat (apply lookup_insert_Some in E as [[_ <-]|[_ E]]; [by rewrite Hno|]). by rewrite lookup_empty in E.
Qed.

(** The tagged ones, the newest first. *)
Lemma Query_never_panics_witness :
  sr_Blobs <$> (match (exampleRun (exampleQuery (gs "tag:a") 0 0 [])).2 with Ok r => Some r | _ => None end) = Some [exampleRef 4; exampleRef 2] /\
  ((exists r, (exampleRun (exampleQuery (gs "-tag:a or childrenof:sha1") 1 1 (gs "pn:7:sha1"))).2 = Ok r) \/
   exists e, (exampleRun (exampleQuery (gs "-tag:a or childrenof:sha1") 1 1 (gs "pn:7:sha1"))).2 = Err e).
Proof.
  split; [vm_compute; reflexivity|].
  apply (Query_never_panics _ _ _ _ _ exampleLookup 0 exampleNow exampleHandler exampleSearchCorpus); [reflexivity|exact exampleSearch_tame| |done|done].
  intros w. unfold exampleLookup. by case_decide.
Defined.

(** A constraint on a directory is valid, and matching it against one is not
    implemented. *)
Definition directoryHandler : @Handler (memKeys (gmap gostr gostr)) unit :=
  MkHandler (setCorpus (newIndex (CorpusSpec.exampleStore []))
    (Some (MkCorpus false 1 {[exampleRef 2 := MkMeta (exampleRef 2) 100 (gs "directory")]} 100 ∅ ∅ ∅ ∅ ∅ ∅ ∅ ∅ ∅ ∅ newLazy newLazy)))
    (exampleRef 1) true.
Example directory_query_panics :
  let c := MkConstraint None false [] false [] None (Some (MkDir None None None None None)) None None None in
  checkValid c = Ok tt /\
  match (Query (@sortByKey) (fun _ l => l) (fun _ => O) (fun s => s) [] exampleLookup 0 exampleNow directoryHandler
    (MkQuery [] (Some c) 0 0 [] None)).2 with Panic _ => true | _ => false end = true.
Proof. split; vm_compute; reflexivity. Qed.
