(* ===== verification/SearchPages.v ===== *)
(** Pages of a sorted search: following the continue tokens gives the whole
    result, in order, each blob once ([Search]). *)

From Stdlib Require Import SpecFloat.
From S2P Require Import Prelude Ref Strutil SortedKV Sha1 Storage Receive Times Json Runes Schema FileReader IndexKeys Corpus CorpusRows CorpusSpec CorpusLife Enumerate Jsonsign Claims Dirs Media Index IndexReceive Constraint Predicate SearchExpr Describe Search ExprLaws SearchLaws.

(** * Tokens *)

Lemma cutColon_app a b : colon ∉ a -> cutColon (a ++ colon :: b) = Some (a, b).
Proof.
  induction a as [|c a IH]; intros Hc; cbn [app cutColon]; [by rewrite decide_True|].
  apply not_elem_of_cons in Hc as [H1 H2]. rewrite decide_False by done. by rewrite IH.
Qed.

(** Times that a token can carry: from 1970 until [UnixNano] overflows. *)
Definition tokenTime (t : gotime) : Prop := 0 <= t - unixToInternal * nsPerSecond < 2 ^ 63.

Lemma UnixNano_small t : tokenTime t -> UnixNano t = t - unixToInternal * nsPerSecond.
Proof. unfold tokenTime, UnixNano. generalize (t - unixToInternal * nsPerSecond). intros u Hu. apply i64_small. lia. Qed.

Lemma unixTime_nano t : tokenTime t -> unixTime (i64 (UnixNano t)) = t.
Proof.
  intros Ht. rewrite UnixNano_small by done. unfold tokenTime, unixTime in *. revert Ht. generalize (unixToInternal * nsPerSecond). intros k Hk.
  rewrite i64_small by lia. lia.
Qed.

Lemma continueToken_parse t br : tokenTime t -> refWf br = true -> parsePermanodeContinueToken (continueToken t br) = Some (t, br).
Proof.
  intros Ht Hbr. unfold continueToken. change (gs "pn:") with ["p"; "n"; ":"]%char. cbn [app parsePermanodeContinueToken].
  rewrite decide_True by done. change (gs ":") with [colon]. cbn [app].
  pose proof (UnixNano_small t Ht) as Hu. pose proof Ht as Ht'. unfold tokenTime in Ht'. rewrite <- Hu in Ht'.
  rewrite cutColon_app.
  2: { intros Hin. apply itoa_digits in Hin; [|lia]. unfold isDigit in Hin. change (bz colon) with 58 in Hin. lia. }
  cbn [mbind option_bind]. rewrite itoa_parse by lia. rewrite blobParse_String by done. cbn.
  by rewrite unixTime_nano.
Qed.

(** * Matchers do not see the caches *)

(** Handlers that differ at most in the caches of their corpus. *)
Definition alike {K S : Type} (h h' : @Handler K S) : Prop :=
  h_owner h' = h_owner h /\ exists c a b, h_corpus h = Some c /\ h_corpus h' = Some (setLazy c a b).

Lemma setLazy_setLazy c a b a' b' : setLazy (setLazy c a b) a' b' = setLazy c a' b'.
Proof. reflexivity. Qed.

Lemma alike_refl {K S : Type} (h : @Handler K S) c : h_corpus h = Some c -> alike h h.
Proof. intros Hc. split; [done|]. exists c, (permanodesByTime c), (permanodesByModtime c). rewrite Hc. by destruct c. Qed.

Lemma alike_trans {K S : Type} (h1 h2 h3 : @Handler K S) : alike h1 h2 -> alike h2 h3 -> alike h1 h3.
Proof.
  intros [Ho (c & a & b & H1 & H2)] [Ho' (c' & a' & b' & H2' & H3)]. split; [congruence|]. rewrite H2 in H2'. injection H2' as <-.
  exists c, a', b'. done.
Qed.

Lemma rbind_ext {A B : Type} (r : res A) (f g : A -> res B) : (forall a, f a = g a) -> rbind r f = rbind r g.
Proof. intros H. destruct r; cbn; auto. Qed.

Lemma latLong_setLazy fuel c a b pn at_ now : PermanodeLatLongLocked fuel (setLazy c a b) pn at_ now = PermanodeLatLongLocked fuel c pn at_ now.
Proof.
  revert pn. induction fuel as [|fuel IH]; intros pn; [done|]. cbn [PermanodeLatLongLocked].
  change (PermanodeAttrValueLocked (setLazy c a b) pn) with (PermanodeAttrValueLocked c pn). repeat (case_match; try done).
Qed.

Section search.
Context {K S : Type} `{!KV K} `{Unicode}.
Context (sortBy : forall A, (A -> gotime) -> list A -> list A) (arrange : forall A, list A -> list A).
Context (pick : list (Ref * Z) -> nat) (ToLower : gostr -> gostr) (ThumbnailVersion : gostr).
Context (describeFuel : nat) (now : gotime).
Abbreviation handler := (@Handler K S).
Abbreviation matcher := (@matchFn K S).
Abbreviation pnMatchesOf := (pnMatches sortBy arrange pick ToLower ThumbnailVersion describeFuel now).
Abbreviation genMatcherOf := (genMatcher (K:=K) (S:=S) sortBy arrange pick ToLower ThumbnailVersion describeFuel now).

Definition steady (m : matcher) : Prop := forall h h' br bm, alike h h' -> m h' br bm = m h br bm.
Definition steadyInner (o : option (res matcher)) : Prop := match o with Some (Ok m) => steady m | _ => True end.

Lemma blobMeta_steady (h h' : handler) br : alike h h' -> blobMeta h' br = blobMeta h br.
Proof. intros (_ & c & a & b & H1 & H2). unfold blobMeta. by rewrite H1, H2. Qed.

Lemma fileMatches_steady fc : steady (fileMatches now fc).
Proof.
  intros h h' br bm (_ & c & a & b & H1 & H2). unfold fileMatches, fileInfo, isWhole, fileDims, fileWhere, fileTags. rewrite H1, H2. reflexivity.
Qed.

Section pn.
Context (p : PermanodeConstraint) (inSet relAny relAll : option (res matcher)).
Context (HinSet : steadyInner inSet) (HrelAny : steadyInner relAny) (HrelAll : steadyInner relAll).
Context (h h' : handler) (Ha : alike h h').

Lemma attrVal_steady val : permanodeMatchesAttrVal p inSet h' val = permanodeMatchesAttrVal p inSet h val.
Proof using HinSet Ha.
  unfold permanodeMatchesAttrVal. destruct inSet as [[fn|e|s|]|]; destruct (blobParse val); try done;
    rewrite ?(blobMeta_steady h h') by done; try done.
  do 4 (match goal with |- (if ?b then _ else _) = _ => destruct b; [done|] end).
  apply rbind_ext. intros [meta|]; [|done]. cbn [rbind]. by apply HinSet.
Qed.

Lemma attrVals_steady vals : permanodeMatchesAttrVals p inSet h' vals = permanodeMatchesAttrVals p inSet h vals.
Proof using HinSet Ha.
  unfold permanodeMatchesAttrVals. assert (countMatches p inSet h' vals = countMatches p inSet h vals) as ->; [|done].
  induction vals as [|v vals IH]; [done|]. cbn [countMatches]. by rewrite attrVal_steady, IH.
Qed.

Lemma relMatch_steady rc pn at_ : relMatch now relAny relAll rc h' pn at_ = relMatch now relAny relAll rc h pn at_.
Proof using HrelAny HrelAll Ha.
  unfold relMatch. pose proof Ha as (_ & c & a & b & H1 & H2). rewrite H1, H2. destruct (negb _); [done|].
  assert (Hm : match (match relAny, relAll with Some m, _ | None, Some m => m | None, None => Panic "nil pointer dereference" end) with
               | Ok m => steady m | _ => True end) by (destruct relAny, relAll; done).
  destruct (match relAny with Some _ => _ | None => _ end) as [m|e|s|]; [|done..]. cbn [rbind].
  assert (forall s cl, relStep now h' (setLazy c a b) rc m at_ s cl = relStep now h c rc m at_ s cl) as Hs.
  { intros s cl. unfold relStep. rewrite (blobMeta_steady h h') by done.
    assert ((let? bm := blobMeta h (cl_Permanode cl) in m h' (cl_Permanode cl) bm) = (let? bm := blobMeta h (cl_Permanode cl) in m h (cl_Permanode cl) bm)) as ->
      by (apply rbind_ext; intros bm; by apply Hm).
    reflexivity. }
  assert (forall cls s, foreachBackLoop at_ (relStep now h' (setLazy c a b) rc m at_) cls s = foreachBackLoop at_ (relStep now h c rc m at_) cls s) as Hl.
  { induction cls as [|cl cls IH]; intros s; [done|]. cbn [foreachBackLoop]. rewrite Hs, IH. destruct (relStep _ _ _ _ _ _ _ _). by rewrite IH. }
  unfold ForeachClaimBackLocked. cbn [claimBack setLazy]. by rewrite Hl.
Qed.

Lemma pnMatches_steady br bm : pnMatchesOf p inSet relAny relAll h' br bm = pnMatchesOf p inSet relAny relAll h br bm.
Proof using HinSet HrelAny HrelAll Ha.
  pose proof Ha as (Ho & c & a & b & H1 & H2). unfold pnMatches. rewrite H1, H2. cbn [rbind].
  assert (pnAttr now p inSet h' (MkDescribedPn ∅ 0) br = pnAttr now p inSet h (MkDescribedPn ∅ 0) br) as ->.
  { unfold pnAttr. rewrite H1, H2, Ho. case_decide; [done|]. apply rbind_ext. intros vals. apply attrVals_steady. }
  assert (pnRelation now p relAny relAll h' br = pnRelation now p relAny relAll h br) as ->.
  { unfold pnRelation. case_match; [apply relMatch_steady|done]. }
  unfold pnNotHidden, pnModTime, pnTime, pnLocation, pnContinue. rewrite H1, H2, Ho, latLong_setLazy. reflexivity.
Qed.
End pn.

Lemma logicalMatch_steady op a b : steady a -> match b with Some b => steady b | None => True end -> steady (logicalMatch op a b).
Proof.
  intros Ha Hb h h' br bm Hh. unfold logicalMatch. rewrite (Ha h h' br bm Hh). apply rbind_ext. intros av.
  destruct b as [b|]; [|done]. by rewrite (Hb h h' br bm Hh).
Qed.

Lemma conjoin_steady conds : Forall steady conds -> steady (conjoin conds).
Proof.
  intros Hc. assert (steady (allMustMatch conds)) as Ha.
  { induction Hc as [|m conds Hm _ IH]; intros h h' br bm Hh; [done|]. cbn [allMustMatch]. rewrite (Hm h h' br bm Hh).
    apply rbind_ext. intros []; [by apply IH|done]. }
  destruct Hc as [|m [|m' conds] Hm Hr]; [done|done|exact Ha].
Qed.

Lemma genMatcher_steady c m : genMatcherOf c = Ok m -> steady m.
Proof.
  revert m. induction c as [c IH] using Constraint_deep_ind. intros m Hm. rewrite Forall_forall in IH.
  destruct c as [lg anything ct anyType pfx file dir claim bs pn]. unfold inside, operands in IH. cbn [c_Logical c_Permanode] in IH.
  cbn [genMatcher] in Hm. apply rbind_Ok in Hm as (l & Hl & Hm). apply Ok_eq in Hm as <-. apply conjoin_steady. rewrite !Forall_app.
  assert (Hif : forall b m, steady m -> Forall steady (condIf b m)) by (intros [] m Hm; [by apply Forall_singleton|by apply Forall_nil]).
  split; [|split; [by apply Hif|split; [by apply Hif|split; [by apply Hif|split; [|split; [|split; [|split; [|by apply Hif]]]]]]]].
  - destruct lg as [[op a b]|]; [|apply Ok_eq in Hl as <-; by apply Forall_nil].
    apply rbind_Ok in Hl as (am & Ham & Hl). apply rbind_Ok in Hl as (bm & Hbm & Hl). apply Ok_eq in Hl as <-.
    destruct a as [a|]; [|done]. apply Forall_singleton, logicalMatch_steady; [apply (IH a); [set_solver|done]|].
    destruct (decide (op = gs "not")); [by apply Ok_eq in Hbm as <-|]. destruct b as [b|]; [|done].
    apply rbind_Ok in Hbm as (m & Hb & Hbm). apply Ok_eq in Hbm as <-. apply (IH b); [set_solver|done].
  - destruct pn as [[at_ mt t attr skip nv all v vm vi vf inset rel loc cont]|]; [|by apply Forall_nil].
    unfold nested in IH. cbn [pc_ValueInSet pc_Relation] in IH.
    assert (Hinner : forall o, (forall d, o = Some d -> d ∈ optList inset ++ match rel with Some rc => optList (rc_Any rc) ++ optList (rc_All rc) | None => [] end) ->
               steadyInner (match o with Some c => Some (genMatcherOf c) | None => None end)).
    { intros [d|] Ho; [|done]. cbn. destruct (genMatcherOf d) as [m| | |] eqn:E; try done. apply (IH d); [|done]. apply elem_of_app. right. by apply Ho. }
    assert (steadyInner (match inset with Some c => Some (genMatcherOf c) | None => None end)) as Hset by (apply Hinner; intros d ->; set_solver).
    destruct rel as [[r et any all']|]; cbn [rc_Any rc_All] in *; apply Forall_singleton; intros h h' br bm Hh.
    + apply pnMatches_steady; try done; apply Hinner; intros d ->; set_solver.
    + by apply pnMatches_steady.
  - destruct file; [apply Forall_singleton, fileMatches_steady|by apply Forall_nil].
  - destruct dir; [by apply Forall_singleton|by apply Forall_nil].
  - destruct bs; [by apply Forall_singleton|by apply Forall_nil].
Qed.

(** * Only permanodes match *)

Lemma conjoin_true (conds : list matcher) h br bm : conjoin conds h br bm = Ok true -> Forall (fun m => m h br bm = Ok true) conds.
Proof.
  assert (allMustMatch conds h br bm = Ok true -> Forall (fun m => m h br bm = Ok true) conds) as Ha.
  { induction conds as [|m conds IH]; [by constructor|]. cbn [allMustMatch]. intros (b & E & Hm)%rbind_Ok. destruct b; [|done].
    constructor; [done|by apply IH]. }
  destruct conds as [|m [|m' conds]]; [done|by intros E; apply Forall_singleton|exact Ha].
Qed.

(** [onlyMatchesPermanode] tells the truth. *)
Lemma onlyMatches_sound c m (h : handler) br bm : genMatcherOf c = Ok m -> onlyMatchesPermanode c = Ok true -> m h br bm = Ok true ->
  bm_CamliType bm = gs "permanode".
Proof.
  revert m. induction c as [c IH] using Constraint_deep_ind. intros m Hm Ho Hmatch. rewrite Forall_forall in IH.
  destruct c as [lg anything ct anyType pfx file dir claim bs pn]. unfold inside, operands in IH. cbn [c_Logical c_Permanode] in IH.
  cbn [genMatcher] in Hm. apply rbind_Ok in Hm as (l & Hl & Hm). apply Ok_eq in Hm as <-.
  apply conjoin_true in Hmatch. rewrite !Forall_app in Hmatch. destruct Hmatch as (Hlog & _ & Hct & _ & Hpn & _).
  cbn [onlyMatchesPermanode] in Ho. destruct (negb (isNone pn) || bool_decide (ct = gs "permanode")) eqn:Eb.
  - apply orb_prop in Eb as [Epn|Ect].
    + destruct pn as [[? ? ? ? ? ? ? ? ? ? ? inset rel ? ?]|]; [|done].
      assert (Hp : forall p i a b, Forall (fun m : matcher => m h br bm = Ok true) [pnMatchesOf p i a b] -> bm_CamliType bm = gs "permanode").
      { intros p i a b [Hf _]%Forall_cons. unfold pnMatches in Hf.
        destruct (bool_decide (bm_CamliType bm = gs "permanode")) eqn:E; [by apply bool_decide_eq_true in E|discriminate Hf]. }
      destruct rel as [[]|]; by apply Hp in Hpn.
    + apply bool_decide_eq_true in Ect as ->. rewrite bool_decide_eq_false_2 in Hct by done. cbn [negb condIf] in Hct.
      apply Forall_cons in Hct as [Hct _]. by apply Ok_eq, bool_decide_eq_true in Hct.
  - destruct lg as [[op a b]|]; [|done]. destruct (bool_decide (op = gs "and")) eqn:Eop; [|done]. apply bool_decide_eq_true in Eop as ->.
    destruct a as [a|]; [|done]. apply rbind_Ok in Hl as (am & Ham & Hl). apply rbind_Ok in Hl as (bm' & Hbm & Hl). apply Ok_eq in Hl as <-.
    rewrite decide_False in Hbm by done. destruct b as [b|]; [|done]. apply rbind_Ok in Hbm as (m' & Hb & Hbm). apply Ok_eq in Hbm as <-.
    apply Forall_cons in Hlog as [Hlog _]. unfold logicalMatch in Hlog. apply rbind_Ok in Hlog as (av & Hav & Hlog).
    rewrite decide_False, bool_decide_eq_true_2 in Hlog by done. destruct av; cbn [negb andb] in Hlog; [|done].
    rewrite bool_decide_eq_false_2 in Hlog by done. cbn [andb] in Hlog. apply rbind_Ok in Hlog as (bv & Hbv & Hlog). cbn in Hlog. apply Ok_eq in Hlog as ->.
    apply rbind_Ok in Ho as (oa & Hoa & Ho). destruct oa.
    + apply (IH a ltac:(set_solver) am Ham Hoa Hav).
    + apply (IH b ltac:(set_solver) m' Hb Ho Hbv).
Qed.

(** * The loop over the candidates *)

Definition keeps (m : matcher) (h : handler) (bm : BlobMeta) : Prop := m h (bm_Ref bm) bm = Ok true.

#[export] Instance keeps_dec m h bm : Decision (keeps m h bm).
Proof. unfold keeps. destruct (m h (bm_Ref bm) bm) as [[]| | |]; [by left|right; done..]. Defined.

Definition kept (m : matcher) (h : handler) (metas : list BlobMeta) : list Ref := map bm_Ref (filter (keeps m h) metas).

Lemma matchLoop_kept (m : matcher) h stop metas blobs : (forall bm, bm ∈ metas -> exists b, m h (bm_Ref bm) bm = Ok b) ->
  (forall n, stop n = false) -> matchLoop m h stop metas blobs = Ok (blobs ++ kept m h metas).
Proof.
  intros Hm Hs. revert blobs. induction metas as [|bm metas IH]; intros blobs; cbn [matchLoop]; [by rewrite app_nil_r|].
  unfold kept. rewrite filter_cons. destruct (Hm bm) as [b E]; [by left|]. rewrite E. cbn [rbind].
  assert (forall bm, bm ∈ metas -> exists b, m h (bm_Ref bm) bm = Ok b) as Hm' by (intros; apply Hm; by right).
  destruct b.
  - rewrite decide_True by done. rewrite Hs, IH by done. cbn [map]. by rewrite <- app_assoc.
  - rewrite decide_False by (unfold keeps; rewrite E; by intros [=]). by apply IH.
Qed.

Lemma matchLoop_stops (m : matcher) h n stop metas blobs : (forall bm, bm ∈ metas -> exists b, m h (bm_Ref bm) bm = Ok b) ->
  (forall k, stop k = bool_decide (k = n)) -> (length blobs < n)%nat -> matchLoop m h stop metas blobs = Ok (take n (blobs ++ kept m h metas)).
Proof.
  intros Hm Hs. revert blobs. induction metas as [|bm metas IH]; intros blobs Hb; cbn [matchLoop].
  { by rewrite app_nil_r, take_ge by lia. }
  unfold kept. rewrite filter_cons. destruct (Hm bm) as [b E]; [by left|]. rewrite E. cbn [rbind].
  assert (forall bm, bm ∈ metas -> exists b, m h (bm_Ref bm) bm = Ok b) as Hm' by (intros; apply Hm; by right).
  destruct b.
  - rewrite decide_True by done. cbn [map]. rewrite Hs. case_bool_decide as El.
    + change (bm_Ref bm :: map bm_Ref (filter (keeps m h) metas)) with ([bm_Ref bm] ++ kept m h metas).
      rewrite app_assoc, <- El, take_app_length. done.
    + rewrite length_app in El. cbn in El. rewrite IH by (done || (rewrite length_app; cbn; lia)). by rewrite <- app_assoc.
  - rewrite decide_False by (unfold keeps; rewrite E; by intros [=]). by apply IH.
Qed.

(** A loop without an end that succeeds has judged every candidate. *)
Lemma matchLoop_judged (m : matcher) h stop metas blobs r : (forall n, stop n = false) -> matchLoop m h stop metas blobs = Ok r ->
  forall bm, bm ∈ metas -> exists b, m h (bm_Ref bm) bm = Ok b.
Proof.
  intros Hs. revert blobs. induction metas as [|bm metas IH]; intros blobs; cbn [matchLoop]; [by intros _ bm Hbm%elem_of_nil|].
  intros (b & E & Hl)%rbind_Ok bm' [->|Hbm]%elem_of_cons; [by exists b|].
  destruct b; [rewrite Hs in Hl|]; by eapply IH.
Qed.
End search.

(** * The order of the candidates *)

(** References whose order is that of their text: hexadecimal digits in
    pairs. *)
Definition evenRef (r : Ref) : Prop := refWf r = true /\ refOdd r = false.

Lemma Less_connected a b : evenRef a -> evenRef b -> Less a b = false -> Less b a = false -> a = b.
Proof.
  intros [Wa Oa] [Wb Ob]. rewrite !Less_RefString by done. unfold str_ltb. rewrite (str_compare_antisym (RefString a)).
  destruct (str_compare (RefString a) (RefString b)) eqn:E; [|done..]. intros _ _.
  apply str_compare_eq in E. pose proof (blobParse_String a Wa) as Pa. rewrite E, blobParse_String in Pa by done. congruence.
Qed.

Lemma Less_irrefl a : Less a a = false.
Proof. rewrite Less_refCompare. pose proof (refCompare_antisym a a) as E. by destruct (refCompare a a). Qed.

Lemma pnLess_irrefl p : pnLess p p = false.
Proof. unfold pnLess. rewrite Z.eqb_refl. apply Less_irrefl. Qed.

Lemma pnLess_asym p q : pnLess p q = true -> pnLess q p = false.
Proof.
  unfold pnLess. rewrite (Z.eqb_sym (pt_t q)). destruct (Z.eqb_spec (pt_t p) (pt_t q)).
  - rewrite !Less_refCompare, (refCompare_antisym (pt_pn p)). by destruct (refCompare _ _).
  - rewrite Z.ltb_lt, Z.ltb_ge. lia.
Qed.

Lemma pnLe_strict p q : evenRef (pt_pn p) -> evenRef (pt_pn q) -> pt_pn p <> pt_pn q -> pnLe p q -> pnLess p q = true.
Proof.
  intros Hp Hq Hne. unfold pnLe, pnLess. rewrite (Z.eqb_sym (pt_t q)). destruct (Z.eqb_spec (pt_t p) (pt_t q)).
  - intros Hl. destruct (Less (pt_pn p) (pt_pn q)) eqn:E; [done|]. by destruct Hne, (Less_connected _ _ Hp Hq).
  - rewrite Z.ltb_ge, Z.ltb_lt. lia.
Qed.

(** From the last to the first, strictly. *)
Abbreviation descending := (StronglySorted (fun p q => pnLess q p = true)).

Lemma descending_rev l : NoDup (map pt_pn l) -> (forall p, p ∈ l -> evenRef (pt_pn p)) -> StronglySorted pnLe l -> descending (rev l).
Proof.
  intros Hn He. induction 1 as [|p l Hl IH Hf]; [constructor|]. cbn [map] in Hn. apply NoDup_cons in Hn as [Hp Hn]. cbn [rev].
  apply StronglySorted_app_2; [|apply IH; [done|intros; apply He; by right]|repeat constructor].
  intros q x Hq Hx%list_elem_of_singleton. subst x. rewrite <- Permutation_rev in Hq. rewrite Forall_forall in Hf.
  apply pnLe_strict; [apply He; by left|apply He; by right| |by apply Hf]. intros E. apply Hp. rewrite E. by apply list_elem_of_fmap_2.
Qed.

Lemma timedPns_NoDup pnTime deleted pns l : NoDup pns -> timedPns pnTime deleted pns = Ok l -> NoDup (map pt_pn l).
Proof.
  intros Hn. revert l. induction Hn as [|pn pns Hp Hn IH]; intros l; cbn [timedPns]; [intros [= <-]; constructor|].
  intros (d & _ & H)%rbind_Ok. destruct d; [by apply IH|]. apply rbind_Ok in H as (t & _ & H). apply rbind_Ok in H as (rest & Hr & H).
  apply Ok_eq in H as <-. destruct t as [t|]; [|by apply IH]. cbn [map pt_pn]. apply NoDup_cons. split; [|by apply IH].
  intros (p & Ep & Hin)%list_elem_of_fmap. apply (timedPns_spec _ _ _ _ Hr) in Hin as [? _]. congruence.
Qed.

Lemma sortedPns_descending c pnTime up : sortedPns c pnTime = Ok up -> (forall pn, pn ∈ dom (permanodes c) -> evenRef pn) ->
  descending (rev up) /\ NoDup (map pt_pn (rev up)) /\
  forall p, p ∈ rev up -> pt_pn p ∈ dom (permanodes c) /\ pnTime (pt_pn p) = Ok (Some (pt_t p)).
Proof.
  intros (pns & Hp & E)%rbind_Ok He. apply Ok_eq in E as <-. pose proof (timedPns_spec _ _ _ _ Hp) as Hs.
  assert (NoDup (map pt_pn (merge_sort pnLe pns))) as Hn.
  { assert (map pt_pn (merge_sort pnLe pns) ≡ₚ map pt_pn pns) as -> by apply fmap_Permutation, merge_sort_Permutation.
    eapply timedPns_NoDup; [|exact Hp]. apply NoDup_fst_map_to_list. }
  assert (forall p, p ∈ merge_sort pnLe pns -> pt_pn p ∈ dom (permanodes c) /\ pnTime (pt_pn p) = Ok (Some (pt_t p))) as Hin.
  { intros p. rewrite merge_sort_Permutation, Hs. intros (H1 & _ & H3). split; [|done].
    apply list_elem_of_fmap in H1 as ([k l] & -> & H1%elem_of_map_to_list). apply elem_of_dom. by exists l. }
  split; [|split].
  - apply descending_rev; [done|intros p Hp'; by apply He, Hin|apply (StronglySorted_merge_sort pnLe pns)].
  - rewrite map_rev. by rewrite <- Permutation_rev.
  - intros p Hp'. rewrite <- Permutation_rev in Hp'. by apply Hin.
Qed.

(** What comes after one of them is what is less. *)
Lemma descending_after (l1 : list pnAndTime) x l2 : descending (l1 ++ x :: l2) -> filter (fun p => pnLess p x = true) (l1 ++ x :: l2) = l2.
Proof.
  intros Hs. rewrite filter_app. replace (filter _ l1) with (@nil pnAndTime).
  - rewrite filter_cons, decide_False by (by rewrite pnLess_irrefl). cbn [app]. apply StronglySorted_app in Hs as (_ & _ & Hs).
    apply StronglySorted_inv in Hs as [_ Hf]. induction Hf as [|p l Hp _ IH]; [done|]. rewrite filter_cons, decide_True by done. by rewrite IH.
  - assert (forall p, p ∈ l1 -> pnLess p x = false) as Hl.
    { intros p Hp. apply StronglySorted_app in Hs as (Hlt & _). apply (pnLess_asym x p), Hlt; [done|by left]. }
    clear Hs. induction l1 as [|p l1 IH]; [done|]. rewrite filter_cons, (Hl p), decide_False by (done || by left). apply IH. intros q Hq. apply Hl. by right.
Qed.

(** * One page *)

(** The time that a sort goes by. *)
Definition sortTime (c : Corpus) (now : gotime) (sort : Z) (pn : Ref) : res (option gotime) :=
  if sort =? LastModifiedDesc then PermanodeModtimeLocked c pn else PermanodeAnyTimeLocked c pn now.

(** The caches of sorted permanodes hold what they stand for. *)
Definition rightCaches (c : Corpus) (now : gotime) : Prop :=
  validLazy c (PermanodeModtimeLocked c) (permanodesByModtime c) /\ validLazy c (fun pn => PermanodeAnyTimeLocked c pn now) (permanodesByTime c).

(** A corpus as blobs and claims make it: no circle of deletions, and each
    blob under its own reference. *)
Record searchable (c : Corpus) (now : gotime) : Prop := {
  sb_acyclic : exists rank, acyclic (deletes c) rank;
  sb_meta : forall pn bm, cblobs c !! pn = Some bm -> bm_Ref bm = pn;
  sb_refs : forall pn, pn ∈ dom (permanodes c) -> evenRef pn;
  sb_caches : rightCaches c now
}.

Lemma filter_ext_in {A : Type} (P Q : A -> Prop) `{!forall x, Decision (P x), !forall x, Decision (Q x)} (l : list A) :
  (forall x, x ∈ l -> P x <-> Q x) -> filter P l = filter Q l.
Proof.
  induction l as [|a l IH]; intros He; [done|]. rewrite !filter_cons, IH by (intros; apply He; by right).
  destruct (decide (P a)) as [Hp|Hp], (decide (Q a)) as [Hq|Hq]; try done; exfalso; [apply Hq|apply Hp]; by apply (He a ltac:(by left)).
Qed.

Lemma descending_filter (P : pnAndTime -> Prop) `{!forall x, Decision (P x)} l : descending l -> descending (filter P l).
Proof.
  induction 1 as [|p l Hl IH Hf]; [constructor|]. rewrite filter_cons. case_decide; [|done]. constructor; [done|].
  rewrite Forall_forall in *. intros q [_ Hq]%list_elem_of_filter. by apply Hf.
Qed.

Section page.
Context {K S : Type} `{!KV K} `{Unicode}.
Context (sortBy : forall A, (A -> gotime) -> list A -> list A) (arrange : forall A, list A -> list A).
Context (pick : list (Ref * Z) -> nat) (ToLower : gostr -> gostr) (ThumbnailVersion : gostr).
Context (Lookup : gostr -> res (list Rect)) (describeFuel : nat) (now : gotime).
Abbreviation handler := (@Handler K S).
Abbreviation matcher := (@matchFn K S).
Abbreviation genMatcherOf := (genMatcher (K:=K) (S:=S) sortBy arrange pick ToLower ThumbnailVersion describeFuel now).
Abbreviation runPlanOf := (runPlan (K:=K) (S:=S) sortBy arrange pick ToLower ThumbnailVersion describeFuel now).
Abbreviation QueryOf := (Query (K:=K) (S:=S) sortBy arrange pick ToLower ThumbnailVersion Lookup describeFuel now).

(** The permanode's blob matches. *)
Definition keepsAt (m : matcher) (h : handler) (c : Corpus) (p : pnAndTime) : Prop :=
  match cblobs c !! pt_pn p with Some bm => keeps m h bm | None => False end.
#[export] Instance keepsAt_dec m h c p : Decision (keepsAt m h c p).
Proof. unfold keepsAt. destruct (cblobs c !! pt_pn p); apply _. Defined.

Lemma kept_pairs m h c l : (forall pn bm, cblobs c !! pn = Some bm -> bm_Ref bm = pn) ->
  kept m h (omap (fun p => cblobs c !! pt_pn p) l) = map pt_pn (filter (keepsAt m h c) l).
Proof.
  intros Hm. unfold kept. induction l as [|p l IH]; [done|]. rewrite (filter_cons (keepsAt m h c)). cbn [omap list_omap].
  destruct (decide (keepsAt m h c p)) as [Hk|Hk]; unfold keepsAt in Hk; destruct (cblobs c !! pt_pn p) as [bm|] eqn:E; try done; rewrite filter_cons.
  - rewrite decide_True by done. cbn [map]. by rewrite (Hm _ _ E), <- IH.
  - by rewrite decide_False.
Qed.

Section corpus.
Context (h : handler) (c : Corpus) (Hc : h_corpus h = Some c) (Hs : searchable c now).
Context (sort : Z) (Hsort : sort = LastModifiedDesc \/ sort = CreatedDesc).
Context (up : list pnAndTime) (Hup : sortedPns c (sortTime c now sort) = Ok up).
Abbreviation cands := (omap (fun p => cblobs c !! pt_pn p) (rev up)).

(** The source that is picked sends the blobs of the permanodes in order. *)
Lemma sorted_source cc limit : onlyMatchesPermanode cc = Ok true ->
  exists src h' a b, pickCandidateSource (MkPlan cc sort limit) h = Ok src /\ cands_sorted src = true /\
    sendCandidates arrange now src h = (h', cands, Ok tt) /\ h' = withCorpus h (setLazy c a b) /\ searchable (setLazy c a b) now.
Proof using Hc Hs Hsort Hup.
  intros Ho. destruct Hs as [Hac Hmeta Hrefs [Hv1 Hv2]]. unfold pickCandidateSource. rewrite Hc. cbn [pq_Constraint pq_Sort]. rewrite Ho. cbn [rbind andb].
  destruct Hsort as [->| ->].
  - change (sortTime c now LastModifiedDesc) with (PermanodeModtimeLocked c) in Hup.
    destruct (lazySortedBy_ok c _ _ true up Hv1 Hup) as (lsp & E & Hv & _).
    exists corpus_permanode_lastmod. eexists _, (permanodesByTime c), lsp. split; [done|]. split; [done|].
    unfold sendCandidates, EnumeratePermanodesLastModifiedLocked. rewrite Hc, E. split; [reflexivity|]. split; [done|]. by constructor.
  - change (sortTime c now CreatedDesc) with (fun pn => PermanodeAnyTimeLocked c pn now) in Hup.
    destruct (lazySortedBy_ok c _ _ true up Hv2 Hup) as (lsp & E & Hv & _).
    exists corpus_permanode_created. eexists _, lsp, (permanodesByModtime c). split; [done|]. split; [done|].
    unfold sendCandidates, EnumeratePermanodesCreatedLocked. rewrite Hc, E. split; [reflexivity|]. split; [done|]. by constructor.
Qed.

(** The token after the last blob of a full page. *)
Definition pageToken (n : nat) (l : list pnAndTime) : gostr :=
  if decide (length l = n) then match last l with Some p => continueToken (pt_t p) (pt_pn p) | None => [] end else [].

Lemma setResultContinue_page cc n l a b : onlyMatchesPermanode cc = Ok true -> (0 < n)%nat ->
  (forall p, p ∈ l -> sortTime c now sort (pt_pn p) = Ok (Some (pt_t p))) ->
  setResultContinue now (MkPlan cc sort (Z.of_nat n)) (setLazy c a b) (map pt_pn l) = Ok (pageToken n l).
Proof using Hsort.
  clear Hup up. intros Ho Hn Ht. unfold setResultContinue. cbn [pq_Constraint pq_Sort pq_Limit]. rewrite Ho. cbn [rbind negb].
  replace ((sort =? LastModifiedDesc) || (sort =? CreatedDesc)) with true by (by destruct Hsort as [->| ->]). cbn [negb].
  rewrite (proj2 (Z.leb_gt _ _)) by lia. cbn [orb]. unfold pageToken, glen. rewrite length_map. destruct (decide (length l = n)) as [E|E].
  - rewrite (proj2 (Z.eqb_eq _ _)) by lia. cbn [negb]. rewrite fmap_last. destruct (last l) as [p|] eqn:El; [|done]. cbn [fmap option_fmap option_map].
    apply last_Some_elem_of in El. specialize (Ht _ El). unfold sortTime in Ht.
    change (PermanodeModtimeLocked (setLazy c a b)) with (PermanodeModtimeLocked c).
    change (PermanodeAnyTimeLocked (setLazy c a b)) with (PermanodeAnyTimeLocked c). by rewrite Ht.
  - rewrite (proj2 (Z.eqb_neq _ _)) by lia. done.
Qed.

(** A page: the first [n] of what matches. *)
Lemma runPlan_page cc m n : onlyMatchesPermanode cc = Ok true -> genMatcherOf cc = Ok m -> (0 < n)%nat ->
  (forall bm, bm ∈ cands -> exists b, m h (bm_Ref bm) bm = Ok b) ->
  let l := take n (filter (keepsAt m h c) (rev up)) in
  exists a b, runPlanOf h (MkPlan cc sort (Z.of_nat n)) = (withCorpus h (setLazy c a b), Ok (map pt_pn l, pageToken n l)) /\
    searchable (setLazy c a b) now.
Proof using Hc Hs Hsort Hup.
  intros Ho Hm Hn Hj l. destruct (sorted_source cc (Z.of_nat n) Ho) as (src & h' & a & b & Epick & Esort & Esend & Eh & Hs'). exists a, b. split; [|done].
  unfold runPlan. rewrite Epick. cbn [rbind pq_Constraint pq_Limit]. rewrite Hm. cbn [rbind]. rewrite Esend, Eh, Esort. f_equal. cbn [rbind].
  assert (alike h (withCorpus h (setLazy c a b))) as Hal by (split; [by destruct h|]; exists c, a, b; split; [done|by eapply withCorpus_corpus]).
  pose proof (genMatcher_steady _ _ _ _ _ _ _ _ _ Hm) as Hst.
  assert (matchLoop m (withCorpus h (setLazy c a b)) (stopAt (Z.of_nat n) true) cands [] = Ok (map pt_pn l)) as ->.
  { rewrite (matchLoop_stops _ _ n).
    - cbn [app]. f_equal. unfold l. rewrite <- firstn_map, <- kept_pairs by apply (sb_meta _ _ Hs). f_equal. unfold kept. f_equal.
      apply filter_ext_in. intros bm _. unfold keeps. by rewrite (Hst h).
    - intros bm Hbm. rewrite (Hst h) by done. by apply Hj.
    - intros k. unfold stopAt. rewrite (proj2 (Z.ltb_lt _ _)), andb_true_r by lia. cbn [andb].
      apply Bool.eq_iff_eq_true. rewrite Z.eqb_eq, bool_decide_eq_true. lia.
    - done. }
  cbn [rbind negb andb]. rewrite (withCorpus_corpus h c (setLazy c a b) Hc).
  rewrite setResultContinue_page; [done|done|done|]. intros p Hp. unfold l in Hp.
  pose proof (sortedPns_descending c _ up Hup (sb_refs _ _ Hs)) as (_ & _ & Hin). apply elem_of_take in Hp as (i & Hp & _).
  apply list_elem_of_lookup_2, list_elem_of_filter in Hp as [_ Hp]. by apply Hin.
Qed.
End corpus.

(** * Continuing *)

Definition contPn (pcc : PermanodeContinueConstraint) : PermanodeConstraint :=
  MkPermanode 0 None None [] false None false [] None None None None None None (Some pcc).
Definition contMatcher (pcc : PermanodeContinueConstraint) : matcher :=
  pnMatches sortBy arrange pick ToLower ThumbnailVersion describeFuel now (contPn pcc) None None None.

Lemma contMatcher_eq pcc h c br bm : h_corpus h = Some c ->
  contMatcher pcc h br bm = if bool_decide (bm_CamliType bm = gs "permanode") then pnContinue now (contPn pcc) h br else Ok false.
Proof.
  intros Hc. unfold contMatcher, pnMatches, pnNotHidden. rewrite Hc. by destruct (bool_decide (bm_CamliType bm = gs "permanode")).
Qed.

Lemma genMatcher_continue cc m pcc : genMatcherOf cc = Ok m ->
  genMatcherOf (andConst (onContinue pcc) cc) = Ok (logicalMatch (gs "and") (contMatcher pcc) (Some m)).
Proof. intros Hm. unfold andConst, onLogical. cbn [genMatcher]. rewrite Hm. reflexivity. Qed.

Definition pccAfter (sort : Z) (x : pnAndTime) : PermanodeContinueConstraint :=
  if sort =? LastModifiedDesc then MkContinue (pt_t x) 0 (pt_pn x) else MkContinue 0 (pt_t x) (pt_pn x).

Lemma continues_less t x br sort : t <> 0 -> continues (pccAfter sort x) (pt_t x) br (Some t) = pnLess (MkPnTime br t) x.
Proof.
  intros Ht. unfold continues, pccAfter, pnLess. cbn [pt_t pt_pn].
  destruct (sort =? LastModifiedDesc); cbn [pcc_LastMod pcc_LastCreated pcc_Last]; rewrite (proj2 (Z.eqb_neq t 0)) by done; rewrite ?orb_false_r; cbn [orb];
    (destruct (Z.eqb_spec t (pt_t x)) as [->|]; [by rewrite Z.ltb_irrefl; cbn; rewrite negb_involutive|]; cbn [andb]; rewrite andb_true_r);
    apply Bool.eq_iff_eq_true; rewrite negb_true_iff, Z.ltb_lt, Z.ltb_ge; lia.
Qed.

Lemma pnContinue_less (h : handler) c sort x p : h_corpus h = Some c -> pt_t p <> 0 -> pt_t x <> 0 -> sortTime c now sort (pt_pn p) = Ok (Some (pt_t p)) ->
  pnContinue now (contPn (pccAfter sort x)) h (pt_pn p) = Ok (pnLess p x).
Proof.
  intros Hc Hp Hx Ht. unfold pnContinue. rewrite Hc. cbn [pc_Continue contPn]. pose proof (continues_less (pt_t p) x (pt_pn p) sort Hp) as Hl.
  assert (MkPnTime (pt_pn p) (pt_t p) = p) as Ep by (by destruct p). rewrite Ep in Hl. unfold sortTime in Ht.
  unfold pccAfter in *. destruct (sort =? LastModifiedDesc); cbn [pcc_LastMod pcc_LastCreated].
  - rewrite (proj2 (Z.eqb_neq _ _)) by done. cbn [negb]. rewrite Ht. cbn [rbind]. by rewrite Hl.
  - change (0 =? 0) with true. cbn [negb]. rewrite (proj2 (Z.eqb_neq _ _)) by done. cbn [negb]. rewrite Ht. cbn [rbind]. by rewrite Hl.
Qed.

(** A query's sort and constraint, as it is run. *)
Definition sortOf (q : SearchQuery) : Z := if sq_Sort q =? 0 then CreatedDesc else sq_Sort q.
Definition asked (q : SearchQuery) : option Constraint :=
  match sq_Constraint q with
  | Some c => Some c
  | None => match parseExpression Lookup (sq_Expression q) with Ok c => Some c | _ => None end
  end.
(** The query for a page. *)
Definition withPage (q : SearchQuery) (limit : Z) (cont : gostr) : SearchQuery :=
  MkQuery (sq_Expression q) (sq_Constraint q) limit (sq_Sort q) cont None.

(** A client that follows the continue tokens. *)
Fixpoint pages (fuel : nat) (h : handler) (q : SearchQuery) : res (list Ref) :=
  match fuel with
  | O => Panic "more pages"
  | Datatypes.S fuel =>
      let '(h', r) := QueryOf h q in
      let? r := r in
      if decide (sr_Continue r = []) then Ok (sr_Blobs r)
      else let? rest := pages fuel h' (withPage q (sq_Limit q) (sr_Continue r)) in Ok (sr_Blobs r ++ rest)
  end.

Section pages.
Context (q : SearchQuery) (cc : Constraint) (m : matcher).
Context (Hasked : asked q = Some cc) (Honly : onlyMatchesPermanode cc = Ok true) (Hm : genMatcherOf cc = Ok m).
Context (expr : option Constraint) (Hvalid : queryCheckValid Lookup q = Ok expr).
Context (sort_ok : sq_Sort q = UnspecifiedSort \/ sq_Sort q = LastModifiedDesc \/ sq_Sort q = CreatedDesc).
Context (up : list pnAndTime) (Htimes : forall p, p ∈ up -> tokenTime (pt_t p)).
Abbreviation cands c := (omap (fun p => cblobs c !! pt_pn p) (rev up)).

Lemma sortOf_ok : sortOf q = LastModifiedDesc \/ sortOf q = CreatedDesc.
Proof using sort_ok. unfold sortOf. destruct sort_ok as [->|[->| ->]]; auto. Qed.

Lemma planned_base limit cont : limit <> 0 ->
  plannedQuery (withPage q limit cont) expr = let? c := addContinueConstraint cont (sortOf q) cc in Ok (MkPlan c (sortOf q) limit).
Proof using Hasked Honly Hvalid.
  intros Hl. unfold plannedQuery. cbn [withPage sq_Constraint sq_Sort sq_Continue sq_Limit].
  assert (match expr with Some _ => expr | None => sq_Constraint q end = Some cc) as ->.
  { unfold queryCheckValid, asked in *. destruct (_ || _); [done|]. destruct (sq_Constraint q) as [c|].
    - apply rbind_Ok in Hvalid as (? & _ & E). by apply Ok_eq in E as <-.
    - case_decide; [done|]. destruct (parseExpression _ _) as [c| | |]; try done. destruct (checkValid c); try done. apply Ok_eq in Hvalid as <-. done. }
  rewrite Honly. unfold sortOf. destruct (sq_Sort q =? 0); cbn [rbind]; rewrite (proj2 (Z.eqb_neq limit 0)) by done; done.
Qed.

Lemma QueryOf_plan h limit cont : limit <> 0 ->
  QueryOf h (withPage q limit cont) =
  match addContinueConstraint cont (sortOf q) cc with
  | Ok c => let '(h', r) := runPlanOf h (MkPlan c (sortOf q) limit) in (h', let? found := r in Ok (MkResult found.1 None found.2))
  | Err e => (h, Err e) | Panic p => (h, Panic p) | Blocked => (h, Blocked)
  end.
Proof using Hasked Honly Hvalid.
  intros Hl. unfold Query. change (queryCheckValid Lookup (withPage q limit cont)) with (queryCheckValid Lookup q). rewrite Hvalid, planned_base by done.
  by destruct (addContinueConstraint cont (sortOf q) cc).
Qed.

(** The handler between two pages: everything is as before but for the
    caches. *)
Definition ready (E : list pnAndTime) (h : handler) : Prop :=
  exists c, h_corpus h = Some c /\ searchable c now /\ sortedPns c (sortTime c now (sortOf q)) = Ok up /\
    (forall bm, bm ∈ cands c -> exists b, m h (bm_Ref bm) bm = Ok b) /\ filter (keepsAt m h c) (rev up) = E.

Lemma ready_caches E h c a b : ready E h -> h_corpus h = Some c -> searchable (setLazy c a b) now -> ready E (withCorpus h (setLazy c a b)).
Proof using Hm.
  intros (c' & Hc & _ & Hup & Hj & HE) Hc2 Hs. rewrite Hc in Hc2. injection Hc2 as <-.
  assert (alike h (withCorpus h (setLazy c' a b))) as Hal by (split; [by destruct h|]; exists c', a, b; split; [done|by eapply withCorpus_corpus]).
  pose proof (genMatcher_steady _ _ _ _ _ _ _ _ _ Hm) as Hst.
  exists (setLazy c' a b). split; [by eapply withCorpus_corpus|]. split; [done|]. split; [exact Hup|]. split.
  - intros bm Hbm. rewrite (Hst h) by done. by apply Hj.
  - rewrite <- HE. apply filter_ext_in. intros p _. unfold keepsAt. cbn [cblobs setLazy].
    destruct (cblobs c' !! pt_pn p) as [bm|]; [|done]. unfold keeps. by rewrite (Hst h).
Qed.

(** The token of a page, and what is left to show. *)
Definition resumes (E : list pnAndTime) (cont : gostr) (R : list pnAndTime) : Prop :=
  cont = [] /\ R = E \/ exists P x, E = P ++ x :: R /\ cont = continueToken (pt_t x) (pt_pn x).

Lemma continued_match (h : handler) c x p bm b : h_corpus h = Some c -> bm_Ref bm = pt_pn p -> pt_t p <> 0 -> pt_t x <> 0 ->
  sortTime c now (sortOf q) (pt_pn p) = Ok (Some (pt_t p)) -> m h (bm_Ref bm) bm = Ok b ->
  logicalMatch (gs "and") (contMatcher (pccAfter (sortOf q) x)) (Some m) h (bm_Ref bm) bm = Ok (b && pnLess p x).
Proof using Honly Hm.
  intros Hc Er Hp Hx Ht Eb. unfold logicalMatch. rewrite (contMatcher_eq _ h c) by done.
  destruct (bool_decide (bm_CamliType bm = gs "permanode")) eqn:Ety; cbn [rbind].
  - rewrite Er in *. rewrite (pnContinue_less h c) by done. cbn [rbind]. rewrite decide_False, bool_decide_eq_true_2 by done.
    destruct (pnLess p x); cbn [negb andb]; [|by rewrite andb_false_r]. rewrite bool_decide_eq_false_2 by done. cbn [andb orb].
    rewrite Eb. cbn [rbind]. by rewrite andb_true_r.
  - rewrite decide_False, bool_decide_eq_true_2 by done. cbn [negb andb]. destruct b; [|done].
    apply (onlyMatches_sound _ _ _ _ _ _ _ _ _ h _ _ Hm Honly) in Eb. by apply bool_decide_eq_false in Ety.
Qed.

Lemma Query_page E h n cont R : ready E h -> (0 < n)%nat -> resumes E cont R ->
  exists h', QueryOf h (withPage q (Z.of_nat n) cont) = (h', Ok (MkResult (map pt_pn (take n R)) None (pageToken n (take n R)))) /\ ready E h'.
Proof using Hasked Honly Hm Hvalid sort_ok Htimes.
  intros Hr Hn Hres. pose proof Hr as (c & Hc & Hs & Hup & Hj & HE). rewrite QueryOf_plan by lia.
  pose proof (sortedPns_descending c _ up Hup (sb_refs _ _ Hs)) as (Hdesc & _ & Hin).
  assert (Hfin : forall c' m', addContinueConstraint cont (sortOf q) cc = Ok c' -> onlyMatchesPermanode c' = Ok true -> genMatcherOf c' = Ok m' ->
            (forall bm, bm ∈ cands c -> exists b, m' h (bm_Ref bm) bm = Ok b) -> filter (keepsAt m' h c) (rev up) = R ->
            exists h', match addContinueConstraint cont (sortOf q) cc with
                       | Ok c => let '(h', r) := runPlanOf h (MkPlan c (sortOf q) (Z.of_nat n)) in (h', let? found := r in Ok (MkResult found.1 None found.2))
                       | Err e => (h, Err e) | Panic p => (h, Panic p) | Blocked => (h, Blocked)
                       end = (h', Ok (MkResult (map pt_pn (take n R)) None (pageToken n (take n R)))) /\ ready E h').
  { intros c' m' Ec Ho Em Hj' HR. rewrite Ec.
    destruct (runPlan_page h c Hc Hs (sortOf q) sortOf_ok up Hup c' m' n Ho Em Hn Hj') as (a & b & -> & Hs'). rewrite HR.
    eexists. split; [reflexivity|]. by apply ready_caches. }
  destruct Hres as [[-> ->]|(P & x & HP & ->)]; [by apply (Hfin cc m)|].
  assert (x ∈ rev up) as Hx by (assert (x ∈ filter (keepsAt m h c) (rev up)) as Hx by (rewrite HE, HP; set_solver); by apply list_elem_of_filter in Hx as [_ Hx]).
  assert (Hnz : forall p, p ∈ rev up -> pt_t p <> 0).
  { intros p Hp. rewrite <- Permutation_rev in Hp. specialize (Htimes p Hp). unfold tokenTime in Htimes. intros E0. rewrite E0 in Htimes.
    assert (0 < unixToInternal * nsPerSecond) by (vm_compute; reflexivity). lia. }
  assert (evenRef (pt_pn x)) as [Hwf _] by (apply (sb_refs _ _ Hs); by apply Hin).
  assert (tokenTime (pt_t x)) as Htx by (apply Htimes; by rewrite Permutation_rev).
  assert (Hcont : forall p bm, p ∈ rev up -> cblobs c !! pt_pn p = Some bm -> exists b, m h (bm_Ref bm) bm = Ok b /\
            logicalMatch (gs "and") (contMatcher (pccAfter (sortOf q) x)) (Some m) h (bm_Ref bm) bm = Ok (b && pnLess p x)).
  { intros p bm Hp Ebm. destruct (Hj bm) as [b Eb]; [apply list_elem_of_omap; by exists p|]. exists b. split; [done|].
    eapply continued_match; try done; [by apply (sb_meta _ _ Hs)|by apply Hnz|by apply Hnz|by apply Hin]. }
  apply (Hfin (andConst (onContinue (pccAfter (sortOf q) x)) cc) (logicalMatch (gs "and") (contMatcher (pccAfter (sortOf q) x)) (Some m))).
  - unfold addContinueConstraint. rewrite decide_False by (unfold continueToken; by intros [=]). rewrite Honly. cbn [rbind].
    rewrite continueToken_parse by done. unfold pccAfter. destruct sortOf_ok as [->| ->]; reflexivity.
  - done.
  - by apply genMatcher_continue.
  - intros bm Hbm. apply list_elem_of_omap in Hbm as (p & Hp & Hbm). destruct (Hcont p bm Hp Hbm) as (b & _ & E'). by eexists.
  - rewrite (filter_ext_in _ (fun p => pnLess p x = true /\ keepsAt m h c p)).
    + rewrite <- list_filter_filter, HE, HP. apply descending_after. rewrite <- HP, <- HE. by apply descending_filter.
    + intros p Hp. unfold keepsAt. destruct (cblobs c !! pt_pn p) as [bm|] eqn:Ebm; [|naive_solver].
      destruct (Hcont p bm Hp Ebm) as (b & Eb & E'). unfold keeps. rewrite Eb, E'. destruct b, (pnLess p x); naive_solver.
Qed.

(** Following the tokens from any page on. *)
Lemma pages_from E fuel h n cont R : ready E h -> (0 < n)%nat -> resumes E cont R -> (length R < fuel)%nat ->
  pages fuel h (withPage q (Z.of_nat n) cont) = Ok (map pt_pn R).
Proof using Hasked Honly Hm Hvalid sort_ok Htimes.
  revert h cont R. induction fuel as [|fuel IH]; intros h cont R Hr Hn Hres Hf; [lia|]. cbn [pages].
  destruct (Query_page E h n cont R Hr Hn Hres) as (h' & -> & Hr'). cbn [rbind sr_Continue sr_Blobs withPage sq_Limit].
  unfold pageToken. destruct (decide (length (take n R) = n)) as [Hl|Hl].
  - destruct (last (take n R)) as [y|] eqn:Ey; [|by destruct (take n R); [cbn in Hl; lia|apply last_None in Ey]].
    rewrite decide_False by (unfold continueToken; by intros [=]).
    apply last_Some in Ey as [l Ey]. assert (length (drop n R) < length R)%nat as Hd by (rewrite length_take in Hl; rewrite length_drop; lia).
    change (withPage (withPage q (Z.of_nat n) cont)) with (withPage q). rewrite (IH h' _ (drop n R)); [|done|done| |lia].
    + cbn [rbind]. rewrite <- map_app, take_drop. done.
    + right. destruct Hres as [[_ ->]|(P & x & HP & _)].
      * exists l, y. split; [|done]. rewrite <- (take_drop n E) at 1. rewrite Ey, <- app_assoc. done.
      * exists (P ++ x :: l), y. split; [|done]. rewrite HP. rewrite <- (take_drop n R) at 1. rewrite Ey, <- !app_assoc. done.
  - rewrite decide_True by done. rewrite take_ge; [done|]. rewrite length_take in Hl. lia.
Qed.
End pages.
End page.

Lemma sortedPns_exists c now sort : searchable c now -> exists up, sortedPns c (sortTime c now sort) = Ok up.
Proof.
  intros [[rank Hr] _ _ _]. unfold sortedPns.
  assert (forall pn, exists t, sortTime c now sort pn = Ok t) as Ht.
  { intros pn. destruct (modtime_ok c rank pn Hr) as [t E]. unfold sortTime, PermanodeAnyTimeLocked. rewrite E.
    destruct (sort =? LastModifiedDesc); [by eexists|]. by destruct (PermanodeTimeLocked c pn now); eexists. }
  assert (forall pn, exists b, Corpus.IsDeleted c pn = Ok b) as Hd by (intros pn; destruct (IsDeleted_ok (deletes c) rank pn Hr) as (b & E & _); by exists b).
  destruct (timedPns_ok (sortTime c now sort) (Corpus.IsDeleted c) (map_to_list (permanodes c)).*1 Hd Ht) as [l ->]. by eexists.
Qed.

(** * The property *)

(** C9. Scrolling is complete: on a handler with a corpus, for any query whose
    constraint only matches permanodes, sorted by creation or by modification,
    and any page size, following the continue tokens from page to page gives
    exactly what the query without a limit gives, where that one succeeds, in
    the same order and no blob twice.  Every permanode's time has to be of 1970
    or later (and before 2262): the token of an earlier one is refused and the
    first page comes again.  The corpus is as blobs and claims make it, with
    references of even digit counts and sorted caches that are up to date. *)
Theorem pages_complete {K S : Type} `{!KV K} `{Unicode}
  (sortBy : forall A, (A -> gotime) -> list A -> list A) (arrange : forall A, list A -> list A)
  (pick : list (Ref * Z) -> nat) (ToLower : gostr -> gostr) (ThumbnailVersion : gostr)
  (Lookup : gostr -> res (list Rect)) (describeFuel : nat) (now : gotime) (h : @Handler K S) (c : Corpus)
  (q : SearchQuery) (cc : Constraint) (limit : Z) (r : SearchResult)
  (Hcorpus : h_corpus h = Some c) (Hsearchable : searchable c now)
  (Hsort : sq_Sort q = UnspecifiedSort \/ sq_Sort q = LastModifiedDesc \/ sq_Sort q = CreatedDesc)
  (Hasked : asked Lookup q = Some cc) (Honly : onlyMatchesPermanode cc = Ok true)
  (Htimes : forall pn t, sortTime c now (sortOf q) pn = Ok (Some t) -> tokenTime t) (Hlimit : 0 < limit)
  (Hall : (Query sortBy arrange pick ToLower ThumbnailVersion Lookup describeFuel now h (withPage q (-1) [])).2 = Ok r) :
  pages sortBy arrange pick ToLower ThumbnailVersion Lookup describeFuel now (Datatypes.S (length (sr_Blobs r))) h (withPage q limit []) = Ok (sr_Blobs r) /\
  NoDup (sr_Blobs r).
Proof.
  destruct (sortedPns_exists c now (sortOf q) Hsearchable) as [up Hup].
  assert (exists expr, queryCheckValid Lookup q = Ok expr) as [expr Hvalid].
  { unfold Query in Hall. change (queryCheckValid Lookup (withPage q (-1) [])) with (queryCheckValid Lookup q) in Hall.
    destruct (queryCheckValid Lookup q) as [expr|e|p|]; [by exists expr|done..]. }
  pose proof (sortOf_ok q Hsort) as Hso.
  destruct (sorted_source arrange now h c Hcorpus Hsearchable (sortOf q) Hso up Hup cc (-1) Honly) as (src & h' & a & b & Epick & Esort & Esend & Eh & Hs').
  rewrite (QueryOf_plan sortBy arrange pick ToLower ThumbnailVersion Lookup describeFuel now q cc Hasked Honly expr Hvalid h (-1) []) in Hall by lia.
  change (addContinueConstraint [] (sortOf q) cc) with (Ok cc) in Hall. unfold runPlan in Hall. rewrite Epick in Hall. cbn [rbind pq_Constraint pq_Limit] in Hall.
  destruct (genMatcher sortBy arrange pick ToLower ThumbnailVersion describeFuel now cc) as [m|e|p|] eqn:Hm; [|done..].
  cbn [rbind] in Hall. rewrite Esend in Hall. cbn [rbind snd] in Hall. apply rbind_Ok in Hall as (found & Hf & Hall). apply Ok_eq in Hall as <-.
  apply rbind_Ok in Hf as (blobs & Hl & Hf). rewrite Esort in Hf. cbn [rbind negb andb] in Hf. rewrite Eh, (withCorpus_corpus h c _ Hcorpus) in Hf.
  apply rbind_Ok in Hf as (tok & _ & Hf). apply Ok_eq in Hf as <-. cbn [fst sr_Blobs].
  pose proof (genMatcher_steady _ _ _ _ _ _ _ _ _ Hm) as Hst.
  assert (alike h h') as Hal by (rewrite Eh; split; [by destruct h|]; exists c, a, b; split; [done|by eapply withCorpus_corpus]).
  pose proof (matchLoop_judged _ _ _ _ _ _ (fun n => eq_refl : stopAt (-1) (cands_sorted src) n = false) Hl) as Hj.
  rewrite matchLoop_kept in Hl by done. apply Ok_eq in Hl as <-. cbn [app].
  set (E := filter (keepsAt m h c) (rev up)).
  assert (kept m h' (omap (fun p => cblobs c !! pt_pn p) (rev up)) = map pt_pn E) as ->.
  { unfold E. rewrite <- kept_pairs by apply (sb_meta _ _ Hsearchable). unfold kept. f_equal. apply filter_ext_in. intros bm _. unfold keeps. by rewrite (Hst h). }
  pose proof (sortedPns_descending c _ up Hup (sb_refs _ _ Hsearchable)) as (_ & Hn & Hin).
  split.
  - rewrite length_map. replace limit with (Z.of_nat (Z.to_nat limit)) by lia.
    apply (pages_from sortBy arrange pick ToLower ThumbnailVersion Lookup describeFuel now q cc m Hasked Honly Hm expr Hvalid Hsort up) with (E := E).
    + intros p Hp. apply (Htimes (pt_pn p)), Hin. by rewrite <- Permutation_rev.
    + exists c. split; [done|]. split; [done|]. split; [done|]. split; [|done]. intros bm Hbm. rewrite <- (Hst h h') by done. by apply Hj.
    + lia.
    + by left.
    + lia.
  - unfold E. clear -Hn. induction (rev up) as [|p l IH]; [constructor|]. cbn [map] in Hn. apply NoDup_cons in Hn as [Hp Hn]. rewrite filter_cons.
    case_decide; [|by apply IH]. cbn [map]. apply NoDup_cons. split; [|by apply IH].
    intros (x & Ex & Hx)%list_elem_of_fmap. apply list_elem_of_filter in Hx as [_ Hx]. apply Hp. rewrite Ex. by apply list_elem_of_fmap_2.
Qed.

Lemma exampleSearch_searchable : searchable exampleSearchCorpus exampleNow.
Proof.
  split.
  - exists (fun _ => O). intros br l d Hl. change ((∅ : gmap Ref (list deletion)) !! br = Some l) in Hl. by rewrite lookup_empty in Hl.
  - intros pn bm. unfold exampleSearchCorpus. cbn [cblobs list_to_map foldr fst snd]. intros E.
    repeat (apply lookup_insert_Some in E as [[<- <-]|[_ E]]; [done|]). by rewrite lookup_empty in E.
  - intros pn [cls E]%elem_of_dom. unfold exampleSearchCorpus in E. cbn [permanodes list_to_map foldr fst snd] in E.
    repeat (apply lookup_insert_Some in E as [[<- _]|[_ E]]; [by split|]). by rewrite lookup_empty in E.
  - split; intros Hg; discriminate Hg.
Qed.

Lemma exampleAt_token n : 0 <= n < 10 ^ 6 -> tokenTime (exampleAt n).
Proof. unfold tokenTime, exampleAt, nsPerSecond. generalize unixToInternal. intros k Hn. lia. Qed.

Lemma exampleSearch_times pn t : sortTime exampleSearchCorpus exampleNow LastModifiedDesc pn = Ok (Some t) -> tokenTime t.
Proof.
  unfold sortTime. change (LastModifiedDesc =? LastModifiedDesc) with true. cbv iota. unfold PermanodeModtimeLocked, claimsOf.
  assert (forall n tag, n ∈ [2; 3; 4] -> (let? t := rfold (modtimeStep exampleSearchCorpus) (exampleTagged n tag) 0 in Ok (if t =? 0 then None else Some t)) = Ok (Some t) -> tokenTime t) as Hn.
  { intros n tag Hn Et. assert (exists b, Corpus.IsDeleted exampleSearchCorpus (exampleRef (10 + n)) = Ok b /\ b = false) as (b & Eb & ->) by (eexists; split; [reflexivity|reflexivity]).
    unfold exampleTagged in Et. rewrite rfold_cons in Et. unfold modtimeStep at 1 in Et. cbn [cl_BlobRef cl_Date] in Et. rewrite Eb in Et.
    cbn [rbind] in Et. unfold rfold in Et. cbn [foldl rbind] in Et.
    assert (tokenTime (exampleAt n)) as Ht by (apply exampleAt_token; rewrite !elem_of_cons, elem_of_nil in Hn; lia).
    assert (0 < exampleAt n) as H0 by (pose proof Ht as Ht'; unfold tokenTime in Ht'; assert (0 < unixToInternal * nsPerSecond) by (vm_compute; reflexivity); lia).
    rewrite (proj2 (Z.ltb_lt _ _) H0), (proj2 (Z.eqb_neq (exampleAt n) 0)) in Et by lia. by injection Et as <-. }
  destruct (permanodes exampleSearchCorpus !! pn) as [cls|] eqn:E; [|done]. change (permanodes exampleSearchCorpus) with
    (list_to_map [(exampleRef 2, exampleTagged 2 (gs "a")); (exampleRef 3, exampleTagged 3 (gs "b")); (exampleRef 4, exampleTagged 4 (gs "a"))] : gmap Ref (list Claim)) in E.
  cbn [list_to_map foldr fst snd] in E.
  repeat (apply lookup_insert_Some in E as [[_ <-]|[_ E]]; [apply Hn; set_solver|]). by rewrite lookup_empty in E.
Qed.

(** Pages of one. *)
Lemma pages_complete_witness :
  let q := exampleQuery (gs "tag:a") 1 LastModifiedDesc [] in
  pages (@sortByKey) (fun _ l => l) (fun _ => O) (fun s => s) [] exampleLookup 0 exampleNow 3 exampleHandler (withPage q 1 []) =
    Ok [exampleRef 4; exampleRef 2] /\ NoDup [exampleRef 4; exampleRef 2].
Proof.
  cbv zeta.
  apply (pages_complete (@sortByKey) (fun _ l => l) (fun _ => O) (fun s => s) [] exampleLookup 0 exampleNow exampleHandler exampleSearchCorpus
    (exampleQuery (gs "tag:a") 1 LastModifiedDesc []) (andConst baseConstraint (attrConst (gs "tag") (gs "a"))) 1 (MkResult [exampleRef 4; exampleRef 2] None [])).
  - reflexivity.
  - exact exampleSearch_searchable.
  - by right; left.
  - vm_compute. reflexivity.
  - reflexivity.
  - exact exampleSearch_times.
  - reflexivity.
  - vm_compute. reflexivity.
Defined.
