(* ===== verification/Zip.v ===== *)
(** Writing zip files: struct.go and writer.go of the archive/zip package that
    the repository carries under third_party/go.

    A [Writer] is everything it has written; a file that is stored goes there
    as it is written, one that is deflated when it is closed. *)

From S2P Require Import Prelude Times.

(** * Formats *)

Definition Store : Z := 0.
Definition Deflate : Z := 8.
Definition fileHeaderSignature : Z := 67324752.        (* 0x04034b50 *)
Definition directoryHeaderSignature : Z := 33639248.   (* 0x02014b50 *)
Definition directoryEndSignature : Z := 101010256.     (* 0x06054b50 *)
Definition directory64LocSignature : Z := 117853008.   (* 0x07064b50 *)
Definition directory64EndSignature : Z := 101075792.   (* 0x06064b50 *)
Definition dataDescriptorSignature : Z := 134695760.   (* 0x08074b50 *)
Definition fileHeaderLen : Z := 30.
Definition directoryHeaderLen : Z := 46.
Definition directoryEndLen : Z := 22.
Definition dataDescriptorLen : Z := 16.
Definition directory64LocLen : Z := 20.
Definition directory64EndLen : Z := 56.
Definition creatorUnix : Z := 3.
Definition zipVersion20 : Z := 20.
Definition zipVersion45 : Z := 45.
Definition uint16max : Z := 2 ^ 16 - 1.
Definition uint32max : Z := 2 ^ 32 - 1.
Definition zip64ExtraId : Z := 1.

Definition u16 (z : Z) : Z := z mod 2 ^ 16.

(** [binary.LittleEndian] in [n] bytes. *)
Fixpoint leBytes (n : nat) (z : Z) : gostr :=
  match n with O => [] | S n => zb z :: leBytes n (z / 256) end.
Definition le16 : Z -> gostr := leBytes 2.
Definition le32 : Z -> gostr := leBytes 4.
Definition le64 : Z -> gostr := leBytes 8.

(** * Checksums: [crc32.NewIEEE] *)

Definition crcStep (c : Z) : Z :=
  if Z.testbit c 0 then Z.lxor (Z.shiftr c 1) 3988292384 else Z.shiftr c 1.
Definition crcByte (c : Z) (b : ascii) : Z :=
  Z.lxor (Nat.iter 8 crcStep (Z.land (Z.lxor c (bz b)) 255)) (Z.shiftr c 8).
Definition crc32 (s : gostr) : Z := uint32max - foldl crcByte uint32max s.

(** * Headers *)

Record FileHeader := MkFH {
  fh_Name : gostr; fh_CreatorVersion : Z; fh_ReaderVersion : Z; fh_Flags : Z; fh_Method : Z; fh_ModifiedTime : Z;
  fh_ModifiedDate : Z; fh_CRC32 : Z; fh_CompressedSize : Z; fh_UncompressedSize : Z; fh_CompressedSize64 : Z;
  fh_UncompressedSize64 : Z; fh_Extra : gostr; fh_ExternalAttrs : Z; fh_Comment : gostr
}.

(** [&FileHeader{Name: name, Method: method}] *)
Definition newFileHeader (name : gostr) (method : Z) : FileHeader := MkFH name 0 0 0 method 0 0 0 0 0 0 0 [] 0 [].

Definition isZip64 (fh : FileHeader) : bool := (uint32max <? fh_CompressedSize64 fh) || (uint32max <? fh_UncompressedSize64 fh).

(** The date and the time of an instant, in UTC and in steps of two seconds. *)
Definition timeToMsDosTime (t : gotime) : Z * Z :=
  let s := t / nsPerSecond in
  let '(y, yday) := yearOf (s / secondsPerDay) in
  let '(m, day) := monthOf (daysInMonths (isLeap y)) 1 yday in
  let sec := s mod secondsPerDay in
  (u16 (day + Z.shiftl m 5 + Z.shiftl (y - 1980) 9),
   u16 (sec mod 60 / 2 + Z.shiftl (sec / 60 mod 60) 5 + Z.shiftl (sec / 3600) 11)).

Definition fhSetModTime (t : gotime) (fh : FileHeader) : FileHeader :=
  let '(d, tm) := timeToMsDosTime t in
  MkFH (fh_Name fh) (fh_CreatorVersion fh) (fh_ReaderVersion fh) (fh_Flags fh) (fh_Method fh) tm d (fh_CRC32 fh)
    (fh_CompressedSize fh) (fh_UncompressedSize fh) (fh_CompressedSize64 fh) (fh_UncompressedSize64 fh) (fh_Extra fh)
    (fh_ExternalAttrs fh) (fh_Comment fh).

(** The bits of [os.FileMode]. *)
Definition modeDir : Z := 31.
Definition modeSymlink : Z := 27.
Definition modeDevice : Z := 26.
Definition modeNamedPipe : Z := 25.
Definition modeSocket : Z := 24.
Definition modeSetuid : Z := 23.
Definition modeSetgid : Z := 22.
Definition modeCharDevice : Z := 21.
Definition modeSticky : Z := 20.
Definition modeType : list Z := [modeDir; modeSymlink; modeDevice; modeNamedPipe; modeSocket].

Definition fileModeToUnixMode (mode : Z) : Z :=
  let m :=
    match filter (fun b => Z.testbit mode b = true) modeType with
    | [b] =>
        if b =? modeDir then 16384
        else if b =? modeSymlink then 40960
        else if b =? modeNamedPipe then 4096
        else if b =? modeSocket then 49152
        else if Z.testbit mode modeCharDevice then 8192 else 24576
    | _ => 32768
    end in
  let m := if Z.testbit mode modeSetuid then Z.lor m 2048 else m in
  let m := if Z.testbit mode modeSetgid then Z.lor m 1024 else m in
  let m := if Z.testbit mode modeSticky then Z.lor m 512 else m in
  Z.lor m (Z.land mode 511).

Definition SetMode (mode : Z) (fh : FileHeader) : FileHeader :=
  let attrs := u32 (Z.shiftl (fileModeToUnixMode mode) 16) in
  let attrs := if Z.testbit mode modeDir then Z.lor attrs 16 else attrs in
  let attrs := if Z.testbit mode 7 then attrs else Z.lor attrs 1 in
  MkFH (fh_Name fh) (Z.lor (Z.land (fh_CreatorVersion fh) 255) (Z.shiftl creatorUnix 8)) (fh_ReaderVersion fh) (fh_Flags fh)
    (fh_Method fh) (fh_ModifiedTime fh) (fh_ModifiedDate fh) (fh_CRC32 fh) (fh_CompressedSize fh) (fh_UncompressedSize fh)
    (fh_CompressedSize64 fh) (fh_UncompressedSize64 fh) (fh_Extra fh) attrs (fh_Comment fh).

(** * The writer *)

(** compress/flate: some encoding, and what undoes it. *)
Class Flate := {
  deflate : gostr -> gostr;
  inflate : gostr -> option gostr;
  inflate_deflate s : inflate (deflate s) = Some s
}.

(** The file that is being written: its header, where that starts, and the
    bytes written to it. *)
Record fileWriter := MkFW { fw_fh : FileHeader; fw_offset : Z; fw_raw : gostr }.

Record Writer := MkZW { zw_out : gostr; zw_dir : list (FileHeader * Z); zw_last : option fileWriter }.

Definition NewWriter : Writer := MkZW [] [] None.

Section writer.
Context `{Flate}.

(** What a file's bytes become. *)
Definition compressed (method : Z) (raw : gostr) : gostr := if method =? Store then raw else deflate raw.

(** The header of a closed file. *)
Definition closedHeader (fw : fileWriter) : FileHeader :=
  let fh := fw_fh fw in
  let csize := glen (compressed (fh_Method fh) (fw_raw fw)) in
  let usize := glen (fw_raw fw) in
  let big := (uint32max <? csize) || (uint32max <? usize) in
  MkFH (fh_Name fh) (fh_CreatorVersion fh) (if big then zipVersion45 else fh_ReaderVersion fh) (fh_Flags fh) (fh_Method fh)
    (fh_ModifiedTime fh) (fh_ModifiedDate fh) (crc32 (fw_raw fw)) (if big then uint32max else csize)
    (if big then uint32max else usize) csize usize (fh_Extra fh) (fh_ExternalAttrs fh) (fh_Comment fh).

Definition dataDescriptor (fh : FileHeader) : gostr :=
  le32 dataDescriptorSignature ++ le32 (fh_CRC32 fh) ++
  (if isZip64 fh then le64 (fh_CompressedSize64 fh) ++ le64 (fh_UncompressedSize64 fh)
   else le32 (fh_CompressedSize fh) ++ le32 (fh_UncompressedSize fh)).

(** [fileWriter.close] of the file that is open, if one is. *)
Definition closeLast (z : Writer) : Writer :=
  match zw_last z with
  | None => z
  | Some fw =>
      let fh := closedHeader fw in
      let rest := if fh_Method fh =? Store then [] else deflate (fw_raw fw) in
      MkZW (zw_out z ++ rest ++ dataDescriptor fh) (zw_dir z ++ [(fh, fw_offset fw)]) None
  end.

Definition localHeader (fh : FileHeader) : gostr :=
  le32 fileHeaderSignature ++ le16 (fh_ReaderVersion fh) ++ le16 (fh_Flags fh) ++ le16 (fh_Method fh) ++
  le16 (fh_ModifiedTime fh) ++ le16 (fh_ModifiedDate fh) ++ le32 0 ++ le32 0 ++ le32 0 ++
  le16 (u16 (glen (fh_Name fh))) ++ le16 (u16 (glen (fh_Extra fh))) ++ fh_Name fh ++ fh_Extra fh.

(** What [CreateHeader] makes of the header: a data descriptor will follow. *)
Definition startHeader (fh : FileHeader) : FileHeader :=
  MkFH (fh_Name fh) (Z.lor (Z.land (fh_CreatorVersion fh) 65280) zipVersion20) zipVersion20 (Z.lor (fh_Flags fh) 8)
    (fh_Method fh) (fh_ModifiedTime fh) (fh_ModifiedDate fh) (fh_CRC32 fh) (fh_CompressedSize fh) (fh_UncompressedSize fh)
    (fh_CompressedSize64 fh) (fh_UncompressedSize64 fh) (fh_Extra fh) (fh_ExternalAttrs fh) (fh_Comment fh).

Definition CreateHeader (z : Writer) (fh : FileHeader) : Writer * gerr :=
  let z := closeLast z in
  let fh := startHeader fh in
  if (fh_Method fh =? Store) || (fh_Method fh =? Deflate) then
    (MkZW (zw_out z ++ localHeader fh) (zw_dir z) (Some (MkFW fh (glen (zw_out z)) [])), None)
  else (z, Some (ErrMsg "zip: unsupported compression algorithm")).

Definition Create (z : Writer) (name : gostr) : Writer * gerr := CreateHeader z (newFileHeader name Deflate).

(** [Write] to the file created last. *)
Definition zipWrite (z : Writer) (p : gostr) : Writer * gerr :=
  match zw_last z with
  | None => (z, Some (ErrMsg "zip: write to closed file"))
  | Some fw =>
      (MkZW (if fh_Method (fw_fh fw) =? Store then zw_out z ++ p else zw_out z) (zw_dir z)
         (Some (MkFW (fw_fh fw) (fw_offset fw) (fw_raw fw ++ p))), None)
  end.

(** A record of the central directory. *)
Definition directoryHeader (h : FileHeader * Z) : gostr :=
  let '(fh, offset) := h in
  let big := isZip64 fh || (uint32max <? offset) in
  let extra :=
    if big then
      fh_Extra fh ++ le16 zip64ExtraId ++ le16 24 ++ le64 (fh_UncompressedSize64 fh) ++ le64 (fh_CompressedSize64 fh) ++ le64 offset
    else fh_Extra fh in
  le32 directoryHeaderSignature ++ le16 (fh_CreatorVersion fh) ++ le16 (fh_ReaderVersion fh) ++ le16 (fh_Flags fh) ++
  le16 (fh_Method fh) ++ le16 (fh_ModifiedTime fh) ++ le16 (fh_ModifiedDate fh) ++ le32 (fh_CRC32 fh) ++
  (if big then le32 uint32max ++ le32 uint32max else le32 (fh_CompressedSize fh) ++ le32 (fh_UncompressedSize fh)) ++
  le16 (u16 (glen (fh_Name fh))) ++ le16 (u16 (glen extra)) ++ le16 (u16 (glen (fh_Comment fh))) ++ le32 0 ++
  le32 (fh_ExternalAttrs fh) ++ le32 (if uint32max <? offset then uint32max else offset) ++
  fh_Name fh ++ extra ++ fh_Comment fh.

(** What ends the file: [records] headers of [size] bytes from [offset] on. *)
Definition directoryEnd (records size offset : Z) : gostr :=
  let end_ := offset + size in
  let big := (uint16max <? records) || (uint32max <? size) || (uint32max <? offset) in
  (if big then
     le32 directory64EndSignature ++ le64 directory64EndLen ++ le16 zipVersion45 ++ le16 zipVersion45 ++ le32 0 ++ le32 0 ++
     le64 records ++ le64 records ++ le64 size ++ le64 offset ++
     le32 directory64LocSignature ++ le32 0 ++ le64 end_ ++ le32 1
   else []) ++
  le32 directoryEndSignature ++ le32 0 ++
  le16 (if big then uint16max else records) ++ le16 (if big then uint16max else records) ++
  le32 (if big then uint32max else size) ++ le32 (if big then uint32max else offset) ++ le16 0.

(** [Close]: the whole file. *)
Definition zipClose (z : Writer) : gostr :=
  let z := closeLast z in
  let dir := flat_map directoryHeader (zw_dir z) in
  zw_out z ++ dir ++ directoryEnd (glen (zw_dir z)) (glen dir) (glen (zw_out z)).
End writer.
