(* ===== verification/BlobPacked.v ===== *)
(** The packing storage of pkg/blobserver/blobpacked: blobs are first stored
    one by one in a storage of small blobs; the blobs of a file that has come
    complete are then put together in zip files, in a storage of large blobs,
    and an index says where each one is.

    The storages are any lawful ones, and so is the index.  The file reader
    that the packer uses shares the storage with it, so its state is the
    reader's ([fr_fetcher]). *)

From S2P Require Import Prelude Ref Strutil SortedKV Sha1 Storage Enumerate Receive Times Json Schema FileReader Claims Zip.

Definition packThreshold : Z := 512 * 2 ^ 10.
Definition zipOverhead : Z := 50 * 2 ^ 10.
Definition blobMetaPrefix : gostr := gs "b:".
Definition blobMetaPrefixLimit : gostr := gs "b;".
Definition wholeMetaPrefix : gostr := gs "w:".
Definition zipManifestPath : gostr := gs "camlistore/camlistore-pack-manifest.json".

(** * Rows *)

Record meta := MkMeta { m_exists : bool; m_size : Z; m_largeRef : Ref; m_largeOff : Z }.
Definition noMeta : meta := MkMeta false 0 zeroRef 0.
Definition isPacked (m : meta) : bool := Valid (m_largeRef m).

(** [<size_u32> <big-blobref> <big-offset>] *)
Definition parseMetaRow (v : gostr) : res meta :=
  match index_byte " " v with
  | None | Some O => Err (ErrMsg "invalid metarow %q")
  | Some sp =>
      if decide (sp = length v - 1)%nat then Err (ErrMsg "invalid metarow %q")
      else
        match ParseUintBytes (take sp v) 10 32 with
        | (_, Some _) => Err (ErrMsg "invalid metarow size %q")
        | (size, None) =>
            let v := drop (S sp) v in
            if decide (length (filter (fun c => c = " "%char) v) <> 1%nat) then
              Err (ErrMsg "invalid metarow %q: wrong number of spaces")
            else
              let sp := default O (index_byte " " v) in
              let? largeRef := ParseBytes (take sp v) in
              match largeRef with
              | None => Err (ErrMsg "invalid metarow %q: bad blobref %q")
              | Some largeRef =>
                  match ParseUintBytes (drop (S sp) v) 10 32 with
                  | (_, Some _) => Err (ErrMsg "invalid metarow %q: bad offset: %v")
                  | (off, None) => Ok (MkMeta true (u32 size) largeRef (u32 off))
                  end
              end
        end
  end.

Definition parseMetaRowSizeOnly (v : gostr) : res Z :=
  match index_byte " " v with
  | None | Some O => Err (ErrMsg "invalid metarow %q")
  | Some sp =>
      if decide (sp = length v - 1)%nat then Err (ErrMsg "invalid metarow %q")
      else
        match ParseUintBytes (take sp v) 10 32 with
        | (_, Some _) => Err (ErrMsg "invalid metarow size %q")
        | (size64, None) => Ok (u32 size64)
        end
  end.

(** * The manifest *)

Record BlobAndPos := MkBap { bap_Ref : Ref; bap_Size : Z; bap_Offset : Z }.

Record Manifest := MkManifest {
  mf_WholeRef : Ref; mf_WholeSize : Z; mf_WholePartIndex : Z; mf_DataBlobsOrigin : Ref; mf_DataBlobs : list BlobAndPos
}.

Definition approxSerializedSize (mf : Manifest) : Z := 250 + glen (mf_DataBlobs mf) * 100.

(** What encoding/json makes of a reference, and of the two structs. *)
Definition refVal (r : Ref) : goval := if Valid r then VStr (RefString r) else VNull.
Definition bapVal (b : BlobAndPos) : goval :=
  VMap [(gs "blobRef", refVal (bap_Ref b)); (gs "size", VInt (bap_Size b)); (gs "offset", VInt (bap_Offset b))].
Definition manifestVal (mf : Manifest) : goval :=
  VMap [(gs "wholeRef", refVal (mf_WholeRef mf)); (gs "wholeSize", VInt (mf_WholeSize mf));
        (gs "wholePartIndex", VInt (mf_WholePartIndex mf)); (gs "dataBlobsOrigin", refVal (mf_DataBlobsOrigin mf));
        (gs "dataBlobs", match mf_DataBlobs mf with [] => VNull | l => VArr (map bapVal l) end)].
Definition manifestText (mf : Manifest) : gostr := render 0 (manifestVal mf).

(** * The packer's records *)

(** A zip that was written, with its bytes (of which the code keeps the size). *)
Record writtenZip := MkZip { wz_zip : gostr; wz_dataRefs : list Ref }.

Record packer := MkPk {
  pk_fr : FileReader;
  pk_wholeRef : Ref; pk_wholeSize : Z;
  pk_dataRefs : list Ref; pk_dataSize : gmap Ref Z;
  pk_schemaRefs : list Ref; pk_schemaBlob : gmap Ref gostr; pk_schemaParent : gmap Ref (list Ref);
  pk_chunksRemain : list Ref; pk_zips : list writtenZip; pk_wholeBytesWritten : Z
}.

Definition newPacker (fr : FileReader) : packer := MkPk fr zeroRef 0 [] ∅ [] ∅ ∅ [] [] 0.

Definition pkChunk (pk : packer) (br : Ref) (size : Z) (path : list Ref) : packer :=
  MkPk (pk_fr pk) (pk_wholeRef pk) (pk_wholeSize pk) (pk_dataRefs pk) (<[br := size]> (pk_dataSize pk)) (pk_schemaRefs pk)
    (pk_schemaBlob pk) (<[br := path]> (pk_schemaParent pk)) (pk_chunksRemain pk) (pk_zips pk) (pk_wholeBytesWritten pk).
Definition pkAddSchemaRef (pk : packer) (br : Ref) : packer :=
  MkPk (pk_fr pk) (pk_wholeRef pk) (pk_wholeSize pk) (pk_dataRefs pk) (pk_dataSize pk) (pk_schemaRefs pk ++ [br])
    (pk_schemaBlob pk) (pk_schemaParent pk) (pk_chunksRemain pk) (pk_zips pk) (pk_wholeBytesWritten pk).
Definition pkSetSchemaBlob (pk : packer) (br : Ref) (b : gostr) : packer :=
  MkPk (pk_fr pk) (pk_wholeRef pk) (pk_wholeSize pk) (pk_dataRefs pk) (pk_dataSize pk) (pk_schemaRefs pk)
    (<[br := b]> (pk_schemaBlob pk)) (pk_schemaParent pk) (pk_chunksRemain pk) (pk_zips pk) (pk_wholeBytesWritten pk).
Definition pkAddData (pk : packer) (br : Ref) : packer :=
  MkPk (pk_fr pk) (pk_wholeRef pk) (pk_wholeSize pk) (pk_dataRefs pk ++ [br]) (pk_dataSize pk) (pk_schemaRefs pk)
    (pk_schemaBlob pk) (pk_schemaParent pk) (pk_chunksRemain pk) (pk_zips pk) (pk_wholeBytesWritten pk).
Definition pkSetWhole (pk : packer) (br : Ref) (size : Z) : packer :=
  MkPk (pk_fr pk) br size (pk_dataRefs pk) (pk_dataSize pk) (pk_schemaRefs pk)
    (pk_schemaBlob pk) (pk_schemaParent pk) (pk_dataRefs pk) (pk_zips pk) (pk_wholeBytesWritten pk).
Definition pkAddZip (pk : packer) (z : writtenZip) (n : Z) : packer :=
  MkPk (pk_fr pk) (pk_wholeRef pk) (pk_wholeSize pk) (pk_dataRefs pk) (pk_dataSize pk) (pk_schemaRefs pk)
    (pk_schemaBlob pk) (pk_schemaParent pk) (pk_chunksRemain pk) (pk_zips pk ++ [z]) (pk_wholeBytesWritten pk + n).
Definition pkConsume (pk : packer) (n : nat) : packer :=
  MkPk (pk_fr pk) (pk_wholeRef pk) (pk_wholeSize pk) (pk_dataRefs pk) (pk_dataSize pk) (pk_schemaRefs pk)
    (pk_schemaBlob pk) (pk_schemaParent pk) (drop n (pk_chunksRemain pk)) (pk_zips pk) (pk_wholeBytesWritten pk).

(** The variables of [writeAZip] while it fills a zip. *)
Record filling := MkFill {
  fl_zw : Writer; fl_approx : Z; fl_data : list Ref; fl_bytes : Z; fl_seen : gset Ref; fl_schemas : list Ref; fl_content : gostr
}.

(** * The storage *)

Record storage (SM LG K : Type) := MkBp {
  sto_small : SM; sto_large : LG; sto_meta : K;
  sto_forceMaxZipBlobSize : Z; sto_skipDelete : bool
}.
Arguments MkBp {SM LG K}.
Arguments sto_small {SM LG K}.
Arguments sto_large {SM LG K}.
Arguments sto_meta {SM LG K}.
Arguments sto_forceMaxZipBlobSize {SM LG K}.
Arguments sto_skipDelete {SM LG K}.

Section blobpacked.
Context {SM LG K : Type} `{!Storage SM, !Storage LG, !SubFetcher LG, !KV K, !Flate}.
Abbreviation sto := (storage SM LG K).

Definition setSmall (s : sto) (sm : SM) : sto :=
  MkBp sm (sto_large s) (sto_meta s) (sto_forceMaxZipBlobSize s) (sto_skipDelete s).
Definition setLarge (s : sto) (lg : LG) : sto :=
  MkBp (sto_small s) lg (sto_meta s) (sto_forceMaxZipBlobSize s) (sto_skipDelete s).
Definition setMeta (s : sto) (k : K) : sto :=
  MkBp (sto_small s) (sto_large s) k (sto_forceMaxZipBlobSize s) (sto_skipDelete s).

Definition maxZipBlobSize (s : sto) : Z :=
  if 0 <? sto_forceMaxZipBlobSize s then sto_forceMaxZipBlobSize s else MaxBlobSize.

(** An error of [Get] other than [ErrNotFound] is lost: the empty row that
    comes with it does not parse. *)
Definition getMetaRow (s : sto) (br : Ref) : res meta :=
  match kv_get (blobMetaPrefix ++ RefString br) (sto_meta s) with
  | Ok v => parseMetaRow v
  | Err e => if decide (e = ErrNotFound) then Ok noMeta else parseMetaRow []
  | Panic p => Panic p
  | Blocked => Blocked
  end.

(** The body is read to its end, so an error of its reader is the result. *)
Definition bpFetch (s : sto) (br : Ref) : sto * res (gostr * Z) :=
  let! (s, m) := (s, getMetaRow s br) in
  if negb (m_exists m) || negb (isPacked m) then
    let '(sm, r) := st_Fetch (sto_small s) br in (setSmall s sm, r)
  else
    let '(lg, r) := st_SubFetch (sto_large s) (m_largeRef m) (m_largeOff m) (m_size m) in
    (setLarge s lg, let? rc := r in let? bs := readAll rc in Ok (bs, m_size m)).

#[export] Instance bpFetcher : Fetcher sto := {| st_Fetch := bpFetch |}.

(** ** Reading parts *)

Definition capOffsetLength (size offset length : Z) : res Z :=
  if (offset <? 0) || (length <? 0) then Err (ErrMsg "invalid negative subfetch parameters")
  else if size <? offset then Err (ErrMsg "subfetch offset greater than blob size")
  else
    let over := i64 (i64 (offset + length) - size) in
    Ok (if 0 <? over then i64 (length - over) else length).

(** [smallSub]: the [SubFetch] of the small storage, if it has one. *)
Definition bpSubFetch (smallSub : option (SubFetcher SM)) (s : sto) (ref : Ref) (offset length : Z) : sto * res reader :=
  let! (s, m) := (s, getMetaRow s ref) in
  if isPacked m then
    let! (s, length) := (s, capOffsetLength (m_size m) offset length) in
    let '(lg, r) := st_SubFetch (sto_large s) (m_largeRef m) (i64 (m_largeOff m + offset)) length in (setLarge s lg, r)
  else
    match smallSub with
    | Some sf => let '(sm, r) := st_SubFetch (sto_small s) ref offset length in (setSmall s sm, r)
    | None =>
        let '(sm, r) := st_Fetch (sto_small s) ref in
        (setSmall s sm,
         let? (d, size) := r in
         let? length := capOffsetLength size offset length in
         if glen d <? offset then Err ErrEOF
         else Ok (take (Z.to_nat length) (drop (Z.to_nat offset) d), Ok tt))
    end.

(** ** Scanning a file *)

(** The schema blobs on the path that have not been seen. *)
Fixpoint scanSchemas (s : sto) (pk : packer) (seen : gset Ref) (path : list Ref) : sto * (packer * gset Ref) * res unit :=
  match path with
  | [] => (s, (pk, seen), Ok tt)
  | schemaRef :: path =>
      if decide (schemaRef ∈ seen) then scanSchemas s pk seen path
      else
        let seen := {[schemaRef]} ∪ seen in
        let pk := pkAddSchemaRef pk schemaRef in
        match FromFetcher s schemaRef with
        | (s, Ok b) => scanSchemas s (pkSetSchemaBlob pk schemaRef b) seen path
        | (s, Err e) => (s, (pk, seen), Err e)
        | (s, Panic p) => (s, (pk, seen), Panic p)
        | (s, Blocked) => (s, (pk, seen), Blocked)
        end
  end.

(** The callback of [scanChunks]. *)
Definition scanChunk (s : sto) (acc : packer * gset Ref) (path : list Ref) (p : BytesPart) : sto * (packer * gset Ref) * res unit :=
  if negb (Valid (bp_BlobRef p)) then (s, acc, Err (ErrMsg "sparse files are not packed"))
  else if decide (bp_Offset p <> 0) then (s, acc, Err (ErrMsg "file uses complicated schema. not packing."))
  else
    match scanSchemas s (pkChunk acc.1 (bp_BlobRef p) (u32 (bp_Size p)) path) acc.2 path with
    | (s, (pk, seen), Ok _) => (s, (pkAddData pk (bp_BlobRef p), seen), Ok tt)
    | x => x
    end.

Definition scanChunks (depth : nat) (r : frRoot sto) (pk : packer) : frRoot sto * packer * res unit :=
  let '(r, (pk, _), x) := foreachChunk depth scanChunk r (pk_fr pk) [] (pk, ∅) in (r, pk, x).

(** [io.Copy(h, pk.fr)]: what the hash is given. *)
Definition copyBufferSize : Z := 32 * 1024.

Fixpoint copyLoop (depth fuel : nat) (r : frRoot sto) (fr : FileReader) (off : Z) (acc : gostr) : frRoot sto * res gostr :=
  match fuel with
  | O => (r, Panic "out of fuel")
  | Datatypes.S fuel =>
      let! (r, x) := readSection depth r fr copyBufferSize off in
      let acc := acc ++ x.1 in
      match x.2 with
      | None => copyLoop depth fuel r fr (off + glen x.1) acc
      | Some e => (r, if decide (e = ErrEOF) then Ok acc else Err e)
      end
  end.

Definition copyFile (depth : nat) (r : frRoot sto) (fr : FileReader) : frRoot sto * res gostr :=
  copyLoop depth (2 + Z.to_nat (fr_size fr)) r fr 0 [].

(** ** Writing a zip *)

(** The parents of a chunk that are not in the zip yet. *)
Fixpoint addParents (pk : packer) (parents : list Ref) (fl : filling) : res filling :=
  match parents with
  | [] => Ok fl
  | parent :: parents =>
      if decide (parent ∈ fl_seen fl) then addParents pk parents fl
      else
        match pk_schemaBlob pk !! parent with
        | None => Err (ErrMsg "runtime error: nil pointer dereference")
        | Some b =>
            addParents pk parents
              (MkFill (fl_zw fl) (fl_approx fl + glen b) (fl_data fl) (fl_bytes fl) ({[parent]} ∪ fl_seen fl)
                 (fl_schemas fl ++ [parent]) (fl_content fl))
        end
  end.

Definition checkFits (approx zipMax : Z) : bool :=
  approx + approxSerializedSize (MkManifest zeroRef 0 0 zeroRef []) + zipOverhead <=? zipMax.

(** The loop over the chunks.  The manifest has no data blobs yet when its
    size is estimated.  [check] panics, which the deferred function turns into
    the error again. *)
Fixpoint fillZip (s : sto) (pk : packer) (trunc : Ref) (zipMax : Z) (chunks : list Ref) (fl : filling) : sto * res filling :=
  match chunks with
  | [] => (s, Ok fl)
  | dr :: chunks =>
      if Valid trunc && bool_decide (trunc = dr) then
        (s, if fl_approx fl =? 0 then Err (ErrMsg "first blob is too large to pack, once you add the zip overhead") else Ok fl)
      else
        let! (s, fl') := (s, addParents pk (default [] (pk_schemaParent pk !! dr)) fl) in
        let thisSize := default 0 (pk_dataSize pk !! dr) in
        let approx := fl_approx fl' + thisSize in
        if negb (checkFits approx zipMax) then
          (s, Ok (MkFill (fl_zw fl') approx (fl_data fl') (fl_bytes fl') (fl_seen fl') (fl_schemas fl) (fl_content fl')))
        else
          let! (s, x) := bpFetch s dr in
          let '(d, size) := x in
          if decide (size <> thisSize) then (s, Err (ErrMsg "unexpected size"))
          else
            match zipWrite (fl_zw fl') d with
            | (_, Some e) => (s, Err (ErrMsg "copy to zip = %v, %v; want %v bytes"))
            | (zw, None) =>
                if decide (glen d <> size) then (s, Err (ErrMsg "copy to zip = %v, %v; want %v bytes"))
                else
                  fillZip s pk trunc zipMax chunks
                    (MkFill zw approx (fl_data fl' ++ [dr]) (fl_bytes fl' + size) (fl_seen fl') (fl_schemas fl')
                       (fl_content fl' ++ d))
            end
  end.

(** Where the data blobs are, from an offset on. *)
Fixpoint dataPositions (pk : packer) (off : Z) (refs : list Ref) : list BlobAndPos :=
  match refs with
  | [] => []
  | br :: refs =>
      let size := default 0 (pk_dataSize pk !! br) in
      MkBap br size off :: dataPositions pk (off + size) refs
  end.

(** The schema blobs, each a file of its own; [Flush] has written everything
    when the offset is taken. *)
Fixpoint addSchemas (pk : packer) (zw : Writer) (refs : list Ref) : res (Writer * list BlobAndPos) :=
  match refs with
  | [] => Ok (zw, [])
  | br :: refs =>
      match CreateHeader zw (newFileHeader (gs "camlistore/" ++ RefString br ++ gs ".json") Store) with
      | (_, Some e) => Err e
      | (zw, None) =>
          match pk_schemaBlob pk !! br with
          | None => Err (ErrMsg "runtime error: nil pointer dereference")
          | Some b =>
              match zipWrite zw b with
              | (_, Some e) => Err e
              | (zw', None) =>
                  let? (zw', l) := addSchemas pk zw' refs in
                  Ok (zw', MkBap br (glen b) (glen (zw_out zw)) :: l)
              end
          end
      end
  end.

(** The blob to truncate after, when the zip has come out too large. *)
Fixpoint truncateAfter (pk : packer) (overage : Z) (rev_refs : list Ref) : option Ref :=
  match rev_refs with
  | [] => None
  | dr :: refs => if overage <=? 0 then Some dr else truncateAfter pk (overage - default 0 (pk_dataSize pk !! dr)) refs
  end.

Definition fileHeader (pk : packer) : FileHeader :=
  SetMode 420 (fhSetModTime (ssModTime (fr_ss (pk_fr pk))) (newFileHeader (FileNameString (fr_ss (pk_fr pk))) Store)).

(** The zip's bytes, and the rows' contents: where its blobs are. *)
Definition finishZip (pk : packer) (dataStart : Z) (fl : filling) : res (gostr * list BlobAndPos) :=
  let origin := refOf (fl_content fl) in
  let mf := MkManifest (pk_wholeRef pk) (pk_wholeSize pk) (glen (pk_zips pk)) origin (dataPositions pk 0 (fl_data fl)) in
  let? (zw, schemas) := addSchemas pk (fl_zw fl) (fl_schemas fl) in
  match Create zw zipManifestPath with
  | (_, Some e) => Err e
  | (zw, None) =>
      match zipWrite zw (manifestText mf) with
      | (_, Some e) => Err e
      | (zw, None) => Ok (zipClose zw, dataPositions pk dataStart (fl_data fl) ++ schemas)
      end
  end.

Definition metaRow (zipRef : Ref) (zb : BlobAndPos) : gostr :=
  itoa (bap_Size zb) ++ gs " " ++ RefString zipRef ++ gs " " ++ itoa (bap_Offset zb).

Definition wholeKey (wholeRef : Ref) : gostr := wholeMetaPrefix ++ RefString wholeRef.

Definition zipBatch (pk : packer) (zipRef : Ref) (dataStart : Z) (n : Z) (blobs : list BlobAndPos) : batch :=
  batchSet NewBatchMutation (wholeKey (pk_wholeRef pk) ++ gs ":" ++ itoa (glen (pk_zips pk)))
    (RefString zipRef ++ gs " " ++ itoa dataStart ++ gs " " ++ itoa (pk_wholeBytesWritten pk) ++ gs " " ++ itoa n) ++
  ((fun zb => Mutation (blobMetaPrefix ++ RefString (bap_Ref zb)) (metaRow zipRef zb) false) <$> blobs).

(** Which of the errors received counts, and the hub of the large storage. *)
Context (firstErr : list error -> error) (hub : memHub).

(** Storing a zip and its rows, and removing its blobs from the small
    storage, which may fail. *)
Definition commitZip (s : sto) (pk : packer) (dataStart : Z) (fl : filling) (zip : gostr) (blobs : list BlobAndPos)
    : sto * packer * res unit :=
  let zipRef := refOf zip in
  let '(lg, _, r) := ReceiveNoHash firstErr (sto_large s) hub zipRef (zip, Ok tt) in
  let s := setLarge s lg in
  match r with
  | Ok _ =>
      let bm := zipBatch pk zipRef dataStart (fl_bytes fl) blobs in
      let pk := pkAddZip pk (MkZip zip (fl_data fl)) (fl_bytes fl) in
      let '(err, k) := kv_commit bm (sto_meta s) in
      let s := setMeta s k in
      match err with
      | Some e => (s, pk, Err e)
      | None =>
          let s := if sto_skipDelete s then s else setSmall s (st_RemoveBlobs (sto_small s) (fl_data fl ++ fl_schemas fl)).1 in
          (s, pkConsume pk (length (fl_data fl)), Ok tt)
      end
  | Err e => (s, pk, Err e)
  | Panic p => (s, pk, Panic p)
  | Blocked => (s, pk, Blocked)
  end.

(** [Ok (Some r)] is the error that asks for truncation after [r]. *)
Definition writeAZip (s : sto) (pk : packer) (trunc : Ref) : sto * packer * res (option Ref) :=
  let baseFileName := FileNameString (fr_ss (pk_fr pk)) in
  if bool_decide ("/"%char ∈ baseFileName) || bool_decide ("\"%char ∈ baseFileName) then
    (s, pk, Err (ErrMsg "File schema blob %v filename had a slash in it: %q"))
  else
  match CreateHeader NewWriter (fileHeader pk) with
  | (_, Some e) => (s, pk, Err e)
  | (zw, None) =>
      let dataStart := glen (zw_out zw) in
      let zipMax := maxZipBlobSize s in
      match fillZip s pk trunc zipMax (pk_chunksRemain pk) (MkFill zw 0 [] 0 ∅ [] []) with
      | (s, Ok fl) =>
          match finishZip pk dataStart fl with
          | Ok (zip, blobs) =>
              if zipMax <? glen zip then
                (s, pk, match truncateAfter pk (glen zip - zipMax) (rev (fl_data fl)) with
                        | Some dr => Ok (Some dr)
                        | None => Err (ErrMsg "file is unpackable; first blob is too big to fit")
                        end)
              else
                let '(s, pk, r) := commitZip s pk dataStart fl zip blobs in (s, pk, let? _ := r in Ok None)
          | Err e => (s, pk, Err e)
          | Panic p => (s, pk, Panic p)
          | Blocked => (s, pk, Blocked)
          end
      | (s, Err e) => (s, pk, Err e)
      | (s, Panic p) => (s, pk, Panic p)
      | (s, Blocked) => (s, pk, Blocked)
      end
  end.

(** The loop [MakingZips]. *)
Fixpoint makeZips (fuel : nat) (s : sto) (pk : packer) (trunc : Ref) : sto * packer * res unit :=
  match fuel with
  | O => (s, pk, Panic "out of fuel")
  | Datatypes.S fuel =>
      match pk_chunksRemain pk with
      | [] => (s, pk, Ok tt)
      | _ :: _ =>
          match writeAZip s pk trunc with
          | (s, pk, Ok None) => makeZips fuel s pk zeroRef
          | (s, pk, Ok (Some r)) => makeZips fuel s pk r
          | (s, pk, Err e) => (s, pk, Err e)
          | (s, pk, Panic p) => (s, pk, Panic p)
          | (s, pk, Blocked) => (s, pk, Blocked)
          end
      end
  end.

(** Enough iterations for a packer that makes progress. *)
Definition packFuel (pk : packer) : nat := Datatypes.S (length (pk_dataRefs pk) * Datatypes.S (length (pk_dataRefs pk))).

(** [pack], on the file's reader. *)
Definition pack (depth : nat) (r : frRoot sto) (pk : packer) : sto * packer * res unit :=
  match scanChunks depth r pk with
  | (r, pk, Ok _) =>
      match copyFile depth r (pk_fr pk) with
      | (r, Ok whole) =>
          let s := fr_fetcher r in
          let pk := pkSetWhole pk (refOf whole) (glen whole) in
          match kv_get (wholeKey (pk_wholeRef pk)) (sto_meta s) with
          | Ok _ => (s, pk, Err (ErrMsg "already have wholeref %v packed; not packing again"))
          | Err e =>
              if decide (e = ErrNotFound) then
                match makeZips (packFuel pk) s pk zeroRef with
                | (s, pk, Ok _) =>
                    let '(err, k) := kv_set (wholeKey (pk_wholeRef pk)) (itoa (pk_wholeSize pk) ++ gs " " ++ itoa (glen (pk_zips pk))) (sto_meta s) in
                    (setMeta s k, pk, match err with None => Ok tt | Some _ => Err (ErrMsg "Error setting %s: %v") end)
                | x => x
                end
              else (s, pk, Err e)
          | Panic p => (s, pk, Panic p)
          | Blocked => (s, pk, Blocked)
          end
      | (r, Err e) => (fr_fetcher r, pk, Err e)
      | (r, Panic p) => (fr_fetcher r, pk, Panic p)
      | (r, Blocked) => (fr_fetcher r, pk, Blocked)
      end
  | (r, pk, x) => (fr_fetcher r, pk, x)
  end.

(** [packFile], with the zips it has written. *)
Definition packFile (depth : nat) (s : sto) (fileRef : Ref) : sto * list writtenZip * res unit :=
  match NewFileReader s fileRef with
  | (s, Ok (r, fr)) => let '(s, pk, x) := pack depth r (newPacker fr) in (s, pk_zips pk, x)
  | (s, Err e) => (s, [], Err e)
  | (s, Panic p) => (s, [], Panic p)
  | (s, Blocked) => (s, [], Blocked)
  end.

(** ** The operations of a storage *)

(** What [ReceiveBlob] does before it packs: the result, and whether to. *)
Definition bpReceive (s : sto) (br : Ref) (source : reader) : sto * res (SizedRef * bool) :=
  let! (s, buf) := (s, readAll source) in
  let fileBlob :=
    match BlobFromReader br buf with
    | Ok b => Ok (if decide (ss_Type (b_ss b) = gs "file") then Some b else None)
    | Err _ => Ok None
    | Panic p => Panic p
    | Blocked => Blocked
    end in
  let! (s, fileBlob) := (s, fileBlob) in
  let! (s, m) := (s, getMetaRow s br) in
  let! (s, sb) :=
    if m_exists m then (s, Ok (MkSizedRef br (u32 (glen buf))))
    else let '(sm, r) := st_ReceiveBlob (sto_small s) br (buf, Ok tt) in (setSmall s sm, r) in
  match fileBlob with
  | None => (s, Ok (sb, false))
  | Some b =>
      if isPacked m then (s, Ok (sb, false))
      else (s, let? n := PartsSize b in Ok (sb, packThreshold <=? n))
  end.

(** An error of [packFile] is ignored. *)
Definition bpReceiveBlob (depth : nat) (s : sto) (br : Ref) (source : reader) : sto * list writtenZip * res SizedRef :=
  match bpReceive s br source with
  | (s, Ok (sb, true)) =>
      let '(s, zips, r) := packFile depth s br in
      (s, zips, match r with Ok _ | Err _ => Ok sb | Panic p => Panic p | Blocked => Blocked end)
  | (s, r) => (s, [], let? x := r in Ok x.1)
  end.
(** The order in which the goroutines of a call get to run. *)
Context (arrive : list Ref -> list Ref).

(** [RemoveBlobs]: which blobs are packed, and in which zips. *)
Definition splitStep (acc : list Ref * list Ref * gset Ref) (x : Ref * res meta) : list Ref * list Ref * gset Ref :=
  let '(unpacked, packed, large) := acc in
  match x.2 with
  | Ok m => if isPacked m then (unpacked, packed ++ [x.1], {[m_largeRef m]} ∪ large) else (unpacked ++ [x.1], packed, large)
  | _ => acc
  end.

Definition splitPacked (s : sto) (blobs : list Ref) : res (list Ref * list Ref * gset Ref) :=
  let rows := (fun br => (br, getMetaRow s br)) <$> arrive blobs in
  let? _ := batchErr firstErr ((fun x : Ref * res meta => let? _ := x.2 in Ok tt) <$> rows) in
  Ok (foldl splitStep ([], [], ∅) rows).

Definition bpRemoveBlobs (now : Z) (s : sto) (blobs : list Ref) : sto * res unit :=
  let! (s, x) := (s, splitPacked s blobs) in
  let '(unpacked, packed, large) := x in
  let '(sm, r1) := match unpacked with [] => (sto_small s, Ok tt) | _ => st_RemoveBlobs (sto_small s) unpacked end in
  let '(k, r2) :=
    match packed with
    | [] => (sto_meta s, Ok tt)
    | _ =>
        let bm := foldl (fun b zipRef => batchSet b (gs "d:" ++ RefString zipRef) (itoa now)) NewBatchMutation (arrive (elements large)) in
        let bm := foldl (fun b br => batchDelete b (blobMetaPrefix ++ RefString br)) bm packed in
        let '(err, k) := kv_commit bm (sto_meta s) in (k, match err with None => Ok tt | Some e => Err e end)
    end in
  (setMeta (setSmall s sm) k, batchErr firstErr [r1; r2]).

Definition statRow (s : sto) (br : Ref) : list SizedRef * list Ref * res unit :=
  match getMetaRow s br with
  | Ok m => if m_exists m then ([MkSizedRef br (m_size m)], [], Ok tt) else ([], [br], Ok tt)
  | Err e => ([], [], Err e)
  | Panic p => ([], [], Panic p)
  | Blocked => ([], [], Blocked)
  end.

Definition bpStatBlobs (s : sto) (blobs : list Ref) : list SizedRef * res unit :=
  match blobs with
  | [] => ([], Ok tt)
  | _ =>
      let rows := statRow s <$> arrive blobs in
      let sent := concat (fst ∘ fst <$> rows) in
      match batchErr firstErr (snd <$> rows) with
      | Ok _ =>
          match concat (snd ∘ fst <$> rows) with
          | [] => (sent, Ok tt)
          | trySmall => let '(out, r) := st_StatBlobs (sto_small s) trySmall in (sent ++ out, r)
          end
      | r => (sent, r)
      end
  end.

(** The packed blobs, which an [enumerator] lists; [n] counts what was sent. *)
Fixpoint enumMetaLoop (after : gostr) (limit : Z) (n : nat) (its : list (gostr * gostr)) : list SizedRef * res unit :=
  match its with
  | [] => ([], Ok tt)
  | (k, v) :: its =>
      if Z.of_nat n <? limit then
        let key := drop (length blobMetaPrefix) k in
        if decide (n = 0%nat /\ key = after) then enumMetaLoop after limit n its
        else
          match ParseBytes key with
          | Ok None => ([], Err (ErrMsg "unknown key %q in meta index"))
          | Ok (Some br) =>
              match parseMetaRowSizeOnly v with
              | Ok size => let '(out, r) := enumMetaLoop after limit (Datatypes.S n) its in (MkSizedRef br size :: out, r)
              | Err e => ([], Err e)
              | Panic p => ([], Panic p)
              | Blocked => ([], Blocked)
              end
          | Err e => ([], Err e)
          | Panic p => ([], Panic p)
          | Blocked => ([], Blocked)
          end
      else ([], Ok tt)
  end.

Definition enumMeta (s : sto) (after : gostr) (limit : Z) : list SizedRef * res unit :=
  let '(its, closeErr) := kv_find (blobMetaPrefix ++ after) blobMetaPrefixLimit (sto_meta s) in
  let '(out, r) := enumMetaLoop after limit 0 its in
  (out, match r, closeErr with Ok _, Some e => Err e | _, _ => r end).

Definition bpEnumerateBlobs (s : sto) (c : ctx) (after : gostr) (limit : Z) : list SizedRef * res unit :=
  mergedEnumerate [st_EnumerateBlobs (sto_small s) c after limit; enumMeta s after limit] limit.

(** ** Starting *)

Definition anyMeta (s : sto) : bool :=
  (Foreach (sto_meta s) (fun _ _ _ => (Some (ErrMsg "stop"), true)) false).2.

Definition anyZipPacks (s : sto) : bool :=
  match st_EnumerateBlobs (sto_large s) None [] 1 with
  | (_ :: _, Ok _) => true
  | _ => false
  end.
End blobpacked.
