(* ===== verification/PackLaws.v ===== *)
(** What holds of [BlobPacked]: whatever happens while a file is packed, the
    blobs that the storage holds stay the same. *)

From S2P Require Import Prelude Ref Strutil SortedKV Sha1 Storage Enumerate Receive Times Json Schema FileReader FileWriter Claims Zip BlobPacked.

(** * Rows *)

Lemma space_not_digits n : 0 <= n < 2 ^ 64 -> " "%char ∉ itoa n.
Proof. intros Hn Hin. apply itoa_digits in Hin; [|done]. unfold isDigit in Hin. change (bz " ") with 32 in Hin. lia. Qed.

Lemma space_not_ref r : refWf r = true -> " "%char ∉ RefString r.
Proof.
  intros Hr Hin. pose proof (RefString_chars r Hr) as Hc. rewrite Forall_forall in Hc. apply Hc, refChar_range in Hin.
  change (bz " ") with 32 in Hin. lia.
Qed.

Lemma itoa_nonempty n : 0 <= n < 2 ^ 64 -> itoa n <> [].
Proof. intros Hn. by destruct (itoa_spec n Hn) as (_ & Hne & _). Qed.

Lemma filter_absent (c : ascii) s : c ∉ s -> filter (fun x => x = c) s = [].
Proof. intros Hc. apply filter_none, Forall_forall. intros x Hx ->. done. Qed.

Lemma drop_past {A} (l : list A) x k : drop (S (length l)) (l ++ x :: k) = k.
Proof.
  replace (l ++ x :: k) with ((l ++ [x]) ++ k) by by rewrite <- app_assoc.
  replace (S (length l)) with (length (l ++ [x])) by (rewrite length_app; simpl; lia). apply drop_app_length.
Qed.

Section rows.
Context (br lref : Ref) (n off : Z) (Hlref : refWf lref = true) (Hn : 0 <= n < 2 ^ 32) (Hoff : 0 <= off < 2 ^ 32).

Lemma metaRow_shape : metaRow lref (MkBap br n off) = itoa n ++ " "%char :: RefString lref ++ " "%char :: itoa off.
Proof. reflexivity. Qed.

Lemma parseMetaRow_row : parseMetaRow (metaRow lref (MkBap br n off)) = Ok (MkMeta true n lref off).
Proof.
  rewrite metaRow_shape. unfold parseMetaRow.
  assert (0 <= n < 2 ^ 64 /\ 0 <= off < 2 ^ 64) as [Hn64 Ho64] by lia.
  rewrite index_byte_app by by apply space_not_digits.
  destruct (length (itoa n)) as [|k] eqn:El; [by destruct (itoa_nonempty n Hn64), (itoa n)|]. rewrite <- El.
  rewrite decide_False by (rewrite !length_app; simpl; rewrite length_app; simpl; lia).
  rewrite take_app_length, drop_past. rewrite (itoa_parse n 32) by lia.
  rewrite decide_False; cycle 1.
  { rewrite filter_app, filter_cons_True, !filter_absent by (by apply space_not_ref || by apply space_not_digits || done). simpl. tauto. }
  rewrite index_byte_app by by apply space_not_ref. cbn [default from_option id].
  rewrite take_app_length, drop_past, ParseBytes_Parse, Parse_RefString by done. cbn [rbind].
  rewrite (itoa_parse off 32) by lia. by rewrite !u32_small.
Qed.

Lemma parseMetaRowSizeOnly_row : parseMetaRowSizeOnly (metaRow lref (MkBap br n off)) = Ok n.
Proof.
  rewrite metaRow_shape. unfold parseMetaRowSizeOnly. assert (0 <= n < 2 ^ 64) as Hn64 by lia.
  rewrite index_byte_app by by apply space_not_digits.
  destruct (length (itoa n)) as [|k] eqn:El; [by destruct (itoa_nonempty n Hn64), (itoa n)|]. rewrite <- El.
  rewrite decide_False by (rewrite !length_app; simpl; rewrite length_app; simpl; lia).
  rewrite take_app_length, (itoa_parse n 32) by lia. by rewrite u32_small.
Qed.
End rows.

(** * What the storage holds *)

(** The bytes [d] are those of [z] from [off] on. *)
Definition sits (z : gostr) (off : Z) (d : gostr) : Prop := exists a b, z = a ++ d ++ b /\ off = glen a.

Lemma sits_take z off d : sits z off d -> take (Z.to_nat (glen d)) (drop (Z.to_nat off) z) = d.
Proof. intros (a & b & -> & ->). unfold glen. by rewrite !Nat2Z.id, drop_app_length, take_app_length. Qed.

Lemma sits_bounds z off d : sits z off d -> 0 <= off /\ off + glen d <= glen z.
Proof. intros (a & b & -> & ->). rewrite !glen_app. pose proof (glen_nonneg a). pose proof (glen_nonneg b). lia. Qed.

Lemma sits_unique z off d d' : sits z off d -> sits z off d' -> glen d = glen d' -> d = d'.
Proof. intros Hd Hd' Hl. rewrite <- (sits_take _ _ _ Hd), <- (sits_take _ _ _ Hd'). by rewrite Hl. Qed.

Lemma sits_prefix z z' off d : z `prefix_of` z' -> sits z off d -> sits z' off d.
Proof. intros [k ->] (a & b & -> & ->). exists a, (b ++ k). by rewrite <- !app_assoc. Qed.

Definition blobKey (br : Ref) : gostr := blobMetaPrefix ++ RefString br.

Section view.
Context {SM LG K : Type} `{StorageLaws SM} `{StorageLaws LG} `{KVLaws K}.
Abbreviation sto := (storage SM LG K).
Implicit Types s : sto.

(** The blob [br] is packed in a large blob, as the bytes [d]. *)
Definition packed s (br : Ref) (d : gostr) : Prop :=
  exists lref z off, kv_view (sto_meta s) !! blobKey br = Some (metaRow lref (MkBap br (glen d) off)) /\
    st_view (sto_large s) !! lref = Some z /\ sits z off d.

(** The blob that a row is of. *)
Definition rowBlob (large : blobs) (kv : gostr * gostr) : option (Ref * gostr) :=
  if decide (take 2 kv.1 = blobMetaPrefix) then
    match Parse (drop 2 kv.1), parseMetaRow kv.2 with
    | Ok (Some br), Ok m => z ← large !! m_largeRef m; Some (br, take (Z.to_nat (m_size m)) (drop (Z.to_nat (m_largeOff m)) z))
    | _, _ => None
    end
  else None.

Definition packedMap s : blobs := list_to_map (omap (rowBlob (st_view (sto_large s))) (map_to_list (kv_view (sto_meta s)))).

(** The packed blobs and the small ones. *)
Definition bpView s : blobs := packedMap s ∪ st_view (sto_small s).

(** Every row of a blob says where it is; a blob that is in the small storage
    as well is the same there. *)
Record bpWf s : Prop := MkBpWf {
  bw_small : st_wf (sto_small s);
  bw_large : st_wf (sto_large s);
  bw_rows : forall k v, kv_view (sto_meta s) !! (blobMetaPrefix ++ k) = Some v ->
    exists br lref z off d, goodRef br /\ k = RefString br /\ v = metaRow lref (MkBap br (glen d) off) /\
      st_view (sto_large s) !! lref = Some z /\ sits z off d;
  bw_agree : forall br d d', packed s br d -> st_view (sto_small s) !! br = Some d' -> d' = d;
  bw_max : maxZipBlobSize s <= MaxBlobSize
}.

Lemma metaRow_any br br' lref n off : metaRow lref (MkBap br n off) = metaRow lref (MkBap br' n off).
Proof. reflexivity. Qed.

(** The numbers in a row fit. *)
Lemma sits_fits (large : blobs) lref z off d : goodBlobs large -> large !! lref = Some z -> sits z off d ->
  refWf lref = true /\ 0 <= glen d < 2 ^ 32 /\ 0 <= off < 2 ^ 32.
Proof.
  intros Hg Hz Hs. destruct (Hg _ _ Hz) as [[Hw _] Hl]. apply sits_bounds in Hs. pose proof (glen_nonneg d). split; [done|lia].
Qed.

Lemma packed_row s br d : st_wf (sto_large s) -> packed s br d ->
  exists lref z off, st_view (sto_large s) !! lref = Some z /\ sits z off d /\ refWf lref = true /\
    0 <= glen d < 2 ^ 32 /\ 0 <= off < 2 ^ 32 /\
    kv_view (sto_meta s) !! blobKey br = Some (metaRow lref (MkBap br (glen d) off)).
Proof.
  intros Hl (lref & z & off & Hk & Hz & Hs). pose proof (sits_fits _ _ _ _ _ (st_wf_good _ Hl) Hz Hs) as (? & ? & ?).
  by exists lref, z, off.
Qed.

Lemma packed_fun s br d d' : st_wf (sto_large s) -> packed s br d -> packed s br d' -> d = d'.
Proof.
  intros Hl Hd Hd'. apply packed_row in Hd as (lref & z & off & Hz & Hs & Hw & Hn & Ho & Hk); [|done].
  apply packed_row in Hd' as (lref' & z' & off' & Hz' & Hs' & Hw' & Hn' & Ho' & Hk'); [|done].
  rewrite Hk in Hk'. injection Hk' as He. apply (f_equal parseMetaRow) in He. rewrite !parseMetaRow_row in He by done.
  injection He as Hgl -> ->. assert (z = z') as -> by congruence. by eapply sits_unique.
Qed.

Lemma rowBlob_key s k v br d : rowBlob (st_view (sto_large s)) (k, v) = Some (br, d) ->
  kv_view (sto_meta s) !! k = Some v -> bpWf s -> k = blobKey br /\ goodRef br /\ packed s br d.
Proof.
  unfold rowBlob. intros Hr Hk Hwf. cbn [fst snd] in Hr. destruct (decide (take 2 k = blobMetaPrefix)) as [Hp|]; [|done].
  assert (k = blobMetaPrefix ++ drop 2 k) as Hk' by by rewrite <- Hp, take_drop.
  rewrite Hk' in Hk. destruct (bw_rows s Hwf _ _ Hk) as (br' & lref & z & off & d' & Hg & Hd & -> & Hz & Hs).
  rewrite Hd, Parse_RefString in Hr by apply Hg.
  destruct (sits_fits _ _ _ _ _ (st_wf_good _ (bw_large s Hwf)) Hz Hs) as (Hw & Hn & Ho).
  rewrite parseMetaRow_row in Hr by done. cbn [m_largeRef m_size m_largeOff] in Hr. rewrite Hz in Hr. cbn in Hr.
  injection Hr as <- <-. rewrite sits_take by done. unfold blobKey, packed. rewrite <- Hd. split; [done|]. split; [done|].
  exists lref, z, off. unfold blobKey. by rewrite <- Hd.
Qed.

Lemma rowBlob_packed s br d : bpWf s -> packed s br d -> goodRef br ->
  exists v, (blobKey br, v) ∈ map_to_list (kv_view (sto_meta s)) /\ rowBlob (st_view (sto_large s)) (blobKey br, v) = Some (br, d).
Proof.
  intros Hwf Hp Hg. apply packed_row in Hp as (lref & z & off & Hz & Hs & Hw & Hn & Ho & Hk); [|by apply bw_large].
  eexists. rewrite elem_of_map_to_list. split; [exact Hk|]. unfold rowBlob. cbn [fst snd]. unfold blobKey.
  rewrite decide_True by done. change (drop 2 (blobMetaPrefix ++ RefString br)) with (RefString br).
  rewrite Parse_RefString, parseMetaRow_row by (done || apply Hg). cbn [m_largeRef m_size m_largeOff]. rewrite Hz. cbn.
  by rewrite sits_take.
Qed.

Lemma lookup_packedMap s br d : bpWf s -> packedMap s !! br = Some d <-> goodRef br /\ packed s br d.
Proof.
  intros Hwf. unfold packedMap. split.
  - intros Hl. apply elem_of_list_to_map_2, list_elem_of_omap in Hl as ([k v] & Hin%elem_of_map_to_list & Hr).
    by destruct (rowBlob_key s k v br d Hr Hin Hwf) as (_ & ? & ?).
  - intros [Hg Hp]. destruct (rowBlob_packed s br d Hwf Hp Hg) as (v & Hin & Hr).
    apply elem_of_list_to_map_1'; [|apply list_elem_of_omap; by exists (blobKey br, v)].
    intros d' ([k' v'] & Hin'%elem_of_map_to_list & Hr')%list_elem_of_omap.
    destruct (rowBlob_key s k' v' br d' Hr' Hin' Hwf) as (_ & _ & Hp'). by eapply packed_fun; [apply bw_large|..].
Qed.
(** Blobs are found among the packed or among the small ones. *)
Lemma lookup_bpView s br d : bpWf s ->
  bpView s !! br = Some d <-> (goodRef br /\ packed s br d) \/ st_view (sto_small s) !! br = Some d.
Proof.
  intros Hwf. unfold bpView. rewrite lookup_union_Some_raw. split.
  - intros [Hp|[_ Hs]]; [left; by apply lookup_packedMap|by right].
  - intros [Hp|Hs]; [left; by apply lookup_packedMap|]. destruct (packedMap s !! br) as [d'|] eqn:E; [|by right].
    left. f_equal. apply lookup_packedMap in E as [_ Hp]; [|done]. symmetry. by eapply bw_agree.
Qed.

Lemma bpView_ext s s' : bpWf s -> bpWf s' ->
  (forall br d, bpView s !! br = Some d <-> bpView s' !! br = Some d) -> bpView s' = bpView s.
Proof. intros _ _ He. apply map_eq. intros br. apply option_eq. intros d. symmetry. apply He. Qed.

Lemma packed_good s br d : st_wf (sto_large s) -> packed s br d -> glen d < 2 ^ 32.
Proof. intros Hl Hp. apply packed_row in Hp as (? & ? & ? & _ & _ & _ & Hn & _); [lia|done]. Qed.

Lemma bpView_good s : bpWf s -> goodBlobs (bpView s).
Proof.
  intros Hwf br d Hd. apply lookup_bpView in Hd as [[Hg Hp]|Hs]; [|exact (st_wf_good _ (bw_small s Hwf) _ _ Hs)|done].
  split; [done|]. eapply packed_good; [by apply bw_large|done].
Qed.

(** ** Reading leaves everything as it is *)

Record steady s s' : Prop := MkSteady {
  sd_small_wf : st_wf (sto_small s');
  sd_large_wf : st_wf (sto_large s');
  sd_small : st_view (sto_small s') = st_view (sto_small s);
  sd_large : st_view (sto_large s') = st_view (sto_large s);
  sd_meta : sto_meta s' = sto_meta s;
  sd_max : maxZipBlobSize s' = maxZipBlobSize s;
  sd_skip : sto_skipDelete s' = sto_skipDelete s
}.

Lemma steady_refl s : bpWf s -> steady s s.
Proof. intros Hwf. constructor; try done; by apply Hwf. Qed.

Lemma steady_trans s1 s2 s3 : steady s1 s2 -> steady s2 s3 -> steady s1 s3.
Proof. intros [] []. constructor; congruence. Qed.

Lemma steady_packed s s' br d : steady s s' -> packed s' br d <-> packed s br d.
Proof. intros Hs. unfold packed. by rewrite (sd_large s s' Hs), (sd_meta s s' Hs). Qed.

Lemma steady_wf s s' : bpWf s -> steady s s' -> bpWf s' /\ bpView s' = bpView s.
Proof.
  intros Hwf Hs. assert (bpWf s') as Hwf'.
  { constructor; [apply Hs|apply Hs|..].
    - intros k v. rewrite (sd_meta s s' Hs), (sd_large s s' Hs). apply Hwf.
    - intros br d d'. rewrite (sd_small s s' Hs), steady_packed by done. apply Hwf.
    - rewrite (sd_max s s' Hs). apply Hwf. }
  split; [done|]. unfold bpView, packedMap. by rewrite (sd_meta s s' Hs), (sd_large s s' Hs), (sd_small s s' Hs).
Qed.

(** The blob that a reference names: references are compared by their text. *)
Definition known (V : blobs) (r : Ref) (d : gostr) : Prop :=
  exists br, goodRef br /\ RefString br = RefString r /\ V !! br = Some d.

Lemma known_good V br d : goodBlobs V -> refWf br = true -> known V br d <-> V !! br = Some d.
Proof.
  intros Hg Hw. split; [|intros Hd; exists br; split; [by eapply Hg|done]].
  intros (br' & Hg' & He & Hd). assert (br' = br) as ->; [|done].
  pose proof (Parse_RefString br' (proj1 Hg')) as Hp. rewrite He, Parse_RefString in Hp by done. congruence.
Qed.
End view.

(** * Fetching *)

(** An index whose calls return; a batch that fails has been applied up to
    some point, which for an atomic one is its start. *)
Class KVSteady (K : Type) `{KVLaws K} := {
  kv_get_returns k (x : K) : match kv_get k x with Ok _ | Err _ => True | _ => False end;
  kv_commit_err b (x x' : K) e : kv_commit b x = (Some e, x') -> exists b', b' `prefix_of` b /\ kv_view x' = applyMutations (kv_view x) b';
  kv_set_err k v (x x' : K) e : kv_set k v x = (Some e, x') -> kv_view x' = kv_view x
}.

Section fetching.
Context {SM LG K : Type} `{StorageLaws SM} `{SubFetcherLaws LG} `{KVSteady K} `{!Flate}.
Abbreviation sto := (storage SM LG K).
Implicit Types s : sto.

(** The row of a blob, if it has one. *)
Lemma getMetaRow_spec s br : bpWf s ->
  match getMetaRow s br with
  | Ok m =>
      (m = noMeta /\ kv_view (sto_meta s) !! blobKey br = None) \/
      (exists br' lref z off d, m = MkMeta true (glen d) lref off /\ goodRef br' /\ RefString br' = RefString br /\
        packed s br' d /\ st_view (sto_large s) !! lref = Some z /\ sits z off d /\ Valid lref = true)
  | Err e => e <> ErrNotExist
  | _ => False
  end.
Proof.
  intros Hwf. unfold getMetaRow. fold (blobKey br). pose proof (kv_get_returns (blobKey br) (sto_meta s)) as Hr.
  destruct (kv_get (blobKey br) (sto_meta s)) as [v|e|p|] eqn:E; [|by destruct (decide _); [left; split; [|subst e; by apply kv_get_NotFound]|]|done..].
  apply kv_get_Ok in E. destruct (bw_rows s Hwf _ _ E) as (br' & lref & z & off & d & Hg & Hk & -> & Hz & Hs).
  destruct (sits_fits _ _ _ _ _ (st_wf_good _ (bw_large s Hwf)) Hz Hs) as (Hw & Hn & Ho).
  rewrite parseMetaRow_row by done. right. exists br', lref, z, off, d. split; [done|]. split; [done|]. split; [done|]. split.
  - exists lref, z, off. unfold blobKey. by rewrite <- Hk.
  - split; [done|]. split; [done|]. unfold Valid, refWf in *. by destruct (digest lref).
Qed.

Lemma bpFetch_ok s br s' r : bpWf s -> bpFetch s br = (s', r) ->
  steady s s' /\
  match r with
  | Ok (d, n) => known (bpView s) br d /\ n = glen d
  | Err e => e = ErrNotExist -> refWf br = true -> bpView s !! br = None
  | _ => False
  end.
Proof.
  intros Hwf. unfold bpFetch. pose proof (getMetaRow_spec s br Hwf) as Hm.
  destruct (getMetaRow s br) as [m|e|p|] eqn:Em; [|..|done|done]; cbn [sbind].
  2: { intros [= <- <-]. split; [by apply steady_refl|]. done. }
  destruct Hm as [[-> Hn]|(br' & lref & z & off & d & -> & Hg & He & Hp & Hz & Hs & Hv)].
  - cbn [m_exists noMeta negb orb]. destruct (st_Fetch (sto_small s) br) as [sm r0] eqn:E. intros [= <- <-].
    apply st_Fetch_law in E as (Hw & Hview & Hr); [|apply Hwf]. split; [by constructor; try apply Hwf|].
    destruct r0 as [[d n]|e|p|]; [|..|done|done].
    + destruct Hr as [Hd ->]. split; [|done]. exists br. split; [by eapply (st_wf_good _ (bw_small s Hwf))|].
      split; [done|]. apply lookup_bpView; [done|]. by right.
    + intros -> _. specialize (Hr eq_refl). apply eq_None_not_Some. intros [d Hd]. apply lookup_bpView in Hd as [[_ Hp]|Hd]; [|congruence|done].
      destruct Hp as (lref & z & off & Hk & _). congruence.
  - cbn [m_exists negb orb isPacked m_largeRef m_largeOff m_size]. unfold isPacked. cbn [m_largeRef]. rewrite Hv. cbn [negb].
    destruct (st_SubFetch (sto_large s) lref off (glen d)) as [lg r0] eqn:E. intros [= <- <-].
    destruct (sits_bounds _ _ _ Hs) as [Ho Hb]. pose proof (glen_nonneg d) as Hgl.
    eapply st_SubFetch_law in E as (Hw & Hview & Hr); [|apply Hwf|exact Hz|lia..].
    split; [by constructor; try apply Hwf|]. destruct r0 as [part|e|p|]; [|..|done|done]; cbn [rbind]; [|done].
    subst part. unfold readAll. cbn [snd fst rbind]. rewrite sits_take by done. split; [|done].
    exists br'. split; [done|]. split; [done|]. apply lookup_bpView; [done|]. by left.
Qed.
End fetching.

(** * What fetching keeps, reading keeps *)

Section reading.
Context {S : Type} `{!Fetcher S} (I : S -> Prop) (HI : forall s br, I s -> I (st_Fetch s br).1).
Abbreviation holdsI r := (I (fr_fetcher r)).

Lemma FromFetcher_inv s br : I s -> I (FromFetcher s br).1.
Proof using HI. intros Hs. specialize (HI s br Hs). unfold FromFetcher. by destruct (st_Fetch s br) as [s' [[d n]|e|p|]]. Qed.

Lemma NewFileReader_inv s br s' x : I s -> NewFileReader s br = (s', x) ->
  I s' /\ (forall r fr, x = Ok (r, fr) -> fr_fetcher r = s').
Proof using HI.
  intros Hs. specialize (HI s br Hs). unfold NewFileReader. destruct (negb _); [by intros [= <- <-]|].
  destruct (st_Fetch s br) as [s1 [[d n]|e|p|]]; [|by intros [= <- <-]..].
  destruct (parseSuperset _) as [ss|e|p|]; [|by intros [= <- <-]..].
  destruct (bool_decide _); [|by intros [= <- <-]]. intros [= <- <-]. split; [done|]. intros r fr Hr.
  apply rbind_Ok in Hr as (fr' & _ & [= <- _]). done.
Qed.

Lemma getBlob_inv r br : holdsI r -> holdsI (getBlob r br).1.
Proof using HI.
  intros Hr. pose proof (FromFetcher_inv _ br Hr) as Hf. unfold getBlob.
  destruct (FromFetcher (fr_fetcher r) br) as [s [d|e|p|]]; destruct (lastBlob r) as [[br' d']|]; try done; by destruct (decide _).
Qed.

Lemma getSuperset_inv r br : holdsI r -> holdsI (getSuperset r br).1.
Proof using HI.
  intros Hr. specialize (HI _ br Hr). unfold getSuperset. destruct (ssm r !! br); [done|].
  destruct (st_Fetch (fr_fetcher r) br) as [s [[d n]|e|p|]]; try done. by destruct (parseSuperset _).
Qed.

Lemma readerForOffset_inv r fr off : holdsI r -> holdsI (readerForOffset r fr off).1.
Proof using HI.
  intros Hr. unfold readerForOffset. destruct (off <? 0); [done|]. destruct (fr_size fr <=? off); [done|].
  destruct (skipParts _ _) as [[[|[p0|] ps] o]|e|p|]; try done.
  pose proof (getBlob_inv r (bp_BlobRef p0) Hr) as Hb. pose proof (getSuperset_inv r (bp_BytesRef p0) Hr) as Hss.
  destruct (Valid (bp_BlobRef p0)), (Valid (bp_BytesRef p0)); try done.
  - by destruct (getBlob r (bp_BlobRef p0)) as [r' [d|e|p|]].
  - by destruct (getSuperset r (bp_BytesRef p0)) as [r' [d|e|p|]].
Qed.

Lemma readLoop_inv rf fuel r fr want off :
  (forall r rc want, holdsI r -> holdsI (rf r rc want).1) -> holdsI r -> holdsI (readLoop rf fuel r fr want off).1.
Proof using HI.
  intros Hrf. revert r want off. induction fuel as [|fuel IH]; intros r want off Hr; cbn [readLoop]; [done|].
  destruct (want <=? 0); [done|]. pose proof (readerForOffset_inv r fr off Hr) as H1.
  destruct (readerForOffset r fr off) as [r1 [rc|e|p|]]; try done. specialize (Hrf r1 rc want H1).
  destruct (rf r1 rc want) as [r2 [bs|e|p|]]; try done. destruct (decide (bs = [])); [done|].
  specialize (IH r2 (want - glen bs) (i64 (off + glen bs)) Hrf).
  by destruct (readLoop rf fuel r2 fr _ _) as [r3 [[rest e]|e|p|]].
Qed.

Lemma ReadAt_inv depth r fr want off : holdsI r -> holdsI (ReadAt depth r fr want off).1.
Proof using HI.
  revert r fr want off. induction depth as [|depth IH]; intros r fr want off Hr; cbn [ReadAt]; [done|].
  destruct (off <? 0); [done|]. destruct (fr_size fr <=? off); [done|]. apply readLoop_inv; [|done].
  clear -IH. intros r rc want Hr. destruct rc as [|n|d pos limit|sub pos limit]; cbn [readFull]; try done.
  destruct (_ <=? 0); [done|]. specialize (IH r sub (want `min` limit `min` (fr_size sub - pos)) pos Hr).
  by destruct (ReadAt depth r sub _ pos) as [r1 [[bs x]|e|p|]].
Qed.

Lemma readSection_inv depth r fr want off : holdsI r -> holdsI (readSection depth r fr want off).1.
Proof using HI. intros Hr. unfold readSection. destruct (_ <=? _); [done|]. by apply ReadAt_inv. Qed.
End reading.

(** The same of going through the chunks, with what the callback keeps. *)
Section chunks.
Context {S A : Type} `{!Fetcher S} (J : S -> A -> Prop).
Context (HJ : forall s a br, J s a -> J (st_Fetch s br).1 a).
Context (fn : S -> A -> list Ref -> BytesPart -> S * A * res unit).
Context (Hfn : forall s a path p, J s a -> J (fn s a path p).1.1 (fn s a path p).1.2).

Lemma foreachChunk_inv depth r fr path a : J (fr_fetcher r) a ->
  let x := foreachChunk depth fn r fr path a in J (fr_fetcher x.1.1) x.1.2.
Proof using HJ Hfn.
  revert r fr path a. induction depth as [|depth IH]; intros r fr path a Ha; cbn [foreachChunk]; [done|].
  generalize (path ++ [ss_BlobRef (fr_ss fr)]) as path'. intros path'. revert r a Ha.
  induction (ss_Parts (fr_ss fr)) as [|[bp|] parts IHp]; intros r a Ha; try done.
  destruct (Valid (bp_BytesRef bp)).
  - destruct (Valid (bp_BlobRef bp)); [done|].
    pose proof (getSuperset_inv (fun s => J s a) (fun s br => HJ s a br) r (bp_BytesRef bp) Ha) as Hs.
    destruct (getSuperset r (bp_BytesRef bp)) as [r1 [ss|e|p|]]; try done.
    destruct (ssNewFileReader ss) as [sub|e|p|]; try done. specialize (IH r1 sub path' a Hs).
    destruct (foreachChunk depth fn r1 sub path' a) as [[r2 a2] [u|e|p|]]; try done. by apply IHp.
  - specialize (Hfn (fr_fetcher r) a path' bp Ha). destruct (fn (fr_fetcher r) a path' bp) as [[s a1] [u|e|p|]]; try done. by apply IHp.
Qed.
End chunks.

(** * Zips only grow *)

Section zips.
Context `{!Flate}.

Lemma closeLast_out z : zw_out z `prefix_of` zw_out (closeLast z).
Proof. unfold closeLast. destruct (zw_last z); [apply prefix_app_r; done|done]. Qed.

(** The open file is stored as it is. *)
Definition stored (z : Writer) : Prop := exists fw, zw_last z = Some fw /\ fh_Method (fw_fh fw) = Store.

Lemma CreateHeader_out z fh z' : CreateHeader z fh = (z', None) ->
  zw_out z `prefix_of` zw_out z' /\ (fh_Method fh = Store -> stored z').
Proof.
  unfold CreateHeader. destruct (_ || _); [|done]. intros [= <-]. split.
  - etrans; [apply closeLast_out|]. by apply prefix_app_r.
  - intros Hm. eexists. by split.
Qed.

Lemma zipWrite_out z p z' : zipWrite z p = (z', None) -> zw_out z `prefix_of` zw_out z'.
Proof. unfold zipWrite. destruct (zw_last z); [|done]. intros [= <-]. destruct (_ =? _); [by apply prefix_app_r|done]. Qed.

Lemma zipWrite_stored z p z' e : stored z -> zipWrite z p = (z', e) -> e = None /\ zw_out z' = zw_out z ++ p /\ stored z'.
Proof.
  intros (fw & Hl & Hm). unfold zipWrite. rewrite Hl, Hm. intros [= <- <-]. split; [done|]. split; [done|]. by eexists.
Qed.

Lemma zipClose_out z : zw_out z `prefix_of` zipClose z.
Proof. unfold zipClose. etrans; [apply closeLast_out|]. by apply prefix_app_r. Qed.
End zips.

(** * Filling a zip *)

Section filling.
Context {SM LG K : Type} `{StorageLaws SM} `{SubFetcherLaws LG} `{KVSteady K} `{!Flate}.
Abbreviation sto := (storage SM LG K).
Implicit Types s : sto.
Context (V : blobs).

(** A chunk and its bytes. *)
Definition chunkOf (pk : packer) (r : Ref) (d : gostr) : Prop := known V r d /\ default 0 (pk_dataSize pk !! r) = glen d.

(** After the header [hdr], the zip holds the chunks' bytes. *)
Record fillOk (pk : packer) (hdr : gostr) (fl : filling) : Prop := MkFillOk {
  fo_out : zw_out (fl_zw fl) = hdr ++ fl_content fl;
  fo_stored : stored (fl_zw fl);
  fo_data : exists ds, Forall2 (chunkOf pk) (fl_data fl) ds /\ fl_content fl = concat ds;
  fo_bytes : fl_bytes fl = glen (fl_content fl);
  fo_schemas : Forall (fun r => is_Some (pk_schemaBlob pk !! r)) (fl_schemas fl)
}.

Lemma addParents_ok pk hdr parents fl fl' : addParents pk parents fl = Ok fl' -> fillOk pk hdr fl ->
  fillOk pk hdr fl' /\ fl_data fl' = fl_data fl.
Proof.
  revert fl. induction parents as [|p parents IH]; intros fl; cbn [addParents]; [by intros [= <-]|].
  destruct (decide _); [apply IH|]. destruct (pk_schemaBlob pk !! p) as [b|] eqn:E; [|done].
  intros Ha Hok. eapply IH in Ha; [exact Ha|]. destruct Hok. constructor; try done. cbn [fl_schemas].
  apply Forall_app. split; [done|]. by constructor.
Qed.

Lemma addParents_res pk parents fl : match addParents pk parents fl with Ok _ | Err _ => True | _ => False end.
Proof.
  revert fl. induction parents as [|p parents IH]; intros fl; cbn [addParents]; [done|].
  destruct (decide _); [apply IH|]. destruct (pk_schemaBlob pk !! p) as [b|] eqn:E; [apply IH|done].
Qed.

Lemma fillZip_ok pk hdr trunc zipMax chunks s fl s' r :
  bpWf s -> bpView s = V -> fillOk pk hdr fl -> fillZip s pk trunc zipMax chunks fl = (s', r) ->
  steady s s' /\
  match r with
  | Ok fl' => fillOk pk hdr fl' /\ exists k, fl_data fl' = fl_data fl ++ take k chunks
  | Err _ => True
  | _ => False
  end.
Proof.
  revert s fl. induction chunks as [|dr chunks IH]; intros s fl Hwf Hv Hok; cbn [fillZip].
  { intros [= <- <-]. split; [by apply steady_refl|]. split; [done|]. exists 0%nat. by rewrite app_nil_r. }
  destruct (Valid trunc && bool_decide (trunc = dr)).
  { intros [= <- <-]. split; [by apply steady_refl|]. destruct (_ =? _); [done|]. split; [done|]. exists 0%nat. by rewrite app_nil_r. }
  pose proof (addParents_res pk (default [] (pk_schemaParent pk !! dr)) fl) as Hres.
  destruct (addParents pk _ fl) as [fl1|e|p|] eqn:Ea; cbn [sbind]; [|by intros [= <- <-]; split; [apply steady_refl|]|done..].
  eapply addParents_ok in Ea as [Hok1 Hd1]; [|exact Hok].
  destruct (checkFits _ _); cbn [negb].
  2:{ intros [= <- <-]. split; [by apply steady_refl|]. destruct Hok1. split; [constructor; try done; apply Hok|].
    exists 0%nat. by rewrite app_nil_r, <- Hd1. }
  destruct (bpFetch s dr) as [s1 x] eqn:Ef. apply bpFetch_ok in Ef as [Hst Hr]; [|done].
  destruct (steady_wf s s1 Hwf Hst) as [Hwf1 Hv1].
  destruct x as [[d n]|e|p|]; cbn [sbind]; [|by intros [= <- <-]|done..]. destruct Hr as [Hk ->].
  destruct (decide _) as [|Hn]; [by intros [= <- <-]|]. destruct (zipWrite (fl_zw fl1) d) as [zw e] eqn:Ew.
  eapply zipWrite_stored in Ew as (-> & Hout & Hst1); [|apply Hok1].
  destruct (decide _) as [|_]; [by intros [= <- <-]|]. intros Hf. eapply IH in Hf as [Hst2 Hr]; [|done|congruence|].
  - split; [by eapply steady_trans|]. destruct r as [fl'|e|p|]; try done. destruct Hr as [Hok' [k Hk']].
    split; [done|]. exists (Datatypes.S k). cbn [take]. rewrite Hk'. cbn [fl_data]. by rewrite Hd1, <- app_assoc.
  - destruct Hok1 as [Ho1 Hs1 (ds & Hds & Hc) Hb1 Hsch1]. constructor; cbn [fl_zw fl_content fl_data fl_bytes fl_schemas]; try done.
    + by rewrite Hout, Ho1, <- app_assoc.
    + exists (ds ++ [d]). split; [apply Forall2_app; [done|]; constructor; [|constructor]; split; [congruence|]|].
      * destruct (decide (glen d = default 0 (pk_dataSize pk !! dr))) as [He|He]; [done|by destruct Hn].
      * rewrite concat_app, <- Hc. simpl. by rewrite app_nil_r.
    + by rewrite glen_app, Hb1.
Qed.
End filling.

(** * Committing a zip *)

Section committing.
Context {SM LG K : Type} `{StorageLaws SM} `{SubFetcherLaws LG} `{KVSteady K} `{!Flate}.
Abbreviation sto := (storage SM LG K).
Implicit Types s : sto.

Lemma max_setLarge s lg : maxZipBlobSize (setLarge s lg) = maxZipBlobSize s.
Proof. done. Qed.

(** More large blobs change nothing. *)
Lemma large_grown s lg : bpWf s -> st_wf lg -> st_view (sto_large s) ⊆ st_view lg ->
  bpWf (setLarge s lg) /\ bpView (setLarge s lg) = bpView s.
Proof.
  intros Hwf Hlg Hsub.
  assert (forall br d, packed s br d -> packed (setLarge s lg) br d) as Hup.
  { intros br d (l & z & o & Hk & Hz & Hs). exists l, z, o. split; [done|]. split; [by eapply lookup_weaken|done]. }
  assert (forall br d, goodRef br -> packed (setLarge s lg) br d -> packed s br d) as Hdown.
  { intros br d Hg Hp. pose proof Hp as (l & z & o & Hk & Hz & Hs).
    destruct (bw_rows s Hwf (RefString br) _ Hk) as (br' & l' & z' & o' & d' & Hg' & He & Hrow & Hz' & Hs').
    apply goodRef_inj in He as <-; [|done..]. assert (packed s br d') as Hp'.
    { exists l', z', o'. split; [|done]. by rewrite <- Hrow. }
    assert (d' = d) as <-; [|done]. eapply (packed_fun (setLarge s lg)); [done|by apply Hup|done]. }
  assert (bpWf (setLarge s lg)) as Hwf'.
  { constructor; [apply Hwf|done| | |apply Hwf].
    - intros k v Hk. destruct (bw_rows s Hwf k v Hk) as (br & l & z & o & d & ? & ? & ? & ? & ?).
      exists br, l, z, o, d. split_and!; try done. by eapply lookup_weaken.
    - intros br d d' Hp Hd. apply (bw_agree s Hwf br); [|done]. apply Hdown; [|done]. by apply (st_wf_good _ (bw_small s Hwf) br d'). }
  split; [done|]. apply bpView_ext; [done|done|]. intros br d. rewrite !lookup_bpView by done. split; intros [[Hg Hp]|Hs]; auto.
Qed.

(** An index with the same rows. *)
Lemma meta_same s k : bpWf s -> kv_view k = kv_view (sto_meta s) -> bpWf (setMeta s k) /\ bpView (setMeta s k) = bpView s.
Proof.
  intros Hwf Hk. assert (bpWf (setMeta s k)) as Hwf'.
  { constructor; [apply Hwf..| | |apply Hwf].
    - intros k' v. cbn [sto_meta setMeta sto_large]. rewrite Hk. apply Hwf.
    - intros br d d' Hp. apply (bw_agree s Hwf). unfold packed in *. cbn [sto_meta setMeta sto_large] in Hp. by rewrite Hk in Hp. }
  split; [done|]. unfold bpView, packedMap. cbn [sto_meta setMeta sto_large sto_small]. by rewrite Hk.
Qed.

(** Rows that are not of blobs. *)
Lemma meta_other s k : bpWf s -> (forall key, blobMetaPrefix `prefix_of` key -> kv_view k !! key = kv_view (sto_meta s) !! key) ->
  bpWf (setMeta s k) /\ bpView (setMeta s k) = bpView s.
Proof.
  intros Hwf Hk. assert (forall br d, packed (setMeta s k) br d <-> packed s br d) as Hp.
  { intros br d. unfold packed. cbn [sto_meta setMeta sto_large]. by rewrite Hk by by apply prefix_app_r. }
  assert (bpWf (setMeta s k)) as Hwf'.
  { constructor; [apply Hwf..| | |apply Hwf].
    - intros k' v. cbn [sto_meta setMeta sto_large]. rewrite Hk by by apply prefix_app_r. apply Hwf.
    - intros br d d' Hpk. apply (bw_agree s Hwf). by apply Hp. }
  split; [done|]. apply bpView_ext; [done|done|]. intros br d. rewrite !lookup_bpView by done. by rewrite Hp.
Qed.

(** Small blobs that are packed too can go. *)
Lemma small_removed s brs sm r : bpWf s -> (forall br, br ∈ brs -> goodRef br -> exists d, packed s br d) ->
  st_RemoveBlobs (sto_small s) brs = (sm, r) -> bpWf (setSmall s sm) /\ bpView (setSmall s sm) = bpView s.
Proof.
  intros Hwf Hbrs Hrm. apply st_RemoveBlobs_law in Hrm as [Hsm Hr]; [|apply Hwf].
  assert (exists brs', brs' ⊆ brs /\ st_view sm = removeSpec (st_view (sto_small s)) brs') as (brs' & Hsub & Hv).
  { destruct r as [u|e|p|]; [by exists brs|done..]. }
  assert (bpWf (setSmall s sm)) as Hwf'.
  { constructor; [done|apply Hwf..| |apply Hwf]. intros br d d' Hp. cbn [sto_small setSmall]. rewrite Hv, lookup_removeSpec.
    destruct (decide _); [done|]. by apply (bw_agree s Hwf). }
  split; [done|]. apply bpView_ext; [done|done|]. intros br d. rewrite !lookup_bpView by done. cbn [sto_small setSmall].
  rewrite Hv, lookup_removeSpec. split; intros [Hp|Hs]; [by left| |by left|].
  - destruct (decide (br ∈ brs')) as [Hin|]; [|by right]. left.
    assert (goodRef br) as Hg by by apply (st_wf_good _ (bw_small s Hwf) br d).
    split; [done|]. destruct (Hbrs br (Hsub _ Hin) Hg) as [d0 Hp]. by rewrite (bw_agree s Hwf br d0 d Hp Hs).
  - right. by destruct (decide _).
Qed.

(** ** The rows of a zip *)

Lemma prefix_of_fmap {A B} (f : A -> B) l (l' : list B) : l' `prefix_of` f <$> l -> exists l0, l' = f <$> l0 /\ l0 `prefix_of` l.
Proof.
  intros [k Hk]. apply fmap_app_inv in Hk as (l0 & l1 & -> & -> & ->). exists l0. split; [done|by exists l1].
Qed.


Definition placedIn (V : blobs) (z : gostr) (zb : BlobAndPos) : Prop :=
  exists d, known V (bap_Ref zb) d /\ bap_Size zb = glen d /\ sits z (bap_Offset zb) d.

Definition zbKey (zb : BlobAndPos) : gostr := blobKey (bap_Ref zb).

Lemma applyRows zipRef blobs m : let m' := applyMutations m ((fun zb => Mutation (zbKey zb) (metaRow zipRef zb) false) <$> blobs) in
  forall key, (exists zb, zb ∈ blobs /\ key = zbKey zb /\ m' !! key = Some (metaRow zipRef zb)) \/
    ((forall zb, zb ∈ blobs -> key <> zbKey zb) /\ m' !! key = m !! key).
Proof using.
  revert m. induction blobs as [|zb blobs IH]; intros m m' key; [right; split; [by intros zb Hin%elem_of_nil|done]|].
  unfold m'. cbn [fmap list_fmap]. unfold applyMutations. cbn [foldl]. destruct (IH (applyMutation m (Mutation (zbKey zb) (metaRow zipRef zb) false)) key)
    as [(zb' & Hin & Hk & He)|[Hn He]].
  - left. exists zb'. split; [by apply list_elem_of_further|]. done.
  - destruct (decide (key = zbKey zb)) as [->|Hne].
    + left. exists zb. split; [by apply list_elem_of_here|]. split; [done|]. unfold applyMutations in He. rewrite He.
      unfold applyMutation. cbn [m_delete m_key m_value]. by rewrite lookup_insert_eq.
    + right. split; [intros zb' [->|Hin]%elem_of_cons; [done|by apply Hn]|].
      unfold applyMutations in He. rewrite He. unfold applyMutation. cbn [m_delete m_key m_value]. by rewrite lookup_insert_ne.
Qed.
Lemma rows_added s k zipRef zip blobs m0 :
  bpWf s -> st_view (sto_large s) !! zipRef = Some zip -> Forall (placedIn (bpView s) zip) blobs ->
  (forall key, blobMetaPrefix `prefix_of` key -> m0 !! key = kv_view (sto_meta s) !! key) ->
  kv_view k = applyMutations m0 ((fun zb => Mutation (zbKey zb) (metaRow zipRef zb) false) <$> blobs) ->
  bpWf (setMeta s k) /\ bpView (setMeta s k) = bpView s /\
  forall br, br ∈ (bap_Ref <$> blobs) -> exists d, packed (setMeta s k) br d.
Proof.
  intros Hwf Hz Hpl Hm0 Hk. rewrite Forall_forall in Hpl.
  assert (forall zb, zb ∈ blobs -> kv_view k !! zbKey zb = Some (metaRow zipRef zb) -> forall br, blobKey br = zbKey zb ->
    exists d, known (bpView s) (bap_Ref zb) d /\ packed (setMeta s k) br d) as Hnew.
  { intros zb Hin Hrow br He. destruct (Hpl zb Hin) as (d & Hkn & Hsz & Hsit). exists d. split; [done|].
    exists zipRef, zip, (bap_Offset zb). cbn [sto_meta sto_large setMeta]. rewrite He, Hrow. split; [|done].
    unfold metaRow. cbn [bap_Size bap_Offset]. by rewrite Hsz. }
  assert (forall br d, goodRef br -> packed (setMeta s k) br d -> bpView s !! br = Some d) as P1.
  { intros br d Hg Hp. pose proof Hp as (l & z & o & Hrow & Hl & Hs). cbn [sto_meta sto_large setMeta] in Hrow, Hl.
    destruct (applyRows zipRef blobs m0 (blobKey br)) as [(zb & Hin & He & Hr)|[_ Hsame]].
    - rewrite He, <- Hk in Hr. destruct (Hnew zb Hin Hr br He) as (d0 & (br' & Hg' & Hs' & Hv) & Hp0).
      unfold zbKey, blobKey in He. apply app_inv_head in He. rewrite <- He in Hs'. apply goodRef_inj in Hs' as ->; [|done..].
      by rewrite (packed_fun (setMeta s k) br d d0 (bw_large s Hwf) Hp Hp0).
    - rewrite <- Hk, Hrow, Hm0 in Hsame by by apply prefix_app_r. apply lookup_bpView; [done|]. left. split; [done|]. by exists l, z, o. }
  assert (forall br d, goodRef br -> packed s br d -> packed (setMeta s k) br d) as P2.
  { intros br d Hg Hp. pose proof Hp as (l & z & o & Hrow & Hl & Hs).
    destruct (applyRows zipRef blobs m0 (blobKey br)) as [(zb & Hin & He & Hr)|[_ Hsame]].
    - rewrite He, <- Hk in Hr. destruct (Hnew zb Hin Hr br He) as (d0 & _ & Hp0). pose proof (P1 br d0 Hg Hp0) as Hv.
      assert (bpView s !! br = Some d) as Hv' by (apply lookup_bpView; [done|by left]). by replace d with d0 by congruence.
    - rewrite <- Hk, Hm0, Hrow in Hsame by by apply prefix_app_r. by exists l, z, o. }
  assert (bpWf (setMeta s k)) as Hwf'.
  { constructor; [apply Hwf..| | |apply Hwf].
    - intros k0 v Hrow. cbn [sto_meta setMeta sto_large] in *. rewrite Hk in Hrow.
      destruct (applyRows zipRef blobs m0 (blobMetaPrefix ++ k0)) as [(zb & Hin & He & Hr)|[_ Hsame]].
      + apply app_inv_head in He. subst k0. destruct (Hpl zb Hin) as (d & (br & Hg & Hs & _) & Hsz & Hsit).
        exists br, zipRef, zip, (bap_Offset zb), d. split_and!; try done. rewrite Hr in Hrow. injection Hrow as <-.
        unfold metaRow. cbn [bap_Size bap_Offset]. by rewrite Hsz.
      + rewrite Hsame, Hm0 in Hrow by by apply prefix_app_r. by apply (bw_rows s Hwf).
    - intros br d d' Hp Hd. cbn [sto_small setMeta] in Hd. assert (goodRef br) as Hg by by apply (st_wf_good _ (bw_small s Hwf) br d').
      pose proof (P1 br d Hg Hp) as Hv. assert (bpView s !! br = Some d') by (apply lookup_bpView; [done|by right]). congruence. }
  split; [done|]. split.
  - apply bpView_ext; [done|done|]. intros br d. split.
    + intros Hv. apply lookup_bpView in Hv as [[Hg Hp]|Hs]; [|apply lookup_bpView; [done|by right]|done].
      apply lookup_bpView; [done|]. left. auto.
    + intros Hv. apply lookup_bpView in Hv as [[Hg Hp]|Hs]; [by apply P1|apply lookup_bpView; [done|by right]|done].
  - intros br (zb & -> & Hin)%list_elem_of_fmap.
    destruct (applyRows zipRef blobs m0 (zbKey zb)) as [(zb' & Hin' & He & Hr)|[Hn _]]; [|by destruct (Hn zb Hin)].
    rewrite He, <- Hk in Hr. destruct (Hnew zb' Hin' Hr (bap_Ref zb) He) as (d & _ & Hp). by exists d.
Qed.

(** ** Where the blobs of a zip are *)

Definition schemasKnown (V : blobs) (pk : packer) : Prop := forall r b, pk_schemaBlob pk !! r = Some b -> known V r b.

Lemma dataPositions_ok V pk refs ds : Forall2 (chunkOf V pk) refs ds -> forall a rest,
  Forall (placedIn V (a ++ concat ds ++ rest)) (dataPositions pk (glen a) refs) /\ bap_Ref <$> dataPositions pk (glen a) refs = refs.
Proof.
  induction 1 as [|r d refs ds [Hk Hs] _ IH]; intros a rest; [split; [constructor|done]|].
  cbn [dataPositions concat]. rewrite Hs. rewrite <- !app_assoc. destruct (IH (a ++ d) rest) as [IH1 IH2].
  rewrite glen_app, <- !app_assoc in *. split; [|cbn [fmap list_fmap bap_Ref]; by f_equal].
  constructor; [|done]. exists d. split; [done|]. split; [done|]. by exists a, (concat ds ++ rest).
Qed.

Lemma placedIn_prefix V z z' zb : z `prefix_of` z' -> placedIn V z zb -> placedIn V z' zb.
Proof. intros Hp (d & ? & ? & ?). exists d. split_and!; try done. by eapply sits_prefix. Qed.

Lemma addSchemas_ok V pk refs zw zw' l : schemasKnown V pk -> addSchemas pk zw refs = Ok (zw', l) ->
  zw_out zw `prefix_of` zw_out zw' /\ Forall (placedIn V (zw_out zw')) l /\ bap_Ref <$> l = refs.
Proof.
  intros Hk. revert zw zw' l. induction refs as [|br refs IH]; intros zw zw' l; cbn [addSchemas]; [by intros [= <- <-]|].
  destruct (CreateHeader zw _) as [zw1 [e|]] eqn:Ec; [done|]. apply CreateHeader_out in Ec as [Hp1 Hst]. specialize (Hst eq_refl).
  destruct (pk_schemaBlob pk !! br) as [b|] eqn:Eb; [|done]. destruct (zipWrite zw1 b) as [zw2 e] eqn:Ew.
  apply zipWrite_stored in Ew as (-> & Hout & _); [|done]. intros Hl. apply rbind_Ok in Hl as ([zw3 l'] & Hrec & [= <- <-]).
  destruct (IH _ _ _ Hrec) as (Hp3 & Hpl & Hrefs). assert (zw_out zw1 `prefix_of` zw_out zw2) as Hp2 by (rewrite Hout; by apply prefix_app_r).
  split; [by do 2 (etrans; [done|])|]. split; [|cbn [fmap list_fmap bap_Ref]; by f_equal]. constructor; [|done].
  exists b. split; [by apply Hk|]. split; [done|]. cbn [bap_Offset]. eapply sits_prefix; [exact Hp3|].
  rewrite Hout. exists (zw_out zw1), []. by rewrite app_nil_r.
Qed.

Lemma addSchemas_res pk zw refs : match addSchemas pk zw refs with Ok _ | Err _ => True | _ => False end.
Proof.
  revert zw. induction refs as [|br refs IH]; intros zw; cbn [addSchemas]; [done|].
  destruct (CreateHeader zw _) as [zw1 [e|]]; [done|]. destruct (pk_schemaBlob pk !! br); [|done].
  destruct (zipWrite zw1 _) as [zw2 [e|]]; [done|]. specialize (IH zw2). by destruct (addSchemas pk zw2 refs) as [[? ?]| | |].
Qed.

(** A finished zip holds what it was filled with, in the places it says. *)
Lemma finishZip_ok V pk hdr fl : fillOk V pk hdr fl -> schemasKnown V pk ->
  match finishZip pk (glen hdr) fl with
  | Ok (zip, blobs) => Forall (placedIn V zip) blobs /\ bap_Ref <$> blobs = fl_data fl ++ fl_schemas fl /\
      (hdr ++ fl_content fl) `prefix_of` zip
  | Err _ => True
  | _ => False
  end.
Proof.
  intros Hok Hk. unfold finishZip. pose proof (addSchemas_res pk (fl_zw fl) (fl_schemas fl)) as Hres.
  destruct (addSchemas pk (fl_zw fl) (fl_schemas fl)) as [[zw l]|e|p|] eqn:Ea; try done. cbn [rbind].
  destruct (addSchemas_ok V _ _ _ _ _ Hk Ea) as (Hp & Hpl & Hrefs).
  unfold Create. destruct (CreateHeader zw _) as [zw1 [e|]] eqn:Ec; [done|]. apply CreateHeader_out in Ec as [Hp1 _].
  destruct (zipWrite zw1 _) as [zw2 [e|]] eqn:Ew; [done|]. apply zipWrite_out in Ew.
  pose proof (zipClose_out zw2) as Hp3. set (zip := zipClose zw2) in *. clearbody zip.
  assert (zw_out zw `prefix_of` zip) as Hz by (do 2 (etrans; [done|]); done).
  destruct (fo_data _ _ _ _ Hok) as (ds & Hds & Hc).
  assert ((hdr ++ fl_content fl) `prefix_of` zip) as [rest Hrest] by (rewrite <- (fo_out _ _ _ _ Hok); by etrans).
  split; [|split].
  - apply Forall_app. split.
    + rewrite Hrest, Hc, <- app_assoc. by apply dataPositions_ok.
    + eapply Forall_impl; [exact Hpl|]. intros zb. by apply placedIn_prefix.
  - rewrite fmap_app, Hrefs. f_equal. by apply (dataPositions_ok V pk (fl_data fl) ds Hds hdr []).
  - by exists rest.
Qed.

(** ** One zip *)

Context (firstErr : list error -> error) (hub : memHub).

(** The large storage has gained no other blob than [zip]. *)
Definition gained (s s' : sto) (zips : list gostr) : Prop := forall q z, st_view (sto_large s') !! q = Some z ->
  st_view (sto_large s) !! q = Some z \/ (q = refOf z /\ z ∈ zips).

Lemma whole_not_blob key key' : blobMetaPrefix `prefix_of` key -> wholeMetaPrefix ++ key' <> key.
Proof using. intros [k ->]. done. Qed.

Lemma commitZip_ok V s pk dataStart fl zip blobs s' pk' r :
  bpWf s -> bpView s = V -> Forall (placedIn V zip) blobs -> bap_Ref <$> blobs = fl_data fl ++ fl_schemas fl ->
  glen zip <= MaxBlobSize ->
  (zip ∈ drop (length (pk_zips pk)) (wz_zip <$> pk_zips pk') -> forall z0, st_view (sto_large s) !! refOf zip = Some z0 -> z0 = zip) ->
  commitZip firstErr hub s pk dataStart fl zip blobs = (s', pk', r) ->
  bpWf s' /\ bpView s' = V /\ maxZipBlobSize s' = maxZipBlobSize s /\ gained s s' [zip] /\
  (r = Ok tt -> pk' = pkConsume (pkAddZip pk (MkZip zip (fl_data fl)) (fl_bytes fl)) (length (fl_data fl)) /\
    st_view (sto_large s') !! refOf zip = Some zip /\ st_view (sto_large s) ⊆ st_view (sto_large s') /\
    kv_view (sto_meta s') = applyMutations (kv_view (sto_meta s)) (zipBatch pk (refOf zip) dataStart (fl_bytes fl) blobs)) /\
  match r with Ok _ => True | Err _ => pk' = pk \/ pk' = pkAddZip pk (MkZip zip (fl_data fl)) (fl_bytes fl) | _ => False end.
Proof.
  intros Hwf Hv Hpl Hrefs Hmax Hcl. unfold commitZip.
  pose proof (ReceiveNoHash_ok firstErr (sto_large s) hub (refOf zip) zip (bw_large s Hwf) (refOf_good zip) Hmax) as Hrcv.
  destruct (ReceiveNoHash firstErr (sto_large s) hub (refOf zip) (zip, Ok tt)) as [[lg sends] x] eqn:Er.
  destruct Hrcv as (Hlg & Hlv & Hx).
  assert (st_view (sto_large s) ⊆ st_view lg) as Hsub by (destruct Hlv as [->| ->]; [done|apply map_union_subseteq_l]).
  destruct (large_grown s lg Hwf Hlg Hsub) as [Hwf1 Hv1].
  assert (gained s (setLarge s lg) [zip]) as Hg1.
  { intros q z. cbn [sto_large setLarge]. destruct Hlv as [->| ->]; [by left|]. rewrite lookup_union_Some_raw.
    intros [?|[_ [<- <-]%lookup_singleton_Some]]; [by left|]. right. split; [done|]. by apply list_elem_of_singleton. }
  destruct x as [sb|e|p|]; [|intros [= <- <- <-]; split_and!; try done; [congruence|by left]|done..].
  destruct Hx as [_ Hlv']. destruct (kv_commit _ (sto_meta (setLarge s lg))) as [err k] eqn:Ek. intros Hcm.
  set (head := Mutation (wholeKey (pk_wholeRef pk) ++ gs ":" ++ itoa (glen (pk_zips pk)))
       (RefString (refOf zip) ++ gs " " ++ itoa dataStart ++ gs " " ++ itoa (pk_wholeBytesWritten pk) ++ gs " " ++ itoa (fl_bytes fl)) false).
  assert (forall key, blobMetaPrefix `prefix_of` key -> applyMutations (kv_view (sto_meta s)) [head] !! key = kv_view (sto_meta s) !! key) as Hhead.
  { intros key Hkey. unfold applyMutations, head. cbn [foldl applyMutation m_delete m_key m_value]. unfold wholeKey. rewrite <- app_assoc.
    rewrite lookup_insert_ne; [done|]. by apply whole_not_blob. }
  assert (st_view lg !! refOf zip = Some zip) as Hzip.
  { assert (is_Some (st_view lg !! refOf zip)) as [z0 Hz0].
    { rewrite Hlv'. destruct (st_view (sto_large s) !! refOf zip) as [z0|] eqn:E; [exists z0; by rewrite (lookup_union_Some_l _ _ _ _ E)|].
      exists zip. rewrite lookup_union_r by done. apply lookup_singleton_eq. }
    rewrite Hz0. destruct (Hg1 _ _ Hz0) as [Ho|[_ ->%list_elem_of_singleton]]; [|done]. f_equal. apply Hcl; [|done].
    assert (pk_zips pk ++ [MkZip zip (fl_data fl)] = pk_zips pk') as <- by by destruct err; injection Hcm as <- <- <-.
    rewrite fmap_app, drop_app_length' by by rewrite length_fmap. by apply list_elem_of_singleton. }
  assert (forall blobs', blobs' `prefix_of` blobs -> kv_view k = applyMutations (applyMutations (kv_view (sto_meta s)) [head])
      ((fun zb => Mutation (zbKey zb) (metaRow (refOf zip) zb) false) <$> blobs') ->
    bpWf (setMeta (setLarge s lg) k) /\ bpView (setMeta (setLarge s lg) k) = V /\
    forall br, br ∈ (bap_Ref <$> blobs') -> exists d, packed (setMeta (setLarge s lg) k) br d) as Hrows.
  { intros blobs' [rest ->] Hkv. apply Forall_app in Hpl as [Hpl _].
    destruct (rows_added (setLarge s lg) k (refOf zip) zip blobs' _ Hwf1 Hzip ltac:(by rewrite Hv1, Hv) Hhead Hkv) as (? & Hv2 & ?).
    split_and!; [done|congruence|done]. }
  destruct err as [e|].
  { injection Hcm as <- <- <-. apply kv_commit_err in Ek as ([|mu b'] & Hpre & Ek).
    { destruct (meta_same (setLarge s lg) k Hwf1 Ek) as [Hwf2 Hv2]. split_and!; try done; [congruence|by right]. }
    pose proof (prefix_cons_inv_1 _ _ _ _ Hpre) as ->. apply prefix_cons_inv_2, prefix_of_fmap in Hpre as (blobs' & -> & Hpre).
    destruct (Hrows blobs' Hpre Ek) as (Hwf2 & Hv2 & _). split_and!; try done. by right. }
  apply kv_commit_ok in Ek. injection Hcm as <- <- <-. destruct (Hrows blobs) as (Hwf2 & Hv2' & Hpk); [done|by rewrite Ek|].
  set (s2 := setMeta (setLarge s lg) k) in *.
  assert (Hend : forall s3, bpWf s3 -> bpView s3 = V -> sto_large s3 = lg -> sto_meta s3 = k -> maxZipBlobSize s3 = maxZipBlobSize s ->
    bpWf s3 /\ bpView s3 = V /\ maxZipBlobSize s3 = maxZipBlobSize s /\ gained s s3 [zip] /\
    (Ok tt = Ok tt -> pkConsume (pkAddZip pk (MkZip zip (fl_data fl)) (fl_bytes fl)) (length (fl_data fl)) =
        pkConsume (pkAddZip pk (MkZip zip (fl_data fl)) (fl_bytes fl)) (length (fl_data fl)) /\
      st_view (sto_large s3) !! refOf zip = Some zip /\ st_view (sto_large s) ⊆ st_view (sto_large s3) /\
      kv_view (sto_meta s3) = applyMutations (kv_view (sto_meta s)) (zipBatch pk (refOf zip) dataStart (fl_bytes fl) blobs)) /\ True).
  { intros s3 Hs1 Hs2 Hs3 Hs4 Hs5. split_and!; try done. - unfold gained. rewrite Hs3. exact Hg1. - intros _. by rewrite Hs3, Hs4, Ek. }
  change (sto_skipDelete s2) with (sto_skipDelete s). destruct (sto_skipDelete s).
  { by apply Hend. }
  destruct (st_RemoveBlobs (sto_small s) (fl_data fl ++ fl_schemas fl)) as [sm rr] eqn:Erm.
  destruct (small_removed s2 (fl_data fl ++ fl_schemas fl) sm rr Hwf2) as [Hwf3 Hv3]; [|exact Erm|].
  { intros br Hin _. apply Hpk. by rewrite Hrefs. }
  cbn [fst]. apply Hend; try done. by rewrite Hv3.
Qed.

(** What a call of [writeAZip] may change of the packer. *)
Definition pkAfter (pk pk' : packer) : Prop :=
  pk_schemaBlob pk' = pk_schemaBlob pk /\ pk_dataSize pk' = pk_dataSize pk /\ pk_wholeRef pk' = pk_wholeRef pk /\ pk_wholeSize pk' = pk_wholeSize pk /\
  pk_fr pk' = pk_fr pk /\ pk_zips pk `prefix_of` pk_zips pk'.

Lemma pkAfter_refl pk : pkAfter pk pk.
Proof. done. Qed.

Lemma pkAfter_trans pk1 pk2 pk3 : pkAfter pk1 pk2 -> pkAfter pk2 pk3 -> pkAfter pk1 pk3.
Proof. intros (?&?&?&?&?&?) (?&?&?&?&?&?). split_and!; try congruence. by etrans. Qed.

Lemma pkAfter_add pk z n k : pkAfter pk (pkConsume (pkAddZip pk z n) k).
Proof. split_and!; try done. by exists [z]. Qed.

Lemma fileHeader_stored pk zw : CreateHeader NewWriter (fileHeader pk) = (zw, None) -> stored zw.
Proof. intros Hc. apply CreateHeader_out in Hc as [_ Hs]. apply Hs. unfold fileHeader, SetMode, fhSetModTime. by destruct (timeToMsDosTime _). Qed.

(** A zip that is written: which chunks it holds and where its data starts. *)
Definition zipWritten (V : blobs) (s s' : sto) (pk pk' : packer) : Prop :=
  exists hdr fl zip blobs k, fillOk V pk hdr fl /\ fl_data fl = take k (pk_chunksRemain pk) /\
    (hdr ++ fl_content fl) `prefix_of` zip /\ Forall (placedIn V zip) blobs /\ bap_Ref <$> blobs = fl_data fl ++ fl_schemas fl /\
    pk' = pkConsume (pkAddZip pk (MkZip zip (fl_data fl)) (fl_bytes fl)) (length (fl_data fl)) /\
    st_view (sto_large s') !! refOf zip = Some zip /\ st_view (sto_large s) ⊆ st_view (sto_large s') /\
    kv_view (sto_meta s') = applyMutations (kv_view (sto_meta s)) (zipBatch pk (refOf zip) (glen hdr) (fl_bytes fl) blobs).

Definition noClash (s : sto) (pk pk' : packer) : Prop :=
  forall z, z ∈ drop (length (pk_zips pk)) (wz_zip <$> pk_zips pk') -> forall z0, st_view (sto_large s) !! refOf z = Some z0 -> z0 = z.

Lemma writeAZip_ok V s pk trunc s' pk' r :
  bpWf s -> bpView s = V -> schemasKnown V pk -> noClash s pk pk' ->
  writeAZip firstErr hub s pk trunc = (s', pk', r) ->
  bpWf s' /\ bpView s' = V /\ maxZipBlobSize s' = maxZipBlobSize s /\ pkAfter pk pk' /\
  match r with
  | Ok None => zipWritten V s s' pk pk' /\ gained s s' (drop (length (pk_zips pk)) (wz_zip <$> pk_zips pk'))
  | Ok (Some _) => pk' = pk /\ steady s s'
  | Err _ => True
  | _ => False
  end.
Proof.
  intros Hwf Hv Hsk Hcl. unfold writeAZip. cbv zeta. destruct (bool_decide _ || bool_decide _); [by intros [= <- <- <-]|]. destruct (CreateHeader NewWriter (fileHeader pk)) as [zw [e|]] eqn:Ec.
  { intros [= <- <- <-]. done. }
  apply fileHeader_stored in Ec. set (fl0 := MkFill zw 0 [] 0 ∅ [] []).
  assert (fillOk V pk (zw_out zw) fl0) as Hfl0.
  { constructor; [by rewrite app_nil_r|done| |done|constructor]. by exists []. }
  destruct (fillZip s pk trunc (maxZipBlobSize s) (pk_chunksRemain pk) fl0) as [s1 x] eqn:Ef.
  destruct (fillZip_ok V pk (zw_out zw) _ _ _ _ _ _ _ Hwf Hv Hfl0 Ef) as [Hst Hx].
  destruct (steady_wf s s1 Hwf Hst) as [Hwf1 Hv1].
  destruct x as [fl|e|p|]; [|intros [= <- <- <-]; split_and!; try done; [congruence|apply Hst]|done..].
  destruct Hx as [Hfl [k Hk]]. pose proof (finishZip_ok V pk (zw_out zw) fl Hfl Hsk) as Hfin.
  destruct (finishZip pk (glen (zw_out zw)) fl) as [[zip blobs]|e|p|]; [|intros [= <- <- <-]; split_and!; try done; [congruence|apply Hst]|done..].
  destruct Hfin as (Hpl & Hrefs & Hpre). destruct (Z.ltb_spec (maxZipBlobSize s) (glen zip)) as [|Hle].
  { intros [= <- <- <-].
    split; [done|]. split; [congruence|]. split; [apply Hst|]. split; [done|]. by destruct (truncateAfter _ _ _). }
  destruct (commitZip firstErr hub s1 pk (glen (zw_out zw)) fl zip blobs) as [[s2 pk2] r2] eqn:Ecm. intros [= <- <- <-].
  pose proof (bw_max s Hwf) as Hmax.
  destruct (commitZip_ok V s1 pk (glen (zw_out zw)) fl zip blobs s2 pk2 r2) as (Hwf2 & Hv2 & Hmx & Hg & Hok & Hr);
    [done|congruence|done|done|lia| |done|].
  { intros Hin. rewrite (sd_large s s1 Hst). by apply Hcl. }
  split; [done|]. split; [done|]. split; [by rewrite Hmx; apply Hst|].
  destruct r2 as [[]|e|p|]; cbn [rbind]; [|by split; [destruct Hr as [->| ->]; [done|]; split_and!; try done; by eexists [_]|]|done..].
  destruct (Hok eq_refl) as (-> & Hz & Hsub & Hm). split; [apply pkAfter_add|]. split.
  - exists (zw_out zw), fl, zip, blobs, k. rewrite (sd_large s s1 Hst) in Hsub. split_and!; try done. by rewrite Hm, (sd_meta s s1 Hst).
  - cbn [pk_zips pkConsume pkAddZip]. rewrite fmap_app, drop_app_length' by by rewrite length_fmap.
    intros q z Hq. rewrite <- (sd_large s s1 Hst). by apply Hg.
Qed.

(** ** All zips *)

Lemma commitZip_zips s pk dataStart fl zip blobs : pk_zips pk `prefix_of` pk_zips (commitZip firstErr hub s pk dataStart fl zip blobs).1.2.
Proof.
  unfold commitZip. destruct (ReceiveNoHash _ _ _ _ _) as [[lg sends] [sb|e|p|]]; try done.
  destruct (kv_commit _ _) as [[e|] k]; cbn [fst snd pk_zips pkConsume pkAddZip]; by apply prefix_app_r.
Qed.

Lemma writeAZip_zips s pk trunc : pk_zips pk `prefix_of` pk_zips (writeAZip firstErr hub s pk trunc).1.2.
Proof.
  unfold writeAZip. cbv zeta. destruct (bool_decide _ || bool_decide _); [done|]. destruct (CreateHeader _ _) as [zw [e|]]; [done|]. destruct (fillZip _ _ _ _ _ _) as [s1 [fl|e|p|]]; try done.
  destruct (finishZip _ _ _) as [[zip blobs]|e|p|]; try done. destruct (_ <? _); [done|].
  pose proof (commitZip_zips s1 pk (glen (zw_out zw)) fl zip blobs). by destruct (commitZip _ _ _ _ _ _ _ _) as [[s2 pk2] r2].
Qed.

Lemma makeZips_zips fuel s pk trunc : pk_zips pk `prefix_of` pk_zips (makeZips firstErr hub fuel s pk trunc).1.2.
Proof.
  revert s pk trunc. induction fuel as [|fuel IH]; intros s pk trunc; cbn [makeZips]; [done|].
  destruct (pk_chunksRemain pk); [done|]. pose proof (writeAZip_zips s pk trunc) as Hw.
  destruct (writeAZip _ _ s pk trunc) as [[s1 pk1] [[q|]|e|p|]]; try done; (etrans; [exact Hw|apply IH]).
Qed.

Lemma noClash_of s0 s pk pk' us : noCollision (st_view (sto_large s0)) us -> wz_zip <$> pk_zips pk' ⊆ us ->
  pk_zips pk `prefix_of` pk_zips pk' -> gained s0 s (wz_zip <$> pk_zips pk) -> noClash s pk pk'.
Proof.
  intros [Hc1 Hc2] Hus Hpre Hg z Hz z0 Hz0. assert (z ∈ us) as Hzu by (apply Hus; by eapply subseteq_drop).
  destruct (Hg _ _ Hz0) as [Ho|[He Hin]]; [by eapply Hc2|]. symmetry. apply Hc1; [done| |done].
  apply Hus. destruct Hpre as [k ->]. rewrite fmap_app. apply elem_of_app. by left.
Qed.

Lemma gained_trans s0 s s' pk pk' : pk_zips pk `prefix_of` pk_zips pk' -> gained s0 s (wz_zip <$> pk_zips pk) ->
  gained s s' (drop (length (pk_zips pk)) (wz_zip <$> pk_zips pk')) -> gained s0 s' (wz_zip <$> pk_zips pk').
Proof.
  intros [k Hk] Hg Hg' q z Hz. destruct (Hg' _ _ Hz) as [Hs|[He Hin]].
  - destruct (Hg _ _ Hs) as [?|[? Hin]]; [by left|right]. split; [done|]. rewrite Hk, fmap_app. apply elem_of_app. by left.
  - right. split; [done|]. by eapply subseteq_drop.
Qed.

Lemma makeZips_ok V s0 us (P : sto -> packer -> Prop) fuel s pk trunc s' pk' r :
  noCollision (st_view (sto_large s0)) us -> wz_zip <$> pk_zips pk' ⊆ us ->
  bpWf s -> bpView s = V -> schemasKnown V pk -> gained s0 s (wz_zip <$> pk_zips pk) ->
  (forall s s' pk, steady s s' -> P s pk -> P s' pk) ->
  (forall s s' pk pk', zipWritten V s s' pk pk' -> P s pk -> P s' pk') -> P s pk ->
  makeZips firstErr hub fuel s pk trunc = (s', pk', r) ->
  bpWf s' /\ bpView s' = V /\ maxZipBlobSize s' = maxZipBlobSize s /\ pkAfter pk pk' /\ r <> Blocked /\
  (forall p, r = Panic p -> p = "out of fuel") /\ (r = Ok tt -> P s' pk' /\ pk_chunksRemain pk' = []).
Proof.
  intros Hnc Hus Hwf Hv Hsk Hg HPs HPz. revert s pk trunc Hus Hwf Hv Hsk Hg.
  induction fuel as [|fuel IH]; intros s pk trunc Hus Hwf Hv Hsk Hg HP; cbn [makeZips].
  { intros [= <- <- <-]. split_and!; try done. by intros p [= <-]. }
  destruct (pk_chunksRemain pk) eqn:Ech; [by intros [= <- <- <-]|].
  destruct (writeAZip firstErr hub s pk trunc) as [[s1 pk1] x] eqn:Ew. intros Hmk.
  pose proof (writeAZip_zips s pk trunc) as Hpre. rewrite Ew in Hpre. cbn [fst snd] in Hpre.
  assert (wz_zip <$> pk_zips pk1 ⊆ us) as Hus1.
  { etrans; [|exact Hus]. destruct x as [[q|]|e|p|]; [..|by injection Hmk as <- <- <-|by injection Hmk as <- <- <-|by injection Hmk as <- <- <-].
    - pose proof (makeZips_zips fuel s1 pk1 q) as [k Hk]. rewrite Hmk in Hk. cbn [fst snd] in Hk. rewrite Hk, fmap_app. intros a Ha. apply elem_of_app. by left.
    - pose proof (makeZips_zips fuel s1 pk1 zeroRef) as [k Hk]. rewrite Hmk in Hk. cbn [fst snd] in Hk. rewrite Hk, fmap_app. intros a Ha. apply elem_of_app. by left. }
  destruct (writeAZip_ok V s pk trunc s1 pk1 x Hwf Hv Hsk) as (Hwf1 & Hv1 & Hm1 & Hpk1 & Hx);
    [by eapply noClash_of|done|].
  destruct x as [[q|]|e|p|]; [| |injection Hmk as <- <- <-; by split_and!|done..].
  - destruct Hx as [-> Hst]. destruct (IH s1 pk q) as (? & ? & ? & ? & ? & ? & ?); try done.
    { intros a z Hz. rewrite (sd_large s s1 Hst) in Hz. by apply Hg. }
    { by eapply HPs. }
    split_and!; try done. congruence.
  - destruct Hx as [Hzw Hg1]. destruct (IH s1 pk1 zeroRef) as (? & ? & ? & ? & ? & ? & ?); try done.
    { intros a b Hb. destruct Hpk1 as (He & _). rewrite He in Hb. by apply Hsk. }
    { by eapply gained_trans. }
    { by eapply HPz. }
    split_and!; try done; [congruence|by eapply pkAfter_trans].
Qed.

(** ** Scanning and packing *)

Lemma steady_max s s' : steady s s' -> maxZipBlobSize s' = maxZipBlobSize s.
Proof. apply sd_max. Qed.

Lemma steady_fetch s0 s br : bpWf s0 -> steady s0 s -> steady s0 (st_Fetch s br).1.
Proof.
  intros Hwf Hs. destruct (st_Fetch s br) as [s' x] eqn:E. change (bpFetch s br = (s', x)) in E.
  apply bpFetch_ok in E as [Hst _]; [|by eapply steady_wf]. by eapply steady_trans.
Qed.

(** What the scan of a file keeps. *)
Definition scanned (s0 : sto) (s : sto) (a : packer * gset Ref) : Prop :=
  steady s0 s /\ schemasKnown (bpView s0) a.1 /\ pk_zips a.1 = [].

Lemma FromReader_self d n b : FromReader (d, Ok tt) n = Ok b -> b = d.
Proof. unfold FromReader. destruct (_ <? _); [done|]. destruct (_ <? _); [done|]. destruct (_ <? _); [done|]. by intros [= <-]. Qed.

Lemma scanSchemas_ok s0 s pk seen path : bpWf s0 -> scanned s0 s (pk, seen) ->
  let x := scanSchemas s pk seen path in scanned s0 x.1.1 x.1.2.
Proof.
  intros Hwf. revert s pk seen. induction path as [|q path IH]; intros s pk seen Hs; cbn [scanSchemas]; [done|].
  destruct (decide _) as [|Hns]; [by apply IH|]. destruct Hs as (Hst & Hsk & Hz). unfold FromFetcher.
  destruct (st_Fetch s q) as [s1 x] eqn:E. change (bpFetch s q = (s1, x)) in E.
  destruct (steady_wf s0 s Hwf Hst) as [Hwf' Hv']. apply bpFetch_ok in E as [Hst1 Hr]; [|done].
  assert (steady s0 s1) as Hst01 by by eapply steady_trans.
  destruct x as [[d n]|e|p|]; [|by split_and!..]. destruct Hr as [Hkn ->].
  destruct (FromReader (d, Ok tt) (glen d)) as [b|e|p|] eqn:Er; [|by split_and!..].
  apply FromReader_self in Er as ->. apply IH. split; [done|]. split; [|done]. intros q' b. cbn [fst pk_schemaBlob pkSetSchemaBlob pkAddSchemaRef].
  intros [[<- <-]|[_ Hl]]%lookup_insert_Some; [by rewrite <- Hv'|by apply Hsk].
Qed.

Lemma scanChunk_ok s0 s a path p : bpWf s0 -> scanned s0 s a -> let x := scanChunk s a path p in scanned s0 x.1.1 x.1.2.
Proof.
  intros Hwf Hs. unfold scanChunk. destruct (negb _); [done|]. destruct (decide _); [done|]. destruct a as [pk seen].
  assert (scanned s0 s (pkChunk pk (bp_BlobRef p) (u32 (bp_Size p)) path, seen)) as Hs' by done.
  pose proof (scanSchemas_ok s0 s _ seen path Hwf Hs') as Hx. cbn [fst snd] in *.
  by destruct (scanSchemas s _ seen path) as [[s1 [pk1 seen1]] [u|e|q|]].
Qed.

Lemma scanChunks_ok s0 depth r pk : bpWf s0 -> scanned s0 (fr_fetcher r) (pk, ∅) ->
  let x := scanChunks depth r pk in steady s0 (fr_fetcher x.1.1) /\ schemasKnown (bpView s0) x.1.2 /\ pk_zips x.1.2 = [].
Proof.
  intros Hwf Hs. unfold scanChunks.
  assert (forall s a br, scanned s0 s a -> scanned s0 (st_Fetch s br).1 a) as HJ.
  { intros s a br (Hst & Hrest). split; [by apply steady_fetch|done]. }
  pose proof (foreachChunk_inv (scanned s0) HJ scanChunk (fun s a path p => scanChunk_ok s0 s a path p Hwf) depth r (pk_fr pk) [] (pk, ∅) Hs) as Hf.
  cbn zeta in Hf.
  by destruct (foreachChunk depth scanChunk r (pk_fr pk) [] (pk, ∅)) as [[r1 [pk1 seen1]] x].
Qed.

Lemma copyLoop_ok s0 depth fuel r fr off acc : bpWf s0 -> steady s0 (fr_fetcher r) ->
  steady s0 (fr_fetcher (copyLoop depth fuel r fr off acc).1).
Proof.
  intros Hwf. revert r off acc. induction fuel as [|fuel IH]; intros r off acc Hs; cbn [copyLoop]; [done|].
  pose proof (readSection_inv (steady s0) (fun s br => steady_fetch s0 s br Hwf) depth r fr copyBufferSize off Hs) as Hr.
  destruct (readSection depth r fr copyBufferSize off) as [r1 [[bs [e|]]|e|p|]]; cbn [sbind fst snd] in *; try done. by apply IH.
Qed.

Lemma pack_ok s0 us depth r pk s' pk' x :
  bpWf s0 -> noCollision (st_view (sto_large s0)) us -> wz_zip <$> pk_zips pk' ⊆ us -> scanned s0 (fr_fetcher r) (pk, ∅) ->
  pack firstErr hub depth r pk = (s', pk', x) ->
  bpWf s' /\ bpView s' = bpView s0 /\ maxZipBlobSize s' = maxZipBlobSize s0.
Proof.
  intros Hwf Hnc Hus Hs. unfold pack. pose proof (scanChunks_ok s0 depth r pk Hwf Hs) as Hsc.
  destruct (scanChunks depth r pk) as [[r1 pk1] y]. cbn [fst snd] in Hsc. destruct Hsc as (Hst1 & Hsk & Hz).
  assert (forall r, steady s0 (fr_fetcher r) -> bpWf (fr_fetcher r) /\ bpView (fr_fetcher r) = bpView s0 /\ maxZipBlobSize (fr_fetcher r) = maxZipBlobSize s0) as Hsteady.
  { intros q Hq. destruct (steady_wf s0 _ Hwf Hq). split_and!; [done|done|by apply steady_max]. }
  destruct y as [u|e|p|]; [|by intros [= <- <- <-]; apply Hsteady..].
  pose proof (copyLoop_ok s0 depth (2 + Z.to_nat (fr_size (pk_fr pk1))) r1 (pk_fr pk1) 0 [] Hwf Hst1) as Hst2.
  unfold copyFile. destruct (copyLoop depth _ r1 _ 0 []) as [r2 [whole|e|p|]]; [|by intros [= <- <- <-]; apply Hsteady..].
  cbn [fst] in Hst2. destruct (Hsteady r2 Hst2) as (Hwf2 & Hv2 & Hm2). set (pk2 := pkSetWhole pk1 (refOf whole) (glen whole)).
  destruct (kv_get _ _) as [v|e|p|]; [by intros [= <- <- <-]| |by intros [= <- <- <-]..].
  destruct (decide _); [|by intros [= <- <- <-]].
  destruct (makeZips firstErr hub (packFuel pk2) (fr_fetcher r2) pk2 zeroRef) as [[s3 pk3] y] eqn:Emk.
  assert (wz_zip <$> pk_zips pk3 ⊆ us -> bpWf s3 /\ bpView s3 = bpView s0 /\ maxZipBlobSize s3 = maxZipBlobSize s0) as Hzips.
  { intros Hus3. eapply (makeZips_ok (bpView s0) s0 us (fun _ _ => True)) in Emk as (? & ? & ? & _); [|done..| |done|done|done].
    - split_and!; [done|done|congruence].
    - intros q z Hq. left. by rewrite <- (sd_large s0 _ Hst2). }
  destruct y as [u'|e'|p|]; [|by intros [= <- <- <-]; apply Hzips..].
  destruct (kv_set _ _ (sto_meta s3)) as [[e'|] k] eqn:Ek; intros [= <- <- <-]; destruct (Hzips Hus) as (Hwf3 & Hv3 & Hm3).
  - apply kv_set_err in Ek. destruct (meta_same s3 k Hwf3 Ek) as [? ?]. split_and!; [done|congruence|done].
  - apply kv_set_ok in Ek. destruct (meta_other s3 k Hwf3) as [? ?]; [|split_and!; [done|congruence|done]].
    intros key Hkey. rewrite Ek. apply lookup_insert_ne. unfold wholeKey. by apply whole_not_blob.
Qed.

Lemma packFile_ok depth s fileRef s' zips x : bpWf s -> packFile firstErr hub depth s fileRef = (s', zips, x) ->
  noCollision (st_view (sto_large s)) (wz_zip <$> zips) ->
  bpWf s' /\ bpView s' = bpView s /\ maxZipBlobSize s' = maxZipBlobSize s.
Proof.
  intros Hwf. unfold packFile. destruct (NewFileReader s fileRef) as [s1 y] eqn:En.
  destruct (NewFileReader_inv (steady s) (fun a br => steady_fetch s a br Hwf) s fileRef s1 y (steady_refl s Hwf) En) as [Hst Hr].
  destruct (steady_wf s s1 Hwf Hst) as [Hwf1 Hv1].
  destruct y as [[r fr]|e|p|]; [|by intros [= <- <- <-] _; split_and!; [..|apply steady_max]..].
  specialize (Hr r fr eq_refl). destruct (pack firstErr hub depth r (newPacker fr)) as [[s2 pk2] z] eqn:Ep.
  intros [= <- <- <-] Hnc. eapply (pack_ok s); [done|exact Hnc|done| |exact Ep]. rewrite Hr. by split_and!.
Qed.

End committing.
