(* ===== verification/PackOps.v ===== *)
(** The operations of a packing storage against the blobs it holds: packing
    keeps them, and receiving, fetching, statting, enumerating and removing do
    what a storage promises. *)

From S2P Require Import Prelude Ref Strutil SortedKV Sha1 Storage Enumerate Receive Times Json Schema FileReader FileWriter Claims Zip BlobPacked PackLaws.

Section operations.
Context {SM LG K : Type} `{StorageLaws SM} `{SubFetcherLaws LG} `{KVSteady K} `{!Flate}.
Context (firstErr : list error -> error) (hub : memHub) (arrive : list Ref -> list Ref).
Context (Hfirst : forall l, l <> [] -> firstErr l ∈ l) (Harrive : forall l, arrive l ≡ₚ l).
Abbreviation sto := (storage SM LG K).
Implicit Types s : sto.

(** ** Fetching *)

Lemma bpFetch_law s br s' r : bpWf s -> goodRef br -> bpFetch s br = (s', r) ->
  bpWf s' /\ bpView s' = bpView s /\
  match r with
  | Ok (d, n) => bpView s !! br = Some d /\ n = glen d
  | Err e => e = ErrNotExist -> bpView s !! br = None
  | _ => False
  end.
Proof.
  intros Hwf Hg Hf. apply bpFetch_ok in Hf as [Hst Hr]; [|done]. destruct (steady_wf s s' Hwf Hst) as [Hwf' Hv].
  split; [done|]. split; [done|]. destruct r as [[d n]|e|p|]; try done.
  - destruct Hr as [Hk ->]. split; [|done]. apply known_good; [by apply bpView_good|apply Hg|done].
  - intros He. apply Hr; [done|apply Hg].
Qed.

#[export] Instance bp_FetcherLaws : FetcherLaws sto.
Proof. refine {| ft_view := bpView; ft_wf := bpWf; ft_wf_good := bpView_good |}. exact bpFetch_law. Defined.


(** ** Parts of blobs *)

(** The rest of the blob at most; the sum may wrap around. *)
Lemma capOffsetLength_ok size offset length : 0 <= size < 2 ^ 32 -> 0 <= offset < 2 ^ 63 -> 0 <= length < 2 ^ 63 ->
  capOffsetLength size offset length =
    if size <? offset then Err (ErrMsg "subfetch offset greater than blob size") else Ok (Z.min length (size - offset)).
Proof using.
  intros Hs Ho Hl. unfold capOffsetLength. destruct (Z.ltb_spec offset 0); [lia|]. destruct (Z.ltb_spec length 0); [lia|]. cbn [orb].
  destruct (Z.ltb_spec size offset) as [|Hle]; [done|]. cbv zeta.
  assert (i64 (i64 (offset + length) - size) = offset + length - size) as ->.
  { pose proof (Z.div_mod (offset + length + 2 ^ 63) (2 ^ 64) ltac:(lia)) as Hd.
    assert (exists k, i64 (offset + length) = offset + length - 2 ^ 64 * k) as [k ->] by (exists ((offset + length + 2 ^ 63) / 2 ^ 64); unfold i64; lia).
    unfold i64. replace (offset + length - 2 ^ 64 * k - size + 2 ^ 63) with (offset + length - size + 2 ^ 63 + - k * 2 ^ 64) by lia.
    rewrite Z.mod_add by lia. rewrite Z.mod_small; lia. }
  destruct (Z.ltb_spec 0 (offset + length - size)).
  - f_equal. rewrite i64_small by lia. lia.
  - f_equal. lia.
Qed.

(** The optional part fetcher of the small storage, when it is a lawful one. *)
Definition smallSubLaws (smallSub : option (SubFetcher SM)) : Prop :=
  match smallSub with
  | None => True
  | Some sf => forall (sm : SM) br offset length sm' r d,
      st_wf sm -> st_view sm !! br = Some d -> 0 <= offset -> 0 <= length -> offset + length <= glen d ->
      @st_SubFetch SM sf sm br offset length = (sm', r) ->
      st_wf sm' /\ st_view sm' = st_view sm /\
      match r with Ok part => part = (take (Z.to_nat length) (drop (Z.to_nat offset) d), Ok tt) | Err e => e <> ErrNotExist | _ => False end
  end.

Lemma small_steady s sm : bpWf s -> st_wf sm -> st_view sm = st_view (sto_small s) -> steady s (setSmall s sm).
Proof using. intros Hwf Hw Hv. by constructor; try apply Hwf. Qed.

Lemma large_steady s lg : bpWf s -> st_wf lg -> st_view lg = st_view (sto_large s) -> steady s (setLarge s lg).
Proof using. intros Hwf Hw Hv. by constructor; try apply Hwf. Qed.

Lemma sits_part z off d a n : sits z off d -> 0 <= a -> 0 <= n -> a + n <= glen d ->
  take (Z.to_nat n) (drop (Z.to_nat (off + a)) z) = take (Z.to_nat n) (drop (Z.to_nat a) d).
Proof using.
  intros (x & y & -> & ->) Ha Hn Hle. unfold glen in *. rewrite Z2Nat.inj_add, Nat2Z.id by lia.
  rewrite <- drop_drop, drop_app_length, drop_app_le by lia. rewrite take_app_le; [done|]. rewrite length_drop. lia.
Qed.

Lemma bpSubFetch_law smallSub s br offset length s' r d :
  smallSubLaws smallSub -> bpWf s -> goodRef br -> bpView s !! br = Some d -> 0 <= offset -> 0 <= length -> offset + length <= glen d ->
  bpSubFetch smallSub s br offset length = (s', r) ->
  bpWf s' /\ bpView s' = bpView s /\
  match r with Ok part => part = (take (Z.to_nat length) (drop (Z.to_nat offset) d), Ok tt) | Err e => e <> ErrNotExist | _ => False end.
Proof using H1 H4.
  intros Hsub Hwf Hg Hd Ho Hl Hle Hf. pose proof (bpView_good s Hwf br d Hd) as [_ Hd32].
  enough (steady s s' /\ match r with Ok part => part = (take (Z.to_nat length) (drop (Z.to_nat offset) d), Ok tt) | Err e => e <> ErrNotExist | _ => False end)
    as [Hst Hr] by (destruct (steady_wf s s' Hwf Hst); done).
  unfold bpSubFetch in Hf. pose proof (getMetaRow_spec s br Hwf) as Hm.
  destruct (getMetaRow s br) as [m|e|p|]; cbn [sbind] in Hf; [|injection Hf as <- <-; split; [by apply steady_refl|done]|done..].
  destruct Hm as [[-> Hn]|(br' & lref & z & off & d' & -> & Hg' & He & Hp & Hz & Hs & Hv)].
  - cbn [isPacked m_largeRef noMeta] in Hf. change (Valid zeroRef) with false in Hf. cbn iota in Hf.
    assert (st_view (sto_small s) !! br = Some d) as Hds.
    { apply lookup_bpView in Hd as [[_ (l & z & o & Hk & _)]|?]; [congruence|done..]. }
    destruct smallSub as [sf|].
    + destruct (st_SubFetch (sto_small s) br offset length) as [sm r0] eqn:E. injection Hf as <- <-.
      destruct (Hsub _ _ _ _ _ _ _ (bw_small s Hwf) Hds Ho Hl Hle E) as (? & ? & ?). by split; [apply small_steady|].
    + destruct (st_Fetch (sto_small s) br) as [sm r0] eqn:E. injection Hf as <- <-.
      apply st_Fetch_law in E as (? & ? & Hr0); [|apply Hwf]. split; [by apply small_steady|].
      destruct r0 as [[d0 n]|e|p|]; cbn [rbind]; [|intros ->; rewrite Hr0 in Hds; done|done..].
      destruct Hr0 as [Hd0 ->]. assert (d0 = d) as -> by congruence. rewrite capOffsetLength_ok by (pose proof (glen_nonneg d); lia).
      destruct (Z.ltb_spec (glen d) offset); [lia|]. cbn [rbind]. destruct (Z.ltb_spec (glen d) offset); [lia|].
      by replace (Z.min length (glen d - offset)) with length by lia.
  - apply goodRef_inj in He as ->; [|done..]. unfold isPacked in Hf. cbn [m_largeRef m_size m_largeOff] in Hf. rewrite Hv in Hf.
    assert (d' = d) as -> by (enough (Some d' = Some d) by congruence; rewrite <- Hd; symmetry; apply lookup_bpView; [done|by left]).
    rewrite capOffsetLength_ok in Hf by (pose proof (glen_nonneg d); lia). destruct (Z.ltb_spec (glen d) offset); [lia|]. cbn [sbind] in Hf.
    replace (Z.min length (glen d - offset)) with length in Hf by lia. destruct (sits_bounds _ _ _ Hs) as [Hoff Hb].
    assert (glen z < 2 ^ 32) as Hz32 by apply (st_wf_good _ (bw_large s Hwf) lref z Hz).
    rewrite i64_small in Hf by lia. destruct (st_SubFetch (sto_large s) lref (off + offset) length) as [lg r0] eqn:E. injection Hf as <- <-.
    eapply st_SubFetch_law in E as (? & ? & Hr0); [|apply Hwf|exact Hz|lia..]. split; [by apply large_steady|].
    destruct r0 as [part|e|p|]; [|done..]. by rewrite Hr0, (sits_part z off d offset length).
Qed.

(** ** Receiving *)

(** Storing a blob that has no row in the small storage. *)
Lemma small_received s br buf sm r : bpWf s -> goodRef br -> glen buf < 2 ^ 32 -> kv_view (sto_meta s) !! blobKey br = None ->
  st_ReceiveBlob (sto_small s) br (buf, Ok tt) = (sm, r) ->
  bpWf (setSmall s sm) /\
  match r with
  | Ok sb => sb = sized (br, buf) /\ bpView (setSmall s sm) = bpView s ∪ {[br := buf]}
  | Err _ => bpView (setSmall s sm) = bpView s
  | _ => False
  end.
Proof.
  intros Hwf Hg Hl Hno Hr. apply st_ReceiveBlob_law in Hr as [Hsm Hr]; [|by try apply Hwf..].
  assert (bpWf (setSmall s sm)) as Hwf'.
  { constructor; [done|apply Hwf..| |apply Hwf]. intros br' d d' Hp. cbn [sto_small setSmall].
    assert (br' <> br) by (intros ->; destruct Hp as (? & ? & ? & Hk & _); cbn [sto_meta setSmall] in Hk; congruence).
    intros Hd'. apply (bw_agree s Hwf br'); [done|]. destruct r as [sb|e|p|]; cbn [fst snd] in Hr.
    - destruct Hr as (_ & _ & Hv). rewrite Hv, lookup_union_Some_raw in Hd'. by destruct Hd' as [?|[_ [? _]%lookup_singleton_Some]].
    - destruct Hr as [Hv _]. by rewrite Hv in Hd'.
    - by destruct Hr as [_ ?].
    - by destruct Hr as [_ ?]. }
  split; [done|]. unfold bpView, packedMap in *. cbn [sto_small sto_large sto_meta setSmall].
  destruct r as [sb|e|p|]; cbn [fst snd] in Hr; [|by destruct Hr as [-> _]|by destruct Hr as [_ ?]..].
  destruct Hr as (_ & -> & ->). split; [done|]. by rewrite assoc_L by apply _.
Qed.

Lemma bpReceive_ok s br src s' r : bpWf s -> goodRef br -> glen src.1 < 2 ^ 32 -> bpReceive s br src = (s', r) ->
  bpWf s' /\ sto_large s' = sto_large s /\
  match r with
  | Ok (sb, _) => src.2 = Ok tt /\ sb = sized (br, src.1) /\ bpView s' = bpView s ∪ {[br := src.1]}
  | _ => bpView s' = bpView s \/ (src.2 = Ok tt /\ bpView s' = bpView s ∪ {[br := src.1]})
  end.
Proof.
  intros Hwf Hg Hl Hrcv. unfold bpReceive, readAll in Hrcv. destruct src as [buf end_]. cbn [fst snd] in *.
  destruct end_ as [[]|e|p|]; cbn [rbind sbind] in Hrcv; [|injection Hrcv as <- <-; by auto..].
  destruct (match BlobFromReader br buf with Ok _ => _ | _ => _ end) as [fb|e|p|]; cbn [sbind] in Hrcv; [|injection Hrcv as <- <-; by auto..].
  pose proof (getMetaRow_spec s br Hwf) as Hm.
  destruct (getMetaRow s br) as [m|e|p|]; cbn [sbind] in Hrcv; [|injection Hrcv as <- <-; by auto|done..].
  assert (exists s1 r1, (if m_exists m then (s, Ok (MkSizedRef br (u32 (glen buf))))
      else let '(sm, r) := st_ReceiveBlob (sto_small s) br (buf, Ok tt) in (setSmall s sm, r)) = (s1, r1) /\
    bpWf s1 /\ sto_large s1 = sto_large s /\
    match r1 with Ok sb => sb = sized (br, buf) /\ bpView s1 = bpView s ∪ {[br := buf]} | Err _ => bpView s1 = bpView s | _ => False end)
    as (s1 & r1 & E & Hwf1 & Hlg & Hr1).
  { destruct Hm as [[-> Hn]|(br' & lref & z & off & d' & -> & Hg' & He & Hp & Hz & Hs & Hv)]; cbn [m_exists noMeta].
    - destruct (st_ReceiveBlob (sto_small s) br (buf, Ok tt)) as [sm r0] eqn:E. exists (setSmall s sm), r0.
      split; [done|]. destruct (small_received s br buf sm r0 Hwf Hg Hl Hn E) as [? ?]. by split_and!.
    - exists s, (Ok (MkSizedRef br (u32 (glen buf)))). split_and!; [done..| |].
      + unfold sized. cbn [fst snd]. pose proof (glen_nonneg buf). by rewrite u32_small by lia.
      + apply goodRef_inj in He as ->; [|done..]. apply map_eq. intros q. symmetry. rewrite lookup_union.
        destruct (decide (q = br)) as [->|Hne]; [|rewrite lookup_singleton_ne by done; by destruct (bpView s !! q)].
        assert (bpView s !! br = Some d') as Hd by (apply lookup_bpView; [done|by left]). rewrite Hd, lookup_singleton_eq. done. }
  rewrite E in Hrcv. destruct r1 as [sb|e|p|]; cbn [sbind] in Hrcv; [|injection Hrcv as <- <-; by auto|done..].
  destruct Hr1 as [-> Hv]. destruct fb as [b|]; [|by injection Hrcv as <- <-].
  destruct (isPacked m); [by injection Hrcv as <- <-|]. injection Hrcv as <- <-.
  split; [done|]. split; [done|]. by destruct (PartsSize b); cbn [rbind]; auto.
Qed.

Lemma bpReceiveBlob_ok depth s br src s' zips r : bpWf s -> goodRef br -> glen src.1 < 2 ^ 32 ->
  noCollision (st_view (sto_large s)) (wz_zip <$> zips) -> bpReceiveBlob firstErr hub depth s br src = (s', zips, r) ->
  bpWf s' /\
  match r with
  | Ok sb => src.2 = Ok tt /\ sb = sized (br, src.1) /\ bpView s' = bpView s ∪ {[br := src.1]}
  | _ => bpView s' = bpView s \/ (src.2 = Ok tt /\ bpView s' = bpView s ∪ {[br := src.1]})
  end.
Proof.
  intros Hwf Hg Hl Hnc Hrcv. unfold bpReceiveBlob in Hrcv. destruct (bpReceive s br src) as [s1 x] eqn:E.
  apply bpReceive_ok in E as (Hwf1 & Hlg & Hx); [|done..].
  destruct x as [[sb [|]]|e|p|]; [|by injection Hrcv as <- <- <-..].
  destruct Hx as (He & -> & Hv). destruct (packFile firstErr hub depth s1 br) as [[s2 zips2] y] eqn:Ep. injection Hrcv as <- <- <-.
  destruct (packFile_ok firstErr hub depth s1 br s2 zips2 y Hwf1 Ep) as (Hwf2 & Hv2 & _); [by rewrite Hlg|].
  split; [done|]. rewrite Hv2, Hv. destruct y; by auto.
Qed.

(** ** Statting *)

Lemma no_row_small s br d : bpWf s -> kv_view (sto_meta s) !! blobKey br = None ->
  bpView s !! br = Some d <-> st_view (sto_small s) !! br = Some d.
Proof.
  intros Hwf Hn. rewrite lookup_bpView by done. split; [|by right]. intros [[_ (? & ? & ? & Hk & _)]|?]; [congruence|done].
Qed.

Lemma statRow_ok s br : bpWf s -> goodRef br ->
  match statRow s br with
  | (out, try_, Ok _) =>
      (out = statSpec (bpView s) [br] /\ try_ = []) \/
      (out = [] /\ try_ = [br] /\ statSpec (st_view (sto_small s)) [br] = statSpec (bpView s) [br])
  | (out, try_, Err _) => out = [] /\ try_ = []
  | _ => False
  end.
Proof.
  intros Hwf Hg. unfold statRow. pose proof (getMetaRow_spec s br Hwf) as Hm.
  destruct (getMetaRow s br) as [m|e|p|]; [|done..]. destruct Hm as [[-> Hn]|(br' & lref & z & off & d & -> & Hg' & He & Hp & _)].
  - cbn [m_exists noMeta]. right. split; [done|]. split; [done|]. rewrite !statSpec_one.
    assert (st_view (sto_small s) !! br = bpView s !! br) as ->; [|done].
    apply option_eq. intros d. by rewrite no_row_small.
  - apply goodRef_inj in He as ->; [|done..]. cbn [m_exists m_size]. left. split; [|done]. rewrite statSpec_one.
    assert (bpView s !! br = Some d) as -> by (apply lookup_bpView; [done|by left]). done.
Qed.

Lemma statRows_ok s l : bpWf s -> Forall goodRef l ->
  let rows := statRow s <$> l in let sent := concat (fst ∘ fst <$> rows) in let try_ := concat (snd ∘ fst <$> rows) in
  sent ⊆+ statSpec (bpView s) l /\ try_ ⊆+ l /\ Forall (fun r => match r with Ok _ | Err _ => True | _ => False end) (snd <$> rows) /\
  (Forall (fun r => r = Ok tt) (snd <$> rows) -> sent ++ statSpec (st_view (sto_small s)) try_ ≡ₚ statSpec (bpView s) l).
Proof.
  intros Hwf. induction 1 as [|br l Hg Hl IH]; [by repeat constructor|]. cbv zeta in *. rewrite !fmap_cons. cbn [concat].
  destruct IH as (Hs & Ht & Hr & Hok). pose proof (statRow_ok s br Hwf Hg) as Hrow.
  change (br :: l) with ([br] ++ l). assert (statSpec (bpView s) ([br] ++ l) = statSpec (bpView s) [br] ++ statSpec (bpView s) l) as Hsp.
  { unfold statSpec. apply omap_app. }
  rewrite Hsp. destruct (statRow s br) as [[out t] [u|e|p|]]; cbn [compose fst snd] in *; [| |done..].
  - split; [|split; [|split; [by constructor|]]].
    + apply submseteq_app; [|done]. destruct Hrow as [[-> _]|[-> _]]; [done|apply submseteq_nil_l].
    + apply submseteq_app; [|done]. destruct Hrow as [[_ ->]|(_ & -> & _)]; [apply submseteq_nil_l|done].
    + intros [_ Hall]%Forall_cons. specialize (Hok Hall). rewrite <- Hok.
      destruct Hrow as [[-> ->]|(-> & -> & He)]; cbn [app]; [by rewrite app_assoc|].
      unfold statSpec at 1. change (br :: ?x) with ([br] ++ x). rewrite omap_app. fold (statSpec (st_view (sto_small s)) [br]).
      rewrite He. rewrite !app_assoc. apply Permutation_app_tail, Permutation_app_comm.
  - destruct Hrow as [-> ->]. cbn [app]. split; [|split; [|split; [by constructor|]]].
    + apply submseteq_inserts_l. done.
    + by apply submseteq_cons.
    + intros [? _]%Forall_cons. done.
Qed.

Lemma statSpec_submseteq m l1 l2 : l1 ⊆+ l2 -> statSpec m l1 ⊆+ statSpec m l2.
Proof using. intros Hs. unfold statSpec. apply submseteq_Permutation in Hs as [k ->]. rewrite omap_app. by apply submseteq_inserts_r. Qed.

Lemma bpStatBlobs_ok s brs out r : bpWf s -> Forall goodRef brs -> NoDup brs -> bpStatBlobs firstErr arrive s brs = (out, r) ->
  match r with
  | Ok _ => out ≡ₚ statSpec (bpView s) brs
  | Err _ => out ⊆+ statSpec (bpView s) brs
  | _ => False
  end.
Proof.
  intros Hwf Hg Hnd. unfold bpStatBlobs. destruct brs as [|b0 brs0] eqn:Eb; [by intros [= <- <-]|]. rewrite <- Eb in *. clear Eb b0 brs0.
  destruct (statRows_ok s (arrive brs) Hwf) as (Hs & Ht & Hres & Hok); [by rewrite Harrive|]. cbv zeta.
  set (rows := statRow s <$> arrive brs) in *. rewrite (statSpec_perm _ _ _ (Harrive brs)) in Hs, Hok.
  pose proof (batchErr_spec firstErr (snd <$> rows) Hfirst) as Hb.
  destruct (batchErr firstErr (snd <$> rows)) as [u|e|p|]; [|by intros [= <- <-]|..];
    [|by rewrite Forall_forall in Hres; apply Hres in Hb..].
  specialize (Hok Hb). destruct (concat (snd ∘ fst <$> rows)) as [|t ts] eqn:Et.
  { intros [= <- <-]. by rewrite app_nil_r in Hok. }
  rewrite <- Et in *. destruct (st_StatBlobs (sto_small s) _) as [out2 r2] eqn:E. intros [= <- <-].
  apply st_StatBlobs_law in E; [|apply Hwf|]; cycle 1.
  { apply submseteq_Permutation in Ht as [k Hk]. rewrite <- (Harrive brs), Hk in Hnd. by apply NoDup_app in Hnd as [? _]. }
  destruct r2 as [u2|e|p|]; [by rewrite E|rewrite <- Hok; by apply submseteq_skips_l|done..].
Qed.
(** ** Enumerating *)

(** The keys from a prefix's continuation to the prefix's end. *)
Lemma meta_between after k : str_le (blobMetaPrefix ++ after) k -> str_lt k blobMetaPrefixLimit ->
  exists k', k = blobMetaPrefix ++ k' /\ str_le after k'.
Proof using.
  change blobMetaPrefix with ["b"; ":"]%char. change blobMetaPrefixLimit with ["b"; ";"]%char. cbn [app]. intros Ha Hz.
  pose proof (eq_refl : bz "b" = 98) as Eb. pose proof (eq_refl : bz ":" = 58) as Ec. pose proof (eq_refl : bz ";" = 59) as Es.
  destruct k as [|c1 [|c2 k]]; [done|..].
  - apply str_le_cons in Ha as [Hc|[<- Ha]]; [|done]. apply str_lt_cons in Hz as [Hc'|[-> _]]; lia.
  - apply str_le_cons in Ha as [Hc|[<- Ha]]; [apply str_lt_cons in Hz as [Hc'|[-> _]]; lia|].
    apply str_lt_cons in Hz as [Hc'|[_ Hz]]; [lia|].
    apply str_lt_cons in Hz as [Hc|[_ Hz]]; [|by apply str_lt_nil in Hz].
    apply str_le_cons in Ha as [Hc'|[<- Ha]]; [lia|]. by exists k.
Qed.

(** A row, and what it says. *)
Definition rowOf s (kv : gostr * gostr) (sb : SizedRef) : Prop :=
  exists lref off d, goodRef (sr_ref sb) /\ kv = (blobKey (sr_ref sb), metaRow lref (MkBap (sr_ref sb) (glen d) off)) /\ sr_size sb = glen d /\
    refWf lref = true /\ 0 <= glen d < 2 ^ 32 /\ 0 <= off < 2 ^ 32 /\ packed s (sr_ref sb) d.

Lemma enumMetaLoop_ok s after limit n its sbs : Forall2 (rowOf s) its sbs -> StronglySorted sized_lt sbs ->
  Forall (fun sb => str_le after (sizedStr sb)) sbs -> ((0 < n)%nat -> Forall (sizedAfter after) sbs) ->
  enumMetaLoop after limit n its = (take (Z.to_nat limit - n) (filter (sizedAfter after) sbs), Ok tt).
Proof using.
  intros Hf. revert n. induction Hf as [|[k v] sb its sbs Hrow Hf IH]; intros n Hs Hle Hn; cbn [enumMetaLoop]; [by rewrite filter_nil, take_nil|].
  apply StronglySorted_inv in Hs as [Hs Hlt]. apply Forall_cons in Hle as [Hle Hles].
  destruct Hrow as (lref & off & d & Hg & [= -> ->] & Hsz & Hw & Hd & Ho & _).
  destruct (Z.ltb_spec (Z.of_nat n) limit); [|by replace (Z.to_nat limit - n)%nat with 0%nat by lia].
  replace (drop (length blobMetaPrefix) (blobKey (sr_ref sb))) with (sizedStr sb) by (unfold blobKey; by rewrite drop_app_length).
  assert (sizedStr sb = after \/ str_lt after (sizedStr sb)) as [He|Hgt] by (apply str_le_lt_eq in Hle as [?|?]; auto).
  - assert (n = 0%nat) as ->.
    { destruct n; [done|]. specialize (Hn ltac:(lia)). apply Forall_cons in Hn as [Hn _]. unfold sizedAfter in Hn. rewrite He in Hn. by apply str_lt_irrefl in Hn. }
    rewrite decide_True by done. rewrite filter_cons_False by (unfold sizedAfter; rewrite He; apply str_lt_irrefl).
    apply IH; [done|done|lia].
  - rewrite decide_False by (intros [_ He]; rewrite He in Hgt; by apply str_lt_irrefl in Hgt).
    unfold sizedStr. rewrite ParseBytes_Parse, Parse_RefString by apply Hg. rewrite parseMetaRowSizeOnly_row by done.
    rewrite (IH (S n)); [|done|done|].
    + rewrite filter_cons_True by done. replace (Z.to_nat limit - n)%nat with (S (Z.to_nat limit - S n)) by lia. cbn [take]. rewrite <- Hsz. by destruct sb.
    + intros _. eapply Forall_impl; [exact Hlt|]. intros sb' Hsb. unfold sizedAfter. by transitivity (sizedStr sb).
Qed.

(** The rows in a range, with what they say. *)
Lemma range_rows s after : bpWf s -> exists sbs,
  Forall2 (rowOf s) (rangeOf (blobMetaPrefix ++ after) blobMetaPrefixLimit (kv_view (sto_meta s))) sbs.
Proof.
  intros Hwf. set (its := rangeOf _ _ _). assert (forall kv, kv ∈ its -> exists sb, rowOf s kv sb) as Hall.
  { intros [k v] Hin. unfold its, rangeOf in Hin. apply list_elem_of_filter in Hin as [[Hle Hlt] Hin]. apply elem_of_sortedPairs in Hin.
    cbn [fst] in *. destruct Hlt as [|Hlt]; [done|]. destruct (meta_between after k Hle Hlt) as (k' & -> & _).
    destruct (bw_rows s Hwf k' v Hin) as (br & lref & z & off & d & Hg & -> & -> & Hz & Hs).
    destruct (sits_fits _ _ _ _ _ (st_wf_good _ (bw_large s Hwf)) Hz Hs) as (Hw & Hd & Ho).
    exists (MkSizedRef br (glen d)), lref, off, d. split_and!; try done; try lia. by exists lref, z, off. }
  clearbody its. induction its as [|kv its IH]; [by exists []|]. destruct IH as [sbs Hsbs]; [intros kv' Hin; apply Hall; by apply list_elem_of_further|].
  destruct (Hall kv) as [sb Hsb]; [by apply list_elem_of_here|]. exists (sb :: sbs). by constructor.
Qed.

Lemma rowOf_key s kv sb : rowOf s kv sb -> kv.1 = blobKey (sr_ref sb).
Proof using. by intros (lref & off & d & _ & -> & _). Qed.

Lemma rowOf_sorted s its sbs : Forall2 (rowOf s) its sbs -> StronglySorted key_lt its -> StronglySorted sized_lt sbs.
Proof using.
  induction 1 as [|kv sb its sbs Hr Hf IH]; intros Hs; [constructor|]. apply StronglySorted_inv in Hs as [Hs Hlt].
  constructor; [by apply IH|]. clear IH Hs. apply Forall_forall. intros sb' Hin.
  apply list_elem_of_lookup in Hin as [i Hi]. destruct (Forall2_lookup_r _ _ _ _ _ Hf Hi) as (kv' & Hi' & Hr').
  rewrite Forall_forall in Hlt. specialize (Hlt kv' (list_elem_of_lookup_2 _ _ _ Hi')). unfold key_lt in Hlt.
  rewrite (rowOf_key _ _ _ Hr), (rowOf_key _ _ _ Hr') in Hlt. by apply str_lt_app_l in Hlt.
Qed.

Lemma packedMap_good s : bpWf s -> goodBlobs (packedMap s).
Proof. intros Hwf br d Hd. apply lookup_packedMap in Hd as [Hg Hp]; [|done]. split; [done|]. eapply packed_good; [apply Hwf|done]. Qed.

(** What the rows say, cut to those after [after]. *)
Lemma range_filter s after sbs : bpWf s ->
  Forall2 (rowOf s) (rangeOf (blobMetaPrefix ++ after) blobMetaPrefixLimit (kv_view (sto_meta s))) sbs ->
  filter (sizedAfter after) sbs = enumAfter (packedMap s) after /\ StronglySorted sized_lt sbs /\ Forall (fun sb => str_le after (sizedStr sb)) sbs.
Proof.
  intros Hwf Hf. assert (StronglySorted sized_lt sbs) as Hs.
  { eapply rowOf_sorted; [exact Hf|]. apply ssorted_filter, sortedPairs_sorted. }
  assert (forall sb, sb ∈ sbs <-> str_le after (sizedStr sb) /\ exists d, packedMap s !! sr_ref sb = Some d /\ sr_size sb = glen d) as Hin.
  { intros sb. split.
    - intros [i Hi]%list_elem_of_lookup. destruct (Forall2_lookup_r _ _ _ _ _ Hf Hi) as ([k v] & Hi' & Hr).
      apply list_elem_of_lookup_2, list_elem_of_filter in Hi' as [[Hle _] _]. pose proof (rowOf_key _ _ _ Hr) as Hk. cbn [fst] in *.
      destruct Hr as (lref & off & d & Hg & _ & Hsz & _ & _ & _ & Hp). split.
      + rewrite Hk in Hle. apply str_le_lt_eq in Hle as [Hlt|He]; [apply str_lt_le; by apply str_lt_app_l in Hlt|].
        apply app_inv_head in He. rewrite He. apply str_le_refl.
      + exists d. split; [|done]. by apply lookup_packedMap.
    - intros (Hle & d & Hd & Hsz). apply lookup_packedMap in Hd as [Hg Hp]; [|done].
      apply packed_row in Hp as Hrow; [|apply Hwf]. destruct Hrow as (lref & z & off & Hz & Hsit & Hw & Hn & Ho & Hk).
      assert ((blobKey (sr_ref sb), metaRow lref (MkBap (sr_ref sb) (glen d) off)) ∈ rangeOf (blobMetaPrefix ++ after) blobMetaPrefixLimit (kv_view (sto_meta s))) as Hin.
      { apply list_elem_of_filter. split; [|by apply elem_of_sortedPairs]. split; cbn [fst].
        - unfold blobKey. apply str_le_lt_eq in Hle as [Hlt|He]; [apply str_lt_le; by apply str_lt_app_l|rewrite He; apply str_le_refl].
        - right. unfold blobKey, blobMetaPrefixLimit, blobMetaPrefix. apply str_lt_cons. right. split; [done|]. apply str_lt_cons. left. done. }
      apply list_elem_of_lookup in Hin as [i Hi]. destruct (Forall2_lookup_l _ _ _ _ _ Hf Hi) as (sb' & Hi' & lref' & off' & d' & Hg' & [= He Hrow] & Hsz' & Hw' & Hn' & Ho' & _).
      apply goodRef_inj in He; [|done..]. apply (f_equal parseMetaRow) in Hrow. rewrite !parseMetaRow_row in Hrow by done.
      injection Hrow as Hlen _ _. apply list_elem_of_lookup. exists i. rewrite Hi'. f_equal. destruct sb, sb'; simpl in *; congruence. }
  split_and!; [|done|].
  - apply (ssorted_ext sized_lt); [by apply ssorted_filter|by apply enumAfter_sorted, packedMap_good|].
    intros sb. rewrite elem_of_enumAfter, list_elem_of_filter, Hin. unfold sizedAfter. split; [tauto|]. intros [Hlt Hd]. split; [done|]. split; [by apply str_lt_le|done].
  - apply Forall_forall. intros sb Hsb. by apply Hin.
Qed.

Lemma enumMeta_ok s after limit : bpWf s -> 
  let r := kv_find (blobMetaPrefix ++ after) blobMetaPrefixLimit (sto_meta s) in
  r.2 = None -> enumMeta s after limit = (enumSpec (packedMap s) after limit, Ok tt).
Proof.
  intros Hwf r Hr. unfold enumMeta. fold r. destruct r as [its closeErr] eqn:E. cbn [snd] in Hr. subst closeErr.
  apply kv_find_ok in E as ->. destruct (range_rows s after Hwf) as [sbs Hsbs]. destruct (range_filter s after sbs Hwf Hsbs) as (He & Hs & Hle).
  erewrite enumMetaLoop_ok; [|exact Hsbs|done|done|lia]. by rewrite He, Nat.sub_0_r.
Qed.
Lemma enum_view s : bpWf s -> ⋃ [st_view (sto_small s); packedMap s] = bpView s.
Proof.
  intros Hwf. change (st_view (sto_small s) ∪ (packedMap s ∪ ∅) = bpView s). rewrite (right_id_L ∅ (∪)). unfold bpView.
  apply map_eq. intros br. rewrite !lookup_union. destruct (st_view (sto_small s) !! br) as [d|] eqn:Es, (packedMap s !! br) as [d'|] eqn:Ep; try done.
  apply lookup_packedMap in Ep as [_ Hp]; [|done]. by rewrite (bw_agree s Hwf br d' d Hp Es).
Qed.

Lemma bpEnumerateBlobs_ok s c after limit : bpWf s -> 0 < limit ->
  (kv_find (blobMetaPrefix ++ after) blobMetaPrefixLimit (sto_meta s)).2 = None ->
  let small := st_EnumerateBlobs (sto_small s) c after limit in
  let '(out, r) := bpEnumerateBlobs s c after limit in
  (small.2 = Ok tt -> out = enumSpec (bpView s) after limit /\
    ((length (enumAfter (bpView s) after) < Z.to_nat limit)%nat -> r = Ok tt)) /\
  match r with Ok _ => small.2 = Ok tt | Err e => small.2 = Err e | Panic _ => False | Blocked => True end.
Proof.
  intros Hwf Hl Hk small. unfold bpEnumerateBlobs. rewrite enumMeta_ok by done. fold small.
  set (srcs := [small; (enumSpec (packedMap s) after limit, Ok tt)] : list source).
  assert (goodLists srcs.*1) as Hg.
  { intros l [->|[->|Hin%elem_of_nil]%elem_of_cons]%elem_of_cons; [|by apply goodList_take, goodList_enumAfter, packedMap_good|done].
    apply enum_law_good; [apply Hwf|done]. }
  assert (Forall (fun x : source => match x.2 with Ok _ | Err _ => True | _ => False end) srcs) as Hres.
  { repeat constructor. apply (enum_law_res (sto_small s) c after limit); [apply Hwf|done]. }
  destruct (merge_sent srcs limit Hg) as (Hsent & _). pose proof (merged_result srcs limit Hg Hres) as Hr. cbn zeta in Hr.
  assert (small.2 = Ok tt -> take (Z.to_nat limit) (sizedOf (unionSizes srcs.*1)) = enumSpec (bpView s) after limit) as Ht.
  { intros Hok. assert (srcs.*1 = take (Z.to_nat limit) <$> ((fun m => enumAfter m after) <$> [st_view (sto_small s); packedMap s])) as Hsrcs.
    { cbn. unfold srcs. f_equal. unfold small. apply enum_law_ok; [apply Hwf|done|done]. }
    assert (forall m, m ∈ [st_view (sto_small s); packedMap s] -> goodBlobs m) as Hgm.
    { intros m [->|[->|Hin%elem_of_nil]%elem_of_cons]%elem_of_cons; [apply st_wf_good, Hwf|by apply packedMap_good|done]. }
    rewrite <- mergeN_sizedOf by done. rewrite Hsrcs, mergeN_take, mergeN_sizedOf, union_enumAfter; [by rewrite enum_view|done|].
    intros l (m & -> & Hm)%list_elem_of_fmap. by apply goodList_enumAfter, Hgm. }
  destruct (mergedEnumerate srcs limit) as [out r]. cbn [fst snd] in *. split.
  - intros Hok. specialize (Ht Hok). rewrite Ht in Hsent. split; [done|]. intros Hlt.
    destruct r as [[]|e|p|]; [done| |done|].
    + destruct Hr as (x & [->|[->|Hin%elem_of_nil]%elem_of_cons]%elem_of_cons & He); [congruence|done|done].
    + destruct Hr. apply (f_equal length) in Ht. unfold enumSpec in Ht. rewrite !length_take in Ht. lia.
  - destruct r as [[]|e|p|]; [by apply Forall_cons in Hr as [? _]| |done|done].
    destruct Hr as (x & [->|[->|Hin%elem_of_nil]%elem_of_cons]%elem_of_cons & He); done.
Qed.

(** ** Removing *)

(** A blob with a row that is still in the small storage as well. *)
Definition inBoth s (br : Ref) : Prop := is_Some (packedMap s !! br) /\ is_Some (st_view (sto_small s) !! br).
#[local] Instance inBoth_dec s br : Decision (inBoth s br).
Proof. unfold inBoth. apply _. Defined.

Lemma splitPacked_loop s l u0 p0 g0 : bpWf s ->
  Forall (fun r => r = Ok tt) ((fun br => let? _ := getMetaRow s br in Ok tt) <$> l) ->
  exists U P G, foldl splitStep (u0, p0, g0) ((fun br => (br, getMetaRow s br)) <$> l) = (u0 ++ U, p0 ++ P, G) /\
  l ≡ₚ U ++ P /\ (forall br, br ∈ U -> kv_view (sto_meta s) !! blobKey br = None) /\ (forall br, br ∈ P -> is_Some (kv_view (sto_meta s) !! blobKey br)).
Proof.
  intros Hwf. revert u0 p0 g0. induction l as [|br l IH]; intros u0 p0 g0 Hok.
  { exists [], [], g0. rewrite !app_nil_r. split_and!; [done|done|by intros br ?%elem_of_nil..]. }
  rewrite !fmap_cons in Hok. apply Forall_cons in Hok as [Hb Hok]. rewrite fmap_cons. cbn [foldl splitStep snd fst].
  pose proof (getMetaRow_spec s br Hwf) as Hm. destruct (getMetaRow s br) as [m|e|p|]; [|done..].
  destruct Hm as [[-> Hn]|(br' & lref & z & off & d & -> & Hg' & He & Hp & Hz & Hs & Hv)].
  - change (isPacked noMeta) with false. cbn iota. destruct (IH (u0 ++ [br]) p0 g0 Hok) as (U & P & G & -> & Hl & HU & HP).
    exists (br :: U), P, G. split; [by rewrite <- app_assoc|]. split; [by rewrite Hl|]. split; [|done].
    intros q [->|Hq]%elem_of_cons; auto.
  - unfold isPacked at 1. cbn [m_largeRef]. rewrite Hv. destruct (IH u0 (p0 ++ [br]) ({[lref]} ∪ g0) Hok) as (U & P & G & -> & Hl & HU & HP).
    exists U, (br :: P), G. split; [by rewrite <- app_assoc|]. split; [by rewrite Hl, Permutation_middle|]. split; [done|].
    intros q [->|Hq]%elem_of_cons; [|auto]. destruct Hp as (? & ? & ? & Hk & _). unfold blobKey in *. rewrite He in Hk. by eexists.
Qed.

(** The rows of packed blobs are deleted; the zips are noted for deletion. *)
Definition notes (now : Z) (zs : list Ref) : batch := (fun zipRef => Mutation (gs "d:" ++ RefString zipRef) (itoa now) false) <$> zs.
Definition deletes (l : list Ref) : batch := (fun br => Mutation (blobKey br) [] true) <$> l.

Lemma removeBatch_eq (l zs : list Ref) (now : Z) :
  foldl (fun b br => batchDelete b (blobMetaPrefix ++ RefString br))
    (foldl (fun b zipRef => batchSet b (gs "d:" ++ RefString zipRef) (itoa now)) NewBatchMutation zs) l = notes now zs ++ deletes l.
Proof using.
  assert (forall b, foldl (fun b br => batchDelete b (blobMetaPrefix ++ RefString br)) b l = b ++ deletes l) as ->.
  { induction l as [|br l IH]; intros b; cbn [foldl]; [by rewrite app_nil_r|]. rewrite IH. unfold batchDelete. by rewrite <- app_assoc. }
  f_equal. assert (forall b, foldl (fun b zipRef => batchSet b (gs "d:" ++ RefString zipRef) (itoa now)) b zs = b ++ notes now zs) as ->; [|done].
  induction zs as [|z zs IH]; intros b; cbn [foldl]; [by rewrite app_nil_r|]. rewrite IH. unfold batchSet. by rewrite <- app_assoc.
Qed.

(** A part of the batch notes some zips and deletes some rows. *)
Lemma removeBatch_prefix l zs now b : b `prefix_of` notes now zs ++ deletes l ->
  exists zs' l', b = notes now zs' ++ deletes l' /\ l' `prefix_of` l.
Proof using.
  unfold notes, deletes. intros [rest Hb]. apply app_eq_inv in Hb as [(k & Hb & _)|(k & -> & Hb)].
  - apply fmap_app_inv in Hb as (zs' & zs2 & -> & _ & ->). exists zs', []. split; [by rewrite app_nil_r|apply prefix_nil].
  - apply fmap_app_inv in Hb as (l' & l2 & -> & _ & ->). exists zs, l'. split; [done|by exists l2].
Qed.

Lemma deleteRows_ok (l zs : list Ref) (m : gmap gostr gostr) (now : Z) key : blobMetaPrefix `prefix_of` key ->
  applyMutations m (notes now zs ++ deletes l) !! key = if decide (key ∈ blobKey <$> l) then None else m !! key.
Proof using.
  intros Hkey. unfold applyMutations. rewrite foldl_app. set (m1 := foldl applyMutation m (notes now zs)).
  assert (m1 !! key = m !! key) as <-.
  { unfold m1. clear m1. revert m. induction zs as [|z zs IH]; intros m; [done|]. cbn [notes fmap list_fmap foldl]. fold (notes now zs). rewrite IH.
    cbn [applyMutation m_delete m_key m_value]. rewrite lookup_insert_ne; [done|]. intros He. destruct Hkey as [k Hk]. rewrite <- He in Hk. done. }
  clearbody m1. revert m1. induction l as [|br l IH]; intros m1; [done|]. cbn [deletes fmap list_fmap foldl]. fold (deletes l). fold (blobKey <$> l). rewrite IH.
  cbn [applyMutation m_delete m_key]. destruct (decide (key ∈ blobKey <$> l)) as [Hin|Hn].
  - rewrite decide_True by by apply list_elem_of_further. done.
  - destruct (decide (key = blobKey br)) as [->|Hne].
    + rewrite decide_True by by apply list_elem_of_here. apply lookup_delete_eq.
    + rewrite decide_False by (by intros [?|?]%elem_of_cons). by rewrite lookup_delete_ne.
Qed.

(** What is left when rows and small blobs are gone. *)
Lemma removed_view s sm k (U P : list Ref) : bpWf s -> Forall goodRef P ->
  st_wf sm -> st_view sm = removeSpec (st_view (sto_small s)) U ->
  (forall br, br ∈ U -> kv_view (sto_meta s) !! blobKey br = None) -> (forall br, br ∈ P -> is_Some (kv_view (sto_meta s) !! blobKey br)) ->
  (forall key, blobMetaPrefix `prefix_of` key -> kv_view k !! key = if decide (key ∈ blobKey <$> P) then None else kv_view (sto_meta s) !! key) ->
  let s' := setMeta (setSmall s sm) k in
  bpWf s' /\ bpView s' = removeSpec (bpView s) (U ++ filter (fun br => ~ inBoth s br) P).
Proof.
  intros Hwf HgP Hsm Hv HU HP Hk s'.
  assert (forall br, blobMetaPrefix `prefix_of` blobKey br) as Hpre by (intros; by apply prefix_app_r).
  assert (forall br d, goodRef br -> packed s' br d <-> packed s br d /\ br ∉ P) as Hpk.
  { intros br d Hg. unfold packed. change (sto_meta s') with k. change (sto_large s') with (sto_large s). rewrite Hk by done.
    destruct (decide _) as [Hin|Hn].
    - apply list_elem_of_fmap in Hin as (br' & He & Hin). unfold blobKey in He. apply app_inv_head in He.
      apply goodRef_inj in He as <-; [|done|by rewrite Forall_forall in HgP; apply HgP]. split; [by intros (? & ? & ? & ? & _)|by intros [_ ?]].
    - split; [|by intros [? _]]. intros Hp. split; [done|]. intros Hin. apply Hn. by apply list_elem_of_fmap_2. }
  assert (bpWf s') as Hwf'.
  { constructor; [done|apply Hwf| | |apply Hwf].
    - intros k' v. change (sto_meta s') with k. change (sto_large s') with (sto_large s). rewrite Hk by by apply prefix_app_r.
      destruct (decide _); [done|]. apply Hwf.
    - intros br d d' Hp Hd. change (sto_small s') with sm in Hd. rewrite Hv, lookup_removeSpec in Hd. destruct (decide _); [done|].
      apply (bw_agree s Hwf br); [|done]. apply Hpk in Hp; [tauto|]. by eapply (st_wf_good _ (bw_small s Hwf)). }
  split; [done|]. apply map_eq. intros br. apply option_eq. intros d. rewrite lookup_bpView, lookup_removeSpec by done.
  change (sto_small s') with sm. rewrite Hv, lookup_removeSpec.
  destruct (decide (goodRef br)) as [Hg|Hng]; cycle 1.
  { split.
    - intros [[? _]|Hd]; [done|]. destruct (decide _); [done|]. by destruct (st_wf_good _ (bw_small s Hwf) br d Hd).
    - intros Hd. destruct (decide _); [done|]. by destruct (bpView_good s Hwf br d Hd). }
  rewrite Hpk by done. split.
  - intros [[_ [Hp Hn]]|Hd].
    + rewrite decide_False; [apply lookup_bpView; [done|by left]|]. intros [Hin|Hin]%elem_of_app.
      * apply HU in Hin. destruct Hp as (? & ? & ? & Hrow & _). congruence.
      * apply list_elem_of_filter in Hin as [_ Hin]. done.
    + destruct (decide (br ∈ U)) as [|Hn]; [done|]. rewrite decide_False; [apply lookup_bpView; [done|by right]|].
      intros [Hin|Hin]%elem_of_app; [done|]. apply list_elem_of_filter in Hin as [Hnb Hin]. apply Hnb. split; [|by eexists].
      destruct (HP br Hin) as [v Hrow]. destruct (bw_rows s Hwf _ _ Hrow) as (br' & lref & z & off & d' & Hg' & He & -> & Hz & Hs).
      apply goodRef_inj in He as <-; [|done..]. exists d'. apply lookup_packedMap; [done|]. split; [done|]. by exists lref, z, off.
  - destruct (decide _) as [|Hn]; [done|]. intros Hd. apply lookup_bpView in Hd as [[_ Hp]|Hd]; [|right|done].
    + destruct (decide (br ∈ P)) as [Hin|Hnp]; [right|by left].
      destruct (decide (inBoth s br)) as [[_ [d' Hd']]|Hnb]; [|destruct Hn; apply elem_of_app; right; by apply list_elem_of_filter].
      rewrite (bw_agree s Hwf br d d' Hp Hd') in Hd'. rewrite decide_False; [done|]. intros Hin'. apply Hn. apply elem_of_app. by left.
    + rewrite decide_False; [done|]. intros Hin'. apply Hn. apply elem_of_app. by left.
Qed.

Lemma bpRemoveBlobs_ok now s brs s' r : bpWf s -> Forall goodRef brs -> bpRemoveBlobs firstErr arrive now s brs = (s', r) ->
  bpWf s' /\
  match r with
  | Ok _ => bpView s' = removeSpec (bpView s) (filter (fun br => ~ inBoth s br) brs)
  | Err _ => exists brs', brs' ⊆ brs /\ bpView s' = removeSpec (bpView s) brs'
  | _ => False
  end.
Proof.
  intros Hwf Hg. unfold bpRemoveBlobs, splitPacked. rewrite <- list_fmap_compose. unfold compose. cbn [fst snd].
  set (rows := (fun br => let? _ := getMetaRow s br in Ok tt) <$> arrive brs : list (res unit)).
  pose proof (batchErr_spec firstErr rows Hfirst) as Hb. destruct (batchErr firstErr rows) as [u|e|p|]; cbn [rbind sbind].
  2: { intros [= <- <-]. split; [done|]. exists []. split; [apply list_subseteq_nil|]. by rewrite removeSpec_nil. }
  2-3: assert (forall x, x ∈ rows -> match x with Ok _ | Err _ => True | _ => False end) as Hres by
    (intros x (br & -> & _)%list_elem_of_fmap; pose proof (getMetaRow_spec s br Hwf); by destruct (getMetaRow s br));
    by apply Hres in Hb.
  destruct (splitPacked_loop s (arrive brs) [] [] ∅ Hwf Hb) as (U & P & G & -> & Hl & HU & HP). cbn [app].
  rewrite Harrive in Hl. assert (forall br, br ∈ brs <-> br ∈ U \/ br ∈ P) as Hin by (intros br; by rewrite Hl, elem_of_app).
  destruct (match U with [] => _ | _ => _ end) as [sm r1] eqn:E1.
  assert (exists U', U' ⊆ U /\ st_wf sm /\ st_view sm = removeSpec (st_view (sto_small s)) U' /\
    match r1 with Ok _ => U' = U | Err _ => True | _ => False end) as (U' & HsubU & Hsm & Hv & Hr1).
  { destruct U as [|b0 U0] eqn:EU; [injection E1 as <- <-; exists []; split_and!; [done|apply Hwf|by rewrite removeSpec_nil|done]|].
    rewrite <- EU in *. apply st_RemoveBlobs_law in E1 as [Hsm Hr]; [|apply Hwf]. destruct r1 as [u1|e|p|]; [by exists U| |done..].
    destruct Hr as (U' & ? & ?). by exists U'. }
  destruct (match P with [] => _ | _ => _ end) as [k r2] eqn:E2.
  assert (exists P', P' ⊆ P /\ (forall key, blobMetaPrefix `prefix_of` key -> kv_view k !! key = if decide (key ∈ blobKey <$> P') then None else kv_view (sto_meta s) !! key) /\
    match r2 with Ok _ => P' = P | Err _ => True | _ => False end) as (P' & HsubP & Hk & Hr2).
  { destruct P as [|b0 P0] eqn:EP; [injection E2 as <- <-; by exists []|]. rewrite <- EP in *. clear EP.
    destruct (kv_commit _ (sto_meta s)) as [[e|] k0] eqn:Ek; injection E2 as <- <-.
    - apply kv_commit_err in Ek as (b & Hpre & Ek). rewrite removeBatch_eq in Hpre. apply removeBatch_prefix in Hpre as (zs' & P' & -> & [rest ->]).
      exists P'. split_and!; [|intros key Hkey; rewrite Ek; by apply deleteRows_ok|done]. intros br Hbr. apply elem_of_app. by left.
    - apply kv_commit_ok in Ek. exists P. split_and!; [done| |done]. intros key Hkey. rewrite Ek, removeBatch_eq. by apply deleteRows_ok. }
  destruct (removed_view s sm k U' P' Hwf) as [Hwf' Hv']; [|done|done| | |done|].
  { apply Forall_forall. intros br Hbr%HsubP. rewrite Forall_forall in Hg. apply Hg, Hin. by right. }
  { intros br Hbr. by apply HU, HsubU. }
  { intros br Hbr. by apply HP, HsubP. }
  intros [= <- <-]. split; [exact Hwf'|]. rewrite Hv'. pose proof (batchErr_spec firstErr [r1; r2] Hfirst) as Hb2.
  destruct (batchErr firstErr [r1; r2]) as [u2|e|p|].
  - apply Forall_cons in Hb2 as [-> [-> _]%Forall_cons]. subst U' P'. apply removeSpec_ext. intros br.
    rewrite elem_of_app, !list_elem_of_filter, Hin. split; [|tauto]. intros [Hbr|?]; [|tauto]. split; [|by left].
    intros [[d Hd] _]. apply lookup_packedMap in Hd as [_ (? & ? & ? & Hrow & _)]; [|done]. rewrite HU in Hrow; done.
  - eexists. split; [|done]. intros br [Hbr|[_ Hbr]%list_elem_of_filter]%elem_of_app; apply Hin; auto.
  - apply elem_of_cons in Hb2 as [<-|[<-|?%elem_of_nil]%elem_of_cons]; done.
  - apply elem_of_cons in Hb2 as [<-|[<-|?%elem_of_nil]%elem_of_cons]; done.
Qed.
(** C10. Packing loses and changes nothing: whether it succeeds, fails at any
    of its steps (a zip, the index or the removal of small blobs) or does not
    end, the storage holds the same blobs as before and its rows, zips and
    small blobs agree.  The only assumption is that no zip written has the
    reference of another blob in the storage of zips. *)
Theorem packFile_keeps depth s fileRef : bpWf s ->
  let '(s', zips, r) := packFile firstErr hub depth s fileRef in
  noCollision (st_view (sto_large s)) (wz_zip <$> zips) -> bpWf s' /\ bpView s' = bpView s.
Proof.
  intros Hwf. destruct (packFile firstErr hub depth s fileRef) as [[s' zips] r] eqn:E. intros Hnc.
  by destruct (packFile_ok firstErr hub depth s fileRef s' zips r Hwf E Hnc) as (? & ? & _).
Qed.

(** C13. A packing storage is a storage of the blobs that are packed or in the
    small storage.  Fetching a blob, or a part of it, gives its bytes from
    wherever they are; receiving adds the blob, whatever the packing that
    follows does; the sizes of blobs and their enumeration merge both places;
    removing removes exactly the blobs asked for, except one whose row was
    written but whose small copy is still there, which survives. *)
Theorem blobpacked_refines s : bpWf s ->
  (forall br s' r, goodRef br -> bpFetch s br = (s', r) -> bpWf s' /\ bpView s' = bpView s /\
    match r with Ok (d, n) => bpView s !! br = Some d /\ n = glen d | Err e => e = ErrNotExist -> bpView s !! br = None | _ => False end) /\
  (forall smallSub br offset length s' r d, smallSubLaws smallSub -> goodRef br -> bpView s !! br = Some d ->
    0 <= offset -> 0 <= length -> offset + length <= glen d -> bpSubFetch smallSub s br offset length = (s', r) ->
    bpWf s' /\ bpView s' = bpView s /\
    match r with Ok part => part = (take (Z.to_nat length) (drop (Z.to_nat offset) d), Ok tt) | Err e => e <> ErrNotExist | _ => False end) /\
  (forall depth br src s' zips r, goodRef br -> glen src.1 < 2 ^ 32 -> noCollision (st_view (sto_large s)) (wz_zip <$> zips) ->
    bpReceiveBlob firstErr hub depth s br src = (s', zips, r) ->
    bpWf s' /\
    match r with
    | Ok sb => src.2 = Ok tt /\ sb = sized (br, src.1) /\ bpView s' = bpView s ∪ {[br := src.1]}
    | _ => bpView s' = bpView s \/ (src.2 = Ok tt /\ bpView s' = bpView s ∪ {[br := src.1]})
    end) /\
  (forall brs out r, Forall goodRef brs -> NoDup brs -> bpStatBlobs firstErr arrive s brs = (out, r) ->
    match r with Ok _ => out ≡ₚ statSpec (bpView s) brs | Err _ => out ⊆+ statSpec (bpView s) brs | _ => False end) /\
  (forall c after limit out r, 0 < limit -> bpEnumerateBlobs s c after limit = (out, r) ->
    (kv_find (blobMetaPrefix ++ after) blobMetaPrefixLimit (sto_meta s)).2 = None ->
    let small := (st_EnumerateBlobs (sto_small s) c after limit).2 in
    (small = Ok tt -> out = enumSpec (bpView s) after limit /\
      ((length (enumAfter (bpView s) after) < Z.to_nat limit)%nat -> r = Ok tt)) /\
    match r with Ok _ => small = Ok tt | Err e => small = Err e | Panic _ => False | Blocked => True end) /\
  (forall now brs s' r, Forall goodRef brs -> bpRemoveBlobs firstErr arrive now s brs = (s', r) ->
    bpWf s' /\
    match r with
    | Ok _ => bpView s' = removeSpec (bpView s) (filter (fun br => ~ inBoth s br) brs)
    | Err _ => exists brs', brs' ⊆ brs /\ bpView s' = removeSpec (bpView s) brs'
    | _ => False
    end).
Proof.
  intros Hwf. split_and!.
  - intros. by eapply bpFetch_law.
  - intros. by eapply bpSubFetch_law.
  - intros. by eapply bpReceiveBlob_ok.
  - intros. by eapply bpStatBlobs_ok.
  - intros c after limit out r Hl He Hk small. pose proof (bpEnumerateBlobs_ok s c after limit Hwf Hl Hk) as Hx.
    by rewrite He in Hx.
  - intros. by eapply bpRemoveBlobs_ok.
Qed.
End operations.

(** * The index in memory *)

Section memory_index.
Context {D : Type} `{LevelDB D}.

Lemma memCommit_prefix b (x x' : memKeys D) e : memCommitBatch b x = (Some e, x') ->
  exists b', b' `prefix_of` b /\ kv_view x' = applyMutations (kv_view x) b'.
Proof.
  revert x. induction b as [|m b IH]; intros x; cbn [memCommitBatch]; [done|]. destruct m as [k v [|]]; cbn [m_delete m_key m_value].
  - destruct (db_delete_spec k (mk_db x)) as (d & -> & Hd). destruct (db_view (mk_db x) !! k) as [v0|] eqn:E.
    + intros (b' & Hp & Hv)%IH. exists (Mutation k v true :: b'). split; [by apply prefix_cons|]. rewrite Hv. cbn [kv_view memKeys_laws]. unfold memView. cbn [mk_db]. by rewrite Hd.
    + intros [= <- <-]. exists []. split; [apply prefix_nil|]. cbn. unfold memView. cbn [mk_db]. rewrite Hd. by apply delete_id.
  - destruct (db_set_spec k v (mk_db x)) as (d & -> & Hd).
    intros (b' & Hp & Hv)%IH. exists (Mutation k v false :: b'). split; [by apply prefix_cons|]. rewrite Hv. cbn [kv_view memKeys_laws]. unfold memView. cbn [mk_db]. by rewrite Hd.
Qed.

#[export] Instance memKeys_KVSteady : KVSteady (memKeys D).
Proof.
  constructor.
  - intros k x. cbn. unfold memGet. rewrite db_get_spec. destruct (db_view (mk_db x) !! k); [done|]. by rewrite decide_True.
  - intros b x x' e. apply memCommit_prefix.
  - intros k v x x' e. cbn. unfold memSet. destruct (db_set_spec k v (mk_db x)) as (d & -> & _). done.
Qed.
End memory_index.

(** * Examples *)

(** A compression that does nothing. *)
#[local] Instance idFlate : Flate.
Proof. refine {| deflate s := s; inflate := Some |}. done. Defined.

Definition packedParts : list BytesPart := [MkPart 1 (refOf (gs "a")) zeroRef 0; MkPart 2 (refOf (gs "bc")) zeroRef 0].
Definition packedFile : gostr := fileText (gs "x.txt") 3 packedParts.
Definition unpackedStore : storage blobs blobs (memKeys (gmap gostr gostr)) :=
  MkBp (blobsOf [gs "a"; gs "bc"; packedFile]) ∅ (MemKeys ∅) 0 false.

Lemma unpackedStore_wf : bpWf unpackedStore.
Proof.
  constructor.
  - apply blobsOf_good. repeat (constructor; [apply (bool_decide_unpack _); vm_compute; exact I|]). constructor.
  - done.
  - done.
  - intros br d d' (lref & z & off & Hk & _). change (kv_view (sto_meta unpackedStore)) with (∅ : gmap gostr gostr) in Hk.
    rewrite lookup_empty in Hk. discriminate Hk.
  - vm_compute. discriminate.
Qed.

Definition examplePacking := packFile exampleFirst newHub 2 unpackedStore (refOf packedFile).

Lemma unpackedStore_packs : is_ok examplePacking.2 = true /\ length examplePacking.1.2 = 1%nat /\ size (sto_small examplePacking.1.1) = 0%nat.
Proof. vm_compute. repeat split. Qed.

Lemma packFile_keeps_witness :
  let '(s', zips, r) := packFile exampleFirst newHub 2 unpackedStore (refOf packedFile) in
  r = Ok tt /\ length zips = 1%nat /\ st_view (sto_small s') = ∅ /\ bpWf s' /\ bpView s' = bpView unpackedStore.
Proof.
  pose proof (packFile_keeps exampleFirst newHub 2 unpackedStore (refOf packedFile) unpackedStore_wf) as Hk.
  destruct (packFile exampleFirst newHub 2 unpackedStore (refOf packedFile)) as [[s' zips] r] eqn:E.
  assert (is_ok r = true /\ length zips = 1%nat /\ size (sto_small s') = 0%nat) as (Hr & Hz & Hs).
  { pose proof unpackedStore_packs as Hx. unfold examplePacking in Hx. rewrite E in Hx. exact Hx. }
  clear E. destruct r as [[]|e|p|]; [|discriminate Hr..]. split; [reflexivity|]. split; [exact Hz|]. split; [by apply map_size_empty_inv|]. apply Hk.
  destruct zips as [|z [|z' zips]]; [discriminate Hz| |discriminate Hz]. split.
  - intros d d' ->%list_elem_of_singleton ->%list_elem_of_singleton _. reflexivity.
  - intros d d' _ Hd. change (st_view (sto_large unpackedStore)) with (∅ : blobs) in Hd. rewrite lookup_empty in Hd. discriminate Hd.
Defined.

Lemma exampleFirst_in (l : list error) : l <> [] -> exampleFirst l ∈ l.
Proof. destruct l as [|e l]; [done|]. intros _. apply list_elem_of_here. Qed.

Lemma unpackedStore_removes : is_ok (bpRemoveBlobs exampleFirst id 0 unpackedStore [refOf (gs "a")]).2 = true.
Proof. vm_compute. reflexivity. Qed.

Lemma blobpacked_refines_witness :
  let '(s', r) := bpRemoveBlobs exampleFirst id 0 unpackedStore [refOf (gs "a")] in
  r = Ok tt /\ bpWf s' /\ bpView s' = removeSpec (bpView unpackedStore) (filter (fun br => ~ inBoth unpackedStore br) [refOf (gs "a")]).
Proof.
  destruct (blobpacked_refines exampleFirst newHub id exampleFirst_in (fun l => Permutation_refl l) unpackedStore unpackedStore_wf)
    as (_ & _ & _ & _ & _ & Hrm).
  pose proof unpackedStore_removes as Hok. destruct (bpRemoveBlobs exampleFirst id 0 unpackedStore [refOf (gs "a")]) as [s' r] eqn:E.
  destruct r as [[]|e|p|]; [|discriminate Hok..]. split; [reflexivity|].
  refine (Hrm 0 [refOf (gs "a")] s' (Ok tt) _ E). constructor; [apply refOf_good|constructor].
Defined.
