(* ===== verification/PackWhole.v ===== *)
(** Packing a whole file: when it succeeds, the index says where in the zips
    the file's bytes are, and every chunk of the file is in one. *)

From S2P Require Import Prelude Ref Strutil SortedKV Sha1 Storage Enumerate Receive Times Json Schema FileReader FileWriter Claims Zip BlobPacked PackLaws PackOps.

(** * Files made of whole chunks *)

(** In the blobs [m], nested at most [n] deep, the part [p] is made of the
    chunks [l], in order, each of them whole. *)
Fixpoint wholePart (m : blobs) (n : nat) (p : BytesPart) (l : list (Ref * gostr)) : Prop :=
  0 < bp_Size p /\ bp_Offset p = 0 /\ bp_Size p = glen (concat l.*2) /\
  ((Valid (bp_BlobRef p) = true /\ Valid (bp_BytesRef p) = false /\
    exists d, m !! bp_BlobRef p = Some d /\ glen d <= MaxBlobSize /\ l = [(bp_BlobRef p, d)]) \/
   (Valid (bp_BlobRef p) = false /\ Valid (bp_BytesRef p) = true /\
    match n with
    | O => False
    | S n => exists text ss sub ls, m !! bp_BytesRef p = Some text /\ parseSuperset (text, Ok tt) = Ok ss /\
        ss_Type ss ∈ [gs "file"; gs "bytes"] /\ ss_Parts ss = Some <$> sub /\ Forall2 (wholePart m n) sub ls /\
        glen (concat l.*2) < 2 ^ 62 /\ l = concat ls
    end)).

Lemma concat_snd (ls : list (list (Ref * gostr))) : concat (concat ls).*2 = concat ((fun l => concat l.*2) <$> ls).
Proof. induction ls as [|l ls IH]; [done|]. cbn [concat fmap list_fmap]. by rewrite fmap_app, concat_app, IH. Qed.

Lemma wholePart_holds m n p l : wholePart m n p l -> partHolds m n p (concat l.*2).
Proof.
  revert p l. induction n as [|n IH]; intros p l (Hs & Ho & Hl & [(Hb & Hy & d & Hd & Hm & ->)|(Hb & Hy & Hc)]).
  - split_and!; [done|done|lia|]. left. split_and!; [done..|]. exists d. split_and!; [done..|]. rewrite Ho. cbn. by rewrite app_nil_r.
  - done.
  - split_and!; [done|done|lia|]. left. split_and!; [done..|]. exists d. split_and!; [done..|]. rewrite Ho. cbn. by rewrite app_nil_r.
  - destruct Hc as (text & ss & sub & ls & Ht & Hp & Hty & Hsub & Hf & Hlen & ->). split_and!; [done|done|lia|]. right. right.
    split_and!; [done..|]. exists text, ss, sub, ((fun l => concat l.*2) <$> ls). rewrite concat_snd in *. split_and!; [done..| |done|].
    + apply Forall2_fmap_r. eapply Forall2_impl; [exact Hf|]. intros q l' Hq. by apply IH.
    + rewrite Ho. done.
Qed.

(** Every chunk is in the storage. *)
Lemma wholePart_chunks m n p l : wholePart m n p l -> Forall (fun x => m !! x.1 = Some x.2) l.
Proof.
  revert p l. induction n as [|n IH]; intros p l (Hs & Ho & Hl & [(Hb & Hy & d & Hd & Hm & ->)|(Hb & Hy & Hc)]); [by repeat constructor|done|by repeat constructor|].
  destruct Hc as (text & ss & sub & ls & Ht & Hp & Hty & Hsub & Hf & Hlen & ->). apply Forall_concat.
  clear -Hf IH. induction Hf as [|q l sub ls Hq Hf IH']; [constructor|]. constructor; [by eapply IH|done].
Qed.

(** The blob [br] is a file made of the chunks [l]. *)
Definition wholeFile (m : blobs) (n : nat) (br : Ref) (l : list (Ref * gostr)) : Prop :=
  exists text ss ps ls, m !! br = Some text /\ parseSuperset (text, Ok tt) = Ok ss /\
    ss_Type ss ∈ [gs "file"; gs "bytes"] /\ ss_Parts ss = Some <$> ps /\ Forall2 (wholePart m n) ps ls /\
    glen (concat l.*2) < 2 ^ 62 /\ l = concat ls.

Lemma wholeFile_holds m n br l : wholeFile m n br l -> fileHolds m n br (concat l.*2).
Proof.
  intros (text & ss & ps & ls & Ht & Hp & Hty & Hps & Hf & Hl & ->). rewrite concat_snd in *. exists text, ss, ps, ((fun l => concat l.*2) <$> ls).
  split_and!; try done. apply Forall2_fmap_r. eapply Forall2_impl; [exact Hf|]. intros q l'. apply wholePart_holds.
Qed.

Lemma wholeFile_chunks m n br l : wholeFile m n br l -> Forall (fun x => m !! x.1 = Some x.2) l.
Proof.
  intros (text & ss & ps & ls & _ & _ & _ & _ & Hf & _ & ->). apply Forall_concat.
  induction Hf as [|q l ps ls Hq Hf IH]; constructor; [by eapply wholePart_chunks|done].
Qed.

(** * Visiting the chunks *)

Section visiting.
Context {S A : Type} `{FetcherLaws S} (m : blobs) (J : A -> list (Ref * gostr) -> Prop).
Context (fn : S -> A -> list Ref -> BytesPart -> S * A * res unit).

(** The callback keeps the storage and, when it succeeds, has seen the chunk. *)
Hypothesis fn_keeps : forall s a path p, ft_wf s -> ft_view s = m ->
  ft_wf (fn s a path p).1.1 /\ ft_view (fn s a path p).1.1 = m.
Hypothesis fn_sees : forall s a path p d l, ft_wf s -> ft_view s = m -> J a l -> m !! bp_BlobRef p = Some d -> bp_Size p = glen d ->
  (fn s a path p).2 = Ok tt -> J (fn s a path p).1.2 (l ++ [(bp_BlobRef p, d)]).

Hypothesis fn_returns : forall s a path p, ft_wf s -> ft_view s = m -> match (fn s a path p).2 with Ok _ | Err _ => True | _ => False end.

Lemma foreachChunk_sees n : forall depth r fr ps ls path a l, (n < depth)%nat -> rootOk m r ->
  ss_Parts (fr_ss fr) = Some <$> ps -> Forall2 (wholePart m n) ps ls -> J a l ->
  let x := foreachChunk depth fn r fr path a in
  rootOk m x.1.1 /\ (x.2 = Ok tt -> J x.1.2 (l ++ concat ls)) /\ match x.2 with Ok _ | Err _ => True | _ => False end.
Proof using fn_keeps fn_sees fn_returns.
  induction n as [n IHn] using lt_wf_ind. intros [|depth] r fr ps ls path a l Hn Hr Hps Hf HJ; [lia|]. cbn [foreachChunk].
  rewrite Hps. set (path' := path ++ [ss_BlobRef (fr_ss fr)]). clearbody path'. clear Hps fr path.
  revert r a l Hr HJ. induction Hf as [|p lp ps ls Hp Hf IH]; intros r a l Hr HJ; cbn [fmap list_fmap].
  { split; [done|]. split; [|done]. intros _. cbn [concat fst snd]. by rewrite app_nil_r. }
  destruct n as [|n], Hp as (Hs & Ho & Hl & [(Hb & Hy & d & Hd & Hm & ->)|(Hb & Hy & Hc)]).
  2: done.
  3: {
    destruct Hc as (text & ss & sub & lsub & Ht & Hparse & Hty & Hsub & Hfs & Hlen & ->). rewrite Hb, Hy.
    destruct (getSuperset_spec m r (bp_BytesRef p) text ss Hr Ht Hparse) as [Hr1 Hx].
    destruct (getSuperset r (bp_BytesRef p)) as [r1 [ss1|e|q|]]; cbn [fst snd] in *; [|by split_and!|done..]. subst ss1.
    assert (ss_Type (setBlobRef (bp_BytesRef p) ss) = ss_Type ss) as Ht1 by (unfold ss_Type, strField, setBlobRef; by rewrite lookup_insert_ne).
    assert (ss_Parts (setBlobRef (bp_BytesRef p) ss) = Some <$> sub) as Ht2 by (unfold ss_Parts, setBlobRef; by rewrite lookup_insert_ne).
    rewrite concat_snd in Hlen.
    rewrite (ssNewFileReader_ok m n _ sub ((fun l => concat l.*2) <$> lsub)); [|by rewrite Ht1|done| |done].
    2: { apply Forall2_fmap_r. eapply Forall2_impl; [exact Hfs|]. intros q l'. apply wholePart_holds. }
    destruct (IHn n ltac:(lia) depth r1 (MkFR (setBlobRef (bp_BytesRef p) ss) (glen (concat ((fun l => concat l.*2) <$> lsub)))) sub lsub path' a l
      ltac:(lia) Hr1 Ht2 Hfs HJ) as (Hr2 & HJ2 & Hres2).
    destruct (foreachChunk depth fn r1 _ path' a) as [[r2 a2] [[]|e|q|]]; cbn [fst snd] in *; [|by split_and!|done..].
    destruct (IH r2 a2 (l ++ concat lsub) Hr2 (HJ2 eq_refl)) as (Hr3 & HJ3 & Hres3). split; [exact Hr3|]. split; [|exact Hres3].
    intros Hok. specialize (HJ3 Hok). by rewrite <- app_assoc in HJ3. }
  all: rewrite Hy; destruct (fn_keeps (fr_fetcher r) a path' p (ro_wf m r Hr) (ro_view m r Hr)) as [Hwf1 Hv1];
    pose proof (fn_sees (fr_fetcher r) a path' p d l (ro_wf m r Hr) (ro_view m r Hr) HJ Hd) as Hsee; specialize (Hsee ltac:(rewrite Hl; cbn; by rewrite app_nil_r));
    pose proof (fn_returns (fr_fetcher r) a path' p (ro_wf m r Hr) (ro_view m r Hr)) as Hret;
    destruct (fn (fr_fetcher r) a path' p) as [[s1 a1] x]; cbn [fst snd] in *;
    assert (rootOk m (MkRoot s1 (lastBlob r) (ssm r))) as Hr1 by (constructor; [done|done|apply Hr|apply Hr]);
    destruct x as [[]|e|q|]; [|by split_and!|done..];
    destruct (IH (MkRoot s1 (lastBlob r) (ssm r)) a1 (l ++ [(bp_BlobRef p, d)]) Hr1 (Hsee eq_refl)) as (Hr3 & HJ3 & Hres3); (split; [exact Hr3|]); (split; [|exact Hres3]);
    intros Hok; specialize (HJ3 Hok); by rewrite <- app_assoc in HJ3.
Qed.
End visiting.

(** * Copying the file *)

Section packing.
Context {SM LG K : Type} `{StorageLaws SM} `{SubFetcherLaws LG} `{KVSteady K} `{!Flate}.
Abbreviation sto := (storage SM LG K).
Implicit Types s : sto.

(** What [io.Copy] reads is the file. *)
Lemma copyLoop_reads V (data : gostr) depth fr : fetches (S := sto) -> fr_size fr = glen data ->
  (forall (r : frRoot sto) want off, rootOk V r -> 0 <= off -> readsOf V (ReadAt depth r fr want off) (take (Z.to_nat want) (drop (Z.to_nat off) data))
    (if glen data <=? off then Some ErrEOF else if (want <=? 0) || (off + want <=? glen data) then None else Some ErrUnexpectedEOF)) ->
  forall fuel (r : frRoot sto) off w, rootOk V r -> 0 <= off <= glen data ->
    (copyLoop depth fuel r fr off (take (Z.to_nat off) data)).2 = Ok w -> w = data.
Proof.
  intros Hfet Hsz Hread. induction fuel as [|fuel IH]; intros r off w Hr Hoff; cbn [copyLoop]; [done|].
  unfold readSection. rewrite Hsz. destruct (Z.leb_spec (glen data) off) as [Hle|Hlt].
  { cbn [sbind fst snd]. rewrite decide_True by done. intros [= <-]. rewrite app_nil_r. apply take_ge. unfold glen in *. lia. }
  set (want := copyBufferSize `min` (glen data - off)).
  assert (0 < want /\ want <= glen data - off) as [Hw1 Hw2] by (unfold want, copyBufferSize; lia).
  destruct (Hread r want off Hr ltac:(lia)) as (Hr' & bs & e & Hx & _ & _ & Hf). destruct (Hf Hfet) as [-> ->].
  destruct (ReadAt depth r fr want off) as [r' x]. cbn [fst snd] in *. subst x. cbn [sbind fst snd].
  rewrite (proj2 (Z.leb_gt (glen data) off)) by done. rewrite (proj2 (Z.leb_gt want 0)) by done. rewrite (proj2 (Z.leb_le (off + want) (glen data))) by lia. cbn [orb].
  assert (take (Z.to_nat off) data ++ take (Z.to_nat want) (drop (Z.to_nat off) data) = take (Z.to_nat (off + want)) data) as ->.
  { rewrite take_take_drop. f_equal. lia. }
  assert (glen (take (Z.to_nat want) (drop (Z.to_nat off) data)) = want) as ->.
  { unfold glen in *. rewrite length_take, length_drop. lia. }
  intros Hw. apply (IH r' (off + want)); [done|lia|done].
Qed.
End packing.

(** * The rows of the whole file *)

Section whole.
Context {SM LG K : Type} `{StorageLaws SM} `{SubFetcherLaws LG} `{KVSteady K} `{!Flate}.
Abbreviation sto := (storage SM LG K).
Implicit Types s : sto.

Definition partKey (w : Ref) (i : nat) : gostr := wholeKey w ++ gs ":" ++ itoa (Z.of_nat i).

(** The [i]-th row says that the [piece] of the file that starts at [off] is
    in the zip, and where. *)
Definition partRow s (w : Ref) (i : nat) (zip piece : gostr) (off : Z) : Prop :=
  exists start, kv_view (sto_meta s) !! partKey w i =
      Some (RefString (refOf zip) ++ gs " " ++ itoa start ++ gs " " ++ itoa off ++ gs " " ++ itoa (glen piece)) /\
    st_view (sto_large s) !! refOf zip = Some zip /\ sits zip start piece.

Lemma partKey_inj w i j : Z.of_nat i < 2 ^ 64 -> Z.of_nat j < 2 ^ 64 -> partKey w i = partKey w j -> i = j.
Proof using. unfold partKey. intros Hi Hj He. apply app_inv_head, app_inv_head, itoa_inj in He; lia. Qed.

Lemma zipBatch_rows pk zipRef start n blobs m :
  let m' := applyMutations m (zipBatch pk zipRef start n blobs) in
  m' !! partKey (pk_wholeRef pk) (length (pk_zips pk)) =
    Some (RefString zipRef ++ gs " " ++ itoa start ++ gs " " ++ itoa (pk_wholeBytesWritten pk) ++ gs " " ++ itoa n) /\
  (forall i, partKey (pk_wholeRef pk) i <> partKey (pk_wholeRef pk) (length (pk_zips pk)) -> m' !! partKey (pk_wholeRef pk) i = m !! partKey (pk_wholeRef pk) i) /\
  (forall br, is_Some (m !! blobKey br) \/ br ∈ bap_Ref <$> blobs -> is_Some (m' !! blobKey br)).
Proof using.
  intros m'. set (row := RefString zipRef ++ gs " " ++ itoa start ++ gs " " ++ itoa (pk_wholeBytesWritten pk) ++ gs " " ++ itoa n).
  set (head := Mutation (partKey (pk_wholeRef pk) (length (pk_zips pk))) row false).
  assert (m' = applyMutations (applyMutations m [head]) ((fun zb => Mutation (zbKey zb) (metaRow zipRef zb) false) <$> blobs)) as -> by reflexivity.
  assert (forall i zb, partKey (pk_wholeRef pk) i <> zbKey zb) as Hne.
  { intros i zb He. apply (whole_not_blob (zbKey zb) (RefString (pk_wholeRef pk) ++ gs ":" ++ itoa (Z.of_nat i))); [by apply prefix_app_r|].
    rewrite <- He. unfold partKey, wholeKey. by rewrite <- app_assoc. }
  assert (forall i, applyMutations (applyMutations m [head]) ((fun zb => Mutation (zbKey zb) (metaRow zipRef zb) false) <$> blobs) !! partKey (pk_wholeRef pk) i =
    applyMutations m [head] !! partKey (pk_wholeRef pk) i) as Hw.
  { intros i. destruct (applyRows zipRef blobs (applyMutations m [head]) (partKey (pk_wholeRef pk) i)) as [(zb & _ & He & _)|[_ He]]; [by apply Hne in He|done]. }
  split; [rewrite Hw; apply lookup_insert_eq|]. split; [intros i Hi; rewrite Hw; by apply lookup_insert_ne|].
  intros br Hbr. destruct (applyRows zipRef blobs (applyMutations m [head]) (blobKey br)) as [(zb & _ & _ & He)|[Hn He]]; [rewrite He; by eexists|].
  destruct Hbr as [Hs|(zb & -> & Hin)%list_elem_of_fmap]; [|by destruct (Hn zb Hin)].
  rewrite He. unfold applyMutations, head. cbn [foldl applyMutation m_delete m_key m_value]. rewrite lookup_insert_ne; [done|].
  unfold partKey, wholeKey. rewrite <- app_assoc. apply whole_not_blob. by apply prefix_app_r.
Qed.

(** How far the file has been written, while its zips are. *)
Definition wholeInv (l : list (Ref * gostr)) s (pk : packer) : Prop := exists k pieces,
  pk_chunksRemain pk = drop k l.*1 /\ concat pieces = concat (take k l).*2 /\
  pk_wholeBytesWritten pk = glen (concat pieces) /\ length pieces = length (pk_zips pk) /\
  (forall i z piece, pk_zips pk !! i = Some z -> pieces !! i = Some piece ->
    partRow s (pk_wholeRef pk) i (wz_zip z) piece (glen (concat (take i pieces)))) /\
  (forall br, br ∈ take k l.*1 -> is_Some (kv_view (sto_meta s) !! blobKey br)).

Lemma wholeInv_steady l s s' pk : steady s s' -> wholeInv l s pk -> wholeInv l s' pk.
Proof using.
  intros Hst (k & pieces & Hrest & Hc & Hw & Hl & Hrows & Hin). exists k, pieces. split_and!; [done..| |].
  - intros i z piece Hz Hp. destruct (Hrows i z piece Hz Hp) as (start & Hk & Hlg & Hs). exists start.
    by rewrite (sd_meta s s' Hst), (sd_large s s' Hst).
  - by rewrite (sd_meta s s' Hst).
Qed.

(** The chunks written are the next ones of the file. *)
Lemma chunks_are V pk (l : list (Ref * gostr)) ds : goodBlobs V -> Forall (fun x => V !! x.1 = Some x.2) l ->
  Forall2 (chunkOf V pk) l.*1 ds -> ds = l.*2.
Proof using.
  intros Hg Hl. revert ds. induction Hl as [|[r d] l Hd Hl IH]; intros ds Hf; [by inversion Hf|].
  rewrite fmap_cons in Hf. apply Forall2_cons_inv_l in Hf as (d' & ds' & [Hk _] & Hf & ->). cbn [fst snd] in *.
  rewrite fmap_cons. cbn [snd]. f_equal; [|by apply IH].
  apply known_good in Hk; [congruence|done|]. by apply (Hg r d Hd).
Qed.

Lemma wholeInv_zip V l s s' pk pk' : goodBlobs V -> Forall (fun x => V !! x.1 = Some x.2) l -> glen (pk_zips pk') < 2 ^ 64 ->
  zipWritten V s s' pk pk' -> wholeInv l s pk -> wholeInv l s' pk'.
Proof using.
  intros Hg Hl Hmax (hdr & fl & zip & blobs & j & Hfl & Hdata & Hpre & _ & Hrefs & -> & Hz & Hsub & Hm) (k & pieces & Hrest & Hc & Hw & Hlen & Hrows & Hin).
  destruct (fo_data _ _ _ _ Hfl) as (ds & Hds & Hcont). rewrite Hdata, Hrest in Hds. rewrite <- fmap_drop, <- fmap_take in Hds.
  assert (ds = (take j (drop k l)).*2) as ->.
  { eapply chunks_are; [exact Hg| |exact Hds]. by apply Forall_take, Forall_drop. }
  set (n := length (fl_data fl)). assert (n = length (take j (drop k l))) as Hn by (unfold n; rewrite Hdata, Hrest, <- fmap_drop, <- fmap_take; apply length_fmap).
  assert (take n (drop k l) = take j (drop k l)) as Htn by (rewrite Hn, length_take; destruct (decide (j <= length (drop k l))%nat); [f_equal; lia|rewrite !take_ge; [done|lia|lia]]).
  cbn [pk_zips pkConsume pkAddZip] in Hmax. unfold glen in Hmax. rewrite length_app in Hmax. cbn [length] in Hmax.
  destruct (zipBatch_rows pk (refOf zip) (glen hdr) (fl_bytes fl) blobs (kv_view (sto_meta s))) as (Hnew & Hold & Hblob). cbv zeta in Hnew, Hold, Hblob.
  exists (k + n)%nat, (pieces ++ [fl_content fl]). cbn [pk_chunksRemain pk_wholeBytesWritten pk_zips pk_wholeRef pkConsume pkAddZip].
  split_and!.
  - rewrite Hrest, drop_drop. done.
  - rewrite concat_app, Hc, <- take_take_drop, fmap_app, concat_app, Htn, <- Hcont. simpl. by rewrite app_nil_r.
  - rewrite concat_app, glen_app, Hw, (fo_bytes _ _ _ _ Hfl). simpl. by rewrite app_nil_r.
  - rewrite !length_app. simpl. lia.
  - intros i z piece Hzi Hpi. destruct (decide (i = length pieces)) as [->|Hne].
    + rewrite list_lookup_middle in Hpi by done. injection Hpi as <-. rewrite Hlen, list_lookup_middle in Hzi by done. injection Hzi as <-. cbn [wz_zip].
      rewrite take_app_length. exists (glen hdr). split; [|split; [done|]].
      * rewrite Hm, Hlen, Hnew, Hw, (fo_bytes _ _ _ _ Hfl). done.
      * destruct Hpre as [rest ->]. exists hdr, rest. by rewrite <- app_assoc.
    + assert (i < length pieces)%nat as Hi by (apply lookup_lt_Some in Hpi; rewrite length_app in Hpi; simpl in Hpi; lia).
      rewrite lookup_app_l in Hpi by done. rewrite lookup_app_l in Hzi by lia. rewrite take_app_le by lia.
      destruct (Hrows i z piece Hzi Hpi) as (start & Hk & Hlg & Hs). exists start. split; [|split; [by eapply lookup_weaken|done]].
      rewrite Hm, Hold; [done|]. intros He. apply partKey_inj in He; lia.
  - intros br Hbr. rewrite Hm. apply Hblob. rewrite <- take_take_drop in Hbr. apply elem_of_app in Hbr as [Hbr|Hbr]; [left; by apply Hin|right].
    rewrite Hrefs. apply elem_of_app. left. rewrite Hdata, Hrest, <- fmap_drop, <- fmap_take, <- Htn, fmap_take, fmap_drop. done.
Qed.

Context (firstErr : list error -> error) (hub : memHub).

(** ** Scanning *)

Lemma scanSchemas_fields s pk seen path :
  let '(_, (pk', _), _) := scanSchemas s pk seen path in
  pk_dataRefs pk' = pk_dataRefs pk /\ pk_dataSize pk' = pk_dataSize pk /\ pk_zips pk' = pk_zips pk /\
  pk_wholeBytesWritten pk' = pk_wholeBytesWritten pk /\ pk_fr pk' = pk_fr pk.
Proof using.
  revert s pk seen. induction path as [|q path IH]; intros s pk seen; cbn [scanSchemas]; [done|].
  destruct (decide _); [apply IH|]. destruct (FromFetcher s q) as [s1 [b|e|p|]]; [|done..].
  specialize (IH s1 (pkSetSchemaBlob (pkAddSchemaRef pk q) q b) ({[q]} ∪ seen)).
  by destruct (scanSchemas s1 _ _ path) as [[s2 [pk2 seen2]] x].
Qed.

Lemma scanSchemas_steady s0 s pk seen path : bpWf s0 -> steady s0 s -> steady s0 (scanSchemas s pk seen path).1.1.
Proof.
  intros Hwf. revert s pk seen. induction path as [|q path IH]; intros s pk seen Hs; cbn [scanSchemas]; [done|].
  destruct (decide _); [by apply IH|]. unfold FromFetcher. pose proof (steady_fetch s0 s q Hwf Hs) as Hf.
  destruct (st_Fetch s q) as [s1 [[d sz]|e|p|]]; cbn [fst] in Hf; [|done..].
  destruct (FromReader _ _); [by apply IH|done..].
Qed.

Lemma scanChunk_keeps s a path p : bpWf s -> bpWf (scanChunk s a path p).1.1 /\ bpView (scanChunk s a path p).1.1 = bpView s.
Proof.
  intros Hwf. apply steady_wf; [done|]. unfold scanChunk. destruct (negb _); [by apply steady_refl|]. destruct (decide _); [by apply steady_refl|].
  pose proof (scanSchemas_steady s s (pkChunk a.1 (bp_BlobRef p) (u32 (bp_Size p)) path) a.2 path Hwf (steady_refl s Hwf)) as Hs.
  by destruct (scanSchemas s _ _ path) as [[s1 [pk1 seen1]] [u|e|q|]].
Qed.

(** What the scan has noted of the chunks it has seen. *)
Definition scannedChunks (fr : FileReader) (a : packer * gset Ref) (l : list (Ref * gostr)) : Prop :=
  pk_dataRefs a.1 = l.*1 /\ pk_zips a.1 = [] /\ pk_wholeBytesWritten a.1 = 0 /\ pk_fr a.1 = fr.

Lemma scanChunk_sees fr s a path p d l : scannedChunks fr a l ->
  (scanChunk s a path p).2 = Ok tt -> scannedChunks fr (scanChunk s a path p).1.2 (l ++ [(bp_BlobRef p, d)]).
Proof using.
  intros (Hr & Hz & Hw & Hfr). unfold scanChunk. destruct (negb _); [done|]. destruct (decide _); [done|].
  pose proof (scanSchemas_fields s (pkChunk a.1 (bp_BlobRef p) (u32 (bp_Size p)) path) a.2 path) as Hs.
  destruct (scanSchemas s _ _ path) as [[s1 [pk1 seen1]] [u|e|q|]]; [|done..]. intros _. destruct Hs as (Hs1 & _ & Hs2 & Hs3 & Hs4).
  split_and!; cbn [fst snd pk_dataRefs pk_zips pk_wholeBytesWritten pk_fr pkAddData]; [|by rewrite Hs2|by rewrite Hs3|by rewrite Hs4].
  rewrite Hs1, fmap_app. cbn [pk_dataRefs pkChunk]. by rewrite Hr.
Qed.

(** Nothing but an error stops a scan. *)
Lemma scanSchemas_returns s pk seen path : bpWf s -> match (scanSchemas s pk seen path).2 with Ok _ | Err _ => True | _ => False end.
Proof.
  intros Hwf. revert s pk seen Hwf. induction path as [|q path IH]; intros s pk seen Hwf; cbn [scanSchemas]; [done|].
  destruct (decide _); [by apply IH|]. unfold FromFetcher. destruct (st_Fetch s q) as [s1 x] eqn:E. change (bpFetch s q = (s1, x)) in E.
  apply bpFetch_ok in E as [Hst Hr]; [|done]. destruct (steady_wf s s1 Hwf Hst) as [Hwf1 _].
  destruct x as [[d sz]|e|p|]; [|done..]. unfold FromReader. cbn [fst snd]. destruct (_ <? _); [done|]. destruct (_ <? _); [done|]. destruct (_ <? _); [done|]. by apply IH.
Qed.

Lemma scanChunk_returns s a path p : bpWf s -> match (scanChunk s a path p).2 with Ok _ | Err _ => True | _ => False end.
Proof.
  intros Hwf. unfold scanChunk. destruct (negb _); [done|]. destruct (decide _); [done|].
  pose proof (scanSchemas_returns s (pkChunk a.1 (bp_BlobRef p) (u32 (bp_Size p)) path) a.2 path Hwf) as Hs.
  by destruct (scanSchemas s _ _ path) as [[s1 [pk1 seen1]] [u|e|q|]].
Qed.

Lemma scanChunks_sees n depth (r : frRoot sto) fr ps ls s0 : (n < depth)%nat -> bpWf s0 -> rootOk (bpView s0) r ->
  ss_Parts (fr_ss fr) = Some <$> ps -> Forall2 (wholePart (bpView s0) n) ps ls ->
  let '(r', pk', x) := scanChunks depth r (newPacker fr) in
  rootOk (bpView s0) r' /\ (x = Ok tt -> pk_dataRefs pk' = (concat ls).*1 /\ pk_zips pk' = [] /\ pk_wholeBytesWritten pk' = 0 /\ pk_fr pk' = fr) /\
  match x with Ok _ | Err _ => True | _ => False end.
Proof.
  intros Hn Hwf Hr Hps Hf. unfold scanChunks. change (pk_fr (newPacker fr)) with fr.
  pose proof (foreachChunk_sees (S := sto) (bpView s0) (scannedChunks fr) scanChunk) as Hx.
  ospecialize (Hx _ _ _ n depth r fr ps ls [] (newPacker fr, ∅) [] Hn Hr Hps Hf _).
  - intros s a path p Hs Hv. change (bpWf s) in Hs. change (bpView s = bpView s0) in Hv. rewrite <- Hv. by apply scanChunk_keeps.
  - intros s a path p d l _ _ HJ _ _. by apply scanChunk_sees.
  - intros s a path p Hs _. by apply scanChunk_returns.
  - done.
  - cbv zeta in Hx. destruct (foreachChunk depth scanChunk r fr [] (newPacker fr, ∅)) as [[r1 [pk1 seen1]] x]. exact Hx.
Qed.

(** ** All of it *)

Lemma partRow_meta s k w i zip piece off : kv_view k !! partKey w i = kv_view (sto_meta s) !! partKey w i ->
  partRow s w i zip piece off -> partRow (setMeta s k) w i zip piece off.
Proof using. intros Hk (start & Hrow & Hrest). exists start. cbn [sto_meta sto_large setMeta]. by rewrite Hk. Qed.

Lemma partKey_whole w i : partKey w i <> wholeKey w.
Proof using. unfold partKey. intros He. rewrite <- (app_nil_r (wholeKey w)) in He at 2. by apply app_inv_head in He. Qed.

(** A blob of the storage that has a row is packed. *)
Lemma rowed_packed s br d : bpWf s -> bpView s !! br = Some d -> is_Some (kv_view (sto_meta s) !! blobKey br) -> packed s br d.
Proof using.
  intros Hwf Hd [v Hrow]. pose proof (bpView_good s Hwf br d Hd) as [Hg _].
  destruct (bw_rows s Hwf _ _ Hrow) as (br' & lref & z & off & d' & Hg' & He & -> & Hz & Hs). apply goodRef_inj in He as <-; [|done..].
  assert (packed s br d') as Hp by by exists lref, z, off. assert (bpView s !! br = Some d') by (apply lookup_bpView; [done|by left]).
  by replace d with d' by congruence.
Qed.

Lemma wholeParts_read V n depth (r : frRoot sto) fr ps ls want off : (n < depth)%nat -> rootOk V r ->
  ss_Parts (fr_ss fr) = Some <$> ps -> Forall2 (wholePart V n) ps ls -> let data := concat (concat ls).*2 in
  glen data < 2 ^ 62 -> fr_size fr = glen data -> 0 <= off ->
  readsOf V (ReadAt depth r fr want off) (take (Z.to_nat want) (drop (Z.to_nat off) data))
    (if glen data <=? off then Some ErrEOF else if (want <=? 0) || (off + want <=? glen data) then None else Some ErrUnexpectedEOF).
Proof using.
  intros Hn Hr Hps Hf data Hl Hsz Hoff. unfold data in *. rewrite concat_snd in *.
  apply (ReadAt_spec V n _ _ _ ps _); try done. apply Forall2_fmap_r. eapply Forall2_impl; [exact Hf|]. intros q l'. apply wholePart_holds.
Qed.

Lemma pack_whole s0 us n depth r fr ps ls s' pk' :
  let l := concat ls in let data := concat l.*2 in
  fetches (S := sto) -> bpWf s0 -> noCollision (st_view (sto_large s0)) us -> wz_zip <$> pk_zips pk' ⊆ us -> glen (pk_zips pk') < 2 ^ 64 ->
  (n < depth)%nat -> rootOk (bpView s0) r -> steady s0 (fr_fetcher r) -> ss_Parts (fr_ss fr) = Some <$> ps -> Forall2 (wholePart (bpView s0) n) ps ls ->
  glen data < 2 ^ 62 -> fr_size fr = glen data ->
  pack firstErr hub depth r (newPacker fr) = (s', pk', Ok tt) ->
  bpWf s' /\ bpView s' = bpView s0 /\
  kv_view (sto_meta s') !! wholeKey (refOf data) = Some (itoa (glen data) ++ gs " " ++ itoa (glen (pk_zips pk'))) /\
  (exists pieces, length pieces = length (pk_zips pk') /\ concat pieces = data /\
    forall i z piece, pk_zips pk' !! i = Some z -> pieces !! i = Some piece ->
      partRow s' (refOf data) i (wz_zip z) piece (glen (concat (take i pieces)))) /\
  (forall br, br ∈ l.*1 -> is_Some (kv_view (sto_meta s') !! blobKey br)).
Proof.
  intros l data Hfet Hwf Hnc Hus Hmax Hn Hr Hst Hps Hf Hlen Hsz Hpack.
  assert (scanned s0 (fr_fetcher r) (newPacker fr, ∅)) as Hscan by by split_and!.
  destruct (pack_ok firstErr hub s0 us depth r (newPacker fr) s' pk' (Ok tt) Hwf Hnc Hus Hscan Hpack) as (Hwf' & Hv' & _).
  split; [done|]. split; [done|]. unfold pack in Hpack.
  pose proof (scanChunks_ok s0 depth r (newPacker fr) Hwf Hscan) as Hsc. pose proof (scanChunks_sees n depth r fr ps ls s0 Hn Hwf Hr Hps Hf) as Hse.
  destruct (scanChunks depth r (newPacker fr)) as [[r1 pk1] y]. cbn [fst snd] in *. destruct Hsc as (Hst1 & Hsk & Hz), Hse as (Hr1 & Hse & _).
  destruct y as [[]|e|p|]; [|done..]. destruct (Hse eq_refl) as (Hrefs & _ & Hwr & Hfr). rewrite Hfr in Hpack. clear Hse.
  unfold copyFile in Hpack.
  pose proof (copyLoop_ok s0 depth (2 + Z.to_nat (fr_size fr)) r1 fr 0 [] Hwf Hst1) as Hst2.
  pose proof (copyLoop_reads (bpView s0) data depth fr Hfet Hsz) as Hcopy.
  destruct (copyLoop depth (2 + Z.to_nat (fr_size fr)) r1 fr 0 []) as [r2 [whole|e|p|]] eqn:Ec; [|done..]. cbn [fst] in Hst2.
  assert (whole = data) as ->.
  { apply (Hcopy (fun q want off Hq Ho => wholeParts_read (bpView s0) n depth q fr ps ls want off Hn Hq Hps Hf Hlen Hsz Ho)
      (2 + Z.to_nat (fr_size fr))%nat r1 0); [done| |].
    - pose proof (glen_nonneg data). lia.
    - change (take (Z.to_nat 0) data) with (@nil ascii). rewrite Ec. done. }
  clear Hcopy Ec. destruct (kv_get _ _) as [v|e|p|]; [done| |done..]. destruct (decide _); [|done].
  set (pk2 := pkSetWhole pk1 (refOf data) (glen data)) in *.
  destruct (makeZips firstErr hub (packFuel pk2) (fr_fetcher r2) pk2 zeroRef) as [[s3 pk3] y] eqn:Emk. destruct y as [[]|e'|p|]; [|done..].
  destruct (kv_set _ _ (sto_meta s3)) as [[e'|] k] eqn:Ek; [done|]. injection Hpack as <- <-. apply kv_set_ok in Ek.
  destruct (steady_wf s0 _ Hwf Hst2) as [Hwf2 Hv2].
  assert (Forall (fun x => bpView s0 !! x.1 = Some x.2) l) as Hchunks.
  { apply Forall_concat. clear -Hf. induction Hf as [|q lq ps ls Hq Hf IH]; constructor; [by eapply wholePart_chunks|done]. }
  eapply (makeZips_ok firstErr hub (bpView s0) s0 us (fun s pk => glen (pk_zips pk) < 2 ^ 64 -> wholeInv l s pk)) in Emk
    as (_ & _ & _ & Hafter & _ & _ & Hdone); [|done|done|done|done|done|..]; cycle 1.
  { intros q z Hq. left. by rewrite <- (sd_large s0 _ Hst2). }
  { intros s s1 pk Hs HP Hm. eapply wholeInv_steady; [exact Hs|auto]. }
  { intros s s1 pk pk' Hzw HP Hm. eapply wholeInv_zip; [exact (bpView_good s0 Hwf)|exact Hchunks|exact Hm|exact Hzw|].
    apply HP. destruct Hzw as (hdr & fl & zip & blobs & j & _ & _ & _ & _ & _ & -> & _). cbn [pk_zips pkConsume pkAddZip] in Hm.
    rewrite glen_app in Hm. unfold glen in Hm at 2. cbn [length] in Hm. lia. }
  { intros _. exists 0%nat, []. cbn [pk_chunksRemain pk_wholeBytesWritten pk_zips pk2 pkSetWhole take concat drop fmap list_fmap]. rewrite Hz. split_and!; try done.
    by intros br ?%elem_of_nil. }
  destruct (Hdone eq_refl) as [HP Hend]. destruct (HP Hmax) as (j & pieces & Hrest & Hc & _ & Hlp & Hrows & Hin). clear HP Hdone.
  destruct Hafter as (_ & _ & Hwref & Hwsize & _). rewrite Hend in Hrest. cbn [pk_wholeRef pk_wholeSize pk2 pkSetWhole] in Hwref, Hwsize. rewrite Hwref in *.
  assert (length l <= j)%nat as Hj by (apply (f_equal length) in Hrest; rewrite length_drop, length_fmap in Hrest; simpl in Hrest; lia).
  rewrite (take_ge l j) in Hc by done. rewrite (take_ge l.*1 j) in Hin by by rewrite length_fmap.
  split; [|split].
  - cbn [sto_meta setMeta]. rewrite Ek, Hwsize. apply lookup_insert_eq.
  - exists pieces. split; [done|]. split; [done|]. intros i z piece Hzi Hpi. apply partRow_meta; [|by apply Hrows].
    rewrite Ek. apply lookup_insert_ne. intros He. by apply (partKey_whole (refOf data) i).
  - intros br Hbr. cbn [sto_meta setMeta]. rewrite Ek, lookup_insert_ne; [by apply Hin|]. unfold wholeKey. apply whole_not_blob. by apply prefix_app_r.
Qed.

(** C11. Packing a whole file.  When [packFile] succeeds on a file made of
    whole chunks, and the storage does not fail, the index has a row of the
    file's own reference with its size and the number of zips, and a row for
    each zip that says where a piece of the file is in it; the pieces, in
    order, are the file's bytes.  Every chunk of the file is packed, and the
    storage holds the same blobs as before. *)
Theorem packFile_whole n depth s fileRef chunks s' zips :
  let data := concat chunks.*2 in
  fetches (S := sto) -> bpWf s -> (n < depth)%nat -> wholeFile (bpView s) n fileRef chunks ->
  noCollision (st_view (sto_large s)) (wz_zip <$> zips) -> glen zips < 2 ^ 64 ->
  packFile firstErr hub depth s fileRef = (s', zips, Ok tt) ->
  bpView s' = bpView s /\
  kv_view (sto_meta s') !! wholeKey (refOf data) = Some (itoa (glen data) ++ gs " " ++ itoa (glen zips)) /\
  (exists pieces, length pieces = length zips /\ concat pieces = data /\
    forall i z piece, zips !! i = Some z -> pieces !! i = Some piece ->
      partRow s' (refOf data) i (wz_zip z) piece (glen (concat (take i pieces)))) /\
  Forall (fun x => packed s' x.1 x.2) chunks.
Proof.
  intros data Hfet Hwf Hn Hfile Hnc Hmax Hpack. pose proof (wholeFile_chunks _ _ _ _ Hfile) as Hch.
  destruct Hfile as (text & ss & ps & ls & Ht & Hp & Hty & Hps & Hf & Hlen & ->).
  assert (Valid fileRef = true) as Hvalid.
  { destruct (bpView_good s Hwf fileRef text Ht) as [[Hw _] _]. unfold Valid, refWf in *. by destruct (digest fileRef). }
  unfold packFile in Hpack. destruct (NewFileReader s fileRef) as [s1 y] eqn:En.
  destruct (NewFileReader_inv (steady s) (fun a br => steady_fetch s a br Hwf) s fileRef s1 y (steady_refl s Hwf) En) as [Hst Hr0].
  pose proof (NewFileReader_opens (S := sto) s fileRef text ss ps ((fun l => concat l.*2) <$> ls) n Hwf Hvalid Ht Hp Hty Hps) as Hopen.
  change (ft_view s) with (bpView s) in Hopen. rewrite En in Hopen. unfold data in *. rewrite <- concat_snd in Hopen.
  ospecialize (Hopen _ Hlen). { apply Forall2_fmap_r. eapply Forall2_impl; [exact Hf|]. intros q l'. apply wholePart_holds. }
  destruct y as [[r fr]|e|p|]; [|done..]. destruct Hopen as (Hroot & Hsz & Hparts). specialize (Hr0 r fr eq_refl).
  destruct (pack firstErr hub depth r (newPacker fr)) as [[s2 pk2] z] eqn:Ep. injection Hpack as <- <- ->.
  destruct (pack_whole s (wz_zip <$> pk_zips pk2) n depth r fr ps ls s2 pk2 Hfet Hwf Hnc) as (Hwf2 & Hv2 & Hrow & Hpieces & Hrows);
    [done|done|done|done|by rewrite Hr0|done|done|done|done|done|].
  split; [done|]. split; [done|]. split; [done|]. apply Forall_forall. intros [br d] Hin. cbn [fst snd].
  rewrite Forall_forall in Hch. specialize (Hch _ Hin). cbn [fst snd] in Hch.
  apply rowed_packed; [done|by rewrite Hv2|]. apply Hrows. by apply (list_elem_of_fmap_2 fst) in Hin.
Qed.
End whole.

(** * An example *)

(** A packing storage of storages and of an index that do not fail does not
    fail. *)
Lemma bp_fetches {SM LG K : Type} `{StorageLaws SM} `{SubFetcherLaws LG} `{KVSteady K} `{!Flate} :
  fetches (S := SM) -> (forall (lg : LG) br off n d, st_wf lg -> st_view lg !! br = Some d -> 0 <= off -> 0 <= n -> off + n <= glen d ->
    is_ok (st_SubFetch lg br off n).2 = true) ->
  (forall k (x : K) e, kv_get k x = Err e -> e = ErrNotFound) -> fetches (S := storage SM LG K).
Proof.
  intros Hsm Hlg Hkv s br d Hwf Hd. change (bpWf s) in Hwf. change (bpView s !! br = Some d) in Hd.
  change (is_ok (bpFetch s br).2 = true). pose proof (bpView_good s Hwf br d Hd) as [Hg _].
  unfold bpFetch. pose proof (getMetaRow_spec s br Hwf) as Hm. unfold getMetaRow in *.
  pose proof (Hkv (blobMetaPrefix ++ RefString br) (sto_meta s)) as Hk.
  destruct (kv_get _ _) as [v|e|p|] eqn:Ekv; [| |done..].
  - destruct (parseMetaRow v) as [m|e|p|] eqn:Em; [|exfalso|done..]; cbn [sbind].
    + destruct Hm as [[-> _]|(br' & lref & z & off & d' & -> & Hg' & He & Hp & Hz & Hs & Hv)].
      * cbn [m_exists noMeta negb orb]. apply kv_get_Ok in Ekv. destruct (bw_rows s Hwf _ _ Ekv) as (br' & lref & z & off & d' & _ & _ & -> & Hz & Hs).
        destruct (sits_fits _ _ _ _ _ (st_wf_good _ (bw_large s Hwf)) Hz Hs) as (Hw & Hn & Ho). rewrite parseMetaRow_row in Em by done. done.
      * cbn [m_exists negb orb]. unfold isPacked. cbn [m_largeRef m_largeOff m_size]. rewrite Hv. cbn [negb].
        destruct (sits_bounds _ _ _ Hs) as [Ho Hb]. pose proof (glen_nonneg d').
        pose proof (Hlg (sto_large s) lref off (glen d') z (bw_large s Hwf) Hz Ho ltac:(lia) ltac:(lia)) as Hok.
        destruct (st_SubFetch (sto_large s) lref off (glen d')) as [lg r0] eqn:E.
        eapply st_SubFetch_law in E as (_ & _ & Hr); [|apply Hwf|exact Hz|lia..]. destruct r0 as [part|e|p|]; [|done..]. by subst part.
    + apply kv_get_Ok in Ekv. destruct (bw_rows s Hwf _ _ Ekv) as (br' & lref & z & off & d' & _ & _ & -> & Hz & Hs).
      destruct (sits_fits _ _ _ _ _ (st_wf_good _ (bw_large s Hwf)) Hz Hs) as (Hw & Hn & Ho). rewrite parseMetaRow_row in Em by done. done.
  - rewrite (Hk e eq_refl) in *. rewrite decide_True in * by done. cbn [sbind m_exists noMeta negb orb].
    destruct Hm as [[_ Hn]|(br' & ? & ? & ? & ? & Hm & _)]; [|done].
    assert (st_view (sto_small s) !! br = Some d) as Hds.
    { apply lookup_bpView in Hd as [[_ (? & ? & ? & Hrow & _)]|?]; [|done..]. unfold blobKey in *. congruence. }
    pose proof (Hsm (sto_small s) br d (bw_small s Hwf) Hds) as Hok. by destruct (st_Fetch (sto_small s) br) as [sm [x|e'|p|]].
Qed.

#[local] Existing Instance idFlate.

Definition packedChunks : list (Ref * gostr) := [(refOf (gs "a"), gs "a"); (refOf (gs "bc"), gs "bc")].

Lemma unpackedStore_has d : d ∈ [gs "a"; gs "bc"; packedFile] -> bpView unpackedStore !! refOf d = Some d.
Proof.
  intros Hd. apply lookup_bpView; [exact unpackedStore_wf|]. right. change (st_view (sto_small unpackedStore)) with (blobsOf [gs "a"; gs "bc"; packedFile]).
  assert (forallb (fun d => bool_decide (blobsOf [gs "a"; gs "bc"; packedFile] !! refOf d = Some d)) [gs "a"; gs "bc"; packedFile] = true) as Hall
    by (vm_compute; reflexivity).
  rewrite forallb_forall in Hall. apply (bool_decide_eq_true _), Hall. by apply list_elem_of_In.
Qed.

Lemma packedFile_whole : wholeFile (bpView unpackedStore) 0 (refOf packedFile) packedChunks.
Proof.
  destruct (fileText_ok (gs "x.txt") 3 packedParts) as (ss & Hss & Hty & Hps); [vm_compute; reflexivity| |].
  { unfold packedParts. apply Forall_cons_2; [|apply Forall_cons_2; [|apply Forall_nil_2]]; (split; [done|]; split; [done|]; left; split; [exact (proj1 (refOf_wf _))|reflexivity]). }
  exists packedFile, ss, packedParts, [[(refOf (gs "a"), gs "a")]; [(refOf (gs "bc"), gs "bc")]].
  split; [apply unpackedStore_has; do 2 apply list_elem_of_further; apply list_elem_of_here|]. split; [exact (Hss (Ok tt))|].
  split; [rewrite Hty; apply list_elem_of_here|]. split; [exact Hps|]. split; [|split; [vm_compute|]; reflexivity].
  constructor; [|constructor; [|constructor]]; (split; [reflexivity|]; split; [reflexivity|]; split; [reflexivity|]; left; split; [reflexivity|]; split; [reflexivity|]).
  - exists (gs "a"). split; [apply unpackedStore_has; apply list_elem_of_here|]. split; [|reflexivity]. apply (bool_decide_unpack _). vm_compute. exact I.
  - exists (gs "bc"). split; [apply unpackedStore_has; apply list_elem_of_further, list_elem_of_here|]. split; [|reflexivity]. apply (bool_decide_unpack _). vm_compute. exact I.
Qed.

Lemma unpackedStore_fetches : fetches (S := storage blobs blobs (memKeys (gmap gostr gostr))).
Proof.
  apply bp_fetches.
  - exact blobs_fetches.
  - intros lg br off n d _ Hd _ _ _. change (st_view lg) with lg in Hd. cbn [st_SubFetch map_SubFetcher snd]. rewrite Hd. reflexivity.
  - intros k x e. cbn [kv_get memKeys_KV]. unfold memGet. rewrite db_get_spec. destruct (db_view (mk_db x) !! k); [intros [=]|].
    rewrite decide_True by reflexivity. intros [= <-]. reflexivity.
Qed.

Lemma packFile_whole_witness : exists s' zips, packFile exampleFirst newHub 2 unpackedStore (refOf packedFile) = (s', zips, Ok tt) /\
  bpView s' = bpView unpackedStore /\
  kv_view (sto_meta s') !! wholeKey (refOf (gs "abc")) = Some (itoa 3 ++ gs " " ++ itoa (glen zips)) /\
  Forall (fun x => packed s' x.1 x.2) packedChunks.
Proof.
  pose proof unpackedStore_packs as (Hok & Hlen & _). unfold examplePacking in *.
  destruct (packFile exampleFirst newHub 2 unpackedStore (refOf packedFile)) as [[s' zips] r] eqn:E. cbn [fst snd] in Hok, Hlen.
  destruct r as [[]|e|p|]; [|discriminate Hok..]. exists s', zips. split; [reflexivity|].
  destruct (packFile_whole exampleFirst newHub 0 2 unpackedStore (refOf packedFile) packedChunks s' zips
    unpackedStore_fetches unpackedStore_wf ltac:(lia) packedFile_whole) as (Hv & Hrow & _ & Hp); [| |exact E|].
  - destruct zips as [|z [|z' zips]]; [discriminate Hlen| |discriminate Hlen]. split.
    + intros d d' ->%list_elem_of_singleton ->%list_elem_of_singleton _. reflexivity.
    + intros d d' _ Hd. change (st_view (sto_large unpackedStore)) with (∅ : blobs) in Hd. rewrite lookup_empty in Hd. discriminate Hd.
  - unfold glen. rewrite Hlen. reflexivity.
  - split; [exact Hv|]. split; [exact Hrow|exact Hp].
Defined.
