(* ===== verification/PackEnds.v ===== *)
(** Packing ends: the loop that makes zips stops whenever each chunk fits in a
    zip by itself. *)

From S2P Require Import Prelude Ref Strutil SortedKV Sha1 Storage Enumerate Receive Times Json Schema FileReader FileWriter Claims Zip BlobPacked PackLaws PackOps PackWhole.

Section ending.
Context {SM LG K : Type} `{StorageLaws SM} `{SubFetcherLaws LG} `{KVSteady K} `{!Flate}.
Abbreviation sto := (storage SM LG K).
Implicit Types s : sto.

(** With its schema blobs and the overhead, the chunk leaves a zip within its
    bounds. *)
Definition fitsAlone (pk : packer) (zipMax : Z) (dr : Ref) : Prop :=
  forall zw fl, addParents pk (default [] (pk_schemaParent pk !! dr)) (MkFill zw 0 [] 0 ∅ [] []) = Ok fl ->
    checkFits (fl_approx fl + default 0 (pk_dataSize pk !! dr)) zipMax = true.

(** The same, decided with some writer. *)
Definition fitsAloneb (pk : packer) (zipMax : Z) (dr : Ref) : bool :=
  match addParents pk (default [] (pk_schemaParent pk !! dr)) (MkFill NewWriter 0 [] 0 ∅ [] []) with
  | Ok fl => checkFits (fl_approx fl + default 0 (pk_dataSize pk !! dr)) zipMax
  | _ => true
  end.

Definition withWriter (zw : Writer) (fl : filling) : filling :=
  MkFill zw (fl_approx fl) (fl_data fl) (fl_bytes fl) (fl_seen fl) (fl_schemas fl) (fl_content fl).

Lemma addParents_writer pk ps zw fl :
  addParents pk ps (withWriter zw fl) = (let? fl' := addParents pk ps fl in Ok (withWriter zw fl')).
Proof using.
  revert fl. induction ps as [|p ps IH]; intros fl; cbn [addParents]; [done|]. cbn [fl_seen withWriter].
  destruct (decide _); [apply IH|]. destruct (pk_schemaBlob pk !! p); [|done]. rewrite <- IH. done.
Qed.

Lemma fitsAloneb_ok pk zipMax dr : fitsAloneb pk zipMax dr = true -> fitsAlone pk zipMax dr.
Proof using.
  unfold fitsAloneb. intros Hb zw fl. change (MkFill zw 0 [] 0 ∅ [] []) with (withWriter zw (MkFill NewWriter 0 [] 0 ∅ [] [])).
  rewrite addParents_writer. destruct (addParents _ _ (MkFill NewWriter 0 [] 0 ∅ [] [])) as [fl0| | |]; cbn [rbind]; [|done..].
  by intros [= <-].
Qed.

(** How many chunks come before the one to truncate after. *)
Fixpoint before (trunc : Ref) (chunks : list Ref) : nat :=
  match chunks with
  | [] => 0
  | dr :: chunks => if Valid trunc && bool_decide (trunc = dr) then 0 else S (before trunc chunks)
  end.

Lemma before_le trunc chunks : (before trunc chunks <= length chunks)%nat.
Proof using. induction chunks as [|dr chunks IH]; cbn [before length]; [lia|]. destruct (_ && _); lia. Qed.

Lemma before_elem trunc chunks k : Valid trunc = true -> trunc ∈ take k chunks -> (before trunc chunks < k)%nat.
Proof using.
  intros Hv. revert k. induction chunks as [|dr chunks IH]; intros [|k] Hin; cbn [take] in Hin; try by apply elem_of_nil in Hin.
  cbn [before]. rewrite Hv. cbn [andb]. destruct (bool_decide_reflect (trunc = dr)) as [|Hne]; [lia|].
  apply elem_of_cons in Hin as [|Hin]; [done|]. specialize (IH k Hin). lia.
Qed.

(** A zip gets no more chunks than come before the truncation. *)
Lemma fillZip_before s pk trunc zipMax chunks fl s' fl' : fillZip s pk trunc zipMax chunks fl = (s', Ok fl') ->
  exists k, fl_data fl' = fl_data fl ++ take k chunks /\ (k <= before trunc chunks)%nat.
Proof using.
  revert s fl. induction chunks as [|dr chunks IH]; intros s fl; cbn [fillZip before].
  { intros [= <- <-]. exists 0%nat. by rewrite app_nil_r. }
  destruct (Valid trunc && bool_decide (trunc = dr)).
  { destruct (_ =? _); intros [= <- <-]. exists 0%nat. by rewrite app_nil_r. }
  destruct (addParents pk _ fl) as [fl1|e|p|] eqn:Ea; cbn [sbind]; [|done..].
  assert (fl_data fl1 = fl_data fl) as Hd.
  { clear -Ea. revert fl Ea. induction (default [] _) as [|p ps IH]; intros fl; cbn [addParents]; [by intros [= <-]|].
    destruct (decide _); [apply IH|]. destruct (pk_schemaBlob pk !! p); [|done]. intros Ha. by apply IH in Ha. }
  destruct (negb _). { intros [= <- <-]. exists 0%nat. cbn [fl_data]. split; [by rewrite app_nil_r, Hd|lia]. }
  destruct (bpFetch s dr) as [s1 [[d n]|e|p|]]; cbn [sbind]; [|done..]. destruct (decide _) as [|Hn]; [done|].
  destruct (zipWrite _ d) as [zw [e|]]; [done|]. destruct (decide _) as [|Hl]; [done|]. intros Hf.
  apply IH in Hf as (k & Hk & Hle). cbn [fl_data] in Hk. exists (S k). cbn [take]. rewrite Hk, Hd, <- app_assoc. split; [done|lia].
Qed.

(** A zip gets a chunk. *)
Lemma fillZip_some s pk trunc zipMax dr chunks zw s' fl' : fitsAlone pk zipMax dr ->
  fillZip s pk trunc zipMax (dr :: chunks) (MkFill zw 0 [] 0 ∅ [] []) = (s', Ok fl') -> fl_data fl' <> [].
Proof using.
  intros Hfit. cbn [fillZip fl_approx]. destruct (Valid trunc && bool_decide (trunc = dr)); [done|].
  pose proof (Hfit zw) as Hz. destruct (addParents pk _ _) as [fl1|e|p|] eqn:Ea; cbn [sbind]; [|done..].
  rewrite (Hz fl1 eq_refl). cbn [negb]. destruct (bpFetch s dr) as [s1 [[d n]|e|p|]]; cbn [sbind]; [|done..].
  destruct (decide _) as [|Hn]; [done|]. destruct (zipWrite _ d) as [zw' [e|]]; [done|]. destruct (decide _) as [|Hl]; [done|].
  intros Hf. apply fillZip_before in Hf as (k & Hk & _). rewrite Hk. cbn [fl_data]. intros He.
  apply app_eq_nil in He as [He _]. by destruct (fl_data fl1).
Qed.

(** A chunk is truncated after only when another chunk of the zip follows. *)
Lemma truncateAfter_init pk overage refs dr : 0 < overage -> truncateAfter pk overage (rev refs) = Some dr ->
  dr ∈ take (length refs - 1) refs.
Proof using.
  intros Ho. destruct refs as [|x refs] using rev_ind; [done|]. rewrite rev_app_distr. cbn [rev app truncateAfter].
  rewrite (proj2 (Z.leb_gt overage 0)) by done. rewrite length_app. cbn [length]. replace (length refs + 1 - 1)%nat with (length refs) by lia.
  rewrite take_app_length. generalize (overage - default 0 (pk_dataSize pk !! x)). clear Ho IHrefs. intros o Ht. apply list_elem_of_In, in_rev, list_elem_of_In.
  revert o Ht. induction (rev refs) as [|y ys IH]; intros o; cbn [truncateAfter]; [done|].
  destruct (o <=? 0); [intros [= ->]; apply list_elem_of_here|]. intros Ht. apply list_elem_of_further. by eapply IH.
Qed.

Context (firstErr : list error -> error) (hub : memHub).

(** What a call of [writeAZip] leaves to do. *)
Lemma writeAZip_progress s pk trunc s' pk' x : bpWf s -> pk_chunksRemain pk <> [] -> Forall (fun dr => Valid dr = true) (pk_chunksRemain pk) ->
  (forall dr, dr ∈ pk_chunksRemain pk -> fitsAlone pk (maxZipBlobSize s) dr) ->
  writeAZip firstErr hub s pk trunc = (s', pk', x) ->
  match x with
  | Ok None => exists n, (0 < n)%nat /\ pk_chunksRemain pk' = drop n (pk_chunksRemain pk)
  | Ok (Some q) => (before q (pk_chunksRemain pk) < before trunc (pk_chunksRemain pk))%nat
  | _ => True
  end.
Proof.
  intros Hwf Hne Hval Hfit. unfold writeAZip. cbv zeta. destruct (_ || _); [by intros [= <- <- <-]|].
  destruct (CreateHeader NewWriter (fileHeader pk)) as [zw [e|]]; [by intros [= <- <- <-]|].
  destruct (fillZip _ _ _ _ _ _) as [s1 [fl|e|p|]] eqn:Ef; [|by intros [= <- <- <-]..].
  destruct (finishZip _ _ _) as [[zip blobs]|e|p|]; [|by intros [= <- <- <-]..].
  destruct (pk_chunksRemain pk) as [|dr chunks] eqn:Ech; [done|].
  assert (fl_data fl <> []) as Hsome by (eapply fillZip_some; [|exact Ef]; apply Hfit, list_elem_of_here).
  apply fillZip_before in Ef as (k & Hk & Hle). cbn [fl_data app] in Hk.
  destruct (Z.ltb_spec (maxZipBlobSize s) (glen zip)) as [Hlt|_].
  - intros [= <- <- <-]. destruct (truncateAfter _ _ _) as [q|] eqn:Et; [|done].
    apply truncateAfter_init in Et; [|lia]. rewrite Hk, take_take in Et.
    assert (Valid q = true) as Hq.
    { rewrite Forall_forall in Hval. apply Hval. by eapply subseteq_take. }
    pose proof (before_elem q (dr :: chunks) _ Hq Et). rewrite Hk in Hsome. destruct k; [done|].
    assert (length (take (S k) (dr :: chunks)) <= S k)%nat by (rewrite length_take; lia). lia.
  - destruct (commitZip firstErr hub s1 pk _ fl zip blobs) as [[s2 pk2] r2] eqn:Ec. intros [= <- <- <-].
    destruct r2 as [u|e|p|]; cbn [rbind]; try done. unfold commitZip in Ec.
    destruct (ReceiveNoHash _ _ _ _ _) as [[lg sends] [sb|e|p|]]; try done. destruct (kv_commit _ _) as [[e|] k0]; [done|].
    injection Ec as _ <- _. exists (length (fl_data fl)). split; [by destruct (fl_data fl); simpl; [|lia]|]. cbn [pk_chunksRemain pkConsume pkAddZip]. by rewrite Ech.
Qed.

(** The measure that each round makes smaller. *)
Definition roundsLeft (n : nat) (trunc : Ref) (chunks : list Ref) : nat :=
  match chunks with [] => 0 | _ => (length chunks - 1) * S n + before trunc chunks + 1 end.

Lemma addParents_same pk pk' ps fl : pk_schemaBlob pk' = pk_schemaBlob pk -> addParents pk' ps fl = addParents pk ps fl.
Proof using.
  intros He. revert fl. induction ps as [|p ps IH]; intros fl; cbn [addParents]; [done|]. rewrite He.
  destruct (decide _); [apply IH|]. by destruct (pk_schemaBlob pk !! p).
Qed.

Lemma makeZips_enough V s0 us n fuel s pk trunc s' pk' r :
  noCollision (st_view (sto_large s0)) us -> wz_zip <$> pk_zips pk' ⊆ us ->
  bpWf s -> bpView s = V -> schemasKnown V pk -> gained s0 s (wz_zip <$> pk_zips pk) ->
  Forall (fun dr => Valid dr = true) (pk_chunksRemain pk) -> (forall dr, dr ∈ pk_chunksRemain pk -> fitsAlone pk (maxZipBlobSize s) dr) ->
  (length (pk_chunksRemain pk) <= n)%nat -> (roundsLeft n trunc (pk_chunksRemain pk) < fuel)%nat ->
  makeZips firstErr hub fuel s pk trunc = (s', pk', r) -> match r with Ok _ | Err _ => True | _ => False end.
Proof.
  intros Hnc. revert s pk trunc. induction fuel as [|fuel IH]; intros s pk trunc Hus Hwf Hv Hsk Hg Hval Hfit Hn Hfuel; [lia|]. cbn [makeZips].
  destruct (pk_chunksRemain pk) as [|dr chunks] eqn:Ech; [by intros [= <- <- <-]|]. rewrite <- Ech in Hval, Hfit, Hn, Hfuel.
  assert (pk_chunksRemain pk <> []) as Hne by by rewrite Ech.
  destruct (writeAZip firstErr hub s pk trunc) as [[s1 pk1] x] eqn:Ew. intros Hmk.
  pose proof (writeAZip_zips firstErr hub s pk trunc) as Hpre. rewrite Ew in Hpre. cbn [fst snd] in Hpre.
  assert (wz_zip <$> pk_zips pk1 ⊆ us) as Hus1.
  { etrans; [|exact Hus]. destruct x as [[q|]|e|p|]; [..|by injection Hmk as <- <- <-|by injection Hmk as <- <- <-|by injection Hmk as <- <- <-].
    - pose proof (makeZips_zips firstErr hub fuel s1 pk1 q) as [k Hk]. rewrite Hmk in Hk. cbn [fst snd] in Hk. rewrite Hk, fmap_app. intros a Ha. apply elem_of_app. by left.
    - pose proof (makeZips_zips firstErr hub fuel s1 pk1 zeroRef) as [k Hk]. rewrite Hmk in Hk. cbn [fst snd] in Hk. rewrite Hk, fmap_app. intros a Ha. apply elem_of_app. by left. }
  destruct (writeAZip_ok firstErr hub V s pk trunc s1 pk1 x Hwf Hv Hsk) as (Hwf1 & Hv1 & Hm1 & Hpk1 & Hx); [by eapply noClash_of|done|].
  pose proof (writeAZip_progress s pk trunc s1 pk1 x Hwf Hne Hval Hfit Ew) as Hprog.
  destruct x as [[q|]|e|p|]; [| |by injection Hmk as <- <- <-|done..].
  - destruct Hx as [-> Hst]. eapply (IH s1 pk q); try done.
    + intros a z Hz. rewrite (sd_large s s1 Hst) in Hz. by apply Hg.
    + by rewrite Hm1.
    + unfold roundsLeft in *. rewrite Ech in *. lia.
  - destruct Hx as [Hzw Hg1], Hprog as (k & Hk & Hrest), Hpk1 as (Hsb & Hds & _).
    assert (pk_schemaParent pk1 = pk_schemaParent pk) as Hsp by (by destruct Hzw as (? & ? & ? & ? & ? & _ & _ & _ & _ & _ & -> & _)).
    eapply (IH s1 pk1 zeroRef); try done.
    + intros a b Hb. rewrite Hsb in Hb. by apply Hsk.
    + by eapply gained_trans.
    + rewrite Hrest. by apply Forall_drop.
    + intros q Hq zw fl. rewrite Hrest in Hq. rewrite Hsp, Hds, Hm1. intros Ha. eapply (Hfit q); [by eapply subseteq_drop|].
      by rewrite <- (addParents_same pk pk1).
    + rewrite Hrest, length_drop. lia.
    + pose proof (before_le zeroRef (pk_chunksRemain pk1)) as Hb. rewrite Hrest in *. unfold roundsLeft in *. rewrite Ech in Hfuel, Hn.
      rewrite Ech in Hb |- *. destruct (drop k (dr :: chunks)) as [|d2 rest] eqn:Ed; [nia|].
      assert (length (d2 :: rest) <= length chunks)%nat by (rewrite <- Ed, length_drop; simpl; lia). simpl length in *. nia.
Qed.

(** Copying the file takes fewer rounds than it has bytes. *)
Lemma copyLoop_returns V (data : gostr) depth fr : fr_size fr = glen data ->
  (forall (r : frRoot sto) want off, rootOk V r -> 0 <= off -> readsOf V (ReadAt depth r fr want off) (take (Z.to_nat want) (drop (Z.to_nat off) data))
    (if glen data <=? off then Some ErrEOF else if (want <=? 0) || (off + want <=? glen data) then None else Some ErrUnexpectedEOF)) ->
  forall fuel (r : frRoot sto) off acc, rootOk V r -> 0 <= off <= glen data -> (Z.to_nat (glen data - off) + 1 < fuel)%nat ->
    match (copyLoop depth fuel r fr off acc).2 with Ok _ | Err _ => True | _ => False end.
Proof using.
  intros Hsz Hread. induction fuel as [|fuel IH]; intros r off acc Hr Hoff Hfuel; [lia|]. cbn [copyLoop].
  unfold readSection. rewrite Hsz. destruct (Z.leb_spec (glen data) off) as [Hle|Hlt].
  { cbn [sbind fst snd]. by destruct (decide _). }
  set (want := copyBufferSize `min` (glen data - off)).
  assert (0 < want /\ want <= glen data - off) as [Hw1 Hw2] by (unfold want, copyBufferSize; lia).
  destruct (Hread r want off Hr ltac:(lia)) as (Hr' & bs & e & Hx & _ & Hnone & _).
  destruct (ReadAt depth r fr want off) as [r' x]. cbn [fst snd] in *. subst x. cbn [sbind fst snd].
  destruct e as [e|]; [by destruct (decide _)|]. destruct (Hnone eq_refl) as [-> _].
  assert (glen (take (Z.to_nat want) (drop (Z.to_nat off) data)) = want) as ->.
  { unfold glen in *. rewrite length_take, length_drop. lia. }
  apply IH; [done|lia|lia].
Qed.

(** The packer that the scan of a file makes. *)
Definition scanOf (depth : nat) s (fileRef : Ref) : option packer :=
  match NewFileReader s fileRef with (_, Ok (r, fr)) => Some (scanChunks depth r (newPacker fr)).1.2 | _ => None end.

(** C12. Packing ends: on a file made of whole chunks, each of which fits in a
    zip by itself with its schema blobs, [packFile] returns, with a success
    or an error: the loop that makes zips stops, though zips that come out
    too large are tried again with fewer chunks.  Nothing needs to be assumed
    of the storage's failures. *)
Theorem packFile_ends n depth s fileRef chunks s' zips x :
  bpWf s -> (n < depth)%nat -> wholeFile (bpView s) n fileRef chunks ->
  (forall pk dr, scanOf depth s fileRef = Some pk -> dr ∈ pk_dataRefs pk -> fitsAlone pk (maxZipBlobSize s) dr) ->
  noCollision (st_view (sto_large s)) (wz_zip <$> zips) -> packFile firstErr hub depth s fileRef = (s', zips, x) ->
  match x with Ok _ | Err _ => True | _ => False end.
Proof.
  intros Hwf Hn Hfile Hfits Hnc Hpack. pose proof (wholeFile_chunks _ _ _ _ Hfile) as Hch.
  destruct Hfile as (text & ss & ps & ls & Ht & Hp & Hty & Hps & Hf & Hlen & ->).
  assert (forall br d, bpView s !! br = Some d -> Valid br = true) as Hvalid.
  { intros br d Hd. destruct (bpView_good s Hwf br d Hd) as [[Hw _] _]. unfold Valid, refWf in *. by destruct (digest br). }
  unfold packFile in Hpack. unfold scanOf in Hfits. destruct (NewFileReader s fileRef) as [s1 y] eqn:En.
  destruct (NewFileReader_inv (steady s) (fun a br => steady_fetch s a br Hwf) s fileRef s1 y (steady_refl s Hwf) En) as [Hst Hr0].
  pose proof (NewFileReader_opens (S := sto) s fileRef text ss ps ((fun l => concat l.*2) <$> ls) n Hwf (Hvalid _ _ Ht) Ht Hp Hty Hps) as Hopen.
  change (ft_view s) with (bpView s) in Hopen. rewrite En in Hopen. rewrite <- concat_snd in Hopen.
  ospecialize (Hopen _ Hlen). { apply Forall2_fmap_r. eapply Forall2_impl; [exact Hf|]. intros q l'. apply wholePart_holds. }
  destruct y as [[r fr]|e|p|]; [|by injection Hpack as <- <- <-|done..]. destruct Hopen as (Hroot & Hsz & Hparts). specialize (Hr0 r fr eq_refl).
  destruct (pack firstErr hub depth r (newPacker fr)) as [[s2 pk2] z] eqn:Ep. injection Hpack as <- <- ->. unfold pack in Ep.
  assert (scanned s (fr_fetcher r) (newPacker fr, ∅)) as Hscan by (rewrite Hr0; by split_and!).
  pose proof (scanChunks_ok s depth r (newPacker fr) Hwf Hscan) as Hsc. pose proof (scanChunks_sees n depth r fr ps ls s Hn Hwf Hroot Hparts Hf) as Hse.
  destruct (scanChunks depth r (newPacker fr)) as [[r1 pk1] y]. cbn [fst snd] in *. destruct Hsc as (Hst1 & Hsk & Hz), Hse as (Hr1 & Hse & Hret).
  destruct y as [[]|e|p|]; [|by injection Ep as <- <- <-|done..]. destruct (Hse eq_refl) as (Hrefs & _ & _ & Hfr). rewrite Hfr in Ep. clear Hse.
  pose proof (copyLoop_ok s depth (2 + Z.to_nat (fr_size fr)) r1 fr 0 [] Hwf Hst1) as Hst2.
  pose proof (copyLoop_returns (bpView s) (concat (concat ls).*2) depth fr Hsz
    (fun q want off Hq Ho => wholeParts_read (bpView s) n depth q fr ps ls want off Hn Hq Hparts Hf Hlen Hsz Ho) (2 + Z.to_nat (fr_size fr))%nat r1 0 [] Hr1) as Hcp.
  ospecialize (Hcp _ _); [pose proof (glen_nonneg (concat (concat ls).*2)); lia|rewrite Hsz; lia|]. unfold copyFile in Ep.
  destruct (copyLoop depth (2 + Z.to_nat (fr_size fr)) r1 fr 0 []) as [r2 [whole|e|p|]]; cbn [fst snd] in *; [|by injection Ep as <- <- <-|done..].
  destruct (steady_wf s _ Hwf Hst2) as [Hwf2 Hv2]. set (pk3 := pkSetWhole pk1 (refOf whole) (glen whole)) in *.
  pose proof (kv_get_returns (wholeKey (pk_wholeRef pk3)) (sto_meta (fr_fetcher r2))) as Hget.
  destruct (kv_get _ _) as [v|e|p|]; [by injection Ep as <- <- <-| |done..]. destruct (decide _); [|by injection Ep as <- <- <-].
  destruct (makeZips firstErr hub (packFuel pk3) (fr_fetcher r2) pk3 zeroRef) as [[s3 pk4] y] eqn:Emk.
  assert (match y with Ok _ | Err _ => True | _ => False end /\ pk_zips pk2 = pk_zips pk4 -> match x with Ok _ | Err _ => True | _ => False end) as Hend.
  { destruct y as [[]|e'|p|]; [|by injection Ep as <- <- <-|by intros [? _]..]. intros _. destruct (kv_set _ _ (sto_meta s3)) as [[e'|] k]; by injection Ep as <- <- <-. }
  apply Hend. assert (pk_zips pk2 = pk_zips pk4) as Hzips.
  { destruct y as [[]|e'|p|]; [|by injection Ep as <- <- <-..]. destruct (kv_set _ _ (sto_meta s3)) as [[e'|] k]; by injection Ep as <- <- <-. }
  split; [|done]. clear Hend Ep. rewrite Hzips in Hnc.
  eapply (makeZips_enough (bpView s) s _ (length (pk_dataRefs pk1)) (packFuel pk3) (fr_fetcher r2) pk3 zeroRef s3 pk4 y); [exact Hnc|done|exact Hwf2|exact Hv2|exact Hsk| | | | | |exact Emk].
  - intros q b Hq. left. by rewrite <- (sd_large s _ Hst2).
  - cbn [pk_chunksRemain pk3 pkSetWhole]. rewrite Hrefs. apply Forall_forall. intros br ([br' d] & -> & Hin)%list_elem_of_fmap.
    rewrite Forall_forall in Hch. by eapply Hvalid, (Hch (br', d)).
  - intros dr Hdr zw fl Ha. cbn [pk_chunksRemain pk3 pkSetWhole] in Hdr. rewrite (steady_max _ _ Hst2). eapply (Hfits pk1 dr eq_refl Hdr). by rewrite <- (addParents_same pk1 pk3).
  - done.
  - unfold roundsLeft, packFuel. cbn [pk_chunksRemain pk_dataRefs pk3 pkSetWhole]. pose proof (before_le zeroRef (pk_dataRefs pk1)) as Hb.
    destruct (pk_dataRefs pk1) as [|dr rest]; [simpl; lia|]. simpl length in *. nia.
Qed.
End ending.

(** * Examples *)

#[local] Existing Instance idFlate.

Definition scanFits (store : storage blobs blobs (memKeys (gmap gostr gostr))) : bool :=
  match scanOf 2 store (refOf packedFile) with
  | Some pk => forallb (fitsAloneb pk (maxZipBlobSize store)) (pk_dataRefs pk)
  | None => true
  end.

Lemma packFile_ends_witness : scanFits unpackedStore = true /\
  match packFile exampleFirst newHub 2 unpackedStore (refOf packedFile) with (_, _, Ok _) | (_, _, Err _) => True | _ => False end.
Proof.
  assert (scanFits unpackedStore = true) as Hfits by (vm_compute; reflexivity). split; [exact Hfits|].
  pose proof unpackedStore_packs as (_ & Hlen & _). unfold examplePacking in Hlen.
  destruct (packFile exampleFirst newHub 2 unpackedStore (refOf packedFile)) as [[s' zips] x] eqn:E. cbn [fst snd] in Hlen.
  refine (packFile_ends exampleFirst newHub 0 2 unpackedStore (refOf packedFile) packedChunks s' zips x
    unpackedStore_wf ltac:(lia) packedFile_whole _ _ E).
  - intros pk dr Hs Hdr. unfold scanFits in Hfits. rewrite Hs in Hfits. rewrite forallb_forall in Hfits.
    apply fitsAloneb_ok, Hfits. by apply list_elem_of_In.
  - destruct zips as [|z [|z' zips]]; [discriminate Hlen| |discriminate Hlen]. split.
    + intros d d' ->%list_elem_of_singleton ->%list_elem_of_singleton _. reflexivity.
    + intros d d' _ Hd. change (st_view (sto_large unpackedStore)) with (∅ : blobs) in Hd. rewrite lookup_empty in Hd. discriminate Hd.
Defined.

(** When a chunk does not fit, the zips written are empty and the loop does
    not get on: each round commits one more zip. *)
Definition tightStore : storage blobs blobs (memKeys (gmap gostr gostr)) :=
  MkBp (blobsOf [gs "a"; gs "bc"; packedFile]) ∅ (MemKeys ∅) 51600 false.

Example tight_store_spins :
  let '(s', zips, r) := packFile exampleFirst newHub 2 tightStore (refOf packedFile) in
  scanFits tightStore = false /\ r = Panic "out of fuel" /\ length zips = 7%nat /\ forallb (fun z => bool_decide (wz_dataRefs z = [])) zips = true /\
  size (sto_small s') = 3%nat.
Proof. vm_compute. repeat split. Qed.
