(* ===== verification/Serve.v ===== *)
(** Serving blobs and files over HTTP: pkg/blobserver/gethandler/get.go,
    pkg/server/download.go, and what both need of pkg/httputil.

    What a handler writes is a [Response].  Where it ends by handing a seekable
    content to [http.ServeContent], the response is that content with the
    headers set before; ranges and conditional requests are then the standard
    library's matter.  Of the headers, those that only repeat the size of the
    content or the time of the request are left out. *)

From S2P Require Import Prelude Ref Sha1 Storage Json Schema FileReader Media IndexKeys.
From S2P Require Describe.

(** * Requests and responses *)

(** What the handlers read of a request.  [rq_PathSuffix] is the header that
    [PrefixHandler] sets; an absent header or form value is empty. *)
Record request := MkReq {
  rq_Method : gostr;
  rq_Path : gostr;
  rq_PathSuffix : gostr;
  rq_Range : gostr;
  rq_IfModifiedSince : gostr;
  rq_via : gostr;
  rq_assemble : gostr;
  rq_verifycontents : gostr
}.

Definition IsGet (r : request) : bool := bool_decide (rq_Method r = gs "GET") || bool_decide (rq_Method r = gs "HEAD").
Definition PathSuffix (r : request) : gostr := rq_PathSuffix r.

(** [strconv.ParseBool], when its error is dropped. *)
Definition parseBool (s : gostr) : bool :=
  bool_decide (s ∈ map gs ["1"; "t"; "T"; "true"; "TRUE"; "True"]%string).

(** A blob in memory, a [types.NewFakeSeeker] over a reader of the given bytes
    that is told a size, or a file. *)
Inductive content (F : Type) :=
| CBytes (d : gostr)
| CFakeSeeker (d : gostr) (size : Z)
| CFile (r : frRoot F) (fr : FileReader).
Arguments CBytes {F}.
Arguments CFakeSeeker {F}.
Arguments CFile {F}.

Inductive Response (F : Type) :=
| RError (code : Z) (msg : string)
| RServeError (e : error)                   (* httputil.ServeError: status 500 *)
| RNotFound (br : Ref)
| RNotModified
| RUnauthorized                             (* auth.SendUnauthorized *)
| RAborted                                  (* a connection closed too early *)
| RVerified (mimeType : gostr) (disposition : option gostr) (contents : option Ref)
| RContent (contentType : gostr) (disposition : option gostr) (c : content F).
Arguments RError {F}.
Arguments RServeError {F}.
Arguments RNotFound {F}.
Arguments RNotModified {F}.
Arguments RUnauthorized {F}.
Arguments RAborted {F}.
Arguments RVerified {F}.
Arguments RContent {F}.

(** Running on with the value of a step that changes the fetcher. *)
Definition fbind {F A B} (x : F * res A) (f : F -> A -> F * res B) : F * res B :=
  match x with
  | (s, Ok a) => f s a
  | (s, Err e) => (s, Err e)
  | (s, Panic p) => (s, Panic p)
  | (s, Blocked) => (s, Blocked)
  end.

Section serve.
Context {F : Type} `{!Fetcher F}.

(** * gethandler *)

Definition octetStream : gostr := gs "application/octet-stream".
Definition textPlain : gostr := gs "text/plain; charset=utf-8".
Definition small : Z := Z.shiftl 32 10.

Definition ServeBlobRef (fetcher : F) (req : request) (blobRef : Ref) : F * res (Response F) :=
  match st_Fetch fetcher blobRef with
  | (s, Ok (rc, size)) =>
      let rangeHeader := bool_decide (rq_Range req <> []) in
      if rangeHeader || (size <? small) then
        match FromReader (rc, Ok tt) size with
        | Ok b =>
            let ctype := if negb rangeHeader && (size <? small) && ValidString b then textPlain else octetStream in
            (s, Ok (RContent ctype None (CBytes b)))
        | Err e => (s, Ok (RServeError e))
        | Panic p => (s, Panic p)
        | Blocked => (s, Blocked)
        end
      else (s, Ok (RContent octetStream None (CFakeSeeker rc size)))
  | (s, Err e) => (s, Ok (if decide (e = ErrNotExist) then RNotFound blobRef else RServeError e))
  | (s, Panic p) => (s, Panic p)
  | (s, Blocked) => (s, Blocked)
  end.

(** [kGetPattern.FindStringSubmatch(path)] without its prefix: the leftmost
    match of "/camli/" and a reference that ends the path. *)
Fixpoint findGet (path : gostr) : option gostr :=
  let here :=
    if bool_decide (gs "/camli/" `prefix_of` path) then
      match Describe.matchRef (drop 7 path) with Some (m, []) => Some m | _ => None end
    else None in
  match here, path with
  | Some m, _ => Some m
  | None, [] => None
  | None, _ :: path => findGet path
  end.

Definition blobFromURLPath (path : gostr) : res Ref :=
  match findGet path with Some m => ParseOrZero m | None => Ok zeroRef end.

Definition testPath : gostr := gs "/camli/sha1-deadbeef00000000000000000000000000000000".

(** [Handler.ServeHTTP] *)
Definition getServeHTTP (fetcher : F) (req : request) : F * res (Response F) :=
  if decide (rq_Path req = testPath) then (fetcher, Ok RAborted)
  else
    fbind (fetcher, blobFromURLPath (rq_Path req)) (fun fetcher blobRef =>
      if Valid blobRef then ServeBlobRef fetcher req blobRef else (fetcher, Ok (RError 400 "Malformed GET URL."))).

(** * The download handler *)

Section download.
Variable DetectContentType : gostr -> gostr.
(** The depth of nested files that is read. *)
Variable depth : nat.

(** [magic.MIMETypeFromReaderAt]; the error of the read is dropped. *)
Definition MIMETypeFromReaderAt (r : frRoot F) (fr : FileReader) : frRoot F * res gostr :=
  match ReadAt depth r fr 1024 0 with
  | (r, Ok (buf, _)) => (r, Ok (MIMEType DetectContentType buf))
  | (r, Err _) => (r, Ok (MIMEType DetectContentType []))
  | (r, Panic p) => (r, Panic p)
  | (r, Blocked) => (r, Blocked)
  end.

(** [io.Copy(hash, fr)]: the bytes up to the end or an error. *)
Definition copyAll (r : frRoot F) (fr : FileReader) : frRoot F * res gostr :=
  match readSection depth r fr (fr_size fr) 0 with
  | (r, Ok (bs, _)) => (r, Ok bs)
  | (r, Err _) => (r, Ok [])
  | (r, Panic p) => (r, Panic p)
  | (r, Blocked) => (r, Blocked)
  end.

(** [DownloadHandler.ServeHTTP] with its [ForceMime]. *)
Definition DownloadServeHTTP (ForceMime : gostr) (fetcher : F) (req : request) (file : Ref) : F * res (Response F) :=
  if negb (IsGet req) then (fetcher, Ok (RError 400 "Invalid download method"))
  else if decide (rq_IfModifiedSince req <> []) then (fetcher, Ok RNotModified)
  else
    match NewFileReader fetcher file with
    | (s, Ok (r, fr)) =>
        match MIMETypeFromReaderAt r fr with
        | (r, Ok mimeType) =>
            let mimeType := if decide (ForceMime = []) then mimeType else ForceMime in
            let mimeType := if decide (mimeType = []) then octetStream else mimeType in
            let disposition :=
              if decide (mimeType = octetStream) then
                let fileName := FileNameString (fr_ss fr) in
                let fileName := if decide (fileName = []) then gs "file-" ++ RefString file ++ gs ".dat" else fileName in
                Some (gs "attachment; filename=" ++ fileName)
              else None in
            if bool_decide (rq_Method req = gs "HEAD") && bool_decide (rq_verifycontents req <> []) then
              let verified := fun o => RVerified mimeType disposition o in
              match blobParse (rq_verifycontents req) with
              | None => (fr_fetcher r, Ok (verified None))
              | Some vbr =>
                  match Hash vbr with
                  | Ok None => (fr_fetcher r, Ok (verified None))
                  | Ok (Some hash) =>
                      match copyAll r fr with
                      | (r, Ok bs) => (fr_fetcher r, Ok (verified (if HashMatches vbr (hash bs) then Some vbr else None)))
                      | (r, Err e) => (fr_fetcher r, Err e)
                      | (r, Panic p) => (fr_fetcher r, Panic p)
                      | (r, Blocked) => (fr_fetcher r, Blocked)
                      end
                  | Err e => (fr_fetcher r, Err e)
                  | Panic p => (fr_fetcher r, Panic p)
                  | Blocked => (fr_fetcher r, Blocked)
                  end
              end
            else (fr_fetcher r, Ok (RContent mimeType disposition (CFile r fr)))
        | (r, Err e) => (fr_fetcher r, Err e)
        | (r, Panic p) => (fr_fetcher r, Panic p)
        | (r, Blocked) => (fr_fetcher r, Blocked)
        end
    | (s, Err _) => (s, Ok (RError 500 "Can't serve file: "))
    | (s, Panic p) => (s, Panic p)
    | (s, Blocked) => (s, Blocked)
    end.
End download.
End serve.
