(* ===== verification/Share.v ===== *)
(** Sharing: pkg/server/share.go, which serves blobs to anybody who can name a
    share and a path of links from it.

    [handleGetViaSharing] walks the chain of the "via" parameter and the blob
    that is asked for.  [shared] says which blobs a set of blobs makes public;
    the theorems are that the handler serves those only, and all of those. *)

From S2P Require Import Prelude Ref Strutil Sha1 Storage Receive Times Json Schema Claims FileReader IndexKeys Serve.
From S2P Require Index.

(** * The handler *)

Inductive responseType := badRequest | unauthorizedRequest.

Inductive errorCode :=
| noError
| assembleNonTransitive
| invalidMethod
| invalidURL
| invalidVia
| shareBlobInvalid
| shareBlobTooLarge
| shareExpired
| shareFetchFailed
| shareReadFailed
| shareTargetInvalid
| shareNotTransitive
| viaChainFetchFailed
| viaChainInvalidLink
| viaChainReadFailed.

(** The messages of errors are left out. *)
Record shareError := MkShareError { se_code : errorCode; se_response : responseType }.
Definition unauthorized (code : errorCode) : shareError := MkShareError code unauthorizedRequest.

(** The references of the "via" parameter; [None] when one is malformed. *)
Fixpoint parseVia (vs : list gostr) : option (list Ref) :=
  match vs with
  | [] => Some []
  | v :: vs => match blobParse v with Some br => (br ::.) <$> parseVia vs | None => None end
  end.
Definition viaBlobs (req : request) : option (list Ref) :=
  if decide (rq_via req = []) then Some [] else parseVia (splitOn ","%char (rq_via req)).

Section share.
Context {F : Type} `{!Fetcher F}.
Variable DetectContentType : gostr -> gostr.
Variable depth : nat.
(** The time of the clock. *)
Variable now : gotime.

(** What a blob that was read must be to open a chain, and whether the share
    is transitive. *)
Definition checkShare (fetchChain : list Ref) (br : Ref) (file : gostr) (size : Z) : res (shareError + bool) :=
  if MaxSchemaBlobSize <? size then Ok (inl (unauthorized shareBlobTooLarge))
  else
    match BlobFromReader br file with
    | Ok blob =>
        match AsShare blob with
        | None => Ok (inl (unauthorized shareBlobInvalid))
        | Some share =>
            if IsExpired now share then Ok (inl (unauthorized shareExpired))
            else if match fetchChain !! 1%nat with Some hop => negb (bool_decide (RefString hop = RefString (Target share))) | None => false end
            then Ok (inl (unauthorized shareTargetInvalid))
            else if (2 <? length fetchChain)%nat && negb (IsTransitive share) then Ok (inl (unauthorized shareNotTransitive))
            else Ok (inr (IsTransitive share))
        end
    | Err _ => Ok (inl (unauthorized shareReadFailed))
    | Panic p => Panic p
    | Blocked => Blocked
    end.

(** One round of the loop over the chain: an error, or whether the share is
    transitive from here on. *)
Definition checkLink (fetchChain : list Ref) (s : F) (i : nat) (br : Ref) (isTransitive : bool) : F * res (shareError + bool) :=
  if decide (i = 0%nat) then
    match st_Fetch s br with
    | (s, Ok (file, size)) => (s, checkShare fetchChain br file size)
    | (s, Err _) => (s, Ok (inl (unauthorized shareFetchFailed)))
    | (s, Panic p) => (s, Panic p)
    | (s, Blocked) => (s, Blocked)
    end
  else if decide (i = length fetchChain - 1)%nat then (s, Ok (inr isTransitive))
  else
    match st_Fetch s br with
    | (s, Ok (file, _)) =>
        match readAll (limitReader MaxSchemaBlobSize (file, Ok tt)) with
        | Ok slurpBytes =>
            match fetchChain !! (i + 1)%nat with
            | None => (s, Panic "index out of range")
            | Some next =>
                if Index.contains slurpBytes (RefString next) then (s, Ok (inr isTransitive))
                else (s, Ok (inl (unauthorized viaChainInvalidLink)))
            end
        | Err _ => (s, Ok (inl (unauthorized viaChainReadFailed)))
        | Panic p => (s, Panic p)
        | Blocked => (s, Blocked)
        end
    | (s, Err _) => (s, Ok (inl (unauthorized viaChainFetchFailed)))
    | (s, Panic p) => (s, Panic p)
    | (s, Blocked) => (s, Blocked)
    end.

Fixpoint checkChain (fetchChain : list Ref) (s : F) (i : nat) (rest : list Ref) (isTransitive : bool) : F * res (shareError + bool) :=
  match rest with
  | [] => (s, Ok (inr isTransitive))
  | br :: rest =>
      match checkLink fetchChain s i br isTransitive with
      | (s, Ok (inr isTransitive)) => checkChain fetchChain s (Datatypes.S i) rest isTransitive
      | x => x
      end
  end.

(** The delay that follows a failure is not modelled. *)
Definition handleGetViaSharing (s : F) (req : request) (blobRef : Ref) : F * res (shareError + Response F) :=
  if negb (IsGet req) then (s, Ok (inl (MkShareError invalidMethod badRequest)))
  else
    match viaBlobs req with
    | None => (s, Ok (inl (MkShareError invalidVia badRequest)))
    | Some via =>
        let fetchChain := via ++ [blobRef] in
        fbind (checkChain fetchChain s 0 fetchChain false) (fun s checked =>
          match checked with
          | inl se => (s, Ok (inl se))
          | inr isTransitive =>
              if parseBool (rq_assemble req) then
                if negb isTransitive then (s, Ok (inl (unauthorized assembleNonTransitive)))
                else fbind (DownloadServeHTTP DetectContentType depth [] s req blobRef) (fun s resp => (s, Ok (inr resp)))
              else fbind (ServeBlobRef s req blobRef) (fun s resp => (s, Ok (inr resp)))
          end)
    end.

(** [strings.TrimLeft(path, "/")] and [strings.SplitN(suffix, "/", 2)[0]] *)
Fixpoint trimSlashes (s : gostr) : gostr :=
  match s with c :: s' => if decide (c = "/"%char) then trimSlashes s' else s | [] => [] end.
Fixpoint upToSlash (s : gostr) : gostr :=
  match s with c :: s => if decide (c = "/"%char) then [] else c :: upToSlash s | [] => [] end.

Definition sharePart (req : request) : gostr :=
  upToSlash (if decide (PathSuffix req = []) then trimSlashes (rq_Path req) else PathSuffix req).

(** The response to an error. *)
Definition errorResponse (se : shareError) : Response F :=
  match se_response se with badRequest => RError 400 "<h1>Bad Request</h1>" | unauthorizedRequest => RUnauthorized end.

(** [serveHTTP]: the response, and the error that it returns. *)
Definition shareServeHTTP (s : F) (req : request) : F * res (Response F * option shareError) :=
  match blobParse (sharePart req) with
  | None => let se := MkShareError invalidURL badRequest in (s, Ok (errorResponse se, Some se))
  | Some blobRef =>
      fbind (handleGetViaSharing s req blobRef) (fun s r =>
        (s, Ok (match r with inl se => (errorResponse se, Some se) | inr resp => (resp, None) end)))
  end.
End share.

(** * What is shared *)

Section spec.
Variable m : blobs.
Variable now : gotime.

Definition validShare (sr : Ref) (share : Blob) : Prop :=
  exists d b, m !! sr = Some d /\ glen d <= MaxSchemaBlobSize /\ BlobFromReader sr d = Ok b /\ AsShare b = Some share /\
    IsExpired now share = false.

(** The first megabyte of [a] has the text of [b]. *)
Definition links (a b : Ref) : Prop :=
  exists d, m !! a = Some d /\ Index.contains (take (Z.to_nat MaxSchemaBlobSize) d) (RefString b) = true.

(** A blob is public when it is a share, when a share is of it, and when it
    can be reached from what is shared transitively. *)
Inductive shared : Ref -> Prop :=
| shared_itself sr share : validShare sr share -> shared sr
| shared_target sr share : validShare sr share -> shared (Target share)
| shared_reach sr share br : validShare sr share -> IsTransitive share = true -> rtc links (Target share) br -> shared br.

(** The chain that proves it. *)
Fixpoint path (a : Ref) (hops : list Ref) : Prop :=
  match hops with [] => True | b :: hops => links a b /\ path b hops end.

Definition granted (chain : list Ref) (isTransitive : bool) : Prop :=
  match chain with
  | [] => False
  | sr :: rest =>
      exists share, validShare sr share /\ IsTransitive share = isTransitive /\
        match rest with
        | [] => True
        | target :: hops => target = Target share /\ (hops = [] \/ isTransitive = true) /\ path target hops
        end
  end.
End spec.

(** * Reading blobs does not panic *)

Definition settled {A} (P : A -> Prop) (r : res A) : Prop :=
  match r with Ok a => P a | Err _ => True | _ => False end.

Lemma settled_bind {A B} (P : A -> Prop) (Q : B -> Prop) (r : res A) (f : A -> res B) :
  settled P r -> (forall a, P a -> settled Q (f a)) -> settled Q (let? a := r in f a).
Proof. destruct r as [a|e|p|]; cbn [settled rbind]; [by auto|done..]. Qed.

Lemma settled_rfold {A B} (P : A -> Prop) (f : A -> B -> res A) l a :
  P a -> (forall a b, P a -> settled P (f a b)) -> settled P (rfold f l a).
Proof.
  intros Ha Hf. revert a Ha. induction l as [|b l IH]; intros a Ha; [done|]. rewrite rfold_cons.
  apply (settled_bind P); [by apply Hf|exact IH].
Qed.

Definition refOk (r : Ref) : Prop := r = zeroRef \/ refWf r = true.

Lemma UnmarshalJSON_settled r d : refOk r -> settled refOk (UnmarshalJSON r d).
Proof.
  intros Hr. unfold UnmarshalJSON. destruct (Valid r); [done|]. destruct (decide _); [done|]. do 2 (destruct (decide _); [done|]).
  rewrite ParseBytes_Parse. unfold Parse.
  destruct (parse_total (take (length d - 2) (drop 1 d)) true) as [o Ho]. rewrite Ho. cbn [rbind]. destruct o as [p|]; [|done].
  right. by apply (Parse_inv _ p) in Ho as [? _].
Qed.

Lemma decodeRef_settled v r : refOk r -> settled refOk (decodeRef v r).
Proof. intros Hr. destruct v; try done; by apply UnmarshalJSON_settled. Qed.

Lemma decodeSlice_settled {A} (P : A -> Prop) (f : json -> A -> res A) zero vs old :
  P zero -> Forall P old -> (forall v a, P a -> settled P (f v a)) -> settled (Forall P) (decodeSlice f zero vs old).
Proof.
  intros Hz Hold Hf. revert old Hold. induction vs as [|v vs IH]; intros old Hold; [constructor|]. cbn [decodeSlice].
  apply (settled_bind P); [apply Hf; by destruct Hold|]. intros x Hx. apply (settled_bind (Forall P)); [apply IH; by destruct Hold|].
  intros xs Hxs. by constructor.
Qed.

Lemma decodeUint64_settled v z : settled (fun _ => True) (decodeUint64 v z).
Proof. unfold decodeUint64. destruct v; try done. by destruct (ParseUintBytes _ _ _) as [n [|]]. Qed.

Definition partRefs (p : BytesPart) : Prop := refOk (bp_BlobRef p) /\ refOk (bp_BytesRef p).
Definition partRefsOpt (o : option BytesPart) : Prop := match o with Some p => partRefs p | None => True end.

Lemma decodePart_settled v o : partRefsOpt o -> settled partRefsOpt (decodePart v o).
Proof.
  intros Ho. destruct v; try done. cbn [decodePart]. apply (settled_bind partRefs).
  - apply settled_rfold; [destruct o; [done|by split; left]|]. intros p kv [H1 H2]. unfold decodePartField.
    destruct (findField _ _) as [[name k]|]; [|done].
    destruct (decide _); [by eapply settled_bind; [apply decodeUint64_settled|]|].
    destruct (decide _); [by eapply settled_bind; [by apply decodeRef_settled|]|].
    destruct (decide _); [by eapply settled_bind; [by apply decodeRef_settled|]|].
    by eapply settled_bind; [apply decodeUint64_settled|].
  - intros p Hp. exact Hp.
Qed.

(** The references of a field are zero or well formed. *)
Definition fieldRefs (x : fieldVal) : Prop :=
  match x with FRef r => refOk r | FRefs l => Forall refOk l | FParts l => Forall partRefsOpt l | _ => True end.
Definition supersetRefs (ss : superset) : Prop := map_Forall (fun _ => fieldRefs) ss.

Lemma decodeField_settled v x : fieldRefs x -> settled fieldRefs (decodeField v x).
Proof.
  intros Hx. destruct x as [s|z|b|r|l|l|l|t|a]; cbn [decodeField fieldRefs] in *.
  - by destruct v.
  - apply (settled_bind (fun _ => True)); [|done]. unfold decodeInt. destruct v; try done.
    destruct (ParseUintBytes _ _ _) as [n [|]]; [done|]. by destruct (_ <? _).
  - by destruct v.
  - by eapply settled_bind; [by apply decodeRef_settled|].
  - destruct v; try done; [by constructor|]. eapply settled_bind; [|by intros l' Hl'; exact Hl'].
    apply decodeSlice_settled; [by left|done|]. by intros; apply decodeRef_settled.
  - by destruct v.
  - destruct v; try done; [by constructor|]. eapply settled_bind; [|by intros l' Hl'; exact Hl'].
    apply decodeSlice_settled; [done|done|]. by intros; apply decodePart_settled.
  - apply (settled_bind (fun _ => True)); [|done]. destruct v; try done. cbn [decodeTime]. by destruct (unmarshalTime _).
  - done.
Qed.

Lemma parseSuperset_settled d : settled supersetRefs (parseSuperset (d, Ok tt)).
Proof.
  unfold parseSuperset. destruct (decodeValue _) as [v|]; [|].
  2: { unfold limitReader. cbn [fst snd]. by destruct (_ <=? glen d). }
  destruct v; try done. cbn [decodeSuperset]. apply settled_rfold; [by intros ???|]. intros ss kv Hss. unfold decodeMember.
  destruct (findField _ _) as [[name kind]|]; [|done]. apply (settled_bind fieldRefs).
  - apply decodeField_settled. destruct (ss !! name) as [x|] eqn:E; [by apply (Hss _ _ E)|]. by destruct kind; constructor.
  - intros x Hx. by apply map_Forall_insert_2.
Qed.

Lemma BlobFromReader_settled br d : settled (fun b => supersetRefs (b_ss b)) (BlobFromReader br d).
Proof.
  unfold BlobFromReader. destruct (negb _); [done|]. eapply settled_bind; [apply parseSuperset_settled|]. intros ss Hss.
  destruct (whiteLoop _ _ _); [|done]. by destruct (_ <? _).
Qed.

Lemma supersetRefs_ref ss name : supersetRefs ss -> refOk (refField name ss).
Proof.
  intros Hss. unfold refField. destruct (ss !! name) as [x|] eqn:E; [|by left]. destruct x; try (by left). exact (Hss _ _ E).
Qed.

Lemma AsShare_id b share : AsShare b = Some share -> share = b.
Proof. unfold AsShare, AsClaim. destruct (_ && _); [|done]. destruct (_ && _); [|done]. by intros [= <-]. Qed.

(** * The chain *)

Lemma links_dec m a b : links m a b \/ ~ links m a b.
Proof.
  destruct (m !! a) as [d|] eqn:E; [|right; by intros (? & ? & _); congruence].
  destruct (Index.contains (take (Z.to_nat MaxSchemaBlobSize) d) (RefString b)) eqn:Ec; [left; by exists d|].
  right. intros (d' & Hd' & Hc). congruence.
Qed.

Lemma Target_ref m now sr share : validShare m now sr share -> refOk (Target share).
Proof.
  intros (d & b & _ & _ & Hb & Hs & _). apply AsShare_id in Hs as ->. pose proof (BlobFromReader_settled sr d) as Hr. rewrite Hb in Hr.
  by apply supersetRefs_ref.
Qed.

Lemma RefString_target a b : refWf a = true -> refOk b -> RefString a = RefString b -> a = b.
Proof.
  intros Ha Hb E. pose proof (blobParse_String a Ha) as Pa. rewrite E in Pa. destruct Hb as [->|Hb]; [by vm_compute in Pa|].
  rewrite blobParse_String in Pa by done. congruence.
Qed.

(** What [checkShare] finds of a blob that is there. *)
Lemma checkShare_spec m now chain br d : m !! br = Some d ->
  match checkShare now chain br d (glen d) with
  | Ok (inr t) =>
      exists share, validShare m now br share /\ IsTransitive share = t /\ ((2 < length chain)%nat -> t = true) /\
        forall hop, chain !! 1%nat = Some hop -> RefString hop = RefString (Target share)
  | Ok (inl se) =>
      se_response se = unauthorizedRequest /\ forall share, validShare m now br share ->
        ((2 < length chain)%nat /\ IsTransitive share = false) \/
        exists hop, chain !! 1%nat = Some hop /\ RefString hop <> RefString (Target share)
  | _ => False
  end.
Proof.
  intros Hd. unfold checkShare. destruct (Z.ltb_spec MaxSchemaBlobSize (glen d)) as [Hlt|Hle].
  { split; [done|]. intros share (d' & b & Hd' & Hl & _). assert (d' = d) as -> by congruence. lia. }
  pose proof (BlobFromReader_settled br d) as Hset. destruct (BlobFromReader br d) as [b|e|p|] eqn:Eb; [| |done..]; clear Hset.
  2: { split; [done|]. intros share (d' & b & Hd' & _ & Hb & _). assert (d' = d) as -> by congruence. congruence. }
  assert (forall share, validShare m now br share -> AsShare b = Some share /\ IsExpired now share = false) as Hval.
  { intros share (d' & b' & Hd' & _ & Hb & Hs & He). assert (d' = d) as -> by congruence. assert (b' = b) as -> by congruence. done. }
  destruct (AsShare b) as [share|] eqn:Es; [|split; [done|]; intros share [? _]%Hval; done].
  destruct (IsExpired now share) eqn:Ee; [split; [done|]; intros share' [[= ->] ?]%Hval; congruence|].
  assert (forall P : Blob -> Prop, P share -> forall share', validShare m now br share' -> P share') as Hone.
  { intros P HP share' [[= <-] _]%Hval. exact HP. }
  destruct (match chain !! 1%nat with Some _ => _ | None => _ end) eqn:Et.
  { split; [done|]. apply Hone. right. destruct (chain !! 1%nat) as [hop|]; [|done]. exists hop. split; [done|].
    intros He. by rewrite bool_decide_eq_true_2 in Et. }
  destruct ((2 <? length chain)%nat && negb (IsTransitive share)) eqn:En.
  { split; [done|]. apply Hone. left. apply andb_prop in En as [H2%Nat.ltb_lt Hn]. split; [done|]. by destruct (IsTransitive share). }
  exists share. split; [by exists d, b|]. split; [done|]. split.
  - intros H2%Nat.ltb_lt. rewrite H2 in En. by destruct (IsTransitive share).
  - intros hop Hh. rewrite Hh in Et. by case_bool_decide.
Qed.

Section chain_proofs.
Context {F : Type} `{StorageLaws F}.
Variable now : gotime.
Implicit Types s : F.

(** A step that keeps the blobs and refuses with [unauthorizedRequest]; [P] is
    what a success shows, and a refusal refutes [Q] unless a fetch failed. *)
Definition checks (s : F) (x : F * res (shareError + bool)) (P : bool -> Prop) (Q : Prop) : Prop :=
  st_wf x.1 /\ st_view x.1 = st_view s /\
  match x.2 with
  | Ok (inr t) => P t
  | Ok (inl se) => se_response se = unauthorizedRequest /\ (fetches (S := F) -> ~ Q)
  | _ => False
  end.

Lemma fetched s br s' r : st_wf s -> st_Fetch s br = (s', r) ->
  st_wf s' /\ st_view s' = st_view s /\
  match r with
  | Ok (d, n) => st_view s !! br = Some d /\ n = glen d
  | Err _ => fetches (S := F) -> st_view s !! br = None
  | _ => False
  end.
Proof.
  intros Hwf E. pose proof (st_Fetch_law s br s' r Hwf E) as (Hwf' & Hv & Hr). split; [done|]. split; [done|].
  destruct r as [[d n]|e|p|]; try done. intros Hf. destruct (st_view s !! br) as [d|] eqn:Ed; [|done].
  specialize (Hf s br d Hwf Ed). by rewrite E in Hf.
Qed.

Lemma checkLink_later s pre br rest t : st_wf s -> pre <> [] ->
  checks s (checkLink now (pre ++ br :: rest) s (length pre) br t) (fun t' => t' = t /\ match rest with [] => True | b :: _ => links (st_view s) br b end)
    (match rest with [] => True | b :: _ => links (st_view s) br b end).
Proof.
  intros Hwf Hpre. unfold checkLink. rewrite decide_False by (by destruct pre). rewrite length_app. cbn [length].
  destruct rest as [|b rest]; [rewrite decide_True by (cbn; lia); by split_and!|]. rewrite decide_False by (cbn; lia).
  destruct (st_Fetch s br) as [s' r] eqn:E. apply fetched in E as (Hwf' & Hv & Hr); [|done].
  destruct r as [[d n]|e|p|]; [| |done..].
  - destruct Hr as [Hd _]. unfold readAll, limitReader. cbn [fst snd].
    assert (forall l : bool, (if l then (take (Z.to_nat MaxSchemaBlobSize) d, Ok tt) else (d, Ok tt)) =
      ((if l then take (Z.to_nat MaxSchemaBlobSize) d else d), Ok (A := unit) tt)) as -> by by intros [].
    cbn [fst snd rbind].
    assert ((if MaxSchemaBlobSize <=? glen d then take (Z.to_nat MaxSchemaBlobSize) d else d) = take (Z.to_nat MaxSchemaBlobSize) d) as ->.
    { destruct (Z.leb_spec MaxSchemaBlobSize (glen d)); [done|]. rewrite take_ge; [done|]. unfold glen in *. lia. }
    assert ((pre ++ br :: b :: rest) !! (length pre + 1)%nat = Some b) as ->.
    { rewrite lookup_app_r by lia. by replace (length pre + 1 - length pre)%nat with 1%nat by lia. }
    destruct (Index.contains _ _) eqn:Ec; (split; [done|]; split; [done|]); cbn; (split; [done|]); [by exists d|].
    intros _ (d' & Hd' & Hc). assert (d' = d) as -> by congruence. by rewrite Ec in Hc.
  - split; [done|]. split; [done|]. cbn. split; [done|]. intros Hf (d & Hd & _). rewrite Hr in Hd by done. done.
Qed.

Lemma checkChain_cons chain s i br rest t :
  checkChain now chain s i (br :: rest) t =
    match checkLink now chain s i br t with
    | (s, Ok (inr t)) => checkChain now chain s (Datatypes.S i) rest t
    | x => x
    end.
Proof. done. Qed.

Lemma checkChain_later s pre br rest t : st_wf s -> pre <> [] ->
  checks s (checkChain now (pre ++ br :: rest) s (length pre) (br :: rest) t)
    (fun t' => t' = t /\ path (st_view s) br rest) (path (st_view s) br rest).
Proof.
  revert s pre br. induction rest as [|b rest IH]; intros s pre br Hwf Hpre; rewrite checkChain_cons;
    (pose proof (checkLink_later s pre br) as Hl).
  - specialize (Hl [] t Hwf Hpre). destruct (checkLink _ _ _ _ _ _) as [s' [[se|t']|e|p|]]; destruct Hl as (Hwf' & Hv & Hl); cbn in Hl; by split_and!.
  - specialize (Hl (b :: rest) t Hwf Hpre). destruct (checkLink _ _ _ _ _ _) as [s' [[se|t']|e|p|]]; destruct Hl as (Hwf' & Hv & Hl); cbn in Hwf', Hv, Hl; try done.
    + split_and!; try done; cbn. destruct Hl as [Hse Hl]. split; [done|]. intros Hf [Hlk _]. by apply Hl.
    + destruct Hl as [-> Hlk]. specialize (IH s' (pre ++ [br]) b Hwf' ltac:(intros [_ ?]%app_nil; discriminate)).
      rewrite <- app_assoc, length_app, Nat.add_1_r in IH. cbn [app] in IH. rewrite Hv in IH.
      destruct IH as (Hwf2 & Hv2 & Hx). split; [exact Hwf2|]. split; [exact (eq_trans Hv2 Hv)|].
      revert Hx. destruct ((checkChain now (pre ++ br :: b :: rest) s' (S (length pre)) (b :: rest) t).2) as [[se|t']|e|p|]; intros Hx; [| |done..].
      * destruct Hx as [Hse Hx]. split; [done|]. intros Hf [_ Hp]. by apply (Hx Hf).
      * by destruct Hx as [-> Hp].
Qed.

Lemma checkChain_spec s sr rest : st_wf s -> Forall (fun r => refWf r = true) rest ->
  checks s (checkChain now (sr :: rest) s 0 (sr :: rest) false) (granted (st_view s) now (sr :: rest))
    (exists t, granted (st_view s) now (sr :: rest) t).
Proof.
  intros Hwf Hrefs. rewrite checkChain_cons. unfold checkLink. rewrite decide_True by done.
  destruct (st_Fetch s sr) as [s' r] eqn:E. apply fetched in E as (Hwf' & Hv & Hr); [|done].
  destruct r as [[d n]|e|p|]; [| |done..].
  2: { split; [done|]. split; [done|]. cbn. split; [done|]. intros Hf (t & share & (d & b & Hd & _) & _). by rewrite Hr in Hd. }
  destruct Hr as [Hd ->]. pose proof (checkShare_spec _ now (sr :: rest) sr d Hd) as Hs.
  destruct (checkShare _ _ _ _ _) as [[se|t]|e|p|]; [| |done..].
  - destruct Hs as [Hse Hs]. split; [done|]. split; [done|]. cbn. split; [done|]. intros _ (t & share & Hval & Ht & Hrest).
    destruct (Hs share Hval) as [[Hl Hn]|(hop & Hh & Hne)].
    + destruct rest as [|b [|? ?]]; cbn in Hl; [lia..|]. destruct Hrest as (_ & [?|?] & _); [done|congruence].
    + destruct rest as [|b rest]; [done|]. cbn in Hh. injection Hh as <-. destruct Hrest as (-> & _). done.
  - destruct Hs as (share & Hval & Ht & Hl & Hhop). destruct rest as [|b rest].
    { split; [done|]. split; [done|]. cbn. by exists share. }
    assert (b = Target share) as Hb.
    { apply RefString_target; [by inversion Hrefs|by eapply Target_ref|]. by apply Hhop. }
    pose proof (checkChain_later s' [sr] b rest t Hwf' ltac:(done)) as Hc. cbn [app length] in Hc. rewrite Hv in Hc.
    destruct Hc as (Hwf2 & Hv2 & Hc). split; [exact Hwf2|]. split; [exact (eq_trans Hv2 Hv)|]. revert Hc.
    destruct ((checkChain now (sr :: b :: rest) s' 1 (b :: rest) t).2) as [[se|t']|e|p|]; intros Hc; [| |done..].
    + destruct Hc as [Hse Hc]. split; [done|]. intros Hf (t' & share' & _ & _ & _ & _ & Hp). by apply (Hc Hf).
    + destruct Hc as [-> Hp]. exists share. split; [done|]. split; [done|]. split; [done|]. split; [|done].
      destruct rest; [by left|]. right. apply Hl. cbn. lia.
Qed.
End chain_proofs.

(** * Chains and what is shared *)

Lemma path_rtc m a pre b : path m a (pre ++ [b]) -> rtc (links m) a b.
Proof.
  revert a. induction pre as [|c pre IH]; intros a [Hl Hp]; [by apply rtc_once|]. apply (rtc_l _ _ c); [done|]. by apply IH.
Qed.

Lemma rtc_path m a b : rtc (links m) a b -> a = b \/
  exists pre, path m a (pre ++ [b]) /\ Forall (fun r => is_Some (m !! r)) (a :: pre).
Proof.
  induction 1 as [|a c b Hl _ IH]; [by left|]. right. assert (is_Some (m !! a)) as Ha by (destruct Hl as (d & Hd & _); by exists d).
  destruct IH as [<-|(pre & Hp & Hf)]; [exists []; split; [done|by constructor]|]. exists (c :: pre). split; [done|by constructor].
Qed.

Lemma granted_shared m now via br t : granted m now (via ++ [br]) t -> shared m now br /\
  (t = true -> exists sr share, validShare m now sr share /\ IsTransitive share = true /\ (br = sr \/ rtc (links m) (Target share) br)).
Proof.
  destruct via as [|sr via]; cbn [app granted].
  { intros (share & Hval & Ht & _). split; [by econstructor|]. intros ->. exists br, share. by auto. }
  intros (share & Hval & Ht & Hrest). destruct via as [|b via]; cbn [app] in Hrest.
  { destruct Hrest as (-> & _). split; [by econstructor|]. intros ->. exists sr, share. split; [done|]. split; [done|]. by right. }
  destruct Hrest as (-> & Hor & Hp). assert (t = true) as -> by (destruct Hor as [?%app_nil|?]; [naive_solver|done]).
  apply path_rtc in Hp. split; [by eapply shared_reach|]. intros _. exists sr, share. by auto.
Qed.

Lemma validShare_some m now sr share : validShare m now sr share -> is_Some (m !! sr).
Proof. intros (d & b & Hd & _). by exists d. Qed.

(** What is shared has a chain, of references that can be written. *)
Lemma shared_granted m now br : goodBlobs m -> refWf br = true -> shared m now br ->
  exists via t, granted m now (via ++ [br]) t /\ Forall (fun r => refWf r = true) via.
Proof.
  intros Hm Hbr Hs. assert (forall r, is_Some (m !! r) -> refWf r = true) as Hwf by (intros r [d Hd]; by destruct (Hm r d Hd) as [[? _] _]).
  destruct Hs as [sr share Hval|sr share Hval|sr share br Hval Ht Hr].
  - exists [], (IsTransitive share). split; [by exists share|done].
  - exists [sr], (IsTransitive share). split; [cbn; exists share; split_and!; by auto|]. constructor; [|done]. apply Hwf. by eapply validShare_some.
  - pose proof (Hwf sr (validShare_some _ _ _ _ Hval)) as Hsr.
    destruct (rtc_path _ _ _ Hr) as [<-|(pre & Hp & Hf)]; [exists [sr], true; split; [cbn; exists share; split_and!; by auto|by constructor]|].
    exists (sr :: Target share :: pre), true. split; [cbn; exists share; split_and!; by auto|]. constructor; [done|].
    eapply Forall_impl; [exact Hf|]. exact Hwf.
Qed.

(** * Requests *)

Lemma blobParse_wf s r : blobParse s = Some r -> refWf r = true.
Proof. unfold blobParse. destruct (Parse s) as [o|e|p|] eqn:E; intros Ho; [|done..]. subst o. by apply Parse_inv in E as [? _]. Qed.

Lemma viaBlobs_wf req via : viaBlobs req = Some via -> Forall (fun r => refWf r = true) via.
Proof.
  unfold viaBlobs. destruct (decide _); [by intros [= <-]|]. generalize (splitOn ","%char (rq_via req)). intros l. revert via.
  induction l as [|v l IH]; intros via; cbn [parseVia]; [by intros [= <-]|]. destruct (blobParse v) as [br|] eqn:E; [|done].
  intros (via' & Hv & ->)%fmap_Some. constructor; [by eapply blobParse_wf|by apply IH].
Qed.

(** The text of a "via" parameter. *)
Fixpoint viaText (via : list Ref) : gostr :=
  match via with [] => [] | r :: via => RefString r ++ match via with [] => [] | _ => ","%char :: viaText via end end.

Lemma RefString_without (c : ascii) r : refWf r = true -> ~ refChar c -> c ∉ RefString r.
Proof. intros Hr Hc Hin. apply Hc. pose proof (RefString_chars r Hr) as Hf. rewrite Forall_forall in Hf. by apply Hf. Qed.

Lemma notRefChar_comma : ~ refChar ","%char.
Proof. by intros [?|?]. Qed.
Lemma notRefChar_slash : ~ refChar "/"%char.
Proof. by intros [?|?]. Qed.

Lemma viaBlobs_text req via : rq_via req = viaText via -> Forall (fun r => refWf r = true) via -> viaBlobs req = Some via.
Proof.
  intros Hreq Hwf. unfold viaBlobs. rewrite Hreq. destruct via as [|r via]; [by rewrite decide_True|].
  rewrite decide_False.
  2: { cbn. intros [Hr _]%app_nil. inversion Hwf as [|? ? Hw _]; subst. pose proof (blobParse_String r Hw) as Hb. by rewrite Hr in Hb. }
  clear Hreq. revert r Hwf. induction via as [|q via IH]; intros r [Hr Hwf]%Forall_cons; cbn [viaText].
  - rewrite app_nil_r, splitOn_noSep by (by apply RefString_without, notRefChar_comma). cbn [parseVia]. by rewrite blobParse_String.
  - rewrite splitOn_cons by (by apply RefString_without, notRefChar_comma). cbn [parseVia]. rewrite blobParse_String by done.
    change (RefString q ++ _) with (viaText (q :: via)). by rewrite IH.
Qed.

Lemma upToSlash_id s : "/"%char ∉ s -> upToSlash s = s.
Proof. induction s as [|c s IH]; [done|]. intros [Hc Hs]%not_elem_of_cons. cbn. rewrite decide_False by done. by rewrite IH. Qed.

Lemma sharePart_ref req br : PathSuffix req = RefString br -> refWf br = true -> blobParse (sharePart req) = Some br.
Proof.
  intros Hp Hbr. unfold sharePart. rewrite Hp. rewrite decide_False.
  - rewrite upToSlash_id by (by apply RefString_without, notRefChar_slash). by apply blobParse_String.
  - intros Hr. pose proof (blobParse_String br Hbr) as Hb. by rewrite Hr in Hb.
Qed.

(** * What is served *)

(** A response has nothing but the blob [br], or the file that it is; files
    are assembled of transitive shares only. *)
Definition servesFrom {F} (m : blobs) (now : gotime) (br : Ref) (resp : Response F) : Prop :=
  match resp with
  | RContent _ _ (CBytes d) => m !! br = Some d
  | RContent _ _ (CFakeSeeker d n) => m !! br = Some d /\ n = glen d
  | RContent _ _ (CFile _ fr) =>
      (exists text ss, m !! br = Some text /\ parseSuperset (text, Ok tt) = Ok ss /\ fr_ss fr = setBlobRef br ss) /\
      exists sr share, validShare m now sr share /\ IsTransitive share = true /\ (br = sr \/ rtc (links m) (Target share) br)
  | _ => True
  end.

Section serve_proofs.
Context {F : Type} `{StorageLaws F}.
Variable DetectContentType : gostr -> gostr.
Variable depth : nat.
Variable now : gotime.
Implicit Types s : F.

Lemma ServeBlobRef_spec s req br : st_wf s ->
  match (ServeBlobRef s req br).2 with
  | Ok (RContent _ _ (CBytes d)) => st_view s !! br = Some d
  | Ok (RContent _ _ (CFakeSeeker d n)) => st_view s !! br = Some d /\ n = glen d
  | Ok (RContent _ _ (CFile _ _)) => False
  | Ok (RServeError _ | RNotFound _) => fetches (S := F) -> forall d, st_view s !! br = Some d -> MaxBlobSize < glen d
  | _ => False
  end.
Proof.
  intros Hwf. unfold ServeBlobRef. destruct (st_Fetch s br) as [s' r] eqn:E. apply fetched in E as (_ & _ & Hr); [|done].
  destruct r as [[d n]|e|p|]; [| |done..].
  - destruct Hr as [Hd ->]. destruct (_ || _); [|by split].
    assert (match FromReader (d, Ok tt) (glen d) with Ok b => b = d | Err _ => MaxBlobSize < glen d | _ => False end) as Hf.
    { unfold FromReader. cbn [fst snd]. rewrite Z.ltb_irrefl. by destruct (Z.ltb_spec MaxBlobSize (glen d)). }
    destruct (FromReader _ _) as [b|e|p|]; cbn; [by subst b| |done..]. intros _ d' Hd'. by assert (d' = d) as -> by congruence.
  - destruct (decide _); cbn; intros Hf d Hd; by rewrite Hr in Hd.
Qed.

Lemma NewFileReader_superset s br s' r fr : st_wf s -> NewFileReader s br = (s', Ok (r, fr)) ->
  exists text ss, st_view s !! br = Some text /\ parseSuperset (text, Ok tt) = Ok ss /\ fr_ss fr = setBlobRef br ss.
Proof.
  intros Hwf. unfold NewFileReader. destruct (negb _); [done|]. destruct (st_Fetch s br) as [s1 x] eqn:E.
  apply fetched in E as (_ & _ & Hx); [|done]. destruct x as [[d n]|e|p|]; try done. destruct Hx as [Hd _].
  destruct (parseSuperset _) as [ss|e|p|] eqn:Es; try done. destruct (bool_decide _); [|done]. intros [= _ Hfr].
  apply rbind_Ok in Hfr as (fr' & Hfr & [= _ <-]). unfold ssNewFileReader in Hfr. destruct (bool_decide _); [|done].
  apply rbind_Ok in Hfr as (z & _ & [= <-]). by exists d, ss.
Qed.

Lemma DownloadServeHTTP_spec mime s req br s' resp : st_wf s -> DownloadServeHTTP DetectContentType depth mime s req br = (s', Ok resp) ->
  match resp with
  | RContent _ _ (CFile _ fr) => exists text ss, st_view s !! br = Some text /\ parseSuperset (text, Ok tt) = Ok ss /\ fr_ss fr = setBlobRef br ss
  | RContent _ _ _ | RUnauthorized => False
  | _ => True
  end.
Proof.
  intros Hwf. unfold DownloadServeHTTP. destruct (negb _); [by intros [= _ <-]|]. destruct (decide _); [by intros [= _ <-]|].
  destruct (NewFileReader s br) as [s1 x] eqn:E. destruct x as [[r fr]|e|p|]; [|by intros [= _ <-]|done..].
  destruct (MIMETypeFromReaderAt _ _ _ _) as [r1 [mt|e|p|]]; try done. destruct (_ && _); [|].
  - destruct (blobParse _) as [vbr|]; [|by intros [= _ <-]]. destruct (Hash vbr) as [[h|]|e|p|]; try done; [|by intros [= _ <-]].
    destruct (copyAll _ _ _) as [r2 [bs|e|p|]]; try done. by intros [= _ <-].
  - intros [= _ <-]. by eapply NewFileReader_superset.
Qed.

(** The walk of a request that is well formed. *)
Lemma handle_walk s req br via : st_wf s -> IsGet req = true -> viaBlobs req = Some via -> refWf br = true ->
  exists s1, st_wf s1 /\ st_view s1 = st_view s /\
  ((exists t, granted (st_view s) now (via ++ [br]) t /\
     handleGetViaSharing DetectContentType depth now s req br =
       if parseBool (rq_assemble req) then
         if negb t then (s1, Ok (inl (unauthorized assembleNonTransitive)))
         else fbind (DownloadServeHTTP DetectContentType depth [] s1 req br) (fun s resp => (s, Ok (inr resp)))
       else fbind (ServeBlobRef s1 req br) (fun s resp => (s, Ok (inr resp)))) \/
   (exists se, handleGetViaSharing DetectContentType depth now s req br = (s1, Ok (inl se)) /\ se_response se = unauthorizedRequest /\
     (fetches (S := F) -> ~ exists t, granted (st_view s) now (via ++ [br]) t))).
Proof.
  intros Hwf Hget Hvia Hbr. unfold handleGetViaSharing. rewrite Hget, Hvia. cbn [negb].
  assert (exists sr rest, via ++ [br] = sr :: rest /\ Forall (fun r => refWf r = true) rest) as (sr & rest & -> & Hrest).
  { assert (Forall (fun r => refWf r = true) (via ++ [br])) as Hf by (apply Forall_app; split; [by eapply viaBlobs_wf|by constructor]).
    destruct (via ++ [br]) as [|sr rest] eqn:E; [by apply app_nil in E as [_ ?]|]. inversion Hf. by exists sr, rest. }
  pose proof (checkChain_spec now s sr rest Hwf Hrest) as Hc.
  destruct (checkChain _ _ _ _ _ _) as [s1 [[se|t]|e|p|]]; destruct Hc as (Hwf1 & Hv1 & Hc); cbn in Hwf1, Hv1, Hc; [| |done..];
    exists s1; (split; [done|]); (split; [done|]).
  - right. exists se. split; [done|]. exact Hc.
  - left. exists t. by split.
Qed.

(** C3. The share handler gives nobody what is not shared.  Whatever request
    is sent, a response without an error is to a well-formed reference of a
    blob that is an unexpired share, the target of one, or reachable by links
    from the target of a transitive one; it has the bytes of that very blob,
    or the file it is when a transitive share leads to it.  A response with an
    error is one of two fixed ones and has no bytes of any blob. *)
Theorem share_serves_only_shared (s : F) (req : request) (s' : F) (resp : Response F) (e : option shareError)
    (Hwf : st_wf s) (Hserve : shareServeHTTP DetectContentType depth now s req = (s', Ok (resp, e))) :
  match e with
  | Some se => resp = RUnauthorized \/ resp = RError 400 "<h1>Bad Request</h1>"
  | None => exists br, blobParse (sharePart req) = Some br /\ shared (st_view s) now br /\ servesFrom (st_view s) now br resp
  end.
Proof.
  unfold shareServeHTTP in Hserve. destruct (blobParse (sharePart req)) as [br|] eqn:Eb; [|injection Hserve as _ <- <-; by right].
  pose proof (blobParse_wf _ _ Eb) as Hbr.
  assert (forall s1 se, (s1, Ok (errorResponse se, Some se)) = (s', Ok (resp, e)) ->
    exists se, e = Some se /\ (resp = RUnauthorized \/ resp = RError 400 "<h1>Bad Request</h1>")) as Herr.
  { intros s1 se [= _ <- <-]. exists se. split; [done|]. unfold errorResponse. destruct (se_response se); auto. }
  destruct (IsGet req) eqn:Hget; [|unfold handleGetViaSharing in Hserve; rewrite Hget in Hserve; by apply Herr in Hserve as (se & -> & ?)].
  destruct (viaBlobs req) as [via|] eqn:Hvia;
    [|unfold handleGetViaSharing in Hserve; rewrite Hget, Hvia in Hserve; by apply Herr in Hserve as (se & -> & ?)].
  destruct (handle_walk s req br via Hwf Hget Hvia Hbr) as (s1 & Hwf1 & Hv1 & [(t & Hg & Hh)|(se & Hh & _)]); rewrite Hh in Hserve;
    [|by apply Herr in Hserve as (se' & -> & ?)].
  apply granted_shared in Hg as [Hshared Htrans]. destruct (parseBool _).
  - destruct t; cbn [negb] in Hserve; [|by apply Herr in Hserve as (se' & -> & ?)].
    destruct (DownloadServeHTTP _ _ _ _ _ _) as [s2 [resp'|er|p|]] eqn:Ed; try done. cbn in Hserve. injection Hserve as _ <- <-.
    apply DownloadServeHTTP_spec in Ed; [|done]. rewrite Hv1 in Ed. exists br. split; [done|]. split; [done|].
    destruct resp' as [| | | | | | |? ? [?|? ?|r fr]]; try done. by split; [|apply Htrans].
  - pose proof (ServeBlobRef_spec s1 req br Hwf1) as Hs. rewrite Hv1 in Hs.
    destruct (ServeBlobRef s1 req br) as [s2 [resp'|er|p|]]; try done. cbn in Hserve, Hs. injection Hserve as _ <- <-.
    exists br. split; [done|]. split; [done|]. by destruct resp' as [| | | | | | |? ? [?|? ?|r fr]].
Qed.

(** To a request whose chain is not granted the handler answers the same,
    whatever blobs it has and whichever test failed, so that the response does
    not tell whether a blob exists. *)
Theorem share_refuses_alike (s : F) (req : request) (br : Ref) (via : list Ref) (Hwf : st_wf s)
    (Hget : IsGet req = true) (Hvia : viaBlobs req = Some via) (Hbr : blobParse (sharePart req) = Some br)
    (Hno : forall t, ~ granted (st_view s) now (via ++ [br]) t) :
  exists se, (shareServeHTTP DetectContentType depth now s req).2 = Ok (RUnauthorized, Some se).
Proof.
  unfold shareServeHTTP. rewrite Hbr.
  destruct (handle_walk s req br via Hwf Hget Hvia (blobParse_wf _ _ Hbr)) as (s1 & _ & _ & [(t & Hg & _)|(se & -> & Hse & _)]); [by apply Hno in Hg|].
  exists se. cbn. unfold errorResponse. by rewrite Hse.
Qed.

(** C4. What is shared can be had: for every blob that is shared there is a
    list of references such that a request for it with that list as its "via"
    parameter is answered with the bytes of the blob, when the storage does
    not fail. *)
Theorem share_serves_all_shared (s : F) (br : Ref) (d : gostr) (Hwf : st_wf s) (Hfetch : fetches (S := F))
    (Hd : st_view s !! br = Some d) (Hmax : glen d <= MaxBlobSize) (Hshared : shared (st_view s) now br) :
  exists via, forall req, rq_Method req = gs "GET" -> PathSuffix req = RefString br -> rq_via req = viaText via ->
    parseBool (rq_assemble req) = false ->
    exists s' ctype c, shareServeHTTP DetectContentType depth now s req = (s', Ok (RContent ctype None c, None)) /\
      (c = CBytes d \/ c = CFakeSeeker d (glen d)).
Proof.
  assert (refWf br = true) as Hbr by (by destruct (st_wf_good s Hwf br d Hd) as [[? _] _]).
  destruct (shared_granted _ now br (st_wf_good s Hwf) Hbr Hshared) as (via & t & Hg & Hvia). exists via.
  intros req Hm Hp Hv Ha. unfold shareServeHTTP. rewrite (sharePart_ref req br Hp Hbr).
  assert (IsGet req = true) as Hget by (unfold IsGet; by rewrite Hm).
  destruct (handle_walk s req br via Hwf Hget (viaBlobs_text req via Hv Hvia) Hbr) as (s1 & Hwf1 & Hv1 & [(t' & _ & ->)|(se & _ & _ & Hno)]).
  2: { destruct (Hno Hfetch). by exists t. }
  rewrite Ha. pose proof (ServeBlobRef_spec s1 req br Hwf1) as Hs. rewrite Hv1 in Hs. unfold ServeBlobRef in *.
  destruct (st_Fetch s1 br) as [s2 [[rc n]|e|p|]]; [| |done..]; cbn [snd] in Hs.
  - destruct (_ || _).
    + destruct (FromReader _ _) as [b|e|p|]; cbn in Hs; [|specialize (Hs Hfetch d Hd); lia|done..].
      eexists _, _, _. split; [reflexivity|]. left. congruence.
    + destruct Hs as [Hs ->]. eexists _, _, _. split; [reflexivity|]. right. congruence.
  - destruct (decide _); cbn in Hs; specialize (Hs Hfetch d Hd); lia.
Qed.
End serve_proofs.

(** * Examples *)

(** A blob, a blob with its reference, and a transitive share of the latter. *)
Definition monkey : gostr := gs "monkey".
Definition monkeyLink : gostr := RefString (refOf monkey).

Definition shareText (transitive : bool) (expires : gotime) : gostr :=
  match
    (let? bb := NewShareRef exampleNow ShareHaveRef transitive in
     let? bb := SetShareTarget bb (refOf monkeyLink) in
     let? bb := SetShareExpiration bb expires in
     let? bb := SetShareIsTransitive bb transitive in
     Blob_ (<[gs "camliSig" := VStr (gs "x")]> (SetSigner bb (refOf (gs "key")))))
  with Ok b => b_str b | _ => [] end.

Definition exampleShares : blobs := blobsOf [monkey; monkeyLink; shareText true 0; shareText false 0].
Definition exampleReq (sr : Ref) (via : list Ref) (assemble : gostr) : request :=
  MkReq (gs "GET") [] (RefString sr) [] [] (viaText via) assemble [].
Definition toyDetect (hdr : gostr) : gostr := octetStream.
Definition tryShare (m : blobs) (now : gotime) (br : Ref) (via : list Ref) : res (Response blobs * option shareError) :=
  (shareServeHTTP toyDetect 3 now m (exampleReq br via [])).2.

(** The cases of the repository's test. *)
Definition codeOf (x : res (Response blobs * option shareError)) : errorCode :=
  match x with Ok (_, Some se) => se_code se | _ => noError end.

Example share_cases :
  let late := exampleNow + 1 in
  let t := refOf (shareText true 0) in
  let f := refOf (shareText false 0) in
  let m := exampleShares in
  (codeOf (tryShare ∅ late t []), codeOf (tryShare m late (refOf monkey) [t]), codeOf (tryShare m late (refOf monkeyLink) []),
   codeOf (tryShare m late f []), codeOf (tryShare m late (refOf monkeyLink) [f]), codeOf (tryShare m late (refOf monkey) [f; refOf monkeyLink]),
   codeOf (tryShare m late (refOf monkeyLink) [t; refOf monkeyLink]), codeOf (tryShare m late (refOf monkey) [t; refOf monkeyLink]),
   codeOf (tryShare (blobsOf [monkey; monkeyLink; shareText true exampleNow]) late (refOf monkey)
     [refOf (shareText true exampleNow); refOf monkeyLink])) =
  (shareFetchFailed, shareTargetInvalid, shareReadFailed, noError, noError, shareNotTransitive, viaChainInvalidLink, noError, shareExpired).
Proof. vm_compute. reflexivity. Qed.

Lemma exampleShares_good : goodBlobs exampleShares.
Proof. apply blobsOf_good. repeat (apply Forall_cons; split); try apply Forall_nil_2; apply (bool_decide_unpack _); vm_compute; exact I. Qed.

Lemma exampleShares_fetch : fetches (S := blobs).
Proof. intros s br d _ Hd. change (ft_view s) with s in Hd. cbn [st_Fetch st_fetcher map_Storage map_Fetcher snd]. rewrite Hd. reflexivity. Qed.

Lemma exampleShares_shared : shared exampleShares (exampleNow + 1) (refOf monkey).
Proof.
  assert (match BlobFromReader (refOf (shareText true 0)) (shareText true 0) with
          | Ok b => match AsShare b with
                    | Some sh => negb (IsExpired (exampleNow + 1) sh) && IsTransitive sh && bool_decide (Target sh = refOf monkeyLink)
                    | None => false end
          | _ => false end = true) as Hc by (vm_compute; reflexivity).
  destruct (BlobFromReader _ _) as [b|e|p|] eqn:Eb; [|discriminate Hc..]. destruct (AsShare b) as [sh|] eqn:Es; [|discriminate Hc].
  apply andb_prop in Hc as [Hc Ht%bool_decide_eq_true]. apply andb_prop in Hc as [He Htr]. apply negb_true_iff in He.
  apply (shared_reach _ _ (refOf (shareText true 0)) sh).
  - exists (shareText true 0), b. split; [vm_compute; reflexivity|]. split; [vm_compute; discriminate|]. split; [exact Eb|]. split; [exact Es|exact He].
  - exact Htr.
  - rewrite Ht. apply rtc_once. exists monkeyLink. split; vm_compute; reflexivity.
Qed.

Lemma share_serves_only_shared_witness :
  match shareServeHTTP toyDetect 3 (exampleNow + 1) exampleShares (exampleReq (refOf monkey) [refOf (shareText true 0); refOf monkeyLink] []) with
  | (_, Ok (resp, None)) => exists br, blobParse (RefString (refOf monkey)) = Some br /\ shared exampleShares (exampleNow + 1) br /\
      servesFrom exampleShares (exampleNow + 1) br resp
  | _ => False
  end.
Proof.
  assert (match shareServeHTTP toyDetect 3 (exampleNow + 1) exampleShares
            (exampleReq (refOf monkey) [refOf (shareText true 0); refOf monkeyLink] []) with
          | (_, Ok (_, None)) => true | _ => false end = true) as Hok by (vm_compute; reflexivity).
  destruct (shareServeHTTP _ _ _ _ _) as [s' [[resp [se|]]|e|p|]] eqn:E; [discriminate Hok| |discriminate Hok..].
  pose proof (share_serves_only_shared toyDetect 3 (exampleNow + 1) exampleShares _ s' resp None exampleShares_good E) as Hs.
  exact Hs.
Defined.

Lemma share_refuses_alike_witness : exists se,
  (shareServeHTTP toyDetect 3 exampleNow exampleShares (exampleReq (refOf monkey) [refOf monkeyLink] [])).2 = Ok (RUnauthorized, Some se).
Proof.
  apply (share_refuses_alike toyDetect 3 exampleNow exampleShares (exampleReq (refOf monkey) [refOf monkeyLink] []) (refOf monkey) [refOf monkeyLink]).
  - exact exampleShares_good.
  - reflexivity.
  - vm_compute. reflexivity.
  - vm_compute. reflexivity.
  - intros t (share & (d & b & Hd & _ & Hb & _) & _).
    assert (exampleShares !! refOf monkeyLink = Some monkeyLink) as Hl by (vm_compute; reflexivity).
    assert (d = monkeyLink) as -> by (change (exampleShares !! refOf monkeyLink = Some d) in Hd; congruence).
    assert (is_ok (BlobFromReader (refOf monkeyLink) monkeyLink) = false) as Hn by (vm_compute; reflexivity). by rewrite Hb in Hn.
Defined.

Lemma share_serves_all_shared_witness : exists via, forall req : request, rq_Method req = gs "GET" -> PathSuffix req = RefString (refOf monkey) ->
  rq_via req = viaText via -> parseBool (rq_assemble req) = false ->
  exists s' ctype c, shareServeHTTP toyDetect 3 (exampleNow + 1) exampleShares req = (s', Ok (RContent ctype None c, None)) /\
    (c = CBytes monkey \/ c = CFakeSeeker monkey (glen monkey)).
Proof.
  apply (share_serves_all_shared toyDetect 3 (exampleNow + 1) exampleShares (refOf monkey) monkey).
  - exact exampleShares_good.
  - exact exampleShares_fetch.
  - vm_compute. reflexivity.
  - vm_compute. discriminate.
  - exact exampleShares_shared.
Defined.

(** A share of both a blob and a search is taken for a share of the blob. *)
Example share_of_both :
  match
    (let? bb := NewShareRef exampleNow ShareHaveRef false in
     let? bb := SetShareTarget bb (refOf monkey) in
     Blob_ (<[gs "search" := VMap []]> (<[gs "camliSig" := VStr (gs "x")]> (SetSigner bb (refOf (gs "key"))))))
  with Ok b => match AsShare b with Some sh => RefString (Target sh) | None => [] end | _ => [] end = RefString (refOf monkey).
Proof. vm_compute. reflexivity. Qed.

(** A path that ends in a reference names it, whatever comes before; the
    pattern is not anchored at the start. *)
Example get_unanchored :
  let path := gs "/x/camli/y/camli/" ++ RefString (refOf monkey) in
  match (getServeHTTP exampleShares (MkReq (gs "GET") path [] [] [] [] [] [])).2 with
  | Ok (RContent ctype _ (CBytes d)) => (ctype, d) = (textPlain, monkey)
  | _ => False
  end.
Proof. vm_compute. reflexivity. Qed.
